(* ===== verification/_CoqProject ===== *)
-Q . S2P
Prelude.v
Format.v
Mvcc.v
Page.v
PageSpec.v
PageOps.v
PageCompact.v
PageProps.v
PageHints.v
LockMgr.v
LockProps.v
Txn.v
TxnProps.v
Ssi.v
WalCodec.v
WalCodecProps.v
Wal.v
WalInv.v
WalProps.v
WalClaims.v
BufferPool.v
BufferPoolProps.v
Control.v
ControlProps.v
BTreeNode.v
BTreeNodeProps.v
LogPayload.v
Recovery.v
HeapRead.v
HeapReadProps.v
Heap.v
RedoPage.v
HeapLog.v
HeapDurable.v
HeapProps.v
RecoveryProps.v
BTree.v
BTreeSpec.v
BTreeStore.v
BTreeInsert.v
BTreeDescent.v
BTreeSearch.v
BTreeRead.v
BTreeReader.v
BTreeUpdate.v
BTreeProps.v
HeapFsm.v
Text.v
Datetime.v
Float.v
SqlTypes.v
SqlValue.v
SqlValueProps.v
SqlRow.v
SqlRowProps.v
SortBy.v
SqlStats.v
SqlExpr.v
SqlExprProps.v
ParallelScan.v
WorkerPool.v
SqlSelect.v
SqlSelectProps.v
SqlIndexProps.v
SqlSelectCases.v
SqlQuery.v
SqlSort.v
SqlAgg.v
SqlJoin.v
SqlJoinProps.v
SqlMergeProps.v
SqlWindow.v
SqlWindowProps.v
