(* ===== verification/Prelude.v ===== *)
(** * A verification of the unidb storage engine

    unidb is an embedded SQL database written in Rust.  This development models its
    storage and transaction core, from the bytes of a page to crash recovery, as
    executable definitions, and proves what makes each part correct and what makes
    them correct together.  Where the code does not do what it means to, a theorem
    says what it does instead.

    ** The program, and which file models which part

    - [Prelude] (this file): outcomes of fallible code ([Ok], [Err], [Panic]), byte
      lists, slices, little-endian numbers, the tactics and hint databases.
    - [Format]: [src/format.rs] and [src/error.rs]; and the state and error monad
      [op S A := S -> Result A * S] in which stateful code is written.
    - [Page]: [src/page.rs], every operation of [SlottedPage] on the bytes.
      [PageSpec] has the layout invariant [page_wf] and the abstract page (a list of
      line pointers), [PageOps] and [PageCompact] the operations against it,
      [PageHints] pages up to hint bits, [PageProps] the theorems.
    - [Mvcc]: [src/mvcc.rs], snapshots and visibility.
    - [LockMgr], [LockProps]: [src/lockmgr.rs], the lock table, its wait-for graph
      and the depth-first search for deadlocks.
    - [Txn], [TxnProps], [Ssi]: [src/txn.rs], transaction ids, snapshots, the vacuum
      horizon, commit, abort, and serializable snapshot isolation.
    - [WalCodec], [WalCodecProps]: the bytes of [src/wal.rs].  [Wal], [WalInv],
      [WalProps], [WalClaims]: its state: segments, buffered writer, rotation and
      background sealing, both fsync paths, truncation, shipping, reopening, crash.
    - [BufferPool], [BufferPoolProps]: [src/bufferpool.rs], frames, pins, the clock
      sweep, write-back behind the log, full-page images, page latches.
    - [Control], [ControlProps]: [src/control.rs], [src/checkpoint.rs] and the part
      of [Engine::open] in [src/lib.rs] that resumes counters.
    - [src/btree_index.rs]: [BTreeNode], [BTreeNodeProps] have keys, nodes and the redo
      of a leaf insertion; [BTree] the operations of [DiskBTree] on pool and log;
      [BTreeSpec] the abstract tree, its order, balance and paths; [BTreeStore] the
      tree that the pages of a pool hold ([tree_at]); [BTreeInsert] splits that go up,
      [BTreeDescent] the leaf, the descent and the new root; [BTreeSearch],
      [BTreeRead], [BTreeReader] descents, scans and checks; [BTreeUpdate] removal and
      updates; [BTreeProps] creation, bulk insertion and concrete runs.  [HeapFsm]
      makes it the heap's durable free-space map.
    - [LogPayload]: the payloads of heap records, as written and as decoded.
    - [Recovery]: [src/recovery.rs], analysis, redo, undo.
    - [HeapRead], [HeapReadProps]: the read paths of [src/heap.rs].  [Heap]: its
      write paths, page selection, batches, undo operations and vacuum.
    - [RedoPage]: redo on one page.  [HeapLog]: every page write of a heap operation
      is one of the changes that redo repeats, made under a record that is in the
      log.  [HeapDurable], [HeapProps], [RecoveryProps]: the theorems on the heap and
      on recovery.

    ** How the model corresponds to the code

    A struct is a [Record] with the fields of the source, an enum an [Inductive], a
    function or method a [Definition] of the same name where that is free, or with
    the component's name in front ([heap_insert] for [Heap::insert]).  Machine
    integers are [Z] with the wrap-around of a narrowing cast written out; a panic is
    a value.  A component behind a mutex is a state and its operations are functions
    on it; interleavings are sequences of operations ([lock_step], [sys_step],
    [wal_step], [pool_step]), and invariants are proved of every reachable state.
    The two stages of the log's group fsync and of its sealer are separate steps, so
    that other operations come between them.

    The outcomes of system calls are arguments ([Calls], [PoolCalls], [CtlCalls]): an
    operation is given, for each call it may make, whether the call fails and how
    much of it is done.  What a crash keeps is any prefix of the bytes written after
    the last fsync of a file.  The checksum of the crate crc32fast is the class
    [Crc32]; theorems hold for every function, witnesses use a byte sum.  The durable
    free-space map of a heap is used through the class [FsmTree], of which the B+tree is
    an instance ([disk_fsm]); the transaction manager undoes through [TxnUndo] and logs through
    [TxnWal].

    ** What the theorems show

    - Pages: any sequence of operations on a page refines the abstract page and never
      panics; inserted tuples read back; compaction loses nothing.
    - Locks: exclusive holders are alone, the wait-for graph is acyclic, a request is
      refused as a deadlock exactly when waiting would close a cycle, and chains of
      waiting end at a running transaction.
    - Transactions: snapshots see exactly the finished transactions, vacuum never
      reclaims what a snapshot can see, commit and abort on every branch, a pivot of
      a dangerous structure does not commit.
    - Log: records read back, torn logs lose only their tail, an append adds its
      record or nothing, the durable frontier survives crashes (while the sealer is
      idle), truncation and shipping are exact, a failed fsync is never forgotten.
    - Pool: the frame table is exact, no page is durable before the log that covers
      it, flushing is complete, fetching fails only when nothing can be evicted.
    - Checkpoint and control file: what a successful checkpoint leaves, round trips.
    - Heap: scans and counts return exactly the visible versions, the ways to resolve
      index candidates agree, page acquisition ends.
    - B+tree: an insertion keeps the tree balanced, in order and linked, and adds its
      entry; the latches kept by the descent cover every node a split reaches;
      searches, ranges, limits and partitions return exactly the entries that satisfy
      the comparison; removal and row id updates change one entry; what is inserted
      into a new tree is found; the structural check accepts every such tree; a heap
      page that was allocated is in the directory read back.
    - Recovery: on one page, in the redo pass over the pool, and for what a run of
      heap operations wrote to the log, replay gives the page that the engine had.
    - Defects: theorems named in the sections of their components show a dirty read
      after a delete, lost rows and lost commits, an insertion that never ends, and
      the other divergences; their comments say what the code does.

    ** Bounds and fuel

    Loops of the source that are not structural take fuel.  The depth-first search of
    the lock manager gets [cycle_fuel], which is proved enough.  Scans of a log get
    the length of the bytes.  The retry loop that acquires a heap page returns [None]
    when its fuel ends; [acquire_terminates] shows that one round per known page and
    one more are enough.  Descents and leaf chains of the B+tree return [None] when
    their fuel ends; the theorems give the result for fuel above the height and the
    number of leaves, and the page count of the file is enough ([tree_pages]).  HOT chains use the bound of the source, a million hops.
    Operations that allocate LSNs are stated for counters that do not overflow 64
    bits within the run ([ready n]: there is room for [n] more records).

    ** Not modelled

    The batched B+tree insertions and [patch_many]; the catalog, the SQL layer, the
    server, graph, queue, vector and full-text layers, replication transport, backup
    and the companion crates, which are clients of the modelled core or third-party
    protocols; counters, logging and read-ahead hints, which have no effect on data.
    Page latches are modelled on their own; heap and tree operations are sequences of whole
    page accesses in one thread of control.  The theorems on runs of heap operations
    leave out the batched updates and the undo of HOT updates, which change links
    without logging them, and pages with reclaimed line pointers, on which redo loses
    rows. *)

From stdpp Require Import base numbers list.
From Stdlib Require Import Lia.

Global Set Default Proof Using "Type".
#[global] Open Scope Z_scope.

(** ** Outcomes

    A Rust function that returns [Result<A>] either returns [Ok a], returns
    [Err e], or panics (an index out of range, a [copy_from_slice] between
    slices of different lengths, an [unwrap] of [None]). *)

Inductive outcome (E A : Type) : Type :=
| Ok (a : A)
| Err (e : E)
| Panic.
Arguments Ok {E A} a.
Arguments Err {E A} e.
Arguments Panic {E A}.

#[global] Instance outcome_ret E : MRet (outcome E) := λ A a, Ok a.
#[global] Instance outcome_bind E : MBind (outcome E) := λ A B f m,
  match m with Ok a => f a | Err e => Err e | Panic => Panic end.
#[global] Instance outcome_fmap E : FMap (outcome E) := λ A B f m,
  match m with Ok a => Ok (f a) | Err e => Err e | Panic => Panic end.

Definition is_Ok {E A} (m : outcome E A) : Prop := ∃ a, m = Ok a.

(** The [?] operator applied to an [Option]. *)
Definition ok_or {E A} (o : option A) (e : E) : outcome E A :=
  match o with Some a => Ok a | None => Err e end.

(** A [for] loop over a slice whose body may return early with an error. *)
Fixpoint for_each {E A S} (f : S → A → outcome E S) (s : S) (l : list A) : outcome E S :=
  match l with
  | [] => Ok s
  | a :: l => s' ← f s a; for_each f s' l
  end.

Lemma for_each_app {E A S} (f : S → A → outcome E S) s l k :
  for_each f s (l ++ k) = (s' ← for_each f s l; for_each f s' k).
Proof. revert s; induction l as [|a l IH]; intros s; simpl; [done|].
  destruct (f s a); simpl; auto.
Qed.

Lemma for_each_fold {E A S} (f : S → A → outcome E S) (g : S → A → S) s l :
  (∀ s a, a ∈ l → f s a = Ok (g s a)) → for_each f s l = Ok (foldl g s l).
Proof.
  revert s. induction l as [|a l IH]; intros s Hf; [done|]. cbn [for_each foldl].
  rewrite Hf by (by left). cbn [mbind outcome_bind]. apply IH. intros s' b Hb. apply Hf. by right.
Qed.

Lemma foldl_imap_pair {A T} (g : T → A → T) s (l : list A) :
  foldl (λ s p, g s p.2) s (imap pair l) = foldl g s l.
Proof.
  assert (∀ k, foldl (λ s (p : nat * A), g s p.2) s (imap (λ i, pair (k + i)%nat) l) = foldl g s l) as Hk; [|apply (Hk 0%nat)].
  revert s. induction l as [|a l IH]; intros s k; [done|]. cbn.
  rewrite <- (IH (g s a) (S k)). f_equal. apply imap_ext. intros i x _. simpl. by rewrite Nat.add_succ_r.
Qed.

Lemma elem_of_imap_pair {A} (l : list A) p : p ∈ imap pair l → p.2 ∈ l.
Proof. intros (i & x & -> & Hx)%elem_of_lookup_imap_1. by eapply list_elem_of_lookup_2. Qed.

Lemma filter_none {A} (P : A → Prop) `{!∀ x, Decision (P x)} (l : list A) : (∀ x, x ∈ l → ¬ P x) → filter P l = [].
Proof.
  intros HP. induction l as [|x l IH]; [done|]. rewrite filter_cons_False by (apply HP; by left). apply IH. intros y Hy. apply HP. by right.
Qed.

Lemma mapM_Ok {E A B} (f : A → outcome E B) (g : A → B) l : (∀ x, x ∈ l → f x = Ok (g x)) → mapM f l = Ok (g <$> l).
Proof.
  induction l as [|x l IH]; intros Hf; [done|]. cbn. rewrite Hf by (by left).
  cbn. rewrite IH; [done|]. intros y Hy. apply Hf. by right.
Qed.


(** Invariant rule for [for_each]: [P done s] relates the elements already
    processed to the loop state. *)
Lemma for_each_inv {E A S} (f : S → A → outcome E S) (P : list A → S → Prop) s l :
  P [] s →
  (∀ pre a post s, l = pre ++ a :: post → P pre s → ∃ s', f s a = Ok s' ∧ P (pre ++ [a]) s') →
  ∃ s', for_each f s l = Ok s' ∧ P l s'.
Proof.
  intros H0 Hstep.
  cut (∀ post pre s, l = pre ++ post → P pre s → ∃ s', for_each f s post = Ok s' ∧ P l s').
  { intros H. by apply (H l [] s). }
  clear s H0. induction post as [|a post IH]; intros pre s -> HP; simpl.
  - exists s. by rewrite app_nil_r.
  - destruct (Hstep pre a post s eq_refl HP) as (s' & -> & HP'). simpl.
    apply (IH (pre ++ [a])); [by rewrite <- app_assoc|done].
Qed.

Lemma elem_of_concat {A} (x : A) ls : x ∈ concat ls ↔ ∃ l, l ∈ ls ∧ x ∈ l.
Proof.
  induction ls as [|l ls IH]; simpl.
  - rewrite elem_of_nil. split; [done|]. by intros (?&?%elem_of_nil&_).
  - rewrite elem_of_app, IH. setoid_rewrite elem_of_cons. naive_solver.
Qed.

(** ** Bytes and little-endian integers *)

Definition is_byte (b : Z) : Prop := 0 ≤ b < 256.
#[global] Instance is_byte_dec b : Decision (is_byte b).
Proof. unfold is_byte. apply _. Defined.
Abbreviation bytes := (Forall is_byte).

Fixpoint le_bytes (n : nat) (v : Z) : list Z :=
  match n with
  | O => []
  | S n => v mod 256 :: le_bytes n (v / 256)
  end.

Fixpoint le_value (bs : list Z) : Z :=
  match bs with
  | [] => 0
  | b :: bs => b + 256 * le_value bs
  end.

Lemma length_le_bytes n v : length (le_bytes n v) = n.
Proof. revert v; induction n; intros v; simpl; auto. Qed.

Lemma bytes_le_bytes n v : bytes (le_bytes n v).
Proof.
  revert v; induction n as [|n IH]; intros v; simpl; constructor; auto.
  unfold is_byte. pose proof (Z.mod_pos_bound v 256). lia.
Qed.

Lemma le_value_le_bytes n v : le_value (le_bytes n v) = v mod 256 ^ Z.of_nat n.
Proof.
  revert v; induction n as [|n IH]; intros v; cbn [le_bytes le_value].
  - by rewrite Z.mod_1_r.
  - rewrite IH, Nat2Z.inj_succ, Z.pow_succ_r by lia.
    rewrite Z.rem_mul_r by lia. lia.
Qed.

Lemma le_value_bounds bs : bytes bs → 0 ≤ le_value bs < 256 ^ Z.of_nat (length bs).
Proof.
  induction 1 as [|b bs Hb _ IH]; simpl length; simpl le_value; [lia|].
  rewrite Nat2Z.inj_succ, Z.pow_succ_r by lia. unfold is_byte in Hb. lia.
Qed.

Lemma le_bytes_le_value bs : bytes bs → le_bytes (length bs) (le_value bs) = bs.
Proof.
  induction 1 as [|b bs Hb _ IH]; simpl; [done|]. unfold is_byte in Hb.
  replace (b + 256 * le_value bs) with (b + le_value bs * 256) by lia.
  rewrite Z.mod_add, Z.div_add, Z.mod_small, Z.div_small, Z.add_0_l by lia.
  by rewrite IH.
Qed.

Lemma le_bytes_snoc n v : le_bytes (S n) v = le_bytes n v ++ [v / 256 ^ Z.of_nat n mod 256].
Proof.
  revert v. induction n as [|n IH]; intros v; [by rewrite Z.pow_0_r, Z.div_1_r|].
  cbn [le_bytes app] in *. rewrite IH, Z.div_div by lia. f_equal. rewrite Nat2Z.inj_succ, Z.pow_succ_r by lia. done.
Qed.

Lemma le_bytes_small n v :
  0 ≤ v < 256 ^ Z.of_nat n → le_value (le_bytes n v) = v.
Proof. intros. rewrite le_value_le_bytes. by apply Z.mod_small. Qed.

Lemma le_bytes_inj n v w :
  0 ≤ v < 256 ^ Z.of_nat n → 0 ≤ w < 256 ^ Z.of_nat n →
  le_bytes n v = le_bytes n w → v = w.
Proof.
  intros Hv Hw H. rewrite <- (le_bytes_small n v), <- (le_bytes_small n w) by done.
  by rewrite H.
Qed.

(** ** Slices of a byte vector *)

Definition zlen {A} (l : list A) : Z := Z.of_nat (length l).

(** [sub d off n] is [d[off..off+n]] where it is in range. *)
Definition sub {A} (d : list A) (off n : Z) : list A :=
  take (Z.to_nat n) (drop (Z.to_nat off) d).

(** [splice d off src] overwrites [d] from [off] on with [src]. *)
Definition splice {A} (d : list A) (off : Z) (src : list A) : list A :=
  take (Z.to_nat off) d ++ src ++ drop (Z.to_nat off + length src) d.

(** [&d[a..b]] *)
Definition slice {E A} (d : list A) (a b : Z) : outcome E (list A) :=
  if decide (0 ≤ a ≤ b ∧ b ≤ zlen d) then Ok (sub d a (b - a)) else Panic.

(** [d[a..b].copy_from_slice(src)] *)
Definition copy_from_slice {E A} (d : list A) (a b : Z) (src : list A) : outcome E (list A) :=
  if decide (0 ≤ a ≤ b ∧ b ≤ zlen d ∧ b - a = zlen src) then Ok (splice d a src) else Panic.

(** [d[i]] *)
Definition index {E A} (d : list A) (i : Z) : outcome E A :=
  if decide (0 ≤ i) then match d !! Z.to_nat i with Some a => Ok a | None => Panic end
  else Panic.

(** [d[i] = b] *)
Definition set_index {E A} (d : list A) (i : Z) (b : A) : outcome E (list A) :=
  if decide (0 ≤ i < zlen d) then Ok (<[Z.to_nat i := b]> d) else Panic.

Section slices.
Context {A : Type}.
Implicit Types (d src : list A) (off n : Z) (i : nat).

Lemma zlen_nonneg d : 0 ≤ zlen d.
Proof. unfold zlen. lia. Qed.

Lemma zlen_app d e : zlen (d ++ e) = zlen d + zlen e.
Proof. unfold zlen. rewrite length_app. lia. Qed.

Lemma zlen_cons a d : zlen (a :: d) = 1 + zlen d.
Proof. unfold zlen. simpl length. lia. Qed.

Lemma lookup_sub d off n i :
  sub d off n !! i = if decide (Z.of_nat i < n) then d !! (Z.to_nat off + i)%nat else None.
Proof.
  unfold sub. rewrite lookup_take, lookup_drop. repeat case_decide; lia || done.
Qed.

Lemma lookup_splice d off src i :
  0 ≤ off → off + zlen src ≤ zlen d →
  splice d off src !! i =
    if decide (off ≤ Z.of_nat i < off + zlen src)
    then src !! (i - Z.to_nat off)%nat else d !! i.
Proof.
  unfold splice, zlen. intros H0 H1.
  rewrite lookup_app, lookup_take, length_take_le by lia.
  case_decide as Hi; case_decide as Hr; try lia.
  - destruct (d !! i) eqn:E; [done|]. apply lookup_ge_None in E. lia.
  - rewrite lookup_app_l; [done|lia].
  - rewrite lookup_app_r, lookup_drop by lia. f_equal. lia.
Qed.

Lemma length_sub d off n :
  0 ≤ off → 0 ≤ n → off + n ≤ zlen d → zlen (sub d off n) = n.
Proof. unfold sub, zlen. intros. rewrite length_take, length_drop. lia. Qed.

Lemma length_splice d off src :
  0 ≤ off → off + zlen src ≤ zlen d → length (splice d off src) = length d.
Proof.
  unfold splice, zlen. intros.
  rewrite !length_app, length_take, length_drop. lia.
Qed.

Lemma zlen_splice d off src :
  0 ≤ off → off + zlen src ≤ zlen d → zlen (splice d off src) = zlen d.
Proof. intros. unfold zlen at 1 2. by rewrite length_splice. Qed.

(** Reading inside what was just written. *)
Lemma sub_splice_in d off src k n :
  0 ≤ off → off + zlen src ≤ zlen d → 0 ≤ k → k + n ≤ zlen src →
  sub (splice d off src) (off + k) n = sub src k n.
Proof.
  intros. apply list_eq. intros i. rewrite !lookup_sub, lookup_splice by done.
  repeat case_decide; try lia; try done. f_equal. lia.
Qed.

Lemma sub_all d : sub d 0 (zlen d) = d.
Proof. unfold sub, zlen. rewrite drop_0, take_ge; [done|lia]. Qed.

Lemma sub_all_eq d off n : off = 0 → n = zlen d → sub d off n = d.
Proof. intros -> ->. apply sub_all. Qed.

Lemma sub_splice_eq d off src n :
  0 ≤ off → off + zlen src ≤ zlen d → n = zlen src →
  sub (splice d off src) off n = src.
Proof.
  intros ?? ->. rewrite <- (Z.add_0_r off) at 2.
  rewrite sub_splice_in by lia. apply sub_all.
Qed.

(** Reading outside what was just written. *)
Lemma sub_splice_out d off src off' n :
  0 ≤ off → off + zlen src ≤ zlen d → 0 ≤ off' →
  off' + n ≤ off ∨ off + zlen src ≤ off' →
  sub (splice d off src) off' n = sub d off' n.
Proof.
  intros. apply list_eq. intros i. rewrite !lookup_sub, lookup_splice by done.
  repeat case_decide; try lia; done.
Qed.

(** A window that encloses the write sees the write at its own offset. *)
Lemma sub_splice_enclosing d off src off' n :
  0 ≤ off' → off' + n ≤ zlen d → off' ≤ off → off + zlen src ≤ off' + n →
  sub (splice d off src) off' n = splice (sub d off' n) (off - off') src.
Proof.
  intros. pose proof (zlen_nonneg src).
  assert (zlen (sub d off' n) = n) by (apply length_sub; lia).
  apply list_eq. intros i.
  rewrite lookup_sub, !lookup_splice, lookup_sub by lia.
  repeat case_decide; try lia; try done.
  all: f_equal; lia.
Qed.

Lemma sub_sub d off n off' n' :
  0 ≤ off → 0 ≤ off' → off' + n' ≤ n →
  sub (sub d off n) off' n' = sub d (off + off') n'.
Proof.
  intros. apply list_eq. intros i. rewrite !lookup_sub.
  repeat case_decide; try lia; try done. f_equal. lia.
Qed.

Lemma splice_app d off a b :
  0 ≤ off → off + zlen a + zlen b ≤ zlen d →
  splice (splice d off a) (off + zlen a) b = splice d off (a ++ b).
Proof.
  intros. pose proof (zlen_nonneg a). pose proof (zlen_nonneg b).
  apply list_eq. intros i.
  rewrite !lookup_splice; rewrite ?zlen_splice, ?zlen_app by lia; try lia.
  unfold zlen in *. repeat case_decide; try lia; try done.
  - rewrite lookup_app_r by lia. f_equal. lia.
  - by rewrite lookup_app_l by lia.
Qed.

Lemma sub_splice_prefix d off k src :
  0 ≤ off → 0 ≤ k → off + k + zlen src ≤ zlen d →
  sub (splice d (off + k) src) off (k + zlen src) = sub d off k ++ src.
Proof.
  intros. pose proof (zlen_nonneg src). apply list_eq. intros i. rewrite lookup_sub.
  rewrite lookup_splice by lia. rewrite lookup_app.
  assert (length (sub d off k) = Z.to_nat k) as Hl
    by (pose proof (length_sub d off k); unfold zlen in *; lia).
  destruct (decide (Z.of_nat i < k)).
  - destruct (sub d off k !! i) eqn:E.
    + rewrite lookup_sub in E. repeat case_decide; done || lia.
    + apply lookup_ge_None in E. lia.
  - rewrite (lookup_ge_None_2 (sub d off k)) by lia. rewrite Hl. unfold zlen in *.
    repeat case_decide; try lia.
    + f_equal. lia.
    + rewrite lookup_ge_None_2; [done|lia].
Qed.

Lemma take_sub d off n k : 0 ≤ k ≤ n → take (Z.to_nat k) (sub d off n) = sub d off k.
Proof. intros. unfold sub. rewrite take_take. f_equal. lia. Qed.

Lemma splice_splice_same d off a b :
  0 ≤ off → off + zlen b ≤ zlen d → zlen a = zlen b →
  splice (splice d off a) off b = splice d off b.
Proof.
  intros. apply list_eq. intros i.
  rewrite !lookup_splice; rewrite ?zlen_splice by lia; try lia.
  repeat case_decide; done || lia.
Qed.

Lemma sub_app_l d e off n :
  0 ≤ off → 0 ≤ n → off + n ≤ zlen d → sub (d ++ e) off n = sub d off n.
Proof.
  unfold zlen. intros. apply list_eq. intros i. rewrite !lookup_sub.
  case_decide; [|done]. apply lookup_app_l. lia.
Qed.

Lemma sub_app_r d e off n :
  zlen d ≤ off → sub (d ++ e) off n = sub e (off - zlen d) n.
Proof.
  unfold zlen. intros. apply list_eq. intros i. rewrite !lookup_sub.
  case_decide; [|done]. rewrite lookup_app_r by lia. f_equal. lia.
Qed.

Lemma drop_sub d off : 0 ≤ off ≤ zlen d → sub d off (zlen d - off) = drop (Z.to_nat off) d.
Proof. unfold sub, zlen. intros. rewrite take_ge; [done|]. rewrite length_drop. lia. Qed.

Lemma Forall_splice (P : A → Prop) d off src :
  Forall P d → Forall P src → Forall P (splice d off src).
Proof.
  intros Hd Hs. unfold splice.
  apply Forall_app; split; [by apply Forall_take|].
  apply Forall_app; split; [done|by apply Forall_drop].
Qed.

Lemma Forall_sub (P : A → Prop) d off n : Forall P d → Forall P (sub d off n).
Proof. intros. by apply Forall_take, Forall_drop. Qed.

Lemma slice_Ok {E} d a b :
  0 ≤ a → a ≤ b → b ≤ zlen d → slice (E:=E) d a b = Ok (sub d a (b - a)).
Proof. intros. unfold slice. rewrite decide_True by lia. done. Qed.

Lemma copy_from_slice_Ok {E} d a b src :
  0 ≤ a → b ≤ zlen d → b - a = zlen src →
  copy_from_slice (E:=E) d a b src = Ok (splice d a src).
Proof.
  intros. pose proof (zlen_nonneg src). unfold copy_from_slice.
  rewrite decide_True by lia. done.
Qed.

Lemma index_lookup {E} (l : list A) i v : l !! i = Some v → index l (Z.of_nat i) = (Ok v : outcome E A).
Proof. intros Hl. unfold index. rewrite decide_True, Nat2Z.id, Hl by lia. done. Qed.

Lemma index_Ok {E} d (i : Z) :
  0 ≤ i < zlen d → ∃ a, d !! Z.to_nat i = Some a ∧ index (E:=E) d i = Ok a.
Proof.
  unfold zlen. intros Hi.
  destruct (lookup_lt_is_Some_2 d (Z.to_nat i)) as [a Ha]; [lia|].
  exists a. split; [done|]. unfold index. rewrite decide_True by lia. by rewrite Ha.
Qed.

Lemma insert_splice d (i : Z) a :
  0 ≤ i < zlen d → <[Z.to_nat i := a]> d = splice d i [a].
Proof.
  unfold zlen. intros. apply list_eq. intros j.
  rewrite lookup_splice by (unfold zlen; simpl; lia).
  unfold zlen; simpl length.
  destruct (decide (j = Z.to_nat i)) as [->|].
  - rewrite list_lookup_insert_eq by lia. rewrite decide_True by lia.
    by rewrite Nat.sub_diag.
  - rewrite list_lookup_insert_ne by done. rewrite decide_False by lia. done.
Qed.

Lemma set_index_Ok {E} d (i : Z) a :
  0 ≤ i < zlen d → set_index (E:=E) d i a = Ok (splice d i [a]).
Proof.
  intros. unfold set_index. rewrite decide_True by done. by rewrite insert_splice.
Qed.
End slices.

Lemma zlen_nil {A} : zlen (@nil A) = 0.
Proof. done. Qed.

Lemma zlen_replicate {A} n (x : A) : zlen (replicate n x) = Z.of_nat n.
Proof. unfold zlen. by rewrite length_replicate. Qed.

Lemma zlen_le_bytes n v : zlen (le_bytes n v) = Z.of_nat n.
Proof. unfold zlen. by rewrite length_le_bytes. Qed.

Lemma le_value_app a b : le_value (a ++ b) = le_value a + 256 ^ zlen a * le_value b.
Proof.
  induction a as [|x a IH]; cbn [app le_value]; [unfold zlen; simpl; lia|].
  rewrite IH, zlen_cons, Z.pow_add_r by (pose proof (zlen_nonneg a); lia). lia.
Qed.

(** The little-endian integer stored in [n] bytes at [off]. *)
Definition rd (d : list Z) (off n : Z) : Z := le_value (sub d off n).

Lemma rd_bounds d off n :
  bytes d → 0 ≤ off → 0 ≤ n → off + n ≤ zlen d → 0 ≤ rd d off n < 256 ^ n.
Proof.
  intros Hd ???. unfold rd.
  pose proof (le_value_bounds (sub d off n) (Forall_sub _ _ _ _ Hd)) as H'.
  fold (zlen (sub d off n)) in H'. rewrite length_sub in H' by done. done.
Qed.

Lemma rd_sub d off n k m :
  0 ≤ off → 0 ≤ k → k + m ≤ n → rd (sub d off n) k m = rd d (off + k) m.
Proof. intros. unfold rd. by rewrite sub_sub. Qed.

Lemma rd_snoc d off n :
  0 ≤ off → 0 ≤ n → off + n < zlen d →
  rd d off (n + 1) = rd d off n + 256 ^ n * rd d (off + n) 1.
Proof.
  intros. unfold rd.
  assert (sub d off (n + 1) = sub d off n ++ sub d (off + n) 1) as ->.
  { unfold sub. rewrite !Z2Nat.inj_add by lia. rewrite <- drop_drop.
    by rewrite <- take_take_drop. }
  rewrite le_value_app, length_sub by lia. done.
Qed.

Lemma rd_splice_eq d off n v :
  0 ≤ off → off + Z.of_nat n ≤ zlen d →
  rd (splice d off (le_bytes n v)) off (Z.of_nat n) = v mod 256 ^ Z.of_nat n.
Proof.
  intros. unfold rd. rewrite sub_splice_eq; rewrite ?zlen_le_bytes; try lia.
  apply le_value_le_bytes.
Qed.

(** Writing back the integer read at a place. *)
Lemma splice_rd_id d off n :
  bytes d → 0 ≤ off → off + Z.of_nat n ≤ zlen d →
  splice d off (le_bytes n (rd d off (Z.of_nat n))) = d.
Proof.
  intros Hd ??. unfold rd.
  assert (length (sub d off (Z.of_nat n)) = n) as Hn.
  { pose proof (length_sub d off (Z.of_nat n)). unfold zlen in *. lia. }
  rewrite <- Hn at 1. rewrite le_bytes_le_value by (by apply Forall_sub).
  unfold splice. rewrite Hn. unfold sub. rewrite Nat2Z.id, <- drop_drop, take_drop. apply take_drop.
Qed.

Lemma rd_app_l d e off n :
  0 ≤ off → 0 ≤ n → off + n ≤ zlen d → rd (d ++ e) off n = rd d off n.
Proof. intros. unfold rd. by rewrite sub_app_l. Qed.

Lemma rd_app_r d e off n : zlen d ≤ off → rd (d ++ e) off n = rd e (off - zlen d) n.
Proof. intros. unfold rd. by rewrite sub_app_r. Qed.

Lemma rd_le_bytes n v : rd (le_bytes n v) 0 (Z.of_nat n) = v mod 256 ^ Z.of_nat n.
Proof.
  unfold rd, sub. change (Z.to_nat 0) with 0%nat.
  rewrite drop_0, take_ge by (rewrite length_le_bytes; lia).
  apply le_value_le_bytes.
Qed.

Lemma rd_splice_out d off src off' n :
  0 ≤ off → off + zlen src ≤ zlen d → 0 ≤ off' →
  off' + n ≤ off ∨ off + zlen src ≤ off' →
  rd (splice d off src) off' n = rd d off' n.
Proof. intros. unfold rd. by rewrite sub_splice_out. Qed.

(** ** Automation *)

Create HintDb unidb.
#[export] Hint Resolve zlen_nonneg bytes_le_bytes Forall_sub Forall_splice : unidb.
Create Rewrite HintDb zlen.
#[export] Hint Rewrite @zlen_nil @zlen_app @zlen_cons @zlen_replicate zlen_le_bytes : zlen.

(** Length side conditions: normalise the lengths of appended, encoded and
    spliced lists, then linear arithmetic. *)
Ltac len :=
  try lia;
  autorewrite with zlen in *;
  repeat (rewrite zlen_splice by len);
  autorewrite with zlen;
  lia.

(** A literal list is a list of bytes. *)
Ltac concrete_bytes :=
  repeat first [apply Forall_nil_2 | apply Forall_cons_2]; unfold is_byte; lia.

(** Invert an [Ok]-valued bind in a hypothesis. *)
Ltac inv_bind H :=
  lazymatch type of H with
  | mbind _ ?m = Ok _ =>
      let E := fresh "E" in destruct m eqn:E; cbn [mbind outcome_bind] in H; [|discriminate H..]
  end.

(** Read an integer field out of a concatenation. *)
Ltac rd_field n :=
  repeat first [rewrite rd_app_r by len | rewrite rd_app_l by len];
  autorewrite with zlen;
  match goal with |- rd ?l ?off _ = _ => replace off with 0 by len end;
  rewrite (rd_le_bytes n); apply Z.mod_small.
