(* ===== verification/Format.v ===== *)
(** On-disk format: constants, type names, little-endian helpers
    ([src/format.rs]) and the storage and transaction errors ([src/error.rs]).

    Every machine integer is a [Z] in the range of its type; what narrows or
    wraps in the source is written out with [u16], [u32] and [u64]. *)

From stdpp Require Import base numbers list strings.
From S2P Require Import Prelude.

(** ** Machine integers *)

Definition u8 (v : Z) : Z := v mod 2 ^ 8.
Definition u16 (v : Z) : Z := v mod 2 ^ 16.
Definition u32 (v : Z) : Z := v mod 2 ^ 32.
Definition u64 (v : Z) : Z := v mod 2 ^ 64.

(** [saturating_sub] on an unsigned type. *)
Definition saturating_sub (a b : Z) : Z := Z.max 0 (a - b).

Abbreviation Lsn := Z (only parsing).
Abbreviation PageId := Z (only parsing).
Abbreviation Xid := Z (only parsing).

(** ** Constants *)

Definition MAGIC : Z := 0x556E4442.
Definition FORMAT_VERSION : Z := 12.
Definition DEFAULT_PAGE_SIZE : Z := 8192.
Definition MAX_PAGE_SIZE : Z := 65536.
Definition MIN_PAGE_SIZE : Z := 4096.

Definition INVALID_LSN : Lsn := 0.
Definition INVALID_PAGE_ID : PageId := 2 ^ 32 - 1.
Definition INVALID_XID : Xid := 0.

Definition PAGE_TYPE_HEAP : Z := 1.

(** The kinds of WAL record. *)
Definition WAL_BEGIN : Z := 1.
Definition WAL_COMMIT : Z := 2.
Definition WAL_ABORT : Z := 3.
Definition WAL_INSERT : Z := 4.
Definition WAL_UPDATE : Z := 5.
Definition WAL_DELETE : Z := 6.
Definition WAL_CHECKPOINT : Z := 7.
Definition WAL_TXN_BEGIN : Z := 8.
Definition WAL_TXN_COMMIT : Z := 9.
Definition WAL_TXN_ABORT : Z := 10.
Definition WAL_VACUUM : Z := 11.
Definition WAL_FPI : Z := 12.
Definition WAL_INDEX : Z := 13.
Definition WAL_XMAX_BATCH : Z := 14.
Definition WAL_INDEX_INSERT : Z := 15.
Definition WAL_HOT_UPDATE : Z := 16.
Definition WAL_HOT_XPAGE_HEAD : Z := 17.
Definition WAL_INSERT_BATCH : Z := 18.
Definition WAL_HOT_XPAGE_BATCH : Z := 19.

Definition HOT_NEXT_NONE : Z := 0xFFFF.
Definition HOT_NEXT_XPAGE : Z := 0xFFFE.

(** [u16::MAX], the slot of a whole-page or batch record. *)
Definition U16_MAX : Z := 0xFFFF.

(** ** Little-endian helpers *)

Definition u16_to_le (v : Z) : list Z := le_bytes 2 v.
Definition u32_to_le (v : Z) : list Z := le_bytes 4 v.
Definition u64_to_le (v : Z) : list Z := le_bytes 8 v.
Definition u16_from_le (b : list Z) : Z := le_value b.
Definition u32_from_le (b : list Z) : Z := le_value b.
Definition u64_from_le (b : list Z) : Z := le_value b.

(** ** Errors *)

Inductive DbError : Type :=
| Io
| BadMagic (expected got : Z)
| BadVersion (v : Z)
| BadPageSize (v : Z)
| ChecksumMismatch (page_id : PageId)
| WalCorrupt (lsn : Lsn)
| BufferPoolFull
| PageNotFound (page_id : PageId)
| HeapFull (size : Z)
| SlotOutOfRange (page_id : PageId) (slot : Z)
| TupleDeleted (page_id : PageId) (slot : Z)
| Recovery (msg : string)
| DurabilityFailure (msg : string)
| ControlFileCorrupt
| WriteConflict (holder_xid : Xid)
| SerializationFailure (xid : Xid)
| Deadlock (xid : Xid)
| QueryTimeout (limit_ms : Z)
| QueryCancelled
| TxnNotActive (xid : Xid)
| TxnAlreadyFinished (xid : Xid)
| NoVisibleVersion (page_id : PageId) (slot : Z)
| SqlParse (msg : string)
| SqlPlan (msg : string)
| SqlUnsupported (msg : string)
| TableNotFound (name : string)
| TableAlreadyExists (name : string)
| ColumnNotFound (table column : string)
| CatalogCorrupt (msg : string)
| NotNullViolation (table column : string)
| UniqueViolation (table columns : string)
| CheckViolation (table : string)
| ForeignKeyViolation (table ref_table : string) (column value : option string)
| EngineUnavailable
| Replication (msg : string)
| Authz (msg : string)
| PermissionDenied (msg : string)
| Migration (msg : string)
| InvalidCronSchedule (msg : string)
| UnknownType (name : string)
| TypeAlreadyExists (name : string)
| TypeInUse (name table column : string)
| InvalidNamedType (msg : string)
| InvalidFunctionDef (msg : string)
| InvalidConflictTarget (table reason : string)
| TriggerAlreadyExists (name : string)
| UnknownTrigger (name table : string)
| FunctionInUseByTrigger (name trigger table : string)
| InvalidTriggerDef (msg : string).

#[global] Instance DbError_eq_dec : EqDecision DbError.
Proof. solve_decision. Defined.

(** The crate's [Result]. *)
Abbreviation Result := (outcome DbError).

(** ** Stateful operations

    An operation on a state [S] that may fail returns its result together with
    the state it leaves: what was changed before a failure stays changed. *)

Definition op (S A : Type) : Type := S → Result A * S.

Definition op_ret {S A} (a : A) : op S A := λ s, (Ok a, s).
Definition op_bind {S A B} (f : A → op S B) (m : op S A) : op S B := λ s,
  match m s with
  | (Ok a, s') => f a s'
  | (Err e, s') => (Err e, s')
  | (Panic, s') => (Panic, s')
  end.
Definition fail {S A} (e : DbError) : op S A := λ s, (Err e, s).
Definition lift {S A} (r : Result A) : op S A := λ s, (r, s).
Definition gets {S A} (f : S → A) : op S A := λ s, (Ok (f s), s).
Definition modify {S} (f : S → S) : op S unit := λ s, (Ok tt, f s).

(** A [for] loop over a slice whose body may return early. *)
Fixpoint each {S A} (f : A → op S unit) (l : list A) : op S unit :=
  match l with
  | [] => op_ret tt
  | a :: l => op_bind (λ _, each f l) (f a)
  end.

Declare Scope op_scope.
Delimit Scope op_scope with op.
Notation "x <- m ;; k" := (op_bind (λ x, k) m)
  (at level 100, m at next level, right associativity) : op_scope.
Notation "m ;; k" := (op_bind (λ _, k) m) (at level 100, right associativity) : op_scope.

Lemma op_bind_Ok {S A B} (f : A → op S B) (m : op S A) s b s' :
  op_bind f m s = (Ok b, s') ↔ ∃ a s1, m s = (Ok a, s1) ∧ f a s1 = (Ok b, s').
Proof.
  unfold op_bind. split.
  - destruct (m s) as [[a|e|] s1]; naive_solver.
  - by intros (a & s1 & -> & ->).
Qed.

(** [keeps R m]: [m] takes every state to an [R]-related one, whether it fails or
    not.  With [R s s' := I s → I s'] it says that [m] preserves [I]. *)
Definition keeps {S A} (R : S → S → Prop) (m : op S A) : Prop := ∀ s, R s (m s).2.
Definition preserves {S A} (I : S → Prop) : op S A → Prop := keeps (λ s s', I s → I s').

Lemma keeps_pure {S A} (R : S → S → Prop) (r : Result A) : Reflexive R → keeps R (lift r).
Proof. intros HR s. apply HR. Qed.

Lemma keeps_bind {S A B} (R : S → S → Prop) (f : A → op S B) (m : op S A) :
  Transitive R → keeps R m → (∀ a, keeps R (f a)) → keeps R (op_bind f m).
Proof.
  intros HT Hm Hf s. specialize (Hm s). unfold op_bind.
  destruct (m s) as [[a|e|] s1]; [|done..]. etrans; [exact Hm|apply Hf].
Qed.

Lemma keeps_each {S A} (R : S → S → Prop) (f : A → op S unit) l :
  PreOrder R → (∀ a, keeps R (f a)) → keeps R (each f l).
Proof.
  intros HR Hf. induction l as [|a l IH]; [intros s; reflexivity|].
  apply keeps_bind; [apply _|apply Hf|done].
Qed.

#[global] Instance preserves_preorder {S} (I : S → Prop) : PreOrder (λ s s', I s → I s').
Proof. split; red; auto. Qed.

(** ** Lemmas *)

Lemma zlen_u16_to_le v : zlen (u16_to_le v) = 2.
Proof. apply zlen_le_bytes. Qed.
Lemma zlen_u32_to_le v : zlen (u32_to_le v) = 4.
Proof. apply zlen_le_bytes. Qed.
Lemma zlen_u64_to_le v : zlen (u64_to_le v) = 8.
Proof. apply zlen_le_bytes. Qed.
#[export] Hint Rewrite zlen_u16_to_le zlen_u32_to_le zlen_u64_to_le : zlen.

Lemma bytes_u16_to_le v : bytes (u16_to_le v).
Proof. apply bytes_le_bytes. Qed.
Lemma bytes_u32_to_le v : bytes (u32_to_le v).
Proof. apply bytes_le_bytes. Qed.
Lemma bytes_u64_to_le v : bytes (u64_to_le v).
Proof. apply bytes_le_bytes. Qed.
#[export] Hint Resolve bytes_u16_to_le bytes_u32_to_le bytes_u64_to_le : unidb.

Lemma u16_from_to_le v : 0 ≤ v < 2 ^ 16 → u16_from_le (u16_to_le v) = v.
Proof. intros. apply le_bytes_small. lia. Qed.
Lemma u32_from_to_le v : 0 ≤ v < 2 ^ 32 → u32_from_le (u32_to_le v) = v.
Proof. intros. apply le_bytes_small. lia. Qed.
Lemma u64_from_to_le v : 0 ≤ v < 2 ^ 64 → u64_from_le (u64_to_le v) = v.
Proof. intros. apply le_bytes_small. lia. Qed.

Lemma u16_small v : 0 ≤ v < 2 ^ 16 → u16 v = v.
Proof. apply Z.mod_small. Qed.
Lemma u32_small v : 0 ≤ v < 2 ^ 32 → u32 v = v.
Proof. apply Z.mod_small. Qed.
Lemma u64_small v : 0 ≤ v < 2 ^ 64 → u64 v = v.
Proof. apply Z.mod_small. Qed.
