(* ===== verification/Mvcc.v ===== *)
(** MVCC visibility ([src/mvcc.rs]): snapshots, the visibility test of a
    tuple version and vacuum's reclaimability test. *)

From stdpp Require Import base numbers list.
From S2P Require Import Prelude Format.

Record Snapshot := mkSnapshot {
  snap_xmin : Xid;
  snap_xmax : Xid;
  active_xids : list Xid;
}.

Definition is_committed_at_snapshot (s : Snapshot) (xid : Xid) : bool :=
  if bool_decide (xid = 0) then false
  else if bool_decide (snap_xmax s ≤ xid) then false
  else if bool_decide (xid < snap_xmin s) then true
  else negb (bool_decide (xid ∈ active_xids s)).

Definition is_visible (tuple_xmin tuple_xmax : Xid) (snapshot : Snapshot) (self_xid : Xid) : bool :=
  let inserter_visible :=
    bool_decide (tuple_xmin = self_xid) || is_committed_at_snapshot snapshot tuple_xmin in
  if negb inserter_visible then false
  else if bool_decide (tuple_xmax = 0) then true
  else
    let deleter_visible :=
      bool_decide (tuple_xmax = self_xid) || is_committed_at_snapshot snapshot tuple_xmax in
    negb deleter_visible.

Definition is_reclaimable (tuple_xmax horizon : Xid) : bool :=
  bool_decide (tuple_xmax ≠ 0) && bool_decide (tuple_xmax < horizon).

(** ** Characterisations *)

Lemma is_committed_at_snapshot_spec s xid :
  is_committed_at_snapshot s xid = true ↔
  xid ≠ 0 ∧ xid < snap_xmax s ∧ (xid < snap_xmin s ∨ xid ∉ active_xids s).
Proof.
  unfold is_committed_at_snapshot.
  repeat case_bool_decide; simpl; try (split; [done|naive_solver lia]).
  all: naive_solver lia.
Qed.

Lemma is_visible_spec xmin xmax s self :
  is_visible xmin xmax s self = true ↔
  (xmin = self ∨ is_committed_at_snapshot s xmin = true) ∧
  (xmax = 0 ∨ (xmax ≠ self ∧ is_committed_at_snapshot s xmax = false)).
Proof.
  unfold is_visible.
  destruct (is_committed_at_snapshot s xmin), (is_committed_at_snapshot s xmax);
    repeat case_bool_decide; simpl; naive_solver.
Qed.

Lemma is_reclaimable_spec xmax horizon :
  is_reclaimable xmax horizon = true ↔ xmax ≠ 0 ∧ xmax < horizon.
Proof. unfold is_reclaimable. rewrite andb_true_iff, !bool_decide_eq_true. done. Qed.

(** A deleter below the snapshot's [xmin] has committed for that snapshot. *)
Lemma committed_below_xmin s xid :
  xid ≠ 0 → xid < snap_xmin s → snap_xmin s ≤ snap_xmax s →
  is_committed_at_snapshot s xid = true.
Proof. intros. apply is_committed_at_snapshot_spec. lia. Qed.

Lemma invisible_deleter_committed xmin xmax s self :
  xmax ≠ 0 → is_committed_at_snapshot s xmax = true → is_visible xmin xmax s self = false.
Proof.
  intros H0 Hc. destruct (is_visible xmin xmax s self) eqn:E; [|done].
  apply is_visible_spec in E as [_ [->|[_ Hc']]]; [done|]. by rewrite Hc in Hc'.
Qed.

(** A version that is reclaimable under a horizon no snapshot is below is
    invisible to every such snapshot. *)
Lemma reclaimable_invisible xmin xmax horizon s self :
  is_reclaimable xmax horizon = true →
  horizon ≤ snap_xmin s → snap_xmin s ≤ snap_xmax s →
  is_visible xmin xmax s self = false.
Proof.
  rewrite is_reclaimable_spec. intros [H0 Hlt] Hh Hs.
  apply invisible_deleter_committed; [done|]. apply committed_below_xmin; lia.
Qed.
