(* ===== verification/Page.v ===== *)
(** Slotted pages ([src/page.rs]): the byte layout of a page and every
    operation of [SlottedPage], on the bytes, as the source writes them.

    A page is a vector of bytes.  Reading or writing out of range panics, and
    so does an unsigned subtraction or addition that leaves its type (the
    behaviour with overflow checks on).  [PageSpec] proves that neither
    happens on a well-formed page. *)

From stdpp Require Import base numbers list.
From S2P Require Import Prelude Format.

(** The CRC-32 of the [crc32fast] crate: a function from bytes to [u32].
    Feeding a [Hasher] piecewise is hashing the concatenation. *)
Class Crc32 := {
  crc32 : list Z → Z;
  crc32_range : ∀ bs, 0 ≤ crc32 bs < 2 ^ 32;
}.

Definition PAGE_HEADER_SIZE : Z := 28.
Definition SLOT_SIZE : Z := 4.
Definition TUPLE_HEADER_SIZE : Z := 24.
Definition CRC_FIELD_OFFSET : Z := 8.

Definition XID_MASK : Z := 0x00FFFFFFFFFFFFFF.
Definition TUPLE_HINT_XMIN_COMMITTED : Z := 0x10.
Definition TUPLE_HINT_XMAX_COMMITTED : Z := 0x20.
Definition TUPLE_HINT_XMIN_ABORTED : Z := 0x40.

Definition SLOT_DEAD_LEN : Z := 1.

Inductive SlotState := Live | Dead | Unused.
#[global] Instance SlotState_eq_dec : EqDecision SlotState.
Proof. solve_decision. Defined.

Definition TH_XMIN : Z := 0.
Definition TH_XMAX : Z := 8.
Definition TH_PREV_PAGE : Z := 16.
Definition TH_PREV_SLOT : Z := 20.
Definition TH_HOT_NEXT : Z := 22.

Record TupleHeader := mkTupleHeader {
  xmin : Xid;
  xmax : Xid;
  prev_page : PageId;
  prev_slot : Z;
  hot_next : Z;
}.

Record SlottedPage := mkPage { data : list Z }.

(** Little-endian reads of [n] bytes at [off], as the source writes them. *)
Definition read_u16 (d : list Z) (off : Z) : Result Z :=
  b ← slice d off (off + 2); Ok (u16_from_le b).
Definition read_u32 (d : list Z) (off : Z) : Result Z :=
  b ← slice d off (off + 4); Ok (u32_from_le b).
Definition read_u64 (d : list Z) (off : Z) : Result Z :=
  b ← slice d off (off + 8); Ok (u64_from_le b).

(** Unsigned subtraction, and addition in [u16], with overflow checks. *)
Definition checked_sub (a b : Z) : Result Z := if decide (b ≤ a) then Ok (a - b) else Panic.
Definition checked_add_u16 (a b : Z) : Result Z :=
  if decide (a + b < 2 ^ 16) then Ok (a + b) else Panic.

(** [Iterator::find] with a test that may panic. *)
Fixpoint find_first (f : Z → Result bool) (l : list Z) : Result (option Z) :=
  match l with
  | [] => Ok None
  | s :: l => b ← f s; if (b : bool) then Ok (Some s) else find_first f l
  end.

Section page.
  Context `{!Crc32}.

(** ** CRC *)

Definition compute_crc (p : SlottedPage) : Result Z :=
  a ← slice (data p) 0 CRC_FIELD_OFFSET;
  b ← slice (data p) (CRC_FIELD_OFFSET + 4) (zlen (data p));
  Ok (crc32 (a ++ [0; 0; 0; 0] ++ b)).

Definition write_crc (p : SlottedPage) : Result SlottedPage :=
  crc ← compute_crc p;
  d ← copy_from_slice (data p) CRC_FIELD_OFFSET (CRC_FIELD_OFFSET + 4) (u32_to_le crc);
  Ok (mkPage d).

Definition recompute_crc (p : SlottedPage) : Result SlottedPage := write_crc p.

(** ** Header accessors *)

Definition page_size (p : SlottedPage) : Z := zlen (data p).
Definition page_id (p : SlottedPage) : Result PageId := read_u32 (data p) 0.
Definition page_type (p : SlottedPage) : Result Z := index (data p) 4.
Definition lsn (p : SlottedPage) : Result Lsn := read_u64 (data p) 12.

Definition set_lsn (p : SlottedPage) (l : Lsn) : Result SlottedPage :=
  d ← copy_from_slice (data p) 12 20 (u64_to_le l);
  write_crc (mkPage d).

Definition slot_count (p : SlottedPage) : Result Z := read_u16 (data p) 20.
Definition set_slot_count (p : SlottedPage) (n : Z) : Result SlottedPage :=
  d ← copy_from_slice (data p) 20 22 (u16_to_le n); Ok (mkPage d).
Definition free_start (p : SlottedPage) : Result Z := read_u16 (data p) 22.
Definition set_free_start (p : SlottedPage) (v : Z) : Result SlottedPage :=
  d ← copy_from_slice (data p) 22 24 (u16_to_le v); Ok (mkPage d).
Definition free_end (p : SlottedPage) : Result Z := read_u16 (data p) 24.
Definition set_free_end (p : SlottedPage) (v : Z) : Result SlottedPage :=
  d ← copy_from_slice (data p) 24 26 (u16_to_le v); Ok (mkPage d).

Definition free_space (p : SlottedPage) : Result Z :=
  fs ← free_start p;
  fe ← free_end p;
  Ok (saturating_sub fe fs).

Definition verify_crc (p : SlottedPage) : Result unit :=
  stored ← read_u32 (data p) CRC_FIELD_OFFSET;
  computed ← compute_crc p;
  if decide (stored ≠ computed) then
    pid ← page_id p; Err (ChecksumMismatch pid)
  else Ok tt.

(** ** Construction *)

Definition new (pid : PageId) (ptype : Z) (psize : Z) : Result SlottedPage :=
  let d := replicate (Z.to_nat psize) 0 in
  d ← copy_from_slice d 0 4 (u32_to_le pid);
  d ← set_index d 4 ptype;
  d ← copy_from_slice d 22 24 (u16_to_le (u16 PAGE_HEADER_SIZE));
  d ← copy_from_slice d 24 26 (u16_to_le (u16 psize));
  write_crc (mkPage d).

Definition from_bytes (raw : list Z) : Result SlottedPage :=
  let p := mkPage raw in
  _ ← verify_crc p;
  Ok p.

Definition from_bytes_unchecked (raw : list Z) : SlottedPage := mkPage raw.

(** ** Slot array *)

Definition slot_offset_in_page (slot : Z) : Z := PAGE_HEADER_SIZE + slot * SLOT_SIZE.

Definition read_slot (p : SlottedPage) (slot : Z) : Result (Z * Z) :=
  let base := slot_offset_in_page slot in
  offset ← read_u16 (data p) base;
  length ← read_u16 (data p) (base + 2);
  Ok (offset, length).

Definition write_slot (p : SlottedPage) (slot offset length : Z) : Result SlottedPage :=
  let base := slot_offset_in_page slot in
  d ← copy_from_slice (data p) base (base + 2) (u16_to_le offset);
  d ← copy_from_slice d (base + 2) (base + 4) (u16_to_le length);
  Ok (mkPage d).

Definition first_unused_slot (p : SlottedPage) : Result (option Z) :=
  sc ← slot_count p;
  find_first (λ s,
    '(offset, length) ← read_slot p s;
    Ok (bool_decide (offset = 0) && bool_decide (length = 0))) (seqZ 0 sc).

(** ** Insert *)

Definition insert_versioned (p : SlottedPage) (payload : list Z) (xmin xmax : Xid)
    (prev : option (PageId * Z)) : Result (Z * SlottedPage) :=
  let stored_len := TUPLE_HEADER_SIZE + zlen payload in
  reuse ← first_unused_slot p;
  let needed := if reuse : option Z then stored_len else SLOT_SIZE + stored_len in
  free ← free_space p;
  if decide (needed > free) then Err (HeapFull (zlen payload))
  else
    fe ← free_end p;
    new_fe ← checked_sub fe stored_len;
    let th_end := new_fe + TUPLE_HEADER_SIZE in
    d ← copy_from_slice (data p) new_fe th_end (replicate (Z.to_nat TUPLE_HEADER_SIZE) 0);
    d ← copy_from_slice d (new_fe + TH_XMIN) (new_fe + TH_XMIN + 8) (u64_to_le xmin);
    d ← copy_from_slice d (new_fe + TH_XMAX) (new_fe + TH_XMAX + 8) (u64_to_le xmax);
    let '(prev_page, prev_slot) := default (INVALID_PAGE_ID, 0) prev in
    d ← copy_from_slice d (new_fe + TH_PREV_PAGE) (new_fe + TH_PREV_PAGE + 4)
          (u32_to_le prev_page);
    d ← copy_from_slice d (new_fe + TH_PREV_SLOT) (new_fe + TH_PREV_SLOT + 2)
          (u16_to_le prev_slot);
    d ← copy_from_slice d (new_fe + TH_HOT_NEXT) (new_fe + TH_HOT_NEXT + 2)
          (u16_to_le HOT_NEXT_NONE);
    d ← copy_from_slice d th_end (th_end + zlen payload) payload;
    let p := mkPage d in
    match reuse with
    | Some s =>
        p ← write_slot p s (u16 new_fe) (u16 stored_len);
        p ← set_free_end p (u16 new_fe);
        Ok (s, p)
    | None =>
        sc ← slot_count p;
        p ← write_slot p sc (u16 new_fe) (u16 stored_len);
        sc' ← checked_add_u16 sc 1;
        p ← set_slot_count p sc';
        p ← set_free_end p (u16 new_fe);
        fs ← free_start p;
        fs' ← checked_add_u16 fs (u16 SLOT_SIZE);
        p ← set_free_start p fs';
        Ok (sc, p)
    end.

Definition insert (p : SlottedPage) (payload : list Z) : Result (Z * SlottedPage) :=
  insert_versioned p payload 0 0 None.

(** ** Slot lifecycle *)

Definition slot_state (p : SlottedPage) (slot : Z) : Result SlotState :=
  sc ← slot_count p;
  if decide (sc ≤ slot) then pid ← page_id p; Err (SlotOutOfRange pid slot)
  else
    '(offset, length) ← read_slot p slot;
    Ok (if decide (offset ≠ 0) then Live
        else if decide (length = SLOT_DEAD_LEN) then Dead else Unused).

Definition mark_dead (p : SlottedPage) (slot : Z) : Result SlottedPage :=
  sc ← slot_count p;
  if decide (sc ≤ slot) then pid ← page_id p; Err (SlotOutOfRange pid slot)
  else
    '(offset, _) ← read_slot p slot;
    if decide (offset = 0) then Ok p
    else p ← write_slot p slot 0 SLOT_DEAD_LEN; write_crc p.

(** The guard every tuple access opens with: the slot exists and is live. *)
Definition live_slot (p : SlottedPage) (slot : Z) : Result (Z * Z) :=
  sc ← slot_count p;
  if decide (sc ≤ slot) then pid ← page_id p; Err (SlotOutOfRange pid slot)
  else
    '(offset, length) ← read_slot p slot;
    if decide (offset = 0) then pid ← page_id p; Err (TupleDeleted pid slot)
    else Ok (offset, length).

(** Owned copies of the live tuple bodies, in slot order. *)
Definition compact_collect (p : SlottedPage) (sc : Z) : Result (list (Z * list Z)) :=
  for_each (λ live slot,
    '(offset, length) ← read_slot p slot;
    if decide (offset ≠ 0) then
      body ← slice (data p) offset (offset + length);
      Ok (live ++ [(slot, body)])
    else Ok live) [] (seqZ 0 sc).

Definition compact_relay (p : SlottedPage) (live : list (Z * list Z)) : Result (Z * SlottedPage) :=
  for_each (λ '(fe, p) '(slot, body),
    fe ← checked_sub fe (zlen body);
    d ← copy_from_slice (data p) fe (fe + zlen body) body;
    p ← write_slot (mkPage d) slot (u16 fe) (u16 (zlen body));
    Ok (fe, p)) (zlen (data p), p) live.

Definition compact (p : SlottedPage) : Result (Z * SlottedPage) :=
  before ← free_space p;
  sc ← slot_count p;
  live ← compact_collect p sc;
  p ← for_each (λ p slot, write_slot p slot 0 0) p (seqZ 0 sc);
  '(fe, p) ← compact_relay p live;
  p ← set_free_end p (u16 fe);
  p ← write_crc p;
  after ← free_space p;
  reclaimed ← checked_sub after before;
  Ok (reclaimed, p).

(** ** Tuple header *)

Definition tuple_header (p : SlottedPage) (slot : Z) : Result TupleHeader :=
  '(base, _) ← live_slot p slot;
  raw_xmin ← read_u64 (data p) (base + TH_XMIN);
  raw_xmax ← read_u64 (data p) (base + TH_XMAX);
  pp ← read_u32 (data p) (base + TH_PREV_PAGE);
  ps ← read_u16 (data p) (base + TH_PREV_SLOT);
  hn ← read_u16 (data p) (base + TH_HOT_NEXT);
  Ok {| xmin := Z.land raw_xmin XID_MASK; xmax := Z.land raw_xmax XID_MASK;
        prev_page := pp; prev_slot := ps; hot_next := hn |}.

(** Hint flags read as 0 on a slot that is out of range or deleted. *)
Definition tuple_hint_flags (field : Z) (p : SlottedPage) (slot : Z) : Result Z :=
  sc ← slot_count p;
  if decide (sc ≤ slot) then Ok 0
  else
    '(offset, _) ← read_slot p slot;
    if decide (offset = 0) then Ok 0 else index (data p) (offset + field + 7).

Definition tuple_xmin_hint_flags : SlottedPage → Z → Result Z := tuple_hint_flags TH_XMIN.
Definition tuple_xmax_hint_flags : SlottedPage → Z → Result Z := tuple_hint_flags TH_XMAX.

Definition set_hint (field : Z) (p : SlottedPage) (slot flag : Z) : Result SlottedPage :=
  '(offset, _) ← live_slot p slot;
  let hint_byte_off := offset + field + 7 in
  b ← index (data p) hint_byte_off;
  d ← set_index (data p) hint_byte_off (Z.lor b flag);
  Ok (mkPage d).

Definition set_xmin_hint : SlottedPage → Z → Z → Result SlottedPage := set_hint TH_XMIN.
Definition set_xmax_hint : SlottedPage → Z → Z → Result SlottedPage := set_hint TH_XMAX.

Definition set_hot_next (p : SlottedPage) (slot next_slot : Z) : Result SlottedPage :=
  '(base, _) ← live_slot p slot;
  d ← copy_from_slice (data p) (base + TH_HOT_NEXT) (base + TH_HOT_NEXT + 2)
        (u16_to_le next_slot);
  Ok (mkPage d).

Definition set_hot_xpage (p : SlottedPage) (slot xpage_pid xpage_slot : Z) : Result SlottedPage :=
  '(base, _) ← live_slot p slot;
  d ← copy_from_slice (data p) (base + TH_PREV_PAGE) (base + TH_PREV_PAGE + 4)
        (u32_to_le xpage_pid);
  d ← copy_from_slice d (base + TH_PREV_SLOT) (base + TH_PREV_SLOT + 2)
        (u16_to_le xpage_slot);
  d ← copy_from_slice d (base + TH_HOT_NEXT) (base + TH_HOT_NEXT + 2)
        (u16_to_le HOT_NEXT_XPAGE);
  Ok (mkPage d).

Definition restore_prev_and_hot_next (p : SlottedPage) (slot saved_prev_page saved_prev_slot : Z)
    : Result SlottedPage :=
  '(base, _) ← live_slot p slot;
  d ← copy_from_slice (data p) (base + TH_PREV_PAGE) (base + TH_PREV_PAGE + 4)
        (u32_to_le saved_prev_page);
  d ← copy_from_slice d (base + TH_PREV_SLOT) (base + TH_PREV_SLOT + 2)
        (u16_to_le saved_prev_slot);
  d ← copy_from_slice d (base + TH_HOT_NEXT) (base + TH_HOT_NEXT + 2)
        (u16_to_le HOT_NEXT_NONE);
  Ok (mkPage d).

Definition set_xmax (p : SlottedPage) (slot : Z) (xmax : Xid) : Result SlottedPage :=
  '(base, _) ← live_slot p slot;
  d ← copy_from_slice (data p) (base + TH_XMAX) (base + TH_XMAX + 8) (u64_to_le xmax);
  Ok (mkPage d).

(** ** Payload *)

Definition get (p : SlottedPage) (slot : Z) : Result (list Z) :=
  '(offset, length) ← live_slot p slot;
  slice (data p) (offset + TUPLE_HEADER_SIZE) (offset + length).

Definition delete (p : SlottedPage) (slot : Z) : Result SlottedPage :=
  _ ← live_slot p slot;
  p ← write_slot p slot 0 0;
  write_crc p.

Definition update (p : SlottedPage) (slot : Z) (payload : list Z) : Result SlottedPage :=
  '(offset, length) ← live_slot p slot;
  stored_payload_len ← checked_sub length TUPLE_HEADER_SIZE;
  if decide (zlen payload > stored_payload_len) then Err (HeapFull (zlen payload))
  else
    let payload_start := offset + TUPLE_HEADER_SIZE in
    d ← copy_from_slice (data p) payload_start (payload_start + zlen payload) payload;
    p ← write_slot (mkPage d) slot offset (u16 (TUPLE_HEADER_SIZE + zlen payload));
    write_crc p.

Definition slot_count_pub (p : SlottedPage) : Result Z := slot_count p.

End page.
