(* ===== verification/PageSpec.v ===== *)
(** What a slotted page promises.

    [page_wf] is the layout invariant of a page; [slots] abstracts a page to
    the list of its line pointers, each live with the bytes of its tuple, dead
    or unused.  Every operation of [Page] is shown not to panic on a
    well-formed page, to preserve the invariant and to have the effect on
    [slots] that its documentation states. *)

From stdpp Require Import base numbers list.
From S2P Require Import Prelude Format Page.

(** ** The fields of a page *)

Definition f_sc (d : list Z) : Z := rd d 20 2.
Definition f_fs (d : list Z) : Z := rd d 22 2.
Definition f_fe (d : list Z) : Z := rd d 24 2.
Definition f_off (d : list Z) (s : Z) : Z := rd d (28 + s * 4) 2.
Definition f_len (d : list Z) (s : Z) : Z := rd d (28 + s * 4 + 2) 2.

(** [layout d sc fe]: the first [sc] line pointers of [d] are each free, or
    delimit a tuple body that lies above [fe], disjoint from the others. *)
Record layout (d : list Z) (sc fe : Z) : Prop := {
  l_bytes : bytes d;
  l_size : 28 ≤ zlen d < 65536;
  l_sc : 0 ≤ sc;
  l_fe : 28 + sc * 4 ≤ fe ≤ zlen d;
  l_free : ∀ s, 0 ≤ s < sc → f_off d s = 0 → f_len d s = 0 ∨ f_len d s = 1;
  l_live : ∀ s, 0 ≤ s < sc → f_off d s ≠ 0 →
    fe ≤ f_off d s ∧ 24 ≤ f_len d s ∧ f_off d s + f_len d s ≤ zlen d;
  l_disj : ∀ s t, 0 ≤ s < sc → 0 ≤ t < sc → s ≠ t → f_off d s ≠ 0 → f_off d t ≠ 0 →
    f_off d s + f_len d s ≤ f_off d t ∨ f_off d t + f_len d t ≤ f_off d s;
}.

(** The invariant of a page: the layout is the one its header describes. *)
Record page_wf (p : SlottedPage) : Prop := {
  wf_layout : layout (data p) (f_sc (data p)) (f_fe (data p));
  wf_fs : f_fs (data p) = 28 + f_sc (data p) * 4;
}.

(** ** The abstract page *)

Inductive ASlot :=
| ALive (body : list Z)
| ADead
| AUnused.

#[global] Instance ASlot_eq_dec : EqDecision ASlot.
Proof. solve_decision. Defined.

Definition aslot (d : list Z) (s : Z) : ASlot :=
  if decide (f_off d s = 0) then
    if decide (f_len d s = 1) then ADead else AUnused
  else ALive (sub d (f_off d s) (f_len d s)).

Definition aslots (d : list Z) (sc : Z) : list ASlot := aslot d <$> seqZ 0 sc.

Definition slots (p : SlottedPage) : list ASlot := aslots (data p) (f_sc (data p)).

(** The 24-byte header and the payload of a tuple body. *)
Definition header_bytes (xmin xmax : Xid) (pp ps hn : Z) : list Z :=
  u64_to_le xmin ++ u64_to_le xmax ++ u32_to_le pp ++ u16_to_le ps ++ u16_to_le hn.

Definition header_of (body : list Z) : TupleHeader :=
  {| xmin := Z.land (rd body 0 8) XID_MASK; xmax := Z.land (rd body 8 8) XID_MASK;
     prev_page := rd body 16 4; prev_slot := rd body 20 2; hot_next := rd body 22 2 |}.

Definition payload_of (body : list Z) : list Z := drop 24 body.

(** ** Reading fields *)

Lemma read_u16_Ok d off : 0 ≤ off → off + 2 ≤ zlen d → read_u16 d off = Ok (rd d off 2).
Proof.
  intros. unfold read_u16. rewrite slice_Ok by lia. simpl.
  unfold rd. do 3 f_equal. lia.
Qed.

Lemma read_u32_Ok d off : 0 ≤ off → off + 4 ≤ zlen d → read_u32 d off = Ok (rd d off 4).
Proof.
  intros. unfold read_u32. rewrite slice_Ok by lia. simpl.
  unfold rd. do 3 f_equal. lia.
Qed.

Lemma read_u64_Ok d off : 0 ≤ off → off + 8 ≤ zlen d → read_u64 d off = Ok (rd d off 8).
Proof.
  intros. unfold read_u64. rewrite slice_Ok by lia. simpl.
  unfold rd. do 3 f_equal. lia.
Qed.

Lemma checked_sub_Ok a b : b ≤ a → checked_sub a b = Ok (a - b).
Proof. intros. unfold checked_sub. by rewrite decide_True. Qed.

Lemma rd_u16_eq d off v : 0 ≤ off → off + 2 ≤ zlen d → 0 ≤ v < 65536 →
  rd (splice d off (u16_to_le v)) off 2 = v.
Proof. intros. rewrite (rd_splice_eq d off 2) by lia. apply Z.mod_small. lia. Qed.

Lemma rd_u32_eq d off v : 0 ≤ off → off + 4 ≤ zlen d → 0 ≤ v < 2 ^ 32 →
  rd (splice d off (u32_to_le v)) off 4 = v.
Proof. intros. rewrite (rd_splice_eq d off 4) by lia. apply Z.mod_small. lia. Qed.

(** Rewrite a field of a spliced page to the field before the splice, or to
    the value written. *)
Ltac rds :=
  repeat first
    [ rewrite rd_u16_eq by len
    | rewrite rd_splice_out by len ].

Lemma length_aslots d sc : length (aslots d sc) = Z.to_nat sc.
Proof. unfold aslots. by rewrite length_fmap, length_seqZ. Qed.

Lemma lookup_aslots d sc s : 0 ≤ s < sc → aslots d sc !! Z.to_nat s = Some (aslot d s).
Proof.
  intros. unfold aslots. rewrite list_lookup_fmap, lookup_seqZ_lt by lia.
  simpl. do 2 f_equal. lia.
Qed.

Lemma aslots_ext d d' sc :
  (∀ s, 0 ≤ s < sc → aslot d s = aslot d' s) → aslots d sc = aslots d' sc.
Proof.
  intros H. unfold aslots. apply list_fmap_ext. intros i s Hs%lookup_seqZ. apply H. lia.
Qed.

Lemma aslots_snoc d sc : 0 ≤ sc → aslots d (sc + 1) = aslots d sc ++ [aslot d sc].
Proof. intros. unfold aslots. rewrite seqZ_app by lia. by rewrite fmap_app. Qed.

Lemma aslots_insert d d' sc s a :
  0 ≤ s < sc → aslot d' s = a →
  (∀ t, 0 ≤ t < sc → t ≠ s → aslot d' t = aslot d t) →
  aslots d' sc = <[Z.to_nat s := a]> (aslots d sc).
Proof.
  intros Hs Ha H. apply list_eq. intros i.
  destruct (decide (i < Z.to_nat sc)%nat) as [Hi|Hi].
  - assert (i = Z.to_nat (Z.of_nat i)) as -> by lia.
    rewrite lookup_aslots by lia.
    destruct (decide (Z.of_nat i = s)) as [->|Hne].
    + rewrite list_lookup_insert_eq by (rewrite length_aslots; lia). by rewrite Ha.
    + rewrite list_lookup_insert_ne by lia. rewrite lookup_aslots by lia.
      f_equal. apply H; lia.
  - rewrite !lookup_ge_None_2; rewrite ?length_insert, ?length_aslots; done || lia.
Qed.

Lemma layout_same d d' sc fe :
  layout d sc fe → zlen d' = zlen d → bytes d' →
  (∀ s, 0 ≤ s < sc → f_off d' s = f_off d s ∧ f_len d' s = f_len d s) →
  layout d' sc fe.
Proof.
  intros [] Hz Hb H. split; rewrite ?Hz; auto.
  - intros t Ht. destruct (H t Ht) as [-> ->]; auto.
  - intros t Ht. destruct (H t Ht) as [-> ->]; auto.
  - intros t u Ht Hu. destruct (H t Ht) as [-> ->], (H u Hu) as [-> ->]; auto.
Qed.

(** ** Four kinds of writes *)

(** A write inside the body of a live tuple changes that body only. *)
Lemma body_write d sc fe s k src :
  layout d sc fe → 0 ≤ s < sc → f_off d s ≠ 0 →
  0 ≤ k → k + zlen src ≤ f_len d s → bytes src →
  let d' := splice d (f_off d s + k) src in
  layout d' sc fe ∧
  aslots d' sc =
    <[Z.to_nat s := ALive (splice (sub d (f_off d s) (f_len d s)) k src)]> (aslots d sc).
Proof.
  intros Hl Hs Ho Hk Hlen Hb d'. pose proof Hl as [].
  destruct (l_live0 s) as (?&?&?); [done..|].
  assert (∀ t, 0 ≤ t < sc → f_off d' t = f_off d t ∧ f_len d' t = f_len d t) as Ht
    by (intros; split; apply rd_splice_out; lia).
  split.
  - apply (layout_same d); auto; [apply zlen_splice; lia|by apply Forall_splice].
  - apply aslots_insert; auto.
    + unfold aslot. destruct (Ht s) as [-> ->]; [done|]. rewrite decide_False by done.
      f_equal. subst d'. rewrite sub_splice_enclosing by lia. f_equal. lia.
    + intros t ??. unfold aslot. destruct (Ht t) as [-> ->]; [done|].
      repeat case_decide; try done. f_equal.
      destruct (l_live0 t) as (?&?&?); [done..|].
      destruct (l_disj0 s t); try done; apply sub_splice_out; lia.
Qed.

(** A write to the page header changes neither the layout nor the slots. *)
Lemma header_write d sc fe off src :
  layout d sc fe → 0 ≤ off → off + zlen src ≤ 28 → bytes src →
  layout (splice d off src) sc fe ∧ aslots (splice d off src) sc = aslots d sc.
Proof.
  intros Hl ? ? ?. pose proof Hl as []. set (d' := splice d off src).
  assert (∀ t, 0 ≤ t < sc → f_off d' t = f_off d t ∧ f_len d' t = f_len d t) as Ht
    by (intros; split; apply rd_splice_out; lia).
  split.
  - apply (layout_same d); auto; [apply zlen_splice; lia|by apply Forall_splice].
  - apply aslots_ext. intros s ?. unfold aslot. destruct (Ht s) as [-> ->]; [done|].
    repeat case_decide; try done. f_equal.
    destruct (l_live0 s) as (?&?&?); [done..|]. apply sub_splice_out; lia.
Qed.

(** Line pointer [s] written as [(o, l)]. *)
Definition slot_splice (d : list Z) (s o l : Z) : list Z :=
  splice (splice d (28 + s * 4) (u16_to_le o)) (28 + s * 4 + 2) (u16_to_le l).

Section slot_splice.
Context (d : list Z) (s o l : Z).
Context (Hs : 0 ≤ s) (Hroom : 28 + s * 4 + 4 ≤ zlen d).
Context (Ho : 0 ≤ o < 65536) (Hl : 0 ≤ l < 65536).

Lemma zlen_slot_splice : zlen (slot_splice d s o l) = zlen d.
Proof using Hs Hroom. unfold slot_splice. len. Qed.

Lemma slot_splice_eq : f_off (slot_splice d s o l) s = o ∧ f_len (slot_splice d s o l) s = l.
Proof using Hs Hroom Ho Hl. unfold f_off, f_len, slot_splice. rds. done. Qed.

Lemma slot_splice_ne t : 0 ≤ t → t ≠ s →
  f_off (slot_splice d s o l) t = f_off d t ∧ f_len (slot_splice d s o l) t = f_len d t.
Proof using Hs Hroom. intros. unfold f_off, f_len, slot_splice. rds. done. Qed.

Lemma slot_splice_rd off n : 0 ≤ off → off + n ≤ 28 ∨ 28 + s * 4 + 4 ≤ off →
  rd (slot_splice d s o l) off n = rd d off n.
Proof using Hs Hroom. intros. unfold slot_splice. rds. done. Qed.

Lemma slot_splice_sub off n : 0 ≤ off → 28 + s * 4 + 4 ≤ off →
  sub (slot_splice d s o l) off n = sub d off n.
Proof using Hs Hroom. intros. unfold slot_splice. rewrite !sub_splice_out by len. done. Qed.

Lemma bytes_slot_splice : bytes d → bytes (slot_splice d s o l).
Proof. intros. unfold slot_splice. repeat apply Forall_splice; auto with unidb. Qed.

End slot_splice.

Lemma write_slot_Ok p s o l : 0 ≤ s → 28 + s * 4 + 4 ≤ zlen (data p) →
  write_slot p s o l = Ok (mkPage (slot_splice (data p) s o l)).
Proof.
  intros. unfold write_slot, slot_offset_in_page, PAGE_HEADER_SIZE, SLOT_SIZE.
  rewrite copy_from_slice_Ok by len. simpl.
  rewrite copy_from_slice_Ok by len. done.
Qed.

(** Retiring the line pointer of a slot. *)
Lemma free_slot_write d sc fe s l :
  layout d sc fe → 0 ≤ s < sc → l = 0 ∨ l = 1 →
  layout (slot_splice d s 0 l) sc fe ∧
  aslots (slot_splice d s 0 l) sc =
    <[Z.to_nat s := if decide (l = 1) then ADead else AUnused]> (aslots d sc).
Proof.
  intros Hlay Hs Hl01. pose proof Hlay as [].
  destruct (slot_splice_eq d s 0 l) as [Ho' Hl']; [lia..|].
  assert (∀ t, 0 ≤ t < sc → t ≠ s → f_off (slot_splice d s 0 l) t = f_off d t ∧
    f_len (slot_splice d s 0 l) t = f_len d t) as Ht
    by (intros; apply slot_splice_ne; lia).
  split.
  - split; rewrite ?zlen_slot_splice by lia; auto using bytes_slot_splice.
    + intros t ?. destruct (decide (t = s)) as [->|]; [by rewrite Hl'|].
      destruct (Ht t) as [-> ->]; auto.
    + intros t ?. destruct (decide (t = s)) as [->|]; [by rewrite Ho'|].
      destruct (Ht t) as [-> ->]; auto.
    + intros t u Ht1 Hu1. destruct (decide (t = s)) as [->|Hts]; [by rewrite Ho'|].
      destruct (decide (u = s)) as [->|Hus]; [by rewrite Ho'|].
      destruct (Ht t Ht1 Hts) as [-> ->], (Ht u Hu1 Hus) as [-> ->]; auto.
  - apply aslots_insert; auto.
    + unfold aslot. by rewrite Ho', Hl'.
    + intros t ??. unfold aslot. destruct (Ht t) as [-> ->]; [done..|].
      repeat case_decide; try done. f_equal. destruct (l_live0 t); auto.
      apply slot_splice_sub; lia.
Qed.

(** Placing a body below [fe] and pointing slot [s], free or the next one,
    at it. *)
Lemma place_write d sc sc' fe s body :
  layout d sc fe → 0 ≤ s ≤ sc → sc' = Z.max sc (s + 1) →
  (s < sc → f_off d s = 0) → bytes body → 24 ≤ zlen body →
  28 + sc' * 4 + zlen body ≤ fe →
  let d' := slot_splice (splice d (fe - zlen body) body) s (fe - zlen body) (zlen body) in
  layout d' sc' (fe - zlen body) ∧ aslot d' s = ALive body ∧
  (∀ t, 0 ≤ t < sc → t ≠ s → aslot d' t = aslot d t).
Proof.
  intros Hlay Hs -> Hfree Hb Hb24 Hroom. pose proof Hlay as []. cbv zeta.
  set (d1 := splice d (fe - zlen body) body).
  set (d' := slot_splice d1 s (fe - zlen body) (zlen body)).
  assert (zlen d1 = zlen d) as Hz1 by (apply zlen_splice; lia).
  assert (∀ t, 0 ≤ t < sc → f_off d1 t = f_off d t ∧ f_len d1 t = f_len d t) as H1
    by (intros; split; apply rd_splice_out; lia).
  destruct (slot_splice_eq d1 s (fe - zlen body) (zlen body)) as [Ho' Hl']; [lia..|].
  fold d' in Ho', Hl'.
  assert (∀ t, 0 ≤ t < Z.max sc (s + 1) → t ≠ s → t < sc ∧ f_off d' t = f_off d t ∧
    f_len d' t = f_len d t) as Ht.
  { intros t ??. destruct (slot_splice_ne d1 s (fe - zlen body) (zlen body) ltac:(lia)
      ltac:(lia) t) as [E1 E2]; [lia..|]. fold d' in E1, E2. rewrite E1, E2.
    split; [lia|apply H1; lia]. }
  assert (zlen d' = zlen d) as Hz by (subst d'; rewrite zlen_slot_splice; lia).
  split; [|split].
  - split; rewrite ?Hz; try lia.
    + apply bytes_slot_splice. by apply Forall_splice.
    + intros t ?. destruct (decide (t = s)) as [->|]; [lia|].
      destruct (Ht t) as (?&->&->); auto with lia.
    + intros t ?. destruct (decide (t = s)) as [->|]; [lia|].
      destruct (Ht t) as (?&->&->); [done..|]. intros. destruct (l_live0 t); auto with lia.
    + intros t u Ht1 Hu1 Htu. destruct (decide (t = s)) as [->|Hts].
      * destruct (Ht u) as (?&->&->); [lia..|]. intros. destruct (l_live0 u); lia.
      * destruct (Ht t) as (?&->&->); [lia..|]. destruct (decide (u = s)) as [->|Hus].
        { intros. destruct (l_live0 t); lia. }
        destruct (Ht u) as (?&->&->); [lia..|]. auto with lia.
  - unfold aslot. rewrite Ho', Hl', decide_False by lia. f_equal.
    subst d'. rewrite slot_splice_sub by lia. apply sub_splice_eq; lia.
  - intros t ??. unfold aslot. destruct (Ht t) as (?&->&->); [lia..|].
    repeat case_decide; try done. f_equal. destruct (l_live0 t); [lia|done|].
    subst d'. rewrite slot_splice_sub by lia. apply sub_splice_out; lia.
Qed.

Section ops.
Context `{!Crc32}.

Lemma slot_count_Ok p : 28 ≤ zlen (data p) → slot_count p = Ok (f_sc (data p)).
Proof. intros. apply read_u16_Ok; lia. Qed.
Lemma free_start_Ok p : 28 ≤ zlen (data p) → free_start p = Ok (f_fs (data p)).
Proof. intros. apply read_u16_Ok; lia. Qed.
Lemma free_end_Ok p : 28 ≤ zlen (data p) → free_end p = Ok (f_fe (data p)).
Proof. intros. apply read_u16_Ok; lia. Qed.
Lemma page_id_Ok p : 28 ≤ zlen (data p) → page_id p = Ok (rd (data p) 0 4).
Proof. intros. apply read_u32_Ok; lia. Qed.
Lemma lsn_Ok p : 28 ≤ zlen (data p) → lsn p = Ok (rd (data p) 12 8).
Proof. intros. apply read_u64_Ok; lia. Qed.

Lemma wf_slot_room p s : page_wf p → 0 ≤ s < f_sc (data p) → 28 + s * 4 + 4 ≤ zlen (data p).
Proof. intros [[]] ?. lia. Qed.

Lemma read_slot_Ok p s :
  0 ≤ s → 28 + s * 4 + 4 ≤ zlen (data p) →
  read_slot p s = Ok (f_off (data p) s, f_len (data p) s).
Proof.
  intros. unfold read_slot, slot_offset_in_page, PAGE_HEADER_SIZE, SLOT_SIZE.
  rewrite !read_u16_Ok by lia. done.
Qed.

Lemma free_space_Ok p : page_wf p →
  free_space p = Ok (f_fe (data p) - f_fs (data p)).
Proof.
  intros [[] ?]. unfold free_space. rewrite free_start_Ok, free_end_Ok by lia. simpl.
  unfold saturating_sub. f_equal. lia.
Qed.

(** The guard of every tuple access, on its three branches. *)
Lemma live_slot_cases p s : page_wf p → 0 ≤ s →
  (f_sc (data p) ≤ s ∧ live_slot p s = Err (SlotOutOfRange (rd (data p) 0 4) s)) ∨
  (s < f_sc (data p) ∧ f_off (data p) s = 0 ∧
    live_slot p s = Err (TupleDeleted (rd (data p) 0 4) s)) ∨
  (s < f_sc (data p) ∧ f_off (data p) s ≠ 0 ∧
    live_slot p s = Ok (f_off (data p) s, f_len (data p) s)).
Proof.
  intros Hwf Hs. pose proof (l_size _ _ _ (wf_layout _ Hwf)). unfold live_slot.
  rewrite slot_count_Ok by lia. simpl. case_decide.
  { left. rewrite page_id_Ok by lia. done. }
  right. rewrite read_slot_Ok by (try apply wf_slot_room; auto with lia). simpl.
  case_decide; [left|right]; rewrite ?page_id_Ok by lia; split; auto with lia.
Qed.

Lemma live_slot_Ok p s : page_wf p → 0 ≤ s < f_sc (data p) → f_off (data p) s ≠ 0 →
  live_slot p s = Ok (f_off (data p) s, f_len (data p) s).
Proof.
  intros Hwf ? ?. destruct (live_slot_cases p s) as [[]|[(?&?&?)|(?&?&?)]]; auto; lia.
Qed.

(** ** Reading operations are functions of the abstract page *)

Lemma lookup_slots_ge p s : 0 ≤ s → f_sc (data p) ≤ s → slots p !! Z.to_nat s = None.
Proof. intros. apply lookup_ge_None_2. unfold slots. rewrite length_aslots. lia. Qed.

(** The slots of a page, with what [live_slot] returns for each. *)
Inductive slot_view (p : SlottedPage) (s : Z) : option ASlot → Result (Z * Z) → Prop :=
| view_out : f_sc (data p) ≤ s →
    slot_view p s None (Err (SlotOutOfRange (rd (data p) 0 4) s))
| view_free a : 0 ≤ s < f_sc (data p) → f_off (data p) s = 0 → a = ADead ∨ a = AUnused →
    slot_view p s (Some a) (Err (TupleDeleted (rd (data p) 0 4) s))
| view_live o l : 0 ≤ s < f_sc (data p) →
    o = f_off (data p) s → l = f_len (data p) s → o ≠ 0 →
    f_fe (data p) ≤ o → 24 ≤ l → o + l ≤ zlen (data p) →
    slot_view p s (Some (ALive (sub (data p) o l))) (Ok (o, l)).

Lemma live_slot_view p s : page_wf p → 0 ≤ s →
  slot_view p s (slots p !! Z.to_nat s) (live_slot p s).
Proof.
  intros Hwf Hs. pose proof Hwf as [[] ?].
  destruct (live_slot_cases p s) as [[? ->]|[(?&?&->)|(?&?&->)]]; [done..| | |].
  - rewrite lookup_slots_ge by done. by constructor.
  - unfold slots. rewrite lookup_aslots by lia. unfold aslot. rewrite decide_True by done.
    constructor; [lia|done|]. case_decide; auto.
  - unfold slots. rewrite lookup_aslots by lia. unfold aslot. rewrite decide_False by done.
    destruct (l_live0 s); [lia|done|]. constructor; lia || done.
Qed.

Definition on_slot {A} (p : SlottedPage) (s : Z) (f : list Z → A) : Result A :=
  match slots p !! Z.to_nat s with
  | None => Err (SlotOutOfRange (rd (data p) 0 4) s)
  | Some (ALive b) => Ok (f b)
  | Some _ => Err (TupleDeleted (rd (data p) 0 4) s)
  end.

Lemma tuple_header_on_slot p s : page_wf p → 0 ≤ s → tuple_header p s = on_slot p s header_of.
Proof.
  intros Hwf Hs. unfold tuple_header, on_slot.
  destruct (live_slot_view p s Hwf Hs) as [|a ?? [-> | ->]|o l]; try done. simpl.
  pose proof (l_fe _ _ _ (wf_layout _ Hwf)).
  unfold TH_XMIN, TH_XMAX, TH_PREV_PAGE, TH_PREV_SLOT, TH_HOT_NEXT, header_of.
  rewrite !read_u64_Ok by lia. simpl. rewrite read_u32_Ok, !read_u16_Ok by lia. simpl.
  rewrite !rd_sub by lia. done.
Qed.

Lemma get_on_slot p s : page_wf p → 0 ≤ s → get p s = on_slot p s payload_of.
Proof.
  intros Hwf Hs. unfold get, on_slot.
  destruct (live_slot_view p s Hwf Hs) as [|a ?? [-> | ->]|o l]; try done. simpl.
  pose proof (l_fe _ _ _ (wf_layout _ Hwf)). unfold TUPLE_HEADER_SIZE.
  rewrite slice_Ok by lia. f_equal. unfold payload_of.
  change 24%nat with (Z.to_nat 24). rewrite <- drop_sub by (rewrite length_sub; lia).
  rewrite length_sub, sub_sub by lia. f_equal. lia.
Qed.

Lemma slot_state_slots p s : page_wf p → 0 ≤ s →
  slot_state p s =
    match slots p !! Z.to_nat s with
    | None => Err (SlotOutOfRange (rd (data p) 0 4) s)
    | Some (ALive _) => Ok Live
    | Some ADead => Ok Dead
    | Some AUnused => Ok Unused
    end.
Proof.
  intros Hwf Hs. pose proof Hwf as [[] ?]. unfold slot_state.
  rewrite slot_count_Ok by lia. simpl. case_decide.
  { rewrite lookup_slots_ge by done. by rewrite page_id_Ok by lia. }
  unfold slots. rewrite lookup_aslots, read_slot_Ok by lia. simpl. unfold aslot, SLOT_DEAD_LEN.
  repeat case_decide; done || lia.
Qed.

(** ** The checksum *)

Definition crc_of (d : list Z) : Z :=
  crc32 (sub d 0 8 ++ [0; 0; 0; 0] ++ sub d 12 (zlen d - 12)).

Lemma compute_crc_Ok p : 12 ≤ zlen (data p) → compute_crc p = Ok (crc_of (data p)).
Proof.
  intros. unfold compute_crc, CRC_FIELD_OFFSET. rewrite !slice_Ok by lia. done.
Qed.

Definition with_crc (p : SlottedPage) : SlottedPage :=
  mkPage (splice (data p) 8 (u32_to_le (crc_of (data p)))).

Lemma write_crc_Ok p : 12 ≤ zlen (data p) → write_crc p = Ok (with_crc p).
Proof.
  intros. unfold write_crc. rewrite compute_crc_Ok by done. simpl.
  unfold CRC_FIELD_OFFSET. rewrite copy_from_slice_Ok by len. done.
Qed.

Lemma crc_of_with_crc p : 12 ≤ zlen (data p) → crc_of (data (with_crc p)) = crc_of (data p).
Proof.
  intros. unfold crc_of at 1. simpl. rewrite zlen_splice by len.
  rewrite !sub_splice_out by len. done.
Qed.

Lemma verify_with_crc p : 12 ≤ zlen (data p) → verify_crc (with_crc p) = Ok tt.
Proof.
  intros. assert (zlen (data (with_crc p)) = zlen (data p)) as Hz by (simpl; len).
  unfold verify_crc, CRC_FIELD_OFFSET. rewrite read_u32_Ok, compute_crc_Ok by lia.
  cbn [mbind outcome_bind].
  rewrite crc_of_with_crc by done. rewrite decide_False; [done|].
  intros []. simpl. apply rd_u32_eq; [lia..|apply crc32_range].
Qed.

(** [p'] has the size of [p] and its header, the checksum apart. *)
Definition same_meta (p p' : SlottedPage) : Prop :=
  zlen (data p') = zlen (data p) ∧
  ∀ off n, 0 ≤ off → off + n ≤ 8 ∨ 12 ≤ off ∧ off + n ≤ 28 →
    rd (data p') off n = rd (data p) off n.

Lemma same_meta_trans p q r : same_meta p q → same_meta q r → same_meta p r.
Proof. intros [E1 H1] [E2 H2]. split; [lia|]. intros. by rewrite H2, H1. Qed.

Lemma same_meta_wf p p' :
  same_meta p p' → page_wf p → layout (data p') (f_sc (data p)) (f_fe (data p)) →
  page_wf p' ∧ slots p' = aslots (data p') (f_sc (data p)).
Proof.
  intros [_ Hr] [_ Hfs] Hl. unfold slots.
  assert (f_sc (data p') = f_sc (data p) ∧ f_fe (data p') = f_fe (data p) ∧
    f_fs (data p') = f_fs (data p)) as (E1&E2&E3) by (split_and!; apply Hr; lia).
  split; [|by rewrite E1]. split; rewrite ?E1, ?E2, ?E3; done.
Qed.

Lemma with_crc_spec p : page_wf p →
  page_wf (with_crc p) ∧ slots (with_crc p) = slots p ∧ same_meta p (with_crc p).
Proof.
  intros Hwf. pose proof Hwf as [[] ?].
  assert (same_meta p (with_crc p)) as Hm
    by (split; [simpl; len|intros; simpl; rds; done]).
  destruct (header_write (data p) (f_sc (data p)) (f_fe (data p)) 8
    (u32_to_le (crc_of (data p)))) as [Hl' Hs']; [apply Hwf|len|len|auto with unidb|].
  destruct (same_meta_wf p (with_crc p) Hm Hwf Hl') as [? ->].
  split_and!; auto.
Qed.

(** ** Operations on one live tuple *)

(** [r] is the result of an operation that replaces live tuple [s] by [f] of
    its body and changes nothing else. *)
Definition updates_slot (p : SlottedPage) (s : Z) (f : list Z → ASlot)
    (r : Result SlottedPage) : Prop :=
  match slots p !! Z.to_nat s with
  | None => r = Err (SlotOutOfRange (rd (data p) 0 4) s)
  | Some (ALive b) => ∃ p', r = Ok p' ∧ page_wf p' ∧ same_meta p p' ∧
      slots p' = <[Z.to_nat s := f b]> (slots p)
  | Some _ => r = Err (TupleDeleted (rd (data p) 0 4) s)
  end.

(** Every writer of the tuple header is a [splice] at a fixed place of the
    body, behind the guard [live_slot]. *)
Lemma guarded_splice p s k n (src : list Z → list Z) (cont : Z * Z → Result SlottedPage) :
  page_wf p → 0 ≤ s → 0 ≤ k → k + n ≤ 24 →
  (∀ b, bytes b → 24 ≤ zlen b → zlen (src b) = n ∧ bytes (src b)) →
  (∀ o l, 28 ≤ o → 24 ≤ l → o + l ≤ zlen (data p) →
    cont (o, l) = Ok (mkPage (splice (data p) (o + k) (src (sub (data p) o l))))) →
  updates_slot p s (λ b, ALive (splice b k (src b))) (ol ← live_slot p s; cont ol).
Proof.
  intros Hwf Hs ?? Hsrc Hcont. pose proof Hwf as [[] ?]. unfold updates_slot.
  destruct (live_slot_view p s Hwf Hs) as [|a ?? [-> | ->]|o l ? Eo El]; try done. simpl.
  rewrite Hcont by lia. eexists; split; [done|].
  destruct (Hsrc (sub (data p) o l)) as [Hn Hb]; [by apply Forall_sub|rewrite length_sub; lia|].
  set (src' := src (sub (data p) o l)) in *. subst o l.
  destruct (body_write (data p) (f_sc (data p)) (f_fe (data p)) s k src') as [Hl' Hs'];
    [apply Hwf|lia..|done|].
  assert (same_meta p (mkPage (splice (data p) (f_off (data p) s + k) src'))) as Hm.
  { split; [simpl; len|]. intros. simpl. rds. done. }
  destruct (same_meta_wf _ _ Hm Hwf Hl') as [? ->]. auto.
Qed.

Ltac guarded n src :=
  intros; apply (guarded_splice _ _ _ n src); try done; try lia;
  [ intros; split; [len|]; repeat apply Forall_app_2; auto with unidb
  | intros; simpl; unfold TH_XMIN, TH_XMAX, TH_PREV_PAGE, TH_PREV_SLOT, TH_HOT_NEXT;
    repeat (rewrite copy_from_slice_Ok by len; simpl) ].

Lemma set_xmax_updates p s x : page_wf p → 0 ≤ s →
  updates_slot p s (λ b, ALive (splice b 8 (u64_to_le x))) (set_xmax p s x).
Proof. guarded 8 (λ _ : list Z, u64_to_le x). done. Qed.

Lemma set_hot_next_updates p s n : page_wf p → 0 ≤ s →
  updates_slot p s (λ b, ALive (splice b 22 (u16_to_le n))) (set_hot_next p s n).
Proof. guarded 2 (λ _ : list Z, u16_to_le n). done. Qed.

Lemma splice_link (d : list Z) o a b c :
  0 ≤ o → o + 24 ≤ zlen d → zlen a = 4 → zlen b = 2 → zlen c = 2 →
  splice (splice (splice d (o + 16) a) (o + 20) b) (o + 22) c =
  splice d (o + 16) (a ++ b ++ c).
Proof.
  intros. replace (o + 20) with (o + 16 + zlen a) by lia. rewrite splice_app by lia.
  replace (o + 22) with (o + 16 + zlen (a ++ b)) by len. rewrite splice_app by len.
  by rewrite app_assoc.
Qed.

Lemma set_hot_xpage_updates p s xp xs : page_wf p → 0 ≤ s →
  updates_slot p s
    (λ b, ALive (splice b 16 (u32_to_le xp ++ u16_to_le xs ++ u16_to_le HOT_NEXT_XPAGE)))
    (set_hot_xpage p s xp xs).
Proof.
  guarded 8 (λ _ : list Z, u32_to_le xp ++ u16_to_le xs ++ u16_to_le HOT_NEXT_XPAGE).
  rewrite splice_link by len. done.
Qed.

Lemma restore_prev_and_hot_next_updates p s pp ps : page_wf p → 0 ≤ s →
  updates_slot p s
    (λ b, ALive (splice b 16 (u32_to_le pp ++ u16_to_le ps ++ u16_to_le HOT_NEXT_NONE)))
    (restore_prev_and_hot_next p s pp ps).
Proof.
  guarded 8 (λ _ : list Z, u32_to_le pp ++ u16_to_le ps ++ u16_to_le HOT_NEXT_NONE).
  rewrite splice_link by len. done.
Qed.

Definition with_hint (field flag : Z) (b : list Z) : list Z :=
  splice b (field + 7) [Z.lor (rd b (field + 7) 1) flag].

Lemma is_byte_lor a b : is_byte a → is_byte b → is_byte (Z.lor a b).
Proof.
  unfold is_byte. intros. split; [apply Z.lor_nonneg; lia|].
  destruct (decide (Z.lor a b = 0)); [lia|].
  apply (Z.log2_lt_pow2 _ 8); [pose proof (Z.lor_nonneg a b); lia|].
  rewrite Z.log2_lor by lia. apply Z.max_lub_lt.
  - destruct (decide (a = 0)) as [->|]; [done|]. apply Z.log2_lt_pow2; lia.
  - destruct (decide (b = 0)) as [->|]; [done|]. apply Z.log2_lt_pow2; lia.
Qed.

Lemma rd_1 d off b : 0 ≤ off → d !! Z.to_nat off = Some b → rd d off 1 = b.
Proof.
  intros ? Hb. unfold rd, sub. erewrite drop_S by done. simpl. lia.
Qed.

Lemma set_hint_updates field p s flag :
  page_wf p → 0 ≤ s → 0 ≤ field ≤ 8 → is_byte flag →
  updates_slot p s (λ b, ALive (with_hint field flag b)) (set_hint field p s flag).
Proof.
  intros Hwf Hs Hf Hb.
  apply (guarded_splice _ _ _ 1 (λ b, [Z.lor (rd b (field + 7) 1) flag])); try done; try lia.
  - intros b ??. split; [done|]. constructor; [|constructor].
    apply is_byte_lor; [|done]. apply (rd_bounds b (field + 7) 1); done || lia.
  - intros o l ???. simpl.
    destruct (index_Ok (E:=DbError) (data p) (o + field + 7)) as (v&Hv&->); [lia|].
    simpl. rewrite set_index_Ok by lia. simpl.
    rewrite rd_sub by lia. rewrite (rd_1 _ _ v); [|lia|].
    + do 3 f_equal; lia.
    + rewrite <- Hv. f_equal. lia.
Qed.

(** ** Line-pointer life cycle *)

Lemma retire_slot p s l : page_wf p → 0 ≤ s < f_sc (data p) → l = 0 ∨ l = 1 →
  let p' := mkPage (slot_splice (data p) s 0 l) in
  page_wf p' ∧ same_meta p p' ∧
  slots p' = <[Z.to_nat s := if decide (l = 1) then ADead else AUnused]> (slots p).
Proof.
  intros Hwf Hs Hl. pose proof Hwf as [[] ?]. cbv zeta.
  destruct (free_slot_write (data p) (f_sc (data p)) (f_fe (data p)) s l) as [Hl' Hs'];
    [apply Hwf|done..|].
  assert (same_meta p (mkPage (slot_splice (data p) s 0 l))) as Hm.
  { split; [apply zlen_slot_splice; lia|]. intros. apply slot_splice_rd; lia. }
  destruct (same_meta_wf _ _ Hm Hwf Hl') as [? ->]. auto.
Qed.

Lemma mark_dead_spec p s : page_wf p → 0 ≤ s →
  match slots p !! Z.to_nat s with
  | None => mark_dead p s = Err (SlotOutOfRange (rd (data p) 0 4) s)
  | Some (ALive _) => ∃ p', mark_dead p s = Ok p' ∧ page_wf p' ∧ same_meta p p' ∧
      verify_crc p' = Ok tt ∧ slots p' = <[Z.to_nat s := ADead]> (slots p)
  | Some _ => mark_dead p s = Ok p
  end.
Proof.
  intros Hwf Hs. pose proof Hwf as [[] ?]. unfold mark_dead.
  rewrite slot_count_Ok by lia. simpl.
  destruct (live_slot_view p s Hwf Hs) as [?|a ?? Ha|o l ? -> -> ???].
  - rewrite decide_True, page_id_Ok by lia. done.
  - rewrite decide_False, read_slot_Ok by lia. simpl. rewrite decide_True by done.
    by destruct Ha as [-> | ->].
  - rewrite decide_False, read_slot_Ok by lia. simpl. rewrite decide_False by done.
    rewrite write_slot_Ok by lia. simpl. rewrite write_crc_Ok.
    2:{ simpl. rewrite zlen_slot_splice by lia. lia. }
    destruct (retire_slot p s 1) as (?&?&?); [done|lia..|]. unfold SLOT_DEAD_LEN.
    set (p1 := mkPage _) in *. destruct (with_crc_spec p1) as (?&E&?); [done|].
    eexists; split_and!; [done|done|eauto using same_meta_trans| |by rewrite E].
    apply verify_with_crc. simpl. rewrite zlen_slot_splice; lia.
Qed.

Lemma delete_updates p s : page_wf p → 0 ≤ s →
  updates_slot p s (λ _, AUnused) (delete p s).
Proof.
  intros Hwf Hs. pose proof Hwf as [[] ?]. unfold delete, updates_slot.
  destruct (live_slot_view p s Hwf Hs) as [?|a ?? [-> | ->]|o l ? -> -> ???]; try done. simpl.
  rewrite write_slot_Ok by lia. simpl. rewrite write_crc_Ok.
  2:{ simpl. rewrite zlen_slot_splice by lia. lia. }
  destruct (retire_slot p s 0) as (?&?&?); [done|lia..|].
  set (p1 := mkPage _) in *. destruct (with_crc_spec p1) as (?&E&?); [done|].
  eexists; split_and!; [done|done|eauto using same_meta_trans|by rewrite E].
Qed.

End ops.
