(* ===== verification/PageOps.v ===== *)
(** The operations of a slotted page that move tuple bodies: [insert_versioned],
    [update], [compact] and [new], against the abstract page of [PageSpec]. *)

From stdpp Require Import base numbers list.
From S2P Require Import Prelude Format Page PageSpec.

Section ops.
Context `{!Crc32}.

(** ** Insertion *)

(** The first unused line pointer is taken, else one is appended. *)
Definition a_insert (ss : list ASlot) (body : list Z) : nat * list ASlot :=
  match list_find (λ a, a = AUnused) ss with
  | Some (i, _) => (i, <[i := ALive body]> ss)
  | None => (length ss, ss ++ [ALive body])
  end.

Lemma find_first_list_find {A} (P : A → Prop) `{!∀ a, Decision (P a)} (g : Z → A)
    (f : Z → Result bool) l :
  (∀ s, s ∈ l → f s = Ok (bool_decide (P (g s)))) →
  find_first f l = Ok (list_find P (g <$> l) ≫= λ '(i, _), l !! i).
Proof.
  induction l as [|s l IH]; intros Hf; [done|]. simpl.
  rewrite Hf by (by left). simpl. case_bool_decide; case_decide; try done. simpl.
  rewrite IH by (intros; apply Hf; by right).
  change (list_fmap Z A g l) with (g <$> l).
  by destruct (list_find P (g <$> l)) as [[]|].
Qed.

Lemma first_unused_slot_spec p : page_wf p →
  first_unused_slot p =
    Ok (match list_find (λ a, a = AUnused) (slots p) with
        | Some (i, _) => Some (Z.of_nat i) | None => None end).
Proof.
  intros Hwf. pose proof Hwf as [[] ?]. unfold first_unused_slot.
  rewrite slot_count_Ok by lia. simpl.
  rewrite (find_first_list_find (λ a, a = AUnused) (aslot (data p))).
  - change (aslot (data p) <$> seqZ 0 (f_sc (data p))) with (slots p).
    destruct (list_find _ (slots p)) as [[i a]|] eqn:E; [|done]. simpl.
    apply list_find_Some in E as [E%lookup_lt_Some _].
    unfold slots in E. rewrite length_aslots in E.
    rewrite lookup_seqZ_lt by lia. f_equal.
  - intros s Hs%elem_of_seqZ. rewrite read_slot_Ok by lia. simpl. f_equal.
    unfold aslot. specialize (l_free s).
    repeat case_decide; repeat case_bool_decide; try done; lia.
Qed.

(** The writes of a new tuple amount to one write of its body. *)
Lemma splice_tuple (d : list Z) o z xm xx pp ps hn pl :
  0 ≤ o → o + 24 + zlen pl ≤ zlen d → zlen z = 24 →
  splice (splice (splice (splice (splice (splice (splice d o z)
    (o + 0) (u64_to_le xm)) (o + 8) (u64_to_le xx)) (o + 16) (u32_to_le pp))
    (o + 20) (u16_to_le ps)) (o + 22) (u16_to_le hn)) (o + 24) pl =
  splice d o (header_bytes xm xx pp ps hn ++ pl).
Proof.
  intros. pose proof (zlen_nonneg pl).
  assert (∀ (e : list Z) n a b, n = zlen a → o + zlen a + zlen b ≤ zlen e →
    splice (splice e o a) (o + n) b = splice e o (a ++ b)) as Happ.
  { intros e n a b -> ?. by apply splice_app. }
  rewrite Z.add_0_r. rewrite !Happ by len. rewrite <- !app_assoc.
  fold (header_bytes xm xx pp ps hn).
  replace (u64_to_le xm ++ u64_to_le xx ++ u32_to_le pp ++ u16_to_le ps ++ u16_to_le hn ++ pl)
    with (header_bytes xm xx pp ps hn ++ pl)
    by (unfold header_bytes; by rewrite <- !app_assoc).
  rewrite <- splice_app by (unfold header_bytes; len).
  rewrite splice_splice_same by (unfold header_bytes; len).
  rewrite splice_app by (unfold header_bytes; len). done.
Qed.

Lemma zlen_header_bytes xm xx pp ps hn : zlen (header_bytes xm xx pp ps hn) = 24.
Proof. unfold header_bytes. len. Qed.

Lemma bytes_header_bytes xm xx pp ps hn : bytes (header_bytes xm xx pp ps hn).
Proof. repeat apply Forall_app_2; auto with unidb. Qed.

End ops.
#[export] Hint Rewrite zlen_header_bytes : zlen.
#[export] Hint Resolve bytes_header_bytes : unidb.

Section insert.
Context `{!Crc32}.

(** The page after an insertion into slot [s], reused or the next one. *)
Definition inserted (p : SlottedPage) (s : Z) (body : list Z) : SlottedPage :=
  let nfe := f_fe (data p) - zlen body in
  let d := slot_splice (splice (data p) nfe body) s nfe (zlen body) in
  if decide (s < f_sc (data p)) then mkPage (splice d 24 (u16_to_le nfe))
  else mkPage (splice (splice (splice d 20 (u16_to_le (s + 1))) 24 (u16_to_le nfe))
                 22 (u16_to_le (f_fs (data p) + 4))).

Lemma inserted_spec p s body :
  page_wf p → 0 ≤ s ≤ f_sc (data p) → (s < f_sc (data p) → f_off (data p) s = 0) →
  bytes body → 24 ≤ zlen body →
  let needed := zlen body + (if decide (s < f_sc (data p)) then 0 else 4) in
  needed ≤ f_fe (data p) - f_fs (data p) →
  let p' := inserted p s body in
  page_wf p' ∧ zlen (data p') = zlen (data p) ∧
  (∀ off n, 0 ≤ off → off + n ≤ 20 → rd (data p') off n = rd (data p) off n) ∧
  f_fe (data p') - f_fs (data p') = f_fe (data p) - f_fs (data p) - needed ∧
  slots p' = if decide (s < f_sc (data p)) then <[Z.to_nat s := ALive body]> (slots p)
             else slots p ++ [ALive body].
Proof.
  intros Hwf Hs Hfree Hb Hb24. cbv zeta. intros Hneed. pose proof Hwf as [[] Hfs].
  set (sc := f_sc (data p)) in *. set (fe := f_fe (data p)) in *.
  destruct (place_write (data p) sc (Z.max sc (s + 1)) fe s body) as (Hl'&Hs1&Hs2);
    [apply Hwf|done|done|done|done|done|case_decide; lia|].
  set (d1 := splice (data p) (fe - zlen body) body) in *.
  assert (zlen d1 = zlen (data p)) as Hz1 by (subst d1; rewrite zlen_splice; case_decide; lia).
  unfold inserted. fold sc fe d1.
  set (d2 := slot_splice d1 s (fe - zlen body) (zlen body)) in *.
  assert (zlen d2 = zlen (data p)) as Hz2
    by (subst d2; rewrite zlen_slot_splice; case_decide; lia).
  assert (∀ off n, 0 ≤ off → off + n ≤ 28 → rd d2 off n = rd (data p) off n) as Hr.
  { intros. subst d2. rewrite slot_splice_rd by (case_decide; lia). apply rd_splice_out;
      case_decide; lia. }
  case_decide as Hlt.
  - destruct (header_write d2 (Z.max sc (s + 1)) (fe - zlen body) 24
      (u16_to_le (fe - zlen body))) as [Hl3 Hs3]; [done|len|len|auto with unidb|].
    set (d3 := splice d2 24 (u16_to_le (fe - zlen body))) in *.
    assert (f_sc d3 = sc ∧ f_fs d3 = f_fs (data p) ∧ f_fe d3 = fe - zlen body) as (E1&E2&E3).
    { unfold f_sc, f_fs, f_fe, d3. rds. rewrite !Hr by lia. done. }
    rewrite Z.max_l in * by lia. split_and!; cbn [data].
    + split; cbn [data]; rewrite ?E1, ?E2, ?E3; done.
    + unfold d3. len.
    + intros. unfold d3. rds. apply Hr; lia.
    + rewrite E2, E3. lia.
    + unfold slots at 1. cbn [data]. rewrite E1, Hs3. apply aslots_insert; auto with lia.
  - assert (s = sc) as -> by lia. rewrite Z.max_r in * by lia.
    destruct (header_write d2 (sc + 1) (fe - zlen body) 20
      (u16_to_le (sc + 1))) as [Hl3 Hs3]; [done|len|len|auto with unidb|].
    set (d3 := splice d2 20 _) in *.
    destruct (header_write d3 (sc + 1) (fe - zlen body) 24
      (u16_to_le (fe - zlen body))) as [Hl4 Hs4]; [done|len|len|auto with unidb|].
    set (d4 := splice d3 24 _) in *.
    destruct (header_write d4 (sc + 1) (fe - zlen body) 22
      (u16_to_le (f_fs (data p) + 4))) as [Hl5 Hs5]; [done|len|len|auto with unidb|].
    set (d5 := splice d4 22 _) in *.
    assert (f_sc d5 = sc + 1 ∧ f_fs d5 = f_fs (data p) + 4 ∧ f_fe d5 = fe - zlen body)
      as (E1&E2&E3).
    { unfold f_sc, f_fs, f_fe, d5, d4, d3. rds. done. }
    split_and!; cbn [data].
    + split; cbn [data]; rewrite ?E1, ?E2, ?E3; done || lia.
    + unfold d5, d4, d3. len.
    + intros. unfold d5, d4, d3. rds. apply Hr; lia.
    + rewrite E2, E3. lia.
    + unfold slots at 1. cbn [data]. rewrite E1, Hs5, Hs4, Hs3, aslots_snoc by lia.
      rewrite Hs1. f_equal. apply aslots_ext. auto with lia.
Qed.

(** Run the writes of a new tuple. *)
Ltac write_tuple body :=
  cbn [mbind outcome_bind];
  repeat (rewrite copy_from_slice_Ok by len; cbn [mbind outcome_bind]);
  rewrite splice_tuple by len;
  fold body.

Lemma insert_versioned_spec p payload xmin xmax prev :
  page_wf p → bytes payload →
  let '(pp, ps) := default (INVALID_PAGE_ID, 0) prev in
  let body := header_bytes xmin xmax pp ps HOT_NEXT_NONE ++ payload in
  let i := Z.of_nat (fst (a_insert (slots p) body)) in
  let needed := zlen body + (if decide (i < f_sc (data p)) then 0 else 4) in
  insert_versioned p payload xmin xmax prev =
    if decide (needed > f_fe (data p) - f_fs (data p)) then Err (HeapFull (zlen payload))
    else Ok (i, inserted p i body).
Proof.
  intros Hwf Hb. destruct (default _ prev) as [pp ps] eqn:Eprev. cbv zeta.
  set (body := header_bytes _ _ _ _ _ ++ payload).
  assert (zlen body = 24 + zlen payload) as Hz by (subst body; len).
  pose proof Hwf as [[] Hfs]. pose proof (zlen_nonneg payload).
  unfold insert_versioned, a_insert. rewrite first_unused_slot_spec by done. simpl.
  rewrite free_space_Ok, free_end_Ok by (done || lia). simpl. rewrite Eprev.
  unfold TUPLE_HEADER_SIZE, SLOT_SIZE, TH_XMIN, TH_XMAX, TH_PREV_PAGE, TH_PREV_SLOT,
    TH_HOT_NEXT, checked_sub, inserted.
  destruct (list_find _ (slots p)) as [[i a]|] eqn:E; cbn [fst].
  - apply list_find_Some in E as [E%lookup_lt_Some _]. unfold slots in E.
    rewrite length_aslots in E. repeat case_decide; try lia; [done|].
    write_tuple body. rewrite !u16_small, write_slot_Ok by (cbn [data]; len). simpl.
    unfold set_free_end. cbn [data]. rewrite copy_from_slice_Ok; [|lia| |len].
    + simpl. by rewrite Hz.
    + rewrite zlen_slot_splice by len. len.
  - unfold slots. rewrite length_aslots, Z2Nat.id by lia.
    repeat case_decide; try lia; [done|]. write_tuple body.
    set (nfe := f_fe (data p) - (24 + zlen payload)) in *. rewrite Hz. fold nfe.
    set (d1 := splice (data p) nfe body).
    assert (zlen d1 = zlen (data p)) as Hz1 by (subst d1 nfe; len).
    rewrite !u16_small, slot_count_Ok by (subst nfe; simpl; lia). cbn [data mbind outcome_bind].
    assert (f_sc d1 = f_sc (data p)) as -> by (apply rd_splice_out; subst nfe; len).
    rewrite write_slot_Ok by (simpl; lia). cbn [data mbind outcome_bind].
    set (d2 := slot_splice d1 (f_sc (data p)) nfe (24 + zlen payload)).
    assert (zlen d2 = zlen (data p)) as Hz2 by (subst d2; rewrite zlen_slot_splice; lia).
    assert (f_fs d2 = f_fs (data p)) as Hfs2.
    { unfold f_fs, d2. rewrite slot_splice_rd by lia. apply rd_splice_out; subst nfe; len. }
    unfold checked_add_u16, set_slot_count, set_free_end, set_free_start.
    rewrite decide_True by lia. cbn [data mbind outcome_bind].
    do 2 (rewrite copy_from_slice_Ok by len; cbn [data mbind outcome_bind]).
    rewrite free_start_Ok by (simpl; len). cbn [data mbind outcome_bind].
    assert (∀ a b, f_fs (splice (splice d2 20 (u16_to_le a)) 24 (u16_to_le b)) =
      f_fs (data p)) as -> by (intros; rewrite <- Hfs2; unfold f_fs; rds; done).
    rewrite decide_True by lia. cbn [data mbind outcome_bind].
    rewrite copy_from_slice_Ok by len. done.
Qed.

End insert.

(** ** Update in place *)

Section update.
Context `{!Crc32}.

(** Shortening a live tuple in place. *)
Lemma shrink_write d sc fe s l :
  layout d sc fe → 0 ≤ s < sc → f_off d s ≠ 0 → 24 ≤ l ≤ f_len d s →
  let d' := slot_splice d s (f_off d s) l in
  layout d' sc fe ∧
  aslots d' sc = <[Z.to_nat s := ALive (sub d (f_off d s) l)]> (aslots d sc).
Proof.
  intros Hlay Hs Ho Hl. cbv zeta. pose proof Hlay as [].
  destruct (l_live s) as (?&?&?); [done..|].
  destruct (slot_splice_eq d s (f_off d s) l) as [Ho' Hl']; [lia..|].
  set (d' := slot_splice d s (f_off d s) l) in *.
  assert (∀ t, 0 ≤ t < sc → t ≠ s → f_off d' t = f_off d t ∧ f_len d' t = f_len d t) as Ht
    by (intros; apply slot_splice_ne; lia).
  assert (zlen d' = zlen d) as Hz by (apply zlen_slot_splice; lia).
  split.
  - split; rewrite ?Hz; try done; try (by apply bytes_slot_splice).
    + intros t ?. destruct (decide (t = s)) as [->|]; [by rewrite Ho'|].
      destruct (Ht t) as [-> ->]; auto.
    + intros t ?. destruct (decide (t = s)) as [->|]; [rewrite Ho', Hl'; lia|].
      destruct (Ht t) as [-> ->]; auto.
    + intros t u Ht1 Hu1 Htu. destruct (decide (t = s)) as [->|Hts];
        [|destruct (Ht t Ht1 Hts) as [-> ->]];
        (destruct (decide (u = s)) as [->|Hus]; [|destruct (Ht u Hu1 Hus) as [-> ->]]);
        rewrite ?Ho', ?Hl'; try done; intros.
      * destruct (l_disj s u); lia || done.
      * destruct (l_disj t s); lia || done.
      * auto.
  - apply aslots_insert; auto.
    + unfold aslot. rewrite Ho', Hl', decide_False by done. f_equal.
      apply slot_splice_sub; lia.
    + intros t ??. unfold aslot. destruct (Ht t) as [-> ->]; [done..|].
      repeat case_decide; try done. f_equal. destruct (l_live t); auto.
      apply slot_splice_sub; lia.
Qed.

Lemma update_spec p s payload : page_wf p → 0 ≤ s → bytes payload →
  match slots p !! Z.to_nat s with
  | None => update p s payload = Err (SlotOutOfRange (rd (data p) 0 4) s)
  | Some (ALive b) =>
      if decide (zlen payload > zlen b - 24) then
        update p s payload = Err (HeapFull (zlen payload))
      else ∃ p', update p s payload = Ok p' ∧ page_wf p' ∧ same_meta p p' ∧
        verify_crc p' = Ok tt ∧
        slots p' = <[Z.to_nat s := ALive (take 24 b ++ payload)]> (slots p)
  | Some _ => update p s payload = Err (TupleDeleted (rd (data p) 0 4) s)
  end.
Proof.
  intros Hwf Hs Hb. pose proof Hwf as [[] ?]. unfold update.
  pose proof (zlen_nonneg payload).
  destruct (live_slot_view p s Hwf Hs) as [?|a ?? [-> | ->]|o l ? Eo El ???]; try done. simpl.
  rewrite length_sub by lia.
  unfold TUPLE_HEADER_SIZE, checked_sub. rewrite (decide_True (P:=24 ≤ l)) by lia. simpl.
  case_decide; [done|]. rewrite copy_from_slice_Ok by len. simpl.
  destruct (body_write (data p) (f_sc (data p)) (f_fe (data p)) s 24 payload) as [Hl1 Hs1];
    [apply Hwf|lia..|done|]. rewrite <- Eo, <- El in *.
  set (d1 := splice (data p) (o + 24) payload) in *.
  assert (f_off d1 s = o ∧ f_len d1 s = l) as [Eo1 El1].
  { subst o l. split; apply rd_splice_out; lia. }
  assert (zlen d1 = zlen (data p)) as Hz1 by (apply zlen_splice; lia).
  destruct (shrink_write d1 (f_sc (data p)) (f_fe (data p)) s (24 + zlen payload)) as [Hl2 Hs2];
    [done|lia..|]. rewrite Eo1 in *.
  rewrite u16_small, write_slot_Ok by (simpl; lia). cbn [data mbind outcome_bind].
  set (p2 := mkPage (slot_splice d1 s o (24 + zlen payload))) in *.
  assert (same_meta p p2) as Hm.
  { split; [unfold p2; cbn [data]; rewrite zlen_slot_splice; lia|]. intros.
    unfold p2. cbn [data]. rewrite slot_splice_rd by lia. apply rd_splice_out; lia. }
  destruct (same_meta_wf _ _ Hm Hwf Hl2) as [Hwf2 E2].
  destruct (with_crc_spec p2 Hwf2) as (?&E3&?). rewrite write_crc_Ok by (destruct Hm; lia).
  eexists; split_and!; [done|done|eauto using same_meta_trans| |].
  - apply verify_with_crc. destruct Hm; lia.
  - rewrite E3, E2. unfold p2. cbn [data]. rewrite Hs2, Hs1, list_insert_insert_eq. do 2 f_equal.
    change 24%nat with (Z.to_nat 24). rewrite take_sub by lia. apply sub_splice_prefix; lia.
Qed.

End update.
