(* ===== verification/PageCompact.v ===== *)
(** Compaction of a slotted page ([SlottedPage::compact]): the live tuples are
    laid out again from the end of the page, every retired line pointer becomes
    unused, and no byte of a live tuple changes. *)

From stdpp Require Import base numbers list sets.
From S2P Require Import Prelude Format Page PageSpec PageOps.

(** ** The live tuples of a page *)

Fixpoint lives (k : Z) (ss : list ASlot) : list (Z * list Z) :=
  match ss with
  | [] => []
  | ALive b :: ss => (k, b) :: lives (k + 1) ss
  | _ :: ss => lives (k + 1) ss
  end.

Fixpoint total (l : list (Z * list Z)) : Z :=
  match l with
  | [] => 0
  | (_, b) :: l => zlen b + total l
  end.

Definition live_size (p : SlottedPage) : Z := total (lives 0 (slots p)).

(** What compaction does to a line pointer. *)
Definition reclaim (a : ASlot) : ASlot := match a with ALive b => ALive b | _ => AUnused end.

Lemma total_nonneg l : 0 ≤ total l.
Proof. induction l as [|[s b] l IH]; simpl; [lia|]. pose proof (zlen_nonneg b). lia. Qed.

Lemma elem_of_lives k ss s b :
  (s, b) ∈ lives k ss ↔ k ≤ s ∧ ss !! Z.to_nat (s - k) = Some (ALive b).
Proof.
  revert k. induction ss as [|a ss IH]; intros k; simpl.
  { rewrite elem_of_nil, lookup_nil. naive_solver. }
  assert (∀ a', k + 1 ≤ s ∧ ss !! Z.to_nat (s - (k + 1)) = Some a' ↔
    k ≤ s ∧ s ≠ k ∧ (a :: ss) !! Z.to_nat (s - k) = Some a') as Hshift.
  { intros a'. split; intros (?&H); [|destruct H as [? H]].
    - replace (Z.to_nat (s - k)) with (S (Z.to_nat (s - (k + 1)))) by lia. auto with lia.
    - replace (Z.to_nat (s - k)) with (S (Z.to_nat (s - (k + 1)))) in H by lia. auto with lia. }
  destruct (decide (s = k)) as [->|Hne].
  - rewrite Z.sub_diag. simpl.
    destruct a; rewrite ?elem_of_cons, ?IH, ?Hshift; naive_solver lia.
  - destruct a; rewrite ?elem_of_cons, ?IH, ?Hshift; naive_solver.
Qed.

Lemma NoDup_lives k ss : NoDup (lives k ss).*1.
Proof.
  revert k. induction ss as [|a ss IH]; intros k; simpl; [constructor|].
  destruct a; simpl; auto. constructor; [|done].
  intros ([]&->&H%elem_of_lives)%list_elem_of_fmap. simpl in *. lia.
Qed.

(** Disjoint intervals inside [[lo, hi)] have total length at most [hi - lo]. *)
Lemma packing (l : list (Z * list Z)) (pos : Z → Z) lo hi :
  lo ≤ hi → NoDup l.*1 →
  (∀ s b, (s, b) ∈ l → lo ≤ pos s ∧ pos s + zlen b ≤ hi) →
  (∀ s b t c, (s, b) ∈ l → (t, c) ∈ l → s ≠ t →
    pos s + zlen b ≤ pos t ∨ pos t + zlen c ≤ pos s) →
  total l ≤ hi - lo.
Proof.
  intros Hlh Hnd Hin Hdis.
  set (ivs := l ≫= λ '(s, b), seqZ (pos s) (zlen b)).
  assert (Z.of_nat (length ivs) = total l) as <-.
  { subst ivs. clear. induction l as [|[s b] l IH]; csimpl; [done|].
    rewrite length_app, length_seqZ. pose proof (zlen_nonneg b). lia. }
  assert (NoDup ivs) as Hiv.
  { subst ivs. clear Hlh Hin. induction l as [|[s b] l IH]; csimpl; [constructor|].
    inversion Hnd; subst. apply NoDup_app. split_and!.
    - apply NoDup_seqZ.
    - intros x Hx%elem_of_seqZ ([t c]&Hy%elem_of_seqZ&Ht)%list_elem_of_bind.
      destruct (Hdis s b t c); [by left|by right| |lia|lia].
      intros ->. apply H1. apply list_elem_of_fmap. by exists (t, c).
    - apply IH; [done|]. intros. apply Hdis; [by right..|done]. }
  assert (ivs ⊆+ seqZ lo (hi - lo)) as Hsub%submseteq_length.
  { apply NoDup_submseteq; [done|]. intros x ([s b]&Hx%elem_of_seqZ&Hs)%list_elem_of_bind.
    apply elem_of_seqZ. destruct (Hin s b Hs). lia. }
  rewrite length_seqZ in Hsub. lia.
Qed.

Lemma elem_of_live_slots p s b : page_wf p →
  (s, b) ∈ lives 0 (slots p) →
  0 ≤ s < f_sc (data p) ∧ f_off (data p) s ≠ 0 ∧ aslot (data p) s = ALive b ∧
  f_fe (data p) ≤ f_off (data p) s ∧ 24 ≤ zlen b ∧ zlen b = f_len (data p) s ∧
  f_off (data p) s + zlen b ≤ zlen (data p) ∧ bytes b.
Proof.
  intros Hwf [Hs H]%elem_of_lives. pose proof Hwf as [[] ?]. rewrite Z.sub_0_r in H.
  assert (0 ≤ s < f_sc (data p)) as Hr.
  { apply lookup_lt_Some in H. unfold slots in H. rewrite length_aslots in H. lia. }
  unfold slots in H. rewrite lookup_aslots in H by done. injection H as H.
  pose proof H as H'. unfold aslot in H'. repeat case_decide; try done. injection H' as <-.
  destruct (l_live s) as (?&?&?); [done..|]. rewrite length_sub by lia.
  split_and!; try done; try lia. by apply Forall_sub.
Qed.

Lemma live_size_bound p : page_wf p → live_size p ≤ zlen (data p) - f_fe (data p).
Proof.
  intros Hwf. pose proof Hwf as [[] ?].
  apply (packing _ (f_off (data p))); [lia|apply NoDup_lives| |].
  - intros s b Hs%elem_of_live_slots; [lia|done].
  - intros s b t c Hs%elem_of_live_slots Ht%elem_of_live_slots Hne; try done.
    destruct Hs as (?&?&_&_&_&->&_), Ht as (?&?&_&_&_&->&_). by apply l_disj.
Qed.

Section compact.
Context `{!Crc32}.

(** ** The three loops *)

Lemma compact_collect_loop p k n acc :
  page_wf p → 0 ≤ k → k + Z.of_nat n ≤ f_sc (data p) →
  for_each (E:=DbError) (λ live slot,
    '(offset, length) ← read_slot p slot;
    if decide (offset ≠ 0) then
      body ← slice (data p) offset (offset + length);
      Ok (live ++ [(slot, body)])
    else Ok live) acc (seqZ k (Z.of_nat n)) =
  Ok (acc ++ lives k (aslot (data p) <$> seqZ k (Z.of_nat n))).
Proof.
  intros Hwf. pose proof Hwf as [[] ?]. revert k acc.
  induction n as [|n IH]; intros k acc ??; [by rewrite app_nil_r|].
  rewrite seqZ_cons by lia. replace (Z.pred (Z.of_nat (S n))) with (Z.of_nat n) by lia.
  rewrite fmap_cons. cbn [for_each lives]. rewrite read_slot_Ok by lia. cbn [mbind outcome_bind].
  unfold aslot at 1. destruct (decide (f_off (data p) k = 0)) as [Ho|Ho].
  - rewrite decide_False by auto. cbn [mbind outcome_bind]. rewrite IH, Z.add_1_r by lia.
    by case_decide.
  - destruct (l_live k) as (?&?&?); [lia|done|].
    rewrite decide_True, slice_Ok by (done || lia). cbn [mbind outcome_bind].
    rewrite IH by lia. rewrite <- app_assoc, Z.add_1_r, Z.add_simpl_l. done.
Qed.

Lemma compact_collect_Ok p : page_wf p →
  compact_collect p (f_sc (data p)) = Ok (lives 0 (slots p)).
Proof.
  intros Hwf. pose proof Hwf as [[] ?]. unfold compact_collect.
  rewrite <- (Z2Nat.id (f_sc (data p))) at 1 by lia.
  rewrite compact_collect_loop by (done || lia). rewrite Z2Nat.id by lia. done.
Qed.

(** [p'] is [p] with only the line pointers and the tuple area changed. *)
Definition same_header (p p' : SlottedPage) : Prop :=
  zlen (data p') = zlen (data p) ∧
  ∀ off n, 0 ≤ off → off + n ≤ 28 → rd (data p') off n = rd (data p) off n.

Lemma same_header_trans p q r : same_header p q → same_header q r → same_header p r.
Proof. intros [E1 H1] [E2 H2]. split; [lia|]. intros. by rewrite H2, H1. Qed.

Lemma compact_clear p : page_wf p →
  ∃ p', for_each (λ p slot, write_slot p slot 0 0) p (seqZ 0 (f_sc (data p))) = Ok p' ∧
    same_header p p' ∧ bytes (data p') ∧
    ∀ s, 0 ≤ s < f_sc (data p) → f_off (data p') s = 0 ∧ f_len (data p') s = 0.
Proof.
  intros Hwf. pose proof Hwf as [[] ?].
  destruct (for_each_inv (λ p slot, write_slot p slot 0 0)
    (λ pre p', same_header p p' ∧ bytes (data p') ∧
      ∀ s, s ∈ pre → f_off (data p') s = 0 ∧ f_len (data p') s = 0)
    p (seqZ 0 (f_sc (data p)))) as (p'&E&?&?&Hs).
  - split_and!; [done|done|]. intros ? []%elem_of_nil.
  - intros pre s post p1 Hpre ([Hz Hr]&Hb&Hs).
    assert (∀ t, t ∈ pre ++ s :: post → 0 ≤ t < f_sc (data p)) as Hin
      by (intros t; rewrite <- Hpre, elem_of_seqZ; lia).
    assert (0 ≤ s < f_sc (data p)) by (apply Hin; set_solver).
    rewrite write_slot_Ok by lia. eexists; split; [done|]. cbn [data]. split_and!.
    + split; cbn [data]; [rewrite zlen_slot_splice; lia|].
      intros. rewrite slot_splice_rd by lia. auto.
    + by apply bytes_slot_splice.
    + intros t [Ht| ->%list_elem_of_singleton]%elem_of_app; [|apply slot_splice_eq; lia].
      assert (0 ≤ t < f_sc (data p)) by (apply Hin; set_solver).
      destruct (decide (t = s)) as [->|Hne]; [apply slot_splice_eq; lia|].
      destruct (slot_splice_ne (data p1) s 0 0 ltac:(lia) ltac:(lia) t) as [-> ->]; auto with lia.
  - exists p'. split_and!; auto. intros s ?. apply Hs. apply elem_of_seqZ. lia.
Qed.

Lemma compact_relay_loop sc live fe p :
  layout (data p) sc fe → NoDup live.*1 →
  (∀ s b, (s, b) ∈ live → 0 ≤ s < sc ∧ f_off (data p) s = 0 ∧ bytes b ∧ 24 ≤ zlen b) →
  28 + sc * 4 + total live ≤ fe →
  ∃ p', for_each (E:=DbError) (λ '(fe, p) '(slot, body),
          fe ← checked_sub fe (zlen body);
          d ← copy_from_slice (data p) fe (fe + zlen body) body;
          p ← write_slot (mkPage d) slot (u16 fe) (u16 (zlen body));
          Ok (fe, p)) (fe, p) live = Ok (fe - total live, p') ∧
    same_header p p' ∧ layout (data p') sc (fe - total live) ∧
    (∀ s b, (s, b) ∈ live → aslot (data p') s = ALive b) ∧
    (∀ s, 0 ≤ s < sc → s ∉ live.*1 → aslot (data p') s = aslot (data p) s).
Proof.
  revert fe p. induction live as [|[s b] live IH]; intros fe p Hl Hnd Hin Hroom.
  { exists p. simpl. rewrite Z.sub_0_r. split_and!; try done. by intros ?? ?%elem_of_nil. }
  destruct (Hin s b) as (Hs&Hfree&Hb&Hb24); [by left|]. apply NoDup_cons in Hnd as [Hsn Hnd].
  cbn [total] in *. pose proof (total_nonneg live). pose proof (zlen_nonneg b).
  pose proof Hl as [].
  destruct (place_write (data p) sc sc fe s b) as (Hl1&Hs1&Hs2); [done|lia|lia|done..|lia|].
  set (d1 := splice (data p) (fe - zlen b) b) in *.
  assert (zlen d1 = zlen (data p)) as Hz1 by (apply zlen_splice; lia).
  set (p2 := mkPage (slot_splice d1 s (fe - zlen b) (zlen b))).
  assert (same_header p p2) as Hm.
  { split; unfold p2; cbn [data]; [rewrite zlen_slot_splice; lia|].
    intros. rewrite slot_splice_rd by lia. apply rd_splice_out; lia. }
  destruct (IH (fe - zlen b) p2) as (p'&E&Hm'&Hl'&Hin'&Hout'); [done|done| |lia|].
  { intros t c Ht. destruct (Hin t c) as (?&?&?&?); [by right|].
    split; [done|]. split; [|done]. assert (t ≠ s).
    { intros ->. apply Hsn. apply list_elem_of_fmap. by exists (s, c). }
    unfold p2. cbn [data]. destruct (slot_splice_ne d1 s (fe - zlen b) (zlen b) ltac:(lia) ltac:(lia) t)
      as [-> _]; [lia..|]. unfold f_off, d1. rewrite rd_splice_out by lia. done. }
  exists p'. cbn [for_each]. rewrite checked_sub_Ok by lia.
  cbn [mbind outcome_bind]. rewrite copy_from_slice_Ok by lia. cbn [mbind outcome_bind].
  fold d1. rewrite !u16_small, write_slot_Ok by (cbn [data]; lia). cbn [mbind outcome_bind data].
  fold p2. rewrite E, Z.sub_add_distr. split_and!; eauto using same_header_trans.
  - intros t c [[= -> ->]|Ht]%elem_of_cons; [|by apply Hin']. by rewrite Hout'.
  - intros t ? Hn%not_elem_of_cons. rewrite Hout' by (done || apply Hn).
    apply Hs2; [lia|apply Hn].
Qed.

(** ** Compaction *)

(** A slot after the three loops, by what it was before. *)
Lemma relaid p p1 p2 s :
  page_wf p → 0 ≤ s < f_sc (data p) →
  (∀ s, 0 ≤ s < f_sc (data p) → f_off (data p1) s = 0 ∧ f_len (data p1) s = 0) →
  (∀ s b, (s, b) ∈ lives 0 (slots p) → aslot (data p2) s = ALive b) →
  (∀ s, 0 ≤ s < f_sc (data p) → s ∉ (lives 0 (slots p)).*1 →
    aslot (data p2) s = aslot (data p1) s) →
  aslot (data p2) s = reclaim (aslot (data p) s).
Proof.
  intros Hwf Hs H1 Hin Hout.
  assert (∀ b, (s, b) ∈ lives 0 (slots p) ↔ aslot (data p) s = ALive b) as Hiff.
  { intros b. rewrite elem_of_lives, Z.sub_0_r. unfold slots. rewrite lookup_aslots by done.
    split; [by intros [_ [= ->]]|intros ->; split; [lia|done]]. }
  destruct (aslot (data p) s) eqn:E; simpl; [by apply Hin, Hiff|..];
    (rewrite Hout; [unfold aslot; destruct (H1 s Hs) as [-> ->]; done|done|];
     intros ([t b]&->&Hb%elem_of_live_slots)%list_elem_of_fmap; [|done];
     destruct Hb as (?&?&Hb&_); simpl in E; congruence).
Qed.

Lemma compact_spec p : page_wf p →
  ∃ p', compact p = Ok (zlen (data p) - live_size p - f_fe (data p), p') ∧
    page_wf p' ∧ zlen (data p') = zlen (data p) ∧
    (∀ off n, 0 ≤ off → off + n ≤ 8 ∨ 12 ≤ off ∧ off + n ≤ 24 →
      rd (data p') off n = rd (data p) off n) ∧
    f_fe (data p') = zlen (data p) - live_size p ∧
    verify_crc p' = Ok tt ∧ slots p' = reclaim <$> slots p.
Proof.
  intros Hwf. pose proof Hwf as [[] Hfs]. pose proof (live_size_bound p Hwf) as Hsz.
  set (sc := f_sc (data p)) in *.
  destruct (compact_clear p Hwf) as (p1&E1&[Hz1 Hr1]&Hb1&Hs1).
  pose proof (total_nonneg (lives 0 (slots p))).
  destruct (compact_relay_loop sc (lives 0 (slots p)) (zlen (data p1)) p1)
    as (p2&E2&[Hz2 Hr2]&Hl2&Hin2&Hout2).
  - split; try done; try lia.
    + intros s Hs. destruct (Hs1 s Hs) as [-> ->]. auto.
    + intros s Hs. destruct (Hs1 s Hs) as [-> ->]. done.
    + intros s t Hs _ _. destruct (Hs1 s Hs) as [-> ->]. done.
  - apply NoDup_lives.
  - intros s b Hs%elem_of_live_slots; [|done]. destruct Hs as (Hs&?&?&?&?&?&?&?).
    destruct (Hs1 s Hs). auto.
  - unfold live_size in *. lia.
  - fold (live_size p) in *. rewrite Hz1 in *.
    set (fe := zlen (data p) - live_size p) in *.
    destruct (header_write (data p2) sc fe 24 (u16_to_le fe)) as [Hl3 Hs3];
      [done|len|len|auto with unidb|].
    set (p3 := mkPage (splice (data p2) 24 (u16_to_le fe))).
    assert (zlen (data p3) = zlen (data p)) as Hz3 by (simpl; len).
    assert (∀ off n, 0 ≤ off → off + n ≤ 24 → rd (data p3) off n = rd (data p) off n) as Hr3.
    { intros. simpl. rds. rewrite Hr2, Hr1 by lia. done. }
    assert (f_sc (data p3) = sc ∧ f_fs (data p3) = f_fs (data p) ∧ f_fe (data p3) = fe)
      as (Esc&Efs&Efe).
    { split_and!; [apply Hr3; lia..|]. unfold f_fe. simpl. rds. done. }
    assert (page_wf p3) as Hwf3 by (split; rewrite Esc, ?Efs, ?Efe; done).
    destruct (with_crc_spec p3 Hwf3) as (Hwf4&E4&[Hz4 Hr4]).
    exists (with_crc p3). split_and!.
    + unfold compact. rewrite free_space_Ok, slot_count_Ok by (done || lia).
      cbn [mbind outcome_bind]. fold sc. rewrite compact_collect_Ok by done.
      cbn [mbind outcome_bind]. fold sc in E1. rewrite E1. cbn [mbind outcome_bind].
      unfold compact_relay. rewrite Hz1, E2. cbn [mbind outcome_bind].
      unfold set_free_end. rewrite copy_from_slice_Ok by len. cbn [mbind outcome_bind].
      rewrite u16_small by lia. fold p3. rewrite write_crc_Ok by lia. cbn [mbind outcome_bind].
      rewrite free_space_Ok by done. cbn [mbind outcome_bind].
      assert (f_fe (data (with_crc p3)) = fe ∧ f_fs (data (with_crc p3)) = f_fs (data p))
        as [-> ->] by (split; [rewrite <- Efe|rewrite <- Efs]; apply Hr4; lia).
      rewrite checked_sub_Ok by lia. cbn [mbind outcome_bind]. do 2 f_equal. lia.
    + done.
    + lia.
    + intros. rewrite Hr4, Hr3 by lia. done.
    + unfold f_fe. rewrite Hr4 by lia. done.
    + apply verify_with_crc. lia.
    + rewrite E4. unfold slots at 1. rewrite Esc. unfold p3 at 1. cbn [data]. rewrite Hs3.
      unfold slots, aslots. rewrite <- list_fmap_compose. apply list_fmap_ext.
      intros i s Hs%lookup_seqZ. apply (relaid p p1 p2); auto; lia.
Qed.

End compact.
