(* ===== verification/PageProps.v ===== *)
(** The properties of slotted pages: what the operations do to tuple headers
    and payloads, that no sequence of operations panics or breaks the layout,
    the checksum, and the page size that the 16-bit offsets cannot express. *)

From stdpp Require Import base numbers list.
From S2P Require Import Prelude Format Page PageSpec PageOps PageCompact.

(** ** Headers and payloads of bodies *)

Lemma xid_mask_rd b k : bytes b → 0 ≤ k → k + 8 ≤ zlen b →
  Z.land (rd b k 8) XID_MASK = rd b k 7.
Proof.
  intros. change XID_MASK with (Z.ones 56). rewrite Z.land_ones by lia.
  change 8 with (7 + 1). rewrite rd_snoc by lia. rewrite Z.mul_comm, Z.add_comm.
  change (256 ^ 7) with (2 ^ 56). rewrite Z.add_comm, Z.mod_add by lia.
  apply Z.mod_small. apply (rd_bounds b k 7); done || lia.
Qed.

Lemma header_of_set_xmax b x : 24 ≤ zlen b →
  header_of (splice b 8 (u64_to_le x)) =
    {| xmin := xmin (header_of b); xmax := Z.land (u64 x) XID_MASK;
       prev_page := prev_page (header_of b); prev_slot := prev_slot (header_of b);
       hot_next := hot_next (header_of b) |}.
Proof.
  intros. unfold header_of. simpl. rewrite (rd_splice_eq b 8 8) by lia.
  rewrite !rd_splice_out by len. done.
Qed.

Lemma header_of_set_hot_next b n : 24 ≤ zlen b →
  header_of (splice b 22 (u16_to_le n)) =
    {| xmin := xmin (header_of b); xmax := xmax (header_of b);
       prev_page := prev_page (header_of b); prev_slot := prev_slot (header_of b);
       hot_next := u16 n |}.
Proof.
  intros. unfold header_of. simpl. rewrite (rd_splice_eq b 22 2) by lia.
  rewrite !rd_splice_out by len. done.
Qed.

Lemma header_of_set_link b pp ps hn : 24 ≤ zlen b →
  header_of (splice b 16 (u32_to_le pp ++ u16_to_le ps ++ u16_to_le hn)) =
    {| xmin := xmin (header_of b); xmax := xmax (header_of b);
       prev_page := u32 pp; prev_slot := u16 ps; hot_next := u16 hn |}.
Proof.
  intros. rewrite <- (splice_link b 0) by len. unfold header_of. simpl Z.add. f_equal.
  - rewrite !rd_splice_out by len. done.
  - rewrite !rd_splice_out by len. done.
  - rewrite 2!rd_splice_out by len. apply (rd_splice_eq b 16 4); lia.
  - rewrite rd_splice_out by len. apply (rd_splice_eq _ 20 2); len.
  - apply (rd_splice_eq _ 22 2); len.
Qed.

Lemma header_of_with_hint field flag b : bytes b → 24 ≤ zlen b → is_byte flag →
  field = TH_XMIN ∨ field = TH_XMAX → header_of (with_hint field flag b) = header_of b.
Proof.
  intros Hb ? Hfl Hf. unfold with_hint, header_of.
  set (v := Z.lor _ flag).
  assert (is_byte v) as Hv
    by (apply is_byte_lor; [apply (rd_bounds b _ 1); unfold TH_XMIN, TH_XMAX in *; done || lia|done]).
  assert (bytes (splice b (field + 7) [v])) by (apply Forall_splice; [done|by constructor]).
  assert (zlen [v] = 1) as Hz by done.
  destruct Hf as [-> | ->]; unfold TH_XMIN, TH_XMAX in *;
    rewrite !xid_mask_rd by (rewrite ?zlen_splice; done || lia);
    rewrite !rd_splice_out by lia; done.
Qed.

Lemma payload_of_splice b k src : 0 ≤ k → k + zlen src ≤ 24 → 24 ≤ zlen b →
  payload_of (splice b k src) = payload_of b.
Proof.
  intros. unfold payload_of. change 24%nat with (Z.to_nat 24).
  rewrite <- !drop_sub by (rewrite ?zlen_splice; lia).
  rewrite zlen_splice, sub_splice_out by lia. done.
Qed.

Lemma header_of_header_bytes xm xx pp ps hn payload :
  header_of (header_bytes xm xx pp ps hn ++ payload) =
    {| xmin := Z.land (u64 xm) XID_MASK; xmax := Z.land (u64 xx) XID_MASK;
       prev_page := u32 pp; prev_slot := u16 ps; hot_next := u16 hn |}.
Proof.
  unfold header_of. rewrite !rd_app_l by len. unfold header_bytes. f_equal.
  - rewrite rd_app_l by len. apply f_equal2; [apply (rd_le_bytes 8)|done].
  - rewrite rd_app_r, rd_app_l by len. apply f_equal2; [apply (rd_le_bytes 8)|done].
  - rewrite 2!rd_app_r, rd_app_l by len. apply (rd_le_bytes 4).
  - rewrite 3!rd_app_r, rd_app_l by len. apply (rd_le_bytes 2).
  - rewrite 4!rd_app_r by len. apply (rd_le_bytes 2).
Qed.

Section props.
Context `{!Crc32}.

(** Writing back the link fields a body already has. *)
Lemma splice_link_id b : bytes b → 24 ≤ zlen b → hot_next (header_of b) = HOT_NEXT_NONE →
  splice b 16 (u32_to_le (prev_page (header_of b)) ++ u16_to_le (prev_slot (header_of b)) ++
    u16_to_le HOT_NEXT_NONE) = b.
Proof.
  intros Hb Hz <-. unfold header_of. cbn [prev_page prev_slot hot_next].
  rewrite <- (splice_link b 0) by len. simpl Z.add.
  pose proof (splice_rd_id b 16 4 Hb ltac:(lia) ltac:(lia)) as E1.
  pose proof (splice_rd_id b 20 2 Hb ltac:(lia) ltac:(lia)) as E2.
  pose proof (splice_rd_id b 22 2 Hb ltac:(lia) ltac:(lia)) as E3.
  change (Z.of_nat 4) with 4 in E1. change (Z.of_nat 2) with 2 in E2, E3.
  unfold u32_to_le, u16_to_le. by rewrite !Z.add_0_l, E1, E2, E3.
Qed.

(** ** A fresh page *)

(** The bytes [new] writes, before the checksum. *)
Definition new_data (pid ptype psize : Z) : list Z :=
  splice (splice (splice (splice (replicate (Z.to_nat psize) 0) 0 (u32_to_le pid)) 4 [ptype])
    22 (u16_to_le 28)) 24 (u16_to_le (u16 psize)).

Lemma zlen_new_data pid ptype psize : 28 ≤ psize → zlen (new_data pid ptype psize) = psize.
Proof. intros. unfold new_data. len. Qed.

Lemma new_Ok pid ptype psize : 28 ≤ psize →
  new pid ptype psize = Ok (with_crc (mkPage (new_data pid ptype psize))).
Proof.
  intros. unfold new.
  rewrite copy_from_slice_Ok by len. cbn [mbind outcome_bind].
  rewrite set_index_Ok by len. cbn [mbind outcome_bind].
  rewrite !copy_from_slice_Ok by len. cbn [mbind outcome_bind].
  rewrite copy_from_slice_Ok by len. cbn [mbind outcome_bind].
  rewrite write_crc_Ok; [done|]. cbn [data]. len.
Qed.

Lemma new_fields pid ptype psize : 28 ≤ psize →
  let d := data (with_crc (mkPage (new_data pid ptype psize))) in
  f_sc d = 0 ∧ f_fs d = 28 ∧ f_fe d = u16 psize ∧ rd d 0 4 = u32 pid ∧ rd d 12 8 = 0.
Proof.
  intros Hps. cbv zeta. pose proof (zlen_new_data pid ptype psize Hps).
  unfold with_crc, f_sc, f_fs, f_fe. cbn [data].
  rewrite !(rd_splice_out _ 8) by len. unfold new_data.
  assert (∀ off n, rd (replicate (Z.to_nat psize) 0) off n = 0) as Hz.
  { intros. unfold rd, sub. rewrite drop_replicate, take_replicate.
    induction (_ `min` _)%nat as [|k IH]; simpl; lia. }
  assert (0 ≤ u16 psize < 65536) by (apply Z.mod_pos_bound; lia).
  split_and!; rds; auto.
  apply (rd_splice_eq _ 0 4); len.
Qed.

Lemma new_spec pid ptype psize :
  28 ≤ psize < 65536 → is_byte ptype →
  ∃ p, new pid ptype psize = Ok p ∧ page_wf p ∧ slots p = [] ∧
    page_size p = psize ∧ page_id p = Ok (u32 pid) ∧ lsn p = Ok 0 ∧
    free_space p = Ok (psize - 28) ∧ verify_crc p = Ok tt.
Proof.
  intros Hps Hpt. pose proof (zlen_new_data pid ptype psize ltac:(lia)) as Hz.
  destruct (new_fields pid ptype psize ltac:(lia)) as (Esc&Efs&Efe&Eid&El).
  rewrite new_Ok by lia. eexists; split; [done|].
  set (p := with_crc _) in *.
  assert (zlen (data p) = psize) as Hzp by (unfold p, with_crc; cbn [data]; len).
  rewrite u16_small in Efe by lia.
  assert (page_wf p) as Hwf.
  { split; [|by rewrite Esc]. rewrite Esc, Efe. split; try lia.
    unfold p, with_crc, new_data. cbn [data]. repeat apply Forall_splice; auto with unidb.
    apply Forall_replicate. unfold is_byte. lia. }
  split_and!; [done| |done|..].
  - unfold slots. by rewrite Esc.
  - rewrite page_id_Ok by lia. by f_equal.
  - rewrite lsn_Ok by lia. by f_equal.
  - rewrite free_space_Ok by done. f_equal. lia.
  - apply verify_with_crc. cbn [data]. lia.
Qed.

Lemma set_lsn_spec p l : page_wf p →
  ∃ p', set_lsn p l = Ok p' ∧ page_wf p' ∧ slots p' = slots p ∧ zlen (data p') = zlen (data p) ∧
    rd (data p') 0 4 = rd (data p) 0 4 ∧ f_fe (data p') = f_fe (data p) ∧
    f_fs (data p') = f_fs (data p) ∧ lsn p' = Ok (u64 l) ∧ verify_crc p' = Ok tt.
Proof.
  intros Hwf. pose proof Hwf as [[] Hfs]. unfold set_lsn. rewrite copy_from_slice_Ok by len.
  cbn [mbind outcome_bind]. set (p1 := mkPage _).
  assert (zlen (data p1) = zlen (data p)) as Hz by (unfold p1; cbn [data]; len).
  destruct (header_write (data p) (f_sc (data p)) (f_fe (data p)) 12 (u64_to_le l)) as [Hl1 Hs1];
    [apply Hwf|len|len|auto with unidb|].
  assert (f_sc (data p1) = f_sc (data p) ∧ f_fs (data p1) = f_fs (data p) ∧
    f_fe (data p1) = f_fe (data p) ∧ rd (data p1) 0 4 = rd (data p) 0 4) as (E1&E2&E3&E4)
    by (split_and!; apply rd_splice_out; len).
  assert (page_wf p1) as Hwf1 by (split; rewrite E1, ?E2, ?E3; done).
  destruct (with_crc_spec p1 Hwf1) as (Hwf2&Es&Hz2&Hr2).
  rewrite write_crc_Ok by lia. eexists; split; [done|].
  assert (rd (data p1) 12 8 = u64 l) as El by (apply (rd_splice_eq _ 12 8); len).
  split_and!; [done| |lia|..|apply verify_with_crc; lia].
  - rewrite Es. unfold slots. by rewrite E1.
  - rewrite Hr2 by lia. done.
  - unfold f_fe in *. rewrite Hr2 by lia. done.
  - unfold f_fs in *. rewrite Hr2 by lia. done.
  - rewrite lsn_Ok, Hr2 by lia. by rewrite El.
Qed.

(** ** The abstract page and its operations *)

Record APage := mkAPage { a_id : Z; a_size : Z; a_free : Z; a_slots : list ASlot }.

Definition abs (p : SlottedPage) : APage :=
  {| a_id := rd (data p) 0 4; a_size := zlen (data p);
     a_free := f_fe (data p) - f_fs (data p); a_slots := slots p |}.

Inductive page_op :=
| OInsert (payload : list Z) (xmin xmax : Xid) (prev : option (PageId * Z))
| OSetXmax (s : Z) (x : Xid)
| OSetHotNext (s n : Z)
| OSetHotXpage (s pp ps : Z)
| ORestore (s pp ps : Z)
| OXminHint (s flag : Z)
| OXmaxHint (s flag : Z)
| OMarkDead (s : Z)
| ODelete (s : Z)
| OUpdate (s : Z) (payload : list Z)
| OCompact
| OSetLsn (l : Lsn).

(** Arguments of the types of the code: bytes and unsigned slot numbers. *)
Definition op_ok (o : page_op) : Prop :=
  match o with
  | OInsert payload _ _ _ => bytes payload
  | OXminHint s f | OXmaxHint s f => 0 ≤ s ∧ is_byte f
  | OUpdate s payload => 0 ≤ s ∧ bytes payload
  | OSetXmax s _ | OSetHotNext s _ | OSetHotXpage s _ _ | ORestore s _ _
  | OMarkDead s | ODelete s => 0 ≤ s
  | OCompact | OSetLsn _ => True
  end.

Definition run_op (o : page_op) (p : SlottedPage) : Result SlottedPage :=
  match o with
  | OInsert payload xmin xmax prev => '(_, p) ← insert_versioned p payload xmin xmax prev; Ok p
  | OSetXmax s x => set_xmax p s x
  | OSetHotNext s n => set_hot_next p s n
  | OSetHotXpage s pp ps => set_hot_xpage p s pp ps
  | ORestore s pp ps => restore_prev_and_hot_next p s pp ps
  | OXminHint s f => set_xmin_hint p s f
  | OXmaxHint s f => set_xmax_hint p s f
  | OMarkDead s => mark_dead p s
  | ODelete s => delete p s
  | OUpdate s payload => update p s payload
  | OCompact => '(_, p) ← compact p; Ok p
  | OSetLsn l => set_lsn p l
  end.

Definition a_modify (a : APage) (s : Z) (f : list Z → ASlot) : Result APage :=
  match a_slots a !! Z.to_nat s with
  | None => Err (SlotOutOfRange (a_id a) s)
  | Some (ALive b) =>
      Ok (mkAPage (a_id a) (a_size a) (a_free a) (<[Z.to_nat s := f b]> (a_slots a)))
  | Some _ => Err (TupleDeleted (a_id a) s)
  end.

Definition link_bytes (pp ps hn : Z) : list Z := u32_to_le pp ++ u16_to_le ps ++ u16_to_le hn.

Definition a_step (o : page_op) (a : APage) : Result APage :=
  match o with
  | OInsert payload xmin xmax prev =>
      let '(pp, ps) := default (INVALID_PAGE_ID, 0) prev in
      let body := header_bytes xmin xmax pp ps HOT_NEXT_NONE ++ payload in
      let '(i, ss) := a_insert (a_slots a) body in
      let needed := zlen body + (if decide (i < length (a_slots a))%nat then 0 else 4) in
      if decide (needed > a_free a) then Err (HeapFull (zlen payload))
      else Ok (mkAPage (a_id a) (a_size a) (a_free a - needed) ss)
  | OSetXmax s x => a_modify a s (λ b, ALive (splice b 8 (u64_to_le x)))
  | OSetHotNext s n => a_modify a s (λ b, ALive (splice b 22 (u16_to_le n)))
  | OSetHotXpage s pp ps => a_modify a s (λ b, ALive (splice b 16 (link_bytes pp ps HOT_NEXT_XPAGE)))
  | ORestore s pp ps => a_modify a s (λ b, ALive (splice b 16 (link_bytes pp ps HOT_NEXT_NONE)))
  | OXminHint s f => a_modify a s (λ b, ALive (with_hint TH_XMIN f b))
  | OXmaxHint s f => a_modify a s (λ b, ALive (with_hint TH_XMAX f b))
  | OMarkDead s =>
      match a_slots a !! Z.to_nat s with
      | None => Err (SlotOutOfRange (a_id a) s)
      | Some (ALive b) =>
          Ok (mkAPage (a_id a) (a_size a) (a_free a) (<[Z.to_nat s := ADead]> (a_slots a)))
      | Some _ => Ok a
      end
  | ODelete s => a_modify a s (λ _, AUnused)
  | OUpdate s payload =>
      match a_slots a !! Z.to_nat s with
      | None => Err (SlotOutOfRange (a_id a) s)
      | Some (ALive b) =>
          if decide (zlen payload > zlen b - 24) then Err (HeapFull (zlen payload))
          else Ok (mkAPage (a_id a) (a_size a) (a_free a)
                     (<[Z.to_nat s := ALive (take 24 b ++ payload)]> (a_slots a)))
      | Some _ => Err (TupleDeleted (a_id a) s)
      end
  | OCompact =>
      Ok (mkAPage (a_id a) (a_size a)
            (a_size a - 28 - 4 * Z.of_nat (length (a_slots a)) - total (lives 0 (a_slots a)))
            (reclaim <$> a_slots a))
  | OSetLsn _ => Ok a
  end.

(** [r] is what the abstract result [ra] says, with the invariant kept. *)
Definition refines (r : Result SlottedPage) (ra : Result APage) : Prop :=
  match r with
  | Ok p' => page_wf p' ∧ ra = Ok (abs p')
  | Err e => ra = Err e
  | Panic => False
  end.

Lemma same_meta_abs p p' ss : same_meta p p' → slots p' = ss →
  abs p' = mkAPage (rd (data p) 0 4) (zlen (data p)) (f_fe (data p) - f_fs (data p)) ss.
Proof.
  intros [Hz Hr] <-. unfold abs, f_fe, f_fs. rewrite Hz, !Hr by lia. done.
Qed.

Lemma updates_slot_refines p s f r :
  updates_slot p s f r → refines r (a_modify (abs p) s f).
Proof.
  unfold updates_slot, a_modify. simpl. destruct (slots p !! Z.to_nat s) as [[b| |]|].
  - intros (p'&->&Hwf&Hm&Hs). split; [done|]. by rewrite (same_meta_abs _ _ _ Hm Hs).
  - by intros ->.
  - by intros ->.
  - by intros ->.
Qed.

Lemma insert_versioned_abs p payload xmin xmax prev pp ps i ss :
  page_wf p → bytes payload → default (INVALID_PAGE_ID, 0) prev = (pp, ps) →
  let body := header_bytes xmin xmax pp ps HOT_NEXT_NONE ++ payload in
  a_insert (slots p) body = (i, ss) →
  let needed := zlen body + (if decide (i < length (slots p))%nat then 0 else 4) in
  if decide (needed > f_fe (data p) - f_fs (data p)) then
    insert_versioned p payload xmin xmax prev = Err (HeapFull (zlen payload))
  else ∃ p', insert_versioned p payload xmin xmax prev = Ok (Z.of_nat i, p') ∧ page_wf p' ∧
    rd (data p') 12 8 = rd (data p) 12 8 ∧
    abs p' = mkAPage (rd (data p) 0 4) (zlen (data p))
               (f_fe (data p) - f_fs (data p) - needed) ss.
Proof.
  intros Hwf Hb Hprev body Hins needed.
  pose proof (insert_versioned_spec p payload xmin xmax prev Hwf Hb) as E.
  rewrite Hprev in E. fold body in E. cbv zeta in E. rewrite Hins in E. cbn [fst] in E.
  assert (length (slots p) = Z.to_nat (f_sc (data p))) as Hlen by apply length_aslots.
  assert (needed = zlen body + (if decide (Z.of_nat i < f_sc (data p)) then 0 else 4)) as Hn.
  { subst needed. repeat case_decide; lia. }
  rewrite <- Hn in E. rewrite E. destruct (decide (needed > _)) as [Hc|Hc]; [done|]. clearbody needed.
  assert (0 ≤ Z.of_nat i ≤ f_sc (data p) ∧
    (Z.of_nat i < f_sc (data p) → f_off (data p) (Z.of_nat i) = 0) ∧
    ss = if decide (Z.of_nat i < f_sc (data p)) then <[i := ALive body]> (slots p)
         else slots p ++ [ALive body]) as (Hi&Hfree&Hss).
  { unfold a_insert in Hins. pose proof (l_sc _ _ _ (wf_layout _ Hwf)).
    destruct (list_find _ (slots p)) as [[j a]|] eqn:Ef; injection Hins as <- <-.
    - apply list_find_Some in Ef as (Hj&->&_). pose proof (lookup_lt_Some _ _ _ Hj).
      split; [lia|]. rewrite decide_True by lia. split; [|done]. intros _.
      rewrite <- (Nat2Z.id j) in Hj. unfold slots in Hj. rewrite lookup_aslots in Hj by lia.
      injection Hj as Hj. unfold aslot in Hj. by repeat case_decide.
    - rewrite Hlen. split; [lia|]. rewrite decide_False by lia. split; [lia|done]. }
  destruct (inserted_spec p (Z.of_nat i) body) as (Hwf'&Hz&Hr&Hfr&Hs'); auto.
  { subst body. apply Forall_app_2; auto with unidb. }
  { subst body. pose proof (zlen_nonneg payload). len. }
  { lia. }
  eexists; split; [done|]. split; [done|]. split; [apply Hr; lia|].
  unfold abs. rewrite Hz, Hfr, Hr, Hs', <- Hn, Hss, Nat2Z.id by lia. done.
Qed.

Lemma run_op_refines o p : page_wf p → op_ok o → refines (run_op o p) (a_step o (abs p)).
Proof.
  intros Hwf Hok. pose proof Hwf as [[] Hfs]. destruct o; simpl in Hok.
  - cbn [run_op a_step]. destruct (default _ prev) as [pp ps] eqn:Ep.
    destruct (a_insert _ _) as [i ss] eqn:Ei. cbn [abs a_slots a_free a_id a_size] in *.
    pose proof (insert_versioned_abs p payload _ _ prev pp ps i ss Hwf Hok Ep Ei) as Hs.
    cbv zeta in Hs. case_decide; [by rewrite Hs|]. destruct Hs as (p'&->&?&_&E).
    cbn [mbind outcome_bind refines]. by rewrite E.
  - by apply updates_slot_refines, set_xmax_updates.
  - by apply updates_slot_refines, set_hot_next_updates.
  - by apply updates_slot_refines, set_hot_xpage_updates.
  - by apply updates_slot_refines, restore_prev_and_hot_next_updates.
  - destruct Hok. by apply updates_slot_refines, set_hint_updates.
  - destruct Hok. by apply updates_slot_refines, set_hint_updates.
  - pose proof (mark_dead_spec p s Hwf Hok) as Hs. cbn [run_op a_step abs a_slots a_id].
    destruct (slots p !! Z.to_nat s) as [[b| |]|]; try (rewrite Hs; done).
    destruct Hs as (p'&->&?&Hm&_&Hs). split; [done|]. by rewrite (same_meta_abs _ _ _ Hm Hs).
  - by apply updates_slot_refines, delete_updates.
  - destruct Hok as [Hs0 Hb]. pose proof (update_spec p s payload Hwf Hs0 Hb) as Hs.
    cbn [run_op a_step abs a_slots a_id].
    destruct (slots p !! Z.to_nat s) as [[b| |]|]; try (rewrite Hs; done).
    case_decide; [by rewrite Hs|].
    destruct Hs as (p'&->&?&Hm&_&Hs). split; [done|]. by rewrite (same_meta_abs _ _ _ Hm Hs).
  - destruct (compact_spec p Hwf) as (p'&E&Hwf'&Hz&Hr&Hfe&_&Hs). cbn [run_op a_step].
    rewrite E. cbn [mbind outcome_bind refines]. split; [done|]. unfold abs. cbn.
    rewrite Hz, Hr, Hfe, Hs by lia. do 2 f_equal.
    assert (f_fs (data p') = f_fs (data p)) as -> by (apply Hr; lia).
    unfold live_size, slots. rewrite length_aslots. lia.
  - destruct (set_lsn_spec p l Hwf) as (p'&E&Hwf'&Hs&Hz&Hid&Hfe&Hfs'&_). cbn [run_op a_step].
    rewrite E. split; [done|]. unfold abs. by rewrite Hz, Hid, Hfe, Hfs', Hs.
Qed.

(** A caller that keeps the page when an operation fails, with the errors met. *)
Definition run_ops (p : SlottedPage) (ops : list page_op)
    : Result (SlottedPage * list (option DbError)) :=
  for_each (λ '(p, log) o,
    match run_op o p with
    | Ok p' => Ok (p', log ++ [None])
    | Err e => Ok (p, log ++ [Some e])
    | Panic => Panic
    end) (p, []) ops.

Definition a_run (a : APage) (ops : list page_op) : Result (APage * list (option DbError)) :=
  for_each (λ '(a, log) o,
    match a_step o a with
    | Ok a' => Ok (a', log ++ [None])
    | Err e => Ok (a, log ++ [Some e])
    | Panic => Panic
    end) (a, []) ops.

Lemma run_ops_app p ops o :
  run_ops p (ops ++ [o]) =
    ('(p', log) ← run_ops p ops;
     match run_op o p' with
     | Ok p'' => Ok (p'', log ++ [None])
     | Err e => Ok (p', log ++ [Some e])
     | Panic => Panic
     end).
Proof.
  unfold run_ops. rewrite for_each_app. destruct (for_each _ _ ops) as [[p' log]| |]; [|done..].
  simpl. by destruct (run_op o p').
Qed.

Lemma a_run_app a ops o :
  a_run a (ops ++ [o]) =
    ('(a', log) ← a_run a ops;
     match a_step o a' with
     | Ok a'' => Ok (a'', log ++ [None])
     | Err e => Ok (a', log ++ [Some e])
     | Panic => Panic
     end).
Proof.
  unfold a_run. rewrite for_each_app. destruct (for_each _ _ ops) as [[a' log]| |]; [|done..].
  simpl. by destruct (a_step o a').
Qed.

Lemma run_ops_refines p ops : page_wf p → Forall op_ok ops →
  ∃ p' log, run_ops p ops = Ok (p', log) ∧ page_wf p' ∧ a_run (abs p) ops = Ok (abs p', log).
Proof.
  intros Hwf. induction ops as [|o ops IH] using rev_ind; intros Hops; [by exists p, []|].
  apply Forall_app in Hops as [Hops Ho]. rewrite Forall_singleton in Ho.
  destruct (IH Hops) as (p'&log&E&Hwf'&Ea). rewrite run_ops_app, a_run_app, E, Ea. simpl.
  pose proof (run_op_refines o p' Hwf' Ho) as Hr. unfold refines in Hr.
  destruct (run_op o p') as [p''|e|]; [|rewrite Hr; eauto|done].
  destruct Hr as [? ->]. eauto.
Qed.

End props.

Section readers.
Context `{!Crc32}.

Lemma eta_page p : mkPage (data p) = p.
Proof. by destruct p. Qed.

(** Readers see the page through its id and its slots. *)
Lemma read_ext p p' t : page_wf p → page_wf p' → 0 ≤ t →
  rd (data p') 0 4 = rd (data p) 0 4 → slots p' !! Z.to_nat t = slots p !! Z.to_nat t →
  get p' t = get p t ∧ tuple_header p' t = tuple_header p t.
Proof.
  intros Hwf Hwf' Ht Hid Hs. rewrite !get_on_slot, !tuple_header_on_slot by done.
  unfold on_slot. by rewrite Hid, Hs.
Qed.

Lemma read_body p s b : page_wf p → 0 ≤ s → slots p !! Z.to_nat s = Some (ALive b) →
  get p s = Ok (payload_of b) ∧ tuple_header p s = Ok (header_of b).
Proof.
  intros Hwf Hs Hb. rewrite get_on_slot, tuple_header_on_slot by done.
  unfold on_slot. by rewrite Hb.
Qed.

Lemma live_body p s b : page_wf p → slots p !! s = Some (ALive b) → bytes b ∧ 24 ≤ zlen b.
Proof.
  intros Hwf Hs. destruct (elem_of_live_slots p (Z.of_nat s) b Hwf) as (?&?&?&?&?&?&?&?); [|done].
  apply elem_of_lives. rewrite Z.sub_0_r, Nat2Z.id. split; [lia|done].
Qed.

Lemma slot_state_Live p s : page_wf p → 0 ≤ s →
  slot_state p s = Ok Live ↔ ∃ b, slots p !! Z.to_nat s = Some (ALive b).
Proof.
  intros. rewrite slot_state_slots by done.
  destruct (slots p !! Z.to_nat s) as [[]|]; naive_solver.
Qed.

Lemma a_insert_spec ss body i ss' : a_insert ss body = (i, ss') →
  ss' !! i = Some (ALive body) ∧ (∀ b, ss !! i ≠ Some (ALive b)) ∧
  ∀ j, j ≠ i → ss' !! j = ss !! j.
Proof.
  unfold a_insert. destruct (list_find _ ss) as [[k a]|] eqn:E; intros [= <- <-].
  - apply list_find_Some in E as (Hk&->&_). pose proof (lookup_lt_Some _ _ _ Hk).
    split; [by apply list_lookup_insert_eq|]. split; [congruence|].
    intros j Hj. by apply list_lookup_insert_ne.
  - split; [by rewrite lookup_app_r, Nat.sub_diag by lia|].
    split; [intros b Hb%lookup_lt_Some; lia|]. intros j Hj.
    destruct (decide (j < length ss)%nat); [by rewrite lookup_app_l|].
    rewrite !lookup_ge_None_2; [done|lia|rewrite length_app; simpl; lia].
Qed.

Lemma xid_mask_small x : 0 ≤ x < 2 ^ 56 → Z.land (u64 x) XID_MASK = x.
Proof.
  intros. rewrite u64_small by lia. change XID_MASK with (Z.ones 56).
  rewrite Z.land_ones by lia. by apply Z.mod_small.
Qed.

End readers.

(** A checksum for the witnesses: the sum of the bytes modulo 2^32. *)
Definition sum_crc : Crc32.
Proof.
  refine {| crc32 := λ bs, foldr Z.add 0 bs mod 2 ^ 32 |}.
  intros. apply Z.mod_pos_bound. lia.
Defined.

Section claims.
Context `{!Crc32}.

(** C5: Starting from a freshly formatted page of any size below 64 KiB, every
    sequence of page operations runs without a panic (no out-of-range access, no
    arithmetic overflow), keeps the layout invariant, and has exactly the
    effect, and reports exactly the errors, of the same sequence on the abstract
    page: a list of line pointers, each live with its bytes, dead or unused. *)
Theorem page_trace_refines pid ptype psize ops :
  28 ≤ psize < 65536 → is_byte ptype → Forall op_ok ops →
  ∃ p0 p log, new pid ptype psize = Ok p0 ∧ run_ops p0 ops = Ok (p, log) ∧ page_wf p ∧
    a_run (mkAPage (u32 pid) psize (psize - 28) []) ops = Ok (abs p, log).
Proof.
  intros Hps Hpt Hops. destruct (new_spec pid ptype psize Hps Hpt)
    as (p0&E&Hwf&Hs&Hsz&Hid&_&Hfree&_).
  destruct (run_ops_refines p0 ops Hwf Hops) as (p&log&Er&Hwf'&Ea).
  exists p0, p, log. split_and!; try done. rewrite <- Ea. f_equal. unfold abs.
  pose proof (l_size _ _ _ (wf_layout _ Hwf)).
  rewrite page_id_Ok in Hid by lia. rewrite free_space_Ok in Hfree by done.
  injection Hid as ->. injection Hfree as ->. unfold page_size in Hsz. by rewrite Hs, Hsz.
Qed.

(** C24: A tuple inserted into a page reads back as written: its payload byte
    for byte and its header with the transaction ids, version pointer and the
    empty HOT link; no other tuple of the page changes, an existing live tuple is
    never overwritten, and the only failure is [HeapFull], when the page has less
    free space than the tuple and the line pointer it may have to add. *)
Theorem insert_reads_back p payload xmin xmax prev :
  page_wf p → bytes payload → 0 ≤ xmin < 2 ^ 56 → 0 ≤ xmax < 2 ^ 56 →
  match insert_versioned p payload xmin xmax prev with
  | Panic => False
  | Err e => e = HeapFull (zlen payload) ∧
      ∃ free, free_space p = Ok free ∧ free < 28 + zlen payload
  | Ok (s, p') =>
      page_wf p' ∧ get p' s = Ok payload ∧
      tuple_header p' s =
        Ok {| Page.xmin := xmin; Page.xmax := xmax;
              prev_page := u32 (fst (default (INVALID_PAGE_ID, 0) prev));
              prev_slot := u16 (snd (default (INVALID_PAGE_ID, 0) prev));
              hot_next := HOT_NEXT_NONE |} ∧
      slot_state p s ≠ Ok Live ∧
      ∀ t, 0 ≤ t → t ≠ s → get p' t = get p t ∧ tuple_header p' t = tuple_header p t
  end.
Proof.
  intros Hwf Hb Hxmin Hxmax. destruct (default _ prev) as [pp ps] eqn:Ep. simpl.
  destruct (a_insert (slots p) (header_bytes xmin xmax pp ps HOT_NEXT_NONE ++ payload))
    as [i ss] eqn:Ei.
  pose proof (insert_versioned_abs p payload xmin xmax prev pp ps i ss Hwf Hb Ep Ei) as Hs.
  cbv zeta in Hs. destruct (decide _) as [Hc|Hc] in Hs.
  { rewrite Hs. split; [done|]. rewrite free_space_Ok by done. eexists; split; [done|].
    autorewrite with zlen in Hc. case_decide; lia. }
  destruct Hs as (p'&->&Hwf'&_&Ha). injection Ha as Hid Hsz _ Hss.
  destruct (a_insert_spec _ _ _ _ Ei) as (Hi&Hnl&Hj).
  destruct (read_body p' (Z.of_nat i) (header_bytes xmin xmax pp ps HOT_NEXT_NONE ++ payload))
    as [Hg Hh]; [done|lia|by rewrite Nat2Z.id, Hss|].
  split; [done|]. split; [|split; [|split]].
  - by rewrite Hg.
  - rewrite Hh, header_of_header_bytes, !xid_mask_small by done. done.
  - intros [b Hl]%slot_state_Live; [|done|lia]. rewrite Nat2Z.id in Hl. by destruct (Hnl b).
  - intros t Ht Hne. apply read_ext; auto. rewrite Hss. apply Hj. lia.
Qed.

(** C18: Compaction never changes what a reader sees: it does not panic, every
    live tuple keeps its slot, header and payload, every dead line pointer
    becomes unused (and only those), the checksum is valid, and afterwards the
    free space is all of the page but the header, the line pointers and the live
    tuples; the count it returns is the free space gained. *)
Theorem compact_correct p : page_wf p →
  ∃ gained free p', free_space p = Ok free ∧ compact p = Ok (gained, p') ∧
    page_wf p' ∧ from_bytes (data p') = Ok p' ∧ lsn p' = lsn p ∧ page_id p' = page_id p ∧
    0 ≤ gained ∧ free_space p' = Ok (free + gained) ∧
    free + gained =
      page_size p - 28 - 4 * Z.of_nat (length (slots p)) - total (lives 0 (slots p)) ∧
    ∀ s, 0 ≤ s → get p' s = get p s ∧ tuple_header p' s = tuple_header p s ∧
      slot_state p' s =
        (st ← slot_state p s; Ok (match st with Live => Live | _ => Unused end)).
Proof.
  intros Hwf. pose proof Hwf as [Hl Hfs]. pose proof (l_size _ _ _ Hl).
  destruct (compact_spec p Hwf) as (p'&E&Hwf'&Hz&Hr&Hfe&Hcrc&Hs).
  pose proof (live_size_bound p Hwf).
  eexists _, _, p'. split; [by apply free_space_Ok|]. split; [done|]. split; [done|].
  split; [unfold from_bytes; by rewrite (eta_page p'), Hcrc|].
  rewrite !lsn_Ok, !page_id_Ok, !Hr by lia. do 2 (split; [done|]). split; [lia|].
  assert (f_fs (data p') = f_fs (data p)) as Hfs' by (apply Hr; lia).
  split; [rewrite free_space_Ok by done; f_equal; lia|]. split.
  { unfold page_size, live_size, slots. rewrite length_aslots.
    pose proof (l_sc _ _ _ Hl). lia. }
  intros s Hs0. rewrite !get_on_slot, !tuple_header_on_slot, !slot_state_slots by done.
  unfold on_slot. rewrite Hs, list_lookup_fmap, Hr by lia.
  by destruct (slots p !! Z.to_nat s) as [[]|].
Qed.

(** Hint bits are invisible: setting any hint flag in the top byte of the
    stored [xmin] or [xmax] of a live tuple leaves the header and the payload
    every reader gets unchanged, on that tuple and on all the others. *)
Theorem hints_invisible p s flag p' :
  page_wf p → 0 ≤ s → is_byte flag →
  set_xmin_hint p s flag = Ok p' ∨ set_xmax_hint p s flag = Ok p' →
  page_wf p' ∧
  ∀ t, 0 ≤ t → get p' t = get p t ∧ tuple_header p' t = tuple_header p t.
Proof.
  intros Hwf Hs Hfl Hset.
  assert (∃ field, (field = TH_XMIN ∨ field = TH_XMAX) ∧ set_hint field p s flag = Ok p')
    as (field&Hf&E) by (destruct Hset; eauto).
  assert (0 ≤ field ≤ 8) as Hf8 by (unfold TH_XMIN, TH_XMAX in *; lia).
  pose proof (set_hint_updates field p s flag Hwf Hs Hf8 Hfl) as Hu.
  unfold updates_slot in Hu. rewrite E in Hu.
  destruct (slots p !! Z.to_nat s) as [[b| |]|] eqn:Eb; try done.
  destruct Hu as (q&[= <-]&Hwf'&[Hz Hr]&Hsl).
  split; [done|]. intros t Ht. destruct (live_body p _ b Hwf Eb) as [Hb H24].
  destruct (decide (t = s)) as [->|Hne].
  - destruct (read_body p s b) as [-> ->]; [done..|].
    destruct (read_body p' s (with_hint field flag b)) as [-> ->]; [done..| |].
    { rewrite Hsl. apply list_lookup_insert_eq. by eapply lookup_lt_Some. }
    rewrite header_of_with_hint by done. split; [|done]. f_equal.
    apply payload_of_splice; unfold TH_XMIN, TH_XMAX in *; len.
  - apply read_ext; auto; [apply Hr; lia|]. rewrite Hsl. apply list_lookup_insert_ne. lia.
Qed.

(** Undoing a cross-page HOT link: on a chain tip, [set_hot_xpage] followed
    by [restore_prev_and_hot_next] with the version pointer saved before gives
    back the header and the payload of every tuple of the page. *)
Theorem xpage_link_undone p s h xp xs :
  page_wf p → 0 ≤ s → tuple_header p s = Ok h → hot_next h = HOT_NEXT_NONE →
  ∃ p1 p2, set_hot_xpage p s xp xs = Ok p1 ∧
    tuple_header p1 s =
      Ok {| xmin := xmin h; xmax := xmax h;
            prev_page := u32 xp; prev_slot := u16 xs; hot_next := HOT_NEXT_XPAGE |} ∧
    restore_prev_and_hot_next p1 s (prev_page h) (prev_slot h) = Ok p2 ∧ page_wf p2 ∧
    ∀ t, 0 ≤ t → get p2 t = get p t ∧ tuple_header p2 t = tuple_header p t.
Proof.
  intros Hwf Hs Hh Hnone. rewrite tuple_header_on_slot in Hh by done. unfold on_slot in Hh.
  destruct (slots p !! Z.to_nat s) as [[b| |]|] eqn:Eb; try done. injection Hh as <-.
  destruct (live_body p _ b Hwf Eb) as [Hb H24].
  pose proof (set_hot_xpage_updates p s xp xs Hwf Hs) as Hu. unfold updates_slot in Hu.
  rewrite Eb in Hu. destruct Hu as (p1&E1&Hwf1&[_ Hr1]&Hs1).
  set (b1 := splice b 16 _) in Hs1.
  assert (slots p1 !! Z.to_nat s = Some (ALive b1)) as Eb1.
  { rewrite Hs1. apply list_lookup_insert_eq. by eapply lookup_lt_Some. }
  pose proof (restore_prev_and_hot_next_updates p1 s (prev_page (header_of b))
    (prev_slot (header_of b)) Hwf1 Hs) as Hu. unfold updates_slot in Hu.
  rewrite Eb1 in Hu. destruct Hu as (p2&E2&Hwf2&[_ Hr2]&Hs2).
  exists p1, p2. split; [done|]. split.
  { destruct (read_body p1 s b1) as [_ ->]; [done..|]. unfold b1.
    by rewrite header_of_set_link. }
  split; [done|]. split; [done|]. intros t Ht. apply read_ext; auto.
  { by rewrite Hr2, Hr1 by lia. }
  rewrite Hs2, Hs1, list_insert_insert_eq. destruct (decide (t = s)) as [->|];
    [|apply list_lookup_insert_ne; lia].
  rewrite list_lookup_insert_eq by (by eapply lookup_lt_Some). rewrite Eb. do 2 f_equal.
  unfold b1. rewrite splice_splice_same by len. by apply splice_link_id.
Qed.

(** The stored checksum covers exactly the page without its checksum field:
    [from_bytes] accepts a buffer iff the field equals the CRC of the rest and
    reports [ChecksumMismatch] with the page id otherwise, and a buffer sealed by
    [recompute_crc] is accepted when read back, with every other byte as it was. *)
Theorem checksum_guards raw : 28 ≤ zlen raw →
  from_bytes raw =
    (if decide (rd raw 8 4 = crc32 (sub raw 0 8 ++ [0; 0; 0; 0] ++ sub raw 12 (zlen raw - 12)))
     then Ok (mkPage raw) else Err (ChecksumMismatch (rd raw 0 4))) ∧
  ∃ p', recompute_crc (mkPage raw) = Ok p' ∧ from_bytes (data p') = Ok p' ∧
    sub (data p') 0 8 = sub raw 0 8 ∧
    sub (data p') 12 (zlen raw - 12) = sub raw 12 (zlen raw - 12).
Proof.
  intros Hz. split.
  - unfold from_bytes, verify_crc, CRC_FIELD_OFFSET. cbn [data].
    rewrite read_u32_Ok, compute_crc_Ok by (cbn [data]; lia). cbn [mbind outcome_bind data].
    fold (crc_of raw). repeat case_decide; try done.
    rewrite page_id_Ok by (cbn [data]; lia). done.
  - exists (with_crc (mkPage raw)). split; [by apply write_crc_Ok; cbn [data]; lia|].
    split; [|by cbn [with_crc data]; rewrite !sub_splice_out by len].
    unfold from_bytes. rewrite eta_page, verify_with_crc by (cbn [data]; lia). done.
Qed.

(** A page of 64 KiB, the largest size the control file accepts, can hold no
    tuple: the end-of-free-space field is 16 bits wide and wraps to 0, so the
    fresh page reports no free space and refuses every insertion. *)
Theorem page_64k_unusable pid ptype payload xmin xmax prev :
  ∃ p, new pid ptype MAX_PAGE_SIZE = Ok p ∧ free_space p = Ok 0 ∧
    insert_versioned p payload xmin xmax prev = Err (HeapFull (zlen payload)).
Proof.
  destruct (new_fields pid ptype MAX_PAGE_SIZE) as (Esc&Efs&Efe&_); [done|].
  rewrite new_Ok by done. eexists; split; [done|]. set (p := with_crc _) in *.
  assert (zlen (data p) = 65536) as Hz.
  { pose proof (zlen_new_data pid ptype MAX_PAGE_SIZE ltac:(done)) as Hn.
    change MAX_PAGE_SIZE with 65536 in *. unfold p, with_crc. cbn [data]. len. }
  clearbody p.
  assert (free_space p = Ok 0) as Hfree.
  { unfold free_space. rewrite free_start_Ok, free_end_Ok by lia. cbn [mbind outcome_bind].
    by rewrite Efs, Efe. }
  split; [done|]. unfold insert_versioned, first_unused_slot.
  rewrite slot_count_Ok, Esc by lia. cbn [seqZ mbind outcome_bind find_first].
  rewrite Hfree. simpl. pose proof (zlen_nonneg payload). rewrite decide_True; [done|].
  unfold SLOT_SIZE, TUPLE_HEADER_SIZE. lia.
Qed.

End claims.

(** ** Witnesses *)

Definition w_ops : list page_op :=
  [OInsert [1; 2; 3] 5 0 None; OInsert [9] 6 0 (Some (3, 1)); OMarkDead 0; OXminHint 1 16].

Definition w_page : SlottedPage :=
  Eval vm_compute in
  match @new sum_crc 7 1 128 with
  | Ok p => match @run_ops sum_crc p w_ops with Ok (p, _) => p | _ => p end
  | _ => mkPage []
  end.

Lemma w_ops_ok : Forall op_ok w_ops.
Proof.
  unfold w_ops. repeat first [apply Forall_nil_2 | apply Forall_cons_2]; simpl;
    unfold is_byte; try lia; concrete_bytes.
Qed.

Lemma w_page_run :
  (p ← @new sum_crc 7 1 128; '(p, _) ← @run_ops sum_crc p w_ops; Ok p) = Ok w_page.
Proof. vm_compute. reflexivity. Qed.

Lemma w_page_wf : page_wf w_page.
Proof.
  destruct (@new_spec sum_crc 7 1 128) as (p0&E&Hwf&_); [lia|unfold is_byte; lia|].
  destruct (@run_ops_refines sum_crc p0 w_ops Hwf w_ops_ok) as (p&log&Er&Hp&_).
  pose proof w_page_run as Hw. rewrite E in Hw. cbn [mbind outcome_bind] in Hw.
  rewrite Er in Hw. cbn [mbind outcome_bind] in Hw. injection Hw as <-. exact Hp.
Qed.

Lemma page_trace_refines_witness :
  ∃ p0 p log, @new sum_crc 7 1 128 = Ok p0 ∧ @run_ops sum_crc p0 w_ops = Ok (p, log) ∧
    page_wf p ∧ a_run (mkAPage (u32 7) 128 (128 - 28) []) w_ops = Ok (abs p, log).
Proof.
  apply (@page_trace_refines sum_crc 7 1 128 w_ops); [lia|unfold is_byte; lia|].
  exact w_ops_ok.
Defined.

Lemma insert_reads_back_witness :
  match insert_versioned w_page [4; 5] 8 0 None with
  | Ok (s, p') => get p' s = Ok [4; 5]
  | _ => False
  end.
Proof.
  pose proof (insert_reads_back w_page [4; 5] 8 0 None w_page_wf
    ltac:(concrete_bytes) ltac:(lia) ltac:(lia)) as Hi.
  assert (is_Ok (insert_versioned w_page [4; 5] 8 0 None)) as Ho
    by (vm_compute; eexists; reflexivity).
  destruct (insert_versioned w_page [4; 5] 8 0 None) as [[s p']|e|].
  - apply Hi.
  - destruct Ho as [? Ho]. discriminate Ho.
  - exact Hi.
Defined.

Lemma compact_correct_witness :
  ∃ gained free p', free_space w_page = Ok free ∧ @compact sum_crc w_page = Ok (gained, p') ∧
    slot_state p' 0 = Ok Unused ∧ free_space p' = Ok (free + gained).
Proof.
  destruct (@compact_correct sum_crc w_page w_page_wf)
    as (g&f&p'&Hf&Hc&_&_&_&_&_&Hfree&_&Hs).
  exists g, f, p'. split; [exact Hf|]. split; [exact Hc|]. split; [|exact Hfree].
  destruct (Hs 0) as (_&_&->); [lia|]. vm_compute. reflexivity.
Defined.

Lemma hints_invisible_witness :
  ∃ p', set_xmin_hint w_page 1 16 = Ok p' ∧ tuple_header p' 1 = tuple_header w_page 1.
Proof.
  assert (is_Ok (set_xmin_hint w_page 1 16)) as [p' E] by (vm_compute; eexists; reflexivity).
  exists p'. split; [exact E|].
  apply (hints_invisible w_page 1 16 p' w_page_wf); [lia|unfold is_byte; lia|left; exact E|lia].
Defined.

Lemma xpage_link_undone_witness :
  ∃ p1 p2, set_hot_xpage w_page 1 44 2 = Ok p1 ∧
    restore_prev_and_hot_next p1 1 3 1 = Ok p2 ∧ page_wf p2.
Proof.
  destruct (xpage_link_undone w_page 1 (mkTupleHeader 6 0 3 1 HOT_NEXT_NONE) 44 2 w_page_wf)
    as (p1&p2&H1&_&H2&H3&_); [lia|vm_compute; reflexivity|vm_compute; reflexivity|].
  exists p1, p2. split; [exact H1|]. split; [exact H2|exact H3].
Defined.

Lemma checksum_guards_witness :
  @from_bytes sum_crc (replicate 28 1) = Err (ChecksumMismatch 16843009).
Proof.
  destruct (@checksum_guards sum_crc (replicate 28 1)) as [-> _]; [vm_compute; congruence|].
  vm_compute. reflexivity.
Defined.
