(* ===== verification/PageHints.v ===== *)
(** Pages up to hint bits.  Hint bits are set on pages without a log record, so what
    redo rebuilds and what the engine had can only agree up to them.  [page_eq] is
    that equivalence; readers cannot tell equivalent pages apart and every
    operation takes equivalent pages to equivalent pages. *)

From stdpp Require Import base numbers list.
From S2P Require Import Prelude Format Page PageSpec PageOps PageCompact PageProps.

(** ** Equivalence *)

(** Tuple bodies that agree outside the top bytes of [xmin] and [xmax]. *)
Definition body_eq (x y : list Z) : Prop :=
  length x = length y ∧ ∀ i, i ≠ 7%nat → i ≠ 15%nat → x !! i = y !! i.

Inductive slot_eq : ASlot → ASlot → Prop :=
| eq_live x y : body_eq x y → slot_eq (ALive x) (ALive y)
| eq_dead : slot_eq ADead ADead
| eq_unused : slot_eq AUnused AUnused.

Definition p_free (p : SlottedPage) : Z := f_fe (data p) - f_fs (data p).

Record page_eq (p q : SlottedPage) : Prop := {
  pe_wf_l : page_wf p;
  pe_wf_r : page_wf q;
  pe_id : rd (data p) 0 4 = rd (data q) 0 4;
  pe_lsn : rd (data p) 12 8 = rd (data q) 12 8;
  pe_size : zlen (data p) = zlen (data q);
  pe_free : p_free p = p_free q;
  pe_slots : Forall2 slot_eq (slots p) (slots q);
}.

#[global] Instance body_eq_equiv : Equivalence body_eq.
Proof.
  split.
  - by intros x.
  - intros x y [Hl Hi]. split; [done|]. intros. symmetry. by apply Hi.
  - intros x y z [Hl Hi] [Hl' Hi']. split; [congruence|]. intros i H7 H15. rewrite Hi by done. by apply Hi'.
Qed.

#[global] Instance slot_eq_equiv : Equivalence slot_eq.
Proof.
  split.
  - intros []; constructor. reflexivity.
  - intros a b []; constructor. by symmetry.
  - intros a b c [] Hc; inversion Hc; subst; constructor. by etrans.
Qed.

Lemma wf_room p : page_wf p → 28 ≤ zlen (data p).
Proof. intros Hp. pose proof (l_size _ _ _ (wf_layout _ Hp)). lia. Qed.

Lemma page_eq_refl p : page_wf p → page_eq p p.
Proof. intros Hp. by constructor. Qed.
#[global] Instance page_eq_sym : Symmetric page_eq.
Proof. intros p q []. constructor; try done. Qed.
#[global] Instance page_eq_trans : Transitive page_eq.
Proof.
  intros p q r [] []. constructor; try done; try congruence. by etrans.
Qed.

(** Results of page operations. *)
Definition res_eq {A} (R : A → A → Prop) (r1 r2 : Result A) : Prop :=
  match r1, r2 with
  | Ok p, Ok q => R p q
  | Err e, Err e' => e = e'
  | Panic, Panic => True
  | _, _ => False
  end.

Lemma res_eq_bind {A B} (R : A → A → Prop) (S : B → B → Prop) r1 r2 (f g : A → Result B) :
  res_eq R r1 r2 → (∀ p q, R p q → res_eq S (f p) (g q)) → res_eq S (r1 ≫= f) (r2 ≫= g).
Proof. destruct r1, r2; simpl; try done; auto. Qed.

(** ** Bodies *)

Lemma body_eq_zlen x y : body_eq x y → zlen x = zlen y.
Proof. intros [Hl _]. unfold zlen. by rewrite Hl. Qed.

Lemma body_eq_splice x y k src : 0 ≤ k → k + zlen src ≤ zlen x → body_eq x y →
  body_eq (splice x k src) (splice y k src).
Proof.
  intros Hk Hl E. pose proof (body_eq_zlen _ _ E) as Hz. destruct E as [Hlen Hi].
  split; [rewrite !length_splice by lia; done|].
  intros i H7 H15. rewrite !lookup_splice by lia. repeat case_decide; try done; by apply Hi.
Qed.

Lemma body_eq_sub x y off n : 0 ≤ off → off + n ≤ 7 ∨ 8 ≤ off ∧ off + n ≤ 15 ∨ 16 ≤ off → body_eq x y →
  sub x off n = sub y off n.
Proof.
  intros Ho Hr [Hl Hi]. apply list_eq. intros i. rewrite !lookup_sub.
  case_decide; [|done]. apply Hi; lia.
Qed.

Lemma body_eq_header x y : bytes x → bytes y → 24 ≤ zlen x → body_eq x y → header_of x = header_of y.
Proof.
  intros Hx Hy Hl E. pose proof (body_eq_zlen _ _ E) as Hz. unfold header_of.
  rewrite !xid_mask_rd by (done || lia).
  unfold rd. by rewrite !(body_eq_sub x y) by (done || lia).
Qed.

Lemma body_eq_payload x y : body_eq x y → payload_of x = payload_of y.
Proof.
  intros E. pose proof (body_eq_zlen _ _ E) as Hz. unfold payload_of.
  destruct (decide (24 ≤ zlen x)).
  - change 24%nat with (Z.to_nat 24). rewrite <- !drop_sub by lia. rewrite Hz. by apply body_eq_sub; [lia|lia|].
  - unfold zlen in *. by rewrite !drop_ge by lia.
Qed.

Lemma body_eq_hint field flag b : bytes b → 24 ≤ zlen b → field = TH_XMIN ∨ field = TH_XMAX →
  body_eq b (with_hint field flag b).
Proof.
  intros Hb Hl Hf. unfold with_hint. assert (0 ≤ field + 7) by (unfold TH_XMIN, TH_XMAX in *; lia).
  assert (field + 7 + zlen [Z.lor (rd b (field + 7) 1) flag] ≤ zlen b)
    by (unfold TH_XMIN, TH_XMAX in *; change (zlen [_]) with 1; lia).
  split; [by rewrite length_splice|]. intros i H7 H15. rewrite lookup_splice by done.
  change (zlen [_]) with 1 in *. unfold TH_XMIN, TH_XMAX in *. case_decide; [lia|done].
Qed.

(** ** What readers see *)

Lemma slot_eq_lookup p q s : page_eq p q →
  match slots p !! s, slots q !! s with
  | Some a, Some b => slot_eq a b
  | None, None => True
  | _, _ => False
  end.
Proof.
  intros E. pose proof (pe_slots _ _ E) as Hs.
  destruct (slots p !! s) as [a|] eqn:Ha.
  - destruct (Forall2_lookup_l _ _ _ _ _ Hs Ha) as (b&->&?). done.
  - apply lookup_ge_None in Ha. apply Forall2_length in Hs. by rewrite lookup_ge_None_2 by lia.
Qed.

Lemma page_eq_reads p q s : page_eq p q → 0 ≤ s →
  tuple_header p s = tuple_header q s ∧ get p s = get q s ∧ slot_state p s = slot_state q s.
Proof.
  intros E Hs. pose proof E as [Hp Hq Hid _ _ _ _]. rewrite !get_on_slot, !tuple_header_on_slot by done.
  rewrite !slot_state_slots by done. unfold on_slot. rewrite Hid.
  pose proof (slot_eq_lookup p q (Z.to_nat s) E) as Hl.
  destruct (slots p !! Z.to_nat s) as [a|] eqn:Ha, (slots q !! Z.to_nat s) as [b|] eqn:Hb; try done.
  destruct Hl as [x y Hxy| |]; try done.
  destruct (live_body p _ x Hp Ha) as [??], (live_body q _ y Hq Hb) as [??].
  rewrite (body_eq_header x y), (body_eq_payload x y) by done. done.
Qed.

(** ** Operations respect the equivalence *)

Section ops.
Context `{!Crc32}.

Lemma same_meta_eq p p' : page_wf p → page_wf p' → same_meta p p' →
  Forall2 slot_eq (slots p) (slots p') → page_eq p p'.
Proof.
  intros Hp Hp' [Hz Hr] Hs. constructor; try done; symmetry; try done.
  - by apply Hr; lia.
  - by apply Hr; lia.
  - unfold p_free, f_fe, f_fs. by rewrite !Hr by lia.
Qed.

(** Both sides changed at the same slot. *)
Lemma same_meta_both p q p' q' s a b : page_eq p q → page_wf p' → page_wf q' →
  same_meta p p' → same_meta q q' → slots p' = <[s := a]> (slots p) → slots q' = <[s := b]> (slots q) →
  slot_eq a b → page_eq p' q'.
Proof.
  intros [] Hp' Hq' [Hz Hr] [Hz' Hr'] Es Es' Hab. unfold p_free, f_fe, f_fs in *.
  constructor; try done; unfold p_free, f_fe, f_fs.
  - by rewrite Hr, Hr' by lia.
  - by rewrite Hr, Hr' by lia.
  - congruence.
  - by rewrite !Hr, !Hr' by lia.
  - rewrite Es, Es'. by apply Forall2_insert.
Qed.

Lemma updates_slot_eq p q s f r1 r2 : page_eq p q →
  updates_slot p s f r1 → updates_slot q s f r2 →
  (∀ x y, 24 ≤ zlen x → body_eq x y → slot_eq (f x) (f y)) → res_eq page_eq r1 r2.
Proof.
  intros E U1 U2 Hf. pose proof (slot_eq_lookup p q (Z.to_nat s) E) as Hl.
  unfold updates_slot in *. rewrite <- (pe_id _ _ E) in U2.
  destruct (slots p !! Z.to_nat s) as [a|] eqn:Ha, (slots q !! Z.to_nat s) as [b|] eqn:Hb;
    try done; [|by subst].
  destruct Hl as [x y Hxy| |]; [|by subst..].
  destruct U1 as (p'&->&?&?&?), U2 as (q'&->&?&?&?). simpl.
  destruct (live_body p _ x (pe_wf_l _ _ E) Ha) as [??].
  by eapply same_meta_both; eauto.
Qed.

Ltac slot_op L := eapply updates_slot_eq; [eassumption|by apply L..|];
  intros ????; first [done | constructor; apply body_eq_splice; [len|len|done]].

Lemma set_xmax_eq p q s x : page_eq p q → 0 ≤ s → res_eq page_eq (set_xmax p s x) (set_xmax q s x).
Proof. intros E ?. pose proof E as []. slot_op set_xmax_updates. Qed.
Lemma set_hot_next_eq p q s n : page_eq p q → 0 ≤ s →
  res_eq page_eq (set_hot_next p s n) (set_hot_next q s n).
Proof. intros E ?. pose proof E as []. slot_op set_hot_next_updates. Qed.
Lemma set_hot_xpage_eq p q s xp xs : page_eq p q → 0 ≤ s →
  res_eq page_eq (set_hot_xpage p s xp xs) (set_hot_xpage q s xp xs).
Proof. intros E ?. pose proof E as []. slot_op set_hot_xpage_updates. Qed.
Lemma restore_eq p q s pp ps : page_eq p q → 0 ≤ s →
  res_eq page_eq (restore_prev_and_hot_next p s pp ps) (restore_prev_and_hot_next q s pp ps).
Proof.
  intros E ?. pose proof E as [].
  slot_op restore_prev_and_hot_next_updates.
Qed.
Lemma delete_eq p q s : page_eq p q → 0 ≤ s → res_eq page_eq (delete p s) (delete q s).
Proof.
  intros E ?. pose proof E as []. eapply updates_slot_eq; [done|by apply delete_updates..|constructor].
Qed.

Lemma mark_dead_eq p q s : page_eq p q → 0 ≤ s → res_eq page_eq (mark_dead p s) (mark_dead q s).
Proof.
  intros E Hs. pose proof E as [Hp Hq Hid _ _ _ _].
  pose proof (mark_dead_spec p s Hp Hs) as U1. pose proof (mark_dead_spec q s Hq Hs) as U2.
  pose proof (slot_eq_lookup p q (Z.to_nat s) E) as Hl. rewrite <- Hid in U2.
  destruct (slots p !! Z.to_nat s) as [a|], (slots q !! Z.to_nat s) as [b|]; try done; [|by rewrite U1, U2].
  destruct Hl; [|by rewrite U1, U2..].
  destruct U1 as (p'&->&?&?&_&?), U2 as (q'&->&?&?&_&?). simpl.
  eapply same_meta_both; eauto. constructor.
Qed.

Lemma set_lsn_eq p q l : page_eq p q → res_eq page_eq (set_lsn p l) (set_lsn q l).
Proof.
  intros []. destruct (set_lsn_spec p l) as (p'&->&?&?&?&?&?&?&Hl&_); [done|].
  destruct (set_lsn_spec q l) as (q'&->&?&?&?&?&?&?&Hl'&_); [done|]. simpl. unfold p_free in *.
  constructor; unfold p_free; try done; try congruence.
  rewrite lsn_Ok in Hl, Hl' by (by apply wf_room). congruence.
Qed.

(** Insertion picks the same slot. *)
Lemma find_unused_eq ss tt : Forall2 slot_eq ss tt →
  match list_find (λ a, a = AUnused) ss, list_find (λ a, a = AUnused) tt with
  | Some (i, _), Some (j, _) => i = j
  | None, None => True
  | _, _ => False
  end.
Proof.
  induction 1 as [|a b ss tt Hab _ IH]; [done|]. simpl.
  destruct Hab; simpl; try done;
    destruct (list_find _ ss) as [[]|], (list_find _ tt) as [[]|]; simpl; naive_solver.
Qed.

Lemma a_insert_eq ss tt b : Forall2 slot_eq ss tt →
  (a_insert ss b).1 = (a_insert tt b).1 ∧ Forall2 slot_eq (a_insert ss b).2 (a_insert tt b).2.
Proof.
  intros Hs. pose proof (find_unused_eq ss tt Hs) as Hf. unfold a_insert.
  destruct (list_find _ ss) as [[i ?]|], (list_find _ tt) as [[j ?]|]; try done; simpl.
  - subst j. split; [done|]. apply Forall2_insert; [done|]. constructor. done.
  - split; [by apply Forall2_length in Hs|]. apply Forall2_app; [done|]. repeat constructor.
Qed.

Lemma insert_versioned_eq p q payload xmin xmax prev : page_eq p q → bytes payload →
  res_eq (λ a b, a.1 = b.1 ∧ page_eq a.2 b.2)
    (insert_versioned p payload xmin xmax prev) (insert_versioned q payload xmin xmax prev).
Proof.
  intros E Hb. pose proof E as [Hp Hq Hid Hl Hz Hf Hs].
  destruct (default (INVALID_PAGE_ID, 0) prev) as [pp ps] eqn:Hprev.
  pose proof (a_insert_eq _ _ (header_bytes xmin xmax pp ps HOT_NEXT_NONE ++ payload) Hs) as [Hi Hs'].
  destruct (a_insert (slots p) _) as [i ss] eqn:E1, (a_insert (slots q) _) as [j ss'] eqn:E2.
  simpl in Hi, Hs'. subst j.
  pose proof (insert_versioned_abs p payload xmin xmax prev pp ps i ss Hp Hb Hprev E1) as I1.
  pose proof (insert_versioned_abs q payload xmin xmax prev pp ps i ss' Hq Hb Hprev E2) as I2.
  cbv zeta in I1, I2. unfold p_free in Hf. rewrite <- Hf, <- (Forall2_length _ _ _ Hs) in I2.
  case_decide; [by rewrite I1, I2|].
  destruct I1 as (p'&->&Hp'&Hl1&[=]), I2 as (q'&->&Hq'&Hl2&[=]). simpl. split; [done|].
  constructor; unfold p_free; try done; congruence || by subst.
Qed.

(** A hint bit is invisible. *)
Lemma set_hint_page_eq field p s flag p' : page_wf p → 0 ≤ s → is_byte flag →
  field = TH_XMIN ∨ field = TH_XMAX → set_hint field p s flag = Ok p' → page_eq p p'.
Proof.
  intros Hp Hs Hb Hf E.
  assert (0 ≤ field ≤ 8) as Hf8 by (unfold TH_XMIN, TH_XMAX in Hf; lia).
  pose proof (set_hint_updates field p s flag Hp Hs Hf8 Hb) as U. unfold updates_slot in U. rewrite E in U.
  destruct (slots p !! Z.to_nat s) as [[b| |]|] eqn:Ha; try done.
  destruct U as (?&[= <-]&Hp'&Hm&Es). apply same_meta_eq; [done..|]. rewrite Es.
  destruct (live_body p _ b Hp Ha) as [??].
  rewrite <- (list_insert_id (slots p) _ _ Ha) at 1.
  apply Forall2_insert; [reflexivity|]. constructor. by apply body_eq_hint.
Qed.

End ops.
