(* ===== verification/LockMgr.v ===== *)
(** The lock manager ([src/lockmgr.rs]): the lock table, its wait-for graph and
    the operations on it.

    The table is guarded by one mutex, so an operation is a function on the
    table.  [acquire] with [Wait] is a loop that parks on a condition variable
    between iterations: [acquire_iter] is one iteration, run with the mutex held,
    and the step relation [lock_step] lets other transactions act between two
    iterations.  Waiting times and counters are not modelled. *)

From stdpp Require Import base numbers list gmap sets fin_sets relations.
From S2P Require Import Prelude Format.

Inductive RecordKind := Row | UniqueKey | FkKey.
#[global] Instance RecordKind_eq_dec : EqDecision RecordKind.
Proof. solve_decision. Defined.
#[global] Instance RecordKind_countable : Countable RecordKind.
Proof.
  refine (inj_countable' (λ k, match k with Row => 0%nat | UniqueKey => 1%nat | FkKey => 2%nat end)
    (λ n, match n with 0%nat => Row | 1%nat => UniqueKey | _ => FkKey end) _).
  by intros [].
Defined.

Record RecordId := mkRecordId { kind : RecordKind; rid : Z }.
#[global] Instance RecordId_eq_dec : EqDecision RecordId.
Proof. solve_decision. Defined.
#[global] Instance RecordId_countable : Countable RecordId.
Proof.
  refine (inj_countable' (λ r, (kind r, rid r)) (λ '(k, i), mkRecordId k i) _).
  by intros [].
Defined.

(** [((page_id as u64) << 16) | slot as u64] *)
Definition row (page_id : PageId) (slot : Z) : RecordId :=
  mkRecordId Row (Z.lor (u64 (Z.shiftl page_id 16)) slot).
Definition unique_key (hash : Z) : RecordId := mkRecordId UniqueKey hash.
Definition fk_key (hash : Z) : RecordId := mkRecordId FkKey hash.

Inductive LockMode := Shared | Exclusive.
#[global] Instance LockMode_eq_dec : EqDecision LockMode.
Proof. solve_decision. Defined.

Inductive WaitPolicy := NoWait | Wait.
#[global] Instance WaitPolicy_eq_dec : EqDecision WaitPolicy.
Proof. solve_decision. Defined.

Record LockEntry := mkEntry {
  holders : gmap Z LockMode;
  queue : list Z;
}.

Definition default_entry : LockEntry := mkEntry ∅ [].

Record LockTable := mkTable {
  locks : gmap RecordId LockEntry;
  waits_for : gmap Z (gset Z);
}.

Definition empty_table : LockTable := mkTable ∅ ∅.

(** ** [LockTable] *)

Definition can_grant (t : LockTable) (id : RecordId) (xid : Xid) (mode : LockMode) : bool :=
  match locks t !! id with
  | None => true
  | Some e =>
      match mode with
      | Exclusive => forallb (λ '(h, _), bool_decide (h = xid)) (map_to_list (holders e))
      | Shared =>
          forallb (λ '(h, m), bool_decide (h = xid) || bool_decide (m = Shared))
            (map_to_list (holders e))
      end
  end.

(** Does a hold at [m] block a request at [mode]? *)
Definition conflicts (mode m : LockMode) : bool :=
  match mode with Exclusive => true | Shared => bool_decide (m = Exclusive) end.

Definition blockers (t : LockTable) (id : RecordId) (xid : Xid) (mode : LockMode) : list Z :=
  match locks t !! id with
  | None => []
  | Some e =>
      (filter (λ hm : Z * LockMode, hm.1 ≠ xid ∧ conflicts mode hm.2 = true)
        (map_to_list (holders e))).*1
  end.

Definition grant (t : LockTable) (id : RecordId) (xid : Xid) (mode : LockMode) : LockTable :=
  let e := default default_entry (locks t !! id) in
  let slot := default mode (holders e !! xid) in
  let slot := match mode with Exclusive => Exclusive | Shared => slot end in
  mkTable
    (<[id := mkEntry (<[xid := slot]> (holders e)) (filter (λ w, w ≠ xid) (queue e))]> (locks t))
    (base.delete xid (waits_for t)).

Definition enqueue (t : LockTable) (id : RecordId) (xid : Xid) : LockTable :=
  let e := default default_entry (locks t !! id) in
  let q := if decide (xid ∈ queue e) then queue e else queue e ++ [xid] in
  mkTable (<[id := mkEntry (holders e) q]> (locks t)) (waits_for t).

Definition dequeue (t : LockTable) (id : RecordId) (xid : Xid) : LockTable :=
  mkTable (alter (λ e, mkEntry (holders e) (filter (λ w, w ≠ xid) (queue e))) id (locks t))
    (waits_for t).

(** The depth-first search of [has_cycle].  The top of the stack is the head of
    the list; [None] means that the fuel ran out, which [cycle_fuel] excludes. *)
Fixpoint cycle_loop (fuel : nat) (g : gmap Z (gset Z)) (start : Xid) (stack : list Z)
    (seen : gset Z) : option bool :=
  match fuel with
  | O => None
  | S fuel =>
      match stack with
      | [] => Some false
      | n :: stack =>
          if decide (n = start) then Some true
          else if decide (n ∈ seen) then cycle_loop fuel g start stack seen
          else
            let stack :=
              match g !! n with
              | Some next => reverse (elements next) ++ stack
              | None => stack
              end in
            cycle_loop fuel g start stack ({[n]} ∪ seen)
      end
  end.

(** The edges out of the nodes not yet seen. *)
Definition edges_left (g : gmap Z (gset Z)) (seen : gset Z) : nat :=
  foldr (λ '(n, next) k, if decide (n ∈ seen) then k else (size next + k)%nat) 0%nat
    (map_to_list g).

Definition cycle_stack (g : gmap Z (gset Z)) (start : Xid) : list Z :=
  default [] ((λ next, reverse (elements next)) <$> g !! start).

Definition cycle_fuel (g : gmap Z (gset Z)) (start : Xid) : nat :=
  S (length (cycle_stack g start) + edges_left g ∅).

Definition has_cycle (t : LockTable) (start : Xid) : bool :=
  default false
    (cycle_loop (cycle_fuel (waits_for t) start) (waits_for t) start
       (cycle_stack (waits_for t) start) ∅).

Definition entry_empty (e : LockEntry) : Prop := holders e = ∅ ∧ queue e = [].
#[global] Instance entry_empty_dec e : Decision (entry_empty e).
Proof. unfold entry_empty. apply _. Defined.

Definition gc (t : LockTable) : LockTable :=
  mkTable (filter (λ ie, ¬ entry_empty ie.2) (locks t)) (waits_for t).

(** ** [LockManager] *)

Inductive acquire_result :=
| Granted
| Refused (e : DbError)
| Parked.

(** One iteration of the loop of [acquire]. *)
Definition acquire_iter (t : LockTable) (id : RecordId) (xid : Xid) (mode : LockMode)
    (policy : WaitPolicy) : acquire_result * LockTable :=
  if can_grant t id xid mode then (Granted, grant t id xid mode)
  else
    match policy with
    | NoWait => (Refused (WriteConflict (default xid (head (blockers t id xid mode)))), t)
    | Wait =>
        let t := enqueue t id xid in
        let bs := list_to_set (blockers t id xid mode) in
        let t := mkTable (locks t) (<[xid := bs]> (waits_for t)) in
        if has_cycle t xid then
          let t := dequeue t id xid in
          let t := mkTable (locks t) (base.delete xid (waits_for t)) in
          (Refused (Deadlock xid), gc t)
        else (Parked, t)
    end.

Definition try_acquire_write (t : LockTable) (id : RecordId) (xid : Xid)
    : acquire_result * LockTable := acquire_iter t id xid Exclusive NoWait.

Definition acquire_blocking (t : LockTable) (id : RecordId) (xid : Xid)
    : acquire_result * LockTable := acquire_iter t id xid Exclusive Wait.

Definition try_acquire_write_many (t : LockTable) (ids : list RecordId) (xid : Xid)
    : acquire_result * LockTable :=
  match list_find (λ id, can_grant t id xid Exclusive = false) ids with
  | Some (_, id) =>
      (Refused (WriteConflict (default xid (head (blockers t id xid Exclusive)))), t)
  | None => (Granted, foldl (λ t id, grant t id xid Exclusive) t ids)
  end.

Definition release_all (t : LockTable) (xid : Xid) : LockTable :=
  let ls := (λ e, mkEntry (base.delete xid (holders e)) (filter (λ w, w ≠ xid) (queue e)))
              <$> locks t in
  let t := gc (mkTable ls (waits_for t)) in
  mkTable (locks t) ((λ bs, bs ∖ {[xid]}) <$> base.delete xid (waits_for t)).

Definition holder (t : LockTable) (id : RecordId) : option Z :=
  e ← locks t !! id; (λ hm : Z * LockMode, hm.1) <$> head (map_to_list (holders e)).

(** ** The manager as a step relation *)

Inductive lock_step : LockTable → LockTable → Prop :=
| step_acquire t id xid mode policy r t' :
    acquire_iter t id xid mode policy = (r, t') → lock_step t t'
| step_acquire_many t ids xid r t' :
    try_acquire_write_many t ids xid = (r, t') → lock_step t t'
| step_release t xid :
    lock_step t (release_all t xid).

Definition lock_reachable (t : LockTable) : Prop := rtc lock_step empty_table t.
