(* ===== verification/LockProps.v ===== *)
(** Properties of the lock manager: mutual exclusion, deadlock detection and
    the acyclicity of the wait-for graph, batch acquisition, release. *)

From stdpp Require Import base numbers list gmap sets fin_sets relations.
From S2P Require Import Prelude Format LockMgr.

(** ** Holders *)

(** The holds of a table, as a relation. *)
Definition holds (t : LockTable) (id : RecordId) (xid : Z) (m : LockMode) : Prop :=
  ∃ e, locks t !! id = Some e ∧ holders e !! xid = Some m.

(** A transaction that holds a record exclusively holds it alone. *)
Definition exclusive_inv (t : LockTable) : Prop :=
  ∀ id x y m, holds t id x Exclusive → holds t id y m → x = y.

Lemma can_grant_spec t id xid mode :
  can_grant t id xid mode = true ↔
  ∀ y m, holds t id y m → y = xid ∨ mode = Shared ∧ m = Shared.
Proof.
  unfold can_grant, holds. destruct (locks t !! id) as [e|] eqn:E.
  2:{ split; [intros _ y m (e&?&_); congruence|done]. }
  assert (∀ P : Z → LockMode → Prop,
    (∀ y m, (∃ e', Some e = Some e' ∧ holders e' !! y = Some m) → P y m) ↔
    ∀ ym, ym ∈ map_to_list (holders e) → P ym.1 ym.2) as ->.
  { intros P. split.
    - intros HP [y m] Hin%elem_of_map_to_list. eauto.
    - intros HP y m (e'&[= <-]&Hy). by apply (HP (y, m)), elem_of_map_to_list. }
  rewrite <- Forall_forall.
  destruct mode; rewrite <- Is_true_true, forallb_True; apply Forall_iff; intros [y m]; simpl;
    rewrite ?orb_True, !bool_decide_spec; naive_solver.
Qed.

Lemma elem_of_blockers t id xid mode y :
  y ∈ blockers t id xid mode ↔ y ≠ xid ∧ ∃ m, holds t id y m ∧ conflicts mode m = true.
Proof.
  unfold blockers, holds. destruct (locks t !! id) as [e|] eqn:E.
  - rewrite list_elem_of_fmap. setoid_rewrite list_elem_of_filter.
    setoid_rewrite <- elem_of_map_to_list. split.
    + intros ([y' m]&->&[? ?]&?). simpl in *. naive_solver.
    + intros (?&m&(e'&[= <-]&?)&?). exists (y, m). naive_solver.
  - rewrite elem_of_nil. naive_solver.
Qed.

(** A request that cannot be granted has a blocker, so the error names one. *)
Lemma blockers_nonempty t id xid mode :
  can_grant t id xid mode = false →
  ∃ y, head (blockers t id xid mode) = Some y ∧ y ≠ xid ∧ ∃ m, holds t id y m.
Proof.
  intros Hg. destruct (blockers t id xid mode) as [|y l] eqn:E.
  - exfalso. assert (can_grant t id xid mode = true); [|congruence].
    apply can_grant_spec. intros y m Hy. destruct (decide (y = xid)) as [|Hne]; [by left|].
    right. assert (y ∉ blockers t id xid mode) as Hb by (rewrite E; apply not_elem_of_nil).
    rewrite elem_of_blockers in Hb. destruct mode, m; simpl in *; naive_solver.
  - assert (y ∈ blockers t id xid mode) as Hb by (rewrite E; by left).
    apply elem_of_blockers in Hb. naive_solver.
Qed.

Lemma holds_grant t id xid mode id' y m :
  holds (grant t id xid mode) id' y m ↔
  if decide (id' = id ∧ y = xid) then
    m = match mode with
        | Exclusive => Exclusive
        | Shared => match (e ← locks t !! id; holders e !! xid) with Some m => m | None => Shared end
        end
  else holds t id' y m.
Proof.
  unfold holds, grant. simpl. destruct (decide (id' = id)) as [->|Hid].
  - rewrite lookup_insert_eq. destruct (decide (y = xid)) as [->|Hy].
    + rewrite decide_True by done. setoid_rewrite (inj_iff Some).
      split.
      * intros (e&<-&Hl). simpl in Hl. rewrite lookup_insert_eq in Hl. injection Hl as <-.
        destruct mode, (locks t !! id); done.
      * intros ->. eexists; split; [done|]. simpl. rewrite lookup_insert_eq.
        destruct mode, (locks t !! id); done.
    + rewrite decide_False by naive_solver. split.
      * intros (e&[= <-]&Hl). simpl in Hl. rewrite lookup_insert_ne in Hl by done.
        destruct (locks t !! id) as [e|]; simpl in Hl; [eauto|by rewrite lookup_empty in Hl].
      * intros (e&He&Hl). rewrite He. eexists; split; [done|]. simpl.
        by rewrite lookup_insert_ne.
  - rewrite decide_False by naive_solver. by rewrite lookup_insert_ne.
Qed.

Lemma grant_exclusive t id xid mode :
  exclusive_inv t → can_grant t id xid mode = true → exclusive_inv (grant t id xid mode).
Proof.
  intros Hinv Hg id' x y m. rewrite can_grant_spec in Hg. rewrite !holds_grant.
  destruct (decide (id' = id ∧ x = xid)) as [Hx'|Hx'], (decide (id' = id ∧ y = xid)) as [Hy'|Hy'];
    try naive_solver. destruct Hx' as [-> ->].
  intros Hx Hy. destruct (Hg y m Hy) as [|[-> ->]]; [naive_solver|].
  destruct (locks t !! id) as [e|] eqn:E; simpl in Hx; [|done].
  destruct (holders e !! xid) as [m|] eqn:E'; [|done]. subst m.
  apply (Hinv id xid y Shared); [by exists e|done].
Qed.

(** Queue and graph updates leave the holds alone. *)
Lemma holds_enqueue t id xid id' y m : holds (enqueue t id xid) id' y m ↔ holds t id' y m.
Proof.
  unfold holds, enqueue. simpl. destruct (decide (id' = id)) as [->|];
    [|by rewrite lookup_insert_ne].
  rewrite lookup_insert_eq. destruct (locks t !! id) as [e|]; simpl; [naive_solver|].
  split; [|naive_solver]. intros (e&[= <-]&Hl). simpl in Hl. by rewrite lookup_empty in Hl.
Qed.

Lemma holds_dequeue t id xid id' y m : holds (dequeue t id xid) id' y m ↔ holds t id' y m.
Proof.
  unfold holds, dequeue. simpl. destruct (decide (id' = id)) as [->|];
    [|by rewrite lookup_alter_ne].
  rewrite lookup_alter_eq. destruct (locks t !! id) as [e|]; simpl; [|naive_solver].
  split; intros (e'&[= <-]&?); eauto.
Qed.

Lemma holds_gc t id y m : holds (gc t) id y m ↔ holds t id y m.
Proof.
  unfold holds, gc. simpl. setoid_rewrite map_lookup_filter_Some. simpl.
  split; [naive_solver|]. intros (e&He&Hy). exists e. split_and!; [done| |done].
  intros [Hh _]. rewrite Hh, lookup_empty in Hy. done.
Qed.

Lemma holds_graph t g id y m : holds (mkTable (locks t) g) id y m ↔ holds t id y m.
Proof. done. Qed.

Lemma holds_release t xid id y m :
  holds (release_all t xid) id y m ↔ y ≠ xid ∧ holds t id y m.
Proof.
  unfold release_all. rewrite holds_graph, holds_gc. unfold holds. simpl.
  rewrite lookup_fmap. split.
  - intros (e&He&Hy). destruct (locks t !! id) as [e'|]; [|done]. injection He as <-.
    simpl in Hy. apply lookup_delete_Some in Hy. naive_solver.
  - intros (?&e&->&Hy). eexists; split; [done|]. simpl. by rewrite lookup_delete_ne.
Qed.

Lemma exclusive_inv_ext t t' :
  (∀ id y m, holds t' id y m → holds t id y m) → exclusive_inv t → exclusive_inv t'.
Proof. intros H Hinv id x y m ??. eapply Hinv; eauto. Qed.

(** ** The wait-for graph *)

Definition edge (g : gmap Z (gset Z)) (a b : Z) : Prop := ∃ bs, g !! a = Some bs ∧ b ∈ bs.

Definition acyclic (g : gmap Z (gset Z)) : Prop := ∀ x, ¬ tc (edge g) x x.

Lemma acyclic_sub g g' : (∀ a b, edge g' a b → edge g a b) → acyclic g → acyclic g'.
Proof. intros H Hac x Hx. apply (Hac x). by eapply (tc_congruence id). Qed.

(** A path after the edges out of [x] were replaced is an old path, or it passes
    through [x]. *)
Lemma tc_insert g x bs a b :
  tc (edge (<[x := bs]> g)) a b →
  tc (edge g) a b ∨ rtc (edge (<[x := bs]> g)) a x ∧ tc (edge (<[x := bs]> g)) x b.
Proof.
  assert (∀ a b, edge (<[x := bs]> g) a b → a = x ∨ edge g a b) as He.
  { intros c d (s&Hs&Hd). apply lookup_insert_Some in Hs. unfold edge. naive_solver. }
  induction 1 as [a b Hab|a c b Hac Hcb IH].
  - destruct (He _ _ Hab) as [->|]; [right; split; [done|by constructor]|left; by constructor].
  - destruct (He _ _ Hac) as [->|Hac'].
    { right. split; [done|]. by eapply tc_l. }
    destruct IH as [|[??]]; [left; by eapply tc_l|right; split; [by eapply rtc_l|done]].
Qed.

Lemma acyclic_insert g x bs :
  acyclic g → ¬ tc (edge (<[x := bs]> g)) x x → acyclic (<[x := bs]> g).
Proof.
  intros Hac Hx y Hy. destruct (tc_insert _ _ _ _ _ Hy) as [|[H1 H2]]; [by eapply Hac|].
  apply Hx. by eapply tc_rtc_r.
Qed.

(** ** The search for a cycle *)

Lemma edges_left_insert g seen n next :
  g !! n = Some next → n ∉ seen →
  (edges_left g ({[n]} ∪ seen) + size next ≤ edges_left g seen)%nat.
Proof.
  intros Hn%elem_of_map_to_list Hs. unfold edges_left.
  assert (∀ l, foldr (λ '(n0, next0) k, if decide (n0 ∈ {[n]} ∪ seen) then k
    else (size (next0 : gset Z) + k)%nat) 0%nat l ≤
    foldr (λ '(n, next) k, if decide (n ∈ seen) then k else (size next + k)%nat) 0%nat l)%nat
    as Hmono.
  { induction l as [|[a b] l IH]; simpl; [done|]. repeat case_decide; set_solver by lia. }
  induction (map_to_list g) as [|[a b] l IH]; [by apply elem_of_nil in Hn|]. simpl.
  apply elem_of_cons in Hn as [[= <- <-]|Hn].
  - rewrite decide_True by set_solver. rewrite (decide_False (P := n ∈ seen)) by done.
    specialize (Hmono l). lia.
  - specialize (IH Hn). repeat case_decide; set_solver by lia.
Qed.

Lemma edges_left_mono g seen n : (edges_left g ({[n]} ∪ seen) ≤ edges_left g seen)%nat.
Proof.
  unfold edges_left. induction (map_to_list g) as [|[a b] l IH]; simpl; [done|].
  repeat case_decide; set_solver by lia.
Qed.

Lemma length_next (next : gset Z) : length (reverse (elements next)) = size next.
Proof. by rewrite length_reverse. Qed.

(** What the search maintains: the nodes found are reachable, and every edge
    out of the start or of a seen node leads to a node found. *)
Definition dfs_inv (g : gmap Z (gset Z)) (start : Z) (stack : list Z) (seen : gset Z) : Prop :=
  (∀ n, n ∈ stack → tc (edge g) start n) ∧
  (∀ n, n ∈ seen → tc (edge g) start n) ∧
  start ∉ seen ∧
  (∀ a b, edge g a b → a = start ∨ a ∈ seen → b ∈ seen ∨ b ∈ stack).

Lemma cycle_loop_spec fuel g start stack seen :
  dfs_inv g start stack seen → (length stack + edges_left g seen < fuel)%nat →
  ∃ b, cycle_loop fuel g start stack seen = Some b ∧ (b = true ↔ tc (edge g) start start).
Proof.
  revert stack seen. induction fuel as [|fuel IH]; intros stack seen Hinv Hf; [lia|].
  destruct Hinv as (Hst&Hse&Hns&Hcl). destruct stack as [|n stack]; simpl in *.
  { exists false. split; [done|]. split; [done|]. intros Htc. exfalso. apply Hns.
    assert (∀ a b, tc (edge g) a b → a = start ∨ a ∈ seen → b ∈ seen) as Hall.
    { induction 1 as [a b|a b c Hab _ IHt]; intros Ha.
      - destruct (Hcl a b) as [|Hb]; auto. by apply elem_of_nil in Hb.
      - apply IHt. right. destruct (Hcl a b) as [|Hb]; auto. by apply elem_of_nil in Hb. }
    eapply Hall; eauto. }
  case_decide as Hn.
  { subst. exists true. split; [done|]. split; [|done]. intros _. apply Hst. by left. }
  case_decide as Hs.
  { apply IH; [|lia]. split_and!; [set_solver|done|done|].
    intros a b Hab Ha. destruct (Hcl a b Hab Ha) as [|[->|]%elem_of_cons]; auto. }
  assert (tc (edge g) start n) as Hrn by (apply Hst; by left).
  apply IH.
  - split_and!; [|set_solver|set_solver|].
    + intros m Hm. destruct (g !! n) as [next|] eqn:E; [|apply Hst; set_solver].
      apply elem_of_app in Hm as [Hm|Hm]; [|apply Hst; set_solver].
      apply elem_of_reverse, elem_of_elements in Hm.
      eapply tc_r; [done|]. by exists next.
    + intros a b Hab Ha. destruct (decide (a = n)) as [->|Han].
      * destruct Hab as (next&E&Hb). rewrite E. right. apply elem_of_app. left.
        by apply elem_of_reverse, elem_of_elements.
      * destruct (Hcl a b Hab) as [|[->|]%elem_of_cons]; [set_solver..|].
        right. destruct (g !! n); set_solver.
  - destruct (g !! n) as [next|] eqn:E.
    + rewrite length_app, length_next. pose proof (edges_left_insert g seen n next E Hs). lia.
    + pose proof (edges_left_mono g seen n). lia.
Qed.

Lemma has_cycle_spec t start :
  has_cycle t start = true ↔ tc (edge (waits_for t)) start start.
Proof.
  unfold has_cycle.
  destruct (cycle_loop_spec (cycle_fuel (waits_for t) start) (waits_for t) start
    (cycle_stack (waits_for t) start) ∅) as (b&->&Hb).
  - assert (∀ n, n ∈ cycle_stack (waits_for t) start ↔ edge (waits_for t) start n) as Hs.
    { intros n. unfold cycle_stack, edge. destruct (waits_for t !! start) as [next|]; simpl.
      - rewrite elem_of_reverse, elem_of_elements. naive_solver.
      - rewrite elem_of_nil. naive_solver. }
    split_and!; [|set_solver|set_solver|].
    + intros n Hn%Hs. by constructor.
    + intros a b Hab [->|Ha]; [right; by apply Hs|set_solver].
  - unfold cycle_fuel. lia.
  - simpl. done.
Qed.

(** ** The invariant *)

(** A parked transaction is queued on some record, whose entry is therefore
    not dropped. *)
Definition waiters_queued (t : LockTable) : Prop :=
  ∀ x, is_Some (waits_for t !! x) → ∃ id e, locks t !! id = Some e ∧ x ∈ queue e.

Record lock_inv (t : LockTable) : Prop := {
  li_exclusive : exclusive_inv t;
  li_acyclic : acyclic (waits_for t);
  li_queued : waiters_queued t;
}.

Lemma acyclic_delete g x : acyclic g → acyclic (base.delete x g).
Proof.
  apply acyclic_sub. intros a b (bs&Hbs&Hb). apply lookup_delete_Some in Hbs as [_ ?].
  by exists bs.
Qed.

Lemma grant_inv t id xid mode :
  lock_inv t → can_grant t id xid mode = true → lock_inv (grant t id xid mode).
Proof.
  intros [? ? Hq] ?. split; [by apply grant_exclusive|by apply acyclic_delete|].
  intros x [bs Hx]. simpl in Hx. apply lookup_delete_Some in Hx as [Hne Hx].
  destruct (Hq x) as (id'&e&He&Hin); [by eexists|]. simpl.
  destruct (decide (id' = id)) as [->|].
  - rewrite He. simpl. eexists id, _. rewrite lookup_insert_eq. split; [done|]. simpl.
    by apply list_elem_of_filter.
  - exists id', e. by rewrite lookup_insert_ne.
Qed.

Lemma queued_enqueue t id xid x id' e :
  locks t !! id' = Some e → x ∈ queue e →
  ∃ e', locks (enqueue t id xid) !! id' = Some e' ∧ x ∈ queue e'.
Proof.
  intros He Hx. unfold enqueue. simpl. destruct (decide (id' = id)) as [->|].
  - rewrite lookup_insert_eq, He. eexists; split; [done|]. simpl. case_decide; set_solver.
  - rewrite lookup_insert_ne by done. eauto.
Qed.

Lemma enqueue_self t id xid :
  ∃ e, locks (enqueue t id xid) !! id = Some e ∧ xid ∈ queue e.
Proof.
  unfold enqueue. simpl. rewrite lookup_insert_eq. eexists; split; [done|]. simpl.
  case_decide; set_solver.
Qed.

Lemma park_inv t id xid bs :
  lock_inv t →
  ¬ tc (edge (<[xid := bs]> (waits_for t))) xid xid →
  lock_inv (mkTable (locks (enqueue t id xid)) (<[xid := bs]> (waits_for t))).
Proof.
  intros [? ? Hq] Hnc. split.
  - eapply exclusive_inv_ext; [|done]. intros ??? Hh. by rewrite holds_graph, holds_enqueue in Hh.
  - by apply acyclic_insert.
  - intros x [bs' Hx]. simpl in Hx. apply lookup_insert_Some in Hx as [[<- _]|[Hne Hx]].
    + exists id. apply enqueue_self.
    + destruct (Hq x) as (id'&e&?&?); [by eexists|]. exists id'. by eapply queued_enqueue.
Qed.

(** Backing out a waiter restores the holds and the graph it had. *)
Definition back_out (t : LockTable) (id : RecordId) (xid : Z) (bs : gset Z) : LockTable :=
  let t := mkTable (locks (enqueue t id xid)) (<[xid := bs]> (waits_for t)) in
  let t := dequeue t id xid in
  gc (mkTable (locks t) (base.delete xid (waits_for t))).

Lemma holds_back_out t id xid bs id' y m :
  holds (back_out t id xid bs) id' y m ↔ holds t id' y m.
Proof.
  unfold back_out. rewrite holds_gc, holds_graph, holds_dequeue, holds_graph. apply holds_enqueue.
Qed.

Lemma waits_back_out t id xid bs :
  waits_for (back_out t id xid bs) = base.delete xid (waits_for t).
Proof. unfold back_out. simpl. apply delete_insert_eq. Qed.

Lemma back_out_inv t id xid bs : lock_inv t → lock_inv (back_out t id xid bs).
Proof.
  intros [? ? Hq]. split.
  - eapply exclusive_inv_ext; [|done]. intros ???. apply holds_back_out.
  - rewrite waits_back_out. by apply acyclic_delete.
  - intros x. rewrite waits_back_out. intros [bs' Hx].
    apply lookup_delete_Some in Hx as [Hne Hx].
    destruct (Hq x) as (id'&e&He&Hin); [by eexists|].
    destruct (queued_enqueue t id xid x id' e He Hin) as (e'&He'&Hin').
    unfold back_out, gc, dequeue. simpl.
    exists id', (if decide (id' = id) then mkEntry (holders e') (filter (λ w, w ≠ xid) (queue e'))
                 else e').
    rewrite map_lookup_filter_Some. simpl. unfold entry_empty.
    destruct (decide (id' = id)) as [->|].
    + rewrite lookup_alter_eq. simpl in He'. rewrite He'. simpl.
      assert (x ∈ filter (λ w, w ≠ xid) (queue e')) as Hf by (by apply list_elem_of_filter).
      split_and!; [done| |done]. intros [_ Hnil]. rewrite Hnil in Hf. by apply elem_of_nil in Hf.
    + rewrite lookup_alter_ne by done. simpl in He'. split_and!; [done| |done].
      intros [_ Hnil]. rewrite Hnil in Hin'. by apply elem_of_nil in Hin'.
Qed.

(** One iteration of [acquire], by cases. *)
Lemma acquire_iter_cases t id xid mode policy r t' :
  acquire_iter t id xid mode policy = (r, t') →
  let bs := list_to_set (blockers t id xid mode) in
  (can_grant t id xid mode = true ∧ r = Granted ∧ t' = grant t id xid mode) ∨
  (can_grant t id xid mode = false ∧
    ((policy = NoWait ∧ t' = t ∧
        r = Refused (WriteConflict (default xid (head (blockers t id xid mode))))) ∨
     (policy = Wait ∧ tc (edge (<[xid := bs]> (waits_for t))) xid xid ∧
        r = Refused (Deadlock xid) ∧ t' = back_out t id xid bs) ∨
     (policy = Wait ∧ ¬ tc (edge (<[xid := bs]> (waits_for t))) xid xid ∧ r = Parked ∧
        t' = mkTable (locks (enqueue t id xid)) (<[xid := bs]> (waits_for t))))).
Proof.
  unfold acquire_iter. cbv zeta.
  assert (blockers (enqueue t id xid) id xid mode = blockers t id xid mode) as Hb.
  { unfold blockers, enqueue. simpl. rewrite lookup_insert_eq.
    by destruct (locks t !! id). }
  destruct (can_grant t id xid mode); intros Heq; [simplify_eq; by left|].
  right. split; [done|]. destruct policy; [simplify_eq; by left|]. right. rewrite Hb in Heq.
  set (t1 := mkTable (locks (enqueue t id xid)) _) in Heq.
  destruct (has_cycle t1 xid) eqn:E; injection Heq as <- <-.
  - left. split_and!; try done. by apply (has_cycle_spec t1).
  - right. split_and!; try done. intros Htc%(has_cycle_spec t1). congruence.
Qed.

Lemma acquire_iter_inv t id xid mode policy r t' :
  lock_inv t → acquire_iter t id xid mode policy = (r, t') → lock_inv t'.
Proof.
  intros Hinv [(?&_&->)|[_ [(_&->&_)|[(_&_&_&->)|(_&?&_&->)]]]]%acquire_iter_cases; auto.
  - by apply grant_inv.
  - by apply back_out_inv.
  - by apply park_inv.
Qed.

(** ** Batch acquisition *)

Lemma can_grant_grant t id id' xid :
  can_grant t id' xid Exclusive = true →
  can_grant (grant t id xid Exclusive) id' xid Exclusive = true.
Proof.
  rewrite !can_grant_spec. intros Hg y m. rewrite holds_grant.
  case_decide; [naive_solver|]. intros Hy. left. by destruct (Hg y m Hy) as [|[]].
Qed.

Lemma grant_all_spec t ids xid :
  lock_inv t → (∀ id, id ∈ ids → can_grant t id xid Exclusive = true) →
  let t' := foldl (λ t id, grant t id xid Exclusive) t ids in
  lock_inv t' ∧ ∀ id y m, holds t' id y m ↔
    if decide (id ∈ ids ∧ y = xid) then m = Exclusive else holds t id y m.
Proof.
  revert t. induction ids as [|i ids IH]; intros t Hinv Hg; cbn [foldl]; cbv zeta.
  { split; [done|]. intros. case_decide; set_solver. }
  destruct (IH (grant t i xid Exclusive)) as [Hinv' Hh].
  - apply grant_inv; [done|]. apply Hg. by left.
  - intros id Hid. apply can_grant_grant, Hg. by right.
  - split; [done|]. intros id y m. rewrite Hh. destruct (decide (id ∈ ids ∧ y = xid)).
    + rewrite decide_True by set_solver. done.
    + rewrite holds_grant. repeat case_decide; set_solver.
Qed.

Lemma release_inv t xid : lock_inv t → lock_inv (release_all t xid).
Proof.
  intros [? ? Hq]. split.
  - eapply exclusive_inv_ext; [|done]. intros ???. rewrite holds_release. tauto.
  - eapply acyclic_sub; [|done]. intros a b (bs&Hbs&Hb). simpl in Hbs.
    apply lookup_fmap_Some in Hbs as (bs'&<-&Hbs). apply lookup_delete_Some in Hbs as [_ Hbs].
    exists bs'. set_solver.
  - intros x [bs Hx]. simpl in Hx. apply lookup_fmap_Some in Hx as (bs'&_&Hx).
    apply lookup_delete_Some in Hx as [Hne Hx]. destruct (Hq x) as (id&e&He&Hin); [by eexists|].
    exists id. eexists. simpl. rewrite map_lookup_filter_Some, lookup_fmap, He. simpl.
    assert (x ∈ filter (λ w, w ≠ xid) (queue e)) as Hf by (by apply list_elem_of_filter).
    split_and!; [done| |done]. intros [_ Hnil]. simpl in Hnil. rewrite Hnil in Hf.
    by apply elem_of_nil in Hf.
Qed.

Lemma acquire_many_cases t ids xid r t' :
  try_acquire_write_many t ids xid = (r, t') →
  (∃ id y m, id ∈ ids ∧ y ≠ xid ∧ holds t id y m ∧ r = Refused (WriteConflict y) ∧ t' = t) ∨
  ((∀ id, id ∈ ids → can_grant t id xid Exclusive = true) ∧ r = Granted ∧
    t' = foldl (λ t id, grant t id xid Exclusive) t ids).
Proof.
  unfold try_acquire_write_many. destruct (list_find _ ids) as [[i id]|] eqn:E; intros [= <- <-].
  - left. apply list_find_Some in E as (Hi&Hg&_).
    destruct (blockers_nonempty t id xid Exclusive Hg) as (y&->&Hy&m&Hm).
    exists id, y, m. split_and!; try done. by eapply list_elem_of_lookup_2.
  - right. split_and!; try done. intros id Hid.
    apply list_find_None in E. rewrite Forall_forall in E. specialize (E id Hid).
    by destruct (can_grant t id xid Exclusive).
Qed.

Lemma lock_step_inv t t' : lock_inv t → lock_step t t' → lock_inv t'.
Proof.
  intros Hinv Hs. revert Hinv.
  destruct Hs as [t id xid mode policy r t' E|t ids xid r t' E|t xid]; intros Hinv.
  - by eapply acquire_iter_inv.
  - apply acquire_many_cases in E as [(?&?&?&_&_&_&_&->)|(Hg&_&->)]; [done|].
    by apply grant_all_spec.
  - by apply release_inv.
Qed.

Lemma empty_lock_inv : lock_inv empty_table.
Proof.
  assert (∀ a b, ¬ edge ∅ a b) as Hedge by (intros a b (bs&Hbs&_); by rewrite lookup_empty in Hbs).
  split.
  - intros id x y m (e&He&_). simpl in He; by rewrite lookup_empty in He.
  - intros x Hx. by destruct Hx as [? ? ?%Hedge|? ? ? ?%Hedge].
  - intros x [bs Hx]. simpl in Hx; by rewrite lookup_empty in Hx.
Qed.

Lemma lock_reachable_inv t : lock_reachable t → lock_inv t.
Proof.
  revert t. apply (rtc_ind_r lock_inv empty_table); [apply empty_lock_inv|].
  intros t t' _ Hs Hinv. by eapply lock_step_inv.
Qed.

(** A packed pair: the low 16 bits of the shifted part are free. *)
Lemma lor_disjoint p s : 0 ≤ p → 0 ≤ s < 2 ^ 16 → Z.lor (p * 2 ^ 16) s = p * 2 ^ 16 + s.
Proof.
  intros. rewrite Z.add_nocarry_lxor, Z.lxor_lor; [done|..];
    apply Z.bits_inj'; intros n Hn; rewrite Z.land_spec, Z.bits_0;
    (destruct (decide (n < 16)) as [Hlt|Hge];
     [rewrite Z.mul_pow2_bits_low by lia; done|
      rewrite (Z.bits_above_log2 s n), andb_false_r; [done|lia|];
      destruct (decide (s = 0)) as [->|]; [simpl; lia|];
      apply Z.log2_lt_pow2; [lia|]; apply (Z.lt_le_trans _ (2 ^ 16)); [lia|];
      apply Z.pow_le_mono_r; lia]).
Qed.

(** ** Claims *)

(** C6: In every table the manager can reach, from the empty one by any
    interleaving of lock requests, parked retries, batch requests and releases: an
    exclusive holder of a record is its only holder, the wait-for graph has no
    cycle, and every parked transaction is in the queue of an entry of the table. *)
Theorem lock_table_invariant t :
  lock_reachable t →
  (∀ id x y m, holds t id x Exclusive → holds t id y m → x = y) ∧
  acyclic (waits_for t) ∧ waiters_queued t.
Proof. intros [? ? ?]%lock_reachable_inv. done. Qed.

(** C13: A blocking request that cannot be granted is refused with [Deadlock]
    exactly when waiting behind the current holders would close a cycle of the
    wait-for graph; the refusal leaves no trace of the wait (the holds are those
    of before, the victim has no edge) and otherwise the request is parked behind
    exactly the conflicting holders.  The search always terminates. *)
Theorem deadlock_detection_exact t id xid mode :
  can_grant t id xid mode = false →
  let bs := list_to_set (blockers t id xid mode) in
  let g := <[xid := bs]> (waits_for t) in
  ∃ t', acquire_iter t id xid mode Wait =
    ((if has_cycle (mkTable (locks t) g) xid then Refused (Deadlock xid) else Parked), t') ∧
  (has_cycle (mkTable (locks t) g) xid = true ↔ tc (edge g) xid xid) ∧
  (∀ id' y m, holds t' id' y m ↔ holds t id' y m) ∧
  waits_for t' = (if has_cycle (mkTable (locks t) g) xid
                  then base.delete xid (waits_for t) else g).
Proof.
  intros Hg. cbv zeta. set (g := <[xid := _]> (waits_for t)).
  destruct (acquire_iter t id xid mode Wait) as [r t'] eqn:E. exists t'.
  pose proof (has_cycle_spec (mkTable (locks t) g) xid) as Hc. simpl in Hc.
  apply acquire_iter_cases in E as [(?&_)|[_ [(?&_)|[(_&Htc&->&->)|(_&Htc&->&->)]]]];
    try congruence; fold g in Htc.
  - rewrite (proj2 Hc Htc). split_and!; try done; [apply holds_back_out|apply waits_back_out].
  - destruct (has_cycle _ xid) eqn:Eh; [by destruct Htc; apply Hc|].
    split_and!; try done. intros. rewrite holds_graph. apply holds_enqueue.
Qed.

(** Batch acquisition is all or nothing: either every record of the batch is
    then held exclusively by the transaction and no other hold changed, or the
    table is unchanged and the error names another transaction that holds a
    record of the batch. *)
Theorem acquire_many_all_or_nothing t ids xid :
  lock_reachable t →
  match try_acquire_write_many t ids xid with
  | (Granted, t') =>
      (∀ id, id ∈ ids → holds t' id xid Exclusive) ∧
      (∀ id y m, y ≠ xid ∨ id ∉ ids → holds t' id y m ↔ holds t id y m)
  | (Refused e, t') =>
      t' = t ∧ ∃ id y m, id ∈ ids ∧ y ≠ xid ∧ holds t id y m ∧ e = WriteConflict y
  | (Parked, _) => False
  end.
Proof.
  intros Hinv%lock_reachable_inv.
  destruct (try_acquire_write_many t ids xid) as [r t'] eqn:E.
  apply acquire_many_cases in E as [(id&y&m&?&?&?&->&->)|(Hg&->&->)].
  { split; [done|]. by exists id, y, m. }
  destruct (grant_all_spec t ids xid Hinv Hg) as [_ Hh]. split.
  - intros id Hid. apply Hh. by rewrite decide_True.
  - intros id y m Hor. rewrite Hh. rewrite decide_False by naive_solver. done.
Qed.

(** Releasing a transaction removes it everywhere (holds, queues, both ends
    of wait-for edges) and changes nothing for the others; a record that only
    this transaction held can be granted at once to any waiter. *)
Theorem release_all_complete t xid :
  lock_reachable t →
  let t' := release_all t xid in
  (∀ id y m, holds t' id y m ↔ y ≠ xid ∧ holds t id y m) ∧
  (∀ id e, locks t' !! id = Some e → xid ∉ queue e ∧ ¬ entry_empty e) ∧
  (∀ a b, edge (waits_for t') a b ↔ edge (waits_for t) a b ∧ a ≠ xid ∧ b ≠ xid) ∧
  (∀ id w mode policy, (∀ y m, holds t id y m → y = xid ∨ y = w) →
    ∃ t'', acquire_iter t' id w mode policy = (Granted, t'')).
Proof.
  intros _. cbv zeta. split_and!.
  - intros. apply holds_release.
  - intros id e He. simpl in He. apply map_lookup_filter_Some in He as [He Hne].
    rewrite lookup_fmap in He. destruct (locks t !! id); [|done]. injection He as <-.
    split; [|done]. simpl. rewrite list_elem_of_filter. naive_solver.
  - intros a b. unfold edge. simpl. setoid_rewrite lookup_fmap_Some.
    setoid_rewrite lookup_delete_Some. split.
    + intros (bs&(bs'&<-&Hne&Hbs)&[Hb Hb']%elem_of_difference).
      split; [by exists bs'|]. set_solver.
    + intros ((bs&Hbs&Hb)&Ha&Hbx). exists (bs ∖ {[xid]}). split; [by exists bs|]. set_solver.
  - intros id w mode policy Hw. unfold acquire_iter.
    assert (can_grant (release_all t xid) id w mode = true) as ->; [|by eexists].
    apply can_grant_spec. intros y m [? Hy]%holds_release. left.
    by destruct (Hw y m Hy).
Qed.

(** No set of parked transactions waits for itself: following wait-for edges
    from any parked transaction leads to a transaction that is running (not
    parked), or parked with all the holders it waited for gone, which the release
    that removed them woke up. *)
Theorem wait_chain_ends t x :
  lock_reachable t → is_Some (waits_for t !! x) →
  ∃ y, rtc (edge (waits_for t)) x y ∧
    (waits_for t !! y = None ∨ waits_for t !! y = Some ∅).
Proof.
  intros [_ Hac _]%lock_reachable_inv _.
  assert (sn (edge (waits_for t)) x) as Hsn.
  { apply tc_finite_sn; [exact Hac|].
    exists (elements (⋃ (map_to_list (waits_for t)).*2)). intros y Hy.
    assert (∃ a, edge (waits_for t) a y) as (a&bs&Hbs&Hb).
    { clear -Hy. induction Hy; eauto. }
    apply elem_of_elements, elem_of_union_list. exists bs. split; [|done].
    apply list_elem_of_fmap. exists (a, bs). split; [done|]. by apply elem_of_map_to_list. }
  induction Hsn as [x _ IH]. destruct (waits_for t !! x) as [bs|] eqn:E; [|exists x; split; [done|by left]].
  destruct (set_choose_or_empty bs) as [[b Hb]|Hbs].
  - assert (edge (waits_for t) x b) as He by (by exists bs).
    destruct (IH b He) as (y&?&?). exists y. split; [by eapply rtc_l|done].
  - exists x. split; [done|]. right. rewrite E. f_equal. by apply leibniz_equiv.
Qed.

(** The packed record ids never alias: two row locks are the same record
    only for the same page and slot, and row, unique-key and foreign-key locks
    are different records even with the same 64-bit value. *)
Theorem record_ids_distinct p s p' s' h :
  0 ≤ p < 2 ^ 32 → 0 ≤ s < 2 ^ 16 → 0 ≤ p' < 2 ^ 32 → 0 ≤ s' < 2 ^ 16 →
  (row p s = row p' s' ↔ p = p' ∧ s = s') ∧
  row p s ≠ unique_key h ∧ row p s ≠ fk_key h ∧ unique_key h ≠ fk_key h.
Proof.
  intros Hp Hs Hp' Hs'. split_and!; try done. split; [|by intros [-> ->]].
  intros [= Hr]. rewrite !Z.shiftl_mul_pow2, !u64_small in Hr by lia.
  rewrite !lor_disjoint in Hr by lia. lia.
Qed.

(** ** Witnesses *)

(** Transaction 5 holds row (1,2), 7 holds row (1,3), 5 waits for (1,3). *)
Definition w_lock1 : LockTable := snd (acquire_blocking empty_table (row 1 2) 5).
Definition w_lock2 : LockTable := snd (acquire_blocking w_lock1 (row 1 3) 7).
Definition w_lock3 : LockTable := snd (acquire_blocking w_lock2 (row 1 3) 5).

Lemma w_lock_reachable : lock_reachable w_lock3.
Proof.
  apply (rtc_l _ _ w_lock1); [by eapply (step_acquire _ (row 1 2) 5 Exclusive Wait), surjective_pairing|].
  apply (rtc_l _ _ w_lock2); [by eapply (step_acquire _ (row 1 3) 7 Exclusive Wait), surjective_pairing|].
  apply rtc_once. by eapply (step_acquire _ (row 1 3) 5 Exclusive Wait), surjective_pairing.
Qed.

Lemma lock_table_invariant_witness : waiters_queued w_lock3.
Proof. apply (lock_table_invariant w_lock3 w_lock_reachable). Defined.

Lemma deadlock_detection_exact_witness :
  fst (acquire_iter w_lock3 (row 1 2) 7 Exclusive Wait) = Refused (Deadlock 7).
Proof.
  destruct (deadlock_detection_exact w_lock3 (row 1 2) 7 Exclusive) as (t'&->&_);
    [vm_compute; reflexivity|].
  vm_compute. reflexivity.
Defined.

Lemma acquire_many_all_or_nothing_witness :
  snd (try_acquire_write_many w_lock3 [row 9 9; row 1 2] 8) = w_lock3.
Proof.
  pose proof (acquire_many_all_or_nothing w_lock3 [row 9 9; row 1 2] 8 w_lock_reachable) as H.
  assert (fst (try_acquire_write_many w_lock3 [row 9 9; row 1 2] 8) = Refused (WriteConflict 5))
    as Hf by (vm_compute; reflexivity).
  destruct (try_acquire_write_many w_lock3 [row 9 9; row 1 2] 8) as [[|e|] t'].
  - discriminate Hf.
  - apply H.
  - destruct H.
Defined.

Lemma release_all_complete_witness :
  ∃ t'', acquire_iter (release_all w_lock3 7) (row 1 3) 5 Exclusive Wait = (Granted, t'').
Proof.
  apply (release_all_complete w_lock3 7 w_lock_reachable).
  intros y m Hh. apply (proj1 (can_grant_spec w_lock3 (row 1 3) 7 Exclusive)) in Hh;
    [|vm_compute; reflexivity].
  left. destruct Hh as [?|[? ?]]; [assumption|discriminate].
Defined.

Lemma wait_chain_ends_witness :
  ∃ y, rtc (edge (waits_for w_lock3)) 5 y ∧
    (waits_for w_lock3 !! y = None ∨ waits_for w_lock3 !! y = Some ∅).
Proof. apply (wait_chain_ends w_lock3 5 w_lock_reachable). vm_compute. eauto. Defined.

Lemma record_ids_distinct_witness : row 1 2 = row 1 2 ↔ 1 = 1 ∧ 2 = 2.
Proof. apply (record_ids_distinct 1 2 1 2 0); lia. Defined.
