(* ===== verification/Txn.v ===== *)
(** The transaction manager ([src/txn.rs]): transaction ids, snapshots, the
    vacuum horizon, serializable-isolation tracking, commit and abort.

    The manager's state is guarded by one mutex; an operation is a function on
    it that returns a result and the new state, because an operation that fails
    keeps what it changed before the failure.  The write-ahead log and the undo
    operations of the heap and of the index are interfaces ([TxnWal], [TxnUndo]).
    Transaction ids are unbounded integers here; the code's [u64] counter is
    incremented by one per transaction.  The wall-clock instants kept for the
    age gauge are not modelled. *)

From stdpp Require Import base numbers list gmap sets strings.
From S2P Require Import Prelude Format Mvcc LockMgr.

Record RowId := mkRowId { ri_page : PageId; ri_slot : Z }.
#[global] Instance RowId_eq_dec : EqDecision RowId.
Proof. solve_decision. Defined.
#[global] Instance RowId_countable : Countable RowId.
Proof.
  refine (inj_countable' (λ r, (ri_page r, ri_slot r)) (λ '(p, s), mkRowId p s) _).
  by intros [].
Defined.

Inductive IsolationLevel := ReadCommitted | RepeatableRead | Serializable.
#[global] Instance IsolationLevel_eq_dec : EqDecision IsolationLevel.
Proof. solve_decision. Defined.

Inductive TxnState := Active | Committed | Aborted.

(** [K] is the type of index keys ([OrderedValue]). *)
Inductive UndoAction (K : Type) :=
| UInsert (page_id : PageId) (slot : Z)
| UXmaxStamp (page_id : PageId) (slot : Z)
| UXmaxStampBatch (page_id : PageId) (slots : list Z)
| UBTreePatch (meta_page : PageId) (page_size : Z) (key : K) (old_rid new_rid : RowId)
| UHotUpdate (page_id : PageId) (old_slot new_slot : Z)
| UHotXpageUpdate (old_page_id : PageId) (old_slot : Z) (new_page_id : PageId) (new_slot : Z)
    (saved_prev_page : PageId) (saved_prev_slot : Z).
Arguments UInsert {K}.
Arguments UXmaxStamp {K}.
Arguments UXmaxStampBatch {K}.
Arguments UBTreePatch {K}.
Arguments UHotUpdate {K}.
Arguments UHotXpageUpdate {K}.

Record SsiState := mkSsi {
  reads : gset RowId;
  writes : gset RowId;
  in_conflict : bool;
  out_conflict : bool;
}.

Definition default_ssi : SsiState := mkSsi ∅ ∅ false false.
Definition is_pivot (s : SsiState) : bool := in_conflict s && out_conflict s.

(** The write-ahead log, as the manager uses it. *)
Class TxnWal (W : Type) := {
  wal_begin_user_txn : W → Xid → Result Lsn * W;
  wal_commit_user_txn : W → Xid → Lsn → Result Lsn * W;
  wal_abort_user_txn : W → Xid → Lsn → Result Lsn * W;
}.

(** The physical undo operations of the heap and of the index. *)
Class TxnUndo (K W H : Type) := {
  heap_undo_insert : H → W → PageId → Z → Xid → Result unit * (H * W);
  heap_undo_xmax_stamp : H → W → PageId → Z → Result unit * (H * W);
  heap_undo_xmax_stamp_batch : H → W → PageId → list Z → Result unit * (H * W);
  btree_update_rowid_inplace :
    H → W → PageId → Z → K → RowId → RowId → Result unit * (H * W);
  heap_undo_hot_update : H → W → PageId → Z → Z → Xid → Result unit * (H * W);
  heap_undo_hot_xpage_update :
    H → W → PageId → Z → PageId → Z → PageId → Z → Xid → Result unit * (H * W);
}.

Section txn.
Context {K : Type}.

Record Transaction := mkTransaction {
  t_xid : Xid;
  isolation_level : IsolationLevel;
  state : TxnState;
  snapshot : Snapshot;
  begin_lsn : Lsn;
  last_lsn : Lsn;
  undo_log : list (UndoAction K);
  ssi : option SsiState;
  row_count_deltas : gmap string Z;
}.

Record TxnInner := mkInner {
  next_xid : Xid;
  active : gmap Z Transaction;
  committed : gset Z;
  aborted : gset Z;
  read_registrations : gmap Z Xid;
  next_reg_id : Z;
  committed_ser : gmap Z SsiState;
}.

Record TransactionManager := mkMgr {
  inner : TxnInner;
  committed_horizon : Xid;
}.

Definition set_active (s : TxnInner) (a : gmap Z Transaction) : TxnInner :=
  mkInner (next_xid s) a (committed s) (aborted s) (read_registrations s) (next_reg_id s)
    (committed_ser s).
Definition set_txn_snapshot (t : Transaction) (sn : Snapshot) : Transaction :=
  mkTransaction (t_xid t) (isolation_level t) (state t) sn (begin_lsn t) (last_lsn t)
    (undo_log t) (ssi t) (row_count_deltas t).
Definition set_txn_undo (t : Transaction) (l : list (UndoAction K)) : Transaction :=
  mkTransaction (t_xid t) (isolation_level t) (state t) (snapshot t) (begin_lsn t) (last_lsn t)
    l (ssi t) (row_count_deltas t).
Definition set_txn_ssi (t : Transaction) (o : option SsiState) : Transaction :=
  mkTransaction (t_xid t) (isolation_level t) (state t) (snapshot t) (begin_lsn t) (last_lsn t)
    (undo_log t) o (row_count_deltas t).
Definition set_txn_deltas (t : Transaction) (d : gmap string Z) : Transaction :=
  mkTransaction (t_xid t) (isolation_level t) (state t) (snapshot t) (begin_lsn t) (last_lsn t)
    (undo_log t) (ssi t) d.

(** [Iterator::min] *)
Definition min_list (l : list Z) : option Z :=
  match l with [] => None | x :: l => Some (foldr Z.min x l) end.

(** ** Snapshots and the vacuum horizon *)

Definition compute_snapshot (s : TxnInner) : Snapshot :=
  let active_xids := (map_to_list (active s)).*1 in
  let xmin := default (next_xid s) (min_list active_xids) in
  mkSnapshot xmin (next_xid s) active_xids.

Definition vacuum_horizon (s : TxnInner) : Xid :=
  let writers := (λ xt : Z * Transaction, snap_xmin (snapshot xt.2)) <$> map_to_list (active s) in
  let readers := (map_to_list (read_registrations s)).*2 in
  default (next_xid s) (min_list (writers ++ readers)).

Definition snapshot_for_statement (s : TxnInner) (xid : Xid) : Result Snapshot * TxnInner :=
  match active s !! xid with
  | None => (Err (TxnNotActive xid), s)
  | Some t =>
      if decide (isolation_level t = ReadCommitted) then
        let fresh := compute_snapshot s in
        (Ok fresh, set_active s (<[xid := set_txn_snapshot t fresh]> (active s)))
      else (Ok (snapshot t), s)
  end.

(** The snapshot, the sentinel [self_xid] and the registration id of a reader. *)
Definition read_snapshot (s : TxnInner) : (Snapshot * Xid * Z) * TxnInner :=
  let sn := compute_snapshot s in
  let id := next_reg_id s in
  ((sn, next_xid s, id),
   mkInner (next_xid s) (active s) (committed s) (aborted s)
     (<[id := snap_xmin sn]> (read_registrations s)) (next_reg_id s + 1) (committed_ser s)).

(** [Drop for ReadRegistration] *)
Definition drop_registration (s : TxnInner) (id : Z) : TxnInner :=
  mkInner (next_xid s) (active s) (committed s) (aborted s)
    (base.delete id (read_registrations s)) (next_reg_id s) (committed_ser s).

Definition with_next_xid (n : Xid) : TransactionManager :=
  mkMgr (mkInner n ∅ ∅ ∅ ∅ 1 ∅) n.

Definition read_snapshot_lightweight (m : TransactionManager) : Snapshot * Xid :=
  (mkSnapshot 0 (committed_horizon m) [], committed_horizon m).

(** ** Transactions *)

Section ops.
Context {W : Type} `{!TxnWal W}.

Definition begin (m : TransactionManager) (iso : IsolationLevel) (w : W)
    : Result Xid * (TransactionManager * W) :=
  let s := inner m in
  let xid := next_xid s in
  let s := mkInner (xid + 1) (active s) (committed s) (aborted s) (read_registrations s)
             (next_reg_id s) (committed_ser s) in
  let horizon := next_xid s in
  match wal_begin_user_txn w xid with
  | (Ok lsn, w) =>
      let t := mkTransaction xid iso Active (compute_snapshot s) lsn lsn []
                 (if decide (iso = Serializable) then Some default_ssi else None) ∅ in
      (Ok xid, (mkMgr (set_active s (<[xid := t]> (active s))) horizon, w))
  | (Err e, w) => (Err e, (mkMgr s horizon, w))
  | (Panic, w) => (Panic, (mkMgr s horizon, w))
  end.

Definition record_undo (s : TxnInner) (xid : Xid) (a : UndoAction K) : Result unit * TxnInner :=
  match active s !! xid with
  | None => (Err (TxnNotActive xid), s)
  | Some t => (Ok tt, set_active s (<[xid := set_txn_undo t (undo_log t ++ [a])]> (active s)))
  end.

Definition isolation (s : TxnInner) (xid : Xid) : option IsolationLevel :=
  isolation_level <$> active s !! xid.

(** ** Serializable-snapshot-isolation tracking *)

Definition has_ssi (s : TxnInner) (xid : Xid) : bool :=
  match active s !! xid with Some t => match ssi t with Some _ => true | None => false end | None => false end.

(** [active.get_mut(&xid).and_then(|t| t.ssi.as_mut())], modified by [f]. *)
Definition alter_ssi (f : SsiState → SsiState) (xid : Z) (a : gmap Z Transaction)
    : gmap Z Transaction :=
  alter (λ t, set_txn_ssi t (f <$> ssi t)) xid a.

(** The other active transactions whose SSI state satisfies [P]. *)
Definition others (s : TxnInner) (xid : Xid) (P : SsiState → bool) : list Z :=
  (filter (λ ot : Z * Transaction, ot.1 ≠ xid ∧
    match ssi ot.2 with Some st => P st | None => false end = true)
    (map_to_list (active s))).*1.

Definition other_committed (s : TxnInner) (xid : Xid) (P : SsiState → bool) : bool :=
  existsb (λ os : Z * SsiState, negb (bool_decide (os.1 = xid)) && P os.2)
    (map_to_list (committed_ser s)).

Definition set_in (s : SsiState) : SsiState := mkSsi (reads s) (writes s) true (out_conflict s).
Definition set_out (s : SsiState) : SsiState := mkSsi (reads s) (writes s) (in_conflict s) true.
Definition add_read (r : RowId) (s : SsiState) : SsiState :=
  mkSsi ({[r]} ∪ reads s) (writes s) (in_conflict s) (out_conflict s).
Definition add_write (r : RowId) (s : SsiState) : SsiState :=
  mkSsi (reads s) ({[r]} ∪ writes s) (in_conflict s) (out_conflict s).

(** The body of the loop of [ssi_note_reads], for one row. *)
Definition ssi_note_read (xid : Xid) (s : TxnInner) (r : RowId) : TxnInner :=
  let active_writers := others s xid (λ st, bool_decide (r ∈ writes st)) in
  let committed_writer := other_committed s xid (λ st, bool_decide (r ∈ writes st)) in
  let a := alter_ssi (λ st,
    let st := add_read r st in
    if negb (bool_decide (active_writers = [])) || committed_writer then set_out st else st)
    xid (active s) in
  set_active s (foldl (λ a w, alter_ssi set_in w a) a active_writers).

Definition ssi_note_reads (s : TxnInner) (xid : Xid) (rows : list RowId) : TxnInner :=
  if has_ssi s xid then foldl (ssi_note_read xid) s rows else s.

Definition ssi_note_write (s : TxnInner) (xid : Xid) (r : RowId) : TxnInner :=
  if has_ssi s xid then
    let active_readers := others s xid (λ st, bool_decide (r ∈ reads st)) in
    let committed_reader := other_committed s xid (λ st, bool_decide (r ∈ reads st)) in
    let a := alter_ssi (λ st,
      let st := add_write r st in
      if negb (bool_decide (active_readers = [])) || committed_reader then set_in st else st)
      xid (active s) in
    set_active s (foldl (λ a rd, alter_ssi set_out rd a) a active_readers)
  else s.

Definition ssi_is_pivot (s : TxnInner) (xid : Xid) : bool :=
  match (t ← active s !! xid; ssi t) with Some st => is_pivot st | None => false end.

(** ** Deferred row counts *)

Definition i64_MIN : Z := - 2 ^ 63.
Definition i64_MAX : Z := 2 ^ 63 - 1.
Definition i64_saturating_add (a b : Z) : Z := Z.max i64_MIN (Z.min i64_MAX (a + b)).

Definition record_row_count_delta (s : TxnInner) (xid : Xid) (table : string) (delta : Z)
    : Result unit * TxnInner :=
  match active s !! xid with
  | None => (Err (TxnNotActive xid), s)
  | Some t =>
      let entry := default 0 (row_count_deltas t !! table) in
      let entry' :=
        if decide (delta = i64_MIN) then i64_MIN
        else if decide (entry = i64_MIN) then delta
        else i64_saturating_add entry delta in
      (Ok tt, set_active s (<[xid := set_txn_deltas t
                                       (<[table := entry']> (row_count_deltas t))]> (active s)))
  end.

Definition take_row_count_deltas (s : TxnInner) (xid : Xid) : gmap string Z * TxnInner :=
  match active s !! xid with
  | None => (∅, s)
  | Some t => (row_count_deltas t, set_active s (<[xid := set_txn_deltas t ∅]> (active s)))
  end.

(** What [Engine::commit] makes of a delta, for a table whose count is known. *)
Definition apply_delta (row_count delta : Z) : Z :=
  if decide (delta = i64_MIN) then 0 else i64_saturating_add row_count delta.

(** ** Commit and abort *)

(** Drop the committed SSI states once no serializable transaction is active. *)
Definition prune_committed_ser (s : TxnInner) : TxnInner :=
  if existsb (λ xt : Z * Transaction, match ssi xt.2 with Some _ => true | None => false end)
       (map_to_list (active s))
  then s
  else mkInner (next_xid s) (active s) (committed s) (aborted s) (read_registrations s)
         (next_reg_id s) ∅.

(** The sections of [commit], each of which takes the manager's lock once (the log
    record and the row locks are under locks of their own).  First the check that
    the transaction is not a serializable pivot. *)
Definition commit_check (s : TxnInner) (xid : Xid) : Result unit :=
  if ssi_is_pivot s xid then Err (SerializationFailure xid) else Ok tt.

(** [self.lock().active.remove(&xid)]. *)
Definition commit_remove (s : TxnInner) (xid : Xid) : Result Transaction * TxnInner :=
  match active s !! xid with
  | None => (Err (TxnNotActive xid), s)
  | Some t => (Ok t, set_active s (base.delete xid (active s)))
  end.

(** The commit record, unless the transaction changed nothing. *)
Definition commit_record (xid : Xid) (t : Transaction) (w : W) : Result (option Lsn) * W :=
  match undo_log t with
  | [] => (Ok None, w)
  | _ =>
      match wal_commit_user_txn w xid (last_lsn t) with
      | (Ok lsn, w) => (Ok (Some lsn), w)
      | (Err e, w) => (Err e, w)
      | (Panic, w) => (Panic, w)
      end
  end.

Definition commit_publish (s : TxnInner) (xid : Xid) (t : Transaction) : TxnInner :=
  let ser := match ssi t with
             | Some st => <[xid := st]> (committed_ser s)
             | None => committed_ser s
             end in
  prune_committed_ser
    (mkInner (next_xid s) (active s) ({[xid]} ∪ committed s) (aborted s)
       (read_registrations s) (next_reg_id s) ser).

(** A call that nothing interrupts between its sections. *)
Definition commit (s : TxnInner) (xid : Xid) (w : W) (lk : LockTable)
    : Result (option Lsn) * (TxnInner * W * LockTable) :=
  match commit_check s xid with
  | Err e => (Err e, (s, w, lk))
  | Panic => (Panic, (s, w, lk))
  | Ok _ =>
      match commit_remove s xid with
      | (Err e, s) => (Err e, (s, w, lk))
      | (Panic, s) => (Panic, (s, w, lk))
      | (Ok t, s) =>
          let '(r, w) := commit_record xid t w in
          match r with
          | Ok commit_lsn => (Ok commit_lsn, (commit_publish s xid t, w, release_all lk xid))
          | Err e => (Err e, (s, w, lk))
          | Panic => (Panic, (s, w, lk))
          end
      end
  end.

Context {H : Type} `{!TxnUndo K W H}.

Definition undo_one (xid : Xid) (h : H) (w : W) (a : UndoAction K) : Result unit * (H * W) :=
  match a with
  | UInsert page_id slot => heap_undo_insert h w page_id slot xid
  | UXmaxStamp page_id slot => heap_undo_xmax_stamp h w page_id slot
  | UXmaxStampBatch page_id slots => heap_undo_xmax_stamp_batch h w page_id slots
  | UBTreePatch meta_page page_size key old_rid new_rid =>
      btree_update_rowid_inplace h w meta_page page_size key new_rid old_rid
  | UHotUpdate page_id old_slot new_slot => heap_undo_hot_update h w page_id old_slot new_slot xid
  | UHotXpageUpdate old_page_id old_slot new_page_id new_slot saved_prev_page saved_prev_slot =>
      heap_undo_hot_xpage_update h w old_page_id old_slot new_page_id new_slot
        saved_prev_page saved_prev_slot xid
  end.

(** The undo loop; it stops at the first failure, keeping what was undone. *)
Fixpoint undo_all (xid : Xid) (h : H) (w : W) (l : list (UndoAction K))
    : Result unit * (H * W) :=
  match l with
  | [] => (Ok tt, (h, w))
  | a :: l =>
      match undo_one xid h w a with
      | (Ok _, (h, w)) => undo_all xid h w l
      | r => r
      end
  end.

Definition abort (s : TxnInner) (xid : Xid) (h : H) (w : W) (lk : LockTable)
    : Result unit * (TxnInner * H * W * LockTable) :=
  match active s !! xid with
  | None => (Err (TxnNotActive xid), (s, h, w, lk))
  | Some t =>
      match undo_all xid h w (rev (undo_log t)) with
      | (Ok _, (h, w)) =>
          match wal_abort_user_txn w xid (last_lsn t) with
          | (Ok _, w) =>
              let s := mkInner (next_xid s) (base.delete xid (active s)) (committed s)
                         ({[xid]} ∪ aborted s) (read_registrations s) (next_reg_id s)
                         (committed_ser s) in
              (Ok tt, (prune_committed_ser s, h, w, release_all lk xid))
          | (Err e, w) => (Err e, (s, h, w, lk))
          | (Panic, w) => (Panic, (s, h, w, lk))
          end
      | (Err e, (h, w)) => (Err e, (s, h, w, lk))
      | (Panic, (h, w)) => (Panic, (s, h, w, lk))
      end
  end.

Definition is_active (s : TxnInner) (xid : Xid) : bool := bool_decide (xid ∈ dom (active s)).
Definition active_count (s : TxnInner) : nat := size (active s).
Definition is_committed (s : TxnInner) (xid : Xid) : bool := bool_decide (xid ∈ committed s).
Definition is_aborted (s : TxnInner) (xid : Xid) : bool := bool_decide (xid ∈ aborted s).

End ops.
End txn.
Arguments Transaction : clear implicits.
Arguments TxnInner : clear implicits.
Arguments TransactionManager : clear implicits.
