(* ===== verification/TxnProps.v ===== *)
(** Properties of the transaction manager: the invariant of its state under any
    sequence of operations, what snapshots mean, and when vacuum may reclaim. *)

From stdpp Require Import base numbers list gmap sets strings relations.
From S2P Require Import Prelude Format Mvcc LockMgr Txn.

(** ** Minima *)

Lemma min_list_spec l m : min_list l = Some m → m ∈ l ∧ ∀ x, x ∈ l → m ≤ x.
Proof.
  destruct l as [|a l]; [done|]. simpl. intros [= <-].
  assert (∀ l a, foldr Z.min a l ∈ a :: l ∧ ∀ x, x ∈ a :: l → foldr Z.min a l ≤ x) as Hf.
  { clear. induction l as [|b l IH]; intros a; simpl.
    - split; [by left|]. intros x ->%list_elem_of_singleton. lia.
    - destruct (IH a) as [Hin Hle]. split.
      + destruct (Z.min_spec b (foldr Z.min a l)) as [[_ ->]|[_ ->]]; [set_solver|].
        apply elem_of_cons in Hin as [->|]; set_solver.
      + intros x [->|[->|Hx]%elem_of_cons]%elem_of_cons.
        * pose proof (Hle a ltac:(by left)). lia.
        * lia.
        * pose proof (Hle x ltac:(by right)). lia. }
  apply Hf.
Qed.

Lemma min_list_None l : min_list l = None ↔ l = [].
Proof. by destruct l. Qed.

Section props.
Context {K W H : Type} `{!TxnWal W} `{!TxnUndo K W H}.
Implicit Types (s : TxnInner K) (m : TransactionManager K).

(** ** The system: the manager, its log, store and locks, the snapshots of the
    readers that hold a registration, and the commits in progress *)

(** How far a call of [commit] is: past the check, out of the active set, with its
    record logged, entered among the committed. *)
Inductive CommitCall :=
| CChecked (xid : Xid)
| CRemoved (xid : Xid) (t : Transaction K)
| CLogged (xid : Xid) (t : Transaction K)
| CPublished (xid : Xid).

Record Sys := mkSys {
  mgr : TransactionManager K;
  wal : W;
  store : H;
  lk : LockTable;
  readers : gmap Z Snapshot;
  commits : gmap nat CommitCall;
}.

(** [ECommit c xid] starts the call [c] of [commit] with its check, and
    [ECommitStep c] runs its next section; the sections of several calls and all
    other events interleave.  The other operations are single events: each holds
    the manager's lock, or (abort) leaves its transaction active until its last
    section. *)
Inductive txn_event :=
| EBegin (iso : IsolationLevel)
| EStatement (xid : Xid)
| ERead
| EReadDone (id : Z)
| ERecordUndo (xid : Xid) (a : UndoAction K)
| ENoteReads (xid : Xid) (rows : list RowId)
| ENoteWrite (xid : Xid) (r : RowId)
| EDelta (xid : Xid) (table : string) (d : Z)
| ETakeDeltas (xid : Xid)
| ECommit (c : nat) (xid : Xid)
| ECommitStep (c : nat)
| EAbort (xid : Xid).

Definition with_inner (st : Sys) (s : TxnInner K) : Sys :=
  mkSys (mkMgr s (committed_horizon (mgr st))) (wal st) (store st) (lk st) (readers st) (commits st).
Definition with_commits (st : Sys) (cs : gmap nat CommitCall) : Sys :=
  mkSys (mgr st) (wal st) (store st) (lk st) (readers st) cs.

Definition commit_start (c : nat) (xid : Xid) (st : Sys) : Sys :=
  match commits st !! c, commit_check (inner (mgr st)) xid with
  | None, Ok _ => with_commits st (<[c := CChecked xid]> (commits st))
  | _, _ => st
  end.

Definition commit_step (c : nat) (st : Sys) : Sys :=
  let s := inner (mgr st) in
  match commits st !! c with
  | None => st
  | Some (CChecked xid) =>
      let '(r, s) := commit_remove s xid in
      with_commits (with_inner st s)
        (match r with
         | Ok t => <[c := CRemoved xid t]> (commits st)
         | _ => base.delete c (commits st)
         end)
  | Some (CRemoved xid t) =>
      let '(r, w) := commit_record xid t (wal st) in
      mkSys (mgr st) w (store st) (lk st) (readers st)
        (match r with
         | Ok _ => <[c := CLogged xid t]> (commits st)
         | _ => base.delete c (commits st)
         end)
  | Some (CLogged xid t) =>
      with_commits (with_inner st (commit_publish s xid t)) (<[c := CPublished xid]> (commits st))
  | Some (CPublished xid) =>
      mkSys (mgr st) (wal st) (store st) (release_all (lk st) xid) (readers st)
        (base.delete c (commits st))
  end.

Definition exec (e : txn_event) (st : Sys) : Sys :=
  let s := inner (mgr st) in
  match e with
  | EBegin iso =>
      let '(_, (m, w)) := begin (mgr st) iso (wal st) in
      mkSys m w (store st) (lk st) (readers st) (commits st)
  | EStatement xid => with_inner st (snapshot_for_statement s xid).2
  | ERead =>
      let '((sn, _, id), s) := read_snapshot s in
      mkSys (mkMgr s (committed_horizon (mgr st))) (wal st) (store st) (lk st)
        (<[id := sn]> (readers st)) (commits st)
  | EReadDone id =>
      mkSys (mkMgr (drop_registration s id) (committed_horizon (mgr st))) (wal st) (store st)
        (lk st) (base.delete id (readers st)) (commits st)
  | ERecordUndo xid a => with_inner st (record_undo s xid a).2
  | ENoteReads xid rows => with_inner st (ssi_note_reads s xid rows)
  | ENoteWrite xid r => with_inner st (ssi_note_write s xid r)
  | EDelta xid table d => with_inner st (record_row_count_delta s xid table d).2
  | ETakeDeltas xid => with_inner st (take_row_count_deltas s xid).2
  | ECommit c xid => commit_start c xid st
  | ECommitStep c => commit_step c st
  | EAbort xid =>
      let '(_, (s, h, w, l)) := abort s xid (store st) (wal st) (lk st) in
      mkSys (mkMgr s (committed_horizon (mgr st))) w h l (readers st) (commits st)
  end.

Definition exec_all (l : list txn_event) (st : Sys) : Sys := foldl (λ st e, exec e st) st l.

(** The events of a whole call of [commit]. *)
Definition commit_events (c : nat) (xid : Xid) : list txn_event :=
  ECommit c xid :: replicate 4 (ECommitStep c).

Definition sys_step (st st' : Sys) : Prop := ∃ e, st' = exec e st.

(** A manager fresh from [with_next_xid], with any log, store and locks. *)
Definition sys_init (st : Sys) : Prop :=
  ∃ n, 0 < n ∧ mgr st = with_next_xid n ∧ readers st = ∅ ∧ commits st = ∅.

Definition sys_reachable (st : Sys) : Prop := ∃ st0, sys_init st0 ∧ rtc sys_step st0 st.

(** ** The invariant *)

(** [sn], taken by [owner] or by a reader, is a past state of the manager: every
    transaction now active that it does not list began after it, or is its
    owner. *)
Definition snap_ok s (owner : option Z) (sn : Snapshot) : Prop :=
  snap_xmin sn ≤ snap_xmax sn ≤ next_xid s ∧
  (∀ y, y ∈ dom (active s) → y < snap_xmax sn → Some y = owner ∨ y ∈ active_xids sn) ∧
  (∀ y, y ∈ active_xids sn → snap_xmin sn ≤ y).

Record inner_inv s : Prop := {
  ii_next : 0 < next_xid s;
  ii_active : ∀ x t, active s !! x = Some t →
    0 < x < next_xid s ∧ t_xid t = x ∧ snap_ok s (Some x) (snapshot t);
  ii_done : ∀ x, x ∈ committed s ∪ aborted s → 0 < x < next_xid s ∧ x ∉ dom (active s);
  ii_regs : ∀ i x, read_registrations s !! i = Some x → i < next_reg_id s ∧ x ≤ next_xid s;
}.

(** A call past the removal works for a transaction that has left the active set. *)
Definition call_ok s (call : CommitCall) : Prop :=
  match call with
  | CChecked _ => True
  | CRemoved x _ | CLogged x _ | CPublished x => 0 < x < next_xid s ∧ x ∉ dom (active s)
  end.

Record sys_inv (st : Sys) : Prop := {
  si_inner : inner_inv (inner (mgr st));
  si_horizon : committed_horizon (mgr st) = next_xid (inner (mgr st));
  si_readers : ∀ i sn, readers st !! i = Some sn →
    snap_ok (inner (mgr st)) None sn ∧
    read_registrations (inner (mgr st)) !! i = Some (snap_xmin sn);
  si_commits : ∀ c call, commits st !! c = Some call → call_ok (inner (mgr st)) call;
}.

(** ** Snapshots *)

Lemma elem_of_active_xids s y : y ∈ active_xids (compute_snapshot s) ↔ y ∈ dom (active s).
Proof.
  unfold compute_snapshot. simpl. rewrite list_elem_of_fmap, elem_of_dom. split.
  - intros ([x t]&->&Hx%elem_of_map_to_list). by eexists.
  - intros [t Ht]. exists (y, t). split; [done|]. by apply elem_of_map_to_list.
Qed.

Lemma compute_snapshot_xmin s :
  (∀ y, y ∈ dom (active s) → y < next_xid s) →
  snap_xmin (compute_snapshot s) ≤ next_xid s ∧
  (∀ y, y ∈ dom (active s) → snap_xmin (compute_snapshot s) ≤ y).
Proof.
  intros Hlt. setoid_rewrite <- elem_of_active_xids. unfold compute_snapshot. simpl.
  destruct (min_list _) as [m|] eqn:E; simpl.
  - apply min_list_spec in E as [Hin Hle]. split; [|done].
    apply Z.lt_le_incl, Hlt. by apply elem_of_active_xids.
  - apply min_list_None in E. rewrite E. split; [done|]. by intros y ?%elem_of_nil.
Qed.

Lemma compute_snapshot_ok s o :
  (∀ y, y ∈ dom (active s) → y < next_xid s) → snap_ok s o (compute_snapshot s).
Proof.
  intros Hlt. destruct (compute_snapshot_xmin s Hlt) as [Hn Hx]. split_and!.
  - done.
  - done.
  - intros y Hy _. right. by apply elem_of_active_xids.
  - intros y Hy%elem_of_active_xids. auto.
Qed.

(** A fresh snapshot sees as committed exactly the past transactions that are
    not active. *)
Lemma compute_snapshot_committed s x :
  inner_inv s →
  is_committed_at_snapshot (compute_snapshot s) x = true ↔
  x ≠ 0 ∧ x < next_xid s ∧ x ∉ dom (active s).
Proof.
  intros Hinv. assert (∀ y, y ∈ dom (active s) → y < next_xid s) as Hlt.
  { intros y [t Ht]%elem_of_dom. destruct (ii_active _ Hinv y t Ht); lia. }
  destruct (compute_snapshot_xmin s Hlt) as [Hn Hx].
  rewrite is_committed_at_snapshot_spec. cbn [snap_xmax compute_snapshot].
  rewrite <- elem_of_active_xids. split.
  - intros (?&?&[Hlt'|Hna]); split_and!; try done.
    intros Hin%elem_of_active_xids%Hx. lia.
  - intros (?&?&Hna). split_and!; auto.
Qed.

(** ** Operations that change neither ids nor snapshots *)

Definition txn_same (t t' : Transaction K) : Prop :=
  t_xid t' = t_xid t ∧ isolation_level t' = isolation_level t ∧ snapshot t' = snapshot t.

Definition active_same (a a' : gmap Z (Transaction K)) : Prop :=
  ∀ x, option_Forall2 txn_same (a !! x) (a' !! x).

#[local] Instance txn_same_refl : Reflexive txn_same.
Proof. intros t. by split_and!. Qed.
#[local] Instance txn_same_trans : Transitive txn_same.
Proof. unfold txn_same. intros t1 t2 t3 (?&?&?) (?&?&?). split_and!; congruence. Qed.
#[local] Instance active_same_refl : Reflexive active_same.
Proof. intros a x. reflexivity. Qed.
#[local] Instance active_same_trans : Transitive active_same.
Proof. intros a b c H1 H2 x. etrans; [apply H1|apply H2]. Qed.

Lemma active_same_insert a x t t' :
  a !! x = Some t → txn_same t t' → active_same a (<[x := t']> a).
Proof.
  intros Hx Hs y. destruct (decide (x = y)) as [->|].
  - rewrite lookup_insert_eq, Hx. by constructor.
  - by rewrite lookup_insert_ne.
Qed.

Lemma active_same_alter_ssi f x a : active_same a (alter_ssi f x a).
Proof.
  intros y. unfold alter_ssi. destruct (decide (x = y)) as [->|].
  - rewrite lookup_alter_eq. destruct (a !! y); constructor. done.
  - by rewrite lookup_alter_ne.
Qed.

Lemma active_same_fold f l a : active_same a (foldl (λ a w, alter_ssi f w a) a l).
Proof.
  revert a. induction l as [|w l IH]; intros a; simpl; [done|].
  etrans; [|apply IH]. apply active_same_alter_ssi.
Qed.

Lemma active_same_dom a a' : active_same a a' → dom a' = dom a.
Proof.
  intros Hs. apply set_eq. intros x. rewrite !elem_of_dom. unfold is_Some.
  destruct (Hs x); naive_solver.
Qed.

(** [s'] differs from [s] in transaction fields other than ids and snapshots,
    and in SSI bookkeeping. *)
Definition inner_same s s' : Prop :=
  next_xid s' = next_xid s ∧ active_same (active s) (active s') ∧
  committed s' = committed s ∧ aborted s' = aborted s ∧
  read_registrations s' = read_registrations s ∧ next_reg_id s' = next_reg_id s.

#[local] Instance inner_same_refl : Reflexive inner_same.
Proof. intros s. split_and!; done. Qed.
#[local] Instance inner_same_trans : Transitive inner_same.
Proof.
  intros s1 s2 s3 (?&Ha1&?&?&?&?) (?&Ha2&?&?&?&?). split_and!; try congruence. by etrans.
Qed.

Lemma inner_same_active s a : active_same (active s) a → inner_same s (set_active s a).
Proof. intros. split_and!; done. Qed.

Lemma record_undo_same s xid a : inner_same s (record_undo s xid a).2.
Proof.
  unfold record_undo. destruct (active s !! xid) as [t|] eqn:E; [|done].
  apply inner_same_active. by eapply active_same_insert.
Qed.

Lemma ssi_note_read_same xid s r : inner_same s (ssi_note_read xid s r).
Proof.
  apply inner_same_active. etrans; [apply active_same_alter_ssi|apply active_same_fold].
Qed.

Lemma ssi_note_reads_same s xid rows : inner_same s (ssi_note_reads s xid rows).
Proof.
  unfold ssi_note_reads. destruct (has_ssi s xid); [|done].
  revert s. induction rows as [|r rows IH]; intros s; simpl; [done|].
  etrans; [apply ssi_note_read_same|apply IH].
Qed.

Lemma ssi_note_write_same s xid r : inner_same s (ssi_note_write s xid r).
Proof.
  unfold ssi_note_write. destruct (has_ssi s xid); [|done].
  apply inner_same_active. etrans; [apply active_same_alter_ssi|apply active_same_fold].
Qed.

Lemma record_delta_same s xid table d : inner_same s (record_row_count_delta s xid table d).2.
Proof.
  unfold record_row_count_delta. destruct (active s !! xid) as [t|] eqn:E; [|done].
  apply inner_same_active. by eapply active_same_insert.
Qed.

Lemma take_deltas_same s xid : inner_same s (take_row_count_deltas s xid).2.
Proof.
  unfold take_row_count_deltas. destruct (active s !! xid) as [t|] eqn:E; [|done].
  apply inner_same_active. by eapply active_same_insert.
Qed.

Lemma prune_same s : inner_same s (prune_committed_ser s).
Proof. unfold prune_committed_ser. destruct (existsb _ _); split_and!; done. Qed.

(** ** Preservation *)

Lemma snap_ok_mono s s' o sn :
  next_xid s ≤ next_xid s' →
  (∀ y, y ∈ dom (active s') → y ∈ dom (active s) ∨ next_xid s ≤ y) →
  snap_ok s o sn → snap_ok s' o sn.
Proof.
  intros Hn Hd (H1&H2&H3). split_and!; [lia|lia| |done].
  intros y Hy Hlt. destruct (Hd y Hy); [auto|lia].
Qed.

Lemma call_ok_mono s s' call :
  next_xid s ≤ next_xid s' →
  (∀ y, y ∈ dom (active s') → y ∈ dom (active s) ∨ next_xid s ≤ y) →
  call_ok s call → call_ok s' call.
Proof.
  intros Hn Hd. destruct call; simpl; [done|..]; (intros [? Hna]; split; [lia|]);
    (intros [?|?]%Hd; [done|lia]).
Qed.

Lemma inner_same_inv s s' : inner_same s s' → inner_inv s → inner_inv s'.
Proof.
  intros (Hn&Ha&Hc&Hab&Hr&Hi) Hinv. pose proof (active_same_dom _ _ Ha) as Hdom.
  split; rewrite ?Hn, ?Hc, ?Hab, ?Hr, ?Hi, ?Hdom; try apply Hinv.
  intros x t' Ht'. pose proof (Ha x) as Hx. rewrite Ht' in Hx.
  inversion Hx as [t t2 (E1&E2&E3) Ht|]; subst.
  destruct (ii_active _ Hinv x t) as (?&?&Hok); [done|]. rewrite E1, E3. split_and!; try lia.
  eapply snap_ok_mono; [..|done]; rewrite ?Hn, ?Hdom; auto with lia.
Qed.

Lemma with_inner_same_inv st s' :
  inner_same (inner (mgr st)) s' → sys_inv st → sys_inv (with_inner st s').
Proof.
  intros Hs [Hi Hh Hr Hc]. pose proof Hs as (Hn&Ha&_&_&Hreg&_).
  pose proof (active_same_dom _ _ Ha) as Hdom.
  split; simpl; [by eapply inner_same_inv|congruence| |].
  2: { intros c call Hcall. eapply call_ok_mono; [..|by eapply Hc]; rewrite ?Hn, ?Hdom; auto with lia. }
  intros i sn Hsn. destruct (Hr i sn Hsn) as [Hok ?]. rewrite Hreg. split; [|done].
  eapply snap_ok_mono; [..|done]; rewrite ?Hn, ?Hdom; auto with lia.
Qed.

(** Removing a finished transaction. *)
Lemma remove_inv s s' x t :
  inner_inv s → active s !! x = Some t →
  next_xid s' = next_xid s → active s' = base.delete x (active s) →
  read_registrations s' = read_registrations s → next_reg_id s' = next_reg_id s →
  (∀ y, y ∈ committed s' ∪ aborted s' → y ∈ committed s ∪ aborted s ∨ y = x) →
  inner_inv s'.
Proof.
  intros Hinv Ht Hn Ha Hr Hi Hd.
  split; rewrite ?Hn, ?Ha, ?Hr, ?Hi; try apply Hinv.
  - intros y u Hy. apply lookup_delete_Some in Hy as [Hne Hy].
    destruct (ii_active _ Hinv y u Hy) as (?&?&Hok). split_and!; try lia.
    eapply snap_ok_mono; [..|done]; rewrite ?Hn, ?Ha, ?dom_delete; [lia|set_solver].
  - intros y Hy. rewrite dom_delete.
    destruct (Hd y Hy) as [Hy' | ->].
    + destruct (ii_done _ Hinv y Hy'). set_solver.
    + destruct (ii_active _ Hinv x t Ht). set_solver.
Qed.

Lemma remove_sys_inv st s' w h l x t :
  sys_inv st → active (inner (mgr st)) !! x = Some t →
  next_xid s' = next_xid (inner (mgr st)) → active s' = base.delete x (active (inner (mgr st))) →
  read_registrations s' = read_registrations (inner (mgr st)) →
  next_reg_id s' = next_reg_id (inner (mgr st)) →
  (∀ y, y ∈ committed s' ∪ aborted s' →
    y ∈ committed (inner (mgr st)) ∪ aborted (inner (mgr st)) ∨ y = x) →
  sys_inv (mkSys (mkMgr s' (committed_horizon (mgr st))) w h l (readers st) (commits st)).
Proof.
  intros [Hinv Hh Hrd Hc] Ht Hn Ha Hr Hi Hd. split; simpl; [by eapply remove_inv|congruence| |].
  2: { intros c call Hcall. eapply call_ok_mono; [..|by eapply Hc]; rewrite ?Hn, ?Ha, ?dom_delete; [lia|set_solver]. }
  intros i sn Hsn. destruct (Hrd i sn Hsn) as [Hok ?]. rewrite Hr. split; [|done].
  eapply snap_ok_mono; [..|done]; rewrite ?Hn, ?Ha, ?dom_delete; [lia|set_solver].
Qed.

(** What [commit] does to the manager, on each of its outcomes. *)
Lemma commit_cases s xid w l r s' w' l' :
  commit s xid w l = (r, (s', w', l')) →
  (s' = s ∧ l' = l ∧ w' = w ∧
    ((ssi_is_pivot s xid = true ∧ r = Err (SerializationFailure xid)) ∨
     (ssi_is_pivot s xid = false ∧ active s !! xid = None ∧ r = Err (TxnNotActive xid)))) ∨
  (ssi_is_pivot s xid = false ∧ ∃ t, active s !! xid = Some t ∧
    ((∃ o, r = Ok o ∧ l' = release_all l xid ∧
        s' = prune_committed_ser
          (mkInner (next_xid s) (base.delete xid (active s)) ({[xid]} ∪ committed s) (aborted s)
             (read_registrations s) (next_reg_id s)
             (match ssi t with Some st => <[xid := st]> (committed_ser s)
              | None => committed_ser s end)) ∧
        ((undo_log t = [] ∧ o = None ∧ w' = w) ∨
         (∃ lsn, undo_log t ≠ [] ∧ o = Some lsn ∧
            wal_commit_user_txn w xid (last_lsn t) = (Ok lsn, w')))) ∨
     (s' = set_active s (base.delete xid (active s)) ∧ l' = l ∧ undo_log t ≠ [] ∧
        ((∃ e, r = Err e ∧ wal_commit_user_txn w xid (last_lsn t) = (Err e, w')) ∨
         (r = Panic ∧ wal_commit_user_txn w xid (last_lsn t) = (Panic, w')))))).
Proof.
  unfold commit, commit_check, commit_remove, commit_record, commit_publish.
  destruct (ssi_is_pivot s xid) eqn:Ep; [intros [= <- <- <- <-]; left; auto 10|].
  destruct (active s !! xid) as [t|] eqn:Et; [|intros [= <- <- <- <-]; left; auto 10].
  intros Hc. right. split; [done|]. exists t. split; [done|].
  destruct (undo_log t) as [|a u] eqn:Eu.
  - injection Hc as <- <- <- <-. left. eexists; split_and!; auto.
  - destruct (wal_commit_user_txn w xid (last_lsn t)) as [[lsn|e|] w1] eqn:Ew;
      injection Hc as <- <- <- <-.
    + left. eexists; split_and!; auto. right. exists lsn. by split_and!.
    + right. split_and!; eauto.
    + right. split_and!; eauto.
Qed.

Lemma abort_cases s xid h w l r s' h' w' l' :
  abort s xid h w l = (r, (s', h', w', l')) →
  (s' = s ∧ l' = l ∧ r ≠ Ok tt) ∨
  (∃ t w1, active s !! xid = Some t ∧ r = Ok tt ∧ l' = release_all l xid ∧
    undo_all xid h w (rev (undo_log t)) = (Ok tt, (h', w1)) ∧
    s' = prune_committed_ser
      (mkInner (next_xid s) (base.delete xid (active s)) (committed s) ({[xid]} ∪ aborted s)
         (read_registrations s) (next_reg_id s) (committed_ser s))).
Proof.
  unfold abort. destruct (active s !! xid) as [t|] eqn:Et;
    [|intros [= <- <- <- <- <-]; left; by split_and!].
  destruct (undo_all _ _ _ _) as [[[]|e|] [h1 w1]] eqn:Eu;
    [|intros [= <- <- <- <- <-]; left; by split_and!..].
  destruct (wal_abort_user_txn w1 xid (last_lsn t)) as [[lsn|e|] w2];
    intros [= <- <- <- <- <-]; [|left; by split_and!..].
  right. exists t, w1. by split_and!.
Qed.

Lemma prune_fields s :
  next_xid (prune_committed_ser s) = next_xid s ∧ active (prune_committed_ser s) = active s ∧
  committed (prune_committed_ser s) = committed s ∧ aborted (prune_committed_ser s) = aborted s ∧
  read_registrations (prune_committed_ser s) = read_registrations s ∧
  next_reg_id (prune_committed_ser s) = next_reg_id s.
Proof. unfold prune_committed_ser. destruct (existsb _ _); done. Qed.

Lemma begin_inv st iso : sys_inv st → sys_inv (exec (EBegin iso) st).
Proof.
  intros [Hinv Hh Hr Hc]. set (s := inner (mgr st)) in *. pose proof Hinv as [? Hact Hdone Hregs].
  assert (∀ s', next_xid s' = next_xid s + 1 →
    dom (active s') = dom (active s) ∨ dom (active s') = {[next_xid s]} ∪ dom (active s) →
    ∀ c call, commits st !! c = Some call → call_ok s' call) as Hcmono.
  { intros s' Hn Hd c call Hcall. eapply call_ok_mono; [..|by eapply Hc]; [lia|].
    intros y. destruct Hd as [-> | ->]; [by left|].
    intros [->%elem_of_singleton|?]%elem_of_union; [right; lia|by left]. }
  assert (∀ o sn s', next_xid s' = next_xid s + 1 →
    dom (active s') = dom (active s) ∨ dom (active s') = {[next_xid s]} ∪ dom (active s) →
    snap_ok s o sn → snap_ok s' o sn) as Hmono.
  { intros o sn s' Hn Hd. apply snap_ok_mono; [lia|]. intros y. destruct Hd as [-> | ->];
      [by left|]. intros [->%elem_of_singleton|?]%elem_of_union; [right; lia|by left]. }
  assert (∀ x, x ∈ dom (active s) → x < next_xid s) as Hlt.
  { intros x [t Ht]%elem_of_dom. destruct (Hact x t Ht). lia. }
  simpl. unfold begin. destruct (wal_begin_user_txn _ _) as [[lsn|e|] w]; simpl; fold s.
  2,3: split; simpl; [|lia| |by apply Hcmono; [|left]].
  2,4: split; simpl; [lia| |intros x Hx; destruct (Hdone x Hx); split; [lia|done]|
      intros i x Hi; destruct (Hregs i x Hi); lia];
    intros x t Ht; destruct (Hact x t Ht) as (?&?&?); split_and!; try lia; eapply Hmono; eauto.
  2,3: intros i sn Hsn; destruct (Hr i sn Hsn); split; [eapply Hmono; eauto|done].
  split; simpl; [|done| |by apply Hcmono; [|right; simpl; rewrite dom_insert_L]].
  2:{ intros i sn Hsn. destruct (Hr i sn Hsn). split; [|done].
      eapply Hmono; [done| |done]. right. simpl. by rewrite dom_insert_L. }
  split; simpl; [lia| | |intros i x Hi; destruct (Hregs i x Hi); lia].
  - intros x t Ht. apply lookup_insert_Some in Ht as [[<- <-]|[Hne Ht]].
    + simpl. split_and!; [lia|lia|done|].
      destruct (compute_snapshot_ok (mkInner (next_xid s + 1) (active s) (committed s) (aborted s)
        (read_registrations s) (next_reg_id s) (committed_ser s)) None) as (H1&H2&H3).
      { intros y Hy. specialize (Hlt y Hy). simpl. lia. }
      split_and!; [apply H1|apply H1| |done]. simpl. intros y Hy Hy'. rewrite dom_insert_L in Hy.
      apply elem_of_union in Hy as [->%elem_of_singleton|Hy]; [by left|right].
      by destruct (H2 y Hy Hy').
    + destruct (Hact x t Ht) as (?&?&?). split_and!; try lia.
      eapply Hmono; [done| |done]. right. simpl. by rewrite dom_insert_L.
  - intros x Hx. destruct (Hdone x Hx). rewrite dom_insert_L.
    split; [lia|]. rewrite not_elem_of_union, not_elem_of_singleton. split; [lia|done].
Qed.

Lemma statement_inv st xid : sys_inv st → sys_inv (exec (EStatement xid) st).
Proof.
  intros Hst. pose proof Hst as [Hinv Hh Hr Hc]. simpl. unfold snapshot_for_statement.
  destruct (active (inner (mgr st)) !! xid) as [t|] eqn:Et;
    [|by apply with_inner_same_inv].
  case_decide; [|by apply with_inner_same_inv].
  set (s := inner (mgr st)) in *. pose proof Hinv as [? Hact Hdone Hregs].
  assert (∀ x, x ∈ dom (active s) → x < next_xid s) as Hlt.
  { intros x [u Hu]%elem_of_dom. destruct (Hact x u Hu). lia. }
  assert (∀ a, dom (<[xid := a]> (active s)) = dom (active s)) as Hdom.
  { intros a. rewrite dom_insert_L. apply elem_of_dom_2 in Et. set_solver. }
  assert (∀ o sn a, snap_ok s o sn → snap_ok (set_active s (<[xid := a]> (active s))) o sn) as Hm.
  { intros o sn a. apply snap_ok_mono; simpl; [lia|]. rewrite Hdom. auto. }
  split; simpl; fold s; [|done| |].
  3: { intros c call Hcall. eapply call_ok_mono; [..|by eapply Hc]; simpl; [done|]. rewrite Hdom. auto. }
  - split; simpl; [done| |rewrite Hdom; done|done].
    intros x u Hu. apply lookup_insert_Some in Hu as [[<- <-]|[Hne Hu]].
    + destruct (Hact xid t Et) as (?&?&_). simpl. split_and!; try lia.
      apply Hm, compute_snapshot_ok. done.
    + destruct (Hact x u Hu) as (?&?&?). split_and!; try lia. by apply Hm.
  - intros i sn Hsn. destruct (Hr i sn Hsn). split; [by apply Hm|done].
Qed.

Lemma read_inv st : sys_inv st → sys_inv (exec ERead st).
Proof.
  intros [Hinv Hh Hr Hc]. simpl. set (s := inner (mgr st)) in *. pose proof Hinv as [? Hact Hdone Hregs].
  assert (∀ x, x ∈ dom (active s) → x < next_xid s) as Hlt.
  { intros x [u Hu]%elem_of_dom. destruct (Hact x u Hu). lia. }
  split; simpl; fold s; [|done| |exact Hc].
  - split; simpl; [done|exact Hact|done|].
    intros i x Hi. apply lookup_insert_Some in Hi as [[<- <-]|[Hne Hi]].
    + split; [lia|]. exact (proj1 (compute_snapshot_xmin s Hlt)).
    + destruct (Hregs i x Hi). lia.
  - intros i sn Hsn. apply lookup_insert_Some in Hsn as [[<- <-]|[Hne Hsn]].
    + rewrite lookup_insert_eq. split; [|done]. by apply (compute_snapshot_ok s).
    + rewrite lookup_insert_ne by done. apply Hr. done.
Qed.

Lemma read_done_inv st id : sys_inv st → sys_inv (exec (EReadDone id) st).
Proof.
  intros [Hinv Hh Hr Hc]. pose proof Hinv as [? Hact Hdone Hregs]. split; simpl; [|done| |exact Hc].
  - split; simpl; [done|exact Hact|done|].
    intros i x [_ Hi]%lookup_delete_Some. by apply Hregs.
  - intros i sn [Hne Hsn]%lookup_delete_Some. rewrite lookup_delete_ne by done.
    by apply Hr.
Qed.

(** What a section of a commit does to the system. *)
Lemma commit_step_cases c st :
  let s := inner (mgr st) in let st' := commit_step c st in
  committed_horizon (mgr st') = committed_horizon (mgr st) ∧ readers st' = readers st ∧
  ((inner (mgr st') = s ∧ (commits st' = base.delete c (commits st) ∨ commits st' = commits st ∨
      ∃ xid t, commits st !! c = Some (CRemoved xid t) ∧
        commits st' = <[c := CLogged xid t]> (commits st))) ∨
   (∃ xid t, active s !! xid = Some t ∧ inner (mgr st') = set_active s (base.delete xid (active s)) ∧
      commits st' = <[c := CRemoved xid t]> (commits st)) ∨
   (∃ xid t, commits st !! c = Some (CLogged xid t) ∧ inner (mgr st') = commit_publish s xid t ∧
      commits st' = <[c := CPublished xid]> (commits st))).
Proof.
  cbv zeta. unfold commit_step.
  destruct (commits st !! c) as [[xid|xid t|xid t|xid]|] eqn:Ec.
  - unfold commit_remove. destruct (active _ !! xid) as [t|] eqn:Et; simpl; eauto 15.
  - destruct (commit_record xid t (wal st)) as [[o|e|] w]; simpl; eauto 15.
  - simpl. eauto 15.
  - simpl. eauto 15.
  - eauto 15.
Qed.

Lemma commit_start_cases c xid st :
  commit_start c xid st = st ∨
  (ssi_is_pivot (inner (mgr st)) xid = false ∧ commits st !! c = None ∧
   commit_start c xid st = with_commits st (<[c := CChecked xid]> (commits st))).
Proof.
  unfold commit_start, commit_check. destruct (commits st !! c); [by left|].
  destruct (ssi_is_pivot _ _); auto.
Qed.

Lemma commit_start_inv c xid st : sys_inv st → sys_inv (commit_start c xid st).
Proof.
  intros Hst. destruct (commit_start_cases c xid st) as [-> |(_&_&->)]; [done|].
  destruct Hst as [Hi Hh Hr Hc]. split; simpl; [done..|].
  intros c' call [[<- <-]|[_ Hcall]]%lookup_insert_Some; [done|eauto].
Qed.

Lemma publish_inv s xid t : inner_inv s → 0 < xid < next_xid s → xid ∉ dom (active s) →
  inner_inv (commit_publish s xid t).
Proof.
  intros Hi Hx Hna. unfold commit_publish. eapply inner_same_inv; [apply prune_same|].
  destruct Hi as [H1 H2 H3 H4]. split; simpl; [done..| |done]. set_solver.
Qed.

Lemma publish_fields s xid t :
  next_xid (commit_publish s xid t) = next_xid s ∧ active (commit_publish s xid t) = active s ∧
  read_registrations (commit_publish s xid t) = read_registrations s.
Proof. unfold commit_publish, prune_committed_ser. by destruct (existsb _ _). Qed.

Lemma commit_step_inv c st : sys_inv st → sys_inv (commit_step c st).
Proof.
  intros Hst. destruct (commit_step_cases c st)
    as (Eh&Er&[(Ei&Ec)|[(xid&t&Ht&Ei&Ec)|(xid&t&Hcall&Ei&Ec)]]).
  - destruct Hst as [Hi Hh Hr Hc]. split; rewrite ?Ei, ?Eh, ?Er; [done..|].
    intros c' call. destruct Ec as [-> |[-> |(xid&t&Hcall&->)]].
    + intros [_ ?]%lookup_delete_Some. eauto.
    + eauto.
    + intros [[<- <-]|[_ ?]]%lookup_insert_Some; [|eauto]. by apply (Hc c) in Hcall.
  - pose proof Hst as [Hi Hh Hr Hc].
    destruct (remove_sys_inv st (set_active (inner (mgr st)) (base.delete xid (active (inner (mgr st)))))
      (wal st) (store st) (lk st) xid t Hst Ht) as [Hi' Hh' Hr' Hc']; simpl; try done; [set_solver|].
    simpl in *. split; rewrite ?Ei, ?Eh, ?Er; [done..|]. rewrite Ec.
    intros c' call [[<- <-]|[_ ?]]%lookup_insert_Some; [|eauto]. simpl.
    destruct (ii_active _ Hi xid t Ht) as (?&_). rewrite dom_delete_L. split; [done|set_solver].
  - destruct Hst as [Hi Hh Hr Hc]. pose proof (Hc _ _ Hcall) as [Hx Hna].
    destruct (publish_fields (inner (mgr st)) xid t) as (E1&E2&E3).
    assert (∀ o sn, snap_ok (inner (mgr st)) o sn → snap_ok (inner (mgr (commit_step c st))) o sn) as Hm.
    { intros o sn. apply snap_ok_mono; rewrite Ei, ?E1, ?E2; auto with lia. }
    split; rewrite ?Ei, ?Eh, ?Er; [by apply publish_inv|congruence| |].
    + intros i sn Hsn. rewrite E3. destruct (Hr i sn Hsn) as [Hok ?]. split; [|done].
      rewrite <- Ei. by apply Hm.
    + rewrite Ec. intros c' call Hc'. apply (call_ok_mono (inner (mgr st))); rewrite ?E1, ?E2; [lia|auto|].
      apply lookup_insert_Some in Hc' as [[<- <-]|[_ ?]]; [done|eauto].
Qed.

Lemma abort_inv st xid : sys_inv st → sys_inv (exec (EAbort xid) st).
Proof.
  intros Hst. simpl. destruct (abort _ _ _ _ _) as [r [[[s' h'] w'] l']] eqn:E.
  apply abort_cases in E as [(->&->&_)|(t&w1&Ht&_&->&_&->)].
  - destruct Hst. by split.
  - edestruct prune_fields as (E1&E2&E3&E4&E5&E6).
    eapply remove_sys_inv; [done|done|rewrite ?E1..|]; simpl; try done.
    rewrite E3, E4. simpl. set_solver.
Qed.

Lemma exec_inv e st : sys_inv st → sys_inv (exec e st).
Proof.
  intros Hst. destruct e.
  - by apply begin_inv.
  - by apply statement_inv.
  - by apply read_inv.
  - by apply read_done_inv.
  - apply with_inner_same_inv; [apply record_undo_same|done].
  - apply with_inner_same_inv; [apply ssi_note_reads_same|done].
  - apply with_inner_same_inv; [apply ssi_note_write_same|done].
  - apply with_inner_same_inv; [apply record_delta_same|done].
  - apply with_inner_same_inv; [apply take_deltas_same|done].
  - by apply commit_start_inv.
  - by apply commit_step_inv.
  - by apply abort_inv.
Qed.

Lemma init_inv st : sys_init st → sys_inv st.
Proof.
  intros (n&Hn&Hm&Hr&Hc). split; rewrite Hm, ?Hr, ?Hc; [|done| |].
  - split; simpl; [done|intros x t Hx; by rewrite lookup_empty in Hx|set_solver|].
    intros i x Hx. by rewrite lookup_empty in Hx.
  - intros i sn Hx. by rewrite lookup_empty in Hx.
  - intros c call Hx. by rewrite lookup_empty in Hx.
Qed.

Lemma steps_inv st st' : sys_inv st → rtc sys_step st st' → sys_inv st'.
Proof. intros Hst. induction 1 as [|? ? ? [e ->]]; auto using exec_inv. Qed.

Lemma reachable_inv st : sys_reachable st → sys_inv st.
Proof. intros (st0&Hi%init_inv&Hs). by eapply steps_inv. Qed.

(** Ids are never reused: a transaction that is not active and below [next_xid]
    stays so. *)
Lemma exec_active e st y :
  y ∈ dom (active (inner (mgr (exec e st)))) →
  y ∈ dom (active (inner (mgr st))) ∨ next_xid (inner (mgr st)) ≤ y.
Proof.
  assert (∀ s s', inner_same s s' → y ∈ dom (active s') → y ∈ dom (active s)) as Hsame.
  { intros s s' (_&Ha&_). by rewrite (active_same_dom _ _ Ha). }
  destruct e; simpl.
  - unfold begin. destruct (wal_begin_user_txn _ _) as [[]]; simpl; rewrite ?dom_insert_L; [|auto..].
    intros [->%elem_of_singleton|]%elem_of_union; auto with lia.
  - unfold snapshot_for_statement. destruct (active _ !! xid) as [t|] eqn:E; [|auto].
    case_decide; [|auto]. simpl. rewrite dom_insert_L. apply elem_of_dom_2 in E. set_solver.
  - auto.
  - auto.
  - intros Hy. left. by eapply Hsame; [apply record_undo_same|].
  - intros Hy. left. by eapply Hsame; [apply ssi_note_reads_same|].
  - intros Hy. left. by eapply Hsame; [apply ssi_note_write_same|].
  - intros Hy. left. by eapply Hsame; [apply record_delta_same|].
  - intros Hy. left. by eapply Hsame; [apply take_deltas_same|].
  - destruct (commit_start_cases c xid st) as [-> |(_&_&->)]; auto.
  - destruct (commit_step_cases c st) as (_&_&[(->&_)|[(xid&t&_&->&_)|(xid&t&_&->&_)]]); [auto|..].
    + simpl. rewrite dom_delete_L. set_solver.
    + rewrite (proj1 (proj2 (publish_fields _ _ _))). auto.
  - destruct (abort _ _ _ _ _) as [r [[[s' h'] w'] l']] eqn:E.
    apply abort_cases in E as [(->&_)|(t&w1&_&_&_&_&->)]; simpl;
      rewrite ?(proj1 (proj2 (prune_fields _))); simpl; rewrite ?dom_delete_L; set_solver.
Qed.

Lemma exec_next e st : next_xid (inner (mgr st)) ≤ next_xid (inner (mgr (exec e st))).
Proof.
  assert (∀ s s', inner_same s s' → next_xid s ≤ next_xid s') as Hsame.
  { intros s s' (->&_). done. }
  destruct e; simpl.
  - unfold begin. destruct (wal_begin_user_txn _ _) as [[]]; simpl; lia.
  - unfold snapshot_for_statement. destruct (active _ !! xid); [|done]. by case_decide.
  - done.
  - done.
  - apply Hsame, record_undo_same.
  - apply Hsame, ssi_note_reads_same.
  - apply Hsame, ssi_note_write_same.
  - apply Hsame, record_delta_same.
  - apply Hsame, take_deltas_same.
  - by destruct (commit_start_cases c xid st) as [-> |(_&_&->)].
  - destruct (commit_step_cases c st) as (_&_&[(->&_)|[(xid&t&_&->&_)|(xid&t&_&->&_)]]); [done..|].
    by rewrite (proj1 (publish_fields _ _ _)).
  - destruct (abort _ _ _ _ _) as [r [[[s' h'] w'] l']] eqn:E.
    apply abort_cases in E as [(->&_)|(t&w1&_&_&_&_&->)]; simpl;
      rewrite ?(proj1 (prune_fields _)); done.
Qed.

Lemma steps_finished st st' x :
  rtc sys_step st st' →
  x < next_xid (inner (mgr st)) → x ∉ dom (active (inner (mgr st))) →
  x < next_xid (inner (mgr st')) ∧ x ∉ dom (active (inner (mgr st'))).
Proof.
  induction 1 as [|st1 st2 st3 [e ->] _ IH]; intros Hlt Hna; [done|].
  apply IH.
  - pose proof (exec_next e st1). lia.
  - intros [|]%exec_active; [done|lia].
Qed.

Lemma horizon_below st :
  sys_inv st →
  let h := vacuum_horizon (inner (mgr st)) in
  h ≤ next_xid (inner (mgr st)) ∧
  (∀ x t, active (inner (mgr st)) !! x = Some t → h ≤ snap_xmin (snapshot t)) ∧
  (∀ i sn, readers st !! i = Some sn → h ≤ snap_xmin sn).
Proof.
  intros [Hinv _ Hr _]. cbv zeta. set (s := inner (mgr st)) in *. unfold vacuum_horizon.
  set (l := _ ++ _).
  assert (∀ x t, active s !! x = Some t → snap_xmin (snapshot t) ∈ l) as Hw.
  { intros x t Ht. apply elem_of_app. left. apply list_elem_of_fmap. exists (x, t).
    split; [done|]. by apply elem_of_map_to_list. }
  assert (∀ i x, read_registrations s !! i = Some x → x ∈ l) as Hrd.
  { intros i x Hx. apply elem_of_app. right. apply list_elem_of_fmap. exists (i, x).
    split; [done|]. by apply elem_of_map_to_list. }
  assert (∀ x, x ∈ l → x ≤ next_xid s) as Hle.
  { intros x [([y t]&->&Ht%elem_of_map_to_list)%list_elem_of_fmap|
      ([i y]&->&Hi%elem_of_map_to_list)%list_elem_of_fmap]%elem_of_app; simpl in *.
    - destruct (ii_active _ Hinv y t Ht) as (_&_&[? ?]&_). lia.
    - by destruct (ii_regs _ Hinv i y Hi). }
  destruct (min_list l) as [m|] eqn:E; simpl.
  - apply min_list_spec in E as [Hin Hmin]. split_and!; eauto.
    intros i sn Hsn. apply Hmin. eapply Hrd. by apply Hr.
  - apply min_list_None in E. split_and!; [done|..].
    + intros x t Ht. apply Hw in Ht. rewrite E in Ht. by apply elem_of_nil in Ht.
    + intros i sn Hsn. destruct (Hr i sn Hsn) as [_ Hx%Hrd]. rewrite E in Hx.
      by apply elem_of_nil in Hx.
Qed.

(** ** Claims: snapshots and vacuum *)

(** C25: In every reachable state a fresh snapshot sees as committed exactly the
    transactions that began and are no longer active, and a transaction seen as
    committed once is seen as committed by every later snapshot. *)
Theorem fresh_snapshot_exact st st' x :
  sys_reachable st → rtc sys_step st st' → 0 < x →
  (is_committed_at_snapshot (compute_snapshot (inner (mgr st))) x = true ↔
    x < next_xid (inner (mgr st)) ∧ x ∉ dom (active (inner (mgr st)))) ∧
  (is_committed_at_snapshot (compute_snapshot (inner (mgr st))) x = true →
   is_committed_at_snapshot (compute_snapshot (inner (mgr st'))) x = true).
Proof.
  intros Hst%reachable_inv Hsteps Hx. pose proof (steps_inv _ _ Hst Hsteps) as Hst'.
  rewrite !compute_snapshot_committed by (apply si_inner; done). split; [naive_solver lia|].
  intros (_&Hlt&Hna). destruct (steps_finished _ _ _ Hsteps Hlt Hna). auto with lia.
Qed.

(** C10: Vacuum is safe for finished deleters: a version whose [xmax] is below the
    vacuum horizon and belongs to a transaction that is no longer active is
    invisible to the snapshot of every live transaction, to the snapshot of every
    registered reader, and to every snapshot, full or lightweight, taken in any
    later state. *)
Theorem vacuum_safe st st' xmin xmax self :
  sys_reachable st → rtc sys_step st st' →
  xmax ∉ dom (active (inner (mgr st))) →
  is_reclaimable xmax (vacuum_horizon (inner (mgr st))) = true →
  (∀ y t, active (inner (mgr st)) !! y = Some t → is_visible xmin xmax (snapshot t) self = false) ∧
  (∀ i sn, readers st !! i = Some sn → is_visible xmin xmax sn self = false) ∧
  is_visible xmin xmax (compute_snapshot (inner (mgr st'))) self = false ∧
  is_visible xmin xmax (read_snapshot_lightweight (mgr st')).1 self = false.
Proof.
  intros Hst%reachable_inv Hsteps Hna Hrec. pose proof (steps_inv _ _ Hst Hsteps) as Hst'.
  destruct (horizon_below st Hst) as (Hn&Ha&Hr).
  pose proof (proj1 (is_reclaimable_spec _ _) Hrec) as [H0 Hlt].
  destruct (steps_finished _ _ xmax Hsteps) as [Hlt' Hna']; [lia|done|].
  split_and!.
  - intros y t Ht. destruct (ii_active _ (si_inner _ Hst) y t Ht) as (_&_&[? ?]&_).
    eapply reclaimable_invisible; [done|eauto|lia].
  - intros i sn Hsn. destruct (si_readers _ Hst i sn Hsn) as [([? ?]&_) _].
    eapply reclaimable_invisible; [done|eauto|lia].
  - apply invisible_deleter_committed; [done|].
    apply compute_snapshot_committed; [apply si_inner; done|]. auto with lia.
  - apply invisible_deleter_committed; [done|]. apply is_committed_at_snapshot_spec. simpl.
    rewrite (si_horizon _ Hst'). split_and!; [done|lia|]. right. apply not_elem_of_nil.
Qed.

(** A property of the transaction with id [x] is kept by every operation if it
    does not depend on the bookkeeping fields and survives the refresh of a READ
    COMMITTED snapshot. *)
Lemma exec_keeps (P : Transaction K → Prop) x e st :
  (∀ t t', txn_same t t' → P t → P t') →
  (∀ t sn, isolation_level t = ReadCommitted → P t → P (set_txn_snapshot t sn)) →
  x < next_xid (inner (mgr st)) →
  (∀ t, active (inner (mgr st)) !! x = Some t → P t) →
  ∀ t, active (inner (mgr (exec e st))) !! x = Some t → P t.
Proof.
  intros HP1 HP2 Hlt Hk.
  assert (∀ s', inner_same (inner (mgr st)) s' → ∀ t, active s' !! x = Some t → P t) as Hsame.
  { intros s' (_&Ha&_) t Ht. specialize (Ha x). rewrite Ht in Ha.
    inversion Ha as [t0 ? Heq Ht0|]; subst. eapply HP1; [done|]. by apply Hk. }
  intros t. destruct e; simpl.
  - unfold begin. destruct (wal_begin_user_txn _ _) as [[]]; simpl; [|by apply Hk..].
    rewrite lookup_insert_ne by lia. apply Hk.
  - unfold snapshot_for_statement. destruct (active _ !! xid) as [u|] eqn:E; [|by apply Hk].
    case_decide as Hd; [|by apply Hk]. simpl. destruct (decide (xid = x)) as [->|].
    + rewrite lookup_insert_eq. intros [= <-]. auto.
    + rewrite lookup_insert_ne by done. apply Hk.
  - apply Hk.
  - apply Hk.
  - apply Hsame, record_undo_same.
  - apply Hsame, ssi_note_reads_same.
  - apply Hsame, ssi_note_write_same.
  - apply Hsame, record_delta_same.
  - apply Hsame, take_deltas_same.
  - destruct (commit_start_cases c xid st) as [-> |(_&_&->)]; apply Hk.
  - destruct (commit_step_cases c st) as (_&_&[(->&_)|[(xid&u&_&->&_)|(xid&u&_&->&_)]]); [apply Hk|..].
    + simpl. intros [_ ?]%lookup_delete_Some. auto.
    + rewrite (proj1 (proj2 (publish_fields _ _ _))). apply Hk.
  - destruct (abort _ _ _ _ _) as [r [[[s' h'] w'] l']] eqn:E.
    apply abort_cases in E as [(->&_)|(u&w1&_&_&_&_&->)]; simpl;
      rewrite ?(proj1 (proj2 (prune_fields _))); simpl;
      [apply Hk|intros [_ ?]%lookup_delete_Some; auto].
Qed.

Lemma steps_keep (P : Transaction K → Prop) x st st' :
  (∀ t t', txn_same t t' → P t → P t') →
  (∀ t sn, isolation_level t = ReadCommitted → P t → P (set_txn_snapshot t sn)) →
  rtc sys_step st st' → x < next_xid (inner (mgr st)) →
  (∀ t, active (inner (mgr st)) !! x = Some t → P t) →
  ∀ t, active (inner (mgr st')) !! x = Some t → P t.
Proof.
  intros HP1 HP2. induction 1 as [|s1 s2 s3 [e ->] _ IH]; intros Hlt Hk; [done|]. apply IH.
  - pose proof (exec_next e s1). lia.
  - by apply exec_keeps.
Qed.

(** Snapshot stability: as long as a REPEATABLE READ or SERIALIZABLE
    transaction is active, whatever the other transactions and readers do, each of
    its statements reads under the snapshot taken at its begin; a READ COMMITTED
    statement reads under a fresh one. *)
Theorem statement_snapshot_stable st st' x t t' :
  sys_reachable st → rtc sys_step st st' →
  active (inner (mgr st)) !! x = Some t → active (inner (mgr st')) !! x = Some t' →
  (snapshot_for_statement (inner (mgr st')) x).1 =
    Ok (if decide (isolation_level t = ReadCommitted) then compute_snapshot (inner (mgr st'))
        else snapshot t).
Proof.
  intros Hst%reachable_inv Hsteps Ht Ht'.
  assert (isolation_level t' = isolation_level t ∧
    (isolation_level t ≠ ReadCommitted → snapshot t' = snapshot t)) as [Hi Hs].
  { apply (steps_keep (λ t', isolation_level t' = isolation_level t ∧
      (isolation_level t ≠ ReadCommitted → snapshot t' = snapshot t)) x st st'); try done.
    - intros u u' (_&->&->). done.
    - intros u sn Hu [Hi _]. simpl. split; [done|]. congruence.
    - destruct (ii_active _ (si_inner _ Hst) x t Ht). lia.
    - intros u Hu. simplify_eq. done. }
  unfold snapshot_for_statement. rewrite Ht', Hi. case_decide; [done|]. simpl. by rewrite Hs.
Qed.

(** The horizon does not protect an active REPEATABLE READ or SERIALIZABLE
    transaction from vacuum.  Its begin-time snapshot is computed before it is
    entered among the active ones, so when nothing else is active its [xmin] is one
    past its own id and that becomes the horizon: a row it has deleted, and may yet
    roll back, counts as reclaimable while fresh snapshots still see it. *)
Theorem horizon_passes_active_deleter st iso lsn w xmin :
  sys_init st → iso ≠ ReadCommitted →
  wal_begin_user_txn (wal st) (next_xid (inner (mgr st))) = (Ok lsn, w) →
  0 < xmin < next_xid (inner (mgr st)) →
  let x := next_xid (inner (mgr st)) in
  let s' := inner (mgr (exec (EBegin iso) st)) in
  is_active s' x = true ∧ vacuum_horizon s' = x + 1 ∧
  is_reclaimable x (vacuum_horizon s') = true ∧
  is_visible xmin x (compute_snapshot s') (x + 1) = true.
Proof.
  intros (n&Hn&Hm&_) Hiso Hw Hx. cbv zeta. rewrite Hm in *. simpl in Hw, Hx.
  cbn [exec]. unfold begin, set_active. rewrite Hm. cbn [inner with_next_xid next_xid]. rewrite Hw.
  cbn [mgr inner active next_xid committed aborted read_registrations next_reg_id
    committed_ser].
  set (t := mkTransaction _ _ _ _ _ _ _ _ _).
  assert (vacuum_horizon (mkInner (n + 1) (<[n:=t]> ∅) ∅ ∅ ∅ 1 ∅) = n + 1) as Hh.
  { unfold vacuum_horizon. simpl. rewrite insert_empty, map_to_list_singleton. done. }
  split_and!; [|done| |].
  - apply bool_decide_eq_true. simpl. rewrite dom_insert_L. set_solver.
  - rewrite Hh. apply is_reclaimable_spec. lia.
  - apply is_visible_spec. unfold compute_snapshot. simpl.
    rewrite insert_empty, map_to_list_singleton. simpl. split.
    + right. apply is_committed_at_snapshot_spec. simpl. lia.
    + right. split; [lia|]. apply not_true_iff_false. rewrite is_committed_at_snapshot_spec.
      simpl. rewrite list_elem_of_singleton. lia.
Qed.

(** ** Claims: commit and abort *)

(** The sections of a call run one after the other are [commit]. *)
Lemma commit_uninterrupted c xid st : commits st !! c = None →
  let '(_, (s, w, l)) := commit (inner (mgr st)) xid (wal st) (lk st) in
  exec_all (commit_events c xid) st =
    mkSys (mkMgr s (committed_horizon (mgr st))) w (store st) l (readers st) (commits st).
Proof.
  intros Hc. destruct st as [[s h] w hp l rd cs]. cbn [commits mgr inner wal lk] in *.
  assert (∀ m w hp l rd cs, cs !! c = None →
    commit_step c (mkSys m w hp l rd cs) = mkSys m w hp l rd cs) as Hidle.
  { intros ?????? E. unfold commit_step. cbn [commits]. by rewrite E. }
  unfold commit, exec_all, commit_events. cbn [foldl replicate exec]. unfold commit_start.
  cbn [commits mgr inner]. rewrite Hc. destruct (commit_check s xid) as [[]|e|].
  2,3: by do 4 rewrite Hidle by done.
  unfold with_commits. cbn [mgr wal store lk readers].
  unfold commit_step at 4. cbn [commits mgr inner]. rewrite lookup_insert_eq.
  destruct (commit_remove s xid) as [[t|e|] s1];
    unfold with_commits, with_inner; cbn [mgr wal store lk readers committed_horizon commits].
  2,3: rewrite delete_insert_id by done; by do 3 rewrite Hidle by done.
  unfold commit_step at 3. cbn [commits mgr wal store lk readers]. rewrite lookup_insert_eq.
  destruct (commit_record xid t w) as [[o|e|] w1].
  2,3: rewrite insert_insert_eq, delete_insert_id by done; by do 2 rewrite Hidle by done.
  unfold commit_step at 2. cbn [commits mgr inner]. rewrite lookup_insert_eq.
  unfold commit_step, with_commits, with_inner.
  cbn [commits mgr inner wal store lk readers committed_horizon].
  rewrite lookup_insert_eq. by rewrite !insert_insert_eq, delete_insert_id.
Qed.

Lemma commit_inner_inv s xid w l r s' w' l' :
  inner_inv s → commit s xid w l = (r, (s', w', l')) → inner_inv s'.
Proof.
  intros Hi E. apply commit_cases in E as [(->&_)|(_&t&Ht&[(o&_&_&->&_)|(->&_)])]; [done|..].
  - edestruct prune_fields as (E1&E2&E3&E4&E5&E6).
    eapply remove_inv; [done|done|rewrite ?E1..|]; simpl; try done. rewrite E3, E4. simpl. set_solver.
  - eapply remove_inv; simpl; try done. set_solver.
Qed.

(** Committing an active transaction without interruption: a serializable pivot is refused with
    [SerializationFailure] and nothing changes; otherwise, when [commit] succeeds,
    the transaction leaves the active set and is the only one to do so, it is
    recorded as committed, every snapshot taken from then on sees its writes, its
    locks are released, and a commit record was written exactly when it had
    changed something. *)
Theorem commit_outcome st xid t r s' w' l' :
  sys_reachable st → active (inner (mgr st)) !! xid = Some t →
  commit (inner (mgr st)) xid (wal st) (lk st) = (r, (s', w', l')) →
  (ssi_is_pivot (inner (mgr st)) xid = true →
    r = Err (SerializationFailure xid) ∧ s' = inner (mgr st) ∧ w' = wal st ∧ l' = lk st) ∧
  (∀ o, r = Ok o →
    ssi_is_pivot (inner (mgr st)) xid = false ∧
    active s' = base.delete xid (active (inner (mgr st))) ∧
    is_committed s' xid = true ∧ is_aborted s' xid = false ∧
    is_committed_at_snapshot (compute_snapshot s') xid = true ∧
    l' = release_all (lk st) xid ∧ (o = None ↔ undo_log t = [])).
Proof.
  intros Hst Ht E. apply reachable_inv in Hst as Hinv.
  pose proof (commit_inner_inv _ _ _ _ _ _ _ _ (si_inner _ Hinv) E) as Hinv'.
  apply commit_cases in E as [(->&->&->&Hc)|(Hp&u&Hu&Hc)].
  { split; [by destruct Hc as [[_ ->]|[Hf _]]; [|congruence]|].
    intros o ->. by destruct Hc as [[_ ?]|[_ [_ ?]]]. }
  split; [congruence|]. intros o ->. simplify_eq.
  destruct Hc as [(o'&[= <-]&->&Hs&Ho)|(_&_&_&[(e&?&_)|[? _]])]; [|done..].
  destruct (prune_fields (mkInner (next_xid (inner (mgr st)))
    (base.delete xid (active (inner (mgr st)))) ({[xid]} ∪ committed (inner (mgr st)))
    (aborted (inner (mgr st))) (read_registrations (inner (mgr st)))
    (next_reg_id (inner (mgr st)))
    (match ssi t with Some st1 => <[xid := st1]> (committed_ser (inner (mgr st)))
     | None => committed_ser (inner (mgr st)) end))) as (E1&E2&E3&E4&_&_).
  rewrite <- Hs in E1, E2, E3, E4. simpl in *.
  destruct (ii_active _ (si_inner _ Hinv) xid t Ht) as ([H0 Hlt]&_).
  split_and!; try done.
  - apply bool_decide_eq_true. rewrite E3. set_solver.
  - apply bool_decide_eq_false. rewrite E4. intros Ha.
    destruct (ii_done _ (si_inner _ Hinv) xid) as [_ Hn]; [set_solver|].
    apply Hn. by eapply elem_of_dom_2.
  - apply compute_snapshot_committed; [done|].
    rewrite E1, E2, dom_delete_L. split_and!; [lia|done|set_solver].
  - destruct Ho as [(?&->&_)|(lsn&?&->&_)]; naive_solver.
Qed.

(** A commit whose log write fails is not rolled back: [commit] has already
    taken the transaction out of the active set, so it is neither active nor
    committed, every later snapshot sees its writes as committed, a rollback is
    refused because it is no longer active, and its locks stay held. *)
Theorem failed_commit_visible st c xid t e w' st' :
  let failed := exec_all (commit_events c xid) st in
  sys_reachable st → active (inner (mgr st)) !! xid = Some t → commits st !! c = None →
  ssi_is_pivot (inner (mgr st)) xid = false → undo_log t ≠ [] →
  wal_commit_user_txn (wal st) xid (last_lsn t) = (Err e, w') →
  rtc sys_step failed st' →
  (commit (inner (mgr st)) xid (wal st) (lk st)).1 = Err e ∧ lk failed = lk st ∧
  is_committed (inner (mgr failed)) xid = false ∧
  is_committed_at_snapshot (compute_snapshot (inner (mgr st'))) xid = true ∧
  (abort (inner (mgr st')) xid (store st') (wal st') (lk st')).1 = Err (TxnNotActive xid).
Proof.
  cbv zeta. intros Hst%reachable_inv Ht Hcall Hp Hu Hw Hsteps.
  assert (commit (inner (mgr st)) xid (wal st) (lk st) =
    (Err e, (set_active (inner (mgr st)) (base.delete xid (active (inner (mgr st)))), w', lk st)))
    as Ec.
  { unfold commit, commit_check, commit_remove, commit_record. rewrite Hp, Ht.
    destruct (undo_log t); [done|]. by rewrite Hw. }
  pose proof (commit_uninterrupted c xid st Hcall) as Ex. rewrite Ec in Ex.
  assert (sys_inv (exec_all (commit_events c xid) st)) as Hinv1.
  { unfold exec_all, commit_events. cbn [foldl replicate]. by repeat apply exec_inv. }
  pose proof (steps_inv _ _ Hinv1 Hsteps) as Hinv'. rewrite Ex, Ec in *. cbn [fst mgr inner lk] in *.
  destruct (ii_active _ (si_inner _ Hst) xid t Ht) as ([H0 Hlt]&_).
  destruct (steps_finished _ _ xid Hsteps) as [Hlt' Hna]; simpl; [lia|rewrite dom_delete_L; set_solver|].
  split_and!; [done|done| | |].
  - apply bool_decide_eq_false. simpl. intros Hc.
    destruct (ii_done _ (si_inner _ Hst) xid) as [_ Hn]; [set_solver|].
    apply Hn. by eapply elem_of_dom_2.
  - apply compute_snapshot_committed; [apply (si_inner _ Hinv')|]. auto with lia.
  - unfold abort. rewrite not_elem_of_dom in Hna. by rewrite Hna.
Qed.

(** C32: Rollback is all or nothing for the other transactions: when [abort]
    returns an error the manager and the lock table are unchanged, so the
    transaction is still active, invisible and holding its locks; when it returns
    success every recorded change was undone, the last one first, and only then
    the transaction left the active set, was recorded as aborted and released its
    locks. *)
Theorem abort_outcome st xid t r s' h' w' l' :
  sys_reachable st → active (inner (mgr st)) !! xid = Some t →
  abort (inner (mgr st)) xid (store st) (wal st) (lk st) = (r, (s', h', w', l')) →
  (r ≠ Ok tt ∧ s' = inner (mgr st) ∧ l' = lk st ∧
    is_committed_at_snapshot (compute_snapshot s') xid = false) ∨
  (r = Ok tt ∧ (∃ w1, undo_all xid (store st) (wal st) (rev (undo_log t)) = (Ok tt, (h', w1))) ∧
    active s' = base.delete xid (active (inner (mgr st))) ∧
    is_aborted s' xid = true ∧ is_committed s' xid = false ∧ l' = release_all (lk st) xid).
Proof.
  intros Hst%reachable_inv Ht E.
  apply abort_cases in E as [(->&->&Hr)|(u&w1&Hu&->&->&Hun&->)].
  - left. split_and!; try done. apply not_true_iff_false.
    rewrite compute_snapshot_committed by (apply si_inner; done).
    intros (_&_&Hn). apply Hn. by eapply elem_of_dom_2.
  - right. simplify_eq. destruct (prune_fields (mkInner (next_xid (inner (mgr st)))
      (base.delete xid (active (inner (mgr st)))) (committed (inner (mgr st)))
      ({[xid]} ∪ aborted (inner (mgr st))) (read_registrations (inner (mgr st)))
      (next_reg_id (inner (mgr st))) (committed_ser (inner (mgr st))))) as (E1&E2&E3&E4&_&_).
    split_and!; try done; [by exists w1| |].
    + apply bool_decide_eq_true. rewrite E4. simpl. set_solver.
    + apply bool_decide_eq_false. rewrite E3. simpl. intros Hc.
      destruct (ii_done _ (si_inner _ Hst) xid) as [_ Hn]; [set_solver|].
      apply Hn. by eapply elem_of_dom_2.
Qed.

End props.

(** ** Witnesses *)

(** A log that writes every record but, when [false], no commit record. *)
Definition w_wal : TxnWal bool :=
  Build_TxnWal bool
    (λ w _, (Ok 1, w))
    (λ w _ _, (if w then Ok 2 else Err Io, w))
    (λ w _ _, (Ok 3, w)).

(** A store that records which slots were undone, the last one first. *)
Definition w_undo : TxnUndo unit bool (list Z) :=
  Build_TxnUndo unit bool (list Z)
    (λ h w _ s _, (Ok tt, (s :: h, w)))
    (λ h w _ s, (Ok tt, (s :: h, w)))
    (λ h w _ ss, (Ok tt, (ss ++ h, w)))
    (λ h w _ _ _ _ _, (Ok tt, (h, w)))
    (λ h w _ o n _, (Ok tt, (o :: n :: h, w)))
    (λ h w _ o _ n _ _ _, (Ok tt, (o :: n :: h, w))).

Abbreviation w_Sys := (@Sys unit bool (list Z)).

Definition w_exec (e : txn_event) (st : w_Sys) : w_Sys :=
  @exec unit bool (list Z) w_wal w_undo e st.

Definition w_start (healthy : bool) : w_Sys :=
  mkSys (with_next_xid 2) healthy ([] : list Z) empty_table ∅ ∅.

(** Transaction 2 (REPEATABLE READ) inserts into slots 4 and 5; 3 begins. *)
Definition w_txn (healthy : bool) : w_Sys :=
  foldl (λ st e, w_exec e st) (w_start healthy)
    [EBegin RepeatableRead; ERecordUndo 2 (UInsert 1 4); ERecordUndo 2 (UInsert 1 5);
     EBegin ReadCommitted; ERead].

Lemma w_steps_reach (l : list txn_event) (st : w_Sys) :
  rtc (@sys_step unit bool (list Z) w_wal w_undo) st (foldl (λ st e, w_exec e st) st l).
Proof.
  revert st. induction l as [|e l IH]; intros st; simpl; [done|].
  eapply rtc_l; [by exists e|apply IH].
Qed.

Lemma w_txn_reachable b : @sys_reachable unit bool (list Z) w_wal w_undo (w_txn b).
Proof. exists (w_start b). split; [by exists 2|apply w_steps_reach]. Qed.

Lemma fresh_snapshot_exact_witness :
  is_committed_at_snapshot (compute_snapshot (inner (mgr (w_txn true)))) 1 = true ↔
  1 < next_xid (inner (mgr (w_txn true))) ∧ 1 ∉ dom (active (inner (mgr (w_txn true)))).
Proof.
  apply (@fresh_snapshot_exact unit bool (list Z) w_wal w_undo (w_txn true) (w_txn true) 1
    (w_txn_reachable true)); [apply rtc_refl|lia].
Defined.

Lemma vacuum_safe_witness :
  is_visible 1 1 (compute_snapshot (inner (mgr (w_txn true)))) 9 = false.
Proof.
  apply (@vacuum_safe unit bool (list Z) w_wal w_undo (w_txn true) (w_txn true) 1 1 9
    (w_txn_reachable true)); [apply rtc_refl| |vm_compute; reflexivity].
  apply not_elem_of_dom. vm_compute. reflexivity.
Defined.

Lemma statement_snapshot_stable_witness :
  (snapshot_for_statement (inner (mgr (w_txn true))) 2).1 = Ok (mkSnapshot 3 3 []).
Proof.
  destruct (active (inner (mgr (w_txn true))) !! 2) as [t|] eqn:E;
    [|vm_compute in E; discriminate E].
  rewrite (@statement_snapshot_stable unit bool (list Z) w_wal w_undo (w_txn true) (w_txn true) 2
    t t (w_txn_reachable true) (rtc_refl _ _) E E).
  vm_compute in E. injection E as <-. vm_compute. reflexivity.
Defined.

Lemma horizon_passes_active_deleter_witness :
  vacuum_horizon (inner (mgr (w_exec (EBegin RepeatableRead) (w_start true)))) = 3.
Proof.
  apply (@horizon_passes_active_deleter unit bool (list Z) w_wal w_undo (w_start true)
    RepeatableRead 1 true 1); [by exists 2|discriminate|reflexivity|simpl; lia].
Defined.

Lemma commit_outcome_witness :
  ∃ r s' w' l', @commit unit bool w_wal (inner (mgr (w_txn true))) 2 (wal (w_txn true))
      (lk (w_txn true)) = (r, (s', w', l')) ∧ r = Ok (Some 2) ∧ is_committed s' 2 = true.
Proof.
  destruct (active (inner (mgr (w_txn true))) !! 2) as [t|] eqn:E;
    [|vm_compute in E; discriminate E].
  destruct (@commit unit bool w_wal (inner (mgr (w_txn true))) 2 (wal (w_txn true))
    (lk (w_txn true))) as [r [[s' w'] l']] eqn:Ec.
  pose proof (@commit_outcome unit bool (list Z) w_wal w_undo (w_txn true) 2 t r s' w' l'
    (w_txn_reachable true) E Ec) as [_ Hc].
  assert (r = Ok (Some 2)) as Hr by (vm_compute in Ec; congruence).
  exists r, s', w', l'. split; [reflexivity|]. split; [exact Hr|]. apply (Hc (Some 2) Hr).
Defined.

Definition w_failed : w_Sys := @exec_all unit bool (list Z) w_wal w_undo (commit_events 0 2) (w_txn false).

Lemma failed_commit_visible_witness :
  is_committed_at_snapshot (compute_snapshot (inner (mgr w_failed))) 2 = true.
Proof.
  destruct (active (inner (mgr (w_txn false))) !! 2) as [t|] eqn:E;
    [|vm_compute in E; discriminate E].
  assert (undo_log t ≠ []) as Hu by (vm_compute in E; injection E as <-; discriminate).
  apply (@failed_commit_visible unit bool (list Z) w_wal w_undo (w_txn false) 0 2 t Io false
    w_failed (w_txn_reachable false) E ltac:(vm_compute; reflexivity)
    ltac:(vm_compute; reflexivity) Hu ltac:(vm_compute; reflexivity) (rtc_refl _ _)).
Defined.

Lemma abort_outcome_witness :
  ∃ r s' h' w' l', @abort unit bool w_wal (list Z) w_undo (inner (mgr (w_txn true))) 2
      (store (w_txn true)) (wal (w_txn true)) (lk (w_txn true)) = (r, (s', h', w', l')) ∧
    h' = [4; 5] ∧ is_aborted s' 2 = true.
Proof.
  destruct (active (inner (mgr (w_txn true))) !! 2) as [t|] eqn:E;
    [|vm_compute in E; discriminate E].
  destruct (@abort unit bool w_wal (list Z) w_undo (inner (mgr (w_txn true))) 2
      (store (w_txn true)) (wal (w_txn true)) (lk (w_txn true))) as [r [[[s' h'] w'] l']] eqn:Ec.
  pose proof (@abort_outcome unit bool (list Z) w_wal w_undo (w_txn true) 2 t r s' h' w' l'
    (w_txn_reachable true) E Ec) as Hc.
  vm_compute in Ec.
  destruct Hc as [(Hr&_)|(_&_&_&Ha&_)]; [destruct Hr; congruence|].
  exists r, s', h', w', l'. split; [reflexivity|]. split; [congruence|exact Ha].
Defined.
