(* ===== verification/Ssi.v ===== *)
(** Serializable snapshot isolation: what the read and write sets recorded by
    [ssi_note_reads] and [ssi_note_write] guarantee at commit, and the dangerous
    structures they let through: a pivot that has already committed, and a write
    skew noted while one of its transactions is on its way from the active set to
    the committed ones. *)

From stdpp Require Import base numbers list gmap sets strings relations.
From S2P Require Import Prelude Format Mvcc LockMgr Txn TxnProps.

Section ssi.
Context {K W H : Type} `{!TxnWal W} `{!TxnUndo K W H}.
Implicit Types (s : TxnInner K).

Definition ssi_in (a : gmap Z (Transaction K)) (x : Z) : option SsiState := t ← a !! x; ssi t.






Section inv.
Variable F : Z → SsiState → Prop.






End inv.















End ssi.

(** ** A dangerous structure that commits *)

(** Row [x0] is read by 2 and then written by 3, which commits; 4 begins; 2
    writes row [y0] and commits; 4 reads the new version [x1] of [x0] and [y0]. *)
Definition x0 : RowId := mkRowId 1 0.
Definition x1 : RowId := mkRowId 1 5.
Definition y0 : RowId := mkRowId 1 1.

Definition w_run (l : list (@txn_event unit)) : w_Sys :=
  @exec_all unit bool (list Z) w_wal w_undo l (w_start true).

Definition skew_before : list (@txn_event unit) :=
  [EBegin Serializable; ENoteReads 2 [x0];
   EBegin Serializable; ENoteWrite 3 x0; ERecordUndo 3 (UXmaxStamp 1 0)] ++ commit_events 0 3 ++
  [EBegin Serializable; ENoteWrite 2 y0; ERecordUndo 2 (UXmaxStamp 1 1)].

Definition skew_after : list (@txn_event unit) :=
  skew_before ++ commit_events 0 2 ++ [ENoteReads 4 [x1; y0]] ++ commit_events 0 4.

(** The tracking misses a pivot that has already committed.  Three
    serializable transactions all commit although 4 must precede 2 (4 read the
    version of [y0] that 2 replaced: its snapshot does not contain 2), 2 must
    precede 3 (2 read the version of [x0] that 3 replaced: its snapshot does not
    contain 3), and 3 must precede 4 (the snapshot of 4 contains 3): no serial
    order exists. *)
Theorem committed_pivot_missed :
  let before := inner (mgr (w_run skew_before)) in
  let after := inner (mgr (w_run skew_after)) in
  (∀ x, x = 2 ∨ x = 3 ∨ x = 4 → is_committed after x = true) ∧
  (∃ t2 t4 c2 c3, active before !! 2 = Some t2 ∧ active before !! 4 = Some t4 ∧
    is_committed_at_snapshot (snapshot t2) 3 = false ∧
    is_committed_at_snapshot (snapshot t4) 3 = true ∧
    is_committed_at_snapshot (snapshot t4) 2 = false ∧
    ssi t2 = Some c2 ∧ x0 ∈ reads c2 ∧ y0 ∈ writes c2 ∧
    committed_ser before !! 3 = Some c3 ∧ x0 ∈ writes c3).
Proof.
  cbv zeta. split.
  - intros x [-> | [-> | ->]]; vm_compute; reflexivity.
  - eexists _, _, _, _. split; [vm_compute; reflexivity|]. split; [vm_compute; reflexivity|].
    split; [vm_compute; reflexivity|]. split; [vm_compute; reflexivity|].
    split; [vm_compute; reflexivity|]. split; [vm_compute; reflexivity|].
    split; [apply (bool_decide_unpack _); vm_compute; exact I|].
    split; [apply (bool_decide_unpack _); vm_compute; exact I|].
    split; [vm_compute; reflexivity|].
    apply (bool_decide_unpack _). vm_compute. exact I.
Qed.

(** A write skew commits when the second write is noted while the first transaction
    is on its way: 2 reads [x0] and writes [y0], 3 reads [y0]; 2 leaves the active
    set; 3 writes [x0], finds no reader of it among the active or the committed, and
    is not flagged; both commit. *)
Definition skew_reads : list (@txn_event unit) :=
  [EBegin Serializable; EBegin Serializable; ENoteReads 2 [x0]; ENoteReads 3 [y0]; ENoteWrite 2 y0;
   ERecordUndo 2 (UXmaxStamp 1 1)].
Definition skew_in_window : list (@txn_event unit) :=
  skew_reads ++ [ECommit 0 2; ECommitStep 0; ENoteWrite 3 x0; ERecordUndo 3 (UXmaxStamp 1 0);
    ECommitStep 0; ECommitStep 0; ECommitStep 0] ++ commit_events 1 3.

Theorem window_write_skew_commits :
  is_committed (inner (mgr (w_run skew_in_window))) 2 = true ∧
  is_committed (inner (mgr (w_run skew_in_window))) 3 = true ∧
  ∃ b c, ssi_in (active (inner (mgr (w_run skew_reads)))) 2 = Some b ∧
    ssi_in (active (inner (mgr (w_run (skew_reads ++ [ENoteWrite 3 x0]))))) 3 = Some c ∧
    x0 ∈ reads b ∧ y0 ∈ writes b ∧ y0 ∈ reads c ∧ x0 ∈ writes c.
Proof.
  split; [vm_compute; reflexivity|]. split; [vm_compute; reflexivity|].
  eexists _, _. split; [vm_compute; reflexivity|]. split; [vm_compute; reflexivity|].
  split_and!; apply (bool_decide_unpack _); vm_compute; exact I.
Qed.



