(* ===== verification/WalCodec.v ===== *)
(** The bytes of the write-ahead log ([src/wal.rs]): the record format, the
    framed stream used inside a segment and for shipping, segment headers, and
    the scan of a segment file.

    A file is the list of its bytes.  [read_exact] on a file is a split of the
    bytes that are left; an end of file in the middle of a read is the torn tail
    that a crash leaves. *)

From stdpp Require Import base numbers list.
From S2P Require Import Prelude Format Page.

Definition FIXED_HDR : Z := 41.
Definition SEG_MAGIC : Z := 0x47455357.
Definition SEG_VERSION : Z := 1.
Definition SEG_HDR : Z := 16.

Record WalRecord := mkRecord {
  w_lsn : Lsn;
  w_prev_lsn : Lsn;
  w_mini_txn_id : Z;
  w_rec_type : Z;
  w_page_id : PageId;
  w_slot : Z;
  w_redo : list Z;
  w_undo : list Z;
}.
#[global] Instance WalRecord_eq_dec : EqDecision WalRecord.
Proof. solve_decision. Defined.

Section codec.
Context `{!Crc32}.

(** The fixed header: [0..8] lsn, [8..16] prev_lsn, [16..24] mini_txn_id, [24]
    type, [25..27] padding, [27..31] page, [31..33] slot, [33..37] and [37..41]
    the two payload lengths. *)
Definition record_header (r : WalRecord) : list Z :=
  u64_to_le (w_lsn r) ++ u64_to_le (w_prev_lsn r) ++ u64_to_le (w_mini_txn_id r) ++
  [w_rec_type r] ++ [0; 0] ++ u32_to_le (w_page_id r) ++ u16_to_le (w_slot r) ++
  u32_to_le (u32 (zlen (w_redo r))) ++ u32_to_le (u32 (zlen (w_undo r))).

Definition encode_record (r : WalRecord) : list Z :=
  let payload := record_header r ++ w_redo r ++ w_undo r in
  payload ++ u32_to_le (crc32 payload).

Definition decode_record (buf : list Z) : Result WalRecord :=
  if decide (zlen buf < FIXED_HDR + 4) then Err (WalCorrupt 0)
  else
    lsn ← read_u64 buf 0;
    prev_lsn ← read_u64 buf 8;
    mini_txn_id ← read_u64 buf 16;
    rec_type ← index buf 24;
    page_id ← read_u32 buf 27;
    slot ← read_u16 buf 31;
    redo_len ← read_u32 buf 33;
    undo_len ← read_u32 buf 37;
    let total_needed := FIXED_HDR + redo_len + undo_len + 4 in
    if decide (zlen buf < total_needed) then Err (WalCorrupt lsn)
    else
      let payload_len := FIXED_HDR + redo_len + undo_len in
      stored_crc ← read_u32 buf payload_len;
      payload ← slice buf 0 payload_len;
      if decide (stored_crc ≠ crc32 payload) then Err (WalCorrupt lsn)
      else
        redo ← slice buf FIXED_HDR (FIXED_HDR + redo_len);
        undo ← slice buf (FIXED_HDR + redo_len) (FIXED_HDR + redo_len + undo_len);
        Ok (mkRecord lsn prev_lsn mini_txn_id rec_type page_id slot redo undo).

(** ** The framed stream *)

Definition frame (r : WalRecord) : list Z :=
  u32_to_le (u32 (zlen (encode_record r))) ++ encode_record r.

Definition encode_stream (rs : list WalRecord) : list Z := concat (frame <$> rs).

(** The loop of [decode_stream] on the bytes left; a trailing fragment of fewer
    than four bytes ends it.  [None] is out of fuel; a byte of fuel per byte is
    enough, since each iteration consumes at least four. *)
Fixpoint decode_stream_loop (fuel : nat) (bytes : list Z) (acc : list WalRecord)
    : option (Result (list WalRecord)) :=
  match fuel with
  | O => None
  | S fuel =>
      if decide (4 ≤ zlen bytes) then
        let len := u32_from_le (sub bytes 0 4) in
        let rest := drop 4 bytes in
        if decide (zlen rest < len) then Some (Err (WalCorrupt 0))
        else
          match decode_record (sub rest 0 len) with
          | Ok r => decode_stream_loop fuel (drop (Z.to_nat len) rest) (acc ++ [r])
          | Err e => Some (Err e)
          | Panic => Some Panic
          end
      else Some (Ok acc)
  end.

Definition decode_stream (bytes : list Z) : Result (list WalRecord) :=
  default Panic (decode_stream_loop (S (length bytes)) bytes []).

(** ** Segment files *)

Definition segment_header_bytes (base_lsn : Lsn) : list Z :=
  u32_to_le SEG_MAGIC ++ u16_to_le SEG_VERSION ++ [0; 0] ++ u64_to_le base_lsn.

Definition read_segment_base_lsn (file : list Z) : Lsn :=
  if decide (zlen file < SEG_HDR) then 0
  else if decide (u32_from_le (sub file 0 4) ≠ SEG_MAGIC) then 0
  else u64_from_le (sub file 8 8).

(** The loop of [scan_segment_file] on the bytes left. *)
Fixpoint scan_loop (fuel : nat) (bytes : list Z) (acc : list WalRecord) : list WalRecord :=
  match fuel with
  | O => acc
  | S fuel =>
      if decide (zlen bytes < 4) then acc
      else
        let len := u32_from_le (sub bytes 0 4) in
        let rest := drop 4 bytes in
        if decide (zlen rest < len) then acc
        else
          match decode_record (sub rest 0 len) with
          | Ok r => scan_loop fuel (drop (Z.to_nat len) rest) (acc ++ [r])
          | _ => acc
          end
  end.

Definition scan_segment_file (file : list Z) : list WalRecord :=
  if decide (zlen file < SEG_HDR) then []
  else if decide (u32_from_le (sub file 0 4) ≠ SEG_MAGIC) then []
  else scan_loop (S (length file)) (drop (Z.to_nat SEG_HDR) file) [].

(** All segments, in index order. *)
Definition scan_file (segments : list (list Z)) : list WalRecord :=
  concat (scan_segment_file <$> segments).

End codec.

(** ** Records a log can hold *)

(** Fields within their types and payload lengths that fit the format. *)
Record record_ok (r : WalRecord) : Prop := {
  ok_lsn : 0 ≤ w_lsn r < 2 ^ 64;
  ok_prev : 0 ≤ w_prev_lsn r < 2 ^ 64;
  ok_mini : 0 ≤ w_mini_txn_id r < 2 ^ 64;
  ok_type : is_byte (w_rec_type r);
  ok_page : 0 ≤ w_page_id r < 2 ^ 32;
  ok_slot : 0 ≤ w_slot r < 2 ^ 16;
  ok_redo : bytes (w_redo r);
  ok_undo : bytes (w_undo r);
  ok_len : 45 + zlen (w_redo r) + zlen (w_undo r) < 2 ^ 32;
}.
