(* ===== verification/WalCodecProps.v ===== *)
(** Round trips of the log format and what a scan of a torn log returns. *)

From stdpp Require Import base numbers list.
From S2P Require Import Prelude Format Page PageSpec PageProps WalCodec.

Section codec.
Context `{!Crc32}.

Lemma zlen_record_header r : zlen (record_header r) = 41.
Proof. unfold record_header. len. Qed.

Lemma zlen_encode_record r : zlen (encode_record r) = 45 + zlen (w_redo r) + zlen (w_undo r).
Proof. unfold encode_record. rewrite !zlen_app, zlen_record_header, zlen_u32_to_le. lia. Qed.

Lemma zlen_frame r : zlen (frame r) = 49 + zlen (w_redo r) + zlen (w_undo r).
Proof. unfold frame. rewrite zlen_app, zlen_encode_record, zlen_u32_to_le. lia. Qed.

Lemma header_fields r y : record_ok r →
  let buf := record_header r ++ y in
  rd buf 0 8 = w_lsn r ∧ rd buf 8 8 = w_prev_lsn r ∧ rd buf 16 8 = w_mini_txn_id r ∧
  buf !! 24%nat = Some (w_rec_type r) ∧ rd buf 27 4 = w_page_id r ∧ rd buf 31 2 = w_slot r ∧
  rd buf 33 4 = zlen (w_redo r) ∧ rd buf 37 4 = zlen (w_undo r).
Proof.
  intros []. cbv zeta. pose proof (zlen_nonneg (w_redo r)). pose proof (zlen_nonneg (w_undo r)).
  unfold record_header. rewrite <- !app_assoc.
  split_and!; [rd_field 8%nat; lia|rd_field 8%nat; lia|rd_field 8%nat; lia| |rd_field 4%nat; lia|
    rd_field 2%nat; lia| |].
  - rewrite 3!lookup_app_r; [|unfold u64_to_le; rewrite ?length_le_bytes; lia..].
    unfold u64_to_le. rewrite !length_le_bytes. done.
  - rewrite (u32_small (zlen (w_redo r))) by lia. rd_field 4%nat; lia.
  - rewrite (u32_small (zlen (w_undo r))) by lia. rd_field 4%nat; lia.
Qed.

(** A record is read back from its encoding, whatever follows it. *)
Lemma decode_encode r y : record_ok r → decode_record (encode_record r ++ y) = Ok r.
Proof.
  intros Hr. pose proof Hr as []. unfold encode_record. cbv zeta.
  pose proof (zlen_nonneg (w_redo r)). pose proof (zlen_nonneg (w_undo r)).
  pose proof (zlen_nonneg y). pose proof (zlen_record_header r) as Hh.
  rewrite <- !app_assoc.
  set (payload := record_header r ++ w_redo r ++ w_undo r).
  set (tail := u32_to_le (crc32 payload) ++ y).
  assert (zlen tail = 4 + zlen y) as Ht by (subst tail; len).
  destruct (header_fields r (w_redo r ++ w_undo r ++ tail) Hr) as (E1&E2&E3&E4&E5&E6&E7&E8).
  set (buf := record_header r ++ w_redo r ++ w_undo r ++ tail) in *.
  assert (zlen buf = 45 + zlen (w_redo r) + zlen (w_undo r) + zlen y) as Hz by (subst buf; len).
  assert (zlen payload = 41 + zlen (w_redo r) + zlen (w_undo r)) as Hp by (subst payload; len).
  assert (buf = payload ++ tail) as Hbuf by (subst buf payload; by rewrite <- !app_assoc).
  unfold decode_record, FIXED_HDR. rewrite decide_False by lia.
  rewrite !read_u64_Ok, E1, E2, E3 by lia. cbn [mbind outcome_bind].
  unfold index. rewrite decide_True by lia. change (Z.to_nat 24) with 24%nat. rewrite E4.
  cbn [mbind outcome_bind]. rewrite (read_u32_Ok buf 27), E5 by lia. cbn [mbind outcome_bind].
  rewrite read_u16_Ok, E6 by lia. cbn [mbind outcome_bind].
  rewrite (read_u32_Ok buf 33), E7 by lia. cbn [mbind outcome_bind].
  rewrite (read_u32_Ok buf 37), E8 by lia. cbn [mbind outcome_bind].
  rewrite decide_False by lia. rewrite read_u32_Ok by lia. cbn [mbind outcome_bind].
  rewrite !slice_Ok by lia. cbn [mbind outcome_bind].
  rewrite decide_False.
  - assert (sub buf 41 (41 + zlen (w_redo r) - 41) = w_redo r) as ->.
    { unfold buf. rewrite sub_app_r, sub_app_l by lia. apply sub_all_eq; lia. }
    assert (sub buf (41 + zlen (w_redo r))
      (41 + zlen (w_redo r) + zlen (w_undo r) - (41 + zlen (w_redo r))) = w_undo r) as ->.
    { unfold buf. rewrite sub_app_r, sub_app_r, sub_app_l by lia. apply sub_all_eq; lia. }
    by destruct r.
  - intros []. rewrite Hbuf. rewrite rd_app_r by lia. rewrite sub_app_l by lia.
    replace (sub payload 0 _) with payload by (symmetry; apply sub_all_eq; lia).
    replace (41 + zlen (w_redo r) + zlen (w_undo r) - zlen payload) with 0 by lia.
    unfold tail. rewrite rd_app_l by len. rewrite (rd_le_bytes 4).
    apply Z.mod_small, crc32_range.
Qed.

(** ** Frames *)

Lemma encode_stream_cons r rs : encode_stream (r :: rs) = frame r ++ encode_stream rs.
Proof. done. Qed.

Lemma encode_stream_app rs rs' : encode_stream (rs ++ rs') = encode_stream rs ++ encode_stream rs'.
Proof. unfold encode_stream. by rewrite fmap_app, concat_app. Qed.

Lemma encode_small r : record_ok r → u32 (zlen (encode_record r)) = zlen (encode_record r).
Proof.
  intros []. rewrite zlen_encode_record. pose proof (zlen_nonneg (w_redo r)).
  pose proof (zlen_nonneg (w_undo r)). apply u32_small. lia.
Qed.

(** The length field of a frame, as soon as its four bytes are there. *)
Lemma frame_len r y k : record_ok r → 4 ≤ k →
  u32_from_le (sub (take (Z.to_nat k) (frame r) ++ y) 0 4) = zlen (encode_record r).
Proof.
  intros Hr Hk. pose proof (zlen_frame r). pose proof (zlen_nonneg (w_redo r)).
  pose proof (zlen_nonneg (w_undo r)).
  assert (4 ≤ zlen (take (Z.to_nat k) (frame r))) as Hl
    by (unfold zlen in *; rewrite length_take; lia).
  rewrite sub_app_l by lia. unfold sub. rewrite drop_0, take_take.
  replace (Z.to_nat 4 `min` Z.to_nat k)%nat with 4%nat by lia.
  unfold frame. rewrite encode_small by done.
  change 4%nat with (length (u32_to_le (zlen (encode_record r)))) at 1. rewrite take_app_length.
  apply u32_from_to_le. rewrite zlen_encode_record. destruct Hr. lia.
Qed.

Lemma frame_split r y : record_ok r →
  4 ≤ zlen (frame r ++ y) ∧
  u32_from_le (sub (frame r ++ y) 0 4) = zlen (encode_record r) ∧
  drop 4 (frame r ++ y) = encode_record r ++ y ∧
  zlen (encode_record r) ≤ zlen (encode_record r ++ y) ∧
  sub (encode_record r ++ y) 0 (zlen (encode_record r)) = encode_record r ∧
  drop (Z.to_nat (zlen (encode_record r))) (encode_record r ++ y) = y.
Proof.
  intros Hr. pose proof (zlen_nonneg (w_redo r)). pose proof (zlen_nonneg (w_undo r)).
  pose proof (zlen_nonneg y). split_and!.
  - rewrite zlen_app, zlen_frame. lia.
  - rewrite <- (frame_len r y (zlen (frame r))) by (rewrite ?zlen_frame; done || lia).
    do 3 f_equal. symmetry. apply take_ge. unfold zlen. lia.
  - unfold frame. rewrite <- app_assoc. done.
  - rewrite zlen_app. lia.
  - rewrite sub_app_l by (pose proof (zlen_nonneg (encode_record r)); lia). apply sub_all.
  - unfold zlen. rewrite Nat2Z.id. apply drop_app_length.
Qed.

Lemma decode_stream_step f r y acc : record_ok r →
  decode_stream_loop (S f) (frame r ++ y) acc = decode_stream_loop f y (acc ++ [r]).
Proof.
  intros Hr. destruct (frame_split r y Hr) as (E1&E2&E3&E4&E5&E6).
  cbn [decode_stream_loop]. rewrite decide_True, E2, E3, decide_False by lia.
  rewrite E5, E6. pose proof (decode_encode r [] Hr) as Hd. rewrite app_nil_r in Hd.
  by rewrite Hd.
Qed.

Lemma scan_step f r y acc : record_ok r →
  scan_loop (S f) (frame r ++ y) acc = scan_loop f y (acc ++ [r]).
Proof.
  intros Hr. destruct (frame_split r y Hr) as (E1&E2&E3&E4&E5&E6).
  cbn [scan_loop]. rewrite decide_False, E2, E3, decide_False by lia.
  rewrite E5, E6. pose proof (decode_encode r [] Hr) as Hd. rewrite app_nil_r in Hd.
  by rewrite Hd.
Qed.

Lemma length_stream rs : (length rs ≤ length (encode_stream rs))%nat.
Proof.
  induction rs as [|r rs IH]; [done|]. rewrite encode_stream_cons, length_app.
  pose proof (zlen_frame r). pose proof (zlen_nonneg (w_redo r)).
  pose proof (zlen_nonneg (w_undo r)). unfold zlen in *. simpl. lia.
Qed.

Lemma decode_stream_frames f rs acc : Forall record_ok rs → (length rs < f)%nat →
  decode_stream_loop f (encode_stream rs) acc = Some (Ok (acc ++ rs)).
Proof.
  revert f acc. induction rs as [|r rs IH]; intros f acc Hrs Hf; (destruct f as [|f]; [simpl in Hf; lia|]).
  - by rewrite app_nil_r.
  - apply Forall_cons in Hrs as [Hr Hrs]. rewrite encode_stream_cons, decode_stream_step by done.
    rewrite IH by (done || simpl in Hf; lia). by rewrite <- app_assoc.
Qed.

(** A scan reads the intact frames and goes on with what follows them. *)
Lemma scan_frames f rs y acc : Forall record_ok rs →
  scan_loop (length rs + f) (encode_stream rs ++ y) acc = scan_loop f y (acc ++ rs).
Proof.
  revert acc. induction rs as [|r rs IH]; intros acc Hrs; [by rewrite app_nil_r|].
  apply Forall_cons in Hrs as [Hr Hrs]. rewrite encode_stream_cons, <- app_assoc. simpl plus.
  rewrite scan_step, IH by done. by rewrite <- app_assoc.
Qed.

(** The bytes [y] do not start with a record a scan accepts. *)
Definition no_record (y : list Z) : Prop :=
  zlen y < 4 ∨ zlen (drop 4 y) < u32_from_le (sub y 0 4) ∨
  ∀ r, decode_record (sub (drop 4 y) 0 (u32_from_le (sub y 0 4))) ≠ Ok r.

Lemma scan_no_record f y acc : no_record y → scan_loop f y acc = acc.
Proof.
  intros Hy. destruct f as [|f]; [done|]. cbn [scan_loop]. case_decide; [done|].
  case_decide; [done|]. destruct Hy as [|[|Hy]]; [lia|lia|].
  destruct (decode_record _) as [r| |] eqn:E; [|done..]. by destruct (Hy r).
Qed.

Lemma torn_frame r k : record_ok r → 0 ≤ k < zlen (frame r) →
  no_record (take (Z.to_nat k) (frame r)).
Proof.
  intros Hr Hk. destruct (decide (k < 4)) as [|Hk4].
  { left. unfold zlen. rewrite length_take. lia. }
  right. left. pose proof (frame_len r [] k Hr ltac:(lia)) as Hl. rewrite app_nil_r in Hl.
  rewrite Hl. pose proof (zlen_frame r). pose proof (zlen_encode_record r).
  unfold zlen in *. rewrite length_drop, length_take. lia.
Qed.

Lemma zlen_segment_header base : zlen (segment_header_bytes base) = 16.
Proof. unfold segment_header_bytes. len. Qed.

Lemma scan_segment_split base y :
  scan_segment_file (segment_header_bytes base ++ y) =
  scan_loop (S (length (segment_header_bytes base ++ y))) y [].
Proof.
  unfold scan_segment_file, SEG_HDR. pose proof (zlen_segment_header base). pose proof (zlen_nonneg y).
  rewrite decide_False by len.
  assert (sub (segment_header_bytes base ++ y) 0 4 = u32_to_le SEG_MAGIC) as ->.
  { rewrite sub_app_l by lia. unfold segment_header_bytes. rewrite sub_app_l by len.
    apply sub_all_eq; len. }
  rewrite u32_from_to_le, decide_False by (auto; unfold SEG_MAGIC; lia).
  done.
Qed.

Lemma read_segment_base_lsn_header base y : 0 ≤ base < 2 ^ 64 →
  read_segment_base_lsn (segment_header_bytes base ++ y) = base.
Proof.
  intros Hb. unfold read_segment_base_lsn, SEG_HDR. pose proof (zlen_segment_header base).
  pose proof (zlen_nonneg y). rewrite decide_False by len.
  assert (sub (segment_header_bytes base ++ y) 0 4 = u32_to_le SEG_MAGIC) as -> by done.
  rewrite u32_from_to_le, decide_False by (auto; unfold SEG_MAGIC; lia).
  assert (sub (segment_header_bytes base ++ y) 8 8 = u64_to_le base) as -> by done.
  by apply u64_from_to_le.
Qed.

(** A segment whose intact frames are followed by bytes that are no record. *)
Lemma scan_segment_prefix base rs y : Forall record_ok rs → no_record y →
  scan_segment_file (segment_header_bytes base ++ encode_stream rs ++ y) = rs.
Proof.
  intros Hrs Hy. rewrite scan_segment_split. pose proof (length_stream rs).
  assert (∃ f, S (length (segment_header_bytes base ++ encode_stream rs ++ y)) =
    (length rs + f)%nat) as [f ->].
  { exists (S (length (segment_header_bytes base ++ encode_stream rs ++ y)) - length rs)%nat.
    rewrite !length_app. lia. }
  rewrite scan_frames, scan_no_record by done. done.
Qed.

(** Cutting a stream leaves whole frames and a piece of the next one. *)
Lemma take_stream rs k : 0 ≤ k →
  ∃ n j, take (Z.to_nat k) (encode_stream rs) =
      encode_stream (take n rs) ++ match rs !! n with
                                   | Some r => take (Z.to_nat j) (frame r) | None => [] end ∧
    (n ≤ length rs)%nat ∧
    (zlen (encode_stream (take n rs)) ≤ k) ∧
    (∀ r, rs !! n = Some r → 0 ≤ j < zlen (frame r) ∧
       k = zlen (encode_stream (take n rs)) + j).
Proof.
  revert k. induction rs as [|r rs IH]; intros k Hk.
  { exists 0%nat, 0. unfold encode_stream. simpl. rewrite take_nil. by split_and!. }
  rewrite encode_stream_cons. destruct (decide (k < zlen (frame r))) as [Hlt|Hge].
  - exists 0%nat, k. split_and!; [|simpl; lia|done|].
    + apply take_app_le. unfold zlen in *. lia.
    + intros r' [= <-]. change (zlen (encode_stream (take 0 (r :: rs)))) with 0. lia.
  - destruct (IH (k - zlen (frame r))) as (n&j&E&Hn&Hle&Hj); [lia|].
    exists (S n), j. change ((r :: rs) !! S n) with (rs !! n). cbn [take]. split_and!.
    + rewrite encode_stream_cons, <- app_assoc, <- E. rewrite take_app_ge by (unfold zlen in *; lia).
      do 2 f_equal. unfold zlen. lia.
    + simpl. lia.
    + rewrite encode_stream_cons, zlen_app. lia.
    + intros r' Hr'. destruct (Hj r' Hr'). rewrite encode_stream_cons, zlen_app. lia.
Qed.

(** What a scan returns of the first [k] bytes of a segment. *)
Lemma scan_cut (base : Lsn) (rs : list WalRecord) (k : Z) :
  Forall record_ok rs → 0 ≤ k →
  let file n := segment_header_bytes base ++ encode_stream (take n rs) in
  ∃ n, (n ≤ length rs)%nat ∧
    scan_segment_file (take (Z.to_nat k) (file (length rs))) = take n rs ∧
    (zlen (file n) ≤ k ∨ n = 0%nat) ∧
    ((n < length rs)%nat → k < zlen (file (S n))).
Proof.
  intros Hrs Hk file. subst file. cbv beta. rewrite firstn_all.
  pose proof (zlen_segment_header base) as Hh. destruct (decide (k < 16)) as [Hlt|Hge].
  { exists 0%nat. split_and!; [lia| |by right|].
    - unfold scan_segment_file, SEG_HDR. rewrite decide_True; [done|].
      unfold zlen. rewrite length_take. lia.
    - intros _. rewrite zlen_app. pose proof (zlen_nonneg (encode_stream (take 1 rs))). lia. }
  destruct (take_stream rs (k - 16)) as (n&j&E&Hn&Hle&Hj); [lia|]. exists n.
  split_and!; [done| |left; rewrite zlen_app; lia|].
  - rewrite take_app_ge by (unfold zlen in Hh; lia).
    replace (Z.to_nat k - length (segment_header_bytes base))%nat with (Z.to_nat (k - 16))
      by (unfold zlen in Hh; lia).
    rewrite E. apply scan_segment_prefix; [by apply Forall_take|].
    destruct (rs !! n) as [r|] eqn:Hr; [|by left]. apply torn_frame; [|naive_solver].
    by eapply Forall_lookup_1.
  - intros Hlt. destruct (lookup_lt_is_Some_2 rs n Hlt) as [r Hr]. destruct (Hj r Hr).
    rewrite (take_S_r _ _ _ Hr), encode_stream_app, !zlen_app, encode_stream_cons, zlen_app.
    pose proof (zlen_nonneg (encode_stream [])). lia.
Qed.

End codec.

(** ** Claims *)

Section claims.
Context `{!Crc32}.

(** C35: every log record, stream and segment that is written reads back.  For
    records whose fields fit their types, [decode_record] inverts
    [encode_record], [decode_stream] inverts [encode_stream], the base LSN of a
    segment header reads back, and [scan_file] over a directory of segments
    returns exactly the records of all of them, in order. *)
Theorem wal_roundtrip (segs : list (Lsn * list WalRecord)) :
  Forall (λ s, 0 ≤ s.1 < 2 ^ 64 ∧ Forall record_ok s.2) segs →
  (∀ s r, s ∈ segs → r ∈ s.2 → decode_record (encode_record r) = Ok r) ∧
  decode_stream (encode_stream (concat segs.*2)) = Ok (concat segs.*2) ∧
  (∀ s, s ∈ segs →
     read_segment_base_lsn (segment_header_bytes s.1 ++ encode_stream s.2) = s.1) ∧
  scan_file ((λ s, segment_header_bytes s.1 ++ encode_stream s.2) <$> segs) = concat segs.*2.
Proof.
  intros Hsegs. split_and!.
  - intros s r Hs Hr. rewrite Forall_forall in Hsegs. destruct (Hsegs s Hs) as [_ Hok].
    rewrite Forall_forall in Hok. pose proof (decode_encode r [] (Hok r Hr)) as Hd.
    by rewrite app_nil_r in Hd.
  - unfold decode_stream. rewrite decode_stream_frames; [done| |].
    + apply Forall_concat, Forall_fmap. eapply Forall_impl; [exact Hsegs|]. by intros s [].
    + pose proof (length_stream (concat segs.*2)). lia.
  - intros [b rs] Hs. rewrite Forall_forall in Hsegs. destruct (Hsegs _ Hs) as [Hb _].
    by apply read_segment_base_lsn_header.
  - induction Hsegs as [|[b rs] segs [_ Hrs] _ IH]; [done|]. unfold scan_file in *.
    rewrite !fmap_cons. cbn [concat fst snd]. rewrite IH. f_equal. rewrite <- (app_nil_r (encode_stream rs)).
    apply scan_segment_prefix; [done|]. by left.
Qed.

(** C34: a crash that cuts a segment at any byte loses only the records whose
    frames are cut.  Of a segment file of which [k] bytes reached the disk, a
    scan returns the [n] records whose frames end within those bytes, and the
    next record's frame ends beyond them. *)
Theorem scan_torn_prefix (base : Lsn) (rs : list WalRecord) (k : Z) :
  Forall record_ok rs → 0 ≤ k →
  let file n := segment_header_bytes base ++ encode_stream (take n rs) in
  ∃ n, (n ≤ length rs)%nat ∧
    scan_segment_file (take (Z.to_nat k) (file (length rs))) = take n rs ∧
    (zlen (file n) ≤ k ∨ n = 0%nat) ∧
    ((n < length rs)%nat → k < zlen (file (S n))).
Proof. exact (scan_cut base rs k). Qed.

(** Records appended behind a torn tail are lost.  [Wal::open] reopens the
    last segment in append mode and leaves the bytes of a torn record where they
    are; the frames written behind them are complete in the file, and a scan
    that rejects the torn record returns none of them. *)
Theorem torn_tail_hides_appends (base : Lsn) (rs new : list WalRecord) (r : WalRecord) (k : Z) :
  Forall record_ok rs → record_ok r → 4 ≤ k < zlen (frame r) →
  let tail := take (Z.to_nat k) (frame r) ++ encode_stream new in
  (∀ r', decode_record (sub (drop 4 tail) 0 (zlen (encode_record r))) ≠ Ok r') →
  scan_segment_file (segment_header_bytes base ++ encode_stream rs ++ tail) = rs.
Proof.
  intros Hrs Hr Hk tail Hbad. apply scan_segment_prefix; [done|]. right; right.
  subst tail. rewrite frame_len by (done || lia). exact Hbad.
Qed.

End claims.

(** ** Witnesses *)

Definition w_rec (lsn : Lsn) (redo undo : list Z) : WalRecord :=
  mkRecord lsn 0 7 6 3 1 redo undo.

Lemma w_rec_ok lsn : 0 ≤ lsn < 100 → record_ok (w_rec lsn [1; 2; 3] [9]).
Proof.
  intros. constructor; simpl; unfold is_byte; try lia.
  - repeat constructor; unfold is_byte; lia.
  - repeat constructor; unfold is_byte; lia.
  - unfold zlen. simpl. lia.
Qed.

Lemma wal_roundtrip_witness :
  @scan_file sum_crc
    ((λ s, segment_header_bytes s.1 ++ @encode_stream sum_crc s.2) <$>
      [(1, [w_rec 1 [1; 2; 3] [9]; w_rec 2 [1; 2; 3] [9]]); (3, [w_rec 3 [1; 2; 3] [9]])]) =
  [w_rec 1 [1; 2; 3] [9]; w_rec 2 [1; 2; 3] [9]; w_rec 3 [1; 2; 3] [9]].
Proof.
  apply (@wal_roundtrip sum_crc
    [(1, [w_rec 1 [1; 2; 3] [9]; w_rec 2 [1; 2; 3] [9]]); (3, [w_rec 3 [1; 2; 3] [9]])]).
  repeat constructor; simpl; try lia; apply w_rec_ok; lia.
Defined.

Lemma scan_torn_prefix_witness :
  ∃ n, (n ≤ 2)%nat ∧
    @scan_segment_file sum_crc (take (Z.to_nat 100)
      (segment_header_bytes 1 ++
       @encode_stream sum_crc [w_rec 1 [1; 2; 3] [9]; w_rec 2 [1; 2; 3] [9]])) =
    take n [w_rec 1 [1; 2; 3] [9]; w_rec 2 [1; 2; 3] [9]].
Proof.
  destruct (@scan_torn_prefix sum_crc 1 [w_rec 1 [1; 2; 3] [9]; w_rec 2 [1; 2; 3] [9]] 100)
    as (n & Hn & E & _).
  - repeat constructor; apply w_rec_ok; lia.
  - lia.
  - exists n. split; [exact Hn|exact E].
Defined.

(** Twenty bytes of a torn frame, and three whole records written behind it:
    the scan returns the one record before the torn frame. *)
Lemma torn_tail_hides_appends_witness :
  let r := w_rec 2 [1; 2; 3] [9] in
  @scan_segment_file sum_crc
    (segment_header_bytes 1 ++ @encode_stream sum_crc [w_rec 1 [1; 2; 3] [9]] ++
     take (Z.to_nat 20) (@frame sum_crc r) ++ @encode_stream sum_crc [r; r; r]) =
  [w_rec 1 [1; 2; 3] [9]].
Proof.
  intros r. apply (@torn_tail_hides_appends sum_crc 1 [w_rec 1 [1; 2; 3] [9]] [r; r; r] r 20).
  - repeat constructor; apply w_rec_ok; lia.
  - apply w_rec_ok; lia.
  - vm_compute. split; [discriminate|reflexivity].
  - intros r'. vm_compute. discriminate.
Defined.
