(* ===== verification/Wal.v ===== *)
(** The segmented write-ahead log ([src/wal.rs]): segment files, the buffered
    writer, LSN allocation and append, rotation with the background sealer, the
    two fsync paths, group commit, truncation, shipping and reopening.

    The state holds the segment files as the operating system has them (bytes and
    how many of them are known to be on disk), the [BufWriter]'s buffer, the
    fields of [WalInner], and the sealer's state with the item its thread is
    working on.  Every system call's outcome is an argument ([Calls]): a write may
    fail after some of its bytes, an fsync may fail.  LSNs and byte counts are
    unbounded integers here. *)

From stdpp Require Import base numbers list strings.
From S2P Require Import Prelude Format Page WalCodec.
Open Scope op_scope.

Definition BUF_CAPACITY : Z := 8192.
Definition DEFAULT_SEGMENT_SIZE : Z := 16 * 1024 * 1024.

(** A file: its bytes, and how many of them have been fsynced. *)
Record File := mkFile { f_data : list Z; f_synced : nat }.

(** Segment files by index, in ascending order. *)
Abbreviation Dir := (list (Z * File)).

(** What the sealer thread shares ([pending], [done_lsn], [shutdown], [error]) and
    the item it took and is fsyncing ([sealing]).  An item is a segment and the
    last LSN in it. *)
Record SealerState := mkSealer {
  pending : option (Z * Lsn);
  done_lsn : Lsn;
  shutdown : bool;
  seal_error : bool;
  sealing : option (Z * Lsn);
}.

Definition new_sealer : SealerState := mkSealer None INVALID_LSN false false None.

Record Wal := mkWal {
  dir : Dir;
  w_buf : list Z;
  active_seg : Z;
  active_base_lsn : Lsn;
  active_bytes : Z;
  segment_size : Z;
  next_lsn : Lsn;
  next_mini_txn : Z;
  wal_bytes : Z;
  total_bytes_appended : Z;
  durable_lsn : Lsn;
  fsync_fd_cache : option Z;
  deferred_sync : bool;
  poisoned : bool;
  fsync_fault_armed : bool;
  sealer : SealerState;
}.

(** Outcomes of the system calls of one operation.  A write's outcome [Some n]
    is a failure after [n] bytes. *)
Record Calls := mkIo {
  io_seal_flush : option nat;
  io_clone : bool;
  io_open : bool;
  io_header : option nat;
  io_len : option nat;
  io_rec : option nat;
  io_flush : option nat;
  io_sync : bool;
  io_seal : nat → bool;
  io_remove : Z → bool;
}.

Definition io_ok : Calls :=
  mkIo None true true None None None None true (λ _, true) (λ _, true).

(** ** Field updates *)

Definition set_disk (w : Wal) (d : Dir) (b : list Z) : Wal :=
  mkWal d b (active_seg w) (active_base_lsn w) (active_bytes w) (segment_size w) (next_lsn w)
    (next_mini_txn w) (wal_bytes w) (total_bytes_appended w) (durable_lsn w) (fsync_fd_cache w)
    (deferred_sync w) (poisoned w) (fsync_fault_armed w) (sealer w).
Definition set_segment (w : Wal) (seg : Z) (base : Lsn) (n : Z) : Wal :=
  mkWal (dir w) (w_buf w) seg base n (segment_size w) (next_lsn w)
    (next_mini_txn w) (wal_bytes w) (total_bytes_appended w) (durable_lsn w) (fsync_fd_cache w)
    (deferred_sync w) (poisoned w) (fsync_fault_armed w) (sealer w).
Definition set_counts (w : Wal) (active wal total : Z) : Wal :=
  mkWal (dir w) (w_buf w) (active_seg w) (active_base_lsn w) active (segment_size w) (next_lsn w)
    (next_mini_txn w) wal total (durable_lsn w) (fsync_fd_cache w)
    (deferred_sync w) (poisoned w) (fsync_fault_armed w) (sealer w).
Definition set_next_lsn (w : Wal) (l : Lsn) : Wal :=
  mkWal (dir w) (w_buf w) (active_seg w) (active_base_lsn w) (active_bytes w) (segment_size w) l
    (next_mini_txn w) (wal_bytes w) (total_bytes_appended w) (durable_lsn w) (fsync_fd_cache w)
    (deferred_sync w) (poisoned w) (fsync_fault_armed w) (sealer w).
Definition set_next_mini_txn (w : Wal) (n : Z) : Wal :=
  mkWal (dir w) (w_buf w) (active_seg w) (active_base_lsn w) (active_bytes w) (segment_size w)
    (next_lsn w) n (wal_bytes w) (total_bytes_appended w) (durable_lsn w) (fsync_fd_cache w)
    (deferred_sync w) (poisoned w) (fsync_fault_armed w) (sealer w).
Definition set_durable (w : Wal) (l : Lsn) : Wal :=
  mkWal (dir w) (w_buf w) (active_seg w) (active_base_lsn w) (active_bytes w) (segment_size w)
    (next_lsn w) (next_mini_txn w) (wal_bytes w) (total_bytes_appended w) l (fsync_fd_cache w)
    (deferred_sync w) (poisoned w) (fsync_fault_armed w) (sealer w).
Definition set_cache (w : Wal) (c : option Z) : Wal :=
  mkWal (dir w) (w_buf w) (active_seg w) (active_base_lsn w) (active_bytes w) (segment_size w)
    (next_lsn w) (next_mini_txn w) (wal_bytes w) (total_bytes_appended w) (durable_lsn w) c
    (deferred_sync w) (poisoned w) (fsync_fault_armed w) (sealer w).
Definition set_poison (w : Wal) (p armed : bool) : Wal :=
  mkWal (dir w) (w_buf w) (active_seg w) (active_base_lsn w) (active_bytes w) (segment_size w)
    (next_lsn w) (next_mini_txn w) (wal_bytes w) (total_bytes_appended w) (durable_lsn w)
    (fsync_fd_cache w) (deferred_sync w) p armed (sealer w).
Definition set_sealer (w : Wal) (s : SealerState) : Wal :=
  mkWal (dir w) (w_buf w) (active_seg w) (active_base_lsn w) (active_bytes w) (segment_size w)
    (next_lsn w) (next_mini_txn w) (wal_bytes w) (total_bytes_appended w) (durable_lsn w)
    (fsync_fd_cache w) (deferred_sync w) (poisoned w) (fsync_fault_armed w) s.
Definition set_deferred_sync (w : Wal) (b : bool) : Wal :=
  mkWal (dir w) (w_buf w) (active_seg w) (active_base_lsn w) (active_bytes w) (segment_size w)
    (next_lsn w) (next_mini_txn w) (wal_bytes w) (total_bytes_appended w) (durable_lsn w)
    (fsync_fd_cache w) b (poisoned w) (fsync_fault_armed w) (sealer w).

Definition poison (w : Wal) : Wal := set_poison w true (fsync_fault_armed w).
Definition arm_fsync_fault (w : Wal) : Wal := set_poison w (poisoned w) true.

(** ** Files *)

(** Applies [f] to the file of segment [idx], if there is one. *)
Definition dir_alter (f : File → File) (idx : Z) (d : Dir) : Dir :=
  (λ e : Z * File, if decide (e.1 = idx) then (e.1, f e.2) else e) <$> d.

(** Creates the file of segment [idx] or replaces it. *)
Fixpoint dir_put (idx : Z) (f : File) (d : Dir) : Dir :=
  match d with
  | [] => [(idx, f)]
  | e :: d =>
      if decide (idx < e.1) then (idx, f) :: e :: d
      else if decide (idx = e.1) then (idx, f) :: d
      else e :: dir_put idx f d
  end.

Definition dir_remove (idx : Z) (d : Dir) : Dir := filter (λ e : Z * File, e.1 ≠ idx) d.

Definition file_append (bs : list Z) (f : File) : File := mkFile (f_data f ++ bs) (f_synced f).
Definition file_sync (f : File) : File := mkFile (f_data f) (length (f_data f)).

(** ** The buffered writer

    [File::write_all] on the active segment, and [BufWriter]'s [flush] and
    [write_all] with the default capacity. *)

Definition os_write (bs : list Z) (fault : option nat) : op Wal unit := λ w,
  let put bs := set_disk w (dir_alter (file_append bs) (active_seg w) (dir w)) (w_buf w) in
  match fault with
  | Some n => if decide (n < length bs)%nat then (Err Io, put (take n bs)) else (Ok tt, put bs)
  | None => (Ok tt, put bs)
  end.

Definition bw_flush (fault : option nat) : op Wal unit := λ w,
  let put bs rest :=
    set_disk w (dir_alter (file_append bs) (active_seg w) (dir w)) rest in
  match fault with
  | Some n =>
      if decide (n < length (w_buf w))%nat
      then (Err Io, put (take n (w_buf w)) (drop n (w_buf w)))
      else (Ok tt, put (w_buf w) [])
  | None => (Ok tt, put (w_buf w) [])
  end.

Definition bw_push (bs : list Z) (w : Wal) : Wal := set_disk w (dir w) (w_buf w ++ bs).

Definition bw_write_all (bs : list Z) (fault : option nat) : op Wal unit := λ w,
  let spare := BUF_CAPACITY - zlen (w_buf w) in
  if decide (zlen bs < spare) then (Ok tt, bw_push bs w)
  else
    (_ <- (if decide (spare < zlen bs) then bw_flush fault else op_ret tt);;
     if decide (BUF_CAPACITY ≤ zlen bs)
     then os_write bs ((λ n, n - length (w_buf w))%nat <$> fault)
     else modify (bw_push bs)) w.

(** ** The background sealer *)

(** The thread takes the pending item. *)
Definition sealer_take (w : Wal) : Wal :=
  let st := sealer w in
  match pending st, sealing st with
  | Some item, None =>
      set_sealer w (mkSealer None (done_lsn st) (shutdown st) (seal_error st) (Some item))
  | _, _ => w
  end.

(** The thread's [sync_all] returns and the outcome is recorded. *)
Definition sealer_finish (ok : bool) (w : Wal) : Wal :=
  let st := sealer w in
  match sealing st with
  | None => w
  | Some (seg, lsn) =>
      if ok then
        set_sealer (set_disk w (dir_alter file_sync seg (dir w)) (w_buf w))
          (mkSealer (pending st) (Z.max (done_lsn st) lsn) (shutdown st) (seal_error st) None)
      else
        set_sealer w (mkSealer (pending st) (done_lsn st) (shutdown st) true None)
  end.

(** [while st.pending.is_some() { cv.wait }] and the submission: the thread ends
    the fsync it is in and takes the pending item. *)
Definition submit (item : Z * Lsn) (ok : bool) (w : Wal) : Wal :=
  let w := if decide (pending (sealer w) = None) then w else sealer_take (sealer_finish ok w) in
  let st := sealer w in
  set_sealer w (mkSealer (Some item) (done_lsn st) (shutdown st) (seal_error st) (sealing st)).

(** What happens up to the thread's next [notify_all]. *)
Definition run_to_notify (ok : bool) (w : Wal) : Wal :=
  sealer_finish ok (if decide (sealing (sealer w) = None) then sealer_take w else w).

(** The loop of [wait_until_durable]; [None] is out of fuel. *)
Fixpoint wait_loop (fuel : nat) (target : Lsn) (oks : nat → bool) (w : Wal)
    : option (Result unit * Wal) :=
  match fuel with
  | O => None
  | S fuel =>
      if seal_error (sealer w) then
        Some (Err (DurabilityFailure "WAL background sealer sync_all failed"), w)
      else if decide (target ≤ done_lsn (sealer w)) then Some (Ok tt, w)
      else if decide (pending (sealer w) = None) then Some (Ok tt, w)
      else wait_loop fuel target oks (run_to_notify (oks fuel) w)
  end.

Definition wait_until_durable (target : Lsn) (io : Calls) : op Wal unit := λ w,
  default (Panic, w) (wait_loop 3 target (io_seal io) w).

Definition sealer_shutdown (w : Wal) : Wal :=
  let st := sealer w in
  set_sealer w (mkSealer (pending st) (done_lsn st) true (seal_error st) (sealing st)).

Section wal.
Context `{!Crc32}.

(** ** Appending *)

(** The open may fail with no effect; a failed header write leaves a short file. *)
Definition create_segment (io : Calls) (idx : Z) (base_lsn : Lsn) (d : Dir) : Result unit * Dir :=
  if io_open io then
    let hdr := segment_header_bytes base_lsn in
    match io_header io with
    | Some n => if decide (n < length hdr)%nat then (Err Io, dir_put idx (mkFile (take n hdr) 0) d)
                else (Ok tt, dir_put idx (mkFile hdr 0) d)
    | None => (Ok tt, dir_put idx (mkFile hdr 0) d)
    end
  else (Err Io, d).

Definition poisoned_error : DbError := DurabilityFailure "WAL is poisoned".

Definition rotate_segment (io : Calls) (new_base_lsn : Lsn) : op Wal unit := λ w,
  if poisoned w then (Err poisoned_error, w)
  else
    match bw_flush (io_seal_flush io) w with
    | (Ok _, w) =>
        if io_clone io then
          let sealed_last := next_lsn w - 1 in
          let sealed := active_seg w in
          let next_idx := active_seg w + 1 in
          match create_segment io next_idx new_base_lsn (dir w) with
          | (Ok _, d) =>
              let w := set_segment (set_disk w d []) next_idx new_base_lsn SEG_HDR in
              (Ok tt, submit (sealed, sealed_last) (io_seal io 0%nat) w)
          | (Err e, d) => (Err e, set_disk w d (w_buf w))
          | (Panic, d) => (Panic, set_disk w d (w_buf w))
          end
        else (Err (DurabilityFailure "WAL segment FD clone failed"), poison w)
    | (_, w) => (Err (DurabilityFailure "WAL segment seal flush failed"), poison w)
    end.

Definition write_framed_locked (io : Calls) (encoded : list Z) (base_lsn : Lsn) : op Wal unit :=
  let framed := 4 + zlen encoded in
  w <- gets id;;
  (if decide (SEG_HDR < active_bytes w ∧ segment_size w < active_bytes w + framed)
   then rotate_segment io base_lsn else op_ret tt);;
  bw_write_all (u32_to_le (u32 (zlen encoded))) (io_len io);;
  bw_write_all encoded (io_rec io);;
  modify (λ w, set_counts w (active_bytes w + framed) (wal_bytes w + framed)
                 (total_bytes_appended w + framed)).

Definition append_locked (io : Calls) (mini_txn_id : Z) (prev_lsn : Lsn) (rec_type page_id slot : Z)
    (redo undo : list Z) : op Wal Lsn :=
  lsn <- gets next_lsn;;
  let rec := mkRecord lsn prev_lsn mini_txn_id rec_type page_id slot redo undo in
  write_framed_locked io (encode_record rec) lsn;;
  modify (λ w, set_next_lsn w (next_lsn w + 1));;
  op_ret lsn.

(** ** Fsync *)

Definition fsync_locked (io : Calls) : op Wal unit := λ w,
  if poisoned w then (Err poisoned_error, w)
  else if fsync_fault_armed w then
    (Err (DurabilityFailure "injected WAL fsync failure"), set_poison w true false)
  else
    match bw_flush (io_flush io) w with
    | (Ok _, w) =>
        if io_sync io then
          (Ok tt, set_durable (set_disk w (dir_alter file_sync (active_seg w) (dir w)) (w_buf w))
                    (next_lsn w - 1))
        else (Err (DurabilityFailure "WAL fsync failed"), poison w)
    | (_, w) => (Err (DurabilityFailure "WAL buffer flush failed"), poison w)
    end.

(** The first phase of [group_fsync], under the append lock: the LSN to report
    and the segment to fsync. *)
Definition group_flush (io : Calls) : op Wal (Lsn * Z) := λ w,
  if poisoned w then (Err poisoned_error, w)
  else if fsync_fault_armed w then
    (Err (DurabilityFailure "injected WAL fsync failure"), set_poison w true false)
  else
    match bw_flush (io_flush io) w with
    | (Ok _, w) =>
        if decide (fsync_fd_cache w = Some (active_seg w)) then
          (Ok (next_lsn w - 1, active_seg w), w)
        else if io_clone io then
          (Ok (next_lsn w - 1, active_seg w), set_cache w (Some (active_seg w)))
        else (Err (DurabilityFailure "WAL fd clone for group fsync failed"), poison w)
    | (_, w) => (Err (DurabilityFailure "WAL buffer flush failed"), poison w)
    end.

(** The fsync, without the lock.  It covers the bytes in the file when it starts. *)
Definition group_sync (io : Calls) (seg : Z) : op Wal unit := λ w,
  if io_sync io then (Ok tt, set_disk w (dir_alter file_sync seg (dir w)) (w_buf w))
  else (Err (DurabilityFailure "WAL fsync failed"), poison w).

(** The frontier, under the lock again. *)
Definition group_advance (flushed_lsn : Lsn) : op Wal unit :=
  modify (λ w, if decide (durable_lsn w < flushed_lsn) then set_durable w flushed_lsn else w).

Definition group_fsync (io : Calls) : op Wal unit :=
  x <- group_flush io;;
  group_sync io x.2;;
  group_advance x.1.

(** [sync_up_to] as one thread runs it; the dwell window is a sleep. *)
Definition sync_up_to (io : Calls) (target : Lsn) : op Wal unit := λ w,
  if decide (target ≤ durable_lsn w) then (Ok tt, w)
  else
    (wait_until_durable target io;;
     w <- gets id;;
     if decide (target ≤ durable_lsn w) then op_ret tt else group_fsync io) w.

Definition drain (io : Calls) : op Wal unit :=
  w <- gets id;;
  let drain_target := Z.max 0 (next_lsn w - 1) in
  if decide (0 < drain_target) then wait_until_durable drain_target io else op_ret tt.

Definition sync (io : Calls) : op Wal unit := drain io;; fsync_locked io.

(** ** Log records *)

(** Commit and abort records are fsynced unless syncing is deferred. *)
Definition sync_unless_deferred (io : Calls) (lsn : Lsn) : op Wal Lsn :=
  w <- gets id;;
  (if deferred_sync w then op_ret tt else fsync_locked io);;
  op_ret lsn.

Definition begin_mini_txn (io : Calls) : op Wal (Z * Lsn) :=
  txn_id <- gets next_mini_txn;;
  modify (λ w, set_next_mini_txn w (next_mini_txn w + 1));;
  lsn <- append_locked io txn_id INVALID_LSN WAL_BEGIN 0 0 [] [];;
  op_ret (txn_id, lsn).

Definition commit_mini_txn (io : Calls) (txn_id : Z) (prev_lsn : Lsn) : op Wal Lsn :=
  lsn <- append_locked io txn_id prev_lsn WAL_COMMIT 0 0 [] [];;
  sync_unless_deferred io lsn.

Definition abort_mini_txn (io : Calls) (txn_id : Z) (prev_lsn : Lsn) : op Wal Lsn :=
  lsn <- append_locked io txn_id prev_lsn WAL_ABORT 0 0 [] [];;
  sync_unless_deferred io lsn.

Definition log_insert (io : Calls) (txn_id : Z) (prev_lsn : Lsn) (page_id slot : Z)
    (redo : list Z) : op Wal Lsn :=
  append_locked io txn_id prev_lsn WAL_INSERT page_id slot redo [].

Definition log_update (io : Calls) (txn_id : Z) (prev_lsn : Lsn) (page_id slot : Z)
    (redo undo : list Z) : op Wal Lsn :=
  append_locked io txn_id prev_lsn WAL_UPDATE page_id slot redo undo.

Definition log_delete (io : Calls) (txn_id : Z) (prev_lsn : Lsn) (page_id slot : Z)
    (undo : list Z) : op Wal Lsn :=
  append_locked io txn_id prev_lsn WAL_DELETE page_id slot [] undo.

Definition log_vacuum (io : Calls) (txn_id : Z) (prev_lsn : Lsn) (page_id slot : Z)
    (redo : list Z) : op Wal Lsn :=
  append_locked io txn_id prev_lsn WAL_VACUUM page_id slot redo [].

Definition log_fpi (io : Calls) (txn_id : Z) (prev_lsn : Lsn) (page_id : Z)
    (image : list Z) : op Wal Lsn :=
  append_locked io txn_id prev_lsn WAL_FPI page_id 65535 image [].

Definition log_index (io : Calls) (txn_id : Z) (prev_lsn : Lsn) (page_id : Z)
    (image : list Z) : op Wal Lsn :=
  append_locked io txn_id prev_lsn WAL_INDEX page_id 65535 image [].

Definition log_index_insert_with_include (io : Calls) (txn_id : Z) (prev_lsn : Lsn)
    (page_id slot : Z) (key_bytes : list Z) (rid_page_id rid_slot : Z) (include_bytes : list Z)
    : op Wal Lsn :=
  append_locked io txn_id prev_lsn WAL_INDEX_INSERT page_id slot
    (u16_to_le (u16 (zlen key_bytes)) ++ key_bytes ++ u32_to_le rid_page_id ++
     u16_to_le rid_slot ++ u32_to_le (u32 (zlen include_bytes)) ++ include_bytes) [].

Definition log_index_insert (io : Calls) (txn_id : Z) (prev_lsn : Lsn) (page_id slot : Z)
    (key_bytes : list Z) (rid_page_id rid_slot : Z) : op Wal Lsn :=
  log_index_insert_with_include io txn_id prev_lsn page_id slot key_bytes rid_page_id rid_slot [].

(** A count followed by the slots. *)
Definition slots_payload (slots : list Z) : list Z :=
  u16_to_le (u16 (zlen slots)) ++ concat (u16_to_le <$> slots).

Definition xmax_batch_redo (xid : Xid) (slots : list Z) : list Z :=
  u64_to_le xid ++ slots_payload slots.

Definition log_xmax_batch (io : Calls) (txn_id : Z) (prev_lsn : Lsn) (page_id : Z) (xid : Xid)
    (slots : list Z) : op Wal Lsn :=
  append_locked io txn_id prev_lsn WAL_XMAX_BATCH page_id 65535
    (xmax_batch_redo xid slots) (slots_payload slots).

Definition hot_update_redo (xid : Xid) (old_slot new_slot : Z) (insert_redo : list Z) : list Z :=
  u64_to_le xid ++ u16_to_le old_slot ++ u16_to_le new_slot ++ insert_redo.
Definition hot_update_undo (old_slot new_slot : Z) : list Z :=
  u16_to_le old_slot ++ u16_to_le new_slot.

Definition log_hot_update (io : Calls) (txn_id : Z) (prev_lsn : Lsn) (page_id : Z) (xid : Xid)
    (old_slot new_slot : Z) (insert_redo : list Z) : op Wal Lsn :=
  append_locked io txn_id prev_lsn WAL_HOT_UPDATE page_id old_slot
    (hot_update_redo xid old_slot new_slot insert_redo) (hot_update_undo old_slot new_slot).

Definition hot_xpage_redo (xid : Xid) (old_slot new_page_id new_slot : Z) : list Z :=
  u64_to_le xid ++ u16_to_le old_slot ++ u32_to_le new_page_id ++ u16_to_le new_slot.
Definition hot_xpage_undo (old_slot saved_prev_page saved_prev_slot : Z) : list Z :=
  u16_to_le old_slot ++ u32_to_le saved_prev_page ++ u16_to_le saved_prev_slot.

Definition log_hot_xpage_head (io : Calls) (txn_id : Z) (prev_lsn : Lsn) (old_page_id : Z)
    (xid : Xid) (old_slot new_page_id new_slot saved_prev_page saved_prev_slot : Z)
    : op Wal Lsn :=
  append_locked io txn_id prev_lsn WAL_HOT_XPAGE_HEAD old_page_id old_slot
    (hot_xpage_redo xid old_slot new_page_id new_slot)
    (hot_xpage_undo old_slot saved_prev_page saved_prev_slot).

Definition insert_batch_redo (xid : Xid) (rows : list (Z * list Z)) : list Z :=
  u64_to_le xid ++ u16_to_le (u16 (zlen rows)) ++
  concat ((λ r : Z * list Z, u16_to_le r.1 ++ u32_to_le (u32 (zlen r.2)) ++ r.2) <$> rows).

Definition log_insert_batch (io : Calls) (txn_id : Z) (prev_lsn : Lsn) (page_id : Z) (xid : Xid)
    (rows : list (Z * list Z)) : op Wal Lsn :=
  append_locked io txn_id prev_lsn WAL_INSERT_BATCH page_id 65535
    (insert_batch_redo xid rows) (slots_payload rows.*1).

(** An entry is [(old_slot, new_page_id, new_slot, saved_prev_page, saved_prev_slot)]. *)
Abbreviation XpageEntry := (Z * Z * Z * Z * Z)%type.

Definition hot_xpage_batch_redo (xid : Xid) (entries : list XpageEntry) : list Z :=
  u64_to_le xid ++ u16_to_le (u16 (zlen entries)) ++
  concat ((λ '(old_slot, new_page_id, new_slot, _, _),
             u16_to_le old_slot ++ u32_to_le new_page_id ++ u16_to_le new_slot) <$> entries).
Definition hot_xpage_batch_undo (entries : list XpageEntry) : list Z :=
  u16_to_le (u16 (zlen entries)) ++
  concat ((λ '(old_slot, _, _, saved_prev_page, saved_prev_slot),
             hot_xpage_undo old_slot saved_prev_page saved_prev_slot) <$> entries).

Definition log_hot_xpage_batch (io : Calls) (txn_id : Z) (prev_lsn : Lsn) (old_page_id : Z)
    (xid : Xid) (entries : list XpageEntry) : op Wal Lsn :=
  append_locked io txn_id prev_lsn WAL_HOT_XPAGE_BATCH old_page_id 65535
    (hot_xpage_batch_redo xid entries) (hot_xpage_batch_undo entries).

Definition begin_user_txn (io : Calls) (xid : Xid) : op Wal Lsn :=
  append_locked io xid INVALID_LSN WAL_TXN_BEGIN 0 0 [] [].

Definition commit_user_txn (io : Calls) (xid : Xid) (prev_lsn : Lsn) : op Wal Lsn :=
  lsn <- append_locked io xid prev_lsn WAL_TXN_COMMIT 0 0 [] [];;
  sync_unless_deferred io lsn.

Definition abort_user_txn (io : Calls) (xid : Xid) (prev_lsn : Lsn) : op Wal Lsn :=
  lsn <- append_locked io xid prev_lsn WAL_TXN_ABORT 0 0 [] [];;
  sync_unless_deferred io lsn.

Definition log_checkpoint (io : Calls) : op Wal Lsn :=
  lsn <- append_locked io 0 INVALID_LSN WAL_CHECKPOINT 0 0 [] [];;
  fsync_locked io;;
  op_ret lsn.

Definition current_lsn (w : Wal) : Lsn := next_lsn w - 1.

(** ** Truncation *)

(** The loop over the listing taken at the start; [None] of the next entry is
    the active segment's base. *)
Fixpoint truncate_loop (io : Calls) (keep_from_lsn : Lsn) (segments : Dir) : op Wal unit :=
  match segments with
  | [] => op_ret tt
  | (idx, _) :: rest =>
      w <- gets id;;
      (if decide (idx = active_seg w) then op_ret tt
       else
         let next_base := match rest with
                          | (_, next) :: _ => read_segment_base_lsn (f_data next)
                          | [] => active_base_lsn w
                          end in
         if decide (next_base ≤ keep_from_lsn) then
           if io_remove io idx then modify (λ w, set_disk w (dir_remove idx (dir w)) (w_buf w))
           else fail Io
         else op_ret tt);;
      truncate_loop io keep_from_lsn rest
  end.

Definition dir_bytes (d : Dir) : Z := foldr (λ e n, zlen (f_data e.2) + n) 0 d.

Definition truncate_before (io : Calls) (keep_from_lsn : Lsn) : op Wal unit :=
  drain io;;
  bw_flush (io_flush io);;
  segments <- gets dir;;
  truncate_loop io keep_from_lsn segments;;
  modify (λ w, set_counts w (active_bytes w) (dir_bytes (dir w)) (total_bytes_appended w)).

(** ** Shipping *)

Definition scan_dir (d : Dir) : list WalRecord := scan_file (f_data ∘ snd <$> d).

Definition records_from (w : Wal) (from_lsn : Lsn) : list WalRecord :=
  filter (λ r, from_lsn < w_lsn r ∧ w_lsn r ≤ durable_lsn w) (scan_dir (dir w)).

Definition ship_from (w : Wal) (from_lsn : Lsn) : list Z := encode_stream (records_from w from_lsn).

Definition ship_record (io : Calls) (r : WalRecord) : op Wal unit :=
  write_framed_locked io (encode_record r) (w_lsn r);;
  modify (λ w, if decide (next_lsn w < w_lsn r + 1) then set_next_lsn w (w_lsn r + 1) else w).

Definition write_shipped (io : Calls) (records : list WalRecord) : op Wal unit := λ w,
  if decide (records = []) then (Ok tt, w)
  else if poisoned w then (Err poisoned_error, w)
  else (each (ship_record io) records;; fsync_locked io) w.

(** ** Opening *)

(** On the files a previous process left; [Err] and the files if the first
    segment cannot be created. *)
Definition open_with_segment_size (io : Calls) (segments : Dir) (start_lsn segment_size : Z)
    : Result Wal * Dir :=
  let segment_size := Z.max segment_size (SEG_HDR + 1) in
  let next_lsn := if decide (start_lsn = INVALID_LSN) then 1 else start_lsn + 1 in
  let start d seg base bytes total :=
    mkWal d [] seg base bytes segment_size next_lsn 1 total 0 INVALID_LSN None false false false
      new_sealer in
  match last segments with
  | Some (idx, f) =>
      (Ok (start segments idx (read_segment_base_lsn (f_data f)) (zlen (f_data f))
             (dir_bytes segments)), segments)
  | None =>
      match create_segment io 1 next_lsn segments with
      | (Ok _, d) => (Ok (start d 1 next_lsn SEG_HDR SEG_HDR), d)
      | (Err e, d) => (Err e, d)
      | (Panic, d) => (Panic, d)
      end
  end.

(** ** Crashes

    What a power loss may leave of the files: of each file the fsynced bytes and
    any number of the bytes written after them. *)
Definition crash_file (f : File) (n : nat) : File :=
  mkFile (take (Nat.max (f_synced f) n) (f_data f)) (f_synced f).
Definition crash (d : Dir) (keep : Z → nat) : Dir :=
  (λ e : Z * File, (e.1, crash_file e.2 (keep e.1))) <$> d.

End wal.
