(* ===== verification/WalInv.v ===== *)
(** The invariant of the write-ahead log: every segment holds a header and whole
    frames, LSNs ascend, and each operation's effect on the records. *)

From stdpp Require Import base numbers list sorting sets.
From S2P Require Import Prelude Format Page WalCodec WalCodecProps Wal.
Open Scope op_scope.

(** ** Directories *)

Lemma dir_alter_fst f idx d : (dir_alter f idx d).*1 = d.*1.
Proof.
  unfold dir_alter. rewrite <- list_fmap_compose. apply list_fmap_ext.
  intros _ [i x] _. simpl. by case_decide.
Qed.

Lemma dir_alter_out f idx d : idx ∉ d.*1 → dir_alter f idx d = d.
Proof.
  intros Hd. unfold dir_alter. rewrite <- (list_fmap_id d) at 2. apply list_fmap_ext.
  intros k [i x] Hk. simpl. rewrite decide_False; [done|]. intros ->. apply Hd.
  apply list_elem_of_fmap. exists (idx, x). split; [done|]. by eapply list_elem_of_lookup_2.
Qed.

Lemma dir_alter_app f idx d d' :
  dir_alter f idx (d ++ d') = dir_alter f idx d ++ dir_alter f idx d'.
Proof. apply fmap_app. Qed.

Lemma dir_alter_compose f g idx d :
  dir_alter f idx (dir_alter g idx d) = dir_alter (f ∘ g) idx d.
Proof.
  unfold dir_alter. rewrite <- list_fmap_compose. apply list_fmap_ext.
  intros _ [i x] _. simpl. by destruct (decide (i = idx)) eqn:E; simpl; rewrite E.
Qed.

Lemma dir_alter_ext f g idx d : (∀ x, f x = g x) → dir_alter f idx d = dir_alter g idx d.
Proof. intros E. apply list_fmap_ext. intros _ [i x] _. simpl. case_decide; by rewrite ?E. Qed.

Lemma dir_alter_id f idx d : (∀ x, f x = x) → dir_alter f idx d = d.
Proof.
  intros E. unfold dir_alter. rewrite <- (list_fmap_id d) at 2. apply list_fmap_ext.
  intros _ [i x] _. simpl. case_decide; by rewrite ?E.
Qed.

Lemma dir_append_nil idx d : dir_alter (file_append []) idx d = d.
Proof. apply dir_alter_id. intros []. unfold file_append. simpl. by rewrite app_nil_r. Qed.

Lemma dir_append_append a b idx d :
  dir_alter (file_append b) idx (dir_alter (file_append a) idx d) =
  dir_alter (file_append (a ++ b)) idx d.
Proof.
  rewrite dir_alter_compose. apply dir_alter_ext. intros []. unfold file_append. simpl.
  by rewrite app_assoc.
Qed.

Lemma dir_alter_commute f g i j d : (∀ x, f (g x) = g (f x)) →
  dir_alter f i (dir_alter g j d) = dir_alter g j (dir_alter f i d).
Proof.
  intros E. unfold dir_alter. rewrite <- !list_fmap_compose. apply list_fmap_ext.
  intros _ [k x] _. simpl. destruct (decide (k = i)) eqn:Ei, (decide (k = j)) eqn:Ej; simpl;
    rewrite ?Ei, ?Ej, ?E; done.
Qed.

(** The file of segment [idx] between lower and higher ones. *)
Lemma dir_alter_mid f idx d x d' : idx ∉ d.*1 → idx ∉ d'.*1 →
  dir_alter f idx (d ++ (idx, x) :: d') = d ++ (idx, f x) :: d'.
Proof.
  intros. rewrite dir_alter_app, (dir_alter_out _ _ d) by done. f_equal.
  change ((idx, x) :: d') with ([(idx, x)] ++ d'). rewrite dir_alter_app, (dir_alter_out _ _ d') by done.
  unfold dir_alter. simpl. by rewrite decide_True.
Qed.

Lemma dir_put_last idx x d d' : Forall (λ e : Z * File, e.1 < idx) d →
  (d' = [] ∨ ∃ y, d' = [(idx, y)]) → dir_put idx x (d ++ d') = d ++ [(idx, x)].
Proof.
  intros Hd Hd'. induction Hd as [|[i y] d Hi _ IH]; simpl in *.
  - destruct Hd' as [->|[y ->]]; [done|]. simpl. rewrite decide_False by lia.
    by rewrite decide_True.
  - rewrite decide_False by lia. rewrite decide_False by lia. by rewrite IH.
Qed.

Lemma not_in_below idx (d : Dir) : Forall (λ e : Z * File, e.1 < idx) d → idx ∉ d.*1.
Proof.
  intros Hd (e & -> & He)%list_elem_of_fmap. rewrite Forall_forall in Hd.
  specialize (Hd _ He). simpl in Hd. lia.
Qed.

(** ** Files on disk *)

(** A file that only gains bytes, and only gains fsynced bytes. *)
Definition grow (f f' : File) : Prop :=
  f_data f `prefix_of` f_data f' ∧ (f_synced f ≤ f_synced f')%nat.

Lemma grow_refl f : grow f f.
Proof. done. Qed.
Lemma grow_trans f g h : grow f g → grow g h → grow f h.
Proof. intros [] []. split; [by etrans|lia]. Qed.
Lemma grow_append bs f : grow f (file_append bs f).
Proof. split; [by apply prefix_app_r|done]. Qed.

(** The files of the segments in [P] are kept, and grow. *)
Definition dir_keeps (P : Z → Prop) (d d' : Dir) : Prop :=
  ∀ i f, P i → (i, f) ∈ d → ∃ f', (i, f') ∈ d' ∧ grow f f'.

Lemma dir_keeps_refl P d : dir_keeps P d d.
Proof. intros i f _ Hf. exists f. split; [done|apply grow_refl]. Qed.

Lemma dir_keeps_trans (P : Z → Prop) d1 d2 d3 :
  dir_keeps P d1 d2 → dir_keeps P d2 d3 → dir_keeps P d1 d3.
Proof.
  intros H1 H2 i f Hi (g&Hg&Hfg)%H1; [|done]. destruct (H2 i g Hi Hg) as (h&Hh&Hgh).
  exists h. split; [done|by eapply grow_trans].
Qed.

Lemma dir_keeps_weaken (P Q : Z → Prop) d d' : (∀ i, Q i → P i) → dir_keeps P d d' → dir_keeps Q d d'.
Proof. intros HQ Hd i f Hi. apply Hd. by apply HQ. Qed.

Lemma elem_of_dir_alter g idx d i f :
  (i, f) ∈ dir_alter g idx d ↔ ∃ f0, (i, f0) ∈ d ∧ f = if decide (i = idx) then g f0 else f0.
Proof.
  unfold dir_alter. rewrite list_elem_of_fmap. split.
  - intros ([j f0]&E&Hin). exists f0. simpl in E. case_decide; simplify_eq; split; try done.
    all: by rewrite ?decide_True, ?decide_False by done.
  - intros (f0&Hin&->). exists (i, f0). split; [|done]. simpl. by case_decide.
Qed.

Lemma dir_keeps_alter P g idx d : (∀ f, (f_synced f ≤ length (f_data f))%nat → grow f (g f)) →
  (∀ i f, (i, f) ∈ d → (f_synced f ≤ length (f_data f))%nat) → dir_keeps P d (dir_alter g idx d).
Proof.
  intros Hg Hd i f _ Hf. exists (if decide (i = idx) then g f else f). split.
  - apply elem_of_dir_alter. eauto.
  - case_decide; [|apply grow_refl]. apply Hg. by eapply Hd.
Qed.

Lemma elem_of_dir_put idx g d i f : i ≠ idx → (i, f) ∈ d → (i, f) ∈ dir_put idx g d.
Proof.
  intros Hi. induction d as [|[j h] d IH]; simpl; [set_solver|].
  repeat case_decide; simpl in *; subst; set_solver.
Qed.

Lemma elem_of_dir_put_inv idx g d i f :
  (i, f) ∈ dir_put idx g d → (i, f) = (idx, g) ∨ (i, f) ∈ d.
Proof.
  induction d as [|[j h] d IH]; simpl; [set_solver|].
  repeat case_decide; simpl in *; subst; set_solver.
Qed.

Definition synced_ok (d : Dir) : Prop :=
  ∀ i f, (i, f) ∈ d → (f_synced f ≤ length (f_data f))%nat.

Lemma synced_ok_alter g idx d : (∀ f, (f_synced f ≤ length (f_data f))%nat →
    (f_synced (g f) ≤ length (f_data (g f)))%nat) →
  synced_ok d → synced_ok (dir_alter g idx d).
Proof.
  intros Hg Hd i f (f0&Hin&->)%elem_of_dir_alter. case_decide; [apply Hg|]; by eapply Hd.
Qed.

Lemma grow_sync f : (f_synced f ≤ length (f_data f))%nat → grow f (file_sync f).
Proof. by split. Qed.

(** The whole file of segment [i] is on disk. *)
Definition on_disk (d : Dir) (i : Z) : Prop :=
  ∀ f, (i, f) ∈ d → f_synced f = length (f_data f).

(** It is, or the sealer has it, or the sealer has failed. *)
Definition sealed_status (w : Wal) (i : Z) : Prop :=
  on_disk (dir w) i ∨ (∃ l, pending (sealer w) = Some (i, l)) ∨
  (∃ l, sealing (sealer w) = Some (i, l)) ∨ seal_error (sealer w) = true.

Lemma on_disk_sync d seg i : on_disk d i → on_disk (dir_alter file_sync seg d) i.
Proof. intros Hd f (f0&Hin&->)%elem_of_dir_alter. case_decide; [done|by apply Hd]. Qed.

Lemma on_disk_synced d i : on_disk (dir_alter file_sync i d) i.
Proof. intros f (f0&Hin&->)%elem_of_dir_alter. by rewrite decide_True. Qed.

Lemma on_disk_out g d seg i : i ≠ seg → on_disk d i → on_disk (dir_alter g seg d) i.
Proof. intros Hi Hd f (f0&Hin&->)%elem_of_dir_alter. rewrite decide_False by done. by apply Hd. Qed.

Section props.
Context `{!Crc32}.

(** ** The writer

    The bytes the log has accepted: the files with the writer's buffer appended
    to the active one. *)

Definition view (w : Wal) : Dir := dir_alter (file_append (w_buf w)) (active_seg w) (dir w).

(** The fields a write leaves alone. *)
Definition same_but_disk (w w' : Wal) : Prop := w' = set_disk w (dir w') (w_buf w').

Lemma same_but_disk_refl w : same_but_disk w w.
Proof. by destruct w. Qed.
#[local] Hint Resolve same_but_disk_refl : core.

Lemma bw_flush_view fault w r w' : bw_flush fault w = (r, w') →
  same_but_disk w w' ∧ view w' = view w ∧ (r = Ok tt → w_buf w' = []) ∧
  (∃ bs, dir w' = dir_alter (file_append bs) (active_seg w) (dir w)) ∧
  (r = Ok tt ∨ r = Err Io).
Proof.
  intros E. assert (∃ a b, w_buf w = a ++ b ∧
    w' = set_disk w (dir_alter (file_append a) (active_seg w) (dir w)) b ∧
    (r = Ok tt → b = []) ∧ (r = Ok tt ∨ r = Err Io)) as (a & b & Eb & -> & Hr & Hr').
  { unfold bw_flush in E. destruct fault as [n|]; [case_decide|]; simplify_eq.
    - exists (take n (w_buf w)), (drop n (w_buf w)). rewrite take_drop. naive_solver.
    - exists (w_buf w), []. rewrite app_nil_r. naive_solver.
    - exists (w_buf w), []. rewrite app_nil_r. naive_solver. }
  split_and!; [done| |done|by exists a|done].
  unfold view. simpl. by rewrite dir_append_append, Eb.
Qed.

Lemma view_push bs w : view (bw_push bs w) = dir_alter (file_append bs) (active_seg w) (view w).
Proof.
  unfold view, bw_push. simpl. by rewrite dir_append_append.
Qed.

Lemma view_write bs w : w_buf w = [] →
  view (set_disk w (dir_alter (file_append bs) (active_seg w) (dir w)) (w_buf w)) =
  dir_alter (file_append bs) (active_seg w) (view w).
Proof.
  intros E. unfold view. simpl. by rewrite E, !dir_append_nil.
Qed.

(** A write that succeeds appends its bytes; a small one that fails appends
    nothing, and no write fails unless a system call does. *)
Lemma bw_write_all_view bs fault w r w' : bw_write_all bs fault w = (r, w') →
  same_but_disk w w' ∧
  (∃ bs', dir w' = dir_alter (file_append bs') (active_seg w) (dir w)) ∧
  (r = Ok tt → view w' = dir_alter (file_append bs) (active_seg w) (view w)) ∧
  (r ≠ Ok tt → zlen bs < BUF_CAPACITY → view w' = view w) ∧
  (fault = None → r = Ok tt) ∧ (r = Ok tt ∨ r = Err Io).
Proof.
  intros E. unfold bw_write_all in E. case_decide as H1.
  { simplify_eq. split_and!; [done| |intros _; apply view_push|done|done|by left].
    exists []. by rewrite dir_append_nil. }
  destruct ((if decide (BUF_CAPACITY - zlen (w_buf w) < zlen bs) then bw_flush fault
             else op_ret tt) w) as [r1 w1] eqn:E1.
  assert (same_but_disk w w1 ∧ view w1 = view w ∧
    (∃ bs', dir w1 = dir_alter (file_append bs') (active_seg w) (dir w)) ∧
    (fault = None → r1 = Ok tt) ∧ (r1 = Ok tt ∨ r1 = Err Io) ∧
    (r1 = Ok tt → BUF_CAPACITY ≤ zlen bs → w_buf w1 = [])) as (S1&V1&[b1 D1]&N1&R1&B1).
  { case_decide.
    - destruct (bw_flush_view _ _ _ _ E1) as (?&?&?&?&?). split_and!; try done; [|by auto].
      intros ->. unfold bw_flush in E1. by simplify_eq.
    - inversion E1; subst. split_and!; try done; [|by left|].
      + exists []. by rewrite dir_append_nil.
      + intros _ ?. pose proof (zlen_nonneg (w_buf w1)). apply nil_length_inv.
        unfold zlen in *. lia. }
  unfold op_bind in E. rewrite E1 in E.
  destruct R1 as [->| ->]; [|simplify_eq; split_and!; by eauto].
  assert (active_seg w1 = active_seg w) as A1 by (by rewrite S1).
  case_decide as H2.
  - unfold os_write in E. specialize (B1 eq_refl H2).
    assert (∃ bs', w' = set_disk w1 (dir_alter (file_append bs') (active_seg w1) (dir w1)) (w_buf w1)
      ∧ (r = Ok tt → bs' = bs) ∧ (fault = None → r = Ok tt) ∧ (r = Ok tt ∨ r = Err Io))
      as (bs' & -> & Hr & Hn & Hr').
    { destruct fault as [n|]; simpl in E; [case_decide|]; simplify_eq; eexists; naive_solver. }
    split_and!; [unfold same_but_disk; by rewrite S1|..| |lia|done|done].
    + exists (b1 ++ bs'). simpl. by rewrite A1, D1, dir_append_append.
    + intros Hok. rewrite view_write, V1, A1, (Hr Hok); done.
  - unfold modify in E. simplify_eq. split_and!; try done; [by rewrite S1| | |by left].
    + exists b1. simpl. done.
    + intros _. by rewrite view_push, V1, A1.
Qed.
(** ** The records of a log *)

Record Seg := mkSeg { s_idx : Z; s_base : Lsn; s_recs : list WalRecord }.

Definition seg_bytes (base : Lsn) (rs : list WalRecord) : list Z :=
  segment_header_bytes base ++ encode_stream rs.
Definition seg_content (s : Seg) : Z * list Z := (s_idx s, seg_bytes (s_base s) (s_recs s)).
Definition log (segs : list Seg) : list WalRecord := concat (s_recs <$> segs).

(** The bytes of each segment, buffered ones included, and what a scan of them
    returns. *)
Definition content (w : Wal) : list (Z * list Z) := (λ e, (e.1, f_data e.2)) <$> view w.
Definition log_of (w : Wal) : list WalRecord := scan_file (content w).*2.

(** LSNs ascend through the log, and a segment's base LSN separates its records
    from those of the segments before it. *)
Record lsns_ok (segs : list Seg) (next : Lsn) : Prop := {
  lo_sorted : StronglySorted Z.lt (w_lsn <$> log segs);
  lo_next : Forall (λ r, w_lsn r < next) (log segs);
  lo_base pre s post : segs = pre ++ s :: post →
    Forall (λ r, w_lsn r < s_base s) (log pre) ∧
    Forall (λ r, s_base s ≤ w_lsn r) (log (s :: post)) ∧
    0 ≤ s_base s < 2 ^ 64 ∧ s_base s ≤ next;
  lo_records : Forall record_ok (log segs);
}.

Definition segs_of (w : Wal) (sealed : list Seg) (rs : list WalRecord) : list Seg :=
  sealed ++ [mkSeg (active_seg w) (active_base_lsn w) rs].

(** The invariant: the segments before the active one and the active one hold
    whole frames; a segment whose creation failed may follow them. *)
Record wal_inv (w : Wal) (sealed : list Seg) (rs : list WalRecord) : Prop := {
  wi_content : ∃ stray, content w = (seg_content <$> segs_of w sealed rs) ++ stray ∧
    (stray = [] ∨ ∃ bs, stray = [(active_seg w + 1, bs)] ∧ zlen bs < 16);
  wi_sorted : StronglySorted Z.lt (dir w).*1;
  wi_bytes : active_bytes w = 16 + zlen (encode_stream rs);
  wi_lsns : lsns_ok (segs_of w sealed rs) (next_lsn w);
  wi_next : 1 ≤ next_lsn w;
  wi_synced : synced_ok (dir w);
  wi_status : Forall (λ s, sealed_status w (s_idx s)) sealed;
}.

Definition wal_ok (w : Wal) : Prop := ∃ sealed rs, wal_inv w sealed rs.

Lemma seg_bytes_snoc base rs r : seg_bytes base (rs ++ [r]) = seg_bytes base rs ++ frame r.
Proof.
  unfold seg_bytes. rewrite encode_stream_app, encode_stream_cons, <- app_assoc.
  by rewrite (app_nil_r (frame r)).
Qed.

Lemma log_app segs segs' : log (segs ++ segs') = log segs ++ log segs'.
Proof. unfold log. by rewrite fmap_app, concat_app. Qed.

Lemma log_single s : log [s] = s_recs s.
Proof. unfold log. simpl. by rewrite app_nil_r. Qed.

Lemma content_fst w : (content w).*1 = (dir w).*1.
Proof.
  unfold content. rewrite <- list_fmap_compose. rewrite <- (dir_alter_fst (file_append (w_buf w)) (active_seg w) (dir w)).
  by apply list_fmap_ext.
Qed.

Lemma scan_segs segs : Forall record_ok (log segs) →
  scan_file (seg_content <$> segs).*2 = log segs.
Proof.
  induction segs as [|s segs IH]; [done|]. unfold log in *. rewrite !fmap_cons. cbn [concat].
  intros [Hs Hr]%Forall_app. unfold scan_file in *. rewrite !fmap_cons. cbn [concat].
  rewrite IH by done. f_equal. unfold seg_content, seg_bytes. cbn [snd].
  rewrite <- (app_nil_r (encode_stream _)). apply scan_segment_prefix; [done|]. by left.
Qed.

Lemma scan_short bs : zlen bs < 16 → scan_segment_file bs = [].
Proof. intros. unfold scan_segment_file, SEG_HDR. by rewrite decide_True. Qed.

Lemma log_of_inv w sealed rs : wal_inv w sealed rs → log_of w = log sealed ++ rs.
Proof.
  intros [(stray&E&Hs) _ _ Hl _ _ _]. unfold log_of. rewrite E, fmap_app. unfold scan_file.
  rewrite fmap_app, concat_app. fold (scan_file (seg_content <$> segs_of w sealed rs).*2).
  rewrite scan_segs by apply Hl. unfold segs_of. rewrite log_app, log_single. simpl.
  destruct Hs as [->|(bs&->&Hb)]; simpl; rewrite ?scan_short by done; by rewrite app_nil_r.
Qed.

Lemma content_view w w' : view w' = view w → content w' = content w.
Proof. intros E. unfold content. by rewrite E. Qed.

(** Fsyncing files changes no contents. *)
Lemma content_sync w seg :
  content (set_disk w (dir_alter file_sync seg (dir w)) (w_buf w)) = content w.
Proof.
  unfold content, view, dir_alter. simpl. rewrite <- !list_fmap_compose. apply list_fmap_ext.
  intros _ [i f] _. simpl. destruct (decide (i = seg)) eqn:E1, (decide (i = active_seg w)) eqn:E2;
    simpl; rewrite E2; done.
Qed.

(** Bytes appended to the active segment. *)
Lemma content_append w w' bs pre b stray :
  view w' = dir_alter (file_append bs) (active_seg w) (view w) →
  content w = pre ++ (active_seg w, b) :: stray →
  active_seg w ∉ pre.*1 → active_seg w ∉ stray.*1 →
  content w' = pre ++ (active_seg w, b ++ bs) :: stray.
Proof.
  intros E Ec Hp Hs. 
  assert (content w' = (λ c : Z * list Z, if decide (c.1 = active_seg w) then (c.1, c.2 ++ bs) else c)
    <$> content w) as ->.
  { unfold content. rewrite E. unfold dir_alter. rewrite <- !list_fmap_compose.
    apply list_fmap_ext. intros _ [i f] _. simpl. by case_decide. }
  assert (∀ l : list (Z * list Z), active_seg w ∉ l.*1 →
    (λ c : Z * list Z, if decide (c.1 = active_seg w) then (c.1, c.2 ++ bs) else c) <$> l = l) as Hid.
  { intros l Hl. rewrite <- (list_fmap_id l) at 2. apply list_fmap_ext. intros k [i x] Hk. simpl.
    rewrite decide_False; [done|]. intros ->. apply Hl, list_elem_of_fmap.
    eexists. split; [|by eapply list_elem_of_lookup_2]. done. }
  rewrite Ec, fmap_app, fmap_cons, !Hid by done. simpl. by rewrite decide_True.
Qed.

Lemma snoc_split {A} (l : list A) x pre s post : l ++ [x] = pre ++ s :: post →
  (pre = l ∧ s = x ∧ post = []) ∨ ∃ post', l = pre ++ s :: post' ∧ post = post' ++ [x].
Proof.
  destruct post as [|y post _] using rev_ind; intros E.
  - left. apply app_inj_tail in E as [-> ->]. done.
  - right. exists post. rewrite app_comm_cons, app_assoc in E. by apply app_inj_tail in E as [-> ->].
Qed.

Lemma lsns_ok_append sealed i b rs r n :
  lsns_ok (sealed ++ [mkSeg i b rs]) n → record_ok r → w_lsn r = n →
  lsns_ok (sealed ++ [mkSeg i b (rs ++ [r])]) (n + 1).
Proof.
  intros [Hs Hn Hb Hr] Hok <-.
  assert (∀ l, log (l ++ [mkSeg i b (rs ++ [r])]) = log (l ++ [mkSeg i b rs]) ++ [r]) as El.
  { intros l. by rewrite !log_app, !log_single, <- app_assoc. }
  constructor; rewrite ?El.
  - rewrite fmap_app. apply StronglySorted_app. split_and!; [|done|by repeat constructor].
    intros x y (r1&->&H1)%list_elem_of_fmap ->%list_elem_of_singleton.
    rewrite Forall_forall in Hn. by apply Hn.
  - apply Forall_app. split; [|repeat constructor; lia]. eapply Forall_impl; [exact Hn|]. intros ? ?. simpl in *. lia.
  - intros pre s post E. apply snoc_split in E as [(->&->&->)|(post'&->&->)].
    + destruct (Hb sealed (mkSeg i b rs) [] eq_refl) as (?&H2&?&Hle). simpl in Hle.
      split_and!; try done; try (simpl in *; lia).
      rewrite <- (app_nil_l [mkSeg i b (rs ++ [r])]), El. apply Forall_app. by repeat constructor.
    + destruct (Hb pre s (post' ++ [mkSeg i b rs])) as (?&H2&?&?); [by rewrite <- app_assoc|].
      split_and!; try done; try lia. rewrite app_comm_cons, El.
      apply Forall_app. by repeat constructor.
  - apply Forall_app. split; [done|]. by apply Forall_singleton.
Qed.

Lemma lsns_ok_rotate segs i n : lsns_ok segs n → 0 ≤ n < 2 ^ 64 →
  lsns_ok (segs ++ [mkSeg i n []]) n.
Proof.
  intros [Hs Hn Hb Hr] Hr64.
  assert (∀ l, log (l ++ [mkSeg i n []]) = log l) as El.
  { intros l. by rewrite log_app, log_single, app_nil_r. }
  constructor; rewrite ?El; try done.
  intros pre s post E. apply snoc_split in E as [(->&->&->)|(post'&->&->)]; simpl.
  - split_and!; try done; simpl; lia || constructor.
  - rewrite app_comm_cons, El. by apply Hb.
Qed.

(** ** Rotation and appending *)

Lemma content_sealer w st : content (set_sealer w st) = content w.
Proof. done. Qed.

Lemma sealer_finish_content ok w : content (sealer_finish ok w) = content w.
Proof.
  unfold sealer_finish. destruct (sealing (sealer w)) as [[seg lsn]|]; [|done].
  destruct ok; [|done]. rewrite content_sealer. apply content_sync.
Qed.

(** Nothing happens to the records, and what is on disk stays on disk. *)
Record same_log (w w' : Wal) : Prop := {
  sl_content : content w' = content w;
  sl_seg : active_seg w' = active_seg w;
  sl_base : active_base_lsn w' = active_base_lsn w;
  sl_bytes : active_bytes w' = active_bytes w;
  sl_next : next_lsn w' = next_lsn w;
  sl_synced : synced_ok (dir w) → synced_ok (dir w');
  sl_keeps : synced_ok (dir w) → dir_keeps (λ _, True) (dir w) (dir w');
  sl_status i : i ≠ active_seg w → sealed_status w i → sealed_status w' i;
}.

Lemma same_log_refl w : same_log w w.
Proof. constructor; try done. intros _. apply dir_keeps_refl. Qed.
#[local] Hint Resolve same_log_refl : core.

Lemma same_log_trans w1 w2 w3 : same_log w1 w2 → same_log w2 w3 → same_log w1 w3.
Proof.
  intros [] []. constructor; try congruence; auto.
  - intros. eapply dir_keeps_trans; auto.
  - intros i Hi Hs. apply sl_status1; [congruence|auto].
Qed.

#[global] Instance same_log_preorder : PreOrder same_log.
Proof. split; [exact same_log_refl|exact same_log_trans]. Qed.

(** The same files and sealer. *)
Lemma same_log_fields w w' : dir w' = dir w → w_buf w' = w_buf w → sealer w' = sealer w →
  active_seg w' = active_seg w → active_base_lsn w' = active_base_lsn w →
  active_bytes w' = active_bytes w → next_lsn w' = next_lsn w → same_log w w'.
Proof.
  intros Ed Eb Es Ea Eba Ey En. constructor; try done.
  - unfold content, view. by rewrite Ed, Eb, Ea.
  - by rewrite Ed.
  - intros _. rewrite Ed. apply dir_keeps_refl.
  - intros i _. unfold sealed_status. by rewrite Ed, Es.
Qed.

Lemma log_of_same w w' : same_log w w' → log_of w' = log_of w.
Proof. intros []. unfold log_of. congruence. Qed.

Lemma sealer_take_same w : same_log w (sealer_take w).
Proof.
  unfold sealer_take. destruct (pending (sealer w)) as [item|] eqn:Ep, (sealing (sealer w)) eqn:Es; auto.
  constructor; try done; [intros _; apply dir_keeps_refl|].
  intros i _ [|[[l E]|[[l E]|]]]; unfold sealed_status; simpl; [by left| |congruence|by auto].
  right; right; left. exists l. congruence.
Qed.

Lemma sealer_finish_same ok w : same_log w (sealer_finish ok w).
Proof.
  unfold sealer_finish. destruct (sealing (sealer w)) as [[seg lsn]|] eqn:Es; [|auto].
  destruct ok; (constructor; try done); simpl.
  - apply (content_sync w seg).
  - apply synced_ok_alter. intros f _. by simpl.
  - intros Hd. apply dir_keeps_alter; [apply grow_sync|done].
  - intros i _ [|[[l E]|[[l E]|]]]; unfold sealed_status; simpl.
    + left. by apply on_disk_sync.
    + right; left. by exists l.
    + left. replace i with seg by congruence. apply on_disk_synced.
    + auto.
  - intros _. apply dir_keeps_refl.
  - intros i _ _. unfold sealed_status. simpl. auto.
Qed.

Lemma submit_pending ok w :
  pending (sealer w) = None ∨ pending (sealer (sealer_take (sealer_finish ok w))) = None.
Proof.
  unfold sealer_take, sealer_finish. destruct (pending (sealer w)) eqn:Ep; [right|by left].
  destruct (sealing (sealer w)) as [[seg lsn]|] eqn:Es; [destruct ok; simpl|]; by rewrite ?Ep, ?Es.
Qed.

Lemma submit_same item ok w : same_log w (submit item ok w) ∧ sealed_status (submit item ok w) item.1.
Proof.
  assert (∀ v, pending (sealer v) = None → same_log v (set_sealer v (mkSealer (Some item)
    (done_lsn (sealer v)) (shutdown (sealer v)) (seal_error (sealer v)) (sealing (sealer v))))) as Hset.
  { intros v Ep. constructor; try done; [intros _; apply dir_keeps_refl|].
    intros i _ [|[[l E]|[[l E]|]]]; unfold sealed_status; simpl; eauto. congruence. }
  split.
  - unfold submit. case_decide as Hp; [by apply Hset|].
    destruct (submit_pending ok w) as [?|Hp']; [done|].
    eapply same_log_trans; [apply (sealer_finish_same ok)|].
    eapply same_log_trans; [apply sealer_take_same|]. by apply Hset.
  - unfold submit, sealed_status. simpl. right; left. exists item.2. by destruct item.
Qed.

Lemma same_log_append bs w w' : same_but_disk w w' → view w' = view w →
  dir w' = dir_alter (file_append bs) (active_seg w) (dir w) → same_log w w'.
Proof.
  intros Hs Hv Hd. constructor; try (by rewrite Hs); [by apply content_view|..]; rewrite ?Hd.
  - apply synced_ok_alter. intros f. simpl. rewrite length_app. lia.
  - intros H1. apply dir_keeps_alter; [|done]. intros f _. apply grow_append.
  - intros i Hi. unfold sealed_status. rewrite Hd, Hs. simpl. intros [|?]; [|by right].
    left. by apply on_disk_out.
Qed.

Lemma bw_flush_same fault w r w' : bw_flush fault w = (r, w') → same_log w w'.
Proof. intros (S&V&_&[bs D]&_)%bw_flush_view. by eapply same_log_append. Qed.

Lemma inv_sealed_below w sealed rs : wal_inv w sealed rs →
  Forall (λ s, s_idx s < active_seg w) sealed.
Proof.
  intros [(stray&E&_) Hs _ _ _ _ _]. rewrite <- content_fst, E in Hs.
  unfold segs_of in Hs. rewrite !fmap_app in Hs.
  apply StronglySorted_app in Hs as (_&Hs&_). apply StronglySorted_app in Hs as (Hs&_&_).
  apply Forall_forall. intros s Hin. apply Hs; [|by apply list_elem_of_singleton].
  apply list_elem_of_fmap. exists (seg_content s). split; [done|]. by apply list_elem_of_fmap_2.
Qed.

Lemma wal_inv_same w w' sealed rs : same_log w w' → wal_inv w sealed rs → wal_inv w' sealed rs.
Proof.
  intros [Ec Ea Eb Ey En Hs _ Ht] Hi. pose proof (inv_sealed_below _ _ _ Hi) as Hbel.
  destruct Hi as [Hc Hso Hb Hl Hn Hsy Hst]. constructor; unfold segs_of;
    rewrite ?Ec, ?Ea, ?Eb, ?Ey, ?En; auto.
  - by rewrite <- content_fst, Ec, content_fst.
  - rewrite Forall_forall in *. intros s Hs'. apply Ht; [|auto]. specialize (Hbel _ Hs'). lia.
Qed.

(** How segments change: the records of a segment are those it had and newer
    ones, its file is kept and grows; a new segment has only new records. *)
Definition evolves (next : Lsn) (w w' : Wal) (segs segs' : list Seg) : Prop :=
  ∀ s', s' ∈ segs' →
    Forall (λ r, next ≤ w_lsn r) (s_recs s') ∨
    ∃ s extra, s ∈ segs ∧ s_idx s' = s_idx s ∧ s_base s' = s_base s ∧
      s_recs s' = s_recs s ++ extra ∧ Forall (λ r, next ≤ w_lsn r) extra ∧
      dir_keeps (λ i, i = s_idx s) (dir w) (dir w').

Lemma evolves_keeps next w w' segs :
  dir_keeps (λ i, i ∈ s_idx <$> segs) (dir w) (dir w') → evolves next w w' segs segs.
Proof.
  intros Hk s Hs. right. exists s, []. rewrite app_nil_r. split_and!; try done.
  eapply dir_keeps_weaken; [|exact Hk]. intros i ->. by apply list_elem_of_fmap_2.
Qed.

Lemma evolves_trans next w1 w2 w3 segs1 segs2 segs3 :
  evolves next w1 w2 segs1 segs2 → evolves next w2 w3 segs2 segs3 → evolves next w1 w3 segs1 segs3.
Proof.
  intros H12 H23 s3 Hs3. destruct (H23 _ Hs3) as [|(s2&x&Hs2&E1&E2&E3&Hx&K)]; [by left|].
  destruct (H12 _ Hs2) as [|(s1&y&Hs1&F1&F2&F3&Hy&L)].
  - left. rewrite E3. by apply Forall_app.
  - right. exists s1, (y ++ x). split_and!; try congruence.
    + by rewrite E3, F3, app_assoc.
    + by apply Forall_app.
    + eapply dir_keeps_trans; [exact L|]. by rewrite <- F1.
Qed.

Lemma evolves_same next w w' sealed rs : same_log w w' → wal_inv w sealed rs →
  evolves next w w' (segs_of w sealed rs) (segs_of w' sealed rs).
Proof.
  intros [] Hi. unfold segs_of. rewrite sl_seg0, sl_base0. apply evolves_keeps.
  eapply dir_keeps_weaken; [|apply sl_keeps0, Hi]. done.
Qed.

(** The contents split at the active segment. *)
Lemma inv_split w sealed rs : wal_inv w sealed rs →
  ∃ stray, content w = (seg_content <$> sealed) ++
      (active_seg w, seg_bytes (active_base_lsn w) rs) :: stray ∧
    active_seg w ∉ (seg_content <$> sealed).*1 ∧ active_seg w ∉ stray.*1 ∧
    (stray = [] ∨ ∃ bs, stray = [(active_seg w + 1, bs)] ∧ zlen bs < 16).
Proof.
  intros Hi. pose proof (inv_sealed_below _ _ _ Hi) as Hb. destruct Hi as [(stray&E&Hst) _ _ _ _ _ _].
  exists stray. split_and!; [|..|done].
  - rewrite E. unfold segs_of. by rewrite fmap_app, <- app_assoc.
  - intros (c&Ec&(s&->&Hs)%list_elem_of_fmap)%list_elem_of_fmap. rewrite Forall_forall in Hb.
    specialize (Hb _ Hs). simpl in Ec. lia.
  - intros Hin. destruct Hst as [->|(bs&->&_)]; [by apply not_elem_of_nil in Hin|].
    apply list_elem_of_singleton in Hin. simpl in Hin. lia.
Qed.

Lemma dir_put_content idx f d C stray :
  ((λ e : Z * File, (e.1, f_data e.2)) <$> d) = C ++ stray → Forall (λ c, c.1 < idx) C →
  (stray = [] ∨ ∃ bs, stray = [(idx, bs)]) →
  ((λ e : Z * File, (e.1, f_data e.2)) <$> dir_put idx f d) = C ++ [(idx, f_data f)].
Proof.
  intros (d1&d2&E1&E2&->)%fmap_app_inv HC Hs. subst C. rewrite dir_put_last.
  - by rewrite fmap_app.
  - by rewrite Forall_fmap in HC.
  - destruct Hs as [->|[bs ->]]; [by destruct d2; [left|]|right].
    destruct d2 as [|[i g] [|]]; simplify_eq/=. by exists g.
Qed.

(** A segment put after the active one; the writer's buffer is empty. *)
Lemma content_put w w1 sealed rs f :
  wal_inv w sealed rs → w_buf w = [] → dir w1 = dir_put (active_seg w + 1) f (dir w) →
  w_buf w1 = [] → content w1 =
  (seg_content <$> segs_of w sealed rs) ++ [(active_seg w + 1, f_data f)].
Proof.
  intros Hi Hb Hd Hb1. pose proof (inv_sealed_below _ _ _ Hi) as Hbel.
  destruct Hi as [(stray&E&Hst) _ _ _ _ _ _]. unfold content, view in *.
  rewrite Hb, dir_append_nil in E. rewrite Hb1, dir_append_nil, Hd.
  eapply dir_put_content; [exact E| |].
  - unfold segs_of. rewrite Forall_fmap. apply Forall_app. split; [|repeat constructor; simpl; lia].
    eapply Forall_impl; [exact Hbel|]. intros s Hs. simpl in *. lia.
  - destruct Hst as [->|(bs&->&_)]; [by left|right; by exists bs].
Qed.

Lemma dir_put_sorted idx f d : StronglySorted Z.lt d.*1 → Forall (λ i, i ≤ idx) d.*1 →
  StronglySorted Z.lt (dir_put idx f d).*1.
Proof.
  intros Hs Hle. assert (∃ d1 d2, d = d1 ++ d2 ∧ Forall (λ e : Z * File, e.1 < idx) d1 ∧
    (d2 = [] ∨ ∃ y, d2 = [(idx, y)])) as (d1&d2&->&H1&H2).
  { destruct d as [|[i y] d _] using rev_ind; [by exists [], []; auto|].
    rewrite fmap_app in Hs, Hle. apply StronglySorted_app in Hs as (Hs&_&_).
    apply Forall_app in Hle as [_ Hle]. simpl in *. rewrite Forall_singleton in Hle.
    assert (Forall (λ e : Z * File, e.1 < i) d) as Hd.
    { apply Forall_forall. intros e He. apply Hs; [by apply list_elem_of_fmap_2|].
      by apply list_elem_of_singleton. }
    destruct (decide (i = idx)) as [->|].
    - exists d, [(idx, y)]. eauto.
    - exists (d ++ [(i, y)]), []. rewrite app_nil_r. split_and!; [done| |by left].
      apply Forall_app. split; [|apply Forall_singleton; simpl; lia].
      eapply Forall_impl; [exact Hd|]. intros ? ?. simpl in *. lia. }
  rewrite dir_put_last by done. rewrite fmap_app in *. apply StronglySorted_app in Hs as (_&Hs&_).
  apply StronglySorted_app. split_and!; [|done|by repeat constructor].
  intros x y (e&->&He)%list_elem_of_fmap ->%list_elem_of_singleton. simpl.
  rewrite Forall_forall in H1. by apply H1.
Qed.

Lemma inv_idx_le w sealed rs : wal_inv w sealed rs → Forall (λ i, i ≤ active_seg w + 1) (dir w).*1.
Proof.
  intros Hi. pose proof (inv_sealed_below _ _ _ Hi) as Hb. rewrite <- content_fst.
  destruct (inv_split _ _ _ Hi) as (stray&->&_&_&Hst). rewrite fmap_app, fmap_cons.
  apply Forall_app. split; [|constructor; [simpl; lia|]].
  - rewrite !Forall_fmap. eapply Forall_impl; [exact Hb|]. intros s. simpl. lia.
  - destruct Hst as [->|(bs&->&_)]; repeat constructor. simpl. lia.
Qed.

Lemma create_segment_dir io idx base d r d' : create_segment io idx base d = (r, d') →
  (r = Ok tt ∧ d' = dir_put idx (mkFile (segment_header_bytes base) 0) d) ∨
  (r = Err Io ∧ (d' = d ∨ ∃ bs, zlen bs < 16 ∧ d' = dir_put idx (mkFile bs 0) d)).
Proof.
  unfold create_segment. destruct (io_open io); [|intros [= <- <-]; auto].
  destruct (io_header io) as [n|]; [case_decide as Hn|]; intros [= <- <-]; [|auto..].
  right. split; [done|]. right. eexists. split; [|done].
  unfold zlen. rewrite length_take. pose proof (zlen_segment_header base). unfold zlen in *. lia.
Qed.

Lemma synced_ok_put idx f d : (f_synced f ≤ length (f_data f))%nat →
  synced_ok d → synced_ok (dir_put idx f d).
Proof. intros Hf Hd i g [[= -> ->]|Hin]%elem_of_dir_put_inv; [done|by eapply Hd]. Qed.

Lemma dir_keeps_put (P : Z → Prop) idx f d : ¬ P idx → dir_keeps P d (dir_put idx f d).
Proof.
  intros HP i g Hi Hg. exists g. split; [|apply grow_refl]. apply elem_of_dir_put; [|done].
  by intros ->.
Qed.

Lemma status_put w w' i idx f : dir w' = dir_put idx f (dir w) → sealer w' = sealer w → i ≠ idx →
  sealed_status w i → sealed_status w' i.
Proof.
  intros Ed Es Hi. unfold sealed_status. rewrite Ed, Es. intros [Hd|?]; [|by right]. left.
  intros g [[= -> ->]|Hin]%elem_of_dir_put_inv; [done|by apply Hd].
Qed.

(** The new segment of a rotation, and the old one handed to the sealer. *)
Lemma inv_create w sealed rs item ok :
  wal_inv w sealed rs → w_buf w = [] → next_lsn w < 2 ^ 64 → item.1 = active_seg w →
  let idx := active_seg w + 1 in
  let hdr := mkFile (segment_header_bytes (next_lsn w)) 0 in
  let w2 := set_segment (set_disk w (dir_put idx hdr (dir w)) []) idx (next_lsn w) SEG_HDR in
  wal_inv (submit item ok w2) (segs_of w sealed rs) [] ∧
  dir_keeps (λ i, i ≤ active_seg w) (dir w) (dir (submit item ok w2)).
Proof.
  intros Hi Hb Hn Hit idx hdr w2. pose proof (inv_sealed_below _ _ _ Hi) as Hbel.
  pose proof (inv_idx_le _ _ _ Hi) as Hle. destruct (submit_same item ok w2) as [Hsub Hst].
  assert (synced_ok (dir w2)) as Hsy by (apply synced_ok_put; [simpl; lia|apply Hi]).
  assert (content w2 = (seg_content <$> segs_of w sealed rs) ++ [seg_content (mkSeg idx (next_lsn w) [])])
    as Hc.
  { rewrite (content_put w w2 sealed rs hdr Hi Hb eq_refl eq_refl). unfold seg_content, seg_bytes.
    simpl. done. }
  split.
  - constructor.
    + exists []. rewrite app_nil_r. split; [|by left]. rewrite (sl_content _ _ Hsub).
      unfold segs_of at 1. rewrite (sl_seg _ _ Hsub), (sl_base _ _ Hsub), fmap_app. exact Hc.
    + rewrite <- content_fst, (sl_content _ _ Hsub), content_fst. apply dir_put_sorted; [apply Hi|done].
    + by rewrite (sl_bytes _ _ Hsub).
    + rewrite (sl_next _ _ Hsub). unfold segs_of at 1. rewrite (sl_seg _ _ Hsub), (sl_base _ _ Hsub).
      apply lsns_ok_rotate; [apply Hi|destruct Hi; simpl; lia].
    + rewrite (sl_next _ _ Hsub). apply Hi.
    + by apply Hsub.
    + unfold segs_of. apply Forall_app. split; [|apply Forall_singleton; simpl; by rewrite <- Hit].
      apply Forall_forall. intros s Hs. rewrite Forall_forall in Hbel. specialize (Hbel _ Hs).
      apply (sl_status _ _ Hsub); [simpl; lia|].
      eapply (status_put w); [done|done|lia|]. destruct Hi as [_ _ _ _ _ _ Hs'].
      rewrite Forall_forall in Hs'. by apply Hs'.
  - eapply dir_keeps_trans; [apply (dir_keeps_put _ idx hdr); lia|].
    eapply dir_keeps_weaken; [|by apply (sl_keeps _ _ Hsub)]. done.
Qed.

Lemma evolves_create next w w' sealed rs : wal_inv w sealed rs →
  dir_keeps (λ i, i ≤ active_seg w) (dir w) (dir w') →
  evolves next w w' (segs_of w sealed rs) (segs_of w' (segs_of w sealed rs) []).
Proof.
  intros Hi Hk s'. unfold segs_of at 1. rewrite elem_of_app, list_elem_of_singleton.
  intros [Hs| ->]; [|by left]. eapply (evolves_keeps next w w' (segs_of w sealed rs)); [|done].
  eapply dir_keeps_weaken; [|exact Hk]. intros i (s&->&Hin)%list_elem_of_fmap.
  unfold segs_of in Hin. apply elem_of_app in Hin as [Hin| ->%list_elem_of_singleton]; [|done].
  pose proof (inv_sealed_below _ _ _ Hi) as Hbel. rewrite Forall_forall in Hbel.
  specialize (Hbel _ Hin). lia.
Qed.

(** The state a failed creation leaves. *)
Lemma inv_stray w sealed rs bs : wal_inv w sealed rs → w_buf w = [] → zlen bs < 16 →
  let w' := set_disk w (dir_put (active_seg w + 1) (mkFile bs 0) (dir w)) (w_buf w) in
  wal_inv w' sealed rs ∧ dir_keeps (λ i, i ≤ active_seg w) (dir w) (dir w').
Proof.
  intros Hi Hb Hbs w'. pose proof (inv_sealed_below _ _ _ Hi) as Hbel.
  pose proof (inv_idx_le _ _ _ Hi) as Hle.
  split; [|apply dir_keeps_put; lia]. constructor; try apply Hi.
  - exists [(active_seg w + 1, bs)]. split; [|right; by exists bs].
    by apply (content_put w _ _ _ (mkFile bs 0)).
  - apply dir_put_sorted; [apply Hi|done].
  - apply synced_ok_put; [simpl; lia|apply Hi].
  - destruct Hi as [_ _ _ _ _ _ Hst]. rewrite Forall_forall in *. intros s Hs.
    eapply (status_put w); [done|done|specialize (Hbel _ Hs); lia|by apply Hst].
Qed.

Lemma rotate_inv io w r w' sealed rs : wal_inv w sealed rs → next_lsn w < 2 ^ 64 →
  rotate_segment io (next_lsn w) w = (r, w') →
  next_lsn w' = next_lsn w ∧ ∃ sealed' rs', wal_inv w' sealed' rs' ∧
  log sealed' ++ rs' = log sealed ++ rs ∧
  evolves (next_lsn w) w w' (segs_of w sealed rs) (segs_of w' sealed' rs') ∧
  (r = Ok tt ∨ ∃ e, r = Err e).
Proof.
  intros Hi Hn. unfold rotate_segment.
  assert (∀ v e, same_log w v → r = Err e → next_lsn v = next_lsn w ∧ ∃ sealed' rs',
    wal_inv v sealed' rs' ∧ log sealed' ++ rs' = log sealed ++ rs ∧
    evolves (next_lsn w) w v (segs_of w sealed rs) (segs_of v sealed' rs') ∧
    (r = Ok tt ∨ ∃ e, r = Err e)) as Herr.
  { intros v e Hv ->. split; [apply Hv|]. exists sealed, rs.
    split_and!; [by eapply wal_inv_same|done|by apply evolves_same|eauto]. }
  destruct (poisoned w); [intros [= <- <-]; eauto|].
  destruct (bw_flush (io_seal_flush io) w) as [r1 w1] eqn:E1.
  pose proof (bw_flush_same _ _ _ _ E1) as S1.
  destruct (bw_flush_view _ _ _ _ E1) as (_&_&B1&_&R1).
  assert (same_log w (poison w1)) as Sp.
  { eapply same_log_trans; [exact S1|by apply same_log_fields]. }
  destruct R1 as [->| ->]; [|intros [= <- <-]; eauto].
  specialize (B1 eq_refl). destruct (io_clone io); [|intros [= <- <-]; eauto].
  pose proof (wal_inv_same _ _ _ _ S1 Hi) as Hi1.
  pose proof (evolves_same (next_lsn w) _ _ _ _ S1 Hi) as Hev.
  destruct (create_segment io (active_seg w1 + 1) (next_lsn w) (dir w1)) as [r2 d] eqn:E2.
  apply create_segment_dir in E2 as [[-> ->]|[-> [->|(bs&Hbs&->)]]]; intros [= <- <-].
  - pose proof (sl_next _ _ S1) as Enx. rewrite <- Enx in Hn.
    destruct (inv_create w1 sealed rs (active_seg w1, next_lsn w1 - 1) (io_seal io 0) Hi1 B1 Hn eq_refl)
      as [Hi2 Hk]. rewrite Enx in Hi2, Hk |- *.
    split; [rewrite (sl_next _ _ (proj1 (submit_same _ _ _))); exact Enx|].
    exists (segs_of w1 sealed rs), []. split_and!; [done| |..|by left].
    + unfold segs_of. by rewrite log_app, log_single, app_nil_r.
    + eapply evolves_trans; [exact Hev|]. by apply evolves_create.
  - split; [by rewrite <- (sl_next _ _ S1)|]. exists sealed, rs.
    assert (same_log w (set_disk w1 (dir w1) (w_buf w1))) as S2.
    { eapply same_log_trans; [exact S1|by apply same_log_fields]. }
    split_and!; [by eapply wal_inv_same|done|by apply evolves_same|eauto].
  - split; [by rewrite <- (sl_next _ _ S1)|]. exists sealed, rs.
    destruct (inv_stray w1 sealed rs bs Hi1 B1 Hbs) as [Hi2 Hk].
    split_and!; [done|done| |eauto]. eapply evolves_trans; [exact Hev|].
    apply evolves_keeps. eapply dir_keeps_weaken; [|exact Hk].
    pose proof (inv_sealed_below _ _ _ Hi1) as Hbel. rewrite Forall_forall in Hbel.
    intros i (s&->&[Hs| ->%list_elem_of_singleton]%elem_of_app)%list_elem_of_fmap; [|done].
    specialize (Hbel _ Hs). lia.
Qed.

(** A record that continues the log.  Only a failure of the write of its bytes
    could break the framing. *)
(** A whole frame appended to the active segment. *)
Lemma inv_append w w' r sealed rs bs : wal_inv w sealed rs → record_ok r → w_lsn r = next_lsn w →
  view w' = dir_alter (file_append (frame r)) (active_seg w) (view w) →
  dir w' = dir_alter (file_append bs) (active_seg w) (dir w) → sealer w' = sealer w →
  active_seg w' = active_seg w → active_base_lsn w' = active_base_lsn w →
  active_bytes w' = active_bytes w + (4 + zlen (encode_record r)) →
  next_lsn w' = w_lsn r + 1 →
  wal_inv w' sealed (rs ++ [r]) ∧
  evolves (next_lsn w) w w' (segs_of w sealed rs) (segs_of w' sealed (rs ++ [r])).
Proof.
  intros Hi Hr El Ev Ed Esl Ea Eb Ey En. destruct (inv_split _ _ _ Hi) as (stray&Ec&H1&H2&Hst).
  pose proof (inv_sealed_below _ _ _ Hi) as Hbel.
  pose proof (content_append _ _ _ _ _ _ Ev Ec H1 H2) as Ec'.
  assert (dir_keeps (λ _, True) (dir w) (dir w')) as Hk.
  { rewrite Ed. apply dir_keeps_alter; [|apply Hi]. intros f _. apply grow_append. }
  destruct Hi as [_ Hs Hb Hl Hn Hsy Hss]. split; [constructor|].
  - exists stray. rewrite Ec', Ea. split; [|done]. unfold segs_of. rewrite Ea, Eb, fmap_app, <- app_assoc.
    f_equal. change (seg_content <$> [mkSeg (active_seg w) (active_base_lsn w) (rs ++ [r])])
      with [(active_seg w, seg_bytes (active_base_lsn w) (rs ++ [r]))]. by rewrite seg_bytes_snoc.
  - by rewrite Ed, dir_alter_fst.
  - rewrite Ey, Hb, encode_stream_app, zlen_app, encode_stream_cons, zlen_app, zlen_frame,
      zlen_encode_record. change (zlen (encode_stream [])) with 0. lia.
  - unfold segs_of in *. rewrite Ea, Eb, En, El. by apply lsns_ok_append.
  - lia.
  - rewrite Ed. apply synced_ok_alter; [|done]. intros f. simpl. rewrite length_app. lia.
  - rewrite Forall_forall in *. intros s Hin. specialize (Hss _ Hin). specialize (Hbel _ Hin).
    unfold sealed_status in *. rewrite Esl, Ed. destruct Hss as [|?]; [|by right].
    left. apply on_disk_out; [simpl in *; lia|done].
  - intros s. unfold segs_of. rewrite elem_of_app, list_elem_of_singleton. intros [Hin| ->]; right.
    + exists s, []. rewrite app_nil_r. split_and!; try done; [set_solver|].
      by eapply dir_keeps_weaken; [|exact Hk].
    + exists (mkSeg (active_seg w) (active_base_lsn w) rs), [r]. split_and!; try done; [set_solver|..].
      * apply Forall_singleton. lia.
      * by eapply dir_keeps_weaken; [|exact Hk].
Qed.

(** A record that continues the log.  Only a failure of the write of its bytes
    could break the framing. *)
Lemma write_framed_inv io r w res w' sealed rs :
  wal_inv w sealed rs → record_ok r → w_lsn r = next_lsn w → io_rec io = None →
  write_framed_locked io (encode_record r) (w_lsn r) w = (res, w') →
  next_lsn w' = next_lsn w ∧ ∃ sealed' rs',
  evolves (next_lsn w) w w' (segs_of w sealed rs) (segs_of w' sealed' rs') ∧
  ((res = Ok tt ∧ wal_inv (set_next_lsn w' (w_lsn r + 1)) sealed' rs' ∧
      log sealed' ++ rs' = (log sealed ++ rs) ++ [r]) ∨
   ((∃ e, res = Err e) ∧ wal_inv w' sealed' rs' ∧ log sealed' ++ rs' = log sealed ++ rs)).
Proof.
  intros Hi Hr El Hio E. pose proof (ok_lsn _ Hr) as Hl64.
  unfold write_framed_locked, op_bind at 1, gets in E. simpl in E.
  match type of E with op_bind _ ?m w = _ => destruct (m w) as [r1 w1] eqn:E1 end.
  assert (next_lsn w1 = next_lsn w ∧ ∃ sealed1 rs1, wal_inv w1 sealed1 rs1 ∧
    log sealed1 ++ rs1 = log sealed ++ rs ∧
    evolves (next_lsn w) w w1 (segs_of w sealed rs) (segs_of w1 sealed1 rs1) ∧
    (r1 = Ok tt ∨ ∃ e, r1 = Err e)) as (En1&sealed1&rs1&Hi1&El1&Hev&R1).
  { case_decide.
    2:{ inversion E1; subst. split; [done|]. exists sealed, rs.
        split_and!; [done|done|by apply evolves_same|by left]. }
    rewrite El in E1. apply (rotate_inv io w r1 w1); [done|lia|done]. }
  unfold op_bind at 1 in E. rewrite E1 in E.
  destruct R1 as [->|[e ->]]; [|simplify_eq; split; [done|]; exists sealed1, rs1; eauto 6].
  unfold op_bind at 1 in E.
  destruct (bw_write_all (u32_to_le (u32 (zlen (encode_record r)))) (io_len io) w1) as [r2 w2] eqn:E2.
  destruct (bw_write_all_view _ _ _ _ _ E2) as (S2&[b2 D2]&V2&F2&_&R2).
  destruct R2 as [->| ->].
  2:{ simplify_eq. split; [by rewrite S2|]. exists sealed1, rs1.
      assert (same_log w1 w') as Hsame.
      { eapply same_log_append; [done|apply F2; [done|]|done].
        rewrite zlen_u32_to_le. unfold BUF_CAPACITY. lia. }
      split; [|right; split_and!; [eauto|by eapply wal_inv_same|done]].
      eapply evolves_trans; [exact Hev|]. by apply evolves_same. }
  unfold op_bind at 1 in E. rewrite Hio in E.
  destruct (bw_write_all (encode_record r) None w2) as [r3 w3] eqn:E3.
  destruct (bw_write_all_view _ _ _ _ _ E3) as (S3&[b3 D3]&V3&_&N3&_). rewrite (N3 eq_refl) in *.
  unfold modify in E. simplify_eq. specialize (V2 eq_refl). specialize (V3 eq_refl).
  assert (active_seg w2 = active_seg w1) as A2 by (by rewrite S2).
  split; [simpl; by rewrite S3, S2|]. exists sealed1, (rs1 ++ [r]).
  destruct (inv_append w1 (set_next_lsn (set_counts w3 (active_bytes w3 + (4 + zlen (encode_record r)))
      (wal_bytes w3 + (4 + zlen (encode_record r)))
      (total_bytes_appended w3 + (4 + zlen (encode_record r)))) (w_lsn r + 1)) r sealed1 rs1 (b2 ++ b3))
    as [Hi3 Hev3]; simpl; try done; try congruence; try (rewrite S3, S2; done).
  - unfold view in *. simpl in *. rewrite V3, V2, A2, dir_append_append. done.
  - by rewrite D3, D2, A2, dir_append_append.
  - split; [|left; split_and!; [done|done|by rewrite app_assoc, El1]].
    eapply evolves_trans; [exact Hev|]. rewrite <- En1. exact Hev3.
Qed.

(** ** Operations as steps

    The public operations are compositions of these steps, and other threads'
    steps may come between them. *)

Definition append_record (w : Wal) (mini : Z) (prev : Lsn) (ty page slot : Z) (redo undo : list Z)
    : WalRecord := mkRecord (next_lsn w) prev mini ty page slot redo undo.

Lemma append_inv io mini prev ty page slot redo undo w res w' sealed rs :
  let r := append_record w mini prev ty page slot redo undo in
  wal_inv w sealed rs → record_ok r → io_rec io = None →
  append_locked io mini prev ty page slot redo undo w = (res, w') →
  ∃ sealed' rs', wal_inv w' sealed' rs' ∧
  evolves (next_lsn w) w w' (segs_of w sealed rs) (segs_of w' sealed' rs') ∧
  ((res = Ok (next_lsn w) ∧ next_lsn w' = next_lsn w + 1 ∧
      log sealed' ++ rs' = (log sealed ++ rs) ++ [r]) ∨
   ((∃ e, res = Err e) ∧ next_lsn w' = next_lsn w ∧ log sealed' ++ rs' = log sealed ++ rs)).
Proof.
  intros r Hi Hr Hio. unfold append_locked. unfold op_bind at 1, gets.
  fold (append_record w mini prev ty page slot redo undo). fold r.
  unfold op_bind at 1. change (next_lsn w) with (w_lsn r) at 1.
  destruct (write_framed_locked io (encode_record r) (w_lsn r) w) as [r1 w1] eqn:E1.
  destruct (write_framed_inv _ _ _ _ _ _ _ Hi Hr eq_refl Hio E1)
    as (En&sealed'&rs'&Hev&[(->&Hi'&El)|([e ->]&Hi'&El)]); intros [= <- <-];
    exists sealed', rs'.
  - simpl. rewrite En in *. split_and!; auto.
  - split_and!; eauto.
Qed.

(** ** Truncation *)

Lemma Forall_sublist {A} (P : A → Prop) (l k : list A) :
  l `sublist_of` k → Forall P k → Forall P l.
Proof. rewrite !Forall_forall. intros Hs Hk x Hx. by eapply Hk, elem_of_sublist. Qed.

Lemma StronglySorted_sublist {A} (R : A → A → Prop) (l k : list A) :
  l `sublist_of` k → StronglySorted R k → StronglySorted R l.
Proof.
  induction 1 as [|x l k Hs IH|x l k Hs IH]; intros Hk; [done|..];
    apply StronglySorted_cons in Hk as [Hx Hk].
  - apply StronglySorted_cons. split; [by eapply Forall_sublist|by apply IH].
  - by apply IH.
Qed.

Lemma log_sublist segs segs' : segs `sublist_of` segs' → log segs `sublist_of` log segs'.
Proof.
  induction 1 as [|s l k Hs IH|s l k Hs IH]; [done|..]; unfold log; rewrite !fmap_cons; cbn [concat].
  - by apply sublist_app.
  - by apply sublist_inserts_l.
Qed.

Lemma lsns_ok_sublist segs segs' n : segs `sublist_of` segs' → lsns_ok segs' n → lsns_ok segs n.
Proof.
  intros Hsub [Hs Hn Hb Hr]. pose proof (log_sublist _ _ Hsub) as Hl. constructor.
  - eapply StronglySorted_sublist; [|exact Hs]. by apply fmap_sublist.
  - by eapply Forall_sublist.
  - intros pre s post ->. apply sublist_app_cons_l in Hsub as (k1&k2&->&H1&H2).
    destruct (Hb k1 s k2 eq_refl) as (F1&F2&F3). split_and!; try apply F3.
    + eapply Forall_sublist; [|exact F1]. by apply log_sublist.
    + eapply Forall_sublist; [|exact F2]. apply log_sublist. by apply sublist_skip.
  - by eapply Forall_sublist.
Qed.

Lemma fmap_filter_fst {A B} (f : A → B) (P : B → Prop) (Q : A → Prop)
    `{!∀ x, Decision (P x)} `{!∀ x, Decision (Q x)} (l : list A) :
  (∀ x, Q x ↔ P (f x)) → f <$> filter Q l = filter P (f <$> l).
Proof.
  intros E. induction l as [|x l IH]; [done|]. rewrite fmap_cons, !filter_cons.
  destruct (decide (Q x)), (decide (P (f x))); try naive_solver. by rewrite fmap_cons, IH.
Qed.

(** Removing a segment other than the active one. *)
Lemma inv_remove w sealed rs idx : wal_inv w sealed rs → w_buf w = [] → idx ≠ active_seg w →
  wal_inv (set_disk w (dir_remove idx (dir w)) (w_buf w)) (filter (λ s, s_idx s ≠ idx) sealed) rs.
Proof.
  intros [(stray&E&Hst) Hs Hb Hl Hn Hsy Hss] Hbuf Hidx. constructor; simpl; try done.
  - exists (filter (λ c : Z * list Z, c.1 ≠ idx) stray). split.
    + unfold content, view in *. simpl. rewrite Hbuf, dir_append_nil in *. unfold dir_remove.
      rewrite (fmap_filter_fst (λ e : Z * File, (e.1, f_data e.2)) (λ c : Z * list Z, c.1 ≠ idx)
        (λ e : Z * File, e.1 ≠ idx)) by done.
      rewrite E, filter_app. f_equal.
      rewrite <- (fmap_filter_fst seg_content (λ c : Z * list Z, c.1 ≠ idx) (λ s, s_idx s ≠ idx)) by done.
      unfold segs_of. rewrite filter_app. simpl. rewrite filter_cons_True by (simpl; congruence).
      by rewrite filter_nil.
    + destruct Hst as [->|(bs&->&Hbs)]; [by left|]. rewrite filter_cons, filter_nil. simpl.
      case_decide; [right; by exists bs|by left].
  - eapply StronglySorted_sublist; [|exact Hs]. apply fmap_sublist, sublist_filter.
  - eapply lsns_ok_sublist; [|exact Hl]. unfold segs_of. apply sublist_app; [|done].
    apply sublist_filter.
  - intros i f [_ Hf]%list_elem_of_filter. by eapply Hsy.
  - rewrite Forall_forall in *. intros s [_ Hin]%list_elem_of_filter.
    destruct (Hss _ Hin) as [Hd|?]; [|by right]. left.
    intros f [_ Hf]%list_elem_of_filter. by apply Hd.
Qed.

Lemma evolves_remove next w sealed rs idx : idx ≠ active_seg w →
  evolves next w (set_disk w (dir_remove idx (dir w)) (w_buf w)) (segs_of w sealed rs)
    (segs_of w (filter (λ s, s_idx s ≠ idx) sealed) rs).
Proof.
  intros Hidx s Hs. right. exists s, []. rewrite app_nil_r. unfold segs_of in *.
  rewrite elem_of_app, list_elem_of_filter, list_elem_of_singleton in Hs.
  split_and!; try done; [rewrite elem_of_app, list_elem_of_singleton; naive_solver|].
  intros i f -> Hf. exists f. split; [|apply grow_refl]. apply list_elem_of_filter. split; [|done].
  simpl. destruct Hs as [[? _]| ->]; [done|]. simpl. congruence.
Qed.

Lemma fst_unique {A B} (a a' b b' : list (A * B)) x y :
  a ++ x :: b = a' ++ y :: b' → NoDup (a ++ x :: b).*1 → x.1 = y.1 → a = a' ∧ x = y ∧ b = b'.
Proof.
  revert a'. induction a as [|c a IH]; intros [|c' a'] E Hnd Exy; simplify_eq/=; try done.
  - apply NoDup_cons in Hnd as [[] _]. rewrite Exy, fmap_app. set_solver.
  - apply NoDup_cons in Hnd as [[] _]. rewrite <- Exy, fmap_app. set_solver.
  - apply NoDup_cons in Hnd as [_ Hnd]. destruct (IH a') as (->&->&->); done.
Qed.

Lemma sorted_NoDup (l : list Z) : StronglySorted Z.lt l → NoDup l.
Proof.
  induction 1 as [|x l _ IH Hx]; constructor; [|done].
  intros Hin. rewrite Forall_forall in Hx. specialize (Hx _ Hin). lia.
Qed.

(** The next segment's base LSN bounds the records of a segment. *)
Lemma next_base_bounds w sealed rs keep pre idx f rest s :
  wal_inv w sealed rs → w_buf w = [] → dir w = pre ++ (idx, f) :: rest →
  s ∈ sealed → s_idx s = idx →
  match rest with (_, next) :: _ => read_segment_base_lsn (f_data next) | [] => active_base_lsn w end
    ≤ keep →
  Forall (λ r, w_lsn r < keep) (s_recs s).
Proof.
  intros Hi Hbuf Ed (s1&s2&->)%list_elem_of_split Es Hk.
  destruct Hi as [(stray&E&_) Hs _ Hl _ _ _]. apply sorted_NoDup in Hs.
  assert (∃ s' s3, s2 ++ [mkSeg (active_seg w) (active_base_lsn w) rs] = s' :: s3) as (s'&s3&E3).
  { destruct s2; simpl; eauto. }
  assert (segs_of w (s1 ++ s :: s2) rs = s1 ++ s :: s' :: s3) as Eseg.
  { unfold segs_of. by rewrite <- app_assoc, <- app_comm_cons, E3. }
  rewrite <- content_fst in Hs. rewrite Eseg in *.
  assert (content w = ((λ e, (e.1, f_data e.2)) <$> pre) ++ (idx, f_data f) ::
    ((λ e, (e.1, f_data e.2)) <$> rest)) as E'.
  { unfold content, view. rewrite Hbuf, dir_append_nil, Ed. by rewrite fmap_app. }
  rewrite fmap_app, fmap_cons, <- app_assoc, <- app_comm_cons in E. rewrite E in E', Hs.
  destruct (fst_unique _ _ _ _ _ _ E' Hs Es) as (_&_&Er).
  destruct rest as [|[i next] rest]; [done|]. rewrite !fmap_cons in Er.
  assert (f_data next = seg_bytes (s_base s') (s_recs s')) as En.
  { change (seg_content s') with (s_idx s', seg_bytes (s_base s') (s_recs s')) in Er.
    by injection Er. }
  destruct (lo_base _ _ Hl (s1 ++ [s]) s' s3) as (F&_&Hb&_); [by rewrite <- app_assoc|].
  rewrite En in Hk. unfold seg_bytes in Hk. rewrite read_segment_base_lsn_header in Hk by done.
  rewrite log_app, log_single in F. apply Forall_app in F as [_ F].
  eapply Forall_impl; [exact F|]. intros ? ?. simpl in *. lia.
Qed.

Lemma truncate_loop_inv io keep w0 sealed0 rs pre rest w sealed res w' :
  wal_inv w0 sealed0 rs → w_buf w0 = [] → dir w0 = pre ++ rest →
  wal_inv w sealed rs → same_but_disk w0 w → w_buf w = [] →
  sealed `sublist_of` sealed0 →
  evolves (next_lsn w0) w0 w (segs_of w0 sealed0 rs) (segs_of w sealed rs) →
  (∀ s, s ∈ sealed0 → s ∈ sealed ∨ Forall (λ r, w_lsn r < keep) (s_recs s)) →
  truncate_loop io keep rest w = (res, w') →
  ∃ sealed', wal_inv w' sealed' rs ∧ same_but_disk w0 w' ∧ w_buf w' = [] ∧
    sealed' `sublist_of` sealed0 ∧
    evolves (next_lsn w0) w0 w' (segs_of w0 sealed0 rs) (segs_of w' sealed' rs) ∧
    (∀ s, s ∈ sealed0 → s ∈ sealed' ∨ Forall (λ r, w_lsn r < keep) (s_recs s)) ∧
    (res = Ok tt ∨ ∃ e, res = Err e).
Proof.
  intros Hi0 Hb0. revert pre w sealed. induction rest as [|[idx f] rest IH];
    intros pre w sealed Ed Hi Hw Hb Hsub Hev Hrem E.
  { inversion E; subst. eauto 10. }
  assert (dir w0 = (pre ++ [(idx, f)]) ++ rest) as Ed' by (by rewrite <- app_assoc).
  assert (active_seg w = active_seg w0) as Ea by (by rewrite Hw).
  assert (active_base_lsn w = active_base_lsn w0) as Eb by (by rewrite Hw).
  cbn [truncate_loop] in E. unfold op_bind, gets in E. cbn beta iota in E.
  unfold id in E. case_decide as H1; [by apply (IH _ w sealed Ed')|].
  case_decide as H2; [|by apply (IH _ w sealed Ed')].
  destruct (io_remove io idx); [|inversion E; subst; eauto 10].
  unfold modify in E. eapply (IH _ _ _ Ed'); [by apply inv_remove|..|exact E].
  - unfold same_but_disk in *. rewrite Hw at 1. done.
  - done.
  - etrans; [apply sublist_filter|done].
  - eapply evolves_trans; [exact Hev|]. by apply (evolves_remove (next_lsn w0) w).
  - intros s Hs. destruct (Hrem s Hs) as [Hin|?]; [|by right].
    destruct (decide (s_idx s = idx)) as [Ei|]; [|left; by apply list_elem_of_filter].
    right. rewrite Eb in H2. by apply (next_base_bounds w0 sealed0 rs keep pre idx f rest).
Qed.

Lemma wait_loop_same fuel target oks w r w' :
  wait_loop fuel target oks w = Some (r, w') →
  same_log w w' ∧ (r = Ok tt ∨ ∃ e, r = Err e).
Proof.
  revert w. induction fuel as [|fuel IH]; intros w; [done|]. cbn [wait_loop].
  destruct (seal_error (sealer w)); [intros [= <- <-]; eauto|].
  do 2 (case_decide; [intros [= <- <-]; eauto|]). intros [Hs ?]%IH. split; [|done].
  etrans; [|exact Hs]. unfold run_to_notify. case_decide; [|apply sealer_finish_same].
  etrans; [apply sealer_take_same|apply sealer_finish_same].
Qed.

(** Three iterations are enough: each wait ends at a fsync of the sealer, which
    has at most one item in flight and one pending. *)
Lemma wait_loop_total target oks w : is_Some (wait_loop 3 target oks w).
Proof.
  assert (∀ ok w, sealing (sealer (run_to_notify ok w)) = None) as Hnone.
  { intros ok v. unfold run_to_notify, sealer_finish. case_decide as Hs.
    - unfold sealer_take. rewrite Hs. destruct (pending (sealer v)) as [[]|]; simpl; [|by rewrite Hs].
      by destruct ok.
    - destruct (sealing (sealer v)) as [[]|]; [|done]. by destruct ok. }
  assert (∀ ok w, sealing (sealer w) = None → pending (sealer (run_to_notify ok w)) = None) as Hp.
  { intros ok v Hs. unfold run_to_notify. rewrite decide_True by done.
    unfold sealer_take, sealer_finish. rewrite Hs.
    destruct (pending (sealer v)) as [[]|] eqn:Ep; simpl; [by destruct ok|by rewrite Hs, Ep]. }
  cbn [wait_loop]. destruct (seal_error _); [done|]. do 2 (case_decide; [done|]).
  destruct (seal_error _); [done|]. do 2 (case_decide; [done|]).
  destruct (seal_error _); [done|]. case_decide; [done|].
  rewrite decide_True; [done|]. apply Hp, Hnone.
Qed.

Lemma wait_until_durable_same target io w r w' :
  wait_until_durable target io w = (r, w') → same_log w w' ∧ (r = Ok tt ∨ ∃ e, r = Err e).
Proof.
  unfold wait_until_durable. destruct (wait_loop_total target (io_seal io) w) as [[r1 w1] E].
  rewrite E. intros [= <- <-]. by eapply wait_loop_same.
Qed.

Lemma drain_same io w r w' : drain io w = (r, w') → same_log w w' ∧ (r = Ok tt ∨ ∃ e, r = Err e).
Proof.
  unfold drain, op_bind, gets, id. cbn beta iota. case_decide; [apply wait_until_durable_same|].
  intros [= <- <-]. eauto.
Qed.

End props.
