(* ===== verification/WalProps.v ===== *)
(** What the write-ahead log guarantees: its records and their order in every
    interleaving of appends, fsyncs, rotations and the sealer; what truncation and
    shipping return; what survives a crash, and what does not. *)

From stdpp Require Import base numbers list sorting sets relations.
From S2P Require Import Prelude Format Page PageProps WalCodec WalCodecProps Wal WalInv.
Open Scope op_scope.

Section props.
Context `{!Crc32}.

(** ** The remaining operations on the invariant *)

Lemma same_log_sync w seg : same_log w (set_disk w (dir_alter file_sync seg (dir w)) (w_buf w)).
Proof.
  constructor; try done; simpl.
  - apply content_sync.
  - apply synced_ok_alter. intros f _. by simpl.
  - intros Hd. apply dir_keeps_alter; [apply grow_sync|done].
  - intros i _ [|?]; [left; by apply on_disk_sync|by right].
Qed.

Lemma fsync_same io w r w' : fsync_locked io w = (r, w') →
  same_log w w' ∧ sealer w' = sealer w ∧
  ((r = Ok tt ∧ durable_lsn w' = next_lsn w' - 1 ∧ w_buf w' = [] ∧ on_disk (dir w') (active_seg w') ∧
    poisoned w' = false ∧ (∀ i, on_disk (dir w) i → i ≠ active_seg w → on_disk (dir w') i)) ∨
   ((∃ m, r = Err (DurabilityFailure m)) ∧ durable_lsn w' = durable_lsn w ∧ poisoned w' = true)).
Proof.
  unfold fsync_locked. destruct (poisoned w) eqn:Hp.
  { intros [= <- <-]. split_and!; eauto using same_log_refl. }
  destruct (fsync_fault_armed w).
  { intros [= <- <-]. split_and!; [by apply same_log_fields|done|eauto]. }
  destruct (bw_flush (io_flush io) w) as [r1 w1] eqn:E1.
  pose proof (bw_flush_same _ _ _ _ E1) as S1.
  destruct (bw_flush_view _ _ _ _ E1) as (D1&_&B1&[bs Ed]&R1).
  assert (sealer w1 = sealer w ∧ durable_lsn w1 = durable_lsn w ∧ poisoned w1 = poisoned w ∧
    active_seg w1 = active_seg w) as (Es&Edu&Epo&Ea) by (by rewrite D1).
  assert (same_log w (poison w1)) by (etrans; [exact S1|by apply same_log_fields]).
  destruct R1 as [->| ->]; [|intros [= <- <-]; split_and!; eauto].
  destruct (io_sync io); intros [= <- <-]; [|split_and!; eauto].
  split_and!; [|done|left; split_and!; simpl; auto; try congruence].
  - etrans; [exact S1|]. etrans; [apply (same_log_sync w1 (active_seg w1))|by apply same_log_fields].
  - apply on_disk_synced.
  - intros i Hi Hne. apply on_disk_sync. rewrite Ed. by apply on_disk_out.
Qed.

Lemma group_flush_same io w r w' : group_flush io w = (r, w') →
  same_log w w' ∧ sealer w' = sealer w ∧ durable_lsn w' = durable_lsn w ∧
  ((r = Ok (next_lsn w' - 1, active_seg w') ∧ w_buf w' = [] ∧
    (∀ i, on_disk (dir w) i → i ≠ active_seg w → on_disk (dir w') i)) ∨
   ((∃ m, r = Err (DurabilityFailure m)) ∧ poisoned w' = true)).
Proof.
  unfold group_flush. destruct (poisoned w) eqn:Hp.
  { intros [= <- <-]. split_and!; eauto using same_log_refl. }
  destruct (fsync_fault_armed w).
  { intros [= <- <-]. split_and!; [by apply same_log_fields|done|done|eauto]. }
  destruct (bw_flush (io_flush io) w) as [r1 w1] eqn:E1.
  pose proof (bw_flush_same _ _ _ _ E1) as S1.
  destruct (bw_flush_view _ _ _ _ E1) as (D1&_&B1&[bs Ed]&R1).
  assert (sealer w1 = sealer w ∧ durable_lsn w1 = durable_lsn w ∧ active_seg w1 = active_seg w)
    as (Es&Edu&Ea) by (by rewrite D1).
  assert (same_log w (poison w1)) by (etrans; [exact S1|by apply same_log_fields]).
  assert (∀ i, on_disk (dir w) i → i ≠ active_seg w → on_disk (dir w1) i) as Hd.
  { intros i Hi Hne. rewrite Ed. by apply on_disk_out. }
  destruct R1 as [->| ->]; [|intros [= <- <-]; split_and!; eauto].
  case_decide; [intros [= <- <-]; split_and!; auto|].
  destruct (io_clone io); intros [= <- <-]; [|split_and!; eauto].
  split_and!; [etrans; [exact S1|by apply same_log_fields]|done|done|left; auto].
Qed.

Lemma group_sync_same io seg w r w' : group_sync io seg w = (r, w') →
  same_log w w' ∧ sealer w' = sealer w ∧ durable_lsn w' = durable_lsn w ∧
  ((r = Ok tt ∧ dir w' = dir_alter file_sync seg (dir w)) ∨ (∃ m, r = Err (DurabilityFailure m))).
Proof.
  unfold group_sync. destruct (io_sync io); intros [= <- <-]; split_and!; eauto.
  - apply same_log_sync.
  - by apply same_log_fields.
Qed.

(** A truncation removes only segments all of whose records are below the bound. *)
Lemma truncate_inv io keep w r w' sealed rs : wal_inv w sealed rs →
  truncate_before io keep w = (r, w') →
  ∃ sealed', wal_inv w' sealed' rs ∧ sealed' `sublist_of` sealed ∧
    evolves (next_lsn w) w w' (segs_of w sealed rs) (segs_of w' sealed' rs) ∧
    (∀ s, s ∈ sealed → s ∈ sealed' ∨ Forall (λ r, w_lsn r < keep) (s_recs s)) ∧
    next_lsn w' = next_lsn w ∧ active_seg w' = active_seg w.
Proof.
  intros Hi E. unfold truncate_before, op_bind at 1 in E.
  destruct (drain io w) as [r1 w1] eqn:E1. destruct (drain_same _ _ _ _ E1) as [S1 R1].
  assert (∀ v, same_log w v → ∃ sealed', wal_inv v sealed' rs ∧ sealed' `sublist_of` sealed ∧
    evolves (next_lsn w) w v (segs_of w sealed rs) (segs_of v sealed' rs) ∧
    (∀ s, s ∈ sealed → s ∈ sealed' ∨ Forall (λ r, w_lsn r < keep) (s_recs s)) ∧
    next_lsn v = next_lsn w ∧ active_seg v = active_seg w) as Hsame.
  { intros v Hv. exists sealed. split_and!; [by eapply wal_inv_same|done|by apply evolves_same|auto|apply Hv..]. }
  destruct R1 as [->|[e ->]]; [|simplify_eq; auto].
  unfold op_bind at 1 in E. destruct (bw_flush (io_flush io) w1) as [r2 w2] eqn:E2.
  assert (same_log w w2) as S2 by (etrans; [exact S1|by eapply bw_flush_same]).
  destruct (bw_flush_view _ _ _ _ E2) as (_&_&B2&_&[->| ->]); [|simplify_eq; auto].
  specialize (B2 eq_refl). unfold op_bind at 1, gets in E. unfold op_bind in E.
  destruct (truncate_loop io keep (dir w2) w2) as [r3 w3] eqn:E3.
  pose proof (wal_inv_same _ _ _ _ S2 Hi) as Hi2.
  destruct (truncate_loop_inv io keep w2 sealed rs [] (dir w2) w2 sealed r3 w3)
    as (sealed'&Hi3&Hd&_&Hsub&Hev&Hrem&R3); auto using same_but_disk_refl.
  { eapply evolves_same; [apply same_log_refl|done]. }
  assert (same_log w3 w') as Sv.
  { unfold modify in E. destruct R3 as [->|[e ->]]; simplify_eq; [by apply same_log_fields|].
    apply same_log_refl. }
  exists sealed'. split_and!; auto.
  - by eapply wal_inv_same.
  - eapply evolves_trans; [by eapply evolves_same|]. rewrite (sl_next _ _ S2) in Hev.
    eapply evolves_trans; [exact Hev|by apply evolves_same].
  - rewrite (sl_next _ _ Sv), Hd. apply S2.
  - rewrite (sl_seg _ _ Sv), Hd. apply S2.
Qed.

Lemma elem_of_log r segs : r ∈ log segs ↔ ∃ s, s ∈ segs ∧ r ∈ s_recs s.
Proof. unfold log. rewrite elem_of_concat. set_solver. Qed.

(** What a truncation leaves of the log. *)
Lemma truncate_log io keep w r w' sealed rs : wal_inv w sealed rs →
  truncate_before io keep w = (r, w') →
  log_of w' `sublist_of` log_of w ∧ (∀ r, r ∈ log_of w → keep ≤ w_lsn r → r ∈ log_of w') ∧
  next_lsn w' = next_lsn w ∧ active_seg w' = active_seg w.
Proof.
  intros Hi E. destruct (truncate_inv _ _ _ _ _ _ _ Hi E) as (sealed'&Hi'&Hsub&_&Hrem&Hn&Ha).
  rewrite (log_of_inv _ _ _ Hi), (log_of_inv _ _ _ Hi'). split_and!; [| |done|done].
  - apply sublist_app; [by apply log_sublist|done].
  - intros r' [(s'&Hs&Hr)%elem_of_log|Hr]%elem_of_app Hk; apply elem_of_app; [left|by right].
    apply elem_of_log. destruct (Hrem _ Hs) as [|Hf]; [eauto|].
    rewrite Forall_forall in Hf. specialize (Hf _ Hr). simpl in Hf. lia.
Qed.

Lemma wait_same target io w r w' : wait_until_durable target io w = (r, w') → same_log w w'.
Proof. by intros [? _]%wait_until_durable_same. Qed.

(** ** Interleavings

    The steps of the threads that share a log.  A group fsync in flight holds the
    LSN it will report, the segment it fsyncs, and whether the fsync is done. *)

Record WalSys := mkSys { sys_wal : Wal; flight : option (Lsn * Z * bool) }.

Inductive wal_event :=
| EAppend (io : Calls) (mini : Z) (prev : Lsn) (ty page slot : Z) (redo undo : list Z)
| EMini
| EFsync (io : Calls)
| EGroupFlush (io : Calls)
| EGroupSync (io : Calls)
| EGroupAdvance
| ETake
| EFinish (ok : bool)
| EWait (target : Lsn) (io : Calls)
| ETruncate (io : Calls) (keep : Lsn)
| EDeferred (b : bool)
| EArm
| EShutdown.

Definition wal_exec (e : wal_event) (s : WalSys) : WalSys :=
  let w := sys_wal s in
  let upd w' := mkSys w' (flight s) in
  match e with
  | EAppend io mini prev ty page slot redo undo =>
      upd (append_locked io mini prev ty page slot redo undo w).2
  | EMini => upd (set_next_mini_txn w (next_mini_txn w + 1))
  | EFsync io => upd (fsync_locked io w).2
  | EGroupFlush io =>
      match flight s with
      | Some _ => s
      | None => match group_flush io w with
                | (Ok x, w') => mkSys w' (Some (x, false))
                | (_, w') => mkSys w' None
                end
      end
  | EGroupSync io =>
      match flight s with
      | Some (lsn, seg, false) =>
          match group_sync io seg w with
          | (Ok _, w') => mkSys w' (Some (lsn, seg, true))
          | (_, w') => mkSys w' None
          end
      | _ => s
      end
  | EGroupAdvance =>
      match flight s with
      | Some (lsn, seg, true) => mkSys (group_advance lsn w).2 None
      | _ => s
      end
  | ETake => upd (sealer_take w)
  | EFinish ok => upd (sealer_finish ok w)
  | EWait target io => upd (wait_until_durable target io w).2
  | ETruncate io keep => upd (truncate_before io keep w).2
  | EDeferred b => upd (set_deferred_sync w b)
  | EArm => upd (arm_fsync_fault w)
  | EShutdown => upd (sealer_shutdown w)
  end.

(** Appended records fit the format, and the write of a record's own bytes does not fail:
    a write that does may leave part of the record in the file, behind which no later record
    is found ([WalClaims.partial_write_hides_commits]).  Every other system call may fail.
    [G] restricts the states in which an fsync of the active segment starts. *)
Definition event_ok (G : Wal → Prop) (e : wal_event) (s : WalSys) : Prop :=
  match e with
  | EAppend io mini prev ty page slot redo undo =>
      record_ok (append_record (sys_wal s) mini prev ty page slot redo undo) ∧ io_rec io = None
  | EFsync _ | EGroupFlush _ => G (sys_wal s)
  | _ => True
  end.

Definition wal_step (G : Wal → Prop) (s s' : WalSys) : Prop :=
  ∃ e, event_ok G e s ∧ s' = wal_exec e s.

(** A log that was created empty.  A log that is reopened is not covered: it continues at
    the tail of the last checkpoint, behind whatever its last segment holds
    ([ControlProps.reopen_reissues_lsns], [WalClaims.headerless_segment_hides_commits]). *)
Definition fresh (w : Wal) : Prop :=
  ∃ io start size d, 0 ≤ start ∧ start + 1 < 2 ^ 64 ∧
    open_with_segment_size io [] start size = (Ok w, d).

Definition wal_reachable (G : Wal → Prop) (s : WalSys) : Prop :=
  ∃ w, fresh w ∧ rtc (wal_step G) (mkSys w None) s.

(** The sealer has nothing to do and has not failed. *)
Definition quiet (w : Wal) : Prop :=
  pending (sealer w) = None ∧ sealing (sealer w) = None ∧ seal_error (sealer w) = false.

(** ** Records within a prefix of their file *)

(** Every record up to [l] lies within the first [m] bytes of its file. *)
Definition covers (m : Z → File → nat) (l : Lsn) (w : Wal) (segs : list Seg) : Prop :=
  ∀ s, s ∈ segs → ∃ f n, (s_idx s, f) ∈ dir w ∧
    (n = 0%nat ∨ zlen (seg_bytes (s_base s) (take n (s_recs s))) ≤ Z.of_nat (m (s_idx s) f)) ∧
    Forall (λ r, l < w_lsn r) (drop n (s_recs s)).

Definition m_synced : Z → File → nat := λ _ f, f_synced f.
Definition m_flushed : Z → File → nat := λ _ f, length (f_data f).
(** Of segment [seg] the bytes in the file, of the others the fsynced bytes. *)
Definition m_flight (seg : Z) : Z → File → nat := λ i f,
  if decide (i = seg) then length (f_data f) else f_synced f.

Definition monotone (m : Z → File → nat) : Prop := ∀ i f f', grow f f' → (m i f ≤ m i f')%nat.

Lemma m_synced_mono : monotone m_synced.
Proof. by intros i f f' []. Qed.
Lemma m_flushed_mono : monotone m_flushed.
Proof. intros i f f' [? _]. by apply prefix_length. Qed.
Lemma m_flight_mono seg : monotone (m_flight seg).
Proof.
  intros i f f' Hg. unfold m_flight. case_decide; [by apply (m_flushed_mono i)|by apply (m_synced_mono i)].
Qed.

Lemma inv_file w sealed rs s : wal_inv w sealed rs → s ∈ segs_of w sealed rs →
  ∃ f, (s_idx s, f) ∈ dir w.
Proof.
  intros [(stray&E&_) _ _ _ _ _ _] Hs. assert (s_idx s ∈ (content w).*1) as Hin.
  { rewrite E, fmap_app. apply elem_of_app. left. rewrite <- list_fmap_compose.
    by apply (list_elem_of_fmap_2 (fst ∘ seg_content)). }
  rewrite content_fst in Hin. apply list_elem_of_fmap in Hin as ([i f]&->&Hf). by exists f.
Qed.

Lemma NoDup_fst_eq {A B} (l : list (A * B)) i x y : NoDup l.*1 → (i, x) ∈ l → (i, y) ∈ l → x = y.
Proof.
  intros Hnd Hx (l1&l2&->)%list_elem_of_split. rewrite elem_of_app, elem_of_cons in Hx.
  rewrite fmap_app, fmap_cons in Hnd. apply NoDup_app in Hnd as (_&H1&H2).
  apply NoDup_cons in H2 as [H2 _]. simpl in *.
  destruct Hx as [Hx|[Hx|Hx]]; [|congruence|].
  - destruct (H1 i); [by apply (list_elem_of_fmap_2 fst) in Hx|]. by left.
  - destruct H2. by apply (list_elem_of_fmap_2 fst) in Hx.
Qed.

(** The file of a segment, with the buffer if it is the active one. *)
Lemma inv_data w sealed rs s f : wal_inv w sealed rs → s ∈ segs_of w sealed rs →
  (s_idx s, f) ∈ dir w →
  f_data f ++ (if decide (s_idx s = active_seg w) then w_buf w else []) =
  seg_bytes (s_base s) (s_recs s).
Proof.
  intros [(stray&E&_) Hso _ _ _ _ _] Hs Hf. apply sorted_NoDup in Hso. rewrite <- content_fst in Hso.
  eapply NoDup_fst_eq; [exact Hso| |].
  - unfold content. apply list_elem_of_fmap.
    exists (s_idx s, if decide (s_idx s = active_seg w) then file_append (w_buf w) f else f).
    split; [|apply elem_of_dir_alter; eauto]. simpl. case_decide; simpl; by rewrite ?app_nil_r.
  - rewrite E. apply elem_of_app. left. by apply (list_elem_of_fmap_2 seg_content).
Qed.

Lemma covers_evolves m l next w w' sealed rs sealed' rs' : monotone m → l < next →
  wal_inv w' sealed' rs' → evolves next w w' (segs_of w sealed rs) (segs_of w' sealed' rs') →
  covers m l w (segs_of w sealed rs) → covers m l w' (segs_of w' sealed' rs').
Proof.
  intros Hm Hl Hi' Hev Hc s' Hs'. destruct (Hev _ Hs') as [Hnew|(s&x&Hs&Ei&Eb&Er&Hx&Hk)].
  - destruct (inv_file _ _ _ _ Hi' Hs') as [f Hf]. exists f, 0%nat. split_and!; [done|by left|].
    eapply Forall_impl; [exact Hnew|]. simpl. lia.
  - destruct (Hc _ Hs) as (f&n&Hf&Hn&Hd). destruct (Hk _ _ eq_refl Hf) as (f'&Hf'&Hg).
    exists f', (Nat.min n (length (s_recs s))). rewrite Ei, Eb, Er. split_and!; [done| |].
    + destruct Hn as [->|Hn]; [by left|right]. rewrite take_app_le by lia.
      specialize (Hm (s_idx s) _ _ Hg). rewrite <- (take_take (s_recs s)), firstn_all. lia.
    + rewrite drop_app_le by lia. apply Forall_app. split.
      * destruct (decide (n ≤ length (s_recs s))%nat); [by rewrite Nat.min_l|].
        rewrite Nat.min_r, drop_all by lia. done.
      * eapply Forall_impl; [exact Hx|]. simpl. lia.
Qed.

(** ** Operations that leave the durable frontier, the commit mode and the counter of
    mini-transactions alone *)

Definition frontier (w : Wal) : Lsn * bool * Z := (durable_lsn w, deferred_sync w, next_mini_txn w).

Lemma frontier_durable w w' : frontier w' = frontier w → durable_lsn w' = durable_lsn w.
Proof. by intros [= ? ? ?]. Qed.

Definition keeps_frontier {A} (m : op Wal A) : Prop := ∀ w, frontier (m w).2 = frontier w.

Lemma kf_bind {A B} (f : A → op Wal B) (m : op Wal A) :
  keeps_frontier m → (∀ a, keeps_frontier (f a)) → keeps_frontier (op_bind f m).
Proof.
  intros Hm Hf w. unfold op_bind. specialize (Hm w). destruct (m w) as [[a| |] w'] eqn:E; simpl in *;
    [|done..]. by rewrite Hf.
Qed.

Lemma kf_gets {A} (f : Wal → A) : keeps_frontier (gets f).
Proof. done. Qed.
Lemma kf_ret {A} (a : A) : keeps_frontier (op_ret a).
Proof. done. Qed.
Lemma kf_fail {A} e : keeps_frontier (@fail Wal A e).
Proof. done. Qed.

Lemma kf_flush fault : keeps_frontier (bw_flush fault).
Proof. intros w. unfold bw_flush. destruct fault; [case_decide|]; done. Qed.

Lemma kf_write bs fault : keeps_frontier (bw_write_all bs fault).
Proof.
  intros w. destruct (bw_write_all bs fault w) as [r w'] eqn:E.
  destruct (bw_write_all_view _ _ _ _ _ E) as (S&_). simpl. by rewrite S.
Qed.

Lemma frontier_take w : frontier (sealer_take w) = frontier w.
Proof. unfold sealer_take. by destruct (pending (sealer w)), (sealing (sealer w)). Qed.
Lemma frontier_finish ok w : frontier (sealer_finish ok w) = frontier w.
Proof. unfold sealer_finish. destruct (sealing (sealer w)) as [[]|]; [|done]. by destruct ok. Qed.

Lemma frontier_submit item ok w : frontier (submit item ok w) = frontier w.
Proof.
  unfold submit. case_decide; [done|].
  change (frontier (sealer_take (sealer_finish ok w)) = frontier w).
  by rewrite frontier_take, frontier_finish.
Qed.

Lemma kf_rotate io base : keeps_frontier (rotate_segment io base).
Proof.
  intros w. unfold rotate_segment. destruct (poisoned w); [done|].
  pose proof (kf_flush (io_seal_flush io) w) as Hf.
  destruct (bw_flush (io_seal_flush io) w) as [[u| |] w1]; [|done..]. simpl in Hf.
  destruct (io_clone io); [|done].
  destruct (create_segment io (active_seg w1 + 1) base (dir w1)) as [[u'| |] d]; [|done..].
  etrans; [apply frontier_submit|done].
Qed.

Lemma kf_append io mini prev ty page slot redo undo :
  keeps_frontier (append_locked io mini prev ty page slot redo undo).
Proof.
  unfold append_locked, write_framed_locked. repeat (apply kf_bind; [|intros ?]); try done;
    try apply kf_write. case_decide; [apply kf_rotate|done].
Qed.

Lemma frontier_wait target io w : frontier (wait_until_durable target io w).2 = frontier w.
Proof.
  unfold wait_until_durable. generalize 3%nat. intros fuel.
  assert (∀ v, frontier v = frontier w → frontier (default (Panic, v) (wait_loop fuel target (io_seal io) v)).2
    = frontier w) as Hl; [|by apply Hl].
  induction fuel as [|fuel IH]; intros v Hv; [done|]. cbn [wait_loop].
  destruct (seal_error (sealer v)); [done|]. do 2 (case_decide; [done|]).
  set (v' := run_to_notify (io_seal io fuel) v).
  assert (frontier v' = frontier w) as Hv'.
  { subst v'. unfold run_to_notify. rewrite frontier_finish. case_decide; [by rewrite frontier_take|done]. }
  specialize (IH v' Hv'). by destruct (wait_loop fuel target (io_seal io) v').
Qed.

Lemma kf_drain io : keeps_frontier (drain io).
Proof.
  unfold drain. apply kf_bind; [done|]. intros w0. case_decide; [|done]. intros w. apply frontier_wait.
Qed.

Lemma kf_truncate io keep : keeps_frontier (truncate_before io keep).
Proof.
  unfold truncate_before. apply kf_bind; [apply kf_drain|intros _].
  apply kf_bind; [apply kf_flush|intros _]. apply kf_bind; [done|intros segs].
  apply kf_bind; [|done]. induction segs as [|[idx f] segs IH]; [done|]. cbn [truncate_loop].
  apply kf_bind; [done|intros w0]. apply kf_bind; [|done].
  case_decide; [done|]. case_decide; [|done]. by destruct (io_remove io idx).
Qed.

(** Everything in the files is covered when the buffer is empty. *)
Lemma covers_all m l w sealed rs : wal_inv w sealed rs → w_buf w = [] →
  (∀ s f, s ∈ segs_of w sealed rs → (s_idx s, f) ∈ dir w → m (s_idx s) f = length (f_data f)) →
  covers m l w (segs_of w sealed rs).
Proof.
  intros Hi Hb Hm s Hs. destruct (inv_file _ _ _ _ Hi Hs) as [f Hf].
  exists f, (length (s_recs s)). split_and!; [done| |by rewrite drop_all].
  right. rewrite firstn_all, (Hm _ _ Hs Hf), <- (inv_data _ _ _ _ _ Hi Hs Hf), Hb.
  destruct (decide _); rewrite app_nil_r; done.
Qed.

Lemma segs_of_same w w' sealed rs : same_log w w' → segs_of w' sealed rs = segs_of w sealed rs.
Proof. intros []. unfold segs_of. by rewrite sl_seg, sl_base. Qed.

(** Covers of the same segments carry over. *)
Lemma covers_same m l w w' sealed rs : monotone m → wal_inv w sealed rs → same_log w w' →
  l < next_lsn w → covers m l w (segs_of w sealed rs) → covers m l w' (segs_of w' sealed rs).
Proof.
  intros Hm Hi Hs Hl. eapply covers_evolves; [done|exact Hl|by eapply wal_inv_same|].
  by apply evolves_same.
Qed.

(** ** The invariant of the interleavings

    [md] measures what the durable frontier promises, [mf] what a group fsync in
    flight has secured before and after its fsync. *)

Section track.
Context (G : Wal → Prop) (md : Z → File → nat) (mf : Z → bool → Z → File → nat).
Context (Hmd : monotone md) (Hmf : ∀ seg b, monotone (mf seg b)).
Context (Hfsync : ∀ io w w' sealed rs l, G w → wal_inv w sealed rs →
  fsync_locked io w = (Ok tt, w') → wal_inv w' sealed rs → covers md l w' (segs_of w' sealed rs)).
Context (Hflush : ∀ io w x w' sealed rs l, G w → wal_inv w sealed rs →
  group_flush io w = (Ok x, w') → wal_inv w' sealed rs → covers (mf x.2 false) l w' (segs_of w' sealed rs)).
Context (Hsync : ∀ w w' sealed rs seg l, dir w' = dir_alter file_sync seg (dir w) →
  covers (mf seg false) l w (segs_of w sealed rs) → segs_of w' sealed rs = segs_of w sealed rs →
  covers (mf seg true) l w' (segs_of w' sealed rs)).
Context (Hadv : ∀ w segs seg l, covers (mf seg true) l w segs → covers md l w segs).
Set Default Proof Using "All".

Definition tracked (s : WalSys) : Prop :=
  let w := sys_wal s in
  ∃ sealed rs, wal_inv w sealed rs ∧ durable_lsn w < next_lsn w ∧
    covers md (durable_lsn w) w (segs_of w sealed rs) ∧
    match flight s with
    | Some (l, seg, b) => l < next_lsn w ∧ covers (mf seg b) l w (segs_of w sealed rs)
    | None => True
    end.

(** A step that changes neither the frontier nor the flight. *)
Lemma tracked_evolves w w' fl sealed rs sealed' rs' :
  wal_inv w sealed rs → wal_inv w' sealed' rs' →
  evolves (next_lsn w) w w' (segs_of w sealed rs) (segs_of w' sealed' rs') →
  durable_lsn w' = durable_lsn w → next_lsn w ≤ next_lsn w' →
  durable_lsn w < next_lsn w → covers md (durable_lsn w) w (segs_of w sealed rs) →
  match fl with
  | Some (l, seg, b) => l < next_lsn w ∧ covers (mf seg b) l w (segs_of w sealed rs)
  | None => True
  end → tracked (mkSys w' fl).
Proof.
  intros Hi Hi' Hev Ed Hn Hd Hc Hf. exists sealed', rs'. simpl. rewrite Ed.
  split_and!; [done|lia| |].
  - by eapply covers_evolves.
  - destruct fl as [[[l seg] b]|]; [|done]. destruct Hf as [Hl Hf]. split; [lia|].
    by eapply covers_evolves.
Qed.

Lemma tracked_same s w' : tracked s → same_log (sys_wal s) w' →
  durable_lsn w' = durable_lsn (sys_wal s) → tracked (mkSys w' (flight s)).
Proof.
  intros (sealed&rs&Hi&Hd&Hc&Hf) Hs Ed.
  eapply (tracked_evolves (sys_wal s)); try done; [by eapply wal_inv_same|by apply evolves_same|].
  rewrite (sl_next _ _ Hs). lia.
Qed.

Lemma tracked_fsync io s : G (sys_wal s) → tracked s → tracked (wal_exec (EFsync io) s).
Proof.
  intros HG Ht. simpl. destruct (fsync_locked io (sys_wal s)) as [r w'] eqn:E. simpl.
  destruct (fsync_same _ _ _ _ E) as (Hs&_&[(->&Ed&_)|(_&Ed&_)]); [|by apply tracked_same].
  destruct Ht as (sealed&rs&Hi&Hd&Hc&Hf). pose proof (wal_inv_same _ _ _ _ Hs Hi) as Hi'.
  exists sealed, rs. simpl. rewrite Ed. split_and!; [done|lia|by eapply Hfsync|].
  destruct (flight s) as [[[l seg] b]|]; [|done]. rewrite (sl_next _ _ Hs). destruct Hf. split; [done|].
  apply (covers_same _ _ (sys_wal s)); auto.
Qed.

Lemma tracked_group_flush io s : G (sys_wal s) → tracked s → tracked (wal_exec (EGroupFlush io) s).
Proof.
  intros HG Ht. simpl. destruct (flight s) eqn:Ef; [done|].
  destruct (group_flush io (sys_wal s)) as [r w'] eqn:E.
  destruct (group_flush_same _ _ _ _ E) as (Hs&_&Ed&H1).
  assert (tracked (mkSys w' None)) as Hnone by (rewrite <- Ef; by apply tracked_same).
  destruct H1 as [(->&_)|([m ->]&_)]; [|done].
  destruct Ht as (sealed&rs&Hi&Hd&Hc&Hf). pose proof (wal_inv_same _ _ _ _ Hs Hi) as Hi'.
  exists sealed, rs. simpl. rewrite Ed, (sl_next _ _ Hs).
  split_and!; [done|lia|apply (covers_same _ _ (sys_wal s)); auto|lia|].
  change (active_seg w') with ((next_lsn (sys_wal s) - 1, active_seg w').2).
  rewrite <- (sl_next _ _ Hs). by eapply Hflush.
Qed.

Lemma tracked_group_sync io s : tracked s → tracked (wal_exec (EGroupSync io) s).
Proof.
  intros Ht. simpl. destruct (flight s) as [[[l seg] [|]]|] eqn:Ef; [done| |done].
  destruct (group_sync io seg (sys_wal s)) as [r w'] eqn:E.
  destruct (group_sync_same _ _ _ _ _ E) as (Hs&_&Ed&H1).
  destruct Ht as (sealed&rs&Hi&Hd&Hc&Hf). rewrite Ef in Hf. destruct Hf as [Hl Hf].
  assert (∀ fl, match fl with Some (l, seg, b) => l < next_lsn w' ∧
      covers (mf seg b) l w' (segs_of w' sealed rs) | None => True end →
    tracked (mkSys w' fl)) as Hk.
  { intros fl Hfl. exists sealed, rs. simpl. rewrite Ed, (sl_next _ _ Hs) in *.
    split_and!; [by eapply wal_inv_same|lia|apply (covers_same _ _ (sys_wal s)); auto|done]. }
  destruct H1 as [[-> Edir]|[m ->]]; apply Hk; [|done]. rewrite (sl_next _ _ Hs).
  split; [done|]. eapply Hsync; [exact Edir|done|]. by apply segs_of_same.
Qed.

Lemma tracked_group_advance s : tracked s → tracked (wal_exec EGroupAdvance s).
Proof.
  intros Ht. simpl. destruct (flight s) as [[[l seg] [|]]|] eqn:Ef; [|done..].
  destruct Ht as (sealed&rs&Hi&Hd&Hc&Hf). rewrite Ef in Hf. destruct Hf as [Hl Hf].
  unfold group_advance, modify. simpl. case_decide.
  - exists sealed, rs. simpl. split_and!; [|done|by eapply Hadv|done].
    eapply wal_inv_same; [|done]. by apply same_log_fields.
  - by exists sealed, rs.
Qed.

Lemma tracked_step s s' : wal_step G s s' → tracked s → tracked s'.
Proof.
  intros (e&He&->) Ht. destruct e; simpl in He.
  - destruct He as [Hr Hio]. destruct Ht as (sealed&rs&Hi&Hd&Hc&Hf). simpl.
    destruct (append_locked io mini prev ty page slot redo undo (sys_wal s)) as [r w'] eqn:E.
    pose proof (kf_append io mini prev ty page slot redo undo (sys_wal s)) as Hk. rewrite E in Hk.
    apply frontier_durable in Hk. simpl in Hk |- *.
    destruct (append_inv _ _ _ _ _ _ _ _ _ _ _ _ _ Hi Hr Hio E) as (sealed'&rs'&Hi'&Hev&Hn).
    apply (tracked_evolves (sys_wal s) _ _ sealed rs sealed' rs'); try done.
    destruct Hn as [(_&->&_)|(_&->&_)]; lia.
  - by apply tracked_same; [|apply same_log_fields|].
  - by apply tracked_fsync.
  - by apply tracked_group_flush.
  - by apply tracked_group_sync.
  - by apply tracked_group_advance.
  - apply tracked_same; [done|apply sealer_take_same|apply frontier_durable, frontier_take].
  - apply tracked_same; [done|apply sealer_finish_same|apply frontier_durable, frontier_finish].
  - apply tracked_same; [done| |apply frontier_durable, frontier_wait].
    destruct (wait_until_durable target io (sys_wal s)) eqn:E. by eapply wait_same.
  - destruct Ht as (sealed&rs&Hi&Hd&Hc&Hf). simpl.
    pose proof (kf_truncate io keep (sys_wal s)) as Hk.
    destruct (truncate_before io keep (sys_wal s)) as [r w'] eqn:E. apply frontier_durable in Hk.
    simpl in Hk |- *.
    destruct (truncate_inv _ _ _ _ _ _ _ Hi E) as (sealed'&Hi'&_&Hev&_&Hn&_).
    apply (tracked_evolves (sys_wal s) _ _ sealed rs sealed' rs); try done. lia.
  - by apply tracked_same; [|apply same_log_fields|].
  - by apply tracked_same; [|apply same_log_fields|].
  - apply tracked_same; [done| |done]. constructor; try done. intros _. apply dir_keeps_refl.
Qed.

End track.

Lemma fresh_inv w : fresh w →
  wal_inv w [] [] ∧ durable_lsn w < next_lsn w ∧ (∀ m l, covers m l w (segs_of w [] [])).
Proof.
  intros (io&start&size&d&H0&H1&E). unfold open_with_segment_size in E. simpl in E.
  destruct (create_segment io 1 _ []) as [r d'] eqn:Ec.
  apply create_segment_dir in Ec as [[-> ->]|[-> _]]; [|done]. simplify_eq/=.
  set (nl := if decide (start = INVALID_LSN) then 1 else start + 1).
  assert (1 ≤ nl < 2 ^ 64) as Hnl by (subst nl; case_decide; lia).
  assert (wal_inv (mkWal [(1, mkFile (segment_header_bytes nl) 0)] [] 1 nl SEG_HDR (Z.max size (SEG_HDR + 1))
    nl 1 SEG_HDR 0 INVALID_LSN None false false false new_sealer) [] []) as Hi.
  { constructor; simpl; try done.
    - exists []. split; [|by left]. done.
    - repeat constructor.
    - apply (lsns_ok_rotate []); [|lia]. constructor; [constructor|constructor| |constructor].
      intros pre s post E. by destruct pre.
    - lia.
    - intros i f Hf%list_elem_of_singleton. simplify_eq/=. lia. }
  split_and!; [exact Hi|simpl; unfold INVALID_LSN; lia|].
  intros m l s ->%list_elem_of_singleton. simpl. eexists _, 0%nat.
  split_and!; [by left|by left|done].
Qed.

(** Without a guard the frontier covers the bytes in the files; with fsyncs only
    while the sealer is quiet it covers the bytes on disk. *)

Definition any (w : Wal) : Prop := True.

Lemma reachable_flushed s : wal_reachable any s → tracked m_flushed (λ _ _, m_flushed) s.
Proof.
  intros (w&Hw&Hr). revert s Hr. apply (rtc_ind_r (tracked m_flushed (λ _ _, m_flushed)) (mkSys w None)).
  { destruct (fresh_inv w Hw) as (Hi&Hd&Hc). exists [], []. simpl. split_and!; auto. }
  intros s s' _ Hs. revert Hs. apply tracked_step; auto using m_flushed_mono.
  - intros io v v' sealed rs l _ _ E Hi. apply covers_all; [done| |done].
    by destruct (fsync_same _ _ _ _ E) as (_&_&[(_&_&?&_)|([m ?]&_)]).
  - intros io v x v' sealed rs l _ _ E Hi. apply covers_all; [done| |done].
    by destruct (group_flush_same _ _ _ _ E) as (_&_&_&[(_&?&_)|([m ?]&_)]).
  - intros v v' sealed rs seg l Ed Hc -> t Ht. destruct (Hc t Ht) as (f&n&Hf&Hn&Hdr).
    exists (if decide (s_idx t = seg) then file_sync f else f), n.
    split_and!; [rewrite Ed; apply elem_of_dir_alter; eauto| |done].
    destruct Hn as [|Hn]; [by left|right]. unfold m_flushed in *. by case_decide.
Qed.

Definition m_group (seg : Z) (b : bool) : Z → File → nat := if b then m_synced else m_flight seg.

Lemma quiet_on_disk w sealed rs s : quiet w → wal_inv w sealed rs → s ∈ sealed →
  on_disk (dir w) (s_idx s) ∧ s_idx s ≠ active_seg w.
Proof.
  intros (Hp&Hs&He) Hi Hin. pose proof (inv_sealed_below _ _ _ Hi) as Hb.
  destruct Hi as [_ _ _ _ _ _ Hst]. rewrite Forall_forall in *. specialize (Hb _ Hin).
  split; [|lia]. destruct (Hst _ Hin) as [?|[[l ?]|[[l ?]|?]]]; congruence || done.
Qed.

Lemma reachable_durable s : wal_reachable quiet s → tracked m_synced m_group s.
Proof.
  intros (w&Hw&Hr). revert s Hr. apply (rtc_ind_r (tracked m_synced m_group) (mkSys w None)).
  { destruct (fresh_inv w Hw) as (Hi&Hd&Hc). exists [], []. simpl. split_and!; auto. }
  intros s s' _ Hs. revert Hs. apply tracked_step.
  - apply m_synced_mono.
  - intros seg []; [apply m_synced_mono|apply m_flight_mono].
  - intros io v v' sealed rs l Hq Hi0 E Hi.
    destruct (fsync_same _ _ _ _ E) as (_&_&[(_&_&Hb&Ha&_&Ho)|([m ?]&_)]); [|done].
    apply covers_all; [done|done|]. intros t f Ht Hf. unfold m_synced.
    apply elem_of_app in Ht as [Ht| ->%list_elem_of_singleton]; [|by apply Ha].
    destruct (quiet_on_disk _ _ _ _ Hq Hi0 Ht) as [Hd Hne]. by apply (Ho _ Hd Hne).
  - intros io v x v' sealed rs l Hq Hi0 E Hi.
    destruct (group_flush_same _ _ _ _ E) as (_&_&_&[(Hx&Hb&Ho)|([m ?]&_)]); [|done].
    apply covers_all; [done|done|]. intros t f Ht Hf. unfold m_group, m_flight.
    injection Hx as ->. simpl. case_decide as Hact; [done|].
    apply elem_of_app in Ht as [Ht| ->%list_elem_of_singleton]; [|done].
    destruct (quiet_on_disk _ _ _ _ Hq Hi0 Ht) as [Hd Hne]. by apply (Ho _ Hd Hne).
  - intros v v' sealed rs seg l Ed Hc -> t Ht. destruct (Hc t Ht) as (f&n&Hf&Hn&Hdr).
    exists (if decide (s_idx t = seg) then file_sync f else f), n.
    split_and!; [rewrite Ed; apply elem_of_dir_alter; eauto| |done].
    destruct Hn as [|Hn]; [by left|right]. unfold m_group, m_synced, m_flight in *.
    by case_decide.
  - done.
Qed.

(** ** Reading the files back *)

(** A file that holds the first bytes of a segment, enough for its first [n]
    records: a scan returns those and perhaps more. *)
Lemma scan_covered base rs k n : Forall record_ok rs → 0 ≤ k →
  zlen (seg_bytes base (take n rs)) ≤ k →
  ∃ n', scan_segment_file (take (Z.to_nat k) (seg_bytes base rs)) = take n' rs ∧
    (Nat.min n (length rs) ≤ n')%nat.
Proof.
  intros Hrs Hk Hn. destruct (scan_cut base rs k Hrs Hk) as (n'&Hn'&E&_&Hlt). rewrite firstn_all in E.
  exists n'. split; [exact E|]. destruct (decide (Nat.min n (length rs) ≤ n')%nat) as [|Hgt]; [done|].
  specialize (Hlt ltac:(lia)). unfold seg_bytes in Hn.
  assert (take n rs = take (S n') rs ++ drop (S n') (take n rs)) as Et.
  { rewrite <- (take_drop (S n') (take n rs)) at 1. rewrite take_take, Nat.min_l by lia. done. }
  rewrite Et, encode_stream_app, !zlen_app in Hn. rewrite zlen_app in Hlt.
  pose proof (zlen_nonneg (encode_stream (drop (S n') (take n rs)))). lia.
Qed.

Lemma seg_records w sealed rs s : wal_inv w sealed rs → s ∈ segs_of w sealed rs →
  Forall record_ok (s_recs s).
Proof.
  intros [_ _ _ [_ _ _ Hr] _ _ _] (l1&l2&E)%list_elem_of_split. rewrite E, log_app in Hr.
  apply Forall_app in Hr as [_ Hr]. unfold log in Hr. rewrite fmap_cons in Hr. cbn [concat] in Hr.
  by apply Forall_app in Hr as [? _].
Qed.

(** A record that is covered by what is fsynced is read back after a crash. *)
Lemma covered_survives w sealed rs l keep r : wal_inv w sealed rs →
  covers m_synced l w (segs_of w sealed rs) → r ∈ log_of w → w_lsn r ≤ l →
  r ∈ scan_dir (crash (dir w) keep).
Proof.
  intros Hi Hc Hr Hl. rewrite (log_of_inv _ _ _ Hi) in Hr.
  assert (r ∈ log (segs_of w sealed rs)) as (s&Hs&Hrs)%elem_of_log.
  { unfold segs_of. by rewrite log_app, log_single. }
  destruct (Hc s Hs) as (f&n&Hf&Hn&Hd).
  assert (r ∈ take n (s_recs s)) as Ht.
  { rewrite <- (take_drop n (s_recs s)), elem_of_app in Hrs. destruct Hrs as [|Hin]; [done|].
    rewrite Forall_forall in Hd. specialize (Hd _ Hin). simpl in Hd. lia. }
  destruct Hn as [->|Hn]; [by apply not_elem_of_nil in Ht|].
  pose proof (inv_data _ _ _ _ _ Hi Hs Hf) as Edata. pose proof (wi_synced _ _ _ Hi _ _ Hf) as Hsy.
  set (k := Nat.min (Nat.max (f_synced f) (keep (s_idx s))) (length (f_data f))).
  destruct (scan_covered (s_base s) (s_recs s) (Z.of_nat k) n) as (n'&E&Hle);
    [by eapply seg_records|lia|unfold m_synced in *; lia|].
  unfold scan_dir, scan_file. apply elem_of_concat. exists (take n' (s_recs s)). split.
  - rewrite <- list_fmap_compose. apply list_elem_of_fmap.
    exists (s_idx s, crash_file f (keep (s_idx s))). split.
    + simpl. rewrite <- E, Nat2Z.id, <- Edata. f_equal. subst k.
      rewrite take_app_le by lia. rewrite <- take_take, firstn_all. done.
    + apply list_elem_of_fmap. by exists (s_idx s, f).
  - apply (elem_of_sublist (take n (s_recs s))); [done|].
    assert (take n (s_recs s) = take (Nat.min n (length (s_recs s))) (s_recs s)) as ->.
    { by rewrite <- take_take, firstn_all. }
    rewrite <- (Nat.min_l (Nat.min n (length (s_recs s))) n') by done.
    rewrite <- take_take. apply sublist_take.
Qed.

Lemma filter_concat {A} (P : A → Prop) `{!∀ x, Decision (P x)} (ls : list (list A)) :
  filter P (concat ls) = concat (filter P <$> ls).
Proof. induction ls as [|l ls IH]; [done|]. rewrite fmap_cons. simpl. by rewrite filter_app, IH. Qed.

(** What is flushed of the active segment holds every record up to [l]. *)
Lemma scan_active w sealed rs l f : wal_inv w sealed rs →
  covers m_flushed l w (segs_of w sealed rs) → (active_seg w, f) ∈ dir w →
  ∃ n, scan_segment_file (f_data f) = take n rs ∧ Forall (λ r, l < w_lsn r) (drop n rs).
Proof.
  intros Hi Hc Hf. set (s := mkSeg (active_seg w) (active_base_lsn w) rs).
  assert (s ∈ segs_of w sealed rs) as Hs by (apply elem_of_app; right; by apply list_elem_of_singleton).
  destruct (Hc s Hs) as (f'&n&Hf'&Hn&Hd). simpl in *.
  assert (f' = f) as ->.
  { eapply NoDup_fst_eq; [|done..]. apply sorted_NoDup, Hi. }
  pose proof (inv_data _ _ _ _ _ Hi Hs Hf) as Edata. simpl in Edata. rewrite decide_True in Edata by done.
  pose proof (seg_records _ _ _ _ Hi Hs) as Hok. simpl in Hok.
  assert (take (Z.to_nat (zlen (f_data f))) (seg_bytes (active_base_lsn w) rs) = f_data f) as Et.
  { unfold zlen. by rewrite Nat2Z.id, <- Edata, take_app_length. }
  destruct Hn as [->|Hn].
  - destruct (scan_cut (active_base_lsn w) rs (zlen (f_data f)) Hok) as (n'&_&E&_); [unfold zlen; lia|].
    rewrite firstn_all in E. fold (seg_bytes (active_base_lsn w) rs) in E. rewrite Et in E.
    exists n'. split; [done|]. by apply Forall_drop.
  - destruct (scan_covered (active_base_lsn w) rs (zlen (f_data f)) n Hok) as (n'&E&Hle);
      [unfold zlen; lia|unfold m_flushed in Hn; unfold zlen in *; lia|].
    rewrite Et in E. exists n'. split; [done|].
    destruct (decide (n ≤ n')%nat).
    + replace n' with (n + (n' - n))%nat by lia. rewrite <- drop_drop. by apply Forall_drop.
    + rewrite drop_ge by lia. done.
Qed.

(** Records up to the frontier are in the files, whatever is still buffered. *)
Lemma scan_flushed w sealed rs l from : wal_inv w sealed rs →
  covers m_flushed l w (segs_of w sealed rs) →
  filter (λ r, from < w_lsn r ∧ w_lsn r ≤ l) (scan_dir (dir w)) =
  filter (λ r, from < w_lsn r ∧ w_lsn r ≤ l) (log_of w).
Proof.
  intros Hi Hc. unfold scan_dir, log_of, scan_file, content, view, dir_alter.
  rewrite !filter_concat, <- !list_fmap_compose. f_equal. apply list_fmap_ext.
  intros k [i f] Hk. simpl. case_decide as Ha; [|done]. simpl. subst i.
  apply list_elem_of_lookup_2 in Hk. destruct (scan_active _ _ _ _ _ Hi Hc Hk) as (n&E&Hd).
  set (s := mkSeg (active_seg w) (active_base_lsn w) rs).
  assert (s ∈ segs_of w sealed rs) as Hs by (apply elem_of_app; right; by apply list_elem_of_singleton).
  pose proof (inv_data _ _ _ _ _ Hi Hs Hk) as Edata. simpl in Edata. rewrite decide_True in Edata by done.
  rewrite Edata. unfold seg_bytes. rewrite <- (app_nil_r (encode_stream rs)).
  rewrite scan_segment_prefix; [|by apply (seg_records _ _ _ _ Hi Hs)|by left].
  rewrite E. trans (filter (λ r, from < w_lsn r ∧ w_lsn r ≤ l) (take n rs ++ drop n rs));
    [|by rewrite take_drop].
  rewrite filter_app, (filter_none _ (drop n rs)), app_nil_r; [done|].
  apply Forall_forall. eapply Forall_impl; [exact Hd|]. simpl. lia.
Qed.

End props.
