(* ===== verification/WalClaims.v ===== *)
(** The theorems about the write-ahead log, and runs that show what is not
    guaranteed. *)

From stdpp Require Import base numbers list sorting sets relations.
From S2P Require Import Prelude Format Page PageProps WalCodec WalCodecProps Wal WalInv WalProps.
Open Scope op_scope.

(** ** Poisoning *)

Section poison.
Context `{!Crc32}.

(** On a poisoned log the operation ends, leaves the log poisoned and the
    frontier where it is. *)
Definition latched {A} (m : op Wal A) : Prop :=
  ∀ w, poisoned w = true →
    poisoned (m w).2 = true ∧ durable_lsn (m w).2 = durable_lsn w ∧ (m w).1 ≠ Panic.

Definition errs {A} (r : Result A) : Prop := ∃ e, r = Err e.

Lemma latched_bind {A B} (f : A → op Wal B) (m : op Wal A) :
  latched m → (∀ a, latched (f a)) → latched (op_bind f m).
Proof.
  intros Hm Hf w Hw. unfold op_bind. destruct (Hm w Hw) as (H1&H2&H3).
  destruct (m w) as [[a| |] w']; simpl in *; [|done..]. destruct (Hf a w' H1) as (->&->&?). auto.
Qed.

(** If the rest of an operation fails on poisoned logs, so does the whole. *)
Lemma errs_bind {A B} (f : A → op Wal B) (m : op Wal A) w :
  latched m → poisoned w = true →
  (∀ a w', poisoned w' = true → errs (f a w').1) → errs (op_bind f m w).1.
Proof.
  intros Hm Hw Hf. unfold op_bind. destruct (Hm w Hw) as (H1&_&H3).
  destruct (m w) as [[a|e|] w']; simpl in *; [by apply Hf|by eexists|done].
Qed.

Lemma errs_bind_l {A B} (f : A → op Wal B) (m : op Wal A) w :
  errs (m w).1 → errs (op_bind f m w).1.
Proof. intros [e He]. unfold op_bind. destruct (m w) as [r w']. simpl in He. subst. by eexists. Qed.

Lemma latched_flush fault : latched (bw_flush fault).
Proof.
  intros w Hw. destruct (bw_flush fault w) as [r w'] eqn:E. simpl.
  destruct (bw_flush_view _ _ _ _ E) as (S&_&_&_&Hr). rewrite S. destruct Hr; by subst.
Qed.
Lemma latched_write bs fault : latched (bw_write_all bs fault).
Proof.
  intros w Hw. destruct (bw_write_all bs fault w) as [r w'] eqn:E. simpl.
  destruct (bw_write_all_view _ _ _ _ _ E) as (S&_&_&_&_&Hr). rewrite S. destruct Hr; by subst.
Qed.

Lemma latched_rotate io base : latched (rotate_segment io base).
Proof. intros w Hw. unfold rotate_segment. by rewrite Hw. Qed.

Lemma latched_write_framed io encoded base : latched (write_framed_locked io encoded base).
Proof.
  unfold write_framed_locked.
  repeat (apply latched_bind; [|intros ?]); try done; try apply latched_write.
  case_decide; [apply latched_rotate|done].
Qed.

Lemma latched_append io mini prev ty page slot redo undo :
  latched (append_locked io mini prev ty page slot redo undo).
Proof.
  unfold append_locked. apply latched_bind; [done|intros lsn].
  apply latched_bind; [apply latched_write_framed|done].
Qed.

Lemma latched_fsync io : latched (fsync_locked io).
Proof. intros w Hw. unfold fsync_locked. by rewrite Hw. Qed.
Lemma latched_group io : latched (group_fsync io).
Proof. intros w Hw. unfold group_fsync, op_bind, group_flush. by rewrite Hw. Qed.

Lemma poisoned_take w : poisoned (sealer_take w) = poisoned w.
Proof. unfold sealer_take. by destruct (pending (sealer w)), (sealing (sealer w)). Qed.
Lemma poisoned_finish ok w : poisoned (sealer_finish ok w) = poisoned w.
Proof. unfold sealer_finish. destruct (sealing (sealer w)) as [[]|]; [|done]. by destruct ok. Qed.

Lemma latched_wait target io : latched (wait_until_durable target io).
Proof.
  intros w Hw. split_and!; [|apply frontier_durable, frontier_wait|].
  - unfold wait_until_durable. generalize 3%nat. intros fuel. revert w Hw.
    induction fuel as [|fuel IH]; intros w Hw; [done|]. cbn [wait_loop].
    destruct (seal_error (sealer w)); [done|]. do 2 (case_decide; [done|]).
    set (v := run_to_notify (io_seal io fuel) w).
    assert (poisoned v = true) as Hv.
    { subst v. unfold run_to_notify. rewrite poisoned_finish. case_decide; [by rewrite poisoned_take|done]. }
    specialize (IH v Hv). by destruct (wait_loop fuel target (io_seal io) v).
  - destruct (wait_until_durable target io w) as [r w'] eqn:E.
    by destruct (wait_until_durable_same _ _ _ _ _ E) as [_ [->|[e ->]]].
Qed.

Lemma latched_drain io : latched (drain io).
Proof.
  unfold drain. apply latched_bind; [done|]. intros w0. case_decide; [apply latched_wait|done].
Qed.

Lemma latched_ship io rs : latched (each (ship_record io) rs).
Proof.
  induction rs as [|r rs IH]; [done|]. cbn [each]. apply latched_bind; [|done].
  unfold ship_record. apply latched_bind; [apply latched_write_framed|]. intros _ w Hw.
  unfold modify. simpl. by case_decide.
Qed.

Lemma errs_fsync io w : poisoned w = true → errs (fsync_locked io w).1.
Proof. intros Hw. unfold fsync_locked. rewrite Hw. by eexists. Qed.

(** An fsync failure is final.  Once the log is poisoned, no operation clears
    the flag or moves the durable frontier, and every operation that promises
    durability reports an error: a commit record outside deferred mode, a
    checkpoint, [sync], a group fsync, [sync_up_to] beyond the frontier, and the
    application of shipped records. *)
Theorem poison_latched io w : poisoned w = true →
  latched (fsync_locked io) ∧ latched (group_fsync io) ∧ latched (drain io) ∧
  (∀ mini prev ty page slot redo undo, latched (append_locked io mini prev ty page slot redo undo)) ∧
  (∀ rs, latched (each (ship_record io) rs)) ∧
  (∀ xid prev, deferred_sync w = false → errs (commit_user_txn io xid prev w).1) ∧
  errs (log_checkpoint io w).1 ∧ errs (sync io w).1 ∧ errs (group_fsync io w).1 ∧
  (∀ target, durable_lsn w < target → errs (sync_up_to io target w).1) ∧
  (∀ rs, rs ≠ [] → errs (write_shipped io rs w).1).
Proof.
  intros Hw.
  split_and!; try apply latched_fsync; try apply latched_group; try apply latched_drain;
    try apply latched_append; try apply latched_ship.
  - intros xid prev Hd. unfold commit_user_txn, op_bind at 1.
    destruct (latched_append io xid prev WAL_TXN_COMMIT 0 0 [] [] w Hw) as (H1&_&H3).
    pose proof (kf_append io xid prev WAL_TXN_COMMIT 0 0 [] [] w) as Hk.
    destruct (append_locked io xid prev WAL_TXN_COMMIT 0 0 [] [] w) as [[lsn|e|] w'];
      [|by eexists|done]. injection Hk as _ Hk.
    unfold sync_unless_deferred, gets, op_bind at 1, id. simpl in *. rewrite Hk, Hd.
    by apply errs_bind_l, errs_fsync.
  - apply errs_bind; [apply latched_append|done|]. intros lsn w' Hw'.
    by apply errs_bind_l, errs_fsync.
  - apply errs_bind; [apply latched_drain|done|]. intros _ w' Hw'. by apply errs_fsync.
  - unfold group_fsync. apply errs_bind_l. unfold group_flush. rewrite Hw. by eexists.
  - intros target Ht. unfold sync_up_to. rewrite decide_False by lia. unfold op_bind at 1.
    destruct (latched_wait target io w Hw) as (H1&H2&H3).
    destruct (wait_until_durable target io w) as [[u|e|] w']; [|by eexists|done].
    unfold op_bind, gets, id. simpl in *. rewrite decide_False by lia.
    apply errs_bind_l. unfold group_flush. rewrite H1. by eexists.
  - intros rs Hrs. unfold write_shipped. rewrite decide_False by done. rewrite Hw. by eexists.
Qed.
End poison.

(** ** The log *)

Section claims.
Context `{!Crc32}.

(** C33: the log is append-only and ordered.  Take a log that was created empty (not
    reopened) and any state that appends, fsyncs, group commits, rotations, the sealer and
    truncations of any number of threads can reach from there, whatever system calls
    failed, except that no write of a record's own bytes failed, in this append or an
    earlier one.  Then the LSNs of the log ascend and lie below the next one; an append of
    a record that fits the format and that succeeds returns the next LSN and adds exactly
    its record at the end; one that fails adds nothing and uses no LSN. *)
Theorem append_extends_log s io mini prev ty page slot redo undo res w' :
  wal_reachable any s → io_rec io = None →
  let w := sys_wal s in
  let r := append_record w mini prev ty page slot redo undo in
  record_ok r → append_locked io mini prev ty page slot redo undo w = (res, w') →
  StronglySorted Z.lt (w_lsn <$> log_of w) ∧ Forall (λ r, w_lsn r < next_lsn w) (log_of w) ∧
  ((res = Ok (next_lsn w) ∧ next_lsn w' = next_lsn w + 1 ∧ log_of w' = log_of w ++ [r]) ∨
   ((∃ e, res = Err e) ∧ next_lsn w' = next_lsn w ∧ log_of w' = log_of w)).
Proof.
  intros (sealed&rs&Hi&_)%reachable_flushed Hio w r Hr E. fold w in Hi.
  assert (log_of w = log (segs_of w sealed rs)) as El.
  { rewrite (log_of_inv _ _ _ Hi). unfold segs_of. by rewrite log_app, log_single. }
  split; [rewrite El; apply Hi|]. split; [rewrite El; apply Hi|].
  destruct (append_inv _ _ _ _ _ _ _ _ _ _ _ _ _ Hi Hr Hio E) as (sealed'&rs'&Hi'&_&Hres).
  rewrite (log_of_inv _ _ _ Hi'), (log_of_inv _ _ _ Hi). done.
Qed.

(** Truncation loses nothing that is still needed.  [truncate_before] removes
    whole segments: what remains is part of the log in the same order, every
    record at or above the bound remains, and the active segment and the LSN
    counter are untouched, also when removing a file fails half way. *)
Theorem truncate_keeps_needed s io keep res w' :
  wal_reachable any s → let w := sys_wal s in
  truncate_before io keep w = (res, w') →
  log_of w' `sublist_of` log_of w ∧
  (∀ r, r ∈ log_of w → keep ≤ w_lsn r → r ∈ log_of w') ∧
  next_lsn w' = next_lsn w ∧ active_seg w' = active_seg w.
Proof.
  intros (sealed&rs&Hi&_)%reachable_flushed w E. by eapply truncate_log.
Qed.

(** Replicas receive exactly the durable log.  [records_from] returns the
    records of the log after the given LSN up to the durable frontier, in order,
    although it reads the files and part of the log may still be buffered, and a
    replica decodes the shipped bytes to exactly those records. *)
Theorem ship_exact s from : wal_reachable any s → let w := sys_wal s in
  let rs := filter (λ r, from < w_lsn r ∧ w_lsn r ≤ durable_lsn w) (log_of w) in
  records_from w from = rs ∧ decode_stream (ship_from w from) = Ok rs.
Proof.
  intros (sealed&rs&Hi&_&Hc&_)%reachable_flushed w rs'. fold w in Hi, Hc.
  assert (records_from w from = rs') as E by (by eapply scan_flushed). split; [done|].
  unfold ship_from. rewrite E. unfold decode_stream. rewrite decode_stream_frames; [done| |].
  - subst rs'. eapply Forall_sublist; [apply sublist_filter|]. rewrite (log_of_inv _ _ _ Hi).
    pose proof (lo_records _ _ (wi_lsns _ _ _ Hi)) as Hr. unfold segs_of in Hr.
    by rewrite log_app, log_single in Hr.
  - pose proof (length_stream rs'). lia.
Qed.

(** C7: what is reported durable survives.  For a log that was created empty (not
    reopened), in every interleaving in which an fsync of the active segment starts only
    while the sealer has nothing pending, is not sealing and has not failed, and in which
    no write of a record's own bytes fails, each record of the log up to the durable
    frontier is read back from whatever a crash leaves of the files, however many bytes
    beyond the fsynced ones each file keeps. *)
Theorem durable_survives_crash s r keep : wal_reachable quiet s → let w := sys_wal s in
  r ∈ log_of w → w_lsn r ≤ durable_lsn w → r ∈ scan_dir (crash (dir w) keep).
Proof.
  intros (sealed&rs&Hi&_&Hc&_)%reachable_durable w Hr Hl. fold w in Hi, Hc.
  by eapply covered_survives.
Qed.

(** C21: an acknowledged commit survives.  Take a log that was created empty (not
    reopened), in a state reached without a failed write of a record's own bytes and with
    every fsync of the active segment started while the sealer was idle.  If the commit
    record of a user transaction, which fits the format and whose bytes are written, is
    acknowledged outside deferred mode and the sealer is idle when its fsync runs, the
    record and all records still in the log before it are read back after any crash. *)
Theorem commit_acknowledged_durable s io xid prev lsn w' keep :
  wal_reachable quiet s → io_rec io = None → let w := sys_wal s in
  record_ok (append_record w xid prev WAL_TXN_COMMIT 0 0 [] []) → deferred_sync w = false →
  commit_user_txn io xid prev w = (Ok lsn, w') → quiet w' →
  log_of w' = log_of w ++ [append_record w xid prev WAL_TXN_COMMIT 0 0 [] []] ∧
  lsn = next_lsn w ∧ ∀ r, r ∈ log_of w' → r ∈ scan_dir (crash (dir w') keep).
Proof.
  intros Hs Hio w Hr Hdef E Hq.
  unfold commit_user_txn, op_bind at 1 in E.
  pose proof (kf_append io xid prev WAL_TXN_COMMIT 0 0 [] [] w) as Hk.
  destruct (append_locked io xid prev WAL_TXN_COMMIT 0 0 [] [] w) as [r1 w1] eqn:E1.
  destruct r1 as [l|e|]; [|done..]. injection Hk as _ Hk. simpl in Hk.
  unfold sync_unless_deferred, op_bind at 1, gets, id in E. rewrite Hk, Hdef in E.
  unfold op_bind in E. destruct (fsync_locked io w1) as [r2 w2] eqn:E2.
  destruct r2 as [u|e|]; [|done..]. injection E as -> ->.
  destruct (fsync_same _ _ _ _ E2) as (Hsame&Hseal&[(_&Hd&_)|([m ?]&_)]); [|done].
  assert (quiet w1) as Hq1 by (unfold quiet in *; by rewrite <- Hseal).
  assert (wal_reachable quiet (mkSys w' (flight s))) as Hs'.
  { destruct Hs as (w0&Hw0&Hrtc). exists w0. split; [done|].
    eapply rtc_r; [eapply rtc_r; [exact Hrtc|]|].
    - exists (EAppend io xid prev WAL_TXN_COMMIT 0 0 [] []). split; [done|]. simpl. fold w. by rewrite E1.
    - exists (EFsync io). split; [done|]. simpl. by rewrite E2. }
  destruct (reachable_durable _ Hs) as (sealed&rs&Hi&_). fold w in Hi.
  destruct (append_inv _ _ _ _ _ _ _ _ _ _ _ _ _ Hi Hr Hio E1) as (sealed1&rs1&Hi1&_&[(El&_&El1)|([e ?]&_)]);
    [|done].
  rewrite (log_of_same _ _ Hsame), (log_of_inv _ _ _ Hi1), (log_of_inv _ _ _ Hi), El1.
  split_and!; [done|congruence|]. intros r Hin.
  destruct (reachable_durable _ Hs') as (sealed2&rs2&Hi2&_&Hc&_). simpl in *.
  eapply covered_survives; [done|exact Hc| |].
  - by rewrite (log_of_same _ _ Hsame), (log_of_inv _ _ _ Hi1), El1.
  - rewrite Hd, (sl_next _ _ Hsame).
    assert (Forall (λ r, w_lsn r < next_lsn w1) (log (segs_of w1 sealed1 rs1))) as Hn by apply Hi1.
    unfold segs_of in Hn. rewrite log_app, log_single in Hn. simpl in Hn. rewrite El1, Forall_forall in Hn.
    specialize (Hn _ Hin). simpl in Hn. lia.
Qed.

End claims.

(** ** Witnesses *)

#[local] Existing Instance sum_crc.

Fixpoint oks (G : Wal → Prop) (es : list wal_event) (s : WalSys) : Prop :=
  match es with
  | [] => True
  | e :: es => event_ok G e s ∧ oks G es (wal_exec e s)
  end.

Lemma oks_rtc G es s : oks G es s → rtc (wal_step G) s (foldl (λ s e, wal_exec e s) s es).
Proof.
  revert s. induction es as [|e es IH]; intros s; [intros _; apply rtc_refl|].
  intros [He Hes]. eapply rtc_l; [|by apply IH]. by exists e.
Qed.

Ltac rec_ok :=
  constructor; vm_compute; solve [constructor | split; congruence | congruence].

Definition w_fresh : Wal := Eval vm_compute in
  match open_with_segment_size io_ok [] 0 64 with
  | (Ok w, _) => w
  | _ => mkWal [] [] 0 0 0 0 0 0 0 0 0 None false false false new_sealer
  end.

Lemma w_fresh_ok : fresh w_fresh.
Proof. exists io_ok, 0, 64, (dir w_fresh). split; [lia|]. split; [lia|]. reflexivity. Qed.

(** Two records, the second in a second segment; the sealer fsyncs the first
    segment, then the active one is fsynced. *)
Definition w_events : list wal_event :=
  [EAppend io_ok 7 0 WAL_TXN_BEGIN 0 0 [] []; EAppend io_ok 7 1 WAL_TXN_COMMIT 0 0 [] [];
   ETake; EFinish true; EFsync io_ok].

Definition w_sys : WalSys := Eval vm_compute in
  foldl (λ s e, wal_exec e s) (mkSys w_fresh None) w_events.

Lemma w_sys_reachable G : (∀ w, quiet w → G w) → wal_reachable G w_sys.
Proof.
  intros HG. exists w_fresh. split; [exact w_fresh_ok|].
  replace w_sys with (foldl (λ s e, wal_exec e s) (mkSys w_fresh None) w_events)
    by (vm_compute; reflexivity).
  apply oks_rtc. unfold w_events. cbn [oks event_ok]. split_and!; try exact I; try reflexivity.
  - rec_ok.
  - rec_ok.
  - apply HG. vm_compute. done.
Qed.

Lemma append_extends_log_witness :
  let w := sys_wal w_sys in
  let r := append_record w 8 0 WAL_TXN_BEGIN 0 0 [] [] in
  log_of (append_locked io_ok 8 0 WAL_TXN_BEGIN 0 0 [] [] w).2 = log_of w ++ [r].
Proof.
  intros w r.
  destruct (append_extends_log w_sys io_ok 8 0 WAL_TXN_BEGIN 0 0 [] []
    (append_locked io_ok 8 0 WAL_TXN_BEGIN 0 0 [] [] w).1
    (append_locked io_ok 8 0 WAL_TXN_BEGIN 0 0 [] [] w).2) as (_ & _ & [(_ & _ & E)|([e He] & _)]).
  - apply w_sys_reachable. done.
  - reflexivity.
  - rec_ok.
  - apply surjective_pairing.
  - exact E.
  - vm_compute in He. discriminate He.
Defined.

Lemma truncate_keeps_needed_witness :
  log_of (truncate_before io_ok 2 (sys_wal w_sys)).2 `sublist_of` log_of (sys_wal w_sys) ∧
  length (log_of (truncate_before io_ok 2 (sys_wal w_sys)).2) = 1%nat.
Proof.
  split; [|vm_compute; reflexivity].
  apply (truncate_keeps_needed w_sys io_ok 2 (truncate_before io_ok 2 (sys_wal w_sys)).1).
  - apply w_sys_reachable. done.
  - apply surjective_pairing.
Defined.

Lemma ship_exact_witness :
  decode_stream (ship_from (sys_wal w_sys) 1) =
  Ok (filter (λ r, 1 < w_lsn r ∧ w_lsn r ≤ durable_lsn (sys_wal w_sys)) (log_of (sys_wal w_sys))).
Proof. apply (ship_exact w_sys 1). apply w_sys_reachable. done. Defined.

Lemma durable_survives_crash_witness :
  mkRecord 1 0 7 WAL_TXN_BEGIN 0 0 [] [] ∈ scan_dir (crash (dir (sys_wal w_sys)) (λ _, 0%nat)).
Proof.
  apply (durable_survives_crash w_sys).
  - apply w_sys_reachable. done.
  - vm_compute. left.
  - vm_compute. discriminate.
Defined.

Lemma commit_acknowledged_durable_witness :
  append_record w_fresh 9 0 WAL_TXN_COMMIT 0 0 [] [] ∈
    scan_dir (crash (dir (commit_user_txn io_ok 9 0 w_fresh).2) (λ _, 0%nat)).
Proof.
  destruct (commit_acknowledged_durable (mkSys w_fresh None) io_ok 9 0 1
    (commit_user_txn io_ok 9 0 w_fresh).2 (λ _, 0%nat)) as (Hlog&_&Hr).
  - exists w_fresh. split; [exact w_fresh_ok|apply rtc_refl].
  - reflexivity.
  - rec_ok.
  - reflexivity.
  - vm_compute. reflexivity.
  - vm_compute. done.
  - apply Hr. rewrite Hlog. apply elem_of_app. right. apply list_elem_of_singleton. reflexivity.
Defined.

Lemma poison_latched_witness : errs (log_checkpoint io_ok (poison w_fresh)).1.
Proof. apply (poison_latched io_ok (poison w_fresh)). reflexivity. Defined.

(** ** What is not guaranteed *)

Definition w_large : Wal := Eval vm_compute in
  match open_with_segment_size io_ok [] 0 65536 with (Ok w, _) => w | _ => w_fresh end.

(** A rotation breaks the durability promise.  Every system call below
    succeeds.  First: a transaction begins in one segment and its commit record
    goes to the next one; the acknowledged commit moves the durable frontier past
    the begin record while the first segment was never fsynced, and a crash loses
    it.  Second, the engine's commit path: the sealer has taken the sealed segment
    and its fsync is still running; [sync_up_to] finds nothing pending, fsyncs the
    active segment and reports everything durable. *)
Theorem rotation_breaks_durability :
  (∃ w0 l1 w1 l2 w2 keep, open_with_segment_size io_ok [] 0 64 = (Ok w0, dir w0) ∧
    begin_user_txn io_ok 7 w0 = (Ok l1, w1) ∧ commit_user_txn io_ok 7 l1 w1 = (Ok l2, w2) ∧
    l1 ≤ durable_lsn w2 ∧ l1 ∉ (w_lsn <$> scan_dir (crash (dir w2) keep))) ∧
  (∃ w0 l1 w1 l2 w2 w3 keep, open_with_segment_size io_ok [] 0 64 = (Ok w0, dir w0) ∧
    begin_user_txn io_ok 7 (set_deferred_sync w0 true) = (Ok l1, w1) ∧
    commit_user_txn io_ok 7 l1 w1 = (Ok l2, w2) ∧
    sync_up_to io_ok l2 (sealer_take w2) = (Ok tt, w3) ∧
    l1 ≤ durable_lsn w3 ∧ l1 ∉ (w_lsn <$> scan_dir (crash (dir w3) keep))).
Proof.
  split.
  - exists w_fresh. eexists _, _, _, _, (λ _, 0%nat).
    do 3 (split; [vm_compute; reflexivity|]). split; [vm_compute; discriminate|].
    apply (bool_decide_unpack _). vm_compute. exact I.
  - exists w_fresh. eexists _, _, _, _, _, (λ _, 0%nat).
    do 4 (split; [vm_compute; reflexivity|]). split; [vm_compute; discriminate|].
    apply (bool_decide_unpack _). vm_compute. exact I.
Qed.

(** A write error in the middle of a record hides every later one.  The
    operating system accepts 100 bytes of a record and then reports an error (a
    full disk); the append fails, but the log is not poisoned and the bytes stay.
    The next commit is written behind them, fsynced and acknowledged, and a scan
    of the very same files does not find it. *)
Theorem partial_write_hides_commits :
  ∃ w0 w1 l w2, open_with_segment_size io_ok [] 0 65536 = (Ok w0, dir w0) ∧
    log_insert (mkIo None true true None None (Some 100%nat) None true (λ _, true) (λ _, true))
      1 0 1 0 (replicate 9000 0) w0 = (Err Io, w1) ∧ poisoned w1 = false ∧
    commit_user_txn io_ok 7 0 w1 = (Ok l, w2) ∧ l ≤ durable_lsn w2 ∧
    l ∉ (w_lsn <$> scan_dir (dir w2)).
Proof.
  exists w_large. eexists _, _, _. split; [vm_compute; reflexivity|]. split; [vm_compute; reflexivity|].
  split; [vm_compute; reflexivity|]. split; [vm_compute; reflexivity|].
  split; [vm_compute; discriminate|]. apply (bool_decide_unpack _). vm_compute. exact I.
Qed.

(** A crash right after a rotation makes the next session's commits
    unreadable.  The new segment's header was never fsynced, so a crash may leave
    an empty file.  Reopening appends to that file without writing a header: the
    commit is fsynced and acknowledged, and a scan skips the whole segment. *)
Theorem headerless_segment_hides_commits :
  ∃ w0 l1 w1 l2 w2 keep w3 l3 w4, open_with_segment_size io_ok [] 0 64 = (Ok w0, dir w0) ∧
    begin_user_txn io_ok 7 w0 = (Ok l1, w1) ∧ begin_user_txn io_ok 8 w1 = (Ok l2, w2) ∧
    open_with_segment_size io_ok (crash (dir w2) keep) l2 64 = (Ok w3, crash (dir w2) keep) ∧
    commit_user_txn io_ok 9 0 w3 = (Ok l3, w4) ∧ l3 ≤ durable_lsn w4 ∧
    l3 ∉ (w_lsn <$> scan_dir (dir w4)).
Proof.
  exists w_fresh. eexists _, _, _, _, (λ i, if decide (i = 1) then 1000%nat else 0%nat), _, _, _.
  do 5 (split; [vm_compute; reflexivity|]). split; [vm_compute; discriminate|].
  apply (bool_decide_unpack _). vm_compute. exact I.
Qed.
