(* ===== verification/BufferPool.v ===== *)
(** The buffer pool ([src/bufferpool.rs]): the mapped page file, the frame table,
    pinning, the clock sweep, write-back under the log's durable frontier, and
    full-page-image tracking.

    Page bytes live in the memory map ([mem], one entry per mapped page); frames
    are bookkeeping only.  [disk] is what an [msync], or the kernel on its own
    ([kernel_writeback]: the map is shared with the file), has made durable.  The
    outcomes of the system calls are arguments ([PoolCalls]).  The cache
    counters and the prefetch hints are not modelled. *)

From stdpp Require Import base numbers list gmap sets strings.
From S2P Require Import Prelude Format Page WalCodec Wal.
Open Scope op_scope.

(** ** Page latches *)

Module Latch.

Record LatchState := mkLatch { readers : Z; writer : bool }.
Definition new : LatchState := mkLatch 0 false.

(** [None] is a thread that still waits. *)
Definition acquire_shared (l : LatchState) : option LatchState :=
  if writer l then None else Some (mkLatch (readers l + 1) (writer l)).
Definition release_shared (l : LatchState) : LatchState :=
  mkLatch (Z.max 0 (readers l - 1)) (writer l).
Definition acquire_exclusive (l : LatchState) : option LatchState :=
  if decide (writer l = true ∨ 0 < readers l) then None else Some (mkLatch (readers l) true).
Definition release_exclusive (l : LatchState) : LatchState := mkLatch (readers l) false.

End Latch.

(** ** State *)

Definition GROW_CHUNK_BYTES : Z := 4 * 1024 * 1024.
Definition INITIAL_SLAB_FRAMES : nat := 256.

Record Frame := mkFrame {
  fr_page : option PageId;
  pin_count : Z;
  dirty : bool;
  clock_ref : bool;
  fr_lsn : Lsn;
}.

Definition empty_frame : Frame := mkFrame None 0 false false 0.

Record BufferPool := mkPool {
  p_size : Z;
  capacity : nat;
  grow_chunk_pages : Z;
  mem : list (list Z);
  disk : list (list Z);
  frames : list Frame;
  frame_index : gmap Z nat;
  clock_hand : nat;
  file_page_count : Z;
  durable_wal_lsn : Lsn;
  fpi_logged : gset Z;
  flush_poisoned : bool;
  flush_fault_armed : bool;
}.

Definition mapped_pages (p : BufferPool) : Z := zlen (mem p).

Record PoolCalls := mkPoolCalls { pio_msync : Z → bool; pio_grow : bool }.
Definition pio_ok : PoolCalls := mkPoolCalls (λ _, true) true.

Definition set_mem (p : BufferPool) (m d : list (list Z)) : BufferPool :=
  mkPool (p_size p) (capacity p) (grow_chunk_pages p) m d (frames p) (frame_index p) (clock_hand p)
    (file_page_count p) (durable_wal_lsn p) (fpi_logged p) (flush_poisoned p) (flush_fault_armed p).
Definition set_frames (p : BufferPool) (f : list Frame) (ix : gmap Z nat) (hand : nat) : BufferPool :=
  mkPool (p_size p) (capacity p) (grow_chunk_pages p) (mem p) (disk p) f ix hand
    (file_page_count p) (durable_wal_lsn p) (fpi_logged p) (flush_poisoned p) (flush_fault_armed p).
Definition set_page_count (p : BufferPool) (n : Z) : BufferPool :=
  mkPool (p_size p) (capacity p) (grow_chunk_pages p) (mem p) (disk p) (frames p) (frame_index p)
    (clock_hand p) n (durable_wal_lsn p) (fpi_logged p) (flush_poisoned p) (flush_fault_armed p).
Definition set_durable_lsn (p : BufferPool) (l : Lsn) : BufferPool :=
  mkPool (p_size p) (capacity p) (grow_chunk_pages p) (mem p) (disk p) (frames p) (frame_index p)
    (clock_hand p) (file_page_count p) l (fpi_logged p) (flush_poisoned p) (flush_fault_armed p).
Definition set_fpi (p : BufferPool) (s : gset Z) : BufferPool :=
  mkPool (p_size p) (capacity p) (grow_chunk_pages p) (mem p) (disk p) (frames p) (frame_index p)
    (clock_hand p) (file_page_count p) (durable_wal_lsn p) s (flush_poisoned p) (flush_fault_armed p).
Definition set_flush (p : BufferPool) (poisoned armed : bool) : BufferPool :=
  mkPool (p_size p) (capacity p) (grow_chunk_pages p) (mem p) (disk p) (frames p) (frame_index p)
    (clock_hand p) (file_page_count p) (durable_wal_lsn p) (fpi_logged p) poisoned armed.

Definition alter_frame (f : Frame → Frame) (i : nat) (p : BufferPool) : BufferPool :=
  set_frames p (alter f i (frames p)) (frame_index p) (clock_hand p).

(** The frame of a resident page. *)
Definition alter_resident (f : Frame → Frame) (page_id : PageId) (p : BufferPool) : BufferPool :=
  match frame_index p !! page_id with
  | Some i => alter_frame f i p
  | None => p
  end.

Definition set_clean (b : bool) (f : Frame) : Frame :=
  mkFrame (fr_page f) (pin_count f) b (clock_ref f) (fr_lsn f).
Definition set_written (lsn : Lsn) (f : Frame) : Frame :=
  mkFrame (fr_page f) (pin_count f) true (clock_ref f) lsn.
Definition set_pinned (f : Frame) : Frame :=
  mkFrame (fr_page f) (pin_count f + 1) (dirty f) true (fr_lsn f).
Definition set_unpinned (f : Frame) : Frame :=
  mkFrame (fr_page f) (if decide (0 < pin_count f) then pin_count f - 1 else pin_count f)
    (dirty f) (clock_ref f) (fr_lsn f).
Definition set_unreferenced (f : Frame) : Frame :=
  mkFrame (fr_page f) (pin_count f) (dirty f) false (fr_lsn f).
Definition set_loaded (page_id : PageId) (f : Frame) : Frame :=
  mkFrame (Some page_id) 1 false true (fr_lsn f).

Section pool.
Context `{!Crc32}.

(** ** Reading and writing the map *)

Definition all_zero (bs : list Z) : bool := forallb (Z.eqb 0) bs.

Definition page_at (m : list (list Z)) (page_id : PageId) : option (list Z) :=
  if decide (0 ≤ page_id) then m !! Z.to_nat page_id else None.

Definition read_page_locked (p : BufferPool) (page_id : PageId) (verify : bool)
    : Result SlottedPage :=
  match page_at (mem p) page_id with
  | None => Err (PageNotFound page_id)
  | Some raw =>
      if all_zero raw then Ok (from_bytes_unchecked raw)
      else if verify then from_bytes raw
      else Ok (from_bytes_unchecked raw)
  end.

Definition read_page (page_id : PageId) : op BufferPool SlottedPage := λ p,
  (read_page_locked p page_id true, p).

(** The file is mapped shared, so the kernel may write a page back at any time. *)
Definition kernel_writeback (page_id : PageId) (p : BufferPool) : BufferPool :=
  match page_at (mem p) page_id with
  | Some bs => set_mem p (mem p) (<[Z.to_nat page_id := bs]> (disk p))
  | None => p
  end.

(** [copy_from_slice] into the map panics beyond its end or on a page of another
    size. *)
Definition map_write (p : BufferPool) (page_id : PageId) (bs : list Z) : Result BufferPool :=
  if decide (0 ≤ page_id < mapped_pages p ∧ zlen bs = p_size p) then
    Ok (set_mem p (<[Z.to_nat page_id := bs]> (mem p)) (disk p))
  else Panic.

(** The page id is the one in the page's own header. *)
Definition write_page (page : SlottedPage) : op BufferPool unit := λ p,
  match page_id page, lsn page with
  | Ok pid, Ok l =>
      match map_write p pid (data page) with
      | Ok p => (Ok tt, alter_resident (set_written l) pid p)
      | Err e => (Err e, p)
      | Panic => (Panic, p)
      end
  | _, _ => (Panic, p)
  end.

(** ** Allocation *)

Definition div_ceil (a b : Z) : Z := (a + b - 1) / b.

(** Growing the file fills it with zeros. *)
Definition ensure_mapped (io : PoolCalls) (min_pages : Z) : op BufferPool unit := λ p,
  if decide (min_pages ≤ mapped_pages p) then (Ok tt, p)
  else
    let chunk := grow_chunk_pages p in
    let target := Z.max (div_ceil min_pages chunk * chunk) min_pages in
    if pio_grow io then
      let zeros := replicate (Z.to_nat (target - mapped_pages p)) (replicate (Z.to_nat (p_size p)) 0) in
      (Ok tt, set_mem p (mem p ++ zeros) (disk p ++ zeros))
    else (Err Io, p).

Definition bump_page_count (page_id : PageId) (p : BufferPool) : BufferPool :=
  if decide (file_page_count p < page_id + 1) then set_page_count p (page_id + 1) else p.

Definition ensure_page_allocated (io : PoolCalls) (page_id : PageId) : op BufferPool unit :=
  ensure_mapped io (page_id + 1);;
  modify (bump_page_count page_id).

Definition alloc_page (io : PoolCalls) : op BufferPool PageId :=
  new_id <- gets file_page_count;;
  modify (λ p, set_page_count p (file_page_count p + 1));;
  ensure_mapped io (new_id + 1);;
  op_ret new_id.

(** Trailing pages that are all zero were never handed out. *)
Fixpoint logical_page_count (rev_pages : list (list Z)) : nat :=
  match rev_pages with
  | [] => O
  | bs :: rest => if all_zero bs then logical_page_count rest else length rev_pages
  end.

(** On the pages of the file; an empty file is first sized to one page. *)
Definition open (file : list (list Z)) (page_size : Z) (capacity : nat) : BufferPool :=
  let file := if decide (file = []) then [replicate (Z.to_nat page_size) 0] else file in
  mkPool page_size capacity (Z.max (GROW_CHUNK_BYTES / page_size) 1) file file
    (replicate (Nat.min INITIAL_SLAB_FRAMES capacity) empty_frame) ∅ 0
    (Z.of_nat (logical_page_count (reverse file))) INVALID_LSN ∅ false false.

(** ** Flushing *)

Definition set_durable_wal_lsn (l : Lsn) (p : BufferPool) : BufferPool :=
  if decide (durable_wal_lsn p < l) then set_durable_lsn p l else p.

Definition flush_locked (io : PoolCalls) (pid : PageId) (durable : Lsn) : op BufferPool unit := λ p,
  if flush_poisoned p then (Err (DurabilityFailure "buffer pool is poisoned"), p)
  else
    match read_page_locked p pid false with
    | Err e => (Err e, p)
    | Panic => (Panic, p)
    | Ok page =>
        match lsn page with
        | Ok l =>
            if decide (durable ≠ INVALID_LSN ∧ durable < l) then
              (Err (Recovery "D5 violation on flush"), p)
            else if flush_fault_armed p then
              (Err (DurabilityFailure "injected data-file flush failure"), set_flush p true false)
            else if pio_msync io pid then
              let d := match page_at (mem p) pid with
                       | Some bs => <[Z.to_nat pid := bs]> (disk p)
                       | None => disk p
                       end in
              (Ok tt, alter_resident (set_clean false) pid (set_mem p (mem p) d))
            else (Err (DurabilityFailure "data-file msync failed"),
                  set_flush p true (flush_fault_armed p))
        | _ => (Panic, p)
        end
    end.

Definition flush_page := flush_locked.

Definition dirty_pages (p : BufferPool) : list PageId :=
  omap (λ f, if dirty f then fr_page f else None) (frames p).

Definition flush_all (io : PoolCalls) (durable : Lsn) : op BufferPool unit := λ p,
  if flush_poisoned p then (Err (DurabilityFailure "buffer pool is poisoned"), p)
  else each (λ pid, flush_locked io pid durable) (dirty_pages p) p.

(** ** Frames *)

(** The clock sweep over a full table; [fuel] is the loop's bound. *)
Fixpoint clock_sweep (io : PoolCalls) (fuel : nat) : op BufferPool nat :=
  match fuel with
  | O => fail BufferPoolFull
  | S fuel => λ p,
      let current := length (frames p) in
      let idx := (clock_hand p mod current)%nat in
      let p := set_frames p (frames p) (frame_index p) ((idx + 1) mod current)%nat in
      match frames p !! idx with
      | None => (Panic, p)
      | Some f =>
          if decide (0 < pin_count f) then clock_sweep io fuel p
          else if clock_ref f then clock_sweep io fuel (alter_frame set_unreferenced idx p)
          else if dirty f then
            match fr_page f with
            | None => (Ok idx, p)
            | Some pid =>
                if decide (durable_wal_lsn p = INVALID_LSN ∨ durable_wal_lsn p < fr_lsn f)
                then clock_sweep io fuel p
                else (flush_locked io pid (durable_wal_lsn p);; op_ret idx) p
            end
          else (Ok idx, p)
      end
  end.

Definition find_victim (io : PoolCalls) : op BufferPool nat := λ p,
  let current := length (frames p) in
  if decide (current < capacity p)%nat then
    (Ok current, set_frames p (frames p ++ [empty_frame]) (frame_index p) (clock_hand p))
  else clock_sweep io (current * 2) p.

(** The victim's page leaves the index, the new page takes the frame. *)
Definition load_frame (idx : nat) (page_id : PageId) (p : BufferPool) : BufferPool :=
  let ix := match frames p !! idx with
            | Some f => match fr_page f with
                        | Some old => base.delete old (frame_index p)
                        | None => frame_index p
                        end
            | None => frame_index p
            end in
  set_frames p (alter (set_loaded page_id) idx (frames p)) (<[page_id := idx]> ix) (clock_hand p).

Definition fetch_page (io : PoolCalls) (page_id : PageId) : op BufferPool SlottedPage := λ p,
  match frame_index p !! page_id with
  | Some i =>
      let p := alter_frame set_pinned i p in
      (read_page_locked p page_id false, p)
  | None =>
      (idx <- find_victim io;;
       modify (load_frame idx page_id);;
       λ p, (read_page_locked p page_id true, p)) p
  end.

Definition unpin (page_id : PageId) : op BufferPool unit :=
  modify (alter_resident set_unpinned page_id).

(** ** Full-page images *)

Definition mark_fpi_logged (page_id : PageId) (p : BufferPool) : BufferPool :=
  set_fpi p ({[page_id]} ∪ fpi_logged p).
Definition clear_fpi_tracking (p : BufferPool) : BufferPool := set_fpi p ∅.

(** [restore_page_image] marks the page's frame dirty only if it has one. *)
Definition restore_page_image (io : PoolCalls) (page_id : PageId) (image : list Z)
    : op BufferPool unit := λ p,
  if decide (zlen image ≠ p_size p) then (Err (Recovery "WAL_FPI image has the wrong size"), p)
  else
    (ensure_mapped io (page_id + 1);;
     modify (bump_page_count page_id);;
     λ p, match map_write p page_id image with
          | Ok p => (Ok tt, alter_resident (set_clean true) page_id p)
          | Err e => (Err e, p)
          | Panic => (Panic, p)
          end) p.

(** ** Operations that also use the log *)

Definition on_pool {A} (m : op BufferPool A) : op (BufferPool * Wal) A := λ s,
  let '(r, p) := m s.1 in (r, (p, s.2)).
Definition on_wal {A} (m : op Wal A) : op (BufferPool * Wal) A := λ s,
  let '(r, w) := m s.2 in (r, (s.1, w)).

Definition maybe_log_fpi (io : Calls) (page_id : PageId) (txn_id : Z) (prev_lsn : Lsn)
    : op (BufferPool * Wal) (option Lsn) :=
  logged <- gets (λ s, bool_decide (page_id ∈ fpi_logged s.1));;
  if (logged : bool) then op_ret None
  else
    image <- on_pool (read_page page_id);;
    l <- on_wal (log_fpi io txn_id prev_lsn page_id (data image));;
    modify (λ s, (mark_fpi_logged page_id s.1, s.2));;
    op_ret (Some l).

Definition refresh_durable (s : BufferPool * Wal) : BufferPool * Wal :=
  (set_durable_wal_lsn (durable_lsn s.2) s.1, s.2).

Definition fetch_page_for_write (pio : PoolCalls) (io : Calls) (page_id : PageId)
    : op (BufferPool * Wal) SlottedPage := λ s,
  match on_pool (fetch_page pio page_id) (refresh_durable s) with
  | (Err BufferPoolFull, s) =>
      (on_wal (sync io);;
       modify refresh_durable;;
       on_pool (fetch_page pio page_id)) s
  | other => other
  end.

End pool.
