(* ===== verification/BufferPoolProps.v ===== *)
(** What the buffer pool guarantees: the frame table indexes exactly the resident
    pages, pinned pages stay, a page whose bytes are not durable is in a dirty
    frame unless it was changed without one, no page reaches the disk ahead of the
    log as long as the kernel writes none back, the clock sweep finds a victim
    whenever there is one; and what it does not guarantee. *)

From stdpp Require Import base numbers list gmap sets relations strings.
From S2P Require Import Prelude Format Page PageSpec PageProps WalCodec Wal BufferPool.
Open Scope op_scope.

Section props.
Context `{!Crc32}.

(** ** The invariant *)

(** The LSN field of a page's bytes. *)
Definition p_lsn (bs : list Z) : Lsn := rd bs 12 8.

Record pool_inv (p : BufferPool) : Prop := {
  pi_index : ∀ pid i, frame_index p !! pid = Some i ↔
    ∃ f, frames p !! i = Some f ∧ fr_page f = Some pid;
  pi_capacity : (length (frames p) ≤ capacity p)%nat;
  pi_size : 28 ≤ p_size p;
  pi_mem : Forall (λ bs, zlen bs = p_size p) (mem p);
  pi_disk : length (disk p) = length (mem p);
  pi_chunk : 1 ≤ grow_chunk_pages p;
  pi_pins : Forall (λ f, 0 ≤ pin_count f) (frames p);
}.

(** A page whose bytes differ from the durable ones is in a dirty frame, or it was
    last changed while it had no frame ([R]). *)
Definition written_back (R : gset Z) (p : BufferPool) : Prop := ∀ pid bs,
  page_at (mem p) pid = Some bs → page_at (disk p) pid ≠ Some bs → pid ∉ R →
  ∃ i f, frame_index p !! pid = Some i ∧ frames p !! i = Some f ∧ dirty f = true.

(** No durable page is ahead of the log's frontier [d]. *)
Definition wal_ahead (d : Lsn) (p : BufferPool) : Prop :=
  Forall (λ bs, p_lsn bs ≤ d) (disk p) ∧ 0 ≤ durable_wal_lsn p ≤ d.

Record pool_ok (d : Lsn) (R : gset Z) (p : BufferPool) : Prop := {
  po_inv : pool_inv p;
  po_back : written_back R p;
  po_wal : wal_ahead d p;
}.

(** ** Pages of a page list *)

Lemma page_at_insert m i bs pid : 0 ≤ i < zlen m →
  page_at (<[Z.to_nat i := bs]> m) pid = if decide (pid = i) then Some bs else page_at m pid.
Proof.
  intros Hi. unfold page_at, zlen in *. destruct (decide (pid = i)) as [->|Hne].
  - rewrite decide_True by lia. apply list_lookup_insert_eq. lia.
  - destruct (decide (0 ≤ pid)); [|done]. apply list_lookup_insert_ne. lia.
Qed.

Lemma page_at_range m pid bs : page_at m pid = Some bs → 0 ≤ pid < zlen m.
Proof.
  unfold page_at, zlen. destruct (decide (0 ≤ pid)); [|done].
  intros ?%lookup_lt_Some. lia.
Qed.

Lemma page_at_app m k pid bs : page_at m pid = Some bs → page_at (m ++ k) pid = Some bs.
Proof.
  unfold page_at. destruct (decide (0 ≤ pid)); [|done]. apply lookup_app_l_Some.
Qed.

Lemma page_at_app_inv m m' k pid bs : length m = length m' →
  page_at (m ++ k) pid = Some bs →
  page_at m pid = Some bs ∨ page_at (m' ++ k) pid = Some bs.
Proof.
  unfold page_at. intros Hl. destruct (decide (0 ≤ pid)); [|done].
  destruct (decide (Z.to_nat pid < length m)%nat).
  - rewrite lookup_app_l by done. auto.
  - rewrite !lookup_app_r, Hl by lia. auto.
Qed.

Lemma page_at_mem p pid bs : pool_inv p → page_at (mem p) pid = Some bs →
  zlen bs = p_size p ∧ 28 ≤ zlen bs.
Proof.
  intros Hp. unfold page_at. destruct (decide (0 ≤ pid)); [|done]. intros Hb.
  pose proof (Forall_lookup_1 _ _ _ _ (pi_mem _ Hp) Hb) as Hl. simpl in Hl.
  pose proof (pi_size _ Hp). lia.
Qed.

Lemma read_unchecked p pid bs : page_at (mem p) pid = Some bs →
  read_page_locked p pid false = Ok (mkPage bs).
Proof. unfold read_page_locked. intros ->. by destruct (all_zero bs). Qed.

(** ** Frames *)

Lemma index_frame p pid i : pool_inv p → frame_index p !! pid = Some i →
  ∃ f, frames p !! i = Some f ∧ fr_page f = Some pid.
Proof. intros Hp Hi. by apply (pi_index _ Hp). Qed.

Lemma frame_page p i f pid : pool_inv p → frames p !! i = Some f → fr_page f = Some pid →
  frame_index p !! pid = Some i.
Proof. intros Hp Hf Hpg. apply (pi_index _ Hp). eauto. Qed.

(** Changing a frame without changing its page. *)
Definition framed (g : Frame → Frame) : Prop :=
  ∀ f, fr_page (g f) = fr_page f ∧ (0 ≤ pin_count f → 0 ≤ pin_count (g f)).

Lemma alter_frame_inv g i p : framed g →
  pool_inv p → pool_inv (alter_frame g i p).
Proof.
  intros Hg [H1 H2 H3 H4 H5 H6 H7]. constructor; try done; simpl; [|by rewrite length_alter|].
  2: { apply Forall_alter; [done|]. intros f _. apply Hg. }
  intros pid j. rewrite H1. destruct (decide (i = j)) as [->|Hij].
  - rewrite list_lookup_alter_eq. destruct (frames p !! j) as [f|]; simpl; [|naive_solver].
    split; intros (f'&[= <-]&Hpg).
    + exists (g f). split; [done|]. destruct (Hg f). congruence.
    + exists f. split; [done|]. destruct (Hg f). congruence.
  - by rewrite list_lookup_alter_ne.
Qed.

Lemma alter_frame_ok d R g i p : framed g → (∀ f, dirty f = true → dirty (g f) = true) →
  pool_ok d R p → pool_ok d R (alter_frame g i p).
Proof.
  intros Hg Hd [Hi Hb Hw]. constructor; [by apply alter_frame_inv| |done].
  intros pid bs Hm Hn HR. destruct (Hb pid bs Hm Hn HR) as (j&f&Hj&Hf&Hdf). simpl.
  destruct (decide (i = j)) as [->|Hij].
  - exists j, (g f). rewrite list_lookup_alter_eq, Hf. auto.
  - exists j, f. by rewrite list_lookup_alter_ne.
Qed.

Lemma alter_resident_ok d R g pid p : framed g →
  (∀ f, dirty f = true → dirty (g f) = true) →
  pool_ok d R p → pool_ok d R (alter_resident g pid p).
Proof.
  intros Hg Hd Hp. unfold alter_resident. destruct (frame_index p !! pid); [|done].
  by apply alter_frame_ok.
Qed.

(** The pages last changed without a frame, after a page is changed. *)
Definition touched (pid : PageId) (p : BufferPool) (R : gset Z) : gset Z :=
  match frame_index p !! pid with
  | Some _ => R ∖ {[pid]}
  | None => {[pid]} ∪ R
  end.

(** Bytes written to a page whose frame, if it has one, becomes dirty. *)
Lemma map_write_ok d R g p pid bs p' : pool_ok d R p →
  framed g → (∀ f, dirty (g f) = true) →
  map_write p pid bs = Ok p' → pool_ok d (touched pid p R) (alter_resident g pid p').
Proof.
  intros [Hi Hb Hw] Hg Hd Hmw. unfold map_write in Hmw.
  destruct (decide _) as [[Hr Hlen]|]; [|done]. injection Hmw as <-.
  unfold alter_resident, touched. simpl.
  assert (pool_inv (set_mem p (<[Z.to_nat pid:=bs]> (mem p)) (disk p))) as Hi'.
  { destruct Hi as [H1 H2 H3 H4 H5 H6 H7]. constructor; try done; simpl; [|by rewrite length_insert].
    apply Forall_insert; [exact H4|done]. }
  destruct (frame_index p !! pid) as [i|] eqn:Hpid.
  2: { constructor; [done| |exact Hw]. intros q bs' Hm Hn HR. simpl in *.
       rewrite page_at_insert in Hm by done.
       destruct (decide (q = pid)) as [->|Hq]; [set_solver|]. apply (Hb q bs' Hm Hn). set_solver. }
  constructor; [by apply alter_frame_inv| |exact Hw].
  intros q bs' Hm Hn HR. simpl in *. rewrite page_at_insert in Hm by done.
  destruct (decide (q = pid)) as [->|Hq].
  - destruct (index_frame _ _ _ Hi Hpid) as (f&Hf&Hpg).
    exists i, (g f). rewrite list_lookup_alter_eq, Hf. auto.
  - destruct (Hb q bs' Hm Hn) as (j&f&Hj&Hf&Hdf); [set_solver|].
    exists j, f. split_and!; [done| |done]. rewrite list_lookup_alter_ne; [done|]. intros <-.
    destruct (index_frame _ _ _ Hi Hpid) as (f'&Hf'&Hpg').
    destruct (index_frame _ _ _ Hi Hj) as (f''&Hf''&Hpg''). congruence.
Qed.

(** ** The operations on the invariant *)

Lemma set_flush_ok d R p b b' : pool_ok d R p → pool_ok d R (set_flush p b b').
Proof. intros [[H1 H2 H3 H4 H5 H6 H7] Hb Hw]. by split. Qed.

Lemma set_flush_id p : set_flush p (flush_poisoned p) (flush_fault_armed p) = p.
Proof. by destruct p. Qed.

(** The result of a flush: the page's bytes become durable and its frame clean, or
    an error that at most poisons the pool. *)
Definition flushed (pid : PageId) (bs : list Z) (p : BufferPool) : BufferPool :=
  alter_resident (set_clean false) pid (set_mem p (mem p) (<[Z.to_nat pid := bs]> (disk p))).

Lemma flush_locked_cases io pid durable p r p' : pool_inv p →
  flush_locked io pid durable p = (r, p') →
  (r = Ok tt ∧ flush_poisoned p = false ∧ ∃ bs, page_at (mem p) pid = Some bs ∧
     (durable = INVALID_LSN ∨ p_lsn bs ≤ durable) ∧ p' = flushed pid bs p) ∨
  ((∃ e, r = Err e ∧ e ≠ BufferPoolFull ∧ ∀ q, e ≠ ChecksumMismatch q) ∧
   ∃ b b', p' = set_flush p b b').
Proof.
  intros Hi. unfold flush_locked. destruct (flush_poisoned p) eqn:Hpo.
  { intros [= <- <-]. right. split; [eauto|]. exists (flush_poisoned p), (flush_fault_armed p).
    by rewrite set_flush_id. }
  destruct (page_at (mem p) pid) as [bs|] eqn:Hm.
  2: { unfold read_page_locked. rewrite Hm. intros [= <- <-]. right. split; [eauto|].
       exists (flush_poisoned p), (flush_fault_armed p). by rewrite set_flush_id. }
  destruct (page_at_mem _ _ _ Hi Hm) as [_ Hl].
  rewrite (read_unchecked _ _ _ Hm), lsn_Ok by exact Hl. cbn [data].
  destruct (decide _) as [Hd|Hd].
  { intros [= <- <-]. right. split; [eauto|]. exists (flush_poisoned p), (flush_fault_armed p).
    by rewrite set_flush_id. }
  destruct (flush_fault_armed p). { intros [= <- <-]. right. split; eauto. }
  destruct (pio_msync io pid); intros [= <- <-]; [left|right; split; eauto].
  split_and!; [done..|]. exists bs. split_and!; [done| |done]. unfold p_lsn.
  destruct (decide (durable = INVALID_LSN)); [by left|right]. lia.
Qed.

Lemma flushed_inv pid bs p : pool_inv p → pool_inv (flushed pid bs p).
Proof.
  intros [H1 H2 H3 H4 H5 H6 H7].
  assert (pool_inv (set_mem p (mem p) (<[Z.to_nat pid := bs]> (disk p)))) as Hi.
  { constructor; try done. simpl. by rewrite length_insert. }
  unfold flushed, alter_resident. destruct (frame_index _ !! pid); [|done].
  by apply alter_frame_inv.
Qed.

Lemma flushed_frame pid bs p i f : pool_inv p → frames p !! i = Some f →
  frames (flushed pid bs p) !! i =
    Some (if decide (fr_page f = Some pid) then set_clean false f else f).
Proof.
  intros Hi Hf. unfold flushed, alter_resident. simpl.
  destruct (frame_index p !! pid) as [j|] eqn:Hj; simpl.
  - destruct (index_frame _ _ _ Hi Hj) as (f'&Hf'&Hpg'). destruct (decide (j = i)) as [->|Hne].
    + rewrite list_lookup_alter_eq, Hf. simpl. rewrite decide_True; [done|congruence].
    + rewrite list_lookup_alter_ne by done. rewrite decide_False; [done|].
      intros Hpg. apply Hne. apply (frame_page _ _ _ _ Hi Hf) in Hpg. congruence.
  - rewrite decide_False; [done|]. intros Hpg. apply (frame_page _ _ _ _ Hi Hf) in Hpg. congruence.
Qed.

Lemma pool_ok_more d R R' p : R ⊆ R' → pool_ok d R p → pool_ok d R' p.
Proof.
  intros HR [Hi Hb Hw]. constructor; [done| |done]. intros pid bs Hm Hn Hr.
  apply (Hb pid bs); [done..|set_solver].
Qed.

Lemma flushed_ok d R pid bs p : pool_ok d R p → page_at (mem p) pid = Some bs → p_lsn bs ≤ d →
  pool_ok d (R ∖ {[pid]}) (flushed pid bs p).
Proof.
  intros [Hi Hb [Hw Hd]] Hm Hl. pose proof (page_at_range _ _ _ Hm) as Hr.
  assert (disk (flushed pid bs p) = <[Z.to_nat pid := bs]> (disk p)) as Hdisk.
  { unfold flushed, alter_resident. by destruct (frame_index _ !! pid). }
  assert (mem (flushed pid bs p) = mem p ∧ frame_index (flushed pid bs p) = frame_index p ∧
    durable_wal_lsn (flushed pid bs p) = durable_wal_lsn p) as (Hmem&Hix&Hdu).
  { unfold flushed, alter_resident. by destruct (frame_index _ !! pid). }
  constructor; [by apply flushed_inv| |split; [|by rewrite Hdu]].
  - intros q bs' Hq Hn HR. rewrite Hmem in Hq. rewrite Hdisk, page_at_insert in Hn.
    2: { unfold zlen in *. rewrite (pi_disk _ Hi). lia. }
    destruct (decide (q = pid)) as [->|Hne]; [congruence|].
    destruct (Hb q bs' Hq Hn) as (j&f&Hj&Hf&Hdf); [set_solver|]. rewrite Hix.
    exists j, f. split_and!; [done| |done]. rewrite (flushed_frame _ _ _ _ _ Hi Hf).
    rewrite decide_False; [done|]. destruct (index_frame _ _ _ Hi Hj) as (f'&?&?). congruence.
  - rewrite Hdisk. by apply Forall_insert.
Qed.

Lemma flush_locked_ok d R io pid durable : 0 < durable ≤ d →
  preserves (pool_ok d R) (flush_locked io pid durable).
Proof.
  intros Hd p Hp. destruct (flush_locked io pid durable p) as [r p'] eqn:E.
  destruct (flush_locked_cases _ _ _ _ _ _ (po_inv _ _ _ Hp) E)
    as [(_&_&bs&Hm&Hl&->)|(_&b&b'&->)]; [|by apply set_flush_ok].
  apply (pool_ok_more _ (R ∖ {[pid]})); [set_solver|].
  apply flushed_ok; [done..|]. unfold INVALID_LSN in *. lia.
Qed.

(** A page that was flushed is durable, with or without a frame. *)
Lemma flush_page_ok d R io pid durable p : 0 < durable ≤ d → pool_ok d R p →
  pool_ok d (match (flush_page io pid durable p).1 with Ok _ => R ∖ {[pid]} | _ => R end)
    (flush_page io pid durable p).2.
Proof.
  intros Hd Hp. unfold flush_page. destruct (flush_locked io pid durable p) as [r p'] eqn:E.
  destruct (flush_locked_cases _ _ _ _ _ _ (po_inv _ _ _ Hp) E)
    as [(->&_&bs&Hm&Hl&->)|((e&->&_)&b&b'&->)]; [|by apply set_flush_ok].
  apply flushed_ok; [done..|]. unfold INVALID_LSN in *. lia.
Qed.

Lemma kernel_writeback_ok d R pid p : pool_ok d R p →
  (∀ bs, page_at (mem p) pid = Some bs → p_lsn bs ≤ d) →
  pool_ok d (R ∖ {[pid]}) (kernel_writeback pid p).
Proof.
  intros [Hi Hb [Hw Hd]] Hl. unfold kernel_writeback.
  destruct (page_at (mem p) pid) as [bs|] eqn:Hm.
  2: { constructor; [done| |done]. intros q bs Hq Hn HR. apply (Hb q bs); [done..|].
       destruct (decide (q = pid)) as [->|]; [congruence|set_solver]. }
  pose proof (page_at_range _ _ _ Hm) as Hr. constructor.
  - destruct Hi as [H1 H2 H3 H4 H5 H6 H7]. constructor; try done. simpl. by rewrite length_insert.
  - intros q bs' Hq Hn HR. simpl in *. rewrite page_at_insert in Hn.
    2: { unfold zlen in *. rewrite (pi_disk _ Hi). lia. }
    destruct (decide (q = pid)) as [->|]; [congruence|]. apply (Hb q bs'); [done..|set_solver].
  - split; [|done]. simpl. apply Forall_insert; [done|by apply Hl].
Qed.

Lemma flush_all_ok d R io durable : 0 < durable ≤ d → preserves (pool_ok d R) (flush_all io durable).
Proof.
  intros Hd p. unfold flush_all. destruct (flush_poisoned p); [done|].
  apply (keeps_each (λ p p', pool_ok d R p → pool_ok d R p')); [apply _|].
  intros pid. by apply flush_locked_ok.
Qed.

Lemma p_lsn_zeros n : p_lsn (replicate n 0) = 0.
Proof.
  unfold p_lsn, rd, sub. rewrite drop_replicate, take_replicate.
  induction (Nat.min _ _) as [|k IH]; simpl; lia.
Qed.

Lemma ensure_mapped_ok d R io n : preserves (pool_ok d R) (ensure_mapped io n).
Proof.
  intros p [Hi Hb [Hw Hd]]. unfold ensure_mapped. destruct (decide _); [done|].
  destruct (pio_grow io); [|done]. simpl. set (zs := replicate (Z.to_nat _) _).
  assert (Forall (λ bs, p_lsn bs ≤ d) zs) as Hz.
  { apply Forall_replicate. rewrite p_lsn_zeros. lia. }
  destruct Hi as [H1 H2 H3 H4 H5 H6 H7]. constructor.
  - constructor; try done; simpl; [|rewrite !length_app; lia]. apply Forall_app_2; [done|].
    apply Forall_replicate. rewrite zlen_replicate. lia.
  - intros pid bs Hm Hn HR. simpl in *.
    destruct (page_at_app_inv _ (disk p) _ _ _ (eq_sym H5) Hm) as [Hm'|]; [|done].
    apply (Hb pid bs Hm'); [|done]. intros Hd'. apply Hn. by apply page_at_app.
  - split; [|done]. simpl. apply Forall_app_2; done.
Qed.

(** ** The clock sweep *)

(** What a sweep leaves as it is: the map, the index, and each frame's page and
    pins. *)
Definition page_pins (f : Frame) : option PageId * Z * Lsn := (fr_page f, pin_count f, fr_lsn f).
Record settled (p p' : BufferPool) : Prop := {
  st_mem : mem p' = mem p;
  st_index : frame_index p' = frame_index p;
  st_durable : durable_wal_lsn p' = durable_wal_lsn p;
  st_capacity : capacity p' = capacity p;
  st_frames : page_pins <$> frames p' = page_pins <$> frames p;
}.

#[global] Instance settled_preorder : PreOrder settled.
Proof.
  split; [by intros p|]. intros p q r [H1 H2 H3 H4 H5] [K1 K2 K3 K4 K5]. constructor; congruence.
Qed.

Lemma settled_length p p' : settled p p' → length (frames p') = length (frames p).
Proof. intros [_ _ _ _ Hfr]. apply (f_equal length) in Hfr. by rewrite !length_fmap in Hfr. Qed.

Lemma settled_frame p p' i f : settled p p' → frames p !! i = Some f →
  ∃ f', frames p' !! i = Some f' ∧ fr_page f' = fr_page f ∧ pin_count f' = pin_count f ∧
    fr_lsn f' = fr_lsn f.
Proof.
  intros [_ _ _ _ Hfr] Hf. apply (f_equal (.!! i)) in Hfr.
  rewrite !list_lookup_fmap, Hf in Hfr. destruct (frames p' !! i) as [f'|]; [|done].
  injection Hfr as ???. eauto.
Qed.

Lemma settled_alter g i p : (∀ f, page_pins (g f) = page_pins f) → settled p (alter_frame g i p).
Proof.
  intros Hg. constructor; [done..|]. simpl. apply list_eq. intros j. rewrite !list_lookup_fmap.
  destruct (decide (i = j)) as [->|Hne].
  - rewrite list_lookup_alter_eq. destruct (frames p !! j); simpl; [by rewrite Hg|done].
  - by rewrite list_lookup_alter_ne.
Qed.

Lemma settled_flush io pid durable p : pool_inv p → settled p (flush_locked io pid durable p).2.
Proof.
  intros Hi. destruct (flush_locked io pid durable p) as [r p'] eqn:E.
  destruct (flush_locked_cases _ _ _ _ _ _ Hi E) as [(_&_&bs&Hm&Hl&->)|(_&b&b'&->)].
  - unfold flushed, alter_resident. simpl.
    destruct (frame_index p !! pid) as [i|].
    + destruct (settled_alter (set_clean false) i p) as [? ? ? ? Hf]; [done|]. by constructor.
    + done.
  - done.
Qed.

(** A frame whose page may leave it. *)
Definition stealable (p : BufferPool) (f : Frame) : Prop :=
  pin_count f ≤ 0 ∧ (dirty f = false ∨ fr_page f = None ∨
    (durable_wal_lsn p ≠ INVALID_LSN ∧ fr_lsn f ≤ durable_wal_lsn p)).

#[global] Instance stealable_dec p f : Decision (stealable p f).
Proof. unfold stealable. apply _. Qed.

(** The frame a sweep returns is unpinned and holds nothing that is not durable. *)
Definition vacated (p : BufferPool) (idx : nat) : Prop :=
  ∃ f, frames p !! idx = Some f ∧ pin_count f ≤ 0 ∧ (dirty f = false ∨ fr_page f = None).

Definition victim_result (p : BufferPool) (r : Result nat) : Prop :=
  match r with
  | Ok idx => vacated p idx
  | Err e => ∀ q, e ≠ ChecksumMismatch q
  | Panic => False
  end.

(** One turn of the sweep: the hand moves on. *)
Definition tick (p : BufferPool) : BufferPool :=
  set_frames p (frames p) (frame_index p)
    ((clock_hand p mod length (frames p) + 1) mod length (frames p))%nat.

Lemma tick_ok d R p : pool_ok d R p → pool_ok d R (tick p).
Proof. intros [[H1 H2 H3 H4 H5 H6 H7] Hb Hw]. by split. Qed.
Lemma settled_tick p : settled p (tick p).
Proof. done. Qed.

Lemma sweep_spec d R io fuel p r p' : pool_ok d R p → (frames p = [] → fuel = O) →
  clock_sweep io fuel p = (r, p') →
  pool_ok d R p' ∧ settled p p' ∧
  victim_result p' r.
Proof.
  revert p. induction fuel as [|fuel IH]; intros p Hp Hne; simpl.
  { intros [= <- <-]. split_and!; [done|reflexivity|done]. }
  fold (tick p). pose proof (tick_ok _ _ _ Hp) as Hp1. pose proof (settled_tick p) as Hs1.

  assert (length (frames p) ≠ O) as Hlen by (destruct (frames p); [by specialize (Hne eq_refl)|done]).
  set (idx := (clock_hand p mod length (frames p))%nat).
  assert (idx < length (frames p))%nat as Hidx by (by apply Nat.mod_upper_bound).
  destruct (frames p !! idx) as [f|] eqn:Hf.
  2: { apply lookup_ge_None in Hf. lia. }
  assert (∀ q, pool_ok d R q → settled p q → clock_sweep io fuel q = (r, p') →
    pool_ok d R p' ∧ settled p p' ∧
    victim_result p' r) as Hrec.
  { intros q Hq Hsq E. apply IH in E; [|done|]. 
    - destruct E as (?&?&?). split_and!; [done|by etrans|done].
    - intros Hq0. exfalso. apply Hlen. by rewrite <- (settled_length _ _ Hsq), Hq0. }
  destruct (decide (0 < pin_count f)) as [|Hpin]; [by apply Hrec|].
  destruct (clock_ref f).
  { apply Hrec; [by apply alter_frame_ok|]. etrans; [exact Hs1|by apply settled_alter]. }
  assert (∀ q, q = tick p → (dirty f = false ∨ fr_page f = None) → (Ok idx, q) = (r, p') →
    pool_ok d R p' ∧ settled p p' ∧
    victim_result p' r) as Hret.
  { intros q -> Hd [= <- <-]. split_and!; [done..|]. exists f. split_and!; [done|lia|done]. }
  destruct (dirty f) eqn:Hd; [|by apply Hret; auto].
  destruct (fr_page f) as [pid|] eqn:Hpg; [|by apply Hret; auto].
  destruct (decide _) as [|Hst]; [by apply Hrec|].
  unfold op_bind. pose proof (settled_flush io pid (durable_wal_lsn (tick p)) _ (po_inv _ _ _ Hp1)) as Hs2.
  assert (pool_ok d R (flush_locked io pid (durable_wal_lsn (tick p)) (tick p)).2) as Hp2.
  { apply flush_locked_ok; [|done]. destruct Hp1 as [_ _ [_ Hw]]. unfold INVALID_LSN in Hst.
    change (durable_wal_lsn (tick p)) with (durable_wal_lsn p) in *. lia. }
  destruct (flush_locked io pid _ (tick p)) as [r2 p2] eqn:E. simpl in Hp2, Hs2.
  destruct (flush_locked_cases _ _ _ _ _ _ (po_inv _ _ _ Hp1) E)
    as [(->&_&bs&Hm&Hl&->)|((e&->&_&?)&b&b'&->)]; intros [= <- <-].
  - split_and!; [done|by etrans|]. eexists.
    split; [apply (flushed_frame _ _ _ _ f); [apply Hp1|done]|].
    rewrite decide_True by done. simpl. auto with lia.
  - split_and!; [done|by etrans|done].
Qed.

(** The number of turns until the hand [h] points at [j]. *)
Definition turns (n h j : nat) : nat := if decide (h ≤ j)%nat then j - h else j + n - h.

Lemma turns_next n h j : (h < n)%nat → (j < n)%nat →
  turns n ((h + 1) mod n) j = (if decide (h = j) then n - 1 else turns n h j - 1)%nat.
Proof.
  intros Hh Hj. unfold turns. destruct (decide (h + 1 = n)%nat) as [E|E].
  - rewrite E, Nat.Div0.mod_same. repeat case_decide; lia.
  - rewrite Nat.mod_small by lia. repeat case_decide; lia.
Qed.

Definition hand (p : BufferPool) : nat := (clock_hand p mod length (frames p))%nat.

Lemma sweep_step io fuel p f : frames p !! hand p = Some f →
  clock_sweep io (S fuel) p =
    (if decide (0 < pin_count f) then clock_sweep io fuel (tick p)
     else if clock_ref f then clock_sweep io fuel (alter_frame set_unreferenced (hand p) (tick p))
     else if decide (stealable p f) then
       (if dirty f then
          match fr_page f with
          | None => (Ok (hand p), tick p)
          | Some pid => (flush_locked io pid (durable_wal_lsn p);; op_ret (hand p)) (tick p)
          end
        else (Ok (hand p), tick p))
     else clock_sweep io fuel (tick p)).
Proof.
  intros Hf. cbn [clock_sweep]. cbv zeta. fold (tick p). fold (hand p).
  change (frames (tick p)) with (frames p). rewrite Hf.
  destruct (decide (0 < pin_count f)); [done|]. destruct (clock_ref f); [done|].
  change (durable_wal_lsn (tick p)) with (durable_wal_lsn p).
  destruct (decide (stealable p f)) as [Hs|Hs]; unfold stealable in Hs;
    destruct (dirty f), (fr_page f) as [pid|]; try case_decide; try done; naive_solver lia.
Qed.

Lemma tick_hand p : frames p ≠ [] → hand (tick p) = ((hand p + 1) mod length (frames p))%nat.
Proof. intros Hne. unfold hand. simpl. by rewrite Nat.Div0.mod_mod. Qed.

Lemma length_alter_frame g i p : length (frames (alter_frame g i p)) = length (frames p).
Proof. apply length_alter. Qed.

Lemma hand_alter g i p : hand (alter_frame g i p) = hand p.
Proof. unfold hand. by rewrite length_alter_frame. Qed.

Lemma stealable_settled p p' f : durable_wal_lsn p' = durable_wal_lsn p →
  stealable p f → stealable p' f.
Proof. unfold stealable. by intros ->. Qed.

Lemma flush_not_full io pid durable p (k : nat) : pool_inv p →
  ((flush_locked io pid durable;; op_ret k) p).1 ≠ Err BufferPoolFull.
Proof.
  intros Hi. unfold op_bind. destruct (flush_locked io pid durable p) as [r p'] eqn:E.
  destruct (flush_locked_cases _ _ _ _ _ _ Hi E) as [(->&_)|((e&->&?&_)&_)]; simpl; congruence.
Qed.

(** Two rounds are enough: if some frame is stealable the sweep ends at a frame. *)
Lemma sweep_finds io fuel p j f : pool_inv p → frames p !! j = Some f → stealable p f →
  (turns (length (frames p)) (hand p) j +
     (if clock_ref f then length (frames p) else 0) < fuel)%nat →
  (clock_sweep io fuel p).1 ≠ Err BufferPoolFull.
Proof.
  revert p f. induction fuel as [|fuel IH]; intros p f Hi Hf Hs Hfuel; [lia|].
  pose proof (lookup_lt_Some _ _ _ Hf) as Hj.
  assert (frames p ≠ []) as Hne by (intros Hn; rewrite Hn in Hf; done).
  assert (hand p < length (frames p))%nat as Hh by (apply Nat.mod_upper_bound; lia).
  assert (pool_inv (tick p)) as Hi1 by (destruct Hi; by constructor).
  destruct (lookup_lt_is_Some_2 (frames p) (hand p) Hh) as [g Hg].
  rewrite (sweep_step _ _ _ _ Hg).
  assert (∀ q, frames q !! j = Some f → length (frames q) = length (frames p) → hand q = hand (tick p) →
    durable_wal_lsn q = durable_wal_lsn p → pool_inv q → hand p ≠ j →
    (clock_sweep io fuel q).1 ≠ Err BufferPoolFull) as Hrec.
  { intros q Hqf Hqn Hqh Hqd Hqi Hnj. apply (IH _ f); [done..|by eapply stealable_settled|].
    rewrite Hqn, Hqh, tick_hand, turns_next by done. rewrite decide_False by done.
    unfold turns in *. repeat case_decide; lia. }
  destruct (decide (0 < pin_count g)) as [Hpin|Hpin].
  { apply Hrec; try done. intros <-. destruct Hs. replace g with f in Hpin by congruence. lia. }
  destruct (clock_ref g) eqn:Hcr.
  { destruct (decide (hand p = j)) as [<-|Hnj].
    - assert (g = f) as -> by congruence. apply (IH _ (set_unreferenced f)).
      + by apply alter_frame_inv.
      + simpl. by rewrite list_lookup_alter_eq, Hf.
      + exact Hs.
      + rewrite length_alter_frame, hand_alter, tick_hand, turns_next, decide_True by done.
        cbn [clock_ref set_unreferenced]. rewrite Hcr in Hfuel. lia.
    - apply Hrec; try done; [simpl; by rewrite list_lookup_alter_ne|apply (length_alter_frame _ _ (tick p))|
        apply hand_alter|by apply alter_frame_inv]. }
  destruct (decide (stealable p g)) as [|Hns].
  { destruct (dirty g); [destruct (fr_page g)|]; [by apply flush_not_full|done..]. }
  apply Hrec; try done. intros <-. replace g with f in Hns by congruence. done.
Qed.

(** Without a stealable frame it gives up. *)
Lemma sweep_full io fuel p : frames p ≠ [] →
  (∀ i f, frames p !! i = Some f → ¬ stealable p f) →
  (clock_sweep io fuel p).1 = Err BufferPoolFull.
Proof.
  revert p. induction fuel as [|fuel IH]; intros p Hne Hns; [done|].
  assert (hand p < length (frames p))%nat as Hh.
  { apply Nat.mod_upper_bound. by destruct (frames p). }
  destruct (lookup_lt_is_Some_2 (frames p) (hand p) Hh) as [g Hg].
  rewrite (sweep_step _ _ _ _ Hg).
  assert ((clock_sweep io fuel (tick p)).1 = Err BufferPoolFull) by (by apply IH).
  destruct (decide (0 < pin_count g)); [done|]. destruct (clock_ref g).
  - apply IH; simpl.
    + intros Hn. apply (f_equal length) in Hn. rewrite length_alter in Hn.
      destruct (frames p); done.
    + intros i f. destruct (decide (hand p = i)) as [<-|Hi].
      * rewrite list_lookup_alter_eq, Hg. intros [= <-] Hs. exact (Hns _ _ Hg Hs).
      * rewrite list_lookup_alter_ne by done. intros Hf Hs. exact (Hns _ _ Hf Hs).
  - rewrite decide_False by (by eapply Hns). done.
Qed.

(** ** Fetching *)

(** What finding a victim leaves as it is. *)
Record kept (p p' : BufferPool) : Prop := {
  kp_mem : mem p' = mem p;
  kp_index : frame_index p' = frame_index p;
  kp_frames : ∀ i f, frames p !! i = Some f →
    ∃ f', frames p' !! i = Some f' ∧ fr_page f' = fr_page f ∧ pin_count f' = pin_count f;
}.

Lemma find_victim_spec d R io p r p' : pool_ok d R p → find_victim io p = (r, p') →
  pool_ok d R p' ∧ kept p p' ∧
  victim_result p' r.
Proof.
  intros Hp. unfold find_victim. destruct (decide _) as [Hlt|Hge].
  - intros [= <- <-]. destruct Hp as [[H1 H2 H3 H4 H5 H6 H7] Hb Hw]. split_and!; [constructor| |].
    + constructor; try done; simpl; [|rewrite length_app; simpl; lia|by apply Forall_app_2, Forall_singleton].
      intros pid i.
      rewrite H1. split; intros (f&Hf&Hpg).
      * exists f. split; [by apply lookup_app_l_Some|done].
      * apply lookup_snoc_Some in Hf as [[_ Hf]|[_ <-]]; [eauto|done].
    + intros pid bs Hm Hn HR. destruct (Hb pid bs Hm Hn HR) as (j&f&Hj&Hf&Hd).
      exists j, f. split_and!; [done|by apply lookup_app_l_Some|done].
    + done.
    + constructor; [done..|]. intros i f Hf. exists f. split_and!; [by apply lookup_app_l_Some|done..].
    + exists empty_frame. simpl. rewrite lookup_app_r, Nat.sub_diag by lia. by split_and!; [| |left].
  - intros E. destruct (sweep_spec d R io (length (frames p) * 2) p r p' Hp) as (Hp'&Hs&Hr); [|exact E|].
    { intros Hn. by rewrite Hn. }
    split_and!; [done| |done]. constructor; [apply Hs..|]. intros i f Hf.
    destruct (settled_frame _ _ _ _ Hs Hf) as (f'&?&?&?&_). eauto.
Qed.

Lemma find_victim_full d R io p : pool_ok d R p →
  (find_victim io p).1 = Err BufferPoolFull ↔
  (capacity p ≤ length (frames p))%nat ∧ ∀ i f, frames p !! i = Some f → ¬ stealable p f.
Proof.
  intros Hp. unfold find_victim. destruct (decide _) as [Hlt|Hge]; [split; [done|lia]|].
  destruct (decide (frames p = [])) as [Hn|Hne].
  { rewrite Hn. simpl. split; [|done]. intros _. split; [rewrite Hn in Hge; simpl in *; lia|done]. }
  split.
  - intros Hfull. split; [lia|]. intros i f Hf Hs.
    pose proof (lookup_lt_Some _ _ _ Hf). revert Hfull.
    apply (sweep_finds _ _ _ i f); [apply Hp|done..|].
    assert (hand p < length (frames p))%nat by (apply Nat.mod_upper_bound; lia).
    unfold turns. case_decide; destruct (clock_ref f); lia.
  - intros [_ Hns]. by apply sweep_full.
Qed.

Lemma load_frame_ok d R idx pid p : pool_ok d R p → vacated p idx → frame_index p !! pid = None →
  pool_ok d R (load_frame idx pid p).
Proof.
  intros [Hi Hb Hw] (f&Hf&Hpin&Hclean) Hno. pose proof Hi as [H1 H2 H3 H4 H5 H6 H7].
  assert (∀ q j, frame_index (load_frame idx pid p) !! q = Some j ↔
    (q = pid ∧ j = idx) ∨ (q ≠ pid ∧ j ≠ idx ∧ frame_index p !! q = Some j)) as Hix.
  { intros q j. unfold load_frame. simpl. rewrite Hf.
    destruct (decide (q = pid)) as [->|Hq]; [rewrite lookup_insert_eq; naive_solver|].
    rewrite lookup_insert_ne by done. destruct (fr_page f) as [old|] eqn:Hpg.
    - pose proof (frame_page _ _ _ _ Hi Hf Hpg) as Hold.
      destruct (decide (old = q)) as [->|Hoq].
      + rewrite lookup_delete_eq. naive_solver.
      + rewrite lookup_delete_ne by done. split; [|naive_solver]. intros Hj. right.
        split_and!; [done| |done]. intros ->. apply Hoq.
        destruct (index_frame _ _ _ Hi Hj) as (f'&?&?). congruence.
    - split; [|naive_solver]. intros Hj. right. split_and!; [done| |done]. intros ->.
      destruct (index_frame _ _ _ Hi Hj) as (f'&?&?). congruence. }
  assert (∀ j, frames (load_frame idx pid p) !! j =
    if decide (j = idx) then Some (set_loaded pid f) else frames p !! j) as Hfr.
  { intros j. unfold load_frame. simpl. destruct (decide (j = idx)) as [->|Hj].
    - by rewrite list_lookup_alter_eq, Hf.
    - by rewrite list_lookup_alter_ne. }
  constructor; [constructor| |].
  - intros q j. rewrite Hix, Hfr. destruct (decide (j = idx)) as [->|Hj].
    + split; [intros [[-> _]|(_&?&_)]; [eauto|done]|]. intros (f'&[= <-]&[= ->]). by left.
    + rewrite <- H1. split; [naive_solver|]. intros Hq. right. split_and!; [congruence|done..].
  - unfold load_frame. simpl. by rewrite length_alter.
  - done.
  - done.
  - done.
  - done.
  - unfold load_frame. simpl. by apply Forall_alter.
  - intros q bs Hm Hn HR. destruct (Hb q bs Hm Hn HR) as (j&g&Hj&Hg&Hd).
    destruct (index_frame _ _ _ Hi Hj) as (g'&Hg'&Hpg'). assert (g' = g) as -> by congruence.
    assert (j ≠ idx) as Hji by (intros ->; destruct Hclean; congruence).
    exists j, g. rewrite Hix, Hfr, decide_False by done. split_and!; [right|done..].
    split_and!; [congruence|done..].
  - exact Hw.
Qed.

Lemma load_frame_pins idx pid p i f q : vacated p idx →
  frames p !! i = Some f → fr_page f = Some q → 0 < pin_count f →
  frames (load_frame idx pid p) !! i = Some f.
Proof.
  intros (g&Hg&Hpin&_) Hf Hq Hp. unfold load_frame. simpl. rewrite list_lookup_alter_ne; [done|].
  intros ->. replace g with f in Hpin by congruence. lia.
Qed.

(** A pinned page stays in its frame with at least its pins. *)
Definition pins_kept (p p' : BufferPool) : Prop := ∀ i f pid,
  frames p !! i = Some f → fr_page f = Some pid → 0 < pin_count f →
  ∃ f', frames p' !! i = Some f' ∧ fr_page f' = Some pid ∧ pin_count f ≤ pin_count f'.

Lemma pins_kept_alter g i p :
  (∀ f, fr_page (g f) = fr_page f ∧ pin_count f ≤ pin_count (g f)) → pins_kept p (alter_frame g i p).
Proof.
  intros Hg j f pid Hf Hpg Hpin. simpl. destruct (decide (i = j)) as [->|Hne].
  - rewrite list_lookup_alter_eq, Hf. destruct (Hg f) as [E1 E2]. exists (g f). split_and!; [done|congruence|done].
  - rewrite list_lookup_alter_ne by done. exists f. by split_and!.
Qed.

Lemma pins_kept_victim idx pid p p1 : kept p p1 → vacated p1 idx →
  pins_kept p (load_frame idx pid p1).
Proof.
  intros Hk Hv i f q Hf Hq Hp. destruct (kp_frames _ _ Hk _ _ Hf) as (f'&Hf'&E1&E2).
  exists f'. split_and!; [|congruence|lia].
  apply (load_frame_pins _ _ _ _ _ q); [done..|congruence|lia].
Qed.

Lemma read_page_data p pid b page : read_page_locked p pid b = Ok page →
  page_at (mem p) pid = Some (data page).
Proof.
  unfold read_page_locked. destruct (page_at (mem p) pid) as [bs|]; [|done].
  destruct (all_zero bs); [by intros [= <-]|]. destruct b; [|by intros [= <-]].
  unfold from_bytes. destruct (verify_crc _); [by intros [= <-]|done..].
Qed.

Lemma read_page_not_full p pid b : read_page_locked p pid b ≠ Err BufferPoolFull.
Proof.
  unfold read_page_locked. destruct (page_at (mem p) pid) as [bs|]; [|done].
  destruct (all_zero bs); [done|]. destruct b; [|done].
  unfold from_bytes, verify_crc, Page.page_id, read_u32, compute_crc, slice.
  repeat (case_decide; simpl; try done).
Qed.

(** The page is resident and pinned. *)
Definition pinned_in (p : BufferPool) (pid : PageId) : Prop :=
  ∃ i f, frame_index p !! pid = Some i ∧ frames p !! i = Some f ∧ 0 < pin_count f.

Lemma fetch_page_spec d R io pid p r p' : pool_ok d R p → fetch_page io pid p = (r, p') →
  pool_ok d R p' ∧ mem p' = mem p ∧ pins_kept p p' ∧
  (r = Err BufferPoolFull ↔ frame_index p !! pid = None ∧
    (capacity p ≤ length (frames p))%nat ∧ ∀ i f, frames p !! i = Some f → ¬ stealable p f) ∧
  (∀ page, r = Ok page → page_at (mem p) pid = Some (data page) ∧ pinned_in p' pid).
Proof.
  intros Hp. unfold fetch_page. destruct (frame_index p !! pid) as [i|] eqn:Hix.
  - intros [= <- <-].
    assert (framed set_pinned) by (intros f; simpl; split; [done|lia]).
    split_and!; [by apply alter_frame_ok|done|apply pins_kept_alter; intros; simpl; split; [done|lia]| |].
    + split; [intros Hr; by apply read_page_not_full in Hr|by intros [? _]].
    + intros page Hr%read_page_data. split; [done|].
      destruct (index_frame _ _ _ (po_inv _ _ _ Hp) Hix) as (f&Hf&_).
      pose proof (Forall_lookup_1 _ _ _ _ (pi_pins _ (po_inv _ _ _ Hp)) Hf).
      exists i, (set_pinned f). simpl. rewrite list_lookup_alter_eq, Hf. split_and!; [done..|]. simpl in *. lia.
  - unfold op_bind at 1. pose proof (find_victim_full d R io p Hp) as Hfull.
    destruct (find_victim io p) as [r1 p1] eqn:E.
    destruct (find_victim_spec d R io p r1 p1 Hp E) as (Hp1&Hk&Hr1). simpl in Hfull.
    destruct r1 as [idx|e|]; [|intros [= <- <-]|done].
    + intros [= <- <-].
      assert (frame_index p1 !! pid = None) by (by rewrite (kp_index _ _ Hk)).
      split_and!; [by apply load_frame_ok|apply Hk|by apply pins_kept_victim| |].
      * split; [intros Hr; by apply read_page_not_full in Hr|].
        intros (_&Hc). by apply Hfull in Hc.
      * intros page Hr%read_page_data. split; [by rewrite <- (kp_mem _ _ Hk)|].
        destruct Hr1 as (f&Hf&_). exists idx, (set_loaded pid f). unfold load_frame. simpl.
        rewrite lookup_insert_eq, list_lookup_alter_eq, Hf. by split_and!.
    + split_and!; [done|apply Hk| | |done].
      * intros i f q Hf Hq Hpin. destruct (kp_frames _ _ Hk _ _ Hf) as (f'&?&?&?).
        exists f'. split_and!; [done|congruence|lia].
      * rewrite <- Hfull. naive_solver.
Qed.

(** ** The system *)

Inductive pool_event :=
| PFetch (io : PoolCalls) (pid : PageId)
| PWrite (page : SlottedPage)
| PUnpin (pid : PageId)
| PFlush (io : PoolCalls) (pid : PageId) (durable : Lsn)
| PFlushAll (io : PoolCalls) (durable : Lsn)
| PAlloc (io : PoolCalls)
| PEnsure (io : PoolCalls) (pid : PageId)
| PDurable (l : Lsn)
| PMarkFpi (pid : PageId)
| PClearFpi
| PRestore (io : PoolCalls) (pid : PageId) (image : list Z)
| PKernel (pid : PageId).

Definition pool_exec (e : pool_event) (p : BufferPool) : BufferPool :=
  match e with
  | PFetch io pid => (fetch_page io pid p).2
  | PWrite page => (write_page page p).2
  | PUnpin pid => (unpin pid p).2
  | PFlush io pid durable => (flush_page io pid durable p).2
  | PFlushAll io durable => (flush_all io durable p).2
  | PAlloc io => (alloc_page io p).2
  | PEnsure io pid => (ensure_page_allocated io pid p).2
  | PDurable l => set_durable_wal_lsn l p
  | PMarkFpi pid => mark_fpi_logged pid p
  | PClearFpi => clear_fpi_tracking p
  | PRestore io pid image => (restore_page_image io pid image p).2
  | PKernel pid => kernel_writeback pid p
  end.

(** The pages last changed while they had no frame, and neither flushed by name nor
    written back by the kernel since. *)
Definition unframed (e : pool_event) (p : BufferPool) (R : gset Z) : gset Z :=
  match e with
  | PWrite page => match page_id page, (write_page page p).1 with
                   | Ok pid, Ok _ => touched pid p R
                   | _, _ => R
                   end
  | PRestore io pid image => match (restore_page_image io pid image p).1 with
                             | Ok _ => touched pid p R
                             | _ => R
                             end
  | PFlush io pid durable => match (flush_page io pid durable p).1 with
                             | Ok _ => R ∖ {[pid]}
                             | _ => R
                             end
  | PKernel pid => R ∖ {[pid]}
  | _ => R
  end.

(** What is assumed of the environment at the log's durable frontier [d]: callers
    that flush pass a real frontier, not the [INVALID_LSN] that switches the check
    off, and the kernel writes back no page that the log does not cover. *)
Definition allowed (d : Lsn) (p : BufferPool) (e : pool_event) : Prop :=
  match e with
  | PFlush _ _ l | PFlushAll _ l => 0 < l ≤ d
  | PDurable l => l ≤ d
  | PKernel pid => ∀ bs, page_at (mem p) pid = Some bs → p_lsn bs ≤ d
  | _ => True
  end.

(** The frontier of the log, the pages changed without a frame, and the pool. *)
Inductive pool_step : relation (Lsn * gset Z * BufferPool) :=
| pool_frontier d d' R p : d ≤ d' → pool_step (d, R, p) (d', R, p)
| pool_op d R p e : allowed d p e → pool_step (d, R, p) (d, unframed e p R, pool_exec e p).

(** Opening a file whose pages are at or behind the log's frontier. *)
Inductive pool_start : Lsn * gset Z * BufferPool → Prop :=
| pool_opened d file psize cap :
    28 ≤ psize → 0 ≤ d → Forall (λ bs, zlen bs = psize ∧ p_lsn bs ≤ d) file →
    pool_start (d, ∅, open file psize cap).

Definition pool_reachable (d : Lsn) (R : gset Z) (p : BufferPool) : Prop :=
  ∃ s, pool_start s ∧ rtc pool_step s (d, R, p).


Lemma open_ok d R file psize cap : 28 ≤ psize → 0 ≤ d →
  Forall (λ bs, zlen bs = psize ∧ p_lsn bs ≤ d) file → pool_ok d R (open file psize cap).
Proof.
  intros Hs Hd Hf. unfold open. set (pages := if decide (file = []) then _ else file).
  assert (Forall (λ bs, zlen bs = psize ∧ p_lsn bs ≤ d) pages) as Hp.
  { unfold pages. destruct (decide (file = [])); [|done]. apply Forall_singleton.
    rewrite p_lsn_zeros, zlen_replicate. lia. }
  constructor; [constructor|..]; try done;
    cbn [frames frame_index capacity mem disk grow_chunk_pages p_size].
  - intros pid i. rewrite lookup_empty. split; [done|]. intros (f&Hf'&Hpg).
    apply lookup_replicate in Hf' as [-> _]. done.
  - rewrite length_replicate. lia.
  - eapply Forall_impl; [exact Hp|]. by intros bs [].
  - lia.
  - by apply Forall_replicate.
  - intros pid bs Hm Hn _. by destruct Hn.
  - split; [|cbn; unfold INVALID_LSN; lia]. eapply Forall_impl; [exact Hp|]. by intros bs [].
Qed.

Lemma bump_ok d R pid p : pool_ok d R p → pool_ok d R (bump_page_count pid p).
Proof.
  unfold bump_page_count. destruct (decide _); [|done].
  intros [[H1 H2 H3 H4 H5 H6 H7] Hb Hw]. by split.
Qed.

Lemma ensure_mapped_index io n p : frame_index (ensure_mapped io n p).2 = frame_index p.
Proof.
  unfold ensure_mapped. destruct (decide _); [done|]. by destruct (pio_grow io).
Qed.

Lemma set_durable_ok d R l p : l ≤ d → pool_ok d R p → pool_ok d R (set_durable_wal_lsn l p).
Proof.
  intros Hl [[H1 H2 H3 H4 H5 H6 H7] Hb [Hw Hd]]. unfold set_durable_wal_lsn. case_decide; [|by split].
  split; [done..|]. split; [done|]. simpl. lia.
Qed.

Lemma restore_page_ok d R io pid image p : pool_ok d R p →
  pool_ok d (unframed (PRestore io pid image) p R) (restore_page_image io pid image p).2.
Proof.
  intros Hp. unfold unframed, restore_page_image, op_bind, modify. destruct (decide _); [done|].
  pose proof (ensure_mapped_ok d R io (pid + 1) p Hp) as Hm.
  pose proof (ensure_mapped_index io (pid + 1) p) as Hx.
  destruct (ensure_mapped _ _ _) as [[] p1]; [|done..]. simpl in Hm, Hx.
  pose proof (bump_ok d R pid p1 Hm) as Hb.
  destruct (map_write _ _ _) as [p2|e|] eqn:E; [|done..]. cbn [fst snd].
  assert (touched pid p R = touched pid (bump_page_count pid p1) R) as ->.
  { unfold touched, bump_page_count. by case_decide; simpl; rewrite Hx. }
  eapply map_write_ok; [exact Hb|intros f; by split|done|exact E].
Qed.

Lemma write_page_ok d R page p : pool_ok d R p →
  pool_ok d (unframed (PWrite page) p R) (write_page page p).2.
Proof.
  intros Hp. unfold unframed, write_page. destruct (page_id page) as [pid|e|]; [|done..].
  destruct (lsn page) as [l|e|]; [|done..].
  destruct (map_write p pid (data page)) as [p'|e|] eqn:E; [|done..].
  eapply map_write_ok; [exact Hp|intros f; by split|done|exact E].
Qed.

Lemma exec_ok d R e p : allowed d p e → pool_ok d R p → pool_ok d (unframed e p R) (pool_exec e p).
Proof.
  intros Ha Hp. destruct e as [io pid|page|pid|io pid l|io l|io|io pid|l|pid| |io pid image|pid];
    cbn [pool_exec unframed allowed] in *.
  - destruct (fetch_page io pid p) as [r p'] eqn:E. by apply (fetch_page_spec d R) in E as [? _].
  - by apply write_page_ok.
  - apply alter_resident_ok; [|done..]. intros f. split; [done|]. simpl. case_decide; lia.
  - by apply flush_page_ok.
  - by apply flush_all_ok.
  - unfold alloc_page, op_bind, gets, modify.
    pose proof (ensure_mapped_ok d R io (file_page_count p + 1)
      (set_page_count p (file_page_count p + 1))) as Hm.
    destruct (ensure_mapped _ _ _) as [[]?]; apply Hm;
      destruct Hp as [[H1 H2 H3 H4 H5 H6 H7] Hb Hw]; by split.
  - unfold ensure_page_allocated, op_bind, modify.
    pose proof (ensure_mapped_ok d R io (pid + 1) p Hp) as Hm.
    destruct (ensure_mapped _ _ _) as [[]?]; [by apply bump_ok|done..].
  - by apply set_durable_ok.
  - destruct Hp as [[H1 H2 H3 H4 H5 H6 H7] Hb Hw]. by split.
  - destruct Hp as [[H1 H2 H3 H4 H5 H6 H7] Hb Hw]. by split.
  - by apply restore_page_ok.
  - by apply kernel_writeback_ok.
Qed.

Lemma pool_ok_mono d d' R p : d ≤ d' → pool_ok d R p → pool_ok d' R p.
Proof.
  intros Hd [Hi Hb [Hw Hl]]. split; [done..|]. split; [|lia].
  eapply Forall_impl; [exact Hw|]. simpl. intros. lia.
Qed.

Lemma reachable_ok d R p : pool_reachable d R p → pool_ok d R p.
Proof.
  intros (s&Hs&Hst). assert (pool_ok s.1.1 s.1.2 s.2) as Hok by (destruct Hs; by apply open_ok).
  change (pool_ok (d, R, p).1.1 (d, R, p).1.2 (d, R, p).2). revert Hok. clear Hs.
  induction Hst as [|s t u Hstep _ IH]; [done|]. intros Hok. apply IH.
  destruct Hstep; [by eapply pool_ok_mono|by apply exec_ok].
Qed.

(** ** Flushing everything *)

Definition dirty_within (p : BufferPool) (pids : list PageId) : Prop := ∀ i f pid,
  frames p !! i = Some f → dirty f = true → fr_page f = Some pid → pid ∈ pids.

Lemma dirty_pages_within p : dirty_within p (dirty_pages p).
Proof.
  intros i f pid Hf Hd Hpg. apply list_elem_of_omap. exists f. rewrite Hd.
  split; [by eapply list_elem_of_lookup_2|done].
Qed.

Lemma flush_each_clean d R io l pids p p' : 0 < l ≤ d → pool_ok d R p → dirty_within p pids →
  each (λ pid, flush_locked io pid l) pids p = (Ok tt, p') →
  pool_ok d R p' ∧ mem p' = mem p ∧ dirty_within p' [].
Proof.
  intros Hl. revert p. induction pids as [|pid pids IH]; intros p Hp Hd; [by intros [= <-]|].
  cbn [each]. intros (?&p1&E1&E2)%op_bind_Ok.
  pose proof (flush_locked_ok d R io pid l Hl p Hp) as Hp1. rewrite E1 in Hp1. simpl in Hp1.
  destruct (flush_locked_cases _ _ _ _ _ _ (po_inv _ _ _ Hp) E1)
    as [(_&_&bs&_&_&E)|((e&?&_)&_)]; [|done].
  assert (mem p1 = mem p) as Hm.
  { rewrite E. unfold flushed, alter_resident. by destruct (frame_index _ !! pid). }
  destruct (IH p1 Hp1) as (?&?&?); [|done|by split_and!; [|congruence|]].
  intros i f' q Hf' Hd' Hq. subst p1.
  destruct (frames p !! i) as [f|] eqn:Hf.
  2: { apply lookup_ge_None in Hf. apply lookup_lt_Some in Hf'. unfold flushed, alter_resident in Hf'.
       destruct (frame_index _ !! pid); simpl in Hf'; try rewrite length_alter in Hf'; lia. }
  rewrite (flushed_frame _ _ _ _ _ (po_inv _ _ _ Hp) Hf) in Hf'. injection Hf' as <-.
  destruct (decide (fr_page f = Some pid)) as [Hpg|Hpg]; [done|].
  pose proof (Hd _ _ _ Hf Hd' Hq) as [->|?]%elem_of_cons; [congruence|done].
Qed.

Lemma clean_disk d R p pid : pool_ok d R p → dirty_within p [] → pid ∉ R →
  page_at (disk p) pid = page_at (mem p) pid.
Proof.
  intros [Hi Hb _] Hd HR. destruct (page_at (mem p) pid) as [bs|] eqn:Hm.
  - destruct (decide (page_at (disk p) pid = Some bs)) as [|Hn]; [done|].
    destruct (Hb pid bs Hm Hn HR) as (j&f&Hj&Hf&Hdf).
    destruct (index_frame _ _ _ Hi Hj) as (f'&Hf'&Hpg).
    exfalso. apply (not_elem_of_nil pid). eapply Hd; [exact Hf|done|]. congruence.
  - destruct (page_at (disk p) pid) as [bs|] eqn:Hk; [|done]. apply page_at_range in Hk.
    unfold page_at, zlen in *. rewrite (pi_disk _ Hi) in Hk.
    rewrite decide_True in Hm by lia. apply lookup_ge_None in Hm. lia.
Qed.

Lemma flush_all_clean d R io l p p' : 0 < l ≤ d → pool_ok d R p → flush_all io l p = (Ok tt, p') →
  pool_ok d R p' ∧ mem p' = mem p ∧ (∀ pid, pid ∉ R → page_at (disk p') pid = page_at (mem p) pid).
Proof.
  intros Hl Hp. unfold flush_all. destruct (flush_poisoned p); [done|].
  intros (Hp'&Hm&Hd)%(flush_each_clean d R); [|done..|apply dirty_pages_within].
  split_and!; [done..|]. intros pid HR. rewrite <- Hm. by eapply clean_disk.
Qed.

(** A flush of other pages leaves a page alone. *)
Lemma flush_each_keeps io l pids pid p p' : pool_inv p → pid ∉ pids →
  each (λ pid, flush_locked io pid l) pids p = (Ok tt, p') →
  page_at (disk p) pid = page_at (disk p') pid ∧ page_at (mem p) pid = page_at (mem p') pid.
Proof.
  revert p. induction pids as [|q pids IH]; intros p Hp Hn; [by intros [= <-]|].
  cbn [each]. intros (?&p1&E1&E2)%op_bind_Ok. apply not_elem_of_cons in Hn as [Hq Hn].
  destruct (flush_locked_cases _ _ _ _ _ _ Hp E1) as [(_&_&bs&Hm&_&E)|((e&?&_)&_)]; [|done].
  destruct (IH p1) as [<- <-]; [subst; by apply flushed_inv|done|done|].
  pose proof (page_at_range _ _ _ Hm) as Hr.
  assert (disk p1 = <[Z.to_nat q := bs]> (disk p) ∧ mem p1 = mem p) as [-> ->].
  { rewrite E. unfold flushed, alter_resident. by destruct (frame_index _ !! q). }
  rewrite page_at_insert, decide_False; [done..|]. unfold zlen in *. rewrite (pi_disk _ Hp). lia.
Qed.

Lemma restore_spec d R io pid image p p1 : pool_ok d R p →
  restore_page_image io pid image p = (Ok tt, p1) →
  pool_inv p1 ∧ frame_index p1 = frame_index p ∧ page_at (mem p1) pid = Some image.
Proof.
  intros Hp. unfold restore_page_image. destruct (decide _); [done|].
  intros (?&q&E1&(?&q2&Eq&E2)%op_bind_Ok)%op_bind_Ok. injection Eq as _ <-.
  pose proof (ensure_mapped_ok d R io (pid + 1) p Hp) as Hq.
  pose proof (ensure_mapped_index io (pid + 1) p) as Hx. rewrite E1 in Hq, Hx. simpl in Hq, Hx.
  apply (bump_ok _ _ pid) in Hq as [Hq _ _].
  assert (frame_index (bump_page_count pid q) = frame_index p) as Hx2.
  { unfold bump_page_count. by case_decide. }
  revert Hq Hx2 E2. generalize (bump_page_count pid q). clear. intros q [H1 H2 H3 H4 H5 H6 H7] Hx E.
  unfold map_write in E. destruct (decide _) as [[Hr Hl]|]; [|done]. injection E as <-.
  set (q1 := set_mem q (<[Z.to_nat pid:=image]> (mem q)) (disk q)).
  assert (pool_inv q1) as Hi.
  { constructor; try done; simpl; [apply Forall_insert; [exact H4|done]|by rewrite length_insert]. }
  assert (page_at (mem q1) pid = Some image) as Hm.
  { simpl. rewrite page_at_insert by done. by rewrite decide_True. }
  unfold alter_resident. destruct (frame_index q1 !! pid); [|done].
  split_and!; [by apply alter_frame_inv|done..].
Qed.

(** ** Claims *)

(** C11: the buffer pool in every state it can reach.  Take any interleaving of
    fetches, writes and image restores (of pages with a frame or without), unpins,
    allocations, flushes and write-backs by the kernel, whatever system calls fail,
    over a file whose pages the log covers; assume that every flush passes a frontier
    between 1 and the log's durable one, and that the kernel writes back no page whose
    LSN is beyond it.  Then the frame index maps exactly the pages held by frames, the
    table never exceeds its capacity, a page whose bytes are not yet durable sits in a
    dirty frame unless it was last changed while it had no frame ([R]), and no durable
    page carries an LSN beyond the durable frontier [d] of the log. *)
Theorem pool_safe d R p : pool_reachable d R p →
  (∀ pid i, frame_index p !! pid = Some i ↔ ∃ f, frames p !! i = Some f ∧ fr_page f = Some pid) ∧
  (length (frames p) ≤ capacity p)%nat ∧
  (∀ pid bs, page_at (mem p) pid = Some bs → page_at (disk p) pid ≠ Some bs → pid ∉ R →
    ∃ i f, frame_index p !! pid = Some i ∧ frames p !! i = Some f ∧ dirty f = true) ∧
  Forall (λ bs, p_lsn bs ≤ d) (disk p).
Proof. intros [Hi Hb [Hw _]]%reachable_ok. split_and!; [apply Hi|apply Hi|exact Hb|exact Hw]. Qed.

(** The kernel is not bound by the log: a changed page of the shared map that the log
    does not cover yet becomes durable when the kernel writes it back, ahead of its
    log record. *)
Theorem kernel_overtakes_log d R p pid bs : pool_reachable d R p →
  page_at (mem p) pid = Some bs → d < p_lsn bs →
  page_at (disk (kernel_writeback pid p)) pid = Some bs ∧ ¬ wal_ahead d (kernel_writeback pid p).
Proof.
  intros Hp%reachable_ok Hm Hl. pose proof (page_at_range _ _ _ Hm) as Hr.
  assert (page_at (disk (kernel_writeback pid p)) pid = Some bs) as Hd.
  { unfold kernel_writeback. rewrite Hm. simpl. rewrite page_at_insert, decide_True; [done..|].
    unfold zlen in *. rewrite (pi_disk _ (po_inv _ _ _ Hp)). lia. }
  split; [done|]. intros [Hw _]. unfold page_at in Hd. rewrite decide_True in Hd by lia.
  pose proof (Forall_lookup_1 _ _ _ _ Hw Hd) as Hb. simpl in Hb. lia.
Qed.

(** Fetching a page.  A fetch changes no page and evicts no pinned one; what it
    returns is the current bytes of the page, which is then resident and pinned;
    and it reports [BufferPoolFull] exactly when the page is not resident, the
    table is full and every frame is pinned or holds a dirty page that the log does
    not yet cover: two rounds of the clock always suffice to find a victim. *)
Theorem fetch_page_exact d R p io pid r p' : pool_reachable d R p → fetch_page io pid p = (r, p') →
  mem p' = mem p ∧ pins_kept p p' ∧
  (r = Err BufferPoolFull ↔ frame_index p !! pid = None ∧
    (capacity p ≤ length (frames p))%nat ∧ ∀ i f, frames p !! i = Some f → ¬ stealable p f) ∧
  (∀ page, r = Ok page → page_at (mem p) pid = Some (data page) ∧ pinned_in p' pid).
Proof. intros Hp%reachable_ok E. by apply (fetch_page_spec d R) in E as [_ ?]. Qed.

(** A successful [flush_all] makes durable every page that was not last changed
    without a frame: the disk then holds the bytes of the map, and no page's bytes
    were changed. *)
Theorem flush_all_durable d R p io l p' : pool_reachable d R p → 0 < l ≤ d →
  flush_all io l p = (Ok tt, p') →
  mem p' = mem p ∧ ∀ pid, pid ∉ R → page_at (disk p') pid = page_at (mem p) pid.
Proof. intros Hp%reachable_ok Hl E. by apply (flush_all_clean d R) in E as (_&?&?). Qed.

(** A page image restored while the page is not resident is not flushed.
    [restore_page_image] marks only a frame the page already has; after it a
    successful [flush_all] leaves the page's durable bytes as they were, although
    the map holds the restored image. *)
Theorem restored_page_not_flushed d R p io pid image p1 io' l p2 : pool_reachable d R p →
  frame_index p !! pid = None → restore_page_image io pid image p = (Ok tt, p1) →
  flush_all io' l p1 = (Ok tt, p2) →
  page_at (mem p2) pid = Some image ∧ page_at (disk p2) pid = page_at (disk p1) pid.
Proof.
  intros Hp%reachable_ok Hix E1 E2.
  destruct (restore_spec d R io pid image p p1 Hp E1) as (Hi1&Hx1&Hm1).
  unfold flush_all in E2. destruct (flush_poisoned p1); [done|].
  apply flush_each_keeps with (pid := pid) in E2 as [<- <-]; [by rewrite Hm1|done|].
  intros (f&Hd&Hf)%list_elem_of_omap. destruct (dirty f); [|done].
  apply list_elem_of_lookup in Hd as [i Hi].
  apply (frame_page _ _ _ _ Hi1 Hi) in Hf. congruence.
Qed.

(** A page that failed its checksum is served on the next fetch.  The failed
    fetch leaves the page resident and pinned, so the next one counts as a hit,
    does not verify, and returns the corrupt bytes as a page. *)
Theorem corrupt_page_admitted d R p io io' pid q p1 : pool_reachable d R p →
  fetch_page io pid p = (Err (ChecksumMismatch q), p1) →
  ∃ bs p2, page_at (mem p) pid = Some bs ∧ from_bytes bs = Err (ChecksumMismatch q) ∧
    fetch_page io' pid p1 = (Ok (mkPage bs), p2).
Proof.
  intros Hp%reachable_ok. unfold fetch_page at 1.
  destruct (frame_index p !! pid) as [i|] eqn:Hix.
  { intros [= E _]. unfold read_page_locked in E. destruct (page_at _ pid) as [bs|]; [|done].
    by destruct (all_zero bs). }
  unfold op_bind at 1. destruct (find_victim io p) as [r1 pv] eqn:E.
  destruct (find_victim_spec d R io p r1 pv Hp E) as (Hpv&Hk&Hr1).
  destruct r1 as [idx|e|]; [| |done].
  - intros [= Er <-]. change (mem (load_frame idx pid pv)) with (mem pv) in Er.
    unfold read_page_locked in Er. simpl in Er. rewrite (kp_mem _ _ Hk) in Er.
    destruct (page_at (mem p) pid) as [bs|] eqn:Hm; [|done].
    destruct (all_zero bs); [done|]. exists bs. eexists. split_and!; [done..|].
    unfold fetch_page. replace (frame_index (load_frame idx pid pv) !! pid) with (Some idx).
    2: { unfold load_frame. simpl. by rewrite lookup_insert_eq. }
    f_equal. apply read_unchecked. simpl. by rewrite (kp_mem _ _ Hk).
  - intros [= -> <-]. by destruct (Hr1 q).
Qed.

Lemma fetch_full_settled d R io pid p p' : pool_ok d R p →
  fetch_page io pid p = (Err BufferPoolFull, p') → settled p p'.
Proof.
  intros Hp. unfold fetch_page. destruct (frame_index p !! pid).
  { intros [= E _]. by apply read_page_not_full in E. }
  unfold op_bind at 1, find_victim. destruct (decide _).
  { intros [= E _]. by apply read_page_not_full in E. }
  destruct (clock_sweep io _ p) as [r p1] eqn:E.
  destruct (sweep_spec d R io (length (frames p) * 2) p r p1 Hp) as (_&Hs&_);
    [intros Hn; by rewrite Hn|exact E|].
  destruct r as [idx|e|]; [intros [= E1 _]; by apply read_page_not_full in E1|by intros [= _ <-]|done].
Qed.

Lemma refresh_ok d R p w : durable_lsn w ≤ d → pool_ok d R p → pool_ok d R (refresh_durable (p, w)).1.
Proof. apply set_durable_ok. Qed.

Lemma refresh_same p w : let p' := (refresh_durable (p, w)).1 in
  frames p' = frames p ∧ capacity p' = capacity p ∧ durable_lsn w ≤ durable_wal_lsn p'.
Proof.
  simpl. unfold set_durable_wal_lsn. case_decide; simpl; split_and!; done || lia.
Qed.

(** The write path makes room by forcing the log.  If the log's forced sync
    succeeds and covers the LSNs of the frames, [fetch_page_for_write] reports
    [BufferPoolFull] only when the table is full and every frame is pinned. *)
Theorem write_fetch_makes_room d R p w w' pio io pid s' : pool_reachable d R p →
  durable_lsn w ≤ d → sync io w = (Ok tt, w') → 0 < durable_lsn w' ≤ d →
  Forall (λ f, fr_lsn f ≤ durable_lsn w') (frames p) →
  fetch_page_for_write pio io pid (p, w) = (Err BufferPoolFull, s') →
  (capacity p ≤ length (frames p))%nat ∧ Forall (λ f, 0 < pin_count f) (frames p).
Proof.
  intros Hp%reachable_ok Hw Esync Hd Hlsn. unfold fetch_page_for_write, on_pool.
  pose proof (refresh_ok d R p w Hw Hp) as Hp0.
  destruct (fetch_page pio pid (refresh_durable (p, w)).1) as [r p1] eqn:E1.
  destruct r as [page|e|]; [done| |done]. destruct e; try done.
  pose proof (fetch_full_settled _ _ _ _ _ _ Hp0 E1) as Hs1.
  destruct (fetch_page_spec d R _ _ _ _ _ Hp0 E1) as (Hp1&_).
  unfold op_bind, on_wal, modify. cbn [snd fst]. change ((refresh_durable (p, w)).2) with w. rewrite Esync.
  pose proof (refresh_ok d R p1 w' (proj2 Hd) Hp1) as Hp2.
  destruct (fetch_page pio pid (refresh_durable (p1, w')).1) as [r p2] eqn:E2. intros [= -> _].
  destruct (fetch_page_spec d R _ _ _ _ _ Hp2 E2) as (_&_&_&[Hfull _]&_).
  destruct (Hfull eq_refl) as (_&Hcap&Hns). pose proof (settled_length _ _ Hs1) as Hlen.
  destruct (refresh_same p w) as (F0&C0&_). destruct (refresh_same p1 w') as (F2&C2&D2).
  rewrite F2, C2, (st_capacity _ _ Hs1), Hlen, C0, F0 in Hcap. split; [exact Hcap|].
  apply Forall_lookup. intros i f Hf. destruct (decide (0 < pin_count f)) as [|Hpin]; [done|].
  rewrite <- F0 in Hf. destruct (settled_frame _ _ _ _ Hs1 Hf) as (f'&Hf'&_&Epin&Elsn).
  rewrite F0 in Hf. rewrite <- F2 in Hf'. destruct (Hns _ _ Hf'). split; [lia|]. right; right.
  pose proof (Forall_lookup_1 _ _ _ _ Hlsn Hf). simpl in *. unfold INVALID_LSN. lia.
Qed.

End props.

(** ** Latches *)

Module LatchProps.
Import Latch.

(** A latch with the numbers of shared and exclusive guards alive. *)
Record LatchSys := mkLatchSys { latch : LatchState; shared : Z; exclusive : Z }.

Inductive latch_step : relation LatchSys :=
| take_shared l l' n m : acquire_shared l = Some l' →
    latch_step (mkLatchSys l n m) (mkLatchSys l' (n + 1) m)
| drop_shared l n m : 0 < n → latch_step (mkLatchSys l n m) (mkLatchSys (release_shared l) (n - 1) m)
| take_exclusive l l' n m : acquire_exclusive l = Some l' →
    latch_step (mkLatchSys l n m) (mkLatchSys l' n (m + 1))
| drop_exclusive l n m : 0 < m → latch_step (mkLatchSys l n m) (mkLatchSys (release_exclusive l) n (m - 1)).

Lemma latch_inv s : rtc latch_step (mkLatchSys new 0 0) s →
  readers (latch s) = shared s ∧ 0 ≤ shared s ∧
  ((exclusive s = 0 ∧ writer (latch s) = false) ∨
   (exclusive s = 1 ∧ writer (latch s) = true ∧ shared s = 0)).
Proof.
  revert s. apply rtc_ind_r; [simpl; auto with lia|]. intros s t _ Hst IH.
  destruct Hst as [l l' n m E|l n m Hn|l l' n m E|l n m Hm]; simpl in *.
  - unfold acquire_shared in E. destruct (writer l) eqn:Hw; [done|]. injection E as <-. simpl.
    destruct IH as (?&?&[[]|(?&?&?)]); [|congruence]. split_and!; [lia..|]. left. auto.
  - destruct IH as (?&?&[[]|(?&?&?)]); [|lia]. split_and!; [lia..|]. left. auto.
  - unfold acquire_exclusive in E. destruct (decide _) as [|Hno]; [done|]. injection E as <-. simpl.
    destruct IH as (?&?&[[]|(?&Hw&?)]); [|by destruct Hno; left].
    split_and!; [lia..|]. right. split_and!; [lia|done|lia].
  - destruct IH as (?&?&[[]|(?&?&?)]); [lia|]. split_and!; [lia..|]. left. split; [lia|done].
Qed.

(** A page latch excludes.  In every interleaving of acquisitions and drops an
    exclusive guard is alone, and a waiting thread is admitted as soon as the
    guards that block it are gone: a reader when there is no exclusive guard, a
    writer when there is no guard at all. *)
Theorem latch_excludes s : rtc latch_step (mkLatchSys new 0 0) s →
  (0 < exclusive s → exclusive s = 1 ∧ shared s = 0) ∧
  (is_Some (acquire_shared (latch s)) ↔ exclusive s = 0) ∧
  (is_Some (acquire_exclusive (latch s)) ↔ exclusive s = 0 ∧ shared s = 0).
Proof.
  intros (Hr&Hs&Hw)%latch_inv. unfold acquire_shared, acquire_exclusive. split_and!.
  - lia.
  - destruct Hw as [[E ->]|(E&->&_)]; rewrite E; naive_solver.
  - destruct (decide _) as [Hd|Hd]; split.
    + by intros [? ?].
    + intros [E1 E2]. destruct Hw as [[_ Hw]|(?&_)]; [|lia]. destruct Hd; [congruence|lia].
    + intros _. destruct Hw as [[? _]|(?&Hw&_)]; [|by destruct Hd; left].
      split; [done|]. destruct (decide (shared s = 0)); [done|]. destruct Hd. right. lia.
    + eauto.
Qed.

End LatchProps.

(** ** Witnesses *)

#[local] Existing Instance sum_crc.

Definition w_pg (pid l : Z) : SlottedPage :=
  match Page.new pid PAGE_TYPE_HEAP 32 with
  | Ok p => match set_lsn p l with Ok p => p | _ => mkPage [] end
  | _ => mkPage []
  end.

(** A pool of one frame over a file of two pages, and the events of a steal: page 0
    is fetched, changed and released, then page 1 takes its frame. *)
Definition w_pool : BufferPool := Eval vm_compute in open (data <$> [w_pg 0 1; w_pg 1 2]) 32 1.
Definition w_fetched : BufferPool := Eval vm_compute in pool_exec (PFetch pio_ok 0) w_pool.
Definition w_written : BufferPool := Eval vm_compute in pool_exec (PWrite (w_pg 0 5)) w_fetched.
Definition w_released : BufferPool := Eval vm_compute in
  pool_exec (PDurable 10) (pool_exec (PUnpin 0) w_written).

Lemma w_opened d p file : 0 ≤ d → p = open file 32 1 →
  Forall (λ bs, zlen bs = 32 ∧ p_lsn bs ≤ d) file → pool_reachable d ∅ p.
Proof. intros ? -> Hf. exists (d, ∅, open file 32 1). split; [by constructor|apply rtc_refl]. Qed.

Lemma w_pool_reachable d : 2 ≤ d → pool_reachable d ∅ w_pool.
Proof.
  intros Hd. apply (w_opened d _ (data <$> [w_pg 0 1; w_pg 1 2])); [lia|vm_compute; reflexivity|].
  repeat apply Forall_cons_2; [..|apply Forall_nil_2];
    (split; [vm_compute; reflexivity|]);
    match goal with |- p_lsn ?x ≤ _ => let v := eval vm_compute in (p_lsn x) in change (v ≤ d) end; lia.
Qed.

Lemma w_step d R p e R' p' : pool_reachable d R p → allowed d p e →
  unframed e p R = R' → pool_exec e p = p' → pool_reachable d R' p'.
Proof.
  intros (s&Hs&Hst) Ha <- <-. exists s. split; [done|]. eapply rtc_r; [exact Hst|by apply pool_op].
Qed.

Lemma w_fetched_reachable d : 2 ≤ d → pool_reachable d ∅ w_fetched.
Proof.
  intros Hd. apply (w_step _ ∅ w_pool (PFetch pio_ok 0)); [by apply w_pool_reachable|done|done|].
  vm_compute. reflexivity.
Qed.

Lemma w_written_reachable d : 2 ≤ d → pool_reachable d ∅ w_written.
Proof.
  intros Hd. apply (w_step _ ∅ w_fetched (PWrite (w_pg 0 5)));
    [by apply w_fetched_reachable|done|vm_compute; reflexivity..].
Qed.

Lemma w_released_reachable : pool_reachable 10 ∅ w_released.
Proof.
  apply (w_step _ ∅ (pool_exec (PUnpin 0) w_written) (PDurable 10)); [|simpl; lia|done|vm_compute; reflexivity].
  apply (w_step _ ∅ w_written (PUnpin 0)); [|done..].
  apply w_written_reachable. lia.
Qed.

Lemma pool_safe_witness : ∃ i f, frame_index w_released !! 0 = Some i ∧
  frames w_released !! i = Some f ∧ dirty f = true.
Proof.
  apply (proj1 (proj2 (proj2 (pool_safe 10 ∅ w_released w_released_reachable))) 0 (data (w_pg 0 5))).
  - vm_compute. reflexivity.
  - vm_compute. discriminate.
  - apply not_elem_of_empty.
Defined.

Lemma kernel_overtakes_log_witness : ¬ wal_ahead 4 (kernel_writeback 0 w_written).
Proof.
  apply (kernel_overtakes_log 4 ∅ w_written 0 (data (w_pg 0 5)) (w_written_reachable 4 ltac:(lia)));
    vm_compute; reflexivity.
Defined.

Lemma fetch_page_exact_witness :
  page_at (mem w_released) 1 = Some (data (w_pg 1 2)) ∧
  pinned_in (fetch_page pio_ok 1 w_released).2 1 ∧
  (fetch_page pio_ok 1 w_fetched).1 = Err BufferPoolFull.
Proof.
  destruct (fetch_page_exact 10 ∅ w_released pio_ok 1 (fetch_page pio_ok 1 w_released).1
    (fetch_page pio_ok 1 w_released).2 w_released_reachable) as (_&_&_&Hr).
  - apply surjective_pairing.
  - destruct (Hr (w_pg 1 2)) as [H1 H2]; [vm_compute; reflexivity|].
    split; [exact H1|]. split; [exact H2|vm_compute; reflexivity].
Defined.

Lemma flush_all_durable_witness :
  page_at (disk (flush_all pio_ok 7 w_released).2) 0 = Some (data (w_pg 0 5)).
Proof.
  destruct (flush_all_durable 10 ∅ w_released pio_ok 7 (flush_all pio_ok 7 w_released).2
    w_released_reachable) as [_ H].
  - lia.
  - vm_compute. reflexivity.
  - rewrite (H 0); [vm_compute; reflexivity|apply not_elem_of_empty].
Defined.

Definition w_restored : BufferPool := Eval vm_compute in
  (restore_page_image pio_ok 0 (data (w_pg 0 9)) w_pool).2.

Lemma restored_page_not_flushed_witness :
  page_at (mem (flush_all pio_ok 10 w_restored).2) 0 = Some (data (w_pg 0 9)) ∧
  page_at (disk (flush_all pio_ok 10 w_restored).2) 0 = Some (data (w_pg 0 1)).
Proof.
  destruct (restored_page_not_flushed 10 ∅ w_pool pio_ok 0 (data (w_pg 0 9)) w_restored pio_ok 10
    (flush_all pio_ok 10 w_restored).2) as [H1 H2].
  - apply w_pool_reachable. lia.
  - vm_compute. reflexivity.
  - vm_compute. reflexivity.
  - vm_compute. reflexivity.
  - split; [exact H1|]. rewrite H2. vm_compute. reflexivity.
Defined.

(** Page 0 of this file has a wrong checksum. *)
Definition w_corrupt : list Z := Eval vm_compute in 7 :: tail (data (w_pg 0 1)).
Definition w_corrupt_pool : BufferPool := Eval vm_compute in open [w_corrupt] 32 1.

Lemma corrupt_page_admitted_witness :
  (fetch_page pio_ok 0 w_corrupt_pool).1 = Err (ChecksumMismatch 7) ∧
  ∃ bs p2, page_at (mem w_corrupt_pool) 0 = Some bs ∧ from_bytes bs = Err (ChecksumMismatch 7) ∧
    fetch_page pio_ok 0 (fetch_page pio_ok 0 w_corrupt_pool).2 = (Ok (mkPage bs), p2).
Proof.
  split; [vm_compute; reflexivity|].
  apply (corrupt_page_admitted 10 ∅ w_corrupt_pool pio_ok pio_ok 0 7).
  - apply (w_opened 10 _ [w_corrupt]); [lia|vm_compute; reflexivity|].
    apply Forall_singleton. split; [vm_compute; reflexivity|vm_compute; discriminate].
  - vm_compute. reflexivity.
Defined.

(** A log with one record. *)
Definition w_log_from (w : Wal) : Wal := (begin_user_txn io_ok 7 w).2.
Definition w_log : Wal := Eval vm_compute in
  match open_with_segment_size io_ok [] 0 65536 with
  | (Ok w, _) => w_log_from w
  | _ => mkWal [] [] 0 0 0 0 0 0 0 0 0 None false false false new_sealer
  end.

Lemma write_fetch_makes_room_witness :
  (fetch_page_for_write pio_ok io_ok 1 (w_fetched, w_log)).1 = Err BufferPoolFull ∧
  Forall (λ f, 0 < pin_count f) (frames w_fetched).
Proof.
  split; [vm_compute; reflexivity|].
  apply (write_fetch_makes_room 10 ∅ w_fetched w_log (sync io_ok w_log).2 pio_ok io_ok 1
    (fetch_page_for_write pio_ok io_ok 1 (w_fetched, w_log)).2).
  - apply w_fetched_reachable; lia.
  - vm_compute. discriminate.
  - vm_compute. reflexivity.
  - split; [vm_compute; reflexivity|vm_compute; discriminate].
  - apply Forall_singleton. vm_compute. discriminate.
  - vm_compute. reflexivity.
Defined.

Lemma latch_excludes_witness :
  LatchProps.exclusive (LatchProps.mkLatchSys (Latch.mkLatch 0 true) 0 1) = 1 ∧
  LatchProps.shared (LatchProps.mkLatchSys (Latch.mkLatch 0 true) 0 1) = 0.
Proof.
  apply (LatchProps.latch_excludes (LatchProps.mkLatchSys (Latch.mkLatch 0 true) 0 1)).
  - apply rtc_once. apply (LatchProps.take_exclusive Latch.new). reflexivity.
  - reflexivity.
Defined.
