(* ===== verification/Control.v ===== *)
(** The control file ([src/control.rs]), the checkpoint ([src/checkpoint.rs]) and
    the part of [Engine::open] ([src/lib.rs]) that resumes the LSN and transaction
    id counters from them.

    The control file is [None] when it does not exist.  It is written in place and
    never fsynced: besides its bytes the model keeps the bytes that are on disk. *)

From stdpp Require Import base numbers list strings gmap sets.
From S2P Require Import Prelude Format Page WalCodec Wal BufferPool.
Open Scope op_scope.

Definition CONTROL_SIZE : Z := 44.
Definition CRC_PAYLOAD_LEN : Z := 40.

Record ControlData := mkControl {
  c_page_size : Z;
  catalog_root : PageId;
  checkpoint_lsn : Lsn;
  wal_tail_lsn : Lsn;
  c_next_xid : Xid;
}.

Definition new_control (page_size : Z) : ControlData :=
  mkControl page_size INVALID_PAGE_ID INVALID_LSN INVALID_LSN 1.

Definition is_power_of_two (n : Z) : bool :=
  bool_decide (0 < n) && bool_decide (Z.land n (n - 1) = 0).

Definition page_size_ok (n : Z) : bool :=
  bool_decide (MIN_PAGE_SIZE ≤ n ≤ MAX_PAGE_SIZE) && is_power_of_two n.

(** The control file: its bytes, and those a power loss is sure to leave. *)
Record CtlFile := mkCtlFile { cf_data : list Z; cf_disk : list Z }.

(** Outcomes of the system calls on the control file; a write's [Some n] is a
    failure after [n] bytes. *)
Record CtlCalls := mkCtlCalls { cio_open : bool; cio_write : option nat }.
Definition cio_ok : CtlCalls := mkCtlCalls true None.

Section control.
Context `{!Crc32}.

Definition encode (cd : ControlData) : list Z :=
  let payload := u32_to_le MAGIC ++ u16_to_le FORMAT_VERSION ++ [0; 0] ++
    u32_to_le (c_page_size cd) ++ u32_to_le (catalog_root cd) ++ u64_to_le (checkpoint_lsn cd) ++
    u64_to_le (wal_tail_lsn cd) ++ u64_to_le (c_next_xid cd) in
  payload ++ u32_to_le (crc32 payload).

(** On a buffer of [CONTROL_SIZE] bytes. *)
Definition decode (buf : list Z) : Result ControlData :=
  stored_crc ← read_u32 buf 40;
  payload ← slice buf 0 CRC_PAYLOAD_LEN;
  if decide (stored_crc ≠ crc32 payload) then Err ControlFileCorrupt
  else
    magic ← read_u32 buf 0;
    if decide (magic ≠ MAGIC) then Err (BadMagic MAGIC magic)
    else
      version ← read_u16 buf 4;
      if decide (version ≠ FORMAT_VERSION) then Err (BadVersion version)
      else
        page_size ← read_u32 buf 8;
        if page_size_ok page_size then
          catalog_root ← read_u32 buf 12;
          checkpoint_lsn ← read_u64 buf 16;
          wal_tail_lsn ← read_u64 buf 24;
          next_xid ← read_u64 buf 32;
          Ok (mkControl page_size catalog_root checkpoint_lsn wal_tail_lsn next_xid)
        else Err (BadPageSize page_size).

(** ** File operations *)

(** [write_all] over the first bytes of a file. *)
Definition overwrite (out : option nat) (buf : list Z) (f : CtlFile) : Result unit * CtlFile :=
  let n := match out with None => length buf | Some n => Nat.min n (length buf) end in
  (match out with None => Ok tt | Some _ => Err Io end,
   mkCtlFile (take n buf ++ drop n (cf_data f)) (cf_disk f)).

(** [File::create] truncates, so nothing of an old file's contents is durable. *)
Definition create (io : CtlCalls) (page_size : Z) : op (option CtlFile) ControlData := λ file,
  if page_size_ok page_size then
    let cd := new_control page_size in
    if cio_open io then
      let '(r, f) := overwrite (cio_write io) (encode cd) (mkCtlFile [] []) in
      match r with
      | Ok _ => (Ok cd, Some f)
      | Err e => (Err e, Some f)
      | Panic => (Panic, Some f)
      end
    else (Err Io, file)
  else (Err (BadPageSize page_size), file).

(** [read_exact] fails on a short file. *)
Definition read (io : CtlCalls) : op (option CtlFile) ControlData := λ file,
  match file with
  | Some f =>
      if decide (cio_open io = true ∧ CONTROL_SIZE ≤ zlen (cf_data f)) then
        (decode (take (Z.to_nat CONTROL_SIZE) (cf_data f)), file)
      else (Err Io, file)
  | None => (Err Io, file)
  end.

Definition write (io : CtlCalls) (cd : ControlData) : op (option CtlFile) unit := λ file,
  match file with
  | Some f =>
      if cio_open io then
        let '(r, f) := overwrite (cio_write io) (encode cd) f in (r, Some f)
      else (Err Io, file)
  | None => (Err Io, file)
  end.

Definition open_or_create (io : CtlCalls) (page_size : Z) : op (option CtlFile) ControlData := λ file,
  match file with
  | Some _ => read io file
  | None => create io (if decide (page_size = 0) then DEFAULT_PAGE_SIZE else page_size) file
  end.

(** ** Checkpoint *)

(** What a checkpoint works on. *)
Record Store := mkStore {
  s_pool : BufferPool;
  s_wal : Wal;
  s_control : ControlData;
  s_ctlfile : option CtlFile;
}.

Definition in_pool {A} (m : op BufferPool A) : op Store A := λ s,
  let '(r, p) := m (s_pool s) in (r, mkStore p (s_wal s) (s_control s) (s_ctlfile s)).
Definition in_wal {A} (m : op Wal A) : op Store A := λ s,
  let '(r, w) := m (s_wal s) in (r, mkStore (s_pool s) w (s_control s) (s_ctlfile s)).
Definition in_ctlfile {A} (m : op (option CtlFile) A) : op Store A := λ s,
  let '(r, f) := m (s_ctlfile s) in (r, mkStore (s_pool s) (s_wal s) (s_control s) f).

Definition set_control (ckpt tail : Lsn) (next_xid : Xid) (s : Store) : Store :=
  mkStore (s_pool s) (s_wal s)
    (mkControl (c_page_size (s_control s)) (catalog_root (s_control s)) ckpt tail next_xid)
    (s_ctlfile s).

Definition run (wio : Calls) (pio : PoolCalls) (cio : CtlCalls) (next_xid : Xid)
    (wal_retain_lsn : Lsn) : op Store unit :=
  in_wal (sync wio);;
  durable <- gets (λ s, durable_lsn (s_wal s));;
  in_pool (flush_all pio durable);;
  in_pool (modify clear_fpi_tracking);;
  ckpt_lsn <- in_wal (log_checkpoint wio);;
  tail <- gets (λ s, current_lsn (s_wal s));;
  modify (set_control ckpt_lsn tail next_xid);;
  cd <- gets s_control;;
  in_ctlfile (write cio cd);;
  in_wal (truncate_before wio (Z.min ckpt_lsn wal_retain_lsn)).

(** ** Resuming *)

(** [TransactionManager::recover_next_xid] ([src/txn.rs]). *)
Definition recover_next_xid (records : list WalRecord) : Xid :=
  match w_mini_txn_id <$> filter (λ r, w_rec_type r = WAL_TXN_BEGIN) records with
  | [] => 1
  | x :: xs => foldr Z.max x xs + 1
  end.

(** [Engine::open_with_pool_capacity], after recovery: the log is reopened at the
    control file's tail and the transaction ids resume past every known one. *)
Definition resume_wal (io : Calls) (segments : Dir) (cd : ControlData) : Result Wal * Dir :=
  open_with_segment_size io segments (wal_tail_lsn cd) DEFAULT_SEGMENT_SIZE.
Definition resume_next_xid (segments : Dir) (cd : ControlData) : Xid :=
  Z.max (recover_next_xid (scan_dir segments)) (c_next_xid cd).

End control.
