(* ===== verification/ControlProps.v ===== *)
(** What the control file and the checkpoint guarantee, and what a reopening after
    a crash does to the LSN and transaction id counters. *)

From stdpp Require Import base numbers list sorting sets relations strings gmap.
From S2P Require Import Prelude Format Page PageSpec PageProps WalCodec WalCodecProps Wal WalInv.
From S2P Require Import WalProps WalClaims BufferPool BufferPoolProps Control.
Open Scope op_scope.

Section props.
Context `{!Crc32}.

(** The fields fit their types and the page size is one [decode] accepts. *)
Record control_ok (cd : ControlData) : Prop := {
  co_size : page_size_ok (c_page_size cd) = true;
  co_root : 0 ≤ catalog_root cd < 2 ^ 32;
  co_ckpt : 0 ≤ checkpoint_lsn cd < 2 ^ 64;
  co_tail : 0 ≤ wal_tail_lsn cd < 2 ^ 64;
  co_xid : 0 ≤ c_next_xid cd < 2 ^ 64;
}.

Lemma page_size_range n : page_size_ok n = true → 4096 ≤ n ≤ 65536.
Proof.
  unfold page_size_ok. intros [Hr _]%andb_true_iff. apply bool_decide_eq_true in Hr. exact Hr.
Qed.

Lemma zlen_encode cd : zlen (encode cd) = 44.
Proof. unfold encode. len. Qed.

Lemma decode_encode_control cd : control_ok cd → decode (encode cd) = Ok cd.
Proof.
  intros [Hs Hr Hc Ht Hx]. pose proof (page_size_range _ Hs) as Hp.
  pose proof (zlen_encode cd) as Hz. unfold encode in *. cbv zeta in *.
  set (payload := u32_to_le MAGIC ++ _) in *.
  assert (zlen payload = 40) as Hl by (subst payload; len).
  set (buf := payload ++ u32_to_le (crc32 payload)) in *.
  assert (∀ off n, 0 ≤ off → off + n ≤ 40 → 0 ≤ n → rd buf off n = rd payload off n) as Hrd.
  { intros. unfold buf. rewrite rd_app_l by lia. done. }
  unfold decode, CRC_PAYLOAD_LEN. rewrite !read_u32_Ok, !slice_Ok by lia. cbn [mbind outcome_bind].
  rewrite decide_False.
  2: { intros []. unfold buf. rewrite sub_app_l, rd_app_r by lia.
       replace (sub payload 0 (40 - 0)) with payload by (symmetry; apply sub_all_eq; lia).
       replace (40 - zlen payload) with 0 by lia. rewrite (rd_le_bytes 4).
       apply Z.mod_small, crc32_range. }
  assert (rd buf 0 4 = MAGIC ∧ rd buf 4 2 = FORMAT_VERSION ∧ rd buf 8 4 = c_page_size cd ∧
    rd buf 12 4 = catalog_root cd ∧ rd buf 16 8 = checkpoint_lsn cd ∧
    rd buf 24 8 = wal_tail_lsn cd ∧ rd buf 32 8 = c_next_xid cd) as (E1&E2&E3&E4&E5&E6&E7).
  { rewrite !Hrd by lia. unfold payload.
    split_and!; [rd_field 4%nat; unfold MAGIC|rd_field 2%nat; unfold FORMAT_VERSION|rd_field 4%nat|
      rd_field 4%nat|rd_field 8%nat..]; lia. }
  rewrite E1. rewrite decide_False by (intros []; done). rewrite read_u16_Ok, E2 by lia.
  cbn [mbind outcome_bind]. rewrite decide_False by (intros []; done).
  rewrite E3. rewrite Hs, E4. cbn [mbind outcome_bind].
  rewrite !read_u64_Ok, E5, E6, E7 by lia. by destruct cd.
Qed.

Lemma write_read io io' cd file file' : control_ok cd → cio_open io' = true →
  write io cd file = (Ok tt, file') → read io' file' = (Ok cd, file').
Proof.
  intros Hcd Hio. pose proof (decode_encode_control cd Hcd) as Hd. pose proof (zlen_encode cd) as Hz.
  revert Hd Hz. unfold write. generalize (encode cd) as bs. intros bs Hd Hz.
  destruct file as [f|]; [|done]. destruct (cio_open io); [|done].
  unfold overwrite. destruct (cio_write io); [done|]. intros [= <-].
  unfold read, CONTROL_SIZE. cbn [cf_data]. rewrite firstn_all.
  rewrite decide_True.
  2: { split; [done|]. rewrite zlen_app. pose proof (zlen_nonneg (drop (length bs) (cf_data f))). lia. }
  rewrite take_app_le, take_ge by (unfold zlen in Hz; lia). by rewrite Hd.
Qed.

(** ** The checkpoint *)

Lemma in_wal_Ok {A} (m : op Wal A) s a s' : in_wal m s = (Ok a, s') ↔
  ∃ w, m (s_wal s) = (Ok a, w) ∧ s' = mkStore (s_pool s) w (s_control s) (s_ctlfile s).
Proof. unfold in_wal. destruct (m (s_wal s)) as [r w]. naive_solver. Qed.
Lemma in_pool_Ok {A} (m : op BufferPool A) s a s' : in_pool m s = (Ok a, s') ↔
  ∃ p, m (s_pool s) = (Ok a, p) ∧ s' = mkStore p (s_wal s) (s_control s) (s_ctlfile s).
Proof. unfold in_pool. destruct (m (s_pool s)) as [r p]. naive_solver. Qed.
Lemma in_ctlfile_Ok {A} (m : op (option CtlFile) A) s a s' : in_ctlfile m s = (Ok a, s') ↔
  ∃ f, m (s_ctlfile s) = (Ok a, f) ∧ s' = mkStore (s_pool s) (s_wal s) (s_control s) f.
Proof. unfold in_ctlfile. destruct (m (s_ctlfile s)) as [r f]. naive_solver. Qed.

(** The steps of a checkpoint that succeeds. *)
Lemma run_Ok wio pio cio nx retain s s' : run wio pio cio nx retain s = (Ok tt, s') →
  ∃ w1 p1 l w2 w3, sync wio (s_wal s) = (Ok tt, w1) ∧
    flush_all pio (durable_lsn w1) (s_pool s) = (Ok tt, p1) ∧
    log_checkpoint wio w1 = (Ok l, w2) ∧
    let cd := mkControl (c_page_size (s_control s)) (catalog_root (s_control s)) l (current_lsn w2) nx in
    write cio cd (s_ctlfile s) = (Ok tt, s_ctlfile s') ∧
    truncate_before wio (Z.min l retain) w2 = (Ok tt, w3) ∧
    s' = mkStore (clear_fpi_tracking p1) w3 cd (s_ctlfile s').
Proof.
  unfold run. intros ([]&s1&(w1&E1&->)%in_wal_Ok&E)%op_bind_Ok.
  apply op_bind_Ok in E as (?&?&[= <- <-]&E). cbn [s_wal s_pool] in E.
  apply op_bind_Ok in E as ([]&?&(p1&E2&->)%in_pool_Ok&E).
  apply op_bind_Ok in E as ([]&?&(p2&[= <-]&->)%in_pool_Ok&E). cbn [s_wal s_pool s_control s_ctlfile] in *.
  apply op_bind_Ok in E as (l&?&(w2&E3&->)%in_wal_Ok&E). cbn [s_wal s_pool s_control s_ctlfile] in *.
  apply op_bind_Ok in E as (?&?&[= <- <-]&E). cbn [s_wal] in E.
  apply op_bind_Ok in E as ([]&?&[= <-]&E). apply op_bind_Ok in E as (?&?&[= <- <-]&E).
  unfold set_control in E. cbn [s_wal s_pool s_control s_ctlfile] in *.
  apply op_bind_Ok in E as ([]&?&(f&E4&->)%in_ctlfile_Ok&E). cbn [s_wal s_pool s_control s_ctlfile] in *.
  apply in_wal_Ok in E as (w3&E5&->). cbn [s_wal s_pool s_control s_ctlfile] in *.
  by exists w1, p1, l, w2, w3.
Qed.

Lemma sync_Ok io w w' : sync io w = (Ok tt, w') →
  same_log w w' ∧ durable_lsn w' = next_lsn w - 1.
Proof.
  unfold sync. intros ([]&w1&E1&E2)%op_bind_Ok. apply drain_same in E1 as [S1 _].
  apply fsync_same in E2 as (S2&_&[(_&Hd&_)|((m&?)&_)]); [|done].
  assert (same_log w w') as S by (by etrans). split; [done|]. by rewrite Hd, (sl_next _ _ S).
Qed.

(** The record a checkpoint appends. *)
Definition checkpoint_record (w : Wal) : WalRecord :=
  append_record w 0 INVALID_LSN WAL_CHECKPOINT 0 0 [] [].

Lemma log_checkpoint_Ok io w l w' sealed rs : wal_inv w sealed rs →
  record_ok (checkpoint_record w) → io_rec io = None → log_checkpoint io w = (Ok l, w') →
  ∃ sealed' rs', wal_inv w' sealed' rs' ∧ l = next_lsn w ∧ next_lsn w' = next_lsn w + 1 ∧
    log_of w' = log_of w ++ [checkpoint_record w].
Proof.
  intros Hi Hr Hio. unfold log_checkpoint.
  intros (?&w1&E1&([]&w2&E2&[= <- <-])%op_bind_Ok)%op_bind_Ok.
  destruct (append_inv _ _ _ _ _ _ _ _ _ _ _ _ _ Hi Hr Hio E1)
    as (sealed'&rs'&Hi'&_&[([= ->]&Hn&Hlog)|([e ?]&_)]); [|done].
  apply fsync_same in E2 as (S2&_). exists sealed', rs'.
  split_and!; [by eapply wal_inv_same|done|by rewrite (sl_next _ _ S2)|].
  rewrite (log_of_same _ _ S2), (log_of_inv _ _ _ Hi'), (log_of_inv _ _ _ Hi). exact Hlog.
Qed.

(** C22: what a successful checkpoint leaves.  Take a pool reached under the
    assumptions of the pool's safety theorem at a frontier within the log, over a log
    that was freshly created and whose record writes did not fail part way, and a
    checkpoint record that is written whole with an LSN that fits.  Then no page's
    bytes changed, and every page is durable as it was, except those last changed
    while they had no frame ([R]); the control file reads back as the new control
    data, which names the checkpoint record as both the start of recovery and the
    tail of the log; and the log lost no record from the checkpoint on, nor any that
    a replication slot retains. *)
Theorem checkpoint_complete d R s fl wio pio cio nx retain s' :
  let w := s_wal s in let l := next_lsn w in
  pool_reachable d R (s_pool s) → wal_reachable any (mkSys w fl) → 0 < current_lsn w → d ≤ current_lsn w →
  control_ok (s_control s) → 0 ≤ nx < 2 ^ 64 → l < 2 ^ 64 → io_rec wio = None →
  run wio pio cio nx retain s = (Ok tt, s') →
  mem (s_pool s') = mem (s_pool s) ∧
  (∀ pid, pid ∉ R → page_at (disk (s_pool s')) pid = page_at (mem (s_pool s)) pid) ∧
  fpi_logged (s_pool s') = ∅ ∧
  s_control s' = mkControl (c_page_size (s_control s)) (catalog_root (s_control s)) l l nx ∧
  read cio_ok (s_ctlfile s') = (Ok (s_control s'), s_ctlfile s') ∧
  log_of (s_wal s') `sublist_of` log_of w ++ [checkpoint_record w] ∧
  (∀ r, r ∈ log_of w ++ [checkpoint_record w] → Z.min l retain ≤ w_lsn r → r ∈ log_of (s_wal s')).
Proof.
  destruct s as [p w cd0 f]. cbv zeta. cbn [s_pool s_wal s_control].
  intros Hp%reachable_ok (sealed&rs&Hi&_)%reachable_flushed Hc Hd Hcd Hnx Hl Hio.
  intros (w1&p1&l1&w2&w3&E1&E2&E3&E4&E5&E)%run_Ok. cbv zeta in *. unfold current_lsn in *.
  cbn [sys_wal s_pool s_wal s_control s_ctlfile] in *. pose proof (wi_next _ _ _ Hi) as Hn.
  destruct (sync_Ok _ _ _ E1) as [S1 D1]. pose proof (wal_inv_same _ _ _ _ S1 Hi) as Hi1.
  assert (checkpoint_record w1 = checkpoint_record w) as Er.
  { unfold checkpoint_record, append_record. by rewrite (sl_next _ _ S1). }
  assert (record_ok (checkpoint_record w)) as Hr by (constructor; simpl; try lia; done).
  destruct (log_checkpoint_Ok wio w1 l1 w2 sealed rs Hi1) as (sealed2&rs2&Hi2&->&Hn2&Hlog2);
    [by rewrite Er|done..|].
  rewrite (sl_next _ _ S1) in *. rewrite (log_of_same _ _ S1), Er in Hlog2.
  destruct (flush_all_clean (next_lsn w - 1) R pio (durable_lsn w1) p p1) as (_&Hmem&Hdisk);
    [lia|by eapply pool_ok_mono|done|].
  replace (next_lsn w2 - 1) with (next_lsn w) in E4, E by lia.
  destruct (truncate_log _ _ _ _ _ _ _ Hi2 E5) as (Hsub&Hrem&_). rewrite Hlog2 in Hsub, Hrem.
  rewrite E. cbn [s_pool s_wal s_control s_ctlfile].
  split_and!; [done..| |exact Hsub|exact Hrem].
  eapply write_read; [|done|exact E4]. destruct Hcd as [C1 C2 C3 C4 C5].
  constructor; simpl; [done..|lia|lia|lia].
Qed.

(** The control file round trip.  Control data that fits its format is read
    back after [create] and after [write], whatever the file held before; creating
    a file for an unsupported page size is refused and leaves no file. *)
Theorem control_roundtrip io cd file file' psize :
  control_ok cd → cio_open io = true →
  decode (encode cd) = Ok cd ∧
  (write io cd file = (Ok tt, file') → read io file' = (Ok cd, file')) ∧
  (create io psize file = (Ok cd, file') → cd = new_control psize ∧ read io file' = (Ok cd, file')) ∧
  (page_size_ok psize = false → create io psize file = (Err (BadPageSize psize), file)).
Proof.
  intros Hcd Hio. split_and!.
  - by apply decode_encode_control.
  - by apply write_read.
  - unfold create. rewrite Hio. destruct (page_size_ok psize); [|done].
    destruct (overwrite _ _ _) as [r f] eqn:E. destruct r as [[]|e|]; [|done..]. intros [= <- <-].
    split; [done|]. apply (write_read io io (new_control psize) (Some (mkCtlFile [] []))); [done..|].
    unfold write. by rewrite Hio, E.
  - unfold create. by intros ->.
Qed.

Lemma append_lsn io mini prev ty page slot redo undo w l w' :
  append_locked io mini prev ty page slot redo undo w = (Ok l, w') → l = next_lsn w.
Proof.
  unfold append_locked. intros (?&?&[= <- <-]&E)%op_bind_Ok.
  apply op_bind_Ok in E as (?&?&_&E). apply op_bind_Ok in E as (?&?&_&[= <- _]). done.
Qed.

Lemma resume_next io d cd w d' : 0 ≤ wal_tail_lsn cd →
  resume_wal io d cd = (Ok w, d') → next_lsn w = wal_tail_lsn cd + 1.
Proof.
  unfold resume_wal, open_with_segment_size, INVALID_LSN. intros Ht.
  assert (∀ n, n = (if decide (wal_tail_lsn cd = 0) then 1 else wal_tail_lsn cd + 1) →
    n = wal_tail_lsn cd + 1) as Hn by (intros n ->; case_decide; lia).
  destruct (last d) as [[i f]|].
  - intros [= <- <-]. by apply Hn.
  - destruct (create_segment _ _ _ _) as [[] ?]; [|done..]. intros [= <- <-]. by apply Hn.
Qed.

(** Reopening reissues LSNs.  The log is reopened at the tail the last
    checkpoint stored, whatever was appended since: the first record of the next
    session gets the LSN of the first record after that checkpoint, although that
    record is still in the log and pages on disk may carry its LSN. *)
Theorem reopen_reissues_lsns s fl wio pio cio nx retain s1 io mini prev ty page slot redo undo l w2 io' w3 d :
  wal_reachable any (mkSys (s_wal s) fl) → next_lsn (s_wal s) < 2 ^ 64 → io_rec wio = None →
  run wio pio cio nx retain s = (Ok tt, s1) →
  append_locked io mini prev ty page slot redo undo (s_wal s1) = (Ok l, w2) →
  resume_wal io' (dir w2) (s_control s1) = (Ok w3, d) →
  next_lsn w3 = l.
Proof.
  destruct s as [p w cd0 f]. cbn [s_wal].
  intros (sealed&rs&Hi&_)%reachable_flushed Hl Hio.
  intros (w1&p1&l1&w4&w5&E1&_&E3&_&E5&E)%run_Ok Ea Er.
  cbv zeta in *. cbn [sys_wal s_pool s_wal s_control s_ctlfile] in *.
  pose proof (wi_next _ _ _ Hi) as Hn.
  destruct (sync_Ok _ _ _ E1) as [S1 _]. pose proof (wal_inv_same _ _ _ _ S1 Hi) as Hi1.
  destruct (log_checkpoint_Ok wio w1 l1 w4 sealed rs Hi1) as (sealed2&rs2&Hi2&_&Hn2&_); [|done..|].
  { rewrite <- (sl_next _ _ S1) in Hl, Hn. constructor; simpl; try lia; done. }
  destruct (truncate_log _ _ _ _ _ _ _ Hi2 E5) as (_&_&Hn5&_).
  rewrite E in Ea, Er. cbn [s_wal s_control] in Ea, Er. apply append_lsn in Ea.
  apply resume_next in Er; cbn [wal_tail_lsn] in *; unfold current_lsn in *;
    rewrite (sl_next _ _ S1) in *; lia.
Qed.

End props.

(** ** Witnesses *)

#[local] Existing Instance sum_crc.

Definition w_control : ControlData := new_control 4096.

Lemma w_control_ok : control_ok w_control.
Proof. constructor; [reflexivity|vm_compute; split; congruence..]. Qed.

Definition w_ctlfile : CtlFile := Eval vm_compute in mkCtlFile (encode w_control) (encode w_control).

Lemma control_roundtrip_witness : decode (encode w_control) = Ok w_control.
Proof.
  apply (control_roundtrip cio_ok w_control None None 0); [exact w_control_ok|reflexivity].
Defined.

(** A store over a log with a record, and a page file behind it. *)
Definition w_store : Store := mkStore w_pool (sys_wal w_sys) w_control (Some w_ctlfile).
Definition w_checkpointed : Store := Eval vm_compute in (run io_ok pio_ok cio_ok 8 (2 ^ 64 - 1) w_store).2.

Lemma w_store_log : wal_reachable any (mkSys (s_wal w_store) (flight w_sys)).
Proof. apply (w_sys_reachable any). done. Qed.

Lemma checkpoint_complete_witness :
  page_at (disk (s_pool w_checkpointed)) 0 = page_at (mem (s_pool w_store)) 0 ∧
  read cio_ok (s_ctlfile w_checkpointed) = (Ok (s_control w_checkpointed), s_ctlfile w_checkpointed).
Proof.
  destruct (checkpoint_complete 2 ∅ w_store (flight w_sys) io_ok pio_ok cio_ok 8 (2 ^ 64 - 1) w_checkpointed)
    as (_&H1&_&_&H2&_).
  - apply w_pool_reachable. lia.
  - exact w_store_log.
  - vm_compute. reflexivity.
  - vm_compute. discriminate.
  - exact w_control_ok.
  - lia.
  - vm_compute. reflexivity.
  - reflexivity.
  - vm_compute. reflexivity.
  - split; [apply H1, not_elem_of_empty|exact H2].
Defined.

Lemma reopen_reissues_lsns_witness :
  let a := append_locked io_ok 9 0 WAL_TXN_BEGIN 0 0 [] [] (s_wal w_checkpointed) in
  match resume_wal io_ok (dir a.2) (s_control w_checkpointed) with
  | (Ok w, _) => a.1 = Ok (next_lsn w)
  | _ => False
  end.
Proof.
  assert (∀ l w2 w3 d, append_locked io_ok 9 0 WAL_TXN_BEGIN 0 0 [] [] (s_wal w_checkpointed) = (Ok l, w2) →
    resume_wal io_ok (dir w2) (s_control w_checkpointed) = (Ok w3, d) → next_lsn w3 = l) as Hlsn.
  { intros l w2 w3 d. apply (reopen_reissues_lsns w_store (flight w_sys) io_ok pio_ok cio_ok 8 (2 ^ 64 - 1)).
    - exact w_store_log.
    - vm_compute. reflexivity.
    - reflexivity.
    - vm_compute. reflexivity. }
  destruct (append_locked io_ok 9 0 WAL_TXN_BEGIN 0 0 [] [] (s_wal w_checkpointed)) as [[l|e|] w2] eqn:E;
    [|vm_compute in E; discriminate E..].
  cbv zeta. cbn [fst snd].
  destruct (resume_wal io_ok (dir w2) (s_control w_checkpointed)) as [[w3|e|] d] eqn:E2;
    [by rewrite (Hlsn l w2 w3 d eq_refl E2)|..];
    (vm_compute in E; injection E as _ <-; vm_compute in E2; discriminate E2).
Defined.

(** A power loss after a checkpoint can bring transaction ids back.  The
    checkpoint removes the begin record of transaction 7 from the log and stores
    the next id in the control file, which is never fsynced; if the crash leaves
    the control file as it was on disk, ids resume at 1. *)
Theorem lost_control_reuses_xids :
  ∃ s' f, run io_ok pio_ok cio_ok 8 (2 ^ 64 - 1) w_store = (Ok tt, s') ∧ s_ctlfile s' = Some f ∧
    Exists (λ r, w_rec_type r = WAL_TXN_BEGIN ∧ w_mini_txn_id r = 7) (log_of (s_wal w_store)) ∧
    resume_next_xid (dir (s_wal s')) (s_control s') = 8 ∧
    ∃ cd, read cio_ok (Some (mkCtlFile (cf_disk f) (cf_disk f))) =
            (Ok cd, Some (mkCtlFile (cf_disk f) (cf_disk f))) ∧
      resume_next_xid (dir (s_wal s')) cd = 1.
Proof.
  exists w_checkpointed. eexists. split; [vm_compute; reflexivity|].
  split; [vm_compute; reflexivity|]. split; [|split; [vm_compute; reflexivity|]].
  - apply Exists_exists. exists (mkRecord 1 0 7 WAL_TXN_BEGIN 0 0 [] []).
    split; [vm_compute; left|by split].
  - exists w_control. split; vm_compute; reflexivity.
Qed.
