(* ===== verification/BTreeNode.v ===== *)
(** B+tree nodes ([src/btree_index.rs]): index keys, the key and row-id codecs, the
    page image of a node, and the redo of a logical leaf insertion.

    A text key is the list of its UTF-8 bytes.  [slice.get(a..b)] is [get_range],
    whose [None] the source turns into a [Recovery] error; plain indexing panics. *)

From stdpp Require Import base numbers list strings.
From S2P Require Import Prelude Format Page LockMgr Txn.

Definition PAGE_TYPE_BTREE : Z := 4.

Inductive OrderedValue :=
| KInt (n : Z)
| KText (s : list Z)
| KBool (b : bool).
#[global] Instance OrderedValue_eq_dec : EqDecision OrderedValue.
Proof. solve_decision. Defined.

Definition NODE_META : Z := 0.
Definition NODE_LEAF : Z := 1.
Definition NODE_INTERNAL : Z := 2.
Definition KEY_INT : Z := 0.
Definition KEY_TEXT : Z := 1.
Definition KEY_BOOL : Z := 2.
Definition ROWID_LEN : Z := 6.

Definition body_capacity (page_size : Z) : Z := page_size - PAGE_HEADER_SIZE.

(** [i64] of the same bits. *)
Definition i64 (v : Z) : Z := if decide (v < 2 ^ 63) then v else v - 2 ^ 64.

Definition get_range (buf : list Z) (a b : Z) : option (list Z) :=
  if decide (0 ≤ a ≤ b ∧ b ≤ zlen buf) then Some (sub buf a (b - a)) else None.

Definition get_byte (buf : list Z) (pos : Z) : option Z :=
  if decide (0 ≤ pos) then buf !! Z.to_nat pos else None.

(** ** UTF-8, as [std::str::from_utf8] accepts it *)

Definition in_range (lo hi b : Z) : bool := bool_decide (lo ≤ b ≤ hi).
Definition cont_byte : Z → bool := in_range 0x80 0xBF.

Fixpoint utf8_valid (bs : list Z) : bool :=
  match bs with
  | [] => true
  | b :: r =>
      if in_range 0 0x7F b then utf8_valid r
      else match r with
      | c1 :: r1 =>
          if in_range 0xC2 0xDF b then cont_byte c1 && utf8_valid r1
          else match r1 with
          | c2 :: r2 =>
              if bool_decide (b = 0xE0) then in_range 0xA0 0xBF c1 && cont_byte c2 && utf8_valid r2
              else if in_range 0xE1 0xEC b || in_range 0xEE 0xEF b then
                cont_byte c1 && cont_byte c2 && utf8_valid r2
              else if bool_decide (b = 0xED) then
                in_range 0x80 0x9F c1 && cont_byte c2 && utf8_valid r2
              else match r2 with
              | c3 :: r3 =>
                  (if bool_decide (b = 0xF0) then in_range 0x90 0xBF c1
                   else if in_range 0xF1 0xF3 b then cont_byte c1
                   else if bool_decide (b = 0xF4) then in_range 0x80 0x8F c1
                   else false)
                  && cont_byte c2 && cont_byte c3 && utf8_valid r3
              | [] => false
              end
          | [] => false
          end
      | [] => false
      end
  end.

(** ** Keys *)

Definition encode_key (k : OrderedValue) : list Z :=
  match k with
  | KInt n => KEY_INT :: u64_to_le (u64 n)
  | KText s => KEY_TEXT :: u16_to_le (u16 (zlen s)) ++ s
  | KBool b => [KEY_BOOL; if b then 1 else 0]
  end.

Definition corrupt_key : DbError := Recovery "corrupt B+tree key".

Definition decode_key (buf : list Z) (pos : Z) : Result (OrderedValue * Z) :=
  tag ← ok_or (get_byte buf pos) corrupt_key;
  if decide (tag = KEY_INT) then
    arr ← ok_or (get_range buf (pos + 1) (pos + 1 + 8)) corrupt_key;
    Ok (KInt (i64 (u64_from_le arr)), pos + 1 + 8)
  else if decide (tag = KEY_TEXT) then
    len_arr ← ok_or (get_range buf (pos + 1) (pos + 3)) corrupt_key;
    let start := pos + 3 in
    let end_ := start + u16_from_le len_arr in
    s ← ok_or (get_range buf start end_) corrupt_key;
    if utf8_valid s then Ok (KText s, end_) else Err corrupt_key
  else if decide (tag = KEY_BOOL) then
    b ← ok_or (get_byte buf (pos + 1)) corrupt_key;
    Ok (KBool (bool_decide (b ≠ 0)), pos + 2)
  else Err corrupt_key.

Definition encoded_key_len (k : OrderedValue) : Z :=
  match k with KInt _ => 1 + 8 | KText s => 1 + 2 + zlen s | KBool _ => 1 + 1 end.

(** ** Row ids *)

Definition encode_rowid (r : RowId) : list Z := u32_to_le (ri_page r) ++ u16_to_le (ri_slot r).

Definition decode_rowid (buf : list Z) (pos : Z) : Result RowId :=
  let corrupt := Recovery "corrupt B+tree RowId" in
  pg ← ok_or (get_range buf pos (pos + 4)) corrupt;
  sl ← ok_or (get_range buf (pos + 4) (pos + 6)) corrupt;
  Ok (mkRowId (u32_from_le pg) (u16_from_le sl)).

Definition rowid_key (r : RowId) : PageId * Z := (ri_page r, ri_slot r).

(** ** Nodes *)

Inductive Node :=
| Leaf (entries : list (OrderedValue * RowId)) (include_payloads : list (list Z)) (next : PageId)
| Internal (keys : list OrderedValue) (children : list PageId).

(** [include_payloads.get(i)], empty when absent. *)
Definition include_at (incs : list (list Z)) (i : nat) : list Z := default [] (incs !! i).

Definition leaf_entry (k : OrderedValue) (inc : list Z) (rid : RowId) : list Z :=
  encode_key k ++ u32_to_le (u32 (zlen inc)) ++ inc ++ encode_rowid rid.

Fixpoint leaf_payload (entries : list (OrderedValue * RowId)) (incs : list (list Z)) : list Z :=
  match entries with
  | [] => []
  | (k, rid) :: entries => leaf_entry k (include_at incs 0) rid ++ leaf_payload entries (tail incs)
  end.

Fixpoint internal_payload (keys : list OrderedValue) (children : list PageId) : Result (list Z) :=
  match keys with
  | [] => Ok []
  | k :: keys =>
      match children with
      | c :: children => rest ← internal_payload keys children; Ok (encode_key k ++ u32_to_le c ++ rest)
      | [] => Panic
      end
  end.

Definition body_len (n : Node) : Z :=
  match n with
  | Leaf entries incs _ =>
      7 + foldr Z.add 0 (imap (λ i e, encoded_key_len e.1 + 4 + zlen (include_at incs i) + ROWID_LEN) entries)
  | Internal keys _ => 7 + foldr Z.add 0 ((λ k, encoded_key_len k + 4) <$> keys)
  end.

(** The node's fields behind the page header; a body larger than the page panics. *)
Definition write_body (buf : list Z) (kind count link : Z) (payload : list Z) : Result (list Z) :=
  buf ← set_index buf PAGE_HEADER_SIZE kind;
  buf ← copy_from_slice buf (PAGE_HEADER_SIZE + 1) (PAGE_HEADER_SIZE + 3) (u16_to_le (u16 count));
  buf ← copy_from_slice buf (PAGE_HEADER_SIZE + 3) (PAGE_HEADER_SIZE + 7) (u32_to_le link);
  copy_from_slice buf (PAGE_HEADER_SIZE + 7) (PAGE_HEADER_SIZE + 7 + zlen payload) payload.

Definition serialize (n : Node) (page_id : PageId) (page_size : Z) : Result (list Z) :=
  let buf := replicate (Z.to_nat page_size) 0 in
  buf ← copy_from_slice buf 0 4 (u32_to_le page_id);
  buf ← set_index buf 4 PAGE_TYPE_BTREE;
  match n with
  | Leaf entries incs next => write_body buf NODE_LEAF (zlen entries) next (leaf_payload entries incs)
  | Internal keys children =>
      match children with
      | c0 :: rest =>
          payload ← internal_payload keys rest;
          write_body buf NODE_INTERNAL (zlen keys) c0 payload
      | [] => Panic
      end
  end.

Definition corrupt_node : DbError := Recovery "corrupt B+tree node".

Fixpoint leaf_entries (count : nat) (body : list Z) (pos : Z)
    : Result (list (OrderedValue * RowId * list Z)) :=
  match count with
  | O => Ok []
  | S count =>
      '(k, np) ← decode_key body pos;
      len_arr ← ok_or (get_range body np (np + 4)) corrupt_node;
      let inc_start := np + 4 in
      let inc_end := inc_start + u32_from_le len_arr in
      inc ← ok_or (get_range body inc_start inc_end) corrupt_node;
      rid ← decode_rowid body inc_end;
      rest ← leaf_entries count body (inc_end + ROWID_LEN);
      Ok ((k, rid, inc) :: rest)
  end.

Fixpoint internal_entries (count : nat) (body : list Z) (pos : Z)
    : Result (list (OrderedValue * PageId)) :=
  match count with
  | O => Ok []
  | S count =>
      '(k, np) ← decode_key body pos;
      c ← ok_or (get_range body np (np + 4)) corrupt_node;
      rest ← internal_entries count body (np + 4);
      Ok ((k, u32_from_le c) :: rest)
  end.

Definition deserialize (page : SlottedPage) : Result Node :=
  body ← slice (data page) PAGE_HEADER_SIZE (zlen (data page));
  kind ← ok_or (get_byte body 0) corrupt_node;
  if decide (kind = NODE_LEAF) then
    count ← read_u16 body 1;
    next ← read_u32 body 3;
    es ← leaf_entries (Z.to_nat count) body 7;
    let incs := es.*2 in
    Ok (Leaf es.*1 (if existsb (λ inc, bool_decide (0 < zlen inc)) incs then incs else []) next)
  else if decide (kind = NODE_INTERNAL) then
    count ← read_u16 body 1;
    child0 ← read_u32 body 3;
    es ← internal_entries (Z.to_nat count) body 7;
    Ok (Internal es.*1 (child0 :: es.*2))
  else Err corrupt_node.

(** ** Redo of a leaf insertion *)

Definition insert_at {A} (pos : nat) (x : A) (l : list A) : list A := take pos l ++ x :: drop pos l.

(** The include payloads after inserting [inc] at [pos] among [n] entries, the new
    one counted. *)
Definition insert_include (pos n : nat) (inc : list Z) (incs : list (list Z)) : list (list Z) :=
  if decide (inc ≠ []) then
    <[pos := inc]> (if decide (incs = []) then replicate n [] else insert_at pos [] incs)
  else if decide (incs ≠ []) then insert_at pos [] incs
  else incs.

Definition redo_index_insert_with_include (page : SlottedPage) (slot : Z) (key_bytes : list Z)
    (rid : RowId) (include_bytes : list Z) (page_size : Z) : Result SlottedPage :=
  node ← deserialize page;
  match node with
  | Internal _ _ => Err (Recovery "WAL_INDEX_INSERT redo: target page is not a B-tree leaf node")
  | Leaf entries incs next =>
      '(key, _) ← decode_key key_bytes 0;
      let pos := Z.to_nat slot in
      if decide (length entries < pos)%nat then Err (Recovery "WAL_INDEX_INSERT redo: slot out of range")
      else
        let entries := insert_at pos (key, rid) entries in
        let incs := insert_include pos (length entries) include_bytes incs in
        pid ← page_id page;
        image ← serialize (Leaf entries incs next) pid page_size;
        Ok (from_bytes_unchecked image)
  end.

(** ** Routing *)

(** The derived order: by constructor, then by value; text by its bytes. *)
Fixpoint bytes_lt (a b : list Z) : bool :=
  match a, b with
  | _, [] => false
  | [], _ :: _ => true
  | x :: a, y :: b => if decide (x = y) then bytes_lt a b else bool_decide (x < y)
  end.

Definition ov_lt (a b : OrderedValue) : bool :=
  match a, b with
  | KInt x, KInt y => bool_decide (x < y)
  | KText x, KText y => bytes_lt x y
  | KBool x, KBool y => negb x && y
  | KInt _, _ => true
  | KText _, KBool _ => true
  | _, _ => false
  end.

Fixpoint route_insert_child (keys : list OrderedValue) (value : OrderedValue) : nat :=
  match keys with
  | [] => 0
  | k :: keys => if ov_lt value k then 0 else S (route_insert_child keys value)
  end.

Definition node_is_insert_safe (n : Node) (value : OrderedValue) (include_payload_len cap : Z) : bool :=
  match n with
  | Leaf _ _ _ =>
      bool_decide (body_len n + encoded_key_len value + 4 + include_payload_len + ROWID_LEN ≤ cap)
  | Internal keys _ =>
      match head keys with
      | Some (KInt _) => bool_decide (body_len n + encoded_key_len (KInt 0) + 4 ≤ cap)
      | Some (KBool _) => bool_decide (body_len n + encoded_key_len (KBool false) + 4 ≤ cap)
      | _ => false
      end
  end.
