(* ===== verification/BTreeNodeProps.v ===== *)
(** Round trips of the B+tree node format, and the redo of a leaf insertion. *)

From stdpp Require Import base numbers list strings.
From S2P Require Import Prelude Format Page PageSpec LockMgr Txn BTreeNode.

(** ** Reading inside a concatenation *)

Lemma get_range_mid a b c : get_range (a ++ b ++ c) (zlen a) (zlen a + zlen b) = Some b.
Proof.
  pose proof (zlen_nonneg a). pose proof (zlen_nonneg b). pose proof (zlen_nonneg c).
  unfold get_range. rewrite decide_True by len. f_equal.
  rewrite sub_app_r, sub_app_l by lia. apply sub_all_eq; lia.
Qed.

Lemma get_range_at a b c from to : from = zlen a → to = zlen a + zlen b →
  get_range (a ++ b ++ c) from to = Some b.
Proof. intros -> ->. apply get_range_mid. Qed.

Lemma get_byte_at a x c pos : pos = zlen a → get_byte (a ++ x :: c) pos = Some x.
Proof.
  intros ->. pose proof (zlen_nonneg a). unfold get_byte. rewrite decide_True by lia.
  unfold zlen. rewrite Nat2Z.id, lookup_app_r, Nat.sub_diag by lia. done.
Qed.

(** ** Keys and row ids *)

(** Keys whose encoding is faithful: 64-bit integers, text whose length fits 16
    bits. *)
Definition key_ok (k : OrderedValue) : Prop :=
  match k with
  | KInt n => -2 ^ 63 ≤ n < 2 ^ 63
  | KText s => utf8_valid s = true ∧ zlen s < 2 ^ 16
  | KBool _ => True
  end.

Lemma i64_u64 n : -2 ^ 63 ≤ n < 2 ^ 63 → i64 (u64 n) = n.
Proof.
  intros Hn. unfold i64, u64. destruct (decide (0 ≤ n)) as [H0|H0].
  - rewrite Z.mod_small by lia. rewrite decide_True by lia. done.
  - assert (n mod 2 ^ 64 = n + 2 ^ 64) as ->.
    { symmetry. apply (Z.mod_unique_pos _ _ (-1)); lia. }
    rewrite decide_False by lia. lia.
Qed.

Lemma zlen_encode_key k : zlen (encode_key k) = encoded_key_len k.
Proof. destruct k; simpl; len. Qed.

Lemma decode_encode_key a k c pos : key_ok k → pos = zlen a →
  decode_key (a ++ encode_key k ++ c) pos = Ok (k, pos + encoded_key_len k).
Proof.
  intros Hk ->. pose proof (zlen_nonneg a). unfold decode_key. destruct k as [n|s|b]; simpl in Hk;
    cbn [encode_key app]; rewrite (get_byte_at a _ _ (zlen a) eq_refl); cbn [ok_or mbind outcome_bind].
  - rewrite decide_True by done.
    rewrite (cons_middle KEY_INT a), app_assoc.
    rewrite (get_range_at (a ++ [KEY_INT]) (u64_to_le (u64 n)) c) by len.
    cbn [ok_or mbind outcome_bind]. rewrite u64_from_to_le by (unfold u64; apply Z.mod_pos_bound; lia).
    rewrite i64_u64 by done. simpl. do 2 f_equal. lia.
  - destruct Hk as [Hu Hl]. pose proof (zlen_nonneg s). rewrite decide_False, decide_True by done.
    rewrite (cons_middle KEY_TEXT a), <- app_assoc, app_assoc.
    rewrite (get_range_at (a ++ [KEY_TEXT]) (u16_to_le (u16 (zlen s))) (s ++ c)) by len.
    cbn [ok_or mbind outcome_bind]. rewrite u16_small, u16_from_to_le by lia.
    rewrite (app_assoc (a ++ [KEY_TEXT])).
    rewrite (get_range_at ((a ++ [KEY_TEXT]) ++ u16_to_le (zlen s)) s c) by len.
    cbn [ok_or mbind outcome_bind]. rewrite Hu. simpl. do 2 f_equal. lia.
  - rewrite decide_False, decide_False, decide_True by done.
    rewrite (cons_middle KEY_BOOL a), app_assoc.
    rewrite (get_byte_at (a ++ [KEY_BOOL])) by len. cbn [ok_or mbind outcome_bind].
    simpl. by destruct b.
Qed.

Definition rowid_ok (r : RowId) : Prop := 0 ≤ ri_page r < 2 ^ 32 ∧ 0 ≤ ri_slot r < 2 ^ 16.

Lemma zlen_encode_rowid r : zlen (encode_rowid r) = 6.
Proof. unfold encode_rowid. len. Qed.

Lemma decode_encode_rowid a r c pos : rowid_ok r → pos = zlen a →
  decode_rowid (a ++ encode_rowid r ++ c) pos = Ok r.
Proof.
  intros [Hp Hs] ->. unfold decode_rowid, encode_rowid. rewrite <- app_assoc.
  rewrite (get_range_at a (u32_to_le (ri_page r)) _ (zlen a) (zlen a + 4)) by len. cbn [ok_or mbind outcome_bind].
  rewrite app_assoc. rewrite (get_range_at (a ++ u32_to_le (ri_page r)) (u16_to_le (ri_slot r)) c) by len.
  cbn [ok_or mbind outcome_bind]. rewrite u32_from_to_le, u16_from_to_le by done. by destruct r.
Qed.

(** ** Nodes *)

(** A node the format represents: keys and row ids are representable, a leaf's
    include payloads are absent or one per entry and not all empty, an internal
    node has one child more than keys. *)
Definition node_ok (n : Node) : Prop :=
  match n with
  | Leaf entries incs next =>
      Forall (λ e, key_ok e.1 ∧ rowid_ok e.2) entries ∧ 0 ≤ next < 2 ^ 32 ∧ zlen entries < 2 ^ 16 ∧
      Forall (λ inc, zlen inc < 2 ^ 32) incs ∧
      (incs = [] ∨ length incs = length entries ∧ Exists (λ inc, inc ≠ []) incs)
  | Internal keys children =>
      Forall key_ok keys ∧ Forall (λ c, 0 ≤ c < 2 ^ 32) children ∧ zlen keys < 2 ^ 16 ∧
      length children = S (length keys)
  end.

(** The entries of a leaf with their include payloads. *)
Fixpoint with_includes (entries : list (OrderedValue * RowId)) (incs : list (list Z))
    : list (OrderedValue * RowId * list Z) :=
  match entries with
  | [] => []
  | e :: entries => (e, include_at incs 0) :: with_includes entries (tail incs)
  end.

Lemma zlen_leaf_entry k inc rid : zlen (leaf_entry k inc rid) = encoded_key_len k + 4 + zlen inc + 6.
Proof. unfold leaf_entry. rewrite !zlen_app, zlen_encode_key, zlen_encode_rowid, zlen_u32_to_le. lia. Qed.

Lemma leaf_entries_payload entries incs a c : ∀ pos,
  Forall (λ e, key_ok e.1 ∧ rowid_ok e.2) entries → Forall (λ inc, zlen inc < 2 ^ 32) incs →
  pos = zlen a →
  leaf_entries (length entries) (a ++ leaf_payload entries incs ++ c) pos = Ok (with_includes entries incs).
Proof.
  revert a incs. induction entries as [|[k rid] entries IH]; intros a incs pos He Hi ->; [done|].
  apply Forall_cons in He as [[Hk Hr] He]. simpl in Hk, Hr.
  set (inc := include_at incs 0).
  assert (zlen inc < 2 ^ 32) as Hinc.
  { subst inc. unfold include_at. destruct incs as [|i incs]; simpl; [done|by inversion Hi]. }
  assert (Forall (λ inc, zlen inc < 2 ^ 32) (tail incs)) as Hi' by (destruct Hi; done).
  pose proof (zlen_nonneg inc). pose proof (zlen_encode_key k) as Hz.
  cbn [leaf_entries leaf_payload length with_includes]. fold inc. unfold leaf_entry.
  rewrite <- !app_assoc. rewrite decode_encode_key by done. cbn [mbind outcome_bind].
  rewrite (app_assoc a (encode_key k)).
  rewrite (get_range_at (a ++ encode_key k) (u32_to_le (u32 (zlen inc)))) by len.
  cbn [ok_or mbind outcome_bind]. rewrite u32_small, u32_from_to_le by lia.
  rewrite (app_assoc (a ++ encode_key k)).
  rewrite (get_range_at ((a ++ encode_key k) ++ u32_to_le (zlen inc)) inc) by len.
  cbn [ok_or mbind outcome_bind]. rewrite (app_assoc _ inc).
  rewrite decode_encode_rowid by (done || len). cbn [mbind outcome_bind].
  rewrite (app_assoc _ (encode_rowid rid)).
  rewrite IH; [done|done|done|]. rewrite !zlen_app, zlen_encode_rowid, zlen_u32_to_le. unfold ROWID_LEN. lia.
Qed.

Lemma internal_entries_payload keys children a c payload : ∀ pos,
  Forall key_ok keys → Forall (λ c, 0 ≤ c < 2 ^ 32) children → length children = length keys →
  internal_payload keys children = Ok payload → pos = zlen a →
  internal_entries (length keys) (a ++ payload ++ c) pos = Ok (zip keys children).
Proof.
  revert a children payload. induction keys as [|k keys IH]; intros a children payload pos Hk Hc Hl Hp ->.
  { by injection Hp as <-. }
  destruct children as [|ch children]; [done|]. cbn [internal_payload] in Hp.
  destruct (internal_payload keys children) as [rest|e|] eqn:E; [|done..].
  assert (payload = encode_key k ++ u32_to_le ch ++ rest) as -> by (cbn [mbind outcome_bind] in Hp; congruence).
  apply Forall_cons in Hk as [Hk0 Hk]. apply Forall_cons in Hc as [Hc0 Hc]. injection Hl as Hl.
  pose proof (zlen_encode_key k) as Hz. cbn [internal_entries length]. rewrite <- !app_assoc.
  rewrite decode_encode_key by done. cbn [mbind outcome_bind]. rewrite (app_assoc a (encode_key k)).
  rewrite (get_range_at (a ++ encode_key k) (u32_to_le ch)) by len. cbn [ok_or mbind outcome_bind].
  rewrite (app_assoc _ (u32_to_le ch)). rewrite (IH _ children rest); [|done..|len].
  cbn [mbind outcome_bind]. rewrite u32_from_to_le by done. done.
Qed.

(** ** Page images *)

Definition node_body (kind count link : Z) (payload : list Z) : list Z :=
  [kind] ++ u16_to_le (u16 count) ++ u32_to_le link ++ payload.

Lemma write_body_Ok buf kind count link payload : 35 + zlen payload ≤ zlen buf →
  write_body buf kind count link payload = Ok (splice buf 28 (node_body kind count link payload)).
Proof.
  intros Hl. pose proof (zlen_nonneg payload). unfold write_body, PAGE_HEADER_SIZE, node_body.
  rewrite set_index_Ok by lia. cbn [mbind outcome_bind].
  rewrite copy_from_slice_Ok by len. cbn [mbind outcome_bind].
  rewrite copy_from_slice_Ok by len. cbn [mbind outcome_bind].
  rewrite copy_from_slice_Ok by len. f_equal.
  change (28 + 1) with (28 + zlen [kind]). rewrite splice_app by len.
  change (28 + 3) with (28 + zlen ([kind] ++ u16_to_le (u16 count))). rewrite splice_app by len.
  change (28 + 7) with (28 + zlen (([kind] ++ u16_to_le (u16 count)) ++ u32_to_le link)).
  rewrite splice_app by len. by rewrite <- !app_assoc.
Qed.

(** The image of a node: the page header's id and type, and the body. *)
Definition image (page_id page_size : Z) (body : list Z) : list Z :=
  splice (splice (splice (replicate (Z.to_nat page_size) 0) 0 (u32_to_le page_id)) 4 [PAGE_TYPE_BTREE])
    28 body.

Definition node_fields (n : Node) : Result (list Z) :=
  match n with
  | Leaf entries incs next => Ok (node_body NODE_LEAF (zlen entries) next (leaf_payload entries incs))
  | Internal keys (c0 :: rest) =>
      payload ← internal_payload keys rest; Ok (node_body NODE_INTERNAL (zlen keys) c0 payload)
  | Internal _ [] => Panic
  end.

Lemma serialize_Ok n page_id page_size body : 28 + zlen body ≤ page_size →
  node_fields n = Ok body → serialize n page_id page_size = Ok (image page_id page_size body).
Proof.
  intros Hl Hn. pose proof (zlen_nonneg body). unfold serialize, image.
  set (buf := replicate (Z.to_nat page_size) 0).
  assert (zlen buf = page_size) as Hb by (subst buf; len).
  rewrite copy_from_slice_Ok by len. cbn [mbind outcome_bind].
  rewrite set_index_Ok by len. cbn [mbind outcome_bind].
  set (buf' := splice _ 4 _). assert (zlen buf' = page_size) as Hb' by (subst buf'; len).
  destruct n as [entries incs next|keys [|c0 rest]]; [| done |].
  - injection Hn as <-. apply write_body_Ok. unfold node_body in Hl. autorewrite with zlen in Hl. lia.
  - unfold node_fields in Hn. destruct (internal_payload keys rest) as [payload|e|]; [|done..].
    cbn [mbind outcome_bind] in *. injection Hn as <-. apply write_body_Ok.
    unfold node_body in Hl. autorewrite with zlen in Hl. lia.
Qed.

Lemma image_body page_id page_size body : 28 + zlen body ≤ page_size →
  ∃ rest, sub (image page_id page_size body) 28 (page_size - 28) = body ++ rest ∧
    zlen (image page_id page_size body) = page_size.
Proof.
  intros Hl. pose proof (zlen_nonneg body). unfold image.
  set (buf := splice _ 4 _). assert (zlen buf = page_size) as Hb by (subst buf; len).
  exists (sub buf (28 + zlen body) (page_size - 28 - zlen body)). split; [|len].
  apply list_eq. intros i. rewrite lookup_sub, lookup_splice by lia.
  unfold zlen in *. destruct (decide (i < length body)%nat).
  - rewrite lookup_app_l by done. repeat case_decide; try lia. f_equal. lia.
  - rewrite lookup_app_r, lookup_sub by lia. repeat case_decide; try lia; [|done]. f_equal. lia.
Qed.

Lemma image_page_id page_id page_size body : 0 ≤ page_id < 2 ^ 32 → 28 + zlen body ≤ page_size →
  Page.page_id (mkPage (image page_id page_size body)) = Ok page_id.
Proof.
  intros Hp Hl. pose proof (zlen_nonneg body). destruct (image_body page_id page_size body Hl) as (_&_&Hz).
  rewrite page_id_Ok by (cbn [data]; lia). f_equal. cbn [data]. unfold image.
  rewrite rd_splice_out by len. rewrite rd_splice_out by len.
  unfold u32_to_le. rewrite (rd_splice_eq _ 0 4) by len. apply Z.mod_small. lia.
Qed.

(** ** Round trip *)

Lemma with_includes_fst entries incs : (with_includes entries incs).*1 = entries.
Proof. revert incs. induction entries as [|e entries IH]; intros; simpl; [done|by rewrite IH]. Qed.

Lemma with_includes_snd entries incs : length incs = length entries → (with_includes entries incs).*2 = incs.
Proof.
  revert incs. induction entries as [|e entries IH]; intros [|i incs] Hl; try done.
  simpl. f_equal. apply IH. by injection Hl.
Qed.

Lemma with_includes_nil entries : (with_includes entries []).*2 = replicate (length entries) [].
Proof. induction entries as [|e entries IH]; [done|]. cbn [with_includes length replicate fmap list_fmap tail]. f_equal. apply IH. Qed.

Lemma include_at_tail incs i : include_at (tail incs) i = include_at incs (S i).
Proof. unfold include_at. by destruct incs. Qed.

Lemma zlen_leaf_payload entries incs :
  7 + zlen (leaf_payload entries incs) = body_len (Leaf entries incs 0).
Proof.
  unfold body_len, ROWID_LEN. f_equal. revert incs.
  induction entries as [|[k rid] entries IH]; intros incs; [done|].
  cbn [leaf_payload]. rewrite zlen_app, zlen_leaf_entry, IH, imap_cons. cbn [foldr fst]. f_equal.
  f_equal. apply imap_ext. intros i x _. simpl. by rewrite include_at_tail.
Qed.

Lemma internal_payload_Ok keys children : length children = length keys →
  ∃ payload, internal_payload keys children = Ok payload ∧
    zlen payload = foldr Z.add 0 ((λ k, encoded_key_len k + 4) <$> keys).
Proof.
  revert children. induction keys as [|k keys IH]; intros [|c children] Hl; try done; [by exists []|].
  injection Hl as Hl. destruct (IH children Hl) as (rest&E&Hz). cbn [internal_payload]. rewrite E.
  cbn [mbind outcome_bind]. eexists. split; [done|]. rewrite !zlen_app, zlen_encode_key, zlen_u32_to_le, Hz.
  rewrite fmap_cons. cbn [foldr]. lia.
Qed.

Lemma node_fields_Ok n : node_ok n → ∃ body, node_fields n = Ok body ∧ zlen body = body_len n.
Proof.
  destruct n as [entries incs next|keys children].
  - intros _. eexists. split; [done|]. unfold node_body. rewrite !zlen_app, zlen_u16_to_le, zlen_u32_to_le.
    pose proof (zlen_leaf_payload entries incs) as Hz. change (zlen [NODE_LEAF]) with 1.
    change (body_len (Leaf entries incs next)) with (body_len (Leaf entries incs 0)). lia.
  - intros (_&_&_&Hl). destruct children as [|c0 rest]; [done|]. injection Hl as Hl.
    destruct (internal_payload_Ok keys rest Hl) as (payload&E&Hz). simpl. rewrite E.
    eexists. split; [done|]. unfold node_body. rewrite !zlen_app, zlen_u16_to_le, zlen_u32_to_le, Hz.
    change (zlen [NODE_INTERNAL]) with 1. lia.
Qed.

Lemma existsb_includes incs : existsb (λ inc : list Z, bool_decide (0 < zlen inc)) incs = true ↔
  Exists (λ inc, inc ≠ []) incs.
Proof.
  rewrite existsb_exists, Exists_exists. split; intros (inc&Hin&H); exists inc; rewrite list_elem_of_In in *.
  - split; [done|]. apply bool_decide_eq_true in H. by intros ->.
  - split; [done|]. apply bool_decide_eq_true. destruct inc; [done|]. rewrite zlen_cons.
    pose proof (zlen_nonneg inc). lia.
Qed.

Lemma body_header kind count link payload rest : 0 ≤ count < 2 ^ 16 → 0 ≤ link < 2 ^ 32 →
  let body := node_body kind count link payload ++ rest in
  get_byte body 0 = Some kind ∧ read_u16 body 1 = Ok count ∧ read_u32 body 3 = Ok link ∧
  ∃ hdr, zlen hdr = 7 ∧ body = hdr ++ payload ++ rest.
Proof.
  intros Hc Hl body. unfold body, node_body. rewrite u16_small by done.
  pose proof (zlen_nonneg payload). pose proof (zlen_nonneg rest). split_and!.
  - by apply (get_byte_at []).
  - rewrite read_u16_Ok by len. f_equal. rewrite <- !app_assoc. rd_field 2%nat; lia.
  - rewrite read_u32_Ok by len. f_equal. rewrite <- !app_assoc. rd_field 4%nat; lia.
  - exists ([kind] ++ u16_to_le count ++ u32_to_le link). split; [len|]. by rewrite <- !app_assoc.
Qed.

Lemma deserialize_image n pid psize body : node_ok n → node_fields n = Ok body →
  28 + zlen body ≤ psize → deserialize (mkPage (image pid psize body)) = Ok n.
Proof.
  intros Hn Hf Hl. destruct (image_body pid psize body Hl) as (rest&Hs&Hz).
  unfold deserialize, PAGE_HEADER_SIZE. cbn [data]. rewrite Hz.
  pose proof (zlen_nonneg body). rewrite slice_Ok by lia. cbn [mbind outcome_bind]. rewrite Hs.
  destruct n as [entries incs next|keys children].
  - destruct Hn as (He&Hx&Hc&Hi&Hincs). injection Hf as <-. pose proof (zlen_nonneg entries).
    destruct (body_header NODE_LEAF (zlen entries) next (leaf_payload entries incs) rest)
      as (E1&E2&E3&hdr&Hh&E4); [lia..|].
    rewrite E1. cbn [ok_or mbind outcome_bind]. rewrite decide_True by done.
    rewrite E2. cbn [mbind outcome_bind]. rewrite E3. cbn [mbind outcome_bind]. rewrite E4.
    replace (Z.to_nat (zlen entries)) with (length entries) by (unfold zlen; lia).
    rewrite leaf_entries_payload by (done || lia).
    cbn [mbind outcome_bind]. rewrite with_includes_fst. do 2 f_equal.
    destruct Hincs as [->|[Hlen Hex]].
    + rewrite with_includes_nil. case_match eqn:E; [|done]. exfalso.
      apply existsb_includes, Exists_exists in E as (inc&Hin&Hne).
      apply elem_of_replicate in Hin as [-> _]. done.
    + rewrite with_includes_snd by done. by rewrite (proj2 (existsb_includes incs) Hex).
  - destruct Hn as (Hk&Hc&Hx&Hlen). destruct children as [|c0 children]; [done|].
    injection Hlen as Hlen. pose proof (zlen_nonneg keys). apply Forall_cons in Hc as [Hc0 Hc].
    unfold node_fields in Hf. destruct (internal_payload keys children) as [payload|e|] eqn:Ep; [|done..].
    cbn [mbind outcome_bind] in Hf. injection Hf as <-.
    destruct (body_header NODE_INTERNAL (zlen keys) c0 payload rest) as (E1&E2&E3&hdr&Hh&E4); [lia..|].
    rewrite E1. cbn [ok_or mbind outcome_bind]. rewrite decide_False, decide_True by done.
    rewrite E2. cbn [mbind outcome_bind]. rewrite E3. cbn [mbind outcome_bind]. rewrite E4.
    replace (Z.to_nat (zlen keys)) with (length keys) by (unfold zlen; lia).
    rewrite (internal_entries_payload keys children) by (done || lia).
    cbn [mbind outcome_bind]. by rewrite fst_zip, snd_zip by lia.
Qed.

(** A B+tree node that fits its page reads back.  Serializing any leaf or
    internal node whose body is within the page's capacity succeeds with an image
    of the page's size that carries the page id, and deserializing the image gives
    the node: keys (integers, text, booleans), row ids, include payloads, sibling
    and child links. *)
Theorem node_roundtrip n pid psize : node_ok n → 0 ≤ pid < 2 ^ 32 → body_len n ≤ body_capacity psize →
  ∃ img, serialize n pid psize = Ok img ∧ zlen img = psize ∧
    Page.page_id (mkPage img) = Ok pid ∧ deserialize (mkPage img) = Ok n.
Proof.
  intros Hn Hp Hl. destruct (node_fields_Ok n Hn) as (body&Hf&Hz).
  unfold body_capacity, PAGE_HEADER_SIZE in Hl. exists (image pid psize body).
  split_and!; [apply serialize_Ok|..]; [lia|done|..].
  - by destruct (image_body pid psize body) as (_&_&?); [lia|].
  - apply image_page_id; lia.
  - apply deserialize_image; [done..|lia].
Qed.

(** Replaying a logged leaf insertion rebuilds the leaf.  On the image of a
    leaf, the redo of an insertion at a position within the leaf yields the image of
    the leaf with the entry, and its include payload, at that position, whenever
    that leaf fits the page; a position beyond the end and an internal node are
    errors. *)
Theorem index_redo_exact entries incs next pid psize img slot k rid inc :
  let pos := Z.to_nat slot in
  let es' := insert_at pos (k, rid) entries in
  let leaf' := Leaf es' (insert_include pos (length es') inc incs) next in
  let redo := redo_index_insert_with_include (mkPage img) slot (encode_key k) rid inc psize in
  node_ok (Leaf entries incs next) → 0 ≤ pid < 2 ^ 32 → body_len (Leaf entries incs next) ≤ body_capacity psize →
  serialize (Leaf entries incs next) pid psize = Ok img → key_ok k →
  ((length entries < pos)%nat → ∃ m, redo = Err (Recovery m)) ∧
  ((pos ≤ length entries)%nat → node_ok leaf' → body_len leaf' ≤ body_capacity psize →
   ∃ page', redo = Ok page' ∧ serialize leaf' pid psize = Ok (data page') ∧ deserialize page' = Ok leaf').
Proof.
  cbv zeta. intros Hn Hp Hl Hs Hk. destruct (node_fields_Ok _ Hn) as (body&Hf&Hz).
  unfold body_capacity, PAGE_HEADER_SIZE in *.
  rewrite (serialize_Ok _ pid psize body) in Hs; [|lia|done]. injection Hs as <-.
  unfold redo_index_insert_with_include. rewrite (deserialize_image _ pid psize body) by (done || lia).
  cbn [mbind outcome_bind].
  pose proof (decode_encode_key [] k [] 0 Hk eq_refl) as Hd. simpl in Hd. rewrite app_nil_r in Hd.
  rewrite Hd. cbn [mbind outcome_bind]. split; intros Hpos.
  - rewrite decide_True by done. eauto.
  - intros Hn' Hl'. rewrite decide_False by lia. rewrite image_page_id by (done || lia). cbn [mbind outcome_bind].
    destruct (node_fields_Ok _ Hn') as (body'&Hf'&Hz').
    rewrite (serialize_Ok _ pid psize body') by (done || lia).
    eexists. split_and!; [done..|]. apply deserialize_image; [done..|lia].
Qed.

(** ** Witnesses *)

(** A covering leaf with an integer and a text key ([é] in UTF-8). *)
Definition w_leaf : Node :=
  Leaf [(KInt (-3), mkRowId 7 1); (KText [0xC3; 0xA9], mkRowId 8 2)] [[]; [1; 2]] INVALID_PAGE_ID.

Ltac node_ok_tac :=
  repeat first [split | apply Forall_nil_2 | apply Forall_cons_2];
  try solve [vm_compute; reflexivity | vm_compute; congruence | vm_compute; constructor].

Lemma w_leaf_ok : node_ok w_leaf.
Proof.
  split; [node_ok_tac|]. split; [node_ok_tac|]. split; [node_ok_tac|]. split; [node_ok_tac|].
  right. split; [reflexivity|]. apply Exists_cons_tl, Exists_cons_hd. discriminate.
Qed.

Definition w_image : list Z := Eval vm_compute in
  match serialize w_leaf 9 128 with Ok img => img | _ => [] end.

Lemma node_roundtrip_witness : ∃ img, serialize w_leaf 9 128 = Ok img ∧ deserialize (mkPage img) = Ok w_leaf.
Proof.
  destruct (node_roundtrip w_leaf 9 128) as (img&H1&_&_&H2).
  - exact w_leaf_ok.
  - lia.
  - vm_compute. discriminate.
  - exists img. split; [exact H1|exact H2].
Defined.

Lemma index_redo_exact_witness :
  ∃ page', redo_index_insert_with_include (mkPage w_image) 1 (encode_key (KBool true)) (mkRowId 5 5) [] 128 =
      Ok page' ∧
    deserialize page' = Ok (Leaf [(KInt (-3), mkRowId 7 1); (KBool true, mkRowId 5 5);
      (KText [0xC3; 0xA9], mkRowId 8 2)] [[]; []; [1; 2]] INVALID_PAGE_ID).
Proof.
  destruct (index_redo_exact [(KInt (-3), mkRowId 7 1); (KText [0xC3; 0xA9], mkRowId 8 2)] [[]; [1; 2]]
    INVALID_PAGE_ID 9 128 w_image 1 (KBool true) (mkRowId 5 5) []) as [_ H].
  - exact w_leaf_ok.
  - lia.
  - vm_compute. discriminate.
  - vm_compute. reflexivity.
  - exact I.
  - destruct H as (page'&H1&_&H2).
    + vm_compute. lia.
    + split; [node_ok_tac|]. split; [node_ok_tac|]. split; [node_ok_tac|]. split; [node_ok_tac|].
      right. split; [reflexivity|]. apply Exists_cons_tl, Exists_cons_tl, Exists_cons_hd. discriminate.
    + vm_compute. discriminate.
    + exists page'. split; [exact H1|exact H2].
Defined.
