(* ===== verification/LogPayload.v ===== *)
(** The redo and undo payloads of heap records: the insert payload of
    [src/heap.rs] and the decoders of [src/recovery.rs], with the proof that they
    invert what the log's writers ([Wal]) build. *)

From stdpp Require Import base numbers list.
From S2P Require Import Prelude Format Page PageSpec WalCodec Wal.

(** ** Inserted versions *)

Definition encode_insert_redo (xmin : Xid) (prev : option (PageId * Z)) (payload : list Z) : list Z :=
  let '(prev_page, prev_slot) := default (INVALID_PAGE_ID, 0) prev in
  u64_to_le xmin ++ u32_to_le prev_page ++ u16_to_le prev_slot ++ payload.

Definition decode_insert_redo (buf : list Z) : Result (Xid * option (PageId * Z) * list Z) :=
  if decide (zlen buf < 14) then Err (WalCorrupt 0)
  else
    xmin ← read_u64 buf 0;
    prev_page ← read_u32 buf 8;
    prev_slot ← read_u16 buf 12;
    payload ← slice buf 14 (zlen buf);
    Ok (xmin, if decide (prev_page = INVALID_PAGE_ID) then None else Some (prev_page, prev_slot), payload).

(** ** Stamps *)

Definition decode_xmax (buf : list Z) : Result Xid :=
  if decide (zlen buf = 8) then Ok (u64_from_le buf) else Err (WalCorrupt 0).

(** [(0..n).map(|i| u16 at base + 2 i)] *)
Fixpoint read_slots (n : nat) (buf : list Z) (base : Z) : Result (list Z) :=
  match n with
  | O => Ok []
  | S n => s ← read_u16 buf base; rest ← read_slots n buf (base + 2); Ok (s :: rest)
  end.

Definition decode_xmax_batch_redo (buf : list Z) : Result (Xid * list Z) :=
  if decide (zlen buf < 10) then Err (WalCorrupt 0)
  else
    xid ← read_u64 buf 0;
    n ← read_u16 buf 8;
    if decide (zlen buf < 10 + 2 * n) then Err (WalCorrupt 0)
    else slots ← read_slots (Z.to_nat n) buf 10; Ok (xid, slots).

Definition decode_xmax_batch_undo (buf : list Z) : Result (list Z) :=
  if decide (zlen buf < 2) then Err (WalCorrupt 0)
  else
    n ← read_u16 buf 0;
    if decide (zlen buf < 2 + 2 * n) then Err (WalCorrupt 0)
    else read_slots (Z.to_nat n) buf 2.

(** ** HOT updates on one page *)

Definition decode_hot_update_redo (buf : list Z) : Result (Xid * Z * Z * list Z) :=
  if decide (zlen buf < 12) then Err (WalCorrupt 0)
  else
    xid ← read_u64 buf 0;
    old_slot ← read_u16 buf 8;
    new_slot ← read_u16 buf 10;
    insert_redo ← slice buf 12 (zlen buf);
    Ok (xid, old_slot, new_slot, insert_redo).

Definition decode_hot_update_undo (buf : list Z) : Result (Z * Z) :=
  if decide (zlen buf < 4) then Err (WalCorrupt 0)
  else
    old_slot ← read_u16 buf 0;
    new_slot ← read_u16 buf 2;
    Ok (old_slot, new_slot).

(** ** Batches of insertions *)

Fixpoint insert_rows (n : nat) (buf : list Z) (pos : Z) : Result (list (Z * list Z)) :=
  match n with
  | O => Ok []
  | S n =>
      if decide (zlen buf < pos + 6) then Err (WalCorrupt 0)
      else
        slot ← read_u16 buf pos;
        redo_len ← read_u32 buf (pos + 2);
        let pos := pos + 6 in
        if decide (zlen buf < pos + redo_len) then Err (WalCorrupt 0)
        else
          row ← slice buf pos (pos + redo_len);
          rest ← insert_rows n buf (pos + redo_len);
          Ok ((slot, row) :: rest)
  end.

Definition decode_insert_batch_redo (buf : list Z) : Result (list (Z * list Z)) :=
  if decide (zlen buf < 10) then Err (WalCorrupt 0)
  else n ← read_u16 buf 8; insert_rows (Z.to_nat n) buf 10.

Definition decode_insert_batch_undo (buf : list Z) : Result (list Z) :=
  if decide (zlen buf < 2) then Err (WalCorrupt 0)
  else
    n ← read_u16 buf 0;
    if decide (zlen buf < 2 + 2 * n) then Err (WalCorrupt 0)
    else read_slots (Z.to_nat n) buf 2.

(** ** Batches of cross-page HOT heads *)

(** [(slot, page, slot)] at [base], [base + 8], ... *)
Fixpoint read_entries (n : nat) (buf : list Z) (base : Z) : Result (list (Z * Z * Z)) :=
  match n with
  | O => Ok []
  | S n =>
      a ← read_u16 buf base;
      p ← read_u32 buf (base + 2);
      b ← read_u16 buf (base + 6);
      rest ← read_entries n buf (base + 8);
      Ok ((a, p, b) :: rest)
  end.

Definition decode_hot_xpage_batch_redo (buf : list Z) : Result (Xid * list (Z * Z * Z)) :=
  if decide (zlen buf < 10) then Err (WalCorrupt 0)
  else
    xid ← read_u64 buf 0;
    n ← read_u16 buf 8;
    if decide (zlen buf < 10 + 8 * n) then Err (WalCorrupt 0)
    else entries ← read_entries (Z.to_nat n) buf 10; Ok (xid, entries).

Definition decode_hot_xpage_batch_undo_entries (buf : list Z) : Result (list (Z * Z * Z)) :=
  if decide (zlen buf < 2) then Err (WalCorrupt 0)
  else
    n ← read_u16 buf 0;
    if decide (zlen buf < 2 + 8 * n) then Err (WalCorrupt 0)
    else read_entries (Z.to_nat n) buf 2.

(** ** Round trips *)

Definition slot_ok (s : Z) : Prop := 0 ≤ s < 2 ^ 16.
Definition pid_ok (p : Z) : Prop := 0 ≤ p < 2 ^ 32.
Definition xid_ok (x : Z) : Prop := 0 ≤ x < 2 ^ 64.

Lemma rd_le16 a v c off : slot_ok v → off = zlen a → rd (a ++ u16_to_le v ++ c) off 2 = v.
Proof. intros Hv ->. rd_field 2%nat. exact Hv. Qed.
Lemma rd_le32 a v c off : pid_ok v → off = zlen a → rd (a ++ u32_to_le v ++ c) off 4 = v.
Proof. intros Hv ->. rd_field 4%nat. exact Hv. Qed.
Lemma rd_le64 a v c off : xid_ok v → off = zlen a → rd (a ++ u64_to_le v ++ c) off 8 = v.
Proof. intros Hv ->. rd_field 8%nat. exact Hv. Qed.

Lemma read16_at a v c off : slot_ok v → off = zlen a → read_u16 (a ++ u16_to_le v ++ c) off = Ok v.
Proof.
  intros Hv ->. pose proof (zlen_nonneg a). pose proof (zlen_nonneg c).
  rewrite read_u16_Ok by len. by rewrite rd_le16.
Qed.
Lemma read32_at a v c off : pid_ok v → off = zlen a → read_u32 (a ++ u32_to_le v ++ c) off = Ok v.
Proof.
  intros Hv ->. pose proof (zlen_nonneg a). pose proof (zlen_nonneg c).
  rewrite read_u32_Ok by len. by rewrite rd_le32.
Qed.
Lemma read64_at a v c off : xid_ok v → off = zlen a → read_u64 (a ++ u64_to_le v ++ c) off = Ok v.
Proof.
  intros Hv ->. pose proof (zlen_nonneg a). pose proof (zlen_nonneg c).
  rewrite read_u64_Ok by len. by rewrite rd_le64.
Qed.
Lemma read16_head v c : slot_ok v → read_u16 (u16_to_le v ++ c) 0 = Ok v.
Proof. intros. by apply (read16_at []). Qed.
Lemma read64_head v c : xid_ok v → read_u64 (u64_to_le v ++ c) 0 = Ok v.
Proof. intros. by apply (read64_at []). Qed.
Lemma slice_tail {E} (a c : list Z) off : off = zlen a → slice (E:=E) (a ++ c) off (zlen (a ++ c)) = Ok c.
Proof.
  intros ->. pose proof (zlen_nonneg a). pose proof (zlen_nonneg c).
  rewrite slice_Ok by len. f_equal. rewrite sub_app_r by lia. apply sub_all_eq; len.
Qed.

Lemma insert_redo_roundtrip xmin prev payload : xid_ok xmin →
  (∀ p s, prev = Some (p, s) → pid_ok p ∧ p ≠ INVALID_PAGE_ID ∧ slot_ok s) →
  decode_insert_redo (encode_insert_redo xmin prev payload) = Ok (xmin, prev, payload).
Proof.
  intros Hx Hp. unfold decode_insert_redo, encode_insert_redo.
  assert (∃ pp ps, default (INVALID_PAGE_ID, 0) prev = (pp, ps) ∧ pid_ok pp ∧ slot_ok ps ∧
    (if decide (pp = INVALID_PAGE_ID) then None else Some (pp, ps)) = prev) as (pp&ps&->&Hpp&Hps&Eprev).
  { destruct prev as [[p s]|].
    - destruct (Hp p s eq_refl) as (?&?&?). exists p, s. by rewrite decide_False.
    - exists INVALID_PAGE_ID, 0. by split_and!. }
  pose proof (zlen_nonneg payload). rewrite decide_False by len.
  rewrite read64_head by done. cbn [mbind outcome_bind].
  rewrite (read32_at (u64_to_le xmin)) by (done || len). cbn [mbind outcome_bind].
  rewrite (app_assoc (u64_to_le xmin)). rewrite (read16_at (u64_to_le xmin ++ u32_to_le pp)) by (done || len).
  cbn [mbind outcome_bind]. rewrite (app_assoc (u64_to_le xmin ++ u32_to_le pp)).
  rewrite slice_tail by len. cbn [mbind outcome_bind]. by rewrite Eprev.
Qed.

Lemma read_slots_at slots a c base : Forall slot_ok slots → base = zlen a →
  read_slots (length slots) (a ++ concat (u16_to_le <$> slots) ++ c) base = Ok slots.
Proof.
  intros Hs. revert a base. induction Hs as [|s slots Hs0 Hs IH]; intros a base ->; [done|].
  cbn [length read_slots]. rewrite fmap_cons. cbn [concat]. rewrite <- app_assoc.
  rewrite read16_at by done. cbn [mbind outcome_bind]. rewrite (app_assoc a).
  by rewrite IH by len.
Qed.

Lemma zlen_slots slots : zlen (concat (u16_to_le <$> slots)) = 2 * zlen slots.
Proof. induction slots as [|s slots IH]; [done|]. rewrite fmap_cons. cbn [concat]. len. Qed.

Lemma slots_roundtrip slots : Forall slot_ok slots → zlen slots < 2 ^ 16 →
  decode_xmax_batch_undo (slots_payload slots) = Ok slots ∧
  decode_insert_batch_undo (slots_payload slots) = Ok slots.
Proof.
  intros Hs Hl. pose proof (zlen_nonneg slots). pose proof (zlen_slots slots).
  assert (decode_xmax_batch_undo (slots_payload slots) = Ok slots) as E; [|by split].
  unfold decode_xmax_batch_undo, slots_payload. rewrite u16_small by lia.
  rewrite decide_False by len. rewrite read16_head by (done || (unfold slot_ok; lia)).
  cbn [mbind outcome_bind]. rewrite decide_False by len.
  replace (Z.to_nat (zlen slots)) with (length slots) by (unfold zlen; lia).
  pose proof (read_slots_at slots (u16_to_le (zlen slots)) [] 2 Hs) as E.
  rewrite app_nil_r in E. apply E. len.
Qed.

Lemma xmax_batch_roundtrip xid slots : xid_ok xid → Forall slot_ok slots → zlen slots < 2 ^ 16 →
  decode_xmax_batch_redo (xmax_batch_redo xid slots) = Ok (xid, slots).
Proof.
  intros Hx Hs Hl. pose proof (zlen_nonneg slots). pose proof (zlen_slots slots).
  unfold decode_xmax_batch_redo, xmax_batch_redo, slots_payload. rewrite u16_small by lia.
  rewrite decide_False by len. rewrite read64_head by done. cbn [mbind outcome_bind].
  rewrite (read16_at (u64_to_le xid)) by (len || (unfold slot_ok; lia)). cbn [mbind outcome_bind].
  rewrite decide_False by len.
  replace (Z.to_nat (zlen slots)) with (length slots) by (unfold zlen; lia).
  pose proof (read_slots_at slots (u64_to_le xid ++ u16_to_le (zlen slots)) [] 10 Hs) as E.
  rewrite app_nil_r, <- app_assoc in E. rewrite E by len. done.
Qed.

Lemma hot_update_roundtrip xid old_slot new_slot redo : xid_ok xid → slot_ok old_slot → slot_ok new_slot →
  decode_hot_update_redo (hot_update_redo xid old_slot new_slot redo) = Ok (xid, old_slot, new_slot, redo) ∧
  decode_hot_update_undo (hot_update_undo old_slot new_slot) = Ok (old_slot, new_slot).
Proof.
  intros Hx Ho Hn. pose proof (zlen_nonneg redo). split.
  - unfold decode_hot_update_redo, hot_update_redo. rewrite decide_False by len.
    rewrite read64_head by done. cbn [mbind outcome_bind].
    rewrite (read16_at (u64_to_le xid) old_slot _ 8) by (done || len). cbn [mbind outcome_bind].
    rewrite (app_assoc (u64_to_le xid)), (read16_at (u64_to_le xid ++ u16_to_le old_slot)) by (done || len).
    cbn [mbind outcome_bind]. rewrite (app_assoc (u64_to_le xid ++ u16_to_le old_slot)).
    rewrite slice_tail by len. done.
  - unfold decode_hot_update_undo, hot_update_undo. rewrite decide_False by len.
    rewrite read16_head by done. cbn [mbind outcome_bind].
    rewrite <- (app_nil_r (u16_to_le new_slot)), (read16_at (u16_to_le old_slot)) by (done || len). done.
Qed.

Lemma insert_rows_at rows a c pos :
  Forall (λ r : Z * list Z, slot_ok r.1 ∧ zlen r.2 < 2 ^ 32) rows → pos = zlen a →
  insert_rows (length rows)
    (a ++ concat ((λ r : Z * list Z, u16_to_le r.1 ++ u32_to_le (u32 (zlen r.2)) ++ r.2) <$> rows) ++ c) pos =
  Ok rows.
Proof.
  intros Hr. revert a pos. induction Hr as [|[slot row] rows [Hs Hl] Hr IH]; intros a pos ->; [done|].
  simpl in Hs, Hl. pose proof (zlen_nonneg a). pose proof (zlen_nonneg row).
  cbn [length insert_rows]. rewrite fmap_cons. cbn [concat fst snd]. rewrite u32_small by lia.
  set (rest := concat _). pose proof (zlen_nonneg rest). pose proof (zlen_nonneg c).
  rewrite <- !app_assoc. rewrite decide_False by len.
  rewrite read16_at by done. cbn [mbind outcome_bind]. rewrite (app_assoc a).
  rewrite read32_at by (len || (unfold pid_ok; lia)). cbn [mbind outcome_bind].
  rewrite (app_assoc _ (u32_to_le (zlen row))). rewrite decide_False by len.
  rewrite slice_Ok by len. cbn [mbind outcome_bind].
  rewrite sub_app_r, sub_app_l by len. rewrite sub_all_eq by len.
  rewrite (app_assoc _ row). rewrite IH by len. done.
Qed.

Lemma insert_batch_roundtrip xid rows :
  Forall (λ r : Z * list Z, slot_ok r.1 ∧ zlen r.2 < 2 ^ 32) rows → zlen rows < 2 ^ 16 →
  decode_insert_batch_redo (insert_batch_redo xid rows) = Ok rows.
Proof.
  intros Hr Hl. pose proof (zlen_nonneg rows). unfold decode_insert_batch_redo, insert_batch_redo.
  rewrite u16_small by lia. set (rest := concat _). pose proof (zlen_nonneg rest).
  rewrite decide_False by len. rewrite (read16_at (u64_to_le xid)) by (len || (unfold slot_ok; lia)).
  cbn [mbind outcome_bind]. replace (Z.to_nat (zlen rows)) with (length rows) by (unfold zlen; lia).
  pose proof (insert_rows_at rows (u64_to_le xid ++ u16_to_le (zlen rows)) [] 10 Hr) as E.
  rewrite app_nil_r, <- app_assoc in E. apply E. len.
Qed.

Lemma read_entries_at (es : list (Z * Z * Z)) a c base :
  Forall (λ '(x, p, y), slot_ok x ∧ pid_ok p ∧ slot_ok y) es → base = zlen a →
  read_entries (length es)
    (a ++ concat ((λ '(x, p, y), u16_to_le x ++ u32_to_le p ++ u16_to_le y) <$> es) ++ c) base = Ok es.
Proof.
  intros He. revert a base. induction He as [|[[x p] y] es (Hx&Hp&Hy) He IH]; intros a base ->; [done|].
  cbn [length read_entries]. rewrite fmap_cons. cbn [concat]. rewrite <- !app_assoc.
  rewrite (read16_at a x _ (zlen a)) by done. cbn [mbind outcome_bind]. rewrite (app_assoc a).
  rewrite read32_at by (done || len). cbn [mbind outcome_bind]. rewrite (app_assoc _ (u32_to_le p)).
  rewrite read16_at by (done || len). cbn [mbind outcome_bind]. rewrite (app_assoc _ (u16_to_le y)).
  rewrite IH by len. done.
Qed.

Definition entry_ok (e : (Z * Z * Z * Z * Z)) : Prop :=
  let '(old_slot, new_page, new_slot, prev_page, prev_slot) := e in
  slot_ok old_slot ∧ pid_ok new_page ∧ slot_ok new_slot ∧ pid_ok prev_page ∧ slot_ok prev_slot.

(** The two halves of an entry: where the new version is, and what to restore. *)
Definition entry_new (e : (Z * Z * Z * Z * Z)) : Z * Z * Z :=
  let '(old_slot, new_page, new_slot, _, _) := e in (old_slot, new_page, new_slot).
Definition entry_saved (e : (Z * Z * Z * Z * Z)) : Z * Z * Z :=
  let '(old_slot, _, _, prev_page, prev_slot) := e in (old_slot, prev_page, prev_slot).

Lemma zlen_entries (es : list (Z * Z * Z)) :
  zlen (concat ((λ '(x, p, y), u16_to_le x ++ u32_to_le p ++ u16_to_le y) <$> es)) = 8 * zlen es.
Proof. induction es as [|[[x p] y] es IH]; [done|]. rewrite fmap_cons. cbn [concat]. len. Qed.

Lemma hot_xpage_batch_roundtrip xid entries : xid_ok xid → Forall entry_ok entries → zlen entries < 2 ^ 16 →
  decode_hot_xpage_batch_redo (hot_xpage_batch_redo xid entries) = Ok (xid, entry_new <$> entries) ∧
  decode_hot_xpage_batch_undo_entries (hot_xpage_batch_undo entries) = Ok (entry_saved <$> entries).
Proof.
  intros Hx He Hl. pose proof (zlen_nonneg entries).
  assert (∀ f : (Z * Z * Z * Z * Z) → Z * Z * Z, zlen (f <$> entries) = zlen entries) as Hz.
  { intros f. unfold zlen. by rewrite length_fmap. }
  assert (Forall (λ '(x, p, y), slot_ok x ∧ pid_ok p ∧ slot_ok y) (entry_new <$> entries)) as Hnew.
  { apply Forall_fmap. eapply Forall_impl; [exact He|]. by intros [[[[? ?] ?] ?] ?] (?&?&?&?&?). }
  assert (Forall (λ '(x, p, y), slot_ok x ∧ pid_ok p ∧ slot_ok y) (entry_saved <$> entries)) as Hsaved.
  { apply Forall_fmap. eapply Forall_impl; [exact He|]. by intros [[[[? ?] ?] ?] ?] (?&?&?&?&?). }
  assert (hot_xpage_batch_redo xid entries = u64_to_le xid ++ u16_to_le (zlen entries) ++
    concat ((λ '(x, p, y), u16_to_le x ++ u32_to_le p ++ u16_to_le y) <$> (entry_new <$> entries))) as ->.
  { unfold hot_xpage_batch_redo. rewrite u16_small by lia. rewrite <- list_fmap_compose.
    do 3 f_equal. apply list_fmap_ext. by intros _ [[[[? ?] ?] ?] ?] _. }
  assert (hot_xpage_batch_undo entries = u16_to_le (zlen entries) ++
    concat ((λ '(x, p, y), u16_to_le x ++ u32_to_le p ++ u16_to_le y) <$> (entry_saved <$> entries))) as ->.
  { unfold hot_xpage_batch_undo. rewrite u16_small by lia. rewrite <- list_fmap_compose.
    do 2 f_equal. apply list_fmap_ext. by intros _ [[[[? ?] ?] ?] ?] _. }
  pose proof (zlen_entries (entry_new <$> entries)) as Z1. pose proof (zlen_entries (entry_saved <$> entries)) as Z2.
  rewrite Hz in Z1, Z2. split.
  - unfold decode_hot_xpage_batch_redo. rewrite decide_False by len.
    rewrite read64_head by done. cbn [mbind outcome_bind].
    rewrite (read16_at (u64_to_le xid)) by (len || (unfold slot_ok; lia)). cbn [mbind outcome_bind].
    rewrite decide_False by len.
    replace (Z.to_nat (zlen entries)) with (length (entry_new <$> entries)) by (rewrite length_fmap; unfold zlen; lia).
    pose proof (read_entries_at (entry_new <$> entries) (u64_to_le xid ++ u16_to_le (zlen entries)) [] 10 Hnew) as E.
    rewrite app_nil_r, <- app_assoc in E. rewrite E by len. done.
  - unfold decode_hot_xpage_batch_undo_entries. rewrite decide_False by len.
    rewrite read16_head by (done || (unfold slot_ok; lia)). cbn [mbind outcome_bind].
    rewrite decide_False by len.
    replace (Z.to_nat (zlen entries)) with (length (entry_saved <$> entries)) by (rewrite length_fmap; unfold zlen; lia).
    pose proof (read_entries_at (entry_saved <$> entries) (u16_to_le (zlen entries)) [] 2 Hsaved) as E.
    rewrite app_nil_r in E. apply E. len.
Qed.
