(* ===== verification/Recovery.v ===== *)
(** Crash recovery ([src/recovery.rs]): analysis of the log, redo of committed
    mini-transactions, undo of incomplete ones and of incomplete user
    transactions, on a buffer pool over the data file.

    A page that a handler has fetched is a local copy until [write_page]; an early
    return by [?] leaves the page pinned, as in the source. *)

From stdpp Require Import base numbers list gmap sets strings.
From S2P Require Import Prelude Format Page WalCodec Wal BufferPool Control Txn BTreeNode LogPayload.
Open Scope op_scope.

(** [Ok] and [TupleDeleted] continue, the latter with the page as it was. *)
Definition unless_deleted (p : SlottedPage) (r : Result SlottedPage) : Result SlottedPage :=
  match r with
  | Err (TupleDeleted _ _) => Ok p
  | r => r
  end.

(** [set_xmax] that tolerates a deleted slot. *)
Definition stamp (p : SlottedPage) (slot : Z) (xmax : Xid) : Result SlottedPage :=
  unless_deleted p (set_xmax p slot xmax).

Section recovery.
Context `{!Crc32}.

(** The system calls of the pool, and the page size. *)
Variable io : PoolCalls.
Variable page_size : Z.

Definition delete_slot (p : SlottedPage) (slot : Z) : Result SlottedPage :=
  unless_deleted p (delete p slot).

(** The page's checksum does not match. *)
Definition torn (p : SlottedPage) : Result bool :=
  match verify_crc p with
  | Ok _ => Ok false
  | Err _ => Ok true
  | Panic => Panic
  end.

Definition blank_page (pid : PageId) : op BufferPool SlottedPage :=
  lift (Page.new pid PAGE_TYPE_HEAP page_size).

Definition fetch_or_create (pid : PageId) : op BufferPool SlottedPage := λ p,
  match fetch_page io pid p with
  | (Ok page, p) =>
      (t <- lift (torn page);;
       if (t : bool) then unpin pid;; blank_page pid else op_ret page) p
  | (Err (PageNotFound _), p) => (ensure_page_allocated io pid;; blank_page pid) p
  | (Err e, p) => (Err e, p)
  | (Panic, p) => (Panic, p)
  end.

(** Fetch a page, change the copy, write it back and unpin; [None] is a change that
    is skipped. *)
Definition on_page (pid : PageId) (f : SlottedPage → Result (option SlottedPage)) : op BufferPool unit :=
  page <- fetch_or_create pid;;
  o <- lift (f page);;
  match o with
  | Some page => write_page page;; unpin pid
  | None => unpin pid
  end.

(** A change that is skipped when the page is at or past the record's LSN, and
    otherwise stamps it with that LSN. *)
Definition lsn_gated (r : WalRecord) (f : SlottedPage → Result SlottedPage) (page : SlottedPage)
    : Result (option SlottedPage) :=
  l ← lsn page;
  if decide (w_lsn r ≤ l) then Ok None
  else
    page ← f page;
    page ← set_lsn page (w_lsn r);
    Ok (Some page).

(** ** Redo *)

Definition redo_fpi (r : WalRecord) : op BufferPool unit :=
  restore_page_image io (w_page_id r) (w_redo r).

Definition redo_index (r : WalRecord) : op BufferPool unit :=
  img <- lift (set_lsn (from_bytes_unchecked (w_redo r)) (w_lsn r));;
  restore_page_image io (w_page_id r) (data img).

(** The page-allocation record: a blank page unless the page is already past it. *)
Definition redo_alloc (r : WalRecord) : op BufferPool unit :=
  ensure_page_allocated io (w_page_id r);;
  λ p, match (match read_page (w_page_id r) p with
              | (Ok page, _) => lsn page
              | (Err _, _) => Ok 0
              | (Panic, _) => Panic
              end) with
       | Ok existing_lsn =>
           if decide (existing_lsn < w_lsn r) then
             (blank <- blank_page (w_page_id r);;
              blank <- lift (set_lsn blank (w_lsn r));;
              write_page blank) p
           else (Ok tt, p)
       | Err e => (Err e, p)
       | Panic => (Panic, p)
       end.

Definition insert_from (page : SlottedPage) (insert_redo : list Z) : Result SlottedPage :=
  '(xmin, prev, payload) ← decode_insert_redo insert_redo;
  '(_, page) ← insert_versioned page payload xmin 0 prev;
  Ok page.

(** Not gated by the page's LSN: skipped when the slot exists. *)
Definition redo_insert_page (r : WalRecord) (page : SlottedPage) : Result (option SlottedPage) :=
  sc ← slot_count_pub page;
  if decide (w_slot r < sc) then Ok None
  else
    page ← insert_from page (w_redo r);
    page ← set_lsn page (w_lsn r);
    Ok (Some page).

Definition redo_insert (r : WalRecord) : op BufferPool unit :=
  if decide (w_slot r = U16_MAX) then redo_alloc r
  else on_page (w_page_id r) (redo_insert_page r).

Definition redo_update_page (r : WalRecord) : SlottedPage → Result (option SlottedPage) :=
  lsn_gated r (λ page, xmax ← decode_xmax (w_redo r); set_xmax page (w_slot r) xmax).

Definition redo_delete_page (r : WalRecord) : SlottedPage → Result (option SlottedPage) :=
  lsn_gated r (λ page, delete page (w_slot r)).

Definition redo_vacuum_page (r : WalRecord) : SlottedPage → Result (option SlottedPage) :=
  lsn_gated r (λ page,
    if decide (w_slot r = U16_MAX) then Ok (from_bytes_unchecked (w_redo r))
    else mark_dead page (w_slot r)).

Definition redo_xmax_batch_page (r : WalRecord) (xid : Xid) (slots : list Z)
    : SlottedPage → Result (option SlottedPage) :=
  lsn_gated r (λ page, for_each (λ page slot, stamp page slot xid) page slots).

(** One cross-page HOT head: the stamp and the forwarding pointer. *)
Definition xpage_head (xid : Xid) (page : SlottedPage) (e : Z * Z * Z) : Result SlottedPage :=
  let '(old_slot, new_page_id, new_slot) := e in
  page ← stamp page old_slot xid;
  unless_deleted page (set_hot_xpage page old_slot new_page_id new_slot).

Definition redo_hot_xpage_head_page (r : WalRecord) (xid : Xid) (e : Z * Z * Z)
    : SlottedPage → Result (option SlottedPage) :=
  lsn_gated r (λ page, xpage_head xid page e).

Definition redo_hot_update_page (r : WalRecord) (xid : Xid) (old_slot new_slot : Z) (insert_redo : list Z)
    : SlottedPage → Result (option SlottedPage) :=
  lsn_gated r (λ page,
    page ← stamp page old_slot xid;
    page ← unless_deleted page (set_hot_next page old_slot new_slot);
    sc ← slot_count_pub page;
    if decide (sc ≤ new_slot) then insert_from page insert_redo else Ok page).

Definition redo_insert_batch_page (r : WalRecord) (rows : list (Z * list Z))
    : SlottedPage → Result (option SlottedPage) :=
  lsn_gated r (λ page, for_each (λ page row,
    sc ← slot_count_pub page;
    if decide (sc ≤ row.1) then insert_from page row.2 else Ok page) page rows).

Definition redo_hot_xpage_batch_page (r : WalRecord) (xid : Xid) (entries : list (Z * Z * Z))
    : SlottedPage → Result (option SlottedPage) :=
  lsn_gated r (λ page, for_each (xpage_head xid) page entries).

Definition redo_xmax_batch (r : WalRecord) : op BufferPool unit :=
  d <- lift (decode_xmax_batch_redo (w_redo r));;
  on_page (w_page_id r) (redo_xmax_batch_page r d.1 d.2).

Definition redo_hot_xpage_head (r : WalRecord) : op BufferPool unit :=
  if decide (zlen (w_redo r) < 16) then fail (WalCorrupt (w_lsn r))
  else
    xid <- lift (read_u64 (w_redo r) 0);;
    old_slot <- lift (read_u16 (w_redo r) 8);;
    new_page_id <- lift (read_u32 (w_redo r) 10);;
    new_slot <- lift (read_u16 (w_redo r) 14);;
    on_page (w_page_id r) (redo_hot_xpage_head_page r xid (old_slot, new_page_id, new_slot)).

Definition redo_hot_update (r : WalRecord) : op BufferPool unit :=
  d <- lift (decode_hot_update_redo (w_redo r));;
  let '(xid, old_slot, new_slot, insert_redo) := d in
  on_page (w_page_id r) (redo_hot_update_page r xid old_slot new_slot insert_redo).

(** The logical index record: key, row id and, in newer records, include bytes. *)
Definition redo_index_insert_page (r : WalRecord) (page : SlottedPage) : Result (option SlottedPage) :=
  key_len ← read_u16 (w_redo r) 0;
  key_bytes ← slice (w_redo r) 2 (2 + key_len);
  rid_page ← read_u32 (w_redo r) (2 + key_len);
  rid_slot ← read_u16 (w_redo r) (6 + key_len);
  let base_len := 8 + key_len in
  include_bytes ←
    (if decide (base_len + 4 ≤ zlen (w_redo r)) then
       inc_len ← read_u32 (w_redo r) base_len;
       if decide (base_len + 4 + inc_len ≤ zlen (w_redo r)) then
         slice (w_redo r) (base_len + 4) (base_len + 4 + inc_len)
       else Ok []
     else Ok []);
  match redo_index_insert_with_include page (w_slot r) key_bytes (mkRowId rid_page rid_slot)
          include_bytes page_size with
  | Ok page => page ← set_lsn page (w_lsn r); Ok (Some page)
  | Err _ => Ok None
  | Panic => Panic
  end.

Definition redo_index_insert (r : WalRecord) : op BufferPool unit := λ p,
  match fetch_page io (w_page_id r) p with
  | (Ok page, p) =>
      (l <- lift (lsn page);;
       if decide (w_lsn r ≤ l) then unpin (w_page_id r)
       else if decide (zlen (w_redo r) < 2) then unpin (w_page_id r);; fail (WalCorrupt (w_lsn r))
       else
         key_len <- lift (read_u16 (w_redo r) 0);;
         if decide (zlen (w_redo r) < 2 + key_len + 6) then
           unpin (w_page_id r);; fail (WalCorrupt (w_lsn r))
         else
           o <- lift (redo_index_insert_page r page);;
           match o with
           | Some page => write_page page;; unpin (w_page_id r)
           | None => unpin (w_page_id r)
           end) p
  | (Err (PageNotFound _), p) => (Ok tt, p)
  | (Err e, p) => (Err e, p)
  | (Panic, p) => (Panic, p)
  end.

Definition redo_insert_batch (r : WalRecord) : op BufferPool unit :=
  rows <- lift (decode_insert_batch_redo (w_redo r));;
  on_page (w_page_id r) (redo_insert_batch_page r rows).

Definition redo_hot_xpage_batch (r : WalRecord) : op BufferPool unit :=
  d <- lift (decode_hot_xpage_batch_redo (w_redo r));;
  on_page (w_page_id r) (redo_hot_xpage_batch_page r d.1 d.2).

Definition redo_record (r : WalRecord) : op BufferPool unit :=
  let ty := w_rec_type r in
  if decide (ty = WAL_FPI) then redo_fpi r
  else if decide (ty = WAL_INDEX) then redo_index r
  else if decide (ty = WAL_INSERT) then redo_insert r
  else if decide (ty = WAL_UPDATE) then on_page (w_page_id r) (redo_update_page r)
  else if decide (ty = WAL_DELETE) then on_page (w_page_id r) (redo_delete_page r)
  else if decide (ty = WAL_VACUUM) then on_page (w_page_id r) (redo_vacuum_page r)
  else if decide (ty = WAL_XMAX_BATCH) then redo_xmax_batch r
  else if decide (ty = WAL_HOT_XPAGE_HEAD) then redo_hot_xpage_head r
  else if decide (ty = WAL_HOT_UPDATE) then redo_hot_update r
  else if decide (ty = WAL_INDEX_INSERT) then redo_index_insert r
  else if decide (ty = WAL_INSERT_BATCH) then redo_insert_batch r
  else if decide (ty = WAL_HOT_XPAGE_BATCH) then redo_hot_xpage_batch r
  else op_ret tt.

(** ** Undo of a record *)

(** Undo changes are written without an LSN; [resealed] recomputes the checksum. *)
Definition unstamped (f : SlottedPage → Result SlottedPage) (page : SlottedPage)
    : Result (option SlottedPage) :=
  page ← f page; Ok (Some page).
Definition resealed (f : SlottedPage → Result SlottedPage) : SlottedPage → Result (option SlottedPage) :=
  unstamped (λ page, page ← f page; recompute_crc page).

(** Restore the version pointer of an old slot and make it live again. *)
Definition xpage_restore (page : SlottedPage) (e : Z * Z * Z) : Result SlottedPage :=
  let '(old_slot, saved_prev_page, saved_prev_slot) := e in
  page ← unless_deleted page (restore_prev_and_hot_next page old_slot saved_prev_page saved_prev_slot);
  stamp page old_slot 0.

(** Delete the new version, then unlink and revive the old one. *)
Definition hot_update_revert (old_slot new_slot : Z) (page : SlottedPage) : Result SlottedPage :=
  page ← delete_slot page new_slot;
  page ← unless_deleted page (set_hot_next page old_slot HOT_NEXT_NONE);
  stamp page old_slot 0.

Definition undo_insert (r : WalRecord) : op BufferPool unit :=
  if decide (w_slot r = U16_MAX) then op_ret tt
  else on_page (w_page_id r) (unstamped (λ page, delete_slot page (w_slot r))).

Definition undo_update (r : WalRecord) : op BufferPool unit :=
  on_page (w_page_id r) (resealed (λ page,
    old_xmax ← decode_xmax (w_undo r); stamp page (w_slot r) old_xmax)).

Definition undo_xmax_batch (r : WalRecord) : op BufferPool unit :=
  slots <- lift (decode_xmax_batch_undo (w_undo r));;
  on_page (w_page_id r) (resealed (λ page, for_each (λ page slot, stamp page slot 0) page slots)).

Definition undo_delete (r : WalRecord) : op BufferPool unit :=
  on_page (w_page_id r) (unstamped (λ page, '(_, page) ← insert page (w_undo r); Ok page)).

Definition undo_hot_xpage_head (r : WalRecord) : op BufferPool unit :=
  if decide (zlen (w_undo r) < 8) then fail (WalCorrupt (w_lsn r))
  else
    old_slot <- lift (read_u16 (w_undo r) 0);;
    saved_prev_page <- lift (read_u32 (w_undo r) 2);;
    saved_prev_slot <- lift (read_u16 (w_undo r) 6);;
    on_page (w_page_id r)
      (resealed (λ page, xpage_restore page (old_slot, saved_prev_page, saved_prev_slot))).

Definition undo_insert_batch (r : WalRecord) : op BufferPool unit :=
  slots <- lift (decode_insert_batch_undo (w_undo r));;
  on_page (w_page_id r) (unstamped (λ page, for_each delete_slot page slots)).

Definition undo_hot_xpage_batch (r : WalRecord) : op BufferPool unit :=
  entries <- lift (decode_hot_xpage_batch_undo_entries (w_undo r));;
  on_page (w_page_id r) (resealed (λ page, for_each xpage_restore page entries)).

Definition undo_hot_update (r : WalRecord) : op BufferPool unit :=
  d <- lift (decode_hot_update_undo (w_undo r));;
  on_page (w_page_id r) (resealed (hot_update_revert d.1 d.2)).

Definition undo_record (r : WalRecord) : op BufferPool unit :=
  let ty := w_rec_type r in
  if decide (ty = WAL_INSERT) then undo_insert r
  else if decide (ty = WAL_UPDATE) then undo_update r
  else if decide (ty = WAL_XMAX_BATCH) then undo_xmax_batch r
  else if decide (ty = WAL_DELETE) then undo_delete r
  else if decide (ty = WAL_HOT_XPAGE_HEAD) then undo_hot_xpage_head r
  else if decide (ty = WAL_INSERT_BATCH) then undo_insert_batch r
  else if decide (ty = WAL_HOT_XPAGE_BATCH) then undo_hot_xpage_batch r
  else if decide (ty = WAL_HOT_UPDATE) then undo_hot_update r
  else op_ret tt.

(** ** The passes *)

Record RecoveryStats := mkStats {
  records_scanned : Z;
  records_redone : Z;
  records_undone : Z;
  incomplete_txns : Z;
  incomplete_user_txns : Z;
}.

(** Ids of the records of a type. *)
Definition ids_of (ty : Z) (rs : list WalRecord) : gset Z :=
  list_to_set (w_mini_txn_id <$> filter (λ r, w_rec_type r = ty) rs).

Definition relevant (ckpt_lsn : Lsn) (rs : list WalRecord) : list WalRecord :=
  filter (λ r, ckpt_lsn ≤ w_lsn r ∨ ckpt_lsn = INVALID_LSN) rs.

(** The committed mini-transactions, and those that neither committed nor
    aborted. *)
Definition committed_minis (rs : list WalRecord) : gset Z := ids_of WAL_COMMIT rs.
Definition incomplete_minis (rs : list WalRecord) : gset Z :=
  (ids_of WAL_BEGIN rs ∖ ids_of WAL_COMMIT rs) ∖ ids_of WAL_ABORT rs.
Definition incomplete_users (rs : list WalRecord) : gset Z :=
  (ids_of WAL_TXN_BEGIN rs ∖ ids_of WAL_TXN_COMMIT rs) ∖ ids_of WAL_TXN_ABORT rs.

(** Run and count; an error is logged and skipped. *)
Definition attempt (m : op BufferPool unit) : op BufferPool Z := λ p,
  match m p with
  | (Ok _, p) => (Ok 1, p)
  | (Err _, p) => (Ok 0, p)
  | (Panic, p) => (Panic, p)
  end.

Fixpoint tally {A} (f : A → op BufferPool Z) (l : list A) : op BufferPool Z :=
  match l with
  | [] => op_ret 0
  | a :: l => n <- f a;; m <- tally f l;; op_ret (n + m)
  end.

Definition is_control (ty : Z) : bool :=
  bool_decide (ty = WAL_BEGIN) || bool_decide (ty = WAL_COMMIT) || bool_decide (ty = WAL_ABORT) ||
  bool_decide (ty = WAL_CHECKPOINT).

Definition redo_pass (rs : list WalRecord) : op BufferPool Z :=
  tally (λ r, attempt (redo_record r))
    (filter (λ r, is_control (w_rec_type r) = false ∧ w_mini_txn_id r ∈ committed_minis rs) rs).

(** [sort_by_key(Reverse(lsn))], stable. *)
Fixpoint insert_desc (r : WalRecord) (l : list WalRecord) : list WalRecord :=
  match l with
  | [] => [r]
  | x :: l => if decide (w_lsn x ≤ w_lsn r) then r :: x :: l else x :: insert_desc r l
  end.
Definition sort_desc (l : list WalRecord) : list WalRecord := foldr insert_desc [] l.

Definition undoable (ty : Z) : bool :=
  bool_decide (ty = WAL_INSERT) || bool_decide (ty = WAL_INSERT_BATCH) || bool_decide (ty = WAL_UPDATE) ||
  bool_decide (ty = WAL_DELETE) || bool_decide (ty = WAL_XMAX_BATCH) || bool_decide (ty = WAL_HOT_UPDATE) ||
  bool_decide (ty = WAL_HOT_XPAGE_HEAD) || bool_decide (ty = WAL_HOT_XPAGE_BATCH).

Definition undo_pass (rs : list WalRecord) : op BufferPool Z :=
  tally (λ r, attempt (undo_record r))
    (sort_desc (filter (λ r, w_mini_txn_id r ∈ incomplete_minis rs ∧ undoable (w_rec_type r) = true) rs)).

(** ** Incomplete user transactions *)

(** Change a page of an incomplete transaction; counts one. *)
Definition revert_on (pid : PageId) (f : SlottedPage → Result SlottedPage) : op BufferPool Z :=
  on_page pid (resealed f);; op_ret 1.

Definition revert_update (losers : gset Z) (r : WalRecord) : op BufferPool Z :=
  match decode_xmax (w_redo r) with
  | Ok new_xmax =>
      if decide (new_xmax ∈ losers) then revert_on (w_page_id r) (λ page, set_xmax page (w_slot r) 0)
      else op_ret 0
  | Err _ => op_ret 0
  | Panic => lift Panic
  end.

Definition revert_xmax_batch (losers : gset Z) (r : WalRecord) : op BufferPool Z :=
  match decode_xmax_batch_redo (w_redo r) with
  | Ok (new_xmax, slots) =>
      if decide (new_xmax ∈ losers) then
        revert_on (w_page_id r) (λ page, for_each (λ page slot, stamp page slot 0) page slots)
      else op_ret 0
  | Err _ => op_ret 0
  | Panic => lift Panic
  end.

Definition revert_hot_update (losers : gset Z) (r : WalRecord) : op BufferPool Z :=
  match decode_hot_update_redo (w_redo r) with
  | Ok (new_xmax, old_slot, new_slot, _) =>
      if decide (new_xmax ∈ losers) then revert_on (w_page_id r) (hot_update_revert old_slot new_slot)
      else op_ret 0
  | Err _ => op_ret 0
  | Panic => lift Panic
  end.

Definition revert_hot_xpage_head (losers : gset Z) (r : WalRecord) : op BufferPool Z :=
  if decide (8 ≤ zlen (w_redo r) ∧ 8 ≤ zlen (w_undo r)) then
    xid <- lift (read_u64 (w_redo r) 0);;
    if decide (xid ∈ losers) then
      old_slot <- lift (read_u16 (w_undo r) 0);;
      saved_prev_page <- lift (read_u32 (w_undo r) 2);;
      saved_prev_slot <- lift (read_u16 (w_undo r) 6);;
      revert_on (w_page_id r) (λ page, xpage_restore page (old_slot, saved_prev_page, saved_prev_slot))
    else op_ret 0
  else op_ret 0.

Definition revert_hot_xpage_batch (losers : gset Z) (r : WalRecord) : op BufferPool Z :=
  if decide (8 ≤ zlen (w_redo r)) then
    xid <- lift (read_u64 (w_redo r) 0);;
    if decide (xid ∈ losers) then
      match decode_hot_xpage_batch_undo_entries (w_undo r) with
      | Ok entries => revert_on (w_page_id r) (λ page, for_each xpage_restore page entries)
      | Err _ => op_ret 0
      | Panic => lift Panic
      end
    else op_ret 0
  else op_ret 0.

Definition revert_stamp (losers : gset Z) (r : WalRecord) : op BufferPool Z :=
  let ty := w_rec_type r in
  if decide (ty = WAL_UPDATE) then revert_update losers r
  else if decide (ty = WAL_XMAX_BATCH) then revert_xmax_batch losers r
  else if decide (ty = WAL_HOT_UPDATE) then revert_hot_update losers r
  else if decide (ty = WAL_HOT_XPAGE_HEAD) then revert_hot_xpage_head losers r
  else revert_hot_xpage_batch losers r.

Definition self_stamp_insert (losers : gset Z) (r : WalRecord) : op BufferPool Z :=
  match decode_insert_redo (w_redo r) with
  | Ok (xmin, _, _) =>
      if decide (xmin ∈ losers) then revert_on (w_page_id r) (λ page, set_xmax page (w_slot r) xmin)
      else op_ret 0
  | Err _ => op_ret 0
  | Panic => lift Panic
  end.

Definition self_stamp_insert_batch (losers : gset Z) (r : WalRecord) : op BufferPool Z :=
  if decide (8 ≤ zlen (w_redo r)) then
    xmin <- lift (read_u64 (w_redo r) 0);;
    if decide (xmin ∈ losers) then
      match decode_insert_batch_redo (w_redo r) with
      | Ok rows =>
          revert_on (w_page_id r) (λ page, for_each (λ page row, stamp page row.1 xmin) page rows)
      | Err _ => op_ret 0
      | Panic => lift Panic
      end
    else op_ret 0
  else op_ret 0.

Definition is_stamp (ty : Z) : bool :=
  bool_decide (ty = WAL_UPDATE) || bool_decide (ty = WAL_XMAX_BATCH) || bool_decide (ty = WAL_HOT_UPDATE) ||
  bool_decide (ty = WAL_HOT_XPAGE_HEAD) || bool_decide (ty = WAL_HOT_XPAGE_BATCH).

Definition is_insert (r : WalRecord) : bool :=
  (bool_decide (w_rec_type r = WAL_INSERT) && bool_decide (w_slot r ≠ U16_MAX)) ||
  bool_decide (w_rec_type r = WAL_INSERT_BATCH).

(** Stamps are reverted before inserted rows are stamped dead. *)
Definition undo_users (rs : list WalRecord) : op BufferPool Z :=
  let losers := incomplete_users rs in
  if decide (losers = ∅) then op_ret 0
  else
    n <- tally (revert_stamp losers)
      (filter (λ r, is_stamp (w_rec_type r) = true ∧ w_mini_txn_id r ∈ committed_minis rs) rs);;
    m <- tally (λ r, if decide (w_rec_type r = WAL_INSERT) then self_stamp_insert losers r
                     else self_stamp_insert_batch losers r)
      (filter (λ r, is_insert r = true ∧ w_mini_txn_id r ∈ committed_minis rs) rs);;
    op_ret (n + m).

(** All the passes, on a pool opened over the data file. *)
Definition recover_pool (records : list WalRecord) (ckpt_lsn : Lsn) : op BufferPool RecoveryStats :=
  let rs := relevant ckpt_lsn records in
  modify (set_durable_wal_lsn (foldr Z.max INVALID_LSN (w_lsn <$> records)));;
  redone <- redo_pass rs;;
  undone <- undo_pass rs;;
  reverted <- undo_users rs;;
  flush_all io INVALID_LSN;;
  op_ret (mkStats (zlen rs) redone (undone + reverted) (Z.of_nat (size (incomplete_minis rs)))
            (Z.of_nat (size (incomplete_users rs)))).

(** [recover] on the control file, the log's segments and the data file's pages;
    the pool is the one it worked on, if it got that far. *)
Definition recover (cio : CtlCalls) (ctl : option CtlFile) (segments : Dir) (file : list (list Z))
    (pool_capacity : nat) : Result (ControlData * RecoveryStats) * option BufferPool :=
  match read cio ctl with
  | (Ok control, _) =>
      match recover_pool (scan_dir segments) (checkpoint_lsn control) (open file page_size pool_capacity) with
      | (Ok stats, p) => (Ok (control, stats), Some p)
      | (Err e, p) => (Err e, Some p)
      | (Panic, p) => (Panic, Some p)
      end
  | (Err e, _) => (Err e, None)
  | (Panic, _) => (Panic, None)
  end.

End recovery.
