(* ===== verification/HeapRead.v ===== *)
(** Reading the heap ([src/heap.rs]): hint-assisted visibility, scans, counting, HOT
    chain resolution and the search for reclaimable versions.

    A [PageReader] is the function that reads a page.  The read and write hooks
    ([src/concurrency_hooks.rs]) are empty and prefetching is a hint to the
    operating system; neither appears here. *)

From stdpp Require Import base numbers list gmap.
From S2P Require Import Prelude Format Mvcc Page Txn.
Open Scope op_scope.

(** Runs of elements with the same key: the groups that [partition_point] finds on
    a slice in key order. *)
Fixpoint groups {A} (key : A → Z) (l : list A) : list (Z * list A) :=
  match l with
  | [] => []
  | a :: l =>
      match groups key l with
      | (k, g) :: gs =>
          if decide (key a = k) then (k, a :: g) :: gs else (key a, [a]) :: (k, g) :: gs
      | [] => [(key a, [a])]
      end
  end.

(** ** Visibility *)

Definition is_visible_hinted (tuple_xmin tuple_xmax : Xid) (xmin_hint_flags xmax_hint_flags : Z)
    (snapshot : Snapshot) (self_xid : Xid) : bool :=
  let inserter_visible :=
    if decide (Z.land xmin_hint_flags TUPLE_HINT_XMIN_COMMITTED ≠ 0) then true
    else bool_decide (tuple_xmin = self_xid) || is_committed_at_snapshot snapshot tuple_xmin in
  if negb inserter_visible then false
  else if bool_decide (tuple_xmax = 0) then true
  else
    let deleter_visible :=
      if decide (Z.land xmax_hint_flags TUPLE_HINT_XMAX_COMMITTED ≠ 0) then true
      else bool_decide (tuple_xmax = self_xid) || is_committed_at_snapshot snapshot tuple_xmax in
    negb deleter_visible.

(** [set.is_ok()]: the page as changed, or as it was. *)
Definition best_effort (page : SlottedPage) (r : Result SlottedPage) : Result (bool * SlottedPage) :=
  match r with
  | Ok page => Ok (true, page)
  | Err _ => Ok (false, page)
  | Panic => Panic
  end.

Definition try_set_committed_hints (page : SlottedPage) (slot : Z) (tuple_xmin tuple_xmax : Xid)
    (snapshot : Snapshot) : Result (bool * SlottedPage) :=
  xmin_flags ← tuple_xmin_hint_flags page slot;
  '(wrote, page) ←
    (if decide (Z.land xmin_flags TUPLE_HINT_XMIN_COMMITTED = 0 ∧ tuple_xmin ≠ 0 ∧
                tuple_xmin < snap_xmin snapshot)
     then best_effort page (set_xmin_hint page slot TUPLE_HINT_XMIN_COMMITTED)
     else Ok (false, page));
  xmax_flags ← tuple_xmax_hint_flags page slot;
  '(wrote', page) ←
    (if decide (tuple_xmax ≠ 0 ∧ Z.land xmax_flags TUPLE_HINT_XMAX_COMMITTED = 0 ∧
                tuple_xmax < snap_xmin snapshot)
     then best_effort page (set_xmax_hint page slot TUPLE_HINT_XMAX_COMMITTED)
     else Ok (false, page));
  Ok (wrote || wrote', page).

(** [matches!(page.slot_state(slot), Ok(SlotState::Live))] *)
Definition is_live (page : SlottedPage) (slot : Z) : Result bool :=
  match slot_state page slot with
  | Ok st => Ok (bool_decide (st = Live))
  | Err _ => Ok false
  | Panic => Panic
  end.

(** The header of a slot if it is live and visible by the hinted rule. *)
Definition hinted_visible (page : SlottedPage) (slot : Z) (snapshot : Snapshot) (self_xid : Xid)
    : Result bool :=
  l ← is_live page slot;
  if (l : bool) then
    th ← tuple_header page slot;
    xmin_flags ← tuple_xmin_hint_flags page slot;
    xmax_flags ← tuple_xmax_hint_flags page slot;
    Ok (is_visible_hinted (xmin th) (xmax th) xmin_flags xmax_flags snapshot self_xid)
  else Ok false.

Section readers.
(** [reader.read_page]. *)
Variable read : PageId → Result SlottedPage.

(** ** Scans *)

Definition scan_page_visit {S} (page_id : PageId) (snapshot : Snapshot) (self_xid : Xid)
    (visitor : S → RowId → list Z → Result S) (s : S) : Result S :=
  page ← read page_id;
  sc ← slot_count_pub page;
  for_each (λ s slot,
    v ← hinted_visible page slot snapshot self_xid;
    if (v : bool) then body ← get page slot; visitor s (mkRowId page_id slot) body
    else Ok s) s (seqZ 0 sc).

Definition scan_page_into (page_id : PageId) (snapshot : Snapshot) (self_xid : Xid)
    (out : list (RowId * list Z)) : Result (list (RowId * list Z)) :=
  page ← read page_id;
  sc ← slot_count_pub page;
  for_each (λ out slot,
    v ← hinted_visible page slot snapshot self_xid;
    if (v : bool) then body ← get page slot; Ok (out ++ [(mkRowId page_id slot, body)])
    else Ok out) out (seqZ 0 sc).

Definition count_page_visible (page_id : PageId) (snapshot : Snapshot) (self_xid : Xid) : Result Z :=
  page ← read page_id;
  sc ← slot_count_pub page;
  for_each (λ count slot,
    v ← hinted_visible page slot snapshot self_xid;
    Ok (if (v : bool) then count + 1 else count)) 0 (seqZ 0 sc).

(** On the heap's page list. *)
Definition heap_scan (pages : list PageId) (snapshot : Snapshot) (self_xid : Xid)
    : Result (list (RowId * list Z)) :=
  for_each (λ out page_id, scan_page_into page_id snapshot self_xid out) [] pages.

(** [check i] is the outcome of the cancellation check before page [i]. *)
Definition count_visible (check : nat → Result unit) (pages : list PageId) (snapshot : Snapshot)
    (self_xid : Xid) : Result Z :=
  for_each (λ count ip,
    _ ← (if decide (ip.1 mod 256 = 0)%nat then check ip.1 else Ok tt);
    n ← count_page_visible ip.2 snapshot self_xid;
    Ok (count + n)) 0 (imap (λ i page_id, (i, page_id)) pages).

(** ** HOT chains *)

Definition MAX_HOT_CHAIN_HOPS : nat := Z.to_nat 1000000.

(** The caller's single-page cache. *)
Abbreviation PageCache := (option (PageId * SlottedPage)).

Definition cached_page (page_id : PageId) : op PageCache SlottedPage := λ cache,
  let fresh :=
    match read page_id with
    | Ok page => (Ok page, Some (page_id, page))
    | Err e => (Err e, cache)
    | Panic => (Panic, cache)
    end in
  match cache with
  | Some (pid, page) => if decide (pid = page_id) then (Ok page, cache) else fresh
  | None => fresh
  end.

(** Where a superseded version forwards to. *)
Definition next_version (cur : RowId) (th : TupleHeader) : option RowId :=
  if decide (hot_next th = HOT_NEXT_XPAGE) then Some (mkRowId (prev_page th) (prev_slot th))
  else if decide (hot_next th ≠ HOT_NEXT_NONE) then Some (mkRowId (ri_page cur) (hot_next th))
  else None.

Fixpoint follow_cached (hops : nat) (cur : RowId) (snapshot : Snapshot) (self_xid : Xid)
    : op PageCache (option (list Z)) :=
  match hops with
  | O => op_ret None
  | S hops =>
      page <- cached_page (ri_page cur);;
      l <- lift (is_live page (ri_slot cur));;
      if negb l then op_ret None
      else
        th <- lift (tuple_header page (ri_slot cur));;
        if is_visible (xmin th) (xmax th) snapshot self_xid then
          body <- lift (get page (ri_slot cur));; op_ret (Some body)
        else
          match next_version cur th with
          | Some next => follow_cached hops next snapshot self_xid
          | None => op_ret None
          end
  end.

Definition get_visible_cached (row_id : RowId) (snapshot : Snapshot) (self_xid : Xid)
    : op PageCache (option (list Z)) :=
  follow_cached MAX_HOT_CHAIN_HOPS row_id snapshot self_xid.

Definition get_visible (row_id : RowId) (snapshot : Snapshot) (self_xid : Xid)
    : Result (option (list Z)) :=
  (get_visible_cached row_id snapshot self_xid None).1.

Fixpoint follow (hops : nat) (cur : RowId) (snapshot : Snapshot) (self_xid : Xid)
    : Result (option (RowId * list Z)) :=
  match hops with
  | O => Ok None
  | S hops =>
      page ← read (ri_page cur);
      l ← is_live page (ri_slot cur);
      if negb l then Ok None
      else
        th ← tuple_header page (ri_slot cur);
        if is_visible (xmin th) (xmax th) snapshot self_xid then
          body ← get page (ri_slot cur); Ok (Some (cur, body))
        else
          match next_version cur th with
          | Some next => follow hops next snapshot self_xid
          | None => Ok None
          end
  end.

Definition get_visible_with_rid (row_id : RowId) (snapshot : Snapshot) (self_xid : Xid)
    : Result (option (RowId * list Z)) :=
  follow MAX_HOT_CHAIN_HOPS row_id snapshot self_xid.

Definition heap_get (row_id : RowId) (snapshot : Snapshot) (self_xid : Xid) : Result (list Z) :=
  o ← get_visible row_id snapshot self_xid;
  ok_or o (NoVisibleVersion (ri_page row_id) (ri_slot row_id)).

Definition get_resolved := get_visible_with_rid.

Definition get_raw (row_id : RowId) : Result (list Z) :=
  page ← read (ri_page row_id);
  get page (ri_slot row_id).

(** ** Batches of index candidates *)

(** One candidate on the page at hand: at most one hop on the same page. *)
Definition resolve_candidate (page : SlottedPage) (rid : RowId) (snapshot : Snapshot)
    (self_xid : Xid) : Result (option (RowId * list Z)) :=
  l ← is_live page (ri_slot rid);
  if negb l then Ok None
  else
    th ← tuple_header page (ri_slot rid);
    if is_visible (xmin th) (xmax th) snapshot self_xid then
      body ← get page (ri_slot rid); Ok (Some (rid, body))
    else if decide (hot_next th = HOT_NEXT_XPAGE) then
      get_visible_with_rid (mkRowId (prev_page th) (prev_slot th)) snapshot self_xid
    else if decide (hot_next th ≠ HOT_NEXT_NONE) then
      let new_slot := hot_next th in
      l ← is_live page new_slot;
      if negb l then Ok None
      else
        new_th ← tuple_header page new_slot;
        if is_visible (xmin new_th) (xmax new_th) snapshot self_xid then
          body ← get page new_slot; Ok (Some (mkRowId (ri_page rid) new_slot, body))
        else Ok None
    else Ok None.

(** The loop state is the previous slot and what was collected; a candidate equal to
    its predecessor is skipped.  [keep] turns a resolved row into an output. *)
Definition resolve_group {B} (keep : RowId → list Z → Result (option B)) (snapshot : Snapshot)
    (self_xid : Xid) (out : list B) (g : Z * list RowId) : Result (list B) :=
  page ← read g.1;
  '(_, out) ← for_each (λ st rid,
    let '(prev_slot, out) := st in
    if decide (ri_slot rid = prev_slot) then Ok (prev_slot, out)
    else
      o ← resolve_candidate page rid snapshot self_xid;
      match o with
      | Some (r, body) =>
          b ← keep r body;
          Ok (ri_slot rid, out ++ match b with Some b => [b] | None => [] end)
      | None => Ok (ri_slot rid, out)
      end) (U16_MAX, out) g.2;
  Ok out.

Definition batch_resolve_candidates (candidates : list RowId) (snapshot : Snapshot) (self_xid : Xid)
    : Result (list (RowId * list Z)) :=
  for_each (resolve_group (λ r body, Ok (Some (r, body))) snapshot self_xid) []
    (groups ri_page candidates).

Definition batch_resolve_candidates_visit (candidates : list RowId) (snapshot : Snapshot)
    (self_xid : Xid) (matches : list Z → Result bool) : Result (list RowId) :=
  for_each (resolve_group (λ r body, m ← matches body; Ok (if (m : bool) then Some r else None))
              snapshot self_xid) [] (groups ri_page candidates).

(** ** Vacuum *)

Definition collect_reclaimable (pages : list PageId) (horizon : Xid) : Result (list RowId) :=
  for_each (λ out page_id,
    page ← read page_id;
    sc ← slot_count_pub page;
    for_each (λ out slot,
      l ← is_live page slot;
      if negb l then Ok out
      else
        th ← tuple_header page slot;
        Ok (if is_reclaimable (xmax th) horizon then out ++ [mkRowId page_id slot] else out))
      out (seqZ 0 sc)) [] pages.

End readers.
