(* ===== verification/HeapReadProps.v ===== *)
(** Correctness of heap reads: the page cache changes no result, scans and counts
    return exactly the visible versions while hint bits are sound, and resolving
    candidates in batches agrees with following the chain as far as it goes. *)

From stdpp Require Import base numbers list gmap.
From S2P Require Import Prelude Format Mvcc Page PageSpec PageOps PageCompact PageProps Txn HeapRead.

(** ** Loops that collect *)

(** A loop that appends what each step yields. *)
Lemma for_each_collect {E A B} (f : list B → A → outcome E (list B)) (g : A → list B) l out :
  (∀ a out, a ∈ l → f out a = Ok (out ++ g a)) → for_each f out l = Ok (out ++ concat (g <$> l)).
Proof.
  revert out. induction l as [|a l IH]; intros out Hf; simpl; [by rewrite app_nil_r|].
  rewrite Hf by left. simpl. rewrite IH by (intros; apply Hf; by right). by rewrite <- app_assoc.
Qed.

Lemma for_each_sum {E A} (f : Z → A → outcome E Z) (g : A → Z) l n :
  (∀ a n, a ∈ l → f n a = Ok (n + g a)) → for_each f n l = Ok (n + foldr (λ a m, g a + m) 0 l).
Proof.
  revert n. induction l as [|a l IH]; intros n Hf; simpl; [f_equal; lia|].
  rewrite Hf by left. simpl. rewrite IH by (intros; apply Hf; by right). f_equal. lia.
Qed.

(** ** The page cache *)

Section cache.
Variable read : PageId → Result SlottedPage.

Definition cache_ok (c : option (PageId * SlottedPage)) : Prop :=
  ∀ pid page, c = Some (pid, page) → read pid = Ok page.

Lemma cached_page_exact pid c : cache_ok c →
  (cached_page read pid c).1 = read pid ∧ cache_ok (cached_page read pid c).2.
Proof.
  intros Hc. unfold cached_page.
  assert (∀ pg, read pid = Ok pg → cache_ok (Some (pid, pg))) as Hok by (by intros pg ? ?? [= <- <-]).
  destruct c as [[q page]|]; [case_decide as Hq|].
  - subst q. split; [|done]. symmetry. by apply Hc.
  - destruct (read pid) as [pg|e|]; simpl; auto.
  - destruct (read pid) as [pg|e|]; simpl; auto.
Qed.

Lemma follow_cached_exact n cur snap self c : cache_ok c →
  (follow_cached read n cur snap self c).1 = (fmap (M:=option) snd <$> follow read n cur snap self) ∧
  cache_ok (follow_cached read n cur snap self c).2.
Proof.
  revert cur c. induction n as [|n IH]; intros cur c Hc; [done|].
  cbn [follow_cached follow]. unfold op_bind, lift.
  destruct (cached_page_exact (ri_page cur) c Hc) as [E Hc'].
  destruct (cached_page read (ri_page cur) c) as [r c']. simpl in E, Hc'. subst r.
  destruct (read (ri_page cur)) as [page|e|]; simpl; [|by split..].
  destruct (is_live page (ri_slot cur)) as [[]|e|]; simpl; [|done..].
  destruct (tuple_header page (ri_slot cur)) as [th|e|]; simpl; [|done..].
  destruct (is_visible (xmin th) (xmax th) snap self).
  - by destruct (get page (ri_slot cur)).
  - destruct (next_version cur th); [|done]. by apply IH.
Qed.

End cache.

(** ** Hint bits *)

(** The hint bytes of a tuple. *)
Definition hint_of (field : Z) (b : list Z) : Z := rd b (field + 7) 1.

Lemma hint_flags_live field p s b : page_wf p → 0 ≤ s → 0 ≤ field ≤ 8 →
  slots p !! Z.to_nat s = Some (ALive b) → tuple_hint_flags field p s = Ok (hint_of field b).
Proof.
  intros Hp Hs Hf Hb. pose proof Hp as [[] ?]. unfold tuple_hint_flags.
  rewrite slot_count_Ok by lia. simpl.
  pose proof (live_slot_view p s Hp Hs) as V. rewrite Hb in V.
  inversion V; subst; [naive_solver|].
  rewrite decide_False by lia. rewrite read_slot_Ok by lia. simpl. rewrite decide_False by done.
  destruct (index_Ok (E:=DbError) (data p) (f_off (data p) s + field + 7)) as (v&Hv&->); [lia|].
  f_equal. unfold hint_of. rewrite rd_sub by lia.
  symmetry. apply rd_1; [lia|]. rewrite <- Hv. f_equal. lia.
Qed.

(** A set hint bit tells the truth about the snapshot. *)
Definition hints_sound (snap : Snapshot) (self : Xid) (b : list Z) : Prop :=
  (Z.land (hint_of TH_XMIN b) TUPLE_HINT_XMIN_COMMITTED ≠ 0 →
     xmin (header_of b) = self ∨ is_committed_at_snapshot snap (xmin (header_of b)) = true) ∧
  (Z.land (hint_of TH_XMAX b) TUPLE_HINT_XMAX_COMMITTED ≠ 0 → xmax (header_of b) ≠ 0 →
     xmax (header_of b) = self ∨ is_committed_at_snapshot snap (xmax (header_of b)) = true).

(** Hints then do not change the verdict. *)
Lemma is_visible_hinted_sound snap self b : hints_sound snap self b →
  is_visible_hinted (xmin (header_of b)) (xmax (header_of b)) (hint_of TH_XMIN b) (hint_of TH_XMAX b)
    snap self = is_visible (xmin (header_of b)) (xmax (header_of b)) snap self.
Proof.
  intros [Hmin Hmax]. unfold is_visible_hinted, is_visible.
  assert (∀ x, (x = self ∨ is_committed_at_snapshot snap x = true) →
    bool_decide (x = self) || is_committed_at_snapshot snap x = true) as Hor.
  { intros x [->| ->]; [by rewrite bool_decide_true|by rewrite orb_true_r]. }
  destruct (decide (Z.land (hint_of TH_XMIN b) _ ≠ 0)) as [Hf|_]; [rewrite (Hor _ (Hmin Hf))|];
    (destruct (bool_decide (xmax (header_of b) = 0)) eqn:E0; [done|]); apply bool_decide_eq_false in E0;
    (destruct (decide (Z.land (hint_of TH_XMAX b) _ ≠ 0)) as [Hg|_]; [by rewrite (Hor _ (Hmax Hg E0))|done]).
Qed.

(** ** What a slot shows *)

Lemma is_live_slots p s : page_wf p → 0 ≤ s →
  is_live p s = Ok (match slots p !! Z.to_nat s with Some (ALive _) => true | _ => false end).
Proof.
  intros Hp Hs. unfold is_live. rewrite slot_state_slots by done.
  by destruct (slots p !! Z.to_nat s) as [[]|].
Qed.

(** The visible row of a slot, if it has one. *)
Definition shown (pid : PageId) (p : SlottedPage) (snap : Snapshot) (self : Xid) (s : Z) : list (RowId * list Z) :=
  match slots p !! Z.to_nat s with
  | Some (ALive b) =>
      if is_visible_hinted (xmin (header_of b)) (xmax (header_of b)) (hint_of TH_XMIN b) (hint_of TH_XMAX b)
           snap self
      then [(mkRowId pid s, payload_of b)] else []
  | _ => []
  end.

Lemma hinted_visible_shown pid p snap self s : page_wf p → 0 ≤ s →
  hinted_visible p s snap self = Ok (bool_decide (shown pid p snap self s ≠ [])).
Proof.
  intros Hp Hs. unfold hinted_visible, shown. rewrite is_live_slots by done. simpl.
  destruct (slots p !! Z.to_nat s) as [[b| |]|] eqn:Hb; try done.
  destruct (read_body p s b Hp Hs Hb) as [_ ->]. simpl.
  unfold tuple_xmin_hint_flags, tuple_xmax_hint_flags.
  rewrite !(hint_flags_live _ p s b Hp Hs) by (done || (unfold TH_XMIN, TH_XMAX; lia)). simpl.
  by destruct (is_visible_hinted _ _ _ _ _ _).
Qed.

Lemma shown_cases pid p snap self s : page_wf p → 0 ≤ s →
  shown pid p snap self s = [] ∨
  ∃ b, slots p !! Z.to_nat s = Some (ALive b) ∧ get p s = Ok (payload_of b) ∧
    shown pid p snap self s = [(mkRowId pid s, payload_of b)].
Proof.
  intros Hp Hs. unfold shown. destruct (slots p !! Z.to_nat s) as [[b| |]|] eqn:Hb; auto.
  destruct (is_visible_hinted _ _ _ _ _ _); [|by left]. right. exists b.
  by destruct (read_body p s b Hp Hs Hb) as [-> _].
Qed.

Section scan.
Variable read : PageId → Result SlottedPage.
Variable snap : Snapshot.
Variable self : Xid.

(** The rows of a page. *)
Definition page_rows (pid : PageId) : list (RowId * list Z) :=
  match read pid with
  | Ok p => concat (shown pid p snap self <$> seqZ 0 (f_sc (data p)))
  | _ => []
  end.

Definition readable (pid : PageId) : Prop := ∃ p, read pid = Ok p ∧ page_wf p.

Lemma slot_count_pub_wf p : page_wf p → slot_count_pub p = Ok (f_sc (data p)).
Proof. intros [[] ?]. apply slot_count_Ok. lia. Qed.

Lemma scan_page_rows pid out : readable pid →
  scan_page_into read pid snap self out = Ok (out ++ page_rows pid).
Proof.
  intros (p&E&Hp). unfold scan_page_into, page_rows. rewrite E. simpl. rewrite slot_count_pub_wf by done. simpl.
  apply for_each_collect. intros s o [??]%elem_of_seqZ. rewrite (hinted_visible_shown pid) by (done || lia). simpl.
  destruct (shown_cases pid p snap self s) as [->|(b&_&Hg&->)]; [done|lia|by rewrite app_nil_r|].
  simpl. by rewrite Hg.
Qed.

Lemma count_page_rows pid : readable pid → count_page_visible read pid snap self = Ok (zlen (page_rows pid)).
Proof.
  intros (p&E&Hp). unfold count_page_visible, page_rows. rewrite E. simpl. rewrite slot_count_pub_wf by done. simpl.
  rewrite (for_each_sum _ (λ s, zlen (shown pid p snap self s))).
  - f_equal. rewrite Z.add_0_l. induction (seqZ 0 (f_sc (data p))) as [|s l IH]; [done|].
    simpl. rewrite IH, zlen_app. done.
  - intros s n [??]%elem_of_seqZ. rewrite (hinted_visible_shown pid) by (done || lia). simpl.
    destruct (shown_cases pid p snap self s) as [->|(b&_&_&->)]; [done|lia|unfold zlen; simpl; f_equal; lia|done].
Qed.

Lemma heap_scan_rows pids : (∀ pid, pid ∈ pids → readable pid) →
  heap_scan read pids snap self = Ok (concat (page_rows <$> pids)).
Proof.
  intros Hr. unfold heap_scan. rewrite (for_each_collect _ page_rows); [done|].
  intros pid out Hpid. by apply scan_page_rows, Hr.
Qed.

Lemma count_visible_rows check pids : (∀ pid, pid ∈ pids → readable pid) → (∀ i, check i = Ok tt) →
  count_visible read check pids snap self = Ok (zlen (concat (page_rows <$> pids))).
Proof.
  intros Hr Hc. unfold count_visible. rewrite (for_each_sum _ (λ ip, zlen (page_rows ip.2))).
  - f_equal. rewrite Z.add_0_l. clear Hr. cut (∀ k,
      foldr (λ ip m, zlen (page_rows ip.2) + m) 0 (imap (λ i pid, ((k + i)%nat, pid)) pids) =
      zlen (concat (page_rows <$> pids))); [intros Hk; apply (Hk 0%nat)|].
    induction pids as [|pid pids IH]; intros k; [done|]. rewrite imap_cons. simpl. rewrite zlen_app. f_equal.
    etrans; [|exact (IH (S k))]. f_equal. apply imap_ext. intros i x _. simpl. f_equal. lia.
  - intros [i pid] n Hin. apply elem_of_lookup_imap in Hin as (j&x&[= -> ->]&Hx). cbn [fst snd].
    rewrite (count_page_rows x) by (apply Hr; by eapply list_elem_of_lookup_2). by case_decide; rewrite ?Hc.
Qed.

End scan.

(** ** Chains *)

Section chains.
Variable read : PageId → Result SlottedPage.
Variable snap : Snapshot.
Variable self : Xid.

Lemma max_hops : ∃ n, MAX_HOT_CHAIN_HOPS = S (S n).
Proof. exists (Z.to_nat 999998). unfold MAX_HOT_CHAIN_HOPS. rewrite <- !Z2Nat.inj_succ by lia. done. Qed.
#[local] Opaque MAX_HOT_CHAIN_HOPS.

(** A visible version is found at once. *)
Lemma follow_here n rid p th body : read (ri_page rid) = Ok p → is_live p (ri_slot rid) = Ok true →
  tuple_header p (ri_slot rid) = Ok th → is_visible (xmin th) (xmax th) snap self = true →
  get p (ri_slot rid) = Ok body → follow read (S n) rid snap self = Ok (Some (rid, body)).
Proof. intros Hr Hl Ht Hv Hg. cbn [follow]. by rewrite Hr; simpl; rewrite Hl; simpl; rewrite Ht; simpl; rewrite Hv, Hg. Qed.

(** From [n] hops on, following the chain has the result [o]. *)
Definition settles (c : RowId) (o : option (RowId * list Z)) : Prop :=
  ∃ n, (n < MAX_HOT_CHAIN_HOPS)%nat ∧ ∀ m, (n ≤ m)%nat → follow read m c snap self = Ok o.

(** The chain takes at most one hop on its first page. *)
Definition one_hop (c : RowId) : Prop := ∀ p th th', read (ri_page c) = Ok p →
  tuple_header p (ri_slot c) = Ok th → hot_next th ≠ HOT_NEXT_XPAGE → hot_next th ≠ HOT_NEXT_NONE →
  tuple_header p (hot_next th) = Ok th' →
  is_visible (xmin th') (xmax th') snap self = true ∨ hot_next th' = HOT_NEXT_NONE.

Lemma settles_reads c o : settles c o → ∃ p, read (ri_page c) = Ok p.
Proof.
  intros (n&_&Hf). specialize (Hf (S n) ltac:(lia)). cbn [follow] in Hf.
  destruct (read (ri_page c)); naive_solver.
Qed.

Lemma resolve_settles c p o : read (ri_page c) = Ok p → one_hop c → settles c o →
  resolve_candidate read p c snap self = Ok o.
Proof.
  intros Hr H1 (n&Hn&Hf). assert (n ≤ S MAX_HOT_CHAIN_HOPS)%nat as Hle by lia.
  pose proof (Hf _ Hle) as HM. rewrite <- HM. clear HM Hle Hf Hn.
  unfold resolve_candidate, get_visible_with_rid.
  destruct max_hops as [k Hk]. generalize dependent MAX_HOT_CHAIN_HOPS. intros M ->. cbn [follow]. rewrite Hr. simpl.
  destruct (is_live p (ri_slot c)) as [[]|e|]; simpl; try done.
  destruct (tuple_header p (ri_slot c)) as [th|e|] eqn:Hth; simpl; try done.
  destruct (is_visible (xmin th) (xmax th) snap self); [done|].
  unfold next_version. destruct (decide (hot_next th = HOT_NEXT_XPAGE)); [done|].
  destruct (decide (hot_next th ≠ HOT_NEXT_NONE)); [|done].
  cbn [follow ri_page ri_slot]. rewrite Hr. simpl.
  destruct (is_live p (hot_next th)) as [[]|e|]; simpl; try done.
  destruct (tuple_header p (hot_next th)) as [th'|e|] eqn:Hth'; simpl; try done.
  destruct (H1 p th th' Hr Hth) as [->|E]; try done.
  destruct (is_visible (xmin th') (xmax th') snap self); [done|].
  unfold next_version. rewrite E. by rewrite decide_False, decide_False by (done || tauto).
Qed.

Lemma groups_concat {A} (key : A → Z) l : concat (groups key l).*2 = l.
Proof.
  induction l as [|a l IH]; [done|]. simpl. destruct (groups key l) as [|[k g] gs]; simpl in *; [by rewrite <- IH|].
  case_decide; simpl; by rewrite <- IH.
Qed.

Lemma groups_keys {A} (key : A → Z) l g : g ∈ groups key l → Forall (λ a, key a = g.1) g.2.
Proof.
  revert g. induction l as [|a l IH]; intros g; simpl; [by intros ?%elem_of_nil|].
  destruct (groups key l) as [|[k h] gs].
  - intros ->%list_elem_of_singleton. by repeat constructor.
  - case_decide; intros [->|Hg]%elem_of_cons.
    + simpl. constructor; [done|]. apply (IH (k, h)). by left.
    + apply IH. by right.
    + by repeat constructor.
    + by apply IH.
Qed.

Lemma resolve_group_exact res pid l out p : read pid = Ok p → NoDup l →
  Forall (λ c, ri_page c = pid ∧ ri_slot c ≠ U16_MAX ∧ one_hop c ∧ settles c (res c)) l →
  resolve_group read (λ r body, Ok (Some (r, body))) snap self out (pid, l) = Ok (out ++ omap res l).
Proof.
  intros Hr Hnd Hl. unfold resolve_group. cbn [fst snd]. rewrite Hr. simpl.
  set (f := λ st rid, _).
  cut (∀ prev out, (∀ c, c ∈ l → ri_slot c ≠ prev) →
    ∃ prev', for_each f (prev, out) l = Ok (prev', out ++ omap res l)).
  { intros Hc. destruct (Hc U16_MAX out) as [? ->]; [|done]. intros c Hin. rewrite Forall_forall in Hl. by apply Hl. }
  clear out. induction Hl as [|c l (Hp&_&H1&Hs) Hl IH]; intros prev out Hprev; simpl.
  { exists prev. by rewrite app_nil_r. }
  apply NoDup_cons in Hnd as [Hc Hnd]. rewrite decide_False by (by apply Hprev; left).
  rewrite (resolve_settles c p (res c)) by (by rewrite ?Hp). simpl.
  assert (∀ c', c' ∈ l → ri_slot c' ≠ ri_slot c) as Hne.
  { intros c' Hin E. apply Hc. rewrite Forall_forall in Hl. destruct (Hl c' Hin) as [Hp' _].
    destruct c, c'; simpl in *; by subst. }
  destruct (res c) as [[r body]|]; simpl.
  - destruct (IH Hnd (ri_slot c) (out ++ [(r, body)]) Hne) as [prev' ->]. exists prev'. by rewrite <- app_assoc.
  - by apply IH.
Qed.

Lemma batch_groups res gs out : NoDup (concat gs.*2) →
  (∀ g, g ∈ gs → g.2 ≠ [] ∧ Forall (λ c, ri_page c = g.1) g.2) →
  Forall (λ c, ri_slot c ≠ U16_MAX ∧ one_hop c ∧ settles c (res c)) (concat gs.*2) →
  for_each (resolve_group read (λ r body, Ok (Some (r, body))) snap self) out gs =
    Ok (out ++ omap res (concat gs.*2)).
Proof.
  revert out. induction gs as [|[pid l] gs IH]; intros out Hnd Hg Hf; simpl; [by rewrite app_nil_r|].
  simpl in Hnd, Hf. apply NoDup_app in Hnd as (Hnd1&_&Hnd2). apply Forall_app in Hf as [Hf1 Hf2].
  destruct (Hg (pid, l)) as [Hne Hk]; [by left|]. simpl in Hne, Hk.
  assert (∃ p, read pid = Ok p) as [p Hp].
  { destruct l as [|c l]; [done|]. apply Forall_cons in Hf1 as [(_&_&Hs) _]. apply Forall_cons in Hk as [<- _].
    by eapply settles_reads. }
  rewrite (resolve_group_exact res pid l out p Hp Hnd1) by (apply Forall_and; done).
  simpl. rewrite IH; [|done| |done].
  - by rewrite omap_app, app_assoc.
  - intros g Hin. apply Hg. by right.
Qed.

Lemma groups_nonempty {A} (key : A → Z) l g : g ∈ groups key l → g.2 ≠ [].
Proof.
  revert g. induction l as [|a l IH]; intros g; simpl; [by intros ?%elem_of_nil|].
  destruct (groups key l) as [|[k h] gs]; [by intros ->%list_elem_of_singleton|].
  case_decide; intros [->|Hg]%elem_of_cons; try done; apply IH; first [done|by right].
Qed.

End chains.

(** ** Claims *)

Lemma elem_of_shown pid p snap self s rid body : page_wf p → 0 ≤ s →
  (∀ b, slots p !! Z.to_nat s = Some (ALive b) → hints_sound snap self b) →
  (rid, body) ∈ shown pid p snap self s ↔ rid = mkRowId pid s ∧ ∃ th, tuple_header p s = Ok th ∧
    get p s = Ok body ∧ is_visible (xmin th) (xmax th) snap self = true.
Proof.
  intros Hp Hs Hh. rewrite get_on_slot, tuple_header_on_slot by done. unfold shown, on_slot.
  destruct (slots p !! Z.to_nat s) as [[b| |]|]; try (split; [by intros ?%elem_of_nil|naive_solver]).
  rewrite is_visible_hinted_sound by auto.
  destruct (is_visible _ _ snap self) eqn:Hv.
  - rewrite list_elem_of_singleton. naive_solver.
  - rewrite elem_of_nil. naive_solver congruence.
Qed.

Lemma elem_of_page_rows read snap self pid p rid body : read pid = Ok p → page_wf p →
  (∀ s b, slots p !! s = Some (ALive b) → hints_sound snap self b) →
  (rid, body) ∈ page_rows read snap self pid ↔ ri_page rid = pid ∧ 0 ≤ ri_slot rid ∧ ∃ th,
    tuple_header p (ri_slot rid) = Ok th ∧ get p (ri_slot rid) = Ok body ∧
    is_visible (xmin th) (xmax th) snap self = true.
Proof.
  intros Hr Hp Hh. unfold page_rows. rewrite Hr. rewrite elem_of_concat. split.
  - intros (l&(s&->&[??]%elem_of_seqZ)%list_elem_of_fmap&Hin).
    apply elem_of_shown in Hin as [-> Hth]; [done|done|lia|eauto].
  - intros (<-&Hs&th&Hth&Hrest). exists (shown (ri_page rid) p snap self (ri_slot rid)). split; cycle 1.
    + apply elem_of_shown; [done|done|eauto|]. split; [by destruct rid|by exists th].
    + apply list_elem_of_fmap. exists (ri_slot rid). split; [done|]. apply elem_of_seqZ.
      rewrite tuple_header_on_slot in Hth by done. unfold on_slot in Hth.
      destruct (decide (ri_slot rid < f_sc (data p))); [lia|]. by rewrite lookup_slots_ge in Hth by lia.
Qed.

(** C14: A scan of readable pages whose set hint bits are true of the snapshot returns exactly the live
    versions visible under it, each once per page listed; the count equals the number of rows
    returned, and every row scanned is what a point read of its row id returns. *)
Theorem scan_exact read check pids snap self :
  (∀ pid, pid ∈ pids → readable read pid) → (∀ i, check i = Ok tt) →
  (∀ pid p s b, pid ∈ pids → read pid = Ok p → slots p !! s = Some (ALive b) → hints_sound snap self b) →
  ∃ rows, heap_scan read pids snap self = Ok rows ∧
    count_visible read check pids snap self = Ok (zlen rows) ∧
    (∀ rid body, (rid, body) ∈ rows ↔ ri_page rid ∈ pids ∧ 0 ≤ ri_slot rid ∧ ∃ p th,
       read (ri_page rid) = Ok p ∧ tuple_header p (ri_slot rid) = Ok th ∧
       get p (ri_slot rid) = Ok body ∧ is_visible (xmin th) (xmax th) snap self = true) ∧
    (∀ rid body, (rid, body) ∈ rows → heap_get read rid snap self = Ok body).
Proof.
  intros Hr Hc Hh. exists (concat (page_rows read snap self <$> pids)).
  split; [by apply heap_scan_rows|]. split; [by apply count_visible_rows|].
  assert (∀ rid body, (rid, body) ∈ concat (page_rows read snap self <$> pids) ↔
    ri_page rid ∈ pids ∧ 0 ≤ ri_slot rid ∧ ∃ p th, read (ri_page rid) = Ok p ∧
      tuple_header p (ri_slot rid) = Ok th ∧ get p (ri_slot rid) = Ok body ∧
      is_visible (xmin th) (xmax th) snap self = true) as Hrows.
  { intros rid body. rewrite elem_of_concat. split.
    - intros (l&(pid&->&Hpid)%list_elem_of_fmap&Hin). destruct (Hr pid Hpid) as (p&E&Hp).
      rewrite (elem_of_page_rows _ _ _ _ p) in Hin by eauto. destruct Hin as (->&?&th&?). eauto 6.
    - intros (Hpid&Hs&p&th&E&Hrest). exists (page_rows read snap self (ri_page rid)).
      split; [by apply list_elem_of_fmap_2|]. destruct (Hr _ Hpid) as (p'&E'&Hp).
      assert (p' = p) as -> by congruence. apply (elem_of_page_rows _ _ _ _ p); [done..|eauto|]. eauto. }
  split; [done|]. intros rid body (Hpid&Hs&p&th&E&Hth&Hg&Hv)%Hrows.
  unfold heap_get, get_visible, get_visible_cached.
  rewrite (proj1 (follow_cached_exact read _ rid snap self None ltac:(done))).
  destruct max_hops as [n ->]. rewrite (follow_here read snap self (S n) rid p th body); try done.
  destruct (Hr _ Hpid) as (p'&E'&Hp). assert (p' = p) as -> by congruence.
  rewrite is_live_slots by done. rewrite tuple_header_on_slot in Hth by done. unfold on_slot in Hth.
  by destruct (slots p !! Z.to_nat (ri_slot rid)) as [[]|].
Qed.

(** C26: Resolving index candidates one by one through a page cache that agrees with the reader gives
    what the uncached resolution gives, whatever else is in the cache, and leaves such a cache; and
    resolving a batch of candidates page by page gives the same rows in the same order, provided
    the candidates are distinct, none has the slot 65535 that marks a page allocation, every
    version chain ends within the hop bound without a read error, and each takes at most one hop
    on its first page. *)
Theorem resolve_equivalent read cands snap self res :
  (∀ row cache, cache_ok read cache →
     (get_visible_cached read row snap self cache).1 =
       (fmap (M:=option) snd <$> get_visible_with_rid read row snap self) ∧
     cache_ok read (get_visible_cached read row snap self cache).2) ∧
  (NoDup cands →
   (∀ c, c ∈ cands → ri_slot c ≠ U16_MAX ∧ one_hop read snap self c ∧ settles read snap self c (res c)) →
   batch_resolve_candidates read cands snap self = Ok (omap res cands)).
Proof.
  split; [intros row cache; apply follow_cached_exact|].
  intros Hnd Hc. unfold batch_resolve_candidates. rewrite (batch_groups read snap self res).
  - by rewrite groups_concat.
  - by rewrite groups_concat.
  - intros g Hg. split; [by eapply groups_nonempty|by eapply groups_keys].
  - rewrite groups_concat. by apply Forall_forall.
Qed.

(** ** Witnesses *)

Definition w_read (pid : PageId) : Result SlottedPage :=
  if decide (pid = 7) then Ok w_page else Err (PageNotFound pid).
Definition w_snap : Snapshot := mkSnapshot 9 9 [].

Lemma w_slots s b : slots w_page !! s = Some (ALive b) →
  b = [6; 0; 0; 0; 0; 0; 0; 16; 0; 0; 0; 0; 0; 0; 0; 0; 3; 0; 0; 0; 1; 0; 255; 255; 9].
Proof.
  change (slots w_page) with (ltac:(let x := eval vm_compute in (slots w_page) in exact x)).
  destruct s as [|[|s]]; simpl; [done|by intros [= <-]|done].
Qed.

Lemma w_readable pid : pid ∈ [7] → readable w_read pid.
Proof. intros ->%list_elem_of_singleton. exists w_page. split; [reflexivity|exact w_page_wf]. Qed.

Lemma scan_exact_witness :
  ∃ rows, heap_scan w_read [7] w_snap 20 = Ok rows ∧ (mkRowId 7 1, [9]) ∈ rows.
Proof.
  destruct (scan_exact w_read (λ _, Ok tt) [7] w_snap 20) as (rows&Hs&_&Hr&_).
  - exact w_readable.
  - reflexivity.
  - intros pid p s b ->%list_elem_of_singleton [= <-] Hb. rewrite (w_slots s b Hb).
    split; [intros _; right; vm_compute; reflexivity|intros _ Hx; exfalso; apply Hx; vm_compute; reflexivity].
  - exists rows. split; [exact Hs|]. apply Hr. split; [by left|]. split; [simpl; lia|].
    exists w_page, (mkTupleHeader 6 0 3 1 HOT_NEXT_NONE). vm_compute. done.
Defined.

Lemma w_settles : settles w_read w_snap 20 (mkRowId 7 1) (Some (mkRowId 7 1, [9])).
Proof.
  exists 1%nat. split; [destruct max_hops as [n ->]; lia|]. intros [|m] Hm; [lia|].
  apply (follow_here w_read w_snap 20 m _ w_page (mkTupleHeader 6 0 3 1 HOT_NEXT_NONE));
    vm_compute; reflexivity.
Qed.

Lemma resolve_equivalent_witness :
  batch_resolve_candidates w_read [mkRowId 7 1] w_snap 20 = Ok [(mkRowId 7 1, [9])].
Proof.
  destruct (resolve_equivalent w_read [mkRowId 7 1] w_snap 20 (λ _, Some (mkRowId 7 1, [9]))) as [_ ->].
  - reflexivity.
  - apply NoDup_singleton.
  - intros c ->%list_elem_of_singleton. split; [done|]. split; [|exact w_settles].
    intros p th th' [= <-] Hth Hn Hn'. exfalso. apply Hn'.
    assert (tuple_header w_page 1 = Ok (mkTupleHeader 6 0 3 1 HOT_NEXT_NONE)) as Hw
      by (vm_compute; reflexivity).
    simpl in Hth. rewrite Hw in Hth. by injection Hth as <-.
Defined.
