(* ===== verification/Heap.v ===== *)
(** The heap ([src/heap.rs]): page selection, versioned inserts, updates and deletes,
    HOT updates on the same and across pages, their batched forms, the undo
    operations, and vacuum.

    An operation runs on the pool, the log, the lock table and the heap's free-space
    state.  It runs from start to end on its own, so the page latches it takes are
    free.  The tree behind a durable free-space map is the interface [FsmTree]; a
    heap without one has [fsm_tree = None].

    The loop that acquires a page retries until the page fits.  It takes a number of
    iterations, and an operation that is still in the loop after them returns
    [None]; [x <-? m ;; k] passes that on. *)

From stdpp Require Import base numbers list gmap sorting.
From S2P Require Import Prelude Format Mvcc Page LockMgr Txn WalCodec Wal BufferPool BTreeNode.
From S2P Require Import LogPayload HeapRead.
Open Scope op_scope.

Notation "x <-? m ;; k" := (op_bind (λ o, match o with Some x => k | None => op_ret None end) m)
  (at level 100, m at next level, right associativity) : op_scope.

Record HeapFsm := mkFsm {
  pages : list PageId;
  free_map : gmap Z Z;
  directory_loaded : bool;
}.

Record Heap := mkHeap {
  h_page_size : Z;
  fsm_tree : option PageId;
  fill_factor : Z;
}.

(** The open page of a multi-row insert. *)
Record InsertAccum := mkAccum {
  acc_page_id : PageId;
  acc_txn_id : Z;
  acc_last_lsn : Lsn;
}.

Record HotInsertResult := mkHotResult {
  new_rid : RowId;
  saved_prev : option (PageId * Z);
}.

(** What heap operations work on. *)
Record Db := mkDb {
  d_pool : BufferPool;
  d_wal : Wal;
  d_locks : LockTable;
  d_fsm : HeapFsm;
}.

Definition on_io {A} (m : op (BufferPool * Wal) A) : op Db A := λ s,
  let '(r, (p, w)) := m (d_pool s, d_wal s) in (r, mkDb p w (d_locks s) (d_fsm s)).
Definition pool_op {A} (m : op BufferPool A) : op Db A := on_io (on_pool m).
Definition wal_op {A} (m : op Wal A) : op Db A := on_io (on_wal m).
Definition set_fsm (f : HeapFsm → HeapFsm) (s : Db) : Db :=
  mkDb (d_pool s) (d_wal s) (d_locks s) (f (d_fsm s)).

(** The durable page directory: page ids to free bytes.  [meta] is its meta page. *)
Class FsmTree := {
  max_entry : PageId → op (BufferPool * Wal) (option (OrderedValue * RowId));
  insert_in_txn : PageId → OrderedValue → RowId → Z → Lsn → op (BufferPool * Wal) Lsn;
  set_value : PageId → OrderedValue → RowId → op (BufferPool * Wal) unit;
  page_directory : PageId → op (BufferPool * Wal) (list (PageId * Z));
}.

Definition new_fsm : HeapFsm := mkFsm [] ∅ true.
Definition heap_new (page_size : Z) : Heap * HeapFsm := (mkHeap page_size None 100, new_fsm).
Definition from_pages (page_size : Z) (pages : list PageId) : Heap * HeapFsm :=
  (mkHeap page_size None 100, mkFsm pages ∅ true).
Definition heap_open (page_size : Z) (fsm_meta : option PageId) (legacy_pages : list PageId)
    : Heap * HeapFsm :=
  match fsm_meta with
  | Some meta => (mkHeap page_size (Some meta) 100, mkFsm [] ∅ false)
  | None => from_pages page_size legacy_pages
  end.
Definition with_fill_factor (h : Heap) (ff : Z) : Heap := mkHeap (h_page_size h) (fsm_tree h) ff.

Definition note_free_space (page_id : PageId) (free : Z) : op Db unit :=
  modify (set_fsm (λ f, mkFsm (pages f) (<[page_id := free]> (free_map f)) (directory_loaded f))).

(** Bytes a row takes on a page. *)
Definition needed_for (data : list Z) : Z := SLOT_SIZE + TUPLE_HEADER_SIZE + zlen data.

Section heap.
Context `{!Crc32, !FsmTree}.

Variable io : Calls.
Variable pio : PoolCalls.
Variable h : Heap.

Definition fetch_for_write (page_id : PageId) : op Db SlottedPage :=
  on_io (fetch_page_for_write pio io page_id).
Definition unpin_page (page_id : PageId) : op Db unit := pool_op (unpin page_id).
Definition store_page (page : SlottedPage) : op Db unit := pool_op (write_page page).

(** [maybe_log_fpi(..)?.unwrap_or(prev_lsn)] *)
Definition fpi_or (page_id : PageId) (txn_id : Z) (prev_lsn : Lsn) : op Db Lsn :=
  l <- on_io (maybe_log_fpi io page_id txn_id prev_lsn);;
  op_ret (default prev_lsn l).

Definition try_lock_row (row_id : RowId) (xid : Xid) : op Db unit := λ s,
  match try_acquire_write (d_locks s) (row (ri_page row_id) (ri_slot row_id)) xid with
  | (Refused e, t) => (Err e, mkDb (d_pool s) (d_wal s) t (d_fsm s))
  | (_, t) => (Ok tt, mkDb (d_pool s) (d_wal s) t (d_fsm s))
  end.

(** ** Page selection *)

Definition ensure_directory : op Db unit :=
  loaded <- gets (λ s, directory_loaded (d_fsm s));;
  if (loaded : bool) then op_ret tt
  else
    match fsm_tree h with
    | None => modify (set_fsm (λ f, mkFsm (pages f) (free_map f) true))
    | Some meta =>
        dir <- on_io (page_directory meta);;
        modify (set_fsm (λ f,
          mkFsm (merge_sort Z.le (pages f ++ filter (λ pid, pid ∉ pages f) dir.*1)) (free_map f) true))
    end.

Definition scan_pages : op Db (list PageId) :=
  ensure_directory;;
  gets (λ s, pages (d_fsm s)).

Definition alloc_heap_page : op Db PageId :=
  pid <- pool_op (alloc_page pio);;
  page <- lift (Page.new pid PAGE_TYPE_HEAP (h_page_size h));;
  free <- lift (free_space page);;
  t <- wal_op (begin_mini_txn io);;
  alloc_lsn <- wal_op (log_insert io t.1 t.2 pid U16_MAX []);;
  page <- lift (set_lsn page alloc_lsn);;
  store_page page;;
  commit_lsn <-
    match fsm_tree h with
    | Some meta =>
        on_io (insert_in_txn meta (KInt pid) (mkRowId pid (Z.min free U16_MAX)) t.1 alloc_lsn)
    | None => op_ret alloc_lsn
    end;;
  wal_op (commit_mini_txn io t.1 commit_lsn);;
  unpin_page pid;;
  pool_op (modify (mark_fpi_logged pid));;
  modify (set_fsm (λ f, mkFsm (pages f ++ [pid]) (<[pid := free]> (free_map f)) (directory_loaded f)));;
  op_ret pid.

(** Free bytes of a page, by fetching it. *)
Definition probe (page_id : PageId) : op Db Z :=
  page <- fetch_for_write page_id;;
  free <- lift (free_space page);;
  unpin_page page_id;;
  op_ret free.

Definition fits (needed : Z) (f : HeapFsm) (pid : PageId) : bool :=
  match free_map f !! pid with Some free => bool_decide (needed ≤ free) | None => false end.
Definition known_fit (needed : Z) (f : HeapFsm) : option PageId :=
  snd <$> list_find (λ pid, fits needed f pid = true) (reverse (pages f)).
Definition newest_unknown (f : HeapFsm) : option PageId :=
  snd <$> list_find (λ pid, free_map f !! pid = None) (reverse (pages f)).

(** The last page of the durable directory, probed once. *)
Definition probe_tail (needed : Z) : op Db (option PageId) :=
  match fsm_tree h with
  | None => op_ret None
  | Some meta =>
      e <- on_io (max_entry meta);;
      match e with
      | Some (KInt t, _) =>
          let tail := u32 t in
          probed <- gets (λ s, bool_decide (is_Some (free_map (d_fsm s) !! tail)));;
          if (probed : bool) then op_ret None
          else
            free <- probe tail;;
            modify (set_fsm (λ f,
              mkFsm (if decide (last (pages f) = Some tail) then pages f else pages f ++ [tail])
                (<[tail := free]> (free_map f)) (directory_loaded f)));;
            op_ret (if decide (needed ≤ free) then Some tail else None)
      | _ => op_ret None
      end
  end.

Definition find_or_alloc_page (needed : Z) : op Db PageId :=
  k <- gets (λ s, known_fit needed (d_fsm s));;
  match k with
  | Some pid => op_ret pid
  | None =>
      u <- gets (λ s, newest_unknown (d_fsm s));;
      fit <-
        match u with
        | Some newest =>
            free <- probe newest;;
            note_free_space newest free;;
            op_ret (if decide (needed ≤ free) then Some newest else None)
        | None => op_ret None
        end;;
      match fit with
      | Some pid => op_ret pid
      | None =>
          t <- probe_tail needed;;
          match t with
          | Some pid => op_ret pid
          | None => alloc_heap_page
          end
      end
  end.

(** The retry loop of the two acquire functions. *)
Fixpoint acquire_page (fuel : nat) (threshold : Z) : op Db (option (PageId * SlottedPage)) :=
  match fuel with
  | O => op_ret None
  | S fuel =>
      page_id <- find_or_alloc_page threshold;;
      page <- fetch_for_write page_id;;
      free <- lift (free_space page);;
      if decide (threshold ≤ free) then op_ret (Some (page_id, page))
      else
        unpin_page page_id;;
        note_free_space page_id free;;
        acquire_page fuel threshold
  end.

Definition reserve : Z := h_page_size h * (100 - fill_factor h) / 100.

Definition acquire_page_for_insert (fuel : nat) (needed : Z) : op Db (option (PageId * SlottedPage)) :=
  acquire_page fuel (needed + reserve).
Definition acquire_page_for_update (fuel : nat) (needed : Z) : op Db (option (PageId * SlottedPage)) :=
  acquire_page fuel needed.

(** ** Inserts *)

(** Insert into a page at hand, log it, write the page back and unpin it. *)
Definition insert_into (page_id : PageId) (page : SlottedPage) (data : list Z) (xid : Xid)
    (prev : option (PageId * Z)) (txn_id : Z) (prev_lsn : Lsn) : op Db (Z * Lsn * Z) :=
  r <- lift (insert_versioned page data xid 0 prev);;
  let slot := r.1 in
  ins_lsn <- wal_op (log_insert io txn_id prev_lsn page_id slot (encode_insert_redo xid prev data));;
  page <- lift (set_lsn r.2 ins_lsn);;
  store_page page;;
  free <- lift (free_space page);;
  unpin_page page_id;;
  op_ret (slot, ins_lsn, free).

Definition insert_version (fuel : nat) (data : list Z) (xid : Xid) (prev : option (PageId * Z))
    : op Db (option RowId) :=
  x <-? acquire_page_for_insert fuel (needed_for data);;
  let '(page_id, page) := x in
  t <- wal_op (begin_mini_txn io);;
  prev_lsn <- fpi_or page_id t.1 t.2;;
  i <- insert_into page_id page data xid prev t.1 prev_lsn;;
  let '(slot, ins_lsn, free) := i in
  note_free_space page_id free;;
  wal_op (commit_mini_txn io t.1 ins_lsn);;
  op_ret (Some (mkRowId page_id slot)).

Definition heap_insert (fuel : nat) (data : list Z) (xid : Xid) : op Db (option RowId) :=
  insert_version fuel data xid None.

Definition flush_insert_accum_impl (acc : InsertAccum) : op Db unit :=
  wal_op (commit_mini_txn io (acc_txn_id acc) (acc_last_lsn acc));; op_ret tt.

(** Open a page and a mini-transaction for the rows to come. *)
Definition open_accum (fuel : nat) (data : list Z) (xid : Xid) : op Db (option (RowId * option InsertAccum)) :=
  x <-? acquire_page_for_insert fuel (needed_for data);;
  let '(page_id, page) := x in
  t <- wal_op (begin_mini_txn io);;
  prev_lsn <- fpi_or page_id t.1 t.2;;
  i <- insert_into page_id page data xid None t.1 prev_lsn;;
  let '(slot, ins_lsn, free) := i in
  note_free_space page_id free;;
  op_ret (Some (mkRowId page_id slot, Some (mkAccum page_id t.1 ins_lsn))).

Definition insert_accumulating (fuel : nat) (data : list Z) (xid : Xid) (state : option InsertAccum)
    : op Db (option (RowId * option InsertAccum)) :=
  match state with
  | Some acc =>
      page <- fetch_for_write (acc_page_id acc);;
      free <- lift (free_space page);;
      if decide (needed_for data + reserve ≤ free) then
        i <- insert_into (acc_page_id acc) page data xid None (acc_txn_id acc) (acc_last_lsn acc);;
        let '(slot, ins_lsn, _) := i in
        op_ret (Some (mkRowId (acc_page_id acc) slot,
                      Some (mkAccum (acc_page_id acc) (acc_txn_id acc) ins_lsn)))
      else
        unpin_page (acc_page_id acc);;
        flush_insert_accum_impl acc;;
        open_accum fuel data xid
  | None => open_accum fuel data xid
  end.

Definition flush_insert_accum (state : option InsertAccum) : op Db (option InsertAccum) :=
  match state with
  | Some acc => flush_insert_accum_impl acc;; op_ret None
  | None => op_ret None
  end.

(** ** Updates and deletes of one row *)

(** A row another transaction has deleted: give the page and the mini-transaction
    up. *)
Definition conflict {A} (page_id : PageId) (txn_id : Z) (begin_lsn : Lsn) (holder_xid : Xid) : op Db A :=
  unpin_page page_id;;
  wal_op (abort_mini_txn io txn_id begin_lsn);;
  fail (WriteConflict holder_xid).

(** Stamp the old version of an update. *)
Definition stamp_old (row_id : RowId) (xid : Xid) (txn_id : Z) (begin_lsn : Lsn) : op Db Lsn :=
  old_page <- fetch_for_write (ri_page row_id);;
  old_th <- lift (tuple_header old_page (ri_slot row_id));;
  if decide (xmax old_th ≠ 0) then conflict (ri_page row_id) txn_id begin_lsn (xmax old_th)
  else
    xmax_prev <- fpi_or (ri_page row_id) txn_id begin_lsn;;
    xmax_lsn <- wal_op (log_update io txn_id xmax_prev (ri_page row_id) (ri_slot row_id)
                          (u64_to_le xid) (u64_to_le (xmax old_th)));;
    old_page <- lift (set_xmax old_page (ri_slot row_id) xid);;
    old_page <- lift (set_lsn old_page xmax_lsn);;
    store_page old_page;;
    unpin_page (ri_page row_id);;
    op_ret xmax_lsn.

Definition heap_update (fuel : nat) (row_id : RowId) (new_data : list Z) (xid : Xid)
    : op Db (option RowId) :=
  try_lock_row row_id xid;;
  t <- wal_op (begin_mini_txn io);;
  xmax_lsn <- stamp_old row_id xid t.1 t.2;;
  x <-? acquire_page_for_update fuel (needed_for new_data);;
  let '(new_page_id, new_page) := x in
  ins_prev <- fpi_or new_page_id t.1 xmax_lsn;;
  i <- insert_into new_page_id new_page new_data xid (Some (ri_page row_id, ri_slot row_id)) t.1 ins_prev;;
  let '(new_slot, ins_lsn, new_free) := i in
  note_free_space new_page_id new_free;;
  wal_op (commit_mini_txn io t.1 ins_lsn);;
  op_ret (Some (mkRowId new_page_id new_slot)).

Definition heap_delete (row_id : RowId) (xid : Xid) : op Db unit :=
  try_lock_row row_id xid;;
  t <- wal_op (begin_mini_txn io);;
  page <- fetch_for_write (ri_page row_id);;
  th <- lift (tuple_header page (ri_slot row_id));;
  if decide (xmax th ≠ 0) then conflict (ri_page row_id) t.1 t.2 (xmax th)
  else
    prev_lsn <- fpi_or (ri_page row_id) t.1 t.2;;
    lsn <- wal_op (log_update io t.1 prev_lsn (ri_page row_id) (ri_slot row_id)
                     (u64_to_le xid) (u64_to_le (xmax th)));;
    page <- lift (set_xmax page (ri_slot row_id) xid);;
    b <- lift (best_effort page (set_xmin_hint page (ri_slot row_id) TUPLE_HINT_XMIN_COMMITTED));;
    page <- lift (set_lsn b.2 lsn);;
    store_page page;;
    unpin_page (ri_page row_id);;
    wal_op (commit_mini_txn io t.1 lsn);;
    op_ret tt.

(** ** HOT updates *)

(** The same-page attempt; [None] when the page is too full. *)
Definition hot_same_page (old_rid : RowId) (new_data : list Z) (xid : Xid)
    : op Db (option HotInsertResult) :=
  t <- wal_op (begin_mini_txn io);;
  old_page <- fetch_for_write (ri_page old_rid);;
  old_th <- lift (tuple_header old_page (ri_slot old_rid));;
  if decide (xmax old_th ≠ 0) then conflict (ri_page old_rid) t.1 t.2 (xmax old_th)
  else
    free <- lift (free_space old_page);;
    if decide (needed_for new_data ≤ free) then
      fpi_prev <- fpi_or (ri_page old_rid) t.1 t.2;;
      let prev_ptr := Some (ri_page old_rid, ri_slot old_rid) in
      r <- lift (insert_versioned old_page new_data xid 0 prev_ptr);;
      let new_slot := r.1 in
      old_page <- lift (set_xmax r.2 (ri_slot old_rid) xid);;
      old_page <- lift (set_hot_next old_page (ri_slot old_rid) new_slot);;
      hot_lsn <- wal_op (log_hot_update io t.1 fpi_prev (ri_page old_rid) xid (ri_slot old_rid) new_slot
                           (encode_insert_redo xid prev_ptr new_data));;
      old_page <- lift (set_lsn old_page hot_lsn);;
      store_page old_page;;
      new_free <- lift (free_space old_page);;
      unpin_page (ri_page old_rid);;
      note_free_space (ri_page old_rid) new_free;;
      wal_op (commit_mini_txn io t.1 hot_lsn);;
      op_ret (Some (mkHotResult (mkRowId (ri_page old_rid) new_slot) None))
    else
      unpin_page (ri_page old_rid);;
      wal_op (abort_mini_txn io t.1 t.2);;
      op_ret None.

(** The version pointer of the old version, before it is overwritten. *)
Definition saved_version (old_rid : RowId) : op Db (PageId * Z) :=
  old_page <- pool_op (fetch_page pio (ri_page old_rid));;
  th <- lift (tuple_header old_page (ri_slot old_rid));;
  unpin_page (ri_page old_rid);;
  if decide (xmax th ≠ 0) then fail (WriteConflict (xmax th))
  else op_ret (prev_page th, prev_slot th).

(** Stamp the old version and point it at the new one on another page. *)
Definition forward_old (old_rid new_rid : RowId) (saved : PageId * Z) (xid : Xid) (txn_id : Z)
    (ins_lsn : Lsn) : op Db Lsn :=
  old_page <- fetch_for_write (ri_page old_rid);;
  fpi_old <- fpi_or (ri_page old_rid) txn_id ins_lsn;;
  head_lsn <- wal_op (log_hot_xpage_head io txn_id fpi_old (ri_page old_rid) xid (ri_slot old_rid)
                        (ri_page new_rid) (ri_slot new_rid) saved.1 saved.2);;
  old_page <- lift (set_xmax old_page (ri_slot old_rid) xid);;
  old_page <- lift (set_hot_xpage old_page (ri_slot old_rid) (ri_page new_rid) (ri_slot new_rid));;
  old_page <- lift (set_lsn old_page head_lsn);;
  store_page old_page;;
  unpin_page (ri_page old_rid);;
  op_ret head_lsn.

Definition hot_cross_page (fuel : nat) (old_rid : RowId) (new_data : list Z) (xid : Xid)
    : op Db (option HotInsertResult) :=
  saved <- saved_version old_rid;;
  t <- wal_op (begin_mini_txn io);;
  x <-? acquire_page_for_update fuel (needed_for new_data);;
  let '(new_page_id, new_page) := x in
  fpi_new <- fpi_or new_page_id t.1 t.2;;
  i <- insert_into new_page_id new_page new_data xid (Some (ri_page old_rid, ri_slot old_rid)) t.1 fpi_new;;
  let '(new_slot, ins_lsn, new_free) := i in
  note_free_space new_page_id new_free;;
  let rid := mkRowId new_page_id new_slot in
  commit_lsn <- forward_old old_rid rid saved xid t.1 ins_lsn;;
  wal_op (commit_mini_txn io t.1 commit_lsn);;
  op_ret (Some (mkHotResult rid (Some saved))).

Definition fsm_says_full (needed : Z) (f : HeapFsm) (pid : PageId) : bool :=
  match free_map f !! pid with Some free => bool_decide (free < needed) | None => false end.

(** Never [None] of its own: the outer option is the acquire loop's. *)
Definition try_hot_insert (fuel : nat) (old_rid : RowId) (new_data : list Z) (xid : Xid)
    : op Db (option HotInsertResult) :=
  full <- gets (λ s, fsm_says_full (needed_for new_data) (d_fsm s) (ri_page old_rid));;
  try_lock_row old_rid xid;;
  if (full : bool) then hot_cross_page fuel old_rid new_data xid
  else
    o <- hot_same_page old_rid new_data xid;;
    match o with
    | Some res => op_ret (Some res)
    | None => hot_cross_page fuel old_rid new_data xid
    end.

(** ** Batches *)

(** Conflict check of every row of a page group. *)
Definition check_conflicts (page_id : PageId) (page : SlottedPage) (t : Z * Lsn) (slots : list Z)
    : op Db unit :=
  each (λ slot,
    th <- lift (tuple_header page slot);;
    if decide (xmax th ≠ 0) then conflict page_id t.1 t.2 (xmax th) else op_ret tt) slots.

Definition stamp_all (xid : Xid) (page : SlottedPage) (slots : list Z) : Result SlottedPage :=
  for_each (λ page slot, set_xmax page slot xid) page slots.

(** Stamp the rows of one page in one mini-transaction. *)
Definition stamp_group (xid : Xid) (page_id : PageId) (slots : list Z) : op Db unit :=
  t <- wal_op (begin_mini_txn io);;
  page <- fetch_for_write page_id;;
  check_conflicts page_id page t slots;;
  prev_lsn <- fpi_or page_id t.1 t.2;;
  lsn <- wal_op (log_xmax_batch io t.1 prev_lsn page_id xid slots);;
  page <- lift (stamp_all xid page slots);;
  page <- lift (set_lsn page lsn);;
  store_page page;;
  unpin_page page_id;;
  wal_op (commit_mini_txn io t.1 lsn);;
  op_ret tt.

Definition delete_many (row_ids : list RowId) (xid : Xid) : op Db (list RowId) :=
  each (λ g, stamp_group xid g.1 (ri_slot <$> g.2)) (groups ri_page row_ids);;
  op_ret row_ids.

(** The rows to insert: the old version and the new payload. *)
Abbreviation NewRow := (RowId * list Z)%type.

Definition prev_of (old_rid : RowId) : option (PageId * Z) := Some (ri_page old_rid, ri_slot old_rid).

(** The page to fill next: the one at hand if it has room, or an acquired one. *)
Definition fill_page (fuel : nat) (cursor : option (PageId * Z)) (needed : Z)
    : op Db (option (PageId * SlottedPage)) :=
  match cursor with
  | Some (pid, free) =>
      if decide (needed ≤ free) then page <- fetch_for_write pid;; op_ret (Some (pid, page))
      else acquire_page_for_update fuel needed
  | None => acquire_page_for_update fuel needed
  end.

(** Rows inserted while they fit, each with its own record; the rest. *)
Fixpoint fill_logged (fill_pid : PageId) (xid : Xid) (txn_id : Z) (page : SlottedPage) (prev_lsn : Lsn)
    (rows : list NewRow) : op Db (SlottedPage * Lsn * list (RowId * RowId) * list NewRow) :=
  match rows with
  | [] => op_ret (page, prev_lsn, [], [])
  | (old_rid, new_data) :: rest =>
      free <- lift (free_space page);;
      if decide (free < needed_for new_data) then op_ret (page, prev_lsn, [], rows)
      else
        r <- lift (insert_versioned page new_data xid 0 (prev_of old_rid));;
        ins_lsn <- wal_op (log_insert io txn_id prev_lsn fill_pid r.1
                             (encode_insert_redo xid (prev_of old_rid) new_data));;
        x <- fill_logged fill_pid xid txn_id r.2 ins_lsn rest;;
        let '(page, last_lsn, out, remaining) := x in
        op_ret (page, last_lsn, (old_rid, mkRowId fill_pid r.1) :: out, remaining)
  end.

(** Rows inserted while they fit, for one record; the rest. *)
Fixpoint fill_batch (fill_pid : PageId) (xid : Xid) (page : SlottedPage) (rows : list NewRow)
    : Result (SlottedPage * list (Z * list Z) * list (RowId * RowId) * list NewRow) :=
  match rows with
  | [] => Ok (page, [], [], [])
  | (old_rid, new_data) :: rest =>
      free ← free_space page;
      if decide (free < needed_for new_data) then Ok (page, [], [], rows)
      else
        r ← insert_versioned page new_data xid 0 (prev_of old_rid);
        x ← fill_batch fill_pid xid r.2 rest;
        let '(page, page_rows, out, remaining) := x in
        Ok (page, (r.1, encode_insert_redo xid (prev_of old_rid) new_data) :: page_rows,
            (old_rid, mkRowId fill_pid r.1) :: out, remaining)
  end.

(** The insert phase of [update_many]; [n] bounds the pages filled. *)
Fixpoint insert_phase (n fuel : nat) (xid : Xid) (cursor : option (PageId * Z)) (rows : list NewRow)
    : op Db (option (list (RowId * RowId))) :=
  match rows, n with
  | [], _ => op_ret (Some [])
  | _, O => op_ret None
  | (_, first_data) :: _, S n =>
      x <-? fill_page fuel cursor (needed_for first_data);;
      let '(fill_pid, page) := x in
      t <- wal_op (begin_mini_txn io);;
      prev_lsn <- fpi_or fill_pid t.1 t.2;;
      x <- fill_logged fill_pid xid t.1 page prev_lsn rows;;
      let '(page, last_lsn, out, remaining) := x in
      page <- lift (set_lsn page last_lsn);;
      store_page page;;
      free <- lift (free_space page);;
      unpin_page fill_pid;;
      note_free_space fill_pid free;;
      wal_op (commit_mini_txn io t.1 last_lsn);;
      more <-? insert_phase n fuel xid (Some (fill_pid, free)) remaining;;
      op_ret (Some (out ++ more))
  end.

Definition update_many (n fuel : nat) (rows : list NewRow) (xid : Xid)
    : op Db (option (list (RowId * RowId))) :=
  each (λ g, stamp_group xid g.1 ((λ r, ri_slot r.1) <$> g.2)) (groups (λ r, ri_page r.1) rows);;
  insert_phase n fuel xid None rows.

(** Phase A of [hot_update_many]: the version pointers are read as the rows are
    stamped. *)
Definition hot_stamp_group (xid : Xid) (g : Z * list NewRow) : op Db (list (PageId * Z)) :=
  let page_id := g.1 in
  let slots := (λ r, ri_slot r.1) <$> g.2 in
  t <- wal_op (begin_mini_txn io);;
  page <- fetch_for_write page_id;;
  check_conflicts page_id page t slots;;
  prev_lsn <- fpi_or page_id t.1 t.2;;
  r <- lift (for_each (λ st slot,
         th ← tuple_header st.1 slot;
         page ← set_xmax st.1 slot xid;
         Ok (page, st.2 ++ [(prev_page th, prev_slot th)])) (page, []) slots);;
  lsn <- wal_op (log_xmax_batch io t.1 prev_lsn page_id xid slots);;
  page <- lift (set_lsn r.1 lsn);;
  store_page page;;
  new_free <- lift (free_space page);;
  unpin_page page_id;;
  wal_op (commit_mini_txn io t.1 lsn);;
  note_free_space page_id new_free;;
  op_ret r.2.

Fixpoint hot_stamp_phase (xid : Xid) (gs : list (Z * list NewRow)) : op Db (list (PageId * Z)) :=
  match gs with
  | [] => op_ret []
  | g :: gs =>
      a <- hot_stamp_group xid g;;
      b <- hot_stamp_phase xid gs;;
      op_ret (a ++ b)
  end.

(** Phase B of [hot_update_many]: one record per page filled. *)
Fixpoint hot_insert_phase (n fuel : nat) (xid : Xid) (cursor : option (PageId * Z)) (rows : list NewRow)
    : op Db (option (list (RowId * RowId))) :=
  match rows, n with
  | [], _ => op_ret (Some [])
  | _, O => op_ret None
  | (_, first_data) :: _, S n =>
      x <-? fill_page fuel cursor (needed_for first_data);;
      let '(fill_pid, page) := x in
      t <- wal_op (begin_mini_txn io);;
      prev_lsn <- fpi_or fill_pid t.1 t.2;;
      x <- lift (fill_batch fill_pid xid page rows);;
      let '(page, page_rows, out, remaining) := x in
      last_lsn <- wal_op (log_insert_batch io t.1 prev_lsn fill_pid xid page_rows);;
      page <- lift (set_lsn page last_lsn);;
      store_page page;;
      free <- lift (free_space page);;
      unpin_page fill_pid;;
      note_free_space fill_pid free;;
      wal_op (commit_mini_txn io t.1 last_lsn);;
      more <-? hot_insert_phase n fuel xid (Some (fill_pid, free)) remaining;;
      op_ret (Some (out ++ more))
  end.

(** Phase C of [hot_update_many]: the forward pointers of one old page.  An element is
    the old and the new row id and the saved version pointer. *)
Definition forward_group (xid : Xid) (g : Z * list (RowId * RowId * (PageId * Z))) : op Db unit :=
  let page_id := g.1 in
  t <- wal_op (begin_mini_txn io);;
  page <- fetch_for_write page_id;;
  prev_lsn <- fpi_or page_id t.1 t.2;;
  page <- lift (for_each (λ page e,
            set_hot_xpage page (ri_slot e.1.1) (ri_page e.1.2) (ri_slot e.1.2)) page g.2);;
  batch_lsn <- wal_op (log_hot_xpage_batch io t.1 prev_lsn page_id xid
                 ((λ e, (ri_slot e.1.1, ri_page e.1.2, ri_slot e.1.2, e.2.1, e.2.2)) <$> g.2));;
  page <- lift (set_lsn page batch_lsn);;
  store_page page;;
  new_free <- lift (free_space page);;
  unpin_page page_id;;
  wal_op (commit_mini_txn io t.1 batch_lsn);;
  note_free_space page_id new_free.

Definition hot_update_many (n fuel : nat) (rows : list NewRow) (xid : Xid)
    : op Db (option (list (RowId * RowId * (PageId * Z)))) :=
  saved <- hot_stamp_phase xid (groups (λ r, ri_page r.1) rows);;
  b_pairs <-? hot_insert_phase n fuel xid None rows;;
  let result := zip b_pairs saved in
  each (forward_group xid) (groups (λ e, ri_page e.1.1) result);;
  op_ret (Some result).

(** ** Undo *)

(** Change the page under a mini-transaction with one logged stamp. *)
Definition restamp (page_id : PageId) (slot : Z) (redo_xmax : Xid)
    (undo_xmax : SlottedPage → Result Xid) : op Db unit :=
  t <- wal_op (begin_mini_txn io);;
  page <- fetch_for_write page_id;;
  old_xmax <- lift (undo_xmax page);;
  prev_lsn <- fpi_or page_id t.1 t.2;;
  lsn <- wal_op (log_update io t.1 prev_lsn page_id slot (u64_to_le redo_xmax) (u64_to_le old_xmax));;
  page <- lift (set_xmax page slot redo_xmax);;
  page <- lift (set_lsn page lsn);;
  store_page page;;
  unpin_page page_id;;
  wal_op (commit_mini_txn io t.1 lsn);;
  op_ret tt.

Definition undo_xmax_stamp (page_id : PageId) (slot : Z) : op Db unit :=
  restamp page_id slot 0 (λ page, th ← tuple_header page slot; Ok (xmax th)).

Definition heap_undo_insert_op (page_id : PageId) (slot : Z) (xid : Xid) : op Db unit :=
  restamp page_id slot xid (λ _, Ok 0).

Fixpoint clear_stamps (page_id : PageId) (txn_id : Z) (page : SlottedPage) (last_lsn : Lsn)
    (slots : list Z) : op Db (SlottedPage * Lsn) :=
  match slots with
  | [] => op_ret (page, last_lsn)
  | slot :: slots =>
      th <- lift (tuple_header page slot);;
      lsn <- wal_op (log_update io txn_id last_lsn page_id slot (u64_to_le 0) (u64_to_le (xmax th)));;
      page <- lift (set_xmax page slot 0);;
      clear_stamps page_id txn_id page lsn slots
  end.

(** [debug_assert!] checks that there are slots. *)
Definition undo_xmax_stamp_batch (page_id : PageId) (slots : list Z) : op Db unit :=
  t <- wal_op (begin_mini_txn io);;
  page <- fetch_for_write page_id;;
  prev_lsn <- fpi_or page_id t.1 t.2;;
  x <- clear_stamps page_id t.1 page prev_lsn slots;;
  page <- lift (set_lsn x.1 x.2);;
  store_page page;;
  unpin_page page_id;;
  wal_op (commit_mini_txn io t.1 x.2);;
  op_ret tt.

Definition undo_hot_update_op (page_id : PageId) (old_slot new_slot : Z) (xid : Xid) : op Db unit :=
  t <- wal_op (begin_mini_txn io);;
  page <- fetch_for_write page_id;;
  prev_lsn <- fpi_or page_id t.1 t.2;;
  new_xmax_lsn <- wal_op (log_update io t.1 prev_lsn page_id new_slot (u64_to_le xid) (u64_to_le 0));;
  page <- lift (set_xmax page new_slot xid);;
  page <- lift (set_hot_next page old_slot HOT_NEXT_NONE);;
  th <- lift (tuple_header page old_slot);;
  old_xmax_lsn <- wal_op (log_update io t.1 new_xmax_lsn page_id old_slot (u64_to_le 0) (u64_to_le (xmax th)));;
  page <- lift (set_xmax page old_slot 0);;
  page <- lift (set_lsn page old_xmax_lsn);;
  store_page page;;
  unpin_page page_id;;
  wal_op (commit_mini_txn io t.1 old_xmax_lsn);;
  op_ret tt.

Definition undo_hot_xpage_update (old_page_id : PageId) (old_slot : Z) (new_page_id : PageId) (new_slot : Z)
    (saved_prev_page : PageId) (saved_prev_slot : Z) (xid : Xid) : op Db unit :=
  t <- wal_op (begin_mini_txn io);;
  new_page <- fetch_for_write new_page_id;;
  fpi_new <- fpi_or new_page_id t.1 t.2;;
  phase1_lsn <- wal_op (log_update io t.1 fpi_new new_page_id new_slot (u64_to_le xid) (u64_to_le 0));;
  new_page <- lift (set_xmax new_page new_slot xid);;
  new_page <- lift (set_lsn new_page phase1_lsn);;
  store_page new_page;;
  unpin_page new_page_id;;
  old_page <- fetch_for_write old_page_id;;
  fpi_old <- fpi_or old_page_id t.1 phase1_lsn;;
  old_page <- lift (restore_prev_and_hot_next old_page old_slot saved_prev_page saved_prev_slot);;
  th <- lift (tuple_header old_page old_slot);;
  old_xmax_lsn <- wal_op (log_update io t.1 fpi_old old_page_id old_slot (u64_to_le 0) (u64_to_le (xmax th)));;
  old_page <- lift (set_xmax old_page old_slot 0);;
  old_page <- lift (set_lsn old_page old_xmax_lsn);;
  store_page old_page;;
  unpin_page old_page_id;;
  wal_op (commit_mini_txn io t.1 old_xmax_lsn);;
  op_ret tt.

(** ** Vacuum *)

Definition heap_mark_dead (row_id : RowId) : op Db unit :=
  t <- wal_op (begin_mini_txn io);;
  page <- fetch_for_write (ri_page row_id);;
  prev_lsn <- fpi_or (ri_page row_id) t.1 t.2;;
  lsn <- wal_op (log_vacuum io t.1 prev_lsn (ri_page row_id) (ri_slot row_id) []);;
  page <- lift (mark_dead page (ri_slot row_id));;
  page <- lift (set_lsn page lsn);;
  store_page page;;
  unpin_page (ri_page row_id);;
  wal_op (commit_mini_txn io t.1 lsn);;
  op_ret tt.

Definition compact_page (page_id : PageId) : op Db Z :=
  t <- wal_op (begin_mini_txn io);;
  page <- fetch_for_write page_id;;
  r <- lift (compact page);;
  lsn <- wal_op (log_vacuum io t.1 t.2 page_id U16_MAX (data r.2));;
  page <- lift (set_lsn r.2 lsn);;
  store_page page;;
  free <- lift (free_space page);;
  unpin_page page_id;;
  wal_op (commit_mini_txn io t.1 lsn);;
  pool_op (modify (mark_fpi_logged page_id));;
  note_free_space page_id free;;
  match fsm_tree h with
  | Some meta => on_io (set_value meta (KInt page_id) (mkRowId page_id (Z.min free U16_MAX)))
  | None => op_ret tt
  end;;
  op_ret r.1.

End heap.
