(* ===== verification/RedoPage.v ===== *)
(** Redo on one page: what the engine did to a page and logged, and that replaying the
    log on the page as it was at any earlier flush gives the page the engine had, up
    to hint bits. *)

From stdpp Require Import base numbers list gmap sets strings.
From S2P Require Import Prelude Format Page PageSpec PageOps PageCompact PageProps PageHints.
From S2P Require Import WalCodec Wal BufferPool Control Txn BTreeNode LogPayload Recovery HeapRead.
From S2P Require Import Heap.

Section redo.
Context `{!Crc32}.

(** ** Redo of a record on its page *)

(** The effect of [redo_record] on the record's page, [None] when it is skipped. *)
Definition page_redo (r : WalRecord) (q : SlottedPage) : Result (option SlottedPage) :=
  let ty := w_rec_type r in
  if decide (ty = WAL_FPI) then Ok (Some (mkPage (w_redo r)))
  else if decide (ty = WAL_INSERT) then redo_insert_page r q
  else if decide (ty = WAL_UPDATE) then redo_update_page r q
  else if decide (ty = WAL_DELETE) then redo_delete_page r q
  else if decide (ty = WAL_VACUUM) then redo_vacuum_page r q
  else if decide (ty = WAL_XMAX_BATCH) then
    d ← decode_xmax_batch_redo (w_redo r); redo_xmax_batch_page r d.1 d.2 q
  else if decide (ty = WAL_HOT_XPAGE_HEAD) then
    xid ← read_u64 (w_redo r) 0;
    old_slot ← read_u16 (w_redo r) 8;
    new_page_id ← read_u32 (w_redo r) 10;
    new_slot ← read_u16 (w_redo r) 14;
    redo_hot_xpage_head_page r xid (old_slot, new_page_id, new_slot) q
  else if decide (ty = WAL_HOT_UPDATE) then
    d ← decode_hot_update_redo (w_redo r);
    let '(xid, old_slot, new_slot, insert_redo) := d in
    redo_hot_update_page r xid old_slot new_slot insert_redo q
  else if decide (ty = WAL_INSERT_BATCH) then
    rows ← decode_insert_batch_redo (w_redo r); redo_insert_batch_page r rows q
  else if decide (ty = WAL_HOT_XPAGE_BATCH) then
    d ← decode_hot_xpage_batch_redo (w_redo r); redo_hot_xpage_batch_page r d.1 d.2 q
  else Ok None.

(** An error is logged and skipped. *)
Definition replay (q : SlottedPage) (r : WalRecord) : SlottedPage :=
  match page_redo r q with Ok (Some q') => q' | _ => q end.

(** ** What the engine does and logs *)

(** A row of a batch: its slot, the version it supersedes and its payload. *)
Abbreviation BatchRow := (Z * option (PageId * Z) * list Z)%type.

Definition prev_ok (prev : option (PageId * Z)) : Prop :=
  ∀ pp ps, prev = Some (pp, ps) → pid_ok pp ∧ pp ≠ INVALID_PAGE_ID ∧ slot_ok ps.
Definition row_ok (row : BatchRow) : Prop :=
  slot_ok row.1.1 ∧ prev_ok row.1.2 ∧ bytes row.2 ∧ zlen row.2 < 2 ^ 31.
Definition batch_row (xid : Xid) (row : BatchRow) : Z * list Z :=
  (row.1.1, encode_insert_redo xid row.1.2 row.2).

(** Insert the rows of a batch, at the slots they have. *)
Definition insert_all (xid : Xid) (p : SlottedPage) (rows : list BatchRow) : Result SlottedPage :=
  for_each (λ p row,
    '(slot, p) ← insert_versioned p row.2 xid 0 row.1.2;
    if decide (slot = row.1.1) then Ok p else Panic) p rows.

(** Point old versions at their new ones. *)
Definition forward_all (p : SlottedPage) (es : list (Z * Z * Z)) : Result SlottedPage :=
  for_each (λ p e, set_hot_xpage p e.1.1 e.1.2 e.2) p es.

Definition stamped (xid : Xid) (p : SlottedPage) (s : Z) : Prop :=
  ∃ th, tuple_header p s = Ok th ∧ xmax th = xid.

(** The heap operations of [Heap] change a page in these ways before they stamp it
    with the record's LSN.  Fields of the payload fit their widths. *)
Inductive did : WalRecord → SlottedPage → SlottedPage → Prop :=
| did_insert r p p1 xid prev payload :
    w_rec_type r = WAL_INSERT → w_redo r = encode_insert_redo xid prev payload →
    xid_ok xid → prev_ok prev →
    bytes payload → insert_versioned p payload xid 0 prev = Ok (w_slot r, p1) → did r p p1
| did_update r p p1 xmax :
    w_rec_type r = WAL_UPDATE → w_redo r = u64_to_le xmax → xid_ok xmax → 0 ≤ w_slot r →
    set_xmax p (w_slot r) xmax = Ok p1 → did r p p1
| did_xmax_batch r p p1 xid slots :
    w_rec_type r = WAL_XMAX_BATCH → w_redo r = xmax_batch_redo xid slots →
    xid_ok xid → Forall slot_ok slots → zlen slots < 2 ^ 16 → stamp_all xid p slots = Ok p1 → did r p p1
| did_hot_update r p p1 p2 p3 xid old_slot new_slot prev payload :
    w_rec_type r = WAL_HOT_UPDATE →
    w_redo r = hot_update_redo xid old_slot new_slot (encode_insert_redo xid prev payload) →
    xid_ok xid → slot_ok old_slot → slot_ok new_slot →
    prev_ok prev → bytes payload →
    insert_versioned p payload xid 0 prev = Ok (new_slot, p1) → old_slot ≠ new_slot →
    set_xmax p1 old_slot xid = Ok p2 → set_hot_next p2 old_slot new_slot = Ok p3 → did r p p3
| did_hot_xpage_head r p p1 p2 xid old_slot new_pid new_slot :
    w_rec_type r = WAL_HOT_XPAGE_HEAD → w_redo r = hot_xpage_redo xid old_slot new_pid new_slot →
    xid_ok xid → slot_ok old_slot → pid_ok new_pid → slot_ok new_slot →
    set_xmax p old_slot xid = Ok p1 → set_hot_xpage p1 old_slot new_pid new_slot = Ok p2 → did r p p2
| did_insert_batch r p p1 xid rows :
    w_rec_type r = WAL_INSERT_BATCH → w_redo r = insert_batch_redo xid (batch_row xid <$> rows) →
    xid_ok xid → Forall row_ok rows → zlen rows < 2 ^ 16 → insert_all xid p rows = Ok p1 → did r p p1
| did_hot_xpage_batch r p p1 xid entries :
    w_rec_type r = WAL_HOT_XPAGE_BATCH → w_redo r = hot_xpage_batch_redo xid entries →
    xid_ok xid → Forall entry_ok entries → zlen entries < 2 ^ 16 →
    Forall (λ e, stamped xid p e.1.1) (entry_new <$> entries) →
    forward_all p (entry_new <$> entries) = Ok p1 → did r p p1
| did_mark_dead r p p1 :
    w_rec_type r = WAL_VACUUM → 0 ≤ w_slot r < U16_MAX → mark_dead p (w_slot r) = Ok p1 → did r p p1
| did_compact r p p1 n :
    w_rec_type r = WAL_VACUUM → w_slot r = U16_MAX → w_redo r = data p1 → compact p = Ok (n, p1) → did r p p1.

(** An insert that takes a new line pointer. *)
Definition appends (p : SlottedPage) (slot : Z) : Prop := slot = f_sc (data p).

Definition fresh_slot (r : WalRecord) (p : SlottedPage) : Prop :=
  (w_rec_type r = WAL_INSERT → appends p (w_slot r)) ∧
  (∀ d, w_rec_type r = WAL_HOT_UPDATE → decode_hot_update_redo (w_redo r) = Ok d → appends p d.1.2) ∧
  (∀ rows, w_rec_type r = WAL_INSERT_BATCH → decode_insert_batch_redo (w_redo r) = Ok rows →
     rows.*1 = seqZ (f_sc (data p)) (zlen rows)).

(** ** Wellformedness of what was done *)

Lemma length_slots p : page_wf p → Z.of_nat (length (slots p)) = f_sc (data p).
Proof. intros [[] ?]. unfold slots. rewrite length_aslots. lia. Qed.

Lemma updates_slot_wf p s f p' : updates_slot p s f (Ok p') → page_wf p' ∧ same_meta p p' ∧
  ∃ b, slots p !! Z.to_nat s = Some (ALive b) ∧ slots p' = <[Z.to_nat s := f b]> (slots p).
Proof.
  unfold updates_slot. destruct (slots p !! Z.to_nat s) as [[b| |]|]; try done.
  intros (q&[= <-]&?&?&?). eauto 6.
Qed.

Lemma insert_versioned_wf p payload xmin xmax prev slot p1 : page_wf p → bytes payload →
  insert_versioned p payload xmin xmax prev = Ok (slot, p1) →
  ∃ pp ps, default (INVALID_PAGE_ID, 0) prev = (pp, ps) ∧
    let body := header_bytes xmin xmax pp ps HOT_NEXT_NONE ++ payload in
    let needed := zlen body + (if decide (slot < f_sc (data p)) then 0 else 4) in
    page_wf p1 ∧ 0 ≤ slot ≤ f_sc (data p) ∧ needed ≤ p_free p ∧
    rd (data p1) 0 4 = rd (data p) 0 4 ∧ rd (data p1) 12 8 = rd (data p) 12 8 ∧
    zlen (data p1) = zlen (data p) ∧ p_free p1 = p_free p - needed ∧
    a_insert (slots p) body = (Z.to_nat slot, slots p1).
Proof.
  intros Hp Hb E. destruct (default (INVALID_PAGE_ID, 0) prev) as [pp ps] eqn:Hprev.
  exists pp, ps. split; [done|]. cbv zeta. set (body := _ ++ payload).
  destruct (a_insert (slots p) body) as [i ss] eqn:Ei.
  pose proof (insert_versioned_abs p payload xmin xmax prev pp ps i ss Hp Hb Hprev Ei) as Hi.
  cbv zeta in Hi. fold body in Hi. pose proof (length_slots p Hp) as Hl.
  case_decide as Hroom; [congruence|]. destruct Hi as (p'&E'&Hp'&Hlsn&[= Hid Hz Hf Hss]).
  rewrite E in E'. injection E' as -> <-.
  assert ((if decide (i < length (slots p))%nat then 0 else 4) =
          (if decide (Z.of_nat i < f_sc (data p)) then 0 else 4)) as Hn by (repeat case_decide; lia).
  rewrite Hn in *. unfold p_free. rewrite Nat2Z.id.
  split; [done|]. split; [|split_and!; try done; lia || congruence].
  split; [lia|]. unfold a_insert in Ei. destruct (list_find _ _) as [[k x]|] eqn:Ef; injection Ei as <- _; [|lia].
  apply list_find_Some in Ef as (Hk&_). apply lookup_lt_Some in Hk. lia.
Qed.

(** A [did] step keeps the page well formed; its slot count does not shrink. *)
Lemma stamp_all_wf xid slots p p1 : page_wf p → Forall slot_ok slots → stamp_all xid p slots = Ok p1 →
  page_wf p1 ∧ same_meta p p1 ∧ length (PageSpec.slots p1) = length (PageSpec.slots p).
Proof.
  intros Hp Hs. revert p Hp. unfold stamp_all.
  induction Hs as [|s slots Hs0 Hs IH]; intros p Hp E; simpl in E.
  { injection E as <-. by split. }
  destruct (set_xmax p s xid) as [p'|e|] eqn:E'; try done. simpl in E.
  assert (0 ≤ s) as Hs1 by (unfold slot_ok in Hs0; lia).
  pose proof (set_xmax_updates p s xid Hp Hs1) as U. rewrite E' in U.
  apply updates_slot_wf in U as (Hp'&Hm&b&_&Hss). destruct (IH p' Hp' E) as (?&?&Hl).
  split; [done|]. split; [by eapply same_meta_trans|]. by rewrite Hl, Hss, length_insert.
Qed.

Lemma same_meta_sc p p' : same_meta p p' → f_sc (data p') = f_sc (data p).
Proof. intros [_ Hr]. apply Hr; lia. Qed.

Record extends (p p1 : SlottedPage) : Prop := {
  ex_wf : page_wf p1;
  ex_sc : f_sc (data p) ≤ f_sc (data p1);
  ex_id : rd (data p1) 0 4 = rd (data p) 0 4;
  ex_size : zlen (data p1) = zlen (data p);
}.

Lemma extends_meta p p1 : page_wf p1 → same_meta p p1 → extends p p1.
Proof.
  intros Hp Hm. pose proof (same_meta_sc _ _ Hm). destruct Hm as [Hz Hr].
  constructor; try done; [lia|]. apply Hr; lia.
Qed.
#[local] Instance extends_trans : Transitive extends.
Proof. intros p q r [] []. constructor; try done; try congruence; lia. Qed.

Lemma extends_update p s f p1 : updates_slot p s f (Ok p1) → extends p p1.
Proof. intros (?&?&_)%updates_slot_wf. by apply extends_meta. Qed.

Lemma extends_insert p payload xmin xmax prev slot p1 : page_wf p → bytes payload →
  insert_versioned p payload xmin xmax prev = Ok (slot, p1) → extends p p1.
Proof.
  intros Hp Hb E. destruct (insert_versioned_wf _ _ _ _ _ _ _ Hp Hb E)
    as (pp&ps&_&Hp1&_&_&?&_&?&_&Ea). constructor; try done.
  pose proof (length_slots p Hp). pose proof (length_slots p1 Hp1).
  unfold a_insert in Ea. destruct (list_find _ _) as [[k x]|]; injection Ea as _ Hss;
    apply (f_equal length) in Hss; rewrite ?length_insert, ?length_app in Hss; simpl in Hss; lia.
Qed.

(** A loop of extending steps extends. *)
Lemma extends_for_each {A} (f : SlottedPage → A → Result SlottedPage) (P : A → Prop) l p p1 :
  (∀ p a p', page_wf p → P a → f p a = Ok p' → extends p p') → page_wf p → Forall P l →
  for_each f p l = Ok p1 → extends p p1.
Proof.
  intros Hf Hp Hl. revert p Hp. induction Hl as [|a l Ha Hl IH]; intros p Hp E; simpl in E.
  { injection E as <-. by apply extends_meta. }
  destruct (f p a) as [p'|e|] eqn:Ef; try done. simpl in E. pose proof (Hf _ _ _ Hp Ha Ef) as X.
  etrans; [exact X|]. apply IH; [apply X|done].
Qed.

Lemma insert_all_extends xid rows p p1 : page_wf p → Forall row_ok rows → insert_all xid p rows = Ok p1 →
  extends p p1.
Proof.
  intros Hp Hr. apply (extends_for_each _ row_ok); [|done..]. intros q row q' Hq (_&_&Hb&_) E.
  destruct (insert_versioned _ _ _ _ _) as [[s q1]|e|] eqn:Ei; try done. simpl in E.
  case_decide; [|done]. injection E as <-. by eapply extends_insert.
Qed.

Definition forward_ok (e : Z * Z * Z) : Prop := slot_ok e.1.1 ∧ pid_ok e.1.2 ∧ slot_ok e.2.

Lemma entries_forward_ok entries : Forall entry_ok entries → Forall forward_ok (entry_new <$> entries).
Proof.
  intros He. apply Forall_fmap. eapply Forall_impl; [exact He|]. by intros [[[[? ?] ?] ?] ?] (?&?&?&?&?).
Qed.

Lemma forward_extends p e p1 : page_wf p → forward_ok e → set_hot_xpage p e.1.1 e.1.2 e.2 = Ok p1 → extends p p1.
Proof.
  intros Hp [He _] E. eapply extends_update. rewrite <- E. apply set_hot_xpage_updates; [done|].
  unfold slot_ok in He. lia.
Qed.

Lemma did_extends r p p1 : page_wf p → did r p p1 → extends p p1.
Proof.
  intros Hp Hd. destruct Hd as [r p p1 xid prev payload ?? _ _ Hb E|r p p1 x ?? _ Hs E
    |r p p1 xid slots ?? _ Hs _ E|r p p1 p2 p3 xid old new prev payload ?? _ Ho _ _ Hb E1 _ E2 E3
    |r p p1 p2 xid old new_pid new ?? _ Ho _ _ E1 E2|r p p1 xid rows ?? _ Hr _ E
    |r p p1 xid entries ?? _ He _ _ E|r p p1 ? [Hs _] E|r p p1 n ?? _ E].
  - by eapply extends_insert.
  - eapply extends_update. rewrite <- E. by apply set_xmax_updates.
  - destruct (stamp_all_wf _ _ _ _ Hp Hs E) as (?&?&_). by apply extends_meta.
  - unfold slot_ok in Ho. pose proof (extends_insert _ _ _ _ _ _ _ Hp Hb E1) as X1. etrans; [exact X1|].
    assert (extends p1 p2) as X2.
    { eapply extends_update. rewrite <- E2. apply set_xmax_updates; [apply X1|lia]. }
    etrans; [exact X2|]. eapply extends_update. rewrite <- E3. apply set_hot_next_updates; [apply X2|lia].
  - unfold slot_ok in Ho.
    assert (extends p p1) as X1 by (eapply extends_update; rewrite <- E1; apply set_xmax_updates; [done|lia]).
    etrans; [exact X1|]. eapply extends_update. rewrite <- E2. apply set_hot_xpage_updates; [apply X1|lia].
  - by eapply insert_all_extends.
  - eapply (extends_for_each _ forward_ok); [|done|by apply entries_forward_ok|exact E].
    intros; by eapply forward_extends.
  - pose proof (mark_dead_spec p (w_slot r) Hp Hs) as U. rewrite E in U.
    destruct (slots p !! Z.to_nat (w_slot r)) as [[]|]; try done.
    + destruct U as (?&[= <-]&?&?&_). by apply extends_meta.
    + injection U as ->. by apply extends_meta.
    + injection U as ->. by apply extends_meta.
  - destruct (compact_spec p Hp) as (p'&E'&Hp'&Hz&Hr&_). rewrite E in E'. injection E' as _ <-.
    constructor; try done; [|apply Hr; lia]. unfold f_sc. rewrite Hr by lia. done.
Qed.

(** ** Redo repeats what was done *)

Lemma res_eq_Ok {A} (R : A → A → Prop) r b : res_eq R r (Ok b) → ∃ a, r = Ok a ∧ R a b.
Proof. destruct r; simpl; [eauto|done..]. Qed.

Lemma page_eq_sc q p : page_eq q p → f_sc (data q) = f_sc (data p).
Proof.
  intros E. rewrite <- !length_slots by apply E. f_equal. apply Forall2_length with slot_eq, E.
Qed.

Lemma lsn_wf q : page_wf q → lsn q = Ok (rd (data q) 12 8).
Proof. intros Hq. by apply lsn_Ok, wf_room. Qed.

Lemma slot_count_eq q p : page_eq q p → slot_count_pub q = Ok (f_sc (data p)).
Proof. intros E. rewrite <- (page_eq_sc q p E). apply slot_count_Ok, wf_room, E. Qed.

Lemma set_lsn_redo q1 p1 l p2 : page_eq q1 p1 → set_lsn p1 l = Ok p2 →
  ∃ q2, set_lsn q1 l = Ok q2 ∧ page_eq q2 p2.
Proof. intros E E2. apply res_eq_Ok. rewrite <- E2. by apply set_lsn_eq. Qed.

Lemma gated_redo r f q q1 p1 p2 : page_wf q → rd (data q) 12 8 < w_lsn r →
  f q = Ok q1 → page_eq q1 p1 → set_lsn p1 (w_lsn r) = Ok p2 →
  ∃ q2, lsn_gated r f q = Ok (Some q2) ∧ page_eq q2 p2.
Proof.
  intros Hq Hl Hf E E2. unfold lsn_gated. rewrite lsn_wf by done. simpl. rewrite decide_False by lia.
  rewrite Hf. simpl. destruct (set_lsn_redo _ _ _ _ E E2) as (q2&->&?). eauto.
Qed.

Lemma gated_skip r f q : page_wf q → w_lsn r ≤ rd (data q) 12 8 → lsn_gated r f q = Ok None.
Proof. intros Hq Hl. unfold lsn_gated. rewrite lsn_wf by done. simpl. by rewrite decide_True by lia. Qed.

Lemma insert_from_eq q p payload xid prev slot p1 : page_eq q p → bytes payload → xid_ok xid →
  prev_ok prev →
  insert_versioned p payload xid 0 prev = Ok (slot, p1) →
  ∃ q1, insert_from q (encode_insert_redo xid prev payload) = Ok q1 ∧ page_eq q1 p1.
Proof.
  intros E Hb Hx Hprev Ei. unfold insert_from. rewrite insert_redo_roundtrip by done. simpl.
  pose proof (insert_versioned_eq q p payload xid 0 prev E Hb) as Hi. rewrite Ei in Hi.
  apply res_eq_Ok in Hi as ([s q1]&->&_&?). simpl. eauto.
Qed.

Lemma stamp_eq q p s xid p1 : page_eq q p → 0 ≤ s → set_xmax p s xid = Ok p1 →
  ∃ q1, stamp q s xid = Ok q1 ∧ page_eq q1 p1.
Proof.
  intros E Hs Es. pose proof (set_xmax_eq q p s xid E Hs) as Hx. rewrite Es in Hx.
  apply res_eq_Ok in Hx as (q1&Eq&?). unfold stamp. rewrite Eq. simpl. eauto.
Qed.

Lemma stamp_all_eq xid slots q p p1 : page_eq q p → Forall slot_ok slots → stamp_all xid p slots = Ok p1 →
  ∃ q1, for_each (λ page slot, stamp page slot xid) q slots = Ok q1 ∧ page_eq q1 p1.
Proof.
  intros E Hs. revert q p E. unfold stamp_all.
  induction Hs as [|s slots Hs0 Hs IH]; intros q p E E1; simpl in *.
  { injection E1 as <-. eauto. }
  destruct (set_xmax p s xid) as [p'|e|] eqn:E'; try done. simpl in E1.
  destruct (stamp_eq q p s xid p' E) as (q'&->&Eq'); [unfold slot_ok in Hs0; lia|done|]. simpl. eauto.
Qed.

(** An update of an old tuple commutes with an insert that takes a new slot. *)
Lemma insert_commutes (f : SlottedPage → Result SlottedPage) g s p payload xid prev slot p1 p2 :
  (∀ p, page_wf p → updates_slot p s (λ b, ALive (g b)) (f p)) →
  page_wf p → bytes payload → 0 ≤ s → s ≠ slot → appends p slot →
  insert_versioned p payload xid 0 prev = Ok (slot, p1) → f p1 = Ok p2 →
  ∃ p1' p2', f p = Ok p1' ∧ insert_versioned p1' payload xid 0 prev = Ok (slot, p2') ∧
    page_eq p2' p2 ∧ appends p1' slot.
Proof.
  intros Hf Hp Hb Hs Hne Happ Ei Ef. pose proof (length_slots p Hp) as Hlen. unfold appends in Happ.
  destruct (insert_versioned_wf _ _ _ _ _ _ _ Hp Hb Ei) as (pp&ps&Hprev&Hp1&_&Hroom&Hid&Hl&Hz&Hfree&Ea).
  pose proof (Hf p1 Hp1) as U1. rewrite Ef in U1. apply updates_slot_wf in U1 as (Hp2&[Hz2 Hr2]&b&Hb1&Hs2).
  set (body := header_bytes _ _ _ _ _ ++ payload) in *.
  assert (list_find (λ a, a = AUnused) (slots p) = None ∧ slots p1 = slots p ++ [ALive body]) as [Hnone Hs1].
  { unfold a_insert in Ea. destruct (list_find _ _) as [[k x]|] eqn:Ek; [|by injection Ea].
    injection Ea as Hk _. apply list_find_Some in Ek as (Hlk&_). apply lookup_lt_Some in Hlk. lia. }
  assert (Z.to_nat s < length (slots p))%nat as Hlt.
  { apply lookup_lt_Some in Hb1. rewrite Hs1, length_app in Hb1. simpl in Hb1. lia. }
  rewrite Hs1, lookup_app_l in Hb1 by done. pose proof (Hf p Hp) as U. unfold updates_slot in U.
  rewrite Hb1 in U. destruct U as (p1'&E1'&Hp1'&Hm1'&Hs1'). pose proof (same_meta_sc _ _ Hm1') as Hsc'.
  destruct Hm1' as [Hz1' Hr1']. set (ss' := <[Z.to_nat s:=ALive (g b)]> (slots p)) in *.
  assert (a_insert (slots p1') body = (Z.to_nat slot, ss' ++ [ALive body])) as Ea'.
  { unfold a_insert. rewrite Hs1'. assert (list_find (λ a, a = AUnused) ss' = None) as ->.
    - apply list_find_None. apply list_find_None in Hnone. subst ss'. by apply Forall_insert.
    - subst ss'. rewrite length_insert. f_equal. lia. }
  pose proof (insert_versioned_abs p1' payload xid 0 prev pp ps _ _ Hp1' Hb Hprev Ea') as Hi.
  cbv zeta in Hi. fold body in Hi. rewrite Hs1' in Hi. subst ss'. rewrite length_insert in Hi.
  rewrite (decide_False (P:=(Z.to_nat slot < _)%nat)) in Hi by lia.
  rewrite (decide_False (P:=(slot < _))) in Hroom, Hfree by lia.
  assert (p_free p1' = p_free p) as Hfree' by (unfold p_free, f_fe, f_fs; by rewrite !Hr1' by lia).
  rewrite decide_False in Hi by (unfold p_free in *; lia). destruct Hi as (p2'&E2'&Hp2'&Hl2'&[= Hid' Hz' Hf' Hs']).
  rewrite Z2Nat.id in E2' by lia. exists p1', p2'. split; [done|]. split; [done|].
  split; [|unfold appends; lia]. constructor; try done.
  - by rewrite Hid', Hr1', Hr2, Hid by lia.
  - by rewrite Hl2', Hr1', Hr2, Hl by lia.
  - congruence.
  - assert (p_free p2 = p_free p1) as -> by (unfold p_free, f_fe, f_fs; by rewrite !Hr2 by lia).
    unfold p_free in *. lia.
  - rewrite Hs', Hs2, Hs1, insert_app_l by done. reflexivity.
Qed.

(** ** Batches *)

Lemma insert_all_eq xid rows q p p1 : xid_ok xid → page_eq q p → Forall row_ok rows →
  rows.*1.*1 = seqZ (f_sc (data p)) (zlen rows) → insert_all xid p rows = Ok p1 →
  ∃ q1, for_each (λ page row,
      sc ← slot_count_pub page;
      if decide (sc ≤ row.1) then insert_from page row.2 else Ok page) q (batch_row xid <$> rows) = Ok q1 ∧
    page_eq q1 p1.
Proof.
  intros Hx E Hr. revert q p E. induction Hr as [|[[s prev] pl] rows (Hs&Hprev&Hb&_) Hr IH];
    intros q p E Hseq Ei; [injection Ei as <-; by exists q|].
  unfold insert_all in Ei. simpl in Ei.
  destruct (insert_versioned p pl xid 0 prev) as [[s' p']|e|] eqn:E1; try done. simpl in Ei.
  case_decide; [|done]. subst s'. rewrite zlen_cons, seqZ_cons in Hseq by (pose proof (zlen_nonneg rows); lia).
  simpl in Hseq. injection Hseq as -> Hseq. rewrite fmap_cons. cbn [for_each batch_row fst snd].
  rewrite (slot_count_eq q p E). cbn [mbind outcome_bind]. rewrite decide_True by lia.
  destruct (insert_from_eq q p pl xid prev (f_sc (data p)) p' E Hb Hx Hprev E1) as (q'&->&E').
  cbn [mbind outcome_bind]. apply (IH q' p' E'); [|exact Ei].
  destruct (insert_versioned_wf _ _ _ _ _ _ _ (pe_wf_r _ _ E) Hb E1) as (pp&ps&_&Hp'&_&_&_&_&_&_&Ea).
  pose proof (length_slots p (pe_wf_r _ _ E)) as Hl. pose proof (length_slots p' Hp') as Hl'.
  assert (f_sc (data p') = Z.succ (f_sc (data p))) as ->.
  { unfold a_insert in Ea. destruct (list_find _ _) as [[k x]|] eqn:Ek.
    - injection Ea as Hk _. apply list_find_Some in Ek as (Hlk&_). apply lookup_lt_Some in Hlk. lia.
    - injection Ea as _ Hss. apply (f_equal length) in Hss. rewrite length_app in Hss. simpl in Hss. lia. }
  etrans; [exact Hseq|]. f_equal. lia.
Qed.

(** Writing the stamp that is there changes hint bits at most. *)
Lemma restamp_same p s xid : page_wf p → 0 ≤ s → stamped xid p s →
  ∃ p1, set_xmax p s xid = Ok p1 ∧ page_eq p1 p.
Proof.
  intros Hp Hs (th&Hth&Hx). rewrite tuple_header_on_slot in Hth by done. unfold on_slot in Hth.
  destruct (slots p !! Z.to_nat s) as [[b| |]|] eqn:Hb; try done. injection Hth as <-.
  pose proof (set_xmax_updates p s xid Hp Hs) as U. unfold updates_slot in U. rewrite Hb in U.
  destruct U as (p1&->&Hp1&Hm&Hss). exists p1. split; [done|]. symmetry.
  apply same_meta_eq; [done..|]. rewrite Hss. rewrite <- (list_insert_id (slots p) _ _ Hb) at 1.
  apply Forall2_insert; [reflexivity|]. constructor. destruct (live_body p _ b Hp Hb) as [Hbb Hbl].
  unfold header_of in Hx. simpl in Hx. rewrite xid_mask_rd in Hx by (done || lia).
  split; [by rewrite length_splice by len|]. intros i _ H15. rewrite lookup_splice by len.
  case_decide as Hi; [|done]. rewrite zlen_u64_to_le in Hi.
  unfold u64_to_le. subst xid. rewrite le_bytes_snoc. unfold rd.
  assert (length (sub b 8 7) = 7%nat) as Hl7 by (apply Nat2Z.inj; pose proof (length_sub b 8 7) as L; unfold zlen in *; lia).
  rewrite <- Hl7 at 1. rewrite le_bytes_le_value by (unfold sub; by apply Forall_take, Forall_drop).
  rewrite lookup_app_l by lia. rewrite lookup_sub. rewrite decide_True by lia. f_equal. lia.
Qed.

Lemma forward_keeps_stamps p e p1 xid s : page_wf p → forward_ok e → 0 ≤ s →
  set_hot_xpage p e.1.1 e.1.2 e.2 = Ok p1 → stamped xid p s → stamped xid p1 s.
Proof.
  intros Hp [He _] Hs E (th&Hth&Hx). unfold slot_ok in He. assert (0 ≤ e.1.1) as He0 by lia.
  pose proof (set_hot_xpage_updates p e.1.1 e.1.2 e.2 Hp He0) as U. rewrite E in U.
  apply updates_slot_wf in U as (Hp1&Hm&b&Hb&Hss).
  unfold stamped. rewrite tuple_header_on_slot in Hth |- * by done. unfold on_slot in *. rewrite Hss.
  destruct (decide (s = e.1.1)) as [->|Hne].
  - rewrite list_lookup_insert_eq by (by eapply lookup_lt_Some). rewrite Hb in Hth. injection Hth as <-.
    eexists. split; [done|]. rewrite <- Hx. unfold header_of. simpl. f_equal.
    destruct (live_body p _ b Hp Hb) as [_ Hbl]. apply rd_splice_out; len.
  - rewrite list_lookup_insert_ne by lia. destruct Hm as [_ Hr]. rewrite Hr by lia. eauto.
Qed.

Lemma forward_all_eq xid es q p p1 : page_eq q p → Forall forward_ok es →
  Forall (λ e, stamped xid p e.1.1) es → forward_all p es = Ok p1 →
  ∃ q1, for_each (xpage_head xid) q es = Ok q1 ∧ page_eq q1 p1.
Proof.
  intros E He. revert q p E. induction He as [|[[old npid] nslot] es He0 He IH]; intros q p E Hst Ef.
  { injection Ef as <-. by exists q. }
  unfold forward_all in Ef. cbn [for_each fst snd] in Ef.
  destruct (set_hot_xpage p old npid nslot) as [p'|e|] eqn:E1; try done. cbn [mbind outcome_bind] in Ef.
  apply Forall_cons in Hst as [Hst0 Hst]. simpl in Hst0.
  assert (0 ≤ old) as Ho by (destruct He0 as [Hs _]; unfold slot_ok in Hs; simpl in Hs; lia).
  destruct (restamp_same p old xid (pe_wf_r _ _ E) Ho Hst0) as (p0&Ep0&Ep0').
  destruct (stamp_eq q p old xid p0 E Ho Ep0) as (q0&Eq0&Eq0').
  assert (page_eq q0 p) as Eq by (by etrans).
  pose proof (set_hot_xpage_eq q0 p old npid nslot Eq Ho) as Hx. rewrite E1 in Hx.
  apply res_eq_Ok in Hx as (q1&Eq1&Hq1). cbn [for_each xpage_head]. rewrite Eq0. cbn [mbind outcome_bind].
  rewrite Eq1. cbn [unless_deleted mbind outcome_bind]. apply (IH q1 p' Hq1); [|exact Ef].
  eapply Forall_impl; [exact (proj2 (Forall_and _ _) (conj Hst He))|]. intros e [Hse [Hs _]].
  eapply (forward_keeps_stamps p (old, npid, nslot)); [apply E|done| |exact E1|done].
  unfold slot_ok in Hs. lia.
Qed.

(** ** Redo of one step *)

Lemma xmax_roundtrip x : xid_ok x → decode_xmax (u64_to_le x) = Ok x.
Proof. intros Hx. unfold decode_xmax. rewrite decide_True by apply zlen_u64_to_le. by rewrite u64_from_to_le. Qed.

Lemma xpage_head_fields xid old npid nslot : xid_ok xid → slot_ok old → pid_ok npid → slot_ok nslot →
  let b := hot_xpage_redo xid old npid nslot in
  read_u64 b 0 = Ok xid ∧ read_u16 b 8 = Ok old ∧ read_u32 b 10 = Ok npid ∧ read_u16 b 14 = Ok nslot.
Proof.
  intros Hx Ho Hp Hn b. subst b. unfold hot_xpage_redo. split_and!.
  - by apply read64_head.
  - apply (read16_at (u64_to_le xid)); [done|len].
  - rewrite app_assoc. apply (read32_at (u64_to_le xid ++ u16_to_le old)); [done|len].
  - rewrite <- (app_nil_r (u16_to_le nslot)), (app_assoc (u64_to_le xid)), (app_assoc (_ ++ _)).
    apply (read16_at ((u64_to_le xid ++ u16_to_le old) ++ u32_to_le npid)); [done|len].
Qed.

Lemma updates_slot_bind p s g1 g2 (f1 f2 : SlottedPage → Result SlottedPage) :
  updates_slot p s (λ b, ALive (g1 b)) (f1 p) →
  (∀ p, page_wf p → updates_slot p s (λ b, ALive (g2 b)) (f2 p)) →
  updates_slot p s (λ b, ALive (g2 (g1 b))) (f1 p ≫= f2).
Proof.
  intros U1 U2. unfold updates_slot in *. destruct (slots p !! Z.to_nat s) as [[b| |]|] eqn:Hb; [|by rewrite U1..].
  destruct U1 as (p1&->&Hp1&Hm1&Hs1). specialize (U2 p1 Hp1). simpl.
  rewrite Hs1, list_lookup_insert_eq in U2 by (by eapply lookup_lt_Some).
  destruct U2 as (p2&->&Hp2&Hm2&Hs2). exists p2. split; [done|]. split; [done|].
  split; [by eapply same_meta_trans|]. by rewrite Hs2, list_insert_insert_eq.
Qed.

Lemma hot_update_redo_eq q p pa pb p1 xid old new prev payload : page_eq q p → xid_ok xid → 0 ≤ old →
  old ≠ new → prev_ok prev → bytes payload → appends p new →
  insert_versioned p payload xid 0 prev = Ok (new, pa) → set_xmax pa old xid = Ok pb →
  set_hot_next pb old new = Ok p1 →
  ∃ q1, (page ← stamp q old xid;
         page ← unless_deleted page (set_hot_next page old new);
         sc ← slot_count_pub page;
         if decide (sc ≤ new) then insert_from page (encode_insert_redo xid prev payload) else Ok page) = Ok q1 ∧
    page_eq q1 p1.
Proof.
  intros E Hx Ho Hne Hpr Hb Happ Ei Ea Eb.
  destruct (insert_commutes (λ p, set_xmax p old xid ≫= λ p, set_hot_next p old new)
    (λ b, splice (splice b 8 (u64_to_le xid)) 22 (u16_to_le new)) old p payload xid prev new pa p1)
    as (p1'&p2'&Ef&Ei'&E2&Happ1); try done.
  { intros p' Hp'. apply (updates_slot_bind p' old (λ b, splice b 8 (u64_to_le xid)) (λ b, splice b 22 (u16_to_le new))
      (λ p, set_xmax p old xid) (λ p, set_hot_next p old new));
      [by apply set_xmax_updates|by intros; apply set_hot_next_updates]. }
  { apply E. }
  { rewrite Ea. exact Eb. }
  destruct (set_xmax p old xid) as [p0|e|] eqn:E0; try done. simpl in Ef.
  destruct (stamp_eq q p old xid p0 E Ho E0) as (q0&->&Eq0). simpl.
  pose proof (set_hot_next_eq q0 p0 old new Eq0 Ho) as Hh. rewrite Ef in Hh.
  apply res_eq_Ok in Hh as (q1&->&Eq1). simpl. rewrite (slot_count_eq q1 p1' Eq1). simpl.
  rewrite decide_True by (unfold appends in Happ1; lia).
  destruct (insert_from_eq q1 p1' payload xid prev new p2' Eq1 Hb Hx Hpr Ei') as (q2&->&Eq2).
  exists q2. split; [done|]. by etrans.
Qed.

Lemma batch_rows_roundtrip xid rows : Forall row_ok rows → zlen rows < 2 ^ 16 →
  decode_insert_batch_redo (insert_batch_redo xid (batch_row xid <$> rows)) = Ok (batch_row xid <$> rows).
Proof.
  intros Hr Hn. apply insert_batch_roundtrip; [|unfold zlen in *; by rewrite length_fmap].
  apply Forall_fmap. eapply Forall_impl; [exact Hr|]. intros [[s pr] pl] (?&_&_&?). split; [done|].
  simpl in *. unfold encode_insert_redo. destruct (default _ _). len.
Qed.

Lemma redo_did r p p1 p2 q : did r p p1 → set_lsn p1 (w_lsn r) = Ok p2 → fresh_slot r p →
  page_eq q p → rd (data q) 12 8 < w_lsn r → ∃ q2, page_redo r q = Ok (Some q2) ∧ page_eq q2 p2.
Proof.
  intros Hd E2 (Hfi&Hfh&Hfb) E Hl. pose proof (pe_wf_l _ _ E) as Hq. pose proof (pe_wf_r _ _ E) as Hp.
  unfold page_redo. destruct Hd as [r p p1 xid prev payload Hty Hr Hx Hpr Hb Ei|r p p1 x Hty Hr Hx Hs Es
    |r p p1 xid slots Hty Hr Hx Hs Hn Es|r p pa pb p1 xid old new prev payload Hty Hr Hx Ho Hn Hpr Hb Ei Hne Ea Eb
    |r p pa p1 xid old npid new Hty Hr Hx Ho Hpid Hn Ea Eb|r p p1 xid rows Hty Hr Hx Hrows Hn Ei
    |r p p1 xid es Hty Hr Hx He Hn Hst Ef|r p p1 Hty Hs Em|r p p1 n Hty Hs Hr Ec];
    rewrite Hty; repeat (rewrite decide_False by done); rewrite decide_True by done;
    repeat (rewrite decide_False by done).
  - unfold redo_insert_page. rewrite (slot_count_eq q p E). simpl.
    rewrite decide_False by (rewrite (Hfi Hty); lia). rewrite Hr.
    destruct (insert_from_eq q p payload xid prev _ p1 E Hb Hx Hpr Ei) as (q1&->&E1). simpl.
    destruct (set_lsn_redo _ _ _ _ E1 E2) as (q2&->&?). eauto.
  - pose proof (set_xmax_eq q p (w_slot r) x E Hs) as He. rewrite Es in He.
    apply res_eq_Ok in He as (q1&Eq1&E1). eapply gated_redo; [done..| |exact E1|done]. simpl.
    by rewrite Hr, xmax_roundtrip.
  - rewrite Hr, xmax_batch_roundtrip by done. cbn [mbind outcome_bind fst snd].
    destruct (stamp_all_eq xid slots q p p1 E Hs Es) as (q1&Eq1&E1). by eapply gated_redo.
  - rewrite Hr. rewrite (proj1 (hot_update_roundtrip xid old new _ Hx Ho Hn)). cbn [mbind outcome_bind].
    assert (appends p new) as Happ.
    { apply (Hfh (xid, old, new, encode_insert_redo xid prev payload) Hty). rewrite Hr.
      apply (hot_update_roundtrip xid old new _ Hx Ho Hn). }
    unfold slot_ok in Ho.
    destruct (hot_update_redo_eq q p pa pb p1 xid old new prev payload) as (q1&Eq1&E1); try done; [lia|].
    by eapply gated_redo.
  - rewrite Hr. destruct (xpage_head_fields xid old npid new Hx Ho Hpid Hn) as (->&->&->&->).
    cbn [mbind outcome_bind]. unfold slot_ok in Ho. assert (0 ≤ old) as Ho0 by lia.
    destruct (stamp_eq q p old xid pa E Ho0 Ea) as (q0&Eq0&E0).
    pose proof (set_hot_xpage_eq q0 pa old npid new E0 Ho0) as Hx1. rewrite Eb in Hx1.
    apply res_eq_Ok in Hx1 as (q1&Eq1&E1). eapply gated_redo; [done..| |exact E1|done].
    unfold xpage_head. rewrite Eq0. simpl. by rewrite Eq1.
  - rewrite Hr in Hfb |- *. rewrite batch_rows_roundtrip in Hfb |- * by done. cbn [mbind outcome_bind].
    destruct (insert_all_eq xid rows q p p1) as (q1&Eq1&E1); try done; [|by eapply gated_redo].
    specialize (Hfb _ Hty eq_refl). unfold zlen in *. rewrite length_fmap in Hfb. rewrite <- Hfb.
    by rewrite <- !list_fmap_compose.
  - rewrite Hr. rewrite (proj1 (hot_xpage_batch_roundtrip xid es Hx He Hn)). cbn [mbind outcome_bind fst snd].
    destruct (forward_all_eq xid (entry_new <$> es) q p p1) as (q1&Eq1&E1); try done;
      [by apply entries_forward_ok|]. by eapply gated_redo.
  - pose proof (mark_dead_eq q p (w_slot r) E (proj1 Hs)) as Hm. rewrite Em in Hm.
    apply res_eq_Ok in Hm as (q1&Eq1&E1). eapply gated_redo; [done..| |exact E1|done].
    rewrite decide_False by lia. done.
  - eapply gated_redo; [done..| |apply page_eq_refl|done]; [rewrite decide_True by done|].
    + by rewrite Hr, <- (eta_page p1).
    + eapply did_extends; [exact Hp|]. by eapply did_compact.
Qed.

(** ** Records the page is past *)

Lemma insert_slot_bound p payload xid prev slot p1 : page_wf p → bytes payload →
  insert_versioned p payload xid 0 prev = Ok (slot, p1) → slot < f_sc (data p1).
Proof.
  intros Hp Hb E. destruct (insert_versioned_wf _ _ _ _ _ _ _ Hp Hb E) as (pp&ps&_&Hp1&?&_&_&_&_&_&Ea).
  apply a_insert_spec in Ea as (Hi&_). apply lookup_lt_Some in Hi. pose proof (length_slots p1 Hp1). lia.
Qed.

Lemma redo_skip r p p1 q : did r p p1 → page_wf p → page_wf q → w_lsn r ≤ rd (data q) 12 8 →
  f_sc (data p1) ≤ f_sc (data q) → page_redo r q = Ok None.
Proof.
  intros Hd Hp Hq Hl Hsc. unfold page_redo. destruct Hd as [r p p1 xid prev payload Hty Hr Hx Hpr Hb Ei
    |r p p1 x Hty Hr Hx Hs Es|r p p1 xid slots Hty Hr Hx Hs Hn Es
    |r p pa pb p1 xid old new prev payload Hty Hr Hx Ho Hn Hpr Hb Ei Hne Ea Eb
    |r p pa p1 xid old npid new Hty Hr Hx Ho Hpid Hn Ea Eb|r p p1 xid rows Hty Hr Hx Hrows Hn Ei
    |r p p1 xid es Hty Hr Hx He Hn Hst Ef|r p p1 Hty Hs Em|r p p1 n Hty Hs Hr Ec];
    rewrite Hty; repeat (rewrite decide_False by done); rewrite decide_True by done;
    repeat (rewrite decide_False by done).
  - unfold redo_insert_page. unfold slot_count_pub. rewrite slot_count_Ok by (by apply wf_room). simpl.
    pose proof (insert_slot_bound _ _ _ _ _ _ Hp Hb Ei). by rewrite decide_True by lia.
  - by apply gated_skip.
  - rewrite Hr, xmax_batch_roundtrip by done. by apply gated_skip.
  - rewrite Hr, (proj1 (hot_update_roundtrip xid old new _ Hx Ho Hn)). by apply gated_skip.
  - rewrite Hr. destruct (xpage_head_fields xid old npid new Hx Ho Hpid Hn) as (->&->&->&->). by apply gated_skip.
  - rewrite Hr, batch_rows_roundtrip by done. by apply gated_skip.
  - rewrite Hr, (proj1 (hot_xpage_batch_roundtrip xid es Hx He Hn)). by apply gated_skip.
  - by apply gated_skip.
  - by apply gated_skip.
Qed.

(** ** Histories *)

(** A logged change of a page, up to hint bits set along the way, or the image of the
    page taken before the first change after a checkpoint.  [F] restricts the changes. *)
Inductive page_step (F : WalRecord → SlottedPage → Prop) (r : WalRecord) (p p' : SlottedPage) : Prop :=
| step_did p1 p2 : did r p p1 → F r p → rd (data p) 12 8 < w_lsn r < 2 ^ 64 →
    set_lsn p1 (w_lsn r) = Ok p2 → page_eq p2 p' → page_step F r p p'
| step_fpi : w_rec_type r = WAL_FPI → w_redo r = data p → page_eq p p' → page_step F r p p'.

Inductive history (F : WalRecord → SlottedPage → Prop) : SlottedPage → list WalRecord → SlottedPage → Prop :=
| hist_nil p : history F p [] p
| hist_hints p p1 rs pn : page_eq p p1 → history F p1 rs pn → history F p rs pn
| hist_cons r rs p p1 pn : page_step F r p p1 → history F p1 rs pn → history F p (r :: rs) pn.

(** The page only moves on. *)
Record past (p p' : SlottedPage) : Prop := {
  past_wf : page_wf p';
  past_lsn : rd (data p) 12 8 ≤ rd (data p') 12 8;
  past_sc : f_sc (data p) ≤ f_sc (data p');
}.
#[local] Instance past_trans : Transitive past.
Proof. intros p q r [] []. constructor; done || lia. Qed.
Lemma past_eq p q : page_eq p q → past p q.
Proof. intros E. constructor; [apply E|rewrite (pe_lsn _ _ E); lia|rewrite (page_eq_sc _ _ E); lia]. Qed.

Lemma did_stamped r p p1 p2 : page_wf p → did r p p1 → 0 ≤ w_lsn r < 2 ^ 64 →
  set_lsn p1 (w_lsn r) = Ok p2 →
  page_wf p2 ∧ rd (data p2) 12 8 = w_lsn r ∧ f_sc (data p) ≤ f_sc (data p1) ≤ f_sc (data p2).
Proof.
  intros Hp Hd Hl E. pose proof (did_extends r p p1 Hp Hd) as [Hp1 ?? _].
  destruct (set_lsn_spec p1 (w_lsn r) Hp1) as (p2'&E'&Hp2&Hs&_&_&_&_&Hlsn&_).
  rewrite E in E'. injection E' as <-. rewrite lsn_wf, u64_small in Hlsn by done. injection Hlsn as Hlsn.
  split; [done|]. split; [done|]. rewrite <- (length_slots p2 Hp2), Hs, (length_slots p1 Hp1). lia.
Qed.

Lemma step_past F r p p' : page_wf p → page_step F r p p' → past p p'.
Proof.
  intros Hp [p1 p2 Hd _ Hl E Eq|_ _ Eq]; [|by apply past_eq].
  assert (0 ≤ rd (data p) 12 8) as H0.
  { apply (rd_bounds (data p) 12 8); [apply Hp|lia|lia|]. pose proof (wf_room p Hp). lia. }
  destruct (did_stamped r p p1 p2 Hp Hd) as (Hp2&Hl2&?); [lia|done|].
  etrans; [|by apply past_eq]. constructor; [done|lia|lia].
Qed.

Lemma history_wf F p rs pn : page_wf p → history F p rs pn → past p pn.
Proof.
  intros Hp Hh. revert Hp. induction Hh as [p|p p1 rs pn E Hh IH|r rs p p1 pn Hs Hh IH]; intros Hp.
  - by constructor.
  - etrans; [by apply past_eq|]. apply IH, E.
  - pose proof (step_past _ _ _ _ Hp Hs) as X. etrans; [exact X|]. apply IH, X.
Qed.

Lemma history_app F p rs1 pk rs2 pn : history F p rs1 pk → history F pk rs2 pn → history F p (rs1 ++ rs2) pn.
Proof.
  intros Hh H2. induction Hh as [p|p p1 rs pk E Hh IH|r rs p p1 pk Hs Hh IH]; simpl; [done| |].
  - apply (hist_hints _ _ p1); auto.
  - apply (hist_cons _ _ _ _ p1); auto.
Qed.

(** From the page as it was, replay catches up. *)
Lemma replay_catches_up p rs pn q : page_wf p → history fresh_slot p rs pn → page_eq q p →
  page_eq (foldl replay q rs) pn.
Proof.
  intros Hp Hh. revert q Hp. induction Hh as [p|p p1 rs pn E Hh IH|r rs p p1 pn Hs Hh IH]; intros q Hp Eq; simpl.
  - done.
  - apply IH; [apply E|by etrans].
  - pose proof (step_past _ _ _ _ Hp Hs) as X. apply IH; [apply X|].
    destruct Hs as [p0 p2 Hd Hf Hl E E2|Hty Hr E].
    + destruct (redo_did r p p0 p2 q Hd E Hf Eq) as (q2&Er&E2'); [rewrite (pe_lsn _ _ Eq); lia|].
      unfold replay. rewrite Er. by etrans.
    + unfold replay, page_redo. rewrite Hty, decide_True by done. rewrite Hr. by rewrite eta_page.
Qed.

(** From a later page, replay waits until the log has caught up, or goes back to an
    image and catches up from there. *)
Lemma replay_from p rs1 pk rs2 pn q : page_wf p → history fresh_slot p rs1 pk → history fresh_slot pk rs2 pn → page_eq q pk →
  page_eq (foldl replay q (rs1 ++ rs2)) pn.
Proof.
  intros Hp Hh H2 Eq. revert Hp. induction Hh as [p|p p1 rs pk E Hh IH|r rs p p1 pk Hs Hh IH]; intros Hp; simpl.
  - by eapply replay_catches_up.
  - apply IH; [done..|apply E].
  - pose proof (step_past _ _ _ _ Hp Hs) as X. destruct Hs as [p0 p2 Hd Hf Hl E E2|Hty Hr E].
    + assert (0 ≤ rd (data p) 12 8) as H0.
      { apply (rd_bounds (data p) 12 8); [apply Hp|lia|lia|]. pose proof (wf_room p Hp). lia. }
      destruct (did_stamped r p p0 p2 Hp Hd) as (Hp2&Hl2&Hsc); [lia|done|].
      pose proof (history_wf _ _ _ _ (past_wf _ _ X) Hh) as Y.
      assert (past p2 q) as [Hq Hlq Hscq].
      { etrans; [apply (past_eq _ _ E2)|]. etrans; [exact Y|]. apply past_eq. by symmetry. }
      unfold replay at 2. rewrite (redo_skip r p p0 q Hd Hp Hq) by lia. apply IH; [done..|apply X].
    + unfold replay at 2, page_redo. rewrite Hty, decide_True by done. rewrite Hr, eta_page.
      eapply replay_catches_up; [exact (past_wf _ _ X)|by eapply history_app|done].
Qed.

(** C8: Redo repeats history.  Let a page have gone through any sequence of heap operations, full-page
    images and hint-bit settings in which inserts took new slots.  Replaying the whole log of
    the page, starting from the page as it was at any point of that sequence, gives the page the
    engine had, for every reader; and when the log begins with a full-page image this holds from
    any contents at all, so a torn page is repaired. *)
Theorem repeat_history p0 rs1 pk rs2 pn q :
  page_wf p0 → history fresh_slot p0 rs1 pk → history fresh_slot pk rs2 pn →
  page_eq q pk ∨ (∃ r rs, rs1 ++ rs2 = r :: rs ∧ w_rec_type r = WAL_FPI) →
  let q' := foldl replay q (rs1 ++ rs2) in
  page_wf q' ∧ lsn q' = lsn pn ∧ slot_count_pub q' = slot_count_pub pn ∧
  ∀ s, 0 ≤ s → tuple_header q' s = tuple_header pn s ∧ get q' s = get pn s ∧ slot_state q' s = slot_state pn s.
Proof.
  intros Hp H1 H2 Hq q'. assert (page_eq q' pn) as E.
  { subst q'. destruct Hq as [Eq|(r&rs&Ers&Hty)]; [by eapply replay_from|].
    pose proof (replay_from p0 rs1 pk rs2 pn pk Hp H1 H2) as Hk. rewrite Ers in Hk |- *. simpl in *.
    assert (replay q r = replay pk r) as -> by (unfold replay, page_redo; by rewrite Hty, decide_True by done).
    apply Hk, page_eq_refl, (past_wf _ _ (history_wf _ _ _ _ Hp H1)). }
  split; [apply E|]. rewrite !lsn_wf by apply E. rewrite (pe_lsn _ _ E). split; [done|].
  rewrite (slot_count_eq _ _ E). split; [|intros s Hs; by apply page_eq_reads].
  symmetry. apply slot_count_Ok, wf_room, E.
Qed.

(** C40: An insert that reuses the line pointer of a reclaimed tuple is not redone: on the page as it was
    before the insert, the redo of its record changes nothing and reports success, so the slot stays
    free, although the engine's page holds the row. *)
Theorem reused_slot_insert_lost r p p1 q payload xid prev :
  page_wf p → bytes payload → w_rec_type r = WAL_INSERT →
  insert_versioned p payload xid 0 prev = Ok (w_slot r, p1) → slot_state p (w_slot r) = Ok Unused →
  page_eq q p →
  page_redo r q = Ok None ∧ get p1 (w_slot r) = Ok payload ∧
  get (replay q r) (w_slot r) = Err (TupleDeleted (rd (data p) 0 4) (w_slot r)).
Proof.
  intros Hp Hb Hty Ei Hu E.
  destruct (insert_versioned_wf _ _ _ _ _ _ _ Hp Hb Ei) as (pp&ps&_&Hp1&[Hs0 _]&_&_&_&_&_&Ea).
  rewrite slot_state_slots in Hu by done.
  destruct (slots p !! Z.to_nat (w_slot r)) as [[| |]|] eqn:Hslot; try done.
  assert (w_slot r < f_sc (data p)) as Hlt.
  { apply lookup_lt_Some in Hslot. pose proof (length_slots p Hp). lia. }
  assert (page_redo r q = Ok None) as Hr.
  { unfold page_redo. rewrite Hty, decide_False, decide_True by done. unfold redo_insert_page.
    rewrite (slot_count_eq q p E). simpl. by rewrite decide_True by done. }
  split; [done|]. split.
  - apply a_insert_spec in Ea as (Hi&_). destruct (read_body p1 _ _ Hp1 Hs0 Hi) as [-> _]. f_equal.
  - unfold replay. rewrite Hr. destruct (page_eq_reads q p (w_slot r) E Hs0) as (_&->&_).
    rewrite get_on_slot by done. unfold on_slot. by rewrite Hslot.
Qed.

End redo.

(** ** Witnesses *)

#[local] Existing Instance sum_crc.

Definition ok_page (r : Result SlottedPage) : SlottedPage := match r with Ok p => p | _ => mkPage [] end.
Definition w_blank : SlottedPage := Eval vm_compute in ok_page (Page.new 7 1 128).
Definition w_image : WalRecord := mkRecord 1 0 1 WAL_FPI 7 65535 (data w_blank) [].
Definition w_ins : WalRecord := mkRecord 2 1 1 WAL_INSERT 7 0 (encode_insert_redo 5 None [1; 2]) [].
Definition w_upd : WalRecord := mkRecord 3 2 2 WAL_UPDATE 7 0 (u64_to_le 6) (u64_to_le 0).
Definition w_inserted : SlottedPage := Eval vm_compute in
  ok_page ('(_, p) ← insert_versioned w_blank [1; 2] 5 0 None; Ok p).
Definition w_one : SlottedPage := Eval vm_compute in ok_page (set_lsn w_inserted 2).
Definition w_updated : SlottedPage := Eval vm_compute in ok_page (set_xmax w_one 0 6).
Definition w_two : SlottedPage := Eval vm_compute in ok_page (set_lsn w_updated 3).

Lemma w_blank_wf : page_wf w_blank.
Proof.
  destruct (new_spec 7 1 128) as (p&E&Hp&_); [lia|unfold is_byte; lia|].
  assert (Page.new 7 1 128 = Ok w_blank) as E' by (vm_compute; reflexivity). congruence.
Qed.

Lemma w_did_insert : did w_ins w_blank w_inserted.
Proof.
  apply (did_insert _ _ _ 5 None [1; 2]); try done; first [concrete_bytes|vm_compute; reflexivity].
Qed.

Lemma w_history1 : history fresh_slot w_blank [w_image; w_ins] w_one.
Proof.
  apply (hist_cons _ _ _ _ w_blank); [by apply step_fpi; [..|apply page_eq_refl, w_blank_wf]|].
  apply (hist_cons _ _ _ _ w_one); [|apply hist_nil].
  apply (step_did _ _ _ _ w_inserted w_one); [exact w_did_insert| |vm_compute; done|vm_compute; reflexivity|].
  - split; [intros _; vm_compute; reflexivity|]. split; intros ? ?; discriminate.
  - apply page_eq_refl. apply (did_stamped w_ins w_blank w_inserted w_one w_blank_wf w_did_insert);
      [vm_compute; done|vm_compute; reflexivity].
Qed.

Lemma w_one_wf : page_wf w_one.
Proof. apply (past_wf _ _ (history_wf _ _ _ _ w_blank_wf w_history1)). Qed.

Lemma w_history2 : history fresh_slot w_one [w_upd] w_two.
Proof.
  apply (hist_cons _ _ _ _ w_two); [|apply hist_nil].
  assert (did w_upd w_one w_updated) as Hd
    by (apply (did_update _ _ _ 6); [done..|vm_compute; done|vm_compute; reflexivity]).
  apply (step_did _ _ _ _ w_updated w_two); [done| |vm_compute; done|vm_compute; reflexivity|].
  - split_and!; intros; discriminate.
  - apply page_eq_refl.
    apply (did_stamped w_upd w_one w_updated w_two w_one_wf Hd); [vm_compute; done|vm_compute; reflexivity].
Qed.

Lemma repeat_history_witness :
  get (foldl replay (mkPage [13; 13]) [w_image; w_ins; w_upd]) 0 = Ok [1; 2].
Proof.
  destruct (repeat_history w_blank [w_image; w_ins] w_one [w_upd] w_two (mkPage [13; 13]) w_blank_wf
    w_history1 w_history2) as (_&_&_&Hr).
  - right. exists w_image, [w_ins; w_upd]. split; reflexivity.
  - destruct (Hr 0) as (_&Hg&_); [lia|]. etrans; [exact Hg|]. vm_compute. reflexivity.
Defined.

(** A tuple removed and reclaimed, then a row in its place. *)
Definition w_reclaimed : SlottedPage := Eval vm_compute in
  ok_page (p ← mark_dead w_two 0; '(_, p) ← compact p; Ok p).
Definition w_reused : SlottedPage := Eval vm_compute in
  ok_page ('(_, p) ← insert_versioned w_reclaimed [8] 9 0 None; Ok p).

Lemma w_reclaimed_wf : page_wf w_reclaimed.
Proof.
  assert (page_wf w_two) as Hp by (apply (past_wf _ _ (history_wf _ _ _ _ w_one_wf w_history2))).
  assert (is_Ok (mark_dead w_two 0)) as [p1 E1] by (vm_compute; eexists; reflexivity).
  assert (page_wf p1) as Hp1.
  { eapply (did_extends (mkRecord 4 0 3 WAL_VACUUM 7 0 [] [])); [exact Hp|]. by apply did_mark_dead. }
  destruct (compact_spec p1 Hp1) as (p2&E2&Hp2&_).
  assert ((p ← mark_dead w_two 0; '(_, p) ← compact p; Ok p) = Ok w_reclaimed) as E by (vm_compute; reflexivity).
  rewrite E1 in E. cbn [mbind outcome_bind] in E. rewrite E2 in E. cbn [mbind outcome_bind] in E. congruence.
Qed.

Lemma reused_slot_insert_lost_witness :
  let r := mkRecord 9 0 4 WAL_INSERT 7 0 (encode_insert_redo 9 None [8]) [] in
  get w_reused 0 = Ok [8] ∧ get (replay w_reclaimed r) 0 = Err (TupleDeleted 7 0).
Proof.
  intros r. destruct (reused_slot_insert_lost r w_reclaimed w_reused w_reclaimed [8] 9 None w_reclaimed_wf)
    as (_&H1&H2); [concrete_bytes|reflexivity|vm_compute; reflexivity..|apply page_eq_refl, w_reclaimed_wf|].
  split; [exact H1|exact H2].
Defined.
