(* ===== verification/HeapLog.v ===== *)
(** What heap operations log: every page write of the heap is one of the changes that
    redo repeats, made under a record that is in the log. *)

From stdpp Require Import base numbers list gmap sets strings sorting.
From S2P Require Import Prelude Format Page PageSpec PageOps PageCompact PageProps PageHints.
From S2P Require Import LockMgr Txn WalCodec WalCodecProps Wal WalInv WalProps BufferPool.
From S2P Require Import BufferPoolProps BTreeNode LogPayload HeapRead Heap Recovery RedoPage.
Open Scope op_scope.

(** ** The pool's pages under operations that do not write *)

Definition shape (p : BufferPool) : list (list Z) * Z * Z := (mem p, file_page_count p, p_size p).
Definition same_mem (p p' : BufferPool) : Prop := shape p' = shape p.
#[global] Instance same_mem_preorder : PreOrder same_mem.
Proof. split; [by intros p|]. intros p q r E E'. unfold same_mem in *. congruence. Qed.
Lemma same_mem_mem p p' : same_mem p p' → mem p' = mem p.
Proof. by intros [=]. Qed.

Section pool.
Context `{!Crc32}.

Lemma flush_same_mem io pid l : keeps same_mem (flush_locked io pid l).
Proof.
  intros p. unfold flush_locked. destruct (flush_poisoned p); [done|].
  destruct (read_page_locked p pid false) as [page|e|]; [|done..].
  destruct (Page.lsn page); [|done..]. case_decide; [done|]. destruct (flush_fault_armed p); [done|].
  destruct (pio_msync io pid); [|done]. simpl. unfold alter_resident.
  by destruct (frame_index _ !! pid).
Qed.

Lemma sweep_same_mem io fuel : keeps same_mem (clock_sweep io fuel).
Proof.
  induction fuel as [|fuel IH]; [by intros p|]. intros p. cbn [clock_sweep]. cbv zeta.
  set (p1 := set_frames p _ _ _). assert (same_mem p p1) as E1 by done.
  destruct (frames p1 !! _) as [f|]; [|done]. case_decide; [etrans; [exact E1|apply IH]|].
  destruct (clock_ref f); [etrans; [|apply IH]; done|]. destruct (dirty f); [|done].
  destruct (fr_page f) as [pid|]; [|done]. case_decide; [etrans; [exact E1|apply IH]|].
  etrans; [exact E1|]. apply keeps_bind; [apply _|apply flush_same_mem|]. by intros _ q.
Qed.

Lemma fetch_same_mem io pid : keeps same_mem (fetch_page io pid).
Proof.
  intros p. unfold fetch_page. destruct (frame_index p !! pid) as [i|]; [done|].
  apply (keeps_bind same_mem); [apply _| |intros idx; by intros q].
  intros q. unfold find_victim. case_decide; [done|apply sweep_same_mem].
Qed.

Lemma fetch_page_mem io pid p page p' : fetch_page io pid p = (Ok page, p') →
  same_mem p p' ∧ page_at (mem p) pid = Some (data page).
Proof.
  intros E. pose proof (fetch_same_mem io pid p) as Hm. rewrite E in Hm. simpl in Hm. split; [done|].
  rewrite <- (same_mem_mem _ _ Hm). unfold fetch_page in E. destruct (frame_index p !! pid) as [i|].
  - injection E as E <-. by eapply read_page_data.
  - apply op_bind_Ok in E as (idx&p1&_&E). apply op_bind_Ok in E as ([]&p2&_&E).
    injection E as E <-. by eapply read_page_data.
Qed.

End pool.

(** ** The log under appends *)

Section wal.
Context `{!Crc32}.

Lemma wal_ok_same w w' : same_log w w' → wal_ok w →
  wal_ok w' ∧ log_of w' = log_of w ∧ next_lsn w' = next_lsn w.
Proof.
  intros S (sealed&rs&Hi). split; [exists sealed, rs; by eapply wal_inv_same|].
  split; [by apply log_of_same|apply S].
Qed.

(** What an append that succeeds adds. *)
Record appended (w w' : Wal) (r : WalRecord) : Prop := {
  ap_ok : wal_ok w';
  ap_log : log_of w' = log_of w ++ [r];
  ap_lsn : w_lsn r = next_lsn w;
  ap_next : next_lsn w' = next_lsn w + 1;
}.

Lemma append_appended io mini prev ty page slot redo undo w lsn w' : wal_ok w → io_rec io = None →
  record_ok (append_record w mini prev ty page slot redo undo) →
  append_locked io mini prev ty page slot redo undo w = (Ok lsn, w') →
  lsn = next_lsn w ∧ appended w w' (append_record w mini prev ty page slot redo undo).
Proof.
  intros (sealed&rs&Hi) Hio Hr E.
  destruct (append_inv _ _ _ _ _ _ _ _ _ _ _ _ _ Hi Hr Hio E) as (sealed'&rs'&Hi'&_&[(El&Hn&Hlog)|([e ?]&_)]); [|done].
  injection El as ->. split; [done|]. constructor; [by exists sealed', rs'| |done|done].
  by rewrite (log_of_inv _ _ _ Hi'), (log_of_inv _ _ _ Hi).
Qed.

Lemma appended_same w w1 w2 r : appended w w1 r → same_log w1 w2 → appended w w2 r.
Proof.
  intros [Hok Hlog Hl Hn] S. destruct (wal_ok_same _ _ S Hok) as (?&E1&E2).
  constructor; [done|by rewrite E1|done|by rewrite E2].
Qed.

Lemma set_mini_same w n : same_log w (set_next_mini_txn w n).
Proof. by apply same_log_fields. Qed.

Lemma sync_unless_same io l w r w' : sync_unless_deferred io l w = (Ok r, w') → r = l ∧ same_log w w'.
Proof.
  unfold sync_unless_deferred, op_bind, gets. unfold id.
  destruct (deferred_sync w); [by intros [= <- <-]|].
  destruct (fsync_locked io w) as [[[]| |] w2] eqn:E1; [|done..]. intros [= <- <-]. split; [done|].
  by apply (fsync_same io w (Ok tt) w2).
Qed.

Lemma sync_same io w r w' : sync io w = (r, w') → same_log w w'.
Proof.
  unfold sync, op_bind. destruct (drain io w) as [r1 w1] eqn:E1.
  destruct (drain_same io w r1 w1 E1) as [S1 [->|[e ->]]]; [|by intros [= _ <-]].
  intros E. etrans; [exact S1|]. by apply (fsync_same io w1 r w').
Qed.

End wal.

(** ** Effects *)

(** The records about a page. *)
Definition about (pid : PageId) (r : WalRecord) : Prop :=
  w_page_id r = pid ∧ is_control (w_rec_type r) = false.
#[global] Instance about_dec pid r : Decision (about pid r).
Proof. unfold about. apply _. Defined.

(** Any change may happen. *)
Definition any_change (_ : WalRecord) (_ : SlottedPage) : Prop := True.

Definition page_of (s : Db) (pid : PageId) : option (list Z) := page_at (mem (d_pool s)) pid.

(** A heap page the log is not behind. *)
Record good_page (s : Db) (pid : PageId) (p : SlottedPage) : Prop := {
  gp_mem : page_of s pid = Some (data p);
  gp_wf : page_wf p;
  gp_id : rd (data p) 0 4 = pid;
  gp_lsn : rd (data p) 12 8 < next_lsn (d_wal s);
}.

Section effects.
Context `{!Crc32}.

(** The records added to the log, and what happened to every page: exactly what the
    records about it say. *)
Record effect (s s' : Db) (rs : list WalRecord) : Prop := {
  ef_ok : wal_ok (d_wal s');
  ef_log : log_of (d_wal s') = log_of (d_wal s) ++ rs;
  ef_next : next_lsn (d_wal s') = next_lsn (d_wal s) + zlen rs;
  ef_page pid p : good_page s pid p → ∃ p', good_page s' pid p' ∧ history any_change p (filter (about pid) rs) p';
}.

Lemma effect_trans s s1 s2 rs1 rs2 : effect s s1 rs1 → effect s1 s2 rs2 → effect s s2 (rs1 ++ rs2).
Proof.
  intros [Ho1 Hl1 Hn1 Hp1] [Ho2 Hl2 Hn2 Hp2]. constructor; [done|by rewrite Hl2, Hl1, app_assoc| |].
  - rewrite zlen_app. lia.
  - intros pid p Hg. destruct (Hp1 pid p Hg) as (p1&Hg1&Hh1). destruct (Hp2 pid p1 Hg1) as (p2&Hg2&Hh2).
    exists p2. split; [done|]. rewrite filter_app. by eapply history_app.
Qed.

(** Nothing logged, nothing written. *)
Lemma effect_quiet s s' : wal_ok (d_wal s) → same_log (d_wal s) (d_wal s') → same_mem (d_pool s) (d_pool s') →
  effect s s' [].
Proof.
  intros Hok S Hm. destruct (wal_ok_same _ _ S Hok) as (Hok'&El&En).
  constructor; [done|by rewrite El, app_nil_r|rewrite En; unfold zlen; simpl; lia|].
  intros pid p [Hg Hw Hi Hl]. exists p. split; [|apply hist_nil].
  constructor; [|done|done|lia]. unfold page_of. by rewrite (same_mem_mem _ _ Hm).
Qed.

(** A record that is about no page. *)
Lemma effect_control s s' r : appended (d_wal s) (d_wal s') r → is_control (w_rec_type r) = true →
  same_mem (d_pool s) (d_pool s') → effect s s' [r].
Proof.
  intros [Hok Hlog _ Hn] Hc Hm. constructor; [done|done|rewrite Hn; unfold zlen; simpl; lia|].
  intros pid p [Hg Hw Hi Hl]. exists p. split.
  - constructor; [|done|done|lia]. unfold page_of. by rewrite (same_mem_mem _ _ Hm).
  - rewrite filter_cons_False, filter_nil by (intros [_ ?]; congruence). apply hist_nil.
Qed.

(** A page written under its record. *)
Lemma effect_write s s' r pid p p0 p1 p2 : appended (d_wal s) (d_wal s') r → next_lsn (d_wal s) < 2 ^ 64 →
  good_page s pid p → about pid r → did r p p0 → page_eq p0 p1 → set_lsn p1 (w_lsn r) = Ok p2 →
  mem (d_pool s') = <[Z.to_nat pid := data p2]> (mem (d_pool s)) → effect s s' [r].
Proof.
  intros [Hok Hlog Hlsn Hn] H64 Hg [Ha Hc] Hd Eh E Hm.
  constructor; [done|done|rewrite Hn; unfold zlen; simpl; lia|].
  destruct (set_lsn_redo _ _ _ _ Eh E) as (p2'&E'&E2).
  pose proof Hg as [Hgm Hgw Hgi Hgl]. unfold page_of in Hgm. pose proof (page_at_range _ _ _ Hgm) as Hrange.
  assert (0 ≤ rd (data p) 12 8) as H0.
  { apply (rd_bounds (data p) 12 8); [apply Hgw|lia|lia|]. pose proof (wf_room p Hgw). lia. }
  destruct (did_stamped r p p0 p2' Hgw Hd) as (Hp2'&Hl2&_); [lia|done|].
  pose proof (pe_lsn _ _ E2) as Hll. pose proof (pe_wf_r _ _ E2) as Hp2.
  intros qid q [Hqm Hqw Hqi Hql]. unfold page_of in *. destruct (decide (qid = pid)) as [->|Hne].
  - assert (q = p) as -> by (destruct q, p; simpl in *; congruence). exists p2. split.
    + constructor; [unfold page_of; by rewrite Hm, page_at_insert, decide_True by done|done| |lia].
      destruct (did_extends r p p0 Hgw Hd) as [Hp0 _ Hid _]. rewrite <- (pe_id _ _ E2).
      destruct (set_lsn_spec p0 (w_lsn r) Hp0) as (p3&E3&_&_&_&Hid2&_). congruence.
    + rewrite filter_cons_True, filter_nil by done. apply (hist_cons _ _ _ _ p2); [|apply hist_nil].
      by apply (step_did _ _ _ _ p0 p2'); [..|lia| |].
  - exists q. split.
    + constructor; [unfold page_of; by rewrite Hm, page_at_insert, decide_False by done|done|done|lia].
    + rewrite filter_cons_False, filter_nil by (intros [? _]; congruence). apply hist_nil.
Qed.

(** A page image. *)
Lemma effect_image s s' r pid p : appended (d_wal s) (d_wal s') r → good_page s pid p → w_page_id r = pid →
  w_rec_type r = WAL_FPI → w_redo r = data p → same_mem (d_pool s) (d_pool s') → effect s s' [r].
Proof.
  intros [Hok Hlog _ Hn] Hgp Hpid Hty Hredo Hm. constructor; [done|done|rewrite Hn; unfold zlen; simpl; lia|].
  intros qid q Hg. pose proof Hg as [Hgm Hw Hi Hl]. exists q. split.
  { constructor; [|done|done|lia]. unfold page_of. by rewrite (same_mem_mem _ _ Hm). }
  destruct (decide (qid = pid)) as [->|Hne].
  - assert (q = p) as -> by (pose proof (gp_mem _ _ _ Hgp); destruct q, p; simpl in *; congruence).
    rewrite filter_cons_True, filter_nil by (split; [done|by rewrite Hty]).
    apply (hist_cons _ _ _ _ p); [|apply hist_nil]. apply step_fpi; [done|done|by apply page_eq_refl].
  - rewrite filter_cons_False, filter_nil by (intros [? _]; congruence). apply hist_nil.
Qed.

End effects.

(** ** Primitive operations *)

Section prims.
Context `{!Crc32, !FsmTree}.
Variable io : Calls.
Variable pio : PoolCalls.

(** Pages past the allocated ones hold no heap page. *)
Definition tail_blank (s : Db) : Prop := ∀ pid p,
  file_page_count (d_pool s) ≤ pid → page_of s pid = Some (data p) → ¬ page_wf p.

(** The log is sound, and its counters and the page ids have room for [n] more. *)
Record ready (n : Z) (s : Db) : Prop := {
  rd_wal : wal_ok (d_wal s);
  rd_lsn : 1 ≤ next_lsn (d_wal s) ∧ next_lsn (d_wal s) + n ≤ 2 ^ 64;
  rd_mini : 0 ≤ next_mini_txn (d_wal s) ∧ next_mini_txn (d_wal s) + n ≤ 2 ^ 64 ∧
    0 ≤ file_page_count (d_pool s) ∧ file_page_count (d_pool s) + n < 2 ^ 32;
  rd_tail : tail_blank s;
}.

(** Steps that write no page, using up [n] of the room. *)
Record calm (n : Z) (s s' : Db) (rs : list WalRecord) : Prop := {
  cm_effect : effect s s' rs;
  cm_mem : same_mem (d_pool s) (d_pool s');
  cm_len : zlen rs ≤ n;
  cm_mini : next_mini_txn (d_wal s) ≤ next_mini_txn (d_wal s') ≤ next_mini_txn (d_wal s) + n;
}.

Lemma calm_ready n k s s' rs : ready k s → calm n s s' rs → ready (k - n) s'.
Proof.
  intros [Hw Hl Hm Ht] [He Hs Hn Hi]. pose proof (zlen_nonneg rs). pose proof (ef_next _ _ _ He).
  injection Hs as Hs1 Hs2 _. constructor; [apply He|lia|lia|].
  intros pid p. unfold page_of. rewrite Hs1, Hs2. apply Ht.
Qed.

Lemma calm_trans n n' s s1 s2 rs1 rs2 : calm n s s1 rs1 → calm n' s1 s2 rs2 → calm (n + n') s s2 (rs1 ++ rs2).
Proof.
  intros [] []. constructor; [by eapply effect_trans|by etrans|rewrite zlen_app; lia|lia].
Qed.

Lemma calm_good n s s' rs pid p : calm n s s' rs → good_page s pid p → good_page s' pid p.
Proof.
  intros [He Hs _ _] [Hg Hw Hi Hl]. pose proof (ef_next _ _ _ He). pose proof (zlen_nonneg rs).
  constructor; [unfold page_of; by rewrite (same_mem_mem _ _ Hs)|done|done|lia].
Qed.

Lemma calm_quiet s s' : wal_ok (d_wal s) → same_log (d_wal s) (d_wal s') → same_mem (d_pool s) (d_pool s') →
  next_mini_txn (d_wal s') = next_mini_txn (d_wal s) → calm 0 s s' [].
Proof.
  intros. constructor; try done; [by apply effect_quiet|lia].
Qed.

(** Wal operations on the database. *)
Lemma wal_op_run {A} (m : op Wal A) s r s' : wal_op m s = (r, s') →
  m (d_wal s) = (r, d_wal s') ∧ d_pool s' = d_pool s.
Proof.
  unfold wal_op, on_io, on_wal. simpl. destruct (m (d_wal s)) as [r' w]. by intros [= <- <-].
Qed.
Lemma pool_op_run {A} (m : op BufferPool A) s r s' : pool_op m s = (r, s') →
  m (d_pool s) = (r, d_pool s') ∧ d_wal s' = d_wal s.
Proof.
  unfold pool_op, on_io, on_pool. simpl. destruct (m (d_pool s)) as [r' p]. by intros [= <- <-].
Qed.

Lemma append_mini mini prev ty page slot redo undo w r w' :
  append_locked io mini prev ty page slot redo undo w = (r, w') → next_mini_txn w' = next_mini_txn w.
Proof.
  intros E. pose proof (kf_append io mini prev ty page slot redo undo w) as Hk. rewrite E in Hk.
  simpl in Hk. by injection Hk.
Qed.
Lemma fsync_mini w r w' : fsync_locked io w = (r, w') → next_mini_txn w' = next_mini_txn w.
Proof.
  unfold fsync_locked. destruct (poisoned w); [by intros [= _ <-]|].
  destruct (fsync_fault_armed w); [by intros [= _ <-]|].
  pose proof (kf_flush (io_flush io) w) as Hf. destruct (bw_flush (io_flush io) w) as [[[]| |] w1]; simpl in Hf.
  - destruct (io_sync io); intros [= _ <-]; by injection Hf.
  - intros [= _ <-]. by injection Hf.
  - intros [= _ <-]. by injection Hf.
Qed.
Lemma sync_unless_mini l w r w' : sync_unless_deferred io l w = (r, w') → next_mini_txn w' = next_mini_txn w.
Proof.
  unfold sync_unless_deferred, op_bind, gets, id. destruct (deferred_sync w); [by intros [= _ <-]|].
  destruct (fsync_locked io w) as [[[]| |] w1] eqn:E; intros [= _ <-]; by eapply fsync_mini.
Qed.
Lemma sync_mini w r w' : sync io w = (r, w') → next_mini_txn w' = next_mini_txn w.
Proof.
  unfold sync, op_bind. pose proof (kf_drain io w) as Hd. destruct (drain io w) as [[[]| |] w1]; simpl in Hd.
  - intros E. rewrite (fsync_mini _ _ _ E). by injection Hd.
  - intros [= _ <-]. by injection Hd.
  - intros [= _ <-]. by injection Hd.
Qed.

Lemma control_record_ok w mini prev ty : 0 ≤ next_lsn w < 2 ^ 64 → 0 ≤ mini < 2 ^ 64 → 0 ≤ prev < 2 ^ 64 →
  is_byte ty → record_ok (append_record w mini prev ty 0 0 [] []).
Proof. intros. by constructor; simpl; try lia. Qed.

Lemma begin_calm n s t s' : io_rec io = None → ready n s → 1 ≤ n → wal_op (begin_mini_txn io) s = (Ok t, s') →
  (∃ rs, calm 1 s s' rs) ∧ t.2 = next_lsn (d_wal s) ∧ 0 ≤ t.1 < 2 ^ 64.
Proof.
  intros Hio [Hw Hl Hm _] Hn (E&Ep)%wal_op_run. unfold begin_mini_txn in E.
  unfold op_bind at 1, gets at 1 in E. unfold op_bind at 1, modify at 1 in E.
  apply op_bind_Ok in E as (lsn&w1&E&[= <- ->]).
  pose proof (set_mini_same (d_wal s) (next_mini_txn (d_wal s) + 1)) as S0.
  destruct (wal_ok_same _ _ S0 Hw) as (Hw0&El0&En0). pose proof (append_mini _ _ _ _ _ _ _ _ _ _ E) as Hmini.
  apply append_appended in E as (->&Ha); [|done|done|].
  2:{ apply control_record_ok; [rewrite En0; lia|lia|unfold INVALID_LSN; lia|vm_compute; by split]. }
  split; [|simpl; lia]. set (r := append_record _ _ _ _ _ _ _ _) in Ha.
  assert (appended (d_wal s) (d_wal s') r) as Ha'.
  { destruct Ha as [Ha1 Ha2 Ha3 Ha4]. constructor; [done|by rewrite Ha2, El0|done|by rewrite Ha4]. }
  exists [r]. constructor; [by apply effect_control; [..|by rewrite Ep]|by rewrite Ep|done|].
  rewrite Hmini. simpl. lia.
Qed.

(** Commit and abort of a mini-transaction. *)
Lemma finish_calm n s ty mini prev r s' : io_rec io = None → ready n s → 1 ≤ n → ty = WAL_COMMIT ∨ ty = WAL_ABORT →
  0 ≤ mini < 2 ^ 64 → 0 ≤ prev < 2 ^ 64 →
  wal_op (lsn <- append_locked io mini prev ty 0 0 [] [];; sync_unless_deferred io lsn) s = (Ok r, s') →
  ∃ rs, calm 1 s s' rs.
Proof.
  intros Hio [Hw Hl Hm _] Hn Hty Hmi Hpr (E&Ep)%wal_op_run. apply op_bind_Ok in E as (lsn&w1&E&E1).
  pose proof (append_mini _ _ _ _ _ _ _ _ _ _ E) as Hmini. pose proof (sync_unless_mini _ _ _ _ E1) as Hmini1.
  apply append_appended in E as (->&Ha); [|done|done|apply control_record_ok; [lia|lia|lia|]];
    [|destruct Hty; subst ty; unfold is_byte; vm_compute; by split].
  apply sync_unless_same in E1 as (_&S1). pose proof (appended_same _ _ _ _ Ha S1) as Ha'.
  eexists [_]. constructor; [apply (effect_control _ _ _ Ha'); [|by rewrite Ep]|by rewrite Ep|done|lia].
  by destruct Hty; subst ty.
Qed.

Lemma refresh_mem s : same_mem s.1 (refresh_durable s).1 ∧ (refresh_durable s).2 = s.2.
Proof. unfold refresh_durable, set_durable_wal_lsn, same_mem. by case_decide. Qed.

(** A fetch, evicting and syncing as it may, returns the page's bytes. *)
Lemma fetch_calm n s pid page s' : ready n s → fetch_for_write io pio pid s = (Ok page, s') →
  calm 0 s s' [] ∧ page_of s pid = Some (data page).
Proof.
  intros [Hw _ _ _] E. unfold fetch_for_write, on_io in E. destruct (fetch_page_for_write pio io pid _) as [r [p' w']] eqn:Ef.
  injection E as -> <-. unfold fetch_page_for_write, on_pool in Ef.
  destruct (refresh_mem (d_pool s, d_wal s)) as [Hm0 Hw0].
  destruct (refresh_durable (d_pool s, d_wal s)) as [p0 w0]. simpl in *. subst w0.
  pose proof (fetch_same_mem pio pid p0) as Hm1. destruct (fetch_page pio pid p0) as [r1 p1] eqn:E1. simpl in Hm1.
  assert (same_log (d_wal s) w' ∧ next_mini_txn w' = next_mini_txn (d_wal s) ∧
    ∃ p2, same_mem p1 p2 ∧ (fetch_page pio pid p0 = (Ok page, p') ∨ fetch_page pio pid p2 = (Ok page, p')))
    as (Hl&Hmini&p2&Hm2&Hf).
  { destruct r1 as [pg|[]|]; try (split_and!; naive_solver).
    apply op_bind_Ok in Ef as ([]&[q v]&Eq&Ef). unfold on_wal in Eq. simpl in Eq.
    destruct (sync io (d_wal s)) as [r2 w2] eqn:Es. injection Eq as -> <- <-.
    apply op_bind_Ok in Ef as ([]&[q' v']&[= Eq']&Ef). destruct (refresh_mem (p1, w2)) as [Hm2 _].
    subst q' v'. simpl in *. destruct (fetch_page pio pid (set_durable_wal_lsn _ _)) as [r3 p3] eqn:E3.
    injection Ef as -> <- <-. split; [by eapply sync_same|]. split; [by eapply sync_mini|eauto]. }
  assert (∃ q, same_mem (d_pool s) q ∧ fetch_page pio pid q = (Ok page, p')) as (q&Hq&Eq).
  { destruct Hf as [Hf|Hf]; eexists; (split; [|exact Hf]); [done|by do 2 (etrans; [done|])]. }
  destruct (fetch_page_mem _ _ _ _ _ Eq) as [Hq' Hp]. split; [|unfold page_of; by rewrite <- (same_mem_mem _ _ Hq)].
  apply calm_quiet; [done|done|simpl; by etrans|done].
Qed.

Lemma unpin_calm n s pid r s' : ready n s → unpin_page pid s = (r, s') → calm 0 s s' [].
Proof.
  intros [Hw _ _ _] (E&Ew)%pool_op_run. injection E as _ E. apply calm_quiet; rewrite ?Ew; try done.
  rewrite <- E. unfold alter_resident. by destruct (frame_index _ !! pid).
Qed.

Lemma note_calm n s pid free r s' : ready n s → note_free_space pid free s = (r, s') → calm 0 s s' [].
Proof. intros [Hw _ _ _] [= _ <-]. by apply calm_quiet. Qed.

Lemma lock_calm n s rid xid r s' : ready n s → try_lock_row rid xid s = (r, s') → calm 0 s s' [].
Proof.
  intros [Hw _ _ _] E. unfold try_lock_row in E.
  destruct (try_acquire_write _ _ _) as [[] t]; injection E as _ <-; by apply calm_quiet.
Qed.

(** A page image is logged from the page as it is. *)
Lemma fpi_calm n s pid mini prev l s' p : io_rec io = None → ready n s → 1 ≤ n → good_page s pid p →
  0 ≤ mini < 2 ^ 64 → 0 ≤ prev < 2 ^ 64 → fpi_or io pid mini prev s = (Ok l, s') →
  (∃ rs, calm 1 s s' rs) ∧ 0 ≤ l < 2 ^ 64.
Proof.
  intros Hio [Hw Hl Hm _] Hn Hg Hmi Hpr E. unfold fpi_or in E. apply op_bind_Ok in E as (o&s1&E&[= <- ->]).
  unfold on_io in E. destruct (maybe_log_fpi io pid mini prev _) as [r [q w]] eqn:Ef. injection E as -> <-.
  unfold maybe_log_fpi in Ef. unfold op_bind at 1, gets at 1 in Ef. case_bool_decide.
  { injection Ef as <- <- <-. split; [|done]. exists []. destruct (calm_quiet s (mkDb (d_pool s) (d_wal s) (d_locks s) (d_fsm s)));
      try done. constructor; done || lia. }
  apply op_bind_Ok in Ef as (image&[q1 w1]&E1&Ef). apply op_bind_Ok in Ef as (l'&[q2 w2]&E2&Ef).
  injection Ef as <- <- <-. unfold on_pool, read_page in E1. injection E1 as E1 <- <-. apply read_page_data in E1.
  unfold on_wal in E2. simpl in E2. destruct (log_fpi _ _ _ _ _ _) as [r2 w3] eqn:El. injection E2 as -> <- <-. unfold log_fpi in El.
  pose proof Hg as [Hgm Hgw Hgi Hgl]. unfold page_of in Hgm. simpl in E1. rewrite E1 in Hgm. injection Hgm as Ed.
  pose proof (append_mini _ _ _ _ _ _ _ _ _ _ El) as Hmini. pose proof (wf_room p Hgw) as Hroom.
  assert (pid_ok pid) as Hpid.
  { unfold pid_ok. rewrite <- Hgi. apply (rd_bounds (data p) 0 4); [apply Hgw|lia..]. }
  apply append_appended in El as (->&Ha); [|done|done|].
  2:{ constructor; simpl; [lia..|done|done|lia|rewrite Ed; apply Hgw|done|]. rewrite Ed.
      destruct Hgw as [[] _]. unfold zlen at 2. simpl. lia. }
  split; [|simpl; lia]. exists [append_record (d_wal s) mini prev WAL_FPI pid 65535 (data image) []].
  constructor; [|done|done|simpl; lia].
  eapply (effect_image s _ _ pid p); [exact Ha|done|done|done|by simpl; rewrite Ed|done].
Qed.

(** ** Operations *)

(** A run that logged at most [n] records, each page changed as they say. *)
Record ran (n : Z) (s s' : Db) : Prop := {
  rn_effect : ∃ rs, effect s s' rs ∧ zlen rs ≤ n;
  rn_mini : next_mini_txn (d_wal s) ≤ next_mini_txn (d_wal s') ≤ next_mini_txn (d_wal s) + n ∧
    file_page_count (d_pool s) ≤ file_page_count (d_pool s') ≤ file_page_count (d_pool s) + n;
  rn_tail : tail_blank s → tail_blank s';
}.

Lemma calm_ran n s s' rs : calm n s s' rs → ran n s s'.
Proof.
  intros [He Hs Hn Hi]. injection Hs as Hs1 Hs2 _. pose proof (zlen_nonneg rs).
  constructor; [by eexists|lia|]. intros Ht pid p. unfold page_of. rewrite Hs1, Hs2. apply Ht.
Qed.
Lemma ran_trans n n' s s1 s2 : ran n s s1 → ran n' s1 s2 → ran (n + n') s s2.
Proof.
  intros [(rs&He&Hl) Hm Ht] [(rs'&He'&Hl') Hm' Ht']. constructor; [|lia|auto].
  exists (rs ++ rs'). split; [by eapply effect_trans|rewrite zlen_app; lia].
Qed.
Lemma ran_le n n' s s' : ran n s s' → n ≤ n' → ran n' s s'.
Proof. intros [(rs&He&Hl) Hm Ht] Hn. constructor; [|lia|done]. exists rs. split; [done|lia]. Qed.
Lemma ran_ready n k s s' : ready k s → ran n s s' → ready (k - n) s'.
Proof.
  intros [Hw Hl Hm Ht] [(rs&He&Hz) Hi Htl]. pose proof (zlen_nonneg rs). pose proof (ef_next _ _ _ He).
  constructor; [apply He|lia|lia|auto].
Qed.
Definition is_good (s : Db) (pid : PageId) : Prop := ∃ p, good_page s pid p.
Lemma ran_good n s s' pid : ran n s s' → is_good s pid → is_good s' pid.
Proof. intros [(rs&He&_) _ _] [p Hg]. destruct (ef_page _ _ _ He pid p Hg) as (p'&?&_). by exists p'. Qed.

Lemma good_pid s pid p : good_page s pid p → pid_ok pid.
Proof.
  intros [_ Hgw <- _]. pose proof (wf_room p Hgw). apply (rd_bounds (data p) 0 4); [apply Hgw|lia..].
Qed.

(** A stored page is where its id says. *)
Lemma store_mem s p u s' : store_page p s = (Ok u, s') →
  28 ≤ zlen (data p) → d_wal s' = d_wal s ∧ file_page_count (d_pool s') = file_page_count (d_pool s) ∧
  mem (d_pool s') = <[Z.to_nat (rd (data p) 0 4) := data p]> (mem (d_pool s)).
Proof.
  intros (E&Ew)%pool_op_run Hz. split; [done|]. unfold write_page in E.
  rewrite page_id_Ok, lsn_Ok in E by lia. unfold map_write in E. case_decide; [|done].
  injection E as _ <-. unfold alter_resident. by destruct (frame_index _ !! _).
Qed.

(** Log a change of a page and store the page. *)
Lemma write_block n s pid p mini prev ty slot redo undo lsn s1 p0 p1 p2 u s2 :
  let r := append_record (d_wal s) mini prev ty pid slot redo undo in
  io_rec io = None → ready n s → 1 ≤ n → good_page s pid p → record_ok r → is_control ty = false →
  wal_op (append_locked io mini prev ty pid slot redo undo) s = (Ok lsn, s1) →
  did r p p0 → page_eq p0 p1 → set_lsn p1 lsn = Ok p2 → store_page p2 s1 = (Ok u, s2) →
  ran 1 s s2 ∧ 0 ≤ lsn < 2 ^ 64.
Proof.
  intros r Hio [Hw Hl Hm Ht] Hn Hg Hr Hc (E&Ep)%wal_op_run Hd Eq E2 Es.
  pose proof (append_mini _ _ _ _ _ _ _ _ _ _ E) as Hmini.
  apply append_appended in E as (->&Ha); [|done..]. pose proof Hg as [Hgm Hgw Hgi Hgl].
  destruct (set_lsn_spec p1 (next_lsn (d_wal s)) (pe_wf_r _ _ Eq)) as (p2'&E2'&Hp2&_&_&Hid&_).
  rewrite E2 in E2'. injection E2' as <-.
  apply store_mem in Es as (Ew&Ec&Em); [|by apply wf_room in Hp2; lia]. rewrite <- (pe_id _ _ Eq) in Hid.
  rewrite (ex_id _ _ (did_extends _ _ _ Hgw Hd)), Hgi in Hid. rewrite Hid, Ep in Em. rewrite Ep in Ec.
  split; [|lia]. constructor.
  - exists [r]. split; [|done]. rewrite <- Ew in Ha.
    apply (effect_write s s2 r pid p p0 p1 p2); try done. lia.
  - rewrite Ew. lia.
  - intros _ qid q Hq. unfold page_of. rewrite Ec in Hq.
    rewrite Em, page_at_insert by (by eapply page_at_range). rewrite decide_False; [by apply Ht|].
    intros ->. by apply (Ht pid p Hq Hgm).
Qed.

(** A mini-transaction with its page at hand. *)
Record opened (n : Z) (s s' : Db) (t : Z * Lsn) (pid : PageId) (page : SlottedPage) : Prop := {
  op_ran : ran 1 s s';
  op_ready : ready (n - 1) s';
  op_good : good_page s' pid page;
  op_mini : 0 ≤ t.1 < 2 ^ 64;
  op_lsn : 0 ≤ t.2 < 2 ^ 64;
}.

Lemma fetch_good n s pid page s' : ready n s → is_good s pid → fetch_for_write io pio pid s = (Ok page, s') →
  ran 0 s s' ∧ good_page s' pid page.
Proof.
  intros Hr [p Hg] E. destruct (fetch_calm _ _ _ _ _ Hr E) as [Hc Hp]. split; [by eapply calm_ran|].
  assert (page = p) as -> by (pose proof (gp_mem _ _ _ Hg); destruct page, p; simpl in *; congruence).
  by eapply calm_good.
Qed.

Lemma open_block n s t s1 pid page s2 : io_rec io = None → ready n s → 1 ≤ n → is_good s pid →
  wal_op (begin_mini_txn io) s = (Ok t, s1) → fetch_for_write io pio pid s1 = (Ok page, s2) →
  opened n s s2 t pid page.
Proof.
  intros Hio Hr Hn Hg E1 E2. pose proof (rd_lsn _ _ Hr).
  destruct (begin_calm _ _ _ _ Hio Hr Hn E1) as ((rs&Hc)&Hl&Hmi). apply calm_ran in Hc as R1.
  pose proof (ran_ready _ _ _ _ Hr R1) as Hr1.
  destruct (fetch_good _ _ _ _ _ Hr1 (ran_good _ _ _ _ R1 Hg) E2) as [R2 Hg2].
  constructor; [apply (ran_le _ _ _ _ (ran_trans _ _ _ _ _ R1 R2)); lia| |done|done|lia].
  replace (n - 1) with (n - 1 - 0) by lia. by eapply ran_ready.
Qed.

(** Log the page's image, the change, and store the page. *)
Lemma logged_block n s pid p mini prev ty slot redo undo l s1 lsn s2 p0 p1 p2 u s3 :
  io_rec io = None → ready n s → 2 ≤ n → good_page s pid p → 0 ≤ mini < 2 ^ 64 → 0 ≤ prev < 2 ^ 64 →
  slot_ok slot → bytes redo → bytes undo → 45 + zlen redo + zlen undo < 2 ^ 32 → is_byte ty →
  is_control ty = false →
  fpi_or io pid mini prev s = (Ok l, s1) →
  wal_op (append_locked io mini l ty pid slot redo undo) s1 = (Ok lsn, s2) →
  did (append_record (d_wal s1) mini l ty pid slot redo undo) p p0 → page_eq p0 p1 →
  set_lsn p1 lsn = Ok p2 → store_page p2 s2 = (Ok u, s3) →
  ran 2 s s3 ∧ 0 ≤ lsn < 2 ^ 64.
Proof.
  intros Hio Hr Hn Hg Hmi Hpr Hsl Hre Hun Hz Hty Hc E1 E2 Hd Eq E3 E4.
  destruct (fpi_calm n s pid mini prev l s1 p) as ((rs&Hcalm)&Hl); try done; [lia|].
  pose proof (calm_good _ _ _ _ _ _ Hcalm Hg) as Hg1. apply calm_ran in Hcalm.
  pose proof (ran_ready _ _ _ _ Hr Hcalm) as Hr1. pose proof (rd_lsn _ _ Hr1).
  destruct (write_block (n - 1) s1 pid p mini l ty slot redo undo lsn s2 p0 p1 p2 u s3) as [R2 Hlsn]; try done; [lia| |].
  { constructor; simpl; try done; [lia|]. by apply (good_pid _ _ _ Hg). }
  split; [|done]. apply (ran_trans 1 1 s s1 s3); done.
Qed.

(** A mini-transaction around work on a page. *)
Lemma mini_ran {A} n k s pid (body : Z * Lsn → SlottedPage → op Db A) a s' :
  io_rec io = None → ready n s → 1 ≤ n → is_good s pid →
  (t <- wal_op (begin_mini_txn io);; page <- fetch_for_write io pio pid;; body t page) s = (Ok a, s') →
  (∀ t page s2, ready (n - 1) s2 → good_page s2 pid page → 0 ≤ t.1 < 2 ^ 64 → 0 ≤ t.2 < 2 ^ 64 →
     body t page s2 = (Ok a, s') → ran k s2 s') →
  ran (1 + k) s s'.
Proof.
  intros Hio Hr Hn Hg E Hb. apply op_bind_Ok in E as (t&s1&E1&E). apply op_bind_Ok in E as (page&s2&E2&E).
  destruct (open_block n s t s1 pid page s2) as [R1 Hr1 Hg1 Hmi Hl]; try done.
  eapply ran_trans; [exact R1|]. by eapply Hb.
Qed.

(** Unpin the page and end the mini-transaction. *)
Lemma close_ran {A} n s pid mini prev (k : op Db A) a s' : io_rec io = None → ready n s → 1 ≤ n →
  0 ≤ mini < 2 ^ 64 → 0 ≤ prev < 2 ^ 64 →
  (unpin_page pid;; wal_op (commit_mini_txn io mini prev);; k) s = (Ok a, s') →
  ∃ s1, ran 1 s s1 ∧ k s1 = (Ok a, s').
Proof.
  intros Hio Hr Hn Hmi Hpr E. apply op_bind_Ok in E as (?&s1&E1&E). apply op_bind_Ok in E as (l&s2&E2&E).
  exists s2. split; [|done]. pose proof (calm_ran _ _ _ _ (unpin_calm _ _ _ _ _ Hr E1)) as R1.
  pose proof (ran_ready _ _ _ _ Hr R1) as Hr1.
  destruct (finish_calm (n - 0) s1 WAL_COMMIT mini prev l s2) as [rs Hc]; try done; [lia|by left|].
  apply calm_ran in Hc. apply (ran_trans 0 1 s s1 s2); done.
Qed.

(** Logging a stamp of [xmax]. *)
Lemma stamp_block n s pid slot p mini prev x y l s1 lsn s2 p0 p1 p2 u s3 :
  io_rec io = None → ready n s → 2 ≤ n → good_page s pid p → 0 ≤ mini < 2 ^ 64 → 0 ≤ prev < 2 ^ 64 →
  slot_ok slot → xid_ok x → fpi_or io pid mini prev s = (Ok l, s1) →
  wal_op (log_update io mini l pid slot (u64_to_le x) (u64_to_le y)) s1 = (Ok lsn, s2) →
  set_xmax p slot x = Ok p0 → page_eq p0 p1 → set_lsn p1 lsn = Ok p2 → store_page p2 s2 = (Ok u, s3) →
  ran 2 s s3 ∧ 0 ≤ lsn < 2 ^ 64.
Proof.
  intros Hio Hr Hn Hg Hmi Hpr Hsl Hx E1 E2 E3 Eq E4 E5.
  apply (logged_block n s pid p mini prev WAL_UPDATE slot (u64_to_le x) (u64_to_le y) l s1 lsn s2 p0 p1 p2 u s3);
    auto with unidb; [autorewrite with zlen; lia|by vm_compute|].
  eapply (did_update _ p p0 x); try done. unfold slot_ok in Hsl. simpl. lia.
Qed.

Lemma set_xmax_wf p s x p' : page_wf p → 0 ≤ s → set_xmax p s x = Ok p' → page_wf p'.
Proof.
  intros Hp Hs E. pose proof (set_xmax_updates p s x Hp Hs) as U. rewrite E in U. by apply updates_slot_wf in U as [].
Qed.

(** *** Delete *)

Lemma delete_ran n s rid xid s' : io_rec io = None → ready n s → 4 ≤ n → is_good s (ri_page rid) →
  slot_ok (ri_slot rid) → xid_ok xid → heap_delete io pio rid xid s = (Ok tt, s') → ran 4 s s'.
Proof.
  intros Hio Hr Hn Hg Hsl Hx E. unfold heap_delete in E.
  apply op_bind_Ok in E as (?&s0&E0&E). pose proof (calm_ran _ _ _ _ (lock_calm _ _ _ _ _ _ Hr E0)) as R0.
  pose proof (ran_ready _ _ _ _ Hr R0) as Hr0. apply (ran_trans 0 4 s s0 s' R0).
  eapply (mini_ran (n - 0) 3); [done|done|lia|by eapply ran_good|exact E|]. clear E.
  intros t page s2 Hr1 Hg1 Hmi Hl E. apply op_bind_Ok in E as (th&?&[= Eth <-]&E). case_decide.
  { unfold conflict in E. by do 2 apply op_bind_Ok in E as (?&?&_&E). }
  apply op_bind_Ok in E as (l&s3&E3&E). apply op_bind_Ok in E as (lsn&s4&E4&E).
  apply op_bind_Ok in E as (p0&?&[= Ep0 <-]&E). apply op_bind_Ok in E as ([b p1]&?&[= Ep1 <-]&E).
  apply op_bind_Ok in E as (p2&?&[= Ep2 <-]&E). apply op_bind_Ok in E as (u&s5&E5&E).
  destruct (stamp_block (n - 0 - 1) s2 (ri_page rid) (ri_slot rid) page t.1 t.2 xid (xmax th) l s3 lsn s4 p0 p1 p2 u s5)
    as [R2 Hlsn]; try done; [lia| |].
  { assert (page_wf p0) as Hp0 by (eapply set_xmax_wf; [apply Hg1| |exact Ep0]; unfold slot_ok in Hsl; lia).
    destruct (set_xmin_hint p0 _ _) as [q|e|] eqn:Eh; try done; injection Ep1 as _ <-; [|by apply page_eq_refl].
    apply (set_hint_page_eq TH_XMIN p0 (ri_slot rid) TUPLE_HINT_XMIN_COMMITTED q); try done;
      [unfold slot_ok in Hsl; lia|by left]. }
  pose proof (ran_ready _ _ _ _ Hr1 R2) as Hr2. apply (ran_trans 2 1 s2 s5 s' R2).
  eapply close_ran in E as (s6&R3&[= <-]); [done..|lia|done|done].
Qed.

(** *** Stamps of undo *)

Lemma restamp_ran n s pid slot x f s' : io_rec io = None → ready n s → 4 ≤ n → is_good s pid →
  slot_ok slot → xid_ok x → restamp io pio pid slot x f s = (Ok tt, s') → ran 4 s s'.
Proof.
  intros Hio Hr Hn Hg Hsl Hx E. eapply (mini_ran n 3); [done|done|lia|done|exact E|]. clear E.
  intros t page s2 Hr1 Hg1 Hmi Hl E. apply op_bind_Ok in E as (y&?&[= _ <-]&E).
  apply op_bind_Ok in E as (l&s3&E3&E). apply op_bind_Ok in E as (lsn&s4&E4&E).
  apply op_bind_Ok in E as (p1&?&[= Ep1 <-]&E). apply op_bind_Ok in E as (p2&?&[= Ep2 <-]&E).
  apply op_bind_Ok in E as (u&s5&E5&E).
  destruct (stamp_block (n - 1) s2 pid slot page t.1 t.2 x y l s3 lsn s4 p1 p1 p2 u s5) as [R2 Hlsn];
    try done; [lia|eapply page_eq_refl, set_xmax_wf; [apply Hg1| |exact Ep1]; unfold slot_ok in Hsl; lia|].
  pose proof (ran_ready _ _ _ _ Hr1 R2) as Hr2. apply (ran_trans 2 1 s2 s5 s' R2).
  eapply close_ran in E as (s6&R3&[= <-]); [done..|lia|done|done].
Qed.

(** *** Batched stamps *)

Lemma check_conflicts_ok pid page t slots s u s' : check_conflicts io pid page t slots s = (Ok u, s') → s' = s.
Proof.
  unfold check_conflicts. induction slots as [|slot slots IH]; cbn [each]; [by intros [= _ <-]|].
  intros E. apply op_bind_Ok in E as (?&s1&E1&E). apply op_bind_Ok in E1 as (th&?&[= _ <-]&E1). case_decide.
  - unfold conflict in E1. by do 2 apply op_bind_Ok in E1 as (?&?&_&E1).
  - injection E1 as _ <-. auto.
Qed.

Lemma slots_payload_ok slots : Forall slot_ok slots →
  bytes (slots_payload slots) ∧ zlen (slots_payload slots) = 2 + 2 * zlen slots.
Proof.
  intros _. unfold slots_payload. rewrite zlen_app, zlen_u16_to_le, zlen_slots. split; [|done].
  apply Forall_app_2; [auto with unidb|]. induction slots as [|s slots IH]; [done|].
  rewrite fmap_cons. apply Forall_app_2; [auto with unidb|done].
Qed.

Lemma stamp_group_ran n s pid slots xid s' : io_rec io = None → ready n s → 4 ≤ n → is_good s pid →
  Forall slot_ok slots → zlen slots < 2 ^ 16 → xid_ok xid →
  stamp_group io pio xid pid slots s = (Ok tt, s') → ran 4 s s'.
Proof.
  intros Hio Hr Hn Hg Hsl Hlen Hx E. eapply (mini_ran n 3); [done|done|lia|done|exact E|]. clear E.
  intros t page s2 Hr1 Hg1 Hmi Hl E. apply op_bind_Ok in E as (?&s2'&->%check_conflicts_ok&E).
  apply op_bind_Ok in E as (l&s3&E3&E). apply op_bind_Ok in E as (lsn&s4&E4&E).
  apply op_bind_Ok in E as (p1&?&[= Ep1 <-]&E). apply op_bind_Ok in E as (p2&?&[= Ep2 <-]&E).
  apply op_bind_Ok in E as (u&s5&E5&E). destruct (slots_payload_ok slots Hsl) as [Hb Hz].
  destruct (logged_block (n - 1) s2 pid page t.1 t.2 WAL_XMAX_BATCH 65535 (xmax_batch_redo xid slots)
    (slots_payload slots) l s3 lsn s4 p1 p1 p2 u s5) as [R2 Hlsn]; try done; try lia.
  - apply Forall_app_2; auto with unidb.
  - unfold xmax_batch_redo. rewrite zlen_app, zlen_u64_to_le. lia.
  - by eapply (did_xmax_batch _ _ _ xid slots).
  - destruct (stamp_all_wf _ _ _ _ (gp_wf _ _ _ Hg1) Hsl Ep1) as [? _]. by apply page_eq_refl.
  - pose proof (ran_ready _ _ _ _ Hr1 R2) as Hr2. apply (ran_trans 2 1 s2 s5 s' R2).
    eapply close_ran in E as (s6&R3&[= <-]); [done..|lia|done|done].
Qed.

(** *** Vacuum *)

Lemma mark_dead_ran n s rid s' : io_rec io = None → ready n s → 4 ≤ n → is_good s (ri_page rid) →
  0 ≤ ri_slot rid < U16_MAX → heap_mark_dead io pio rid s = (Ok tt, s') → ran 4 s s'.
Proof.
  intros Hio Hr Hn Hg Hsl E. eapply (mini_ran n 3); [done|done|lia|done|exact E|]. clear E.
  intros t page s2 Hr1 Hg1 Hmi Hl E. apply op_bind_Ok in E as (l&s3&E3&E). apply op_bind_Ok in E as (lsn&s4&E4&E).
  apply op_bind_Ok in E as (p1&?&[= Ep1 <-]&E). apply op_bind_Ok in E as (p2&?&[= Ep2 <-]&E).
  apply op_bind_Ok in E as (u&s5&E5&E).
  assert (did (append_record (d_wal s3) t.1 l WAL_VACUUM (ri_page rid) (ri_slot rid) [] []) page p1) as Hd
    by (by apply did_mark_dead).
  destruct (logged_block (n - 1) s2 (ri_page rid) page t.1 t.2 WAL_VACUUM (ri_slot rid) [] []
    l s3 lsn s4 p1 p1 p2 u s5) as [R2 Hlsn]; try done; try lia.
  - unfold slot_ok, U16_MAX in *. lia.
  - by apply page_eq_refl, (did_extends _ _ _ (gp_wf _ _ _ Hg1) Hd).
  - pose proof (ran_ready _ _ _ _ Hr1 R2) as Hr2. apply (ran_trans 2 1 s2 s5 s' R2).
    eapply close_ran in E as (s6&R3&[= <-]); [done..|lia|done|done].
Qed.

Lemma compact_ran n h s pid freed s' : io_rec io = None → ready n s → 3 ≤ n → is_good s pid →
  fsm_tree h = None → compact_page io pio h pid s = (Ok freed, s') → ran 3 s s'.
Proof.
  intros Hio Hr Hn Hg Hh E. eapply (mini_ran n 2); [done|done|lia|done|exact E|]. clear E.
  intros t page s2 Hr1 Hg1 Hmi Hl E. apply op_bind_Ok in E as ([m p1]&?&[= Ep1 <-]&E).
  apply op_bind_Ok in E as (lsn&s4&E4&E). apply op_bind_Ok in E as (p2&?&[= Ep2 <-]&E).
  apply op_bind_Ok in E as (u&s5&E5&E). apply op_bind_Ok in E as (free&?&[= Ef <-]&E).
  destruct (compact_spec page (gp_wf _ _ _ Hg1)) as (p1'&E1'&Hp1&Hz&_). rewrite Ep1 in E1'. injection E1' as -> <-.
  pose proof (rd_lsn _ _ Hr1). pose proof (good_pid _ _ _ Hg1) as Hpid.
  destruct (write_block (n - 1) s2 pid page t.1 t.2 WAL_VACUUM U16_MAX (data p1) [] lsn s4 p1 p1 p2 u s5)
    as [R2 Hlsn]; try done; try lia.
  - constructor; simpl; try done; try lia; [apply Hp1|]. destruct (gp_wf _ _ _ Hg1) as [[] _]. unfold zlen at 2. simpl. lia.
  - by eapply (did_compact _ _ _ _).
  - pose proof (ran_ready _ _ _ _ Hr1 R2) as Hr2. apply (ran_trans 1 1 s2 s5 s' R2).
    eapply close_ran in E as (s6&R3&E); [|done..|lia|done|done].
    apply op_bind_Ok in E as (?&s7&E7&E). apply op_bind_Ok in E as (?&s8&E8&E). rewrite Hh in E.
    injection E as _ <-. pose proof (ran_ready _ _ _ _ Hr2 R3) as Hr3.
    apply pool_op_run in E7 as [[= _ E7] Ew7]. injection E8 as _ <-.
    apply (ran_trans 1 0 _ s6); [done|]. eapply calm_ran, calm_quiet; [apply Hr3|simpl; by rewrite Ew7| |simpl; by rewrite Ew7].
    simpl. by rewrite <- E7.
Qed.

(** *** Page selection *)

(** The pages the heap knows. *)
Definition same_pages (s s' : Db) : Prop := pages (d_fsm s') = pages (d_fsm s).
#[local] Instance same_pages_preorder : PreOrder same_pages.
Proof. split; [by intros s|]. intros s1 s2 s3 E E'. unfold same_pages in *. congruence. Qed.

Definition good_pages (s : Db) : Prop := ∀ pid, pid ∈ pages (d_fsm s) → is_good s pid.

Lemma ran_pages n s s' : ran n s s' → same_pages s s' → good_pages s → good_pages s'.
Proof. intros R E Hg pid. rewrite E. intros Hin. by eapply ran_good, Hg. Qed.

Lemma on_io_fsm {A} (m : op (BufferPool * Wal) A) s r s' : on_io m s = (r, s') → d_fsm s' = d_fsm s.
Proof. unfold on_io. destruct (m _) as [r' [p w]]. by intros [= _ <-]. Qed.
Lemma on_io_pages {A} (m : op (BufferPool * Wal) A) : keeps same_pages (on_io m).
Proof. intros s. unfold on_io. by destruct (m _) as [r [p w]]. Qed.

(** Zeros are no heap page. *)
Lemma zeros_blank n p : data p = replicate n 0 → ¬ page_wf p.
Proof.
  intros Ed [[] Hfs]. assert (f_fs (data p) = 0) as Hz0; [|lia].
  rewrite Ed. unfold f_fs, rd, sub. rewrite drop_replicate, take_replicate.
  induction (_ `min` _)%nat as [|k IH]; simpl; lia.
Qed.

(** The pages after an allocation: those before, and zeros. *)
Lemma alloc_mem s pid s' : tail_blank s → pool_op (alloc_page pio) s = (Ok pid, s') →
  d_wal s' = d_wal s ∧ d_fsm s' = d_fsm s ∧ pid = file_page_count (d_pool s) ∧
  file_page_count (d_pool s') = pid + 1 ∧
  (∀ q bs, page_of s q = Some bs → page_of s' q = Some bs) ∧
  (∀ q p, pid ≤ q → page_of s' q = Some (data p) → ¬ page_wf p).
Proof.
  intros Ht E. pose proof (on_io_fsm _ _ _ _ E) as Ef.
  apply pool_op_run in E as [E Ew]. split; [done|]. split; [done|].
  unfold alloc_page, op_bind, gets, modify in E. simpl in E. unfold ensure_mapped in E.
  unfold page_of. case_decide as Hmap.
  { injection E as <- <-. simpl. split_and!; [done..|]. intros q p. apply Ht. }
  destruct (pio_grow pio); [|done]. injection E as <- <-. simpl. split_and!; [done..| |].
  - intros q bs. unfold page_at. case_decide; [|done]. intros Hq. by apply lookup_app_l_Some.
  - intros q p Hq. unfold page_at. case_decide; [|done]. rewrite lookup_app.
    destruct (mem (d_pool s) !! Z.to_nat q) as [bs|] eqn:Eq.
    + intros [= ->]. apply (Ht q p Hq). unfold page_of, page_at. by rewrite decide_True.
    + intros (Hd&_)%lookup_replicate. by eapply zeros_blank.
Qed.

(** A record about a page that held no heap page. *)
Lemma effect_fresh s s' r pid : appended (d_wal s) (d_wal s') r → w_page_id r = pid → ¬ is_good s pid →
  (∀ q bs, q ≠ pid → page_of s q = Some bs → page_of s' q = Some bs) → effect s s' [r].
Proof.
  intros [Hok Hlog _ Hn] Hpid Hbad Hm. constructor; [done|done|rewrite Hn; unfold zlen; simpl; lia|].
  intros qid q Hg. assert (qid ≠ pid) as Hne by (intros ->; by destruct Hbad; exists q).
  pose proof Hg as [Hgm Hw Hi Hl]. exists q. split; [constructor; [by apply Hm|done|done|lia]|].
  rewrite filter_cons_False, filter_nil by (intros [? _]; congruence). apply hist_nil.
Qed.

(** The pool gives out a page id past the heap pages. *)
Lemma alloc_fresh n s pid s' : ready n s → pool_op (alloc_page pio) s = (Ok pid, s') →
  ran 1 s s' ∧ (∀ q p, pid ≤ q → page_of s' q = Some (data p) → ¬ page_wf p) ∧ d_fsm s' = d_fsm s ∧
  pid = file_page_count (d_pool s) ∧ file_page_count (d_pool s') = pid + 1.
Proof.
  intros [Hw Hl Hm Ht] E. destruct (alloc_mem _ _ _ Ht E) as (Ew&Ef&Epid&Ec&Hold&Hblank).
  split; [|done]. constructor.
  - exists []. split; [|done]. constructor; [by rewrite Ew|by rewrite Ew, app_nil_r|rewrite Ew; unfold zlen; simpl; lia|].
    intros q p [Hg Hwf Hi Hlt]. exists p. split; [constructor; [by apply Hold|done|done|by rewrite Ew]|apply hist_nil].
  - rewrite Ew. lia.
  - intros _ q p Hq. apply Hblank. lia.
Qed.

(** A new page written under its record. *)
Lemma fresh_block n s pid mini prev slot redo lsn s1 p p' u s2 : io_rec io = None → ready n s → 1 ≤ n →
  (∀ p, page_of s pid = Some (data p) → ¬ page_wf p) → pid < file_page_count (d_pool s) →
  record_ok (append_record (d_wal s) mini prev WAL_INSERT pid slot redo []) →
  wal_op (log_insert io mini prev pid slot redo) s = (Ok lsn, s1) →
  page_wf p → rd (data p) 0 4 = pid → set_lsn p lsn = Ok p' → store_page p' s1 = (Ok u, s2) →
  ran 1 s s2 ∧ good_page s2 pid p' ∧ 0 ≤ lsn < 2 ^ 64.
Proof.
  intros Hio [Hw Hl Hm Ht] Hn Hbad Hc Hr (E&Ep)%wal_op_run Hp Hid E2 Es. unfold log_insert in E.
  pose proof (append_mini _ _ _ _ _ _ _ _ _ _ E) as Hmini. apply append_appended in E as (->&Ha); [|done..].
  destruct (set_lsn_spec p (next_lsn (d_wal s)) Hp) as (p2&E2'&Hp2&_&_&Hid2&_&_&Hlsn&_).
  rewrite E2 in E2'. injection E2' as <-. rewrite lsn_wf, u64_small in Hlsn by (done || lia). injection Hlsn as Hlsn.
  pose proof Es as Es'. apply store_mem in Es as (Ew&Ec&Em); [|by apply wf_room].
  rewrite Hid2, Hid, Ep in Em. rewrite Ep in Ec.
  assert (0 ≤ pid < zlen (mem (d_pool s))) as Hrange.
  { apply pool_op_run in Es' as [Es' _]. unfold write_page in Es'. apply wf_room in Hp2 as Hz.
    rewrite page_id_Ok, lsn_Ok in Es' by lia. unfold map_write in Es'. case_decide as Hd; [|done].
    rewrite Hid2, Hid, Ep in Hd. apply Hd. }
  rewrite <- Ew in Ha. split; [constructor|].
  - eexists [_]. split; [|done]. apply (effect_fresh _ _ _ pid Ha); [done|intros [q Hq]; by eapply Hbad; apply Hq|].
    intros q bs Hne. unfold page_of. by rewrite Em, page_at_insert, decide_False by done.
  - rewrite Ew, Hmini, Ec. lia.
  - intros _ q q' Hq. rewrite Ec in Hq. unfold page_of. rewrite Em, page_at_insert, decide_False by (done || lia). by apply Ht.
  - split; [|lia]. constructor; [|done|congruence|rewrite (ap_next _ _ _ Ha); lia].
    unfold page_of. by rewrite Em, page_at_insert, decide_True by done.
Qed.

Lemma quiet_ran n s s' : ready n s → d_wal s' = d_wal s → shape (d_pool s') = shape (d_pool s) → ran 0 s s'.
Proof. intros [Hw _ _ _] Ew Es. eapply calm_ran, calm_quiet; rewrite ?Ew; done. Qed.

Lemma unpin_shape pid s u s' : unpin_page pid s = (Ok u, s') →
  d_wal s' = d_wal s ∧ shape (d_pool s') = shape (d_pool s) ∧ d_fsm s' = d_fsm s.
Proof.
  unfold unpin_page, pool_op, on_io, on_pool, unpin, modify, alter_resident. simpl. intros [= _ <-]. simpl.
  by destruct (frame_index _ !! pid).
Qed.

Lemma alloc_ran n h s pid s' : io_rec io = None → ready n s → 4 ≤ n → fsm_tree h = None →
  28 ≤ h_page_size h < 65536 → alloc_heap_page io pio h s = (Ok pid, s') →
  ran 4 s s' ∧ pages (d_fsm s') = pages (d_fsm s) ++ [pid] ∧
  ∃ p, good_page s' pid p ∧ free_space p = Ok (h_page_size h - 28).
Proof.
  intros Hio Hr Hn Hh Hps E. unfold alloc_heap_page in E. rewrite Hh in E.
  apply op_bind_Ok in E as (pid'&s1&E1&E).
  destruct (alloc_fresh _ _ _ _ Hr E1) as (R1&Hblank&Ef1&Hpid&Hcount). pose proof (rn_mini _ _ _ R1).
  pose proof (ran_ready _ _ _ _ Hr R1) as Hr1. pose proof (rd_mini _ _ Hr).
  apply op_bind_Ok in E as (page&?&[= Ep <-]&E). apply op_bind_Ok in E as (free&?&[= Efree <-]&E).
  destruct (new_spec pid' PAGE_TYPE_HEAP (h_page_size h)) as (p0&Enew&Hp0&_&_&Hid0&_&Hfree0&_); [lia|done|].
  rewrite Enew in Ep. injection Ep as <-. rewrite page_id_Ok, u32_small in Hid0 by (lia || by apply wf_room).
  apply op_bind_Ok in E as (t&s2&E2&E). pose proof (on_io_fsm _ _ _ _ E2) as Ef2. pose proof (rd_lsn _ _ Hr1).
  destruct (begin_calm (n - 1) s1 t s2) as ((rs&Hc)&Hl&Hmi); try done; [lia|]. pose proof (cm_mem _ _ _ _ Hc) as Hs2.
  injection Hs2 as Hmem Hcnt _. apply calm_ran in Hc. pose proof (ran_ready _ _ _ _ Hr1 Hc) as Hr2.
  apply op_bind_Ok in E as (lsn&s3&E3&E). apply op_bind_Ok in E as (p1&?&[= Ep1 <-]&E).
  apply op_bind_Ok in E as (u&s4&E4&E). pose proof (rd_lsn _ _ Hr2).
  destruct (fresh_block (n - 1 - 1) s2 pid' t.1 t.2 U16_MAX [] lsn s3 p0 p1 u s4) as (R2&Hg&Hlsn); try done; try lia.
  { intros p Hp. apply (Hblank pid' p); [lia|]. unfold page_of in *. by rewrite <- Hmem. }
  { constructor; simpl; try done; try lia. }
  { by injection Hid0. }
  pose proof (ran_ready _ _ _ _ Hr2 R2) as Hr3. apply op_bind_Ok in E as (l&?&[= <- <-]&E).
  apply op_bind_Ok in E as (l&s5&E5&E). pose proof (on_io_fsm _ _ _ _ E5) as Ef5.
  destruct (finish_calm (n - 1 - 1 - 1) s4 WAL_COMMIT t.1 lsn l s5) as [rs' Hc']; try done; [lia|by left|].
  pose proof (calm_good _ _ _ _ _ _ Hc' Hg) as Hg5.
  apply calm_ran in Hc'. apply op_bind_Ok in E as (?&s6&(Ew6&Es6&Ef6)%unpin_shape&E).
  apply op_bind_Ok in E as (?&s7&E7&E). injection E as -> <-.
  pose proof (on_io_fsm _ _ _ _ E7) as Ef7. apply pool_op_run in E7 as ([= _ E7]&Ew7).
  assert (ran 4 s s5) as R.
  { eapply ran_le; [eapply ran_trans; [exact R1|eapply ran_trans; [exact Hc|eapply ran_trans; [exact R2|exact Hc']]]|lia]. }
  pose proof (ran_ready _ _ _ _ Hr R) as Hr5.
  set (sn := set_fsm _ s7). assert (d_wal sn = d_wal s5 ∧ shape (d_pool sn) = shape (d_pool s5)) as [Ewn Esn].
  { unfold sn. simpl. split; [congruence|]. rewrite <- E7. by rewrite <- Es6. }
  assert (ran 0 s5 sn) as R' by (by apply (quiet_ran (n - 4))).
  split; [eapply ran_le; [by eapply ran_trans|lia]|].
  split; [unfold sn; simpl; apply (on_io_fsm _ _ _ _) in E3, E4; congruence|].
  exists p1. split; [eapply calm_good; [eapply calm_quiet; [apply Hr5|by rewrite Ewn|done|by rewrite Ewn]|exact Hg5]|].
  destruct (set_lsn_spec p0 lsn Hp0) as (p1'&Ep1'&Hp1&_&_&_&Hfe&Hfs&_). rewrite Ep1 in Ep1'. injection Ep1' as <-.
  rewrite <- Hfree0, !free_space_Ok by done. by rewrite Hfe, Hfs.
Qed.

Lemma probe_ran n s pid free s' : ready n s → is_good s pid → probe io pio pid s = (Ok free, s') →
  ran 0 s s' ∧ same_pages s s'.
Proof.
  intros Hr Hg E. unfold probe in E. apply op_bind_Ok in E as (page&s1&E1&E).
  apply op_bind_Ok in E as (f&?&[= _ <-]&E). apply op_bind_Ok in E as (?&s2&E2&[= _ <-]).
  destruct (fetch_good _ _ _ _ _ Hr Hg E1) as [R1 _]. pose proof (ran_ready _ _ _ _ Hr R1) as Hr1.
  apply unpin_shape in E2 as (?&?&Ef). split; [eapply (ran_trans 0 0); [done|by eapply quiet_ran]|].
  unfold same_pages. by rewrite Ef, (on_io_fsm _ _ _ _ E1).
Qed.

Lemma find_in_pages (P : PageId → Prop) `{!∀ x, Decision (P x)} l pid : snd <$> list_find P (reverse l) = Some pid → pid ∈ l.
Proof.
  intros E. destruct (list_find P (reverse l)) as [[i x]|] eqn:Ef; [|done]. injection E as <-.
  apply list_find_Some in Ef as (Hi&_). apply elem_of_reverse. by eapply list_elem_of_lookup_2.
Qed.

Lemma find_or_alloc_ran n h needed s pid s' : io_rec io = None → ready n s → 4 ≤ n → fsm_tree h = None →
  28 ≤ h_page_size h < 65536 → good_pages s → find_or_alloc_page io pio h needed s = (Ok pid, s') →
  ran 4 s s' ∧ good_pages s' ∧ is_good s' pid.
Proof.
  intros Hio Hr Hn Hh Hps Hgs E. unfold find_or_alloc_page, probe_tail in E. rewrite Hh in E.
  unfold op_bind at 1, gets at 1 in E. destruct (known_fit needed (d_fsm s)) as [k|] eqn:Ek.
  { injection E as <- <-. split; [apply (ran_le 0); [|lia]; by apply (quiet_ran n)|]. split; [done|].
    by eapply Hgs, find_in_pages. }
  unfold op_bind at 1, gets at 1 in E. apply op_bind_Ok in E as (fit&s1&E1&E).
  assert (ran 0 s s1 ∧ same_pages s s1 ∧ (∀ q, fit = Some q → q ∈ pages (d_fsm s))) as (R1&Es1&Hfit).
  { destruct (newest_unknown (d_fsm s)) as [u|] eqn:Eu; [|injection E1 as <- <-; split; [by apply (quiet_ran n)|done]].
    apply find_in_pages in Eu. apply op_bind_Ok in E1 as (free&s2&E2&E1).
    destruct (probe_ran _ _ _ _ _ Hr (Hgs _ Eu) E2) as [R2 Es2]. injection E1 as <- <-.
    split; [eapply (ran_trans 0 0); [exact R2|]; apply (quiet_ran (n - 0)); [by eapply ran_ready|done..]|].
    split; [done|]. intros q. case_decide; [by intros [= <-]|done]. }
  pose proof (ran_pages _ _ _ R1 Es1 Hgs) as Hgs1. pose proof (ran_ready _ _ _ _ Hr R1) as Hr1.
  destruct fit as [q|].
  { injection E as <- <-. split; [by apply (ran_le 0); [|lia]|]. split; [done|]. apply Hgs1. rewrite Es1. auto. }
  unfold op_bind, op_ret in E. destruct (alloc_ran (n - 0) h s1 pid s') as (R2&Ep&p&Hg&_); try done; [lia|].
  split; [by apply (ran_trans 0 4 s s1 s')|]. split; [|by exists p]. intros q. rewrite Ep, elem_of_app, list_elem_of_singleton.
  intros [Hq| ->]; [|by exists p]. by eapply ran_good, Hgs1.
Qed.

Lemma acquire_ran n h fuel threshold s pid page s' : io_rec io = None → ready n s → 4 * Z.of_nat fuel ≤ n →
  fsm_tree h = None → 28 ≤ h_page_size h < 65536 → good_pages s →
  acquire_page io pio h fuel threshold s = (Ok (Some (pid, page)), s') →
  ran (4 * Z.of_nat fuel) s s' ∧ good_pages s' ∧ good_page s' pid page.
Proof.
  intros Hio Hr Hn Hh Hps. revert n s Hr Hn. induction fuel as [|fuel IH]; intros n s Hr Hn Hgs E; [done|].
  cbn [acquire_page] in E. apply op_bind_Ok in E as (q&s1&E1&E).
  destruct (find_or_alloc_ran n h threshold s q s1) as (R1&Hgs1&Hq); try done; [lia|].
  pose proof (ran_ready _ _ _ _ Hr R1) as Hr1. apply op_bind_Ok in E as (p&s2&E2&E).
  destruct (fetch_good _ _ _ _ _ Hr1 Hq E2) as [R2 Hp]. apply op_bind_Ok in E as (free&?&[= Efree <-]&E).
  pose proof (ran_ready _ _ _ _ Hr1 R2) as Hr2.
  assert (same_pages s1 s2) as Es2 by (unfold same_pages; by rewrite (on_io_fsm _ _ _ _ E2)).
  pose proof (ran_pages _ _ _ R2 Es2 Hgs1) as Hgs2. assert (ran 4 s s2) as R by (by apply (ran_trans 4 0 s s1 s2)).
  case_decide; [injection E as <- <- <-; split; [by apply (ran_le 4); [|lia]|done]|].
  apply op_bind_Ok in E as (?&s3&(Ew3&Es3&Ef3)%unpin_shape&E). apply op_bind_Ok in E as (?&s4&[= _ <-]&E).
  set (s4 := set_fsm _ s3) in E. assert (ran 0 s2 s4) as R4 by (by apply (quiet_ran (n - 4 - 0))).
  destruct (IH (n - 4 - 0 - 0) s4) as (R5&?&?); try done; [by eapply ran_ready|lia| |].
  { eapply ran_pages; [exact R4| |done]. unfold same_pages, s4. simpl. by rewrite Ef3. }
  split; [|done]. eapply ran_le; [eapply ran_trans; [exact R|eapply ran_trans; [exact R4|exact R5]]|lia].
Qed.

Lemma lock_pages rid xid : keeps same_pages (try_lock_row rid xid).
Proof. intros s. unfold try_lock_row. by destruct (try_acquire_write _ _ _) as [[] t]. Qed.

(** The known pages stay the same where no page is allocated. *)
Ltac keep_pages :=
  repeat first
    [ apply (keeps_bind same_pages); [apply _| |intros ?] | apply on_io_pages | apply lock_pages
    | apply (keeps_each same_pages); [apply _|intros ?] | progress case_match | by intros ? ].

Lemma kept_pages {A} (m : op Db A) s r s' : keeps same_pages m → m s = (r, s') → same_pages s s'.
Proof. intros Hk E. specialize (Hk s). by rewrite E in Hk. Qed.

(** *** Inserts *)

Lemma insert_room p payload xid prev slot p1 : page_wf p → bytes payload →
  insert_versioned p payload xid 0 prev = Ok (slot, p1) → slot_ok slot ∧ page_wf p1 ∧ zlen payload < 65536.
Proof.
  intros Hp Hb E. destruct (insert_versioned_wf _ _ _ _ _ _ _ Hp Hb E) as (pp&ps&_&Hp1&Hs&Hroom&_).
  pose proof Hp as [[] Hfs]. unfold p_free in Hroom. rewrite zlen_app, zlen_header_bytes in Hroom.
  split; [unfold slot_ok; lia|]. split; [done|]. destruct (decide _) in Hroom; lia.
Qed.

Lemma insert_redo_bytes xid prev payload : bytes payload →
  bytes (encode_insert_redo xid prev payload) ∧ zlen (encode_insert_redo xid prev payload) = 14 + zlen payload.
Proof.
  intros Hb. unfold encode_insert_redo. destruct (default _ prev) as [pp ps]. split; [|len].
  repeat apply Forall_app_2; auto with unidb.
Qed.

Lemma insert_into_ran n s pid page payload xid prev mini prevl x s' :
  io_rec io = None → ready n s → 1 ≤ n → good_page s pid page → 0 ≤ mini < 2 ^ 64 → 0 ≤ prevl < 2 ^ 64 →
  xid_ok xid → prev_ok prev → bytes payload →
  insert_into io pid page payload xid prev mini prevl s = (Ok x, s') →
  ran 1 s s' ∧ slot_ok x.1.1 ∧ 0 ≤ x.1.2 < 2 ^ 64.
Proof.
  intros Hio Hr Hn Hg Hmi Hpr Hx Hprev Hb E. unfold insert_into in E.
  apply op_bind_Ok in E as ([slot p1]&?&[= Ei <-]&E). apply op_bind_Ok in E as (lsn&s1&E1&E).
  apply op_bind_Ok in E as (p2&?&[= Ep2 <-]&E). apply op_bind_Ok in E as (u&s2&E2&E).
  apply op_bind_Ok in E as (free&?&[= _ <-]&E).
  apply op_bind_Ok in E as (?&s3&(Ew3&Es3&_)%unpin_shape&[= <- <-]). cbn [fst snd] in *.
  destruct (insert_room _ _ _ _ _ _ (gp_wf _ _ _ Hg) Hb Ei) as (Hsl&Hp1&Hz).
  destruct (insert_redo_bytes xid prev payload Hb) as [Hrb Hrz]. pose proof (rd_lsn _ _ Hr).
  destruct (write_block n s pid page mini prevl WAL_INSERT slot (encode_insert_redo xid prev payload) []
    lsn s1 p1 p1 p2 u s2) as [R1 Hlsn]; try done.
  - constructor; simpl; try done; [lia|by apply (good_pid _ _ _ Hg)|]. rewrite Hrz. unfold zlen at 2. simpl. lia.
  - by eapply (did_insert _ _ _ xid prev payload).
  - split; [|done]. apply (ran_trans 1 0 s s2 s3 R1), (quiet_ran (n - 1)); [by eapply ran_ready|done..].
Qed.

Lemma begin_ran n s t s' : io_rec io = None → ready n s → 1 ≤ n → wal_op (begin_mini_txn io) s = (Ok t, s') →
  ran 1 s s' ∧ 0 ≤ t.1 < 2 ^ 64 ∧ 0 ≤ t.2 < 2 ^ 64 ∧ ∀ pid p, good_page s pid p → good_page s' pid p.
Proof.
  intros Hio Hr Hn E. pose proof (rd_lsn _ _ Hr). destruct (begin_calm _ _ _ _ Hio Hr Hn E) as ((rs&Hc)&Hl&Hmi).
  split; [by eapply calm_ran|]. split; [done|]. split; [lia|]. intros pid p. by apply (calm_good _ _ _ _ _ _ Hc).
Qed.

Lemma fpi_ran n s pid mini prev l s' p : io_rec io = None → ready n s → 1 ≤ n → good_page s pid p →
  0 ≤ mini < 2 ^ 64 → 0 ≤ prev < 2 ^ 64 → fpi_or io pid mini prev s = (Ok l, s') →
  ran 1 s s' ∧ good_page s' pid p ∧ 0 ≤ l < 2 ^ 64.
Proof.
  intros Hio Hr Hn Hg Hmi Hpr E. destruct (fpi_calm n s pid mini prev l s' p) as ((rs&Hc)&Hl); try done.
  split; [by eapply calm_ran|]. split; [by eapply calm_good|done].
Qed.

Lemma commit_ran n s mini prev l s' : io_rec io = None → ready n s → 1 ≤ n → 0 ≤ mini < 2 ^ 64 → 0 ≤ prev < 2 ^ 64 →
  wal_op (commit_mini_txn io mini prev) s = (Ok l, s') → ran 1 s s'.
Proof.
  intros Hio Hr Hn Hmi Hpr E. destruct (finish_calm n s WAL_COMMIT mini prev l s') as [rs Hc]; try done; [by left|].
  by eapply calm_ran.
Qed.

Lemma insert_ran n h fuel payload xid prev rid s s' : io_rec io = None → ready n s → 4 * Z.of_nat fuel + 4 ≤ n →
  fsm_tree h = None → 28 ≤ h_page_size h < 65536 → good_pages s → xid_ok xid → prev_ok prev → bytes payload →
  insert_version io pio h fuel payload xid prev s = (Ok (Some rid), s') →
  ran (4 * Z.of_nat fuel + 4) s s' ∧ good_pages s'.
Proof.
  intros Hio Hr Hn Hh Hps Hgs Hx Hprev Hb E. unfold insert_version in E.
  apply op_bind_Ok in E as ([[pid page]|]&s1&E1&E); [|done].
  destruct (acquire_ran n h fuel (needed_for payload + reserve h) s pid page s1) as (R1&Hgs1&Hg1); try done; [lia|].
  assert (same_pages s1 s') as P1.
  { eapply kept_pages; [|exact E]. unfold insert_into, fpi_or. keep_pages. }
  pose proof (ran_ready _ _ _ _ Hr R1) as Hr1. apply op_bind_Ok in E as (t&s2&E2&E).
  eapply begin_ran in E2 as (R2&Hmi&Htl&Hg2); [|done|exact Hr1|lia]. pose proof (ran_ready _ _ _ _ Hr1 R2) as Hr2.
  apply op_bind_Ok in E as (l&s3&E3&E). eapply fpi_ran in E3 as (R3&Hg3&Hl); [|done|exact Hr2|lia|by apply Hg2|done|done].
  pose proof (ran_ready _ _ _ _ Hr2 R3) as Hr3. apply op_bind_Ok in E as ([[slot lsn] free]&s4&E4&E).
  eapply insert_into_ran in E4 as (R4&Hsl&Hlsn); [|done|exact Hr3|lia|done..].
  pose proof (ran_ready _ _ _ _ Hr3 R4) as Hr4. apply op_bind_Ok in E as (?&s5&E5&E).
  assert (ran 0 s4 s5) as R5 by (injection E5 as _ <-; by eapply quiet_ran).
  pose proof (ran_ready _ _ _ _ Hr4 R5) as Hr5. apply op_bind_Ok in E as (?&s6&E6&[= _ <-]).
  eapply commit_ran in E6; [|done|exact Hr5|lia|done|done].
  pose proof (ran_trans _ _ _ _ _ R2 (ran_trans _ _ _ _ _ R3 (ran_trans _ _ _ _ _ R4
    (ran_trans _ _ _ _ _ R5 E6)))) as R. split; [eapply ran_le; [by eapply ran_trans|lia]|by eapply ran_pages].
Qed.

(** *** Updates *)

Lemma stamp_old_pages rid xid mini l : keeps same_pages (stamp_old io pio rid xid mini l).
Proof. unfold stamp_old, conflict, fpi_or. keep_pages. Qed.
Lemma insert_into_pages pid page payload xid prev mini l :
  keeps same_pages (insert_into io pid page payload xid prev mini l).
Proof. unfold insert_into. keep_pages. Qed.
Lemma stamp_old_ran n s rid xid mini prev lsn s' : io_rec io = None → ready n s → 2 ≤ n → is_good s (ri_page rid) →
  slot_ok (ri_slot rid) → xid_ok xid → 0 ≤ mini < 2 ^ 64 → 0 ≤ prev < 2 ^ 64 →
  stamp_old io pio rid xid mini prev s = (Ok lsn, s') → ran 2 s s' ∧ 0 ≤ lsn < 2 ^ 64.
Proof.
  intros Hio Hr Hn Hg Hsl Hx Hmi Hpr E. unfold stamp_old in E. apply op_bind_Ok in E as (page&s1&E1&E).
  destruct (fetch_good _ _ _ _ _ Hr Hg E1) as [R1 Hg1]. pose proof (ran_ready _ _ _ _ Hr R1) as Hr1.
  apply op_bind_Ok in E as (th&?&[= _ <-]&E). case_decide.
  { unfold conflict in E. by do 2 apply op_bind_Ok in E as (?&?&_&E). }
  apply op_bind_Ok in E as (l&s3&E3&E). apply op_bind_Ok in E as (lsn'&s4&E4&E).
  apply op_bind_Ok in E as (p1&?&[= Ep1 <-]&E). apply op_bind_Ok in E as (p2&?&[= Ep2 <-]&E).
  apply op_bind_Ok in E as (u&s5&E5&E). apply op_bind_Ok in E as (?&s6&(Ew6&Es6&_)%unpin_shape&[= <- <-]).
  destruct (stamp_block (n - 0) s1 (ri_page rid) (ri_slot rid) page mini prev xid (xmax th) l s3 lsn' s4 p1 p1 p2 u s5)
    as [R2 Hlsn]; try done; [lia|eapply page_eq_refl, set_xmax_wf; [apply Hg1| |exact Ep1]; unfold slot_ok in Hsl; lia|].
  split; [|done]. eapply (ran_trans 0 2); [exact R1|]. eapply (ran_trans 2 0); [exact R2|].
  apply (quiet_ran (n - 0 - 2)); [by eapply ran_ready|done..].
Qed.

(** The id of a row the heap has. *)
Definition rid_ok (rid : RowId) : Prop := slot_ok (ri_slot rid) ∧ ri_page rid ≠ INVALID_PAGE_ID.

Lemma rid_prev s rid : is_good s (ri_page rid) → rid_ok rid → prev_ok (Some (ri_page rid, ri_slot rid)).
Proof. intros [p Hg] [Hs Hne] pp ps [= <- <-]. split; [by eapply good_pid|done]. Qed.

(** Insert into an acquired page. *)
Lemma place_ran n h fuel threshold payload xid prev mini l s x s1 l1 s2 y s3 :
  io_rec io = None → ready n s → 4 * Z.of_nat fuel + 2 ≤ n → fsm_tree h = None → 28 ≤ h_page_size h < 65536 →
  good_pages s → xid_ok xid → prev_ok prev → bytes payload → 0 ≤ mini < 2 ^ 64 → 0 ≤ l < 2 ^ 64 →
  acquire_page io pio h fuel threshold s = (Ok (Some x), s1) → fpi_or io x.1 mini l s1 = (Ok l1, s2) →
  insert_into io x.1 x.2 payload xid prev mini l1 s2 = (Ok y, s3) →
  ran (4 * Z.of_nat fuel + 2) s s3 ∧ good_pages s3 ∧ is_good s3 x.1 ∧ slot_ok y.1.1 ∧ 0 ≤ y.1.2 < 2 ^ 64.
Proof.
  intros Hio Hr Hn Hh Hps Hgs Hx Hprev Hb Hmi Hl E1 E2 E3. destruct x as [pid page]. cbn [fst snd] in *.
  destruct (acquire_ran n h fuel threshold s pid page s1) as (R1&Hgs1&Hg1); try done; [lia|].
  pose proof (ran_ready _ _ _ _ Hr R1) as Hr1.
  assert (same_pages s1 s2) as P2.
  { unfold fpi_or in E2. apply op_bind_Ok in E2 as (?&?&E2&[= _ <-]). unfold same_pages. by rewrite (on_io_fsm _ _ _ _ E2). }
  eapply fpi_ran in E2 as (R2&Hg2&Hl1); [|done|exact Hr1|lia|done..]. pose proof (ran_ready _ _ _ _ Hr1 R2) as Hr2.
  pose proof (kept_pages _ _ _ _ (insert_into_pages _ _ _ _ _ _ _) E3) as P3.
  eapply insert_into_ran in E3 as (R3&Hsl&Hlsn); [|done|exact Hr2|lia|done..].
  split; [eapply ran_le; [eapply ran_trans; [exact R1|by eapply ran_trans]|lia]|].
  split; [eapply ran_pages; [exact R3|exact P3|by eapply ran_pages]|].
  split; [eapply ran_good; [exact R3|by exists page]|done].
Qed.

Lemma update_ran n h fuel rid payload xid new s s' : io_rec io = None → ready n s → 4 * Z.of_nat fuel + 6 ≤ n →
  fsm_tree h = None → 28 ≤ h_page_size h < 65536 → good_pages s → is_good s (ri_page rid) → rid_ok rid →
  xid_ok xid → bytes payload →
  heap_update io pio h fuel rid payload xid s = (Ok (Some new), s') →
  ran (4 * Z.of_nat fuel + 6) s s' ∧ good_pages s'.
Proof.
  intros Hio Hr Hn Hh Hps Hgs Hg Hrid Hx Hb E. unfold heap_update in E.
  apply op_bind_Ok in E as (?&s0&E0&E). pose proof (calm_ran _ _ _ _ (lock_calm _ _ _ _ _ _ Hr E0)) as R0.
  pose proof (ran_ready _ _ _ _ Hr R0) as Hr0. apply (kept_pages _ _ _ _ (lock_pages _ _)) in E0 as P0.
  apply op_bind_Ok in E as (t&s1&E1&E). apply on_io_fsm in E1 as P1.
  eapply begin_ran in E1 as (R1&Hmi&Htl&_); [|done|exact Hr0|lia]. pose proof (ran_ready _ _ _ _ Hr0 R1) as Hr1.
  apply op_bind_Ok in E as (lsn&s2&E2&E). apply (kept_pages _ _ _ _ (stamp_old_pages _ _ _ _)) in E2 as P2.
  pose proof (ran_trans _ _ _ _ _ R0 R1) as R01.
  eapply stamp_old_ran in E2 as (R2&Hlsn); [|done|exact Hr1|lia|by eapply ran_good|apply Hrid|done..].
  pose proof (ran_ready _ _ _ _ Hr1 R2) as Hr2. pose proof (ran_trans _ _ _ _ _ R01 R2) as R012.
  apply op_bind_Ok in E as ([[pid page]|]&s3&E3&E); [|done]. apply op_bind_Ok in E as (l&s4&E4&E).
  apply op_bind_Ok in E as ([[slot ins] free]&s5&E5&E).
  destruct (place_ran (n - 0 - 1 - 2) h fuel (needed_for payload) payload xid (Some (ri_page rid, ri_slot rid)) t.1 lsn
    s2 (pid, page) s3 l s4 (slot, ins, free) s5) as (R3&Hgs5&_&_&Hins); try done; [lia| |by eapply rid_prev|].
  { eapply ran_pages; [exact R012| |done]. unfold same_pages in *. congruence. }
  assert (same_pages s5 s') as P5 by (eapply kept_pages; [|exact E]; keep_pages).
  pose proof (ran_ready _ _ _ _ Hr2 R3) as Hr3. apply op_bind_Ok in E as (?&s6&E6&E).
  assert (ran 0 s5 s6) as R6 by (injection E6 as _ <-; by eapply quiet_ran).
  pose proof (ran_ready _ _ _ _ Hr3 R6) as Hr6. apply op_bind_Ok in E as (?&s7&E7&[= _ <-]).
  eapply commit_ran in E7; [|done|exact Hr6|lia|done|done].
  pose proof (ran_trans _ _ _ _ _ R6 E7) as R67. split; [|by eapply ran_pages].
  eapply ran_le; [eapply ran_trans; [exact R012|by eapply ran_trans]|lia].
Qed.

(** *** HOT updates *)

Lemma insert_other_slot p old th payload xid prev slot p1 : page_wf p → 0 ≤ old → tuple_header p old = Ok th →
  bytes payload → insert_versioned p payload xid 0 prev = Ok (slot, p1) → old ≠ slot.
Proof.
  intros Hp Ho Et Hb E ->. destruct (insert_versioned_wf _ _ _ _ _ _ _ Hp Hb E) as (pp&ps&_&_&_&_&_&_&_&_&Ea).
  rewrite tuple_header_on_slot in Et by done. unfold on_slot in Et. unfold a_insert in Ea.
  destruct (list_find _ _) as [[k x]|] eqn:Ef.
  - injection Ea as Ek _. apply list_find_Some in Ef as (Hk&->&_). by rewrite Ek in Hk; rewrite Hk in Et.
  - injection Ea as Hlen _. by rewrite lookup_ge_None_2 in Et by lia.
Qed.

Lemma hot_same_ran n rid payload xid s o s' : io_rec io = None → ready n s → 4 ≤ n →
  is_good s (ri_page rid) → rid_ok rid → xid_ok xid → bytes payload →
  hot_same_page io pio rid payload xid s = (Ok o, s') → ran 4 s s'.
Proof.
  intros Hio Hr Hn Hg Hrid Hx Hb E. eapply (mini_ran n 3); [done|done|lia|done|exact E|]. clear E.
  intros t page s2 Hr1 Hg1 Hmi Hl E. apply op_bind_Ok in E as (th&?&[= Eth <-]&E). case_decide.
  { unfold conflict in E. by do 2 apply op_bind_Ok in E as (?&?&_&E). }
  apply op_bind_Ok in E as (free&?&[= _ <-]&E). case_decide.
  2:{ apply op_bind_Ok in E as (?&s3&E3&E). apply op_bind_Ok in E as (l&s4&E4&[= _ <-]).
      apply unpin_shape in E3 as (Ew3&Es3&_). assert (ran 0 s2 s3) as R3 by (by eapply quiet_ran).
      destruct (finish_calm (n - 1 - 0) s3 WAL_ABORT t.1 t.2 l s4) as [rs Hc]; try done; [by eapply ran_ready|lia|by right|].
      apply calm_ran in Hc. eapply ran_le; [by eapply ran_trans|lia]. }
  apply op_bind_Ok in E as (l&s3&E3&E). cbv zeta in E. apply op_bind_Ok in E as ([slot p0]&?&[= Ei <-]&E).
  apply op_bind_Ok in E as (p1&?&[= Ep1 <-]&E). apply op_bind_Ok in E as (p2&?&[= Ep2 <-]&E).
  apply op_bind_Ok in E as (lsn&s4&E4&E). apply op_bind_Ok in E as (p3&?&[= Ep3 <-]&E).
  apply op_bind_Ok in E as (u&s5&E5&E). apply op_bind_Ok in E as (nf&?&[= _ <-]&E). cbn [fst snd] in *.
  destruct (insert_room _ _ _ _ _ _ (gp_wf _ _ _ Hg1) Hb Ei) as (Hsl&Hp0&Hz).
  set (prev := Some (ri_page rid, ri_slot rid)) in *. pose proof Hrid as [Hrs _].
  destruct (insert_redo_bytes xid prev payload Hb) as [Hrb Hrz].
  assert (did (append_record (d_wal s3) t.1 l WAL_HOT_UPDATE (ri_page rid) (ri_slot rid)
    (hot_update_redo xid (ri_slot rid) slot (encode_insert_redo xid prev payload)) (hot_update_undo (ri_slot rid) slot))
    page p2) as Hd.
  { eapply (did_hot_update _ _ p0 p1 p2 xid (ri_slot rid) slot prev payload); try done; [by eapply rid_prev|].
    eapply insert_other_slot; [apply Hg1| |exact Eth|exact Hb|exact Ei]. unfold slot_ok in Hrs. lia. }
  destruct (logged_block (n - 1) s2 (ri_page rid) page t.1 t.2 WAL_HOT_UPDATE (ri_slot rid)
    (hot_update_redo xid (ri_slot rid) slot (encode_insert_redo xid prev payload))
    (hot_update_undo (ri_slot rid) slot) l s3 lsn s4 p2 p2 p3 u s5) as [R2 Hlsn]; try done; try lia.
  - unfold hot_update_redo. repeat apply Forall_app_2; auto with unidb.
  - unfold hot_update_undo. repeat apply Forall_app_2; auto with unidb.
  - unfold hot_update_redo, hot_update_undo. rewrite !zlen_app, !zlen_u64_to_le, !zlen_u16_to_le, Hrz. lia.
  - by apply page_eq_refl, (did_extends _ _ _ (gp_wf _ _ _ Hg1) Hd).
  - pose proof (ran_ready _ _ _ _ Hr1 R2) as Hr2. apply op_bind_Ok in E as (?&s6&(Ew6&Es6&_)%unpin_shape&E).
    apply op_bind_Ok in E as (?&s7&[= _ <-]&E). set (s7 := set_fsm _ s6) in E.
    assert (ran 0 s5 s7) as R7 by (by apply (quiet_ran (n - 1 - 2))). apply op_bind_Ok in E as (?&s8&E8&[= _ <-]).
    eapply commit_ran in E8; [|done|by eapply ran_ready|lia|done|done].
    eapply ran_le; [eapply ran_trans; [exact R2|by eapply ran_trans]|lia].
Qed.

Lemma forward_ran n rid new saved xid mini prev s lsn s' : io_rec io = None → ready n s → 2 ≤ n →
  is_good s (ri_page rid) → slot_ok (ri_slot rid) → xid_ok xid → pid_ok (ri_page new) → slot_ok (ri_slot new) →
  0 ≤ mini < 2 ^ 64 → 0 ≤ prev < 2 ^ 64 →
  forward_old io pio rid new saved xid mini prev s = (Ok lsn, s') → ran 2 s s' ∧ 0 ≤ lsn < 2 ^ 64.
Proof.
  intros Hio Hr Hn Hg Hsl Hx Hnp Hns Hmi Hpr E. unfold forward_old in E. apply op_bind_Ok in E as (page&s1&E1&E).
  destruct (fetch_good _ _ _ _ _ Hr Hg E1) as [R1 Hg1]. pose proof (ran_ready _ _ _ _ Hr R1) as Hr1.
  apply op_bind_Ok in E as (l&s3&E3&E). apply op_bind_Ok in E as (lsn'&s4&E4&E).
  apply op_bind_Ok in E as (p0&?&[= Ep0 <-]&E). apply op_bind_Ok in E as (p1&?&[= Ep1 <-]&E).
  apply op_bind_Ok in E as (p2&?&[= Ep2 <-]&E). apply op_bind_Ok in E as (u&s5&E5&E).
  apply op_bind_Ok in E as (?&s6&(Ew6&Es6&_)%unpin_shape&[= <- <-]).
  set (redo := hot_xpage_redo xid (ri_slot rid) (ri_page new) (ri_slot new)) in *.
  set (undo := hot_xpage_undo (ri_slot rid) saved.1 saved.2) in *.
  assert (did (append_record (d_wal s3) mini l WAL_HOT_XPAGE_HEAD (ri_page rid) (ri_slot rid) redo undo) page p1) as Hd
    by (by eapply (did_hot_xpage_head _ _ p0 p1 xid (ri_slot rid) (ri_page new) (ri_slot new))).
  destruct (logged_block (n - 0) s1 (ri_page rid) page mini prev WAL_HOT_XPAGE_HEAD (ri_slot rid) redo undo
    l s3 lsn' s4 p1 p1 p2 u s5) as [R2 Hlsn]; try done; try lia.
  - unfold redo, hot_xpage_redo. repeat apply Forall_app_2; auto with unidb.
  - unfold undo, hot_xpage_undo. repeat apply Forall_app_2; auto with unidb.
  - by apply page_eq_refl, (did_extends _ _ _ (gp_wf _ _ _ Hg1) Hd).
  - split; [|done]. eapply (ran_trans 0 2); [exact R1|]. eapply (ran_trans 2 0); [exact R2|].
    apply (quiet_ran (n - 0 - 2)); [by eapply ran_ready|done..].
Qed.

Lemma saved_ran n s rid saved s' : ready n s → saved_version pio rid s = (Ok saved, s') → ran 0 s s' ∧ same_pages s s'.
Proof.
  intros Hr E. unfold saved_version in E. apply op_bind_Ok in E as (page&s1&E1&E).
  apply op_bind_Ok in E as (th&?&[= _ <-]&E). apply op_bind_Ok in E as (?&s2&(Ew2&Es2&Ef2)%unpin_shape&E).
  case_decide; [done|]. injection E as _ <-. apply on_io_fsm in E1 as Ef1. apply pool_op_run in E1 as [E1 Ew1].
  apply fetch_page_mem in E1 as [Hm _]. split; [|unfold same_pages; congruence].
  apply (quiet_ran n); [done|congruence|]. rewrite Es2. exact Hm.
Qed.

Lemma hot_cross_ran n h fuel rid payload xid res s s' : io_rec io = None → ready n s → 4 * Z.of_nat fuel + 6 ≤ n →
  fsm_tree h = None → 28 ≤ h_page_size h < 65536 → good_pages s → is_good s (ri_page rid) → rid_ok rid →
  xid_ok xid → bytes payload →
  hot_cross_page io pio h fuel rid payload xid s = (Ok (Some res), s') →
  ran (4 * Z.of_nat fuel + 6) s s' ∧ good_pages s'.
Proof.
  intros Hio Hr Hn Hh Hps Hgs Hg Hrid Hx Hb E. unfold hot_cross_page in E.
  apply op_bind_Ok in E as (saved&s0&E0&E). eapply saved_ran in E0 as [R0 P0]; [|exact Hr].
  pose proof (ran_ready _ _ _ _ Hr R0) as Hr0. apply op_bind_Ok in E as (t&s1&E1&E). apply on_io_fsm in E1 as P1.
  eapply begin_ran in E1 as (R1&Hmi&Htl&_); [|done|exact Hr0|lia]. pose proof (ran_ready _ _ _ _ Hr0 R1) as Hr1.
  pose proof (ran_trans _ _ _ _ _ R0 R1) as R01.
  apply op_bind_Ok in E as ([[pid page]|]&s3&E3&E); [|done]. apply op_bind_Ok in E as (l&s4&E4&E).
  apply op_bind_Ok in E as ([[slot ins] free]&s5&E5&E).
  destruct (place_ran (n - 0 - 1) h fuel (needed_for payload) payload xid (Some (ri_page rid, ri_slot rid)) t.1 t.2
    s1 (pid, page) s3 l s4 (slot, ins, free) s5) as (R3&Hgs5&[q Hq]&Hsl&Hins); try done; [lia| |by eapply rid_prev|].
  { eapply ran_pages; [exact R01| |done]. unfold same_pages in *. congruence. }
  assert (same_pages s5 s') as P5 by (eapply kept_pages; [|exact E]; unfold forward_old, fpi_or; keep_pages).
  pose proof (ran_ready _ _ _ _ Hr1 R3) as Hr3. apply op_bind_Ok in E as (?&s6&E6&E).
  assert (ran 0 s5 s6) as R6 by (injection E6 as _ <-; by eapply quiet_ran).
  pose proof (ran_ready _ _ _ _ Hr3 R6) as Hr6. apply op_bind_Ok in E as (lsn&s7&E7&E).
  pose proof (ran_trans _ _ _ _ _ R01 (ran_trans _ _ _ _ _ R3 R6)) as R016.
  eapply forward_ran in E7 as [R7 Hlsn]; [|done|exact Hr6|lia|by eapply ran_good|apply Hrid|done|by eapply good_pid|done..].
  apply op_bind_Ok in E as (?&s8&E8&[= _ <-]).
  eapply commit_ran in E8; [|done|by eapply ran_ready|lia|done|done].
  pose proof (ran_trans _ _ _ _ _ R6 (ran_trans _ _ _ _ _ R7 E8)) as R68. split; [|by eapply ran_pages].
  eapply ran_le; [eapply ran_trans; [exact R016|by eapply ran_trans]|lia].
Qed.

Lemma hot_same_pages rid payload xid : keeps same_pages (hot_same_page io pio rid payload xid).
Proof. unfold hot_same_page, conflict, fpi_or. keep_pages. Qed.

Lemma hot_ran n h fuel rid payload xid res s s' : io_rec io = None → ready n s → 4 * Z.of_nat fuel + 10 ≤ n →
  fsm_tree h = None → 28 ≤ h_page_size h < 65536 → good_pages s → is_good s (ri_page rid) → rid_ok rid →
  xid_ok xid → bytes payload →
  try_hot_insert io pio h fuel rid payload xid s = (Ok (Some res), s') →
  ran (4 * Z.of_nat fuel + 10) s s' ∧ good_pages s'.
Proof.
  intros Hio Hr Hn Hh Hps Hgs Hg Hrid Hx Hb E. unfold try_hot_insert in E.
  apply op_bind_Ok in E as (full&?&[= _ <-]&E). apply op_bind_Ok in E as (?&s0&E0&E).
  pose proof (calm_ran _ _ _ _ (lock_calm _ _ _ _ _ _ Hr E0)) as R0. pose proof (ran_ready _ _ _ _ Hr R0) as Hr0.
  apply (kept_pages _ _ _ _ (lock_pages _ _)) in E0 as P0. pose proof (ran_pages _ _ _ R0 P0 Hgs) as Hgs0.
  pose proof (ran_good _ _ _ _ R0 Hg) as Hg0. destruct full.
  { eapply hot_cross_ran in E; [|done|exact Hr0|lia|done..].
    destruct E as [R ?]. split; [eapply ran_le; [by eapply ran_trans|lia]|done]. }
  apply op_bind_Ok in E as (o&s1&E1&E). apply (kept_pages _ _ _ _ (hot_same_pages _ _ _)) in E1 as P1.
  eapply hot_same_ran in E1 as R1; [|done|exact Hr0|lia|done..]. pose proof (ran_trans _ _ _ _ _ R0 R1) as R01.
  destruct o as [res'|].
  { injection E as _ <-. split; [eapply ran_le; [done|lia]|exact (ran_pages _ _ _ R1 P1 Hgs0)]. }
  eapply hot_cross_ran in E; [|done|exact (ran_ready _ _ _ _ Hr0 R1)|lia|done|done|exact (ran_pages _ _ _ R1 P1 Hgs0)
    |exact (ran_good _ _ _ _ R1 Hg0)|done..].
  destruct E as [R ?]. split; [eapply ran_le; [by eapply ran_trans|lia]|done].
Qed.

(** *** Operations that allocate no page *)

Lemma delete_pages rid xid : keeps same_pages (heap_delete io pio rid xid).
Proof. unfold heap_delete, conflict, fpi_or. keep_pages. Qed.
Lemma restamp_pages pid slot x f : keeps same_pages (restamp io pio pid slot x f).
Proof. unfold restamp, fpi_or. keep_pages. Qed.
Lemma stamp_group_pages xid pid slots : keeps same_pages (stamp_group io pio xid pid slots).
Proof. unfold stamp_group, check_conflicts, conflict, fpi_or. keep_pages. Qed.
Lemma mark_dead_pages rid : keeps same_pages (heap_mark_dead io pio rid).
Proof. unfold heap_mark_dead, fpi_or. keep_pages. Qed.
Lemma compact_pages h pid : keeps same_pages (compact_page io pio h pid).
Proof. unfold compact_page. keep_pages. Qed.

End prims.
