(* ===== verification/HeapDurable.v ===== *)
(** Heap operations and redo together: a run of operations, and that replaying what
    it logged about a page brings the page as it was before the run to the page as it
    is after. *)

From stdpp Require Import base numbers list gmap sets strings sorting.
From S2P Require Import Prelude Format Page PageSpec PageOps PageCompact PageProps PageHints.
From S2P Require Import LockMgr Txn WalCodec WalCodecProps Wal WalInv WalProps BufferPool.
From S2P Require Import BufferPoolProps BTreeNode LogPayload HeapRead HeapReadProps Heap Recovery.
From S2P Require Import RedoPage HeapLog.
Open Scope op_scope.

(** ** Pages without reclaimed line pointers *)

Definition no_unused (p : SlottedPage) : Prop := AUnused ∉ slots p.

(** A record of a compaction. *)
Definition compacts (r : WalRecord) : Prop := w_rec_type r = WAL_VACUUM ∧ w_slot r = U16_MAX.

Section fresh.
Context `{!Crc32}.

Lemma find_unused_None ss : AUnused ∉ ss → list_find (λ a, a = AUnused) ss = None.
Proof. intros Hn. apply list_find_None, Forall_forall. by intros x Hx ->. Qed.

Lemma insert_fresh p payload xid prev slot p1 : page_wf p → bytes payload → no_unused p →
  insert_versioned p payload xid 0 prev = Ok (slot, p1) →
  appends p slot ∧ page_wf p1 ∧ no_unused p1 ∧ f_sc (data p1) = f_sc (data p) + 1.
Proof.
  intros Hp Hb Hn E. destruct (insert_versioned_wf _ _ _ _ _ _ _ Hp Hb E) as (pp&ps&_&Hp1&Hs&_&_&_&_&_&Ea).
  unfold a_insert in Ea. rewrite find_unused_None in Ea by done. injection Ea as El Es.
  pose proof (length_slots p Hp). pose proof (length_slots p1 Hp1) as Hl1.
  rewrite <- Es, length_app in Hl1. simpl in Hl1. split; [unfold appends; lia|]. split; [done|].
  split; [|lia]. unfold no_unused. rewrite <- Es, elem_of_app, list_elem_of_singleton. by intros [?|?].
Qed.

Lemma update_keeps p s g p1 : updates_slot p s (λ b, ALive (g b)) (Ok p1) → no_unused p → page_wf p1 ∧ no_unused p1.
Proof.
  intros (Hp1&_&b&_&Es)%updates_slot_wf Hn. split; [done|]. unfold no_unused. rewrite Es.
  intros (i&Hi)%list_elem_of_lookup. apply list_lookup_insert_Some in Hi as [(_&?&_)|(_&Hi)]; [done|].
  by apply Hn, (list_elem_of_lookup_2 _ i).
Qed.

Lemma loop_keeps {A} (f : SlottedPage → A → Result SlottedPage) (P : A → Prop) l p p1 :
  (∀ p a p', page_wf p → no_unused p → P a → f p a = Ok p' → page_wf p' ∧ no_unused p') →
  page_wf p → no_unused p → Forall P l → for_each f p l = Ok p1 → page_wf p1 ∧ no_unused p1.
Proof.
  intros Hf Hp Hn Hl. revert p Hp Hn. induction Hl as [|a l Ha Hl IH]; intros p Hp Hn E; simpl in E.
  { by injection E as <-. }
  destruct (f p a) as [p'|e|] eqn:Ef; try done. simpl in E.
  destruct (Hf _ _ _ Hp Hn Ha Ef) as [Hp' Hn']. by eapply IH.
Qed.

Lemma xmax_keeps p s x p1 : page_wf p → no_unused p → 0 ≤ s → set_xmax p s x = Ok p1 → page_wf p1 ∧ no_unused p1.
Proof.
  intros Hp Hn Hs E. eapply (update_keeps p s); [|done]. rewrite <- E. by apply set_xmax_updates.
Qed.
Lemma xpage_keeps p s np ns p1 : page_wf p → no_unused p → 0 ≤ s → set_hot_xpage p s np ns = Ok p1 →
  page_wf p1 ∧ no_unused p1.
Proof.
  intros Hp Hn Hs E. eapply (update_keeps p s); [|done]. rewrite <- E. by apply set_hot_xpage_updates.
Qed.

(** Rows of a batch take new line pointers in order. *)
Lemma insert_all_fresh xid rows p p1 : page_wf p → no_unused p → Forall row_ok rows → insert_all xid p rows = Ok p1 →
  page_wf p1 ∧ no_unused p1 ∧ (λ row : Z * option (PageId * Z) * list Z, row.1.1) <$> rows = seqZ (f_sc (data p)) (zlen rows).
Proof.
  intros Hp Hn Hr. revert p Hp Hn. unfold insert_all. induction Hr as [|row rows (_&_&Hb&_) Hr IH]; intros p Hp Hn E.
  { injection E as <-. done. }
  simpl in E. destruct (insert_versioned _ _ _ _ _) as [[s p']|e|] eqn:Ei; try done. simpl in E.
  case_decide as Hs; [|done]. simpl in E. destruct (insert_fresh _ _ _ _ _ _ Hp Hb Hn Ei) as (Ha&Hp'&Hn'&Hsc).
  destruct (IH p' Hp' Hn' E) as (?&?&Hseq). split; [done|]. split; [done|]. unfold appends in Ha.
  unfold zlen in *. rewrite fmap_cons, Hseq. cbn [length]. rewrite (seqZ_cons _ (Z.of_nat (S _))) by lia.
  f_equal; [congruence|]. f_equal; lia.
Qed.

(** Without reclaimed line pointers every insert appends; only a compaction reclaims. *)
Lemma did_fresh r p p1 : page_wf p → no_unused p → did r p p1 → fresh_slot r p ∧ (¬ compacts r → no_unused p1).
Proof.
  intros Hp Hn Hd. pose proof (did_extends _ _ _ Hp Hd) as [Hp1 _ _ _].
  destruct Hd as [r p p1 xid prev payload Ht ? _ _ Hb E|r p p1 x Ht ? _ Hs E
    |r p p1 xid slots Ht ? _ Hs _ E|r p p1 p2 p3 xid old new prev payload Ht Er Hx Ho Hnw _ Hb E1 _ E2 E3
    |r p p1 p2 xid old new_pid new Ht ? _ Ho _ _ E1 E2|r p p1 xid rows Ht Er _ Hr Hl E
    |r p p1 xid entries Ht ? _ He _ _ E|r p p1 Ht [Hs _] E|r p p1 n Ht ? _ E]; unfold fresh_slot; rewrite Ht.
  - destruct (insert_fresh _ _ _ _ _ _ Hp Hb Hn E) as (?&?&?&_). by split_and!.
  - split; [done|]. intros _. by eapply (xmax_keeps p (w_slot r)).
  - split; [done|]. intros _. eapply (loop_keeps (λ page slot, set_xmax page slot xid) slot_ok slots p p1); [|done..].
    intros q s q' Hq Hnq Hsq. apply xmax_keeps; [done..|]. unfold slot_ok in Hsq. lia.
  - unfold slot_ok in Ho. destruct (insert_fresh _ _ _ _ _ _ Hp Hb Hn E1) as (Ha&Hp1'&Hn1&_).
    destruct (xmax_keeps _ _ _ _ Hp1' Hn1 (proj1 Ho) E2) as [Hp2 Hn2]. split.
    + split_and!; [done| |done]. intros d _ Ed. rewrite Er in Ed.
      destruct (hot_update_roundtrip xid old new (encode_insert_redo xid prev payload) Hx Ho Hnw) as [Eh _].
      rewrite Eh in Ed. by injection Ed as <-.
    + intros _. eapply (update_keeps p2 old); [|done]. rewrite <- E3. apply set_hot_next_updates; [done|lia].
  - unfold slot_ok in Ho. split; [done|]. intros _.
    destruct (xmax_keeps _ _ _ _ Hp Hn (proj1 Ho) E1) as [Hp1' Hn1]. by eapply (xpage_keeps p1 old); [..|lia|].
  - destruct (insert_all_fresh _ _ _ _ Hp Hn Hr E) as (_&?&Hseq). split; [|done].
    split_and!; [done|done|]. intros rows' _ Ed. rewrite Er, insert_batch_roundtrip in Ed.
    + injection Ed as <-. rewrite <- list_fmap_compose. unfold zlen. rewrite length_fmap. exact Hseq.
    + apply Forall_fmap. eapply Forall_impl; [exact Hr|]. intros [[s prev] payload] (Hs&_&Hb&Hz). split; [done|].
      simpl in *. destruct (insert_redo_bytes xid prev payload Hb) as [_ ->]. lia.
    + unfold zlen. by rewrite length_fmap.
  - split; [done|]. intros _. eapply (loop_keeps _ forward_ok _ p p1); [|done|done|by apply entries_forward_ok|exact E].
    intros q e q' Hq Hnq [Hsq _]. apply xpage_keeps; [done..|]. unfold slot_ok in Hsq. lia.
  - split; [done|]. intros _. pose proof (mark_dead_spec p (w_slot r) Hp Hs) as U. rewrite E in U.
    destruct (slots p !! Z.to_nat (w_slot r)) as [[]|] eqn:El; try done; [|by injection U as ->..].
    destruct U as (?&[= <-]&_&_&_&Es). unfold no_unused. rewrite Es.
    intros (i&Hi)%list_elem_of_lookup. apply list_lookup_insert_Some in Hi as [(_&?&_)|(_&Hi)]; [done|].
    by apply Hn, (list_elem_of_lookup_2 _ i).
  - split; [done|]. intros Hc. by destruct Hc.
Qed.

Lemma no_unused_eq p q : page_eq p q → no_unused p → no_unused q.
Proof.
  intros E Hn Hin. apply list_elem_of_lookup in Hin as (i&Hi). pose proof (pe_slots _ _ E) as Hs.
  destruct (Forall2_lookup_r _ _ _ _ _ Hs Hi) as (a&Ha&Hab). apply Hn. inversion Hab; subst.
  by eapply list_elem_of_lookup_2.
Qed.

Lemma history_fresh p rs pn : page_wf p → no_unused p → Forall (λ r, ¬ compacts r) rs →
  history any_change p rs pn → history fresh_slot p rs pn ∧ no_unused pn.
Proof.
  intros Hp Hn Hrs Hh. revert Hp Hn Hrs.
  induction Hh as [p|p p1 rs pn E Hh IH|r rs p p1 pn Hs Hh IH]; intros Hp Hn Hrs; [by split; [apply hist_nil|]| |].
  - destruct IH as [IH ?]; [apply E|by eapply no_unused_eq|done|]. split; [|done]. by apply (hist_hints _ _ p1).
  - inversion_clear Hrs as [|?? Hr Hrs']. pose proof (past_wf _ _ (step_past _ _ _ _ Hp Hs)) as Hp1.
    destruct IH as [IH Hnn]; [done| |done|split; [apply (hist_cons _ _ _ _ p1); [|done]|done]]; last first.
    + destruct Hs as [q q2 Hd _ Hl E Eq|Hty Hre Eq]; [|by apply step_fpi].
      apply (step_did _ _ _ _ q q2); try done. by apply (did_fresh r p q Hp Hn Hd).
    + destruct Hs as [q q2 Hd _ Hl E Eq|Hty Hre Eq]; [|by eapply no_unused_eq].
      eapply no_unused_eq; [exact Eq|]. destruct (did_fresh r p q Hp Hn Hd) as [_ Hnq].
      destruct (set_lsn_spec q (w_lsn r)) as (q2'&E'&_&Es&_); [exact (ex_wf _ _ (did_extends _ _ _ Hp Hd))|].
      rewrite E in E'. injection E' as <-. unfold no_unused. rewrite Es. by apply Hnq.
Qed.

End fresh.

(** ** Runs of operations *)

Inductive HeapOp :=
| OInsert (payload : list Z) (xid : Xid)
| OUpdate (rid : RowId) (payload : list Z) (xid : Xid)
| OHotUpdate (rid : RowId) (payload : list Z) (xid : Xid)
| ODelete (rid : RowId) (xid : Xid)
| ODeleteMany (rids : list RowId) (xid : Xid)
| OUndoXmax (rid : RowId)
| OUndoInsert (rid : RowId) (xid : Xid)
| OMarkDead (rid : RowId)
| OCompact (pid : PageId).

Section runs.
Context `{!Crc32, !FsmTree}.
Variable io : Calls.
Variable pio : PoolCalls.
Variable h : Heap.
Variable fuel : nat.

Definition completes {A} (m : op Db A) : op Db bool := m;; op_ret true.
Definition finished {A} (m : op Db (option A)) : op Db bool := o <- m;; op_ret (bool_decide (is_Some o)).

(** [false] when the operation is still looking for a page. *)
Definition run_heap_op (o : HeapOp) : op Db bool :=
  match o with
  | OInsert payload xid => finished (heap_insert io pio h fuel payload xid)
  | OUpdate rid payload xid => finished (heap_update io pio h fuel rid payload xid)
  | OHotUpdate rid payload xid => finished (try_hot_insert io pio h fuel rid payload xid)
  | ODelete rid xid => completes (heap_delete io pio rid xid)
  | ODeleteMany rids xid => completes (delete_many io pio rids xid)
  | OUndoXmax rid => completes (undo_xmax_stamp io pio (ri_page rid) (ri_slot rid))
  | OUndoInsert rid xid => completes (heap_undo_insert_op io pio (ri_page rid) (ri_slot rid) xid)
  | OMarkDead rid => completes (heap_mark_dead io pio rid)
  | OCompact pid => completes (compact_page io pio h pid)
  end.

(** The inputs are in range, and the row is on a page of the heap. *)
Definition row_of (s : Db) (rid : RowId) : Prop :=
  ri_page rid ∈ pages (d_fsm s) ∧ 0 ≤ ri_slot rid < U16_MAX ∧ ri_page rid ≠ INVALID_PAGE_ID.

Definition op_ok (s : Db) (o : HeapOp) : Prop :=
  match o with
  | OInsert payload xid => bytes payload ∧ xid_ok xid
  | OUpdate rid payload xid | OHotUpdate rid payload xid => row_of s rid ∧ bytes payload ∧ xid_ok xid
  | ODelete rid xid | OUndoInsert rid xid => row_of s rid ∧ xid_ok xid
  | ODeleteMany rids xid => Forall (row_of s) rids ∧ zlen rids < 2 ^ 16 ∧ xid_ok xid
  | OUndoXmax rid | OMarkDead rid => row_of s rid
  | OCompact pid => pid ∈ pages (d_fsm s)
  end.

(** Bound on the records it logs. *)
Definition op_cost (o : HeapOp) : Z :=
  match o with
  | OInsert _ _ => 4 * Z.of_nat fuel + 4
  | OUpdate _ _ _ => 4 * Z.of_nat fuel + 6
  | OHotUpdate _ _ _ => 4 * Z.of_nat fuel + 10
  | ODeleteMany rids _ => 4 * zlen rids
  | _ => 4
  end.

Inductive runs : list HeapOp → Db → Db → Prop :=
| runs_nil s : runs [] s s
| runs_cons o os s s1 s' : op_ok s o → run_heap_op o s = (Ok true, s1) → runs os s1 s' → runs (o :: os) s s'.

Definition cost (os : list HeapOp) : Z := foldr (λ o n, op_cost o + n) 0 os.

(** Log appends do not fail, there is no durable free-space map, and pages are of the
    engine's sizes. *)
Definition plain : Prop := io_rec io = None ∧ fsm_tree h = None ∧ 28 ≤ h_page_size h < 65536.

Lemma row_of_slot s rid : row_of s rid → slot_ok (ri_slot rid) ∧ rid_ok rid.
Proof. intros (_&?&?). unfold rid_ok, slot_ok, U16_MAX in *. split_and!; (lia || done). Qed.

Lemma completes_Ok {A} (m : op Db A) s b s' : completes m s = (Ok b, s') → ∃ a, m s = (Ok a, s').
Proof. intros (a&s1&E&[= _ <-])%op_bind_Ok. by exists a. Qed.
Lemma finished_Ok {A} (m : op Db (option A)) s s' : finished m s = (Ok true, s') → ∃ a, m s = (Ok (Some a), s').
Proof. intros ([a|]&s1&E&E')%op_bind_Ok; [|done]. injection E' as <-. by exists a. Qed.

Lemma group_rows (rids : list RowId) g : g ∈ groups ri_page rids →
  (∀ rid, rid ∈ g.2 → rid ∈ rids ∧ ri_page rid = g.1) ∧ g.2 ≠ [] ∧ zlen g.2 ≤ zlen rids.
Proof.
  intros Hg. pose proof (groups_concat ri_page rids) as Ec. split; [|split; [by eapply groups_nonempty|]].
  - intros rid Hin. split; [|by eapply (proj1 (Forall_forall _ _)) in Hin; [|by eapply groups_keys]].
    rewrite <- Ec. apply elem_of_concat. exists g.2. split; [by apply list_elem_of_fmap_2|done].
  - unfold zlen. rewrite <- Ec at 1. apply list_elem_of_split in Hg as (l1&l2&->).
    rewrite fmap_app, concat_app, length_app, fmap_cons. cbn [concat]. rewrite length_app. lia.
Qed.

Lemma groups_length {A} (key : A → Z) l : (length (groups key l) ≤ length l)%nat.
Proof.
  induction l as [|a l IH]; [done|]. simpl. destruct (groups key l) as [|[k g] gs]; simpl in *; [lia|].
  case_decide; simpl; lia.
Qed.

Lemma stamp_groups_ran xid (gs : list (Z * list RowId)) : io_rec io = None → xid_ok xid →
  Forall (λ g, Forall slot_ok (ri_slot <$> g.2) ∧ zlen (ri_slot <$> g.2) < 2 ^ 16) gs →
  ∀ n s s1, ready n s → 4 * zlen gs ≤ n → (∀ g, g ∈ gs → is_good s g.1) →
  each (λ g, stamp_group io pio xid g.1 (ri_slot <$> g.2)) gs s = (Ok tt, s1) →
  ran (4 * zlen gs) s s1 ∧ same_pages s s1.
Proof.
  intros Hio Hx Hgs. unfold zlen. induction Hgs as [|g gs [Hsl Hz] Hgs IH]; intros n s s1 Hr Hn Hgood E.
  { injection E as <-. split; [by apply (quiet_ran n)|done]. }
  cbn [each length] in *. apply op_bind_Ok in E as ([]&s2&E2&E).
  pose proof (kept_pages _ _ _ _ (stamp_group_pages io pio _ _ _) E2) as P2.
  eapply stamp_group_ran in E2 as R2; [|done|exact Hr|lia|apply Hgood; left|done..].
  destruct (IH (n - 4) s2 s1) as [R P]; [by eapply ran_ready|lia| |done|].
  - intros g' Hg'. eapply ran_good; [exact R2|]. apply Hgood. by right.
  - split; [eapply ran_le; [by eapply ran_trans|lia]|]. unfold same_pages in *. congruence.
Qed.

Lemma delete_many_ran n rids xid out s s' : io_rec io = None → ready n s → 4 * zlen rids ≤ n → good_pages s →
  Forall (row_of s) rids → zlen rids < 2 ^ 16 → xid_ok xid →
  delete_many io pio rids xid s = (Ok out, s') → ran (4 * zlen rids) s s' ∧ same_pages s s'.
Proof.
  intros Hio Hr Hn Hgs Hrows Hlen Hx E. unfold delete_many in E. apply op_bind_Ok in E as ([]&s1&E&[= _ <-]).
  rewrite Forall_forall in Hrows. pose proof (groups_length ri_page rids). unfold zlen in *.
  eapply stamp_groups_ran in E as [R P]; [|done|done| |exact Hr|unfold zlen; lia|].
  - split; [eapply ran_le; [exact R|unfold zlen; lia]|done].
  - apply Forall_forall. intros g Hg. destruct (group_rows rids g Hg) as (Hin&_&Hz). unfold zlen in *. split.
    + apply Forall_fmap, Forall_forall. intros rid Hrid. by apply (row_of_slot s), Hrows, Hin.
    + rewrite length_fmap. lia.
  - intros [k l] Hg. destruct (group_rows rids _ Hg) as (Hin&Hne&_). destruct l as [|rid l]; [done|].
    destruct (Hin rid) as [Hr1 <-]; [left|]. by apply Hgs, Hrows.
Qed.

(** One operation. *)
Lemma op_ran n o s s' : plain → ready n s → op_cost o ≤ n → good_pages s → op_ok s o →
  run_heap_op o s = (Ok true, s') → ran (op_cost o) s s' ∧ good_pages s'.
Proof.
  intros (Hio&Hh&Hps) Hr Hn Hgs Ho E.
  assert (∀ rid, row_of s rid → is_good s (ri_page rid)) as Hrow by (intros rid [? _]; by apply Hgs).
  assert (ran (op_cost o) s s' ∧ same_pages s s' → ran (op_cost o) s s' ∧ good_pages s') as Hkeep
    by (intros [R P]; split; [done|by eapply ran_pages]).
  destruct o as [payload xid|rid payload xid|rid payload xid|rid xid|rids xid|rid|rid xid|rid|pid];
    cbn [run_heap_op op_cost op_ok] in *.
  - destruct Ho as [Hb Hx]. apply finished_Ok in E as [rid E].
    by apply (insert_ran io pio n h fuel payload xid None rid s).
  - destruct Ho as (Hrid&Hb&Hx). apply finished_Ok in E as [new E]. apply row_of_slot in Hrid as Hs.
    eapply update_ran; try done; [by apply Hrow|apply Hs].
  - destruct Ho as (Hrid&Hb&Hx). apply finished_Ok in E as [res E]. apply row_of_slot in Hrid as Hs.
    eapply hot_ran; try done; [by apply Hrow|apply Hs].
  - destruct Ho as [Hrid Hx]. apply completes_Ok in E as [[] E]. apply row_of_slot in Hrid as Hs. apply Hkeep.
    split; [eapply delete_ran; try done; [by apply Hrow|apply Hs]|by eapply kept_pages, E; apply delete_pages].
  - destruct Ho as (Hrids&Hz&Hx). apply completes_Ok in E as [out E]. apply Hkeep. by eapply delete_many_ran.
  - apply completes_Ok in E as [[] E]. apply row_of_slot in Ho as Hs. apply Hkeep. unfold undo_xmax_stamp in E.
    split; [|by eapply kept_pages, E; apply restamp_pages].
    eapply restamp_ran in E; [done|done|exact Hr|lia|by apply Hrow|apply Hs|by vm_compute].
  - destruct Ho as [Hrid Hx]. apply completes_Ok in E as [[] E]. apply row_of_slot in Hrid as Hs. apply Hkeep.
    unfold heap_undo_insert_op in E. split; [|by eapply kept_pages, E; apply restamp_pages].
    eapply restamp_ran in E; [done|done|exact Hr|lia|by apply Hrow|apply Hs|done].
  - apply completes_Ok in E as [[] E]. apply Hkeep.
    split; [eapply mark_dead_ran; try done; [by apply Hrow|apply Ho]|by eapply kept_pages, E; apply mark_dead_pages].
  - apply completes_Ok in E as [freed E]. apply Hkeep. split; [|by eapply kept_pages, E; apply compact_pages].
    apply (ran_le 3); [|lia]. eapply compact_ran; try done; [lia|by apply Hgs].
Qed.

Lemma op_cost_nonneg o : 0 ≤ op_cost o.
Proof. destruct o; simpl; unfold zlen; lia. Qed.

Lemma cost_nonneg os : 0 ≤ cost os.
Proof. induction os as [|o os IH]; [done|]. simpl. pose proof (op_cost_nonneg o). lia. Qed.

Lemma runs_ran n os s s' : plain → ready n s → cost os ≤ n → good_pages s → runs os s s' →
  ran (cost os) s s' ∧ good_pages s'.
Proof.
  intros Hpl Hr Hn Hgs Hruns. revert n Hr Hn Hgs.
  induction Hruns as [s|o os s s1 s' Ho E Hruns IH]; intros n Hr Hn Hgs; [split; [by apply (quiet_ran n)|done]|].
  simpl in Hn. pose proof (op_cost_nonneg o).
  pose proof (cost_nonneg os).
  eapply op_ran in E as [R1 Hgs1]; [|done|exact Hr|lia|done..].
  destruct (IH (n - op_cost o)) as [R2 Hgs2]; [by eapply ran_ready|lia|done|]. split; [by eapply ran_trans|done].
Qed.

(** C1: heap operations and redo fit together.  Take single-row inserts, updates, HOT updates (on
    one page or two), deletes, [delete_many], [undo_xmax_stamp], [undo_insert], [mark_dead] and
    [compact_page] ([HeapOp]) in any sequence in which each succeeds.  Their arguments are in range
    and their rows on pages of the heap ([op_ok]); no write of a log record fails, the heap has no
    durable free-space map and a page size from 28 to 65535 ([plain]); its pages are well-formed,
    and LSNs and page ids have room ([ready]).  For a page that held rows before the sequence, had
    no reclaimed line pointers and is not compacted in it, the records the sequence appends to the
    log about the page, replayed on the page as it was at any point of the sequence (whatever was
    flushed last), give the page that the engine has at the end: the same rows, headers, line
    pointers and LSN. *)
Theorem heap_replay os1 os2 s sk s' : plain → good_pages s → ready (cost os1 + cost os2) s →
  runs os1 s sk → runs os2 sk s' →
  ∃ rs, log_of (d_wal s') = log_of (d_wal s) ++ rs ∧
  ∀ pid p pk q, good_page s pid p → page_of sk pid = Some (data pk) → page_eq q pk → no_unused p →
    let mine := filter (about pid) rs in
    Forall (λ r, ¬ compacts r) mine →
    let q' := foldl replay q mine in
    ∃ p', page_of s' pid = Some (data p') ∧ page_wf q' ∧ lsn q' = lsn p' ∧ slot_count_pub q' = slot_count_pub p' ∧
      ∀ slot, 0 ≤ slot → tuple_header q' slot = tuple_header p' slot ∧ get q' slot = get p' slot ∧
        slot_state q' slot = slot_state p' slot.
Proof.
  intros Hpl Hgs Hr H1 H2. pose proof (cost_nonneg os1). pose proof (cost_nonneg os2).
  eapply runs_ran in H1 as [R1 Hgs1]; [|done|exact Hr|lia|done].
  eapply runs_ran in H2 as [R2 _]; [|done|by eapply ran_ready|lia|done].
  destruct (rn_effect _ _ _ R1) as (rs1&He1&_), (rn_effect _ _ _ R2) as (rs2&He2&_).
  exists (rs1 ++ rs2). split; [by rewrite (ef_log _ _ _ He2), (ef_log _ _ _ He1), app_assoc|].
  intros pid p pk q Hg Hpk Eq Hn mine Hmine q'. subst mine. rewrite filter_app in Hmine.
  apply Forall_app in Hmine as [Hm1 Hm2].
  destruct (ef_page _ _ _ He1 pid p Hg) as (pk'&Hgk&Hh1).
  assert (pk' = pk) as -> by (pose proof (gp_mem _ _ _ Hgk); destruct pk, pk'; simpl in *; congruence).
  destruct (ef_page _ _ _ He2 pid pk Hgk) as (p'&Hg'&Hh2). exists p'. split; [apply Hg'|].
  pose proof (history_fresh _ _ _ (gp_wf _ _ _ Hg) Hn Hm1 Hh1) as [Hf1 Hnk].
  pose proof (history_fresh _ _ _ (gp_wf _ _ _ Hgk) Hnk Hm2 Hh2) as [Hf2 _].
  assert (page_eq q' p') as E.
  { subst q'. rewrite filter_app. by eapply (replay_from p); [apply Hg|..]. }
  split; [apply E|]. rewrite !lsn_wf by apply E. rewrite (pe_lsn _ _ E). split; [done|].
  rewrite (slot_count_eq _ _ E). split; [symmetry; apply slot_count_Ok, wf_room, E|].
  intros slot Hs. by apply page_eq_reads.
Qed.

End runs.

(** ** A database of one heap *)

#[local] Existing Instance sum_crc.

(** No durable free-space map. *)
#[local] Instance no_tree : FsmTree := {|
  max_entry _ := fail Io; insert_in_txn _ _ _ _ _ := fail Io; set_value _ _ _ := fail Io;
  page_directory _ := fail Io;
|}.

Definition w_wal : Wal := Eval vm_compute in
  match open_with_segment_size io_ok [] 0 65536 with
  | (Ok w, _) => w
  | _ => mkWal [] [] 0 0 0 0 0 0 0 0 0 None false false false new_sealer
  end.
Definition w_heap : Heap := (heap_new 256).1.
Definition w_db0 : Db := Eval vm_compute in
  mkDb (BufferPool.open (replicate 3 (replicate 256 0)) 256 4) w_wal empty_table new_fsm.
Definition w_then (o : HeapOp) (s : Db) : Db := (run_heap_op io_ok pio_ok w_heap 3 o s).2.
Definition w_db1 : Db := Eval vm_compute in w_then (OInsert [1; 2; 3] 5) w_db0.
Definition w_hot : HeapOp := OHotUpdate (mkRowId 0 0) [7; 8] 6.
Definition w_db2 : Db := Eval vm_compute in w_then w_hot w_db1.
Definition w_del : HeapOp := ODelete (mkRowId 0 1) 7.
Definition w_db3 : Db := Eval vm_compute in w_then w_del w_db2.

Lemma w_plain : plain io_ok w_heap.
Proof. split; [reflexivity|]. split; [reflexivity|vm_compute; by split]. Qed.

Lemma w_ready0 : ready 1000 w_db0.
Proof.
  constructor.
  - assert (fresh w_wal) as Hf by (exists io_ok, 0, 65536, (dir w_wal); split; [lia|]; split; [lia|]; reflexivity).
    destruct (fresh_inv _ Hf) as (Hi&_). by exists [], [].
  - vm_compute. split; congruence.
  - vm_compute. split_and!; congruence.
  - intros pid p _ Hp. apply (zeros_blank 256). revert Hp. unfold page_of, page_at. case_decide; [|done].
    change (mem (d_pool w_db0)) with (replicate 3 (replicate 256 0)). by intros [-> _]%lookup_replicate.
Qed.

Lemma w_run1 : run_heap_op io_ok pio_ok w_heap 3 (OInsert [1; 2; 3] 5) w_db0 = (Ok true, w_db1).
Proof. vm_compute. reflexivity. Qed.

Lemma w_ready1 : ready 900 w_db1 ∧ good_pages w_db1.
Proof.
  destruct (op_ran io_ok pio_ok w_heap 3 1000 (OInsert [1; 2; 3] 5) w_db0 w_db1) as [R Hg].
  - exact w_plain.
  - exact w_ready0.
  - vm_compute. congruence.
  - intros pid Hin. by apply not_elem_of_nil in Hin.
  - split; [concrete_bytes|vm_compute; split; congruence].
  - exact w_run1.
  - split; [|done]. pose proof (ran_ready _ _ _ _ w_ready0 R) as [Hw Hl Hm Ht].
    constructor; [done|vm_compute; split; congruence|vm_compute; split_and!; congruence|done].
Qed.

Definition w_page (s : Db) : SlottedPage := mkPage (default [] (page_of s 0)).
Definition w_records : list WalRecord := Eval vm_compute in
  drop (length (log_of (d_wal w_db1))) (log_of (d_wal w_db3)).

Lemma w_good1 : good_page w_db1 0 (w_page w_db1).
Proof.
  destruct w_ready1 as [_ Hg]. destruct (Hg 0) as [p Hp]; [left|].
  assert (w_page w_db1 = p) as ->; [|done]. pose proof (gp_mem _ _ _ Hp) as E. unfold w_page. rewrite E. by destruct p.
Qed.

Lemma w_runs2 : runs io_ok pio_ok w_heap 3 [w_hot] w_db1 w_db2 ∧ runs io_ok pio_ok w_heap 3 [w_del] w_db2 w_db3.
Proof.
  split; eapply runs_cons, runs_nil; try (vm_compute; reflexivity).
  - split; [|split; [concrete_bytes|vm_compute; split; congruence]].
    split; [left|]. vm_compute. split_and!; congruence.
  - split; [|vm_compute; split; congruence]. split; [left|]. vm_compute. split_and!; congruence.
Qed.

(** The page was last flushed after the HOT update and the row then deleted: redo
    skips the records of the update and repeats the delete. *)
Lemma heap_replay_witness :
  let q' := foldl replay (w_page w_db2) (filter (about 0) w_records) in
  get q' 1 = Ok [7; 8] ∧ xmax <$> tuple_header q' 1 = Ok 7.
Proof.
  destruct w_ready1 as [Hr Hgs], w_runs2 as [H1 H2].
  destruct (heap_replay io_ok pio_ok w_heap 3 [w_hot] [w_del] w_db1 w_db2 w_db3 w_plain Hgs) as (rs&Hlog&Hrep).
  { destruct Hr as [? _ _ ?]. constructor; [done|vm_compute; split; congruence|vm_compute; split_and!; congruence|done]. }
  { exact H1. }
  { exact H2. }
  assert (rs = w_records) as ->.
  { apply (app_inv_head (log_of (d_wal w_db1))). rewrite <- Hlog. vm_compute. reflexivity. }
  destruct (Hrep 0 (w_page w_db1) (w_page w_db2) (w_page w_db2)) as (p'&Hp'&_&_&_&Hread).
  - exact w_good1.
  - reflexivity.
  - apply page_eq_refl.
    assert (is_good w_db2 0) as [p Hp].
    { eapply ran_good; [|exists (w_page w_db1); exact w_good1]. eapply runs_ran; [exact w_plain|exact Hr| |exact Hgs|exact H1].
      vm_compute. congruence. }
    assert (w_page w_db2 = p) as ->; [|apply Hp]. pose proof (gp_mem _ _ _ Hp) as E. unfold w_page. rewrite E. by destruct p.
  - apply (bool_decide_unpack _). vm_compute. exact I.
  - apply (bool_decide_unpack _). vm_compute. exact I.
  - intros q'. assert (p' = w_page w_db3) as -> by (injection Hp' as Ep; destruct p'; simpl in Ep; subst; reflexivity).
    destruct (Hread 1) as (Eth&Eg&_); [lia|]. split; [etrans; [exact Eg|]|etrans; [apply (f_equal (fmap xmax)), Eth|]];
      vm_compute; reflexivity.
Defined.
