(* ===== verification/HeapProps.v ===== *)
(** Page selection and readers of the heap: the loop that acquires a page ends when a
    fresh page would do and never does otherwise, and what readers see of versions
    that deletes and HOT updates leave behind. *)

From stdpp Require Import base numbers list gmap sets strings sorting.
From S2P Require Import Prelude Format Mvcc Page PageSpec PageOps PageCompact PageProps PageHints.
From S2P Require Import LockMgr Txn WalCodec WalCodecProps Wal WalInv WalProps BufferPool.
From S2P Require Import BufferPoolProps BTreeNode LogPayload HeapRead HeapReadProps Heap Recovery.
From S2P Require Import RedoPage HeapLog HeapDurable.
Open Scope op_scope.

(** ** Acquiring a page *)

Section acquire.
Context `{!Crc32, !FsmTree}.
Variable io : Calls.
Variable pio : PoolCalls.
Variable h : Heap.
Variable threshold : Z.

(** Pages the free-space map says have room. *)
Definition promising (f : HeapFsm) : nat := length (filter (λ pid, fits threshold f pid = true) (pages f)).

Lemma note_promising f pid free : pid ∈ pages f → fits threshold f pid = true → free < threshold →
  (promising (mkFsm (pages f) (<[pid := free]> (free_map f)) (directory_loaded f)) < promising f)%nat.
Proof.
  intros Hin Hfit Hfree. unfold promising. simpl. set (f' := mkFsm _ _ _).
  assert (∀ q, fits threshold f' q = true → fits threshold f q = true ∧ q ≠ pid) as Hsub.
  { intros q. unfold fits at 1, f'. simpl. destruct (decide (q = pid)) as [->|Hne].
    - rewrite lookup_insert_eq. intros ?%bool_decide_eq_true. lia.
    - rewrite lookup_insert_ne by done. done. }
  clearbody f'. induction (pages f) as [|q l IH]; [by apply not_elem_of_nil in Hin|].
  assert (length (filter (λ pid, fits threshold f' pid = true) l) ≤
    length (filter (λ pid, fits threshold f pid = true) l))%nat as Hle.
  { clear -Hsub. induction l as [|q l IH]; [done|]. rewrite !filter_cons.
    destruct (decide (fits threshold f' q = true)) as [Hq|]; [|case_decide; simpl; lia].
    rewrite decide_True by (by apply Hsub). simpl. lia. }
  apply elem_of_cons in Hin as [<-|Hin].
  - rewrite filter_cons_False, filter_cons_True by (done || by intros [_ ?]%Hsub). simpl. lia.
  - specialize (IH Hin). rewrite !filter_cons. destruct (decide (fits threshold f' q = true)) as [Hq|].
    + rewrite decide_True by (by apply Hsub). simpl. lia.
    + case_decide; simpl; lia.
Qed.

(** A probe leaves the pages and the log. *)
Lemma probe_ready n s pid free s1 : ready n s → probe io pio pid s = (Ok free, s1) →
  ready n s1 ∧ ∃ p, page_of s1 pid = Some (data p) ∧ free_space p = Ok free.
Proof.
  intros Hr E. unfold probe in E. apply op_bind_Ok in E as (p&s0&E0&E).
  apply op_bind_Ok in E as (f&?&[= Efree <-]&E). apply op_bind_Ok in E as (?&s3&E3&[= <- <-]).
  destruct (fetch_calm io pio n s pid p s0 Hr E0) as [Hc Hp].
  replace n with (n - 0) by lia. pose proof (calm_ready _ _ _ _ _ Hr Hc) as Hr0.
  apply unpin_shape in E3 as (Ew3&Es3&_). split.
  - replace (n - 0) with (n - 0 - 0) by lia. eapply ran_ready; [exact Hr0|by eapply quiet_ran].
  - exists p. split; [|done]. injection Es3 as Em _ _. unfold page_of in *.
    by rewrite Em, (same_mem_mem _ _ (cm_mem _ _ _ _ Hc)).
Qed.

(** What a fetch finds on a page that is known. *)
Lemma fetch_known n s pid p page s' : ready n s → page_of s pid = Some (data p) →
  fetch_for_write io pio pid s = (Ok page, s') → page = p.
Proof.
  intros Hr Hp E. destruct (fetch_calm io pio n s pid page s' Hr E) as [_ Hp'].
  destruct page, p. simpl in *. congruence.
Qed.

Lemma ready_fsm n f s : ready n s → ready n (set_fsm f s).
Proof. by intros [Hw Hl Hm Ht]. Qed.

(** The page found is one the map calls fit, or one that a fetch will find fit. *)
Lemma find_cases n s pid s1 : plain io h → ready n s → 4 ≤ n → threshold ≤ h_page_size h - 28 →
  find_or_alloc_page io pio h threshold s = (Ok pid, s1) →
  (s1 = s ∧ pid ∈ pages (d_fsm s) ∧ fits threshold (d_fsm s) pid = true) ∨
  ∀ page s2, fetch_for_write io pio pid s1 = (Ok page, s2) →
    ∃ free, free_space page = Ok free ∧ threshold ≤ free.
Proof.
  intros (Hio&Hh&Hps) Hr Hn Ht E. unfold find_or_alloc_page, probe_tail in E. rewrite Hh in E.
  unfold op_bind at 1, gets at 1 in E. destruct (known_fit threshold (d_fsm s)) as [k|] eqn:Ek.
  { injection E as <- <-. left. split; [done|]. split; [by eapply find_in_pages|]. unfold known_fit in Ek.
    destruct (list_find _ _) as [[i x]|] eqn:Ef; [|done]. injection Ek as <-. by apply list_find_Some in Ef as (_&?&_). }
  right. intros page s2 Ef. unfold op_bind at 1, gets at 1 in E. apply op_bind_Ok in E as (fit&s3&E3&E).
  destruct (newest_unknown (d_fsm s)) as [u|] eqn:Eu.
  - apply op_bind_Ok in E3 as (free&s4&E4&E3). apply op_bind_Ok in E3 as (?&?&[= _ <-]&[= <- <-]).
    case_decide as Hfit.
    + injection E as <- <-. exists free. split; [|done]. destruct (probe_ready _ _ _ _ _ Hr E4) as (Hr4&p&Hp&Hfree).
      by rewrite (fetch_known n _ u p page s2 (ready_fsm _ _ _ Hr4) Hp Ef).
    + unfold op_bind, op_ret in E. destruct (probe_ready _ _ _ _ _ Hr E4) as [Hr4 _].
      destruct (alloc_ran io pio n h _ pid s1 Hio (ready_fsm _ _ _ Hr4) Hn Hh Hps E) as (R&_&p&Hg&Hfree).
      exists (h_page_size h - 28). split; [|done].
      by rewrite (fetch_known _ _ _ p page s2 (ran_ready _ _ _ _ (ready_fsm _ _ _ Hr4) R) (gp_mem _ _ _ Hg) Ef).
  - injection E3 as <- <-. unfold op_bind, op_ret in E.
    destruct (alloc_ran io pio n h s pid s1 Hio Hr Hn Hh Hps E) as (R&_&p&Hg&Hfree).
    exists (h_page_size h - 28). split; [|done].
    by rewrite (fetch_known _ _ _ p page s2 (ran_ready _ _ _ _ Hr R) (gp_mem _ _ _ Hg) Ef).
Qed.

Lemma acquire_ends fuel s : plain io h → ready 4 s → threshold ≤ h_page_size h - 28 →
  (promising (d_fsm s) < fuel)%nat → (acquire_page io pio h fuel threshold s).1 ≠ Ok None.
Proof.
  intros Hpl Hr Ht. revert s Hr. induction fuel as [|fuel IH]; intros s Hr Hp; [lia|]. cbn [acquire_page].
  unfold op_bind at 1. destruct (find_or_alloc_page io pio h threshold s) as [[pid|e|] s1] eqn:E1; [|done..].
  unfold op_bind at 1. destruct (fetch_for_write io pio pid s1) as [[page|e|] s2] eqn:E2; [|done..].
  unfold op_bind at 1, lift. destruct (free_space page) as [free|e|] eqn:Ef; [|done..].
  case_decide as Hfit; [done|].
  destruct (find_cases 4 s pid s1 Hpl Hr) as [(->&Hin&Hk)|Hfetch]; [done..| |].
  2:{ destruct (Hfetch page s2 E2) as (f&Ef'&?). rewrite Ef in Ef'. injection Ef' as <-. lia. }
  destruct (fetch_calm io pio 4 s pid page s2 Hr E2) as [Hc _]. pose proof (calm_ready _ _ _ _ _ Hr Hc) as Hr2.
  unfold op_bind at 1. destruct (unpin_page pid s2) as [[u|e|] s3] eqn:E3; [|done..].
  apply unpin_shape in E3 as (Ew3&Es3&Ef3). apply on_io_fsm in E2 as Ef2.
  unfold op_bind at 1, note_free_space, modify. apply IH.
  - apply ready_fsm. change 4 with (4 - 0 - 0). eapply ran_ready; [exact Hr2|by eapply quiet_ran].
  - unfold set_fsm. simpl. rewrite Ef3, Ef2. pose proof (note_promising (d_fsm s) pid free Hin Hk). lia.
Qed.

Lemma acquire_room fuel s pid page s' : acquire_page io pio h fuel threshold s = (Ok (Some (pid, page)), s') →
  ∃ free, free_space page = Ok free ∧ threshold ≤ free.
Proof.
  revert s. induction fuel as [|fuel IH]; intros s E; [done|].
  cbn [acquire_page] in E. apply op_bind_Ok in E as (q&s1&_&E). apply op_bind_Ok in E as (p&s2&_&E).
  apply op_bind_Ok in E as (free&?&[= Ef <-]&E). case_decide; [injection E as <- <- <-; by exists free|].
  apply op_bind_Ok in E as (?&s3&_&E). apply op_bind_Ok in E as (?&s4&_&E). by eapply IH.
Qed.

(** C19: acquiring a page ends.  Consider one thread, a heap without a durable free-space map, of
    a page size from 28 to 65535, over a sound log whose record writes do not fail and which, like
    the page ids, has room for four more records.  When a row fits an empty page, with the slack
    that the fill factor keeps for updates added, the retry loop goes around at most once per page
    of the heap plus once: a page whose recorded free space was out of date is corrected and not
    picked again, and a fresh page always fits.  The loop then ends with an error or with a page
    that has the room. *)
Theorem acquire_terminates fuel s : plain io h → ready 4 s → threshold ≤ h_page_size h - 28 →
  (length (pages (d_fsm s)) < fuel)%nat →
  (acquire_page io pio h fuel threshold s).1 ≠ Ok None ∧
  ∀ pid page s', acquire_page io pio h fuel threshold s = (Ok (Some (pid, page)), s') →
    ∃ free, free_space page = Ok free ∧ threshold ≤ free.
Proof.
  intros Hpl Hr Ht Hlen. split.
  - assert (promising (d_fsm s) < fuel)%nat as Hp by (pose proof (length_filter (λ pid, fits threshold (d_fsm s) pid = true)
      (pages (d_fsm s))); unfold promising; lia).
    clear Hlen. by apply acquire_ends.
  - intros pid page s'. apply acquire_room.
Qed.

End acquire.

(** ** Rows that fit no page *)

Section oversized.
Context `{!Crc32, !FsmTree}.
Variable io : Calls.
Variable pio : PoolCalls.
Variable h : Heap.

(** Every page of the file has the heap's page size. *)
Definition sized_pool (p : BufferPool) : Prop :=
  p_size p = h_page_size h ∧ Forall (λ bs, zlen bs = h_page_size h) (mem p).
Definition sized (s : Db) : Prop := sized_pool (d_pool s).

#[local] Instance preserves_trans {S} (I : S → Prop) : Transitive (λ s s', I s → I s').
Proof. intros ???; auto. Qed.

Lemma shape_sized p p' : same_mem p p' → sized_pool p → sized_pool p'.
Proof. unfold sized_pool. intros [= -> _ ->]. done. Qed.

Lemma fetch_sized pid : preserves sized (fetch_for_write io pio pid).
Proof.
  intros s. unfold fetch_for_write, on_io, fetch_page_for_write, on_pool, sized.
  destruct (refresh_mem (d_pool s, d_wal s)) as [Hm0 _]. destruct (refresh_durable _) as [p0 w0]. simpl in Hm0 |- *.
  pose proof (fetch_same_mem pio pid p0) as Hm1. destruct (fetch_page pio pid p0) as [r p1]. simpl in Hm1.
  assert (same_mem (d_pool s) p1) as Hm by (by etrans).
  destruct r as [pg|[]|]; try (intros Hs; by apply (shape_sized (d_pool s))).
  unfold on_wal, op_bind, modify. simpl. destruct (sync io w0) as [[[]|e|] w1]; try (by apply shape_sized).
  destruct (refresh_mem (p1, w1)) as [Hm2 _]. simpl in Hm2.
  pose proof (fetch_same_mem pio pid (set_durable_wal_lsn (durable_lsn w1) p1)) as Hm3.
  destruct (fetch_page pio pid _) as [r2 p2]. simpl in Hm3 |- *. apply shape_sized. by do 2 (etrans; [done|]).
Qed.

Lemma wal_op_sized {A} (m : op Wal A) : preserves sized (wal_op m).
Proof. intros s. unfold wal_op, on_io, on_wal. simpl. by destruct (m (d_wal s)). Qed.

Lemma pool_op_sized {A} (m : op BufferPool A) : preserves sized_pool m → preserves sized (pool_op m).
Proof. intros Hm s. specialize (Hm (d_pool s)). unfold pool_op, on_io, on_pool. simpl. by destruct (m (d_pool s)). Qed.

Lemma write_page_sized page : preserves sized_pool (write_page page).
Proof.
  intros p. unfold write_page. destruct (page_id page) as [pid| |], (lsn page) as [l| |]; try done.
  unfold map_write. case_decide as Hd; [|done]. intros [Hp Hm]. simpl. unfold alter_resident, sized_pool.
  assert (Forall (λ bs, zlen bs = h_page_size h) (<[Z.to_nat pid:=data page]> (mem p))) as Hf.
  { apply Forall_insert; [done|]. lia. }
  by destruct (frame_index _ !! pid).
Qed.

Lemma alloc_page_sized : 0 ≤ h_page_size h → preserves sized_pool (alloc_page pio).
Proof.
  intros Hsz p [Hp Hm]. unfold alloc_page, op_bind, gets, modify, ensure_mapped. simpl.
  case_decide; [done|]. destruct (pio_grow pio); [|done]. split; [done|]. simpl. apply Forall_app_2; [done|].
  apply Forall_replicate. rewrite zlen_replicate. lia.
Qed.

Lemma unpin_sized pid : preserves sized_pool (unpin pid).
Proof. intros p. unfold unpin, modify, alter_resident. simpl. by destruct (frame_index p !! pid). Qed.

Ltac keep_sizes :=
  repeat first
    [ apply (keeps_bind (λ s s', sized s → sized s')); [apply _| |intros ?] | apply wal_op_sized | apply fetch_sized
    | apply pool_op_sized, unpin_sized | apply pool_op_sized, write_page_sized
    | apply pool_op_sized, alloc_page_sized; lia | progress case_match | by intros ? ].

Lemma find_sized needed : plain io h → preserves sized (find_or_alloc_page io pio h needed).
Proof.
  intros (_&Hh&Hps). unfold find_or_alloc_page, probe_tail, probe, alloc_heap_page. rewrite Hh. keep_sizes.
Qed.

Lemma acquire_sized fuel threshold : plain io h → preserves sized (acquire_page io pio h fuel threshold).
Proof.
  intros Hpl. induction fuel as [|fuel IH]; [by intros ?|]. cbn [acquire_page].
  apply (keeps_bind (λ s s', sized s → sized s')); [apply _|by apply find_sized|intros pid]. keep_sizes. apply IH.
Qed.

(** A row that fits no page is never refused.  When the row, with the slack of the fill factor, is
    larger than an empty page, inserting it cannot succeed, however often the retry loop goes
    around: every page it looks at or allocates is too small, and the loop has no other way out
    than an error of the pool or the log. *)
Theorem oversized_row_never_inserted fuel payload xid s rid s' : plain io h → ready (4 * Z.of_nat fuel) s →
  good_pages s → sized s → h_page_size h - 28 < needed_for payload + reserve h →
  heap_insert io pio h fuel payload xid s ≠ (Ok (Some rid), s').
Proof.
  intros Hpl Hr Hgs Hsz Hbig E. unfold heap_insert, insert_version in E.
  apply op_bind_Ok in E as ([[pid page]|]&s1&E1&E); [|done]. clear E. unfold acquire_page_for_insert in E1.
  destruct (acquire_room _ _ _ _ _ _ _ _ _ E1) as (free&Ef&Hroom). pose proof Hpl as (Hio&Hh&Hps).
  pose proof (acquire_sized fuel (needed_for payload + reserve h) Hpl s Hsz) as Hsz1. rewrite E1 in Hsz1. simpl in Hsz1.
  eapply acquire_ran in E1 as (_&_&[Hm Hw _ _]); [|done|exact Hr|lia|done..].
  rewrite free_space_Ok in Ef by done. injection Ef as <-. destruct Hw as [[] Hfs].
  assert (zlen (data page) = h_page_size h) as Hz; [|lia].
  unfold page_of, page_at in Hm. case_decide; [|done]. by apply (Forall_lookup_1 _ _ _ _ (proj2 Hsz1) Hm).
Qed.

End oversized.

(** ** Deletes and hint bits *)

Section hints.
Context `{!Crc32, !FsmTree}.
Variable io : Calls.
Variable pio : PoolCalls.

(** The hint byte of an [xmax] that fits its 56 bits is clear. *)
Lemma xmax_hint_clear b x : 24 ≤ zlen b → 0 ≤ x < 2 ^ 56 → hint_of TH_XMAX (splice b 8 (u64_to_le x)) = 0.
Proof.
  intros Hz Hx. unfold hint_of, TH_XMAX. change (8 + 7) with 15.
  assert (sub (splice b 8 (u64_to_le x)) 15 1 = [0]) as E; [|unfold rd; by rewrite E].
  unfold splice, sub. rewrite drop_app_ge by (rewrite length_take; unfold zlen in Hz; lia).
  rewrite length_take_le by (unfold zlen in Hz; lia).
  replace (Z.to_nat 15 - Z.to_nat 8)%nat with 7%nat by lia. unfold u64_to_le. cbn [le_bytes app drop]. simpl.
  f_equal. rewrite !Z.div_div by lia. rewrite Z.div_small by lia. done.
Qed.

Lemma xid_masked x : 0 ≤ x < 2 ^ 56 → Z.land (u64 x) XID_MASK = x.
Proof.
  intros Hx. rewrite u64_small by lia. change XID_MASK with (Z.ones 56). rewrite Z.land_ones by lia.
  by apply Z.mod_small.
Qed.

(** What [delete] leaves of a tuple. *)
Definition deleted_body (xid : Xid) (b : list Z) : list Z :=
  with_hint TH_XMIN TUPLE_HINT_XMIN_COMMITTED (splice b 8 (u64_to_le xid)).

Lemma deleted_body_seen xid b snap self : bytes b → 24 ≤ zlen b → 0 < xid < 2 ^ 56 → self ≠ xid →
  is_committed_at_snapshot snap xid = false →
  is_visible_hinted (xmin (header_of (deleted_body xid b))) (xmax (header_of (deleted_body xid b)))
    (hint_of TH_XMIN (deleted_body xid b)) (hint_of TH_XMAX (deleted_body xid b)) snap self = true.
Proof.
  intros Hb Hz Hx Hne Hc. set (b1 := splice b 8 (u64_to_le xid)).
  assert (zlen b1 = zlen b) as Hz1 by (unfold b1; len). assert (bytes b1) as Hb1 by (unfold b1; auto with unidb).
  assert (hint_of TH_XMAX (deleted_body xid b) = 0) as Hmax.
  { unfold deleted_body. fold b1. unfold hint_of, with_hint, TH_XMIN, TH_XMAX. rewrite rd_splice_out by len.
    apply xmax_hint_clear; lia. }
  assert (Z.land (hint_of TH_XMIN (deleted_body xid b)) TUPLE_HINT_XMIN_COMMITTED ≠ 0) as Hmin.
  { unfold deleted_body. fold b1. unfold hint_of, with_hint, TH_XMIN. set (v := Z.lor _ _).
    assert (rd (splice b1 (0 + 7) [v]) (0 + 7) 1 = v) as ->.
    { unfold rd. rewrite sub_splice_eq; [|lia|unfold zlen in *; simpl; lia|done]. simpl. lia. }
    unfold v, TUPLE_HINT_XMIN_COMMITTED. intros E%Z.bits_inj_iff. specialize (E 4).
    rewrite Z.land_spec, Z.lor_spec, Z.bits_0 in E. simpl in E. by rewrite orb_true_r in E. }
  unfold is_visible_hinted. rewrite decide_True by done. cbn [negb]. rewrite Hmax.
  rewrite (decide_False (P := Z.land 0 TUPLE_HINT_XMAX_COMMITTED ≠ 0)) by (by intros []).
  unfold deleted_body. fold b1. rewrite header_of_with_hint by (done || lia || by left).
  unfold b1. rewrite header_of_set_xmax, xid_masked by lia. simpl. rewrite !bool_decide_false, Hc by lia. done.
Qed.

(** The page a delete leaves. *)
Lemma delete_page n rid xid s s' p b : io_rec io = None → ready n s → 4 ≤ n → good_page s (ri_page rid) p →
  slot_ok (ri_slot rid) → slots p !! Z.to_nat (ri_slot rid) = Some (ALive b) →
  heap_delete io pio rid xid s = (Ok tt, s') →
  ∃ p', page_of s' (ri_page rid) = Some (data p') ∧ page_wf p' ∧
    slots p' = <[Z.to_nat (ri_slot rid) := ALive (deleted_body xid b)]> (slots p).
Proof.
  intros Hio Hr Hn Hg Hsl Hb E. unfold heap_delete in E. unfold slot_ok in Hsl.
  apply op_bind_Ok in E as (?&s0&E0&E). pose proof (lock_calm _ _ _ _ _ _ Hr E0) as C0.
  pose proof (calm_good _ _ _ _ _ _ C0 Hg) as Hg0. pose proof (calm_ready _ _ _ _ _ Hr C0) as Hr0.
  apply op_bind_Ok in E as (t&s1&E1&E). apply op_bind_Ok in E as (page&s2&E2&E).
  eapply begin_ran in E1 as (R1&Hmi&Htl&Hk1); [|done|exact Hr0|lia]. pose proof (ran_ready _ _ _ _ Hr0 R1) as Hr1.
  pose proof (Hk1 _ _ Hg0) as Hg1. pose proof (fetch_known io pio _ s1 (ri_page rid) p page s2 Hr1 (gp_mem _ _ _ Hg1) E2) as ->.
  destruct (fetch_good io pio _ _ _ _ _ Hr1 (ex_intro _ p Hg1) E2) as [R2 Hg2]. pose proof (ran_ready _ _ _ _ Hr1 R2) as Hr2.
  apply op_bind_Ok in E as (th&?&[= Eth <-]&E). case_decide.
  { unfold conflict in E. by do 2 apply op_bind_Ok in E as (?&?&_&E). }
  apply op_bind_Ok in E as (l&s3&E3&E). apply op_bind_Ok in E as (lsn&s4&(_&Ep4)%wal_op_run&E).
  eapply (fpi_ran io) in E3 as (_&Hg3&_); [|done|exact Hr2|lia|exact Hg2|done|done].
  apply op_bind_Ok in E as (p0&?&[= Ep0 <-]&E). apply op_bind_Ok in E as ([w p1]&?&[= Ep1 <-]&E).
  apply op_bind_Ok in E as (p2&?&[= Ep2 <-]&E). apply op_bind_Ok in E as (u&s5&E5&E).
  apply op_bind_Ok in E as (?&s6&(_&Es6&_)%unpin_shape&E). apply op_bind_Ok in E as (?&s7&(_&Ep7)%wal_op_run&[= <-]).
  pose proof Hg as [_ Hp Hid _]. pose proof (lookup_lt_Some _ _ _ Hb) as Hlt.
  pose proof (set_xmax_updates p (ri_slot rid) xid Hp ltac:(lia)) as U0. rewrite Ep0 in U0. unfold updates_slot in U0. rewrite Hb in U0.
  destruct U0 as (?&[= <-]&Hp0&[_ Hm0]&Hs0).
  pose proof (set_hint_updates TH_XMIN p0 (ri_slot rid) TUPLE_HINT_XMIN_COMMITTED Hp0 ltac:(lia)
    ltac:(unfold TH_XMIN; lia) ltac:(done)) as U1. unfold updates_slot in U1.
  rewrite Hs0, list_lookup_insert_eq in U1 by done. destruct U1 as (p1'&E1'&Hp1&[_ Hm1]&Hs1).
  unfold set_xmin_hint in Ep1. rewrite E1' in Ep1. injection Ep1 as _ <-.
  destruct (set_lsn_spec p1' lsn Hp1) as (p2'&E2'&Hp2&Hs2&_&Hid2&_). simpl in Ep2. rewrite Ep2 in E2'. injection E2' as <-.
  exists p2. apply store_mem in E5 as (_&_&Em); [|by apply wf_room]. split_and!; [|done|].
  - unfold page_of. rewrite Ep7. injection Es6 as -> _ _. rewrite Em, Hid2, Hm1, Hm0, Hid by lia.
    pose proof (gp_mem _ _ _ Hg3) as Hm3. unfold page_of in Hm3. rewrite Ep4.
    by rewrite page_at_insert, decide_True by (done || by eapply page_at_range).
  - by rewrite Hs2, Hs1, list_insert_insert_eq.
Qed.

(** C38: a delete shows the row to transactions that must not see it.  [delete] marks the inserter of the
    row it deletes as committed, also when the inserter is the deleting transaction itself or
    committed after another transaction's snapshot.  Until the delete commits, a scan of any other
    transaction then returns the row, whatever its snapshot says of the inserter, where a point read
    of the same row finds nothing. *)
Theorem delete_exposes_row n rid xid s s' p th body : io_rec io = None → ready n s → 4 ≤ n →
  good_page s (ri_page rid) p → slot_ok (ri_slot rid) → 0 < xid < 2 ^ 56 →
  tuple_header p (ri_slot rid) = Ok th → get p (ri_slot rid) = Ok body → hot_next th = HOT_NEXT_NONE →
  heap_delete io pio rid xid s = (Ok tt, s') →
  ∃ p', page_of s' (ri_page rid) = Some (data p') ∧
  ∀ read snap self, read (ri_page rid) = Ok p' → self ≠ xid → is_committed_at_snapshot snap xid = false →
    (∃ rows, heap_scan read [ri_page rid] snap self = Ok rows ∧ (rid, body) ∈ rows) ∧
    (xmin th ≠ self → is_committed_at_snapshot snap (xmin th) = false →
       heap_get read rid snap self = Err (NoVisibleVersion (ri_page rid) (ri_slot rid))).
Proof.
  intros Hio Hr Hn Hg Hsl Hx Hth Hbody Hnone E. pose proof Hsl as [Hs0 _]. pose proof (gp_wf _ _ _ Hg) as Hp.
  rewrite tuple_header_on_slot in Hth by done. rewrite get_on_slot in Hbody by done. unfold on_slot in *.
  destruct (slots p !! Z.to_nat (ri_slot rid)) as [[b| |]|] eqn:Hb; try done. injection Hth as <-. injection Hbody as <-.
  destruct (delete_page n rid xid s s' p b) as (p'&Hp'&Hw'&Hs'); try done. exists p'. split; [done|].
  intros read snap self Hread Hself Hc. destruct (live_body p _ b Hp Hb) as [Hbb Hbz].
  pose proof (lookup_lt_Some _ _ _ Hb) as Hlt.
  assert (slots p' !! Z.to_nat (ri_slot rid) = Some (ALive (deleted_body xid b))) as Hb'
    by (rewrite Hs'; by apply list_lookup_insert_eq).
  destruct (read_body p' (ri_slot rid) _ Hw' Hs0 Hb') as [Hg' Hth'].
  assert (payload_of (deleted_body xid b) = payload_of b) as Epay.
  { unfold deleted_body, with_hint. rewrite !payload_of_splice by (unfold TH_XMIN; len). done. }
  assert (header_of (deleted_body xid b) = header_of (splice b 8 (u64_to_le xid))) as Eh.
  { unfold deleted_body. apply header_of_with_hint; [auto with unidb|len|done|by left]. }
  split.
  - exists (concat (page_rows read snap self <$> [ri_page rid])).
    split; [apply heap_scan_rows; intros pid ->%list_elem_of_singleton; by exists p'|].
    rewrite fmap_cons. cbn [concat]. apply elem_of_app. left. unfold page_rows. rewrite Hread. apply elem_of_concat.
    exists (shown (ri_page rid) p' snap self (ri_slot rid)). split.
    + apply list_elem_of_fmap. exists (ri_slot rid). split; [done|]. apply elem_of_seqZ.
      pose proof (length_slots p' Hw'). apply lookup_lt_Some in Hb'. lia.
    + unfold shown. rewrite Hb', deleted_body_seen by done. rewrite Epay. destruct rid. by left.
  - intros Hne Hcm. unfold heap_get, get_visible, get_visible_cached.
    rewrite (proj1 (follow_cached_exact read _ rid snap self None ltac:(done))).
    destruct max_hops as [k ->]. cbn [follow]. rewrite Hread. cbn [mbind outcome_bind].
    rewrite is_live_slots, Hb' by done. cbn [mbind outcome_bind negb]. rewrite Hth'. cbn [mbind outcome_bind].
    rewrite Eh, header_of_set_xmax by lia. unfold is_visible at 1. cbn [xmin].
    rewrite bool_decide_false, Hcm by done. unfold next_version. cbn [orb negb hot_next]. by rewrite Hnone.
Qed.

End hints.

(** ** Batches and HOT chains *)

Lemma header_live p s th : page_wf p → 0 ≤ s → tuple_header p s = Ok th → is_live p s = Ok true.
Proof.
  intros Hp Hs E. rewrite is_live_slots by done. rewrite tuple_header_on_slot in E by done. unfold on_slot in E.
  by destruct (slots p !! Z.to_nat s) as [[]|].
Qed.

Lemma max_hops_3 : ∃ n, MAX_HOT_CHAIN_HOPS = S (S (S n)).
Proof. exists (Z.to_nat 999997). unfold MAX_HOT_CHAIN_HOPS. rewrite <- !Z2Nat.inj_succ by lia. done. Qed.

(** A version on the same page that forwards to [next]. *)
Definition forwards (p : SlottedPage) (snap : Snapshot) (self : Xid) (slot next : Z) : Prop :=
  ∃ th, tuple_header p slot = Ok th ∧ is_visible (xmin th) (xmax th) snap self = false ∧ hot_next th = next ∧
    next ≠ HOT_NEXT_XPAGE ∧ next ≠ HOT_NEXT_NONE.

(** Batched lookups miss rows.  After two HOT updates on the same page the index still points at the
    first version.  Resolving that entry on its own follows the chain to the visible version;
    resolving it in a batch follows one hop only and drops the row. *)
Theorem batch_misses_chain read p rid s1 s2 th body snap self :
  read (ri_page rid) = Ok p → page_wf p → 0 ≤ ri_slot rid < U16_MAX → 0 ≤ s1 → 0 ≤ s2 →
  forwards p snap self (ri_slot rid) s1 → forwards p snap self s1 s2 →
  tuple_header p s2 = Ok th → is_visible (xmin th) (xmax th) snap self = true → get p s2 = Ok body →
  get_visible_with_rid read rid snap self = Ok (Some (mkRowId (ri_page rid) s2, body)) ∧
  batch_resolve_candidates read [rid] snap self = Ok [].
Proof.
  intros Hr Hp Hs Hs1 Hs2 (th0&E0&V0&N0&X0&Z0) (th1&E1&V1&N1&X1&Z1) E2 V2 G2.
  pose proof (header_live _ _ _ Hp (proj1 Hs) E0) as L0. pose proof (header_live _ _ _ Hp Hs1 E1) as L1.
  pose proof (header_live _ _ _ Hp Hs2 E2) as L2. split.
  - unfold get_visible_with_rid. destruct max_hops_3 as [n ->]. cbn [follow].
    rewrite Hr. cbn [mbind outcome_bind]. rewrite L0. cbn [mbind outcome_bind negb]. rewrite E0.
    cbn [mbind outcome_bind]. rewrite V0. unfold next_version at 1. rewrite N0, decide_False, decide_True by done.
    cbn [ri_page ri_slot]. rewrite Hr. cbn [mbind outcome_bind]. rewrite L1. cbn [mbind outcome_bind negb].
    rewrite E1. cbn [mbind outcome_bind]. rewrite V1. unfold next_version at 1.
    rewrite N1, decide_False, decide_True by done. cbn [ri_page ri_slot]. rewrite Hr. cbn [mbind outcome_bind].
    rewrite L2. cbn [mbind outcome_bind negb]. rewrite E2. cbn [mbind outcome_bind]. by rewrite V2, G2.
  - unfold batch_resolve_candidates. cbn [groups for_each mbind outcome_bind]. unfold resolve_group.
    cbn [fst snd]. rewrite Hr. cbn [mbind outcome_bind for_each]. rewrite decide_False by lia.
    unfold resolve_candidate. rewrite L0. cbn [mbind outcome_bind negb]. rewrite E0. cbn [mbind outcome_bind].
    rewrite V0, N0, decide_False, decide_True by done. rewrite L1. cbn [mbind outcome_bind negb]. rewrite E1.
    cbn [mbind outcome_bind]. by rewrite V1.
Qed.

(** ** Concrete runs *)

#[local] Existing Instance sum_crc.
#[local] Existing Instance no_tree.

Lemma ready_le n m s : ready n s → m ≤ n → ready m s.
Proof. intros [Hw Hl Hm Ht] Hle. constructor; [done|lia|lia|done]. Qed.

Lemma acquire_terminates_witness : (acquire_page io_ok pio_ok w_heap 1 38 w_db0).1 ≠ Ok None ∧
  ∃ pid page s', acquire_page io_ok pio_ok w_heap 1 38 w_db0 = (Ok (Some (pid, page)), s') ∧
    free_space page = Ok 228.
Proof.
  destruct (acquire_terminates io_ok pio_ok w_heap 38 1 w_db0 w_plain) as [Hend _].
  - apply (ready_le 1000); [exact w_ready0|lia].
  - vm_compute. congruence.
  - vm_compute. lia.
  - split; [exact Hend|]. eexists _, _, _. split; vm_compute; reflexivity.
Defined.

Lemma oversized_row_never_inserted_witness :
  ¬ ∃ rid s', heap_insert io_ok pio_ok w_heap 200 (replicate 300 7) 5 w_db0 = (Ok (Some rid), s').
Proof.
  intros (rid&s'&E). revert E. apply (oversized_row_never_inserted io_ok pio_ok w_heap 200 (replicate 300 7) 5 w_db0 rid s' w_plain).
  - apply (ready_le 1000); [exact w_ready0|vm_compute; congruence].
  - intros pid Hin. by apply not_elem_of_nil in Hin.
  - split; [reflexivity|]. change (mem (d_pool w_db0)) with (replicate 3 (replicate 256 0)).
    apply Forall_replicate. reflexivity.
  - vm_compute. reflexivity.
Defined.

(** Transaction 5 inserts a row and deletes it; 9 runs meanwhile. *)
Definition w_gone : Db := Eval vm_compute in w_then (ODelete (mkRowId 0 0) 5) w_db1.
Definition w_seen_by : Snapshot := mkSnapshot 5 10 [5; 9].

Lemma delete_exposes_row_witness : ∃ rows,
  heap_scan (λ pid, read_page_locked (d_pool w_gone) pid true) [0] w_seen_by 9 = Ok rows ∧
  (mkRowId 0 0, [1; 2; 3]) ∈ rows.
Proof.
  destruct w_ready1 as [Hr _].
  destruct (delete_exposes_row io_ok pio_ok 900 (mkRowId 0 0) 5 w_db1 w_gone (w_page w_db1)
    (mkTupleHeader 5 0 INVALID_PAGE_ID 0 HOT_NEXT_NONE) [1; 2; 3]) as (p'&Hp'&Hread).
  - reflexivity.
  - exact Hr.
  - lia.
  - exact w_good1.
  - vm_compute. split; congruence.
  - lia.
  - vm_compute. reflexivity.
  - vm_compute. reflexivity.
  - reflexivity.
  - vm_compute. reflexivity.
  - destruct (Hread (λ pid, read_page_locked (d_pool w_gone) pid true) w_seen_by 9) as [Hscan _].
    + injection Hp' as Ep. destruct p' as [d]. simpl in Ep. subst d. vm_compute. reflexivity.
    + lia.
    + vm_compute. reflexivity.
    + exact Hscan.
Defined.

(** Two HOT updates of the same row. *)
Definition w_chain : Db := Eval vm_compute in w_then (OHotUpdate (mkRowId 0 1) [9] 7) w_db2.
Definition w_later : Snapshot := mkSnapshot 8 9 [8].

Lemma w_chain_wf : page_wf (w_page w_chain).
Proof.
  destruct w_ready1 as [Hr Hgs], w_runs2 as [H1 _].
  destruct (runs_ran io_ok pio_ok w_heap 3 900 [w_hot; OHotUpdate (mkRowId 0 1) [9] 7] w_db1 w_chain) as [R _].
  - exact w_plain.
  - exact Hr.
  - vm_compute. congruence.
  - exact Hgs.
  - inversion H1 as [|o os s s1 s' Ho E Hnil]; subst. inversion Hnil; subst.
    eapply runs_cons; [exact Ho|exact E|]. eapply runs_cons, runs_nil; [|vm_compute; reflexivity].
    split; [|split; [concrete_bytes|vm_compute; split; congruence]]. split; [left|]. vm_compute. split_and!; congruence.
  - destruct (ran_good _ _ _ 0 R (ex_intro _ _ w_good1)) as [p Hp].
    assert (w_page w_chain = p) as ->; [|apply Hp]. pose proof (gp_mem _ _ _ Hp) as E. unfold w_page. rewrite E. by destruct p.
Qed.

Lemma batch_misses_chain_witness :
  let read := λ pid, read_page_locked (d_pool w_chain) pid true in
  get_visible_with_rid read (mkRowId 0 0) w_later 8 = Ok (Some (mkRowId 0 2, [9])) ∧
  batch_resolve_candidates read [mkRowId 0 0] w_later 8 = Ok [].
Proof.
  intros read. apply (batch_misses_chain read (w_page w_chain) (mkRowId 0 0) 1 2
    (mkTupleHeader 7 0 0 1 HOT_NEXT_NONE) [9] w_later 8).
  - vm_compute. reflexivity.
  - exact w_chain_wf.
  - vm_compute. split; congruence.
  - lia.
  - lia.
  - exists (mkTupleHeader 5 6 INVALID_PAGE_ID 0 1). split; [vm_compute; reflexivity|]. vm_compute. split_and!; congruence.
  - exists (mkTupleHeader 6 7 0 0 2). split; [vm_compute; reflexivity|]. vm_compute. split_and!; congruence.
  - vm_compute. reflexivity.
  - vm_compute. reflexivity.
  - vm_compute. reflexivity.
Defined.

(** A file that cannot grow. *)
Definition pio_full : PoolCalls := mkPoolCalls (λ _, true) false.
Definition w_small0 : Db := Eval vm_compute in
  mkDb (BufferPool.open [replicate 256 0] 256 4) w_wal empty_table new_fsm.
Definition w_small1 : Db := Eval vm_compute in w_then (OInsert [1; 2; 3] 5) w_small0.
Definition w_failed : Result (option RowId) * Db := Eval vm_compute in
  heap_update io_ok pio_full w_heap 3 (mkRowId 0 0) (replicate 200 7) 6 w_small1.
(** Transaction 6 rolls back: it has no undo record of the update, and its locks go. *)
Definition w_rolled_back : Db := Eval vm_compute in
  mkDb (d_pool w_failed.2) (d_wal w_failed.2) (release_all (d_locks w_failed.2) 6) (d_fsm w_failed.2).

(** An update that fails for lack of space leaves its row unusable.  [update] stamps the old version
    before it looks for a page for the new one; when the file cannot grow it returns the error
    with the stamp in place and logged, and the caller has recorded nothing to undo.  After the
    rollback every later update or delete of the row is refused in the name of the finished
    transaction. *)
Theorem failed_update_blocks_row :
  w_failed.1 = Err Io ∧
  xmax <$> tuple_header (w_page w_rolled_back) 0 = Ok 6 ∧
  (heap_delete io_ok pio_ok (mkRowId 0 0) 8 w_rolled_back).1 = Err (WriteConflict 6) ∧
  (heap_update io_ok pio_ok w_heap 3 (mkRowId 0 0) [4] 8 w_rolled_back).1 = Err (WriteConflict 6).
Proof. vm_compute. split_and!; reflexivity. Qed.
