(* ===== verification/RecoveryProps.v ===== *)
(** Recovery's redo pass over the pool: it replays, page by page, the records of the
    committed mini-transactions. *)

From stdpp Require Import base numbers list gmap sets strings.
From S2P Require Import Prelude Format Page PageSpec PageOps PageCompact PageProps PageHints.
From S2P Require Import WalCodec Wal BufferPool BufferPoolProps Control Txn BTreeNode LogPayload.
From S2P Require Import Recovery HeapRead Heap RedoPage HeapLog.
Open Scope op_scope.

(** ** Resident pages are mapped *)

Definition mapped_frame (m : list (list Z)) (f : Frame) : Prop :=
  ∀ pid, fr_page f = Some pid → is_Some (page_at m pid).
Definition resident_mapped (p : BufferPool) : Prop := Forall (mapped_frame (mem p)) (frames p).

Section mapped.
Context `{!Crc32}.

Lemma alter_mapped g i p : (∀ f, fr_page (g f) = fr_page f) → resident_mapped p → resident_mapped (alter_frame g i p).
Proof.
  intros Hg Hp. unfold resident_mapped, alter_frame. simpl. apply Forall_alter; [done|].
  intros f Hf Hm pid. rewrite Hg. apply Hm.
Qed.
Lemma alter_resident_mapped g pid p : (∀ f, fr_page (g f) = fr_page f) → resident_mapped p →
  resident_mapped (alter_resident g pid p).
Proof. intros Hg Hp. unfold alter_resident. destruct (frame_index p !! pid); [by apply alter_mapped|done]. Qed.

Lemma read_found p pid b q : is_Some (page_at (mem p) pid) → read_page_locked p pid b ≠ Err (PageNotFound q).
Proof.
  intros [bs E]. unfold read_page_locked. rewrite E. destruct (all_zero bs); [done|]. destruct b; [|done].
  unfold from_bytes, verify_crc, compute_crc, page_id, read_u32, slice.
  repeat (case_decide; cbn [mbind outcome_bind]; try done).
Qed.

Lemma flush_found io pid l p r p' : resident_mapped p → is_Some (page_at (mem p) pid) →
  flush_locked io pid l p = (r, p') → resident_mapped p' ∧ ∀ q, r ≠ Err (PageNotFound q).
Proof.
  intros Hp Hm E. unfold flush_locked in E. destruct (flush_poisoned p); [by injection E as <- <-|].
  destruct (read_page_locked p pid false) as [page|e|] eqn:Er.
  2:{ injection E as <- <-. split; [done|]. intros q [= ->]. by eapply read_found in Er. }
  2:{ by injection E as <- <-. }
  destruct (lsn page) as [v| |] eqn:El; [|injection E as <- <-; split; [done|]|by injection E as <- <-].
  - case_decide; [by injection E as <- <-|]. destruct (flush_fault_armed p); [by injection E as <- <-|].
    destruct (pio_msync io pid); [|by injection E as <- <-]. injection E as <- <-. split; [|done].
    by apply alter_resident_mapped.
  - by intros q [= ->].
Qed.

Lemma sweep_found io fuel p r p' : resident_mapped p → clock_sweep io fuel p = (r, p') →
  resident_mapped p' ∧ ∀ q, r ≠ Err (PageNotFound q).
Proof.
  revert p. induction fuel as [|fuel IH]; intros p Hp E; [by injection E as <- <-|]. cbn [clock_sweep] in E. cbv zeta in E.
  set (p1 := set_frames p _ _ _) in E. assert (resident_mapped p1) as Hp1 by done.
  destruct (frames p1 !! _) as [f|] eqn:Hf; [|by injection E as <- <-].
  case_decide; [by eapply IH|]. destruct (clock_ref f); [eapply IH; [|exact E]; by apply alter_mapped|].
  destruct (dirty f); [|by injection E as <- <-]. destruct (fr_page f) as [pid|] eqn:Hpid; [|by injection E as <- <-].
  case_decide; [by eapply IH|]. pose proof (Forall_lookup_1 _ _ _ _ Hp1 Hf pid Hpid) as Hm.
  unfold op_bind in E. destruct (flush_locked io pid _ p1) as [r2 p2] eqn:E2.
  destruct (flush_found _ _ _ _ _ _ Hp1 Hm E2) as [Hp2 Hr2]. destruct r2 as [[]|e|]; injection E as <- <-; [done| |done].
  split; [done|]. intros q [= ->]. by apply (Hr2 q).
Qed.

Lemma fetch_found io pid p r p' : resident_mapped p → is_Some (page_at (mem p) pid) → fetch_page io pid p = (r, p') →
  resident_mapped p' ∧ ∀ q, r ≠ Err (PageNotFound q).
Proof.
  intros Hp Hm E. pose proof (fetch_same_mem io pid p) as Hs. rewrite E in Hs. simpl in Hs. apply same_mem_mem in Hs as Em.
  unfold fetch_page in E. destruct (frame_index p !! pid) as [i|].
  { injection E as <- <-. split; [by apply alter_mapped|]. intros q. by apply read_found. }
  unfold op_bind at 1 in E. destruct (find_victim io p) as [r1 p1] eqn:Ev.
  assert (resident_mapped p1 ∧ (∀ q, r1 ≠ Err (PageNotFound q)) ∧ mem p1 = mem p) as (Hp1&Hr1&Em1).
  { unfold find_victim in Ev. case_decide.
    - injection Ev as <- <-. split; [|done]. apply Forall_app_2; [done|]. apply Forall_singleton. by intros q.
    - pose proof (sweep_same_mem io (length (frames p) * 2) p) as Hs1. rewrite Ev in Hs1. apply same_mem_mem in Hs1.
      by destruct (sweep_found _ _ _ _ _ Hp Ev). }
  destruct r1 as [idx|e|]; [|injection E as <- <-; split; [done|]..]; [|congruence|done].
  injection E as <- <-. split; [|intros q; apply read_found; simpl; by rewrite Em1].
  unfold resident_mapped, load_frame. simpl. apply Forall_alter; [done|]. intros f _ _ q [= <-]. by rewrite Em1.
Qed.

End mapped.

(** ** Redo keeps pages intact *)

Section intact.
Context `{!Crc32}.
Variable sz : Z.

(** A heap page with its id, size and checksum. *)
Record intact (pid : PageId) (q : SlottedPage) : Prop := {
  it_wf : page_wf q;
  it_id : rd (data q) 0 4 = pid;
  it_size : zlen (data q) = sz;
  it_crc : verify_crc q = Ok tt;
}.

(** Images in a record are of intact pages. *)
Record redo_input (r : WalRecord) : Prop := {
  ri_bytes : bytes (w_redo r);
  ri_slot0 : 0 ≤ w_slot r;
  ri_image : w_rec_type r = WAL_FPI → intact (w_page_id r) (mkPage (w_redo r));
  ri_compacted : w_rec_type r = WAL_VACUUM → w_slot r = U16_MAX →
    page_wf (mkPage (w_redo r)) ∧ rd (w_redo r) 0 4 = w_page_id r ∧ zlen (w_redo r) = sz;
}.

#[local] Instance extends_refl_trans : Transitive extends.
Proof. intros p q r [] []. constructor; try done; try congruence; lia. Qed.
Lemma extends_refl p : page_wf p → extends p p.
Proof. intros Hp. by apply extends_meta. Qed.

Lemma lsn_intact l q1 q2 pid : page_wf q1 → rd (data q1) 0 4 = pid → zlen (data q1) = sz → set_lsn q1 l = Ok q2 →
  intact pid q2.
Proof.
  intros Hw Hid Hz E. destruct (set_lsn_spec q1 l Hw) as (q2'&E'&?&_&?&?&_&_&_&?). rewrite E in E'.
  injection E' as <-. constructor; [done|congruence|congruence|done].
Qed.

Lemma gated_intact r f q q' pid : intact pid q → (∀ q1, f q = Ok q1 → extends q q1) →
  lsn_gated r f q = Ok (Some q') → intact pid q'.
Proof.
  intros [Hw Hid Hz _] Hf E. unfold lsn_gated in E. rewrite lsn_wf in E by done. simpl in E. case_decide; [done|].
  destruct (f q) as [q1|e|] eqn:Ef; try done. simpl in E. destruct (set_lsn q1 (w_lsn r)) as [q2|e|] eqn:El; try done.
  injection E as <-. destruct (Hf q1 eq_refl) as [? _ ? ?]. eapply (lsn_intact _ q1); [done|congruence|congruence|done].
Qed.

(** *** Decoded fields *)

Lemma read_u16_nonneg buf off v : bytes buf → read_u16 buf off = Ok v → 0 ≤ v.
Proof.
  intros Hb. unfold read_u16, slice. case_decide; [|done]. intros [= <-].
  unfold u16_from_le. apply le_value_bounds. by apply Forall_sub.
Qed.

Lemma slice_bytes buf a b c : bytes buf → slice (E:=DbError) buf a b = Ok c → bytes c.
Proof. intros Hb. unfold slice. case_decide; [|done]. intros [= <-]. by apply Forall_sub. Qed.

Lemma read_slots_nonneg n buf base l : bytes buf → read_slots n buf base = Ok l → Forall (λ s, 0 ≤ s) l.
Proof.
  intros Hb. revert base l. induction n as [|n IH]; intros base l E; simpl in E; [by injection E as <-|].
  destruct (read_u16 buf base) as [s|e|] eqn:Es; try done. simpl in E.
  destruct (read_slots n buf (base + 2)) as [l'|e|] eqn:El; try done. injection E as <-.
  constructor; [by eapply read_u16_nonneg|by eapply IH].
Qed.

Lemma read_entries_nonneg n buf base l : bytes buf → read_entries n buf base = Ok l → Forall (λ e, 0 ≤ e.1.1) l.
Proof.
  intros Hb. revert base l. induction n as [|n IH]; intros base l E; simpl in E; [by injection E as <-|].
  destruct (read_u16 buf base) as [a|e|] eqn:Ea; try done. simpl in E.
  destruct (read_u32 buf (base + 2)) as [p|e|]; try done. simpl in E.
  destruct (read_u16 buf (base + 6)) as [b|e|]; try done. simpl in E.
  destruct (read_entries n buf (base + 8)) as [l'|e|] eqn:El; try done. injection E as <-.
  constructor; [by eapply read_u16_nonneg|by eapply IH].
Qed.

Lemma insert_rows_bytes n buf pos l : bytes buf → insert_rows n buf pos = Ok l → Forall (λ row, bytes row.2) l.
Proof.
  intros Hb. revert pos l. induction n as [|n IH]; intros pos l E; simpl in E; [by injection E as <-|].
  case_decide; [done|]. destruct (read_u16 buf pos) as [a|e|]; try done. simpl in E.
  destruct (read_u32 buf (pos + 2)) as [len|e|]; try done. simpl in E. case_decide; [done|].
  destruct (slice buf _ _) as [row|e|] eqn:Er; try done. simpl in E.
  destruct (insert_rows n buf _) as [l'|e|] eqn:El; try done. injection E as <-.
  constructor; [by eapply slice_bytes|by eapply IH].
Qed.

(** *** Changes of redo *)

Lemma set_xmax_extends q s x q1 : page_wf q → 0 ≤ s → set_xmax q s x = Ok q1 → extends q q1.
Proof. intros Hq Hs E. eapply extends_update. rewrite <- E. by apply set_xmax_updates. Qed.

Lemma unless_deleted_extends q0 q r q1 : extends q0 q → (∀ q1, r = Ok q1 → extends q q1) →
  unless_deleted q r = Ok q1 → extends q0 q1.
Proof.
  intros Hq Hr E. destruct r as [q'|[]|]; simpl in E; try done; injection E as <-; [|done].
  etrans; [exact Hq|]. by apply Hr.
Qed.

Lemma stamp_extends q s x q1 : page_wf q → 0 ≤ s → stamp q s x = Ok q1 → extends q q1.
Proof.
  intros Hq Hs E. eapply unless_deleted_extends; [by apply extends_refl| |exact E].
  intros q'. by apply set_xmax_extends.
Qed.

Lemma insert_from_extends q redo q1 : page_wf q → bytes redo → insert_from q redo = Ok q1 → extends q q1.
Proof.
  intros Hq Hb E. unfold insert_from in E. destruct (decode_insert_redo redo) as [[[xmin prev] payload]|e|] eqn:Ed; try done.
  simpl in E. destruct (insert_versioned q payload xmin 0 prev) as [[s q']|e|] eqn:Ei; try done. injection E as <-.
  eapply extends_insert; [done| |exact Ei]. unfold decode_insert_redo in Ed. case_decide; [done|].
  destruct (read_u64 redo 0), (read_u32 redo 8), (read_u16 redo 12); try done. simpl in Ed.
  destruct (slice redo 14 (zlen redo)) as [c|e|] eqn:Ec; try done. injection Ed as _ _ <-. by eapply slice_bytes.
Qed.

Lemma xpage_head_extends xid q e q1 : page_wf q → 0 ≤ e.1.1 → xpage_head xid q e = Ok q1 → extends q q1.
Proof.
  intros Hq Hs E. destruct e as [[old pid] new]. simpl in *. destruct (stamp q old xid) as [q'|e|] eqn:Es; try done. simpl in E.
  pose proof (stamp_extends _ _ _ _ Hq Hs Es) as X. eapply unless_deleted_extends; [exact X| |exact E].
  intros q2 E2. eapply extends_update. rewrite <- E2. apply set_hot_xpage_updates; [apply X|done].
Qed.

Lemma mark_dead_extends q s q1 : page_wf q → 0 ≤ s → mark_dead q s = Ok q1 → extends q q1.
Proof.
  intros Hq Hs E. pose proof (mark_dead_spec q s Hq Hs) as U. rewrite E in U.
  destruct (slots q !! Z.to_nat s) as [[]|]; try done.
  - destruct U as (?&[= <-]&?&?&_). by apply extends_meta.
  - injection U as ->. by apply extends_meta.
  - injection U as ->. by apply extends_meta.
Qed.

Lemma guarded_insert_extends q s redo q1 : page_wf q → bytes redo →
  (sc ← slot_count_pub q; if decide (sc ≤ s) then insert_from q redo else Ok q) = Ok q1 → extends q q1.
Proof.
  intros Hq Hb E. rewrite slot_count_eq with (p := q) in E by (by apply page_eq_refl). simpl in E.
  case_decide; [by eapply insert_from_extends|]. injection E as <-. by apply extends_refl.
Qed.

Lemma hot_update_extends xid old new redo q q1 : page_wf q → 0 ≤ old → bytes redo →
  (page ← stamp q old xid; page ← unless_deleted page (set_hot_next page old new);
   sc ← slot_count_pub page; if decide (sc ≤ new) then insert_from page redo else Ok page) = Ok q1 → extends q q1.
Proof.
  intros Hq Ho Hb E. destruct (stamp q old xid) as [q2|e|] eqn:E2; try done. cbn [mbind outcome_bind] in E.
  pose proof (stamp_extends _ _ _ _ Hq Ho E2) as X2.
  destruct (unless_deleted q2 _) as [q3|e|] eqn:E3; try done. cbn [mbind outcome_bind] in E.
  assert (extends q q3) as X3.
  { eapply unless_deleted_extends; [exact X2| |exact E3]. intros q4 E4. eapply extends_update. rewrite <- E4.
    apply set_hot_next_updates; [apply X2|done]. }
  etrans; [exact X3|]. eapply guarded_insert_extends; [apply X3|exact Hb|exact E].
Qed.

Lemma decode_hot_update_bytes buf d : bytes buf → decode_hot_update_redo buf = Ok d → 0 ≤ d.1.1.2 ∧ bytes d.2.
Proof.
  intros Hb E. unfold decode_hot_update_redo in E. case_decide; [done|].
  destruct (read_u64 buf 0), (read_u16 buf 8) as [o|?|] eqn:Eo, (read_u16 buf 10); try done. cbn [mbind outcome_bind] in E.
  destruct (slice buf 12 (zlen buf)) as [c|e|] eqn:Ec; try done. injection E as <-.
  split; [by eapply read_u16_nonneg|by eapply slice_bytes].
Qed.

(** Redo of a record leaves its page intact. *)
Lemma redo_intact r q q' : intact (w_page_id r) q → redo_input r → page_redo r q = Ok (Some q') →
  intact (w_page_id r) q'.
Proof.
  intros Hq [Hb Hs Himg Hcomp] E. pose proof Hq as [Hw Hid Hz _]. unfold page_redo in E.
  repeat case_decide; try done.
  - injection E as <-. by apply Himg.
  - unfold redo_insert_page in E. rewrite (slot_count_eq q q) in E by (by apply page_eq_refl). simpl in E. case_decide; [done|].
    destruct (insert_from q (w_redo r)) as [q1|e|] eqn:Ei; try done. simpl in E.
    destruct (set_lsn q1 (w_lsn r)) as [q2|e|] eqn:El; try done. injection E as <-.
    destruct (insert_from_extends _ _ _ Hw Hb Ei) as [? _ ? ?]. eapply lsn_intact; [..|exact El]; congruence || done.
  - eapply gated_intact; [done| |exact E]. intros q1 E1. destruct (decode_xmax (w_redo r)) as [x|e|]; try done.
    by eapply set_xmax_extends.
  - eapply gated_intact; [done| |exact E]. intros q1 E1. eapply extends_update. rewrite <- E1.
    by apply delete_updates.
  - unfold redo_vacuum_page, lsn_gated in E. rewrite lsn_wf in E by done. simpl in E. case_decide; [done|]. case_decide.
    + destruct Hcomp as (?&?&?); [done..|]. simpl in E.
      destruct (set_lsn _ (w_lsn r)) as [q2|e|] eqn:El; try done. injection E as <-. by eapply lsn_intact; [..|exact El].
    + destruct (mark_dead q (w_slot r)) as [q1|e|] eqn:Em; try done. simpl in E.
      destruct (set_lsn q1 (w_lsn r)) as [q2|e|] eqn:El; try done. injection E as <-.
      destruct (mark_dead_extends _ _ _ Hw Hs Em) as [? _ ? ?]. eapply lsn_intact; [..|exact El]; congruence || done.
  - destruct (decode_xmax_batch_redo (w_redo r)) as [[xid l]|e|] eqn:Ed; try done. cbn [mbind outcome_bind fst snd] in E.
    eapply gated_intact; [done| |exact E]. intros q1. apply (extends_for_each _ (λ s, 0 ≤ s)); [|done|].
    + intros p a p' Hp Ha. by apply stamp_extends.
    + unfold decode_xmax_batch_redo in Ed. case_decide; [done|]. destruct (read_u64 _ _), (read_u16 _ _); try done.
      cbn [mbind outcome_bind] in Ed. case_decide; [done|].
      destruct (read_slots _ _ _) as [l'|e|] eqn:El; try done. injection Ed as _ <-. by eapply read_slots_nonneg.
  - destruct (read_u64 (w_redo r) 0) as [xid|e|], (read_u16 (w_redo r) 8) as [old|e'|] eqn:Eo; try done.
    cbn [mbind outcome_bind] in E. destruct (read_u32 (w_redo r) 10), (read_u16 (w_redo r) 14); try done.
    eapply gated_intact; [done| |exact E]. intros q1. apply xpage_head_extends; [done|by eapply read_u16_nonneg].
  - destruct (decode_hot_update_redo (w_redo r)) as [[[[xid old] new] redo]|e|] eqn:Ed; try done.
    destruct (decode_hot_update_bytes _ _ Hb Ed) as [Ho Hr]. eapply gated_intact; [done| |exact E].
    intros q1. by apply hot_update_extends.
  - destruct (decode_insert_batch_redo (w_redo r)) as [rows|e|] eqn:Ed; try done. cbn [mbind outcome_bind] in E.
    eapply gated_intact; [done| |exact E]. intros q1. apply (extends_for_each _ (λ row, bytes row.2)); [|done|].
    + intros p row p' Hp Hrow. by apply guarded_insert_extends.
    + unfold decode_insert_batch_redo in Ed. case_decide; [done|]. destruct (read_u16 _ _); try done.
      by eapply insert_rows_bytes.
  - destruct (decode_hot_xpage_batch_redo (w_redo r)) as [[xid es]|e|] eqn:Ed; try done. cbn [mbind outcome_bind fst snd] in E.
    eapply gated_intact; [done| |exact E]. intros q1. apply (extends_for_each _ (λ e, 0 ≤ e.1.1)); [|done|].
    + intros p a p' Hp Ha. by apply xpage_head_extends.
    + unfold decode_hot_xpage_batch_redo in Ed. case_decide; [done|]. destruct (read_u64 _ _), (read_u16 _ _); try done.
      cbn [mbind outcome_bind] in Ed. case_decide; [done|].
      destruct (read_entries _ _ _) as [l'|e|] eqn:El; try done. injection Ed as _ <-. by eapply read_entries_nonneg.
Qed.

End intact.

(** ** The pass *)

Section pass.
Context `{!Crc32}.
Variable io : PoolCalls.
Variable page_size : Z.
Variable sz : Z.

Lemma write_page_run q pid p u p' : intact sz pid q → write_page q p = (Ok u, p') →
  mem p' = <[Z.to_nat pid := data q]> (mem p) ∧ (resident_mapped p → resident_mapped p').
Proof.
  intros [Hw Hid Hz _] E. pose proof (wf_room q Hw). unfold write_page in E. rewrite page_id_Ok, lsn_Ok, Hid in E by lia.
  unfold map_write in E. case_decide as Hd; [|done]. injection E as _ <-. split.
  - unfold alter_resident. by destruct (frame_index _ !! _).
  - intros Hp. apply alter_resident_mapped; [done|]. eapply Forall_impl; [exact Hp|]. intros f Hf q' Hq'. simpl.
    rewrite page_at_insert by apply Hd. case_decide; [done|by apply Hf].
Qed.

(** A page that is written, or left as it is. *)
Lemma on_page_run pid f p q u p' : resident_mapped p → page_at (mem p) pid = Some (data q) → intact sz pid q →
  (∀ q', f q = Ok (Some q') → intact sz pid q') → on_page io page_size pid f p = (Ok u, p') →
  resident_mapped p' ∧ ∃ o, f q = Ok o ∧ mem p' = <[Z.to_nat pid := data (default q o)]> (mem p).
Proof.
  intros Hp Hq Hi Hf E. unfold on_page in E. apply op_bind_Ok in E as (page&p1&E1&E). unfold fetch_or_create in E1.
  destruct (fetch_page io pid p) as [r p2] eqn:E2.
  destruct (fetch_found io pid p r p2 Hp (ex_intro _ _ Hq) E2) as [Hp2 Hr].
  destruct r as [pg|e|]; [|exfalso; destruct e; naive_solver|done].
  apply fetch_page_mem in E2 as [Hm2%same_mem_mem Hpg]. assert (pg = q) as -> by (destruct pg, q; simpl in *; congruence).
  unfold torn in E1. rewrite (it_crc _ _ _ Hi) in E1. injection E1 as <- <-.
  apply op_bind_Ok in E as (o&?&[= Eo <-]&E).
  assert (∀ p0 u p', unpin pid p0 = (Ok u, p') → resident_mapped p0 → mem p' = mem p0 ∧ resident_mapped p') as Hun.
  { intros p0 u0 p3 [= _ <-] Hp0. split; [unfold alter_resident; by destruct (frame_index _ !! _)|by apply alter_resident_mapped]. }
  destruct o as [q'|].
  - apply op_bind_Ok in E as (?&p3&E3&E). destruct (write_page_run q' pid p2 _ p3 (Hf q' Eo) E3) as [Hm3 Hp3].
    destruct (Hun _ _ _ E (Hp3 Hp2)) as [-> Hp4]. split; [done|]. exists (Some q'). split; [done|]. by rewrite Hm3, Hm2.
  - destruct (Hun _ _ _ E Hp2) as [-> Hp4]. split; [done|]. exists None. split; [done|]. rewrite Hm2. simpl.
    symmetry. apply list_insert_id. unfold page_at in Hq. by case_decide.
Qed.

(** The records of heap pages. *)
Definition heap_record (r : WalRecord) : Prop :=
  w_rec_type r ∈ [WAL_FPI; WAL_INSERT; WAL_UPDATE; WAL_DELETE; WAL_VACUUM; WAL_XMAX_BATCH; WAL_HOT_XPAGE_HEAD;
                  WAL_HOT_UPDATE; WAL_INSERT_BATCH; WAL_HOT_XPAGE_BATCH] ∧
  (w_rec_type r = WAL_INSERT → w_slot r ≠ U16_MAX).

Lemma restore_run pid image p u p' : is_Some (page_at (mem p) pid) → restore_page_image io pid image p = (Ok u, p') →
  mem p' = <[Z.to_nat pid := image]> (mem p) ∧ (resident_mapped p → resident_mapped p').
Proof.
  intros [bs Hb] E. pose proof (page_at_range _ _ _ Hb) as Hr. unfold restore_page_image in E. case_decide; [done|].
  apply op_bind_Ok in E as ([]&p1&E1&E). unfold ensure_mapped in E1. rewrite decide_True in E1 by (unfold mapped_pages; lia).
  injection E1 as <-. apply op_bind_Ok in E as (?&p2&[= _ <-]&E).
  set (p2 := bump_page_count pid p) in E. assert (mem p2 = mem p ∧ frames p2 = frames p) as [Em Ef].
  { unfold p2, bump_page_count. by case_decide. }
  unfold map_write in E. case_decide as Hd; [|done]. injection E as _ <-. split.
  - unfold alter_resident. by destruct (frame_index _ !! _); simpl; rewrite Em.
  - intros Hp. apply alter_resident_mapped; [done|]. unfold resident_mapped in *. simpl. rewrite Ef, Em.
    eapply Forall_impl; [exact Hp|]. intros f Hf q' Hq'. rewrite page_at_insert by done. case_decide; [done|by apply Hf].
Qed.

(** Decide the type of a record, in a hypothesis and in the goal. *)
Ltac dispatch H E :=
  rewrite H in E; rewrite ?H;
  repeat (first [rewrite decide_True in E by done | rewrite decide_False in E by done]; cbn iota in E);
  repeat (first [rewrite decide_True by done | rewrite decide_False by done]; cbn iota).

Lemma redo_on_page r p u p' : heap_record r → w_rec_type r ≠ WAL_FPI → redo_record io page_size r p = (Ok u, p') →
  ∃ f, on_page io page_size (w_page_id r) f p = (Ok u, p') ∧ ∀ q, page_redo r q = f q.
Proof.
  intros [Hty Hs] Hne E. unfold redo_record in E. unfold page_redo. rewrite !elem_of_cons, elem_of_nil in Hty.
  destruct Hty as [?|[Hty|[Hty|[Hty|[Hty|[Hty|[Hty|[Hty|[Hty|[Hty|[]]]]]]]]]]]; [done|dispatch Hty E..].
  - unfold redo_insert in E. rewrite decide_False in E by auto. by exists (redo_insert_page r).
  - by exists (redo_update_page r).
  - by exists (redo_delete_page r).
  - by exists (redo_vacuum_page r).
  - unfold redo_xmax_batch in E. apply op_bind_Ok in E as (d&?&[= Ed <-]&E).
    exists (redo_xmax_batch_page r d.1 d.2). by rewrite Ed.
  - unfold redo_hot_xpage_head in E. case_decide; [done|]. apply op_bind_Ok in E as (xid&?&[= E1 <-]&E).
    apply op_bind_Ok in E as (old&?&[= E2 <-]&E). apply op_bind_Ok in E as (np&?&[= E3 <-]&E).
    apply op_bind_Ok in E as (ns&?&[= E4 <-]&E). exists (redo_hot_xpage_head_page r xid (old, np, ns)).
    by rewrite E1, E2, E3, E4.
  - unfold redo_hot_update in E. apply op_bind_Ok in E as ([[[xid old] new] redo]&?&[= Ed <-]&E).
    exists (redo_hot_update_page r xid old new redo). by rewrite Ed.
  - unfold redo_insert_batch in E. apply op_bind_Ok in E as (rows&?&[= Ed <-]&E).
    exists (redo_insert_batch_page r rows). by rewrite Ed.
  - unfold redo_hot_xpage_batch in E. apply op_bind_Ok in E as (d&?&[= Ed <-]&E).
    exists (redo_hot_xpage_batch_page r d.1 d.2). by rewrite Ed.
Qed.

(** Redo of a record is [replay] on its page. *)
Lemma redo_record_run r p q u p' : resident_mapped p → page_at (mem p) (w_page_id r) = Some (data q) →
  intact sz (w_page_id r) q → redo_input sz r → heap_record r → redo_record io page_size r p = (Ok u, p') →
  resident_mapped p' ∧ mem p' = <[Z.to_nat (w_page_id r) := data (replay q r)]> (mem p) ∧ intact sz (w_page_id r) (replay q r).
Proof.
  intros Hp Hq Hi Hin Hr E.
  assert (intact sz (w_page_id r) (replay q r)) as Hi'.
  { unfold replay. destruct (page_redo r q) as [[q'|]| |] eqn:Er; try done. by eapply redo_intact. }
  destruct (decide (w_rec_type r = WAL_FPI)) as [Hf|Hf].
  - assert (replay q r = mkPage (w_redo r)) as Erep by (unfold replay, page_redo; by rewrite Hf, decide_True).
    unfold redo_record in E. rewrite decide_True in E by done. unfold redo_fpi in E.
    apply restore_run in E as [Em Hm]; [|by eexists]. rewrite Erep. split; [auto|]. split; [done|]. by rewrite <- Erep.
  - destruct (redo_on_page r p u p' Hr Hf E) as (f&Eo&Efq).
    destruct (on_page_run (w_page_id r) f p q u p') as (Hp'&o&Eq&Em); try done.
    { intros q' Eq. apply (redo_intact sz r q); [done|done|]. by rewrite Efq. }
    split; [done|]. split; [|done]. rewrite Em. do 2 f_equal. unfold replay. rewrite Efq, Eq. by destruct o.
Qed.

Definition counts (l : list WalRecord) : op BufferPool Z := tally (λ r, attempt (redo_record io page_size r)) l.

Lemma counts_le l p n p' : counts l p = (Ok n, p') → 0 ≤ n ≤ zlen l.
Proof.
  revert p n. unfold counts, zlen. induction l as [|r l IH]; intros p n E; [injection E as <- <-; simpl; lia|].
  cbn [tally] in E. apply op_bind_Ok in E as (a&p1&E1&E). apply op_bind_Ok in E as (b&p2&E2&[= <- <-]).
  specialize (IH _ _ E2). unfold attempt in E1. destruct (redo_record io page_size r p) as [[]?]; try done;
    injection E1 as <- <-; simpl length; lia.
Qed.

(** When every record counts, every record was redone. *)
Lemma counts_all r l p p' : counts (r :: l) p = (Ok (zlen (r :: l)), p') →
  ∃ u p1, redo_record io page_size r p = (Ok u, p1) ∧ counts l p1 = (Ok (zlen l), p').
Proof.
  intros E. unfold counts in E. cbn [tally] in E. apply op_bind_Ok in E as (a&p1&E1&E).
  apply op_bind_Ok in E as (b&p2&E2&[= Hn <-]). pose proof (counts_le _ _ _ _ E2) as Hb. unfold zlen in *. simpl length in Hn.
  unfold attempt in E1. destruct (redo_record io page_size r p) as [[u| |] p0] eqn:Er; try done; injection E1 as <- <-; [|lia].
  exists u, p0. split; [done|]. unfold counts. rewrite E2. do 2 f_equal. lia.
Qed.

Lemma counts_replay l p p' : resident_mapped p → Forall (λ r, redo_input sz r ∧ heap_record r) l →
  (∀ r, r ∈ l → ∃ q, page_at (mem p) (w_page_id r) = Some (data q) ∧ intact sz (w_page_id r) q) →
  counts l p = (Ok (zlen l), p') →
  ∀ pid q, page_at (mem p) pid = Some (data q) →
    page_at (mem p') pid = Some (data (foldl replay q (filter (λ r, w_page_id r = pid) l))).
Proof.
  intros Hp Hl. revert p Hp. induction Hl as [|r l [Hin Hr] Hl IH]; intros p Hp Hpages E pid q Hq.
  { injection E as <-. done. }
  apply counts_all in E as (u&p1&E1&E). destruct (Hpages r) as (q0&Hq0&Hi0); [left|].
  destruct (redo_record_run r p q0 u p1) as (Hp1&Em&Hi1); try done. pose proof (page_at_range _ _ _ Hq0) as Hrange.
  assert (∀ x, page_at (mem p1) x = if decide (x = w_page_id r) then Some (data (replay q0 r)) else page_at (mem p) x) as Hat.
  { intros x. rewrite Em. by apply page_at_insert. }
  assert (∀ r', r' ∈ l → ∃ q, page_at (mem p1) (w_page_id r') = Some (data q) ∧ intact sz (w_page_id r') q) as Hpages1.
  { intros r' Hr'. rewrite Hat. case_decide as Hd; [exists (replay q0 r); by rewrite Hd|]. apply Hpages. by right. }
  destruct (decide (w_page_id r = pid)) as [<-|Hne].
  - rewrite filter_cons_True by done. simpl. assert (q = q0) as -> by (destruct q, q0; simpl in *; congruence).
    apply (IH p1); [done|done|done|]. by rewrite Hat, decide_True.
  - rewrite filter_cons_False by done. apply (IH p1); [done|done|done|]. by rewrite Hat, decide_False by done.
Qed.

(** C3: the redo pass of recovery brings every page up to date.  Let the pass report that it
    redid every record of the committed mini-transactions; let all these records be heap records
    (page images, inserts other than page allocations, stamps, deletes, vacuum, batches and HOT
    updates, no index records) whose fields fit their widths, about pages that the data file
    holds intact, with intact page images.  For a page whose history is the records about it, in
    which every insert took a new line pointer, and of which the data file holds the state at any
    point of that history up to hint bits, the pass leaves the page as it was at the end of the
    history: the same rows, headers, line pointers and LSN. *)
Theorem redo_pass_repeats rs p p' :
  let todo := filter (λ r, is_control (w_rec_type r) = false ∧ w_mini_txn_id r ∈ committed_minis rs) rs in
  resident_mapped p → Forall (λ r, redo_input sz r ∧ heap_record r) todo →
  (∀ r, r ∈ todo → ∃ q, page_at (mem p) (w_page_id r) = Some (data q) ∧ intact sz (w_page_id r) q) →
  redo_pass io page_size rs p = (Ok (zlen todo), p') →
  ∀ pid p0 rs1 pk rs2 pn q, filter (λ r, w_page_id r = pid) todo = rs1 ++ rs2 →
    page_wf p0 → history fresh_slot p0 rs1 pk → history fresh_slot pk rs2 pn →
    page_at (mem p) pid = Some (data q) → page_eq q pk →
    ∃ q', page_at (mem p') pid = Some (data q') ∧ page_wf q' ∧ lsn q' = lsn pn ∧
      slot_count_pub q' = slot_count_pub pn ∧
      ∀ s, 0 ≤ s → tuple_header q' s = tuple_header pn s ∧ get q' s = get pn s ∧ slot_state q' s = slot_state pn s.
Proof.
  intros todo Hp Hl Hpages E pid p0 rs1 pk rs2 pn q Hmine Hp0 H1 H2 Hq Eq.
  exists (foldl replay q (filter (λ r, w_page_id r = pid) todo)). split; [by eapply counts_replay|].
  rewrite Hmine. pose proof (replay_from p0 rs1 pk rs2 pn q Hp0 H1 H2 Eq) as En.
  split; [apply En|]. rewrite !lsn_wf by apply En. rewrite (pe_lsn _ _ En). split; [done|].
  rewrite (slot_count_eq _ _ En). split; [symmetry; apply slot_count_Ok, wf_room, En|].
  intros s Hs. by apply page_eq_reads.
Qed.

End pass.

(** ** Witness *)

#[local] Existing Instance sum_crc.

(** Page 7 on file, and a committed stamp of its row in the log. *)
Definition w_file : list (list Z) := replicate 7 (replicate 128 0) ++ [data w_one].
Definition w_logged : list WalRecord :=
  [mkRecord 2 0 2 WAL_BEGIN 0 0 [] []; w_upd; mkRecord 4 3 2 WAL_COMMIT 0 0 [] []].

Lemma redo_pass_repeats_witness : ∃ q',
  page_at (mem (redo_pass pio_ok 128 w_logged (BufferPool.open w_file 128 4)).2) 7 = Some (data q') ∧
  xmax <$> tuple_header q' 0 = Ok 6 ∧ get q' 0 = Ok [1; 2].
Proof.
  assert (intact 128 7 w_one) as Hi.
  { constructor; [exact w_one_wf|vm_compute; reflexivity|vm_compute; reflexivity|vm_compute; reflexivity]. }
  assert (filter (λ r, is_control (w_rec_type r) = false ∧ w_mini_txn_id r ∈ committed_minis w_logged) w_logged = [w_upd])
    as Etodo by (vm_compute; reflexivity).
  destruct (redo_pass_repeats pio_ok 128 128 w_logged (BufferPool.open w_file 128 4)
    (redo_pass pio_ok 128 w_logged (BufferPool.open w_file 128 4)).2) with
    (pid := 7) (p0 := w_one) (rs1 := @nil WalRecord) (pk := w_one) (rs2 := [w_upd]) (pn := w_two) (q := w_one)
    as (q'&Hq'&_&_&_&Hread).
  - vm_compute. repeat constructor; discriminate.
  - rewrite Etodo. apply Forall_singleton. split.
    + constructor; [apply bytes_u64_to_le|vm_compute; discriminate|discriminate|discriminate].
    + split; [apply (bool_decide_unpack _); vm_compute; exact I|discriminate].
  - rewrite Etodo. intros r ->%list_elem_of_singleton. exists w_one. split; [vm_compute; reflexivity|exact Hi].
  - rewrite Etodo. vm_compute. reflexivity.
  - rewrite Etodo. reflexivity.
  - exact w_one_wf.
  - apply hist_nil.
  - exact w_history2.
  - vm_compute. reflexivity.
  - apply page_eq_refl, w_one_wf.
  - exists q'. split; [exact Hq'|]. destruct (Hread 0) as (Eth&Eg&_); [lia|].
    split; [etrans; [apply (f_equal (fmap xmax)), Eth|]|etrans; [exact Eg|]]; vm_compute; reflexivity.
Defined.
