(* ===== verification/BTree.v ===== *)
(** The durable B+tree ([src/btree_index.rs]): descents, searches along the leaf
    chain, insertion with splits, in-place updates and removal.

    A reader works on the pool, a writer on the pool and the log.  Page latches are
    not part of the state: an operation runs from start to end on its own.  Of the
    latch coupling of an insertion the model keeps what decides its result, the
    stack of retained nodes and whether the meta page's latch is still held.

    A descent and a walk along the leaf chain go on until they meet a leaf or its
    end.  They take a number of steps, and an operation that is still on its way
    after them returns [None]. *)

From stdpp Require Import base numbers list gmap strings.
From S2P Require Import Prelude Format Page LockMgr Txn WalCodec Wal BufferPool BTreeNode.
Open Scope op_scope.

Notation "x <-? m ;; k" := (op_bind (λ o, match o with Some x => k | None => op_ret None end) m)
  (at level 100, m at next level, right associativity) : op_scope.

Inductive RangeOp := RLt | RLe | RGt | RGe.

(** Comparison operators of a query ([CmpOp] of [src/sql/logical.rs]). *)
Inductive CmpOp := CEq | CNe | CLt | CLe | CGt | CGe.

Record DiskBTree := mkTree { meta_page : PageId; bt_page_size : Z }.

(** ** Order *)

(** The derived [Ord::cmp]. *)
Definition ov_cmp (a b : OrderedValue) : comparison :=
  if ov_lt a b then Lt else if ov_lt b a then Gt else Eq.

Definition z_cmp (a b : Z) : comparison := (a ?= b)%Z.

Definition rid_cmp (a b : RowId) : comparison :=
  match z_cmp (ri_page a) (ri_page b) with
  | Eq => z_cmp (ri_slot a) (ri_slot b)
  | c => c
  end.

(** [(key, rowid_key(rid)).cmp(..)] *)
Definition entry_cmp (a b : OrderedValue * RowId) : comparison :=
  match ov_cmp a.1 b.1 with
  | Eq => rid_cmp a.2 b.2
  | c => c
  end.

(** [slice::binary_search_by]: the loop halves [size] until one element is left.
    [inl] is [Ok], [inr] is [Err]. *)
Fixpoint bsearch_loop {A} (fuel : nat) (f : A → comparison) (l : list A) (base size : nat) : nat :=
  match fuel with
  | O => base
  | S fuel =>
      if decide (1 < size)%nat then
        let half := (size / 2)%nat in
        let mid := (base + half)%nat in
        let base := match f <$> l !! mid with
                    | Some Gt | None => base
                    | _ => mid
                    end in
        bsearch_loop fuel f l base (size - half)
      else base
  end.

Definition binary_search_by {A} (f : A → comparison) (l : list A) : nat + nat :=
  let base := bsearch_loop (length l) f l 0 (length l) in
  match f <$> l !! base with
  | Some Eq => inl base
  | Some Lt => inr (S base)
  | Some Gt => inr base
  | None => inr 0%nat
  end.

(** [children[idx]] *)
Definition child_at (children : list PageId) (idx : nat) : Result PageId :=
  match children !! idx with Some c => Ok c | None => Panic end.

(** What a scan does with a key: take the entry, pass over it, or stop. *)
Inductive Verdict := Take | Skip | Stop.

Definition eq_verdict (value k : OrderedValue) : Verdict :=
  match ov_cmp k value with
  | Lt => Skip
  | Eq => Take
  | Gt => Stop
  end.

Definition admits (o : RangeOp) (value k : OrderedValue) : bool :=
  match o with
  | RLt => ov_lt k value
  | RLe => negb (ov_lt value k)
  | RGt => ov_lt value k
  | RGe => negb (ov_lt k value)
  end.

Definition range_verdict (o : RangeOp) (value k : OrderedValue) : Verdict :=
  if admits o value k then Take
  else match o with
       | RLt | RLe => if ov_lt k value then Skip else Stop
       | RGt | RGe => Skip
       end.

(** The entries of one leaf, appended to [out] by [push]; [full] is the test of a
    limited scan.  The flag tells that the scan is over. *)
Fixpoint scan_leaf {A} (verdict : OrderedValue → Verdict)
    (push : OrderedValue → RowId → list Z → A → A) (full : A → bool)
    (entries : list (OrderedValue * RowId)) (incs : list (list Z)) (out : A) : A * bool :=
  match entries with
  | [] => (out, false)
  | (k, rid) :: entries =>
      match verdict k with
      | Take =>
          let out := push k rid (include_at incs 0) out in
          if full out then (out, true) else scan_leaf verdict push full entries (tail incs) out
      | Skip => scan_leaf verdict push full entries (tail incs) out
      | Stop => (out, true)
      end
  end.

Definition push_rid (k : OrderedValue) (rid : RowId) (inc : list Z) (out : list RowId) : list RowId :=
  out ++ [rid].
Definition push_key (k : OrderedValue) (rid : RowId) (inc : list Z) (out : list (OrderedValue * RowId)) :=
  out ++ [(k, rid)].
Definition push_include (k : OrderedValue) (rid : RowId) (inc : list Z)
    (out : list (OrderedValue * list Z * RowId)) :=
  out ++ [(k, inc, rid)].
Definition unlimited {A} (out : A) : bool := false.

Section btree.
Context `{!Crc32}.

Variable io : Calls.
Variable pio : PoolCalls.

(** ** Reads *)

Definition read_node (pid : PageId) : op BufferPool Node :=
  page <- fetch_page pio pid;;
  node <- lift (deserialize page);;
  unpin pid;;
  op_ret node.

(** The root that a meta page names. *)
Definition meta_root (msg : string) (page : SlottedPage) : Result PageId :=
  body ← slice (data page) PAGE_HEADER_SIZE (zlen (data page));
  match head body with
  | Some tag => if decide (tag = NODE_META) then read_u32 body 1 else Err (Recovery msg)
  | None => Err (Recovery msg)
  end.

Definition root_page (bt : DiskBTree) : op BufferPool PageId :=
  page <- fetch_page pio (meta_page bt);;
  match meta_root "B+tree meta page is not a meta node" page with
  | Ok root => unpin (meta_page bt);; op_ret root
  | Err e => unpin (meta_page bt);; fail e
  | Panic => lift Panic
  end.

(** Descend from a page to a leaf, by a choice of child at each internal node. *)
Fixpoint descend (fuel : nat) (pick : list OrderedValue → list PageId → Result PageId) (pid : PageId)
    : op BufferPool (option PageId) :=
  match fuel with
  | O => op_ret None
  | S fuel =>
      node <- read_node pid;;
      match node with
      | Leaf _ _ _ => op_ret (Some pid)
      | Internal keys children =>
          pid <- lift (pick keys children);;
          descend fuel pick pid
      end
  end.

(** The first separator that is not below the key. *)
Fixpoint route_find_child (keys : list OrderedValue) (key : OrderedValue) : nat :=
  match keys with
  | [] => 0
  | k :: keys => if negb (ov_lt k key) then 0 else S (route_find_child keys key)
  end.

Definition find_leaf (fuel : nat) (bt : DiskBTree) (key : OrderedValue) : op BufferPool (option PageId) :=
  root <- root_page bt;;
  descend fuel (λ keys children, child_at children (route_find_child keys key)) root.

Definition leftmost_leaf (fuel : nat) (bt : DiskBTree) : op BufferPool (option PageId) :=
  root <- root_page bt;;
  descend fuel (λ _ children, child_at children 0) root.

Definition rightmost_leaf (fuel : nat) (bt : DiskBTree) : op BufferPool (option PageId) :=
  root <- root_page bt;;
  descend fuel (λ _ children, match last children with Some c => Ok c | None => Panic end) root.

(** Walk the leaf chain. *)
Fixpoint walk {A} (fuel : nat) (visit : list (OrderedValue * RowId) → list (list Z) → A → A * bool)
    (pid : PageId) (out : A) : op BufferPool (option A) :=
  match fuel with
  | O => op_ret None
  | S fuel =>
      node <- read_node pid;;
      match node with
      | Internal _ _ => op_ret (Some out)
      | Leaf entries incs next =>
          let '(out, stop) := visit entries incs out in
          if decide (stop = true ∨ next = INVALID_PAGE_ID) then op_ret (Some out)
          else walk fuel visit next out
      end
  end.

Definition eq_scan {A} (fuel : nat) (bt : DiskBTree) (value : OrderedValue)
    (push : OrderedValue → RowId → list Z → A → A) (out : A) : op BufferPool (option A) :=
  pid <-? find_leaf fuel bt value;;
  walk fuel (scan_leaf (eq_verdict value) push unlimited) pid out.

Definition range_start (fuel : nat) (bt : DiskBTree) (o : RangeOp) (value : OrderedValue)
    : op BufferPool (option PageId) :=
  match o with
  | RLt | RLe => leftmost_leaf fuel bt
  | RGt | RGe => find_leaf fuel bt value
  end.

Definition range_scan {A} (fuel : nat) (bt : DiskBTree) (o : RangeOp) (value : OrderedValue)
    (push : OrderedValue → RowId → list Z → A → A) (full : A → bool) (out : A) : op BufferPool (option A) :=
  pid <-? range_start fuel bt o value;;
  walk fuel (scan_leaf (range_verdict o value) push full) pid out.

Definition search_eq (fuel : nat) (bt : DiskBTree) (value : OrderedValue) : op BufferPool (option (list RowId)) :=
  eq_scan fuel bt value push_rid [].
Definition search_eq_with_keys (fuel : nat) (bt : DiskBTree) (value : OrderedValue)
    : op BufferPool (option (list (OrderedValue * RowId))) :=
  eq_scan fuel bt value push_key [].
Definition search_eq_with_keys_and_include (fuel : nat) (bt : DiskBTree) (value : OrderedValue)
    : op BufferPool (option (list (OrderedValue * list Z * RowId))) :=
  eq_scan fuel bt value push_include [].

Definition search_range (fuel : nat) (bt : DiskBTree) (o : RangeOp) (value : OrderedValue)
    : op BufferPool (option (list RowId)) :=
  range_scan fuel bt o value push_rid unlimited [].
Definition search_range_with_keys (fuel : nat) (bt : DiskBTree) (o : RangeOp) (value : OrderedValue)
    : op BufferPool (option (list (OrderedValue * RowId))) :=
  range_scan fuel bt o value push_key unlimited [].
Definition search_range_with_keys_and_include (fuel : nat) (bt : DiskBTree) (o : RangeOp)
    (value : OrderedValue) : op BufferPool (option (list (OrderedValue * list Z * RowId))) :=
  range_scan fuel bt o value push_include unlimited [].

Definition search_range_limit (fuel : nat) (bt : DiskBTree) (o : RangeOp) (value : OrderedValue)
    (limit : nat) : op BufferPool (option (list RowId)) :=
  if decide (limit = 0%nat) then op_ret (Some [])
  else range_scan fuel bt o value push_rid (λ out, bool_decide (limit ≤ length out)%nat) [].

(** [Ok(Some(Some(rids)))] is candidates, [Ok(Some(None))] that the index is of no
    use. *)
Definition search (fuel : nat) (bt : DiskBTree) (o : CmpOp) (value : OrderedValue)
    : op BufferPool (option (option (list RowId))) :=
  let some (m : op BufferPool (option (list RowId))) := (r <-? m;; op_ret (Some (Some r))) in
  match o with
  | CEq => some (search_eq fuel bt value)
  | CLt => some (search_range fuel bt RLt value)
  | CLe => some (search_range fuel bt RLe value)
  | CGt => some (search_range fuel bt RGt value)
  | CGe => some (search_range fuel bt RGe value)
  | CNe => op_ret (Some None)
  end.

Definition search_with_keys (fuel : nat) (bt : DiskBTree) (o : CmpOp) (value : OrderedValue)
    : op BufferPool (option (list (OrderedValue * RowId))) :=
  match o with
  | CEq => search_eq_with_keys fuel bt value
  | CLt => search_range_with_keys fuel bt RLt value
  | CLe => search_range_with_keys fuel bt RLe value
  | CGt => search_range_with_keys fuel bt RGt value
  | CGe => search_range_with_keys fuel bt RGe value
  | CNe => op_ret (Some [])
  end.

Definition search_with_keys_and_include (fuel : nat) (bt : DiskBTree) (o : CmpOp) (value : OrderedValue)
    : op BufferPool (option (list (OrderedValue * list Z * RowId))) :=
  match o with
  | CEq => search_eq_with_keys_and_include fuel bt value
  | CLt => search_range_with_keys_and_include fuel bt RLt value
  | CLe => search_range_with_keys_and_include fuel bt RLe value
  | CGt => search_range_with_keys_and_include fuel bt RGt value
  | CGe => search_range_with_keys_and_include fuel bt RGe value
  | CNe => op_ret (Some [])
  end.

(** The row ids of a range in [n] parts: by leaf, then cut into runs of
    [per_part]. *)
Definition slice_visit (o : RangeOp) (value : OrderedValue) (entries : list (OrderedValue * RowId))
    (incs : list (list Z)) (slices : list (list RowId)) : list (list RowId) * bool :=
  let '(rids, stop) := scan_leaf (range_verdict o value) push_rid unlimited entries incs [] in
  (if decide (rids = []) then slices else slices ++ [rids], stop).

Fixpoint distribute (n per_part : nat) (rids : list RowId) (parts : list (list RowId)) (current : list RowId)
    : list (list RowId) :=
  match rids with
  | [] => if decide (current = []) then parts else parts ++ [current]
  | rid :: rids =>
      let current := current ++ [rid] in
      if decide (per_part ≤ length current ∧ length parts + 1 < n)%nat
      then distribute n per_part rids (parts ++ [current]) []
      else distribute n per_part rids parts current
  end.

Definition partition_rids (n : nat) (slices : list (list RowId)) : list (list RowId) :=
  let total := length (concat slices) in
  if decide (total = 0%nat) then replicate n []
  else resize n [] (distribute n ((total + n - 1) / n)%nat (concat slices) [] []).

Definition search_range_partition (fuel : nat) (bt : DiskBTree) (o : RangeOp) (value : OrderedValue)
    (n : nat) : op BufferPool (option (list (list RowId))) :=
  if decide (n ≤ 1)%nat then rids <-? search_range fuel bt o value;; op_ret (Some [rids])
  else
    pid <-? range_start fuel bt o value;;
    slices <-? walk fuel (slice_visit o value) pid [];;
    op_ret (Some (partition_rids n slices)).

Definition tree_max_entry (fuel : nat) (bt : DiskBTree) : op BufferPool (option (option (OrderedValue * RowId))) :=
  pid <-? rightmost_leaf fuel bt;;
  node <- read_node pid;;
  match node with
  | Leaf entries _ _ => op_ret (Some (last entries))
  | Internal _ _ => fail (Recovery "B+tree rightmost node is not a leaf")
  end.

(** ** Reads through a [PageReader] *)

Section reader.
(** [reader.read_page] *)
Variable read : PageId → Result SlottedPage.

Definition reader_node (pid : PageId) : Result Node := page ← read pid; deserialize page.

Fixpoint reader_leftmost (fuel : nat) (pick : list PageId → Result PageId) (pid : PageId)
    : Result (option PageId) :=
  match fuel with
  | O => Ok None
  | S fuel =>
      node ← reader_node pid;
      match node with
      | Leaf _ _ _ => Ok (Some pid)
      | Internal _ children => c ← pick children; reader_leftmost fuel pick c
      end
  end.

Definition directory_entry (e : OrderedValue * RowId) : Result (PageId * Z) :=
  match e with
  | (KInt n, rid) => Ok (u32 n, ri_slot rid)
  | _ => Err (Recovery "FSM key is not an Int page id")
  end.

Fixpoint reader_directory (fuel : nat) (pid : PageId) (out : list (PageId * Z))
    : Result (option (list (PageId * Z))) :=
  match fuel with
  | O => Ok None
  | S fuel =>
      node ← reader_node pid;
      match node with
      | Internal _ _ => Ok (Some out)
      | Leaf entries _ next =>
          out ← for_each (λ out e, d ← directory_entry e; Ok (out ++ [d])) out entries;
          if decide (next = INVALID_PAGE_ID) then Ok (Some out) else reader_directory fuel next out
      end
  end.

Definition tree_page_directory (fuel : nat) (bt : DiskBTree) : Result (option (list (PageId * Z))) :=
  meta ← read (meta_page bt);
  root ← meta_root "FSM meta page is not a meta node" meta;
  start ← reader_leftmost fuel (λ children, child_at children 0) root;
  match start with
  | Some pid => reader_directory fuel pid []
  | None => Ok None
  end.

(** One leaf of [validate]: keys must not go down. *)
Definition validate_entry (st : option OrderedValue * list (OrderedValue * RowId)) (e : OrderedValue * RowId)
    : Result (option OrderedValue * list (OrderedValue * RowId)) :=
  let '(last_key, out) := st in
  match last_key with
  | Some prev =>
      if ov_lt e.1 prev then Err (Recovery "validate: leaf entries out of order")
      else Ok (Some e.1, out ++ [e])
  | None => Ok (Some e.1, out ++ [e])
  end.

Fixpoint validate_chain (fuel : nat) (pid : PageId) (seen : list PageId)
    (st : option OrderedValue * list (OrderedValue * RowId)) : Result (option (list (OrderedValue * RowId))) :=
  match fuel with
  | O => Ok None
  | S fuel =>
      if decide (pid ∈ seen) then Err (Recovery "validate: cycle in leaf chain")
      else
        node ← reader_node pid;
        match node with
        | Internal _ _ => Err (Recovery "validate: leaf-chain walk hit a non-leaf")
        | Leaf entries _ next =>
            st ← for_each validate_entry st entries;
            if decide (next = INVALID_PAGE_ID) then Ok (Some st.2)
            else validate_chain fuel next (pid :: seen) st
        end
  end.

Definition tree_validate (fuel : nat) (bt : DiskBTree) : Result (option (list (OrderedValue * RowId))) :=
  meta ← read (meta_page bt);
  root ← meta_root "validate: meta page is not a meta node" meta;
  start ← reader_leftmost fuel (λ children,
    ok_or (head children) (Recovery "validate: internal node with no children")) root;
  match start with
  | Some pid => validate_chain fuel pid [] (None, [])
  | None => Ok None
  end.

End reader.

(** ** Writes *)

Definition meta_bytes (meta_page root_page page_size : Z) : Result (list Z) :=
  let buf := replicate (Z.to_nat page_size) 0 in
  buf ← copy_from_slice buf 0 4 (u32_to_le meta_page);
  buf ← set_index buf 4 PAGE_TYPE_BTREE;
  buf ← set_index buf PAGE_HEADER_SIZE NODE_META;
  copy_from_slice buf (PAGE_HEADER_SIZE + 1) (PAGE_HEADER_SIZE + 5) (u32_to_le root_page).

(** Log a page image, stamp it with the record's LSN and write it. *)
Definition write_raw (txn_id : Z) (prev_lsn : Lsn) (page_id : PageId) (image : list Z)
    : op (BufferPool * Wal) Lsn :=
  fetch_page_for_write pio io page_id;;
  lsn <- on_wal (log_index io txn_id prev_lsn page_id image);;
  sp <- lift (set_lsn (from_bytes_unchecked image) lsn);;
  on_pool (write_page sp);;
  on_pool (unpin page_id);;
  on_pool (modify (mark_fpi_logged page_id));;
  op_ret lsn.

Definition write_node (txn_id : Z) (prev_lsn : Lsn) (page_id : PageId) (node : Node) (page_size : Z)
    : op (BufferPool * Wal) Lsn :=
  image <- lift (serialize node page_id page_size);;
  write_raw txn_id prev_lsn page_id image.

Definition tree_create : op (BufferPool * Wal) DiskBTree :=
  meta <- on_pool (alloc_page pio);;
  root <- on_pool (alloc_page pio);;
  page_size <- gets (λ s, p_size s.1);;
  t <- on_wal (begin_mini_txn io);;
  l1 <- write_node t.1 t.2 root (Leaf [] [] INVALID_PAGE_ID) page_size;;
  image <- lift (meta_bytes meta root page_size);;
  l2 <- write_raw t.1 l1 meta image;;
  on_wal (commit_mini_txn io t.1 l2);;
  op_ret (mkTree meta page_size).

(** The right half of the entries moves to a new page, which becomes the right
    sibling. *)
Definition split_leaf (bt : DiskBTree) (entries : list (OrderedValue * RowId)) (incs : list (list Z))
    (next pid : PageId) (txn_id : Z) (prev_lsn : Lsn)
    : op (BufferPool * Wal) (OrderedValue * PageId * Lsn) :=
  let mid := (length entries / 2)%nat in
  match drop mid entries with
  | [] => lift Panic
  | (sep_key, rid0) :: right0 =>
      right_page <- on_pool (alloc_page pio);;
      let right := Leaf ((sep_key, rid0) :: right0) (drop mid incs) next in
      let left := Leaf (take mid entries) (take mid incs) right_page in
      l1 <- write_node txn_id prev_lsn right_page right (bt_page_size bt);;
      l2 <- write_node txn_id l1 pid left (bt_page_size bt);;
      op_ret (sep_key, right_page, l2)
  end.

(** The middle key rises, the right half moves to a new page. *)
Definition split_internal (bt : DiskBTree) (keys : list OrderedValue) (children : list PageId)
    (pid : PageId) (txn_id : Z) (prev_lsn : Lsn)
    : op (BufferPool * Wal) (OrderedValue * PageId * Lsn) :=
  let mid := (length keys / 2)%nat in
  match keys !! mid with
  | None => lift Panic
  | Some up_key =>
      right_page <- on_pool (alloc_page pio);;
      let right := Internal (drop (S mid) keys) (drop (S mid) children) in
      let left := Internal (take mid keys) (take (S mid) children) in
      l1 <- write_node txn_id prev_lsn right_page right (bt_page_size bt);;
      l2 <- write_node txn_id l1 pid left (bt_page_size bt);;
      op_ret (up_key, right_page, l2)
  end.

(** A node of the descent, as read, and the child the insertion took. *)
Record DescentFrame := mkDescent { df_pid : PageId; df_node : Node; df_route_idx : nat }.

(** The descent of an insertion.  [retained] has the current node first; a child
    that cannot overflow releases everything above it, the meta page too. *)
Fixpoint insert_descend (fuel : nat) (value : OrderedValue) (inc_len cap : Z) (meta_guard : bool)
    (retained : list DescentFrame) : op BufferPool (option (bool * list DescentFrame)) :=
  match fuel with
  | O => op_ret None
  | S fuel =>
      match retained with
      | [] => lift Panic
      | top :: above =>
          match df_node top with
          | Leaf _ _ _ => op_ret (Some (meta_guard, retained))
          | Internal keys children =>
              let idx := route_insert_child keys value in
              child <- lift (child_at children idx);;
              child_node <- read_node child;;
              let frame := mkDescent child child_node 0 in
              if node_is_insert_safe child_node value inc_len cap
              then insert_descend fuel value inc_len cap false [frame]
              else insert_descend fuel value inc_len cap meta_guard
                     (frame :: mkDescent (df_pid top) (df_node top) idx :: above)
          end
      end
  end.

(** Write a leaf that absorbed an entry: a page image if this is its first change of
    the interval, the logical record, the page. *)
Definition write_leaf_insert (bt : DiskBTree) (pid : PageId) (leaf : Node) (pos : nat)
    (value : OrderedValue) (rid : RowId) (inc : list Z) (txn_id : Z) (prev_lsn : Lsn)
    : op (BufferPool * Wal) Lsn :=
  fetch_page_for_write pio io pid;;
  fpi <- maybe_log_fpi io pid txn_id prev_lsn;;
  lsn <- on_wal (log_index_insert_with_include io txn_id (default prev_lsn fpi) pid (u16 (Z.of_nat pos))
                   (encode_key value) (ri_page rid) (ri_slot rid) inc);;
  image <- lift (serialize leaf pid (bt_page_size bt));;
  sp <- lift (set_lsn (from_bytes_unchecked image) lsn);;
  on_pool (write_page sp);;
  on_pool (unpin pid);;
  op_ret lsn.

(** The retained nodes from the leaf up: insert, and hand a split to the node above
    until one absorbs it.  The result is the split that is left over. *)
Fixpoint insert_propagate (bt : DiskBTree) (value : OrderedValue) (rid : RowId) (inc : list Z) (txn_id : Z)
    (retained : list DescentFrame) (pending : option (OrderedValue * PageId)) (prev_lsn : Lsn)
    : op (BufferPool * Wal) (option (OrderedValue * PageId) * Lsn) :=
  let cap := body_capacity (bt_page_size bt) in
  match retained with
  | [] => op_ret (pending, prev_lsn)
  | frame :: retained =>
      match df_node frame with
      | Leaf entries incs next =>
          match binary_search_by (λ e, entry_cmp e (value, rid)) entries with
          | inl _ => op_ret (None, prev_lsn)
          | inr pos =>
              let entries := insert_at pos (value, rid) entries in
              let incs := insert_include pos (length entries) inc incs in
              let leaf := Leaf entries incs next in
              if decide (body_len leaf ≤ cap) then
                lsn <- write_leaf_insert bt (df_pid frame) leaf pos value rid inc txn_id prev_lsn;;
                op_ret (None, lsn)
              else
                r <- split_leaf bt entries incs next (df_pid frame) txn_id prev_lsn;;
                insert_propagate bt value rid inc txn_id retained (Some r.1) r.2
          end
      | Internal keys children =>
          match pending with
          | None => lift Panic
          | Some (sep_key, new_child) =>
              let keys := insert_at (df_route_idx frame) sep_key keys in
              let children := insert_at (S (df_route_idx frame)) new_child children in
              let internal := Internal keys children in
              if decide (body_len internal ≤ cap) then
                lsn <- write_node txn_id prev_lsn (df_pid frame) internal (bt_page_size bt);;
                op_ret (None, lsn)
              else
                r <- split_internal bt keys children (df_pid frame) txn_id prev_lsn;;
                insert_propagate bt value rid inc txn_id retained (Some r.1) r.2
          end
      end
  end.

(** A new root over the two halves of the old one; [debug_assert!(meta_guard)]. *)
Definition grow_root (bt : DiskBTree) (root : PageId) (meta_guard : bool) (sep_key : OrderedValue)
    (new_child : PageId) (txn_id : Z) (prev_lsn : Lsn) : op (BufferPool * Wal) Lsn :=
  if (meta_guard : bool) then
    new_root_page <- on_pool (alloc_page pio);;
    l <- write_node txn_id prev_lsn new_root_page (Internal [sep_key] [root; new_child]) (bt_page_size bt);;
    image <- lift (meta_bytes (meta_page bt) new_root_page (bt_page_size bt));;
    write_raw txn_id l (meta_page bt) image
  else lift Panic.

Definition insert_in_txn_with_include (fuel : nat) (bt : DiskBTree) (value : OrderedValue) (rid : RowId)
    (inc : list Z) (txn_id : Z) (prev_lsn : Lsn) : op (BufferPool * Wal) (option Lsn) :=
  let cap := body_capacity (bt_page_size bt) in
  root <- on_pool (root_page bt);;
  node <- on_pool (read_node root);;
  d <-? on_pool (insert_descend fuel value (zlen inc) cap true [mkDescent root node 0]);;
  r <- insert_propagate bt value rid inc txn_id d.2 None prev_lsn;;
  match r.1 with
  | None => op_ret (Some r.2)
  | Some (sep_key, new_child) =>
      l <- grow_root bt root d.1 sep_key new_child txn_id r.2;;
      op_ret (Some l)
  end.

Definition tree_insert_in_txn (fuel : nat) (bt : DiskBTree) (value : OrderedValue) (rid : RowId)
    (txn_id : Z) (prev_lsn : Lsn) : op (BufferPool * Wal) (option Lsn) :=
  insert_in_txn_with_include fuel bt value rid [] txn_id prev_lsn.

Definition insert_with_include (fuel : nat) (bt : DiskBTree) (value : OrderedValue) (rid : RowId)
    (inc : list Z) : op (BufferPool * Wal) (option unit) :=
  t <- on_wal (begin_mini_txn io);;
  prev_lsn <-? insert_in_txn_with_include fuel bt value rid inc t.1 t.2;;
  on_wal (commit_mini_txn io t.1 prev_lsn);;
  op_ret (Some tt).

Definition tree_insert (fuel : nat) (bt : DiskBTree) (value : OrderedValue) (rid : RowId)
    : op (BufferPool * Wal) (option unit) := insert_with_include fuel bt value rid [].

(** The first entry with a key gets the row id; [None] if there is none. *)
Fixpoint set_first (value : OrderedValue) (new_rid : RowId) (entries : list (OrderedValue * RowId))
    : option (list (OrderedValue * RowId)) :=
  match entries with
  | [] => None
  | (k, rid) :: entries =>
      if decide (k = value) then Some ((k, new_rid) :: entries)
      else cons (k, rid) <$> set_first value new_rid entries
  end.

(** Looks at the one leaf that [find_leaf] names. *)
Definition tree_set_value (fuel : nat) (bt : DiskBTree) (value : OrderedValue) (new_rid : RowId)
    : op (BufferPool * Wal) (option bool) :=
  pid <-? on_pool (find_leaf fuel bt value);;
  node <- on_pool (read_node pid);;
  match node with
  | Internal _ _ => op_ret (Some false)
  | Leaf entries incs next =>
      match set_first value new_rid entries with
      | None => op_ret (Some false)
      | Some entries =>
          t <- on_wal (begin_mini_txn io);;
          lsn <- write_node t.1 t.2 pid (Leaf entries incs next) (bt_page_size bt);;
          on_wal (commit_mini_txn io t.1 lsn);;
          op_ret (Some true)
      end
  end.

(** The index of an entry. *)
Fixpoint entry_index (e : OrderedValue * RowId) (entries : list (OrderedValue * RowId)) : option nat :=
  match entries with
  | [] => None
  | x :: entries => if decide (x = e) then Some O else S <$> entry_index e entries
  end.

(** Remove the entry from the first leaf that has it, walking right until a leaf
    whose last key is above [value], or an empty one. *)
Fixpoint remove_walk (fuel : nat) (bt : DiskBTree) (value : OrderedValue) (rid : RowId) (pid : PageId)
    : op (BufferPool * Wal) (option unit) :=
  match fuel with
  | O => op_ret None
  | S fuel =>
      node <- on_pool (read_node pid);;
      match node with
      | Internal _ _ => op_ret (Some tt)
      | Leaf entries incs next =>
          match entry_index (value, rid) entries with
          | Some i =>
              t <- on_wal (begin_mini_txn io);;
              lsn <- write_node t.1 t.2 pid (Leaf (base.delete i entries) (base.delete i incs) next)
                       (bt_page_size bt);;
              on_wal (commit_mini_txn io t.1 lsn);;
              op_ret (Some tt)
          | None =>
              let past := match last entries with
                          | Some (k, _) => ov_lt value k
                          | None => true
                          end in
              if decide (past = true ∨ next = INVALID_PAGE_ID) then op_ret (Some tt)
              else remove_walk fuel bt value rid next
          end
      end
  end.

Definition tree_remove (fuel : nat) (bt : DiskBTree) (value : OrderedValue) (rid : RowId)
    : op (BufferPool * Wal) (option unit) :=
  pid <-? on_pool (find_leaf fuel bt value);;
  remove_walk fuel bt value rid pid.

(** What [update_rowid_inplace] does to a leaf: nothing and go on, nothing and end
    because a key above [key] came first, or the entry replaced. *)
Inductive Patch := NotHere | Beyond | Patched (entries : list (OrderedValue * RowId)).

Fixpoint patch_leaf (key : OrderedValue) (old_rid new_rid : RowId) (entries : list (OrderedValue * RowId))
    : Patch :=
  match entries with
  | [] => NotHere
  | (k, rid) :: entries =>
      if ov_lt key k then Beyond
      else if decide (k = key ∧ rid = old_rid) then Patched ((k, new_rid) :: entries)
      else match patch_leaf key old_rid new_rid entries with
           | Patched es => Patched ((k, rid) :: es)
           | p => p
           end
  end.

(** [Some (Some lsn)] is an entry patched under [lsn], [Some None] none found. *)
Fixpoint patch_walk (fuel : nat) (bt : DiskBTree) (key : OrderedValue) (old_rid new_rid : RowId)
    (txn_id : Z) (prev_lsn : Lsn) (pid : PageId) : op (BufferPool * Wal) (option (option Lsn)) :=
  match fuel with
  | O => op_ret None
  | S fuel =>
      node <- on_pool (read_node pid);;
      match node with
      | Internal _ _ => op_ret (Some None)
      | Leaf entries incs next =>
          match patch_leaf key old_rid new_rid entries with
          | Beyond => op_ret (Some None)
          | Patched entries =>
              lsn <- write_node txn_id prev_lsn pid (Leaf entries incs next) (bt_page_size bt);;
              op_ret (Some (Some lsn))
          | NotHere =>
              if decide (next = INVALID_PAGE_ID) then op_ret (Some None)
              else patch_walk fuel bt key old_rid new_rid txn_id prev_lsn next
          end
      end
  end.

Definition update_rowid_inplace (fuel : nat) (bt : DiskBTree) (key : OrderedValue) (old_rid new_rid : RowId)
    : op (BufferPool * Wal) (option unit) :=
  t <- on_wal (begin_mini_txn io);;
  pid <-? on_pool (find_leaf fuel bt key);;
  patched <-? patch_walk fuel bt key old_rid new_rid t.1 t.2 pid;;
  prev_lsn <-?
    match patched with
    | Some lsn => op_ret (Some lsn)
    | None => tree_insert_in_txn fuel bt key new_rid t.1 t.2
    end;;
  on_wal (commit_mini_txn io t.1 prev_lsn);;
  op_ret (Some tt).

(** [insert_many_with_include]: one mini-transaction for all entries. *)
Fixpoint insert_all_in_txn (fuel : nat) (bt : DiskBTree) (entries : list (OrderedValue * RowId * list Z))
    (txn_id : Z) (prev_lsn : Lsn) : op (BufferPool * Wal) (option Lsn) :=
  match entries with
  | [] => op_ret (Some prev_lsn)
  | (value, rid, payload) :: entries =>
      l <-? insert_in_txn_with_include fuel bt value rid payload txn_id prev_lsn;;
      insert_all_in_txn fuel bt entries txn_id l
  end.

Definition insert_many_with_include (fuel : nat) (bt : DiskBTree)
    (entries : list (OrderedValue * RowId * list Z)) : op (BufferPool * Wal) (option unit) :=
  if decide (entries = []) then op_ret (Some tt)
  else
    t <- on_wal (begin_mini_txn io);;
    prev_lsn <-? insert_all_in_txn fuel bt entries t.1 t.2;;
    on_wal (commit_mini_txn io t.1 prev_lsn);;
    op_ret (Some tt).

End btree.
