(* ===== verification/BTreeSpec.v ===== *)
(** What a B+tree is: the order of keys, binary search, and trees of pages.

    A [tree] has the page ids and the entries of a B+tree, an entry being a key, a
    row id and an include payload.  [nodes] is the pages of a tree as the store holds
    them, each leaf linked to the next; [wf] says that the tree is balanced, its keys
    in order between the separators, and its nodes within their pages. *)

From stdpp Require Import base numbers list gmap sorting strings.
From S2P Require Import Prelude Format Page PageSpec LockMgr Txn WalCodec Wal BufferPool BTreeNode.
From S2P Require Import BTreeNodeProps BTree.

(** ** The order of keys *)

Lemma bytes_lt_irrefl a : bytes_lt a a = false.
Proof. induction a as [|x a IH]; [done|]. simpl. by rewrite decide_True. Qed.

Lemma bytes_lt_trans a b c : bytes_lt a b = true → bytes_lt b c = true → bytes_lt a c = true.
Proof.
  revert b c. induction a as [|x a IH]; intros [|y b] [|z c]; try done. simpl.
  intros Hab Hbc. repeat case_decide; subst; rewrite ?bool_decide_eq_true in *; (lia || eauto).
Qed.

Lemma bytes_lt_total a b : bytes_lt a b = false → bytes_lt b a = false → a = b.
Proof.
  revert b. induction a as [|x a IH]; intros [|y b]; try done. simpl.
  intros Hab Hba. repeat case_decide; subst; try done; [by f_equal; apply IH|].
  apply bool_decide_eq_false in Hab, Hba. lia.
Qed.

Lemma ov_lt_irrefl a : ov_lt a a = false.
Proof. destruct a as [n|s|[]]; simpl; [apply bool_decide_eq_false; lia|apply bytes_lt_irrefl|done..]. Qed.

Lemma ov_lt_trans a b c : ov_lt a b = true → ov_lt b c = true → ov_lt a c = true.
Proof.
  destruct a as [x|x|[]], b as [y|y|[]], c as [z|z|[]]; try done; simpl; [|apply bytes_lt_trans].
  rewrite !bool_decide_eq_true. lia.
Qed.

Lemma ov_lt_total a b : ov_lt a b = false → ov_lt b a = false → a = b.
Proof.
  destruct a as [x|x|[]], b as [y|y|[]]; try done; simpl.
  - rewrite !bool_decide_eq_false. intros ??. f_equal. lia.
  - intros ??. f_equal. by apply bytes_lt_total.
Qed.

Definition ov_le (a b : OrderedValue) : Prop := ov_lt b a = false.

Lemma ov_le_refl a : ov_le a a.
Proof. apply ov_lt_irrefl. Qed.

Lemma ov_lt_le a b : ov_lt a b = true → ov_le a b.
Proof.
  intros H. unfold ov_le. destruct (ov_lt b a) eqn:E; [|done].
  by rewrite <- (ov_lt_irrefl a), (ov_lt_trans a b a).
Qed.

Lemma ov_le_lt_trans a b c : ov_le a b → ov_lt b c = true → ov_lt a c = true.
Proof.
  unfold ov_le. intros H1 H2. destruct (ov_lt a b) eqn:E; [by eapply ov_lt_trans|].
  by rewrite (ov_lt_total a b).
Qed.

Lemma ov_lt_le_trans a b c : ov_lt a b = true → ov_le b c → ov_lt a c = true.
Proof.
  unfold ov_le. intros H1 H2. destruct (ov_lt b c) eqn:E; [by eapply ov_lt_trans|].
  by rewrite <- (ov_lt_total b c).
Qed.

Lemma ov_le_trans a b c : ov_le a b → ov_le b c → ov_le a c.
Proof.
  intros H1 H2. unfold ov_le. destruct (ov_lt c a) eqn:E; [|done].
  pose proof (ov_lt_le_trans _ _ _ E H1) as E1. unfold ov_le in H2. congruence.
Qed.

#[global] Instance ov_le_preorder : PreOrder ov_le.
Proof. split; [exact ov_le_refl|exact ov_le_trans]. Qed.

Lemma ov_cmp_Eq a b : ov_cmp a b = Eq → a = b.
Proof.
  unfold ov_cmp. destruct (ov_lt a b) eqn:E1, (ov_lt b a) eqn:E2; try done. intros _. by apply ov_lt_total.
Qed.

Lemma ov_cmp_refl a : ov_cmp a a = Eq.
Proof. unfold ov_cmp. by rewrite ov_lt_irrefl. Qed.

Lemma ov_cmp_Gt a b : ov_cmp a b = Gt ↔ ov_lt b a = true.
Proof.
  unfold ov_cmp. destruct (ov_lt a b) eqn:E1, (ov_lt b a) eqn:E2; try done.
  pose proof (ov_lt_trans _ _ _ E1 E2) as E. by rewrite ov_lt_irrefl in E.
Qed.

Lemma ov_cmp_Lt a b : ov_cmp a b = Lt ↔ ov_lt a b = true.
Proof. unfold ov_cmp. by destruct (ov_lt a b), (ov_lt b a). Qed.

(** ** Binary search *)

(** Whatever the order of the elements, the loop ends at the first or at one that is
    not above, and the element after it is above or there is none. *)
Lemma bsearch_loop_spec {A} (f : A → comparison) (l : list A) fuel : ∀ base size,
  (size ≤ fuel)%nat → (1 ≤ size)%nat → (base + size ≤ length l)%nat →
  (base = 0%nat ∨ ∃ x, l !! base = Some x ∧ f x ≠ Gt) →
  ((base + size = length l)%nat ∨
    ∃ g x, l !! g = Some x ∧ f x = Gt ∧ (base < g)%nat ∧ (g ≤ base + size ≤ S g)%nat) →
  let b := bsearch_loop fuel f l base size in
  (b < length l)%nat ∧ (b = 0%nat ∨ ∃ x, l !! b = Some x ∧ f x ≠ Gt) ∧
  (∀ x, l !! S b = Some x → f x = Gt).
Proof.
  induction fuel as [|fuel IH]; intros base size Hf Hs Hl Hlo Hhi; [lia|]. cbn [bsearch_loop]. cbv zeta.
  case_decide as Hd.
  - set (half := (size / 2)%nat). assert (1 ≤ half ∧ 2 * half ≤ size ∧ size ≤ 2 * half + 1)%nat as (?&?&?).
    { unfold half. pose proof (Nat.div_mod_eq size 2). pose proof (Nat.mod_upper_bound size 2). lia. }
    destruct (lookup_lt_is_Some_2 l (base + half)) as [x Hx]; [lia|]. rewrite Hx. simpl.
    destruct (f x) eqn:Ef; (apply IH; [lia|lia|lia|..]).
    1,3: right; exists x; split; [done|congruence].
    1,2: destruct Hhi as [|(g&y&Hg&Hy&?&?)]; [left; lia|right; exists g, y].
    1,2: assert (base + half ≠ g)%nat by (intros <-; congruence); split_and!; (done || lia).
    + done.
    + right. exists (base + half)%nat, x. split_and!; (done || lia).
  - assert (size = 1%nat) as -> by lia. split; [lia|]. split; [done|]. intros x Hx.
    destruct Hhi as [|(g&y&Hg&Hy&?&?)]; [apply lookup_lt_Some in Hx; lia|].
    assert (g = S base) as -> by lia. congruence.
Qed.

Lemma binary_search_found {A} (f : A → comparison) l i : binary_search_by f l = inl i →
  ∃ x, l !! i = Some x ∧ f x = Eq.
Proof.
  unfold binary_search_by. destruct (l !! _) as [x|] eqn:E; simpl; [|done].
  destruct (f x) eqn:Ef; try done. intros [= <-]. eauto.
Qed.

(** The position to insert at: what is before it is below, what is after it above. *)
Lemma binary_search_pos {A} (f : A → comparison) l pos : binary_search_by f l = inr pos →
  (pos ≤ length l)%nat ∧ (∀ i x, pos = S i → l !! i = Some x → f x = Lt) ∧
  (∀ x, l !! pos = Some x → f x = Gt).
Proof.
  unfold binary_search_by. destruct l as [|y l]; [intros [= <-]; split_and!; (done || lia)|].
  destruct (bsearch_loop_spec f (y :: l) (length (y :: l)) 0 (length (y :: l))) as (Hb&Hlo&Hhi);
    [simpl; lia..|by left|by left|].
  set (b := bsearch_loop _ _ _ _ _) in *. clearbody b. destruct (lookup_lt_is_Some_2 _ _ Hb) as [x Hx]. rewrite Hx. simpl.
  destruct (f x) eqn:Ef; [done|intros [= <-]..].
  - split; [simpl in Hb; lia|]. split; [|done]. intros i z [= <-] Hz. congruence.
  - destruct Hlo as [->|(z&Hz&?)]; [|congruence]. split; [lia|]. split; [done|]. intros z Hz. congruence.
Qed.

(** ** Trees *)

(** A key, a row id and an include payload. *)
Abbreviation Entry := (OrderedValue * RowId * list Z)%type.
Definition key_of (e : Entry) : OrderedValue := e.1.1.

Inductive tree :=
| TLeaf (pid : PageId) (es : list Entry)
| TNode (pid : PageId) (f : forest)
with forest :=
| FOne (t : tree)
| FMore (t : tree) (sep : OrderedValue) (f : forest).

Scheme tree_mut := Induction for tree Sort Prop
  with forest_mut := Induction for forest Sort Prop.
Combined Scheme tree_forest_ind from tree_mut, forest_mut.

Definition tpid (t : tree) : PageId := match t with TLeaf pid _ | TNode pid _ => pid end.

Fixpoint fkeys (f : forest) : list OrderedValue :=
  match f with FOne _ => [] | FMore _ s f => s :: fkeys f end.
Fixpoint fpids (f : forest) : list PageId :=
  match f with FOne t => [tpid t] | FMore t _ f => tpid t :: fpids f end.

(** The page id of the first leaf. *)
Fixpoint leftmost (t : tree) : PageId :=
  match t with TLeaf pid _ => pid | TNode _ f => fleft f end
with fleft (f : forest) : PageId :=
  match f with FOne t | FMore t _ _ => leftmost t end.

(** Include payloads that are all empty are not kept. *)
Definition keep_includes (incs : list (list Z)) : list (list Z) :=
  if existsb (λ inc, bool_decide (0 < zlen inc)) incs then incs else [].
Definition canon (n : Node) : Node :=
  match n with Leaf entries incs next => Leaf entries (keep_includes incs) next | n => n end.
Definition leaf_of (es : list Entry) (next : PageId) : Node := canon (Leaf es.*1 es.*2 next).

(** The pages of a tree whose last leaf is linked to [next]. *)
Fixpoint nodes (t : tree) (next : PageId) : list (PageId * Node) :=
  match t with
  | TLeaf pid es => [(pid, leaf_of es next)]
  | TNode pid f => (pid, Internal (fkeys f) (fpids f)) :: fnodes f next
  end
with fnodes (f : forest) (next : PageId) : list (PageId * Node) :=
  match f with
  | FOne t => nodes t next
  | FMore t _ f => nodes t (fleft f) ++ fnodes f next
  end.

(** The leaves from left to right. *)
Fixpoint leaves (t : tree) : list (PageId * list Entry) :=
  match t with TLeaf pid es => [(pid, es)] | TNode _ f => fleaves f end
with fleaves (f : forest) : list (PageId * list Entry) :=
  match f with FOne t => leaves t | FMore t _ f => leaves t ++ fleaves f end.

Definition entries (t : tree) : list Entry := concat (leaves t).*2.
Definition fentries (f : forest) : list Entry := concat (fleaves f).*2.

Lemma fentries_more t s f : fentries (FMore t s f) = entries t ++ fentries f.
Proof. unfold fentries, entries. simpl. by rewrite fmap_app, concat_app. Qed.

(** The keys and separators in order. *)
Fixpoint flat (t : tree) : list OrderedValue :=
  match t with TLeaf _ es => key_of <$> es | TNode _ f => fflat f end
with fflat (f : forest) : list OrderedValue :=
  match f with FOne t => flat t | FMore t s f => flat t ++ s :: fflat f end.

Definition key_kind (k : OrderedValue) : Z := match k with KInt _ => 0 | KText _ => 1 | KBool _ => 2 end.

Definition entry_size (e : Entry) : Z := encoded_key_len (key_of e) + 4 + zlen e.2 + ROWID_LEN.
Definition leaf_size (es : list Entry) : Z := 7 + foldr Z.add 0 (entry_size <$> es).
Definition inner_size (keys : list OrderedValue) : Z := 7 + foldr Z.add 0 ((λ k, encoded_key_len k + 4) <$> keys).

Section wf.
(** The page size, and the type of the indexed column. *)
Variable psize : Z.
Variable kd : Z.

Definition sep_ok (k : OrderedValue) : Prop := key_ok k ∧ key_kind k = kd.
Definition entry_ok (e : Entry) : Prop := sep_ok (key_of e) ∧ rowid_ok e.1.2 ∧ zlen e.2 < 2 ^ 32.

(** Every leaf is [h] levels down, and every node fits its page. *)
Fixpoint wf (h : nat) (t : tree) : Prop :=
  match t with
  | TLeaf _ es => h = O ∧ Forall entry_ok es ∧ leaf_size es ≤ body_capacity psize
  | TNode _ f =>
      match h with
      | O => False
      | S h => wff h f ∧ inner_size (fkeys f) ≤ body_capacity psize
      end
  end
with wff (h : nat) (f : forest) : Prop :=
  match f with
  | FOne t => wf h t
  | FMore t s f => wf h t ∧ sep_ok s ∧ wff h f
  end.

End wf.

Definition in_order (t : tree) : Prop := StronglySorted ov_le (flat t).

Lemma entries_flat :
  (∀ t, (key_of <$> entries t) `sublist_of` flat t) ∧ (∀ f, (key_of <$> fentries f) `sublist_of` fflat f).
Proof.
  apply tree_forest_ind; simpl.
  - intros pid es. unfold entries. simpl. by rewrite app_nil_r.
  - done.
  - done.
  - intros t IHt s f IHf. rewrite fentries_more, fmap_app. apply sublist_app; [done|by apply sublist_cons].
Qed.

(** ** Forests around a child *)

(** [fill ls f] is [f] with the trees and separators of [ls] to its left. *)
Fixpoint fill (ls : list (tree * OrderedValue)) (f : forest) : forest :=
  match ls with [] => f | (t, s) :: ls => FMore t s (fill ls f) end.

(** A tree with the rest of a forest to its right. *)
Definition cons_f (t : tree) (rs : option (OrderedValue * forest)) : forest :=
  match rs with None => FOne t | Some (s, f) => FMore t s f end.

Definition rkeys (rs : option (OrderedValue * forest)) : list OrderedValue :=
  match rs with None => [] | Some (s, f) => s :: fkeys f end.
Definition rpids (rs : option (OrderedValue * forest)) : list PageId :=
  match rs with None => [] | Some (_, f) => fpids f end.
Definition rleaves (rs : option (OrderedValue * forest)) : list (PageId * list Entry) :=
  match rs with None => [] | Some (_, f) => fleaves f end.
Definition rflat (rs : option (OrderedValue * forest)) : list OrderedValue :=
  match rs with None => [] | Some (s, f) => s :: fflat f end.
Definition rnodes (rs : option (OrderedValue * forest)) (next : PageId) : list (PageId * Node) :=
  match rs with None => [] | Some (_, f) => fnodes f next end.
Definition rnext (rs : option (OrderedValue * forest)) (next : PageId) : PageId :=
  match rs with None => next | Some (_, f) => fleft f end.

Fixpoint lnodes (ls : list (tree * OrderedValue)) (first : PageId) : list (PageId * Node) :=
  match ls with
  | [] => []
  | (t, _) :: ls => nodes t (match ls with [] => first | (t', _) :: _ => leftmost t' end) ++ lnodes ls first
  end.
Fixpoint lflat (ls : list (tree * OrderedValue)) : list OrderedValue :=
  match ls with [] => [] | (t, s) :: ls => flat t ++ s :: lflat ls end.
Definition lleaves (ls : list (tree * OrderedValue)) : list (PageId * list Entry) := concat (leaves <$> ls.*1).
Definition lfirst (ls : list (tree * OrderedValue)) (first : PageId) : PageId :=
  match ls with [] => first | (t, _) :: _ => leftmost t end.

Lemma fkeys_fill ls f : fkeys (fill ls f) = ls.*2 ++ fkeys f.
Proof. induction ls as [|[t s] ls IH]; [done|]. simpl. by rewrite IH. Qed.
Lemma fpids_fill ls f : fpids (fill ls f) = (tpid <$> ls.*1) ++ fpids f.
Proof. induction ls as [|[t s] ls IH]; [done|]. simpl. by rewrite IH. Qed.
Lemma fleft_fill ls f : fleft (fill ls f) = lfirst ls (fleft f).
Proof. by destruct ls as [|[t s] ls]. Qed.
Lemma fleaves_fill ls f : fleaves (fill ls f) = lleaves ls ++ fleaves f.
Proof. unfold lleaves. induction ls as [|[t s] ls IH]; [done|]. simpl. by rewrite IH, app_assoc. Qed.
Lemma fflat_fill ls f : fflat (fill ls f) = lflat ls ++ fflat f.
Proof. induction ls as [|[t s] ls IH]; [done|]. simpl. by rewrite IH, <- app_assoc. Qed.
Lemma fnodes_fill ls f next : fnodes (fill ls f) next = lnodes ls (fleft f) ++ fnodes f next.
Proof.
  induction ls as [|[t s] ls IH]; [done|]. simpl. rewrite IH, app_assoc, fleft_fill. by destruct ls as [|[]].
Qed.

Lemma fkeys_cons t rs : fkeys (cons_f t rs) = rkeys rs.
Proof. by destruct rs as [[s f]|]. Qed.
Lemma fpids_cons t rs : fpids (cons_f t rs) = tpid t :: rpids rs.
Proof. by destruct rs as [[s f]|]. Qed.
Lemma fleft_cons t rs : fleft (cons_f t rs) = leftmost t.
Proof. by destruct rs as [[s f]|]. Qed.
Lemma fleaves_cons t rs : fleaves (cons_f t rs) = leaves t ++ rleaves rs.
Proof. destruct rs as [[s f]|]; [done|]. simpl. by rewrite app_nil_r. Qed.
Lemma fflat_cons t rs : fflat (cons_f t rs) = flat t ++ rflat rs.
Proof. destruct rs as [[s f]|]; [done|]. simpl. by rewrite app_nil_r. Qed.
Lemma fnodes_cons t rs next : fnodes (cons_f t rs) next = nodes t (rnext rs next) ++ rnodes rs next.
Proof. destruct rs as [[s f]|]; [done|]. simpl. by rewrite app_nil_r. Qed.

Lemma length_fpids f : length (fpids f) = S (length (fkeys f)).
Proof. induction f as [t|t s f IH]; simpl; congruence. Qed.

(** Every position of a forest is a child between the rest. *)
Lemma forest_at f : ∀ i, (i ≤ length (fkeys f))%nat → ∃ ls t rs, f = fill ls (cons_f t rs) ∧ length ls = i.
Proof.
  induction f as [t|t s f IH]; simpl; intros i Hi.
  - exists [], t, None. split; [done|]. simpl. lia.
  - destruct i as [|i]; [by exists [], t, (Some (s, f))|]. destruct (IH i) as (ls&t'&rs&->&<-); [lia|].
    by exists ((t, s) :: ls), t', rs.
Qed.

(** ** Trees around a subtree *)

(** A step of a descent: the node, and what is left and right of the child. *)
Record crumb := mkCrumb {
  c_pid : PageId;
  c_ls : list (tree * OrderedValue);
  c_rs : option (OrderedValue * forest);
}.

(** The path has the innermost node first. *)
Fixpoint plug (c : list crumb) (t : tree) : tree :=
  match c with
  | [] => t
  | cr :: c => plug c (TNode (c_pid cr) (fill (c_ls cr) (cons_f t (c_rs cr))))
  end.

Definition crumb_keys (cr : crumb) : list OrderedValue := (c_ls cr).*2 ++ rkeys (c_rs cr).
Definition crumb_node (cr : crumb) (hole : PageId) : Node :=
  Internal (crumb_keys cr) ((tpid <$> (c_ls cr).*1) ++ hole :: rpids (c_rs cr)).

Fixpoint croot (c : list crumb) (hole : PageId) : PageId :=
  match c with [] => hole | cr :: c => croot c (c_pid cr) end.
Fixpoint cnext (c : list crumb) (next : PageId) : PageId :=
  match c with [] => next | cr :: c => rnext (c_rs cr) (cnext c next) end.
Fixpoint cnodes (c : list crumb) (hole first next : PageId) : list (PageId * Node) :=
  match c with
  | [] => []
  | cr :: c =>
      cnodes c (c_pid cr) (lfirst (c_ls cr) first) next ++
      (c_pid cr, crumb_node cr hole) :: lnodes (c_ls cr) first ++ rnodes (c_rs cr) (cnext c next)
  end.
Fixpoint cflat_l (c : list crumb) : list OrderedValue :=
  match c with [] => [] | cr :: c => cflat_l c ++ lflat (c_ls cr) end.
Fixpoint cflat_r (c : list crumb) : list OrderedValue :=
  match c with [] => [] | cr :: c => rflat (c_rs cr) ++ cflat_r c end.
Fixpoint cleaves_l (c : list crumb) : list (PageId * list Entry) :=
  match c with [] => [] | cr :: c => cleaves_l c ++ lleaves (c_ls cr) end.
Fixpoint cleaves_r (c : list crumb) : list (PageId * list Entry) :=
  match c with [] => [] | cr :: c => rleaves (c_rs cr) ++ cleaves_r c end.

Lemma tpid_plug c t : tpid (plug c t) = croot c (tpid t).
Proof. revert t. induction c as [|cr c IH]; [done|]. intros t. simpl. by rewrite IH. Qed.

Lemma flat_plug c t : flat (plug c t) = cflat_l c ++ flat t ++ cflat_r c.
Proof.
  revert t. induction c as [|cr c IH]; intros t; simpl; [by rewrite app_nil_r|].
  rewrite IH. simpl. by rewrite fflat_fill, fflat_cons, <- !app_assoc.
Qed.

Lemma leaves_plug c t : leaves (plug c t) = cleaves_l c ++ leaves t ++ cleaves_r c.
Proof.
  revert t. induction c as [|cr c IH]; intros t; simpl; [by rewrite app_nil_r|].
  rewrite IH. simpl. by rewrite fleaves_fill, fleaves_cons, <- !app_assoc.
Qed.

Lemma leftmost_node pid ls t rs : leftmost (TNode pid (fill ls (cons_f t rs))) = lfirst ls (leftmost t).
Proof. simpl. by rewrite fleft_fill, fleft_cons. Qed.

Lemma nodes_node pid ls t rs next :
  nodes (TNode pid (fill ls (cons_f t rs))) next =
    (pid, crumb_node (mkCrumb pid ls rs) (tpid t)) ::
      lnodes ls (leftmost t) ++ nodes t (rnext rs next) ++ rnodes rs next.
Proof.
  simpl. unfold crumb_node, crumb_keys. simpl.
  by rewrite fkeys_fill, fkeys_cons, fpids_fill, fpids_cons, fnodes_fill, fnodes_cons, fleft_cons.
Qed.

Lemma nodes_plug c t next :
  nodes (plug c t) next ≡ₚ cnodes c (tpid t) (leftmost t) next ++ nodes t (cnext c next).
Proof.
  revert t. induction c as [|[pid ls rs] c IH]; intros t; [done|].
  cbn [plug c_pid c_ls c_rs]. rewrite IH. rewrite nodes_node, leftmost_node. cbn [cnodes cnext c_pid c_ls c_rs tpid].
  rewrite <- !app_assoc. f_equiv. simpl. f_equiv. rewrite <- !app_assoc. f_equiv. apply Permutation_app_comm.
Qed.

Section wf_plug.
Context (psize kd : Z).

Definition lwf (h : nat) (ls : list (tree * OrderedValue)) : Prop :=
  Forall (λ x, wf psize kd h x.1 ∧ sep_ok kd x.2) ls.
Definition rwf (h : nat) (rs : option (OrderedValue * forest)) : Prop :=
  match rs with None => True | Some (s, f) => sep_ok kd s ∧ wff psize kd h f end.

(** What is around a subtree of height [h]. *)
Fixpoint cwf (c : list crumb) (h : nat) : Prop :=
  match c with
  | [] => True
  | cr :: c =>
      lwf h (c_ls cr) ∧ rwf h (c_rs cr) ∧ inner_size (crumb_keys cr) ≤ body_capacity psize ∧ cwf c (S h)
  end.

Lemma wff_fill h ls f : wff psize kd h (fill ls f) ↔ lwf h ls ∧ wff psize kd h f.
Proof.
  unfold lwf. induction ls as [|[t s] ls IH]; simpl; [naive_solver|]. rewrite Forall_cons, IH. simpl. naive_solver.
Qed.
Lemma wff_cons h t rs : wff psize kd h (cons_f t rs) ↔ wf psize kd h t ∧ rwf h rs.
Proof. destruct rs as [[s f]|]; simpl; naive_solver. Qed.

Lemma wf_node h pid f : wf psize kd (S h) (TNode pid f) ↔
  wff psize kd h f ∧ inner_size (fkeys f) ≤ body_capacity psize.
Proof. done. Qed.

Lemma wf_plug c : ∀ h t, wf psize kd (length c + h) (plug c t) ↔ cwf c h ∧ wf psize kd h t.
Proof.
  induction c as [|[pid ls rs] c IH]; intros h t; [simpl; naive_solver|].
  cbn [plug length cwf c_pid c_ls c_rs]. replace (S (length c) + h)%nat with (length c + S h)%nat by lia.
  rewrite IH, wf_node, wff_fill, wff_cons, fkeys_fill, fkeys_cons. unfold crumb_keys. simpl. naive_solver.
Qed.

End wf_plug.
