(* ===== verification/BTreeStore.v ===== *)
(** The nodes a buffer pool holds: what reading, writing and allocating pages of a
    B+tree do to them. *)

From stdpp Require Import base numbers list gmap sorting strings.
From S2P Require Import Prelude Format Page PageSpec LockMgr Txn WalCodec Wal BufferPool BTreeNode.
From S2P Require Import BTreeNodeProps BTree BTreeSpec HeapLog.
Open Scope op_scope.

(** ** Images of nodes *)

Lemma keep_includes_cases incs : keep_includes incs = incs ∧ Exists (λ inc, inc ≠ []) incs ∨
  keep_includes incs = [] ∧ Forall (λ inc, inc = []) incs.
Proof.
  unfold keep_includes. destruct (existsb _ incs) eqn:E; [left|right]; (split; [done|]).
  - by apply existsb_includes.
  - apply Forall_forall. intros inc Hin. destruct (decide (inc = [])) as [|Hn]; [done|].
    assert (Exists (λ inc : list Z, inc ≠ []) incs) as H by (apply Exists_exists; eauto).
    apply existsb_includes in H. congruence.
Qed.

Lemma include_at_empty incs i : Forall (λ inc, inc = []) incs → include_at incs i = [].
Proof.
  intros H. unfold include_at. destruct (incs !! i) as [inc|] eqn:E; [|done].
  by apply (Forall_lookup_1 _ _ _ _ H E).
Qed.

Lemma leaf_payload_empty es incs : Forall (λ inc, inc = []) incs → leaf_payload es incs = leaf_payload es [].
Proof.
  revert incs. induction es as [|[k rid] es IH]; intros incs H; [done|]. cbn [leaf_payload].
  rewrite !include_at_empty by (done || constructor). f_equal. rewrite (IH (tail incs)), (IH (tail [])); [done|constructor|].
  destruct incs; [done|by inversion H].
Qed.

(** What the page format needs of a node; empty include payloads may be there. *)
Definition node_fit (n : Node) : Prop :=
  match n with
  | Leaf entries incs next =>
      Forall (λ e, key_ok e.1 ∧ rowid_ok e.2) entries ∧ 0 ≤ next < 2 ^ 32 ∧ zlen entries < 2 ^ 16 ∧
      Forall (λ inc, zlen inc < 2 ^ 32) incs ∧ (incs = [] ∨ length incs = length entries)
  | Internal _ _ => node_ok n
  end.

Lemma node_fit_canon n : node_fit n → node_ok (canon n).
Proof.
  destruct n as [es incs nx|]; [|done]. intros (?&?&?&Hi&Hl). simpl.
  destruct (keep_includes_cases incs) as [[-> He]|[-> He]].
  - split_and!; try (done || lia). right. split; [|done]. destruct Hl as [->|]; [by inversion He|done].
  - split_and!; try (done || lia). by left.
Qed.

Lemma node_fields_canon n : node_fields (canon n) = node_fields n.
Proof.
  destruct n as [es incs nx|]; [|done]. simpl. destruct (keep_includes_cases incs) as [[-> _]|[-> He]]; [done|].
  by rewrite (leaf_payload_empty es incs).
Qed.

Lemma body_len_canon n : body_len (canon n) = body_len n.
Proof.
  destruct n as [es incs nx|]; [|done]. simpl. destruct (keep_includes_cases incs) as [[-> _]|[-> He]]; [done|].
  do 2 f_equal. apply imap_ext. intros i e _. by rewrite (include_at_empty incs).
Qed.

Lemma copy_from_slice_inv (d : list Z) a b src d' : copy_from_slice (E:=DbError) d a b src = Ok d' →
  0 ≤ a ∧ b ≤ zlen d ∧ b - a = zlen src ∧ d' = splice d a src ∧ zlen d' = zlen d.
Proof.
  unfold copy_from_slice. case_decide as Hd; [|done]. intros [= <-]. split_and!; try (done || lia).
  apply zlen_splice; lia.
Qed.

Lemma set_index_inv (d : list Z) i b d' : set_index (E:=DbError) d i b = Ok d' →
  0 ≤ i < zlen d ∧ d' = splice d i [b] ∧ zlen d' = zlen d.
Proof.
  intros E. assert (0 ≤ i < zlen d) as Hi by (unfold set_index in E; by case_decide).
  rewrite set_index_Ok in E by done. injection E as <-. split_and!; [lia..|done|]. apply zlen_splice; len.
Qed.

Lemma write_body_inv buf kind count link payload b : write_body buf kind count link payload = Ok b →
  35 + zlen payload ≤ zlen buf.
Proof.
  unfold write_body, PAGE_HEADER_SIZE.
  destruct (set_index _ _ _) as [d1|e|] eqn:E1; [|done..]. cbn [mbind outcome_bind].
  destruct (copy_from_slice d1 _ _ _) as [d2|e|] eqn:E2; [|done..]. cbn [mbind outcome_bind].
  destruct (copy_from_slice d2 _ _ _) as [d3|e|] eqn:E3; [|done..]. cbn [mbind outcome_bind]. intros E4.
  apply set_index_inv in E1 as (_&_&?). apply copy_from_slice_inv in E2 as (_&_&_&_&?), E3 as (_&_&_&_&?), E4 as (_&?&?&_).
  lia.
Qed.

(** A node that was serialized fits its page. *)
Lemma serialize_inv n pid psize img : node_fit n → serialize n pid psize = Ok img →
  body_len n ≤ body_capacity psize ∧ zlen img = psize ∧ 28 ≤ psize ∧
  ∃ body, node_fields n = Ok body ∧ img = image pid psize body ∧ 28 + zlen body ≤ psize.
Proof.
  intros Hn E. destruct (node_fields_Ok _ (node_fit_canon n Hn)) as (body&Hf&Hz).
  rewrite node_fields_canon in Hf. rewrite body_len_canon in Hz.
  assert (body_len n ≤ body_capacity psize) as Hl.
  { unfold serialize in E. destruct (copy_from_slice _ _ _ _) as [d1|e|] eqn:E1; [|done..].
    cbn [mbind outcome_bind] in E. destruct (set_index _ _ _) as [d2|e|] eqn:E2; [|done..].
    cbn [mbind outcome_bind] in E. apply copy_from_slice_inv in E1 as (_&?&?&_&Hz1). apply set_index_inv in E2 as (?&_&Hz2).
    autorewrite with zlen in Hz1. unfold body_capacity, PAGE_HEADER_SIZE. rewrite <- Hz.
    destruct n as [es incs nx|ks [|c0 cs]]; [|done|].
    - apply write_body_inv in E. injection Hf as <-. unfold node_body. autorewrite with zlen in *. lia.
    - destruct (internal_payload ks cs) as [payload|e|] eqn:Ei; [|done..]. cbn [mbind outcome_bind] in E.
      apply write_body_inv in E. simpl in Hf. rewrite Ei in Hf. injection Hf as <-. unfold node_body.
      autorewrite with zlen in *. lia. }
  unfold body_capacity, PAGE_HEADER_SIZE in Hl. pose proof (zlen_nonneg body).
  rewrite (serialize_Ok _ _ _ body) in E by (done || lia). injection E as <-.
  split; [done|]. destruct (image_body pid psize body) as (_&_&Hi); [lia|]. split_and!; [done|lia|]. exists body. split_and!; (done || lia).
Qed.

(** ** The meta page *)

Lemma meta_bytes_inv m root psize img : meta_bytes m root psize = Ok img →
  33 ≤ psize ∧ img = image m psize (NODE_META :: u32_to_le root).
Proof.
  unfold meta_bytes, PAGE_HEADER_SIZE. intros E.
  destruct (copy_from_slice _ 0 _ _) as [d1|e|] eqn:E1; [|done..]. cbn [mbind outcome_bind] in E.
  destruct (set_index d1 _ _) as [d2|e|] eqn:E2; [|done..]. cbn [mbind outcome_bind] in E.
  destruct (set_index d2 _ _) as [d3|e|] eqn:E3; [|done..]. cbn [mbind outcome_bind] in E.
  apply copy_from_slice_inv in E1 as (_&_&_&E1&Z1). apply set_index_inv in E2 as (_&E2&Z2), E3 as (?&E3&Z3).
  apply copy_from_slice_inv in E as (_&?&_&E&_). autorewrite with zlen in Z1.
  assert (zlen d2 = Z.max 0 psize) as Hz by lia. split; [lia|]. unfold image. rewrite <- E1, <- E2. rewrite E, E3.
  change (28 + 1) with (28 + zlen [NODE_META]). by rewrite splice_app by len.
Qed.

(** A page with the body of a meta page names the root. *)
Lemma meta_root_image msg m root psize bs : 33 ≤ psize → 0 ≤ root < 2 ^ 32 →
  zlen bs = psize → (∀ n, sub bs 28 n = sub (image m psize (NODE_META :: u32_to_le root)) 28 n) →
  meta_root msg (mkPage bs) = Ok root.
Proof.
  intros Hp Hr Hz Hs. assert (zlen (NODE_META :: u32_to_le root) = 5) as Hb by done.
  destruct (image_body m psize (NODE_META :: u32_to_le root)) as (rest&Hi&_); [lia|].
  unfold meta_root, PAGE_HEADER_SIZE. cbn [data]. rewrite slice_Ok by lia. cbn [mbind outcome_bind].
  rewrite Hs, Hz, Hi. cbn [head app]. rewrite decide_True by done.
  change (NODE_META :: u32_to_le root ++ rest) with ([NODE_META] ++ u32_to_le root ++ rest).
  pose proof (zlen_nonneg rest). rewrite read_u32_Ok by len. f_equal. rd_field 4%nat; lia.
Qed.

(** ** The store *)

Section store.
Context `{!Crc32}.

(** What a reader that verifies checksums makes of the bytes of a page. *)
Definition read_image (bs : list Z) : Result SlottedPage :=
  if all_zero bs then Ok (from_bytes_unchecked bs) else from_bytes bs.
Definition node_in (bs : list Z) : option Node :=
  match read_image bs with
  | Ok page => match deserialize page with Ok n => Some n | _ => None end
  | _ => None
  end.
Definition store_of (p : BufferPool) (pid : PageId) : option Node := page_at (mem p) pid ≫= node_in.

Lemma read_image_data bs page : read_image bs = Ok page → page = mkPage bs.
Proof.
  unfold read_image, from_bytes. destruct (all_zero bs); [by intros [= <-]|].
  destruct (verify_crc _); [|done..]. by intros [= <-].
Qed.
Lemma node_in_Some bs n : node_in bs = Some n → read_image bs = Ok (mkPage bs) ∧ deserialize (mkPage bs) = Ok n.
Proof.
  unfold node_in. destruct (read_image bs) as [page|e|] eqn:E; [|done..]. rewrite (read_image_data _ _ E) in *.
  by destruct (deserialize _) as [n'|e|]; [intros [= ->]|..].
Qed.
Lemma node_in_Ok bs n : read_image bs = Ok (mkPage bs) → deserialize (mkPage bs) = Ok n → node_in bs = Some n.
Proof. unfold node_in. by intros -> ->. Qed.
Variable io : Calls.
Variable pio : PoolCalls.

(** The stamp of an LSN leaves the page's id and what is behind the header. *)
Lemma set_lsn_body d l p' : 28 ≤ zlen d → set_lsn (from_bytes_unchecked d) l = Ok p' →
  zlen (data p') = zlen d ∧ rd (data p') 0 4 = rd d 0 4 ∧ (∀ n, sub (data p') 28 n = sub d 28 n) ∧
  read_image (data p') = Ok (mkPage (data p')).
Proof.
  intros Hz E. unfold set_lsn, from_bytes_unchecked in E. cbn [data] in E. rewrite copy_from_slice_Ok in E by len.
  cbn [mbind outcome_bind] in E. rewrite write_crc_Ok in E by (cbn [data]; len). injection E as <-.
  unfold with_crc. cbn [data]. unfold CRC_FIELD_OFFSET. split; [len|].
  split; [rewrite !rd_splice_out by len; done|]. split; [intros n; rewrite !sub_splice_out by len; done|].
  unfold read_image, from_bytes. destruct (all_zero _); [done|].
  pose proof (verify_with_crc (mkPage (splice d 12 (u64_to_le l))) ltac:(cbn [data]; len)) as Hv.
  unfold with_crc in Hv. cbn [data] in Hv. by rewrite Hv.
Qed.

Lemma deserialize_body d d' : zlen d' = zlen d → (∀ n, sub d' 28 n = sub d 28 n) →
  deserialize (mkPage d') = deserialize (mkPage d).
Proof. intros Hz Hs. unfold deserialize, slice, PAGE_HEADER_SIZE. cbn [data]. by rewrite Hz, Hs. Qed.

Lemma read_node_mem pid p n p' : read_node pio pid p = (Ok n, p') →
  same_mem p p' ∧ ∃ bs, page_at (mem p) pid = Some bs ∧ deserialize (mkPage bs) = Ok n.
Proof.
  intros E. apply op_bind_Ok in E as (page&p1&E1&E). apply op_bind_Ok in E as (n'&p2&E2&E).
  apply op_bind_Ok in E as ([]&p3&E3&E). injection E as -> <-. injection E2 as E2 <-. injection E3 as <-.
  apply fetch_page_mem in E1 as [Hm Hp]. destruct page as [d]. split; [|by exists d].
  etrans; [exact Hm|]. unfold same_mem, alter_resident. by destruct (frame_index p1 !! pid).
Qed.

Lemma fetch_write_mem pid s page s' : fetch_page_for_write pio io pid s = (Ok page, s') → same_mem s.1 s'.1.
Proof.
  intros E. unfold fetch_page_for_write, on_pool in E. destruct (refresh_mem s) as [Hm0 _].
  pose proof (fetch_same_mem pio pid (refresh_durable s).1) as Hm1.
  destruct (fetch_page pio pid (refresh_durable s).1) as [r1 p1]. simpl in Hm1.
  assert (same_mem s.1 p1) as Hm by (by etrans).
  destruct r1 as [pg|[]|]; try (by injection E as <- <-); try done.
  apply op_bind_Ok in E as ([]&[q v]&Eq&E). unfold on_wal in Eq. simpl in Eq.
  destruct (sync io _) as [r2 w2]. injection Eq as -> <- <-.
  apply op_bind_Ok in E as ([]&[q' v']&[= <- <-]&E). destruct (refresh_mem (p1, w2)) as [Hm2 _].
  pose proof (fetch_same_mem pio pid (refresh_durable (p1, w2)).1) as Hm3. simpl in *.
  destruct (fetch_page pio pid _) as [r3 p3]. injection E as _ <-. simpl in *. by do 2 (etrans; [eassumption|]).
Qed.

(** A page written where its id says. *)
Lemma write_page_mem sp p u p' : 28 ≤ zlen (data sp) → write_page sp p = (Ok u, p') →
  let pid := rd (data sp) 0 4 in
  0 ≤ pid < zlen (mem p) ∧ mem p' = <[Z.to_nat pid := data sp]> (mem p) ∧
  file_page_count p' = file_page_count p ∧ p_size p' = p_size p.
Proof.
  intros Hz E. unfold write_page in E. rewrite page_id_Ok, lsn_Ok in E by lia. unfold map_write in E.
  case_decide as Hd; [|done]. injection E as _ <-. unfold mapped_pages in Hd. split; [lia|].
  unfold alter_resident. by destruct (frame_index _ !! _).
Qed.

(** The pages of [p'] are those of [p] but for [pid], which has [bs]. *)
Record written (pid : PageId) (bs : list Z) (p p' : BufferPool) : Prop := {
  wr_page : page_at (mem p') pid = Some bs;
  wr_other : ∀ q, q ≠ pid → page_at (mem p') q = page_at (mem p) q;
  wr_count : file_page_count p' = file_page_count p;
}.

Lemma page_at_set m pid bs q : 0 ≤ pid < zlen m →
  page_at (<[Z.to_nat pid := bs]> m) q = if decide (q = pid) then Some bs else page_at m q.
Proof.
  intros Hp. unfold page_at, zlen in *. case_decide as Hq; case_decide as He; subst; try (done || lia).
  - rewrite list_lookup_insert, decide_True by lia. done.
  - rewrite list_lookup_insert_ne by lia. done.
Qed.

Lemma stored_written d l sp p u p' p0 p1 pid : 28 ≤ zlen d → rd d 0 4 = pid →
  set_lsn (from_bytes_unchecked d) l = Ok sp → same_mem p p0 → write_page sp p0 = (Ok u, p1) → same_mem p1 p' →
  zlen (data sp) = zlen d ∧ (∀ n, sub (data sp) 28 n = sub d 28 n) ∧ read_image (data sp) = Ok (mkPage (data sp)) ∧
  written pid (data sp) p p'.
Proof.
  intros Hz Hp Es S0 E S1. destruct (set_lsn_body _ _ _ Hz Es) as (Hz'&Hp'&Hs&Hi). split; [done|]. split; [done|]. split; [done|].
  apply write_page_mem in E as (Hr&Hm&Hc&_); [|lia]. rewrite Hp', Hp in *. injection S0 as Sm Sc _. injection S1 as Tm Tc _.
  rewrite Sm in *. constructor; rewrite ?Tm, ?Hm.
  - rewrite page_at_set by done. by rewrite decide_True.
  - intros q Hq. rewrite page_at_set by done. by rewrite decide_False.
  - congruence.
Qed.

Lemma unpin_same_mem pid p : same_mem p (alter_resident set_unpinned pid p).
Proof. unfold same_mem, alter_resident. by destruct (frame_index p !! pid). Qed.

Lemma write_raw_mem txn prev pid img s l s' : 28 ≤ zlen img → rd img 0 4 = pid →
  write_raw io pio txn prev pid img s = (Ok l, s') →
  ∃ bs, zlen bs = zlen img ∧ (∀ n, sub bs 28 n = sub img 28 n) ∧ read_image bs = Ok (mkPage bs) ∧ written pid bs s.1 s'.1.
Proof.
  intros Hz Hp E. unfold write_raw in E. apply op_bind_Ok in E as (page&s1&E1&E). apply fetch_write_mem in E1.
  apply op_bind_Ok in E as (l'&s2&E2&E). apply op_bind_Ok in E as (sp&s3&E3&E). apply op_bind_Ok in E as (u&s4&E4&E).
  apply op_bind_Ok in E as (u5&s5&E5&E). apply op_bind_Ok in E as (u6&s6&E6&E). injection E as <- <-.
  unfold on_wal in E2. destruct (log_index _ _ _ _ _ _) as [r2 w2]. injection E2 as -> <-. injection E3 as E3 <-.
  unfold on_pool in E4. simpl in E4. destruct (write_page sp s1.1) as [r4 p4] eqn:Ew. injection E4 as -> <-.
  injection E5 as _ <-. injection E6 as _ <-. simpl. eexists. eapply stored_written; [done|done|exact E3|exact E1|exact Ew|].
  by apply unpin_same_mem.
Qed.

Lemma image_rd pid psize body : 0 ≤ pid < 2 ^ 32 → 28 + zlen body ≤ psize → rd (image pid psize body) 0 4 = pid.
Proof.
  intros Hp Hl. pose proof (image_page_id pid psize body Hp Hl) as E. pose proof (zlen_nonneg body).
  destruct (image_body pid psize body Hl) as (_&_&Hz). rewrite page_id_Ok in E by (simpl; lia). by injection E.
Qed.

(** Writing a node. *)
Lemma write_node_mem txn prev pid n psize s l s' : node_fit n → 0 ≤ pid < 2 ^ 32 →
  write_node io pio txn prev pid n psize s = (Ok l, s') →
  body_len n ≤ body_capacity psize ∧ ∃ bs, node_in bs = Some (canon n) ∧ written pid bs s.1 s'.1.
Proof.
  intros Hn Hp E. apply op_bind_Ok in E as (img&s1&E1&E). injection E1 as E1 <-.
  destruct (serialize_inv _ _ _ _ Hn E1) as (Hl&Hz&H28&body&Hf&->&Hb). split; [done|].
  apply write_raw_mem in E as (bs&Hbz&Hbs&Hi&Hw); [|lia|by apply image_rd]. exists bs. split; [|done].
  apply node_in_Ok; [done|]. rewrite (deserialize_body (image pid psize body)) by done.
  rewrite (deserialize_image (canon n)); [done|by apply node_fit_canon|by rewrite node_fields_canon|done].
Qed.

(** Writing a leaf that absorbed an entry. *)
Lemma write_leaf_insert_mem bt pid n pos v rid inc txn prev s l s' : node_fit n → 0 ≤ pid < 2 ^ 32 →
  write_leaf_insert io pio bt pid n pos v rid inc txn prev s = (Ok l, s') →
  body_len n ≤ body_capacity (bt_page_size bt) ∧ ∃ bs, node_in bs = Some (canon n) ∧ written pid bs s.1 s'.1.
Proof.
  intros Hn Hp E. unfold write_leaf_insert in E. apply op_bind_Ok in E as (page&s1&E1&E). apply fetch_write_mem in E1.
  apply op_bind_Ok in E as (fpi&s2&E2&E). apply op_bind_Ok in E as (l'&s3&E3&E). apply op_bind_Ok in E as (img&s4&E4&E).
  apply op_bind_Ok in E as (sp&s5&E5&E). apply op_bind_Ok in E as (u6&s6&E6&E). apply op_bind_Ok in E as (u7&s7&E7&E).
  injection E as <- <-. injection E4 as E4 <-. injection E5 as E5 <-. injection E7 as _ <-.
  assert (same_mem s.1 s2.1) as S2.
  { etrans; [exact E1|]. unfold maybe_log_fpi in E2. apply op_bind_Ok in E2 as (b&t1&Eb&E2). injection Eb as <- <-.
    case_bool_decide; [by injection E2 as <- <-|]. apply op_bind_Ok in E2 as (im&t2&Ei&E2).
    apply op_bind_Ok in E2 as (lf&t3&El&E2). injection E2 as _ <-. injection Ei as Ei <-.
    unfold on_wal in El. destruct (log_fpi _ _ _ _ _ _) as [r w]. injection El as _ <-. done. }
  unfold on_wal in E3. destruct (log_index_insert_with_include _ _ _ _ _ _ _ _ _ _) as [r3 w3].
  injection E3 as -> <-. unfold on_pool in E6. simpl in E6. destruct (write_page sp s2.1) as [r6 p6] eqn:Ew.
  injection E6 as -> <-. simpl.
  destruct (serialize_inv _ _ _ _ Hn E4) as (Hl&Hz&H28&body&Hf&->&Hb). split; [done|].
  destruct (stored_written (image pid (bt_page_size bt) body) l' sp s.1 tt (alter_resident set_unpinned pid p6) s2.1 p6 pid)
    as (Hbz&Hbs&Hi&Hw); [lia|by apply image_rd|done|done|by destruct u6|apply unpin_same_mem|].
  exists (data sp). split; [|done]. apply node_in_Ok; [done|]. rewrite (deserialize_body (image pid (bt_page_size bt) body)) by done.
  rewrite (deserialize_image (canon n)); [done|by apply node_fit_canon|by rewrite node_fields_canon|done].
Qed.

Lemma alloc_page_mem p pid p' : alloc_page pio p = (Ok pid, p') →
  pid = file_page_count p ∧ file_page_count p' = pid + 1 ∧
  ∀ q bs, page_at (mem p) q = Some bs → page_at (mem p') q = Some bs.
Proof.
  intros E. apply op_bind_Ok in E as (n&p1&[= <- <-]&E). apply op_bind_Ok in E as ([]&p2&[= <-]&E).
  apply op_bind_Ok in E as ([]&p3&E3&E). injection E as <- <-. unfold ensure_mapped in E3.
  case_decide; [injection E3 as <-; split_and!; [done..|by simpl]|].
  destruct (pio_grow pio); [|done]. injection E3 as <-. split_and!; [done..|]. simpl. intros q bs.
  unfold page_at. case_decide; [|done]. intros Hq. by apply lookup_app_l_Some.
Qed.

End store.

(** ** The pages of a tree *)

(** The pool has the nodes [ns], each on its own page, and a meta page that names
    [root]; [k] more pages can be allocated. *)
Record owned `{!Crc32} (bt : DiskBTree) (k : Z) (p : BufferPool) (root : PageId) (ns : list (PageId * Node)) : Prop := {
  ow_meta : ∃ bs, page_at (mem p) (meta_page bt) = Some bs ∧ read_image bs = Ok (mkPage bs) ∧
    ∀ msg, meta_root msg (mkPage bs) = Ok root;
  ow_nodes : Forall (λ x, store_of p x.1 = Some x.2) ns;
  ow_nodup : NoDup (meta_page bt :: ns.*1);
  ow_range : Forall (λ q, 0 ≤ q < file_page_count p) (meta_page bt :: ns.*1);
  ow_room : file_page_count p + k ≤ INVALID_PAGE_ID;
}.

Section owned.
Context `{!Crc32}.
Context (bt : DiskBTree) (pio : PoolCalls).

Lemma owned_perm k p root ns ns' : ns ≡ₚ ns' → owned bt k p root ns → owned bt k p root ns'.
Proof.
  intros Hp [Hm Hn Hd Hr Hk]. constructor; [done| | | |done].
  - by rewrite <- Hp.
  - by rewrite <- Hp.
  - by rewrite <- Hp.
Qed.

#[global] Instance owned_proper k p root : Proper ((≡ₚ) ==> iff) (owned bt k p root).
Proof. intros ns ns' Hp. split; apply owned_perm; [done|by symmetry]. Qed.

Lemma owned_le k k' p root ns : k' ≤ k → owned bt k p root ns → owned bt k' p root ns.
Proof. intros Hk [????]. constructor; (done || lia). Qed.

Lemma owned_same k p p' root ns : same_mem p p' → owned bt k p root ns → owned bt k p' root ns.
Proof.
  intros [= Em Ec _] [Hm Hn Hd Hr Hk]. unfold store_of in *.
  constructor; unfold store_of; rewrite ?Em, ?Ec; done.
Qed.

Lemma store_written pid bs n p p' : node_in bs = Some n → written pid bs p p' → store_of p' pid = Some n.
Proof. intros Hn [Hp _ _]. unfold store_of. by rewrite Hp. Qed.
Lemma store_other pid bs p p' q : written pid bs p p' → q ≠ pid → store_of p' q = store_of p q.
Proof. intros [_ Ho _] Hq. unfold store_of. by rewrite Ho. Qed.

Lemma owned_nodes_other pid bs p p' (ns : list (PageId * Node)) : written pid bs p p' → pid ∉ ns.*1 →
  Forall (λ x, store_of p x.1 = Some x.2) ns → Forall (λ x, store_of p' x.1 = Some x.2) ns.
Proof.
  intros Hw Hp. rewrite !Forall_forall. intros Hf x Hx. rewrite (store_other _ _ _ _ _ Hw); [by apply Hf|].
  intros <-. by apply Hp, list_elem_of_fmap_2.
Qed.

Lemma meta_kept pid bs p p' (root : PageId) : written pid bs p p' → pid ≠ meta_page bt →
  (∃ mb, page_at (mem p) (meta_page bt) = Some mb ∧ read_image mb = Ok (mkPage mb) ∧
    ∀ msg, meta_root msg (mkPage mb) = Ok root) →
  ∃ mb, page_at (mem p') (meta_page bt) = Some mb ∧ read_image mb = Ok (mkPage mb) ∧
    ∀ msg, meta_root msg (mkPage mb) = Ok root.
Proof. intros Hw Hp (mb&Hmb&Hmr). exists mb. by rewrite (wr_other _ _ _ _ Hw). Qed.

(** A node is rewritten. *)
Lemma owned_write k p p' root pid n0 n bs ns : owned bt k p root ((pid, n0) :: ns) →
  node_in bs = Some n → written pid bs p p' → owned bt k p' root ((pid, n) :: ns).
Proof.
  intros [Hm Hn Hd Hr Hk] Hb Hw. cbn [fmap list_fmap fst] in *. apply Forall_cons in Hn as [_ Hn].
  pose proof Hd as [Hd1 [Hd2 _]%NoDup_cons]%NoDup_cons.
  constructor; rewrite ?(wr_count _ _ _ _ Hw); try done.
  - eapply meta_kept; [done| |done]. intros ->. apply Hd1. constructor.
  - constructor; [by eapply store_written|]. by eapply owned_nodes_other.
Qed.

(** A node is written to a page of no other. *)
Lemma owned_add k p p' root pid n bs ns : owned bt k p root ns → pid ∉ meta_page bt :: ns.*1 →
  0 ≤ pid < file_page_count p → node_in bs = Some n → written pid bs p p' →
  owned bt k p' root ((pid, n) :: ns).
Proof.
  intros [Hm Hn Hd Hr Hk] Hf Hp Hb Hw. apply not_elem_of_cons in Hf as [Hf1 Hf2].
  constructor; rewrite ?(wr_count _ _ _ _ Hw); try done; cbn [fmap list_fmap fst].
  - by eapply meta_kept.
  - constructor; [by eapply store_written|]. by eapply owned_nodes_other.
  - apply NoDup_cons in Hd as [Hd1 Hd2]. apply NoDup_cons. split; [|by apply NoDup_cons].
    apply not_elem_of_cons. done.
  - apply Forall_cons in Hr as [??]. apply Forall_cons. split; [done|]. by apply Forall_cons.
Qed.

(** The meta page is rewritten. *)
Lemma owned_meta k p p' root root' bs ns : owned bt k p root ns → read_image bs = Ok (mkPage bs) →
  (∀ msg, meta_root msg (mkPage bs) = Ok root') → written (meta_page bt) bs p p' → owned bt k p' root' ns.
Proof.
  intros [Hm Hn Hd Hr Hk] Hi Hb Hw. constructor; rewrite ?(wr_count _ _ _ _ Hw); try done.
  - exists bs. split; [apply Hw|done].
  - eapply owned_nodes_other; [done| |done]. by apply NoDup_cons in Hd as [? _].
Qed.

Lemma owned_alloc k p p' root pid ns : owned bt k p root ns → 1 ≤ k → alloc_page pio p = (Ok pid, p') →
  owned bt (k - 1) p' root ns ∧ pid ∉ meta_page bt :: ns.*1 ∧ 0 ≤ pid < file_page_count p' ∧ pid < INVALID_PAGE_ID.
Proof.
  intros [(mb&Hmb&Hmi&Hmr) Hn Hd Hr Hk] H1 (->&Hc&Hp)%alloc_page_mem.
  assert (0 ≤ file_page_count p) as H0. { apply Forall_cons in Hr as [? _]. lia. }
  split_and!; [|intros Hin|lia..].
  - constructor; [exists mb; auto| |done| |lia].
    + apply (Forall_impl _ _ _ Hn). intros x Hx. unfold store_of in *. destruct (page_at (mem p) x.1) eqn:E; [|done].
      by rewrite (Hp _ _ E).
    + apply (Forall_impl _ _ _ Hr). intros q. rewrite Hc. lia.
  - apply (Forall_forall _ _ ) with (x := file_page_count p) in Hr; [|done]. lia.
Qed.

Lemma owned_read k p root ns pid n n' p' : owned bt k p root ns → (pid, n) ∈ ns →
  read_node pio pid p = (Ok n', p') → n' = n ∧ same_mem p p'.
Proof.
  intros Ho Hin (Hm&bs&Hp&Hs)%read_node_mem. split; [|done].
  pose proof (proj1 (Forall_forall _ _) (ow_nodes _ _ _ _ _ Ho) _ Hin) as E. unfold store_of in E. cbn [fst snd] in E.
  rewrite Hp in E. apply node_in_Some in E as [_ E]. congruence.
Qed.

Lemma owned_root k p root ns r p' : owned bt k p root ns → root_page pio bt p = (Ok r, p') →
  r = root ∧ same_mem p p'.
Proof.
  intros [(mb&Hmb&_&Hmr) _ _ _ _] E. apply op_bind_Ok in E as (page&p1&E1&E). apply fetch_page_mem in E1 as [Hm Hp].
  rewrite Hmb in Hp. injection Hp as ->. destruct page as [d]. simpl in Hmr. rewrite Hmr in E.
  injection E as <- <-. split; [done|]. etrans; [exact Hm|apply unpin_same_mem].
Qed.

(** Page ids of the tree. *)
Lemma owned_pid k p root ns pid : owned bt k p root ns → pid ∈ ns.*1 → 0 ≤ k →
  0 ≤ pid < 2 ^ 32 ∧ pid ≠ INVALID_PAGE_ID ∧ pid ≠ meta_page bt.
Proof.
  intros [_ _ Hd Hr Hk] Hin H0. apply Forall_cons in Hr as [_ Hr]. apply NoDup_cons in Hd as [Hd _].
  pose proof (proj1 (Forall_forall _ _) Hr _ Hin) as Hx. simpl in Hx. unfold INVALID_PAGE_ID in *.
  split_and!; [lia..|by intros ->].
Qed.

End owned.

(** The pool holds the tree [t] of height [h], in order, and [k] more pages can be
    allocated. *)
Record tree_at `{!Crc32} (bt : DiskBTree) (kd k : Z) (p : BufferPool) (h : nat) (t : tree) : Prop := {
  ta_wf : wf (bt_page_size bt) kd h t;
  ta_order : in_order t;
  ta_owned : owned bt k p (tpid t) (nodes t INVALID_PAGE_ID);
}.
