(* ===== verification/BTreeInsert.v ===== *)
(** Insertion into a B+tree: the descent, the leaf, and the splits that go up. *)

From stdpp Require Import base numbers list gmap sorting strings.
From S2P Require Import Prelude Format Page PageSpec LockMgr Txn WalCodec Wal BufferPool BTreeNode.
From S2P Require Import BTreeNodeProps BTree BTreeSpec HeapLog BTreeStore.
Open Scope op_scope.

(** ** Leaves as lists of entries *)

(** The two vectors of a leaf, for a list of entries. *)
Definition rep (entries : list (OrderedValue * RowId)) (incs : list (list Z)) (es : list Entry) : Prop :=
  entries = es.*1 ∧ (incs = es.*2 ∨ incs = [] ∧ Forall (λ e, e.2 = []) es).

Lemma Forall_snd_empty (es : list Entry) : Forall (λ e, e.2 = []) es → Forall (λ inc, inc = []) es.*2.
Proof. intros H. by apply Forall_fmap. Qed.

Lemma rep_canon entries incs es next : rep entries incs es → canon (Leaf entries incs next) = leaf_of es next.
Proof.
  intros [-> [->|[-> He]]]; [done|]. unfold leaf_of. simpl. f_equal. symmetry.
  destruct (keep_includes_cases es.*2) as [[_ Hx]|[-> _]]; [|done].
  apply Exists_exists in Hx as (x&Hx&Hn). apply Forall_snd_empty in He.
  by apply (Forall_forall _ _) with (x := x) in He.
Qed.

Lemma rep_leaf_of es next : ∃ incs, leaf_of es next = Leaf es.*1 incs next ∧ rep es.*1 incs es.
Proof.
  unfold leaf_of. simpl. eexists. split; [done|]. split; [done|].
  destruct (keep_includes_cases es.*2) as [[-> _]|[-> He]]; [by left|right]. split; [done|]. by apply Forall_fmap in He.
Qed.

Lemma fmap_insert_at {A B} (f : A → B) pos x l : f <$> insert_at pos x l = insert_at pos (f x) (f <$> l).
Proof. unfold insert_at. by rewrite fmap_app, fmap_cons, fmap_take, fmap_drop. Qed.

Lemma rep_insert pos v rid inc entries incs es : (pos ≤ length es)%nat → rep entries incs es →
  rep (insert_at pos (v, rid) entries) (insert_include pos (length (insert_at pos (v, rid) entries)) inc incs)
    (insert_at pos (v, rid, inc) es).
Proof.
  intros Hp [-> Hi]. split; [by rewrite fmap_insert_at|]. unfold insert_include.
  assert (∀ l : list (list Z), (pos ≤ length l)%nat → <[pos := inc]> (insert_at pos [] l) = insert_at pos inc l) as Hins.
  { intros l Hl. unfold insert_at. rewrite insert_app_r_alt by (rewrite length_take; lia).
    rewrite length_take, Nat.min_l by lia. by rewrite Nat.sub_diag. }
  case_decide as Hc.
  - left. rewrite fmap_insert_at. cbn [snd]. destruct Hi as [->|[-> He]].
    + case_decide as Hn; [|apply Hins; by rewrite length_fmap].
      apply fmap_nil_inv in Hn as ->. simpl in Hp. assert (pos = O) as -> by lia. done.
    + rewrite decide_True by done. assert (es.*2 = replicate (length es) []) as ->.
      { symmetry. apply replicate_as_Forall. split; [by rewrite length_fmap|]. apply Forall_fmap, (Forall_impl _ _ _ He). intros e Hx. by symmetry. }
      rewrite <- Hins by (by rewrite length_replicate). f_equal. unfold insert_at.
      rewrite take_replicate, drop_replicate, Nat.min_l by lia. rewrite length_app, length_cons.
      rewrite length_take, length_drop, length_fmap, Nat.min_l by lia.
      change ([] :: replicate (length es - pos) []) with (replicate (S (length es - pos)) (@nil Z)).
      rewrite <- replicate_add. f_equal; lia.
  - assert (inc = []) as -> by (by destruct inc; [|destruct Hc]). destruct Hi as [->|[-> He]].
    + case_decide as Hn; [left; by rewrite fmap_insert_at|].
      right. split; [done|]. apply fmap_nil_inv in Hn as ->. simpl in Hp. assert (pos = O) as -> by lia. by repeat constructor.
    + rewrite decide_False by naive_solver. right. split; [done|]. unfold insert_at. apply Forall_app. split; [by apply Forall_take|].
      constructor; [done|by apply Forall_drop].
Qed.

Lemma rep_take n entries incs es : rep entries incs es → rep (take n entries) (take n incs) (take n es).
Proof.
  intros [-> Hi]. split; [by rewrite fmap_take|]. rewrite fmap_take. destruct Hi as [->|[-> He]]; [by left|right].
  rewrite take_nil. split; [done|by apply Forall_take].
Qed.
Lemma rep_drop n entries incs es : rep entries incs es → rep (drop n entries) (drop n incs) (drop n es).
Proof.
  intros [-> Hi]. split; [by rewrite fmap_drop|]. rewrite fmap_drop. destruct Hi as [->|[-> He]]; [by left|right].
  rewrite drop_nil. split; [done|by apply Forall_drop].
Qed.

Lemma rep_body_len entries incs es next : rep entries incs es → body_len (Leaf entries incs next) = leaf_size es.
Proof.
  intros [-> Hi]. unfold leaf_size. cbn [body_len]. f_equal. f_equal.
  assert (∀ i e, es !! i = Some e → include_at incs i = e.2) as Hat.
  { intros i e He. destruct Hi as [->|[-> Hf]]; unfold include_at.
    - by rewrite list_lookup_fmap, He.
    - rewrite lookup_nil. by rewrite (Forall_lookup_1 _ _ _ _ Hf He). }
  clear Hi. apply list_eq. intros i. rewrite list_lookup_imap, !list_lookup_fmap.
  destruct (es !! i) as [e|] eqn:E; [|done]. simpl. by rewrite (Hat i e E).
Qed.

Lemma rep_fit kd entries incs es next : rep entries incs es → Forall (entry_ok kd) es → 0 ≤ next < 2 ^ 32 →
  zlen es < 2 ^ 16 → node_fit (Leaf entries incs next).
Proof.
  intros [-> Hi] He Hn Hz. split_and!; try lia.
  - apply Forall_fmap, (Forall_impl _ _ _ He). intros e ([]&?&?). done.
  - unfold zlen in *. by rewrite length_fmap.
  - destruct Hi as [->|[-> _]]; [|done]. apply Forall_fmap, (Forall_impl _ _ _ He). by intros e (?&?&?).
  - destruct Hi as [->|[-> _]]; [right; by rewrite !length_fmap|by left].
Qed.

(** ** Sizes *)

Lemma encoded_key_len_pos k : 2 ≤ encoded_key_len k.
Proof. destruct k as [n|s|b]; simpl; [lia| |lia]. pose proof (zlen_nonneg s). lia. Qed.

Lemma leaf_size_count es : zlen es ≤ leaf_size es.
Proof.
  unfold leaf_size. induction es as [|e es IH]; [done|]. rewrite fmap_cons. cbn [foldr].
  pose proof (encoded_key_len_pos (key_of e)). pose proof (zlen_nonneg e.2).
  unfold entry_size at 1, ROWID_LEN. unfold zlen in *. rewrite length_cons. lia.
Qed.

Lemma inner_size_count keys : zlen keys ≤ inner_size keys.
Proof.
  unfold inner_size. induction keys as [|k keys IH]; [done|]. rewrite fmap_cons. cbn [foldr].
  pose proof (encoded_key_len_pos k). unfold zlen in *. rewrite length_cons. lia.
Qed.

Lemma foldr_add_app (l1 l2 : list Z) : foldr Z.add 0 (l1 ++ l2) = foldr Z.add 0 l1 + foldr Z.add 0 l2.
Proof. induction l1 as [|x l1 IH]; simpl; lia. Qed.

Lemma leaf_size_insert pos e es : leaf_size (insert_at pos e es) = leaf_size es + entry_size e.
Proof.
  unfold leaf_size, insert_at. rewrite <- (take_drop pos es) at 3.
  rewrite !fmap_app, fmap_cons, !foldr_add_app. cbn [foldr]. lia.
Qed.
Lemma inner_size_insert pos k keys : inner_size (insert_at pos k keys) = inner_size keys + encoded_key_len k + 4.
Proof.
  unfold inner_size, insert_at. rewrite <- (take_drop pos keys) at 3.
  rewrite !fmap_app, fmap_cons, !foldr_add_app. cbn [foldr]. lia.
Qed.

Lemma length_insert_at {A} pos (x : A) l : length (insert_at pos x l) = S (length l).
Proof. unfold insert_at. rewrite length_app, length_cons, length_take, length_drop. lia. Qed.

Lemma insert_at_app {A} (l1 l2 : list A) x : insert_at (length l1) x (l1 ++ l2) = l1 ++ x :: l2.
Proof. unfold insert_at. by rewrite take_app_length, drop_app_length. Qed.

(** ** Nodes of a forest *)

(** The new separator and child in the vectors of the node. *)
Lemma insert_key ls rs sep t1 t2 :
  insert_at (length ls) sep (ls.*2 ++ rkeys rs) = fkeys (fill ls (FMore t1 sep (cons_f t2 rs))).
Proof.
  rewrite fkeys_fill. cbn [fkeys]. rewrite fkeys_cons, <- (length_fmap snd ls). apply insert_at_app.
Qed.
Lemma insert_child ls rs sep t1 t2 :
  insert_at (S (length ls)) (tpid t2) ((tpid <$> ls.*1) ++ tpid t1 :: rpids rs) =
    fpids (fill ls (FMore t1 sep (cons_f t2 rs))).
Proof.
  rewrite fpids_fill. cbn [fpids]. rewrite fpids_cons. rewrite cons_middle, app_assoc.
  replace (S (length ls)) with (length ((tpid <$> ls.*1) ++ [tpid t1])) by (rewrite length_app, !length_fmap; simpl; lia).
  rewrite insert_at_app, <- app_assoc. done.
Qed.

(** The halves of an internal node. *)
Lemma forest_split f : ∀ mid up, fkeys f !! mid = Some up → ∃ ls t f2, f = fill ls (FMore t up f2) ∧
  take mid (fkeys f) = fkeys (fill ls (FOne t)) ∧ drop (S mid) (fkeys f) = fkeys f2 ∧
  take (S mid) (fpids f) = fpids (fill ls (FOne t)) ∧ drop (S mid) (fpids f) = fpids f2.
Proof.
  induction f as [t|t s f IH]; intros mid up E; [done|]. destruct mid as [|mid]; simpl in E.
  - injection E as <-. exists [], t, f. done.
  - destruct (IH mid up E) as (ls&t'&f2&->&E1&E2&E3&E4). exists ((t, s) :: ls), t', f2.
    split_and!; [done|cbn [fkeys fill take]; by rewrite E1|done|cbn [fpids fill]; by rewrite firstn_cons, E3|done].
Qed.

Lemma tpid_nodes t next : tpid t ∈ (nodes t next).*1.
Proof. destruct t; simpl; constructor. Qed.
Lemma fpids_nodes f next : Forall (λ q, q ∈ (fnodes f next).*1) (fpids f).
Proof.
  induction f as [t|t s f IH]; simpl; [repeat constructor; apply tpid_nodes|].
  rewrite fmap_app. constructor; [apply elem_of_app; left; apply tpid_nodes|].
  apply (Forall_impl _ _ _ IH). intros q Hq. apply elem_of_app. by right.
Qed.

Lemma nodes_fork pid ls t1 sep t2 rs next :
  fnodes (fill ls (FMore t1 sep (cons_f t2 rs))) next =
    lnodes ls (leftmost t1) ++ nodes t1 (leftmost t2) ++ nodes t2 (rnext rs next) ++ rnodes rs next ∧
  leftmost (TNode pid (fill ls (FMore t1 sep (cons_f t2 rs)))) = lfirst ls (leftmost t1).
Proof.
  rewrite fnodes_fill. cbn [fnodes leftmost]. rewrite fnodes_cons, fleft_fill, fleft_cons. cbn [fleft]. done.
Qed.

Lemma leftmost_nodes t next : leftmost t ∈ (nodes t next).*1.
Proof.
  revert next. apply (tree_mut (λ t, ∀ next, leftmost t ∈ (nodes t next).*1) (λ f, ∀ next, fleft f ∈ (fnodes f next).*1)).
  - intros pid es next. simpl. constructor.
  - intros pid f IH next. simpl. by constructor.
  - intros t' IH next. simpl. done.
  - intros t' IH s f _ next. simpl. rewrite fmap_app. apply elem_of_app. by left.
Qed.

(** ** The place in a leaf *)

Lemma entry_cmp_Lt a b : entry_cmp a b = Lt → ov_le a.1 b.1.
Proof.
  unfold entry_cmp. destruct (ov_cmp a.1 b.1) eqn:E; [|intros _|done].
  - apply ov_cmp_Eq in E as ->. intros _. apply ov_le_refl.
  - apply ov_cmp_Lt in E. by apply ov_lt_le.
Qed.
Lemma entry_cmp_Gt a b : entry_cmp a b = Gt → ov_le b.1 a.1.
Proof.
  unfold entry_cmp. destruct (ov_cmp a.1 b.1) eqn:E; [|done|intros _].
  - apply ov_cmp_Eq in E as ->. intros _. apply ov_le_refl.
  - apply ov_cmp_Gt in E. by apply ov_lt_le.
Qed.
Lemma entry_cmp_Eq a b : entry_cmp a b = Eq → a = b.
Proof.
  unfold entry_cmp, rid_cmp, z_cmp. destruct a as [k [p s]], b as [k' [p' s']]. simpl.
  destruct (ov_cmp k k') eqn:E; [|done..]. apply ov_cmp_Eq in E as ->.
  destruct (Z.compare_spec p p') as [->| |]; [|done..]. by destruct (Z.compare_spec s s') as [->| |].
Qed.

(** Inserting where the neighbours allow it keeps a list sorted. *)
Lemma sorted_insert (l1 l2 : list OrderedValue) v : StronglySorted ov_le (l1 ++ l2) →
  (∀ x, last l1 = Some x → ov_le x v) → (∀ x, head l2 = Some x → ov_le v x) →
  StronglySorted ov_le (l1 ++ v :: l2).
Proof.
  intros Hs Hl Hr. apply StronglySorted_app in Hs as (H12&H1&H2).
  assert (∀ x, x ∈ l1 → ov_le x v) as Ha.
  { intros x Hx. destruct l1 as [|z l1 _] using rev_ind; [by apply not_elem_of_nil in Hx|].
    specialize (Hl z). rewrite last_snoc in Hl. apply elem_of_app in Hx as [Hx| ->%list_elem_of_singleton]; [|auto].
    transitivity z; [|auto]. by apply (StronglySorted_app_1_elem_of _ _ _ _ _ H1); [|constructor]. }
  assert (∀ x, x ∈ l2 → ov_le v x) as Hb.
  { intros x Hx. destruct l2 as [|z l2]; [by apply not_elem_of_nil in Hx|]. specialize (Hr z eq_refl).
    apply elem_of_cons in Hx as [->|Hx]; [done|]. apply StronglySorted_cons in H2 as [H2 _].
    transitivity z; [done|]. by apply (proj1 (Forall_forall _ _) H2). }
  apply StronglySorted_app_2; [|done|].
  - intros x1 x2 Hx1 [->|Hx2]%elem_of_cons; auto.
  - apply StronglySorted_cons. split; [|done]. by apply Forall_forall.
Qed.

(** The position that binary search gives in a leaf between [l1] and [l2]. *)
Lemma search_place v rid (es : list Entry) pos l1 l2 :
  binary_search_by (λ e, entry_cmp e (v, rid)) es.*1 = inr pos →
  StronglySorted ov_le (l1 ++ (key_of <$> es) ++ l2) →
  (∀ x, last l1 = Some x → ov_le x v) → (∀ x, head l2 = Some x → ov_le v x) →
  (pos ≤ length es)%nat ∧ ∀ inc, StronglySorted ov_le (l1 ++ (key_of <$> insert_at pos (v, rid, inc) es) ++ l2).
Proof.
  intros Hb Hs Hl Hr. apply binary_search_pos in Hb as (Hp&Hbef&Haft). rewrite length_fmap in Hp. split; [done|].
  intros inc. rewrite fmap_insert_at. unfold insert_at. rewrite <- (take_drop pos (key_of <$> es)) in Hs.
  rewrite <- !app_assoc in *. rewrite app_assoc in *. cbn [app]. apply sorted_insert; [done|..]; intros x Hx.
  - destruct pos as [|i]; [apply Hl; by rewrite take_0, app_nil_r in Hx|].
    destruct (lookup_lt_is_Some_2 es i) as [e He]; [lia|].
    assert (last (l1 ++ take (S i) (key_of <$> es)) = Some (key_of e)) as Hlast.
    { erewrite take_S_r by (by rewrite list_lookup_fmap, He). by rewrite app_assoc, last_snoc. }
    rewrite Hlast in Hx. injection Hx as <-. apply (entry_cmp_Lt e.1 (v, rid)), (Hbef i); [done|].
    by rewrite list_lookup_fmap, He.
  - destruct (es !! pos) as [e|] eqn:He.
    + erewrite drop_S in Hx by (by rewrite list_lookup_fmap, He). injection Hx as <-.
      apply (entry_cmp_Gt e.1 (v, rid)), Haft. by rewrite list_lookup_fmap, He.
    + apply lookup_ge_None in He. rewrite drop_ge in Hx by (by rewrite length_fmap). by apply Hr.
Qed.

Section insert.
Context `{!Crc32}.
Context (io : Calls) (pio : PoolCalls) (bt : DiskBTree) (kd : Z).

Notation psize := (bt_page_size bt).
Notation cap := (body_capacity (bt_page_size bt)).
Notation twf := (wf psize kd).
Notation fwf := (wff psize kd).

Lemma fkeys_ok h f : fwf h f → Forall (sep_ok kd) (fkeys f).
Proof. induction f as [t|t s f IH]; simpl; [done|]. intros (?&?&?). constructor; auto. Qed.

Lemma crumb_keys_ok h cr : lwf psize kd h (c_ls cr) → rwf psize kd h (c_rs cr) → Forall (sep_ok kd) (crumb_keys cr).
Proof.
  intros Hl Hr. unfold crumb_keys. apply Forall_app. split.
  - apply Forall_fmap, (Forall_impl _ _ _ Hl). by intros x [_ ?].
  - destruct (c_rs cr) as [[s f]|]; [|done]. destruct Hr as [Hs Hf]. constructor; [done|]. by eapply fkeys_ok.
Qed.

(** An internal node fits the page format. *)
Lemma inner_fit keys children : Forall (sep_ok kd) keys → Forall (λ c, 0 ≤ c < 2 ^ 32) children →
  length children = S (length keys) → zlen keys < 2 ^ 16 → node_fit (Internal keys children).
Proof. intros Hk Hc Hl Hz. split_and!; try done. apply (Forall_impl _ _ _ Hk). by intros k []. Qed.

Lemma forest_fit k p root ns h f next : owned bt k p root (ns ++ fnodes f next) → 0 ≤ k → fwf h f →
  zlen (fkeys f) < 2 ^ 16 → node_fit (Internal (fkeys f) (fpids f)).
Proof.
  intros Ho Hk Hf Hz. apply inner_fit; [by eapply fkeys_ok| |apply length_fpids|done].
  apply (Forall_impl _ _ _ (fpids_nodes f next)). intros q Hq.
  apply (owned_pid bt _ _ _ _ q Ho); [|done]. rewrite fmap_app. apply elem_of_app. by right.
Qed.

(** The retained nodes are the innermost ones of the path. *)
Fixpoint follows (frames : list DescentFrame) (hole : PageId) (c : list crumb) : Prop :=
  match frames, c with
  | [], _ => True
  | fr :: frames, cr :: c =>
      df_pid fr = c_pid cr ∧ df_node fr = crumb_node cr hole ∧ df_route_idx fr = length (c_ls cr) ∧
      follows frames (c_pid cr) c
  | _ :: _, [] => False
  end.

(** They are all of the path, or the outermost cannot overflow. *)
Definition covered (frames : list DescentFrame) (c : list crumb) (v : OrderedValue) (inc_len : Z) : Prop :=
  length frames = length c ∨
  ∃ fr, last frames = Some fr ∧ node_is_insert_safe (df_node fr) v inc_len cap = true.

Lemma safe_absorbs cr hole v n sep : Forall (sep_ok kd) (crumb_keys cr) → sep_ok kd sep →
  node_is_insert_safe (crumb_node cr hole) v n cap = true →
  inner_size (crumb_keys cr) + encoded_key_len sep + 4 ≤ cap.
Proof.
  intros Hk [_ Hs]. unfold crumb_node. cbn [node_is_insert_safe body_len]. fold (inner_size (crumb_keys cr)).
  destruct (crumb_keys cr) as [|k0 ks]; [done|]. apply Forall_cons in Hk as [[_ Hk0] _]. simpl head.
  destruct k0; try done; intros Hb%bool_decide_eq_true; destruct sep; simpl in *; (congruence || lia).
Qed.

(** What a split that goes up leaves: the tree with both halves in it, or the halves
    of the root. *)
Definition propagated (c : list crumb) (frames : list DescentFrame) (TL : tree) (sep : OrderedValue) (TR : tree)
    (h : nat) (k : Z) (root : PageId) (p : BufferPool) (r : option (OrderedValue * PageId)) : Prop :=
  match r with
  | None => ∃ T, twf (length c + h) T ∧ tpid T = croot c (tpid TL) ∧
      flat T = cflat_l c ++ (flat TL ++ sep :: flat TR) ++ cflat_r c ∧
      leaves T = cleaves_l c ++ (leaves TL ++ leaves TR) ++ cleaves_r c ∧
      owned bt k p root (nodes T INVALID_PAGE_ID)
  | Some (sep', new') => length frames = length c ∧ ∃ TL' TR', twf (length c + h) TL' ∧ twf (length c + h) TR' ∧
      sep_ok kd sep' ∧ tpid TL' = croot c (tpid TL) ∧ new' = tpid TR' ∧
      flat TL' ++ sep' :: flat TR' = cflat_l c ++ (flat TL ++ sep :: flat TR) ++ cflat_r c ∧
      leaves TL' ++ leaves TR' = cleaves_l c ++ (leaves TL ++ leaves TR) ++ cleaves_r c ∧
      owned bt k p root (nodes TL' (leftmost TR') ++ nodes TR' INVALID_PAGE_ID)
  end.

Lemma split_internal_ok h k s root ns f old pid next txn prev r s' : 1 ≤ k →
  owned bt k s.1 root (ns ++ (pid, old) :: fnodes f next) → fwf h f → zlen (fkeys f) < 2 ^ 16 →
  split_internal io pio bt (fkeys f) (fpids f) pid txn prev s = (Ok r, s') →
  ∃ ls t f2, f = fill ls (FMore t r.1.1 f2) ∧
    twf (S h) (TNode pid (fill ls (FOne t))) ∧ twf (S h) (TNode r.1.2 f2) ∧ sep_ok kd r.1.1 ∧
    owned bt (k - 1) s'.1 root
      (ns ++ nodes (TNode pid (fill ls (FOne t))) (fleft f2) ++ nodes (TNode r.1.2 f2) next).
Proof.
  intros Hk Ho Hf Hz E. unfold split_internal in E. destruct (fkeys f !! _) as [up|] eqn:Eu; [|done].
  destruct (forest_split _ _ _ Eu) as (ls&t&f2&Ef&E1&E2&E3&E4). rewrite E1, E2, E3, E4 in E.
  apply op_bind_Ok in E as (rp&s1&Ea&E). apply op_bind_Ok in E as (l1&s2&Ew1&E). apply op_bind_Ok in E as (l2&s3&Ew2&E).
  injection E as <- <-. cbn [fst snd]. unfold on_pool in Ea. destruct (alloc_page pio s.1) as [ra pa] eqn:Eal.
  injection Ea as -> <-. destruct (owned_alloc bt pio _ _ _ _ _ _ Ho Hk Eal) as (Ho1&Hfr&Hrp&_).
  subst f. apply wff_fill in Hf as [Hls [Ht [Hup Hf2]]]. rewrite fnodes_fill in Ho1, Hfr. cbn [fnodes fleft] in Ho1, Hfr.
  assert (fwf h (fill ls (FOne t))) as Hfl by (by apply wff_fill).
  rewrite fkeys_fill in Hz. cbn [fkeys] in Hz. unfold zlen in Hz. rewrite length_app, length_cons in Hz.
  assert (fnodes (fill ls (FOne t)) (fleft f2) = lnodes ls (leftmost t) ++ nodes t (fleft f2)) as En.
  { by rewrite fnodes_fill. }
  assert (node_fit (Internal (fkeys f2) (fpids f2))) as Hn2.
  { eapply (forest_fit (k - 1) pa root (ns ++ (pid, old) :: lnodes ls (leftmost t) ++ nodes t (fleft f2)) h f2 next);
      [by rewrite <- !app_assoc; simpl; rewrite <- app_assoc|lia|done|unfold zlen; lia]. }
  assert (node_fit (Internal (fkeys (fill ls (FOne t))) (fpids (fill ls (FOne t))))) as Hn1.
  { eapply (forest_fit (k - 1) pa root (ns ++ (pid, old) :: fnodes f2 next) h _ (fleft f2)); [|lia|done|].
    - rewrite En. eapply owned_perm; [|exact Ho1]. rewrite <- app_assoc. f_equiv. simpl. f_equiv.
      rewrite app_assoc. apply Permutation_app_comm.
    - rewrite fkeys_fill. unfold zlen. rewrite length_app. simpl. lia. }
  pose proof (ow_room _ _ _ _ _ Ho1) as Hroom. simpl in Hroom.
  apply write_node_mem in Ew1 as (Hb2&bs2&Hd2&Hw2); [|done|unfold INVALID_PAGE_ID in *; lia].
  pose proof (owned_add bt _ _ _ _ _ _ _ _ Ho1 Hfr Hrp Hd2 Hw2) as Ho2.
  apply write_node_mem in Ew2 as (Hb1&bs1&Hd1&Hw1); [|done|].
  2:{ apply (owned_pid bt _ _ _ _ pid Ho2); [|lia]. cbn [fmap list_fmap]. rewrite fmap_app. set_solver. }
  assert (owned bt (k - 1) s2.1 root ((pid, old) :: (ns ++ fnodes (fill ls (FOne t)) (fleft f2) ++
    nodes (TNode rp f2) next))) as Ho2'.
  { eapply owned_perm; [|exact Ho2]. rewrite En. simpl. solve_Permutation. }
  pose proof (owned_write bt _ _ _ _ _ _ _ _ _ Ho2' Hd1 Hw1) as Ho3. exists ls, t, f2.
  split_and!; try done.
  eapply owned_perm; [|exact Ho3]. simpl. solve_Permutation.
Qed.

Lemma propagate_up v rid inc txn frames : ∀ c TL sep TR h k prev s root r l s',
  psize ≤ 65536 → follows frames (tpid TL) c → covered frames c v (zlen inc) → cwf psize kd c h →
  twf h TL → twf h TR → sep_ok kd sep → zlen frames ≤ k →
  owned bt k s.1 root (cnodes c (tpid TL) (leftmost TL) INVALID_PAGE_ID ++
    nodes TL (leftmost TR) ++ nodes TR (cnext c INVALID_PAGE_ID)) →
  insert_propagate io pio bt v rid inc txn frames (Some (sep, tpid TR)) prev s = (Ok (r, l), s') →
  propagated c frames TL sep TR h (k - zlen frames) root s'.1 r.
Proof.
  induction frames as [|fr frames IH]; intros c TL sep TR h k prev s root r l s' Hps Hfol Hcov Hc HL HR Hsep Hk Ho E.
  { injection E as <- <- <-. destruct Hcov as [Hl|(fr&[=]&_)]. destruct c; [|done]. split; [done|]. exists TL, TR.
    simpl in *. rewrite !app_nil_r. split_and!; try done. eapply owned_le; [|done]. change (zlen []) with 0. lia. }
  destruct c as [|[pid ls rs] c]; [done|]. destruct Hfol as (Epid&Enode&Eidx&Hfol). simpl in Epid, Eidx, Hfol.
  destruct Hc as (Hls&Hrs&Hfit&Hc). cbn [c_ls c_rs c_pid] in *.
  pose proof (crumb_keys_ok h (mkCrumb pid ls rs) Hls Hrs) as Hkeys.
  set (f := fill ls (FMore TL sep (cons_f TR rs))).
  assert (fwf h f) as Hf by (apply wff_fill; split; [done|]; split_and!; [done..|by apply wff_cons]).
  destruct (nodes_fork pid ls TL sep TR rs (cnext c INVALID_PAGE_ID)) as [En Eleft]. fold f in En, Eleft.
  assert (owned bt k s.1 root (cnodes c pid (lfirst ls (leftmost TL)) INVALID_PAGE_ID ++
    (pid, crumb_node (mkCrumb pid ls rs) (tpid TL)) :: fnodes f (cnext c INVALID_PAGE_ID))) as Ho1.
  { eapply owned_perm; [|exact Ho]. rewrite En. cbn [cnodes cnext c_pid c_ls c_rs]. solve_Permutation. }
  assert (inner_size (fkeys f) = inner_size (crumb_keys (mkCrumb pid ls rs)) + encoded_key_len sep + 4) as Hsize.
  { unfold f. rewrite <- insert_key. apply inner_size_insert. }
  assert (zlen (fkeys f) < 2 ^ 16) as Hz.
  { pose proof (inner_size_count (crumb_keys (mkCrumb pid ls rs))). unfold f. rewrite <- (insert_key ls rs sep TL TR).
    unfold zlen in *. rewrite length_insert_at. unfold body_capacity, PAGE_HEADER_SIZE, crumb_keys in *. simpl in *. lia. }
  cbn [insert_propagate] in E. rewrite Enode in E. unfold crumb_node, crumb_keys in E. cbn [c_ls c_rs] in E.
  rewrite Eidx, (insert_key ls rs sep TL TR), (insert_child ls rs sep TL TR), Epid in E. fold f in E.
  cbn [body_len] in E. fold (inner_size (fkeys f)) in E. pose proof (zlen_nonneg frames) as Hzf.
  assert (zlen (fr :: frames) = zlen frames + 1) as Hzc by (unfold zlen; rewrite length_cons; lia).
  case_decide as Hd.
  - apply op_bind_Ok in E as (l1&s1&Ew&E). injection E as <- <- <-.
    apply write_node_mem in Ew as (_&bs&Hbs&Hw).
    2:{ rewrite cons_middle, app_assoc in Ho1. eapply forest_fit; [exact Ho1|lia|done|done]. }
    2:{ apply (owned_pid bt _ _ _ _ pid Ho1); [|lia]. rewrite fmap_app. set_solver. }
    exists (plug c (TNode pid f)). rewrite tpid_plug, flat_plug, leaves_plug. cbn [tpid flat leaves croot cflat_l cflat_r cleaves_l cleaves_r c_pid c_ls c_rs].
    unfold f at 2 3. rewrite fflat_fill, fleaves_fill. cbn [fflat fleaves]. rewrite fflat_cons, fleaves_cons.
    split_and!.
    + replace (length (mkCrumb pid ls rs :: c) + h)%nat with (length c + S h)%nat by (simpl; lia).
      apply wf_plug. split; [done|]. by split.
    + done.
    + by simplify_list_eq.
    + by simplify_list_eq.
    + apply (owned_le bt k); [lia|]. rewrite nodes_plug. cbn [tpid]. rewrite Eleft.
      assert (owned bt k s.1 root ((pid, crumb_node (mkCrumb pid ls rs) (tpid TL)) ::
        cnodes c pid (lfirst ls (leftmost TL)) INVALID_PAGE_ID ++ fnodes f (cnext c INVALID_PAGE_ID))) as Ho2.
      { eapply owned_perm; [|exact Ho1]. solve_Permutation. }
      eapply owned_perm; [|exact (owned_write bt _ _ _ _ _ _ _ _ _ Ho2 Hbs Hw)]. simpl. solve_Permutation.
  - apply op_bind_Ok in E as (r1&s1&Es&E).
    eapply (split_internal_ok h k) in Es as (ls2&t&f2&Ef&H1&H2&Hup&Ho2); [|lia|exact Ho1|exact Hf|done].
    destruct r1 as [[up rp] l1]. cbn [fst snd] in *.
    assert (covered frames c v (zlen inc)) as Hcov'.
    { destruct Hcov as [Hl|(fr'&Hl&Hs)]; [left; by injection Hl|]. destruct frames as [|fr2 frames]; [|by right; exists fr'].
      injection Hl as ->. rewrite Enode in Hs. pose proof (safe_absorbs _ _ _ _ sep Hkeys Hsep Hs). lia. }
    set (T1 := TNode pid (fill ls2 (FOne t))) in *. set (T2 := TNode rp f2) in *.
    assert (leftmost T1 = lfirst ls (leftmost TL)) as El1.
    { rewrite <- Eleft. unfold T1. simpl. rewrite Ef, !fleft_fill. done. }
    pose proof (IH c T1 up T2 (S h) (k - 1) l1 s1 root r l s' Hps Hfol Hcov' Hc H1 H2 Hup) as HI.
    rewrite El1 in HI. cbn [tpid T1 T2] in HI. specialize (HI ltac:(lia) Ho2 E).
    replace (k - 1 - zlen frames) with (k - zlen (fr :: frames)) in HI by lia.
    assert (flat T1 ++ up :: flat T2 = lflat ls ++ (flat TL ++ sep :: flat TR) ++ rflat rs) as Eflat.
    { transitivity (fflat f); [unfold T1, T2; rewrite Ef; simpl; rewrite !fflat_fill; by simplify_list_eq|].
      unfold f. rewrite fflat_fill. cbn [fflat]. rewrite fflat_cons. by simplify_list_eq. }
    assert (leaves T1 ++ leaves T2 = lleaves ls ++ (leaves TL ++ leaves TR) ++ rleaves rs) as Eleaves.
    { transitivity (fleaves f); [unfold T1, T2; rewrite Ef; simpl; rewrite !fleaves_fill; by simplify_list_eq|].
      unfold f. rewrite fleaves_fill. cbn [fleaves]. rewrite fleaves_cons. by simplify_list_eq. }
    unfold propagated in *. rewrite Eflat, Eleaves in HI. cbn [croot cflat_l cflat_r cleaves_l cleaves_r c_pid c_ls c_rs tpid T1 length] in *.
    replace (S (length c) + h)%nat with (length c + S h)%nat by lia.
    destruct r as [[sep' new']|].
    + destruct HI as (Hlen&TL'&TR'&?&?&?&?&?&E1&E2&?). split; [lia|]. exists TL', TR'. rewrite E1, E2.
      split_and!; try done; by simplify_list_eq.
    + destruct HI as (T&?&?&E1&E2&?). exists T. rewrite E1, E2. split_and!; try done; by simplify_list_eq.
Qed.

End insert.
