(* ===== verification/BTreeDescent.v ===== *)
(** Insertion into a B+tree as a whole: the leaf, the descent to it, the new root. *)

From stdpp Require Import base numbers list gmap sorting strings.
From S2P Require Import Prelude Format Page PageSpec LockMgr Txn WalCodec Wal BufferPool BTreeNode.
From S2P Require Import BTreeNodeProps BTree BTreeSpec HeapLog BTreeStore BTreeInsert.
Open Scope op_scope.

Lemma fleft_nodes f next : fleft f ∈ (fnodes f next).*1.
Proof.
  destruct f as [t|t s f]; simpl; [apply leftmost_nodes|]. rewrite fmap_app. apply elem_of_app. left. apply leftmost_nodes.
Qed.

Lemma cnext_nodes c : ∀ hole first next, cnext c next = next ∨ cnext c next ∈ (cnodes c hole first next).*1.
Proof.
  induction c as [|[pid ls rs] c IH]; intros hole first next; [by left|]. cbn [cnext cnodes c_pid c_ls c_rs].
  destruct (IH pid (lfirst ls first) next) as [Hn|Hn]; rewrite !fmap_app, fmap_cons, fmap_app, elem_of_app;
    destruct rs as [[s f]|]; cbn [rnext rnodes] in *.
  - right. right. right. apply elem_of_app. right. apply fleft_nodes.
  - by left.
  - right. right. right. apply elem_of_app. right. apply fleft_nodes.
  - by right; left.
Qed.

(** ** Steps of a descent *)

Definition tnode (t : tree) (next : PageId) : Node :=
  match t with TLeaf _ es => leaf_of es next | TNode _ f => Internal (fkeys f) (fpids f) end.

Lemma tnode_nodes t next : (tpid t, tnode t next) ∈ nodes t next.
Proof. destruct t; simpl; constructor. Qed.

Lemma plug_node c t next : (tpid t, tnode t (cnext c next)) ∈ nodes (plug c t) next.
Proof. rewrite nodes_plug. apply elem_of_app. right. apply tnode_nodes. Qed.

(** The child at an index, with what is around it. *)
Lemma child_split f idx : (idx ≤ length (fkeys f))%nat → ∃ ls t rs, f = fill ls (cons_f t rs) ∧ length ls = idx ∧
  child_at (fpids f) idx = Ok (tpid t) ∧ ls.*2 = take idx (fkeys f) ∧ rkeys rs = drop idx (fkeys f).
Proof.
  intros (ls&t&rs&->&Hl)%forest_at. exists ls, t, rs. split; [done|]. split; [done|].
  rewrite fkeys_fill, fkeys_cons, fpids_fill, fpids_cons. unfold child_at.
  rewrite lookup_app_r by (rewrite !length_fmap; lia). rewrite !length_fmap, Hl, Nat.sub_diag.
  rewrite take_app_length', drop_app_length' by (by rewrite length_fmap). done.
Qed.

Lemma last_lflat l ls : last (l ++ lflat ls) = match last ls.*2 with Some s => Some s | None => last l end.
Proof.
  destruct ls as [|[t s] ls _] using rev_ind; [by rewrite app_nil_r|]. rewrite fmap_app. simpl. rewrite last_snoc.
  assert (lflat (ls ++ [(t, s)]) = (lflat ls ++ flat t) ++ [s]) as ->.
  { induction ls as [|[t' s'] ls IH]; simpl; [done|]. by rewrite IH, <- !app_assoc. }
  by rewrite app_assoc, last_snoc.
Qed.
Lemma head_rflat rs l : head (rflat rs ++ l) = match head (rkeys rs) with Some s => Some s | None => head l end.
Proof. by destruct rs as [[s f]|]. Qed.

Lemma route_insert_spec keys v : (route_insert_child keys v ≤ length keys)%nat ∧
  (∀ x, last (take (route_insert_child keys v) keys) = Some x → ov_le x v) ∧
  (∀ x, head (drop (route_insert_child keys v) keys) = Some x → ov_le v x).
Proof.
  induction keys as [|k keys (IH1&IH2&IH3)]; cbn [route_insert_child]; [by split_and!|].
  destruct (ov_lt v k) eqn:E; [split_and!; simpl; [lia|done|]|].
  { intros x [= <-]. by apply ov_lt_le. }
  simpl. split_and!; [lia| |done]. intros x. rewrite last_cons.
  destruct (last (take _ keys)) as [y|]; [intros [= <-]; by apply IH2|]. intros [= <-]. unfold ov_le. by rewrite E.
Qed.

Section leaf.
Context `{!Crc32}.
Context (io : Calls) (pio : PoolCalls) (bt : DiskBTree) (kd : Z).

Notation psize := (bt_page_size bt).
Notation cap := (body_capacity (bt_page_size bt)).
Notation twf := (wf psize kd).

Lemma split_leaf_ok k s root ns entries incs es old pid next txn prev r s' : 1 ≤ k →
  owned bt k s.1 root (ns ++ [(pid, old)]) → rep entries incs es → Forall (entry_ok kd) es →
  zlen es < 2 ^ 16 → 0 ≤ next < 2 ^ 32 →
  split_leaf io pio bt entries incs next pid txn prev s = (Ok r, s') →
  ∃ es1 es2, es = es1 ++ es2 ∧ key_of <$> head es2 = Some r.1.1 ∧
    twf 0 (TLeaf pid es1) ∧ twf 0 (TLeaf r.1.2 es2) ∧
    owned bt (k - 1) s'.1 root (ns ++ nodes (TLeaf pid es1) r.1.2 ++ nodes (TLeaf r.1.2 es2) next).
Proof.
  intros Hk Ho Hrep Hes Hz Hnx E. unfold split_leaf in E. set (mid := (length entries / 2)%nat) in E. clearbody mid.
  destruct (drop mid entries) as [|[sep rid0] right0] eqn:Ed; [done|]. rewrite <- Ed in E.
  apply op_bind_Ok in E as (rp&s1&Ea&E). apply op_bind_Ok in E as (l1&s2&Ew1&E). apply op_bind_Ok in E as (l2&s3&Ew2&E).
  injection E as <- <-. cbn [fst snd]. unfold on_pool in Ea. destruct (alloc_page pio s.1) as [ra pa] eqn:Eal.
  injection Ea as -> <-. destruct (owned_alloc bt pio _ _ _ _ _ _ Ho Hk Eal) as (Ho1&Hfr&Hrp&Hrv).
  pose proof (rep_take mid _ _ _ Hrep) as R1. pose proof (rep_drop mid _ _ _ Hrep) as R2.
  assert (0 ≤ pid < 2 ^ 32) as Hpid.
  { apply (owned_pid bt _ _ _ _ pid Ho); [|lia]. rewrite fmap_app. set_solver. }
  unfold zlen in Hz. unfold INVALID_PAGE_ID in Hrv.
  apply write_node_mem in Ew1 as (Hb2&bs2&Hd2&Hw2); [| |lia].
  2:{ eapply rep_fit; [exact R2|by apply Forall_drop|done|unfold zlen; rewrite length_drop; lia]. }
  pose proof (owned_add bt _ _ _ _ _ _ _ _ Ho1 Hfr Hrp Hd2 Hw2) as Ho2.
  apply write_node_mem in Ew2 as (Hb1&bs1&Hd1&Hw1); [| |done].
  2:{ eapply rep_fit; [exact R1|by apply Forall_take|lia|unfold zlen; rewrite length_take; lia]. }
  rewrite (rep_canon _ _ _ _ R1) in Hd1. rewrite (rep_canon _ _ _ _ R2) in Ho2.
  rewrite (rep_body_len _ _ _ _ R1) in Hb1. rewrite (rep_body_len _ _ _ _ R2) in Hb2.
  assert (owned bt (k - 1) s2.1 root ((pid, old) :: (ns ++ [(rp, leaf_of (drop mid es) next)]))) as Ho2'.
  { eapply owned_perm; [|exact Ho2]. solve_Permutation. }
  pose proof (owned_write bt _ _ _ _ _ _ _ _ _ Ho2' Hd1 Hw1) as Ho3.
  exists (take mid es), (drop mid es). split_and!; try done.
  - by rewrite take_drop.
  - destruct R2 as [R2 _]. rewrite Ed in R2. destruct (drop mid es) as [|e]; [done|]. injection R2 as Ee _. unfold key_of. simpl. by rewrite <- Ee.
  - split_and!; [done|by apply Forall_take|done].
  - split_and!; [done|by apply Forall_drop|done].
  - eapply owned_perm; [|exact Ho3]. simpl. solve_Permutation.
Qed.

(** What an insertion leaves below the root: a tree with the entries [pre ++ es ++ post],
    or the two halves of a root that was split. *)
Definition placed (h : nat) (k : Z) (root : PageId) (p : BufferPool) (all : list Entry)
    (r : option (OrderedValue * PageId)) : Prop :=
  match r with
  | None => ∃ T, twf h T ∧ tpid T = root ∧ in_order T ∧ entries T = all ∧
      owned bt k p root (nodes T INVALID_PAGE_ID)
  | Some (sep, new) => ∃ TL TR, twf h TL ∧ twf h TR ∧ sep_ok kd sep ∧ tpid TL = root ∧ new = tpid TR ∧
      StronglySorted ov_le (flat TL ++ sep :: flat TR) ∧ entries TL ++ entries TR = all ∧
      owned bt k p root (nodes TL (leftmost TR) ++ nodes TR INVALID_PAGE_ID)
  end.

Lemma sorted_repeat (l1 l2 : list OrderedValue) x :
  StronglySorted ov_le (l1 ++ x :: l2) → StronglySorted ov_le (l1 ++ x :: x :: l2).
Proof.
  intros Hs. apply sorted_insert; [done|intros y Hy|by intros y [= <-]].
  apply StronglySorted_app in Hs as (Hs&_&_). apply Hs; [|constructor]. by apply last_Some_elem_of.
Qed.

Lemma leaf_safe_fits es next v rid inc pos : 
  node_is_insert_safe (leaf_of es next) v (zlen inc) cap = true → leaf_size (insert_at pos (v, rid, inc) es) ≤ cap.
Proof.
  intros Hs. rewrite leaf_size_insert. destruct (rep_leaf_of es next) as (incs&El&Hr). rewrite El in Hs.
  unfold node_is_insert_safe in Hs. apply bool_decide_eq_true in Hs. rewrite (rep_body_len _ _ _ _ Hr) in Hs.
  unfold entry_size, key_of. cbn [fst snd]. lia.
Qed.

Definition with_leaf (c : list crumb) (es : list Entry) : list Entry :=
  concat (cleaves_l c).*2 ++ es ++ concat (cleaves_r c).*2.

Lemma entries_leaf c pid es : entries (plug c (TLeaf pid es)) = with_leaf c es.
Proof. unfold entries, with_leaf. rewrite leaves_plug. cbn [leaves]. by rewrite !fmap_app, !concat_app; simpl; rewrite app_nil_r. Qed.

Lemma insert_at_leaf v rid inc txn fr frames c pid es k prev s root r l s' : psize ≤ 65536 →
  entry_ok kd (v, rid, inc) → df_pid fr = pid → df_node fr = leaf_of es (cnext c INVALID_PAGE_ID) →
  follows frames pid c →
  (length frames = length c ∨ ∃ fr', last (fr :: frames) = Some fr' ∧ node_is_insert_safe (df_node fr') v (zlen inc) cap = true) →
  cwf psize kd c 0 → twf 0 (TLeaf pid es) → zlen (fr :: frames) ≤ k → root = croot c pid →
  owned bt k s.1 root (nodes (plug c (TLeaf pid es)) INVALID_PAGE_ID) →
  in_order (plug c (TLeaf pid es)) →
  (∀ x, last (cflat_l c) = Some x → ov_le x v) → (∀ x, head (cflat_r c) = Some x → ov_le v x) →
  insert_propagate io pio bt v rid inc txn (fr :: frames) None prev s = (Ok (r, l), s') →
  (r = None ∧ s' = s ∧ (v, rid) ∈ es.*1) ∨
  (r ≠ None → length frames = length c) ∧ ∃ pos, (pos ≤ length es)%nat ∧
    placed (length c) (k - zlen (fr :: frames)) root s'.1 (with_leaf c (insert_at pos (v, rid, inc) es)) r.
Proof.
  intros Hps Hok Epid Enode Hfol Hcov Hc HL Hk -> Ho Hord Hlo Hhi E. unfold in_order in Hord.
  rewrite flat_plug in Hord. cbn [flat] in Hord. rewrite nodes_plug in Ho. cbn [tpid leftmost nodes] in Ho.
  destruct HL as (_&Hes&Hsz). pose proof (leaf_size_count es) as Hcnt.
  pose proof (zlen_nonneg frames) as Hzf.
  assert (zlen (fr :: frames) = zlen frames + 1) as Hzc by (unfold zlen; rewrite length_cons; lia).
  assert (0 ≤ cnext c INVALID_PAGE_ID < 2 ^ 32) as Hnx.
  { destruct (cnext_nodes c pid pid INVALID_PAGE_ID) as [->|Hin]; [done|].
    apply (owned_pid bt _ _ _ _ _ Ho); [|lia]. rewrite fmap_app. apply elem_of_app. by left. }
  destruct (rep_leaf_of es (cnext c INVALID_PAGE_ID)) as (incs&El&Hrep). rewrite El in Enode, Ho.
  cbn [insert_propagate] in E. rewrite Enode in E.
  destruct (binary_search_by _ es.*1) as [i|pos] eqn:Eb.
  { left. injection E as <- <- <-. split_and!; try done. apply binary_search_found in Eb as (x&Hx&Ex).
    apply entry_cmp_Eq in Ex as ->. by apply list_elem_of_lookup_2 in Hx. }
  right. destruct (search_place _ _ _ _ _ _ Eb Hord Hlo Hhi) as [Hpos Hsort]. specialize (Hsort inc).
  pose proof (rep_insert pos v rid inc _ _ _ Hpos Hrep) as Hrep'. set (es' := insert_at pos (v, rid, inc) es) in *.
  assert (Forall (entry_ok kd) es') as Hes'.
  { apply Forall_app. split; [by apply Forall_take|]. constructor; [done|by apply Forall_drop]. }
  assert (zlen es' < 2 ^ 16) as Hz.
  { unfold es', zlen in *. rewrite length_insert_at. unfold body_capacity, PAGE_HEADER_SIZE in *. lia. }
  rewrite (rep_body_len _ _ _ _ Hrep'), Epid in E. case_decide as Hd.
  - apply op_bind_Ok in E as (l1&s1&Ew&E). injection E as <- <- <-. split; [done|]. exists pos. split; [done|].
    exists (plug c (TLeaf pid es')). rewrite tpid_plug, entries_leaf. unfold in_order. rewrite flat_plug.
    apply write_leaf_insert_mem in Ew as (_&bs&Hbs&Hw).
    2:{ by eapply rep_fit. }
    2:{ apply (owned_pid bt _ _ _ _ pid Ho); [|lia]. rewrite fmap_app. set_solver. }
    rewrite (rep_canon _ _ _ _ Hrep') in Hbs. split_and!; try done.
    + replace (length c) with (length c + 0)%nat by lia. by apply wf_plug.
    + apply (owned_le bt k); [lia|]. rewrite nodes_plug. cbn [tpid leftmost nodes].
      rewrite Permutation_app_comm in Ho |- *. by eapply owned_write.
  - apply op_bind_Ok in E as (r1&s1&Es&E).
    eapply (split_leaf_ok k) in Es as (es1&es2&Ees&Ehd&H1&H2&Ho2); [|lia|exact Ho|exact Hrep'|exact Hes'|exact Hz|exact Hnx].
    destruct r1 as [[sep rp] l1]. cbn [fst snd] in *.
    destruct es2 as [|e2 es2]; [done|]. injection Ehd as Ehd.
    assert (sep_ok kd sep) as Hsep.
    { destruct H2 as (_&H2&_). apply Forall_cons in H2 as [[Hx _] _]. by rewrite <- Ehd. }
    assert (covered bt frames c v (zlen inc)) as Hcov'.
    { destruct Hcov as [Hl|(fr'&Hl&Hs)]; [by left|]. destruct frames as [|fr2 frames]; [|by right; exists fr'].
      injection Hl as <-. rewrite Enode, <- El in Hs. by apply (leaf_safe_fits _ _ v rid inc pos) in Hs. }
    pose proof (propagate_up io pio bt kd v rid inc txn frames c (TLeaf pid es1) sep (TLeaf rp (e2 :: es2)) 0 (k - 1)
      l1 s1 _ r l s' Hps Hfol Hcov' Hc H1 H2 Hsep ltac:(lia) Ho2 E) as HI.
    replace (k - 1 - zlen frames) with (k - zlen (fr :: frames)) in HI by lia.
    assert (StronglySorted ov_le (cflat_l c ++ ((key_of <$> es1) ++ sep :: (key_of <$> e2 :: es2)) ++ cflat_r c)) as Hsort'.
    { rewrite Ees, fmap_app in Hsort. rewrite <- !app_assoc in *. rewrite app_assoc in *. rewrite fmap_cons, Ehd in *.
      cbn [app] in *. by apply sorted_repeat. }
    assert (concat (cleaves_l c ++ (leaves (TLeaf pid es1) ++ leaves (TLeaf rp (e2 :: es2))) ++ cleaves_r c).*2
      = with_leaf c es') as Eent.
    { unfold with_leaf. rewrite Ees. rewrite !fmap_app, !concat_app. simpl. by rewrite !app_nil_r, <- !app_assoc. }
    unfold propagated in HI. rewrite Nat.add_0_r in HI. cbn [flat] in HI. destruct r as [[sep' new']|].
    + destruct HI as (Hlen&TL'&TR'&?&?&?&?&?&E1&E2&?). split; [done|]. exists pos. split; [done|]. exists TL', TR'.
      split_and!; try done; [by rewrite E1|]. unfold entries. by rewrite <- concat_app, <- fmap_app, E2.
    + destruct HI as (T&?&?&E1&E2&?). split; [done|]. exists pos. split; [done|]. exists T. unfold in_order, entries.
      rewrite E1, E2. split_and!; done.
Qed.

(** A step of a descent keeps the key between what is left and right of it. *)
Definition around (c : list crumb) (v : OrderedValue) : Prop :=
  (∀ x, last (cflat_l c) = Some x → ov_le x v) ∧ (∀ x, head (cflat_r c) = Some x → ov_le v x).

Lemma around_step pid ls rs c v : around c v →
  (∀ x, last ls.*2 = Some x → ov_le x v) → (∀ x, head (rkeys rs) = Some x → ov_le v x) →
  around (mkCrumb pid ls rs :: c) v.
Proof.
  intros [Hl Hr] Hls Hrs. split; cbn [cflat_l cflat_r c_ls c_rs]; intros x.
  - rewrite last_lflat. destruct (last ls.*2) as [s|]; [intros [= <-]; by apply Hls|apply Hl].
  - rewrite head_rflat. destruct (head (rkeys rs)) as [s|]; [intros [= <-]; by apply Hrs|apply Hr].
Qed.

(** What the descent of an insertion keeps: every node of the path and the meta page,
    or the path from a node that cannot overflow. *)
Definition guarded (v : OrderedValue) (n : Z) (g : bool) (retained : list DescentFrame) (depth : nat) : Prop :=
  if g then length retained = S depth
  else ∃ fr, last retained = Some fr ∧ node_is_insert_safe (df_node fr) v n cap = true.

Lemma insert_descend_ok k root v n fuel : ∀ c t h g top above p x p', (h < fuel)%nat → twf h t →
  owned bt k p root (nodes (plug c t) INVALID_PAGE_ID) →
  df_pid top = tpid t → df_node top = tnode t (cnext c INVALID_PAGE_ID) → follows above (tpid t) c →
  guarded v n g (top :: above) (length c) → around c v →
  insert_descend pio fuel v n cap g (top :: above) p = (Ok x, p') →
  same_mem p p' ∧ ∃ g' fr frames c' pid es, x = Some (g', fr :: frames) ∧ plug c t = plug c' (TLeaf pid es) ∧
    length c' = (length c + h)%nat ∧ df_pid fr = pid ∧ df_node fr = leaf_of es (cnext c' INVALID_PAGE_ID) ∧
    follows frames pid c' ∧ guarded v n g' (fr :: frames) (length c') ∧ around c' v.
Proof.
  induction fuel as [|fuel IH]; intros c t h g top above p x p' Hf Ht Ho Epid Enode Hfol Hg Ha E; [lia|].
  cbn [insert_descend] in E. destruct t as [pid es|pid f].
  - cbn [tnode] in Enode. destruct Ht as (->&_). rewrite Enode in E.
    destruct (rep_leaf_of es (cnext c INVALID_PAGE_ID)) as (incs&El&_). rewrite El in E. injection E as <- <-.
    split; [done|]. exists g, top, above, c, pid, es. rewrite Nat.add_0_r. split_and!; done.
  - destruct h as [|h]; [done|]. cbn [tnode] in Enode. rewrite Enode in E. cbn [tpid] in *.
    destruct (route_insert_spec (fkeys f) v) as (Hi&Hi1&Hi2). set (idx := route_insert_child _ _) in *. clearbody idx.
    destruct (child_split f idx Hi) as (ls&t&rs&Ef&Hls&Ech&Ek1&Ek2). rewrite Ech in E.
    rewrite <- Ek1 in Hi1. rewrite <- Ek2 in Hi2.
    apply op_bind_Ok in E as (child&p1&[= <- <-]&E). apply op_bind_Ok in E as (cn&p2&Er&E).
    set (cr := mkCrumb pid ls rs). assert (plug c (TNode pid f) = plug (cr :: c) t) as Eplug by (by rewrite Ef).
    rewrite Eplug in *. destruct Ht as [Ht _]. rewrite Ef, wff_fill, wff_cons in Ht. destruct Ht as (_&Ht&_).
    apply (owned_read bt pio _ _ _ _ _ _ _ _ Ho (plug_node (cr :: c) t INVALID_PAGE_ID)) in Er as [-> Hm].
    pose proof (owned_same bt _ _ _ _ _ Hm Ho) as Ho2. pose proof (around_step pid ls rs c v Ha Hi1 Hi2) as Ha2.
    assert (df_node top = crumb_node cr (tpid t)) as Enode'.
    { rewrite Enode, Ef, fkeys_fill, fkeys_cons, fpids_fill, fpids_cons. done. }
    destruct (node_is_insert_safe _ v n cap) eqn:Hs.
    + eapply (IH (cr :: c) t h) in E as (Hm2&g'&fr&frames&c'&pid'&es'&?&?&Hlen&?); [|lia|done|exact Ho2|done..| |done].
      * split; [by etrans|]. exists g', fr, frames, c', pid', es'. split_and!; try done; try naive_solver. rewrite Hlen. simpl. lia.
      * eexists. split; [done|]. exact Hs.
    + eapply (IH (cr :: c) t h) in E as (Hm2&g'&fr&frames&c'&pid'&es'&?&?&Hlen&?); [|lia|done|exact Ho2|done..| | |done].
      * split; [by etrans|]. exists g', fr, frames, c', pid', es'. split_and!; try done; try naive_solver. rewrite Hlen. simpl. lia.
      * rewrite <- Enode, <- Hls. by split_and!.
      * unfold guarded in *. destruct g; [by simpl in *; f_equal|]. destruct Hg as (fr&Hl&Hsf).
        destruct above as [|fa above]; [|by exists fr]. injection Hl as <-. eexists. split; [done|]. cbn [df_node]. by rewrite <- Enode.
Qed.

(** A new root over two halves. *)
Lemma grow_root_ok h k root g sep TL TR txn prev s l s' : psize ≤ 65536 → 1 ≤ k →
  twf h TL → twf h TR → sep_ok kd sep → tpid TL = root → StronglySorted ov_le (flat TL ++ sep :: flat TR) →
  owned bt k s.1 root (nodes TL (leftmost TR) ++ nodes TR INVALID_PAGE_ID) →
  grow_root io pio bt root g sep (tpid TR) txn prev s = (Ok l, s') →
  ∃ t, entries t = entries TL ++ entries TR ∧ tree_at bt kd (k - 1) s'.1 (S h) t.
Proof.
  intros Hps Hk HL HR Hsep Hroot Hord Ho E. unfold grow_root in E. destruct g; [|done].
  apply op_bind_Ok in E as (np&s1&Ea&E). apply op_bind_Ok in E as (l1&s2&Ew&E). apply op_bind_Ok in E as (img&s3&Em&E).
  injection Em as Em <-. unfold on_pool in Ea. destruct (alloc_page pio s.1) as [ra pa] eqn:Eal. injection Ea as -> <-.
  destruct (owned_alloc bt pio _ _ _ _ _ _ Ho Hk Eal) as (Ho1&Hfr&Hrp&Hrv). unfold INVALID_PAGE_ID in Hrv.
  set (f := FMore TL sep (FOne TR)). assert (wff psize kd h f) as Hf by done.
  apply write_node_mem in Ew as (Hb&bs&Hbs&Hw); [| |lia].
  2:{ rewrite <- Hroot. change (node_fit (Internal (fkeys f) (fpids f))).
      eapply (forest_fit bt kd (k - 1) pa root [] h f INVALID_PAGE_ID); [exact Ho1|lia|done|done]. }
  pose proof (owned_add bt _ _ _ _ _ _ _ _ Ho1 Hfr Hrp Hbs Hw) as Ho2. rewrite <- Hroot in Ho2.
  apply meta_bytes_inv in Em as [Hpz ->].
  assert (0 ≤ meta_page bt < 2 ^ 32) as Hmp.
  { pose proof (ow_range _ _ _ _ _ Ho2) as Hr. apply Forall_cons in Hr as [Hr _].
    pose proof (ow_room _ _ _ _ _ Ho2). unfold INVALID_PAGE_ID in *. lia. }
  assert (zlen (NODE_META :: u32_to_le np) = 5) as H5 by done.
  destruct (image_body (meta_page bt) psize (NODE_META :: u32_to_le np)) as (_&_&Hz); [lia|].
  apply write_raw_mem in E as (mb&Hmz&Hms&Hmi&Hwm); [|lia|apply image_rd; [done|lia]].
  exists (TNode np f). split; [unfold entries; simpl; by rewrite fmap_app, concat_app|]. constructor.
  - split; [done|]. cbn [body_len] in Hb. done.
  - done.
  - eapply owned_meta; [exact Ho2|exact Hmi| |exact Hwm]. intros msg. apply (meta_root_image _ (meta_page bt) _ psize); [lia|simpl; lia|congruence|done].
Qed.

Lemma follows_length frames : ∀ hole c, follows frames hole c → (length frames ≤ length c)%nat.
Proof.
  induction frames as [|fr frames IH]; intros hole c; [simpl; lia|]. destruct c as [|cr c]; [done|].
  intros (_&_&_&H2). apply IH in H2. simpl. lia.
Qed.

(** C4: An insertion that succeeds into a well-formed B+tree leaves a well-formed one,
    balanced, in key order, every page fitting and the leaf chain linked, of the same
    height or one more, whose entries are those before with the new one among them; only
    an entry that was there changes nothing. The descent that drops its latches at a safe
    node never needs a dropped ancestor again, and fuel above the height is enough. *)
Theorem tree_insert_ok fuel v rid inc txn prev k s h t r s' : psize ≤ 65536 → entry_ok kd (v, rid, inc) →
  tree_at bt kd k s.1 h t → Z.of_nat h + 2 ≤ k → (h < fuel)%nat →
  insert_in_txn_with_include io pio fuel bt v rid inc txn prev s = (Ok r, s') →
  (∃ lsn, r = Some lsn) ∧
  ((v, rid) ∈ (entries t).*1 ∧ same_mem s.1 s'.1 ∨
   ∃ h' t' es1 es2, (h' = h ∨ h' = S h) ∧ tree_at bt kd (k - Z.of_nat h - 2) s'.1 h' t' ∧
     entries t = es1 ++ es2 ∧ entries t' = es1 ++ (v, rid, inc) :: es2).
Proof.
  intros Hps Hok [Hwf Hord Ho] Hk Hf E. unfold insert_in_txn_with_include in E.
  apply op_bind_Ok in E as (root&s1&E1&E). apply op_bind_Ok in E as (node&s2&E2&E). apply op_bind_Ok in E as (d&s3&E3&E).
  unfold on_pool in E1, E2, E3. destruct (root_page pio bt s.1) as [r1 p1] eqn:Er. injection E1 as -> <-.
  apply (owned_root bt pio _ _ _ _ _ _ Ho) in Er as [-> Hm1].
  destruct (read_node pio _ _) as [r2 p2] eqn:Er. injection E2 as -> <-. cbn [fst snd] in *.
  pose proof (owned_same bt _ _ _ _ _ Hm1 Ho) as Ho1.
  apply (owned_read bt pio _ _ _ _ _ _ _ _ Ho1 (tnode_nodes t _)) in Er as [-> Hm2].
  pose proof (owned_same bt _ _ _ _ _ Hm2 Ho1) as Ho2.
  destruct (insert_descend _ _ _ _ _ _ _ _) as [r3 p3] eqn:Ed. injection E3 as -> <-. cbn [fst snd] in *.
  eapply (insert_descend_ok k (tpid t) v (zlen inc) fuel [] t h) in Ed
    as (Hm3&g'&fr&frames&c&pid&es&->&Eplug&Hlen&Epid&Enode&Hfol&Hg&Ha1&Ha2); [|done..].
  simpl in Eplug, Hlen. subst t. rewrite <- Hlen in *. pose proof (owned_same bt _ _ _ _ _ Hm3 Ho2) as Ho3.
  assert (same_mem s.1 p3) as Hm by (etrans; [exact Hm1|]; by etrans).
  apply op_bind_Ok in E as ([r4 l4]&s4&E4&E). pose proof (follows_length _ _ _ Hfol) as Hfl.
  assert (zlen (fr :: frames) ≤ Z.of_nat (length c) + 1) as Hzl by (unfold zlen; rewrite length_cons; lia).
  rewrite <- (Nat.add_0_r (length c)) in Hwf. apply wf_plug in Hwf as [Hc Hleaf].
  rewrite tpid_plug in *. cbn [tpid] in *.
  apply (insert_at_leaf v rid inc txn fr frames c pid es k prev _ (croot c pid)) in E4; try done; [| |lia].
  2:{ unfold guarded in Hg. destruct g'; [left; by injection Hg|by right]. }
  rewrite entries_leaf. destruct E4 as [(->&->&Hin)|(_&pos&Hpos&Hpl)].
  { injection E as <- <-. split; [by eexists|]. left. split; [|done]. unfold with_leaf. rewrite !fmap_app. set_solver. }
  assert (with_leaf c es = (concat (cleaves_l c).*2 ++ take pos es) ++ (drop pos es ++ concat (cleaves_r c).*2)) as Ees.
  { unfold with_leaf. rewrite <- (take_drop pos es) at 1. by rewrite <- !app_assoc. }
  assert (with_leaf c (insert_at pos (v, rid, inc) es) = (concat (cleaves_l c).*2 ++ take pos es) ++
    (v, rid, inc) :: (drop pos es ++ concat (cleaves_r c).*2)) as Ees'.
  { unfold with_leaf, insert_at. by rewrite <- !app_assoc. }
  cbn [fst snd] in *. destruct r4 as [[sep new]|].
  - destruct Hpl as (TL&TR&HL&HR&Hsep&Hroot&->&Hso&Hen&Ho4). apply op_bind_Ok in E as (l5&s5&E5&E). injection E as <- <-.
    apply (grow_root_ok (length c) (k - zlen (fr :: frames)) (croot c pid) g' sep TL TR) in E5 as (t'&Het&[? ? Ho5]); try done; [|lia].
    split; [by eexists|]. right. exists (S (length c)), t'. do 2 eexists. split; [by right|]. split; [|split; [exact Ees|]].
    + constructor; try done. eapply owned_le; [|exact Ho5]. lia.
    + by rewrite Het, Hen.
  - destruct Hpl as (T&HT&Htp&Hto&Hte&Ho4). injection E as <- <-.
    split; [by eexists|]. right. exists (length c), T. do 2 eexists. split; [by left|]. split; [|split; [exact Ees|]].
    + constructor; try done. rewrite Htp. eapply owned_le; [|exact Ho4]. lia.
    + by rewrite Hte.
Qed.

End leaf.
