(* ===== verification/BTreeSearch.v ===== *)
(** Reads of a B+tree: the descents, the chain of leaves, and what the scans return. *)

From stdpp Require Import base numbers list gmap sorting strings.
From S2P Require Import Prelude Format Page PageSpec LockMgr Txn WalCodec Wal BufferPool BTreeNode.
From S2P Require Import BTreeNodeProps BTree BTreeSpec HeapLog BTreeStore BTreeInsert BTreeDescent.
Open Scope op_scope.

(** ** The chain of leaves *)

Definition first_pid (ls : list (PageId * list Entry)) (next : PageId) : PageId :=
  match ls with [] => next | (pid, _) :: _ => pid end.

(** The pages of a chain of leaves whose last is linked to [next]. *)
Fixpoint chain (ls : list (PageId * list Entry)) (next : PageId) : list (PageId * Node) :=
  match ls with
  | [] => []
  | (pid, es) :: ls => (pid, leaf_of es (first_pid ls next)) :: chain ls next
  end.

Lemma chain_app l1 l2 next : chain (l1 ++ l2) next = chain l1 (first_pid l2 next) ++ chain l2 next.
Proof.
  induction l1 as [|[pid es] l1 IH]; [done|]. simpl. rewrite IH. by destruct l1 as [|[]].
Qed.

Lemma first_leaf : (∀ t next, first_pid (leaves t) next = leftmost t) ∧ (∀ f next, first_pid (fleaves f) next = fleft f).
Proof.
  apply tree_forest_ind; simpl; try done. intros t IH s f _ next. rewrite <- (IH next).
  specialize (IH 0). pose proof (leftmost_nodes t 0). destruct (leaves t) as [|[]] eqn:E; [|done].
  exfalso. clear -E. revert E. revert t.
  assert ((∀ t, leaves t ≠ []) ∧ (∀ f, fleaves f ≠ [])) as [Hn _]; [|exact Hn].
  apply tree_forest_ind; simpl; try done. intros t Ht _ f _ [? _]%app_nil. done.
Qed.

(** The leaves of a tree are linked from left to right. *)
Lemma leaves_chain : (∀ t next, chain (leaves t) next ⊆ nodes t next) ∧ (∀ f next, chain (fleaves f) next ⊆ fnodes f next).
Proof.
  apply tree_forest_ind; simpl; try done.
  - intros pid f IH next x Hx. right. by apply IH.
  - intros t IHt s f IHf next. rewrite chain_app, (proj2 first_leaf). intros x [Hx|Hx]%elem_of_app; apply elem_of_app.
    + left. by apply IHt.
    + right. by apply IHf.
Qed.

(** A visit of the leaves in order, until one says stop. *)
Fixpoint visit_all {A} (visit : list (OrderedValue * RowId) → list (list Z) → A → A * bool)
    (ls : list (PageId * list Entry)) (out : A) : A :=
  match ls with
  | [] => out
  | (_, es) :: ls =>
      let '(out, stop) := visit es.*1 (keep_includes es.*2) out in
      if (stop : bool) then out else visit_all visit ls out
  end.

(** ** A scan of entries *)

Lemma sorted_sublist (l1 l2 : list OrderedValue) : l1 `sublist_of` l2 → StronglySorted ov_le l2 → StronglySorted ov_le l1.
Proof.
  induction 1 as [|x l1 l2 Hs IH|x l1 l2 Hs IH]; [done|..]; intros [Hx Hl]%StronglySorted_cons; [|by apply IH].
  apply StronglySorted_cons. split; [|by apply IH]. apply Forall_forall. intros y Hy.
  rewrite Forall_forall in Hx. apply Hx. by eapply sublist_subseteq.
Qed.

Section scan.
Context {A : Type} (verdict : OrderedValue → Verdict) (push : OrderedValue → RowId → list Z → A → A) (full : A → bool).

Fixpoint scan_entries (es : list Entry) (out : A) : A * bool :=
  match es with
  | [] => (out, false)
  | (k, rid, inc) :: es =>
      match verdict k with
      | Take => let out := push k rid inc out in if full out then (out, true) else scan_entries es out
      | Skip => scan_entries es out
      | Stop => (out, true)
      end
  end.

Lemma scan_leaf_entries es incs out : rep es.*1 incs es →
  scan_leaf verdict push full es.*1 incs out = scan_entries es out.
Proof.
  intros [_ Hi]. revert incs out Hi. induction es as [|[[k rid] inc] es IH]; intros incs out Hi; [done|].
  cbn [fmap list_fmap scan_leaf scan_entries fst].
  assert (include_at incs 0 = inc) as ->.
  { destruct Hi as [->|[-> Hf]]; [done|]. apply Forall_cons in Hf as [Hf _]. by simpl in *. }
  assert (tail incs = es.*2 ∨ tail incs = [] ∧ Forall (λ e, e.2 = []) es) as Ht.
  { destruct Hi as [->|[-> Hf]]; [by left|right]. by apply Forall_cons in Hf as [_ Hf]. }
  destruct (verdict k); [|by apply IH|done]. by destruct (full _); [|apply IH].
Qed.

Lemma scan_entries_app es1 es2 out : scan_entries (es1 ++ es2) out =
  let '(out1, stop) := scan_entries es1 out in if (stop : bool) then (out1, true) else scan_entries es2 out1.
Proof.
  revert out. induction es1 as [|[[k rid] inc] es1 IH]; intros out; [done|]. cbn [app scan_entries].
  destruct (verdict k); [|apply IH|done]. by destruct (full _); [|apply IH].
Qed.

Lemma visit_all_scan ls out : visit_all (scan_leaf verdict push full) ls out = (scan_entries (concat ls.*2) out).1.
Proof.
  revert out. induction ls as [|[pid es] ls IH]; intros out; [done|].
  cbn [visit_all fmap list_fmap snd concat]. rewrite scan_entries_app.
  destruct (rep_leaf_of es 0) as (incs&El&Hrep). unfold leaf_of in El. injection El as ->.
  rewrite (scan_leaf_entries es incs out Hrep). destruct (scan_entries es out) as [out1 []]; [done|apply IH].
Qed.

(** The verdict takes the keys with [P], and stops only past all of them. *)
Definition decides (P : OrderedValue → bool) : Prop :=
  ∀ k, (verdict k = Take ↔ P k = true) ∧ (verdict k = Stop → ∀ k', ov_le k k' → P k' = false).

Definition push_all (out : A) (es : list Entry) : A := foldl (λ out e, push e.1.1 e.1.2 e.2 out) out es.
Definition matching (P : OrderedValue → bool) (es : list Entry) : list Entry := filter (λ e, P (key_of e) = true) es.

Lemma matching_none P es : (∀ e, e ∈ es → P (key_of e) = false) → matching P es = [].
Proof.
  intros Hn. induction es as [|e es IH]; [done|]. unfold matching. rewrite filter_cons, decide_False.
  - apply IH. intros e' He. apply Hn. by constructor.
  - rewrite Hn by constructor. done.
Qed.

Lemma scan_sorted P es out : decides P → StronglySorted ov_le (key_of <$> es) → (∀ out, full out = false) →
  (scan_entries es out).1 = push_all out (matching P es).
Proof.
  intros HP Hs Hfull. revert out. induction es as [|[[k rid] inc] es IH]; intros out; [done|].
  rewrite fmap_cons in Hs. apply StronglySorted_cons in Hs as [Hk Hs]. specialize (IH Hs).
  destruct (HP k) as [Ht Hst]. cbn [scan_entries]. unfold matching. rewrite filter_cons.
  change (key_of (k, rid, inc)) with k. fold (matching P es).
  destruct (verdict k) eqn:E.
  - rewrite Hfull, IH, decide_True; [done|by apply Ht].
  - rewrite IH, decide_False; [done|]. intros Hp. by apply Ht in Hp.
  - rewrite decide_False by (intros Hp; by apply Ht in Hp). rewrite matching_none; [done|].
    intros e He. apply Hst; [done|]. rewrite Forall_forall in Hk. by apply Hk, list_elem_of_fmap_2.
Qed.

End scan.

Lemma eq_decides v : decides (eq_verdict v) (λ k, bool_decide (k = v)).
Proof.
  intros k. unfold eq_verdict. rewrite bool_decide_eq_true. destruct (ov_cmp k v) eqn:E.
  - apply ov_cmp_Eq in E. by split.
  - split; [|done]. split; [done|]. intros ->. by rewrite ov_cmp_refl in E.
  - split; [split; [done|]; intros ->; by rewrite ov_cmp_refl in E|]. intros _ k' Hk. apply bool_decide_eq_false.
    intros ->. apply ov_cmp_Gt in E. unfold ov_le in Hk. congruence.
Qed.

Lemma range_decides o v : decides (range_verdict o v) (admits o v).
Proof.
  intros k. unfold range_verdict. destruct (admits o v k) eqn:Ea; [by split|]. split; [by destruct o, (ov_lt k v)|].
  intros Hs k' Hk. destruct o; try done; simpl in *; destruct (ov_lt k v) eqn:E; try done.
  - destruct (ov_lt k' v) eqn:E'; [|done]. rewrite (ov_le_lt_trans k k' v) in E; done.
  - apply negb_false_iff in Ea. by rewrite (ov_lt_le_trans v k k').
Qed.

(** ** Where the descents end *)

Lemma lleaves_flat ls : (key_of <$> concat (lleaves ls).*2) `sublist_of` lflat ls.
Proof.
  unfold lleaves. induction ls as [|[t s] ls IH]; simpl; [done|]. rewrite fmap_app, concat_app, fmap_app.
  apply sublist_app; [apply entries_flat|by apply sublist_cons].
Qed.
Lemma cleaves_flat c : (key_of <$> concat (cleaves_l c).*2) `sublist_of` cflat_l c.
Proof.
  induction c as [|cr c IH]; simpl; [done|]. rewrite fmap_app, concat_app, fmap_app.
  apply sublist_app; [done|apply lleaves_flat].
Qed.

(** What is left of a path is below the key when the last separator there is. *)
Lemma left_below t c pid es v : in_order t → t = plug c (TLeaf pid es) →
  (∀ x, last (cflat_l c) = Some x → ov_lt x v = true) →
  ∀ e, e ∈ concat (cleaves_l c).*2 → ov_lt (key_of e) v = true.
Proof.
  intros Hord -> Hl e He. unfold in_order in Hord. rewrite flat_plug in Hord.
  apply StronglySorted_app in Hord as (_&Hs&_).
  assert (key_of e ∈ cflat_l c) as Hin.
  { eapply sublist_subseteq; [apply cleaves_flat|]. by apply list_elem_of_fmap_2. }
  destruct (cflat_l c) as [|z l _] using rev_ind; [by apply not_elem_of_nil in Hin|].
  rewrite last_snoc in Hl. apply elem_of_app in Hin as [Hin| ->%list_elem_of_singleton]; [|auto].
  eapply ov_le_lt_trans; [|by apply Hl]. apply (StronglySorted_app_1_elem_of _ _ _ _ _ Hs); [done|constructor].
Qed.

Lemma route_find_spec keys v : (route_find_child keys v ≤ length keys)%nat ∧
  (∀ x, last (take (route_find_child keys v) keys) = Some x → ov_lt x v = true) ∧
  (∀ x, head (drop (route_find_child keys v) keys) = Some x → ov_le v x).
Proof.
  induction keys as [|k keys (IH1&IH2&IH3)]; cbn [route_find_child]; [by split_and!|].
  destruct (ov_lt k v) eqn:E; simpl; [|split_and!; [lia|done|by intros x [= <-]]]. split_and!; [lia| |done]. intros x. rewrite last_cons.
  destruct (last (take _ keys)) as [y|]; [intros [= <-]; by apply IH2|by intros [= <-]].
Qed.

(** ** Descents and walks over the pool *)

Section search.
Context `{!Crc32}.
Context (pio : PoolCalls) (bt : DiskBTree) (kd : Z).

Notation psize := (bt_page_size bt).

Lemma descend_ok k root pick (inv : list crumb → Prop) fuel :
  (∀ pid f c, inv c → ∃ ls t rs, f = fill ls (cons_f t rs) ∧ pick (fkeys f) (fpids f) = Ok (tpid t) ∧
    inv (mkCrumb pid ls rs :: c)) →
  ∀ c t h p x p', (h < fuel)%nat → wf psize kd h t → owned bt k p root (nodes (plug c t) INVALID_PAGE_ID) → inv c →
  descend pio fuel pick (tpid t) p = (Ok x, p') →
  same_mem p p' ∧ ∃ c' pid es, x = Some pid ∧ plug c t = plug c' (TLeaf pid es) ∧ inv c'.
Proof.
  intros Hpick. induction fuel as [|fuel IH]; intros c t h p x p' Hf Ht Ho Hi E; [lia|].
  cbn [descend] in E. apply op_bind_Ok in E as (node&p1&Er&E).
  apply (owned_read bt pio _ _ _ _ _ _ _ _ Ho (plug_node c t INVALID_PAGE_ID)) in Er as [-> Hm].
  destruct t as [pid es|pid f].
  - cbn [tnode] in E. destruct (rep_leaf_of es (cnext c INVALID_PAGE_ID)) as (incs&El&_). rewrite El in E.
    injection E as <- <-. split; [done|]. by exists c, pid, es.
  - destruct h as [|h]; [done|]. cbn [tnode] in E. apply op_bind_Ok in E as (child&p2&Ec&E). injection Ec as Ec <-.
    destruct (Hpick pid f c Hi) as (ls&t&rs&->&Ep&Hi'). rewrite Ep in Ec. injection Ec as <-.
    destruct Ht as [Ht _]. rewrite wff_fill, wff_cons in Ht. destruct Ht as (_&Ht&_).
    apply (IH (mkCrumb pid ls rs :: c) t h) in E as (Hm2&?); [|lia|done| |done].
    + split; [by etrans|done].
    + exact (owned_same bt _ _ _ _ _ Hm Ho).
Qed.

Lemma walk_ok {A} k root ns (visit : _ → _ → A → A * bool) fuel : ∀ ls p out x p', 0 ≤ k →
  owned bt k p root ns → ls ≠ [] → chain ls INVALID_PAGE_ID ⊆ ns → (length ls ≤ fuel)%nat →
  walk pio fuel visit (first_pid ls INVALID_PAGE_ID) out p = (Ok x, p') →
  same_mem p p' ∧ x = Some (visit_all visit ls out).
Proof.
  induction fuel as [|fuel IH]; intros ls p out x p' Hk Ho Hne Hc Hf E; destruct ls as [|[pid es] ls]; try done; [simpl in Hf; lia|].
  cbn [walk first_pid] in E. apply op_bind_Ok in E as (node&p1&Er&E).
  apply (owned_read bt pio _ _ _ _ _ _ _ _ Ho (Hc _ ltac:(constructor))) in Er as [-> Hm]. unfold leaf_of, canon in E.
  cbn [visit_all]. destruct (visit _ _ out) as [out1 stop]. destruct stop; [rewrite decide_True in E by auto; by injection E as <- <-|].
  destruct ls as [|[q es2] ls].
  - simpl in E. by injection E as <- <-.
  - cbn [first_pid] in *. rewrite decide_False in E.
    2:{ intros [?|Hq]; [done|]. destruct (owned_pid bt _ _ _ _ q Ho) as (_&?&_); [|done..].
        apply (list_elem_of_fmap_2 fst _ (q, leaf_of es2 (first_pid ls INVALID_PAGE_ID))), Hc. do 2 constructor. }
    apply (IH ((q, es2) :: ls)) in E as [Hm2 ->]; [|done| |done| |simpl in *; lia].
    + split; [by etrans|done].
    + exact (owned_same bt _ _ _ _ _ Hm Ho).
    + intros y Hy. apply Hc. by constructor.
Qed.

(** A leaf of the tree, and what is linked behind it. *)
Definition at_leaf (t : tree) (l1 : list (PageId * list Entry)) (pid : PageId) (es : list Entry)
    (l2 : list (PageId * list Entry)) : Prop :=
  leaves t = l1 ++ (pid, es) :: l2 ∧ chain ((pid, es) :: l2) INVALID_PAGE_ID ⊆ nodes t INVALID_PAGE_ID.

Lemma plug_at_leaf t c pid es : t = plug c (TLeaf pid es) → at_leaf t (cleaves_l c) pid es (cleaves_r c).
Proof.
  intros E. assert (leaves t = cleaves_l c ++ (pid, es) :: cleaves_r c) as El by (rewrite E, leaves_plug; done).
  split; [done|]. intros x Hx. apply (proj1 leaves_chain). rewrite El, chain_app. apply elem_of_app. by right.
Qed.

Lemma root_descend k h t pick (inv : list crumb → Prop) fuel p x p' :
  (∀ pid f c, inv c → ∃ ls t rs, f = fill ls (cons_f t rs) ∧ pick (fkeys f) (fpids f) = Ok (tpid t) ∧
    inv (mkCrumb pid ls rs :: c)) → inv [] → (h < fuel)%nat → tree_at bt kd k p h t →
  (root <- root_page pio bt;; descend pio fuel pick root) p = (Ok x, p') →
  same_mem p p' ∧ ∃ c pid es, x = Some pid ∧ t = plug c (TLeaf pid es) ∧ inv c.
Proof.
  intros Hpick Hi Hf [Hwf _ Ho] E. apply op_bind_Ok in E as (root&p1&Er&E).
  apply (owned_root bt pio _ _ _ _ _ _ Ho) in Er as [-> Hm].
  apply (descend_ok k (tpid t) pick inv fuel Hpick [] t h) in E as (Hm2&?); [|done..|by eapply owned_same|done].
  split; [by etrans|done].
Qed.

(** The path of [find_leaf]: below the key on the left, not below it on the right. *)
Lemma find_leaf_path k h t v fuel p x p' : (h < fuel)%nat → tree_at bt kd k p h t →
  find_leaf pio fuel bt v p = (Ok x, p') →
  same_mem p p' ∧ ∃ c pid es, x = Some pid ∧ t = plug c (TLeaf pid es) ∧
    (∀ x, last (cflat_l c) = Some x → ov_lt x v = true) ∧ (∀ x, head (cflat_r c) = Some x → ov_le v x).
Proof.
  intros Hf Ht E. eapply (root_descend k h t _ (λ c, (∀ x, last (cflat_l c) = Some x → ov_lt x v = true) ∧
    (∀ x, head (cflat_r c) = Some x → ov_le v x))) in E; [done| |done..].
  intros pid f c [Hc1 Hc2]. destruct (route_find_spec (fkeys f) v) as (Hi&Hlt&Hge).
  destruct (child_split f _ Hi) as (ls&t'&rs&->&_&Ech&Ek&Ek2). exists ls, t', rs. split_and!; [done..| |].
  - cbn [cflat_l c_ls]. intros y. rewrite last_lflat, Ek. destruct (last (take _ _)) eqn:El; [|apply Hc1].
    intros [= <-]. by apply Hlt.
  - cbn [cflat_r c_rs]. intros y. rewrite head_rflat, Ek2. destruct (head (drop _ _)) eqn:El; [|apply Hc2].
    intros [= <-]. by apply Hge.
Qed.

Lemma find_leaf_ok k h t v fuel p x p' : (h < fuel)%nat → tree_at bt kd k p h t →
  find_leaf pio fuel bt v p = (Ok x, p') →
  same_mem p p' ∧ ∃ l1 pid es l2, x = Some pid ∧ at_leaf t l1 pid es l2 ∧
    ∀ e, e ∈ concat l1.*2 → ov_lt (key_of e) v = true.
Proof.
  intros Hf Ht E. apply (find_leaf_path k h t) in E as (Hm&c&pid&es&->&Et&Hl&_); [|done..].
  split; [done|]. exists (cleaves_l c), pid, es, (cleaves_r c). split_and!; [done|by apply plug_at_leaf|].
  eapply left_below; [apply Ht|done|done].
Qed.

Lemma leftmost_leaf_ok k h t fuel p x p' : (h < fuel)%nat → tree_at bt kd k p h t →
  leftmost_leaf pio fuel bt p = (Ok x, p') →
  same_mem p p' ∧ ∃ pid es l2, x = Some pid ∧ at_leaf t [] pid es l2.
Proof.
  intros Hf Ht E. eapply (root_descend k h t _ (λ c, cleaves_l c = [])) in E as (Hm&c&pid&es&->&Et&Hc); [| |done..].
  - split; [done|]. exists pid, es, (cleaves_r c). split; [done|]. rewrite <- Hc. by apply plug_at_leaf.
  - intros pid f c Hc. destruct (child_split f 0) as (ls&t'&rs&->&Hl&Ech&_); [lia|]. exists ls, t', rs.
    split_and!; [done..|]. simpl. rewrite Hc. by destruct ls.
Qed.

Lemma rightmost_leaf_ok k h t fuel p x p' : (h < fuel)%nat → tree_at bt kd k p h t →
  rightmost_leaf pio fuel bt p = (Ok x, p') →
  same_mem p p' ∧ ∃ l1 pid es, x = Some pid ∧ at_leaf t l1 pid es [].
Proof.
  intros Hf Ht E. eapply (root_descend k h t _ (λ c, cleaves_r c = [])) in E as (Hm&c&pid&es&->&Et&Hc); [| |done..].
  - split; [done|]. exists (cleaves_l c), pid, es. split; [done|]. rewrite <- Hc. by apply plug_at_leaf.
  - intros pid f c Hc. destruct (child_split f (length (fkeys f))) as (ls&t'&rs&->&Hl&Ech&_&Ek); [lia|]. exists ls, t', rs.
    split_and!; [done| |].
    + unfold child_at in Ech. rewrite last_lookup, length_fpids. cbn [pred]. done.
    + cbn [cleaves_r c_rs]. rewrite Hc, app_nil_r. rewrite drop_all in Ek. by destruct rs as [[]|].
Qed.

(** ** What the scans return *)

Lemma scan_ok {A} k h t l1 pid es l2 verdict (push : _ → _ → _ → A → A) P fuel out p x p' :
  0 ≤ k → tree_at bt kd k p h t → at_leaf t l1 pid es l2 → (length (leaves t) ≤ fuel)%nat →
  decides verdict P → (∀ e, e ∈ concat l1.*2 → P (key_of e) = false) →
  walk pio fuel (scan_leaf verdict push unlimited) pid out p = (Ok x, p') →
  same_mem p p' ∧ x = Some (push_all push out (matching P (entries t))).
Proof.
  intros Hk [_ Hord Ho] [El Hc] Hf HP Hpre E.
  apply (walk_ok k (tpid t) (nodes t INVALID_PAGE_ID) _ fuel ((pid, es) :: l2)) in E as [Hm ->]; [|done..|].
  2:{ rewrite El, length_app in Hf. lia. }
  split; [done|]. f_equal. rewrite visit_all_scan. unfold entries in *. rewrite El, fmap_app, concat_app.
  unfold matching. rewrite filter_app. fold (matching P (concat l1.*2)). rewrite matching_none by done.
  apply scan_sorted; [done| |done]. unfold in_order in Hord.
  eapply sorted_sublist; [|exact Hord]. etrans; [|apply entries_flat]. unfold entries. rewrite El.
  apply fmap_sublist. rewrite fmap_app, concat_app. by apply sublist_inserts_l.
Qed.

Lemma eq_scan_ok {A} k h t v (push : _ → _ → _ → A → A) fuel out p x p' : 0 ≤ k → tree_at bt kd k p h t →
  (h < fuel)%nat → (length (leaves t) ≤ fuel)%nat → eq_scan pio fuel bt v push out p = (Ok x, p') →
  same_mem p p' ∧ x = Some (push_all push out (matching (λ k, bool_decide (k = v)) (entries t))).
Proof.
  intros Hk Ht Hf Hl E. apply op_bind_Ok in E as (y&p1&E1&E).
  apply (find_leaf_ok k h t) in E1 as (Hm&l1&pid&es&l2&->&Hat&Hpre); [|done..].
  eapply (scan_ok k h t l1 pid es l2) in E as [Hm2 ->]; [|done| |done|done|apply eq_decides|].
  - split; [by etrans|done].
  - destruct Ht. constructor; [done..|by eapply owned_same].
  - intros e He. apply bool_decide_eq_false. intros <-. apply Hpre in He. by rewrite ov_lt_irrefl in He.
Qed.

Lemma range_start_ok k h t o v fuel p x p' : (h < fuel)%nat → tree_at bt kd k p h t →
  range_start pio fuel bt o v p = (Ok x, p') →
  same_mem p p' ∧ ∃ l1 pid es l2, x = Some pid ∧ at_leaf t l1 pid es l2 ∧
    ∀ e, e ∈ concat l1.*2 → admits o v (key_of e) = false.
Proof.
  intros Hf Ht E. destruct o; simpl in E.
  1,2: apply (leftmost_leaf_ok k h t) in E as (Hm&pid&es&l2&->&Hat); [|done..]; (split; [done|]);
    exists [], pid, es, l2; split_and!; [done..|]; intros e He; by apply not_elem_of_nil in He.
  all: apply (find_leaf_ok k h t) in E as (Hm&l1&pid&es&l2&->&Hat&Hpre); [|done..]; (split; [done|]);
    exists l1, pid, es, l2; split_and!; [done..|]; intros e He%Hpre; simpl.
  - by apply ov_lt_le in He.
  - by rewrite He.
Qed.

Lemma range_scan_ok {A} k h t o v (push : _ → _ → _ → A → A) fuel out p x p' : 0 ≤ k → tree_at bt kd k p h t →
  (h < fuel)%nat → (length (leaves t) ≤ fuel)%nat → range_scan pio fuel bt o v push unlimited out p = (Ok x, p') →
  same_mem p p' ∧ x = Some (push_all push out (matching (admits o v) (entries t))).
Proof.
  intros Hk Ht Hf Hl E. apply op_bind_Ok in E as (y&p1&E1&E).
  apply (range_start_ok k h t) in E1 as (Hm&l1&pid&es&l2&->&Hat&Hpre); [|done..].
  eapply (scan_ok k h t l1 pid es l2) in E as [Hm2 ->]; [|done| |done|done|apply range_decides|done].
  - split; [by etrans|done].
  - destruct Ht. constructor; [done..|by eapply owned_same].
Qed.

End search.
