(* ===== verification/BTreeRead.v ===== *)
(** What the searches of a B+tree return: exactly the entries that satisfy the
    comparison, in key order; the first ones of them; or all of them in parts. *)

From stdpp Require Import base numbers list gmap sorting strings.
From S2P Require Import Prelude Format Page PageSpec LockMgr Txn WalCodec Wal BufferPool BTreeNode.
From S2P Require Import BTreeNodeProps BTree BTreeSpec HeapLog BTreeStore BTreeInsert BTreeDescent BTreeSearch.
Open Scope op_scope.

(** The comparison [key op value]. *)
Definition cmp_holds (o : CmpOp) (value k : OrderedValue) : bool :=
  match o, ov_cmp k value with
  | CEq, Eq | CNe, (Lt | Gt) | CLt, Lt | CLe, (Lt | Eq) | CGt, Gt | CGe, (Gt | Eq) => true
  | _, _ => false
  end.

Definition entry_rid (e : Entry) : RowId := e.1.2.
Definition entry_out (e : Entry) : OrderedValue * list Z * RowId := (e.1.1, e.2, e.1.2).

Lemma admits_cmp o v k : admits o v k = cmp_holds (match o with RLt => CLt | RLe => CLe | RGt => CGt | RGe => CGe end) v k.
Proof.
  unfold cmp_holds. destruct (ov_cmp k v) eqn:E.
  - apply ov_cmp_Eq in E as ->. destruct o; simpl; by rewrite ov_lt_irrefl.
  - apply ov_cmp_Lt in E. destruct o; simpl; rewrite ?E; try done; by rewrite (ov_lt_le _ _ E).
  - apply ov_cmp_Gt in E. destruct o; simpl; rewrite ?E; try done; by rewrite (ov_lt_le _ _ E).
Qed.
Lemma eq_cmp v k : bool_decide (k = v) = cmp_holds CEq v k.
Proof.
  unfold cmp_holds. destruct (ov_cmp k v) eqn:E; [by apply bool_decide_eq_true, ov_cmp_Eq|..];
    apply bool_decide_eq_false; intros ->; by rewrite ov_cmp_refl in E.
Qed.

Lemma matching_ext P Q es : (∀ k, P k = Q k) → matching P es = matching Q es.
Proof. intros Hpq. apply list_filter_iff. intros e. by rewrite Hpq. Qed.

Lemma push_all_rid out es : push_all push_rid out es = out ++ (entry_rid <$> es).
Proof.
  unfold push_all, push_rid. revert out. induction es as [|e es IH]; intros out; simpl; [by rewrite app_nil_r|].
  by rewrite IH, <- app_assoc.
Qed.
Lemma push_all_key out es : push_all push_key out es = out ++ es.*1.
Proof.
  unfold push_all, push_key. revert out. induction es as [|[[k rid] inc] es IH]; intros out; simpl; [by rewrite app_nil_r|].
  by rewrite IH, <- app_assoc.
Qed.
Lemma push_all_include out es : push_all push_include out es = out ++ (entry_out <$> es).
Proof.
  unfold push_all, push_include. revert out. induction es as [|e es IH]; intros out; simpl; [by rewrite app_nil_r|].
  by rewrite IH, <- app_assoc.
Qed.

(** ** Limits *)

Lemma scan_limit verdict P limit es out : decides verdict P → StronglySorted ov_le (key_of <$> es) →
  (length out < limit)%nat →
  (scan_entries verdict push_rid (λ out, bool_decide (limit ≤ length out)%nat) es out).1 =
    take limit (out ++ (entry_rid <$> matching P es)).
Proof.
  intros HP Hs. revert out. induction es as [|[[k rid] inc] es IH]; intros out Hl.
  { simpl. by rewrite app_nil_r, take_ge by lia. }
  rewrite fmap_cons in Hs. apply StronglySorted_cons in Hs as [Hk Hs]. specialize (IH Hs).
  destruct (HP k) as [Ht Hst]. cbn [scan_entries]. unfold matching. rewrite filter_cons.
  change (key_of (k, rid, inc)) with k. fold (matching P es).
  destruct (verdict k) eqn:E.
  - rewrite decide_True by (by apply Ht). rewrite fmap_cons. change (entry_rid (k, rid, inc)) with rid.
    rewrite cons_middle, app_assoc. unfold push_rid at 1 2. case_bool_decide as Hd.
    + rewrite length_app in Hd. simpl in Hd. rewrite take_app_length'; [done|]. rewrite length_app. simpl. lia.
    + unfold push_rid at 2. apply IH. lia.
  - rewrite decide_False by (intros Hp; by apply Ht in Hp). by apply IH.
  - rewrite decide_False by (intros Hp; by apply Ht in Hp). rewrite matching_none; [simpl; by rewrite app_nil_r, take_ge by lia|].
    intros e He. apply Hst; [done|]. rewrite Forall_forall in Hk. by apply Hk, list_elem_of_fmap_2.
Qed.

(** ** Parts *)

Lemma distribute_spec n pp rids : ∀ parts cur, (0 < pp)%nat → (length parts < n)%nat →
  length (concat parts) = (pp * length parts)%nat → Forall (λ part, length part = pp) parts →
  (length parts + 1 < n → length cur < pp)%nat →
  (length (concat parts) + length cur + length rids ≤ pp * n)%nat →
  let res := distribute n pp rids parts cur in
  concat res = concat parts ++ cur ++ rids ∧ (length res ≤ n)%nat ∧ Forall (λ part, length part ≤ pp)%nat res.
Proof.
  induction rids as [|rid rids IH]; intros parts cur Hpp Hn Hc Hf Hcur Ht; cbn [distribute].
  - assert (Forall (λ part : list RowId, length part ≤ pp)%nat parts) as Hf' by (apply (Forall_impl _ _ _ Hf); lia).
    case_decide as Hd; [subst; rewrite !app_nil_r; split_and!; [done|lia|done]|].
    rewrite concat_app, length_app. simpl. rewrite !app_nil_r. split_and!; [done|lia|]. apply Forall_app. split; [done|].
    apply Forall_singleton. simpl in Ht. destruct (decide (length parts + 1 < n)%nat) as [?%Hcur|]; [lia|].
    assert (n = length parts + 1)%nat as -> by lia. nia.
  - assert (length (cur ++ [rid]) = length cur + 1)%nat as Hl by (by rewrite length_app). simpl in Ht. case_decide as Hd.
    + destruct Hd as [Hd1 Hd2]. assert (length cur < pp)%nat by (by apply Hcur).
      destruct (IH (parts ++ [cur ++ [rid]]) []) as (E1&E2&E3); [done|..].
      * rewrite length_app. simpl. lia.
      * rewrite concat_app, !length_app. simpl. rewrite app_nil_r, length_app. simpl. lia.
      * apply Forall_app. split; [done|]. apply Forall_singleton. lia.
      * simpl. lia.
      * rewrite concat_app, length_app. simpl. rewrite app_nil_r, length_app. simpl. lia.
      * split_and!; [|done..]. rewrite E1, concat_app. simpl. by rewrite app_nil_r, <- !app_assoc.
    + destruct (IH parts (cur ++ [rid])) as (E1&E2&E3); [done..| | |].
      * intros Hlt. rewrite Hl. lia.
      * lia.
      * split_and!; [|done..]. rewrite E1. by rewrite <- !app_assoc.
Qed.

Lemma concat_empties {A} n : concat (replicate n (@nil A)) = [].
Proof. induction n; done. Qed.

(** The parts: [n] of them, in order the row ids, none longer than the share. *)
Lemma partition_rids_spec n slices : (0 < n)%nat →
  let parts := partition_rids n slices in
  length parts = n ∧ concat parts = concat slices ∧
  Forall (λ part, length part ≤ (length (concat slices) + n - 1) / n)%nat parts.
Proof.
  intros Hn. unfold partition_rids. set (total := length (concat slices)). case_decide as Ht.
  - rewrite length_replicate, concat_empties. apply nil_length_inv in Ht as ->. split_and!; [done..|].
    apply Forall_replicate. simpl. lia.
  - set (pp := ((total + n - 1) / n)%nat).
    assert (total ≤ pp * n)%nat as Hpn.
    { pose proof (Nat.div_mod_eq (total + n - 1) n). pose proof (Nat.mod_upper_bound (total + n - 1) n ltac:(lia)).
      fold pp in H. nia. }
    destruct (distribute_spec n pp (concat slices) [] []) as (E1&E2&E3); [|done|simpl; lia|done|simpl; lia|simpl; unfold total in *; lia|].
    { destruct pp; lia. }
    set (res := distribute _ _ _ _ _) in *. rewrite length_resize. split; [done|]. rewrite resize_ge by lia. split.
    + by rewrite concat_app, concat_empties, app_nil_r.
    + apply Forall_app. split; [done|]. apply Forall_replicate. simpl. lia.
Qed.

Lemma scan_from verdict es out : scan_entries verdict push_rid unlimited es out =
  (out ++ (scan_entries verdict push_rid unlimited es []).1, (scan_entries verdict push_rid unlimited es []).2).
Proof.
  revert out. induction es as [|[[k rid] inc] es IH]; intros out; simpl; [by rewrite app_nil_r|].
  destruct (verdict k); [|apply IH|by rewrite app_nil_r]. change (push_rid k rid inc out) with (out ++ [rid]). change (push_rid k rid inc []) with [rid].
  rewrite IH, (IH [rid]). by rewrite <- app_assoc.
Qed.

Lemma slice_visit_all o v ls slices : concat (visit_all (slice_visit o v) ls slices) =
  concat slices ++ (scan_entries (range_verdict o v) push_rid unlimited (concat ls.*2) []).1.
Proof.
  revert slices. induction ls as [|[pid es] ls IH]; intros slices; [simpl; by rewrite app_nil_r|].
  cbn [visit_all fmap list_fmap snd concat]. rewrite scan_entries_app. unfold slice_visit at 1.
  destruct (rep_leaf_of es 0) as (incs&El&Hrep). unfold leaf_of in El. injection El as ->.
  rewrite (scan_leaf_entries _ _ _ es incs [] Hrep). destruct (scan_entries _ _ _ es []) as [rids stop].
  assert (concat (if decide (rids = []) then slices else slices ++ [rids]) = concat slices ++ rids) as Es.
  { case_decide; [subst; by rewrite app_nil_r|]. rewrite concat_app. simpl. by rewrite app_nil_r. }
  destruct stop; [done|]. rewrite IH, Es, (scan_from _ _ rids). simpl. by rewrite <- app_assoc.
Qed.

(** ** The searches *)

Section read.
Context `{!Crc32}.
Context (pio : PoolCalls) (bt : DiskBTree) (kd : Z).

(** A tree in the pool, with fuel for its height and for the chain of its leaves. *)
Record readable (fuel : nat) (p : BufferPool) (t : tree) : Prop := {
  rd_tree : ∃ k h, 0 ≤ k ∧ (h < fuel)%nat ∧ tree_at bt kd k p h t;
  rd_leaves : (length (leaves t) ≤ fuel)%nat;
}.

Lemma eq_scan_exact {A} fuel v (push : _ → _ → _ → A → A) out p t x p' : readable fuel p t →
  eq_scan pio fuel bt v push out p = (Ok x, p') →
  same_mem p p' ∧ x = Some (push_all push out (matching (cmp_holds CEq v) (entries t))).
Proof.
  intros [(k&h&Hk&Hh&Ht) Hl] E. apply (eq_scan_ok pio bt kd k h t) in E as [Hm ->]; [|done..].
  split; [done|]. do 2 f_equal. apply matching_ext, eq_cmp.
Qed.

Definition cmp_of (o : RangeOp) : CmpOp := match o with RLt => CLt | RLe => CLe | RGt => CGt | RGe => CGe end.

Lemma range_scan_exact {A} fuel o v (push : _ → _ → _ → A → A) out p t x p' : readable fuel p t →
  range_scan pio fuel bt o v push unlimited out p = (Ok x, p') →
  same_mem p p' ∧ x = Some (push_all push out (matching (cmp_holds (cmp_of o) v) (entries t))).
Proof.
  intros [(k&h&Hk&Hh&Ht) Hl] E. apply (range_scan_ok pio bt kd k h t) in E as [Hm ->]; [|done..].
  split; [done|]. do 2 f_equal. apply matching_ext, admits_cmp.
Qed.

(** C12: A search of a well-formed B+tree returns exactly the row ids of the entries that
    satisfy the comparison, in key order, duplicates that span leaves included, and
    changes no page. *)
Theorem search_exact fuel o v p t r p' : readable fuel p t →
  search pio fuel bt o v p = (Ok r, p') →
  same_mem p p' ∧ r = Some (match o with
    | CNe => None
    | _ => Some (entry_rid <$> matching (cmp_holds o v) (entries t))
    end).
Proof.
  intros Hr E. unfold search in E. cbv beta zeta in E.
  destruct o; [|by injection E as <- <-|..]; apply op_bind_Ok in E as (y&p1&E1&E);
    (apply (eq_scan_exact _ _ _ _ _ t) in E1 || apply (range_scan_exact _ _ _ _ _ _ t) in E1); try done;
    destruct E1 as [Hm ->]; injection E as <- <-; by rewrite push_all_rid.
Qed.

Theorem search_with_keys_exact fuel o v p t r p' : readable fuel p t → o ≠ CNe →
  search_with_keys pio fuel bt o v p = (Ok r, p') →
  same_mem p p' ∧ r = Some ((matching (cmp_holds o v) (entries t)).*1).
Proof.
  intros Hr Ho E. unfold search_with_keys in E. destruct o; try done;
    (apply (eq_scan_exact _ _ _ _ _ t) in E || apply (range_scan_exact _ _ _ _ _ _ t) in E); try done;
    by rewrite push_all_key in E.
Qed.

Theorem search_with_include_exact fuel o v p t r p' : readable fuel p t → o ≠ CNe →
  search_with_keys_and_include pio fuel bt o v p = (Ok r, p') →
  same_mem p p' ∧ r = Some (entry_out <$> matching (cmp_holds o v) (entries t)).
Proof.
  intros Hr Ho E. unfold search_with_keys_and_include in E. destruct o; try done;
    (apply (eq_scan_exact _ _ _ _ _ t) in E || apply (range_scan_exact _ _ _ _ _ _ t) in E); try done;
    by rewrite push_all_include in E.
Qed.

(** The keys behind a leaf are in order. *)
Lemma at_leaf_sorted t l1 pid es l2 : in_order t → at_leaf t l1 pid es l2 →
  StronglySorted ov_le (key_of <$> concat ((pid, es) :: l2).*2).
Proof.
  intros Hord [El _]. eapply sorted_sublist; [|exact Hord]. etrans; [|apply entries_flat]. unfold entries. rewrite El.
  apply fmap_sublist. rewrite fmap_app, concat_app. by apply sublist_inserts_l.
Qed.

Lemma matching_behind P t l1 pid es l2 : at_leaf t l1 pid es l2 → (∀ e, e ∈ concat l1.*2 → P (key_of e) = false) →
  matching P (concat ((pid, es) :: l2).*2) = matching P (entries t).
Proof.
  intros [El _] Hpre. unfold entries. rewrite El, fmap_app, concat_app. unfold matching at 2. rewrite filter_app.
  fold (matching P (concat l1.*2)). by rewrite (matching_none P (concat l1.*2)).
Qed.

(** A walk from where a range starts. *)
Lemma range_walk fuel o v p t y p1 : readable fuel p t → range_start pio fuel bt o v p = (Ok y, p1) →
  ∃ pid, y = Some pid ∧ ∀ A (visit : _ → _ → A → A * bool) out x p', walk pio fuel visit pid out p1 = (Ok x, p') →
  same_mem p p' ∧ ∃ ls, x = Some (visit_all visit ls out) ∧ StronglySorted ov_le (key_of <$> concat ls.*2) ∧
    matching (admits o v) (concat ls.*2) = matching (cmp_holds (cmp_of o) v) (entries t).
Proof.
  intros [(k&h&Hk&Hh&Ht) Hl] E1.
  apply (range_start_ok pio bt kd k h t) in E1 as (Hm&l1&pid&es&l2&->&Hat&Hpre); [|done..].
  exists pid. split; [done|]. intros A visit out x p' E.
  pose proof Hat as [El Hc]. destruct Ht as [Hwf Hord Ho].
  apply (walk_ok pio bt k (tpid t) (nodes t INVALID_PAGE_ID) _ fuel ((pid, es) :: l2)) in E as [Hm2 ->]; [|done| |done|done|].
  - split; [by etrans|]. exists ((pid, es) :: l2). split_and!; [done|by eapply at_leaf_sorted|].
    rewrite (matching_behind (admits o v) t l1) by done. apply matching_ext, admits_cmp.
  - by eapply owned_same.
  - rewrite El, length_app in Hl. lia.
Qed.

Theorem search_range_limit_exact fuel o v limit p t r p' : readable fuel p t →
  search_range_limit pio fuel bt o v limit p = (Ok r, p') →
  same_mem p p' ∧ r = Some (take limit (entry_rid <$> matching (cmp_holds (cmp_of o) v) (entries t))).
Proof.
  intros Hr E. unfold search_range_limit in E. case_decide as Hd; [subst; by injection E as <- <-|].
  apply op_bind_Ok in E as (y&p1&E1&E). apply (range_walk _ _ _ _ t) in E1 as (pid&->&Hw); [|done].
  apply Hw in E as (Hm&ls&->&Hs&Hma). split; [done|]. f_equal.
  rewrite visit_all_scan, (scan_limit _ (admits o v)); [|apply range_decides|done|simpl; lia]. by rewrite Hma.
Qed.

(** C30: The parallel split of a range gives exactly n parts, whose concatenation is what
    the sequential range search returns, none longer than the share rounded up. *)
Theorem search_range_partition_exact fuel o v n p t r p' : readable fuel p t → (0 < n)%nat →
  search_range_partition pio fuel bt o v n p = (Ok r, p') →
  same_mem p p' ∧ ∃ parts, r = Some parts ∧ length parts = n ∧
    concat parts = entry_rid <$> matching (cmp_holds (cmp_of o) v) (entries t) ∧
    Forall (λ part, length part ≤ (length (concat parts) + n - 1) / n)%nat parts.
Proof.
  intros Hr Hn E. unfold search_range_partition in E. case_decide as Hd.
  - apply op_bind_Ok in E as (y&p1&E1&E). apply (range_scan_exact _ _ _ _ _ _ t) in E1 as [Hm ->]; [|done].
    injection E as <- <-. split; [done|]. eexists. split; [done|]. rewrite push_all_rid. cbn [app concat].
    rewrite app_nil_r. assert (n = 1%nat) as -> by lia. split_and!; [done..|]. apply Forall_singleton.
    rewrite Nat.div_1_r. lia.
  - apply op_bind_Ok in E as (y&p1&E1&E). apply (range_walk _ _ _ _ t) in E1 as (pid&->&Hw); [|done].
    apply op_bind_Ok in E as (z&p2&E2&E). apply Hw in E2 as (Hm&ls&->&Hs&Hma). injection E as <- <-.
    split; [done|]. eexists. split; [done|].
    destruct (partition_rids_spec n (visit_all (slice_visit o v) ls []) Hn) as (El&Ec&Ef). rewrite Ec.
    split_and!; [done| |done]. rewrite slice_visit_all. cbn [concat app].
    rewrite (scan_sorted _ _ _ (admits o v)); [|apply range_decides|done|done]. by rewrite push_all_rid, Hma.
Qed.

(** ** The last entry *)

Theorem max_entry_exact fuel p t r p' : readable fuel p t →
  tree_max_entry pio fuel bt p = (Ok r, p') →
  same_mem p p' ∧ ∃ pid es, last (leaves t) = Some (pid, es) ∧ r = Some (last es.*1).
Proof.
  intros [(k&h&Hk&Hh&Ht) Hl] E. apply op_bind_Ok in E as (y&p1&E1&E).
  apply (rightmost_leaf_ok pio bt kd k h t) in E1 as (Hm&l1&pid&es&->&El&Hc); [|done..].
  apply op_bind_Ok in E as (node&p2&E2&E). destruct Ht as [_ _ Ho].
  apply (owned_read bt pio k p1 (tpid t) (nodes t INVALID_PAGE_ID) pid (leaf_of es INVALID_PAGE_ID)) in E2 as [-> Hm2];
    [|by eapply owned_same|apply Hc; constructor].
  unfold leaf_of, canon in E. injection E as <- <-. split; [by etrans|]. exists pid, es. by rewrite El, last_snoc.
Qed.

End read.
