(* ===== verification/BTreeReader.v ===== *)
(** Reads of a B+tree through a page reader: the free-space directory and the
    structural check. *)

From stdpp Require Import base numbers list gmap sorting strings.
From S2P Require Import Prelude Format Page PageSpec LockMgr Txn WalCodec Wal BufferPool BTreeNode.
From S2P Require Import BTreeNodeProps BTree BTreeSpec HeapLog BTreeStore BTreeInsert BTreeDescent BTreeSearch.

(** The reader gives the pages of the tree. *)
Record reads_tree (read : PageId → Result SlottedPage) (bt : DiskBTree) (t : tree) : Prop := {
  rt_meta : ∃ page, read (meta_page bt) = Ok page ∧ ∀ msg, meta_root msg page = Ok (tpid t);
  rt_node : ∀ pid n, (pid, n) ∈ nodes t INVALID_PAGE_ID → reader_node read pid = Ok n;
  rt_pids : INVALID_PAGE_ID ∉ (nodes t INVALID_PAGE_ID).*1 ∧ NoDup (nodes t INVALID_PAGE_ID).*1;
}.

Section reader.
Context (read : PageId → Result SlottedPage) (bt : DiskBTree) (psize kd : Z).

Lemma leftmost_ok pick t fuel : ∀ c h, (∀ f, pick (fpids f) = child_at (fpids f) 0) →
  reads_tree read bt (plug c t) → wf psize kd h t → (h < fuel)%nat → 
  reader_leftmost read fuel pick (tpid t) = Ok (Some (leftmost t)).
Proof.
  revert t. induction fuel as [|fuel IH]; intros t c h Hp Hr Hwf Hf; [lia|]. cbn [reader_leftmost].
  rewrite (rt_node _ _ _ Hr _ (tnode t (cnext c INVALID_PAGE_ID))) by apply plug_node.
  cbn [mbind outcome_bind]. destruct t as [pid es|pid f]; [done|]. cbn [tnode]. rewrite Hp.
  destruct h as [|h]; [done|]. destruct (child_split f 0) as (ls&t'&rs&->&Hl&Ech&_); [lia|]. rewrite Ech.
  apply nil_length_inv in Hl as ->. cbn [fill mbind outcome_bind]. destruct Hwf as [Hwf _].
  cbn [fill] in Hwf. rewrite wff_cons in Hwf.
  rewrite (IH t' (mkCrumb pid [] rs :: c) h); [|done..|naive_solver|lia]. simpl. by rewrite fleft_cons.
Qed.

(** The FSM's key is a page id and the slot of its row id the free space. *)
Definition directory_of (e : Entry) : PageId * Z := (match key_of e with KInt n => u32 n | _ => 0 end, ri_slot e.1.2).

Lemma directory_entries es out : Forall (λ e, key_kind (key_of e) = 0) es →
  for_each (λ out e, d ← directory_entry e; Ok (out ++ [d])) out es.*1 = Ok (out ++ (directory_of <$> es)).
Proof.
  intros Hk. revert out. induction Hk as [|[[k rid] inc] es Hk Hs IH]; intros out; cbn [fmap list_fmap for_each]; [by rewrite app_nil_r|].
  destruct k; try done. cbn [directory_entry fst mbind outcome_bind]. rewrite IH. by rewrite <- app_assoc.
Qed.

Lemma chain_pids t ls l1 : leaves t = l1 ++ ls → ls.*1 ⊆ (nodes t INVALID_PAGE_ID).*1 ∧
  chain ls INVALID_PAGE_ID ⊆ nodes t INVALID_PAGE_ID.
Proof.
  intros El. assert (chain ls INVALID_PAGE_ID ⊆ nodes t INVALID_PAGE_ID) as Hc.
  { intros x Hx. apply (proj1 leaves_chain). rewrite El, chain_app. apply elem_of_app. by right. }
  split; [|done]. assert ((chain ls INVALID_PAGE_ID).*1 = ls.*1) as <-.
  { clear. induction ls as [|[pid es] ls IH]; cbn [chain fmap list_fmap fst]; [done|]. f_equal. exact IH. }
  intros x (y&->&Hy)%list_elem_of_fmap. by apply list_elem_of_fmap_2, Hc.
Qed.

Lemma chain_next t pid es ls l1 : reads_tree read bt t → leaves t = l1 ++ (pid, es) :: ls → ls ≠ [] →
  first_pid ls INVALID_PAGE_ID ≠ INVALID_PAGE_ID.
Proof.
  intros Hr El Hne. destruct (chain_pids t ((pid, es) :: ls) l1 El) as [Hsub _]. destruct ls as [|[q es2] ls]; [done|].
  simpl. intros ->. apply (rt_pids _ _ _ Hr), Hsub. do 2 constructor.
Qed.

Lemma reader_directory_ok t fuel : ∀ ls l1 out, reads_tree read bt t → leaves t = l1 ++ ls → ls ≠ [] →
  Forall (λ e, key_kind (key_of e) = 0) (concat ls.*2) → (length ls ≤ fuel)%nat →
  reader_directory read fuel (first_pid ls INVALID_PAGE_ID) out = Ok (Some (out ++ (directory_of <$> concat ls.*2))).
Proof.
  induction fuel as [|fuel IH]; intros [|[pid es] ls] l1 out Hr El Hne Hk Hf; try done; [simpl in Hf; lia|].
  cbn [reader_directory first_pid]. destruct (chain_pids t _ l1 El) as [_ Hc].
  rewrite (rt_node _ _ _ Hr _ (leaf_of es (first_pid ls INVALID_PAGE_ID))) by (apply Hc; constructor).
  cbn [mbind outcome_bind]. unfold leaf_of, canon. cbn [fmap list_fmap snd concat] in *. apply Forall_app in Hk as [Hk1 Hk2].
  rewrite directory_entries by done. cbn [mbind outcome_bind]. rewrite fmap_app, app_assoc.
  destruct ls as [|x ls].
  - cbn. by rewrite app_nil_r.
  - rewrite decide_False by (by eapply chain_next). apply (IH (x :: ls) (l1 ++ [(pid, es)])); try done; [by rewrite <- app_assoc|simpl in *; lia].
Qed.

(** The entries of a leaf that go up pass the check. *)
Lemma validate_entries es : ∀ last out, StronglySorted ov_le (key_of <$> es) →
  (∀ k x, last = Some k → head es = Some x → ov_le k (key_of x)) →
  for_each validate_entry (last, out) es.*1 =
    Ok (match list.last es with Some e => Some (key_of e) | None => last end, out ++ es.*1).
Proof.
  induction es as [|[[k rid] inc] es IH]; intros last out Hs Hl; cbn [fmap list_fmap for_each]; [by rewrite app_nil_r|].
  rewrite fmap_cons in Hs. apply StronglySorted_cons in Hs as [Hk Hs].
  assert (validate_entry (last, out) (k, rid) = Ok (Some k, out ++ [(k, rid)])) as Ev.
  { unfold validate_entry. destruct last as [prev|]; [|done]. specialize (Hl prev (k, rid, inc) eq_refl eq_refl).
    unfold ov_le, key_of in Hl. simpl in *. by rewrite Hl. }
  cbn [fst]. rewrite Ev. cbn [mbind outcome_bind]. rewrite IH; [|done|].
  - rewrite <- app_assoc, last_cons. by destruct (list.last es).
  - intros k' x [= <-] Hx. apply head_Some in Hx as [es' ->]. rewrite fmap_cons in Hk. by apply Forall_cons in Hk as [? _].
Qed.

Lemma last_fmap_key (es : list Entry) : match list.last es with Some e => Some (key_of e) | None => None end = list.last (key_of <$> es).
Proof. rewrite fmap_last. by destruct (list.last es). Qed.

Lemma validate_chain_ok t fuel : ∀ ls l1 seen out, reads_tree read bt t → leaves t = l1 ++ ls → ls ≠ [] →
  StronglySorted ov_le (key_of <$> entries t) → seen ≡ₚ l1.*1 → (length ls ≤ fuel)%nat →
  NoDup (leaves t).*1 →
  validate_chain read fuel (first_pid ls INVALID_PAGE_ID) seen (list.last (key_of <$> concat l1.*2), out) =
    Ok (Some (out ++ (concat ls.*2).*1)).
Proof.
  induction fuel as [|fuel IH]; intros [|[pid es] ls] l1 seen out Hr El Hne Hs Hseen Hf Hnd; try done; [simpl in Hf; lia|].
  cbn [validate_chain first_pid]. destruct (chain_pids t _ l1 El) as [_ Hc]. rewrite decide_False.
  2:{ rewrite Hseen. rewrite El, fmap_app in Hnd. apply NoDup_app in Hnd as (_&Hnd&_). intros Hin. apply (Hnd _ Hin). constructor. }
  rewrite (rt_node _ _ _ Hr _ (leaf_of es (first_pid ls INVALID_PAGE_ID))) by (apply Hc; constructor).
  cbn [mbind outcome_bind]. unfold leaf_of, canon.
  assert (StronglySorted ov_le ((key_of <$> concat l1.*2) ++ (key_of <$> es) ++ (key_of <$> concat ls.*2))) as Hso.
  { unfold entries in Hs. rewrite El, fmap_app, concat_app, fmap_app in Hs. simpl in Hs. by rewrite fmap_app in Hs. }
  apply StronglySorted_app in Hso as (Hso1&_&Hso2). apply StronglySorted_app in Hso2 as (_&Hso2&_).
  rewrite validate_entries; [|done|].
  2:{ intros k x Hk Hx. apply Hso1; [by apply last_Some_elem_of|]. apply elem_of_app. left.
      apply list_elem_of_fmap_2. apply head_Some in Hx as [es' ->]. constructor. }
  cbn [mbind outcome_bind snd]. cbn [fmap list_fmap snd concat]. rewrite fmap_app, app_assoc. destruct ls as [|x ls].
  - cbn. by rewrite app_nil_r.
  - rewrite decide_False by (by eapply chain_next).
    rewrite <- (IH (x :: ls) (l1 ++ [(pid, es)]) (pid :: seen)); try done; [|by rewrite <- app_assoc| |simpl in *; lia].
    + do 2 f_equal. rewrite fmap_app, concat_app, fmap_app, last_app. simpl. rewrite app_nil_r.
      rewrite <- (last_fmap_key es). by destruct (list.last es).
    + rewrite fmap_app, Hseen. simpl. solve_Permutation.
Qed.

Lemma leaves_nodes : (∀ t next, (leaves t).*1 `sublist_of` (nodes t next).*1) ∧
  (∀ f next, (fleaves f).*1 `sublist_of` (fnodes f next).*1).
Proof.
  apply tree_forest_ind; simpl; try done.
  - intros pid f IH next. by apply sublist_cons.
  - intros t IHt s f IHf next. rewrite !fmap_app. by apply sublist_app.
Qed.

Lemma leaves_ne : (∀ t, leaves t ≠ []) ∧ (∀ f, fleaves f ≠ []).
Proof. apply tree_forest_ind; simpl; try done. intros t Ht s f _ [? _]%app_nil. done. Qed.

Lemma wf_entries h t : wf psize kd h t → Forall (entry_ok kd) (entries t).
Proof.
  revert h. apply (tree_mut (λ t, ∀ h, wf psize kd h t → Forall (entry_ok kd) (entries t))
    (λ f, ∀ h, wff psize kd h f → Forall (entry_ok kd) (fentries f))).
  - intros pid es h (_&He&_). unfold entries. simpl. by rewrite app_nil_r.
  - intros pid f IH [|h] Hw; [done|]. destruct Hw as [Hw _]. by eapply IH.
  - intros t' IH h Hw. by eapply IH.
  - intros t' IHt s f IHf h (Ht&_&Hf). rewrite fentries_more. apply Forall_app. eauto.
Qed.

Theorem page_directory_exact fuel h t : reads_tree read bt t → wf psize kd h t → kd = 0 →
  (h < fuel)%nat → (length (leaves t) ≤ fuel)%nat →
  tree_page_directory read fuel bt = Ok (Some (directory_of <$> entries t)).
Proof.
  intros Hr Hwf Hkd Hh Hl. unfold tree_page_directory. destruct (rt_meta _ _ _ Hr) as (page&Ep&Em).
  rewrite Ep. cbn [mbind outcome_bind]. rewrite Em. cbn [mbind outcome_bind].
  rewrite (leftmost_ok _ t fuel [] h) by done. cbn [mbind outcome_bind].
  rewrite <- (proj1 first_leaf t INVALID_PAGE_ID). rewrite (reader_directory_ok t fuel (leaves t) []); try done; [apply leaves_ne|].
  apply wf_entries in Hwf. apply (Forall_impl _ _ _ Hwf). intros e [[_ Ek] _]. congruence.
Qed.

(** On every well-formed B+tree the structural check succeeds and returns all entries
    in order. *)
Theorem validate_exact fuel h t : reads_tree read bt t → wf psize kd h t → in_order t →
  (h < fuel)%nat → (length (leaves t) ≤ fuel)%nat →
  tree_validate read fuel bt = Ok (Some (entries t).*1).
Proof.
  intros Hr Hwf Hord Hh Hl. unfold tree_validate. destruct (rt_meta _ _ _ Hr) as (page&Ep&Em).
  rewrite Ep. cbn [mbind outcome_bind]. rewrite Em. cbn [mbind outcome_bind].
  rewrite (leftmost_ok _ t fuel [] h) by (done || by intros []). cbn [mbind outcome_bind].
  rewrite <- (proj1 first_leaf t INVALID_PAGE_ID).
  apply (validate_chain_ok t fuel (leaves t) [] [] []); try done; [apply leaves_ne|..].
  - eapply sorted_sublist; [apply entries_flat|done].
  - eapply sublist_NoDup; [apply (rt_pids _ _ _ Hr)|apply leaves_nodes].
Qed.

End reader.

(** A pool with a tree in it is such a reader, every checksum verified. *)
Lemma pool_reads `{!Crc32} bt kd k p h t : 0 ≤ k → tree_at bt kd k p h t →
  reads_tree (λ pid, read_page_locked p pid true) bt t.
Proof.
  intros Hk [_ _ Ho]. assert (∀ pid bs, page_at (mem p) pid = Some bs → read_page_locked p pid true = read_image bs) as Hrd.
  { intros pid bs Hbs. unfold read_page_locked. by rewrite Hbs. }
  constructor.
  - destruct (ow_meta _ _ _ _ _ Ho) as (bs&Hbs&Hi&Hm). exists (mkPage bs). by rewrite (Hrd _ _ Hbs).
  - intros pid n Hin. pose proof (proj1 (Forall_forall _ _) (ow_nodes _ _ _ _ _ Ho) _ Hin) as E. unfold store_of in E.
    cbn [fst snd] in E. unfold reader_node. destruct (page_at (mem p) pid) as [bs|] eqn:Hbs; [|done].
    simpl in E. apply node_in_Some in E as [Hi Hd]. rewrite (Hrd _ _ Hbs), Hi. done.
  - split; [|pose proof (ow_nodup _ _ _ _ _ Ho) as Hn; by apply NoDup_cons in Hn as [_ ?]].
    intros Hin. by destruct (owned_pid bt _ _ _ _ _ Ho Hin Hk) as (_&?&_).
Qed.

(** ** What passes the check *)

Lemma validate_entries_sorted es : ∀ last out last' out',
  for_each validate_entry (last, out) es = Ok (last', out') →
  last = list.last out.*1 → StronglySorted ov_le out.*1 →
  last' = list.last out'.*1 ∧ StronglySorted ov_le out'.*1 ∧ out' = out ++ es.
Proof.
  induction es as [|[k rid] es IH]; intros last out last' out' E Hl Hs; cbn [for_each] in E.
  { injection E as <- <-. by rewrite app_nil_r. }
  assert (validate_entry (last, out) (k, rid) = Ok (Some k, out ++ [(k, rid)]) ∧
    (∀ x, last = Some x → ov_le x k)) as [Ev Hk].
  { unfold validate_entry in *. destruct last as [prev|]; [|done]. simpl in *. destruct (ov_lt k prev) eqn:Ek; [done|].
    split; [done|]. intros x [= <-]. exact Ek. }
  rewrite Ev in E. cbn [mbind outcome_bind] in E. apply IH in E as (H1&H2&->).
  - split_and!; [done..|]. by rewrite <- app_assoc.
  - rewrite fmap_app, last_app. done.
  - rewrite fmap_app. simpl. rewrite <- (app_nil_r out.*1), <- app_assoc. cbn [app].
    apply sorted_insert; [by rewrite app_nil_r| |done]. intros x Hx. apply Hk. congruence.
Qed.

(** The check passes only what goes up along the chain. *)
Theorem validate_sound read fuel bt es : tree_validate read fuel bt = Ok (Some es) → StronglySorted ov_le es.*1.
Proof.
  unfold tree_validate. destruct (read _) as [pg|e|]; [|done..]. cbn [mbind outcome_bind].
  destruct (meta_root _ pg) as [root|e|]; [|done..]. cbn [mbind outcome_bind].
  destruct (reader_leftmost _ _ _ _) as [[pid|]|e|]; [|done..]. cbn [mbind outcome_bind].
  assert (∀ fuel pid seen last out, validate_chain read fuel pid seen (last, out) = Ok (Some es) →
    last = list.last out.*1 → StronglySorted ov_le out.*1 → StronglySorted ov_le es.*1) as Hc.
  { clear. induction fuel as [|fuel IH]; intros pid seen last out E Hl Hs; [done|]. cbn [validate_chain] in E.
    case_decide; [done|]. destruct (reader_node read pid) as [[entries incs next|]|e|]; try done. cbn [mbind outcome_bind] in E.
    destruct (for_each _ _ _) as [[last' out']|e|] eqn:Ef; try done. cbn [mbind outcome_bind snd] in E.
    apply validate_entries_sorted in Ef as (Hl'&Hs'&_); [|done..]. case_decide; [by injection E as <-|]. by eapply IH. }
  intros E. eapply Hc; [exact E|done|constructor].
Qed.
