(* ===== verification/BTreeUpdate.v ===== *)
(** Changes of one leaf of a B+tree: removal, a new row id for an entry, a new value
    for a key; and the creation of a tree. *)

From stdpp Require Import base numbers list gmap sorting strings.
From S2P Require Import Prelude Format Page PageSpec LockMgr Txn WalCodec Wal BufferPool BTreeNode.
From S2P Require Import BTreeNodeProps BTree BTreeSpec HeapLog BTreeStore BTreeInsert BTreeDescent BTreeSearch BTreeReader.
Open Scope op_scope.

(** ** Every leaf has a path *)

Lemma plug_snoc c cr t : plug (c ++ [cr]) t = TNode (c_pid cr) (fill (c_ls cr) (cons_f (plug c t) (c_rs cr))).
Proof. revert t. induction c as [|cr' c IH]; intros t; [done|]. simpl. by rewrite IH. Qed.
Lemma cleaves_l_snoc c cr : cleaves_l (c ++ [cr]) = lleaves (c_ls cr) ++ cleaves_l c.
Proof. induction c as [|cr' c IH]; simpl; [by rewrite app_nil_r|]. by rewrite IH, <- app_assoc. Qed.
Lemma cleaves_r_snoc c cr : cleaves_r (c ++ [cr]) = cleaves_r c ++ rleaves (c_rs cr).
Proof. induction c as [|cr' c IH]; simpl; [by rewrite app_nil_r|]. by rewrite IH, <- app_assoc. Qed.

Lemma lleaves_cons t s ls : lleaves ((t, s) :: ls) = leaves t ++ lleaves ls.
Proof. done. Qed.

Lemma leaf_path pid es :
  (∀ t l1 l2, leaves t = l1 ++ (pid, es) :: l2 →
    ∃ c, t = plug c (TLeaf pid es) ∧ cleaves_l c = l1 ∧ cleaves_r c = l2) ∧
  (∀ f l1 l2, fleaves f = l1 ++ (pid, es) :: l2 → ∃ ls rs c, f = fill ls (cons_f (plug c (TLeaf pid es)) rs) ∧
    lleaves ls ++ cleaves_l c = l1 ∧ cleaves_r c ++ rleaves rs = l2).
Proof.
  apply tree_forest_ind; simpl.
  - intros q es' l1 l2 E. destruct l1 as [|x [|]]; try done. injection E as -> -> <-. by exists [].
  - intros q f IH l1 l2 E. destruct (IH l1 l2 E) as (ls&rs&c&->&<-&<-). exists (c ++ [mkCrumb q ls rs]).
    by rewrite plug_snoc, cleaves_l_snoc, cleaves_r_snoc.
  - intros t IH l1 l2 E. destruct (IH l1 l2 E) as (c&->&<-&<-). exists [], None, c. by rewrite app_nil_r.
  - intros t IHt s f IHf l1 l2 E. symmetry in E. apply app_eq_inv in E as [(k&Hl&E)|(k&E&Hr)].
    + destruct (IHf k l2 E) as (ls&rs&c&->&<-&<-). exists ((t, s) :: ls), rs, c. split_and!; [done| |done].
      by rewrite lleaves_cons, Hl, <- app_assoc.
    + destruct k as [|x k].
      * destruct (IHf [] l2 (eq_sym Hr)) as (ls&rs&c&->&E1&E2). exists ((t, s) :: ls), rs, c. split_and!; [done| |done].
        by rewrite lleaves_cons, <- app_assoc, E1, E, !app_nil_r.
      * injection Hr as <- ->. destruct (IHt l1 k E) as (c&->&<-&<-). by exists [], (Some (s, f)), c.
Qed.

Lemma cnext_first c next : cnext c next = first_pid (cleaves_r c) next.
Proof.
  induction c as [|[pid ls rs] c IH]; [done|]. cbn [cnext cleaves_r c_rs]. rewrite IH.
  destruct rs as [[s f]|]; simpl; [|done]. pose proof (proj2 first_leaf f 0) as E. pose proof (proj2 leaves_ne f) as Hne.
  by destruct (fleaves f) as [|[]].
Qed.

(** ** Separators *)

Fixpoint seps (t : tree) : list OrderedValue := match t with TLeaf _ _ => [] | TNode _ f => fseps f end
with fseps (f : forest) : list OrderedValue :=
  match f with FOne t => seps t | FMore t s f => seps t ++ s :: fseps f end.

Lemma fseps_fill ls f : fseps f ⊆ fseps (fill ls f).
Proof. induction ls as [|[t s] ls IH]; simpl; set_solver. Qed.
Lemma rkeys_seps t rs x : head (rkeys rs) = Some x → x ∈ fseps (cons_f t rs).
Proof. destruct rs as [[s f]|]; [|done]. intros [= <-]. simpl. set_solver. Qed.
Lemma seps_cons t rs : seps t ⊆ fseps (cons_f t rs).
Proof. destruct rs as [[s f]|]; simpl; set_solver. Qed.
Lemma seps_plug c : ∀ t, seps t ⊆ seps (plug c t).
Proof.
  induction c as [|[pid ls rs] c IH]; intros t; [done|]. cbn [plug c_pid c_ls c_rs]. etrans; [|apply IH]. simpl.
  etrans; [apply (seps_cons t rs)|apply fseps_fill].
Qed.

Lemma head_right_sep c : ∀ t x, head (cflat_r c) = Some x → x ∈ seps (plug c t).
Proof.
  induction c as [|[pid ls rs] c IH]; intros t x; [done|]. cbn [plug cflat_r c_pid c_ls c_rs]. rewrite head_rflat.
  destruct (head (rkeys rs)) as [s|] eqn:Eh; [|apply IH]. intros [= <-]. apply seps_plug. simpl.
  by apply fseps_fill, rkeys_seps.
Qed.

Lemma rleaves_flat rs : (key_of <$> concat (rleaves rs).*2) `sublist_of` rflat rs.
Proof. destruct rs as [[s f]|]; [|done]. simpl. apply sublist_cons, (proj2 entries_flat). Qed.
Lemma cleaves_r_flat c : (key_of <$> concat (cleaves_r c).*2) `sublist_of` cflat_r c.
Proof.
  induction c as [|cr c IH]; simpl; [done|]. rewrite fmap_app, concat_app, fmap_app.
  apply sublist_app; [apply rleaves_flat|done].
Qed.

(** ** The entry of a leaf *)

Fixpoint remove_first (x : OrderedValue * RowId) (es : list Entry) : list Entry :=
  match es with
  | [] => []
  | e :: es => if decide (e.1 = x) then es else e :: remove_first x es
  end.

Lemma remove_first_app x es1 es2 : x ∉ es1.*1 → remove_first x (es1 ++ es2) = es1 ++ remove_first x es2.
Proof.
  induction es1 as [|e es1 IH]; [done|]. rewrite fmap_cons, not_elem_of_cons. intros [? ?]. simpl.
  rewrite decide_False by done. by rewrite IH.
Qed.
Lemma remove_first_absent x es : x ∉ es.*1 → remove_first x es = es.
Proof. intros Hx. by rewrite <- (app_nil_r es) at 1; rewrite remove_first_app, app_nil_r. Qed.

Lemma entry_index_spec x (es : list Entry) : match entry_index x es.*1 with
  | Some i => ∃ es1 e es2, es = es1 ++ e :: es2 ∧ length es1 = i ∧ e.1 = x ∧ x ∉ es1.*1
  | None => x ∉ es.*1
  end.
Proof.
  induction es as [|e es IH]; cbn [fmap list_fmap entry_index]; [apply not_elem_of_nil|].
  case_decide as Hd; [exists [], e, es; split_and!; try done; apply not_elem_of_nil|].
  destruct (entry_index x es.*1) as [i|]; cbn [fmap option_fmap option_map].
  - destruct IH as (es1&e'&es2&->&<-&He&Hn). exists (e :: es1), e', es2. split_and!; try done. apply not_elem_of_cons. by split.
  - apply not_elem_of_cons. by split.
Qed.

Lemma delete_fmap {A B} (f : A → B) l1 x l2 : base.delete (length l1) (f <$> l1 ++ x :: l2) = f <$> l1 ++ l2.
Proof. induction l1 as [|y l1 IH]; [done|]. cbn [length app]. rewrite !fmap_cons, <- IH. done. Qed.

Lemma rep_delete entries incs es1 e es2 : rep entries incs (es1 ++ e :: es2) →
  rep (base.delete (length es1) entries) (base.delete (length es1) incs) (es1 ++ es2).
Proof.
  intros [-> Hi]. split; [apply delete_fmap|]. destruct Hi as [->|[-> Hf]]; [left; apply delete_fmap|right].
  split; [by destruct (length es1)|]. apply Forall_app in Hf as [? Hf]. apply Forall_cons in Hf as [_ ?]. by apply Forall_app.
Qed.

(** The first such entry gets another row id. *)
Fixpoint replace_first (x : OrderedValue * RowId) (new_rid : RowId) (es : list Entry) : list Entry :=
  match es with
  | [] => []
  | e :: es => if decide (e.1 = x) then (x.1, new_rid, e.2) :: es else e :: replace_first x new_rid es
  end.

Lemma replace_first_app x r es1 es2 : x ∉ es1.*1 → replace_first x r (es1 ++ es2) = es1 ++ replace_first x r es2.
Proof.
  induction es1 as [|e es1 IH]; [done|]. rewrite fmap_cons, not_elem_of_cons. intros [? ?]. simpl.
  rewrite decide_False by done. by rewrite IH.
Qed.

(** The first entry with a key gets another row id. *)
Fixpoint set_key (v : OrderedValue) (new_rid : RowId) (es : list Entry) : list Entry :=
  match es with
  | [] => []
  | e :: es => if decide (key_of e = v) then (v, new_rid, e.2) :: es else e :: set_key v new_rid es
  end.

Lemma set_key_app v r es1 es2 : v ∉ (key_of <$> es1) → set_key v r (es1 ++ es2) = es1 ++ set_key v r es2.
Proof.
  induction es1 as [|e es1 IH]; [done|]. rewrite fmap_cons, not_elem_of_cons. intros [? ?]. simpl.
  rewrite decide_False by done. by rewrite IH.
Qed.
Lemma set_key_absent v r es : v ∉ (key_of <$> es) → set_key v r es = es.
Proof. intros Hx. by rewrite <- (app_nil_r es) at 1; rewrite set_key_app, app_nil_r. Qed.

Lemma patch_leaf_spec key old new (es : list Entry) : match patch_leaf key old new es.*1 with
  | Patched es' => ∃ es1 inc es2, es = es1 ++ (key, old, inc) :: es2 ∧ (key, old) ∉ es1.*1 ∧
      es' = (es1 ++ (key, new, inc) :: es2).*1
  | Beyond => ∃ es1 e es2, es = es1 ++ e :: es2 ∧ (key, old) ∉ es1.*1 ∧ ov_lt key (key_of e) = true
  | NotHere => (key, old) ∉ es.*1
  end.
Proof.
  induction es as [|[[k rid] inc] es IH]; cbn [fmap list_fmap patch_leaf fst]; [apply not_elem_of_nil|].
  destruct (ov_lt key k) eqn:Ek.
  { exists [], (k, rid, inc), es. split_and!; try done. apply not_elem_of_nil. }
  case_decide as Hd.
  { destruct Hd as [-> ->]. exists [], inc, es. split_and!; try done. apply not_elem_of_nil. }
  assert ((key, old) ≠ (k, rid)) as Hne by (intros [= -> ->]; by apply Hd).
  destruct (patch_leaf key old new es.*1) as [| |es'].
  - apply not_elem_of_cons. by split.
  - destruct IH as (es1&e&es2&->&Hn&He). exists ((k, rid, inc) :: es1), e, es2. split_and!; try done. apply not_elem_of_cons. by split.
  - destruct IH as (es1&inc'&es2&->&Hn&->). exists ((k, rid, inc) :: es1), inc', es2. split_and!; try done. apply not_elem_of_cons. by split.
Qed.

Lemma set_first_spec v new (es : list Entry) : match set_first v new es.*1 with
  | Some es' => ∃ es1 old inc es2, es = es1 ++ (v, old, inc) :: es2 ∧ v ∉ (key_of <$> es1) ∧
      es' = (es1 ++ (v, new, inc) :: es2).*1
  | None => v ∉ (key_of <$> es)
  end.
Proof.
  induction es as [|[[k rid] inc] es IH]; cbn [fmap list_fmap set_first fst]; [apply not_elem_of_nil|].
  case_decide as Hd; [subst; exists [], rid, inc, es; split_and!; try done; apply not_elem_of_nil|].
  destruct (set_first v new es.*1) as [es'|]; cbn [fmap option_fmap option_map].
  - destruct IH as (es1&old&inc'&es2&->&Hn&->). exists ((k, rid, inc) :: es1), old, inc', es2. split_and!; try done.
    apply not_elem_of_cons. split; [|done]. by intros ->.
  - apply not_elem_of_cons. split; [|done]. by intros ->.
Qed.

Lemma rep_set entries incs es1 v old new inc es2 : rep entries incs (es1 ++ (v, old, inc) :: es2) →
  rep (es1 ++ (v, new, inc) :: es2).*1 incs (es1 ++ (v, new, inc) :: es2).
Proof.
  intros [_ Hi]. split; [done|]. rewrite fmap_app, fmap_cons in *. destruct Hi as [->|[-> Hf]]; [by left|right].
  split; [done|]. apply Forall_app in Hf as [? Hf]. apply Forall_cons in Hf as [? ?]. apply Forall_app. split; [done|].
  by apply Forall_cons.
Qed.

Lemma set_ok kd es1 v old new inc es2 : Forall (entry_ok kd) (es1 ++ (v, old, inc) :: es2) → rowid_ok new →
  Forall (entry_ok kd) (es1 ++ (v, new, inc) :: es2) ∧
  key_of <$> es1 ++ (v, new, inc) :: es2 = key_of <$> es1 ++ (v, old, inc) :: es2.
Proof.
  intros Hf Hr. apply Forall_app in Hf as [? Hf]. apply Forall_cons in Hf as [(?&?&?) ?]. split; [|by rewrite !fmap_app].
  apply Forall_app. split; [done|]. apply Forall_cons. split; [|done]. done.
Qed.

Lemma wf_plug_depth psize kd c : ∀ h t, wf psize kd h (plug c t) → ∃ h0, h = (length c + h0)%nat.
Proof.
  induction c as [|cr c IH]; intros h t Hwf; [by exists h|]. cbn [plug] in Hwf. destruct (IH _ _ Hwf) as [h0 ->].
  apply wf_plug in Hwf as [_ Hwf]. destruct h0 as [|h0]; [done|]. exists h0. simpl. lia.
Qed.

Section update.
Context `{!Crc32}.
Context (io : Calls) (pio : PoolCalls) (bt : DiskBTree) (kd : Z).

Notation psize := (bt_page_size bt).

(** The tree with the leaves [ls]. *)
Definition leaves_at (k : Z) (p : BufferPool) (h : nat) (ls : list (PageId * list Entry)) : Prop :=
  ∃ t, tree_at bt kd k p h t ∧ leaves t = ls.

(** A leaf is rewritten; its keys are some of those it had. *)
Lemma rewrite_leaf k s h t l1 pid es l2 entries' incs' es' txn prev l s' : 0 ≤ k → psize ≤ 65536 →
  tree_at bt kd k s.1 h t → leaves t = l1 ++ (pid, es) :: l2 →
  rep entries' incs' es' → Forall (entry_ok kd) es' → (key_of <$> es') `sublist_of` (key_of <$> es) →
  write_node io pio txn prev pid (Leaf entries' incs' (first_pid l2 INVALID_PAGE_ID)) psize s = (Ok l, s') →
  leaves_at k s'.1 h (l1 ++ (pid, es') :: l2).
Proof.
  intros Hk Hps [Hwf Hord Ho] El Hrep Hok Hsub E.
  destruct (proj1 (leaf_path pid es) t l1 l2 El) as (c&->&<-&<-).
  destruct (wf_plug_depth _ _ _ _ _ Hwf) as [h0 ->]. pose proof Hwf as [Hc (->&Hes&Hsz)]%wf_plug.
  rewrite nodes_plug in Ho. cbn [tpid leftmost nodes] in Ho. rewrite <- cnext_first in E.
  assert (zlen es' < 2 ^ 16) as Hz.
  { pose proof (leaf_size_count es). apply sublist_length in Hsub. rewrite !length_fmap in Hsub. unfold zlen in *.
    unfold body_capacity, PAGE_HEADER_SIZE in *. lia. }
  assert (0 ≤ cnext c INVALID_PAGE_ID < 2 ^ 32) as Hnx.
  { destruct (cnext_nodes c pid pid INVALID_PAGE_ID) as [->|Hin]; [done|].
    apply (owned_pid bt _ _ _ _ _ Ho); [|lia]. rewrite fmap_app. apply elem_of_app. by left. }
  apply write_node_mem in E as (Hb&bs&Hbs&Hw); [|by eapply rep_fit|].
  2:{ apply (owned_pid bt _ _ _ _ pid Ho); [|lia]. rewrite fmap_app. set_solver. }
  rewrite (rep_canon _ _ _ _ Hrep) in Hbs. rewrite (rep_body_len _ _ _ _ Hrep) in Hb.
  exists (plug c (TLeaf pid es')). split; [|by rewrite leaves_plug]. constructor.
  - by apply wf_plug.
  - unfold in_order in *. rewrite flat_plug in *. eapply sorted_sublist; [|exact Hord].
    cbn [flat]. by apply sublist_app, sublist_app.
  - rewrite tpid_plug, nodes_plug in *. cbn [tpid leftmost nodes] in *.
    rewrite Permutation_app_comm in Ho |- *. by eapply owned_write.
Qed.

Lemma read_leaf k s h t l1 pid es l2 n s' : tree_at bt kd k s.1 h t → leaves t = l1 ++ (pid, es) :: l2 →
  on_pool (read_node pio pid) s = (Ok n, s') →
  (∃ incs, n = Leaf es.*1 incs (first_pid l2 INVALID_PAGE_ID) ∧ rep es.*1 incs es) ∧ tree_at bt kd k s'.1 h t.
Proof.
  intros [Hwf Hord Ho] El E. unfold on_pool in E. destruct (read_node pio pid s.1) as [r p] eqn:Er. injection E as -> <-.
  destruct (chain_pids t ((pid, es) :: l2) l1 El) as [_ Hc].
  apply (owned_read bt pio _ _ _ _ _ _ _ _ Ho (Hc _ ltac:(constructor))) in Er as [-> Hm]. split.
  - destruct (rep_leaf_of es (first_pid l2 INVALID_PAGE_ID)) as (incs&->&Hrep). by exists incs.
  - constructor; [done..|by eapply owned_same].
Qed.

Lemma leaf_next_valid k s h t l1 pid es l2 : 0 ≤ k → tree_at bt kd k s h t → leaves t = l1 ++ (pid, es) :: l2 →
  first_pid l2 INVALID_PAGE_ID = INVALID_PAGE_ID → l2 = [].
Proof.
  intros Hk [_ _ Ho] El Hn. destruct l2 as [|[q es2] l2]; [done|]. simpl in Hn. subst q. exfalso.
  destruct (chain_pids t _ l1 El) as [Hsub _]. destruct (owned_pid bt _ _ _ _ INVALID_PAGE_ID Ho) as (_&?&_); [|done..].
  apply Hsub. do 2 constructor.
Qed.

Lemma leaf_ok k p h t l1 pid es l2 : tree_at bt kd k p h t → leaves t = l1 ++ (pid, es) :: l2 → Forall (entry_ok kd) es.
Proof.
  intros [Hwf _ _] El. apply wf_entries in Hwf. unfold entries in Hwf. rewrite El, fmap_app, concat_app in Hwf.
  apply Forall_app in Hwf as [_ Hwf]. simpl in Hwf. by apply Forall_app in Hwf as [? _].
Qed.

Lemma on_wal_same {A} (m : op Wal A) s x s' : on_wal m s = (Ok x, s') → s'.1 = s.1.
Proof. unfold on_wal. destruct (m s.2). by intros [= _ <-]. Qed.

Definition no_empty_leaf (ls : list (PageId * list Entry)) : Prop := Forall (λ x, x.2 ≠ []) ls.

(** Keys above the last key of a leaf are behind it. *)
Lemma past_absent v rid (es es2 : list Entry) : StronglySorted ov_le (key_of <$> es ++ es2) → (v, rid) ∉ es.*1 →
  (∀ k r, last es.*1 = Some (k, r) → ov_lt v k = true) → es ≠ [] → (v, rid) ∉ (es ++ es2).*1.
Proof.
  intros Hs Hn Hl Hne. rewrite fmap_app, not_elem_of_app. split; [done|]. intros (e&Ee&He)%list_elem_of_fmap.
  destruct es as [|x es _] using rev_ind; [done|]. destruct x as [[k r] inc].
  rewrite fmap_app in Hl. cbn [fmap list_fmap fst] in Hl. rewrite last_snoc in Hl. specialize (Hl k r eq_refl).
  rewrite fmap_app in Hs. apply StronglySorted_app in Hs as (Hs&_&_).
  specialize (Hs k (key_of e)). rewrite fmap_app in Hs.
  assert (ov_le k (key_of e)) as Hle by (apply Hs; [apply elem_of_app; right; constructor|by apply list_elem_of_fmap_2]).
  unfold key_of in Hle. rewrite <- Ee in Hle. unfold ov_le in Hle. simpl in Hle. congruence.
Qed.

Lemma remove_walk_ok v rid fuel : ∀ k s h t l1 ls x s', 0 ≤ k → psize ≤ 65536 → tree_at bt kd k s.1 h t →
  leaves t = l1 ++ ls → ls ≠ [] → no_empty_leaf ls → (length ls ≤ fuel)%nat → (v, rid) ∉ (concat l1.*2).*1 →
  remove_walk io pio fuel bt v rid (first_pid ls INVALID_PAGE_ID) s = (Ok x, s') →
  x = Some tt ∧ ∃ t', tree_at bt kd k s'.1 h t' ∧ entries t' = remove_first (v, rid) (entries t).
Proof.
  induction fuel as [|fuel IH]; intros k s h t l1 [|[pid es] ls] x s' Hk Hps Ht El Hne Hem Hf Hpre E; try done; [simpl in Hf; lia|].
  cbn [remove_walk first_pid] in E. apply op_bind_Ok in E as (n&s1&E1&E).
  apply (read_leaf k s h t l1 pid es ls) in E1 as ((incs&->&Hrep)&Ht1); [|done..].
  assert (entries t = concat l1.*2 ++ es ++ concat ls.*2) as Een by (unfold entries; rewrite El, fmap_app, concat_app; done).
  pose proof (entry_index_spec (v, rid) es) as Hidx. destruct (entry_index (v, rid) es.*1) as [i|].
  - destruct Hidx as (es1&e&es2&Ees&<-&Ee&Hni). apply op_bind_Ok in E as (tt1&s2&E2&E). apply on_wal_same in E2.
    apply op_bind_Ok in E as (l&s3&E3&E). apply op_bind_Ok in E as (tt2&s4&E4&E). apply on_wal_same in E4. injection E as <- <-.
    split; [done|]. rewrite E4. rewrite <- E2 in Ht1. pose proof (leaf_ok _ _ _ _ _ _ _ _ Ht1 El) as Hok. subst es.
    eapply (rewrite_leaf k s2 h t l1 pid _ ls _ _ (es1 ++ es2)) in E3 as (t'&Ht'&El'); [|done..|by eapply rep_delete| |].
    + exists t'. split; [done|]. unfold entries at 1. rewrite El', Een, fmap_app, concat_app. simpl. rewrite <- !app_assoc.
      rewrite remove_first_app by done. f_equal. rewrite remove_first_app by done. f_equal. simpl. by rewrite decide_True.
    + apply Forall_app in Hok as [? Hok]. apply Forall_cons in Hok as [_ ?]. by apply Forall_app.
    + apply fmap_sublist, sublist_app; [done|by apply sublist_cons].
  - apply Forall_cons in Hem as [Hes Hem]. simpl in Hes. case_decide as Hd.
    + injection E as <- <-. split; [done|]. exists t. split; [done|]. rewrite remove_first_absent; [done|].
      rewrite Een, fmap_app, not_elem_of_app. split; [done|]. destruct Hd as [Hp|Hn].
      * apply past_absent; [|done| |done].
        { eapply sorted_sublist; [|apply Ht]. etrans; [|apply entries_flat]. rewrite Een. apply fmap_sublist.
          by apply sublist_inserts_l. }
        intros k0 r0 Hl. by rewrite Hl in Hp.
      * rewrite (leaf_next_valid k s.1 h t l1 pid es ls Hk Ht El Hn). simpl. by rewrite app_nil_r.
    + apply (IH k s1 h t (l1 ++ [(pid, es)]) ls) in E; try done.
      * by rewrite <- app_assoc.
      * intros ->. apply Hd. by right.
      * simpl in Hf. lia.
      * rewrite fmap_app, concat_app, fmap_app. simpl. rewrite app_nil_r. by apply not_elem_of_app.
Qed.

Lemma patch_walk_ok key old new txn prev fuel : ∀ k s h t l1 ls x s', 0 ≤ k → psize ≤ 65536 → rowid_ok new →
  tree_at bt kd k s.1 h t → leaves t = l1 ++ ls → ls ≠ [] → (length ls ≤ fuel)%nat → (key, old) ∉ (concat l1.*2).*1 →
  patch_walk io pio fuel bt key old new txn prev (first_pid ls INVALID_PAGE_ID) s = (Ok x, s') →
  ((key, old) ∈ (entries t).*1 ∧ (∃ l, x = Some (Some l)) ∧
    ∃ t', tree_at bt kd k s'.1 h t' ∧ entries t' = replace_first (key, old) new (entries t)) ∨
  ((key, old) ∉ (entries t).*1 ∧ x = Some None ∧ tree_at bt kd k s'.1 h t).
Proof.
  induction fuel as [|fuel IH]; intros k s h t l1 [|[pid es] ls] x s' Hk Hps Hro Ht El Hne Hf Hpre E; try done; [simpl in Hf; lia|].
  cbn [patch_walk first_pid] in E. apply op_bind_Ok in E as (n&s1&E1&E).
  apply (read_leaf k s h t l1 pid es ls) in E1 as ((incs&->&Hrep)&Ht1); [|done..].
  assert (entries t = concat l1.*2 ++ es ++ concat ls.*2) as Een by (unfold entries; rewrite El, fmap_app, concat_app; done).
  pose proof (patch_leaf_spec key old new es) as Hp. destruct (patch_leaf key old new es.*1) as [| |es'].
  - case_decide as Hd.
    + injection E as <- <-. right. split_and!; try done. rewrite Een, (leaf_next_valid k s.1 h t l1 pid es ls Hk Ht El Hd).
      simpl. rewrite app_nil_r, fmap_app, not_elem_of_app. done.
    + apply (IH k s1 h t (l1 ++ [(pid, es)]) ls) in E; try done.
      * by rewrite <- app_assoc.
      * by intros ->.
      * simpl in Hf. lia.
      * rewrite fmap_app, concat_app, fmap_app. simpl. rewrite app_nil_r. by apply not_elem_of_app.
  - injection E as <- <-. right. split_and!; try done. destruct Hp as (es1&e&es2&->&Hn&He).
    assert (StronglySorted ov_le (key_of <$> entries t)) as Hs by (eapply sorted_sublist; [apply entries_flat|apply Ht]).
    rewrite Een in *. rewrite <- !app_assoc in *. cbn [app] in *. rewrite !fmap_app in *. rewrite !not_elem_of_app. split_and!; [done..|].
    intros (e'&Ee&He')%list_elem_of_fmap. rewrite app_assoc in Hs. apply StronglySorted_app in Hs as (_&_&Hs).
    rewrite fmap_cons in Hs. apply StronglySorted_cons in Hs as [Hs _]. rewrite Forall_forall in Hs.
    assert (ov_le (key_of e) (key_of e')) as Hle.
    { apply elem_of_cons in He' as [->|He']; [apply ov_le_refl|]. by apply Hs, list_elem_of_fmap_2. }
    unfold key_of at 2 in Hle. rewrite <- Ee in Hle. unfold ov_le in Hle. simpl in Hle. congruence.
  - left. destruct Hp as (es1&inc&es2&->&Hn&->). apply op_bind_Ok in E as (l&s2&E2&E). injection E as <- <-.
    pose proof (leaf_ok _ _ _ _ _ _ _ _ Ht1 El) as Hok. destruct (set_ok _ _ _ _ new _ _ Hok Hro) as [Hok' Hkeys].
    eapply (rewrite_leaf k s1 h t l1 pid _ ls _ _ (es1 ++ (key, new, inc) :: es2)) in E2 as (t'&Ht'&El');
      [|done..|by eapply rep_set|done|by rewrite Hkeys].
    split_and!; [|by eexists|exists t'; split; [done|]].
    + rewrite Een, !fmap_app. set_solver.
    + unfold entries at 1. rewrite El', Een, fmap_app, concat_app. simpl. rewrite <- !app_assoc.
      rewrite replace_first_app by done. f_equal. rewrite replace_first_app by done. f_equal. simpl. by rewrite decide_True.
Qed.

Lemma on_pool_Ok {A} (m : op BufferPool A) s x s' : on_pool m s = (Ok x, s') → m s.1 = (Ok x, s'.1) ∧ s'.2 = s.2.
Proof. unfold on_pool. destruct (m s.1) as [r p]. by intros [= -> <-]. Qed.

Lemma find_leaf_state k s h t v fuel y s' : (h < fuel)%nat → tree_at bt kd k s.1 h t →
  on_pool (find_leaf pio fuel bt v) s = (Ok y, s') →
  tree_at bt kd k s'.1 h t ∧ ∃ l1 pid es l2, y = Some pid ∧ leaves t = l1 ++ (pid, es) :: l2 ∧
    ∀ e, e ∈ concat l1.*2 → ov_lt (key_of e) v = true.
Proof.
  intros Hf Ht [E _]%on_pool_Ok. apply (find_leaf_ok pio bt kd k h t) in E as (Hm&l1&pid&es&l2&->&[El _]&Hpre); [|done..].
  split; [|by exists l1, pid, es, l2]. destruct Ht. constructor; [done..|by eapply owned_same].
Qed.

Lemma below_absent v rid es : (∀ e, e ∈ es → ov_lt (key_of e) v = true) → (v, rid) ∉ es.*1.
Proof.
  intros Hb (e&Ee&He)%list_elem_of_fmap. apply Hb in He. unfold key_of in He. rewrite <- Ee in He. simpl in He.
  by rewrite ov_lt_irrefl in He.
Qed.

(** C31: In a well-formed B+tree without empty leaves, removal deletes the first occurrence
    of the entry, if there is one, wherever among the leaves it is, and nothing else. *)
Theorem remove_exact fuel v rid k s h t r s' : 0 ≤ k → psize ≤ 65536 → tree_at bt kd k s.1 h t →
  no_empty_leaf (leaves t) → (h < fuel)%nat → (length (leaves t) ≤ fuel)%nat →
  tree_remove io pio fuel bt v rid s = (Ok r, s') →
  r = Some tt ∧ ∃ t', tree_at bt kd k s'.1 h t' ∧ entries t' = remove_first (v, rid) (entries t).
Proof.
  intros Hk Hps Ht Hne Hh Hl E. apply op_bind_Ok in E as (y&s1&E1&E).
  apply (find_leaf_state k s h t) in E1 as (Ht1&l1&pid&es&l2&->&El&Hpre); [|done..].
  apply (remove_walk_ok v rid fuel k s1 h t l1 ((pid, es) :: l2)) in E; try done.
  - unfold no_empty_leaf in Hne. rewrite El in Hne. by apply Forall_app in Hne as [_ ?].
  - rewrite El, length_app in Hl. lia.
  - by apply below_absent.
Qed.

(** [es'] has one more entry. *)
Definition one_more (e : Entry) (es es' : list Entry) : Prop := ∃ es1 es2, es = es1 ++ es2 ∧ es' = es1 ++ e :: es2.

(** Update_rowid_inplace replaces the row id of the entry in place when the entry is
    in the tree, on whichever leaf, and inserts the new entry when it is not. *)
Theorem update_rowid_exact fuel key old new k s h t r s' : psize ≤ 65536 → entry_ok kd (key, new, []) →
  tree_at bt kd k s.1 h t → Z.of_nat h + 2 ≤ k → (h < fuel)%nat → (length (leaves t) ≤ fuel)%nat →
  update_rowid_inplace io pio fuel bt key old new s = (Ok r, s') →
  r = Some tt ∧ ∃ h' t', tree_at bt kd (k - Z.of_nat h - 2) s'.1 h' t' ∧
    ((key, old) ∈ (entries t).*1 ∧ entries t' = replace_first (key, old) new (entries t) ∨
     (key, old) ∉ (entries t).*1 ∧ ((key, new) ∈ (entries t).*1 ∧ entries t' = entries t ∨
       one_more (key, new, []) (entries t) (entries t'))).
Proof.
  intros Hps Hok Ht Hk Hh Hl E. apply op_bind_Ok in E as (tx&s0&E0&E). apply on_wal_same in E0. rewrite <- E0 in Ht.
  apply op_bind_Ok in E as (y&s1&E1&E). apply (find_leaf_state k s0 h t) in E1 as (Ht1&l1&pid&es&l2&->&El&Hpre); [|done..].
  apply op_bind_Ok in E as (z&s2&E2&E). pose proof Hok as (_&Hro&_). simpl in Hro.
  apply (patch_walk_ok key old new _ _ fuel k s1 h t l1 ((pid, es) :: l2)) in E2; [|lia|done..| |by apply below_absent].
  2:{ rewrite El, length_app in Hl. lia. }
  assert (∀ h' t', tree_at bt kd k s2.1 h' t' → tree_at bt kd (k - Z.of_nat h - 2) s2.1 h' t') as Hless.
  { intros h' t' []. constructor; [done..|]. eapply owned_le; [|done]. lia. }
  destruct E2 as [(Hin&(l&->)&t'&Ht'&Et')|(Hni&->&Ht2)].
  - apply op_bind_Ok in E as (q&s3&E3&E). injection E3 as <- <-. apply op_bind_Ok in E as (u&s4&E4&E).
    apply on_wal_same in E4. injection E as <- <-. split; [done|]. rewrite E4. exists h, t'. split; [by apply Hless|]. by left.
  - apply op_bind_Ok in E as (q&s3&E3&E). apply (tree_insert_ok io pio bt kd fuel key new [] _ _ k s2 h t) in E3 as [(l&->) Hins]; try done.
    apply op_bind_Ok in E as (u&s4&E4&E). apply on_wal_same in E4. injection E as <- <-. split; [done|]. rewrite E4.
    destruct Hins as [[Hin Hm]|(h'&t'&es1&es2&_&Ht'&E1&E2)].
    + exists h, t. split; [|right; split; [done|]; by left]. destruct (Hless _ _ Ht2). constructor; [done..|by eapply owned_same].
    + exists h', t'. split; [done|]. right. split; [done|]. right. by exists es1, es2.
Qed.

(** A key that is no separator is in the one leaf that [find_leaf] names. *)
Lemma only_leaf t c pid es v : in_order t → t = plug c (TLeaf pid es) → v ∉ seps t →
  (∀ x, last (cflat_l c) = Some x → ov_lt x v = true) → (∀ x, head (cflat_r c) = Some x → ov_le v x) →
  v ∉ (key_of <$> concat (cleaves_l c).*2) ∧ v ∉ (key_of <$> concat (cleaves_r c).*2).
Proof.
  intros Hord Et Hv Hl Hr. split.
  - intros (e&->&He)%list_elem_of_fmap. pose proof (left_below _ _ _ _ _ Hord Et Hl e He) as Hlt. by rewrite ov_lt_irrefl in Hlt.
  - subst t. unfold in_order in Hord. rewrite flat_plug in Hord. apply StronglySorted_app in Hord as (_&_&Hs).
    apply StronglySorted_app in Hs as (_&_&Hs). intros Hin.
    assert (v ∈ cflat_r c) as Hin' by (eapply sublist_subseteq; [apply cleaves_r_flat|done]).
    destruct (cflat_r c) as [|x l] eqn:Ec; [by apply not_elem_of_nil in Hin'|].
    assert (v ≠ x) as Hne. { intros ->. apply Hv, head_right_sep. by rewrite Ec. }
    apply elem_of_cons in Hin' as [|Hin']; [done|]. apply StronglySorted_cons in Hs as [Hs _].
    rewrite Forall_forall in Hs. apply Hs in Hin'. specialize (Hr x eq_refl). unfold ov_le in *.
    by apply Hne, ov_lt_total.
Qed.

Theorem set_value_exact fuel v new k s h t r s' : 0 ≤ k → psize ≤ 65536 → rowid_ok new →
  tree_at bt kd k s.1 h t → v ∉ seps t → (h < fuel)%nat →
  tree_set_value io pio fuel bt v new s = (Ok r, s') →
  r = Some (bool_decide (v ∈ (key_of <$> entries t))) ∧
  ∃ t', tree_at bt kd k s'.1 h t' ∧ entries t' = set_key v new (entries t).
Proof.
  intros Hk Hps Hro Ht Hv Hh E. apply op_bind_Ok in E as (y&s1&E1&E). apply on_pool_Ok in E1 as [E1 _].
  apply (find_leaf_path pio bt kd k h t) in E1 as (Hm&c&pid&es&->&Et&Hl&Hr); [|done..].
  destruct (only_leaf t c pid es v (ta_order _ _ _ _ _ _ Ht) Et Hv Hl Hr) as [Hpre Hpost].
  destruct (plug_at_leaf t c pid es Et) as [El _]. apply op_bind_Ok in E as (n&s2&E2&E).
  apply (read_leaf k s1 h t (cleaves_l c) pid es (cleaves_r c)) in E2 as ((incs&->&Hrep)&Ht2); [| |done].
  2:{ destruct Ht. constructor; [done..|by eapply owned_same]. }
  assert (entries t = concat (cleaves_l c).*2 ++ es ++ concat (cleaves_r c).*2) as Een.
  { unfold entries. rewrite El, fmap_app, concat_app. done. }
  pose proof (set_first_spec v new es) as Hsf. destruct (set_first v new es.*1) as [es'|].
  - destruct Hsf as (es1&old&inc&es2&->&Hn&->). apply op_bind_Ok in E as (tx&s3&E3&E). apply on_wal_same in E3.
    apply op_bind_Ok in E as (l&s4&E4&E). apply op_bind_Ok in E as (u&s5&E5&E). apply on_wal_same in E5. injection E as <- <-.
    rewrite E5. rewrite <- E3 in Ht2. pose proof (leaf_ok _ _ _ _ _ _ _ _ Ht2 El) as Hok.
    destruct (set_ok _ _ _ _ new _ _ Hok Hro) as [Hok' Hkeys].
    eapply (rewrite_leaf k s3 h t _ pid _ _ _ _ (es1 ++ (v, new, inc) :: es2)) in E4 as (t'&Ht'&El');
      [|done|done|done|exact El|by eapply rep_set|done|by rewrite Hkeys].
    split.
    + rewrite bool_decide_true; [done|]. rewrite Een, !fmap_app, fmap_cons. set_solver.
    + exists t'. split; [done|]. unfold entries at 1. rewrite El', Een, fmap_app, concat_app. simpl. rewrite <- !app_assoc.
      rewrite set_key_app by done. f_equal. rewrite set_key_app by done. f_equal. simpl. by rewrite decide_True.
  - injection E as <- <-. assert (v ∉ (key_of <$> entries t)) as Hno by (rewrite Een, !fmap_app, !not_elem_of_app; done).
    split; [by rewrite bool_decide_false|]. exists t. split; [done|]. by rewrite set_key_absent.
Qed.

End update.
