(* ===== verification/BTreeProps.v ===== *)
(** A B+tree from its creation on: bulk insertion, and searches of what was inserted. *)

From stdpp Require Import base numbers list gmap sorting strings.
From S2P Require Import Prelude Format Page PageSpec LockMgr Txn WalCodec Wal BufferPool BTreeNode.
From S2P Require Import BTreeNodeProps BTree BTreeSpec HeapLog BTreeStore BTreeInsert BTreeDescent BTreeSearch.
From S2P Require Import BTreeRead BTreeReader BTreeUpdate PageProps WalClaims BufferPoolProps HeapDurable.
Open Scope op_scope.

(** ** Fuel: the pages of the file *)

Lemma height_nodes psize kd h t next : wf psize kd h t → (h < length (nodes t next))%nat.
Proof.
  revert h next. apply (tree_mut (λ t, ∀ h next, wf psize kd h t → (h < length (nodes t next))%nat)
    (λ f, ∀ h next, wff psize kd h f → (h < length (fnodes f next))%nat)).
  - intros pid es h next (->&_). simpl. lia.
  - intros pid f IH [|h] next Hw; [done|]. destruct Hw as [Hw _]. simpl. specialize (IH h next Hw). lia.
  - intros t' IH h next Hw. simpl. by apply IH.
  - intros t' IHt s f IHf h next (Ht&_&_). simpl. rewrite length_app. specialize (IHt h (fleft f) Ht). lia.
Qed.

(** Distinct page ids below a bound are no more than it. *)
Lemma pids_bound (l : list PageId) n : NoDup l → Forall (λ q, 0 ≤ q < n) l → Z.of_nat (length l) ≤ n ∨ l = [].
Proof.
  intros Hn Hf. destruct (decide (l = [])) as [|Hne]; [by right|left].
  assert (0 ≤ n) as H0. { destruct l; [done|]. apply Forall_cons in Hf as [? _]. lia. }
  enough (length (Z.to_nat <$> l) ≤ length (seq 0 (Z.to_nat n)))%nat as Hle by (rewrite length_fmap, length_seq in Hle; lia).
  apply submseteq_length, NoDup_submseteq.
  - apply NoDup_fmap_2_strong; [|done]. rewrite Forall_forall in Hf. intros x y Hx Hy E.
    apply Hf in Hx, Hy. lia.
  - intros x (q&->&Hq)%list_elem_of_fmap. apply elem_of_seq. rewrite Forall_forall in Hf. apply Hf in Hq. lia.
Qed.

Lemma tree_pages `{!Crc32} bt kd k p h t : tree_at bt kd k p h t →
  Z.of_nat h < file_page_count p ∧ Z.of_nat (length (leaves t)) ≤ file_page_count p.
Proof.
  intros [Hwf _ Ho]. pose proof (height_nodes _ _ _ _ INVALID_PAGE_ID Hwf) as Hh.
  destruct (pids_bound _ _ (ow_nodup _ _ _ _ _ Ho) (ow_range _ _ _ _ _ Ho)) as [Hb|]; [|done].
  simpl in Hb. rewrite length_fmap in Hb. pose proof (proj1 leaves_nodes t INVALID_PAGE_ID) as Hs.
  apply sublist_length in Hs. rewrite !length_fmap in Hs. lia.
Qed.

Lemma readable_pages `{!Crc32} bt kd k p h t fuel : 0 ≤ k → tree_at bt kd k p h t → file_page_count p ≤ Z.of_nat fuel →
  readable bt kd fuel p t.
Proof. intros Hk Ht Hf. pose proof (tree_pages _ _ _ _ _ _ Ht). constructor; [exists k, h|]; split_and?; (done || lia). Qed.

(** ** Creation and bulk insertion *)

Section create.
Context {Hcrc : Crc32}.
Context (io : Calls) (pio : PoolCalls) (kd : Z).

Lemma create_ok k s bt s' : 0 ≤ k → 0 ≤ file_page_count s.1 → file_page_count s.1 + 2 + k ≤ INVALID_PAGE_ID →
  tree_create io pio s = (Ok bt, s') → ∃ root, tree_at bt kd k s'.1 0 (TLeaf root []).
Proof.
  intros Hk H0 Hroom E. apply op_bind_Ok in E as (meta&s1&E1&E). apply op_bind_Ok in E as (root&s2&E2&E).
  apply op_bind_Ok in E as (psz&s3&E3&E). injection E3 as <- <-. apply op_bind_Ok in E as (tx&s4&E4&E). apply on_wal_same in E4.
  apply op_bind_Ok in E as (l1&s5&E5&E). apply op_bind_Ok in E as (img&s6&E6&E). injection E6 as E6 <-.
  apply op_bind_Ok in E as (l2&s7&E7&E). apply op_bind_Ok in E as (u&s8&E8&E). apply on_wal_same in E8. injection E as <- <-.
  apply on_pool_Ok in E1 as [E1 _], E2 as [E2 _]. apply alloc_page_mem in E1 as (->&C1&_), E2 as (->&C2&_).
  rewrite <- E4 in C2. unfold INVALID_PAGE_ID in Hroom. set (meta := file_page_count s.1) in *. set (root := file_page_count s1.1) in *.
  assert (root = meta + 1) as Hrt by lia.
  apply write_node_mem in E5 as (Hb&bs&Hbs&Hw); [| |lia].
  2:{ split_and!; first [done | by left | by constructor]. }
  apply meta_bytes_inv in E6 as [Hpz ->]. assert (zlen (NODE_META :: u32_to_le root) = 5) as H5 by done.
  destruct (image_body meta (p_size s2.1) (NODE_META :: u32_to_le root)) as (_&_&Hz); [lia|].
  apply write_raw_mem in E7 as (mb&Hmz&Hms&Hmi&Hwm); [|lia|apply image_rd; lia].
  exists root. rewrite E8. pose proof (wr_count _ _ _ _ Hw). pose proof (wr_count _ _ _ _ Hwm). constructor.
  - split_and!; [done|constructor|done].
  - constructor.
  - constructor; cbn [meta_page nodes fmap list_fmap fst tpid].
    + exists mb. split; [apply Hwm|]. split; [done|]. intros msg. apply (meta_root_image _ meta _ (p_size s2.1)); [lia..|congruence|done].
    + apply Forall_singleton. cbn [fst snd]. rewrite (store_other meta mb s5.1 _ root Hwm) by lia. by eapply store_written.
    + apply NoDup_cons. split; [|apply NoDup_singleton]. rewrite list_elem_of_singleton. lia.
    + apply Forall_cons; split; [lia|]. apply Forall_singleton. lia.
    + unfold INVALID_PAGE_ID. lia.
Qed.

Lemma insert_all_ok bt fuel txn es : ∀ k prev s h t r s', bt_page_size bt ≤ 65536 → Forall (entry_ok kd) es →
  tree_at bt kd k s.1 h t → Z.of_nat (length es) * Z.of_nat (h + length es + 2) ≤ k → (h + length es < fuel)%nat →
  insert_all_in_txn io pio fuel bt es txn prev s = (Ok r, s') →
  (∃ l, r = Some l) ∧ ∃ h' t', tree_at bt kd 0 s'.1 h' t' ∧ entries t ⊆ entries t' ∧ entries t' ⊆ entries t ++ es ∧
    ∀ x, x ∈ es.*1 → x ∈ (entries t').*1.
Proof.
  induction es as [|[[v rid] inc] es IH]; intros k prev s h t r s' Hps Hok Ht Hk Hf E; cbn [insert_all_in_txn] in E.
  { injection E as <- <-. split; [by eexists|]. exists h, t. rewrite app_nil_r. split_and!; try done.
    - destruct Ht. constructor; [done..|]. eapply owned_le; [|done]. simpl in Hk. lia.
    - intros x Hx. by apply not_elem_of_nil in Hx. }
  apply Forall_cons in Hok as [Hok1 Hok]. rewrite length_cons in *.
  apply op_bind_Ok in E as (q&s1&E1&E). apply (tree_insert_ok io pio bt kd fuel v rid inc _ _ k s h t) in E1 as [(l&->) Hins]; try done; [|nia|lia].
  destruct Hins as [[Hin Hm]|(h'&t'&es1&es2&Hh'&Ht'&E1&E2)].
  - apply (IH k _ s1 h t) in E as [Hr (h'&t'&Ht'&Hs1&Hs2&Hs3)]; [|done|done| |nia|lia].
    2:{ destruct Ht. constructor; [done..|by eapply owned_same]. }
    split; [done|]. exists h', t'. split_and!; [done..| |].
    + intros x Hx%Hs2. apply elem_of_app in Hx as [Hx|Hx]; apply elem_of_app; [by left|right; by right].
    + intros x [->|Hx]%elem_of_cons; [|by apply Hs3]. apply list_elem_of_fmap in Hin as (e&He'&He). cbn [fst].
      rewrite He'. by apply list_elem_of_fmap_2, Hs1.
  - apply (IH (k - Z.of_nat h - 2) _ s1 h' t') in E as [Hr (h2&t2&Ht2&Hs1&Hs2&Hs3)]; [|done..|nia|lia].
    split; [done|]. exists h2, t2. split_and!; [done|..].
    + intros x Hx. apply Hs1. rewrite E2. rewrite E1 in Hx. set_solver.
    + intros x Hx%Hs2. rewrite E2 in Hx. rewrite E1. set_solver.
    + intros x [->|Hx]%elem_of_cons; [|by apply Hs3]. apply (list_elem_of_fmap_2 fst _ (v, rid, inc)), Hs1. rewrite E2. set_solver.
Qed.

Lemma many_ok bt fuel es k s h t r s' : bt_page_size bt ≤ 65536 → Forall (entry_ok kd) es →
  tree_at bt kd k s.1 h t → Z.of_nat (length es) * Z.of_nat (h + length es + 2) ≤ k → (h + length es < fuel)%nat →
  insert_many_with_include io pio fuel bt es s = (Ok r, s') →
  r = Some tt ∧ ∃ h' t', tree_at bt kd 0 s'.1 h' t' ∧ entries t ⊆ entries t' ∧ entries t' ⊆ entries t ++ es ∧
    ∀ x, x ∈ es.*1 → x ∈ (entries t').*1.
Proof.
  intros Hps Hok Ht Hk Hf E. unfold insert_many_with_include in E. case_decide as Hd.
  { subst. injection E as <- <-. split; [done|]. exists h, t. rewrite app_nil_r. split_and!; try done.
    - destruct Ht. constructor; [done..|]. eapply owned_le; [|done]. simpl in Hk. lia.
    - intros x Hx. by apply not_elem_of_nil in Hx. }
  apply op_bind_Ok in E as (tx&s1&E1&E). apply on_wal_same in E1. rewrite <- E1 in Ht.
  apply op_bind_Ok in E as (q&s2&E2&E). apply (insert_all_ok bt fuel _ es k _ s1 h t) in E2 as [(l&->) Hres]; [|done..].
  apply op_bind_Ok in E as (u&s3&E3&E). apply on_wal_same in E3. injection E as <- <-. by rewrite E3.
Qed.

(** C9: After creating a B+tree and inserting any list of entries, splits of leaves and
    roots included, a search returns a row id exactly when one of the entries has it with
    a key that satisfies the comparison. *)
Theorem index_reads_back fuel es o v s0 bt s1 r1 s2 r2 p3 :
  0 ≤ file_page_count s0.1 →
  file_page_count s0.1 + 2 + Z.of_nat (length es) * Z.of_nat (length es + 2) ≤ INVALID_PAGE_ID →
  Forall (entry_ok kd) es → (length es < fuel)%nat → file_page_count s2.1 ≤ Z.of_nat fuel → o ≠ CNe →
  tree_create io pio s0 = (Ok bt, s1) → bt_page_size bt ≤ 65536 →
  insert_many_with_include io pio fuel bt es s1 = (Ok r1, s2) →
  search pio fuel bt o v s2.1 = (Ok r2, p3) →
  ∃ rids, r2 = Some (Some rids) ∧
    ∀ rid, rid ∈ rids ↔ ∃ k, (k, rid) ∈ es.*1 ∧ cmp_holds o v k = true.
Proof.
  intros H0 Hroom Hok Hf Hpg Ho E1 Hps E2 E3.
  apply (create_ok (Z.of_nat (length es) * Z.of_nat (length es + 2))) in E1 as [root Ht]; [|lia..].
  destruct (many_ok bt fuel es _ s1 0 _ r1 s2 Hps Hok Ht ltac:(lia) ltac:(lia) E2) as (_&h&t&Ht2&_&Hsub&Hin).
  apply (search_exact pio bt kd fuel o v s2.1 t) in E3 as [_ ->]; [|by apply (readable_pages bt kd 0 _ h)].
  exists (entry_rid <$> matching (cmp_holds o v) (entries t)). split; [by destruct o|]. intros rid.
  rewrite list_elem_of_fmap. split.
  - intros ([[k r] inc]&->&He). apply list_elem_of_filter in He as [Hc He]. exists k. split; [|done].
    apply Hsub in He. simpl in He. by apply (list_elem_of_fmap_2 fst) in He.
  - intros (k&Hk&Hc). apply Hin, list_elem_of_fmap in Hk as ([[k' r'] inc]&[= <- <-]&He). exists (k, rid, inc).
    split; [done|]. by apply list_elem_of_filter.
Qed.

End create.

(** ** Concrete trees *)

#[local] Existing Instance sum_crc.

Definition w_ent (n : Z) : Entry := (KInt n, mkRowId n 0, []).
Definition w_tree : DiskBTree := mkTree 0 100.
Definition w_blank : BufferPool * Wal := Eval vm_compute in (BufferPool.open (replicate 12 (replicate 100 0)) 100 16, w_wal).
Definition w_created : BufferPool * Wal := Eval vm_compute in (tree_create io_ok pio_ok w_blank).2.
Definition w_seven : BufferPool * Wal := Eval vm_compute in
  (insert_many_with_include io_ok pio_ok 20 w_tree (w_ent <$> [1; 2; 3; 4; 5; 6; 7]) w_created).2.

Lemma w_ent_ok n : - 2 ^ 63 ≤ n < 2 ^ 63 → 0 ≤ n < 2 ^ 32 → entry_ok 0 (w_ent n).
Proof. intros ??. split; [split; [done|done]|]. split; [|done]. split; [done|]. simpl. lia. Qed.

Lemma index_reads_back_witness : ∃ rids,
  (search pio_ok 20 w_tree CGe (KInt 4) w_seven.1).1 = Ok (Some (Some rids)) ∧
  ∀ rid, rid ∈ rids ↔ ∃ k, (k, rid) ∈ (w_ent <$> [1; 2; 3; 4; 5; 6; 7]).*1 ∧ cmp_holds CGe (KInt 4) k = true.
Proof.
  destruct (search pio_ok 20 w_tree CGe (KInt 4) w_seven.1) as [r p] eqn:E. assert (∃ r2, r = Ok r2) as [r2 ->].
  { vm_compute in E. injection E as <- _. by eexists. }
  destruct (index_reads_back io_ok pio_ok 0 20 (w_ent <$> [1; 2; 3; 4; 5; 6; 7]) CGe (KInt 4) w_blank w_tree w_created
    (Some tt) w_seven r2 p) as (rids&->&Hr).
  - vm_compute. congruence.
  - vm_compute. congruence.
  - apply Forall_fmap, Forall_forall. intros n Hn. apply w_ent_ok; repeat (apply elem_of_cons in Hn as [->|Hn]; [lia|]); by apply not_elem_of_nil in Hn.
  - vm_compute. lia.
  - vm_compute. congruence.
  - done.
  - vm_compute. reflexivity.
  - vm_compute. congruence.
  - vm_compute. reflexivity.
  - exact E.
  - by exists rids.
Defined.

(** The tree of the seven entries: three leaves under one root. *)
Definition w_t7 : tree :=
  TNode 3 (FMore (TLeaf 1 (w_ent <$> [1; 2])) (KInt 3)
    (FMore (TLeaf 2 (w_ent <$> [3; 4])) (KInt 5) (FOne (TLeaf 4 (w_ent <$> [5; 6; 7]))))).

Lemma w_ents_ok l : Forall (λ n, 0 ≤ n < 100) l → Forall (entry_ok 0) (w_ent <$> l).
Proof. intros Hl. apply Forall_fmap, (Forall_impl _ _ _ Hl). intros n Hn. apply w_ent_ok; lia. Qed.
Lemma w_sep_ok n : 0 ≤ n < 100 → sep_ok 0 (KInt n).
Proof. intros Hn. split; [simpl; lia|done]. Qed.

Lemma w_leaf_wf h pid l : h = 0%nat → Forall (λ n, 0 ≤ n < 100) l → leaf_size (w_ent <$> l) ≤ 72 →
  wf 100 0 h (TLeaf pid (w_ent <$> l)).
Proof. intros -> Hl Hz. split; [done|]. split; [by apply w_ents_ok|exact Hz]. Qed.

Ltac small_keys := repeat (apply Forall_cons; split; [lia|]); done.

Lemma w_t7_at : tree_at w_tree 0 100 w_seven.1 1 w_t7.
Proof.
  constructor.
  - split; [|vm_compute; congruence].
    do 2 (split; [apply w_leaf_wf; [done|small_keys|vm_compute; congruence]|]; split; [apply w_sep_ok; lia|]).
    apply (w_leaf_wf 0 4 [5; 6; 7]); [done|small_keys|vm_compute; congruence].
  - unfold in_order. vm_compute. repeat constructor.
  - constructor.
    + eexists. split; [vm_compute; reflexivity|]. split; [vm_compute; reflexivity|]. intros msg. vm_compute. reflexivity.
    + repeat (apply Forall_cons; split; [vm_compute; reflexivity|]). done.
    + apply (bool_decide_eq_true _). vm_compute. reflexivity.
    + apply (bool_decide_eq_true _). vm_compute. reflexivity.
    + vm_compute. congruence.
Qed.

Lemma w_t7_readable : readable w_tree 0 20 w_seven.1 w_t7.
Proof. constructor; [exists 100, 1%nat; split_and!; [lia|lia|exact w_t7_at]|vm_compute; lia]. Qed.

(** ** Runs on it *)

Lemma tree_insert_ok_witness : ∃ lsn s', 
  insert_in_txn_with_include io_ok pio_ok 20 w_tree (KInt 8) (mkRowId 8 0) [] 9 0 w_seven = (Ok (Some lsn), s') ∧
  ∃ h' t', tree_at w_tree 0 97 s'.1 h' t' ∧ one_more (w_ent 8) (entries w_t7) (entries t').
Proof.
  destruct (insert_in_txn_with_include io_ok pio_ok 20 w_tree (KInt 8) (mkRowId 8 0) [] 9 0 w_seven) as [r s'] eqn:E.
  assert (∃ lsn, r = Ok (Some lsn)) as [lsn ->] by (vm_compute in E; injection E as <- _; by eexists).
  destruct (tree_insert_ok io_ok pio_ok w_tree 0 20 (KInt 8) (mkRowId 8 0) [] 9 0 100 w_seven 1 w_t7 (Some lsn) s')
    as [_ [[Hin _]|(h'&t'&es1&es2&_&Ht&E1&E2)]].
  - vm_compute. congruence.
  - apply (w_ent_ok 8); lia.
  - exact w_t7_at.
  - lia.
  - lia.
  - exact E.
  - exfalso. revert Hin. apply (bool_decide_eq_false _). vm_compute. reflexivity.
  - exists lsn, s'. split; [done|]. exists h', t'. split; [exact Ht|]. exists es1, es2. split; [exact E1|exact E2].
Defined.

Lemma search_exact_witness : ∃ p', same_mem w_seven.1 p' ∧
  search pio_ok 20 w_tree CLt (KInt 4) w_seven.1 = (Ok (Some (Some [mkRowId 1 0; mkRowId 2 0; mkRowId 3 0])), p').
Proof.
  destruct (search pio_ok 20 w_tree CLt (KInt 4) w_seven.1) as [r p'] eqn:E.
  assert (∃ x, r = Ok x) as [x ->] by (vm_compute in E; injection E as <- _; by eexists).
  destruct (search_exact pio_ok w_tree 0 20 CLt (KInt 4) w_seven.1 w_t7 x p' w_t7_readable E) as [Hm ->].
  exists p'. split; [done|]. vm_compute. reflexivity.
Defined.

Lemma search_range_partition_exact_witness : ∃ parts p',
  search_range_partition pio_ok 20 w_tree RGe (KInt 3) 2 w_seven.1 = (Ok (Some parts), p') ∧
  length parts = 2%nat ∧ concat parts = [mkRowId 3 0; mkRowId 4 0; mkRowId 5 0; mkRowId 6 0; mkRowId 7 0] ∧
  Forall (λ part, length part ≤ 3)%nat parts.
Proof.
  destruct (search_range_partition pio_ok 20 w_tree RGe (KInt 3) 2 w_seven.1) as [r p'] eqn:E.
  assert (∃ x, r = Ok x) as [x ->] by (vm_compute in E; injection E as <- _; by eexists).
  destruct (search_range_partition_exact pio_ok w_tree 0 20 RGe (KInt 3) 2 w_seven.1 w_t7 x p' w_t7_readable
    ltac:(lia) E) as (_&parts&->&Hl&Hc&Hf).
  exists parts, p'. split_and!; [done..|]. by rewrite Hc in Hf.
Defined.

Lemma remove_exact_witness : ∃ s', tree_remove io_ok pio_ok 20 w_tree (KInt 3) (mkRowId 3 0) w_seven = (Ok (Some tt), s') ∧
  ∃ t', tree_at w_tree 0 100 s'.1 1 t' ∧ entries t' = w_ent <$> [1; 2; 4; 5; 6; 7].
Proof.
  destruct (tree_remove io_ok pio_ok 20 w_tree (KInt 3) (mkRowId 3 0) w_seven) as [r s'] eqn:E.
  assert (∃ x, r = Ok x) as [x ->] by (vm_compute in E; injection E as <- _; by eexists).
  destruct (remove_exact io_ok pio_ok w_tree 0 20 (KInt 3) (mkRowId 3 0) 100 w_seven 1 w_t7 x s') as (->&t'&Ht&Et).
  - lia.
  - vm_compute. congruence.
  - exact w_t7_at.
  - repeat (apply Forall_cons; split; [done|]). done.
  - lia.
  - vm_compute. lia.
  - exact E.
  - exists s'. split; [done|]. exists t'. split; [exact Ht|]. rewrite Et. vm_compute. reflexivity.
Defined.

Lemma update_rowid_exact_witness : ∃ s', update_rowid_inplace io_ok pio_ok 20 w_tree (KInt 5) (mkRowId 5 0) (mkRowId 9 1) w_seven =
    (Ok (Some tt), s') ∧
  ∃ h' t', tree_at w_tree 0 97 s'.1 h' t' ∧
    entries t' = (w_ent <$> [1; 2; 3; 4]) ++ (KInt 5, mkRowId 9 1, []) :: (w_ent <$> [6; 7]).
Proof.
  destruct (update_rowid_inplace io_ok pio_ok 20 w_tree (KInt 5) (mkRowId 5 0) (mkRowId 9 1) w_seven) as [r s'] eqn:E.
  assert (∃ x, r = Ok x) as [x ->] by (vm_compute in E; injection E as <- _; by eexists).
  destruct (update_rowid_exact io_ok pio_ok w_tree 0 20 (KInt 5) (mkRowId 5 0) (mkRowId 9 1) 100 w_seven 1 w_t7 x s')
    as (->&h'&t'&Ht&Hcase).
  - vm_compute. congruence.
  - split; [apply (w_sep_ok 5); lia|]. vm_compute. split_and!; congruence.
  - exact w_t7_at.
  - lia.
  - lia.
  - vm_compute. lia.
  - exact E.
  - exists s'. split; [done|]. exists h', t'. split; [exact Ht|]. destruct Hcase as [[_ ->]|[Hn _]]; [vm_compute; reflexivity|].
    exfalso. apply Hn. apply (bool_decide_eq_true _). vm_compute. reflexivity.
Defined.

Lemma validate_exact_witness : tree_validate (λ pid, read_page_locked w_seven.1 pid true) 20 w_tree = Ok (Some (w_ent <$> [1; 2; 3; 4; 5; 6; 7]).*1).
Proof.
  apply (validate_exact (λ pid, read_page_locked w_seven.1 pid true) w_tree 100 0 20 1 w_t7).
  - apply (pool_reads w_tree 0 100 _ 1); [lia|exact w_t7_at].
  - exact (ta_wf _ _ _ _ _ _ w_t7_at).
  - exact (ta_order _ _ _ _ _ _ w_t7_at).
  - lia.
  - vm_compute. lia.
Defined.

Lemma page_directory_exact_witness :
  tree_page_directory (λ pid, read_page_locked w_seven.1 pid true) 20 w_tree = Ok (Some [(1, 0); (2, 0); (3, 0); (4, 0); (5, 0); (6, 0); (7, 0)]).
Proof.
  rewrite (page_directory_exact (λ pid, read_page_locked w_seven.1 pid true) w_tree 100 0 20 1 w_t7); [reflexivity|..].
  - apply (pool_reads w_tree 0 100 _ 1); [lia|exact w_t7_at].
  - exact (ta_wf _ _ _ _ _ _ w_t7_at).
  - done.
  - lia.
  - vm_compute. lia.
Defined.

(** ** Where the tree does not do what its callers expect *)

Definition w_remove (n : Z) (s : BufferPool * Wal) : Result (option unit) * (BufferPool * Wal) :=
  tree_remove io_ok pio_ok 20 w_tree (KInt n) (mkRowId n 0) s.
Definition w_removes (l : list Z) (s : BufferPool * Wal) : BufferPool * Wal := foldl (λ s n, (w_remove n s).2) s l.
Definition w_find (n : Z) (s : BufferPool * Wal) : Result (option (option (list RowId))) :=
  (search pio_ok 20 w_tree CEq (KInt n) s.1).1.

(** Removing all entries in key order leaves the first entry of every leaf but the
    first: the removal of the entry with the separator's key looks at the emptied leaf
    left of it and stops, and reports success. *)
Theorem removed_entry_remains :
  w_find 3 w_seven = Ok (Some (Some [mkRowId 3 0])) ∧
  (w_remove 3 (w_removes [1; 2] w_seven)).1 = Ok (Some tt) ∧
  w_find 3 (w_removes [1; 2; 3; 4; 5; 6; 7] w_seven) = Ok (Some (Some [mkRowId 3 0])).
Proof. vm_compute. split_and!; reflexivity. Qed.

(** With an empty last leaf the largest entry is reported as missing though the tree
    has entries. *)
Theorem max_entry_missing :
  (tree_max_entry pio_ok 20 w_tree w_seven.1).1 = Ok (Some (Some (KInt 7, mkRowId 7 0))) ∧
  (tree_max_entry pio_ok 20 w_tree (w_removes [7; 6; 5] w_seven).1).1 = Ok (Some None) ∧
  w_find 4 (w_removes [7; 6; 5] w_seven) = Ok (Some (Some [mkRowId 4 0])).
Proof. vm_compute. split_and!; reflexivity. Qed.

(** The value of a key that is a separator is not set. *)
Theorem separator_value_not_set :
  w_find 3 w_seven = Ok (Some (Some [mkRowId 3 0])) ∧
  (tree_set_value io_ok pio_ok 20 w_tree (KInt 3) (mkRowId 3 9) w_seven).1 = Ok (Some false) ∧
  (tree_set_value io_ok pio_ok 20 w_tree (KInt 4) (mkRowId 4 9) w_seven).1 = Ok (Some true).
Proof. vm_compute. split_and!; reflexivity. Qed.

(** An entry inserted again after a split among equal keys is there twice. *)
Definition w_dup (n slot : Z) : Entry := (KInt n, mkRowId n slot, []).
Definition w_equal : BufferPool * Wal := Eval vm_compute in
  (insert_many_with_include io_ok pio_ok 20 w_tree [w_dup 1 0; w_dup 3 1; w_dup 3 2; w_dup 3 3] w_created).2.
Theorem duplicate_inserted_again :
  w_find 3 w_equal = Ok (Some (Some [mkRowId 3 1; mkRowId 3 2; mkRowId 3 3])) ∧
  w_find 3 (tree_insert io_ok pio_ok 20 w_tree (KInt 3) (mkRowId 3 1) w_equal).2 =
    Ok (Some (Some [mkRowId 3 1; mkRowId 3 1; mkRowId 3 2; mkRowId 3 3])).
Proof. vm_compute. split_and!; reflexivity. Qed.

(** A key that does not fit a page makes the insertion panic. *)
Theorem long_key_panics :
  (tree_insert io_ok pio_ok 20 w_tree (KText (replicate 60 97)) (mkRowId 1 0) w_created).1 = Panic.
Proof. vm_compute. reflexivity. Qed.
