(* ===== verification/HeapFsm.v ===== *)
(** The heap's durable page directory on the B+tree: the tree's operations as the
    directory, and what the allocation of a page leaves in it. *)

From stdpp Require Import base numbers list gmap sorting strings.
From S2P Require Import Prelude Format Mvcc Page PageSpec PageProps LockMgr Txn WalCodec Wal BufferPool BTreeNode.
From S2P Require Import BTreeNodeProps BTree BTreeSpec HeapRead Heap HeapLog BTreeStore BTreeInsert BTreeDescent BTreeSearch.
From S2P Require Import BTreeRead BTreeReader BTreeUpdate BTreeProps WalClaims BufferPoolProps HeapDurable.
Open Scope op_scope.

(** ** The instance *)

Section fsm.
Context {Hcrc : Crc32}.
Context (io : Calls) (pio : PoolCalls) (page_size : Z).

(** A path or a chain has no more pages than the file. *)
Definition with_fuel {S A} (pages : S → Z) (m : nat → op S (option A)) : op S A :=
  n <- gets pages;;
  r <- m (Z.to_nat n);;
  match r with Some a => op_ret a | None => lift Panic end.

Definition pool_pages (s : BufferPool * Wal) : Z := file_page_count s.1.

Instance disk_fsm : FsmTree := {|
  max_entry meta := with_fuel pool_pages (λ fuel, on_pool (tree_max_entry pio fuel (mkTree meta page_size)));
  insert_in_txn meta key rid txn lsn :=
    with_fuel pool_pages (λ fuel, tree_insert_in_txn io pio fuel (mkTree meta page_size) key rid txn lsn);
  set_value meta key rid :=
    with_fuel pool_pages (λ fuel, tree_set_value io pio fuel (mkTree meta page_size) key rid);;
    op_ret tt;
  page_directory meta := with_fuel pool_pages (λ fuel s,
    (tree_page_directory (λ pid, read_page_locked s.1 pid true) fuel (mkTree meta page_size), s));
|}.

Lemma with_fuel_Ok {S A} pages (m : nat → op S (option A)) s a s' :
  with_fuel pages m s = (Ok a, s') → m (Z.to_nat (pages s)) s = (Ok (Some a), s').
Proof.
  intros E. apply op_bind_Ok in E as (n&s1&[= <- <-]&E). apply op_bind_Ok in E as (r&s2&E1&E).
  destruct r as [x|]; [|done]. by injection E as <- <-.
Qed.

(** ** The directory of a tree *)

Lemma page_directory_total meta k s h t : 0 ≤ k → tree_at (mkTree meta page_size) 0 k s.1 h t →
  page_directory meta s = (Ok (directory_of <$> entries t), s).
Proof.
  intros Hk Ht. destruct (tree_pages _ _ _ _ _ _ Ht) as [Hh Hl]. unfold page_directory, disk_fsm, with_fuel, gets, op_bind.
  unfold pool_pages. rewrite (page_directory_exact _ _ page_size 0 _ h t); [done|..].
  - eapply (pool_reads _ _ k); [done|exact Ht].
  - exact (ta_wf _ _ _ _ _ _ Ht).
  - done.
  - lia.
  - lia.
Qed.

(** A page of no tree node is written. *)
Lemma owned_other bt k p p' root pid bs ns : owned bt k p root ns → pid ∉ meta_page bt :: ns.*1 →
  written pid bs p p' → owned bt k p' root ns.
Proof.
  intros [Hm Hn Hd Hr Hk] Hf Hw. apply not_elem_of_cons in Hf as [Hf1 Hf2].
  constructor; rewrite ?(wr_count _ _ _ _ Hw); try done.
  - by eapply meta_kept.
  - by eapply owned_nodes_other.
Qed.

Lemma on_io_Ok {A} (m : op (BufferPool * Wal) A) s a s' : on_io m s = (Ok a, s') →
  ∃ p w, m (d_pool s, d_wal s) = (Ok a, (p, w)) ∧ d_pool s' = p ∧ d_wal s' = w.
Proof. unfold on_io. destruct (m _) as [r [p w]]. intros [= -> <-]. by exists p, w. Qed.
Lemma wal_op_pool {A} (m : op Wal A) s a s' : wal_op m s = (Ok a, s') → d_pool s' = d_pool s.
Proof. intros (p&w&E&<-&_)%on_io_Ok. apply on_wal_same in E. done. Qed.
Lemma pool_op_Ok {A} (m : op BufferPool A) s a s' : Heap.pool_op m s = (Ok a, s') → m (d_pool s) = (Ok a, d_pool s').
Proof. intros (p&w&E&<-&_)%on_io_Ok. apply on_pool_Ok in E as [E _]. done. Qed.

Lemma mark_logged_same pid p : same_mem p (mark_fpi_logged pid p).
Proof. done. Qed.

(** The steps of an allocation: a new page, its image, and its entry. *)
Lemma alloc_steps h meta s pid s' : fsm_tree h = Some meta → 28 ≤ h_page_size h < 65536 →
  0 ≤ file_page_count (d_pool s) < 2 ^ 32 → alloc_heap_page io pio h s = (Ok pid, s') →
  ∃ p1 bs s7 txn al cl s8, alloc_page pio (d_pool s) = (Ok pid, p1) ∧ written pid bs p1 s7.1 ∧
    tree_insert_in_txn io pio (Z.to_nat (file_page_count s7.1)) (mkTree meta page_size) (KInt pid)
      (mkRowId pid (h_page_size h - 28)) txn al s7 = (Ok (Some cl), s8) ∧ same_mem s8.1 (d_pool s').
Proof.
  intros Hfsm Hps Hcnt E. unfold alloc_heap_page in E. rewrite Hfsm in E.
  apply op_bind_Ok in E as (pid'&s1&E1&E). apply pool_op_Ok in E1. pose proof (alloc_page_mem _ _ _ _ E1) as (Hpid&_&_).
  destruct (new_spec pid' PAGE_TYPE_HEAP (h_page_size h) Hps ltac:(unfold is_byte, PAGE_TYPE_HEAP; lia))
    as (page&Enew&_&_&Hsz&Hid&_&Hfree&_). rewrite Enew in E.
  apply op_bind_Ok in E as (x2&s2&[= <- <-]&E). rewrite Hfree in E. apply op_bind_Ok in E as (x3&s3&[= <- <-]&E).
  apply op_bind_Ok in E as (tx&s4&E4&E). apply wal_op_pool in E4. apply op_bind_Ok in E as (al&s5&E5&E). apply wal_op_pool in E5.
  apply op_bind_Ok in E as (sp&s6&E6&E). injection E6 as E6 <-. apply op_bind_Ok in E as (u7&s7&E7&E). apply pool_op_Ok in E7.
  apply op_bind_Ok in E as (cl&s8&E8&E). apply on_io_Ok in E8 as (p8&w8&E8&Ep8&_). apply with_fuel_Ok in E8.
  apply op_bind_Ok in E as (u9&s9&E9&E). apply wal_op_pool in E9. apply op_bind_Ok in E as (u10&s10&E10&E).
  apply pool_op_Ok in E10. apply op_bind_Ok in E as (u11&s11&E11&E). apply pool_op_Ok in E11.
  apply op_bind_Ok in E as (u12&s12&E12&E). injection E12 as <- <-. injection E as <- <-.
  destruct page as [d]. unfold Page.page_size in Hsz. cbn [data] in Hsz. rewrite page_id_Ok in Hid by (cbn [data]; lia).
  injection Hid as Hid. cbn [data] in Hid. rewrite u32_small in Hid by lia. rewrite Z.min_l in E8 by (unfold U16_MAX; lia).
  destruct (stored_written d al sp (d_pool s1) u7 (d_pool s7) (d_pool s5) (d_pool s7) pid') as (_&_&_&Hw);
    [lia|done|exact E6|by rewrite E5, E4|exact E7|done|].
  exists (d_pool s1), (data sp), (d_pool s7, d_wal s7), tx.1, al, cl, (p8, w8). split_and!; [done..|].
  injection E10 as _ E10. injection E11 as _ E11. simpl. rewrite <- E11, <- E10, E9, Ep8. apply unpin_same_mem.
Qed.

(** C23: On a heap with a durable free-space map, a page that was allocated is in the
    directory read back from the B+tree, with the free space of an empty page, and no page
    of the directory is lost. *)
Theorem allocated_page_registered h meta k s ht t pid s' : fsm_tree h = Some meta →
  28 ≤ h_page_size h < 65536 → page_size ≤ 65536 →
  tree_at (mkTree meta page_size) 0 k (d_pool s) ht t → Z.of_nat ht + 3 ≤ k →
  alloc_heap_page io pio h s = (Ok pid, s') →
  pid ∉ meta :: (nodes t INVALID_PAGE_ID).*1 ∧
  ∃ dir, page_directory meta (d_pool s', d_wal s') = (Ok dir, (d_pool s', d_wal s')) ∧
    (pid, h_page_size h - 28) ∈ dir ∧ (directory_of <$> entries t) ⊆ dir.
Proof.
  intros Hfsm Hps Hpt Ht Hk E. destruct Ht as [Hwf Hord Ho]. pose proof (ow_room _ _ _ _ _ Ho) as Hroom.
  pose proof (ow_range _ _ _ _ _ Ho) as Hrange. apply Forall_cons in Hrange as [Hrange _]. unfold INVALID_PAGE_ID in Hroom.
  apply alloc_steps with (meta := meta) in E as (p1&bs&s7&txn&al&cl&s8&E1&Hw&E8&Hm); [|done..|lia].
  destruct (owned_alloc _ pio _ _ _ _ _ _ Ho ltac:(lia) E1) as (Ho1&Hfr&Hr1&Hr2). split; [done|].
  assert (tree_at (mkTree meta page_size) 0 (k - 1) s7.1 ht t) as Ht7.
  { constructor; [done..|]. by eapply owned_other. }
  destruct (tree_pages _ _ _ _ _ _ Ht7) as [Hh Hl]. unfold INVALID_PAGE_ID in Hr2.
  eapply (tree_insert_ok io pio (mkTree meta page_size) 0) in E8 as [_ Hins]; [|done| |exact Ht7|lia|lia].
  2:{ split; [split; [simpl; lia|done]|]. split; [|done]. split; simpl; lia. }
  assert (∃ k' h' t', 0 ≤ k' ∧ tree_at (mkTree meta page_size) 0 k' s8.1 h' t' ∧ entries t ⊆ entries t' ∧
    ∃ e, e ∈ entries t' ∧ e.1 = (KInt pid, mkRowId pid (h_page_size h - 28))) as (k'&h'&t'&Hk'&Ht'&Hsub&e&He&Ee).
  { destruct Hins as [[Hin Hm']|(h'&t'&es1&es2&_&Ht'&Ee1&Ee2)].
    - apply list_elem_of_fmap in Hin as (e&Ee&He). exists (k - 1), ht, t. split_and!; [lia| |done|by exists e].
      destruct Ht7. constructor; [done..|by eapply owned_same].
    - do 3 eexists. split_and!; [|exact Ht'| |]; [lia|rewrite Ee1, Ee2; set_solver|]. rewrite Ee2. eexists.
      split; [apply elem_of_app; right; left|done]. }
  exists (directory_of <$> entries t'). split_and!.
  - apply (page_directory_total meta k' _ h'); [done|]. destruct Ht'. constructor; [done..|by eapply owned_same].
  - assert (directory_of e = (pid, h_page_size h - 28)) as <-.
    { unfold directory_of, key_of. rewrite Ee. simpl. by rewrite u32_small by lia. }
    by apply list_elem_of_fmap_2.
  - intros x (y&->&Hy)%list_elem_of_fmap. by apply list_elem_of_fmap_2, Hsub.
Qed.

End fsm.

(** ** A run *)

#[local] Existing Instance sum_crc.
#[local] Instance w_disk_fsm : FsmTree := disk_fsm io_ok pio_ok 100.

Definition w_fsm_heap : Heap := mkHeap 100 (Some 0) 100.
Definition w_fsm_db : Db := mkDb w_seven.1 w_seven.2 empty_table (mkFsm [] ∅ false).

Lemma allocated_page_registered_witness : ∃ s' dir,
  alloc_heap_page io_ok pio_ok w_fsm_heap w_fsm_db = (Ok 5, s') ∧
  page_directory 0 (d_pool s', d_wal s') = (Ok dir, (d_pool s', d_wal s')) ∧ (5, 72) ∈ dir ∧ (7, 0) ∈ dir.
Proof.
  destruct (alloc_heap_page io_ok pio_ok w_fsm_heap w_fsm_db) as [r s'] eqn:E.
  assert (r = Ok 5) as -> by (vm_compute in E; by injection E as <- _).
  destruct (allocated_page_registered io_ok pio_ok 100 w_fsm_heap 0 100 w_fsm_db 1 w_t7 5 s') as (_&dir&Hd&Hin&Hsub).
  - reflexivity.
  - simpl. lia.
  - lia.
  - exact w_t7_at.
  - lia.
  - exact E.
  - exists s', dir. split_and!; [done|exact Hd|exact Hin|]. apply Hsub, (bool_decide_eq_true _). vm_compute. reflexivity.
Defined.
