(* ===== verification/Text.v ===== *)
(** Strings and numbers of the Rust standard library, as the SQL layer uses them:
    a [&str] is the list of its UTF-8 bytes; checked and wrapping integer
    arithmetic, decimal parsing and printing, [trim], [split], [chars]. *)

From stdpp Require Import base numbers list strings.
From Stdlib Require Import Lia Ascii.
From S2P Require Import Prelude Format BTreeNode.

(** The bytes of a literal of the source. *)
Fixpoint lit (s : string) : list Z :=
  match s with
  | EmptyString => []
  | String c s => Z.of_nat (nat_of_ascii c) :: lit s
  end.

(** ** Integers of fixed width *)

Definition in_i64 (v : Z) : Prop := -2 ^ 63 ≤ v < 2 ^ 63.
Definition in_i128 (v : Z) : Prop := -2 ^ 127 ≤ v < 2 ^ 127.

#[global] Instance in_i64_dec v : Decision (in_i64 v).
Proof. unfold in_i64. apply _. Defined.
#[global] Instance in_i128_dec v : Decision (in_i128 v).
Proof. unfold in_i128. apply _. Defined.

(** Arithmetic that wraps, as in release builds. *)
Definition wrap_i64 (v : Z) : Z := (v + 2 ^ 63) mod 2 ^ 64 - 2 ^ 63.
Definition wrap_i128 (v : Z) : Z := (v + 2 ^ 127) mod 2 ^ 128 - 2 ^ 127.

(** [checked_add], [checked_sub], [checked_mul]. *)
Definition checked_i64 (v : Z) : option Z := if decide (in_i64 v) then Some v else None.
Definition checked_i128 (v : Z) : option Z := if decide (in_i128 v) then Some v else None.

Lemma wrap_i64_id v : in_i64 v → wrap_i64 v = v.
Proof. unfold in_i64, wrap_i64. intros ?. rewrite Z.mod_small; lia. Qed.

Lemma checked_i64_Some v w : checked_i64 v = Some w ↔ in_i64 v ∧ w = v.
Proof. unfold checked_i64. case_decide; naive_solver. Qed.

Lemma checked_i128_Some v w : checked_i128 v = Some w ↔ in_i128 v ∧ w = v.
Proof. unfold checked_i128. case_decide; naive_solver. Qed.

(** ** Decimal numbers *)

Definition is_ascii_digit (b : Z) : bool := bool_decide (48 ≤ b ≤ 57).

Fixpoint digits_value (acc : Z) (s : list Z) : option Z :=
  match s with
  | [] => Some acc
  | b :: s => if is_ascii_digit b then digits_value (10 * acc + (b - 48)) s else None
  end.

(** The grammar of [str::parse] for a signed integer: an optional sign and at least
    one digit. *)
Definition parse_signed (s : list Z) : option Z :=
  match s with
  | [] => None
  | 43 :: [] | 45 :: [] => None
  | 43 :: s => digits_value 0 s
  | 45 :: s => Z.opp <$> digits_value 0 s
  | s => digits_value 0 s
  end.

Definition parse_i64 (s : list Z) : option Z := parse_signed s ≫= checked_i64.

(** The decimal digits of a natural number. *)
Fixpoint dec_digits (fuel : nat) (n : Z) (acc : list Z) : list Z :=
  match fuel with
  | O => acc
  | S fuel =>
      let acc := 48 + n mod 10 :: acc in
      if decide (n < 10) then acc else dec_digits fuel (n / 10) acc
  end.

Definition show_nat (n : Z) : list Z := dec_digits (S (Z.to_nat (Z.log2 n))) n [].

(** [to_string] of an integer. *)
Definition show_int (n : Z) : list Z := if decide (n < 0) then 45 :: show_nat (- n) else show_nat n.

Definition pad_left (w : nat) (c : Z) (s : list Z) : list Z := replicate (w - length s) c ++ s.

(** [{n:0w}]: zero padding after the sign, the sign counts. *)
Definition show_pad (w : nat) (n : Z) : list Z :=
  if decide (n < 0) then 45 :: pad_left (w - 1) 48 (show_nat (- n)) else pad_left w 48 (show_nat n).

(** ** Strings *)

(** [split] at a byte; never empty. *)
Fixpoint split (sep : Z) (s : list Z) : list (list Z) :=
  match s with
  | [] => [[]]
  | b :: s =>
      if decide (b = sep) then [] :: split sep s
      else match split sep s with
           | w :: ws => (b :: w) :: ws
           | [] => [[b]]
           end
  end.

(** [split_once] at the first byte that satisfies [p]. *)
Fixpoint split_at (p : Z → bool) (s : list Z) : option (list Z * list Z) :=
  match s with
  | [] => None
  | b :: s => if p b then Some ([], s)
              else match split_at p s with Some (u, v) => Some (b :: u, v) | None => None end
  end.

(** The length of the white space character at the start of a string, 0 if there is
    none: the code points of Unicode's White_Space, in UTF-8. *)
Definition ws_prefix (s : list Z) : nat :=
  match s with
  | b :: r =>
      if bool_decide (9 ≤ b ≤ 13) || bool_decide (b = 32) then 1
      else match b, r with
      | 0xC2, c :: _ => if bool_decide (c = 0x85) || bool_decide (c = 0xA0) then 2 else 0
      | 0xE1, 0x9A :: 0x80 :: _ => 3
      | 0xE2, 0x80 :: c :: _ =>
          if bool_decide (0x80 ≤ c ≤ 0x8A) || bool_decide (c = 0xA8) || bool_decide (c = 0xA9)
             || bool_decide (c = 0xAF) then 3 else 0
      | 0xE2, 0x81 :: 0x9F :: _ => 3
      | 0xE3, 0x80 :: 0x80 :: _ => 3
      | _, _ => 0
      end
  | [] => 0
  end.

Fixpoint trim_start_fuel (fuel : nat) (s : list Z) : list Z :=
  match fuel with
  | O => s
  | S fuel => match ws_prefix s with O => s | n => trim_start_fuel fuel (drop n s) end
  end.
Definition trim_start (s : list Z) : list Z := trim_start_fuel (length s) s.

(** The length of the white space character at the end, on the reversed string. *)
Definition ws_suffix (r : list Z) : nat :=
  match r with
  | b :: c :: d :: _ =>
      match ws_prefix [b] with
      | O => match ws_prefix [c; b] with 2%nat => 2%nat | _ =>
               match ws_prefix [d; c; b] with 3%nat => 3%nat | _ => 0%nat end end
      | n => n
      end
  | [b; c] => match ws_prefix [b] with
              | O => match ws_prefix [c; b] with 2%nat => 2%nat | _ => 0%nat end
              | n => n end
  | [b] => ws_prefix [b]
  | [] => 0%nat
  end.

Fixpoint trim_end_fuel (fuel : nat) (r : list Z) : list Z :=
  match fuel with
  | O => r
  | S fuel => match ws_suffix r with O => r | n => trim_end_fuel fuel (drop n r) end
  end.
Definition trim_end (s : list Z) : list Z := rev (trim_end_fuel (length s) (rev s)).
Definition trim (s : list Z) : list Z := trim_end (trim_start s).

Definition strip_suffix (c : Z) (s : list Z) : list Z :=
  match rev s with b :: r => if decide (b = c) then rev r else s | [] => s end.

Fixpoint trim_end_matches_rev (c : Z) (r : list Z) : list Z :=
  match r with b :: r' => if decide (b = c) then trim_end_matches_rev c r' else r | [] => [] end.
Definition trim_end_matches (c : Z) (s : list Z) : list Z := rev (trim_end_matches_rev c (rev s)).

(** The code points of a valid UTF-8 string. *)
Fixpoint chars (s : list Z) : list Z :=
  match s with
  | [] => []
  | b :: r =>
      if decide (b < 0x80) then b :: chars r
      else match r with
      | c1 :: r1 =>
          if decide (b < 0xE0) then (b - 0xC0) * 64 + (c1 - 0x80) :: chars r1
          else match r1 with
          | c2 :: r2 =>
              if decide (b < 0xF0) then
                (b - 0xE0) * 4096 + (c1 - 0x80) * 64 + (c2 - 0x80) :: chars r2
              else match r2 with
              | c3 :: r3 =>
                  (b - 0xF0) * 262144 + (c1 - 0x80) * 4096 + (c2 - 0x80) * 64 + (c3 - 0x80) :: chars r3
              | [] => []
              end
          | [] => []
          end
      | [] => []
      end
  end.

Definition ascii_lower (b : Z) : Z := if decide (65 ≤ b ≤ 90) then b + 32 else b.

(** [Ord::cmp] of strings and byte slices. *)
Fixpoint bytes_cmp (a b : list Z) : comparison :=
  match a, b with
  | [], [] => Eq
  | [], _ => Lt
  | _, [] => Gt
  | x :: a, y :: b => match (x ?= y)%Z with Eq => bytes_cmp a b | c => c end
  end.

(** ** Hexadecimal *)

Definition hex_digit (b : Z) : option Z :=
  if decide (48 ≤ b ≤ 57) then Some (b - 48)
  else if decide (97 ≤ b ≤ 102) then Some (b - 87)
  else if decide (65 ≤ b ≤ 70) then Some (b - 55)
  else None.

(** [from_str_radix(_, 16)] on each pair of digits. *)
Fixpoint hex_pairs (s : list Z) : option (list Z) :=
  match s with
  | [] => Some []
  | h :: l :: s =>
      h ← hex_digit h; l ← hex_digit l; bs ← hex_pairs s; Some (16 * h + l :: bs)
  | [_] => None
  end.

Definition hex_char (n : Z) : Z := if decide (n < 10) then 48 + n else 87 + n.

(** [{byte:02x}] for each byte. *)
Definition hex_show (bs : list Z) : list Z := flat_map (λ b, [hex_char (b / 16); hex_char (b mod 16)]) bs.

(** ** Lemmas *)

Lemma digits_value_app a s t : digits_value a (s ++ t) = digits_value a s ≫= λ v, digits_value v t.
Proof. revert a. induction s as [|b s IH]; intros a; [done|]. simpl. destruct (is_ascii_digit b); [apply IH|done]. Qed.

Lemma digits_value_zeros k s : digits_value 0 (replicate k 48 ++ s) = digits_value 0 s.
Proof. induction k as [|k IH]; [done|]. simpl. apply IH. Qed.

Lemma dec_digits_acc fuel n acc : dec_digits fuel n acc = dec_digits fuel n [] ++ acc.
Proof.
  revert n acc. induction fuel as [|fuel IH]; intros n acc; [done|]. simpl.
  case_decide; [done|]. rewrite IH, (IH _ [_]), <- app_assoc. done.
Qed.

Lemma is_ascii_digit_mod n : is_ascii_digit (48 + n mod 10) = true.
Proof. apply bool_decide_eq_true. pose proof (Z.mod_pos_bound n 10 ltac:(lia)). lia. Qed.

Lemma dec_digits_value fuel n : 0 ≤ n < 10 ^ Z.of_nat fuel → digits_value 0 (dec_digits fuel n []) = Some n.
Proof.
  revert n. induction fuel as [|fuel IH]; intros n Hn.
  - change (10 ^ Z.of_nat 0) with 1 in Hn. replace n with 0 by lia. done.
  - rewrite Nat2Z.inj_succ, Z.pow_succ_r in Hn by lia. cbn [dec_digits].
    assert (∀ a, digits_value a [48 + n mod 10] = Some (10 * a + n mod 10)) as Hd.
    { intros a. cbn [digits_value]. rewrite is_ascii_digit_mod. f_equal. lia. }
    case_decide.
    + rewrite Hd. f_equal. rewrite Z.mod_small; lia.
    + rewrite dec_digits_acc, digits_value_app, IH by (split; [apply Z.div_pos|apply Z.div_lt_upper_bound]; lia).
      cbn [mbind option_bind]. rewrite Hd. f_equal. pose proof (Z.div_mod n 10 ltac:(lia)). lia.
Qed.

Lemma show_nat_fuel n : 0 ≤ n → n < 10 ^ Z.of_nat (S (Z.to_nat (Z.log2 n))).
Proof.
  intros Hn. pose proof (Z.log2_nonneg n). rewrite Nat2Z.inj_succ, Z2Nat.id by lia.
  destruct (decide (n = 0)) as [->|]; [cbn; lia|].
  pose proof (proj2 (Z.log2_spec n ltac:(lia))).
  pose proof (Z.pow_le_mono_l 2 10 (Z.succ (Z.log2 n)) ltac:(lia)). lia.
Qed.

Lemma show_nat_value n : 0 ≤ n → digits_value 0 (show_nat n) = Some n.
Proof. intros ?. apply dec_digits_value. split; [done|]. by apply show_nat_fuel. Qed.

Lemma dec_digits_digits fuel n acc :
  Forall (λ b, 48 ≤ b ≤ 57) acc → Forall (λ b, 48 ≤ b ≤ 57) (dec_digits fuel n acc).
Proof.
  revert n acc. induction fuel as [|fuel IH]; intros n acc Ha; [done|]. simpl.
  pose proof (Z.mod_pos_bound n 10 ltac:(lia)).
  assert (Forall (λ b, 48 ≤ b ≤ 57) (48 + n mod 10 :: acc)) by (constructor; [lia|done]).
  case_decide; auto.
Qed.

Lemma show_nat_digits n : Forall (λ b, 48 ≤ b ≤ 57) (show_nat n).
Proof. by apply dec_digits_digits. Qed.

Lemma length_dec_digits_le fuel n w :
  0 ≤ n < 10 ^ Z.of_nat w → (0 < w)%nat → (length (dec_digits fuel n []) ≤ w)%nat.
Proof.
  revert n w. induction fuel as [|fuel IH]; intros n w Hn Hw; simpl; [lia|]. case_decide; [simpl; lia|].
  rewrite dec_digits_acc, length_app. simpl.
  destruct w as [|[|w]]; [lia|change (10 ^ Z.of_nat 1) with 10 in Hn; lia|].
  enough (length (dec_digits fuel (n / 10) []) ≤ S w)%nat by lia. apply IH; [|lia].
  rewrite (Nat2Z.inj_succ (S w)), Z.pow_succ_r in Hn by lia.
  split; [apply Z.div_pos|apply Z.div_lt_upper_bound]; lia.
Qed.

Lemma length_show_nat_le n w : 0 ≤ n < 10 ^ Z.of_nat w → (0 < w)%nat → (length (show_nat n) ≤ w)%nat.
Proof. apply length_dec_digits_le. Qed.

Lemma show_nat_nonempty n : show_nat n ≠ [].
Proof.
  unfold show_nat. cbn [dec_digits]. case_decide; [done|]. rewrite dec_digits_acc.
  destruct (dec_digits _ _ []); done.
Qed.

Lemma show_pad_nonneg w n : 0 ≤ n → show_pad w n = pad_left w 48 (show_nat n).
Proof. intros ?. unfold show_pad. rewrite decide_False by lia. done. Qed.

Lemma pad_left_digits w s : Forall (λ b, 48 ≤ b ≤ 57) s → Forall (λ b, 48 ≤ b ≤ 57) (pad_left w 48 s).
Proof. intros ?. apply Forall_app. split; [apply Forall_replicate; lia|done]. Qed.

Lemma show_pad_digits w n : 0 ≤ n → Forall (λ b, 48 ≤ b ≤ 57) (show_pad w n).
Proof. intros ?. rewrite show_pad_nonneg by done. apply pad_left_digits, show_nat_digits. Qed.

Lemma show_pad_value w n : 0 ≤ n → digits_value 0 (show_pad w n) = Some n.
Proof.
  intros ?. rewrite show_pad_nonneg by done. unfold pad_left.
  rewrite digits_value_zeros. by apply show_nat_value.
Qed.

Lemma length_show_pad w n : 0 ≤ n < 10 ^ Z.of_nat w → (0 < w)%nat → length (show_pad w n) = w.
Proof.
  intros ??. rewrite show_pad_nonneg by lia. unfold pad_left. rewrite length_app, length_replicate.
  pose proof (length_show_nat_le n w). lia.
Qed.

Lemma show_pad_nonempty w n : 0 ≤ n → show_pad w n ≠ [].
Proof.
  intros ?. rewrite show_pad_nonneg by done. unfold pad_left.
  intros [_ E]%app_eq_nil. by apply show_nat_nonempty in E.
Qed.

(** Digits parse as the number they denote. *)
Lemma parse_signed_digits s : s ≠ [] → Forall (λ b, 48 ≤ b ≤ 57) s → parse_signed s = digits_value 0 s.
Proof.
  intros Hs Hd. destruct s as [|b s]; [done|]. inversion Hd; subst.
  unfold parse_signed. repeat case_match; try lia; try done.
Qed.

Lemma parse_show_pad w n : 0 ≤ n → parse_signed (show_pad w n) = Some n.
Proof.
  intros ?. rewrite parse_signed_digits by (auto using show_pad_nonempty, show_pad_digits).
  by apply show_pad_value.
Qed.

Lemma parse_i64_show_pad w n : 0 ≤ n < 2 ^ 63 → parse_i64 (show_pad w n) = Some n.
Proof.
  intros ?. unfold parse_i64. rewrite parse_show_pad by lia. cbn [mbind option_bind].
  apply checked_i64_Some. unfold in_i64. split; [lia|done].
Qed.

Lemma parse_show_int n : parse_signed (show_int n) = Some n.
Proof.
  unfold show_int. case_decide.
  - pose proof (show_nat_nonempty (- n)). unfold parse_signed.
    destruct (show_nat (- n)) eqn:E; [done|]. rewrite <- E, show_nat_value by lia.
    cbn. f_equal. lia.
  - rewrite parse_signed_digits by auto using show_nat_nonempty, show_nat_digits. apply show_nat_value. lia.
Qed.

Lemma split_no_sep sep s : Forall (λ b, b ≠ sep) s → split sep s = [s].
Proof. induction 1 as [|b s ? ? IH]; [done|]. simpl. rewrite decide_False, IH by done. done. Qed.

Lemma split_sep sep s t : Forall (λ b, b ≠ sep) s → split sep (s ++ sep :: t) = s :: split sep t.
Proof.
  induction 1 as [|b s ? ? IH]; simpl; [by rewrite decide_True by done|].
  rewrite decide_False, IH by done. done.
Qed.

Lemma split_at_none p s : Forall (λ b, p b = false) s → split_at p s = None.
Proof. induction 1 as [|b s Hb ? IH]; [done|]. simpl. rewrite Hb, IH. done. Qed.

Lemma split_at_sep p s b t : Forall (λ b, p b = false) s → p b = true → split_at p (s ++ b :: t) = Some (s, t).
Proof. intros Hs Hb. induction Hs as [|c s Hc ? IH]; simpl; [by rewrite Hb|]. rewrite Hc, IH. done. Qed.

(** A string that begins (ends) with a printable ASCII character loses nothing. *)
Lemma ws_prefix_ascii b r : 33 ≤ b < 128 → ws_prefix (b :: r) = 0%nat.
Proof.
  intros Hb. unfold ws_prefix.
  rewrite (bool_decide_eq_false_2 (9 ≤ b ≤ 13)), (bool_decide_eq_false_2 (b = 32)) by lia. simpl.
  repeat case_match; try lia; done.
Qed.

Lemma trim_start_ascii b r : 33 ≤ b < 128 → trim_start (b :: r) = b :: r.
Proof. intros. unfold trim_start. cbn [length trim_start_fuel]. rewrite ws_prefix_ascii by done. done. Qed.

Lemma ws_short_2 x b : 33 ≤ b < 128 → ws_prefix [x; b] ≠ 2%nat.
Proof.
  intros. unfold ws_prefix. repeat case_match; try done.
  all: repeat match goal with H : _ || _ = true |- _ => apply orb_true_iff in H; destruct H end.
  all: repeat match goal with H : bool_decide _ = true |- _ => apply bool_decide_eq_true in H end; lia.
Qed.

Lemma ws_short_3 x y b : 33 ≤ b < 128 → ws_prefix [x; y; b] ≠ 3%nat.
Proof.
  intros. unfold ws_prefix. repeat case_match; try done; try lia.
  all: repeat match goal with H : _ || _ = true |- _ => apply orb_true_iff in H; destruct H end.
  all: repeat match goal with H : bool_decide _ = true |- _ => apply bool_decide_eq_true in H end; lia.
Qed.

Lemma ws_suffix_ascii b r : 33 ≤ b < 128 → ws_suffix (b :: r) = 0%nat.
Proof.
  intros Hb. unfold ws_suffix. destruct r as [|c [|d r]]; rewrite !ws_prefix_ascii by done; [done| |].
  - pose proof (ws_short_2 c b Hb). by destruct (ws_prefix [c; b]) as [|[|[]]].
  - pose proof (ws_short_2 c b Hb). pose proof (ws_short_3 d c b Hb).
    destruct (ws_prefix [c; b]) as [|[|[]]]; destruct (ws_prefix [d; c; b]) as [|[|[|[]]]]; done.
Qed.

Lemma trim_end_ascii s b : 33 ≤ b < 128 → trim_end (s ++ [b]) = s ++ [b].
Proof.
  intros. unfold trim_end. rewrite rev_app_distr, length_app, Nat.add_comm. cbn [rev app length Nat.add trim_end_fuel].
  rewrite ws_suffix_ascii by done. simpl. rewrite rev_involutive. done.
Qed.

Lemma strip_suffix_other c s b : b ≠ c → strip_suffix c (s ++ [b]) = s ++ [b].
Proof. intros. unfold strip_suffix. rewrite rev_app_distr. simpl. rewrite decide_False by done. done. Qed.

(** What [trim_end_matches] removes. *)
Lemma trim_end_matches_spec c s :
  ∃ k, s = trim_end_matches c s ++ replicate k c ∧ (∀ u b, trim_end_matches c s = u ++ [b] → b ≠ c).
Proof.
  enough (∀ r, ∃ k, r = replicate k c ++ trim_end_matches_rev c r ∧
    (∀ u b, trim_end_matches_rev c r = b :: u → b ≠ c)) as Hr.
  { destruct (Hr (rev s)) as (k & E & Hl). exists k. unfold trim_end_matches. split.
    - set (t := trim_end_matches_rev c (rev s)) in *. clearbody t.
      apply (f_equal (@rev Z)) in E. rewrite rev_involutive, rev_app_distr in E. rewrite E. f_equal.
      rewrite rev_alt. apply (reverse_replicate k c).
    - intros u b Eu. apply (f_equal (@rev Z)) in Eu. rewrite rev_involutive, rev_app_distr in Eu. simpl in Eu. eauto. }
  induction r as [|b r (k & E & Hl)]; simpl; [exists 0%nat; naive_solver|].
  case_decide as Hb; [subst; exists (S k); simpl; split; [by rewrite <- E|done]|].
  exists 0%nat. split; [done|]. intros u b' [= -> ->]. done.
Qed.

Lemma digits_value_zeros_r s k v :
  digits_value 0 (s ++ replicate k 48) = Some v → ∃ u, digits_value 0 s = Some u ∧ v = u * 10 ^ Z.of_nat k.
Proof.
  rewrite digits_value_app. destruct (digits_value 0 s) as [u|]; [|done]. cbn [mbind option_bind].
  intros E. exists u. split; [done|]. revert u E. induction k as [|k IH]; intros u E.
  - injection E as <-. cbn. lia.
  - cbn [replicate digits_value] in E. change (is_ascii_digit 48) with true in E. cbn [mbind] in E.
    apply IH in E. rewrite Nat2Z.inj_succ, Z.pow_succ_r by lia. lia.
Qed.

Lemma bytes_cmp_opp a b : bytes_cmp b a = CompOpp (bytes_cmp a b).
Proof.
  revert b. induction a as [|x a IH]; intros [|y b]; try done. cbn [bytes_cmp].
  rewrite (Z.compare_antisym x y). destruct (x ?= y)%Z; cbn [CompOpp]; [apply IH|done|done].
Qed.

Lemma bytes_cmp_eq a b : bytes_cmp a b = Eq ↔ a = b.
Proof.
  revert b. induction a as [|x a IH]; intros [|y b]; try done. cbn [bytes_cmp].
  destruct (Z.compare_spec x y); [subst; rewrite IH; naive_solver|split; [done|intros [= -> ->]; lia]..].
Qed.

Lemma bytes_cmp_trans o a b c : o ≠ Eq → bytes_cmp a b = o → bytes_cmp b c = o → bytes_cmp a c = o.
Proof.
  intros Ho. revert b c. induction a as [|x a IH]; intros [|y b] [|z c]; cbn [bytes_cmp]; try congruence.
  destruct (Z.compare_spec x y), (Z.compare_spec y z), (Z.compare_spec x z); try lia; try congruence; subst; eauto.
Qed.
