(* ===== verification/Datetime.v ===== *)
(** Calendar dates and times of day ([src/sql/datetime.rs]): conversion between days
    and civil dates, parsing and printing.  The calendar is the proleptic Gregorian
    one, and what is printed for a year from 0 on parses to the same instant. *)

From stdpp Require Import base numbers list strings.
From Stdlib Require Import Lia.
From S2P Require Import Prelude Format Text.

Definition MICROS_PER_SEC : Z := 1000000.
Definition SECS_PER_DAY : Z := 86400.

(** ** Civil dates *)

Definition days_from_civil (y m d : Z) : Z :=
  let y := if decide (m ≤ 2) then y - 1 else y in
  let era := (if decide (0 ≤ y) then y else y - 399) `quot` 400 in
  let yoe := y - era * 400 in
  let doy := (153 * (if decide (2 < m) then m - 3 else m + 9) + 2) `quot` 5 + d - 1 in
  let doe := yoe * 365 + yoe `quot` 4 - yoe `quot` 100 + doy in
  wrap_i64 (era * 146097 + doe - 719468).

Definition civil_from_days (z : Z) : Z * Z * Z :=
  let z := z + 719468 in
  let era := (if decide (0 ≤ z) then z else z - 146096) `quot` 146097 in
  let doe := z - era * 146097 in
  let yoe := (doe - doe `quot` 1460 + doe `quot` 36524 - doe `quot` 146096) `quot` 365 in
  let y := yoe + era * 400 in
  let doy := doe - (365 * yoe + yoe `quot` 4 - yoe `quot` 100) in
  let mp := (5 * doy + 2) `quot` 153 in
  let d := doy - (153 * mp + 2) `quot` 5 + 1 in
  let m := if decide (mp < 10) then mp + 3 else mp - 9 in
  (if decide (m ≤ 2) then y + 1 else y, m, d).

Definition is_leap (y : Z) : bool :=
  (bool_decide (y `rem` 4 = 0) && negb (bool_decide (y `rem` 100 = 0))) || bool_decide (y `rem` 400 = 0).

Definition days_in_month (y m : Z) : Z :=
  match m with
  | 1 | 3 | 5 | 7 | 8 | 10 | 12 => 31
  | 4 | 6 | 9 | 11 => 30
  | 2 => if is_leap y then 29 else 28
  | _ => 0
  end.

(** ** Parsing *)

Definition parse_uint (s : list Z) : Result Z := ok_or (parse_i64 s) (SqlPlan "invalid timestamp field").

Fixpoint times_ten (n : nat) (v : Z) : Z := match n with O => v | S n => times_ten n (v * 10) end.

Definition parse_fraction (frac : list Z) : Result Z :=
  match frac with
  | [] => Ok 0
  | _ =>
      if (6 <? length frac)%nat || negb (forallb is_ascii_digit frac) then
        Err (SqlPlan "invalid fractional seconds in timestamp")
      else
        micros ← parse_uint frac;
        Ok (times_ten (6 - length frac) micros)
  end.

(** The three fields of a date, in a real date. *)
Definition date_fields (s : list Z) (e e' : DbError) : Result (Z * Z * Z) :=
  match split 45 s with
  | [y; mo; d] =>
      y ← parse_uint y; mo ← parse_uint mo; d ← parse_uint d;
      if decide (1 ≤ mo ≤ 12 ∧ 1 ≤ d ≤ days_in_month y mo) then Ok (y, mo, d) else Err e'
  | _ => Err e
  end.

(** Hours, minutes and optional seconds, and the fraction after a point. *)
Definition time_fields (s : list Z) (e e' : DbError) : Result (Z * Z * Z * Z) :=
  let '(hms, frac) := match split_at (λ b, bool_decide (b = 46)) s with
                      | Some p => p
                      | None => (s, [])
                      end in
  '(hh, mm, ss) ← match split 58 hms with
                  | [h; m; s] => h ← parse_uint h; m ← parse_uint m; s ← parse_uint s; Ok (h, m, s)
                  | [h; m] => h ← parse_uint h; m ← parse_uint m; Ok (h, m, 0)
                  | _ => Err e
                  end;
  if decide (23 < hh ∨ 59 < mm ∨ 59 < ss) then Err e'
  else
    micros ← parse_fraction frac;
    Ok (hh, mm, ss, micros).

Definition parse_timestamp (input : list Z) : Result Z :=
  let s := trim_end (strip_suffix 90 (trim input)) in
  let '(date_part, time_part) :=
    match split_at (λ b, bool_decide (b = 84) || bool_decide (b = 32)) s with
    | Some (u, v) => (u, trim v)
    | None => (s, [])
    end in
  '(y, mo, d) ← date_fields date_part (SqlPlan "invalid timestamp: expected 'YYYY-MM-DD[ HH:MM:SS[.ffffff]]'")
                  (SqlPlan "invalid timestamp: not a real date");
  '(hh, mm, ss, micros) ← match time_part with
                          | [] => Ok (0, 0, 0, 0)
                          | _ => let e := SqlPlan "invalid time-of-day in timestamp" in time_fields time_part e e
                          end;
  let days := days_from_civil y mo d in
  let secs := wrap_i64 (days * SECS_PER_DAY + hh * 3600 + mm * 60 + ss) in
  Ok (wrap_i64 (secs * MICROS_PER_SEC + micros)).

Definition parse_date (input : list Z) : Result Z :=
  '(y, mo, d) ← date_fields (trim input) (SqlPlan "invalid date: expected 'YYYY-MM-DD'")
                  (SqlPlan "invalid date: not a real date");
  let days := days_from_civil y mo d in
  if decide (-2 ^ 31 ≤ days < 2 ^ 31) then Ok days else Err (SqlPlan "date out of range").

Definition parse_time (input : list Z) : Result Z :=
  '(hh, mm, ss, micros) ← time_fields (trim input) (SqlPlan "invalid time: expected 'HH:MM:SS[.ffffff]'")
                            (SqlPlan "invalid time-of-day");
  Ok (wrap_i64 ((hh * 3600 + mm * 60 + ss) * MICROS_PER_SEC + micros)).

(** ** Printing *)

Definition show_date (days : Z) : list Z :=
  let '(y, mo, d) := civil_from_days days in
  show_pad 4 y ++ [45] ++ show_pad 2 mo ++ [45] ++ show_pad 2 d.

Definition show_hms (secs : Z) : list Z :=
  show_pad 2 (secs `quot` 3600) ++ [58] ++ show_pad 2 ((secs `rem` 3600) `quot` 60) ++ [58]
  ++ show_pad 2 (secs `rem` 60).

Definition with_fraction (base : list Z) (frac : Z) : list Z :=
  if decide (frac = 0) then base else base ++ [46] ++ trim_end_matches 48 (show_pad 6 frac).

Definition format_timestamp (micros : Z) : list Z :=
  let total_secs := micros / MICROS_PER_SEC in
  let frac := micros mod MICROS_PER_SEC in
  let days := total_secs / SECS_PER_DAY in
  let total_secs := total_secs mod SECS_PER_DAY in
  with_fraction (show_date days ++ [32] ++ show_hms total_secs) frac.

Definition format_date (days : Z) : list Z := show_date days.

Definition format_time (micros : Z) : list Z :=
  let secs := micros `quot` MICROS_PER_SEC in
  let frac := micros `rem` MICROS_PER_SEC in
  with_fraction (show_hms secs) frac.

(** ** The calendar *)

(** Years and months counted from March: the year of a date, and the days before a
    month in such a year. *)
Definition march_year (y m : Z) : Z := if decide (m ≤ 2) then y - 1 else y.
Definition march_month (m : Z) : Z := if decide (2 < m) then m - 3 else m + 9.
Definition days_before_year (y : Z) : Z := 365 * y + y / 4 - y / 100 + y / 400.
Definition days_before_month (mp : Z) : Z := (153 * mp + 2) / 5.

(** The day count without wrap-around. *)
Definition day_number (y m d : Z) : Z :=
  days_before_year (march_year y m) + days_before_month (march_month m) + d - 1 - 719468.

Definition valid_date (dt : Z * Z * Z) : Prop :=
  let '(y, m, d) := dt in 1 ≤ m ≤ 12 ∧ 1 ≤ d ≤ days_in_month y m.

Definition next_day (dt : Z * Z * Z) : Z * Z * Z :=
  let '(y, m, d) := dt in
  if decide (d < days_in_month y m) then (y, m, d + 1)
  else if decide (m < 12) then (y, m + 1, 1)
  else (y + 1, 1, 1).

Lemma quot_floor z n : 0 < n → (if decide (0 ≤ z) then z else z - (n - 1)) `quot` n = z / n.
Proof.
  intros Hn. case_decide; [apply Z.quot_div_nonneg; lia|].
  pose proof (Z.quot_rem' (z - (n - 1)) n). pose proof (Z.rem_bound_pos_neg (z - (n - 1)) n ltac:(lia) ltac:(lia)).
  apply (Z.div_unique z n _ (Z.rem (z - (n - 1)) n + (n - 1))); lia.
Qed.

Lemma days_from_civil_number y m d : 1 ≤ m ≤ 12 → days_from_civil y m d = wrap_i64 (day_number y m d).
Proof.
  intros Hm. unfold days_from_civil, day_number. f_equal. fold (march_year y m). fold (march_month m).
  change (march_year y m - 399) with (march_year y m - (400 - 1)). rewrite quot_floor by lia.
  assert (0 ≤ march_month m) by (unfold march_month; case_decide; lia).
  assert (0 ≤ march_year y m - march_year y m / 400 * 400) by (Z.to_euclidean_division_equations; lia).
  rewrite !Z.quot_div_nonneg by lia.
  unfold days_before_year, days_before_month. set (Y := march_year y m). clearbody Y.
  Z.to_euclidean_division_equations. lia.
Qed.

Lemma is_leap_spec y : is_leap y = true ↔ (y mod 4 = 0 ∧ y mod 100 ≠ 0) ∨ y mod 400 = 0.
Proof.
  unfold is_leap. rewrite orb_true_iff, andb_true_iff, negb_true_iff, !bool_decide_eq_true, bool_decide_eq_false.
  rewrite !Z.rem_divide, <- !Z.mod_divide by lia. done.
Qed.

Lemma is_leap_false y : is_leap y = false ↔ (y mod 4 ≠ 0 ∨ y mod 100 = 0) ∧ y mod 400 ≠ 0.
Proof. rewrite <- not_true_iff_false, is_leap_spec. destruct (decide (y mod 4 = 0)), (decide (y mod 100 = 0)); naive_solver. Qed.

(** Case analysis on the month. *)
Lemma month_cases (P : Z → Prop) m : 1 ≤ m ≤ 12 →
  P 1 → P 2 → P 3 → P 4 → P 5 → P 6 → P 7 → P 8 → P 9 → P 10 → P 11 → P 12 → P m.
Proof.
  intros Hm. destruct (decide (m ≤ 6)).
  - assert (m = 1 ∨ m = 2 ∨ m = 3 ∨ m = 4 ∨ m = 5 ∨ m = 6) as H by lia. naive_solver.
  - assert (m = 7 ∨ m = 8 ∨ m = 9 ∨ m = 10 ∨ m = 11 ∨ m = 12) as H by lia. naive_solver.
Qed.

Lemma days_in_month_bounds y m : 1 ≤ m ≤ 12 → 28 ≤ days_in_month y m ≤ 31.
Proof. intros Hm. pattern m. apply month_cases; [done|..]; cbn [days_in_month]; try destruct (is_leap y); lia. Qed.

Lemma days_before_year_step y :
  days_before_year (y + 1) = days_before_year y + (if is_leap (y + 1) then 366 else 365).
Proof.
  unfold days_before_year. destruct (is_leap (y + 1)) eqn:El.
  - apply is_leap_spec in El. Z.to_euclidean_division_equations; lia.
  - apply is_leap_false in El. Z.to_euclidean_division_equations; lia.
Qed.

Lemma next_day_spec dt : valid_date dt →
  valid_date (next_day dt) ∧
  let '(y, m, d) := dt in let '(y', m', d') := next_day dt in day_number y' m' d' = day_number y m d + 1.
Proof.
  destruct dt as [[y m] d]. intros [Hm Hd].
  unfold next_day. case_decide as Hl; [split; [split; [done|lia]|unfold day_number; lia]|].
  assert (d = days_in_month y m) as -> by lia. clear Hl Hd. case_decide as Hm'.
  - split; [split; [lia|]; pose proof (days_in_month_bounds y (m + 1)); lia|].
    pose proof (days_before_year_step (y - 1)) as Hs. replace (y - 1 + 1) with y in Hs by lia.
    revert Hm'. unfold day_number, march_year, march_month, days_before_month. pattern m. apply month_cases; [done|..].
    all: cbn [days_in_month]; intros Hm'; repeat (case_decide; try lia).
    all: try destruct (is_leap y); Z.to_euclidean_division_equations; lia.
  - assert (m = 12) as -> by lia. split; [split; [lia|]; pose proof (days_in_month_bounds (y + 1) 1); lia|].
    unfold day_number, march_year, march_month. repeat (case_decide; try lia).
    replace (y + 1 - 1) with y by lia. cbn [days_in_month]. unfold days_before_month. Z.to_euclidean_division_equations; lia.
Qed.

(** A year from March on has 365 days, or 366 when the next year is a leap year. *)
Lemma day_number_bounds y m d : valid_date (y, m, d) →
  0 ≤ days_before_month (march_month m) + d - 1 ≤ 365 ∧
  (days_before_month (march_month m) + d - 1 = 365 → is_leap (march_year y m + 1) = true) ∧
  d - 1 < days_before_month (march_month m + 1) - days_before_month (march_month m) ∧
  0 ≤ march_month m ≤ 11.
Proof.
  intros [Hm Hd]. revert Hd. pattern m. apply month_cases; [done|..].
  all: cbn [days_in_month]; unfold march_year, march_month, days_before_month; simpl; intros Hd.
  all: repeat (case_decide; try lia).
  all: try (destruct (is_leap y) eqn:El); repeat split; intros; try (Z.to_euclidean_division_equations; lia).
  all: replace (y - 1 + 1) with y by lia; done.
Qed.

Lemma days_before_year_mono y y' : y ≤ y' → days_before_year y + 365 * (y' - y) ≤ days_before_year y'.
Proof. intros. unfold days_before_year. Z.to_euclidean_division_equations; lia. Qed.

Lemma day_of_year_inj Y Y' r r' :
  days_before_year Y + r = days_before_year Y' + r' →
  0 ≤ r ≤ 365 → 0 ≤ r' ≤ 365 → (r = 365 → is_leap (Y + 1) = true) → (r' = 365 → is_leap (Y' + 1) = true) → Y = Y'.
Proof.
  intros E Hr Hr' Hl Hl'.
  assert (∀ A B s, 0 ≤ s ≤ 365 → (s = 365 → is_leap (A + 1) = true) → A < B → days_before_year A + s < days_before_year B)
    as Hlt.
  { intros A B s Hs Hsl HAB. pose proof (days_before_year_step A) as Hst.
    pose proof (days_before_year_mono (A + 1) B ltac:(lia)).
    destruct (decide (s = 365)) as [->|]; [rewrite Hsl in Hst by done; lia|].
    destruct (is_leap (A + 1)); lia. }
  destruct (Z.lt_trichotomy Y Y') as [?|[?|?]]; [|done|].
  - pose proof (Hlt Y Y' r ltac:(lia) Hl ltac:(lia)). lia.
  - pose proof (Hlt Y' Y r' ltac:(lia) Hl' ltac:(lia)). lia.
Qed.

Lemma month_of_day_inj a b c d :
  days_before_month a + c = days_before_month b + d → 0 ≤ a ≤ 11 → 0 ≤ b ≤ 11 →
  0 ≤ c < days_before_month (a + 1) - days_before_month a →
  0 ≤ d < days_before_month (b + 1) - days_before_month b → a = b ∧ c = d.
Proof.
  unfold days_before_month. intros. assert (a = b) as ->; [|lia].
  Z.to_euclidean_division_equations; lia.
Qed.

(** No two dates have the same number. *)
Lemma day_number_inj dt dt' : valid_date dt → valid_date dt' →
  (let '(y, m, d) := dt in day_number y m d) = (let '(y, m, d) := dt' in day_number y m d) → dt = dt'.
Proof.
  destruct dt as [[y m] d], dt' as [[y' m'] d']. intros Hv Hv' E.
  destruct (day_number_bounds _ _ _ Hv) as (Hb & Hl & Hc & Hp), (day_number_bounds _ _ _ Hv') as (Hb' & Hl' & Hc' & Hp').
  destruct Hv as [Hm Hd], Hv' as [Hm' Hd']. unfold day_number in E.
  assert (march_year y m = march_year y' m') as EY
    by (refine (day_of_year_inj _ _ _ _ _ Hb Hb' Hl Hl'); lia).
  rewrite EY in E.
  destruct (month_of_day_inj (march_month m) (march_month m') (d - 1) (d' - 1)) as [Em Ed]; try lia.
  assert (m = m') as -> by (revert Em; unfold march_month; repeat case_decide; lia).
  assert (y = y') as -> by (revert EY; unfold march_year; case_decide; lia).
  repeat f_equal. lia.
Qed.

(** The year of an era that [civil_from_days] computes. *)
Lemma year_of_era doe yoe :
  0 ≤ doe < 146097 → yoe = (doe - doe / 1460 + doe / 36524 - doe / 146096) / 365 →
  0 ≤ yoe < 400 ∧ 0 ≤ doe - (365 * yoe + yoe / 4 - yoe / 100) ≤ 365 ∧
  (doe - (365 * yoe + yoe / 4 - yoe / 100) = 365 → is_leap (yoe + 1) = true).
Proof.
  intros H ->. split; [|split].
  - Z.to_euclidean_division_equations. lia.
  - Z.to_euclidean_division_equations. lia.
  - intros E. apply is_leap_spec. Z.to_euclidean_division_equations. lia.
Qed.

Lemma is_leap_era y k : is_leap (y + k * 400) = is_leap y.
Proof.
  apply eq_true_iff_eq. rewrite !is_leap_spec.
  split; intros; Z.to_euclidean_division_equations; lia.
Qed.

(** The month and day of a day in a year that starts in March. *)
Lemma month_of_day doy : 0 ≤ doy ≤ 365 →
  let mp := (5 * doy + 2) / 153 in
  let m := if decide (mp < 10) then mp + 3 else mp - 9 in
  0 ≤ mp ≤ 11 ∧ 1 ≤ m ≤ 12 ∧ march_month m = mp ∧ (doy = 365 → m = 2) ∧
  0 ≤ doy - days_before_month mp ∧
  (∀ y, (doy = 365 → is_leap y = true) → doy - days_before_month mp + 1 ≤ days_in_month y m).
Proof.
  intros Hd mp m.
  assert (0 ≤ mp ≤ 11) as Hmp by (subst mp; Z.to_euclidean_division_equations; lia).
  assert (1 ≤ m ≤ 12) as Hm by (subst m; case_decide; lia).
  split; [done|split; [done|split; [|split; [|split]]]].
  - subst m. unfold march_month. repeat case_decide; lia.
  - intros E. assert (mp = 11) as -> by (subst mp; rewrite E; done). subst m. done.
  - subst mp. unfold days_before_month. Z.to_euclidean_division_equations. lia.
  - intros y Hl. assert (5 * doy + 2 < 153 * (mp + 1)) as Hlt by (subst mp; Z.to_euclidean_division_equations; lia).
    assert (mp = march_month m) as E by (subst m; unfold march_month; repeat case_decide; lia).
    clearbody mp m. revert E. pattern m. apply month_cases; [done|..]; unfold march_month; simpl; intros ->.
    all: cbn [days_in_month]; unfold days_before_month.
    2: destruct (decide (doy = 365)) as [E|]; [rewrite (Hl E)|destruct (is_leap y)].
    all: Z.to_euclidean_division_equations; lia.
Qed.

Lemma days_before_year_era k yoe : 0 ≤ yoe < 400 →
  days_before_year (yoe + k * 400) = k * 146097 + (365 * yoe + yoe / 4 - yoe / 100).
Proof. intros. unfold days_before_year. Z.to_euclidean_division_equations. lia. Qed.

Lemma civil_from_days_spec z :
  let '(y, m, d) := civil_from_days z in valid_date (y, m, d) ∧ day_number y m d = z.
Proof.
  unfold civil_from_days. set (z' := z + 719468).
  change (z' - 146096) with (z' - (146097 - 1)). rewrite quot_floor by lia.
  set (era := z' / 146097). set (doe := z' - era * 146097).
  assert (0 ≤ doe < 146097) as Hdoe by (subst doe era; Z.to_euclidean_division_equations; lia).
  rewrite !Z.quot_div_nonneg with (a := doe) by lia.
  rewrite (Z.quot_div_nonneg (doe - _ + _ - _)) by (Z.to_euclidean_division_equations; lia).
  set (yoe := (doe - doe / 1460 + doe / 36524 - doe / 146096) / 365).
  destruct (year_of_era doe yoe Hdoe eq_refl) as (Hy & Hdoy & Hl).
  rewrite !Z.quot_div_nonneg with (a := yoe) by lia.
  set (doy := doe - (365 * yoe + yoe / 4 - yoe / 100)) in *.
  rewrite (Z.quot_div_nonneg (5 * doy + 2)) by lia.
  destruct (month_of_day doy Hdoy) as (Hmp & Hm & Em & Hlt & Hd0 & Hd1).
  set (mp := (5 * doy + 2) / 153) in *.
  rewrite Z.quot_div_nonneg by lia. fold (days_before_month mp).
  set (m := if decide (mp < 10) then mp + 3 else mp - 9) in *.
  assert (march_year (if decide (m ≤ 2) then yoe + era * 400 + 1 else yoe + era * 400) m = yoe + era * 400) as EY
    by (unfold march_year; repeat case_decide; lia).
  split; [split; [done|split; [lia|]]|].
  - apply Hd1. intros E. rewrite (decide_True (P := m ≤ 2)) by (rewrite (Hlt E); lia).
    apply Hl in E. rewrite <- (is_leap_era _ era) in E. rewrite <- E. f_equal. lia.
  - unfold day_number. rewrite EY, Em, days_before_year_era by done. subst doy doe z'. lia.
Qed.

(** The civil date of a number of days is the proleptic Gregorian calendar: it starts
    at 1970-01-01, and the next number is the next day. *)
Theorem civil_calendar :
  civil_from_days 0 = (1970, 1, 1) ∧ ∀ z, civil_from_days (z + 1) = next_day (civil_from_days z).
Proof.
  split; [done|]. intros z. pose proof (civil_from_days_spec z) as Hz. pose proof (civil_from_days_spec (z + 1)) as Hz'.
  destruct (civil_from_days z) as [[y m] d] eqn:E, (civil_from_days (z + 1)) as [[y' m'] d'] eqn:E'.
  destruct Hz as [Hv Hn], Hz' as [Hv' Hn']. destruct (next_day_spec _ Hv) as [Hv1 Hn1].
  apply day_number_inj; [done|done|]. destruct (next_day (y, m, d)) as [[y1 m1] d1]. lia.
Qed.

(** The two conversions are inverse on real dates. *)
Lemma days_civil z : in_i64 z → let '(y, m, d) := civil_from_days z in days_from_civil y m d = z.
Proof.
  intros Hz. pose proof (civil_from_days_spec z) as Hs. destruct (civil_from_days z) as [[y m] d].
  destruct Hs as [[Hm _] Hn]. rewrite days_from_civil_number by done. rewrite Hn. by apply wrap_i64_id.
Qed.

Lemma civil_days y m d : valid_date (y, m, d) → in_i64 (day_number y m d) →
  civil_from_days (days_from_civil y m d) = (y, m, d).
Proof.
  intros Hv Hi. pose proof Hv as [Hm _]. rewrite days_from_civil_number, wrap_i64_id by done.
  pose proof (civil_from_days_spec (day_number y m d)) as Hs.
  destruct (civil_from_days (day_number y m d)) as [[y' m'] d']. destruct Hs as [Hv' Hn].
  by apply day_number_inj.
Qed.

(** ** What is printed parses back *)

Lemma parse_uint_pad w n : 0 ≤ n < 2 ^ 63 → parse_uint (show_pad w n) = Ok n.
Proof. intros. unfold parse_uint. rewrite parse_i64_show_pad by done. done. Qed.

Lemma show_pad_avoids c w n : 0 ≤ n → ¬ 48 ≤ c ≤ 57 → Forall (λ b, b ≠ c) (show_pad w n).
Proof. intros Hn Hc. eapply Forall_impl; [by apply show_pad_digits|]. simpl. lia. Qed.

Lemma show_pad_head w n : 0 ≤ n → ∃ b s, show_pad w n = b :: s ∧ 48 ≤ b ≤ 57.
Proof.
  intros Hn. pose proof (show_pad_nonempty w n Hn). pose proof (show_pad_digits w n Hn) as Hd.
  destruct (show_pad w n) as [|b s]; [done|]. inversion Hd. eauto.
Qed.

Lemma show_pad_last w n : 0 ≤ n → ∃ b s, show_pad w n = s ++ [b] ∧ 48 ≤ b ≤ 57.
Proof.
  intros Hn. pose proof (show_pad_nonempty w n Hn). pose proof (show_pad_digits w n Hn) as Hd.
  destruct (show_pad w n) as [|b s _] using rev_ind; [done|]. apply Forall_app in Hd as [_ Hd]. inversion Hd. eauto.
Qed.

Lemma date_fields_show days e e' : 0 ≤ (civil_from_days days).1.1 < 2 ^ 63 →
  date_fields (show_date days) e e' = Ok (civil_from_days days).
Proof.
  pose proof (civil_from_days_spec days) as Hs. unfold show_date.
  destruct (civil_from_days days) as [[y m] d]. cbn [fst]. intros Hy. destruct Hs as [[Hm Hd] _].
  pose proof (days_in_month_bounds y m Hm).
  unfold date_fields. cbn [app]. rewrite !split_sep, split_no_sep by (apply show_pad_avoids; lia).
  rewrite !parse_uint_pad by lia. cbn [mbind outcome_bind]. rewrite decide_True by done. done.
Qed.

Lemma times_ten_pow n v : times_ten n v = v * 10 ^ Z.of_nat n.
Proof.
  revert v. induction n as [|n IH]; intros v; [cbn; lia|]. cbn [times_ten].
  rewrite IH, Nat2Z.inj_succ, Z.pow_succ_r by lia. lia.
Qed.

Lemma parse_fraction_show frac : 0 < frac < 1000000 →
  parse_fraction (trim_end_matches 48 (show_pad 6 frac)) = Ok frac.
Proof.
  intros Hf. destruct (trim_end_matches_spec 48 (show_pad 6 frac)) as (k & E & _).
  set (t := trim_end_matches 48 (show_pad 6 frac)) in *. clearbody t.
  pose proof (length_show_pad 6 frac ltac:(cbn; lia) ltac:(lia)) as Hlen.
  pose proof (show_pad_digits 6 frac ltac:(lia)) as Hd. pose proof (show_pad_value 6 frac ltac:(lia)) as Hv.
  rewrite E in Hlen, Hd, Hv. rewrite length_app, length_replicate in Hlen. apply Forall_app in Hd as [Hd _].
  apply digits_value_zeros_r in Hv as (u & Hu & Ef).
  destruct t as [|b t]; [injection Hu as <-; lia|]. unfold parse_fraction. set (s := b :: t) in *.
  rewrite (proj2 (Nat.ltb_ge _ _)) by lia. cbn [orb].
  assert (forallb is_ascii_digit s = true) as ->.
  { apply Is_true_true, forallb_True. eapply Forall_impl; [exact Hd|]. intros c Hc.
    by apply Is_true_true, bool_decide_eq_true. }
  cbn [negb]. unfold parse_uint, parse_i64. rewrite parse_signed_digits by done. rewrite Hu.
  cbn [mbind option_bind]. pose proof (Z.pow_pos_nonneg 10 (Z.of_nat k) ltac:(lia) ltac:(lia)).
  assert (checked_i64 u = Some u) as -> by (apply checked_i64_Some; unfold in_i64; split; [nia|done]).
  cbn [ok_or mbind outcome_bind]. rewrite times_ten_pow. do 2 f_equal.
  replace (6 - length s)%nat with k by lia. lia.
Qed.

Lemma time_fields_show secs frac e e' : 0 ≤ secs < SECS_PER_DAY → 0 ≤ frac < MICROS_PER_SEC →
  time_fields (with_fraction (show_hms secs) frac) e e' =
  Ok (secs `quot` 3600, (secs `rem` 3600) `quot` 60, secs `rem` 60, frac).
Proof.
  unfold SECS_PER_DAY, MICROS_PER_SEC. intros Hs Hf.
  assert (0 ≤ secs `quot` 3600 < 24 ∧ 0 ≤ (secs `rem` 3600) `quot` 60 < 60 ∧ 0 ≤ secs `rem` 60 < 60) as (Hh & Hm & Hss)
    by (split_and!; Z.to_euclidean_division_equations; lia).
  set (hh := secs `quot` 3600) in *. set (mm := (secs `rem` 3600) `quot` 60) in *. set (ss := secs `rem` 60) in *.
  assert (Forall (λ b, bool_decide (b = 46) = false) (show_hms secs)) as Hno.
  { unfold show_hms. fold hh mm ss.
    assert (∀ n, 0 ≤ n → Forall (λ b, bool_decide (b = 46) = false) (show_pad 2 n)) as Hp.
    { intros n Hn. eapply Forall_impl; [apply (show_pad_avoids 46 2 n); lia|]. intros b ?. by apply bool_decide_eq_false. }
    repeat (apply Forall_app; split); try (apply Hp; lia); by repeat constructor. }
  unfold time_fields.
  assert ((match split_at (λ b, bool_decide (b = 46)) (with_fraction (show_hms secs) frac) with
           | Some p => p | None => (with_fraction (show_hms secs) frac, []) end)
          = (show_hms secs, if decide (frac = 0) then [] else trim_end_matches 48 (show_pad 6 frac))) as ->.
  { unfold with_fraction. case_decide; [by rewrite split_at_none|]. cbn [app]. by rewrite split_at_sep. }
  unfold show_hms. fold hh mm ss. cbn [app].
  rewrite !split_sep, split_no_sep by (apply show_pad_avoids; lia). rewrite !parse_uint_pad by lia.
  cbn [mbind outcome_bind]. rewrite decide_False by lia.
  destruct (decide (frac = 0)) as [->|]; [done|]. rewrite parse_fraction_show by lia. done.
Qed.

(** What is printed starts and ends with a digit. *)
Lemma with_fraction_last base frac : 0 ≤ frac < MICROS_PER_SEC →
  (∃ b s, base = s ++ [b] ∧ 48 ≤ b ≤ 57) → ∃ b s, with_fraction base frac = s ++ [b] ∧ 48 ≤ b ≤ 57.
Proof.
  unfold MICROS_PER_SEC. intros Hf Hb. unfold with_fraction. case_decide; [done|].
  destruct (trim_end_matches_spec 48 (show_pad 6 frac)) as (k & E & Hl).
  pose proof (show_pad_digits 6 frac ltac:(lia)) as Hd. pose proof (show_pad_value 6 frac ltac:(lia)) as Hv.
  destruct (trim_end_matches 48 (show_pad 6 frac)) as [|b s _] using rev_ind.
  - rewrite E in Hv. simpl in Hv. rewrite <- (app_nil_r (replicate k 48)), digits_value_zeros in Hv.
    injection Hv as <-. done.
  - exists b, (base ++ [46] ++ s). rewrite <- !app_assoc. split; [done|].
    rewrite E in Hd. rewrite !Forall_app, Forall_singleton in Hd. tauto.
Qed.

Lemma show_hms_last secs : 0 ≤ secs → ∃ b s, show_hms secs = s ++ [b] ∧ 48 ≤ b ≤ 57.
Proof.
  intros Hs. unfold show_hms. destruct (show_pad_last 2 (secs `rem` 60)) as (b & s & -> & Hb).
  { apply Z.rem_nonneg; lia. }
  eexists b, _. split; [|done]. rewrite !app_assoc. done.
Qed.

Lemma trim_digits s b u c : s = b :: u → 48 ≤ b ≤ 57 → (∃ t, s = t ++ [c]) → 48 ≤ c ≤ 57 → trim s = s.
Proof.
  intros E Hb [t Ht] Hc. unfold trim. rewrite E, trim_start_ascii, <- E, Ht by lia. apply trim_end_ascii. lia.
Qed.

Lemma with_fraction_app a b frac : with_fraction (a ++ b) frac = a ++ with_fraction b frac.
Proof. unfold with_fraction. case_decide; [done|]. by rewrite <- app_assoc. Qed.

Lemma civil_year_bound z : in_i64 (z * 365) → (civil_from_days z).1.1 < 2 ^ 63.
Proof.
  unfold in_i64. intros Hz. pose proof (civil_from_days_spec z) as Hs. destruct (civil_from_days z) as [[y m] d]. cbn [fst].
  destruct Hs as [Hv Hn]. destruct (day_number_bounds _ _ _ Hv) as ([Hb _] & _).
  unfold day_number, days_before_year in Hn.
  assert (y - 1 ≤ march_year y m) by (unfold march_year; case_decide; lia).
  Z.to_euclidean_division_equations. lia.
Qed.

Lemma show_date_head days : 0 ≤ (civil_from_days days).1.1 →
  (∃ b s, show_date days = b :: s ∧ 48 ≤ b ≤ 57) ∧
  Forall (λ b, (bool_decide (b = 84) || bool_decide (b = 32)) = false) (show_date days) ∧
  (∃ b s, show_date days = s ++ [b] ∧ 48 ≤ b ≤ 57).
Proof.
  pose proof (civil_from_days_spec days) as Hs. unfold show_date.
  destruct (civil_from_days days) as [[y m] d]. cbn [fst]. intros Hy. destruct Hs as [[Hm Hd] _].
  assert (∀ w n, 0 ≤ n → Forall (λ b, (bool_decide (b = 84) || bool_decide (b = 32)) = false) (show_pad w n)) as Hp.
  { intros w n Hn. eapply Forall_impl; [by apply show_pad_digits|]. intros b Hb. simpl in Hb.
    rewrite !bool_decide_eq_false_2 by lia. done. }
  split; [|split].
  - destruct (show_pad_head 4 y Hy) as (b & s & -> & Hb). eexists b, _. split; [reflexivity|done].
  - repeat (apply Forall_app; split); try (apply Hp; lia); by repeat constructor.
  - destruct (show_pad_last 2 d ltac:(lia)) as (b & s & -> & Hb).
    eexists b, _. split; [|done]. rewrite !app_assoc. done.
Qed.

(** The year of a timestamp. *)
Definition timestamp_year (t : Z) : Z := (civil_from_days (t / (SECS_PER_DAY * MICROS_PER_SEC))).1.1.

Lemma parse_format_timestamp t : in_i64 t → 0 ≤ timestamp_year t → parse_timestamp (format_timestamp t) = Ok t.
Proof.
  unfold timestamp_year, format_timestamp. intros Ht Hy.
  rewrite Z.mul_comm, <- Z.div_div in Hy by done.
  set (secs := (t / MICROS_PER_SEC) mod SECS_PER_DAY). set (days := t / MICROS_PER_SEC / SECS_PER_DAY) in *.
  set (frac := t mod MICROS_PER_SEC).
  assert (0 ≤ secs < SECS_PER_DAY) as Hs by (apply Z.mod_pos_bound; done).
  assert (0 ≤ frac < MICROS_PER_SEC) as Hf by (apply Z.mod_pos_bound; done).
  assert (t = (days * SECS_PER_DAY + secs) * MICROS_PER_SEC + frac) as Et.
  { subst days secs frac. unfold SECS_PER_DAY, MICROS_PER_SEC. Z.to_euclidean_division_equations. lia. }
  assert (in_i64 days ∧ in_i64 (days * 365)) as [Hdi Hd365].
  { unfold in_i64, SECS_PER_DAY, MICROS_PER_SEC in *. lia. }
  pose proof (civil_year_bound days Hd365) as Hyb.
  destruct (show_date_head days Hy) as ((b & u & Eb & Hb) & Hno & _).
  destruct (with_fraction_last (show_hms secs) frac Hf (show_hms_last secs ltac:(lia))) as (c & v & Ec & Hc).
  rewrite !with_fraction_app. cbn [app].
  set (tm := with_fraction (show_hms secs) frac) in *.
  assert (∃ w, show_date days ++ 32 :: tm = w ++ [c]) as [w Hw].
  { exists (show_date days ++ 32 :: v). rewrite Ec, <- app_assoc. done. }
  assert (trim tm = tm) as Htm.
  { destruct (show_pad_head 2 (secs `quot` 3600)) as (b' & u' & Eh & Hb'); [apply Z.quot_pos; lia|].
    eapply (trim_digits _ b'); [|done|by eauto|done]. subst tm. unfold show_hms. rewrite !with_fraction_app, Eh. reflexivity. }
  unfold parse_timestamp.
  rewrite (trim_digits _ b (u ++ 32 :: tm) c) by (first [by rewrite Eb|done|by eauto]).
  rewrite Hw, strip_suffix_other, trim_end_ascii, <- Hw by lia.
  rewrite split_at_sep by done. rewrite Htm. cbn zeta.
  rewrite date_fields_show by (split; lia).
  pose proof (days_civil days Hdi) as Hdc. destruct (civil_from_days days) as [[y m] d]. cbn [mbind outcome_bind].
  assert (∃ b' tm', tm = b' :: tm') as (b' & tm' & Etm) by (rewrite Ec; destruct v; eauto).
  rewrite Etm. cbn match. rewrite <- Etm. unfold tm. rewrite time_fields_show by done.
  cbn [mbind outcome_bind]. rewrite Hdc. f_equal.
  assert (secs = secs `quot` 3600 * 3600 + (secs `rem` 3600) `quot` 60 * 60 + secs `rem` 60) as Es.
  { clearbody secs. Z.to_euclidean_division_equations. lia. }
  rewrite (wrap_i64_id (days * _ + _ + _ + _)) by (unfold in_i64, SECS_PER_DAY, MICROS_PER_SEC in *; lia).
  rewrite wrap_i64_id; [rewrite Et; lia|]. unfold in_i64, SECS_PER_DAY, MICROS_PER_SEC in *. lia.
Qed.

Lemma parse_format_date days : -2 ^ 31 ≤ days < 2 ^ 31 → 0 ≤ (civil_from_days days).1.1 →
  parse_date (format_date days) = Ok days.
Proof.
  intros Hd Hy. unfold parse_date, format_date.
  destruct (show_date_head days Hy) as ((b & u & Eb & Hb) & _ & (c & v & Ec & Hc)).
  rewrite (trim_digits _ b u c) by (first [done|by eauto]).
  pose proof (civil_year_bound days ltac:(unfold in_i64; lia)).
  rewrite date_fields_show by (split; lia). pose proof (days_civil days ltac:(unfold in_i64; lia)) as Hdc.
  destruct (civil_from_days days) as [[y m] d]. cbn [mbind outcome_bind]. rewrite Hdc, decide_True by lia. done.
Qed.

Lemma parse_format_time t : 0 ≤ t < SECS_PER_DAY * MICROS_PER_SEC → parse_time (format_time t) = Ok t.
Proof.
  intros Ht. unfold parse_time, format_time. unfold SECS_PER_DAY, MICROS_PER_SEC in Ht.
  set (secs := t `quot` MICROS_PER_SEC). set (frac := t `rem` MICROS_PER_SEC).
  assert (0 ≤ secs < SECS_PER_DAY ∧ 0 ≤ frac < MICROS_PER_SEC ∧ t = secs * MICROS_PER_SEC + frac) as (Hs & Hf & Et).
  { subst secs frac. unfold SECS_PER_DAY, MICROS_PER_SEC. Z.to_euclidean_division_equations. lia. }
  destruct (with_fraction_last (show_hms secs) frac Hf (show_hms_last secs ltac:(lia))) as (c & v & Ec & Hc).
  destruct (show_pad_head 2 (secs `quot` 3600)) as (b & u & Eh & Hb); [apply Z.quot_pos; lia|].
  assert (∃ u', with_fraction (show_hms secs) frac = b :: u') as [u' Eu].
  { unfold show_hms. rewrite !with_fraction_app, Eh. eexists. reflexivity. }
  rewrite (trim_digits _ b u' c) by (first [done|by eauto]).
  rewrite time_fields_show by done. cbn [mbind outcome_bind]. f_equal.
  assert (secs = secs `quot` 3600 * 3600 + (secs `rem` 3600) `quot` 60 * 60 + secs `rem` 60) as Es.
  { clearbody secs. Z.to_euclidean_division_equations. lia. }
  rewrite <- Es, <- Et. apply wrap_i64_id. unfold in_i64. lia.
Qed.

(** C29: Timestamps and dates of years from 0 on, and times of day, parse back to what
    they were printed from. *)
Theorem temporal_roundtrip :
  (∀ t, in_i64 t → 0 ≤ timestamp_year t → parse_timestamp (format_timestamp t) = Ok t) ∧
  (∀ d, -2 ^ 31 ≤ d < 2 ^ 31 → 0 ≤ (civil_from_days d).1.1 → parse_date (format_date d) = Ok d) ∧
  (∀ t, 0 ≤ t < SECS_PER_DAY * MICROS_PER_SEC → parse_time (format_time t) = Ok t).
Proof. split; [exact parse_format_timestamp|split; [exact parse_format_date|exact parse_format_time]]. Qed.

(** What does not: a negative hour is accepted as a time of day; a year before 0 is
    printed with a sign that the parser takes for a separator; a year after
    294247 wraps around silently. *)
Theorem temporal_defects :
  parse_time (lit "-5:00:00") = Ok (-18000000000) ∧
  (∃ e, parse_date (format_date (-800000)) = Err e) ∧
  parse_timestamp (lit "999999-01-01") = Ok (-5398734902619103232).
Proof. vm_compute. split; [reflexivity|split; [eexists; reflexivity|]]. reflexivity. Qed.

Lemma temporal_roundtrip_witness : parse_timestamp (format_timestamp 951782400000001) = Ok 951782400000001.
Proof. refine (proj1 temporal_roundtrip 951782400000001 _ _); [unfold in_i64; lia|]. vm_compute. congruence. Defined.
