(* ===== verification/Float.v ===== *)
(** The [f64] operations the SQL layer uses.  A value is its 64 bits, as a number;
    arithmetic is that of IEEE 754 binary64 with round to nearest, ties to even, by
    the Standard Library's specification of floating-point numbers. *)

From stdpp Require Import base numbers list strings.
From Stdlib Require Import Lia.
From Stdlib Require Import Floats.SpecFloat.
From S2P Require Import Prelude Format Text.

Abbreviation f64 := Z (only parsing).

Definition prec64 : Z := 53.
Definition emax64 : Z := 1024.

(** ** Bits *)

Definition f64_sign (x : f64) : bool := bool_decide (2 ^ 63 ≤ x).
Definition f64_exp (x : f64) : Z := (x / 2 ^ 52) mod 2 ^ 11.
Definition f64_mant (x : f64) : Z := x mod 2 ^ 52.

Definition sf_of (x : f64) : spec_float :=
  let s := f64_sign x in
  let e := f64_exp x in
  let m := f64_mant x in
  if decide (e = 0) then
    match m with Zpos p => S754_finite s p (-1074) | _ => S754_zero s end
  else if decide (e = 2047) then
    if decide (m = 0) then S754_infinity s else S754_nan
  else match m + 2 ^ 52 with Zpos p => S754_finite s p (e - 1075) | _ => S754_zero s end.

Definition sign_bit (s : bool) : Z := if s then 2 ^ 63 else 0.

(** A result that is not a number has the bits of the quiet NaN. *)
Definition NAN : f64 := 0x7FF8000000000000.

(** The bits of a number in the format, 64 of them. *)
Definition of_sf (x : spec_float) : f64 :=
  u64 match x with
  | S754_zero s => sign_bit s
  | S754_infinity s => sign_bit s + 2047 * 2 ^ 52
  | S754_nan => NAN
  | S754_finite s m e =>
      if decide (Zpos m < 2 ^ 52) then sign_bit s + Zpos m
      else sign_bit s + (e + 1075) * 2 ^ 52 + (Zpos m - 2 ^ 52)
  end.

Definition f64_is_nan (x : f64) : bool := match sf_of x with S754_nan => true | _ => false end.

(** ** Arithmetic *)

Definition f64_add (a b : f64) : f64 := of_sf (SFadd prec64 emax64 (sf_of a) (sf_of b)).
Definition f64_sub (a b : f64) : f64 := of_sf (SFsub prec64 emax64 (sf_of a) (sf_of b)).
Definition f64_mul (a b : f64) : f64 := of_sf (SFmul prec64 emax64 (sf_of a) (sf_of b)).
Definition f64_div (a b : f64) : f64 := of_sf (SFdiv prec64 emax64 (sf_of a) (sf_of b)).

(** [a % b], exact: the remainder of the quotient truncated towards zero, with the
    sign of [a]. *)
Definition f64_rem (a b : f64) : f64 :=
  match sf_of a, sf_of b with
  | S754_nan, _ | _, S754_nan | S754_infinity _, _ | _, S754_zero _ => NAN
  | S754_zero s, _ => sign_bit s
  | S754_finite _ _ _, S754_infinity _ => a
  | S754_finite s m e, S754_finite _ m' e' =>
      let e0 := Z.min e e' in
      let r := (Zpos m * 2 ^ (e - e0)) mod (Zpos m' * 2 ^ (e' - e0)) in
      of_sf (binary_normalize prec64 emax64 (if s then - r else r) e0 s)
  end.

(** [n as f64] for an integer. *)
Definition f64_of_int (n : Z) : f64 := of_sf (binary_normalize prec64 emax64 n 0 false).

(** [x.powi(n)] for a non-negative [n]: repeated squaring. *)
Fixpoint powi_loop (fuel : nat) (r a : f64) (b : Z) : f64 :=
  match fuel with
  | O => r
  | S fuel =>
      let r := if Z.odd b then f64_mul r a else r in
      let b := b / 2 in
      if decide (b = 0) then r else powi_loop fuel r (f64_mul a a) b
  end.
Definition f64_powi (x : f64) (n : Z) : f64 := powi_loop (S (Z.to_nat (Z.log2 n))) (f64_of_int 1) x n.

(** [a.partial_cmp(&b)] *)
Definition f64_partial_cmp (a b : f64) : option comparison := SFcompare (sf_of a) (sf_of b).

(** [a == b] *)
Definition f64_eqb (a b : f64) : bool := match f64_partial_cmp a b with Some Eq => true | _ => false end.

(** ** Parsing *)

(** The number [m * 10^e], correctly rounded. *)
Definition f64_of_decimal (s : bool) (m e : Z) : f64 :=
  match m with
  | Zpos p =>
      of_sf (if decide (0 ≤ e) then binary_normalize prec64 emax64 (if s then - (m * 10 ^ e) else m * 10 ^ e) 0 s
             else let '(q, e', l) := SFdiv_core_binary prec64 emax64 m 0 (10 ^ (- e)) 0 in
                  binary_round_aux prec64 emax64 s q e' l)
  | _ => sign_bit s
  end.

Fixpoint take_digits (acc : Z) (n : nat) (s : list Z) : Z * nat * list Z :=
  match s with
  | b :: s' => if is_ascii_digit b then take_digits (10 * acc + (b - 48)) (S n) s' else (acc, n, s)
  | [] => (acc, n, [])
  end.

(** Digits, an optional point and digits, an optional exponent. *)
Definition parse_decimal (sg : bool) (s : list Z) : option f64 :=
  let '(m, n, r) := take_digits 0 0 s in
  let '(m, k, r) := match r with 46 :: r => take_digits m 0 r | _ => (m, 0%nat, r) end in
  if decide (n + k = 0)%nat then None
  else match r with
  | [] => Some (f64_of_decimal sg m (- Z.of_nat k))
  | b :: r =>
      if decide (b = 101 ∨ b = 69) then
        e ← parse_signed r; Some (f64_of_decimal sg m (e - Z.of_nat k))
      else None
  end.

(** [str::parse::<f64>] *)
Definition parse_f64 (s : list Z) : option f64 :=
  let '(sg, r) := match s with 43 :: r => (false, r) | 45 :: r => (true, r) | _ => (false, s) end in
  let l := ascii_lower <$> r in
  if decide (l = lit "inf" ∨ l = lit "infinity") then Some (sign_bit sg + 2047 * 2 ^ 52)
  else if decide (l = lit "nan") then Some (sign_bit sg + NAN)
  else parse_decimal sg r.

Lemma of_sf_range x : 0 ≤ of_sf x < 2 ^ 64.
Proof. apply Z.mod_pos_bound. done. Qed.

Lemma SFcompare_opp x y : SFcompare y x = CompOpp <$> SFcompare x y.
Proof.
  destruct x as [[]|[]| |[] m e], y as [[]|[]| |[] m' e']; try done; cbn [SFcompare fmap option_fmap option_map].
  all: rewrite (Z.compare_antisym e e'); destruct (e ?= e')%Z; cbn [CompOpp]; try done.
  all: change (Pos.compare_cont Eq m' m) with (m' ?= m)%positive; change (Pos.compare_cont Eq m m') with (m ?= m')%positive.
  all: rewrite (Pos.compare_antisym m m'), ?CompOpp_involutive; done.
Qed.

Lemma f64_partial_cmp_opp a b : f64_partial_cmp b a = CompOpp <$> f64_partial_cmp a b.
Proof. apply SFcompare_opp. Qed.
