(* ===== verification/SqlTypes.v ===== *)
(** The data of the SQL layer: literals and expressions ([src/sql/logical.rs]), column
    types, constraints and tables ([src/catalog.rs]), and the third-party JSON
    library and Unicode case tables as classes. *)

From stdpp Require Import base numbers list strings.
From S2P Require Import Prelude Format Page BTreeNode BTree.

(** A value.  Strings and byte vectors are byte lists, an [f64] or [f32] its bits. *)
Inductive Literal :=
| LInt (n : Z)
| LText (s : list Z)
| LBool (b : bool)
| LJson (s : list Z)
| LVector (v : list Z)
| LDecimal (unscaled scale : Z)
| LTimestamp (micros : Z)
| LFloat (bits : Z)
| LUuid (b : list Z)
| LBytea (b : list Z)
| LDate (days : Z)
| LTime (micros : Z)
| LParam (n : nat)
| LNull.

#[global] Instance Literal_eq_dec : EqDecision Literal.
Proof. solve_decision. Defined.
#[global] Instance Literal_inhabited : Inhabited Literal := populate LNull.

Definition is_null (l : Literal) : bool := match l with LNull => true | _ => false end.

Inductive ArithOp := AAdd | ASub | AMul | ADiv | AMod.

#[global] Instance CmpOp_eq_dec : EqDecision CmpOp.
Proof. solve_decision. Defined.
#[global] Instance ArithOp_eq_dec : EqDecision ArithOp.
Proof. solve_decision. Defined.

Inductive Expr :=
| EColumn (name : string)
| EColumnSlot (idx : nat)
| ELiteral (l : Literal)
| EBinOp (op : CmpOp) (lhs rhs : Expr)
| EArith (op : ArithOp) (lhs rhs : Expr)
| EAnd (lhs rhs : Expr)
| EOr (lhs rhs : Expr)
| EJsonExtract (expr : Expr) (path : string)
| EJsonExtractText (expr : Expr) (path : string)
| ENear (column : string) (query : list Z) (k : nat)
| ELike (expr pattern : Expr) (negated case_insensitive : bool)
| EMatch (column : string) (query : Expr)
| EIsNull (expr : Expr) (negated : bool)
| ECurrentUser
| EAuthUid
| EAuthClaim (claim : string)
| EExcluded (name : string).

(** ** Catalog *)

Inductive ColumnType :=
| TInt64
| TText
| TBool
| TJson
| TVector (n : Z)
| TDecimal (precision scale : Z)
| TTimestamp
| TFloat
| TUuid
| TBytea
| TDate
| TTime.

#[global] Instance ColumnType_eq_dec : EqDecision ColumnType.
Proof. solve_decision. Defined.

Inductive IndexKind := IHnsw | IFullText | IBTree | ICsr.

#[global] Instance IndexKind_eq_dec : EqDecision IndexKind.
Proof. solve_decision. Defined.

Record ForeignKeyRef := mkFkRef { fkr_table : string; fkr_column : option string }.

Record ColumnConstraints := mkConstraints {
  cc_not_null : bool;
  cc_unique : bool;
  cc_primary_key : bool;
  cc_default : option Literal;
  cc_check : option Expr;
  cc_references : option ForeignKeyRef;
  cc_identity : bool
}.

Definition no_constraints : ColumnConstraints := mkConstraints false false false None None None false.

Record ColumnDef := mkColumn {
  col_name : string;
  col_ty : ColumnType;
  col_index : option IndexKind;
  col_index_root : option PageId;
  col_unique_index_root : option PageId;
  col_constraints : ColumnConstraints;
  col_dropped : bool;
  col_include_cols : list string;
  col_type_name : option string
}.

Record ForeignKey := mkForeignKey { fk_columns : list string; fk_ref_table : string; fk_ref_columns : list string }.

Record TableConstraints := mkTableConstraints {
  tc_primary_key : list string;
  tc_unique : list (list string);
  tc_checks : list Expr;
  tc_foreign_keys : list ForeignKey
}.

(** The fields of a table that planning and execution of queries read. *)
Record TableDef := mkTable {
  td_name : string;
  td_columns : list ColumnDef;
  td_pages : list PageId;
  td_fsm_meta : option PageId;
  td_rls_policy : option Expr;
  td_insert_policy : option Expr;
  td_update_policy : option Expr;
  td_delete_policy : option Expr;
  td_update_with_check : option Expr;
  td_constraints : TableConstraints
}.

(** A plain column, and a table of columns. *)
Definition plain_column (name : string) (ty : ColumnType) : ColumnDef :=
  mkColumn name ty None None None no_constraints false [] None.
Definition plain_table (name : string) (columns : list ColumnDef) : TableDef :=
  mkTable name columns [] None None None None None None (mkTableConstraints [] [] [] []).

(** ** Code outside the crate *)

(** The crate serde_json: values, parsing, printing, the member of an object. *)
Class SerdeJson := {
  JsonValue : Type;
  json_from_str : list Z → option JsonValue;
  json_to_string : JsonValue → list Z;
  json_get : JsonValue → string → option JsonValue;
  json_as_string : JsonValue → option (list Z);
  json_null : JsonValue
}.

(** [char::to_lowercase], by the tables of the Unicode standard. *)
Class CaseTables := char_to_lowercase : Z → list Z.

(** Instances for evaluation: a JSON library that accepts nothing, and ASCII case. *)
Definition no_json : SerdeJson := {|
  JsonValue := unit; json_from_str _ := None; json_to_string _ := []; json_get _ _ := None;
  json_as_string _ := None; json_null := tt |}.
Definition ascii_tables : CaseTables := λ c, [if decide (65 ≤ c ≤ 90)%Z then (c + 32)%Z else c].
