(* ===== verification/SqlValue.v ===== *)
(** Values of the SQL layer ([src/sql/executor.rs]): comparison, arithmetic, decimals,
    parsing of text forms and coercion to the type of a column. *)

From stdpp Require Import base numbers list strings.
From Stdlib Require Import Lia.
From S2P Require Import Prelude Format Page BTreeNode BTree Text Float Datetime SqlTypes.

(** ** Decimals *)

Fixpoint pow10_loop (n : nat) (acc : Z) : option Z :=
  match n with O => Some acc | S n => acc ← checked_i128 (acc * 10); pow10_loop n acc end.
Definition pow10 (n : Z) : option Z := pow10_loop (Z.to_nat n) 1.

Fixpoint digit_loop (fuel : nat) (v n : Z) : Z :=
  match fuel with O => n | S fuel => if decide (0 < v) then digit_loop fuel (v / 10) (n + 1) else n end.
Definition digit_count (value : Z) : Z :=
  let v := Z.abs value in
  if decide (v = 0) then 1 else digit_loop (S (Z.to_nat (Z.log2 v))) v 0.

Definition rescale_decimal (value from_scale precision scale : Z) : Result Literal :=
  let overflow := SqlPlan "decimal value out of range" in
  scaled ← (if decide (from_scale = scale) then Ok value
            else if decide (from_scale < scale) then
              factor ← ok_or (pow10 (scale - from_scale)) overflow;
              ok_or (checked_i128 (value * factor)) overflow
            else
              factor ← ok_or (pow10 (from_scale - scale)) overflow;
              if decide (value `rem` factor ≠ 0) then
                Err (SqlPlan "value has more fractional digits than the column's scale allows")
              else Ok (value `quot` factor));
  if decide (precision < digit_count scaled) then Err (SqlPlan "value exceeds DECIMAL precision")
  else Ok (LDecimal scaled scale).

Definition decimal_cmp (a sa b sb : Z) : Result comparison :=
  let overflow := SqlUnsupported "decimal comparison overflowed i128" in
  '(la, lb) ← (if decide (sa = sb) then Ok (a, b)
               else if decide (sa < sb) then
                 f ← ok_or (pow10 (sb - sa)) overflow;
                 la ← ok_or (checked_i128 (a * f)) overflow; Ok (la, b)
               else
                 f ← ok_or (pow10 (sa - sb)) overflow;
                 lb ← ok_or (checked_i128 (b * f)) overflow; Ok (a, lb));
  Ok (la ?= lb)%Z.

(** ** Text forms *)

Definition is_hexdigit (b : Z) : bool := match hex_digit b with Some _ => true | None => false end.

Definition parse_uuid (s : list Z) : Result (list Z) :=
  let hex := filter (λ c, c ≠ 45) s in
  if negb (bool_decide (length hex = 32%nat)) || negb (forallb is_hexdigit hex) then
    Err (SqlPlan "invalid UUID literal")
  else ok_or (hex_pairs hex) (SqlPlan "invalid UUID literal").

Definition format_uuid (b : list Z) : list Z :=
  let h := hex_show b in
  sub h 0 8 ++ [45] ++ sub h 8 4 ++ [45] ++ sub h 12 4 ++ [45] ++ sub h 16 4 ++ [45] ++ sub h 20 12.

Definition parse_bytea (s : list Z) : list Z :=
  match s with
  | 92 :: 120 :: hex | 92 :: 88 :: hex =>
      if Nat.even (length hex) && forallb is_hexdigit hex then default s (hex_pairs hex) else s
  | _ => s
  end.

Definition format_bytea (b : list Z) : list Z := [92; 120] ++ hex_show b.

(** Only letters of ASCII have the lower-case letters of the accepted words. *)
Definition parse_bool_text (s : list Z) : Result bool :=
  let t := ascii_lower <$> trim s in
  if decide (t = lit "true" ∨ t = lit "1" ∨ t = lit "t") then Ok true
  else if decide (t = lit "false" ∨ t = lit "0" ∨ t = lit "f") then Ok false
  else Err (SqlPlan "cannot coerce text to boolean for comparison").

Definition format_decimal (value scale : Z) : list Z :=
  if decide (scale = 0) then show_int value
  else
    let digits := show_nat (Z.abs value) in
    let n := Z.to_nat scale in
    let '(int_part, frac_part) :=
      if decide (n < length digits)%nat then (take (length digits - n) digits, drop (length digits - n) digits)
      else ([48], pad_left n 48 digits) in
    (if decide (value < 0) then [45] else []) ++ int_part ++ [46] ++ frac_part.

(** ** Comparison *)

Definition apply_cmp (op : CmpOp) (ord : comparison) : bool :=
  match op, ord with
  | CEq, Eq | CNe, (Lt | Gt) | CLt, Lt | CGt, Gt | CLe, (Lt | Eq) | CGe, (Gt | Eq) => true
  | _, _ => false
  end.

Definition f64_ten : f64 := f64_of_int 10.

Definition float_of (l : Literal) : option f64 :=
  match l with
  | LFloat f => Some f
  | LInt n => Some (f64_of_int n)
  | LDecimal v s => Some (f64_div (f64_of_int v) (f64_powi f64_ten s))
  | _ => None
  end.

Definition cannot_compare : DbError := SqlUnsupported "cannot compare".

Definition compare_float (op : CmpOp) (l r : Literal) : Result bool :=
  match float_of l, float_of r with
  | Some a, Some b => Ok (match f64_partial_cmp a b with Some ord => apply_cmp op ord | None => false end)
  | _, _ => Err cannot_compare
  end.

Definition compare_bool (op : CmpOp) (a b : bool) : Result bool :=
  match op with
  | CEq => Ok (eqb a b)
  | CNe => Ok (negb (eqb a b))
  | _ => Err (SqlUnsupported "ordering comparisons are not supported on booleans")
  end.

Definition text_to_int (s : list Z) : Result Z :=
  ok_or (parse_i64 s) (SqlPlan "cannot coerce text to integer for comparison").
Definition text_to_float (s : list Z) : Result Literal :=
  f ← ok_or (parse_f64 s) (SqlPlan "cannot coerce text to float for comparison"); Ok (LFloat f).

Definition compare (op : CmpOp) (l r : Literal) : Result bool :=
  match l, r with
  | LNull, _ | _, LNull => Ok false
  | LInt a, LInt b => Ok (apply_cmp op (a ?= b)%Z)
  | LText a, LText b => Ok (apply_cmp op (bytes_cmp a b))
  | LBool a, LBool b => compare_bool op a b
  | LDecimal a sa, LDecimal b sb => c ← decimal_cmp a sa b sb; Ok (apply_cmp op c)
  | LDecimal a sa, LInt b => c ← decimal_cmp a sa b 0; Ok (apply_cmp op c)
  | LInt a, LDecimal b sb => c ← decimal_cmp a 0 b sb; Ok (apply_cmp op c)
  | LTimestamp a, LTimestamp b => Ok (apply_cmp op (a ?= b)%Z)
  | LTimestamp a, LText b => b ← parse_timestamp b; Ok (apply_cmp op (a ?= b)%Z)
  | LText a, LTimestamp b => a ← parse_timestamp a; Ok (apply_cmp op (a ?= b)%Z)
  | LText s, LInt b => a ← text_to_int s; Ok (apply_cmp op (a ?= b)%Z)
  | LInt a, LText s => b ← text_to_int s; Ok (apply_cmp op (a ?= b)%Z)
  | LText s, LBool b => a ← parse_bool_text s; compare_bool op a b
  | LBool a, LText s => b ← parse_bool_text s; compare_bool op a b
  | LText s, (LFloat _ | LDecimal _ _) => f ← text_to_float s; compare_float op f r
  | (LFloat _ | LDecimal _ _), LText s => f ← text_to_float s; compare_float op l f
  | LFloat _, _ | _, LFloat _ => compare_float op l r
  | LUuid a, LUuid b => Ok (apply_cmp op (bytes_cmp a b))
  | LUuid a, LText b => b ← parse_uuid b; Ok (apply_cmp op (bytes_cmp a b))
  | LText a, LUuid b => a ← parse_uuid a; Ok (apply_cmp op (bytes_cmp a b))
  | LBytea a, LBytea b => Ok (apply_cmp op (bytes_cmp a b))
  | LBytea a, LText b => Ok (apply_cmp op (bytes_cmp a (parse_bytea b)))
  | LText a, LBytea b => Ok (apply_cmp op (bytes_cmp (parse_bytea a) b))
  | LDate a, LDate b => Ok (apply_cmp op (a ?= b)%Z)
  | LDate a, LText b => b ← parse_date b; Ok (apply_cmp op (a ?= b)%Z)
  | LText a, LDate b => a ← parse_date a; Ok (apply_cmp op (a ?= b)%Z)
  | LTime a, LTime b => Ok (apply_cmp op (a ?= b)%Z)
  | LTime a, LText b => b ← parse_time b; Ok (apply_cmp op (a ?= b)%Z)
  | LText a, LTime b => a ← parse_time a; Ok (apply_cmp op (a ?= b)%Z)
  | _, _ => Err cannot_compare
  end.

(** The operator with its operands swapped. *)
Definition flip_cmp_op (op : CmpOp) : CmpOp :=
  match op with CLt => CGt | CLe => CGe | CGt => CLt | CGe => CLe | CEq => CEq | CNe => CNe end.

Definition literal_ord (l r : Literal) : option comparison :=
  if is_null l || is_null r then None
  else match compare CEq l r, compare CLt l r with
  | Ok true, _ => Some Eq
  | Ok false, Ok true => Some Lt
  | Ok false, Ok false => Some Gt
  | _, _ => None
  end.

Definition as_bool (l : Literal) : Result bool :=
  match l with
  | LBool b => Ok b
  | LNull => Ok false
  | _ => Err (SqlUnsupported "expected a boolean expression")
  end.

(** ** Arithmetic *)

Definition lit_to_f64 (l : Literal) : Result f64 :=
  match l with
  | LInt n => Ok (f64_of_int n)
  | LFloat f => Ok f
  | LDecimal u s => Ok (f64_div (f64_of_int u) (f64_powi f64_ten s))
  | _ => Err (SqlPlan "arithmetic requires a numeric operand")
  end.

Definition int_overflow : DbError := SqlPlan "integer overflow".
Definition div_zero : DbError := SqlPlan "division by zero".
Definition mod_zero : DbError := SqlPlan "modulo by zero".

(** Division of [i64::MIN] by [-1] panics in every build. *)
Definition int_arith (op : ArithOp) (a b : Z) : Result Z :=
  match op with
  | AAdd => ok_or (checked_i64 (a + b)) int_overflow
  | ASub => ok_or (checked_i64 (a - b)) int_overflow
  | AMul => ok_or (checked_i64 (a * b)) int_overflow
  | ADiv => if decide (b = 0) then Err div_zero
            else if decide (a = -2 ^ 63 ∧ b = -1) then Panic else Ok (a `quot` b)
  | AMod => if decide (b = 0) then Err mod_zero
            else if decide (a = -2 ^ 63 ∧ b = -1) then Panic else Ok (a `rem` b)
  end.

Definition float_arith (op : ArithOp) (a b : f64) : Result f64 :=
  match op with
  | AAdd => Ok (f64_add a b)
  | ASub => Ok (f64_sub a b)
  | AMul => Ok (f64_mul a b)
  | ADiv => if f64_eqb b 0 then Err div_zero else Ok (f64_div a b)
  | AMod => if f64_eqb b 0 then Err mod_zero else Ok (f64_rem a b)
  end.

Definition eval_arith (op : ArithOp) (l r : Literal) : Result Literal :=
  match l, r with
  | LInt a, LInt b => v ← int_arith op a b; Ok (LInt v)
  | _, _ => a ← lit_to_f64 l; b ← lit_to_f64 r; v ← float_arith op a b; Ok (LFloat v)
  end.

(** ** Coercion *)

Section coerce.
Context `{!SerdeJson}.

Definition coerce_value (ty : ColumnType) (val : Literal) : Result Literal :=
  match ty, val with
  | _, LNull => Ok LNull
  | TInt64, LInt n => Ok (LInt n)
  | TText, LText s => Ok (LText s)
  | TBool, LBool b => Ok (LBool b)
  | TJson, (LText s | LJson s) =>
      match json_from_str s with Some _ => Ok (LJson s) | None => Err (SqlPlan "invalid JSON for column") end
  | TVector n, LVector v =>
      if decide (zlen v = n) then Ok (LVector v) else Err (SqlPlan "wrong vector dimension")
  | TDecimal p s, LDecimal value from_scale => rescale_decimal value from_scale p s
  | TDecimal p s, LInt n => rescale_decimal n 0 p s
  | TTimestamp, LTimestamp t => Ok (LTimestamp t)
  | TTimestamp, LText s => t ← parse_timestamp s; Ok (LTimestamp t)
  | TFloat, LFloat f => Ok (LFloat f)
  | TFloat, LInt n => Ok (LFloat (f64_of_int n))
  | TFloat, LDecimal v s => Ok (LFloat (f64_div (f64_of_int v) (f64_powi f64_ten s)))
  | TUuid, LUuid b => Ok (LUuid b)
  | TUuid, LText s => b ← parse_uuid s; Ok (LUuid b)
  | TBytea, LBytea b => Ok (LBytea b)
  | TBytea, LText s => Ok (LBytea (parse_bytea s))
  | TDate, LDate d => Ok (LDate d)
  | TDate, LText s => d ← parse_date s; Ok (LDate d)
  | TTime, LTime t => Ok (LTime t)
  | TTime, LText s => t ← parse_time s; Ok (LTime t)
  | _, _ => Err (SqlPlan "value does not have the type of the column")
  end.

(** [zip] and [collect]: the shorter list decides. *)
Fixpoint coerce_and_validate_row (columns : list ColumnDef) (values : list Literal) : Result (list Literal) :=
  match columns, values with
  | c :: columns, v :: values =>
      v ← coerce_value (col_ty c) v; vs ← coerce_and_validate_row columns values; Ok (v :: vs)
  | _, _ => Ok []
  end.

End coerce.
