(* ===== verification/SqlValueProps.v ===== *)
(** Values: decimals are exact, comparison is symmetric, and coercion gives values of
    the type of the column. *)

From stdpp Require Import base numbers list strings.
From Stdlib Require Import Lia.
From S2P Require Import Prelude Format Page BTreeNode BTreeNodeProps BTree Text Float Datetime SqlTypes SqlValue.

(** ** Decimals *)

Lemma pow10_loop_spec n acc : 1 ≤ acc < 2 ^ 127 →
  pow10_loop n acc = if decide (acc * 10 ^ Z.of_nat n < 2 ^ 127) then Some (acc * 10 ^ Z.of_nat n) else None.
Proof.
  revert acc. induction n as [|n IH]; intros acc Ha; cbn [pow10_loop].
  - rewrite Z.mul_1_r, decide_True by lia. done.
  - rewrite Nat2Z.inj_succ, Z.pow_succ_r, Z.mul_assoc by lia.
    pose proof (Z.pow_pos_nonneg 10 (Z.of_nat n) ltac:(lia) ltac:(lia)).
    unfold checked_i128, in_i128. case_decide; cbn [mbind option_bind]; [apply IH; lia|].
    rewrite decide_False by nia. done.
Qed.

Lemma pow10_spec n : 0 ≤ n → pow10 n = if decide (n ≤ 38) then Some (10 ^ n) else None.
Proof.
  intros Hn. unfold pow10. rewrite pow10_loop_spec, Z.mul_1_l, Z2Nat.id by lia.
  destruct (decide (n ≤ 38)) as [Hl|Hl].
  - rewrite decide_True; [done|]. pose proof (Z.pow_le_mono_r 10 n 38 ltac:(lia) Hl). lia.
  - rewrite decide_False; [done|]. pose proof (Z.pow_le_mono_r 10 39 n ltac:(lia) ltac:(lia)). lia.
Qed.

Lemma digit_loop_spec fuel v n p : 0 ≤ v < 10 ^ Z.of_nat fuel → 0 ≤ p → digit_loop fuel v n ≤ n + p ↔ v < 10 ^ p.
Proof.
  revert v n p. induction fuel as [|fuel IH]; intros v n p Hv Hp; cbn [digit_loop].
  - change (10 ^ Z.of_nat 0) with 1 in Hv. pose proof (Z.pow_pos_nonneg 10 p ltac:(lia) Hp). lia.
  - pose proof (Z.pow_pos_nonneg 10 p ltac:(lia) Hp).
    case_decide; [|split; [lia|intros; lia]].
    rewrite Nat2Z.inj_succ, Z.pow_succ_r in Hv by lia.
    destruct (decide (p = 0)) as [->|].
    + change (10 ^ 0) with 1. split; [|lia]. intros Hd.
      pose proof (proj1 (IH (v / 10) (n + 1) 0 ltac:(split; [apply Z.div_pos|apply Z.div_lt_upper_bound]; lia) ltac:(lia))).
      exfalso. clear -Hd. enough (∀ f v n, n ≤ digit_loop f v n) as Hm by (pose proof (Hm fuel (v / 10) (n + 1)); lia).
      clear. induction f as [|f IH]; intros v n; cbn [digit_loop]; [lia|]. case_decide; [|lia].
      pose proof (IH (v / 10) (n + 1)). lia.
    + replace (n + p) with (n + 1 + (p - 1)) by lia.
      rewrite IH by (try (split; [apply Z.div_pos|apply Z.div_lt_upper_bound]); lia).
      replace p with (Z.succ (p - 1)) at 2 by lia. rewrite Z.pow_succ_r by lia.
      split; intros Hd; [|apply Z.div_lt_upper_bound; lia].
      pose proof (Z.div_mod v 10 ltac:(lia)). pose proof (Z.mod_pos_bound v 10 ltac:(lia)). lia.
Qed.

(** The number of digits fits the precision when the value is below the power of ten. *)
Lemma digit_count_spec v p : 1 ≤ p → digit_count v ≤ p ↔ Z.abs v < 10 ^ p.
Proof.
  intros Hp. unfold digit_count. case_decide as E.
  - rewrite E. pose proof (Z.pow_pos_nonneg 10 p ltac:(lia) ltac:(lia)). lia.
  - rewrite <- (Z.add_0_l p) at 1. apply digit_loop_spec; [|lia]. split; [lia|]. apply show_nat_fuel. lia.
Qed.

Lemma rescale_iff v f p s w : 0 ≤ f → 0 ≤ s → Z.abs (f - s) ≤ 38 → 1 ≤ p ≤ 38 →
  rescale_decimal v f p s = Ok (LDecimal w s) ↔ v * 10 ^ s = w * 10 ^ f ∧ Z.abs w < 10 ^ p.
Proof.
  intros Hf Hs Hd Hp. rewrite <- digit_count_spec by lia. unfold rescale_decimal.
  assert (10 ^ p ≤ 10 ^ 38) by (apply Z.pow_le_mono_r; lia).
  assert (∀ x, (if decide (p < digit_count x) then Err (SqlPlan "value exceeds DECIMAL precision")
    else Ok (LDecimal x s) : Result Literal) = Ok (LDecimal w s) ↔ x = w ∧ digit_count w ≤ p) as Hx.
  { intros x. case_decide; split; intros Hw; [done|destruct Hw as [-> ?]; lia| |by destruct Hw as [-> ?]].
    injection Hw as ->. split; [done|lia]. }
  case_decide as E1; [subst; cbn [mbind outcome_bind]; rewrite Hx|case_decide as E2].
  - pose proof (Z.pow_pos_nonneg 10 s ltac:(lia) Hs). rewrite Z.mul_cancel_r by lia. naive_solver.
  - rewrite pow10_spec, decide_True by lia. cbn [ok_or mbind outcome_bind].
    assert (10 ^ s = 10 ^ (s - f) * 10 ^ f) as -> by (rewrite <- Z.pow_add_r by lia; f_equal; lia).
    pose proof (Z.pow_pos_nonneg 10 f ltac:(lia) Hf). rewrite Z.mul_assoc, Z.mul_cancel_r by lia.
    unfold checked_i128. case_decide as Hc; cbn [ok_or mbind outcome_bind]; [rewrite Hx; naive_solver|].
    split; [done|]. intros [E Hw]. apply digit_count_spec in Hw; [|lia]. unfold in_i128 in Hc. lia.
  - rewrite pow10_spec, decide_True by lia. cbn [ok_or mbind outcome_bind].
    assert (10 ^ f = 10 ^ (f - s) * 10 ^ s) as -> by (rewrite <- Z.pow_add_r by lia; f_equal; lia).
    pose proof (Z.pow_pos_nonneg 10 s ltac:(lia) Hs). rewrite (Z.mul_assoc w), Z.mul_cancel_r by lia.
    pose proof (Z.pow_pos_nonneg 10 (f - s) ltac:(lia) ltac:(lia)).
    pose proof (Z.quot_rem' v (10 ^ (f - s))) as Hq. case_decide as Hr; cbn [mbind outcome_bind].
    + split; [done|]. intros [-> _]. destruct Hr. apply Z.rem_mul. lia.
    + rewrite Hr in Hq. rewrite Hx. split; intros [E ?]; (split; [|done]); [lia|].
      subst v. rewrite Z.quot_mul by lia. done.
Qed.

(** ** Comparison *)

Lemma compare_mul_r a b p : 0 < p → (a * p ?= b * p)%Z = (a ?= b)%Z.
Proof. intros. destruct (Z.compare_spec a b), (Z.compare_spec (a * p) (b * p)); try done; nia. Qed.

Lemma decimal_cmp_value a sa b sb c : 0 ≤ sa → 0 ≤ sb →
  decimal_cmp a sa b sb = Ok c → c = (a * 10 ^ sb ?= b * 10 ^ sa)%Z.
Proof.
  intros Ha Hb. unfold decimal_cmp.
  pose proof (Z.pow_pos_nonneg 10 sa ltac:(lia) Ha). pose proof (Z.pow_pos_nonneg 10 sb ltac:(lia) Hb).
  case_decide as E1; [|case_decide as E2].
  - subst. intros [= <-]. by rewrite compare_mul_r by lia.
  - rewrite pow10_spec by lia. case_decide; [|done]. cbn [ok_or mbind outcome_bind].
    unfold checked_i128. case_decide; [|done]. cbn [ok_or mbind outcome_bind]. intros [= <-].
    assert (10 ^ sb = 10 ^ (sb - sa) * 10 ^ sa) as -> by (rewrite <- Z.pow_add_r by lia; f_equal; lia).
    rewrite Z.mul_assoc. by rewrite compare_mul_r by lia.
  - rewrite pow10_spec by lia. case_decide; [|done]. cbn [ok_or mbind outcome_bind].
    unfold checked_i128. case_decide; [|done]. cbn [ok_or mbind outcome_bind]. intros [= <-].
    assert (10 ^ sa = 10 ^ (sa - sb) * 10 ^ sb) as -> by (rewrite <- Z.pow_add_r by lia; f_equal; lia).
    rewrite Z.mul_assoc. by rewrite compare_mul_r by lia.
Qed.

Lemma decimal_cmp_opp a sa b sb : decimal_cmp b sb a sa = CompOpp <$> decimal_cmp a sa b sb.
Proof.
  unfold decimal_cmp. destruct (Z.lt_trichotomy sa sb) as [Hl|[->|Hl]].
  - rewrite !(decide_False (P := sa = sb)), !(decide_False (P := sb = sa)), !(decide_True (P := sa < sb)),
      !(decide_False (P := sb < sa)) by lia.
    destruct (pow10 (sb - sa)); [|done]. cbn [ok_or mbind outcome_bind].
    destruct (checked_i128 _); [|done]. cbn. by rewrite Z.compare_antisym.
  - rewrite !decide_True by done. cbn. by rewrite Z.compare_antisym.
  - rewrite !(decide_False (P := sa = sb)), !(decide_False (P := sb = sa)), !(decide_True (P := sb < sa)),
      !(decide_False (P := sa < sb)) by lia.
    destruct (pow10 (sa - sb)); [|done]. cbn [ok_or mbind outcome_bind].
    destruct (checked_i128 _); [|done]. cbn. by rewrite Z.compare_antisym.
Qed.

Lemma apply_cmp_flip op c : apply_cmp (flip_cmp_op op) (CompOpp c) = apply_cmp op c.
Proof. by destruct op, c. Qed.

Lemma compare_bool_flip op a b : compare_bool (flip_cmp_op op) b a = compare_bool op a b.
Proof. by destruct op, a, b. Qed.

Lemma compare_float_flip op l r : compare_float (flip_cmp_op op) r l = compare_float op l r.
Proof.
  unfold compare_float. destruct (float_of l) as [a|], (float_of r) as [b|]; try done.
  rewrite (f64_partial_cmp_opp a b). destruct (f64_partial_cmp a b); [|done]. cbn. by rewrite apply_cmp_flip.
Qed.

#[local] Ltac flip_bind :=
  match goal with
  | |- mbind _ ?m = mbind _ ?m => destruct m; [cbn [mbind outcome_bind]|done|done]
  end.

Lemma compare_flip_eq op l r : compare (flip_cmp_op op) r l = compare op l r.
Proof.
  destruct l, r; cbn [compare]; try done; try flip_bind.
  all: rewrite ?compare_float_flip, ?compare_bool_flip; try done.
  all: try (rewrite Z.compare_antisym, apply_cmp_flip; done).
  all: try (rewrite bytes_cmp_opp, apply_cmp_flip; done).
  all: rewrite (decimal_cmp_opp _ _ _ _); destruct (decimal_cmp _ _ _ _); cbn; try done; by rewrite ?apply_cmp_flip.
Qed.

(** ** Types *)

(** Values as the source's types bound them; a string or byte vector is shorter than
    4 GiB. *)
Definition text_ok (s : list Z) : Prop := bytes s ∧ utf8_valid s = true ∧ zlen s < 2 ^ 32.

Definition lit_ok (l : Literal) : Prop :=
  match l with
  | LInt n | LTimestamp n | LTime n => in_i64 n
  | LText s | LJson s => text_ok s
  | LVector v => Forall (λ f, 0 ≤ f < 2 ^ 32) v ∧ zlen v < 2 ^ 32
  | LDecimal v s => in_i128 v ∧ 0 ≤ s < 256
  | LFloat f => 0 ≤ f < 2 ^ 64
  | LUuid b => bytes b ∧ zlen b = 16
  | LBytea b => bytes b ∧ zlen b < 2 ^ 32
  | LDate d => -2 ^ 31 ≤ d < 2 ^ 31
  | LBool _ | LParam _ | LNull => True
  end.

(** Column types that [CREATE TABLE] accepts. *)
Definition type_ok (ty : ColumnType) : Prop :=
  match ty with
  | TVector n => 0 < n < 2 ^ 32
  | TDecimal p s => 1 ≤ p ≤ 38 ∧ 0 ≤ s ≤ p
  | _ => True
  end.

Definition has_type (ty : ColumnType) (l : Literal) : Prop :=
  lit_ok l ∧
  match ty, l with
  | _, LNull | TInt64, LInt _ | TText, LText _ | TBool, LBool _ | TJson, LJson _ | TTimestamp, LTimestamp _
  | TFloat, LFloat _ | TUuid, LUuid _ | TBytea, LBytea _ | TDate, LDate _ | TTime, LTime _ => True
  | TVector n, LVector v => zlen v = n
  | TDecimal p s, LDecimal v s' => s' = s ∧ Z.abs v < 10 ^ p
  | _, _ => False
  end.

Lemma wrap_i64_range v : in_i64 (wrap_i64 v).
Proof. unfold in_i64, wrap_i64. pose proof (Z.mod_pos_bound (v + 2 ^ 63) (2 ^ 64) ltac:(lia)). lia. Qed.

(** Invert a chain of binds that ends in [Ok]. *)
Ltac inv_chain H :=
  repeat first
    [ inv_bind H
    | lazymatch type of H with
      | (match ?x with _ => _ end) = Ok _ => let E := fresh "E" in destruct x eqn:E; try discriminate H
      end ].

Lemma parse_timestamp_range s t : parse_timestamp s = Ok t → in_i64 t.
Proof. unfold parse_timestamp. intros Hp. inv_chain Hp; injection Hp as <-; apply wrap_i64_range. Qed.

Lemma parse_time_range s t : parse_time s = Ok t → in_i64 t.
Proof. unfold parse_time. intros Hp. inv_chain Hp; injection Hp as <-; apply wrap_i64_range. Qed.

Lemma parse_date_range s t : parse_date s = Ok t → -2 ^ 31 ≤ t < 2 ^ 31.
Proof. unfold parse_date. intros Hp. inv_chain Hp; injection Hp as <-; done. Qed.

Lemma hex_digit_range b v : hex_digit b = Some v → 0 ≤ v < 16.
Proof. unfold hex_digit. repeat case_decide; intros [= <-]; lia. Qed.

Lemma hex_pairs_spec s bs : hex_pairs s = Some bs → bytes bs ∧ length s = (2 * length bs)%nat.
Proof.
  revert bs. induction s as [s IH] using (induction_ltof1 _ (@length Z)). unfold ltof in IH.
  destruct s as [|h [|l s]]; cbn [hex_pairs]; intros bs; [intros [= <-]; split; [by apply Forall_nil_2|done]|done|].
  destruct (hex_digit h) as [vh|] eqn:Eh; [|done]. destruct (hex_digit l) as [vl|] eqn:El; [|done].
  cbn [mbind option_bind]. destruct (hex_pairs s) as [bs'|] eqn:Es; [|done]. cbn. intros [= <-].
  apply IH in Es as [Hb Hl]; [|simpl; lia]. apply hex_digit_range in Eh, El.
  split; [constructor; [unfold is_byte; lia|done]|simpl; lia].
Qed.

Lemma parse_uuid_range s b : parse_uuid s = Ok b → bytes b ∧ zlen b = 16.
Proof.
  unfold parse_uuid. intros Hp. case_match eqn:E; [done|]. apply orb_false_iff in E as [E _].
  apply negb_false_iff, bool_decide_eq_true in E.
  destruct (hex_pairs _) eqn:Eh; [|done]. injection Hp as ->. apply hex_pairs_spec in Eh as [? Hl].
  unfold zlen. split; [done|lia].
Qed.

Lemma parse_bytea_range s : text_ok s → bytes (parse_bytea s) ∧ zlen (parse_bytea s) < 2 ^ 32.
Proof.
  intros (Hb & _ & Hl). unfold parse_bytea.
  assert (∀ hex, s = 92 :: 120 :: hex ∨ s = 92 :: 88 :: hex →
    bytes (default s (hex_pairs hex)) ∧ zlen (default s (hex_pairs hex)) < 2 ^ 32) as Hx.
  { intros hex Hs. destruct (hex_pairs hex) as [bs|] eqn:E; [|done]. apply hex_pairs_spec in E as [? Hh]. split; [done|].
    assert (zlen hex < 2 ^ 32) by (destruct Hs as [-> | ->]; rewrite !zlen_cons in Hl; lia). unfold zlen in *. cbn. lia. }
  repeat case_match; subst; auto.
Qed.

Lemma f64_div_range a b : 0 ≤ f64_div a b < 2 ^ 64.
Proof. apply of_sf_range. Qed.

Lemma f64_of_int_range n : 0 ≤ f64_of_int n < 2 ^ 64.
Proof. apply of_sf_range. Qed.

Lemma rescale_shape v f p s r : rescale_decimal v f p s = Ok r → ∃ w, r = LDecimal w s ∧ digit_count w ≤ p.
Proof. unfold rescale_decimal. intros Hr. inv_chain Hr; injection Hr as <-; eexists; split; try done; lia. Qed.

Lemma rescale_typed v f p s r : 1 ≤ p ≤ 38 → 0 ≤ s ≤ p →
  rescale_decimal v f p s = Ok r → has_type (TDecimal p s) r.
Proof.
  intros Hp Hs Hr. apply rescale_shape in Hr as (w & -> & Hd). apply digit_count_spec in Hd; [|lia].
  pose proof (Z.pow_le_mono_r 10 p 38 ltac:(lia) ltac:(lia)).
  split; [split; [unfold in_i128; lia|lia]|done].
Qed.

Section coerce.
Context `{!SerdeJson}.

(** What coercion returns is a value of the column's type. *)
Lemma coerce_value_typed ty v w : type_ok ty → lit_ok v → coerce_value ty v = Ok w → has_type ty w.
Proof.
  intros Ht Hv. destruct ty, v; cbn [coerce_value]; intros Hc; try done; try (injection Hc as <-; done).
  all: try (inv_chain Hc; injection Hc as <-; done).
  all: try (destruct Ht; eapply rescale_typed; [..|exact Hc]; lia).
  all: try (inv_chain Hc; injection Hc as <-; split; [|done]).
  - by eapply parse_timestamp_range.
  - apply f64_of_int_range.
  - apply f64_div_range.
  - by eapply parse_uuid_range.
  - by apply parse_bytea_range.
  - by eapply parse_date_range.
  - by eapply parse_time_range.
Qed.

(** A value that has been coerced is not changed by coercing it again. *)
Lemma coerce_value_again ty v w : type_ok ty → lit_ok v → coerce_value ty v = Ok w → coerce_value ty w = Ok w.
Proof.
  intros Ht Hv Hc. pose proof (coerce_value_typed ty v w Ht Hv Hc) as [_ Hw].
  destruct ty, w; try done; cbn [coerce_value].
  - destruct v; cbn [coerce_value] in Hc; try done; destruct (json_from_str _) eqn:E in Hc; try done;
      injection Hc as <-; by rewrite E.
  - by rewrite decide_True.
  - destruct Hw as [-> Hd]. destruct Ht. unfold rescale_decimal. rewrite decide_True by done. cbn [mbind outcome_bind].
    apply digit_count_spec in Hd; [|lia]. rewrite decide_False by lia. done.
Qed.

(** A row of well-typed values for the columns of a table. *)
Definition row_typed (columns : list ColumnDef) (row : list Literal) : Prop :=
  Forall2 (λ c v, has_type (col_ty c) v) columns row.

Lemma coerce_row_typed columns values row :
  Forall (λ c, type_ok (col_ty c)) columns → Forall lit_ok values → length values = length columns →
  coerce_and_validate_row columns values = Ok row → row_typed columns row.
Proof.
  intros Hc. revert values row. induction Hc as [|c cs Ht Hc IH]; intros [|v vs] row Hv Hl; try done;
    cbn [coerce_and_validate_row].
  - intros [= <-]. constructor.
  - inversion Hv; subst. intros Hr. inv_bind Hr. inv_bind Hr. injection Hr as <-.
    constructor; [by eapply coerce_value_typed|]. apply (IH vs); simpl in *; auto.
Qed.

(** C15: A row that passes coercion has, in every column, NULL or a value of the column's
    type within its width, precision, scale and dimension; coercing it again changes
    nothing. *)
Theorem coercion_typed columns values row :
  Forall (λ c, type_ok (col_ty c)) columns → Forall lit_ok values → length values = length columns →
  coerce_and_validate_row columns values = Ok row →
  row_typed columns row ∧ coerce_and_validate_row columns row = Ok row.
Proof.
  intros Hc Hv Hl Hr. split; [by eapply coerce_row_typed|].
  revert values row Hv Hl Hr. induction Hc as [|c cs Ht Hc IH]; intros [|v vs] row Hv Hl; try done;
    cbn [coerce_and_validate_row].
  inversion Hv; subst. intros Hr. inv_bind Hr. inv_bind Hr. injection Hr as <-. cbn [coerce_and_validate_row].
  rewrite (coerce_value_again _ v a) by done. cbn [mbind outcome_bind]. by rewrite (IH vs) by (simpl in *; auto).
Qed.

End coerce.

Definition w_columns : list ColumnDef :=
  [plain_column "id" TInt64; plain_column "price" (TDecimal 6 2); plain_column "at" TTimestamp].
Definition w_values : list Literal := [LInt 42; LInt 7; LText (lit "1970-01-02")].
Definition w_coerced : list Literal := [LInt 42; LDecimal 700 2; LTimestamp 86400000000].

Lemma w_columns_ok : Forall (λ c, type_ok (col_ty c)) w_columns.
Proof. repeat constructor; cbn; lia. Qed.

Lemma w_values_ok : Forall lit_ok w_values.
Proof.
  repeat (apply Forall_cons_2 || apply Forall_nil_2); cbn; [unfold in_i64; lia|unfold in_i64; lia|]; vm_compute; repeat split; repeat constructor; congruence.
Qed.

Lemma coercion_typed_witness : row_typed w_columns w_coerced ∧ @coerce_and_validate_row no_json w_columns w_coerced = Ok w_coerced.
Proof.
  apply (@coercion_typed no_json w_columns w_values w_coerced); [apply w_columns_ok|apply w_values_ok|done|].
  vm_compute. done.
Defined.
