(* ===== verification/SqlRow.v ===== *)
(** The bytes of a row ([src/sql/executor.rs]): encoding, full decoding, decoding of the
    columns a query needs, and reading an integer straight from the bytes. *)

From stdpp Require Import base numbers list strings.
From Stdlib Require Import Lia.
From S2P Require Import Prelude Format Page BTreeNode BTree Text Float Datetime SqlTypes SqlValue.

(** ** Signed integers of [n] bytes *)

Definition signed_to_le (n : nat) (v : Z) : list Z := le_bytes n (v mod 256 ^ Z.of_nat n).
Definition signed_from_le (b : list Z) : Z :=
  let v := le_value b in
  if decide (2 * v < 256 ^ zlen b) then v else v - 256 ^ zlen b.

(** ** Encoding *)

Definition encode_blob (tag : Z) (s : list Z) : list Z := tag :: u32_to_le (u32 (zlen s)) ++ s.

Definition encode_value (v : Literal) : list Z :=
  match v with
  | LNull => [0]
  | LInt n => 1 :: signed_to_le 8 n
  | LText s => encode_blob 2 s
  | LBool b => [3; if b then 1 else 0]
  | LJson s => encode_blob 4 s
  | LVector v => 5 :: u32_to_le (u32 (zlen v)) ++ flat_map (le_bytes 4) v
  | LDecimal value scale => 6 :: signed_to_le 16 value ++ [scale]
  | LTimestamp micros => 7 :: signed_to_le 8 micros
  | LFloat f => 8 :: le_bytes 8 f
  | LUuid b => 9 :: b
  | LBytea b => encode_blob 10 b
  | LDate days => 11 :: signed_to_le 4 days
  | LTime micros => 12 :: signed_to_le 8 micros
  | LParam _ => [0]
  end.

Definition encode_row (values : list Literal) : list Z := flat_map encode_value values.

(** ** Decoding *)

Definition row_error (what : string) : DbError := SqlPlan (String.append "row decode error: " what).

Definition take_n (bytes : list Z) (pos n : Z) (what : string) : Result (list Z * Z) :=
  raw ← ok_or (get_range bytes pos (pos + n)) (row_error what); Ok (raw, pos + n).

Fixpoint decode_floats (n : nat) (bytes : list Z) (pos : Z) : Result (list Z * Z) :=
  match n with
  | O => Ok ([], pos)
  | S n =>
      '(raw, pos) ← take_n bytes pos 4 "truncated vector element";
      '(vs, pos) ← decode_floats n bytes pos;
      Ok (le_value raw :: vs, pos)
  end.

Definition decode_value_at (bytes : list Z) (pos : Z) (col : ColumnDef) : Result (Literal * Z) :=
  tag ← ok_or (get_byte bytes pos) (row_error "truncated tag");
  let pos := pos + 1 in
  match tag with
  | 0 => Ok (LNull, pos)
  | 1 => '(raw, pos) ← take_n bytes pos 8 "truncated int"; Ok (LInt (signed_from_le raw), pos)
  | 2 | 4 =>
      '(len_raw, pos) ← take_n bytes pos 4 "truncated length";
      '(raw, pos) ← take_n bytes pos (u32_from_le len_raw) "truncated string";
      if utf8_valid raw then Ok (if decide (tag = 2) then LText raw else LJson raw, pos)
      else Err (row_error "invalid utf8")
  | 3 => b ← ok_or (get_byte bytes pos) (row_error "truncated bool"); Ok (LBool (bool_decide (b ≠ 0)), pos + 1)
  | 5 =>
      '(dim_raw, pos) ← take_n bytes pos 4 "truncated vector dim";
      let dim := u32_from_le dim_raw in
      _ ← (match col_ty col with
           | TVector n => if decide (dim ≠ n) then Err (row_error "vector dimension") else Ok ()
           | _ => Ok ()
           end);
      '(values, pos) ← decode_floats (Z.to_nat dim) bytes pos;
      Ok (LVector values, pos)
  | 6 =>
      '(raw, pos) ← take_n bytes pos 16 "truncated decimal";
      scale ← ok_or (get_byte bytes pos) (row_error "truncated decimal scale");
      let pos := pos + 1 in
      _ ← (match col_ty col with
           | TDecimal _ col_scale => if decide (scale ≠ col_scale) then Err (row_error "decimal scale") else Ok ()
           | _ => Ok ()
           end);
      Ok (LDecimal (signed_from_le raw) scale, pos)
  | 7 => '(raw, pos) ← take_n bytes pos 8 "truncated timestamp"; Ok (LTimestamp (signed_from_le raw), pos)
  | 8 => '(raw, pos) ← take_n bytes pos 8 "truncated float"; Ok (LFloat (le_value raw), pos)
  | 9 => '(raw, pos) ← take_n bytes pos 16 "truncated uuid"; Ok (LUuid raw, pos)
  | 10 =>
      '(len_raw, pos) ← take_n bytes pos 4 "truncated bytea length";
      '(raw, pos) ← take_n bytes pos (u32_from_le len_raw) "truncated bytea";
      Ok (LBytea raw, pos)
  | 11 => '(raw, pos) ← take_n bytes pos 4 "truncated date"; Ok (LDate (signed_from_le raw), pos)
  | 12 => '(raw, pos) ← take_n bytes pos 8 "truncated time"; Ok (LTime (signed_from_le raw), pos)
  | _ => Err (row_error "unknown tag")
  end.

(** The position after a value, which is not checked to be inside the row. *)
Definition skip_value_at (bytes : list Z) (pos : Z) : Result Z :=
  tag ← ok_or (get_byte bytes pos) (row_error "truncated tag");
  let pos := pos + 1 in
  let read_len := '(raw, pos) ← take_n bytes pos 4 "truncated length"; Ok (u32_from_le raw, pos) in
  match tag with
  | 0 => Ok pos
  | 3 => Ok (pos + 1)
  | 11 => Ok (pos + 4)
  | 1 | 7 | 8 | 12 => Ok (pos + 8)
  | 9 => Ok (pos + 16)
  | 6 => Ok (pos + 17)
  | 2 | 4 | 10 => '(len, pos) ← read_len; Ok (pos + len)
  | 5 => '(dim, pos) ← read_len; Ok (pos + dim * 4)
  | _ => Err (row_error "unknown tag")
  end.

Section decode.
Context `{!SerdeJson}.

Definition missing_column_default (col : ColumnDef) : Literal :=
  match cc_default (col_constraints col) with
  | Some d => match coerce_value (col_ty col) d with Ok v => v | _ => LNull end
  | None => LNull
  end.

Fixpoint decode_columns (bytes : list Z) (pos : Z) (columns : list ColumnDef) : Result (list Literal) :=
  match columns with
  | [] => Ok []
  | col :: columns =>
      if decide (zlen bytes ≤ pos) then
        vs ← decode_columns bytes pos columns; Ok (missing_column_default col :: vs)
      else
        '(v, pos) ← decode_value_at bytes pos col;
        vs ← decode_columns bytes pos columns; Ok (v :: vs)
  end.

Definition decode_row (bytes : list Z) (columns : list ColumnDef) : Result (list Literal) :=
  decode_columns bytes 0 columns.

(** [i] is the index of the first column of [columns]. *)
Fixpoint deform_columns (bytes : list Z) (pos : Z) (i : nat) (columns : list ColumnDef) (upto : nat)
    (needed : list bool) : Result (list Literal) :=
  match columns with
  | [] => Ok []
  | col :: columns' =>
      if decide (upto < i)%nat then Ok (replicate (length columns) LNull)
      else if decide (zlen bytes ≤ pos) then
        n ← index needed (Z.of_nat i);
        vs ← deform_columns bytes pos (S i) columns' upto needed;
        Ok ((if (n : bool) then missing_column_default col else LNull) :: vs)
      else
        n ← index needed (Z.of_nat i);
        if (n : bool) then
          '(v, pos) ← decode_value_at bytes pos col;
          vs ← deform_columns bytes pos (S i) columns' upto needed; Ok (v :: vs)
        else
          pos ← skip_value_at bytes pos;
          vs ← deform_columns bytes pos (S i) columns' upto needed; Ok (LNull :: vs)
  end.

Definition deform_row (bytes : list Z) (columns : list ColumnDef) (upto : nat) (needed : list bool)
    : Result (list Literal) :=
  deform_columns bytes 0 0 columns upto needed.

End decode.

Fixpoint needed_loop (cols : list nat) (ncols : nat) (needed : list bool) (upto : nat) : list bool * nat :=
  match cols with
  | [] => (needed, upto)
  | c :: cols =>
      if decide (c < ncols)%nat then needed_loop cols ncols (<[c := true]> needed) (upto `max` c)
      else needed_loop cols ncols needed upto
  end.

Definition needed_mask (cols : list nat) (ncols : nat) : list bool * nat :=
  needed_loop cols ncols (replicate ncols false) 0.

(** ** Reading an integer from the bytes *)

(** The payload of the types whose width does not depend on the value. *)
Definition fixed_stride (tag : Z) : option Z :=
  match tag with
  | 0 => Some 0
  | 1 | 7 | 8 | 12 => Some 8
  | 3 => Some 1
  | 11 => Some 4
  | 9 => Some 16
  | 6 => Some 17
  | _ => None
  end.

(** [col_idx] counts from the first of [columns]. *)
Fixpoint raw_i64_from (bytes : list Z) (pos : Z) (col_idx : nat) (columns : list ColumnDef) {struct columns}
    : option Z :=
  match columns with
  | [] => None
  | _ :: columns =>
      if decide (zlen bytes ≤ pos) then None
      else
        tag ← get_byte bytes pos;
        match col_idx with
        | O =>
            if decide (tag = 1) then
              data ← get_range bytes (pos + 1) (pos + 9); Some (signed_from_le data)
            else None
        | S col_idx =>
            stride ← fixed_stride tag;
            raw_i64_from bytes (pos + (1 + stride)) col_idx columns
        end
  end.

Definition try_raw_i64_at (bytes : list Z) (col_idx : nat) (columns : list ColumnDef) : option Z :=
  raw_i64_from bytes 0 col_idx columns.
