(* ===== verification/SqlRowProps.v ===== *)
(** Rows: what is encoded decodes to the same values, also under columns added later;
    partial decoding and raw reads agree with full decoding. *)

From stdpp Require Import base numbers list strings.
From Stdlib Require Import Lia.
From S2P Require Import Prelude Format Page BTreeNode BTreeNodeProps BTree Text Float Datetime SqlTypes SqlValue SqlValueProps SqlRow.

(** ** Reading at a position *)

(** The bytes from a position on. *)
Definition rest_at (bytes : list Z) (pos : Z) (rest : list Z) : Prop := ∃ a, bytes = a ++ rest ∧ pos = zlen a.

Lemma rest_at_app bytes pos u r n : rest_at bytes pos (u ++ r) → n = zlen u → rest_at bytes (pos + n) r.
Proof. intros (a & -> & ->) ->. exists (a ++ u). rewrite <- app_assoc. split; [done|len]. Qed.

Lemma rest_at_cons bytes pos x r : rest_at bytes pos (x :: r) → rest_at bytes (pos + 1) r.
Proof. intros Hr. by apply (rest_at_app bytes pos [x]). Qed.

Lemma rest_at_end bytes pos : rest_at bytes pos [] → pos = zlen bytes.
Proof. intros (a & -> & ->). len. Qed.

Lemma rest_at_in bytes pos x r : rest_at bytes pos (x :: r) → 0 ≤ pos < zlen bytes.
Proof. intros (a & -> & ->). pose proof (zlen_nonneg a). pose proof (zlen_nonneg r). len. Qed.

Lemma get_byte_rest bytes pos x r : rest_at bytes pos (x :: r) → get_byte bytes pos = Some x.
Proof. intros (a & -> & ->). by apply get_byte_at. Qed.

Lemma take_n_rest bytes pos u r n what : rest_at bytes pos (u ++ r) → n = zlen u →
  take_n bytes pos n what = Ok (u, pos + n).
Proof. intros (a & -> & ->) ->. unfold take_n. rewrite get_range_mid. done. Qed.

(** ** Signed integers *)

Lemma signed_roundtrip n v : -256 ^ Z.of_nat n ≤ 2 * v < 256 ^ Z.of_nat n →
  signed_from_le (signed_to_le n v) = v.
Proof.
  intros Hv. unfold signed_from_le, signed_to_le. rewrite le_value_le_bytes, zlen_le_bytes.
  set (m := 256 ^ Z.of_nat n) in *. rewrite Z.mod_mod by lia.
  destruct (decide (0 ≤ v)).
  - rewrite Z.mod_small, decide_True by lia. done.
  - assert (v mod m = v + m) as -> by (symmetry; apply (Z.mod_unique_pos _ _ (-1)); lia).
    rewrite decide_False by lia. lia.
Qed.

Lemma zlen_signed_to_le n v : zlen (signed_to_le n v) = Z.of_nat n.
Proof. apply zlen_le_bytes. Qed.

Lemma decode_floats_rest vs bytes pos r :
  Forall (λ f, 0 ≤ f < 2 ^ 32) vs → rest_at bytes pos (flat_map (le_bytes 4) vs ++ r) →
  decode_floats (length vs) bytes pos = Ok (vs, pos + 4 * zlen vs).
Proof.
  intros Hv. revert pos. induction Hv as [|v vs Hf Hv IH]; intros pos Hr; cbn [flat_map length decode_floats].
  - do 2 f_equal. unfold zlen. simpl. lia.
  - cbn [flat_map] in Hr. rewrite <- app_assoc in Hr.
    rewrite (take_n_rest _ _ (le_bytes 4 v) _ 4) by (done || by rewrite zlen_le_bytes).
    cbn [mbind outcome_bind]. apply rest_at_app with (n := 4) in Hr; [|by rewrite zlen_le_bytes].
    rewrite (IH _ Hr). cbn [mbind outcome_bind]. rewrite le_value_le_bytes, Z.mod_small by (cbn; lia).
    rewrite zlen_cons. do 2 f_equal. lia.
Qed.

Lemma zlen_flat_le vs : zlen (flat_map (le_bytes 4) vs) = 4 * zlen vs.
Proof. induction vs as [|v vs IH]; [done|]. cbn [flat_map]. rewrite zlen_app, zlen_cons, zlen_le_bytes, IH. lia. Qed.

(** ** Encoding and decoding *)

Lemma decode_blob bytes pos tag s r (what what' : string) : zlen s < 2 ^ 32 →
  rest_at bytes pos (encode_blob tag s ++ r) →
  get_byte bytes pos = Some tag ∧
  (∃ len_raw, take_n bytes (pos + 1) 4 what = Ok (len_raw, pos + 1 + 4) ∧ u32_from_le len_raw = zlen s) ∧
  take_n bytes (pos + 1 + 4) (zlen s) what' = Ok (s, pos + zlen (encode_blob tag s)) ∧
  0 ≤ pos < zlen bytes.
Proof.
  intros Hs Hr. pose proof (zlen_nonneg s). unfold encode_blob in *. cbn [app] in Hr. rewrite <- app_assoc in Hr.
  split; [by eapply get_byte_rest|]. pose proof (rest_at_in _ _ _ _ Hr). apply rest_at_cons in Hr.
  split; [|split; [|done]].
  - eexists. split; [by apply (take_n_rest _ _ _ _ _ _ Hr)|]. rewrite u32_small, u32_from_to_le by lia. done.
  - apply rest_at_app with (n := 4) in Hr; [|done]. rewrite (take_n_rest _ _ _ _ _ _ Hr) by done.
    do 2 f_equal. unfold u32_to_le. len.
Qed.

Lemma decode_fixed bytes pos tag u r n : rest_at bytes pos ((tag :: u) ++ r) → n = zlen u →
  get_byte bytes pos = Some tag ∧ (∀ what, take_n bytes (pos + 1) n what = Ok (u, pos + 1 + n)) ∧
  rest_at bytes (pos + 1 + n) r ∧ pos + 1 + n = pos + zlen (tag :: u).
Proof.
  intros Hr ->. split; [by eapply get_byte_rest|]. apply rest_at_cons in Hr. split; [|split].
  - intros what. by rewrite (take_n_rest _ _ _ _ _ _ Hr).
  - by eapply rest_at_app.
  - rewrite zlen_cons. lia.
Qed.

(** A value of fixed width. *)
Ltac fixed_value Hr n :=
  match type of Hr with rest_at _ _ ((?tag :: ?u) ++ _) =>
    let Eb := fresh in let Et := fresh in let Ez := fresh in
    destruct (decode_fixed _ _ tag u _ n Hr) as (Eb & Et & _ & Ez); [first [symmetry; apply zlen_signed_to_le|symmetry; apply zlen_le_bytes|done]|];
    rewrite Eb; cbn [ok_or mbind outcome_bind]; rewrite Et; cbn [mbind outcome_bind]; rewrite Ez
  end.

Lemma decode_encode_vector col vs bytes pos r : has_type (col_ty col) (LVector vs) →
  rest_at bytes pos (encode_value (LVector vs) ++ r) →
  decode_value_at bytes pos col = Ok (LVector vs, pos + zlen (encode_value (LVector vs))).
Proof.
  intros [[Hf Hl] Ht] Hr. pose proof (zlen_nonneg vs). cbn [encode_value] in *. unfold decode_value_at.
  cbn [app] in Hr. rewrite <- app_assoc in Hr.
  destruct (decode_fixed bytes pos 5 (u32_to_le (u32 (zlen vs))) (flat_map (le_bytes 4) vs ++ r) 4 Hr eq_refl) as (Eb & Et & Hr' & _).
  rewrite Eb. cbn [ok_or mbind outcome_bind]. rewrite Et. cbn [mbind outcome_bind]. rewrite u32_small, u32_from_to_le by lia.
  assert ((match col_ty col with
    | TVector n => if decide (zlen vs ≠ n) then Err (row_error "vector dimension") else Ok ()
    | _ => Ok () end : Result ()) = Ok ()) as ->.
  { destruct (col_ty col); try done. rewrite decide_False by (simpl in Ht; lia). done. }
  cbn [mbind outcome_bind]. rewrite (Nat2Z.id (length vs) : Z.to_nat (zlen vs) = length vs).
  rewrite (decode_floats_rest vs bytes (pos + 1 + 4) r Hf Hr').
  cbn [mbind outcome_bind]. f_equal. apply (f_equal2 pair); [done|].
  rewrite zlen_cons, zlen_app, zlen_flat_le. unfold u32_to_le. len.
Qed.

Lemma decode_encode_decimal col d sc bytes pos r : has_type (col_ty col) (LDecimal d sc) →
  rest_at bytes pos (encode_value (LDecimal d sc) ++ r) →
  decode_value_at bytes pos col = Ok (LDecimal d sc, pos + zlen (encode_value (LDecimal d sc))).
Proof.
  intros [[Hd Hs] Ht] Hr. cbn [encode_value] in *. unfold decode_value_at. cbn [app] in Hr. rewrite <- app_assoc in Hr.
  destruct (decode_fixed bytes pos 6 (signed_to_le 16 d) ([sc] ++ r) 16 Hr) as (Eb & Et & Hr' & _); [done|].
  rewrite Eb. cbn [ok_or mbind outcome_bind]. rewrite Et. cbn [mbind outcome_bind]. rewrite (get_byte_rest _ _ _ _ Hr'). cbn [ok_or mbind outcome_bind].
  assert ((match col_ty col with
    | TDecimal _ s => if decide (sc ≠ s) then Err (row_error "decimal scale") else Ok ()
    | _ => Ok () end : Result ()) = Ok ()) as ->.
  { destruct (col_ty col); try done. rewrite decide_False; [done|]. simpl in Ht. destruct Ht as [-> _]. auto. }
  cbn [mbind outcome_bind]. rewrite signed_roundtrip by (unfold in_i128 in Hd; cbn; lia).
  f_equal. apply (f_equal2 pair); [done|]. rewrite zlen_cons, zlen_app, zlen_signed_to_le. change (zlen [sc]) with 1. lia.
Qed.

Lemma decode_encode_value col v bytes pos r : has_type (col_ty col) v → rest_at bytes pos (encode_value v ++ r) →
  decode_value_at bytes pos col = Ok (v, pos + zlen (encode_value v)) ∧ 0 ≤ pos < zlen bytes.
Proof.
  intros Hty Hr.
  assert (0 ≤ pos < zlen bytes) as Hp by (destruct v; cbn [encode_value app] in Hr; eapply rest_at_in, Hr).
  split; [|done]. pose proof Hty as [Hv Ht].
  destruct v as [n|s|b|s|vs|d sc|n|f|b|b|d|n| |]; cbn [lit_ok] in Hv;
    [..|destruct (col_ty col); done|]; [| | | |by eapply decode_encode_vector|by eapply decode_encode_decimal|..];
    unfold decode_value_at; cbn [encode_value] in *.
  - fixed_value Hr 8. rewrite signed_roundtrip by (unfold in_i64 in Hv; cbn; lia). done.
  - destruct Hv as (_ & Hu & Hl). destruct (decode_blob _ _ _ _ _ "truncated length" "truncated string" Hl Hr)
      as (-> & (lr & Elr & El) & E2 & _). cbn [ok_or mbind outcome_bind]. rewrite Elr. cbn [mbind outcome_bind].
    rewrite El, E2. cbn [mbind outcome_bind]. by rewrite Hu.
  - destruct (decode_fixed bytes pos 3 [if b then 1 else 0] r 1 Hr eq_refl) as (-> & _).
    cbn [ok_or mbind outcome_bind]. rewrite (get_byte_rest _ _ _ _ (rest_at_cons _ _ _ _ Hr)).
    cbn [ok_or mbind outcome_bind]. destruct b; do 2 f_equal; unfold zlen; simpl; lia.
  - destruct Hv as (_ & Hu & Hl). destruct (decode_blob _ _ _ _ _ "truncated length" "truncated string" Hl Hr)
      as (-> & (lr & Elr & El) & E2 & _). cbn [ok_or mbind outcome_bind]. rewrite Elr. cbn [mbind outcome_bind].
    rewrite El, E2. cbn [mbind outcome_bind]. by rewrite Hu.
  - fixed_value Hr 8. rewrite signed_roundtrip by (unfold in_i64 in Hv; cbn; lia). done.
  - fixed_value Hr 8. rewrite le_value_le_bytes, Z.mod_small by (cbn; lia). done.
  - destruct Hv as [_ Hl]. fixed_value Hr 16. done.
  - destruct Hv as (_ & Hl). destruct (decode_blob _ _ _ _ _ "truncated bytea length" "truncated bytea" Hl Hr)
      as (-> & (lr & Elr & El) & E2 & _). cbn [ok_or mbind outcome_bind]. rewrite Elr. cbn [mbind outcome_bind].
    rewrite El, E2. done.
  - fixed_value Hr 4. rewrite signed_roundtrip by (cbn; lia). done.
  - fixed_value Hr 8. rewrite signed_roundtrip by (unfold in_i64 in Hv; cbn; lia). done.
  - rewrite (get_byte_rest _ _ _ _ Hr). done.
Qed.

(** ** Skipping a value *)

Lemma take_n_inv b pos n what u pos' : take_n b pos n what = Ok (u, pos') →
  pos' = pos + n ∧ u = sub b pos n ∧ 0 ≤ n ∧ get_range b pos (pos + n) = Some u.
Proof.
  unfold take_n, get_range. case_decide; [|done]. cbn. intros [= <- <-].
  replace (pos + n - pos) with n by lia. split_and!; (done || lia).
Qed.

Lemma decode_floats_end n b pos vs pos' : decode_floats n b pos = Ok (vs, pos') → pos' = pos + 4 * Z.of_nat n.
Proof.
  revert pos vs pos'. induction n as [|n IH]; intros pos vs pos'; cbn [decode_floats].
  - intros [= _ <-]. lia.
  - intros Hd. inv_bind Hd. destruct a as [raw p]. inv_bind Hd. destruct a as [vs' p']. injection Hd as <- <-.
    apply take_n_inv in E as (-> & _). apply IH in E0. lia.
Qed.

Lemma le_value_nonneg u : bytes u → 0 ≤ le_value u.
Proof. intros Hu. pose proof (le_value_bounds u Hu). lia. Qed.

(** Every value that decodes is skipped to the same position. *)
Lemma decode_skip b pos col v pos' : bytes b →
  decode_value_at b pos col = Ok (v, pos') → skip_value_at b pos = Ok pos' ∧ pos < zlen b.
Proof.
  intros Hb. unfold decode_value_at, skip_value_at. intros Hd. inv_bind Hd.
  assert (pos < zlen b) as Hp.
  { destruct (get_byte b pos) eqn:Eg; [|done]. unfold get_byte in Eg. destruct (decide (0 ≤ pos)); [|done].
    apply lookup_lt_Some in Eg. unfold zlen. lia. }
  split; [|done]. cbn [mbind outcome_bind].
  assert (∀ p n w u q, take_n b p n w = Ok (u, q) → 0 ≤ u32_from_le u) as Hn.
  { intros p n w u q (_ & -> & _)%take_n_inv. apply le_value_nonneg. by apply Forall_sub. }
  repeat (case_match; try discriminate Hd).
  all: inv_chain Hd; injection Hd as <- <-; subst.
  all: repeat match goal with
    | H : take_n _ _ _ _ = Ok _ |- _ => pose proof (Hn _ _ _ _ _ H); apply take_n_inv in H as (-> & _ & _ & ?)
    | H : decode_floats _ _ _ = Ok _ |- _ => apply decode_floats_end in H as ->
    end.
  all: try done; try (f_equal; lia).
  all: unfold take_n; repeat match goal with H : get_range _ _ _ = Some _ |- _ => rewrite H; clear H end.
  all: cbn [ok_or mbind outcome_bind]; f_equal; lia.
Qed.

Section rows.
Context `{!SerdeJson}.

Lemma decode_columns_end b pos columns : zlen b ≤ pos →
  decode_columns b pos columns = Ok (missing_column_default <$> columns).
Proof.
  intros Hp. induction columns as [|c cs IH]; cbn [decode_columns]; [done|].
  rewrite decide_True, IH by done. done.
Qed.

Lemma decode_columns_encoded b pos columns row added :
  row_typed columns row → rest_at b pos (encode_row row) →
  decode_columns b pos (columns ++ added) = Ok (row ++ (missing_column_default <$> added)).
Proof.
  intros Ht. revert pos. induction Ht as [|c v cs row Hv Ht IH]; intros pos Hr; cbn [app].
  - apply decode_columns_end. apply rest_at_end in Hr. lia.
  - cbn [encode_row flat_map] in Hr. destruct (decode_encode_value c v b pos _ Hv Hr) as [Ed Hp].
    cbn [decode_columns]. rewrite decide_False by lia. rewrite Ed. cbn [mbind outcome_bind].
    rewrite (IH _ (rest_at_app _ _ _ _ _ Hr eq_refl)). done.
Qed.

Lemma decode_encode_row columns added row : row_typed columns row →
  decode_row (encode_row row) (columns ++ added) = Ok (row ++ (missing_column_default <$> added)).
Proof. intros Ht. apply decode_columns_encoded; [done|]. by exists []. Qed.

(** ** Partial decoding *)

Lemma decode_columns_length b pos columns row : decode_columns b pos columns = Ok row → length row = length columns.
Proof.
  revert pos row. induction columns as [|c cs IH]; intros pos row; cbn [decode_columns]; [by intros [= <-]|].
  case_decide; intros Hd; [inv_bind Hd; injection Hd as <-; simpl; by rewrite (IH _ _ E)|].
  inv_bind Hd. destruct a as [v p]. inv_bind Hd. injection Hd as <-. simpl. by rewrite (IH _ _ E0).
Qed.

(** The needed columns up to [upto], the others null; [i] is the index of the first. *)
Fixpoint mask (i upto : nat) (needed : list bool) (row : list Literal) : list Literal :=
  match row with
  | [] => []
  | v :: row =>
      (if bool_decide (i ≤ upto)%nat && default false (needed !! i) then v else LNull) :: mask (S i) upto needed row
  end.

Lemma mask_beyond i upto needed row : (upto < i)%nat → mask i upto needed row = replicate (length row) LNull.
Proof.
  revert i. induction row as [|v row IH]; intros i Hi; cbn [mask]; [done|].
  rewrite bool_decide_eq_false_2 by lia. cbn. by rewrite IH by lia.
Qed.

Lemma lookup_mask i upto needed row j :
  mask i upto needed row !! j =
  (λ v, if bool_decide (i + j ≤ upto)%nat && default false (needed !! (i + j)%nat) then v else LNull) <$> row !! j.
Proof.
  revert i j. induction row as [|v row IH]; intros i [|j]; cbn [mask lookup list_lookup]; try done.
  - by rewrite Nat.add_0_r.
  - rewrite IH. replace (S i + j)%nat with (i + S j)%nat by lia. done.
Qed.

Lemma deform_columns_masks b pos i columns upto needed row : bytes b →
  (i + length columns = length needed)%nat → decode_columns b pos columns = Ok row →
  deform_columns b pos i columns upto needed = Ok (mask i upto needed row).
Proof.
  intros Hb. revert pos i row. induction columns as [|c cs IH]; intros pos i row Hl Hd; cbn [deform_columns].
  - injection Hd as <-. done.
  - case_decide as Hi.
    { rewrite mask_beyond by done. by rewrite (decode_columns_length _ _ _ _ Hd). }
    destruct (lookup_lt_is_Some_2 needed i ltac:(simpl in Hl; lia)) as [n En].
    assert (index needed (Z.of_nat i) = (Ok n : Result bool)) as Ex.
    { unfold index. rewrite decide_True, Nat2Z.id, En by lia. done. }
    cbn [decode_columns] in Hd. case_decide as Hp.
    + inv_bind Hd. injection Hd as <-. rewrite Ex. cbn [mbind outcome_bind].
      rewrite (IH pos (S i) _ ltac:(simpl in Hl; lia) E). cbn [mask mbind outcome_bind].
      rewrite bool_decide_eq_true_2, En by lia. done.
    + inv_bind Hd. destruct a as [v p]. inv_bind Hd. injection Hd as <-. rewrite Ex. cbn [mbind outcome_bind].
      cbn [mask]. rewrite bool_decide_eq_true_2, En by lia. cbn [default andb from_option].
      destruct n; [|destruct (decode_skip _ _ _ _ _ Hb E) as [-> _]]; cbn [mbind outcome_bind];
        rewrite (IH p (S i) _ ltac:(simpl in Hl; lia) E0); done.
Qed.

Lemma deform_row_masks b columns upto needed row : bytes b → length needed = length columns →
  decode_row b columns = Ok row → deform_row b columns upto needed = Ok (mask 0 upto needed row).
Proof. intros Hb Hl. by apply deform_columns_masks. Qed.

(** The mask keeps the columns asked for. *)
Lemma needed_loop_spec cols ncols needed upto needed' upto' : length needed = ncols →
  needed_loop cols ncols needed upto = (needed', upto') →
  length needed' = ncols ∧ (upto ≤ upto')%nat ∧
  (∀ c, needed !! c = Some true → needed' !! c = Some true) ∧
  (∀ c, c ∈ cols → (c < ncols)%nat → needed' !! c = Some true ∧ (c ≤ upto')%nat).
Proof.
  revert needed upto. induction cols as [|c cs IH]; intros needed upto Hl; cbn [needed_loop].
  - intros [= <- <-]. split_and!; try done; intros c Hc; by apply not_elem_of_nil in Hc.
  - case_decide as Hc.
    + intros Hn. destruct (IH (<[c:=true]> needed) (upto `max` c)%nat) as (H1 & H2 & H3 & H4); [by rewrite length_insert|done|].
      split_and!; [done|lia| |].
      * intros d Hd. apply H3. destruct (decide (c = d)) as [->|]; [by rewrite list_lookup_insert_eq by lia|].
        by rewrite list_lookup_insert_ne.
      * intros d [->|Hd]%elem_of_cons Hlt; [|by apply H4]. split; [|lia].
        apply H3. by rewrite list_lookup_insert_eq by lia.
    + intros Hn. destruct (IH needed upto Hl Hn) as (H1 & H2 & H3 & H4). split_and!; try done.
      intros d [->|Hd]%elem_of_cons Hlt; [lia|by apply H4].
Qed.

Lemma needed_mask_spec cols ncols needed upto : needed_mask cols ncols = (needed, upto) →
  length needed = ncols ∧ ∀ c, c ∈ cols → (c < ncols)%nat → needed !! c = Some true ∧ (c ≤ upto)%nat.
Proof.
  intros Hn. destruct (needed_loop_spec cols ncols (replicate ncols false) 0 needed upto) as (? & _ & _ & ?);
    [by rewrite length_replicate|done|done].
Qed.

Lemma lookup_mask_needed cols ncols needed upto row c : needed_mask cols ncols = (needed, upto) →
  length row = ncols → c ∈ cols → mask 0 upto needed row !! c = row !! c.
Proof.
  intros Hn Hl Hc. apply needed_mask_spec in Hn as [_ Hn]. rewrite lookup_mask. cbn [Nat.add].
  destruct (row !! c) eqn:Er; [|done]. apply lookup_lt_Some in Er. destruct (Hn c Hc ltac:(lia)) as [-> ?].
  rewrite bool_decide_eq_true_2 by lia. done.
Qed.

Lemma length_mask i upto needed row : length (mask i upto needed row) = length row.
Proof. revert i. induction row as [|v row IH]; intros i; simpl; auto. Qed.

(** ** Raw reads *)

Lemma decode_fixed_stride b pos col v pos' tag stride :
  decode_value_at b pos col = Ok (v, pos') → get_byte b pos = Some tag → fixed_stride tag = Some stride →
  bytes b → pos' = pos + (1 + stride).
Proof.
  intros Hd Hg Hs Hb. destruct (decode_skip _ _ _ _ _ Hb Hd) as [Hk _].
  unfold skip_value_at in Hk. rewrite Hg in Hk. cbn [ok_or mbind outcome_bind] in Hk.
  unfold fixed_stride in Hs. repeat (case_match; try discriminate Hs); injection Hs as <-; injection Hk as <-; lia.
Qed.

Lemma raw_i64_from_exact b pos idx columns row n : bytes b → decode_columns b pos columns = Ok row →
  raw_i64_from b pos idx columns = Some n → row !! idx = Some (LInt n).
Proof.
  intros Hb. revert pos idx row. induction columns as [|c cs IH]; intros pos idx row Hd; cbn [raw_i64_from]; [done|].
  cbn [decode_columns] in Hd. case_decide as Hp; [done|].
  inv_bind Hd. destruct a as [v p]. inv_bind Hd. injection Hd as <-.
  destruct (get_byte b pos) as [tag|] eqn:Eg; [|done]. cbn [mbind option_bind]. destruct idx as [|idx].
  - case_decide as Ht; [|done]. subst tag. unfold decode_value_at in E. rewrite Eg in E. cbn [ok_or mbind outcome_bind] in E.
    unfold take_n in E. replace (pos + 1 + 8) with (pos + 9) in E by lia.
    destruct (get_range b (pos + 1) (pos + 9)); [|done]. cbn [ok_or mbind outcome_bind option_bind] in E |- *.
    intros [= <-]. injection E as Ev _. by rewrite <- Ev.
  - destruct (fixed_stride tag) as [stride|] eqn:Es; [|done]. cbn [mbind option_bind].
    rewrite <- (decode_fixed_stride _ _ _ _ _ _ _ E Eg Es Hb). exact (IH p idx a E0).
Qed.

Lemma try_raw_exact b idx columns row n : bytes b → decode_row b columns = Ok row →
  try_raw_i64_at b idx columns = Some n → row !! idx = Some (LInt n).
Proof. apply raw_i64_from_exact. Qed.

(** C16: A row that passes coercion and is encoded for the heap decodes to itself, also
    after columns were added to the table: those have their defaults. *)
Theorem stored_row_roundtrip columns added values row :
  Forall (λ c, type_ok (col_ty c)) columns → Forall lit_ok values → length values = length columns →
  coerce_and_validate_row columns values = Ok row →
  decode_row (encode_row row) (columns ++ added) = Ok (row ++ (missing_column_default <$> added)).
Proof. intros Hc Hv Hl Hr. by apply decode_encode_row, (coerce_row_typed columns values). Qed.

End rows.

Lemma stored_row_roundtrip_witness :
  @decode_row no_json (encode_row w_coerced) (w_columns ++ [plain_column "note" TText]) = Ok (w_coerced ++ [LNull]).
Proof.
  apply (@stored_row_roundtrip no_json w_columns [plain_column "note" TText] w_values w_coerced);
    [apply w_columns_ok|apply w_values_ok|done|]. vm_compute. done.
Defined.
