(* ===== verification/SortBy.v ===== *)
(** Stable sorting: [slice::sort_by], merging of sorted runs, and when a comparison is a
    total preorder on a list. *)

From stdpp Require Import base numbers sets list sorting.
From Stdlib Require Import Lia.
From S2P Require Import Prelude.

(** [slice::sort_by]: every stable sort gives this list when the order is consistent. *)
Fixpoint insert_by {A} (cmp : A → A → comparison) (x : A) (l : list A) : list A :=
  match l with
  | [] => [x]
  | y :: l' => match cmp y x with Lt => y :: insert_by cmp x l' | _ => x :: l end
  end.
Definition sort_by {A} (cmp : A → A → comparison) (l : list A) : list A := foldr (insert_by cmp) [] l.

(** Two sorted lists into one; of equal elements those of the first come first. *)
Fixpoint merge_by {A} (cmp : A → A → comparison) (l k : list A) : list A :=
  match l with
  | [] => k
  | x :: l' =>
      (fix go (k : list A) : list A :=
         match k with
         | [] => x :: l'
         | y :: k' => match cmp x y with Gt => y :: go k' | _ => x :: merge_by cmp l' k end
         end) k
  end.

(** ** Filters *)

Lemma filter_all {A} (P : A → Prop) `{!∀ x, Decision (P x)} (l : list A) : (∀ x, P x) → filter P l = l.
Proof. intros HP. induction l as [|x l IH]; [done|]. by rewrite filter_cons_True, IH. Qed.

Lemma filter_ext_elem {A} (P Q : A → Prop) `{!∀ x, Decision (P x), !∀ x, Decision (Q x)} (l : list A) :
  (∀ x, x ∈ l → P x ↔ Q x) → filter P l = filter Q l.
Proof.
  intros HP. induction l as [|x l IH]; [done|]. rewrite !filter_cons, IH by (intros y Hy; apply HP; by right).
  apply decide_ext, HP. by left.
Qed.

Lemma Forall_subseteq {A} (P : A → Prop) (k l : list A) : k ⊆ l → Forall P l → Forall P k.
Proof. rewrite !Forall_forall. auto. Qed.

Section sort.
Context {A : Type} (cmp : A → A → comparison).

Lemma insert_by_perm x l : insert_by cmp x l ≡ₚ x :: l.
Proof. induction l as [|y l IH]; [done|]. cbn. destruct (cmp y x); [done| |done]. rewrite IH. apply Permutation_swap. Qed.

Lemma sort_by_perm l : sort_by cmp l ≡ₚ l.
Proof. induction l as [|x l IH]; [done|]. cbn. rewrite insert_by_perm. by rewrite <- IH at 2. Qed.

(** The order is consistent on these values. *)
Definition ord_on (l : list A) : Prop :=
  (∀ a b, a ∈ l → b ∈ l → cmp a b = CompOpp (cmp b a)) ∧
  (∀ a b c, a ∈ l → b ∈ l → c ∈ l → cmp a b ≠ Gt → cmp b c ≠ Gt → cmp a c ≠ Gt).

Lemma ord_on_subset l k : l ⊆ k → ord_on k → ord_on l.
Proof. intros Hs [H1 H2]. split; intros; [apply H1|eapply H2; [| |..|eassumption|]]; auto. Qed.

Lemma insert_by_sorted x l : ord_on (x :: l) → StronglySorted (λ a b, cmp a b ≠ Gt) l →
  StronglySorted (λ a b, cmp a b ≠ Gt) (insert_by cmp x l).
Proof.
  intros Ho Hs. induction Hs as [|y l Hs IH Hy]; cbn; [by repeat constructor|].
  assert (ord_on (x :: l)) as Ho' by (eapply ord_on_subset, Ho; set_solver). destruct Ho as [Ho Ht].
  destruct (cmp y x) eqn:E.
  2: { constructor; [by apply IH|]. rewrite insert_by_perm. constructor; [congruence|done]. }
  all: assert (cmp x y ≠ Gt) as Hxy by (rewrite Ho by set_solver; rewrite E; done).
  all: constructor; [by constructor|]; constructor; [done|]; rewrite Forall_forall in Hy |- *; intros z Hz;
    eapply (Ht x y z); [set_solver..|done|by apply Hy].
Qed.

Lemma sort_by_sorted l : ord_on l → StronglySorted (λ a b, cmp a b ≠ Gt) (sort_by cmp l).
Proof.
  induction l as [|x l IH]; intros Ho; [constructor|]. cbn. apply insert_by_sorted.
  - eapply ord_on_subset, Ho. intros y [->|Hy]%elem_of_cons; [by left|]. right.
    fold (sort_by cmp l) in Hy. by rewrite sort_by_perm in Hy.
  - apply IH. eapply ord_on_subset, Ho. set_solver.
Qed.

(** Equal elements keep their order. *)
Lemma insert_by_filter P `{!∀ x, Decision (P x)} x l : ord_on (x :: l) → (∀ y, y ∈ l → P x → P y → cmp y x = Eq) →
  filter P (insert_by cmp x l) = filter P (x :: l).
Proof.
  intros Ho. induction l as [|y l IH]; intros He; [done|]. cbn [insert_by].
  destruct (cmp y x) eqn:E; [done| |done]. rewrite !filter_cons. rewrite IH; [|eapply ord_on_subset, Ho; set_solver|set_solver].
  rewrite filter_cons. destruct (decide (P x)), (decide (P y)); try done. specialize (He y ltac:(left) ltac:(done) ltac:(done)). congruence.
Qed.

Lemma sort_by_stable P `{!∀ x, Decision (P x)} l : ord_on l → (∀ x y, x ∈ l → y ∈ l → P x → P y → cmp x y = Eq) →
  filter P (sort_by cmp l) = filter P l.
Proof.
  induction l as [|x l IH]; intros Ho He; [done|]. cbn [sort_by foldr]. fold (sort_by cmp l).
  rewrite insert_by_filter.
  - rewrite !filter_cons, IH; [done|eapply ord_on_subset, Ho; set_solver|set_solver].
  - eapply ord_on_subset, Ho. intros y [->|Hy]%elem_of_cons; [by left|]. right. by rewrite sort_by_perm in Hy.
  - intros y Hy Hx Hp. rewrite sort_by_perm in Hy. apply He; [by right|by left|done..].
Qed.

(** Counting by position in a sorted list. *)
Lemma sorted_count (R : A → A → Prop) P `{!∀ x, Decision (P x)} l : StronglySorted R l →
  (∀ x y, x ∈ l → y ∈ l → R x y → P y → P x) →
  ∀ i x, l !! i = Some x → (P x → (i < length (filter P l))%nat) ∧ (¬ P x → (length (filter P l) ≤ i)%nat).
Proof.
  intros Hs Hd. induction Hs as [|y l Hs IH Hy]; intros i x; [done|]. rewrite Forall_forall in Hy.
  specialize (IH ltac:(intros; eapply Hd; [by right|by right|done..])).
  rewrite filter_cons. destruct i as [|i]; cbn [lookup list_lookup].
  - intros [= ->]. split; intros Hp; [rewrite decide_True by done; cbn; lia|]. rewrite decide_False by done.
    assert (filter P l = []) as ->; [|done]. apply list_nil_subseteq. intros z [Hz Hin]%list_elem_of_filter.
    destruct Hp. eapply (Hd x z); [by left|by right|by apply Hy|done].
  - intros Hx. destruct (IH i x Hx) as [H1 H2]. pose proof (list_elem_of_lookup_2 _ _ _ Hx) as Hin. split; intros Hp.
    + rewrite decide_True; [cbn; specialize (H1 Hp); lia|]. eapply (Hd y x); [by left|by right|by apply Hy|done].
    + specialize (H2 Hp). case_decide; cbn; lia.
Qed.

(** ** Merging *)

Lemma merge_by_nil_r l : merge_by cmp l [] = l.
Proof. by destruct l. Qed.

Lemma merge_by_cons x l y k : merge_by cmp (x :: l) (y :: k) =
  match cmp x y with Gt => y :: merge_by cmp (x :: l) k | _ => x :: merge_by cmp l (y :: k) end.
Proof. done. Qed.

Lemma merge_by_insert x l k : ord_on (x :: l ++ k) →
  StronglySorted (λ a b, cmp a b ≠ Gt) l → StronglySorted (λ a b, cmp a b ≠ Gt) k →
  insert_by cmp x (merge_by cmp l k) = merge_by cmp (insert_by cmp x l) k.
Proof.
  intros Ho Hl. revert k Ho. induction Hl as [|y l Hl IHl Hy]; intros k Ho Hk.
  - cbn [insert_by]. cbn [merge_by]. induction Hk as [|z k Hk IH Hz]; [done|]. cbn [insert_by].
    destruct Ho as [Ha Ht]. rewrite (Ha x z) by set_solver. destruct (cmp z x) eqn:E; cbn; [done| |done].
    f_equal. apply IH. eapply ord_on_subset; [|by split]. set_solver.
  - assert (∀ k', k' ⊆ k → ord_on (x :: l ++ k')) as Ho' by (intros k' Hs; eapply ord_on_subset, Ho; set_solver).
    induction Hk as [|z k Hk IH Hz]; [by rewrite !merge_by_nil_r|].
    assert (ord_on (x :: (y :: l) ++ k)) as Hok by (eapply ord_on_subset, Ho; set_solver).
    specialize (IH Hok ltac:(intros k' Hs; apply Ho'; set_solver)).
    pose proof Ho as [Ha Ht]. rewrite merge_by_cons. cbn [insert_by].
    destruct (cmp y z) eqn:Eyz.
    3: { (* z first *) cbn [insert_by]. destruct (cmp z x) eqn:Ezx.
         - assert (cmp y x ≠ Lt) as Hyx.
           { intros Hlt. assert (cmp z y = Lt) as Hzy by (rewrite Ha by set_solver; by rewrite Eyz).
             assert (cmp x y = Gt) by (rewrite Ha by set_solver; by rewrite Hlt).
             assert (cmp x z ≠ Gt) by (rewrite Ha by set_solver; by rewrite Ezx).
             destruct (Ht x z y ltac:(set_solver) ltac:(set_solver) ltac:(set_solver) ltac:(done) ltac:(congruence)). done. }
           assert (cmp x z = Eq) as Exz by (rewrite Ha by set_solver; by rewrite Ezx).
           destruct (cmp y x) eqn:Eyx; [|done|]; rewrite merge_by_cons, Exz, merge_by_cons, Eyz; done.
         - rewrite IH. cbn [insert_by].
           destruct (cmp y x) eqn:Eyx; rewrite merge_by_cons.
           + rewrite (Ha x z), Ezx by set_solver. done.
           + rewrite Eyz. done.
           + rewrite (Ha x z), Ezx by set_solver. done.
         - assert (cmp x z = Lt) as Exz by (rewrite Ha by set_solver; by rewrite Ezx).
           assert (cmp y x ≠ Lt) as Hyx.
           { intros Hlt. destruct (Ht y x z ltac:(set_solver) ltac:(set_solver) ltac:(set_solver) ltac:(congruence) ltac:(congruence)). done. }
           destruct (cmp y x) eqn:Eyx; [|done|]; rewrite merge_by_cons, Exz, merge_by_cons, Eyz; done. }
    all: cbn [insert_by]; destruct (cmp y x) eqn:Eyx.
    all: try (rewrite merge_by_cons, Eyz; f_equal; rewrite IHl by (first [done|apply Ho'; set_solver|by constructor]); done).
    all: assert (cmp x y ≠ Gt) as Hxy by (rewrite Ha by set_solver; rewrite Eyx; done);
         assert (cmp x z ≠ Gt) as Hxz by (eapply (Ht x y z); [set_solver..|done|congruence]);
         rewrite merge_by_cons; destruct (cmp x z); [|..|done]; by rewrite merge_by_cons, Eyz.
Qed.

Lemma sort_by_app l k : ord_on (l ++ k) → sort_by cmp (l ++ k) = merge_by cmp (sort_by cmp l) (sort_by cmp k).
Proof.
  induction l as [|x l IH]; intros Ho; [done|]. cbn [app] in Ho. cbn [app sort_by foldr]. fold (sort_by cmp (l ++ k)) (sort_by cmp l).
  assert (ord_on (l ++ k)) as Ho' by (eapply ord_on_subset, Ho; set_solver).
  rewrite IH by done. apply merge_by_insert.
  - eapply ord_on_subset, Ho. intros y. rewrite !elem_of_cons, !elem_of_app, !sort_by_perm. tauto.
  - apply sort_by_sorted. eapply ord_on_subset, Ho'. set_solver.
  - apply sort_by_sorted. eapply ord_on_subset, Ho'. set_solver.
Qed.

End sort.

(** ** Orders *)

(** [Ordering::then] *)
Definition then_cmp (c d : comparison) : comparison := match c with Eq => d | _ => c end.

Lemma ord_on_then {A} (f g : A → A → comparison) l :
  ord_on f l → ord_on g l → ord_on (λ a b, then_cmp (f a b) (g a b)) l.
Proof.
  intros [Fa Ft] [Ga Gt']. split.
  - intros a b Ha Hb. rewrite (Fa a b), (Ga a b) by done. by destruct (f b a).
  - intros a b c Ha Hb Hc. pose proof (Ft a b c Ha Hb Hc) as Hac. pose proof (Ft c a b Hc Ha Hb) as Hcb.
    pose proof (Ft b c a Hb Hc Ha) as Hba. specialize (Gt' a b c Ha Hb Hc).
    rewrite (Fa c a), (Fa c b) in Hcb by done. rewrite (Fa c a), (Fa b a) in Hba by done.
    destruct (f a b), (f b c), (f a c); cbn in *; try done; try (by apply Gt'); exfalso; first [by apply Hac|by apply Hcb|by apply Hba].
Qed.

Lemma ord_on_map {A B} (f : A → B) cmp (l : list A) : ord_on cmp (f <$> l) → ord_on (λ a b, cmp (f a) (f b)) l.
Proof.
  intros [Ha Ht]. split; intros.
  - apply Ha; by apply list_elem_of_fmap_2.
  - eapply (Ht _ (f b)); try by apply list_elem_of_fmap_2. all: done.
Qed.

Lemma ord_on_opp {A} (cmp : A → A → comparison) l : ord_on cmp l → ord_on (λ a b, CompOpp (cmp a b)) l.
Proof.
  intros [Ha Ht]. split; [intros; by rewrite Ha|]. intros a b c Hia Hib Hic. rewrite <- !Ha by done. eauto.
Qed.

Lemma ord_on_trivial {A} (l : list A) : ord_on (λ _ _, Eq) l.
Proof. done. Qed.

Lemma ord_on_ext {A} (f g : A → A → comparison) l : (∀ a b, a ∈ l → b ∈ l → f a b = g a b) → ord_on f l → ord_on g l.
Proof.
  intros He [Ha Ht]. split; intros.
  - rewrite <- !He by done. by apply Ha.
  - rewrite <- He in * by done. by eapply (Ht a b c).
Qed.

(** ** Merging many runs *)

Definition merge_all {A} (cmp : A → A → comparison) (runs : list (list A)) : list A := foldr (merge_by cmp) [] runs.

Lemma merge_all_head {A} (cmp : A → A → comparison) runs x l : merge_all cmp runs = x :: l →
  ∃ run, run ∈ runs ∧ head run = Some x.
Proof.
  revert x l. induction runs as [|run runs IH]; intros x l; [done|]. cbn. fold (merge_all cmp runs).
  destruct run as [|y run]; [intros H; destruct (IH x l H) as (r & ? & ?); exists r; split; [by right|done]|].
  destruct (merge_all cmp runs) as [|z k] eqn:E; [cbn; intros [= <- <-]; eexists; split; [by left|done]|].
  rewrite merge_by_cons. destruct (cmp y z); intros [= <- <-].
  1,2: eexists; split; [by left|done].
  destruct (IH z k) as (r & ? & ?); [done|]. exists r; split; [by right|done].
Qed.

(** Taking the smallest of the first elements, of the earliest run among equals. *)
Lemma merge_all_pop {A} (cmp : A → A → comparison) runs i x l :
  runs !! i = Some (x :: l) →
  (∀ j y k, runs !! j = Some (y :: k) → (j < i)%nat → cmp y x = Gt) →
  (∀ j y k, runs !! j = Some (y :: k) → (i < j)%nat → cmp x y ≠ Gt) →
  merge_all cmp runs = x :: merge_all cmp (<[i := l]> runs).
Proof.
  revert i. induction runs as [|run runs IH]; intros i; [done|]. destruct i as [|i]; cbn.
  - intros [= ->] _ Hgt. fold (merge_all cmp runs). destruct (merge_all cmp runs) as [|z k] eqn:E.
    + by destruct l.
    + rewrite merge_by_cons. destruct (merge_all_head _ _ _ _ E) as (r & [j Hj]%list_elem_of_lookup & Hr).
      destruct r as [|y r]; [done|]. injection Hr as ->. specialize (Hgt (S j) z r Hj ltac:(lia)). destruct (cmp x z); [done..|congruence].
  - intros Hi Hlt Hgt. fold (merge_all cmp runs) (merge_all cmp (<[i:=l]> runs)).
    rewrite (IH i Hi (λ j y k H1 H2, Hlt (S j) y k H1 ltac:(lia)) (λ j y k H1 H2, Hgt (S j) y k H1 ltac:(lia))).
    destruct run as [|y run]; [done|]. rewrite merge_by_cons. by rewrite (Hlt 0%nat y run eq_refl ltac:(lia)).
Qed.

Lemma merge_all_nil {A} (cmp : A → A → comparison) runs : Forall (λ r, r = []) runs → merge_all cmp runs = [].
Proof. induction 1 as [|r runs -> Hr IH]; [done|]. exact IH. Qed.

Lemma sort_by_concat {A} (cmp : A → A → comparison) ls : ord_on cmp (concat ls) →
  sort_by cmp (concat ls) = merge_all cmp (sort_by cmp <$> ls).
Proof.
  induction ls as [|l ls IH]; intros Ho; [done|]. cbn [concat] in *. rewrite fmap_cons, sort_by_app by done. cbn [merge_all foldr]. f_equal. apply IH.
  eapply ord_on_subset, Ho. set_solver.
Qed.

(** ** The least element *)

Definition keep_least {A} (cmp : A → A → comparison) (e : option A) (v : A) : option A :=
  match e with None => Some v | Some m => match cmp v m with Lt => Some v | _ => Some m end end.

Lemma keep_least_spec {A} (cmp : A → A → comparison) vs : ord_on cmp vs → vs ≠ [] →
  ∃ m, foldl (keep_least cmp) None vs = Some m ∧ m ∈ vs ∧ ∀ v, v ∈ vs → cmp m v ≠ Gt.
Proof.
  induction vs as [|v vs IH] using rev_ind; intros Ho Hne; [done|]. rewrite foldl_snoc.
  assert (cmp v v ≠ Gt) as Hv.
  { pose proof (proj1 Ho v v ltac:(set_solver) ltac:(set_solver)) as Hv. by destruct (cmp v v). }
  destruct (decide (vs = [])) as [->|Hvs].
  { exists v. split; [done|]. split; [by left|]. by intros w ->%list_elem_of_singleton. }
  destruct IH as (m & -> & Hm & Hb); [eapply ord_on_subset, Ho; set_solver|done|]. cbn.
  pose proof (proj1 Ho m v ltac:(set_solver) ltac:(set_solver)) as Ha. destruct (cmp v m) eqn:E.
  2: { exists v. split; [done|]. split; [set_solver|]. intros w [Hw| ->%list_elem_of_singleton]%elem_of_app; [|done].
       eapply (proj2 Ho v m w); [set_solver..| |by apply Hb]. by rewrite E. }
  all: exists m; split; [done|]; split; [set_solver|]; intros w [Hw| ->%list_elem_of_singleton]%elem_of_app; [by apply Hb|by rewrite Ha].
Qed.
