(* ===== verification/SqlStats.v ===== *)
(** Table statistics ([src/sql/statistics.rs]): what ANALYZE collects, how selectivity
    is estimated from it, and how far the histogram can be off. *)

From stdpp Require Import base numbers list gmap strings sorting.
From Stdlib Require Import Lia.
From S2P Require Import Prelude SortBy Format BTreeNode BTree Text Float Datetime SqlTypes SqlValue SqlRow.

Record ColumnStats := mkColumnStats {
  cs_distinct : Z;
  cs_null_count : Z;
  cs_min : option Literal;
  cs_max : option Literal;
  cs_bounds : list Literal
}.

Record TableStats := mkTableStats {
  ts_row_count : Z;
  ts_page_count : Z;
  ts_columns : gmap string ColumnStats
}.

Definition HISTOGRAM_BUCKETS : nat := 8.

(** ** Collecting *)

Definition literal_cmp (a b : Literal) : comparison := default Eq (literal_ord a b).

(** The position of the upper bound of bucket [b] of [buckets] over [n] values. *)
Definition bound_pos (n buckets b : nat) : nat := b * n / buckets - 1.

Definition bounds_of (values : list Literal) : Result (list Literal) :=
  match values with
  | [] => Ok []
  | _ =>
      let buckets := Nat.min HISTOGRAM_BUCKETS (length values) in
      for_each (λ out b, v ← index values (Z.of_nat (bound_pos (length values) buckets b)); Ok (out ++ [v]))
        [] (seq 1 buckets)
  end.

Definition column_stats (rows : list (list Literal)) (idx : nat) : Result ColumnStats :=
  '(keys, nulls, values) ← for_each (λ st row,
    let '(keys, nulls, values) := st in
    v ← index row (Z.of_nat idx);
    Ok (if is_null v then (keys, nulls + 1, values)
        else ({[encode_row [v]]} ∪ keys, nulls, values ++ [v]))) (∅ : gset (list Z), 0, []) rows;
  let values := sort_by literal_cmp values in
  bs ← bounds_of values;
  Ok (mkColumnStats (Z.of_nat (size keys)) nulls (head values) (last values) bs).

Definition compute (rows : list (list Literal)) (columns : list ColumnDef) : Result TableStats :=
  cols ← for_each (λ m p,
    if col_dropped p.2 then Ok m
    else cs ← column_stats rows p.1; Ok (<[col_name p.2 := cs]> m)) ∅ (imap pair columns);
  Ok (mkTableStats (Z.of_nat (length rows)) 0 cols).

(** ** Estimating *)

Definition f64_one : f64 := f64_of_int 1.
Definition f64_zero : f64 := f64_of_int 0.

(** [f64::max], [f64::clamp] *)
Definition f64_max (a b : f64) : f64 :=
  if f64_is_nan a then b else match f64_partial_cmp a b with Some Lt => b | _ => a end.
Definition f64_clamp (x lo hi : f64) : f64 :=
  match f64_partial_cmp x lo with
  | Some Lt => lo
  | _ => match f64_partial_cmp x hi with Some Gt => hi | _ => x end
  end.

(** The loop of [fraction_below]: the buckets counted so far, in floating point. *)
Fixpoint count_below (below : f64) (bs : list Literal) (value : Literal) : option f64 :=
  match bs with
  | [] => Some below
  | b :: bs =>
      match literal_ord b value with
      | None => None
      | Some Gt => Some below
      | Some _ => count_below (f64_add below f64_one) bs value
      end
  end.

Definition fraction_below (cs : ColumnStats) (value : Literal) : option f64 :=
  match cs_bounds cs with
  | [] => None
  | bs => (λ below, f64_clamp (f64_div below (f64_of_int (Z.of_nat (length bs)))) f64_zero f64_one) <$> count_below f64_zero bs value
  end.

Definition is_ord (o : comparison) (a b : Literal) : bool :=
  match literal_ord a b with Some c => match c, o with Lt, Lt | Gt, Gt => true | _, _ => false end | None => false end.

Definition eq_selectivity (cs : ColumnStats) (value : Literal) (frac_non_null : f64) : f64 :=
  if decide (cs_distinct cs = 0) then f64_zero
  else if (match cs_min cs, cs_max cs with
           | Some mn, Some mx => is_ord Lt value mn || is_ord Gt value mx
           | _, _ => false
           end) then f64_zero
  else f64_div frac_non_null (f64_of_int (cs_distinct cs)).

Definition selectivity (cs : ColumnStats) (op : CmpOp) (value : Literal) (total : Z) : option f64 :=
  if decide (total = 0) then Some f64_zero
  else
    let frac_non_null := f64_div (f64_of_int (Z.max 0 (total - cs_null_count cs))) (f64_of_int total) in
    let range (sel : f64 → f64) :=
      (λ below, f64_clamp (f64_mul (sel below) frac_non_null) f64_zero f64_one) <$> fraction_below cs value in
    match op with
    | CEq => Some (eq_selectivity cs value frac_non_null)
    | CNe => Some (f64_max (f64_sub f64_one (eq_selectivity cs value frac_non_null)) f64_zero)
    | CLt | CLe => range (λ below, below)
    | CGt | CGe => range (λ below, f64_sub f64_one below)
    end.

(** ** Choosing the index ([src/sql/executor.rs]) *)

Definition INDEX_RANGE_SELECTIVITY_MAX : f64 := default 0 (parse_f64 (lit "0.3")).
Definition HEAP_FETCH_SEQ_EQUIV : f64 := default 0 (parse_f64 (lit "0.012")).
Definition HEAP_FETCH_SEQ_EQUIV_SERIAL : f64 := default 0 (parse_f64 (lit "0.05")).
Definition BTREE_STARTUP_PAGES : f64 := f64_of_int 4.

Definition index_lookup_is_selective (stats : option TableStats) (hit : string * CmpOp * Literal) (parallel : bool) : bool :=
  let '(column, op, literal) := hit in
  if decide (op = CEq) then true
  else
    match stats with
    | None => false
    | Some stats =>
        match ts_columns stats !! column with
        | None => false
        | Some col_stats =>
            match selectivity col_stats op literal (ts_row_count stats) with
            | None => false
            | Some sel =>
                if decide (0 < ts_page_count stats) then
                  let fetch_cost := if parallel then HEAP_FETCH_SEQ_EQUIV else HEAP_FETCH_SEQ_EQUIV_SERIAL in
                  let matched_rows := f64_mul sel (f64_of_int (ts_row_count stats)) in
                  let index_cost := f64_add BTREE_STARTUP_PAGES (f64_mul matched_rows fetch_cost) in
                  match f64_partial_cmp (f64_of_int (ts_page_count stats)) index_cost with Some Gt => true | _ => false end
                else match f64_partial_cmp sel INDEX_RANGE_SELECTIVITY_MAX with Some (Lt | Eq) => true | _ => false end
            end
        end
    end.

(** The estimate [find_best_indexable_btree_predicate] compares. *)
Definition sel_of (stats : option TableStats) (hit : string * CmpOp * Literal) : f64 :=
  let '(column, op, literal) := hit in
  default f64_one (s ← stats; cs ← ts_columns s !! column; selectivity cs op literal (ts_row_count s)).

(** ** Histograms *)

Lemma bound_pos_lt n buckets b : (0 < n)%nat → (0 < buckets)%nat → (b ≤ buckets)%nat → (bound_pos n buckets b < n)%nat.
Proof.
  intros Hn Hb Hle. unfold bound_pos. assert (b * n / buckets ≤ n)%nat; [|lia].
  apply Nat.Div0.div_le_upper_bound. nia.
Qed.

Lemma bounds_of_spec values : ∃ bs, bounds_of values = Ok bs ∧
  length bs = Nat.min HISTOGRAM_BUCKETS (length values) ∧
  ∀ i b, bs !! i = Some b → values !! bound_pos (length values) (length bs) (S i) = Some b.
Proof.
  destruct values as [|v0 values']; [by exists []|]. unfold bounds_of. set (values := v0 :: values').
  set (buckets := Nat.min HISTOGRAM_BUCKETS (length values)).
  destruct (for_each_inv (E := DbError) (λ out b, v ← index values (Z.of_nat (bound_pos (length values) buckets b)); Ok (out ++ [v]))
    (λ pre out, Forall2 (λ b v, values !! bound_pos (length values) buckets b = Some v) pre out) [] (seq 1 buckets))
    as (bs & -> & HF); [constructor| |].
  - intros pre b post out Hs HF. assert (b ∈ seq 1 buckets) as Hb by (rewrite Hs; set_solver).
    apply elem_of_seq in Hb. destruct (lookup_lt_is_Some_2 values (bound_pos (length values) buckets b)) as [v Hv].
    { apply bound_pos_lt; unfold buckets, HISTOGRAM_BUCKETS in *; cbn in *; lia. }
    exists (out ++ [v]). unfold index. rewrite decide_True by lia. rewrite Nat2Z.id, Hv. split; [done|].
    apply Forall2_app; [done|]. by repeat constructor.
  - pose proof (Forall2_length _ _ _ HF) as Hl. rewrite length_seq in Hl. exists bs. split_and!; [done..|].
    intros i b Hb. destruct (Forall2_lookup_r _ _ _ _ _ HF Hb) as (x & Hx & Hv). apply lookup_seq in Hx as [-> _].
    by rewrite <- Hl.
Qed.

Lemma f64_count c : 0 ≤ c < 8 → f64_add (f64_of_int c) f64_one = f64_of_int (c + 1).
Proof. intros Hc. assert (c = 0 ∨ c = 1 ∨ c = 2 ∨ c = 3 ∨ c = 4 ∨ c = 5 ∨ c = 6 ∨ c = 7) as Hx by lia. destruct_or!; subst; vm_compute; done. Qed.

(** The loop counts the leading bounds that are not above the value. *)
Lemma count_below_spec v bs : ∀ c, (∀ b, b ∈ bs → is_Some (literal_ord b v)) → (c + length bs ≤ 8)%nat →
  ∃ k, (k ≤ length bs)%nat ∧ count_below (f64_of_int (Z.of_nat c)) bs v = Some (f64_of_int (Z.of_nat (c + k))) ∧
    (∀ i b, (i < k)%nat → bs !! i = Some b → literal_cmp b v ≠ Gt) ∧
    (∀ b, bs !! k = Some b → literal_cmp b v = Gt).
Proof.
  induction bs as [|b bs IH]; intros c Ho Hc; cbn in Hc.
  - exists 0%nat. rewrite Nat.add_0_r. split_and!; [done..|intros; lia|done].
  - destruct (Ho b) as [o E]; [by left|]. cbn [count_below]. rewrite E.
    destruct (decide (o = Gt)) as [->|Hne].
    + exists 0%nat. rewrite Nat.add_0_r. split_and!; [cbn; lia|done|intros; lia|]. intros b' [= <-]. unfold literal_cmp. by rewrite E.
    + destruct (IH (S c)) as (k & Hk & Hcnt & H1 & H2); [intros; apply Ho; by right|lia|].
      exists (S k). cbn [length]. split_and!; [lia| | |].
      * rewrite f64_count by lia. replace (Z.of_nat c + 1) with (Z.of_nat (S c)) by lia. rewrite Hcnt.
        replace (c + S k)%nat with (S c + k)%nat by lia. by destruct o.
      * intros [|i] b' Hi; cbn; [intros [= <-]; unfold literal_cmp; by rewrite E|]. apply H1. lia.
      * done.
Qed.

(** The values of a column: in every row, at its position. *)
Definition column_of (rows : list (list Literal)) (idx : nat) (col : list Literal) : Prop :=
  Forall2 (λ row v, row !! idx = Some v) rows col.

Definition non_null (v : Literal) : Prop := is_null v = false.

Lemma column_stats_run rows idx col : column_of rows idx col →
  column_stats rows idx =
    (let values := sort_by literal_cmp (filter non_null col) in
     bs ← bounds_of values;
     Ok (mkColumnStats (Z.of_nat (size (list_to_set ((λ v, encode_row [v]) <$> filter non_null col) : gset (list Z))))
           (zlen col - zlen (filter non_null col)) (head values) (last values) bs)).
Proof.
  intros HF. unfold column_stats.
  assert (∀ keys nulls values, for_each (E := DbError) (λ st row,
    let '(keys, nulls, values) := st in
    v ← index row (Z.of_nat idx);
    Ok (if is_null v then (keys, nulls + 1, values)
        else ({[encode_row [v]]} ∪ keys, nulls, values ++ [v]))) (keys, nulls, values) rows =
    Ok ((list_to_set ((λ v, encode_row [v]) <$> filter non_null col) : gset (list Z)) ∪ keys,
      nulls + (zlen col - zlen (filter non_null col)), values ++ filter non_null col)) as Hx.
  { induction HF as [|row v rows col Hv HF IH]; intros keys nulls values.
    - cbn. rewrite app_nil_r, Z.add_0_r. by rewrite (left_id_L ∅ (∪)).
    - cbn [for_each]. assert (index (E := DbError) row (Z.of_nat idx) = Ok v) as ->.
      { unfold index. rewrite decide_True by lia. by rewrite Nat2Z.id, Hv. }
      cbn [mbind outcome_bind]. rewrite filter_cons. destruct (decide (non_null v)) as [Hn|Hn]; unfold non_null in Hn.
      2: { apply not_false_is_true in Hn. rewrite Hn, IH. do 3 f_equal. unfold zlen. cbn [length]. lia. }
      { rewrite Hn, IH. rewrite <- app_assoc. cbn [fmap list_fmap list_to_set app].
        f_equal. apply (f_equal2 pair); [|done]. apply (f_equal2 pair).
        * rewrite !(assoc_L (∪)). by rewrite (comm_L (∪) {[_]}).
        * unfold zlen. cbn [length]. lia. } }
  rewrite Hx. cbn [mbind outcome_bind]. by rewrite app_nil_l, (right_id_L ∅ (∪)).
Qed.

(** The values at most [v]. *)
Definition at_most (v : Literal) (l : list Literal) : nat := length (filter (λ x, literal_cmp x v ≠ Gt) l).

Section accuracy.
Context (v : Literal) (vals : list Literal).
Context (Hne : vals ≠ []) (Hord : ord_on literal_cmp (v :: vals)).

Lemma sorted_vals : StronglySorted (λ a b, literal_cmp a b ≠ Gt) (sort_by literal_cmp vals).
Proof using Hord. apply sort_by_sorted. eapply ord_on_subset, Hord. intros x Hx. by right. Qed.

Lemma elem_sorted x : x ∈ sort_by literal_cmp vals ↔ x ∈ vals.
Proof. by rewrite sort_by_perm. Qed.

Lemma at_most_position i x : sort_by literal_cmp vals !! i = Some x →
  (literal_cmp x v ≠ Gt → (i < at_most v vals)%nat) ∧ (literal_cmp x v = Gt → (at_most v vals ≤ i)%nat).
Proof using Hord.
  intros Hx. unfold at_most. rewrite <- (Permutation_length (filter_Permutation (λ x, literal_cmp x v ≠ Gt) _ _ (sort_by_perm literal_cmp vals))).
  destruct (sorted_count (λ a b, literal_cmp a b ≠ Gt) (λ x, literal_cmp x v ≠ Gt) _ sorted_vals) with (i := i) (x := x) as [H1 H2]; [|done|].
  - intros a b Ha%elem_sorted Hb%elem_sorted Hab Hbv. destruct Hord as [_ Ht]. apply (Ht a b v); [by right|by right|by left|done..].
  - split; [done|]. intros E. apply H2. intros Hc. by apply Hc.
Qed.

Lemma extreme_vals : ∃ mn mx, head (sort_by literal_cmp vals) = Some mn ∧ last (sort_by literal_cmp vals) = Some mx ∧
  mn ∈ vals ∧ mx ∈ vals ∧ ∀ x, x ∈ vals → literal_cmp mn x ≠ Gt ∧ literal_cmp x mx ≠ Gt.
Proof using Hne Hord.
  pose proof sorted_vals as Hs. assert (∀ x, x ∈ vals → literal_cmp x x ≠ Gt) as Hrefl.
  { intros x Hx. destruct Hord as [Ha _]. specialize (Ha x x ltac:(by right) ltac:(by right)). by destruct (literal_cmp x x). }
  destruct (sort_by literal_cmp vals) as [|mn l] eqn:E.
  { pose proof (sort_by_perm literal_cmp vals) as Hp. rewrite E in Hp. by apply Permutation_nil_l in Hp. }
  assert (∀ x, x ∈ mn :: l ↔ x ∈ vals) as Hin by (intros x; rewrite <- E; apply elem_sorted).
  destruct (last_is_Some (mn :: l)) as [_ [mx Hmx]]; [done|]. exists mn, mx. split_and!; [done..|by apply Hin; left| |].
  - apply Hin. by apply last_Some_elem_of.
  - intros x Hx. split.
    + apply StronglySorted_inv in Hs as [_ Hf]. rewrite Forall_forall in Hf.
      apply Hin in Hx as [->|Hx]%elem_of_cons; [by apply Hrefl, Hin; left|by apply Hf].
    + apply last_Some in Hmx as [l' Hl]. apply Hin in Hx. rewrite Hl in Hx, Hs.
      apply elem_of_app in Hx as [Hx| ->%list_elem_of_singleton]; [|apply Hrefl, Hin; rewrite Hl; set_solver].
      apply (StronglySorted_app_1_elem_of _ _ _ _ _ Hs Hx). by left.
Qed.

Lemma buckets_accurate bs k B n : n = length vals → B = Nat.min HISTOGRAM_BUCKETS n → length bs = B →
  (∀ i b, bs !! i = Some b → sort_by literal_cmp vals !! bound_pos n B (S i) = Some b) → (k ≤ B)%nat →
  (∀ i b, (i < k)%nat → bs !! i = Some b → literal_cmp b v ≠ Gt) → (∀ b, bs !! k = Some b → literal_cmp b v = Gt) →
  (k * n / B ≤ at_most v vals)%nat ∧ (k < B → at_most v vals < S k * n / B)%nat ∧ (k = B → at_most v vals = n).
Proof using Hne Hord.
  intros -> HB Hl Hpos Hk Hlow Hup. assert (0 < length vals)%nat as Hn by (destruct vals; [done|cbn; lia]).
  assert (0 < B ≤ length vals)%nat as HBn by (unfold HISTOGRAM_BUCKETS in HB; lia).
  assert (k * length vals / B ≤ at_most v vals)%nat as H1.
  { destruct k as [|k]; [rewrite Nat.mul_0_l, Nat.Div0.div_0_l; lia|]. destruct (lookup_lt_is_Some_2 bs k ltac:(lia)) as [b Hb].
    destruct (at_most_position _ _ (Hpos k b Hb)) as [Hp _]. specialize (Hp (Hlow k b ltac:(lia) Hb)). unfold bound_pos in Hp. lia. }
  split_and!; [done| |].
  - intros Hlt. destruct (lookup_lt_is_Some_2 bs k ltac:(lia)) as [b Hb].
    destruct (at_most_position _ _ (Hpos k b Hb)) as [_ Hp]. specialize (Hp (Hup b Hb)). unfold bound_pos in Hp.
    assert (1 ≤ S k * length vals / B)%nat; [|lia]. apply Nat.div_le_lower_bound; nia.
  - intros ->. rewrite Nat.mul_comm, Nat.div_mul in H1 by lia. unfold at_most in *.
    pose proof (length_filter (λ x, literal_cmp x v ≠ Gt) vals). lia.
Qed.

End accuracy.

(** C28: For a column with a non-NULL value, whose values and [v] are comparable with each
    other and consistently ordered (not booleans, and no NaN among floats), ANALYZE counts
    the NULLs and the distinct encodings of values, finds the least and the greatest value,
    and its histogram estimates the number of values at most [v] to within one bucket: the
    fraction it reports is k of B buckets, B the lesser of the bucket limit and the number n
    of non-NULL values, and at least k n / B and, when k < B, fewer than (k+1) n / B of them
    (quotients rounded down) are at most [v]; all of them are when k is B. *)
Theorem histogram_accurate rows idx col v : column_of rows idx col → filter non_null col ≠ [] →
  ord_on literal_cmp (v :: filter non_null col) → (∀ x, x ∈ filter non_null col → is_Some (literal_ord x v)) →
  let n := length (filter non_null col) in
  let B := Nat.min HISTOGRAM_BUCKETS n in
  ∃ cs k, column_stats rows idx = Ok cs ∧
    cs_null_count cs = zlen col - Z.of_nat n ∧
    cs_distinct cs = Z.of_nat (size (list_to_set ((λ v, encode_row [v]) <$> filter non_null col) : gset (list Z))) ∧
    (∃ mn mx, cs_min cs = Some mn ∧ cs_max cs = Some mx ∧ mn ∈ col ∧ mx ∈ col ∧
       ∀ x, x ∈ filter non_null col → literal_cmp mn x ≠ Gt ∧ literal_cmp x mx ≠ Gt) ∧
    (k ≤ B)%nat ∧
    fraction_below cs v = Some (f64_clamp (f64_div (f64_of_int (Z.of_nat k)) (f64_of_int (Z.of_nat B))) f64_zero f64_one) ∧
    (k * n / B ≤ at_most v (filter non_null col))%nat ∧
    (k < B → at_most v (filter non_null col) < S k * n / B)%nat ∧
    (k = B → at_most v (filter non_null col) = n).
Proof.
  intros Hcol Hne Hord Hsome n B. destruct (bounds_of_spec (sort_by literal_cmp (filter non_null col))) as (bs & Hbs & Hl & Hpos).
  rewrite (Permutation_length (sort_by_perm literal_cmp (filter non_null col))) in Hl, Hpos. fold n in Hl, Hpos. fold B in Hl.
  destruct (count_below_spec v bs 0) as (k & Hk & Hc & Hlow & Hup).
  { intros b (i & Hi)%list_elem_of_lookup. apply Hsome. apply elem_sorted. by eapply list_elem_of_lookup_2, Hpos. }
  { rewrite Hl. unfold B, HISTOGRAM_BUCKETS. lia. }
  eexists _, k. split; [rewrite (column_stats_run _ _ _ Hcol); cbv zeta; by rewrite Hbs|]. cbn [cs_null_count cs_distinct cs_min cs_max].
  split; [done|]. split; [done|]. split; [|split; [lia|split]].
  - destruct (extreme_vals v (filter non_null col) Hne Hord) as (mn & mx & -> & -> & H1 & H2 & H3). exists mn, mx.
    apply list_elem_of_filter in H1 as [_ H1], H2 as [_ H2]. done.
  - unfold fraction_below. cbn [cs_bounds]. destruct bs as [|b bs].
    { exfalso. apply Hne, nil_length_inv. fold n. cbn [length] in Hl. unfold B, HISTOGRAM_BUCKETS in Hl. lia. }
    rewrite <- Hl. change f64_zero with (f64_of_int (Z.of_nat 0)) at 2. by rewrite Hc.
  - rewrite Hl in Hpos, Hk. by eapply (buckets_accurate v (filter non_null col) Hne Hord bs k B n).
Qed.

Lemma literal_cmp_int a b : literal_cmp (LInt a) (LInt b) = (a ?= b).
Proof. unfold literal_cmp, literal_ord. cbn. by destruct (a ?= b). Qed.

(** The order is consistent on an integer column. *)
Lemma int_ord_on l : ord_on literal_cmp (LInt <$> l).
Proof.
  split.
  - intros a b (x & -> & _)%list_elem_of_fmap (y & -> & _)%list_elem_of_fmap. rewrite !literal_cmp_int. apply Z.compare_antisym.
  - intros a b c (x & -> & _)%list_elem_of_fmap (y & -> & _)%list_elem_of_fmap (z & -> & _)%list_elem_of_fmap.
    rewrite !literal_cmp_int. intros H1 H2. exact (Z.le_trans _ _ _ H1 H2).
Qed.

Definition w_stat_rows : list (list Literal) := [[LInt 4]; [LNull]; [LInt 9]; [LInt 4]; [LInt 1]].

Lemma histogram_accurate_witness : ∃ cs, column_stats w_stat_rows 0 = Ok cs ∧ cs_null_count cs = 1 ∧
  (at_most (LInt 4) [LInt 4; LInt 9; LInt 4; LInt 1] = 3)%nat ∧
  fraction_below cs (LInt 4) = Some (f64_div (f64_of_int 3) (f64_of_int 4)).
Proof.
  destruct (histogram_accurate w_stat_rows 0 [LInt 4; LNull; LInt 9; LInt 4; LInt 1] (LInt 4)) as (cs & k & Hcs & Hn & _).
  - repeat constructor.
  - vm_compute. congruence.
  - apply (int_ord_on [4; 4; 9; 4; 1]).
  - intros x Hx. change (filter _ _) with (LInt <$> [4; 9; 4; 1]) in Hx. apply list_elem_of_fmap in Hx as (y & -> & _).
    unfold literal_ord. cbn. destruct (y ?= 4); by eexists.
  - exists cs. split; [done|]. split; [by rewrite Hn|]. split; [by vm_compute|].
    vm_compute in Hcs. injection Hcs as <-. by vm_compute.
Defined.

(** NaN is above every float, and every float above NaN. *)
Lemma nan_order_inconsistent : literal_ord (LFloat NAN) (LFloat f64_one) = Some Gt ∧ literal_ord (LFloat f64_one) (LFloat NAN) = Some Gt.
Proof. vm_compute. done. Qed.
