(* ===== verification/SqlExpr.v ===== *)
(** Expressions ([src/sql/executor.rs]): evaluation, LIKE, binding of column names to
    positions, the columns an expression needs, the raw integer filter, projection,
    and what a sequential scan does with the bytes of one row. *)

From stdpp Require Import base numbers list strings.
From Stdlib Require Import Lia.
From S2P Require Import Prelude Format Page BTreeNode BTree Text Float Datetime SqlTypes SqlValue SqlRow.

(** ** Columns *)

(** [iter().position(p)] *)
Fixpoint position {A} (p : A → bool) (l : list A) : option nat :=
  match l with
  | [] => None
  | x :: l => if p x then Some 0%nat else S <$> position p l
  end.

(** The visible column of a name. *)
Definition visible_column (columns : list ColumnDef) (name : string) : option nat :=
  position (λ c, bool_decide (col_name c = name) && negb (col_dropped c)) columns.

Definition column_index (table : TableDef) (name : string) : Result nat :=
  ok_or (visible_column (td_columns table) name) (ColumnNotFound (td_name table) name).

(** ** LIKE *)

Fixpoint like_match_chars (text pattern : list Z) {struct pattern} : bool :=
  match pattern with
  | [] => match text with [] => true | _ => false end
  | 37 :: pattern =>
      (fix star (text : list Z) : bool :=
         like_match_chars text pattern || match text with [] => false | _ :: text => star text end) text
  | 95 :: pattern => match text with [] => false | _ :: text => like_match_chars text pattern end
  | c :: pattern =>
      match text with
      | [] => false
      | x :: text => bool_decide (x = c) && like_match_chars text pattern
      end
  end.

Section eval.
Context `{!SerdeJson, !CaseTables}.

Definition like_match (text pattern : list Z) (case_insensitive : bool) : bool :=
  if case_insensitive then
    like_match_chars (flat_map char_to_lowercase (chars text)) (flat_map char_to_lowercase (chars pattern))
  else like_match_chars (chars text) (chars pattern).

(** ** Evaluation *)

Definition json_of (l : Literal) : Result JsonValue :=
  match l with
  | LJson s | LText s => ok_or (json_from_str s) (SqlPlan "invalid JSON")
  | _ => Err (SqlUnsupported "->/->> requires a JSON or text value")
  end.

Definition eval_like (val pat : Literal) (negated case_insensitive : bool) : Result Literal :=
  match val, pat with
  | LNull, _ | _, LNull => Ok LNull
  | LText t, LText p => Ok (LBool (negb (eqb (like_match t p case_insensitive) negated)))
  | _, _ => Err (SqlUnsupported "LIKE requires TEXT operands")
  end.

Fixpoint eval_expr (expr : Expr) (columns : list ColumnDef) (row : list Literal) : Result Literal :=
  match expr with
  | EColumn name =>
      idx ← ok_or (visible_column columns name) (ColumnNotFound "" name);
      index row (Z.of_nat idx)
  | EColumnSlot idx => ok_or (row !! idx) (SqlPlan "ColumnSlot out of range")
  | ELiteral l => Ok l
  | EBinOp op lhs rhs =>
      l ← eval_expr lhs columns row; r ← eval_expr rhs columns row;
      b ← compare op l r; Ok (LBool b)
  | EArith op lhs rhs =>
      l ← eval_expr lhs columns row; r ← eval_expr rhs columns row; eval_arith op l r
  | EAnd lhs rhs =>
      l ← eval_expr lhs columns row; l ← as_bool l;
      r ← eval_expr rhs columns row; r ← as_bool r; Ok (LBool (l && r))
  | EOr lhs rhs =>
      l ← eval_expr lhs columns row; l ← as_bool l;
      r ← eval_expr rhs columns row; r ← as_bool r; Ok (LBool (l || r))
  | EJsonExtract expr path =>
      v ← eval_expr expr columns row; json ← json_of v;
      Ok (LJson (json_to_string (default json_null (json_get json path))))
  | EJsonExtractText expr path =>
      v ← eval_expr expr columns row; json ← json_of v;
      Ok match json_get json path with
         | Some j => match json_as_string j with Some s => LText s | None => LText (json_to_string j) end
         | None => LNull
         end
  | ENear _ _ _ => Ok (LBool true)
  | ELike expr pattern negated ci =>
      val ← eval_expr expr columns row; pat ← eval_expr pattern columns row; eval_like val pat negated ci
  | EMatch _ _ => Ok (LBool true)
  | EIsNull expr negated => v ← eval_expr expr columns row; Ok (LBool (negb (eqb (is_null v) negated)))
  | ECurrentUser | EAuthUid | EAuthClaim _ => Ok LNull
  | EExcluded _ => Err (SqlPlan "internal error: EXCLUDED was not substituted before evaluation")
  end.

Definition predicate_matches (predicate : option Expr) (columns : list ColumnDef) (row : list Literal) : Result bool :=
  match predicate with
  | None => Ok true
  | Some e => v ← eval_expr e columns row; as_bool v
  end.

Definition check_passes (expr : Expr) (columns : list ColumnDef) (row : list Literal) : Result bool :=
  v ← eval_expr expr columns row;
  match v with
  | LBool b => Ok b
  | LNull => Ok true
  | _ => Err (SqlPlan "CHECK expression must be boolean")
  end.

End eval.

(** ** Binding and needed columns *)

Fixpoint bind_predicate_columns (expr : Expr) (columns : list ColumnDef) : Expr :=
  match expr with
  | EColumn name => match visible_column columns name with Some idx => EColumnSlot idx | None => expr end
  | EColumnSlot _ | ELiteral _ => expr
  | EBinOp op l r => EBinOp op (bind_predicate_columns l columns) (bind_predicate_columns r columns)
  | EArith op l r => EArith op (bind_predicate_columns l columns) (bind_predicate_columns r columns)
  | EAnd l r => EAnd (bind_predicate_columns l columns) (bind_predicate_columns r columns)
  | EOr l r => EOr (bind_predicate_columns l columns) (bind_predicate_columns r columns)
  | EJsonExtract e p => EJsonExtract (bind_predicate_columns e columns) p
  | EJsonExtractText e p => EJsonExtractText (bind_predicate_columns e columns) p
  | ELike e p n ci => ELike (bind_predicate_columns e columns) (bind_predicate_columns p columns) n ci
  | EMatch c q => EMatch c (bind_predicate_columns q columns)
  | ENear _ _ _ => expr
  | EIsNull e n => EIsNull (bind_predicate_columns e columns) n
  | ECurrentUser | EAuthUid | EAuthClaim _ | EExcluded _ => expr
  end.

(** The columns pushed on the output vector, in order. *)
Fixpoint expr_columns (expr : Expr) (table : TableDef) : list nat :=
  match expr with
  | EColumn name => match column_index table name with Ok idx => [idx] | _ => [] end
  | EColumnSlot idx => [idx]
  | ELiteral _ => []
  | EBinOp _ l r | EArith _ l r | EAnd l r | EOr l r => expr_columns l table ++ expr_columns r table
  | EJsonExtract e _ | EJsonExtractText e _ => expr_columns e table
  | ENear c _ _ | EMatch c _ => match column_index table c with Ok idx => [idx] | _ => [] end
  | ELike e p _ _ => expr_columns e table ++ expr_columns p table
  | EIsNull e _ => expr_columns e table
  | ECurrentUser | EAuthUid | EAuthClaim _ | EExcluded _ => []
  end.

(** ** The raw filter *)

Record RawFilter := mkRawFilter { rf_terms : list (nat * CmpOp * Z) }.

Definition raw_term_ok (op : CmpOp) (lhs rhs : Z) : bool :=
  match op with
  | CEq => bool_decide (lhs = rhs)
  | CNe => bool_decide (lhs ≠ rhs)
  | CLt => bool_decide (lhs < rhs)
  | CGt => bool_decide (lhs > rhs)
  | CLe => bool_decide (lhs ≤ rhs)
  | CGe => bool_decide (lhs >= rhs)
  end.

Fixpoint passes_terms (terms : list (nat * CmpOp * Z)) (bytes : list Z) (columns : list ColumnDef) : option bool :=
  match terms with
  | [] => Some true
  | (idx, op, rhs) :: terms =>
      lhs ← try_raw_i64_at bytes idx columns;
      if raw_term_ok op lhs rhs then passes_terms terms bytes columns else Some false
  end.

Definition passes (rf : RawFilter) : list Z → list ColumnDef → option bool := passes_terms (rf_terms rf).

Fixpoint collect_raw_terms (expr : Expr) : option (list (nat * CmpOp * Z)) :=
  match expr with
  | EBinOp op lhs rhs =>
      match lhs, rhs with
      | EColumnSlot idx, ELiteral (LInt v) => Some [(idx, op, v)]
      | ELiteral (LInt v), EColumnSlot idx => Some [(idx, flip_cmp_op op, v)]
      | _, _ => None
      end
  | EAnd l r => a ← collect_raw_terms l; b ← collect_raw_terms r; Some (a ++ b)
  | _ => None
  end.

Definition try_build_raw_filter (expr : Expr) : option RawFilter :=
  terms ← collect_raw_terms expr;
  match terms with [] => None | _ => Some (mkRawFilter terms) end.

(** ** Projection *)

Definition visible_indices (columns : list ColumnDef) : list nat :=
  filter (λ i, negb (from_option col_dropped true (columns !! i))) (seq 0 (length columns)).

Fixpoint projected_indices (table : TableDef) (projection : list string) : option (list nat) :=
  match projection with
  | [] => Some []
  | name :: projection =>
      match column_index table name with
      | Ok idx => rest ← projected_indices table projection; Some (idx :: rest)
      | _ => None
      end
  end.

Definition projection_columns (table : TableDef) (projection : list string) : list nat :=
  let all := visible_indices (td_columns table) in
  match projection with
  | [] => all
  | _ => default all (projected_indices table projection)
  end.

Definition visible_values (row : list Literal) (columns : list ColumnDef) : list Literal :=
  fst <$> filter (λ p, negb (col_dropped p.2)) (zip row columns).

Fixpoint project_names (projection : list string) (columns : list ColumnDef) (row : list Literal)
    : Result (list Literal) :=
  match projection with
  | [] => Ok []
  | name :: projection =>
      idx ← ok_or (visible_column columns name) (ColumnNotFound "" name);
      v ← index row (Z.of_nat idx);
      vs ← project_names projection columns row;
      Ok (v :: vs)
  end.

Definition project_row (projection : list string) (columns : list ColumnDef) (row : list Literal)
    : Result (list Literal) :=
  match projection with
  | [] => Ok (visible_values row columns)
  | _ => project_names projection columns row
  end.

(** Each projected value is moved out of the row, which keeps null in its place. *)
Fixpoint drain_names (projection : list string) (columns : list ColumnDef) (row : list Literal)
    : Result (list Literal) :=
  match projection with
  | [] => Ok []
  | name :: projection =>
      idx ← ok_or (visible_column columns name) (ColumnNotFound "" name);
      v ← index row (Z.of_nat idx);
      vs ← drain_names projection columns (<[idx := LNull]> row);
      Ok (v :: vs)
  end.

Definition project_row_drain (projection : list string) (columns : list ColumnDef) (row : list Literal)
    : Result (list Literal) :=
  match projection with
  | [] => Ok (visible_values row columns)
  | _ => drain_names projection columns row
  end.

Definition output_columns (projection : list string) (columns : list ColumnDef) : list string :=
  match projection with
  | [] => col_name <$> filter (λ c, negb (col_dropped c)) columns
  | _ => projection
  end.
