(* ===== verification/SqlExprProps.v ===== *)
(** Expressions: LIKE matches exactly the patterns of SQL; binding names to positions
    and decoding only the needed columns do not change the value of an expression; the
    raw filter agrees with evaluation; moving values out of a row projects the same
    values when no column is named twice. *)

From stdpp Require Import base numbers list strings.
From Stdlib Require Import Lia.
From S2P Require Import Prelude Format Page BTreeNode BTreeNodeProps BTree Text Float Datetime SqlTypes SqlValue SqlValueProps SqlRow SqlRowProps SqlExpr.

(** ** Positions *)

Lemma position_Some {A} (p : A → bool) l i : position p l = Some i →
  ∃ x, l !! i = Some x ∧ p x = true ∧ ∀ j y, (j < i)%nat → l !! j = Some y → p y = false.
Proof.
  revert i. induction l as [|x l IH]; intros i; cbn [position]; [done|].
  destruct (p x) eqn:Ep.
  - intros [= <-]. exists x. split; [done|split; [done|]]. intros j y Hj. lia.
  - destruct (position p l) as [k|] eqn:Ek; [|done]. intros [= <-].
    destruct (IH k eq_refl) as (y & Hy & Hp & Hm). exists y. split; [done|split; [done|]].
    intros [|j] z Hj; [intros [= <-]; done|]. apply Hm. lia.
Qed.

Lemma visible_column_Some columns name i : visible_column columns name = Some i →
  (i < length columns)%nat ∧ ∃ c, columns !! i = Some c ∧ col_name c = name ∧ col_dropped c = false.
Proof.
  intros (c & Hc & Hp & _)%position_Some. split; [by eapply lookup_lt_Some|].
  apply andb_true_iff in Hp as [Hn Hd]. apply bool_decide_eq_true in Hn. apply negb_true_iff in Hd. eauto.
Qed.

(** ** LIKE *)

(** What a pattern of SQL matches. *)
Inductive like_spec : list Z → list Z → Prop :=
| like_nil : like_spec [] []
| like_percent u t p : like_spec t p → like_spec (u ++ t) (37 :: p)
| like_underscore x t p : like_spec t p → like_spec (x :: t) (95 :: p)
| like_char c t p : c ≠ 37 → c ≠ 95 → like_spec t p → like_spec (c :: t) (c :: p).

(** [match] on the two wildcards, as a case distinction. *)
Lemma like_match_cons text c p :
  like_match_chars text (c :: p) =
  if decide (c = 37) then
    like_match_chars text p || match text with [] => false | _ :: text => like_match_chars text (37 :: p) end
  else if decide (c = 95) then match text with [] => false | _ :: text => like_match_chars text p end
  else match text with [] => false | x :: text => bool_decide (x = c) && like_match_chars text p end.
Proof.
  case_decide as H1; [subst; by destruct text|]. case_decide as H2; [by subst|].
  cbn [like_match_chars]. repeat case_match; try done; lia.
Qed.

Lemma like_match_spec text pattern : like_match_chars text pattern = true ↔ like_spec text pattern.
Proof.
  split.
  - revert text. induction pattern as [|c p IH]; intros text.
    + destruct text; [constructor|done].
    + rewrite like_match_cons. case_decide as H1; [subst c|case_decide as H2; [subst c|]].
      * induction text as [|x t IHt]; rewrite orb_true_iff; intros [Hl|Hl]; try done.
        -- apply (like_percent [] []). by apply IH.
        -- apply (like_percent [] (x :: t)). by apply IH.
        -- rewrite like_match_cons, decide_True in Hl by done. apply IHt in Hl.
           inversion Hl as [|u t' p' Hs E1 E2| |]; subst; [|done]. by apply (like_percent (x :: u) t').
      * destruct text as [|x t]; [done|]. intros Hl. constructor. by apply IH.
      * destruct text as [|x t]; [done|]. intros [E Hl]%andb_true_iff. apply bool_decide_eq_true in E as ->.
        by constructor; [..|apply IH].
  - induction 1 as [|u t p Hs IH|x t p Hs IH|c t p H1 H2 Hs IH]; [done|..]; [|rewrite like_match_cons..].
    + induction u as [|x u IHu]; rewrite like_match_cons, decide_True by done; cbn [app]; [by rewrite IH|].
      rewrite IHu. apply orb_true_r.
    + done.
    + rewrite !decide_False by done. by rewrite bool_decide_eq_true_2.
Qed.

Section eval.
Context `{!SerdeJson, !CaseTables}.

(** ** Binding *)

Lemma eval_bound expr columns row : length row = length columns →
  eval_expr (bind_predicate_columns expr columns) columns row = eval_expr expr columns row.
Proof.
  intros Hl. induction expr; cbn [bind_predicate_columns eval_expr]; try done;
    rewrite ?IHexpr, ?IHexpr1, ?IHexpr2; try done.
  destruct (visible_column columns name) as [idx|] eqn:E; cbn [eval_expr]; [|by rewrite E].
  apply visible_column_Some in E as [Hi _]. destruct (lookup_lt_is_Some_2 row idx ltac:(lia)) as [v Hv].
  cbn [ok_or mbind outcome_bind]. by rewrite (index_lookup _ _ _ Hv), Hv.
Qed.

(** ** The columns an expression needs *)

Lemma eval_agree table expr row row' : length row = length row' → length row = length (td_columns table) →
  (∀ c, c ∈ expr_columns expr table → row !! c = row' !! c) →
  eval_expr expr (td_columns table) row = eval_expr expr (td_columns table) row'.
Proof.
  intros Hl Hc. induction expr; cbn [expr_columns eval_expr]; intros Ha; try done.
  - unfold column_index in Ha. destruct (visible_column _ _) as [idx|] eqn:E; [|done]. cbn [ok_or mbind outcome_bind] in *.
    apply visible_column_Some in E as [Hi _]. destruct (lookup_lt_is_Some_2 row idx ltac:(lia)) as [v Hv].
    rewrite (index_lookup row idx v Hv), (index_lookup row' idx v); [done|]. rewrite <- Ha; [done|by left].
  - rewrite Ha by (by left). done.
  - rewrite IHexpr1, IHexpr2; [done|..]; intros c Hi; apply Ha, elem_of_app; auto.
  - rewrite IHexpr1, IHexpr2; [done|..]; intros c Hi; apply Ha, elem_of_app; auto.
  - rewrite IHexpr1, IHexpr2; [done|..]; intros c Hi; apply Ha, elem_of_app; auto.
  - rewrite IHexpr1, IHexpr2; [done|..]; intros c Hi; apply Ha, elem_of_app; auto.
  - rewrite IHexpr; done.
  - rewrite IHexpr; done.
  - rewrite IHexpr1, IHexpr2; [done|..]; intros c Hi; apply Ha, elem_of_app; auto.
  - rewrite IHexpr; done.
Qed.

(** ** The raw filter *)

Lemma raw_term_compare op a b : compare op (LInt a) (LInt b) = Ok (raw_term_ok op a b).
Proof.
  cbn [compare]. f_equal. destruct (Z.compare_spec a b), op; cbn [apply_cmp raw_term_ok]; symmetry;
    first [apply bool_decide_eq_true_2; lia | apply bool_decide_eq_false_2; lia].
Qed.

(** The terms hold of the row. *)
Definition term_holds (row : list Literal) (t : nat * CmpOp * Z) : Prop :=
  ∃ n, row !! t.1.1 = Some (LInt n) ∧ raw_term_ok t.1.2 n t.2 = true.

Lemma passes_true terms b columns row : bytes b → decode_row b columns = Ok row →
  passes_terms terms b columns = Some true → Forall (term_holds row) terms.
Proof.
  intros Hb Hd. induction terms as [|[[idx op] rhs] terms IH]; cbn [passes_terms]; intros Hp; [constructor|].
  destruct (try_raw_i64_at b idx columns) as [n|] eqn:E; [|done]. cbn [mbind option_bind] in Hp.
  destruct (raw_term_ok op n rhs) eqn:Et; [|done]. constructor; [|by apply IH].
  exists n. split; [|done]. by eapply try_raw_exact.
Qed.

Lemma passes_false terms b columns row : bytes b → decode_row b columns = Ok row →
  passes_terms terms b columns = Some false →
  ∃ t n, t ∈ terms ∧ row !! t.1.1 = Some (LInt n) ∧ raw_term_ok t.1.2 n t.2 = false.
Proof.
  intros Hb Hd. induction terms as [|[[idx op] rhs] terms IH]; cbn [passes_terms]; intros Hp; [done|].
  destruct (try_raw_i64_at b idx columns) as [n|] eqn:E; [|done]. cbn [mbind option_bind] in Hp.
  destruct (raw_term_ok op n rhs) eqn:Et.
  - destruct (IH Hp) as (t & m & Hin & Hr). exists t, m. split; [by right|done].
  - exists (idx, op, rhs), n. split; [by left|]. split; [by eapply try_raw_exact|done].
Qed.

Lemma collect_raw_binop op lhs rhs terms : collect_raw_terms (EBinOp op lhs rhs) = Some terms →
  ∃ t, terms = [t] ∧ ∀ columns row n, row !! t.1.1 = Some (LInt n) →
    eval_expr (EBinOp op lhs rhs) columns row = Ok (LBool (raw_term_ok t.1.2 n t.2)).
Proof.
  cbn [collect_raw_terms]. destruct lhs as [|idx|[v| | | | | | | | | | | | |]| | | | | | | | | | | | | |];
    try done; destruct rhs as [|idx'|[v'| | | | | | | | | | | | |]| | | | | | | | | | | | | |]; try done; intros [= <-];
    eexists; (split; [done|]); intros columns row n Hr; cbn [fst snd] in *; cbn [eval_expr]; rewrite Hr;
    cbn [ok_or mbind outcome_bind].
  - by rewrite raw_term_compare.
  - by rewrite <- compare_flip_eq, raw_term_compare.
Qed.

Lemma collected_true expr terms columns row : collect_raw_terms expr = Some terms →
  Forall (term_holds row) terms → eval_expr expr columns row = Ok (LBool true).
Proof.
  revert terms. induction expr as [| | |op l IHl r IHr| |l IHl r IHr| | | | | | | | | | |]; intros terms Hc Hf; try done.
  - destruct (collect_raw_binop _ _ _ _ Hc) as (t & -> & He). inversion Hf as [|? ? (n & Hr & Ho)]; subst.
    by rewrite (He _ _ _ Hr), Ho.
  - cbn [collect_raw_terms] in Hc. destruct (collect_raw_terms l) as [a|] eqn:Ea; [|done].
    destruct (collect_raw_terms r) as [b|] eqn:Eb; [|done]. injection Hc as <-. apply Forall_app in Hf as [Hfa Hfb].
    cbn [eval_expr]. rewrite (IHl a), (IHr b) by done. done.
Qed.

Lemma collected_false expr terms columns row t n v : collect_raw_terms expr = Some terms →
  t ∈ terms → row !! t.1.1 = Some (LInt n) → raw_term_ok t.1.2 n t.2 = false →
  eval_expr expr columns row = Ok v → v = LBool false.
Proof.
  revert terms v. induction expr as [| | |op l IHl r IHr| |l IHl r IHr| | | | | | | | | | |]; intros terms v Hc Ht Hr Ho; try done.
  - destruct (collect_raw_binop _ _ _ _ Hc) as (t' & -> & He). apply list_elem_of_singleton in Ht as ->.
    rewrite (He _ _ _ Hr), Ho. by intros [= <-].
  - cbn [collect_raw_terms] in Hc. destruct (collect_raw_terms l) as [a|] eqn:Ea; [|done].
    destruct (collect_raw_terms r) as [b|] eqn:Eb; [|done]. injection Hc as <-.
    cbn [eval_expr]. intros Hv. inv_bind Hv. inv_bind Hv. inv_bind Hv. inv_bind Hv. injection Hv as <-.
    apply elem_of_app in Ht as [Ht|Ht].
    + rewrite (IHl a a0 eq_refl Ht Hr Ho eq_refl) in E0. by injection E0 as <-.
    + rewrite (IHr b a2 eq_refl Ht Hr Ho eq_refl) in E2. injection E2 as <-. f_equal. apply andb_false_r.
Qed.

End eval.

(** ** Projection *)

Lemma visible_column_inj columns a b i : visible_column columns a = Some i → visible_column columns b = Some i → a = b.
Proof.
  intros [_ (c & Hc & <- & _)]%visible_column_Some [_ (d & Hd & <- & _)]%visible_column_Some. congruence.
Qed.

Lemma drain_names_project projection columns row : NoDup projection →
  drain_names projection columns row = project_names projection columns row.
Proof.
  intros Hn.
  enough (∀ row', (∀ name i, name ∈ projection → visible_column columns name = Some i → row !! i = row' !! i) →
    length row = length row' → drain_names projection columns row = project_names projection columns row') as He by (by apply He).
  revert row. induction Hn as [|name ps Hnot Hn IH]; intros row row' Ha Hl; cbn [drain_names project_names]; [done|].
  destruct (visible_column columns name) as [i|] eqn:E; [|done]. cbn [ok_or mbind outcome_bind].
  assert (index row (Z.of_nat i) = (index row' (Z.of_nat i) : Result Literal)) as ->.
  { unfold index. rewrite !decide_True, !Nat2Z.id by lia. rewrite (Ha name i); [done|by left|done]. }
  destruct (index row' (Z.of_nat i)); [|done..]. cbn [mbind outcome_bind].
  rewrite (IH (<[i:=LNull]> row) row'); [done| |by rewrite length_insert].
  intros nm j Hnm Hj. rewrite list_lookup_insert_ne; [apply (Ha nm); [by right|done]|].
  intros ->. by rewrite (visible_column_inj _ _ _ _ E Hj) in Hnot.
Qed.

Lemma project_row_drain_exact projection columns row : NoDup projection →
  project_row_drain projection columns row = project_row projection columns row.
Proof. intros Hn. destruct projection; [done|]. by apply drain_names_project. Qed.

(** Projection reads the columns of [projection_columns]. *)
Lemma projected_indices_elem table projection l name i : projected_indices table projection = Some l →
  name ∈ projection → visible_column (td_columns table) name = Some i → i ∈ l.
Proof.
  revert l. induction projection as [|n ps IH]; intros l Hp Hn Hi; [by apply not_elem_of_nil in Hn|].
  cbn [projected_indices] in Hp. destruct (column_index table n) as [j| |] eqn:E; [|done..].
  destruct (projected_indices table ps) as [r|]; [|done]. injection Hp as <-.
  apply elem_of_cons in Hn as [->|Hn]; [|right; by apply IH].
  unfold column_index in E. rewrite Hi in E. injection E as <-. by left.
Qed.

Lemma project_names_agree table projection row row' l :
  length row = length row' → projected_indices table projection = Some l →
  (∀ i, i ∈ l → row !! i = row' !! i) →
  project_names projection (td_columns table) row = project_names projection (td_columns table) row'.
Proof.
  intros Hl. revert l. induction projection as [|n ps IH]; intros l Hp Ha; cbn [project_names]; [done|].
  pose proof Hp as Hp'. cbn [projected_indices] in Hp. destruct (column_index table n) as [j| |] eqn:E; [|done..].
  destruct (projected_indices table ps) as [r|] eqn:Er; [|done]. injection Hp as <-.
  unfold column_index in E. destruct (visible_column (td_columns table) n) as [i|]; [|done]. injection E as ->.
  cbn [ok_or mbind outcome_bind]. unfold index. rewrite !decide_True, !Nat2Z.id, Ha by (lia || by left).
  destruct (row' !! j); [|done]. cbn [mbind outcome_bind]. rewrite (IH r); [done|done|]. intros k Hk. apply Ha. by right.
Qed.

Lemma project_names_error table projection row : projected_indices table projection = None →
  length row = length (td_columns table) →
  ∃ e, project_names projection (td_columns table) row = Err e.
Proof.
  intros Hp Hl. induction projection as [|n ps IH]; cbn [projected_indices project_names] in *; [done|].
  unfold column_index in Hp. destruct (visible_column (td_columns table) n) as [i|] eqn:E; [|eauto].
  cbn [ok_or mbind outcome_bind] in *. apply visible_column_Some in E as [Hi _].
  destruct (lookup_lt_is_Some_2 row i ltac:(lia)) as [v Hv]. rewrite (index_lookup _ _ _ Hv).
  destruct (projected_indices table ps); [done|]. destruct (IH eq_refl) as [e He].
  exists e. cbn [mbind outcome_bind]. by rewrite He.
Qed.

Lemma visible_values_agree columns row row' : length row = length row' →
  (∀ i, i ∈ visible_indices columns → row !! i = row' !! i) →
  visible_values row columns = visible_values row' columns.
Proof.
  intros Hl Ha.
  assert (∀ i c, columns !! i = Some c → col_dropped c = false → row !! i = row' !! i) as Hv.
  { intros i c Hc Hd. apply Ha. unfold visible_indices. apply list_elem_of_filter. split.
    - rewrite Hc. simpl. by rewrite Hd.
    - apply elem_of_seq. apply lookup_lt_Some in Hc. lia. }
  clear Ha. revert row row' Hl Hv. unfold visible_values.
  induction columns as [|c cs IH]; intros [|v row] [|v' row'] Hl Hv; try done.
  cbn [zip zip_with]. rewrite !filter_cons. cbn [snd].
  pose proof (IH row row' ltac:(simpl in Hl; lia) (λ i c, Hv (S i) c)) as IHr.
  destruct (col_dropped c) eqn:Ed; [rewrite !decide_False by (intros []); exact IHr|].
  rewrite !decide_True by exact I. rewrite !fmap_cons. pose proof (Hv 0%nat c eq_refl Ed) as [= ->]. f_equal. exact IHr.
Qed.
