(* ===== verification/ParallelScan.v ===== *)
(** Parallel scans ([src/sql/parallel_scan.rs]): workers that steal units of work from a
    shared cursor, the pool that runs them, and the budget of workers.

    A unit is a page, a candidate row or a partition of candidates; it is given as the
    outcomes of its items, each with the deadline check that comes before it.  Every
    access to a shared variable is one step, and a schedule is the sequence of the
    workers that take them. *)

From stdpp Require Import base numbers list strings.
From Stdlib Require Import Lia.
From S2P Require Import Prelude Format Mvcc Page Txn HeapRead.

(** Updating one element of a list, up to order. *)
Lemma concat_update {A B} (f : A → list B) (ws : list A) w x : ws !! w = Some x →
  ∃ rest, concat (f <$> ws) ≡ₚ f x ++ rest ∧ ∀ y, concat (f <$> <[w := y]> ws) ≡ₚ f y ++ rest.
Proof.
  intros Hw. pose proof (lookup_lt_Some _ _ _ Hw) as Hl. exists (concat (f <$> take w ws) ++ concat (f <$> drop (S w) ws)).
  assert (∀ a b c : list B, a ++ (b ++ c) ≡ₚ b ++ (a ++ c)) as Hp by (intros; by rewrite !app_assoc, (Permutation_app_comm a b)).
  split.
  - rewrite <- (take_drop_middle ws w x Hw) at 1. rewrite fmap_app, concat_app. simpl. apply Hp.
  - intros y. rewrite insert_take_drop by done. rewrite fmap_app, concat_app. simpl. apply Hp.
Qed.

(** ** Work stealing *)

Section steal.
Context {R : Type}.

(** What a worker does next; it carries its thread-local output. *)
Inductive WState :=
| WCheck (local : list R)
| WFetch (local : list R)
| WRun (items : list (Result (list R))) (local : list R)
| WStop (local : list R)
| WPush (local : list R)
| WDone.

Record Steal := mkSteal {
  st_cursor : nat;
  st_stop : bool;
  st_err : option DbError;
  st_parts : list (list R);
  st_workers : list WState
}.

Variable units : list (list (Result (list R))).
(** Partitions check the stop flag before each candidate; pages and single candidates
    are one item. *)
Variable check_items : bool.

Definition set_worker (s : Steal) (w : nat) (x : WState) : Steal :=
  mkSteal (st_cursor s) (st_stop s) (st_err s) (st_parts s) (<[w := x]> (st_workers s)).

Definition worker_step (s : Steal) (w : nat) (x : WState) : option Steal :=
  match x with
  | WCheck local => Some (set_worker s w (if st_stop s then WPush local else WFetch local))
  | WFetch local =>
      let i := st_cursor s in
      let s := mkSteal (S i) (st_stop s) (st_err s) (st_parts s) (st_workers s) in
      Some (set_worker s w (match units !! i with Some items => WRun items local | None => WPush local end))
  | WRun items local =>
      if check_items && st_stop s then Some (set_worker s w (WCheck local))
      else match items with
      | [] => Some (set_worker s w (WCheck local))
      | Ok rs :: items => Some (set_worker s w (WRun items (local ++ rs)))
      | Err e :: _ =>
          let s := mkSteal (st_cursor s) (st_stop s) (Some e) (st_parts s) (st_workers s) in
          Some (set_worker s w (WStop local))
      | Panic :: _ => None
      end
  | WStop local =>
      let s := mkSteal (st_cursor s) true (st_err s) (st_parts s) (st_workers s) in
      Some (set_worker s w (if check_items then WCheck local else WPush local))
  | WPush local =>
      let s := mkSteal (st_cursor s) (st_stop s) (st_err s) (st_parts s ++ [local]) (st_workers s) in
      Some (set_worker s w WDone)
  | WDone => None
  end.

Definition steal_step (s : Steal) (w : nat) : option Steal :=
  x ← st_workers s !! w; worker_step s w x.

Fixpoint run_schedule (sched : list nat) (s : Steal) : option Steal :=
  match sched with
  | [] => Some s
  | w :: sched => s ← steal_step s w; run_schedule sched s
  end.

Definition steal_init (degree : nat) : Steal := mkSteal 0 false None [] (replicate degree (WCheck [])).

Definition is_done (x : WState) : bool := match x with WDone => true | _ => false end.
Definition all_done (s : Steal) : bool := forallb is_done (st_workers s).

(** What the caller gathers once every worker is done. *)
Definition gather (s : Steal) : Result (list R) :=
  match st_err s with
  | Some e => Err e
  | None => Ok (concat (st_parts s))
  end.

(** A run of [degree] workers on a schedule; [None] when they are not all done. *)
Definition parallel_run (degree : nat) (sched : list nat) : option (Result (list R)) :=
  s ← run_schedule sched (steal_init degree);
  if all_done s then Some (gather s) else None.

(** ** What a run computes *)

Definition w_local (x : WState) : list R :=
  match x with WCheck l | WFetch l | WRun _ l | WStop l | WPush l => l | WDone => [] end.
Definition w_pending (x : WState) : list (Result (list R)) :=
  match x with WRun items _ => items | _ => [] end.

(** The items of the units taken so far are those done, with their results in the
    outputs, and those pending. *)
Definition accounted (s : Steal) : Prop :=
  ∃ done : list (list R),
    (Ok <$> done) ++ concat (w_pending <$> st_workers s) ≡ₚ concat (take (st_cursor s) units) ∧
    concat (st_parts s) ++ concat (w_local <$> st_workers s) ≡ₚ concat done.

Definition worker_ok (s : Steal) (x : WState) : Prop :=
  (∀ r, r ∈ w_pending x → r ∈ concat units) ∧
  match x with
  | WStop _ => st_err s ≠ None
  | WPush _ | WDone => (length units ≤ st_cursor s)%nat ∨ st_err s ≠ None
  | _ => True
  end.

Definition steal_inv (s : Steal) : Prop :=
  (st_err s = None → st_stop s = false ∧ accounted s) ∧
  (∀ e, st_err s = Some e → Err e ∈ concat units) ∧
  (∀ w x, st_workers s !! w = Some x → worker_ok s x).

Lemma steal_inv_init degree : steal_inv (steal_init degree).
Proof.
  unfold steal_inv, steal_init. cbn. split_and!.
  - intros _. split; [done|]. exists []. cbn. split.
    + induction degree; simpl; auto.
    + induction degree; simpl; auto.
  - done.
  - intros w x [-> _]%lookup_replicate. split; [|done]. intros r Hr. by apply not_elem_of_nil in Hr.
Qed.

Lemma worker_ok_mono s s' x : (st_cursor s ≤ st_cursor s')%nat → (st_err s ≠ None → st_err s' ≠ None) →
  worker_ok s x → worker_ok s' x.
Proof. intros Hc He [Hp Hx]. split; [done|]. destruct x; try done; [auto|destruct Hx; [left; lia|auto]..]. Qed.

Lemma inv_update s s' w x y : steal_inv s → st_workers s !! w = Some x → st_workers s' = <[w := y]> (st_workers s) →
  (st_cursor s ≤ st_cursor s')%nat → (st_err s ≠ None → st_err s' ≠ None) → worker_ok s' y →
  (∀ e, st_err s' = Some e → Err e ∈ concat units) →
  (st_err s' = None → st_stop s = false → accounted s → st_stop s' = false ∧ accounted s') → steal_inv s'.
Proof.
  intros (I1 & I2 & I3) Hw Hws Hc He Hy Hx Ha. split_and!; [|done|].
  - intros E. destruct (st_err s) as [e|] eqn:Es; [by destruct (He ltac:(done) E)|]. destruct (I1 eq_refl). auto.
  - intros v z. rewrite Hws. intros [(<- & <- & _)|(_ & Hz)]%list_lookup_insert_Some; [done|].
    eapply worker_ok_mono; [done|done|by eapply I3].
Qed.

(** The worker's outputs and pending items are replaced. *)
Lemma accounted_update s s' w x y : accounted s → st_workers s !! w = Some x →
  st_workers s' = <[w := y]> (st_workers s) →
  (∃ d : list (list R), ∃ parts taken,
     st_parts s' = st_parts s ++ parts ∧ concat (take (st_cursor s') units) = concat (take (st_cursor s) units) ++ taken ∧
     (Ok <$> d) ++ w_pending y ≡ₚ w_pending x ++ taken ∧ concat parts ++ w_local y ≡ₚ w_local x ++ concat d) →
  accounted s'.
Proof.
  intros (done & H1 & H2) Hw Hws (d & parts & taken & Hp & Ht & E1 & E2).
  destruct (concat_update w_pending _ _ _ Hw) as (rp & Ep & Ey). destruct (concat_update w_local _ _ _ Hw) as (rl & El & Ely).
  exists (done ++ d). rewrite Hws, Ey, Ely, Hp, Ht, <- H1, Ep, fmap_app, !concat_app, <- H2, El. split.
  - rewrite <- !app_assoc. f_equiv. rewrite app_assoc, E1. rewrite <- !app_assoc. f_equiv. apply Permutation_app_comm.
  - rewrite <- !app_assoc. f_equiv. rewrite app_assoc, E2. rewrite <- !app_assoc. f_equiv. apply Permutation_app_comm.
Qed.

Lemma item_of_unit i items r : units !! i = Some items → r ∈ items → r ∈ concat units.
Proof. intros Hu Hr. apply elem_of_concat. exists items. split; [by eapply list_elem_of_lookup_2|done]. Qed.

Lemma steal_step_inv s w s' : steal_inv s → steal_step s w = Some s' → steal_inv s'.
Proof.
  intros Hi Hs. unfold steal_step in Hs. destruct (st_workers s !! w) as [x|] eqn:Hw; [|done]. cbn in Hs.
  pose proof Hi as (I1 & I2 & I3). destruct (I3 _ _ Hw) as [Hpx Hx].
  assert (st_stop s = true → st_err s ≠ None) as Hse.
  { intros Ht En. destruct (I1 En) as [Hf _]. congruence. }
  assert (∀ y, w_pending y = [] → w_local y = w_local x → w_pending x = [] → worker_ok s y →
    steal_inv (set_worker s w y)) as Hkeep.
  { intros y Hpy Hly Hp0 Hy. eapply (inv_update s _ w x y); try done.
    intros _ Hst Ha. split; [done|]. eapply (accounted_update s _ w x y); try done.
    exists [], [], []. rewrite Hpy, Hly, Hp0, !app_nil_r. done. }
  destruct x as [l|l|items l|l|l|]; cbn [worker_step] in Hs.
  - injection Hs as <-. apply Hkeep; [by destruct (st_stop s)..|done|].
    split; [by destruct (st_stop s)|]. destruct (st_stop s); [right; auto|done].
  - injection Hs as <-. set (s1 := mkSteal _ _ _ _ _).
    destruct (units !! st_cursor s) as [items|] eqn:Eu.
    + eapply (inv_update s _ w (WFetch l) (WRun items l)); try done; [cbn; lia| |].
      * split; [|done]. cbn. intros r Hr. by eapply item_of_unit.
      * intros _ Hst Ha. split; [done|]. eapply (accounted_update s _ w (WFetch l) (WRun items l)); try done.
        exists [], [], items. cbn. rewrite !app_nil_r. split; [done|]. split; [|done].
        rewrite (take_S_r _ _ _ Eu), concat_app. cbn. by rewrite app_nil_r.
    + apply lookup_ge_None in Eu. eapply (inv_update s _ w (WFetch l) (WPush l)); try done; [cbn; lia| |].
      * split; [by intros r Hr; apply not_elem_of_nil in Hr|]. left. cbn. lia.
      * intros _ Hst Ha. split; [done|]. eapply (accounted_update s _ w (WFetch l) (WPush l)); try done.
        exists [], [], []. cbn. rewrite !app_nil_r. split; [done|]. split; [|done]. by rewrite !take_ge by lia.
  - destruct (check_items && st_stop s) eqn:Ec.
    { injection Hs as <-. apply andb_true_iff in Ec as [_ Hst]. eapply (inv_update s _ w _ (WCheck l)); try done.
      - split; [by intros r Hr; apply not_elem_of_nil in Hr|done].
      - intros He. by destruct (Hse Hst). }
    destruct items as [|[rs|e|] items].
    + injection Hs as <-. by apply Hkeep.
    + injection Hs as <-. eapply (inv_update s _ w _ (WRun items (l ++ rs))); try done.
      * split; [|done]. intros r Hr. apply Hpx. by right.
      * intros _ Hst Ha. split; [done|]. eapply (accounted_update s _ w _ (WRun items (l ++ rs))); try done.
        exists [rs], [], []. cbn. rewrite !app_nil_r. done.
    + injection Hs as <-. eapply (inv_update s _ w _ (WStop l)); try done.
      * split; [by intros r Hr; apply not_elem_of_nil in Hr|done].
      * cbn. intros e' [= <-]. apply Hpx. by left.
    + done.
  - injection Hs as <-. eapply (inv_update s _ w _ (if check_items then WCheck l else WPush l)); try done.
    split; [by destruct check_items; intros r Hr; apply not_elem_of_nil in Hr|]. destruct check_items; [done|by right].
  - injection Hs as <-. eapply (inv_update s _ w _ WDone); try done.
    intros _ Hst Ha. split; [done|]. eapply (accounted_update s _ w _ WDone); try done.
    exists [], [l], []. cbn. rewrite !app_nil_r. done.
  - done.
Qed.

Lemma run_schedule_inv sched s s' : steal_inv s → run_schedule sched s = Some s' → steal_inv s'.
Proof.
  revert s. induction sched as [|w sched IH]; intros s Hi; cbn [run_schedule]; [by intros [= <-]|].
  destruct (steal_step s w) as [s1|] eqn:E; [|done]. cbn. apply IH. by eapply steal_step_inv.
Qed.

Lemma length_workers sched s s' : run_schedule sched s = Some s' → length (st_workers s') = length (st_workers s).
Proof.
  revert s. induction sched as [|w sched IH]; intros s; cbn [run_schedule]; [by intros [= <-]|].
  destruct (steal_step s w) as [s1|] eqn:E; [|done]. cbn. intros ->%IH.
  unfold steal_step in E. destruct (st_workers s !! w) as [x|]; [|done]. cbn in E.
  destruct x; cbn [worker_step] in E; repeat case_match; simplify_eq; cbn; apply length_insert.
Qed.

Lemma all_done_idle s w x : all_done s = true → st_workers s !! w = Some x → x = WDone.
Proof.
  intros Ha Hw. apply Is_true_true, forallb_True in Ha. eapply Forall_lookup_1 in Ha; [|done]. by destruct x.
Qed.

Lemma concat_nil_of {A} (f : WState → list A) ws : (∀ w x, ws !! w = Some x → f x = []) → concat (f <$> ws) = [].
Proof.
  intros Hf. induction ws as [|x ws IH]; [done|]. cbn. rewrite (Hf 0%nat x eq_refl). apply IH. intros w y. apply (Hf (S w)).
Qed.

(** What the caller gathers. *)
Lemma parallel_run_result degree sched r : (0 < degree)%nat → parallel_run degree sched = Some r →
  (∃ out done, r = Ok out ∧ (Ok <$> done) ≡ₚ concat units ∧ out ≡ₚ concat done) ∨
  (∃ e, r = Err e ∧ Err e ∈ concat units).
Proof.
  intros Hd. unfold parallel_run. destruct (run_schedule sched (steal_init degree)) as [s|] eqn:Er; [|done]. cbn.
  destruct (all_done s) eqn:Ea; [|done]. intros [= <-].
  pose proof (run_schedule_inv _ _ _ (steal_inv_init degree) Er) as (I1 & I2 & I3).
  pose proof (length_workers _ _ _ Er) as Hl. cbn in Hl. rewrite length_replicate in Hl.
  unfold gather. destruct (st_err s) as [e|] eqn:Ee; [right; eauto|]. left.
  destruct (I1 eq_refl) as (_ & done & H1 & H2). exists (concat (st_parts s)), done. split; [done|].
  destruct (lookup_lt_is_Some_2 (st_workers s) 0 ltac:(lia)) as [x Hx]. pose proof (all_done_idle _ _ _ Ea Hx) as ->.
  destruct (I3 _ _ Hx) as [_ [Hc|Hn]]; [|by destruct Hn].
  rewrite take_ge in H1 by done. rewrite (concat_nil_of w_pending) in H1 by (by intros w y ->%(all_done_idle _ _ _ Ea)).
  rewrite (concat_nil_of w_local) in H2 by (by intros w y ->%(all_done_idle _ _ _ Ea)).
  rewrite app_nil_r in H1, H2. done.
Qed.

(** The units one after another. *)
Fixpoint serial_run (items : list (Result (list R))) : Result (list R) :=
  match items with
  | [] => Ok []
  | r :: items => a ← r; b ← serial_run items; Ok (a ++ b)
  end.

Lemma serial_run_Ok done : serial_run (Ok <$> done) = Ok (concat done).
Proof. induction done as [|d done IH]; [done|]. cbn in *. by rewrite IH. Qed.

(** On every schedule, the gathered rows are those of the serial run, in some order;
    an error is one that some unit gave. *)
Lemma parallel_serial degree sched r : (0 < degree)%nat → parallel_run degree sched = Some r →
  match r with
  | Ok out => ∃ out', serial_run (concat units) = Ok out' ∧ out ≡ₚ out'
  | Err e => Err e ∈ concat units
  | Panic => False
  end.
Proof.
  intros Hd Hr. destruct (parallel_run_result _ _ _ Hd Hr) as [(out & ds & -> & Hu & Ho)|(e & -> & He)]; [|done].
  symmetry in Hu. apply Permutation_map_inv in Hu as (ds' & Eu & Hp). exists (concat ds').
  split; [rewrite Eu; apply serial_run_Ok|]. by rewrite Ho, Hp.
Qed.

(** ** Termination *)

Definition w_measure (x : WState) : nat :=
  match x with
  | WDone => 0 | WPush _ => 1 | WFetch _ => 2 | WCheck _ => 3 | WStop _ => 4
  | WRun items _ => 4 + length items
  end.

Definition steal_measure (s : Steal) : nat :=
  sum_list_with w_measure (st_workers s) + sum_list_with (λ u, length u + 3)%nat (drop (st_cursor s) units).

Lemma sum_list_update ws w x y : ws !! w = Some x →
  (sum_list_with w_measure (<[w := y]> ws) + w_measure x = sum_list_with w_measure ws + w_measure y)%nat.
Proof.
  intros Hw. rewrite insert_take_drop by (by eapply lookup_lt_Some).
  rewrite <- (take_drop_middle ws w x Hw) at 3. rewrite !sum_list_with_app. cbn [sum_list_with]. lia.
Qed.

Lemma steal_step_measure s w s' : steal_step s w = Some s' → (steal_measure s' < steal_measure s)%nat.
Proof.
  unfold steal_step. destruct (st_workers s !! w) as [x|] eqn:Hw; [|done]. cbn. intros Hs.
  assert (∀ s1 y, st_workers s1 = st_workers s → (w_measure y + sum_list_with (λ u, length u + 3)%nat (drop (st_cursor s1) units)
    < w_measure x + sum_list_with (λ u, length u + 3)%nat (drop (st_cursor s) units))%nat →
    (steal_measure (set_worker s1 w y) < steal_measure s)%nat) as Hm.
  { intros s1 y Ew Hlt. unfold steal_measure, set_worker. cbn. rewrite Ew.
    pose proof (sum_list_update _ _ _ y Hw). lia. }
  destruct x as [l|l|items l|l|l|]; cbn [worker_step] in Hs.
  - injection Hs as <-. apply Hm; [done|]. destruct (st_stop s); cbn; lia.
  - injection Hs as <-. apply Hm; [done|]. cbn [st_cursor]. destruct (units !! st_cursor s) as [items|] eqn:Eu.
    + rewrite (drop_S _ _ _ Eu). cbn. lia.
    + apply lookup_ge_None in Eu. rewrite !drop_ge by lia. cbn. lia.
  - destruct (check_items && st_stop s); [injection Hs as <-; apply Hm; [done|cbn; lia]|].
    destruct items as [|[rs|e|] items]; try done; injection Hs as <-; (apply Hm; [done|]); cbn; lia.
  - injection Hs as <-. apply Hm; [done|]. destruct check_items; cbn; lia.
  - injection Hs as <-. apply Hm; [done|]. cbn. lia.
  - done.
Qed.

Lemma run_schedule_measure sched s s' : run_schedule sched s = Some s' →
  (length sched + steal_measure s' ≤ steal_measure s)%nat.
Proof.
  revert s. induction sched as [|w sched IH]; intros s; cbn [run_schedule]; [intros [= ->]; cbn; lia|].
  destruct (steal_step s w) as [s1|] eqn:E; [|done]. cbn. intros Hr. apply IH in Hr. apply steal_step_measure in E. lia.
Qed.

Lemma steal_progress s : steal_inv s → Panic ∉ concat units → all_done s = false → ∃ w s', steal_step s w = Some s'.
Proof.
  intros (_ & _ & I3) Hp Ha. unfold all_done in Ha.
  assert (∃ w x, st_workers s !! w = Some x ∧ is_done x = false) as (w & x & Hw & Hx).
  { clear -Ha. induction (st_workers s) as [|x ws IH]; [done|]. cbn in Ha. apply andb_false_iff in Ha as [Hx|Ha].
    - by exists 0%nat, x.
    - destruct (IH Ha) as (w & y & Hw & Hy). by exists (S w), y. }
  exists w. unfold steal_step. rewrite Hw. cbn. destruct x as [l|l|items l|l|l|]; cbn [worker_step]; try done; eauto.
  destruct (check_items && st_stop s); [eauto|]. destruct items as [|[rs|e|] items]; eauto.
  destruct Hp. eapply (proj1 (I3 _ _ Hw)). by left.
Qed.

(** No run is longer than a fixed number of steps, and one that does not panic can be
    continued until every worker is done. *)
Lemma parallel_terminates degree sched s : Panic ∉ concat units → run_schedule sched (steal_init degree) = Some s →
  (length sched ≤ steal_measure (steal_init degree))%nat ∧
  ∃ more r, parallel_run degree (sched ++ more) = Some r.
Proof.
  intros Hp Hr. split; [apply run_schedule_measure in Hr; lia|].
  remember (steal_measure s) as n eqn:En. revert sched s Hr En.
  induction n as [n IH] using lt_wf_ind. intros sched s Hr En.
  pose proof (run_schedule_inv _ _ _ (steal_inv_init degree) Hr) as Hi.
  destruct (all_done s) eqn:Ea.
  - exists [], (gather s). rewrite app_nil_r. unfold parallel_run. rewrite Hr. cbn. by rewrite Ea.
  - destruct (steal_progress s Hi Hp Ea) as (w & s' & Hs).
    assert (run_schedule (sched ++ [w]) (steal_init degree) = Some s') as Hr'.
    { clear -Hr Hs. revert Hr. generalize (steal_init degree). induction sched as [|v sched IH]; intros s0; cbn [app run_schedule].
      - intros [= ->]. by rewrite Hs.
      - destruct (steal_step s0 v); [|done]. cbn. apply IH. }
    destruct (IH (steal_measure s') ltac:(rewrite En; by eapply steal_step_measure) _ _ Hr' eq_refl) as (more & r & Hm).
    exists (w :: more), r. by rewrite <- app_assoc in Hm.
Qed.

(** When an item panics and none fails, no run ends: the caller waits for a worker
    that is gone. *)
Lemma panic_hangs degree sched : (0 < degree)%nat → Panic ∈ concat units → (∀ e, Err e ∉ concat units) →
  parallel_run degree sched = None.
Proof.
  intros Hd Hp He. destruct (parallel_run degree sched) as [r|] eqn:E; [|done].
  destruct (parallel_run_result _ _ _ Hd E) as [(out & ds & -> & Hu & _)|(e & _ & Hin)]; [|by destruct (He e)].
  rewrite <- Hu in Hp. apply list_elem_of_fmap in Hp as (d & [=] & _).
Qed.

End steal.

#[global] Arguments WState : clear implicits.
#[global] Arguments Steal : clear implicits.

(** ** The scans *)

Section scans.
Context (read : PageId → Result SlottedPage) (snapshot : Snapshot) (self_xid : Xid) (deadline : nat → Result unit).

(** The deadline is checked at every [k]-th unit. *)
Definition with_deadline {A} (k i : nat) (r : Result A) : Result A :=
  if decide (i mod k = 0)%nat then _ ← deadline i; r else r.

Definition option_list {A} (o : option A) : list A := match o with Some a => [a] | None => [] end.

(** Pages visited row by row. *)
Definition visit_units {R} (visit : RowId → list Z → Result (option R)) (pages : list PageId)
    : list (list (Result (list R))) :=
  imap (λ i page_id, [with_deadline 4 i
    (scan_page_visit read page_id snapshot self_xid (λ out rid b, o ← visit rid b; Ok (out ++ option_list o)) [])]) pages.

(** Pages copied first, then filtered. *)
Definition buffered_units {R} (visit : RowId → list Z → Result (option R)) (pages : list PageId)
    : list (list (Result (list R))) :=
  imap (λ i page_id, [with_deadline 4 i
    (page_buf ← scan_page_into read page_id snapshot self_xid [];
     for_each (λ out p, o ← visit p.1 p.2; Ok (out ++ option_list o)) [] page_buf)]) pages.

Definition keep_if {R} (matches : list Z → Result bool) (r : R) (b : list Z) : Result (option R) :=
  m ← matches b; Ok (if (m : bool) then Some r else None).

Definition parallel_count (pages : list PageId) (degree : nat) (sched : list nat) : option (Result Z) :=
  r ← parallel_run (imap (λ i page_id, [with_deadline 4 i
        (c ← count_page_visible read page_id snapshot self_xid; Ok [c])]) pages) false degree sched;
  Some (counts ← r; Ok (foldr Z.add 0 counts)).

Definition parallel_count_matching (matches : list Z → Result bool) (pages : list PageId) (degree : nat)
    (sched : list nat) : option (Result Z) :=
  r ← parallel_run (buffered_units (λ _ b, keep_if matches () b) pages) false degree sched;
  Some (hits ← r; Ok (zlen hits)).

Definition parallel_collect_matching (matches : list Z → Result bool) (pages : list PageId) (degree : nat)
    (sched : list nat) : option (Result (list (RowId * list Z))) :=
  parallel_run (buffered_units (λ rid b, keep_if matches (rid, b) b) pages) false degree sched.

Definition parallel_collect_row_ids (matches : list Z → Result bool) (pages : list PageId) (degree : nat)
    (sched : list nat) : option (Result (list RowId)) :=
  parallel_run (visit_units (λ rid b, keep_if matches rid b) pages) false degree sched.

Definition parallel_filter_project {Row} (per_row : list Z → Result (option Row)) (pages : list PageId) (degree : nat)
    (sched : list nat) : option (Result (list Row * list RowId)) :=
  let visit rid b : Result (option (Row * RowId)) :=
    o ← per_row b; Ok (match o with Some row => Some (row, rid) | None => None end) in
  match parallel_run (visit_units visit pages) false degree sched with
  | Some r => Some (rows ← r; Ok (rows.*1, rows.*2))
  | None => None
  end.

(** One candidate row id: its visible version, re-checked and projected. *)
Definition resolve_item {Row} (per_candidate : list Z → Result (option Row)) (rid : RowId) : Result (list Row) :=
  o ← get_visible read rid snapshot self_xid;
  match o with
  | Some b => row ← per_candidate b; Ok (option_list row)
  | None => Ok []
  end.

Definition parallel_resolve_candidates {Row} (per_candidate : list Z → Result (option Row)) (candidates : list RowId)
    (degree : nat) (sched : list nat) : option (Result (list Row)) :=
  parallel_run (imap (λ i rid, [with_deadline 64 i (resolve_item per_candidate rid)]) candidates) false degree sched.

(** The page cache of a worker does not change what a candidate resolves to. *)
Definition parallel_resolve_partitions {Row} (per_candidate : list Z → Result (option Row))
    (partitions : list (list RowId)) (degree : nat) (sched : list nat) : option (Result (list Row)) :=
  parallel_run ((λ part, imap (λ i rid, with_deadline 64 i (resolve_item per_candidate rid)) part) <$> partitions)
    true degree sched.

End scans.
