(* ===== verification/WorkerPool.v ===== *)
(** The worker pool of parallel scans and its budget ([src/sql/parallel_scan.rs]):
    [run_in_pool] posts a job and waits until the active workers have run it; a lease
    takes workers from a global budget and gives them back.

    Workers are numbered.  Each step is one critical section of the pool's mutex, the
    end of a job, or the drop of a worker's reference to it; the log records the
    generation and the worker of each finished execution.  Generations are natural
    numbers: the code's 64-bit counter would have to wrap around to differ. *)

From stdpp Require Import base numbers list strings.
From Stdlib Require Import Lia.
From S2P Require Import Prelude Format.

(** ** The pool *)

(** A worker waits, calls the job of a generation, has counted itself finished but still
    holds its reference to the job, or is gone after a panic. *)
Inductive Phase := Parked | Running (job : nat) | Holding (job : nat) | Gone.

Record PoolWorker := mkPoolWorker { pw_gen : nat; pw_phase : Phase }.

(** [wp_waiting] holds while a caller is inside [run_in_pool]; the [entry] mutex admits
    one at a time.  [wp_size] is the field [size]; the attached workers are a list. *)
Record WorkerPool := mkWorkerPool {
  wp_generation : nat;
  wp_degree : nat;
  wp_job : option nat;
  wp_finished : nat;
  wp_size : nat;
  wp_workers : list PoolWorker;
  wp_waiting : bool;
  wp_log : list (nat * nat)
}.

Inductive PoolEvent :=
| Post (degree job : nat)
| Wake (index : nat)
| Finish (index : nat)
| DropJob (index : nat)
| PanicJob (index : nat)
| Return.

Definition pw_set (s : WorkerPool) (i : nat) (w : PoolWorker) : WorkerPool :=
  mkWorkerPool (wp_generation s) (wp_degree s) (wp_job s) (wp_finished s) (wp_size s)
    (<[i := w]> (wp_workers s)) (wp_waiting s) (wp_log s).

(** A degree below two runs the job in the caller and leaves the pool alone. *)
Definition pool_event (s : WorkerPool) (e : PoolEvent) : option WorkerPool :=
  match e with
  | Post degree job =>
      if wp_waiting s then None
      else
        let real_degree := (degree `min` wp_size s)%nat in
        if decide (real_degree < 2)%nat then Some s
        else Some (mkWorkerPool (S (wp_generation s)) real_degree (Some job) 0 (wp_size s) (wp_workers s) true (wp_log s))
  | Wake i =>
      w ← wp_workers s !! i;
      match pw_phase w with
      | Parked =>
          if decide (wp_generation s ≠ pw_gen w) then
            if decide (i < wp_degree s)%nat then
              match wp_job s with
              | Some job => Some (pw_set s i (mkPoolWorker (wp_generation s) (Running job)))
              | None => Some (pw_set s i (mkPoolWorker (wp_generation s) Gone))
              end
            else Some (pw_set s i (mkPoolWorker (wp_generation s) Parked))
          else Some s
      | _ => None
      end
  | Finish i =>
      w ← wp_workers s !! i;
      match pw_phase w with
      | Running job =>
          Some (mkWorkerPool (wp_generation s) (wp_degree s) (wp_job s) (S (wp_finished s)) (wp_size s)
                  (<[i := mkPoolWorker (pw_gen w) (Holding job)]> (wp_workers s)) (wp_waiting s) (wp_log s ++ [(pw_gen w, i)]))
      | _ => None
      end
  | DropJob i =>
      w ← wp_workers s !! i;
      match pw_phase w with
      | Holding _ => Some (pw_set s i (mkPoolWorker (pw_gen w) Parked))
      | _ => None
      end
  | PanicJob i =>
      w ← wp_workers s !! i;
      match pw_phase w with
      | Running _ => Some (pw_set s i (mkPoolWorker (pw_gen w) Gone))
      | _ => None
      end
  | Return =>
      if wp_waiting s then
        if decide (wp_degree s ≤ wp_finished s)%nat then
          Some (mkWorkerPool (wp_generation s) (wp_degree s) None (wp_finished s) (wp_size s) (wp_workers s) false (wp_log s))
        else None
      else None
  end.

Fixpoint pool_run (es : list PoolEvent) (s : WorkerPool) : option WorkerPool :=
  match es with
  | [] => Some s
  | e :: es => s ← pool_event s e; pool_run es s
  end.

(** A pool whose spawned workers all belong to it. *)
Definition pool_init (n : nat) : WorkerPool := mkWorkerPool 0 0 None 0 n (replicate n (mkPoolWorker 0 Parked)) false [].

(** ** Invariant *)

(** The worker has finished the job of generation [g]. *)
Definition has_finished (g : nat) (w : PoolWorker) : bool :=
  bool_decide (pw_gen w = g) && match pw_phase w with Parked | Holding _ => true | _ => false end.

Definition finished_count (s : WorkerPool) : nat :=
  sum_list_with (λ w, if has_finished (wp_generation s) w then 1 else 0)%nat (take (wp_degree s) (wp_workers s)).

Definition pool_worker_ok (s : WorkerPool) (i : nat) (w : PoolWorker) : Prop :=
  (pw_gen w ≤ wp_generation s)%nat ∧
  match pw_phase w with
  | Running job => pw_gen w = wp_generation s ∧ (i < wp_degree s)%nat ∧ wp_job s = Some job ∧ wp_waiting s = true
  | Gone => wp_waiting s = true ∧ (i < wp_degree s)%nat ∧ pw_gen w = wp_generation s
  | Parked | Holding _ => wp_waiting s = false → (i < wp_degree s)%nat → pw_gen w = wp_generation s
  end ∧
  ((i < wp_degree s)%nat → has_finished (wp_generation s) w = true → (wp_generation s, i) ∈ wp_log s).

Definition log_ok (s : WorkerPool) : Prop :=
  NoDup (wp_log s) ∧
  ∀ g i, (g, i) ∈ wp_log s → (g < wp_generation s)%nat ∨
    g = wp_generation s ∧ (i < wp_degree s)%nat ∧ ∃ w, wp_workers s !! i = Some w ∧ has_finished g w = true.

Record pool_inv (s : WorkerPool) : Prop := {
  pi_workers : ∀ i w, wp_workers s !! i = Some w → pool_worker_ok s i w;
  pi_degree : (wp_degree s ≤ length (wp_workers s))%nat;
  pi_size : length (wp_workers s) = wp_size s;
  pi_finished : wp_finished s = finished_count s;
  pi_job : wp_waiting s = true → ∃ job, wp_job s = Some job;
  pi_idle : wp_waiting s = false → wp_job s = None;
  pi_log : log_ok s
}.

Lemma sum_take_update (f : PoolWorker → nat) ws n i x y : ws !! i = Some x →
  (sum_list_with f (take n (<[i := y]> ws)) + (if decide (i < n) then f x else 0) =
   sum_list_with f (take n ws) + (if decide (i < n) then f y else 0))%nat.
Proof.
  intros Hi. case_decide as Hn.
  - rewrite take_insert_lt by done. assert (take n ws !! i = Some x) as Ht by (by rewrite lookup_take_lt).
    rewrite insert_take_drop by (by eapply lookup_lt_Some).
    rewrite <- (take_drop_middle (take n ws) i x Ht) at 3. rewrite !sum_list_with_app. cbn [sum_list_with]. lia.
  - rewrite take_insert_ge by lia. lia.
Qed.

Lemma pool_inv_init n : pool_inv (pool_init n).
Proof.
  split; cbn; try done.
  - intros i w [-> Hi]%lookup_replicate. unfold pool_worker_ok. cbn. split; [lia|split; [lia|lia]].
  - lia.
  - by rewrite length_replicate.
  - split; [constructor|]. cbn. intros g i Hi. by apply not_elem_of_nil in Hi.
Qed.

(** No step of one worker [i] that is replaced by [y], not finished before, breaks the
    invariant. *)
Lemma inv_replace s i x y fin log : pool_inv s → wp_workers s !! i = Some x →
  has_finished (wp_generation s) x = false ∨ (wp_degree s ≤ i)%nat →
  let s' := mkWorkerPool (wp_generation s) (wp_degree s) (wp_job s) fin (wp_size s) (<[i := y]> (wp_workers s)) (wp_waiting s) log in
  pool_worker_ok s' i y →
  (fin = wp_finished s + if decide (i < wp_degree s ∧ has_finished (wp_generation s) y = true) then 1 else 0)%nat →
  (log = wp_log s ∨ log = wp_log s ++ [(wp_generation s, i)] ∧ (i < wp_degree s)%nat ∧ has_finished (wp_generation s) y = true) →
  pool_inv s'.
Proof.
  intros Hi Hx Hnf s' Hy Hfin Hlog.
  assert (∀ p, p ∈ wp_log s → p ∈ log) as Hsub.
  { intros p Hp. destruct Hlog as [->|[-> _]]; [done|]. apply elem_of_app. by left. }
  split; cbn.
  - intros j w [(<- & <- & _)|(Hne & Hw)]%list_lookup_insert_Some; [done|].
    destruct (pi_workers s Hi j w Hw) as (H1 & H2 & H3). split; [done|split; [done|]]. cbn. auto.
  - rewrite length_insert. apply Hi.
  - rewrite length_insert. apply Hi.
  - rewrite Hfin, (pi_finished s Hi). unfold finished_count. cbn.
    pose proof (sum_take_update (λ w, if has_finished (wp_generation s) w then 1 else 0)%nat
      (wp_workers s) (wp_degree s) i x y Hx) as Hs. cbn in Hs.
    destruct (decide (i < wp_degree s)%nat) as [Hd|Hd].
    + destruct Hnf as [Hnf|]; [|lia]. rewrite Hnf in Hs. destruct (has_finished (wp_generation s) y).
      * rewrite decide_True by done. lia.
      * rewrite decide_False by (by intros [? ?]). lia.
    + rewrite decide_False by tauto. lia.
  - apply Hi.
  - apply Hi.
  - destruct (pi_log s Hi) as [Hnd Hl]. split; cbn.
    + destruct Hlog as [->|(-> & Hd & _)]; [done|]. apply NoDup_app. split; [done|]. split; [|apply NoDup_singleton].
      intros p Hp ->%list_elem_of_singleton. destruct (Hl _ _ Hp) as [?|(_ & _ & w & Hw & Hfw)]; [lia|].
      rewrite Hx in Hw. injection Hw as <-. destruct Hnf; [congruence|lia].
    + assert (∀ g j, (g, j) ∈ wp_log s → (g < wp_generation s)%nat ∨ g = wp_generation s ∧ (j < wp_degree s)%nat ∧
        ∃ w, <[i := y]> (wp_workers s) !! j = Some w ∧ has_finished g w = true) as Hold.
      { intros g j Hg. destruct (Hl g j Hg) as [?|(-> & Hj & w & Hw & Hfw)]; [by left|]. right. split; [done|split; [done|]].
        destruct (decide (i = j)) as [->|]; [|exists w; by rewrite list_lookup_insert_ne].
        rewrite Hx in Hw. injection Hw as <-. destruct Hnf; [congruence|lia]. }
      intros g j Hg. destruct Hlog as [->|(-> & Hd & Hfy)]; [by apply Hold|].
      apply elem_of_app in Hg as [Hg|[= -> ->]%list_elem_of_singleton]; [by apply Hold|].
      right. split; [done|split; [done|]]. exists y. split; [|done]. apply list_lookup_insert_eq. by eapply lookup_lt_Some.
Qed.

Lemma all_finished s : finished_count s = wp_degree s → (wp_degree s ≤ length (wp_workers s))%nat →
  ∀ i w, (i < wp_degree s)%nat → wp_workers s !! i = Some w → has_finished (wp_generation s) w = true.
Proof.
  unfold finished_count. generalize (wp_generation s). intros g Hc Hl i w Hi Hw.
  assert (∀ ws : list PoolWorker, (sum_list_with (λ w, if has_finished g w then 1 else 0) ws ≤ length ws)%nat ∧
    (sum_list_with (λ w, if has_finished g w then 1 else 0)%nat ws = length ws → ∀ w, w ∈ ws → has_finished g w = true)) as Hall.
  { induction ws as [|x ws [IH1 IH2]]; [split; [done|]; intros _ v Hv; by apply not_elem_of_nil in Hv|]. cbn.
    destruct (has_finished g x) eqn:Ex; split; try lia. intros E v [->|Hv]%elem_of_cons; [done|]. apply IH2; [lia|done]. }
  apply (proj2 (Hall (take (wp_degree s) (wp_workers s)))); [by rewrite length_take, Hc, Nat.min_l|].
  eapply list_elem_of_lookup_2. by rewrite lookup_take_lt.
Qed.

Lemma finished_le s : (finished_count s ≤ wp_degree s)%nat.
Proof.
  unfold finished_count. generalize (wp_generation s). intros g.
  assert (∀ ws : list PoolWorker, (sum_list_with (λ w, if has_finished g w then 1 else 0) ws ≤ length ws)%nat) as Hall.
  { induction ws as [|x ws IH]; [done|]. cbn. destruct (has_finished g x); lia. }
  etrans; [apply Hall|]. rewrite length_take. lia.
Qed.

(** The worker is not in a call of the job. *)
Definition quiescent (w : PoolWorker) : Prop :=
  match pw_phase w with Parked | Holding _ => True | _ => False end.

Lemma has_finished_parked g w : has_finished g w = true ↔ pw_gen w = g ∧ quiescent w.
Proof.
  unfold has_finished, quiescent. rewrite andb_true_iff, bool_decide_eq_true. destruct (pw_phase w); naive_solver.
Qed.

(** A worker replaced by one that has finished the same generations. *)
Lemma inv_refine s i x y : pool_inv s → wp_workers s !! i = Some x →
  (∀ g, has_finished g y = has_finished g x) → pool_worker_ok s i y → pool_inv (pw_set s i y).
Proof.
  intros Hi Hx Hf Hy. split; cbn; try apply Hi.
  - intros j w [(<- & <- & _)|(_ & Hw)]%list_lookup_insert_Some; [done|]. by apply (pi_workers s Hi).
  - rewrite length_insert. apply Hi.
  - rewrite length_insert. apply Hi.
  - rewrite (pi_finished s Hi). unfold finished_count. cbn.
    pose proof (sum_take_update (λ w, if has_finished (wp_generation s) w then 1 else 0)%nat
      (wp_workers s) (wp_degree s) i x y Hx) as Hs. cbn in Hs. rewrite Hf in Hs. case_decide; lia.
  - destruct (pi_log s Hi) as [Hnd Hl]. split; [done|]. cbn. intros g j Hg.
    destruct (Hl g j Hg) as [?|(-> & Hj & w & Hw & Hfw)]; [by left|]. right. split; [done|split; [done|]].
    destruct (decide (i = j)) as [->|]; [|exists w; by rewrite list_lookup_insert_ne].
    exists y. rewrite Hx in Hw. injection Hw as ->. split; [|by rewrite Hf].
    apply list_lookup_insert_eq. by eapply lookup_lt_Some.
Qed.

Lemma inv_post s degree job s' : pool_inv s → pool_event s (Post degree job) = Some s' → pool_inv s'.
Proof.
  intros Hi. cbn. destruct (wp_waiting s) eqn:Ew; [done|]. case_decide as Hd; [by intros [= <-]|].
  intros [= <-]. pose proof (pi_size s Hi).
  assert (∀ w, (∃ i, wp_workers s !! i = Some w) → has_finished (S (wp_generation s)) w = false) as Hnf.
  { intros w [i Hw]. destruct (pi_workers s Hi i w Hw) as [Hg _]. unfold has_finished.
    rewrite bool_decide_eq_false_2 by lia. done. }
  split; cbn; try done; try lia; try (by eauto).
  - intros i w Hw. destruct (pi_workers s Hi i w Hw) as (Hg & Hp & _). split; [cbn; lia|]. split.
    + cbn. destruct (pw_phase w); [done| |done|]; destruct Hp as (? & ? & ? & ?) || destruct Hp as (? & ?); congruence.
    + cbn. intros _ Hf. by rewrite Hnf in Hf by eauto.
  - unfold finished_count. cbn. set (ws := take _ _).
    assert (∀ w, w ∈ ws → has_finished (S (wp_generation s)) w = false) as Hws.
    { intros w Hw. apply Hnf. subst ws. apply list_elem_of_lookup in Hw as [i Hw]. exists i.
      by apply lookup_take_Some in Hw as [Hw _]. }
    clearbody ws. induction ws as [|w ws IH]; [done|]. cbn. rewrite (Hws w) by (by left).
    apply IH. intros v Hv. apply Hws. by right.
  - destruct (pi_log s Hi) as [Hn Hl]. split; [done|]. cbn. intros g i Hg. left.
    destruct (Hl g i Hg) as [?|(-> & _)]; lia.
Qed.

Lemma inv_wake s i s' : pool_inv s → pool_event s (Wake i) = Some s' → pool_inv s'.
Proof.
  intros Hi. cbn. destruct (wp_workers s !! i) as [w|] eqn:Hw; [|done]. cbn.
  destruct (pi_workers s Hi i w Hw) as (Hg & Hp & Hf). destruct (pw_phase w) eqn:Ep; [|done..].
  case_decide as Hne; [|by intros [= <-]].
  assert (has_finished (wp_generation s) w = false) as Hnf.
  { unfold has_finished. rewrite bool_decide_eq_false_2 by lia. done. }
  case_decide as Hd.
  - destruct (wp_waiting s) eqn:Ewt; [|destruct Hne; symmetry; by apply Hp].
    destruct (pi_job s Hi Ewt) as [job Hj]. rewrite Hj. intros [= <-]. unfold pw_set.
    eapply (inv_replace s i w); [done|done|by left|..|by left].
    + unfold pool_worker_ok. cbn. split; [lia|]. split; [by rewrite Ewt|]. intros _ Hx.
      apply has_finished_parked in Hx as [_ Hx]. done.
    + rewrite decide_False; [lia|]. intros [_ Hx]. apply has_finished_parked in Hx as [_ Hx]. done.
  - intros [= <-]. unfold pw_set. eapply (inv_replace s i w); [done|done|right; lia|..|by left].
    + unfold pool_worker_ok. cbn. split; [lia|]. split; [lia|]. lia.
    + rewrite decide_False; [lia|]. lia.
Qed.

Lemma inv_finish s i s' : pool_inv s → pool_event s (Finish i) = Some s' → pool_inv s'.
Proof.
  intros Hi. cbn. destruct (wp_workers s !! i) as [w|] eqn:Hw; [|done]. cbn.
  destruct (pi_workers s Hi i w Hw) as (Hg & Hp & Hf). destruct (pw_phase w) as [|job|job|] eqn:Ep; [done| |done..].
  destruct Hp as (Eg & Hd & Hj & Hwt). intros [= <-]. rewrite Eg.
  assert (has_finished (wp_generation s) (mkPoolWorker (wp_generation s) (Holding job)) = true) as Hy by (by apply has_finished_parked).
  eapply (inv_replace s i w); [done|done| |..].
  - left. unfold has_finished. rewrite Ep. apply andb_false_r.
  - unfold pool_worker_ok. cbn. split; [lia|]. split; [done|]. intros _ _. apply elem_of_app. right. by apply list_elem_of_singleton.
  - rewrite decide_True by done. lia.
  - right. done.
Qed.

Lemma inv_drop s i s' : pool_inv s → pool_event s (DropJob i) = Some s' → pool_inv s'.
Proof.
  intros Hi. cbn. destruct (wp_workers s !! i) as [w|] eqn:Hw; [|done]. cbn.
  destruct (pi_workers s Hi i w Hw) as (Hg & Hp & Hf). destruct (pw_phase w) as [|job|job|] eqn:Ep; [done..| |done].
  intros [= <-].
  assert (∀ g, has_finished g (mkPoolWorker (pw_gen w) Parked) = has_finished g w) as E.
  { intros g. unfold has_finished. by rewrite Ep. }
  apply (inv_refine s i w); [done..|]. split; [done|]. split; [done|]. intros Hd Hfin. rewrite E in Hfin. auto.
Qed.

Lemma inv_panic s i s' : pool_inv s → pool_event s (PanicJob i) = Some s' → pool_inv s'.
Proof.
  intros Hi. cbn. destruct (wp_workers s !! i) as [w|] eqn:Hw; [|done]. cbn.
  destruct (pi_workers s Hi i w Hw) as (Hg & Hp & Hf). destruct (pw_phase w) as [|job|job|] eqn:Ep; [done| |done..].
  destruct Hp as (Eg & Hd & Hj & Hwt). intros [= <-]. unfold pw_set.
  eapply (inv_replace s i w); [done|done| |..|by left].
  - left. unfold has_finished. rewrite Ep. apply andb_false_r.
  - unfold pool_worker_ok. cbn. split; [lia|]. split; [done|]. intros _ Hx. apply has_finished_parked in Hx as [_ Hx]. done.
  - rewrite decide_False; [lia|]. intros [_ Hx]. apply has_finished_parked in Hx as [_ Hx]. done.
Qed.

(** A caller that may return has every active worker past its call of the job. *)
Lemma return_finished s : pool_inv s → (wp_degree s ≤ wp_finished s)%nat →
  ∀ i w, wp_workers s !! i = Some w → quiescent w ∧ ((i < wp_degree s)%nat → has_finished (wp_generation s) w = true).
Proof.
  intros Hi Hf i w Hw. rewrite (pi_finished s Hi) in Hf. pose proof (finished_le s).
  assert ((i < wp_degree s)%nat → has_finished (wp_generation s) w = true) as Ha.
  { intros Hd. eapply all_finished; [lia|apply Hi|done|done]. }
  split; [|done]. destruct (pi_workers s Hi i w Hw) as (_ & Hp & _). unfold quiescent.
  destruct (pw_phase w) eqn:Ep; [done| |done|];
    destruct Hp as (? & Hx & ?); (assert (i < wp_degree s)%nat as Hd by tauto);
    apply Ha in Hd; apply has_finished_parked in Hd as [_ Hd]; unfold quiescent in Hd; by rewrite Ep in Hd.
Qed.

Lemma inv_return s s' : pool_inv s → pool_event s Return = Some s' → pool_inv s'.
Proof.
  intros Hi. cbn. destruct (wp_waiting s) eqn:Ew; [|done]. case_decide as Hd; [|done]. intros [= <-].
  pose proof (return_finished s Hi Hd) as Hr. split; cbn; try done; try apply Hi.
  intros i w Hw. destruct (pi_workers s Hi i w Hw) as (Hg & _ & Hf). destruct (Hr i w Hw) as [Hp Hfin].
  split; [done|]. split; [|done]. cbn. unfold quiescent in Hp.
  destruct (pw_phase w); try done; intros _ Hlt; by apply has_finished_parked, Hfin.
Qed.

Lemma pool_run_inv es s s' : pool_inv s → pool_run es s = Some s' → pool_inv s'.
Proof.
  revert s. induction es as [|e es IH]; intros s Hi; cbn [pool_run]; [by intros [= <-]|].
  destruct (pool_event s e) as [s1|] eqn:E; [|done]. cbn. apply IH.
  destruct e; eauto using inv_post, inv_wake, inv_finish, inv_drop, inv_panic, inv_return.
Qed.

(** The job of an idle pool is not called again: a later call is one of a later
    generation. *)
Lemma run_generation es s s' : pool_run es s = Some s' →
  (wp_generation s ≤ wp_generation s')%nat ∧
  (wp_generation s' = wp_generation s → wp_waiting s = false → wp_waiting s' = false).
Proof.
  revert s. induction es as [|e es IH]; intros s; cbn [pool_run]; [by intros [= <-]|].
  destruct (pool_event s e) as [s1|] eqn:E; [|done]. cbn. intros [H1 H2]%IH.
  assert ((wp_generation s ≤ wp_generation s1)%nat ∧
    (wp_generation s1 = wp_generation s → wp_waiting s = false → wp_waiting s1 = false)) as [H3 H4].
  { destruct e as [d j|k|k|k|k|]; cbn in E; try (destruct (wp_workers s !! k) as [v|]; [|done]; cbn in E);
      repeat case_match; simplify_eq; cbn; split; try done; lia. }
  split; [lia|]. intros Hg Hw. apply H2; [lia|]. apply H4; [lia|done].
Qed.

(** C17: When [run_in_pool] returns, the pool has let go of the job; no worker is in a
    call of it; each active worker has called it exactly once, and no other has; and in
    every later state a worker that is in a call is in one of a later job.  A worker may
    still hold its reference to the job, and drops it later. *)
Theorem pool_return_safe n es s s' : pool_run es (pool_init n) = Some s → pool_event s Return = Some s' →
  wp_job s' = None ∧
  (∀ i w job, wp_workers s' !! i = Some w → pw_phase w ≠ Running job) ∧
  (∀ i, (i < wp_degree s')%nat → (wp_generation s', i) ∈ wp_log s') ∧
  (∀ i, (wp_generation s', i) ∈ wp_log s' → (i < wp_degree s')%nat) ∧
  NoDup (wp_log s') ∧
  (∀ es' s'' i w job, pool_run es' s' = Some s'' → wp_workers s'' !! i = Some w →
    pw_phase w = Running job → (wp_generation s' < pw_gen w)%nat).
Proof.
  intros Hr Hs. pose proof (pool_run_inv _ _ _ (pool_inv_init n) Hr) as Hi.
  pose proof (inv_return _ _ Hi Hs) as Hi'. cbn in Hs. destruct (wp_waiting s); [|done]. case_decide as Hd; [|done].
  injection Hs as <-. cbn in *. pose proof (return_finished s Hi Hd) as Hf. split_and!; [done|..].
  - intros i w job Hw Hr'. destruct (Hf i w Hw) as [Hq _]. unfold quiescent in Hq. by rewrite Hr' in Hq.
  - intros i Hlt. destruct (lookup_lt_is_Some_2 (wp_workers s) i ltac:(pose proof (pi_degree s Hi); lia)) as [w Hw].
    destruct (pi_workers s Hi i w Hw) as (_ & _ & Hl). apply Hl; [done|]. by apply (Hf i w Hw).
  - intros i Hl. destruct (proj2 (pi_log s Hi) _ _ Hl) as [?|(_ & ? & _)]; [lia|done].
  - apply (pi_log s Hi).
  - intros es' s2 i w job Hr' Hw Hrun. pose proof (pool_run_inv _ _ _ Hi' Hr') as Hi2.
    destruct (pi_workers s2 Hi2 i w Hw) as (_ & Hp & _). rewrite Hrun in Hp. destruct Hp as (-> & _ & _ & Hwt).
    apply run_generation in Hr' as [Hle Hno]. cbn in *.
    destruct (decide (wp_generation s2 = wp_generation s)) as [E|]; [|lia]. rewrite Hno in Hwt; done.
Qed.

(** The job outlives the call that posted it: after [run_in_pool] has returned and its
    caller may have freed what the closure refers to, a worker can hold the closure. *)
Theorem job_outlives_return :
  ∃ s w, pool_run [Post 2 7; Wake 0; Wake 1; Finish 0; Finish 1; Return] (pool_init 2) = Some s ∧
    wp_waiting s = false ∧ wp_workers s !! 0%nat = Some w ∧ pw_phase w = Holding 7.
Proof. eexists _, _. split; [vm_compute; reflexivity|]. by repeat split. Qed.


(** C37: After a worker's job panicked, the caller never returns. *)
Theorem panicked_worker_blocks n es s i w : pool_run es (pool_init n) = Some s →
  wp_workers s !! i = Some w → pw_phase w = Gone →
  ∀ es' s', pool_run es' s = Some s' → pool_event s' Return = None ∧ wp_waiting s' = true.
Proof.
  intros Hr Hw Hg es' s' Hr'. pose proof (pool_run_inv _ _ _ (pool_inv_init n) Hr) as Hi.
  assert (∀ es s, pool_inv s → wp_workers s !! i = Some w → pool_run es s = Some s' →
    pool_inv s' ∧ wp_workers s' !! i = Some w) as Hkeep.
  { clear -Hg. induction es as [|e es IH]; intros s Hi Hw; cbn [pool_run]; [by intros [= <-]|].
    destruct (pool_event s e) as [s1|] eqn:E; [|done]. cbn. apply IH.
    - destruct e; eauto using inv_post, inv_wake, inv_finish, inv_drop, inv_panic, inv_return.
    - destruct e as [d j|k|k|k|k|]; cbn in E; [by repeat case_match; simplify_eq| | | | |by repeat case_match; simplify_eq].
      all: destruct (wp_workers s !! k) as [v|] eqn:Ek; [|done]; cbn in E; repeat case_match; simplify_eq; try done; cbn.
      all: destruct (decide (k = i)) as [->|]; [congruence|by rewrite list_lookup_insert_ne]. }
  destruct (Hkeep es' s Hi Hw Hr') as [Hi' Hw'].
  destruct (pi_workers s' Hi' i w Hw') as (_ & Hp & _). rewrite Hg in Hp. destruct Hp as (Hwt & Hd & _).
  split; [|done]. cbn. rewrite Hwt. case_decide as Hfin; [|done].
  destruct (return_finished s' Hi' Hfin i w Hw') as [Hpk _]. unfold quiescent in Hpk. by rewrite Hg in Hpk.
Qed.

(** The pool that [init_from_env] publishes when a thread could not be spawned: a new
    one, to which no worker belongs; the spawned workers wait on the old one. *)
Definition pool_rebuilt (spawned : nat) : WorkerPool := mkWorkerPool 0 0 None 0 spawned [] false [].

Theorem rebuilt_pool_blocks spawned degree job s es s' :
  pool_event (pool_rebuilt spawned) (Post degree job) = Some s → wp_waiting s = true →
  pool_run es s = Some s' → pool_event s' Return = None.
Proof.
  cbn. case_decide as Hd; [by intros [= <-]|]. intros [= <-] _.
  assert (∀ es s, wp_workers s = [] → wp_waiting s = true → (wp_finished s < wp_degree s)%nat → pool_run es s = Some s' →
    pool_event s' Return = None) as Hx.
  { clear. induction es as [|e es IH]; intros s Hw Hwt Hf; cbn [pool_run].
    - intros [= <-]. cbn. rewrite Hwt, decide_False by lia. done.
    - destruct e; cbn; rewrite ?Hw, ?Hwt; cbn; try done. rewrite decide_False by lia. done. }
  intros Hr. eapply Hx; [..|exact Hr]; [done|done|cbn; lia].
Qed.

(** ** The budget *)

(** The settings, the number of cores, the global maximum, what is available and the
    sizes of the leases held. *)
Record Budget := mkBudget {
  bg_enabled : bool;
  bg_min_pages : nat;
  bg_max_workers : nat;
  bg_cores : nat;
  bg_global_max : nat;
  bg_available : nat;
  bg_leases : list nat
}.

Definition with_available (b : Budget) (available : nat) (leases : list nat) : Budget :=
  mkBudget (bg_enabled b) (bg_min_pages b) (bg_max_workers b) (bg_cores b) (bg_global_max b) available leases.

Definition degree_for (b : Budget) (n_pages : nat) : option nat :=
  if negb (bg_enabled b) || bool_decide (n_pages < bg_min_pages b)%nat then None
  else
    let cap := if decide (bg_max_workers b = 0%nat) then bg_cores b else (bg_max_workers b `min` bg_cores b)%nat in
    let degree := ((cap `max` 1) `min` n_pages)%nat in
    if decide (1 < degree)%nat then Some degree else None.

Definition take_from_pool (b : Budget) (want : nat) : nat * Budget :=
  let grant := (want `min` bg_available b)%nat in
  (grant, with_available b (bg_available b - grant) (bg_leases b)).

(** The degree of the lease, if one is given. *)
Definition acquire (b : Budget) (n_units : nat) : option nat * Budget :=
  match degree_for b n_units with
  | None => (None, b)
  | Some want =>
      let '(granted, b) := take_from_pool b want in
      if decide (2 ≤ granted)%nat then
        (Some granted, with_available b (bg_available b) (granted :: bg_leases b))
      else (None, with_available b (bg_available b + granted) (bg_leases b))
  end.

(** [Drop] of the lease at a position. *)
Definition drop_lease (b : Budget) (i : nat) : Budget :=
  match bg_leases b !! i with
  | Some g => with_available b (bg_available b + g) (delete i (bg_leases b))
  | None => b
  end.

Definition set_max_total_workers (b : Budget) (n : nat) : Budget :=
  let n := ((if decide (n = 0%nat) then bg_cores b else n) `max` 1)%nat in
  let inflight := (bg_global_max b - bg_available b)%nat in
  mkBudget (bg_enabled b) (bg_min_pages b) (bg_max_workers b) (bg_cores b) n (n - inflight) (bg_leases b).

Inductive BudgetEvent := BAcquire (n_units : nat) | BDrop (i : nat).

Definition budget_event (b : Budget) (e : BudgetEvent) : Budget :=
  match e with BAcquire n => (acquire b n).2 | BDrop i => drop_lease b i end.

Definition budget_inv (b : Budget) : Prop :=
  (bg_available b + sum_list (bg_leases b) = bg_global_max b)%nat ∧ Forall (λ g, 2 ≤ g)%nat (bg_leases b).

Lemma budget_event_inv b e : budget_inv b → budget_inv (budget_event b e) ∧ bg_global_max (budget_event b e) = bg_global_max b.
Proof.
  intros [Hs Hl]. destruct e as [n|i]; cbn.
  - unfold acquire. destruct (degree_for b n) as [want|]; [|done]. cbn. case_decide as Hg; cbn.
    + split; [|done]. split; cbn; [unfold id in *; lia|by constructor].
    + split; [|done]. split; cbn; [lia|done].
  - unfold drop_lease. destruct (bg_leases b !! i) as [g|] eqn:E; [|done]. split; [|done]. split; cbn.
    + pose proof (delete_Permutation _ _ _ E) as Hp. rewrite Hp in Hs. cbn [sum_list_with] in Hs. unfold id in *. lia.
    + by apply Forall_delete.
Qed.

(** The workers of all leases together never exceed the global maximum. *)
Theorem budget_bounds b es : budget_inv b →
  let b' := foldl budget_event b es in
  budget_inv b' ∧ (sum_list (bg_leases b') ≤ bg_global_max b)%nat.
Proof.
  intros Hi. cbn zeta. assert (budget_inv (foldl budget_event b es) ∧ bg_global_max (foldl budget_event b es) = bg_global_max b)
    as [Hb Hg].
  { revert b Hi. induction es as [|e es IH]; intros b Hi; [done|]. cbn.
    destruct (budget_event_inv b e Hi) as [Hb Hg]. destruct (IH _ Hb) as [H1 H2]. split; [done|congruence]. }
  split; [done|]. rewrite <- Hg. destruct Hb as [Hs _]. lia.
Qed.

(** Lowering the maximum while leases are held is undone when they are dropped: more
    workers are then available than the maximum allows. *)
Theorem lowered_budget_exceeded :
  let b := mkBudget true 1 0 8 8 8 [] in
  let b' := drop_lease (set_max_total_workers (acquire b 100).2 2) 0 in
  bg_global_max b' = 2%nat ∧ bg_available b' = 8%nat.
Proof. vm_compute. done. Qed.

Definition w_job_events : list PoolEvent := [Post 2 7; Wake 1; Wake 0; Finish 0; Wake 2; Finish 1].
Definition w_job_done : WorkerPool := Eval vm_compute in default (pool_init 3) (pool_run w_job_events (pool_init 3)).

Lemma pool_return_safe_witness : ∃ s', pool_event w_job_done Return = Some s' ∧ wp_job s' = None ∧
  ∀ i, (i < wp_degree s')%nat → (wp_generation s', i) ∈ wp_log s'.
Proof.
  eexists. split; [vm_compute; reflexivity|].
  edestruct (pool_return_safe 3 w_job_events w_job_done) as (H1 & _ & H2 & _); [vm_compute; reflexivity|vm_compute; reflexivity|].
  split; [exact H1|exact H2].
Defined.

Definition w_panicked : WorkerPool := Eval vm_compute in default (pool_init 3) (pool_run [Post 2 7; Wake 1; PanicJob 1] (pool_init 3)).
Definition w_blocked : WorkerPool := Eval vm_compute in default (pool_init 3) (pool_run [Wake 0; Finish 0] w_panicked).

Lemma panicked_worker_blocks_witness : pool_event w_blocked Return = None ∧ wp_waiting w_blocked = true.
Proof.
  apply (panicked_worker_blocks 3 [Post 2 7; Wake 1; PanicJob 1] w_panicked 1 (mkPoolWorker 1 Gone)) with (es' := [Wake 0; Finish 0]);
    vm_compute; reflexivity.
Defined.
