(* ===== verification/SqlSelect.v ===== *)
(** SELECT on one table ([src/sql/executor.rs]): the sequential scan, its parallel and
    read-only variants, and the paths through a B+tree index.

    The index is used through [IndexReader]; [read] reads a heap page, [pages] is the
    page directory of the table, [check] and [deadline] are the outcomes of the
    cancellation checks, and a lease is the degree of a parallel run with its
    schedule. *)

From stdpp Require Import base numbers list strings.
From Stdlib Require Import Lia.
From S2P Require Import Prelude Format Mvcc Page Txn HeapRead BTreeNode BTree Text Float Datetime SqlTypes SqlValue SqlRow SqlStats SqlExpr ParallelScan.

(** [str::eq_ignore_ascii_case] *)
Definition eq_ignore_ascii_case (a b : string) : bool := bool_decide (ascii_lower <$> lit a = ascii_lower <$> lit b).

(** What the executor asks of an index. *)
Record IndexReader := mkIndexReader {
  ix_search : CmpOp → OrderedValue → Result (option (list RowId));
  ix_search_with_keys : CmpOp → OrderedValue → Result (list (OrderedValue * RowId));
  ix_search_with_include : CmpOp → OrderedValue → Result (list (OrderedValue * list Z * RowId));
  ix_search_range_partition : RangeOp → OrderedValue → nat → Result (list (list RowId))
}.

(** [OrderedValue::try_from] and [into_literal]. *)
Definition ordered_of (l : Literal) : option OrderedValue :=
  match l with
  | LInt n => Some (KInt n)
  | LText s => Some (KText s)
  | LBool b => Some (KBool b)
  | _ => None
  end.

Definition into_literal (k : OrderedValue) : Literal :=
  match k with KInt n => LInt n | KText s => LText s | KBool b => LBool b end.

(** ** Finding a use for an index *)

Definition Hit : Type := string * CmpOp * Literal.

Fixpoint find_near (expr : Expr) : option (string * list Z * nat) :=
  match expr with
  | ENear column query k => Some (column, query, k)
  | EAnd l r => match find_near l with Some n => Some n | None => find_near r end
  | _ => None
  end.

Fixpoint find_match (expr : Expr) : option (string * Expr) :=
  match expr with
  | EMatch column query => Some (column, query)
  | EAnd l r => match find_match l with Some n => Some n | None => find_match r end
  | _ => None
  end.

Definition plan_is_concurrent_read (predicate : option Expr) : bool :=
  match predicate ≫= find_near, predicate ≫= find_match with None, None => true | _, _ => false end.

Definition btree_column (table : TableDef) (column : string) : bool :=
  existsb (λ c, bool_decide (col_name c = column) && bool_decide (col_index c = Some IBTree)) (td_columns table).

Definition comparison_hit (op : CmpOp) (lhs rhs : Expr) : option Hit :=
  match lhs, rhs with
  | EColumn c, ELiteral l => Some (c, op, l)
  | ELiteral l, EColumn c => Some (c, flip_cmp_op op, l)
  | _, _ => None
  end.

Fixpoint find_indexable_btree_predicate (expr : Expr) (table : TableDef) : option Hit :=
  match expr with
  | EBinOp op lhs rhs =>
      hit ← comparison_hit op lhs rhs;
      if btree_column table hit.1.1 then Some hit else None
  | EAnd l r =>
      match find_indexable_btree_predicate l table with
      | Some h => Some h
      | None => find_indexable_btree_predicate r table
      end
  | _ => None
  end.

(** Of two terms, the one the statistics estimate as more selective. *)
Fixpoint find_best_indexable_btree_predicate (expr : Expr) (table : TableDef) (stats : option TableStats) : option Hit :=
  match expr with
  | EAnd l r =>
      match find_best_indexable_btree_predicate l table stats, find_best_indexable_btree_predicate r table stats with
      | None, r => r
      | Some lhit, None => Some lhit
      | Some lhit, Some rhit =>
          match f64_partial_cmp (sel_of stats rhit) (sel_of stats lhit) with Some Lt => Some rhit | _ => Some lhit end
      end
  | _ => find_indexable_btree_predicate expr table
  end.

(** Whether the projection is covered by the index. *)
Definition index_only_scan (table : TableDef) (projection : list string) (index_col : string) : bool :=
  let include :=
    match list_find (λ c, eq_ignore_ascii_case (col_name c) index_col) (td_columns table) with
    | Some (_, c) => col_include_cols c
    | None => []
    end in
  match projection with
  | [] => false
  | _ => forallb (λ p, eq_ignore_ascii_case p index_col || existsb (λ ic, eq_ignore_ascii_case ic p) include) projection
  end.

Section select.
Context `{!SerdeJson, !CaseTables}.
Context (read : PageId → Result SlottedPage) (snapshot : Snapshot) (self_xid : Xid).

(** ** One row *)

Section per_row.
Context (table : TableDef) (projection : list string) (predicate : option Expr)
  (project : list string → list ColumnDef → list Literal → Result (list Literal)).

Definition bound_pred : option Expr :=
  match predicate with Some p => Some (bind_predicate_columns p (td_columns table)) | None => None end.
Definition pred_cols : list nat := match bound_pred with Some p => expr_columns p table | None => [] end.
Definition full_cols : list nat := projection_columns table projection ++ pred_cols.

Definition needed_row (cols : list nat) (b : list Z) : Result (list Literal) :=
  let '(needed, upto) := needed_mask cols (length (td_columns table)) in
  deform_row b (td_columns table) upto needed.

Definition project_needed (b : list Z) : Result (option (list Literal)) :=
  row ← needed_row full_cols b;
  vs ← project projection (td_columns table) row;
  Ok (Some vs).

(** The predicate on its own columns, then the projection on the rest. *)
Definition checked_row (b : list Z) : Result (option (list Literal)) :=
  prow ← needed_row pred_cols b;
  m ← predicate_matches bound_pred (td_columns table) prow;
  if (m : bool) then project_needed b else Ok None.

(** [per_candidate]: no raw filter. *)
Definition per_candidate (b : list Z) : Result (option (list Literal)) :=
  match bound_pred with
  | Some _ => checked_row b
  | None => project_needed b
  end.

Definition per_row (b : list Z) : Result (option (list Literal)) :=
  match bound_pred with
  | Some p =>
      match try_build_raw_filter p with
      | Some rf =>
          match passes rf b (td_columns table) with
          | Some true => project_needed b
          | Some false => Ok None
          | None => checked_row b
          end
      | None => checked_row b
      end
  | None => project_needed b
  end.

End per_row.

(** ** Scans *)

Definition ticked {A} (check : nat → Result unit) (i : nat) (r : Result A) : Result A :=
  if decide (i mod 1024 = 0)%nat then _ ← check i; r else r.

(** The serial branch of [exec_select]: the rows, and their ids for the read set. *)
Definition exec_select_serial (check : nat → Result unit) (pages : list PageId) (table : TableDef)
    (projection : list string) (predicate : option Expr) : Result (list (list Literal) * list RowId) :=
  rows ← heap_scan read pages snapshot self_xid;
  for_each (λ acc p, ticked check p.1
    (o ← per_row table projection predicate project_row_drain p.2.2;
     Ok match o with
        | Some row => (acc.1 ++ [row], acc.2 ++ [p.2.1])
        | None => acc
        end)) ([], []) (imap pair rows).

(** [lease] is the degree and schedule of a parallel run. *)
Definition exec_select_scan (check deadline : nat → Result unit) (lease : option (nat * list nat))
    (pages : list PageId) (table : TableDef) (projection : list string) (predicate : option Expr)
    : option (Result (list (list Literal) * list RowId)) :=
  match lease with
  | Some (degree, sched) =>
      parallel_filter_project read snapshot self_xid deadline (per_row table projection predicate project_row_drain)
        pages degree sched
  | None => Some (exec_select_serial check pages table projection predicate)
  end.

Definition exec_select_readonly (check : nat → Result unit) (pages : list PageId) (table : TableDef)
    (projection : list string) (predicate : option Expr) : Result (list string * list (list Literal)) :=
  rows ← heap_scan read pages snapshot self_xid;
  out ← for_each (λ out p, ticked check p.1
    (o ← per_row table projection predicate project_row p.2.2; Ok (out ++ option_list o))) [] (imap pair rows);
  Ok (output_columns projection (td_columns table), out).

(** ** Through an index *)

(** [heap.get] of a candidate; one without a visible version is passed over. *)
Definition visible_bytes (rid : RowId) : Result (option (list Z)) :=
  match heap_get read rid snapshot self_xid with
  | Ok b => Ok (Some b)
  | Err (NoVisibleVersion _ _) => Ok None
  | Err e => Err e
  | Panic => Panic
  end.

Definition resolve_serial (f : list Z → Result (option (list Literal))) (candidates : list RowId)
    : Result (list (list Literal)) :=
  for_each (λ out rid,
    b ← visible_bytes rid;
    match b with
    | Some b => row ← f b; Ok (out ++ option_list row)
    | None => Ok out
    end) [] candidates.

Definition include_column_defs (table : TableDef) (column : string) : list ColumnDef :=
  match list_find (λ c, col_name c = column) (td_columns table) with
  | Some (_, c) => omap (λ n, snd <$> list_find (λ d, col_name d = n) (td_columns table)) (col_include_cols c)
  | None => []
  end.

Definition is_covering (table : TableDef) (column : string) : bool :=
  match list_find (λ c, col_name c = column) (td_columns table) with
  | Some (_, c) => match col_include_cols c with [] => false | _ => true end
  | None => false
  end.

(** The row of an index-only scan with INCLUDE columns. *)
Definition covering_row (projection : list string) (column : string) (defs : list ColumnDef) (key : OrderedValue)
    (inc_bytes : list Z) : list Literal :=
  let nulls := replicate (length defs) LNull in
  let inc_vals := match inc_bytes with
                  | [] => nulls
                  | _ => match decode_row inc_bytes defs with Ok vs => vs | _ => nulls end
                  end in
  (λ p, if eq_ignore_ascii_case p column then into_literal key
        else match list_find (λ d, eq_ignore_ascii_case (col_name d.1) p) (zip defs inc_vals) with
             | Some (_, (_, v)) => v
             | None => LNull
             end) <$> projection.

(** The two index-only paths: the predicate is not evaluated. *)
Definition index_only_rows (ix : IndexReader) (table : TableDef) (projection : list string) (column : string)
    (op : CmpOp) (value : OrderedValue) : Result (list (list Literal)) :=
  if is_covering table column then
    cands ← ix_search_with_include ix op value;
    for_each (λ out c,
      b ← visible_bytes c.2;
      Ok (match b with
          | Some _ => out ++ [covering_row projection column (include_column_defs table column) c.1.1 c.1.2]
          | None => out
          end)) [] cands
  else
    cands ← ix_search_with_keys ix op value;
    for_each (λ out c,
      b ← visible_bytes c.2;
      Ok (match b with Some _ => out ++ [[into_literal c.1]] | None => out end)) [] cands.

Definition range_of (op : CmpOp) : option RangeOp :=
  match op with CLt => Some RLt | CLe => Some RLe | CGt => Some RGt | CGe => Some RGe | _ => None end.

Definition PARALLEL_CANDIDATE_MIN : nat := 64.

(** [None] inside is "the index cannot serve this"; the outer [None] is a parallel run
    that its schedule does not complete.  A range asks for a lease before the search;
    any search asks for one after it, when there are enough candidates. *)
Definition try_exec_select_btree (deadline : nat → Result unit) (range_lease lease : option (nat * list nat)) (ix : IndexReader)
    (table : TableDef) (projection : list string) (predicate : option Expr) (hit : Hit) (index_only : bool)
    : option (Result (option (list (list Literal)))) :=
  let '(column, op, literal) := hit in
  let some (r : Result (list (list Literal))) : Result (option (list (list Literal))) := rows ← r; Ok (Some rows) in
  match ordered_of literal with
  | None => Some (Ok None)
  | Some value =>
      match list_find (λ c, col_name c = column) (td_columns table) with
      | Some (_, c) =>
          match col_index_root c with
          | None => Some (Ok None)
          | Some _ =>
              let f := per_candidate table projection predicate project_row_drain in
              if index_only then Some (some (index_only_rows ix table projection column op value))
              else
                match range_of op, range_lease with
                | Some rop, Some (degree, sched) =>
                    match ix_search_range_partition ix rop value degree with
                    | Ok partitions =>
                        if decide (PARALLEL_CANDIDATE_MIN ≤ length (concat partitions))%nat then
                          match parallel_resolve_partitions read snapshot self_xid deadline f partitions degree sched with
                          | Some r => Some (some r)
                          | None => None
                          end
                        else Some (some (resolve_serial f (concat partitions)))
                    | Err e => Some (Err e)
                    | Panic => Some Panic
                    end
                | _, _ =>
                    match ix_search ix op value with
                    | Ok (Some ids) =>
                        match (if decide (PARALLEL_CANDIDATE_MIN ≤ length ids)%nat then lease else None) with
                        | Some (degree, sched) =>
                            match parallel_resolve_candidates read snapshot self_xid deadline f ids degree sched with
                            | Some r => Some (some r)
                            | None => None
                            end
                        | None => Some (some (resolve_serial f ids))
                        end
                    | Ok None => Some (Ok None)
                    | Err e => Some (Err e)
                    | Panic => Some Panic
                    end
                end
          end
      | None => Some (Ok None)
      end
  end.

(** The output columns, the rows, and the row ids noted for serializable transactions. *)
Abbreviation Selected := (option (Result (list string * list (list Literal) * list RowId))).

(** [exec_select].  The searches in the vector and the full-text index
    ([exec_select_near], [exec_select_match]) are arguments. *)
Definition exec_select (near_search : string → list Z → nat → Selected) (match_search : string → list Z → Selected)
    (check deadline : nat → Result unit) (range_lease lease scan_lease : option (nat * list nat))
    (ix_of : string → IndexReader) (stats : option TableStats) (pages : list PageId)
    (table : TableDef) (projection : list string) (predicate : option Expr) : Selected :=
  let columns := output_columns projection (td_columns table) in
  let scan :=
    match exec_select_scan check deadline scan_lease pages table projection predicate with
    | Some r => Some ('(rows, read_ids) ← r; Ok (columns, rows, read_ids))
    | None => None
    end in
  let plain :=
  match predicate ≫= λ e, find_best_indexable_btree_predicate e table stats with
  | Some hit =>
      if index_lookup_is_selective stats hit true then
        match try_exec_select_btree deadline range_lease lease (ix_of hit.1.1) table projection predicate hit
                (index_only_scan table projection hit.1.1) with
        | Some (Ok (Some rows)) => Some (Ok (columns, rows, []))
        | Some (Ok None) => scan
        | Some (Err e) => Some (Err e)
        | Some Panic => Some Panic
        | None => None
        end
      else scan
  | None => scan
  end in
  match predicate ≫= find_near, predicate ≫= find_match with
  | Some (column, query, k), _ => near_search column query k
  | None, Some (column, ELiteral (LText q)) => match_search column q
  | None, Some _ => Some (Err (SqlUnsupported "MATCH: query argument must be a TEXT literal"))
  | None, None => plain
  end.

End select.
