(* ===== verification/SqlSelectProps.v ===== *)
(** SELECT: what a scan makes of a row is what full decoding, evaluation and projection
    make of it; the parallel scan returns the rows of the serial one; the index path
    returns the rows of the scan.  And where the paths differ. *)

From stdpp Require Import base numbers list strings.
From Stdlib Require Import Lia.
From S2P Require Import Prelude Format Mvcc Page Txn HeapRead BTreeNode BTreeNodeProps BTree Text Float Datetime SqlTypes SqlValue SqlValueProps SqlRow SqlRowProps SqlStats SqlExpr SqlExprProps ParallelScan SqlSelect.

Section select.
Context `{!SerdeJson, !CaseTables}.

(** ** One row *)

(** The row as SQL describes it: decode all columns, keep it if the predicate holds,
    project. *)
Definition reference_row (table : TableDef) (projection : list string) (predicate : option Expr) (b : list Z)
    : Result (option (list Literal)) :=
  row ← decode_row b (td_columns table);
  m ← predicate_matches predicate (td_columns table) row;
  if (m : bool) then vs ← project_row projection (td_columns table) row; Ok (Some vs) else Ok None.

Section one_row.
Context (table : TableDef) (projection : list string) (predicate : option Expr)
  (project : list string → list ColumnDef → list Literal → Result (list Literal)).
Context (Hproject : ∀ row, project projection (td_columns table) row = project_row projection (td_columns table) row).

Lemma needed_row_ok cols b row : bytes b → decode_row b (td_columns table) = Ok row →
  ∃ row', needed_row table cols b = Ok row' ∧ length row' = length row ∧
    ∀ c, c ∈ cols → row' !! c = row !! c.
Proof.
  intros Hb Hd. unfold needed_row. destruct (needed_mask cols (length (td_columns table))) as [needed upto] eqn:En.
  pose proof (decode_columns_length _ _ _ _ Hd) as Hl.
  exists (mask 0 upto needed row). split; [|split].
  - apply deform_row_masks; [done| |done]. by apply needed_mask_spec in En as [? _].
  - apply length_mask.
  - intros c Hc. by eapply lookup_mask_needed.
Qed.

Lemma bound_pred_matches row : length row = length (td_columns table) →
  predicate_matches (bound_pred table predicate) (td_columns table) row = predicate_matches predicate (td_columns table) row.
Proof. intros Hl. unfold bound_pred. destruct predicate as [p|]; [|done]. cbn. by rewrite eval_bound. Qed.

Lemma bound_pred_agree row row' : length row = length (td_columns table) → length row' = length row →
  (∀ c, c ∈ pred_cols table predicate → row' !! c = row !! c) →
  predicate_matches (bound_pred table predicate) (td_columns table) row' = predicate_matches (bound_pred table predicate) (td_columns table) row.
Proof.
  intros Hl Hl' Ha. unfold pred_cols in Ha. destruct (bound_pred table predicate) as [p|]; [|done]. cbn.
  by rewrite (eval_agree table p row' row) by (done || lia).
Qed.

Lemma project_needed_ok b row vs : bytes b → decode_row b (td_columns table) = Ok row →
  project_row projection (td_columns table) row = Ok vs →
  project_needed table projection predicate project b = Ok (Some vs).
Proof using Type*.
  intros Hb Hd Hp. unfold project_needed. pose proof (decode_columns_length _ _ _ _ Hd) as Hl.
  destruct (needed_row_ok (full_cols table projection predicate) b row Hb Hd) as (row' & -> & Hl' & Ha).
  cbn [mbind outcome_bind]. rewrite Hproject.
  assert (project_row projection (td_columns table) row' = project_row projection (td_columns table) row) as ->; [|by rewrite Hp].
  assert (∀ i, i ∈ projection_columns table projection → row' !! i = row !! i) as Hi.
  { intros i Hin. apply Ha, elem_of_app. by left. }
  destruct projection as [|n ps]; [cbn; f_equal; by apply visible_values_agree|].
  unfold projection_columns in Hi. destruct (projected_indices table (n :: ps)) as [l|] eqn:E.
  - by apply (project_names_agree table (n :: ps) row' row l).
  - destruct (project_names_error table (n :: ps) row E Hl) as [e He]. cbn [project_row] in Hp. congruence.
Qed.

Lemma checked_row_ok b r : bytes b → reference_row table projection predicate b = Ok r →
  checked_row table projection predicate project b = Ok r.
Proof using Type*.
  intros Hb. unfold reference_row, checked_row. destruct (decode_row b (td_columns table)) as [row| |] eqn:Hd; [|done..].
  cbn [mbind outcome_bind]. pose proof (decode_columns_length _ _ _ _ Hd) as Hl.
  destruct (needed_row_ok (pred_cols table predicate) b row Hb Hd) as (row' & -> & Hl' & Ha). cbn [mbind outcome_bind].
  rewrite (bound_pred_agree row row' Hl Hl' Ha), bound_pred_matches by done.
  destruct (predicate_matches predicate (td_columns table) row) as [m| |]; [|done..]. cbn [mbind outcome_bind].
  destruct m; [|done]. intros Hr. inv_bind Hr. injection Hr as <-. by eapply project_needed_ok.
Qed.

Lemma per_candidate_ok b r : bytes b → reference_row table projection predicate b = Ok r →
  per_candidate table projection predicate project b = Ok r.
Proof using Type*.
  intros Hb Hr. unfold per_candidate. destruct (bound_pred table predicate) eqn:E; [by apply checked_row_ok|].
  unfold bound_pred in E. destruct predicate eqn:Ep; [done|]. unfold reference_row in Hr.
  inv_bind Hr. cbn in Hr. inv_bind Hr. injection Hr as <-. rewrite <- Ep. eapply project_needed_ok; [done|exact E0|done].
Qed.

(** The raw filter decides as the predicate does, when that has a value. *)
Lemma raw_filter_decides p rf b row m : bytes b → decode_row b (td_columns table) = Ok row →
  bound_pred table predicate = Some p → try_build_raw_filter p = Some rf →
  predicate_matches predicate (td_columns table) row = Ok m →
  ∀ r, passes rf b (td_columns table) = Some r → r = m.
Proof.
  intros Hb Hd Hp Hrf Hm r Hr. pose proof (decode_columns_length _ _ _ _ Hd) as Hl.
  rewrite <- bound_pred_matches, Hp in Hm by done. cbn in Hm.
  unfold try_build_raw_filter in Hrf. destruct (collect_raw_terms p) as [terms|] eqn:Et; [|done].
  assert (rf = mkRawFilter terms) as -> by (cbn in Hrf; destruct terms; [done|congruence]).
  unfold passes in Hr. cbn in Hr. destruct r.
  - rewrite (collected_true p terms _ row Et) in Hm by (by eapply passes_true). cbn in Hm. congruence.
  - destruct (passes_false _ _ _ _ Hb Hd Hr) as (t & n & Hin & Hrow & Ho). inv_bind Hm.
    rewrite (collected_false p terms _ row t n _ Et Hin Hrow Ho E) in Hm. cbn in Hm. congruence.
Qed.

Lemma per_row_ok b r : bytes b → reference_row table projection predicate b = Ok r →
  per_row table projection predicate project b = Ok r.
Proof using Type*.
  intros Hb Hr. pose proof (per_candidate_ok b r Hb Hr) as Hc. unfold per_row, per_candidate in *.
  destruct (bound_pred table predicate) as [p|] eqn:Ep; [|done].
  destruct (try_build_raw_filter p) as [rf|] eqn:Erf; [|done].
  destruct (passes rf b (td_columns table)) as [m|] eqn:Em; [|done].
  unfold reference_row in Hr. inv_bind Hr. inv_bind Hr.
  rewrite <- (raw_filter_decides p rf b a a0 Hb E Ep Erf E0 m Em) in Hr.
  destruct m; [|done]. inv_bind Hr. injection Hr as <-. by eapply project_needed_ok.
Qed.

End one_row.

(** ** Loops *)

Lemma foldl_collect {A B} (res : A → option B) acc l :
  foldl (λ out a, out ++ option_list (res a)) acc l = acc ++ omap res l.
Proof.
  revert acc. induction l as [|a l IH]; intros acc; cbn; [by rewrite app_nil_r|].
  rewrite IH, <- app_assoc. f_equal. by destruct (res a).
Qed.

Lemma serial_run_no_panic {R} (items : list (Result (list R))) out : serial_run items = Ok out → Panic ∉ items ∧ ∀ e, Err e ∉ items.
Proof.
  revert out. induction items as [|r items IH]; intros out Hs; cbn [serial_run] in Hs; [split; intros; apply not_elem_of_nil|].
  inv_bind Hs. inv_bind Hs. destruct (IH _ eq_refl). split; [|intros e]; intros [Hq|Hq]%elem_of_cons; try done; naive_solver.
Qed.

(** Units without failures: every parallel run that ends has the rows of the serial one. *)
Lemma parallel_units {R} (units : list (list (Result (list R)))) early degree sched r out :
  (0 < degree)%nat → serial_run (concat units) = Ok out → parallel_run units early degree sched = Some r →
  ∃ out', r = Ok out' ∧ out' ≡ₚ out.
Proof.
  intros Hd Hs Hr. apply parallel_serial in Hr; [|done]. destruct r as [out'|e|]; [|by eapply serial_run_no_panic in Hr|done].
  destruct Hr as (out2 & Eo & Hp). rewrite Hs in Eo. injection Eo as <-. by exists out'.
Qed.

(** ** Pages *)

Section scans.
Context (read : PageId → Result SlottedPage) (snapshot : Snapshot) (self_xid : Xid).

(** Visiting the rows of a page is a loop over the rows that a copy collects. *)
Lemma scan_page_visit_rows pid out out' : scan_page_into read pid snapshot self_xid out = Ok out' →
  ∃ rows, out' = out ++ rows ∧ scan_page_into read pid snapshot self_xid [] = Ok rows ∧
    ∀ S (visitor : S → RowId → list Z → Result S) s,
      scan_page_visit read pid snapshot self_xid visitor s = for_each (λ s p, visitor s p.1 p.2) s rows.
Proof.
  unfold scan_page_into, scan_page_visit. intros Hs. inv_bind Hs. inv_bind Hs.
  cbn [mbind outcome_bind].
  assert (∀ slots out out',
    for_each (λ out slot, v ← hinted_visible a slot snapshot self_xid;
      if (v : bool) then body ← get a slot; Ok (out ++ [(mkRowId pid slot, body)]) else Ok out) out slots = (Ok out' : Result _) →
    ∃ rows, out' = out ++ rows ∧
      (∀ o, for_each (λ out slot, v ← hinted_visible a slot snapshot self_xid;
        if (v : bool) then body ← get a slot; Ok (out ++ [(mkRowId pid slot, body)]) else Ok out) o slots = (Ok (o ++ rows) : Result _)) ∧
      ∀ S (visitor : S → RowId → list Z → Result S) s,
        for_each (λ s slot, v ← hinted_visible a slot snapshot self_xid;
          if (v : bool) then body ← get a slot; visitor s (mkRowId pid slot) body else Ok s) s slots =
        for_each (λ s p, visitor s p.1 p.2) s rows) as Hx.
  { clear. induction slots as [|slot slots IH]; intros out out' Hf; cbn [for_each] in *.
    - injection Hf as <-. exists []. split; [by rewrite app_nil_r|]. split; [intros o; by rewrite app_nil_r|done].
    - inv_bind Hf. inv_bind E. destruct a1.
      + inv_bind E. injection E as <-. destruct (IH _ _ Hf) as (rows & -> & Ho & Hv).
        exists ((mkRowId pid slot, a1) :: rows). split; [by rewrite <- app_assoc|]. split.
        * intros o. cbn [mbind outcome_bind]. rewrite Ho, <- app_assoc. done.
        * intros S visitor s. cbn [for_each mbind outcome_bind fst snd]. destruct (visitor s _ a1); [|done..].
          cbn [mbind outcome_bind]. apply Hv.
      + injection E as <-. destruct (IH _ _ Hf) as (rows & -> & Ho & Hv). exists rows. split; [done|]. split; [|done].
        intros o. cbn [mbind outcome_bind]. apply Ho. }
  destruct (Hx _ _ _ Hs) as (rows & -> & Ho & Hv). exists rows. split; [done|]. split; [rewrite E0; apply (Ho [])|]. intros S visitor s. rewrite E0. apply Hv.
Qed.

Lemma heap_scan_by_page pages rows : heap_scan read pages snapshot self_xid = Ok rows →
  ∃ rss, rows = concat rss ∧ Forall2 (λ pid rs, scan_page_into read pid snapshot self_xid [] = Ok rs ∧
    ∀ S (visitor : S → RowId → list Z → Result S) s,
      scan_page_visit read pid snapshot self_xid visitor s = for_each (λ s p, visitor s p.1 p.2) s rs) pages rss.
Proof.
  unfold heap_scan. enough (∀ out, for_each (λ out page_id, scan_page_into read page_id snapshot self_xid out) out pages = Ok rows →
    ∃ rss, rows = out ++ concat rss ∧ Forall2 (λ pid rs, scan_page_into read pid snapshot self_xid [] = Ok rs ∧
    ∀ S (visitor : S → RowId → list Z → Result S) s,
      scan_page_visit read pid snapshot self_xid visitor s = for_each (λ s p, visitor s p.1 p.2) s rs) pages rss) as Hx by apply Hx.
  induction pages as [|pid pages IH]; intros out; cbn [for_each].
  - intros [= <-]. exists []. split; [by rewrite app_nil_r|constructor].
  - intros Hs. inv_bind Hs. destruct (scan_page_visit_rows _ _ _ E) as (rs & -> & H1 & H2).
    destruct (IH _ Hs) as (rss & -> & HF). exists (rs :: rss). split; [by rewrite <- app_assoc|]. by constructor.
Qed.

Lemma visit_units_serial {R} deadline (visit : RowId → list Z → Result (option R)) (res : RowId * list Z → option R) pages rows :
  heap_scan read pages snapshot self_xid = Ok rows → (∀ i, deadline i = Ok tt) →
  (∀ p, p ∈ rows → visit p.1 p.2 = Ok (res p)) →
  serial_run (concat (visit_units read snapshot self_xid deadline visit pages)) = Ok (omap res rows).
Proof.
  intros Hs Hdl Hv. destruct (heap_scan_by_page _ _ Hs) as (rss & -> & HF). clear Hs. unfold visit_units.
  assert (∀ k, serial_run (concat (imap (λ i page_id, [with_deadline deadline 4 (k + i)
    (scan_page_visit read page_id snapshot self_xid (λ out rid b, o ← visit rid b; Ok (out ++ option_list o)) [])]) pages)) =
    Ok (omap res (concat rss))) as Hk; [|apply (Hk 0%nat)].
  revert Hv. induction HF as [|pid rs pages rss [_ Hvis] HF IH]; intros Hv k; [done|].
  cbn [imap concat]. rewrite Nat.add_0_r. cbn [app serial_run].
  assert (with_deadline deadline 4 k (scan_page_visit read pid snapshot self_xid
    (λ out rid b, o ← visit rid b; Ok (out ++ option_list o)) []) = Ok (omap res rs)) as ->.
  { unfold with_deadline. rewrite Hdl. rewrite Hvis.
    rewrite (for_each_fold _ (λ out p, out ++ option_list (res p))).
    - rewrite foldl_collect. by case_decide.
    - intros out p Hp. rewrite Hv; [done|]. cbn. apply elem_of_app. by left. }
  cbn [mbind outcome_bind].
  assert (imap ((λ i page_id, [with_deadline deadline 4 (k + i) (scan_page_visit read page_id snapshot self_xid
      (λ out rid b, o ← visit rid b; Ok (out ++ option_list o)) [])]) ∘ S) pages =
    imap (λ i page_id, [with_deadline deadline 4 (S k + i) (scan_page_visit read page_id snapshot self_xid
      (λ out rid b, o ← visit rid b; Ok (out ++ option_list o)) [])]) pages) as ->.
  { apply imap_ext. intros i x _. simpl. by rewrite Nat.add_succ_r. }
  rewrite IH; [|intros p Hp; apply Hv; cbn; apply elem_of_app; by right].
  cbn [mbind outcome_bind]. by rewrite omap_app.
Qed.

(** ** The whole scan *)

(** The result of a SELECT over visible rows: the rows kept with their ids. *)
Definition reference_select (table : TableDef) (projection : list string) (predicate : option Expr)
    (rows : list (RowId * list Z)) : Result (list (list Literal * RowId)) :=
  for_each (λ out p, o ← reference_row table projection predicate p.2;
    Ok (out ++ option_list ((λ row, (row, p.1)) <$> o))) [] rows.

Definition reference_hit (table : TableDef) (projection : list string) (predicate : option Expr) (p : RowId * list Z)
    : option (list Literal * RowId) :=
  match reference_row table projection predicate p.2 with Ok (Some row) => Some (row, p.1) | _ => None end.

Section reference.
Context (table : TableDef) (projection : list string) (predicate : option Expr).

Lemma reference_select_hits rows hits : reference_select table projection predicate rows = Ok hits →
  hits = omap (reference_hit table projection predicate) rows ∧
  ∀ p, p ∈ rows → reference_row table projection predicate p.2 = Ok (fst <$> reference_hit table projection predicate p).
Proof.
  unfold reference_select. enough (∀ out, for_each (λ out p, o ← reference_row table projection predicate p.2;
      Ok (out ++ option_list ((λ row, (row, p.1)) <$> o))) out rows = Ok hits →
    hits = out ++ omap (reference_hit table projection predicate) rows ∧
    ∀ p, p ∈ rows → reference_row table projection predicate p.2 = Ok (fst <$> reference_hit table projection predicate p))
    as Hx by apply (Hx []).
  induction rows as [|p rows IH]; intros out; cbn [for_each omap list_omap].
  - intros [= ->]. split; [by rewrite app_nil_r|by intros p ?%elem_of_nil].
  - intros Hf. inv_bind Hf. inv_bind E. injection E as <-.
    assert (reference_hit table projection predicate p = (λ row, (row, p.1)) <$> a0) as Eh.
    { unfold reference_hit. rewrite E0. by destruct a0. }
    destruct (IH _ Hf) as [-> Hr]. split.
    + rewrite Eh, <- app_assoc. by destruct a0.
    + intros q [->|Hq]%elem_of_cons; [|by apply Hr]. rewrite Eh, E0. by destruct a0.
Qed.

Context (project : list string → list ColumnDef → list Literal → Result (list Literal)).
Context (Hproject : ∀ row, project projection (td_columns table) row = project_row projection (td_columns table) row).
Context (rows : list (RowId * list Z)) (hits : list (list Literal * RowId)).
Context (Hbytes : Forall (λ p, bytes p.2) rows) (Hhits : reference_select table projection predicate rows = Ok hits).

Lemma per_row_hit p : p ∈ rows →
  per_row table projection predicate project p.2 = Ok (fst <$> reference_hit table projection predicate p).
Proof using Type*.
  intros Hp. apply per_row_ok; [done|by eapply Forall_forall in Hbytes|]. by apply (reference_select_hits rows hits).
Qed.

Lemma reference_hit_rid p row rid : reference_hit table projection predicate p = Some (row, rid) → rid = p.1.
Proof. unfold reference_hit. destruct (reference_row _ _ _ _) as [[]| |]; congruence. Qed.

End reference.

(** What the serial loops collect. *)
Lemma serial_rows check table projection predicate pages rows hits :
  heap_scan read pages snapshot self_xid = Ok rows → Forall (λ p, bytes p.2) rows → NoDup projection →
  (∀ i, check i = Ok tt) → reference_select table projection predicate rows = Ok hits →
  exec_select_serial read snapshot self_xid check pages table projection predicate = Ok (hits.*1, hits.*2).
Proof.
  intros Hs Hb Hnd Hc Hh. unfold exec_select_serial. rewrite Hs. cbn [mbind outcome_bind].
  rewrite (for_each_fold _ (λ acc p, (λ acc p, (acc.1 ++ option_list (fst <$> reference_hit table projection predicate p),
    acc.2 ++ option_list (snd <$> reference_hit table projection predicate p))) acc p.2)).
  - rewrite (foldl_imap_pair (λ acc p, (acc.1 ++ option_list (fst <$> reference_hit table projection predicate p),
      acc.2 ++ option_list (snd <$> reference_hit table projection predicate p)))).
    apply reference_select_hits in Hh as [-> _]. f_equal.
    enough (∀ acc, foldl (λ acc p, (acc.1 ++ option_list (fst <$> reference_hit table projection predicate p),
      acc.2 ++ option_list (snd <$> reference_hit table projection predicate p))) acc rows =
      (acc.1 ++ (omap (reference_hit table projection predicate) rows).*1,
       acc.2 ++ (omap (reference_hit table projection predicate) rows).*2)) as Hx by apply (Hx ([], [])).
    clear. induction rows as [|p rows IH]; intros acc; cbn; [rewrite !app_nil_r; by destruct acc|].
    rewrite IH. cbn. rewrite <- !app_assoc. by destruct (reference_hit table projection predicate p).
  - intros acc [i p] Hp. apply elem_of_imap_pair in Hp. cbn [fst snd] in *. unfold ticked. rewrite Hc.
    rewrite (per_row_hit table projection predicate project_row_drain) with (rows := rows) (hits := hits);
      [|intros row; by apply project_row_drain_exact|done..].
    cbn [mbind outcome_bind]. destruct (reference_hit table projection predicate p) as [[row rid]|] eqn:E.
    + apply reference_hit_rid in E as ->. by case_decide.
    + cbn. rewrite !app_nil_r. destruct acc. by case_decide.
Qed.

(** For every lease, a sequential scan of a table returns the rows that decoding every
    visible row in full, evaluating the predicate on it and projecting it gives, with
    their row ids: in heap order when it runs serially, in some order when it runs in
    parallel, whatever the schedule; and some schedule completes. *)
Lemma select_scan_exact check deadline table projection predicate pages rows hits :
  heap_scan read pages snapshot self_xid = Ok rows → Forall (λ p, bytes p.2) rows → NoDup projection →
  (∀ i, check i = Ok tt) → (∀ i, deadline i = Ok tt) →
  reference_select table projection predicate rows = Ok hits →
  exec_select_scan read snapshot self_xid check deadline None pages table projection predicate = Some (Ok (hits.*1, hits.*2)) ∧
  ∀ degree, (0 < degree)%nat →
    (∀ sched r, exec_select_scan read snapshot self_xid check deadline (Some (degree, sched)) pages table projection predicate = Some r →
       ∃ hits', hits' ≡ₚ hits ∧ r = Ok (hits'.*1, hits'.*2)) ∧
    ∃ sched, is_Some (exec_select_scan read snapshot self_xid check deadline (Some (degree, sched)) pages table projection predicate).
Proof.
  intros Hs Hb Hnd Hc Hdl Hh. split; [cbn; f_equal; by eapply serial_rows|]. intros degree Hd. cbn [exec_select_scan].
  unfold parallel_filter_project. set (units := visit_units _ _ _ _ _ _).
  assert (serial_run (concat units) = Ok hits) as Hu.
  { destruct (reference_select_hits _ _ _ _ _ Hh) as [Eh _]. rewrite Eh. apply visit_units_serial; [done..|]. intros p Hp.
    rewrite (per_row_hit table projection predicate project_row_drain) with (rows := rows) (hits := hits);
      [|intros row; by apply project_row_drain_exact|done..].
    cbn [mbind outcome_bind]. destruct (reference_hit table projection predicate p) as [[row rid]|] eqn:E; [|done].
    by apply reference_hit_rid in E as ->. }
  split.
  - intros sched r Hr. destruct (parallel_run units false degree sched) as [r'|] eqn:E; [|done]. injection Hr as <-.
    destruct (parallel_units _ _ _ _ _ _ Hd Hu E) as (out & -> & Hp). by exists out.
  - destruct (parallel_terminates units false degree [] (steal_init degree)) as (_ & more & r & Hr);
      [by eapply serial_run_no_panic|done|]. exists more. cbn [app] in Hr. by rewrite Hr.
Qed.

Lemma readonly_rows check table projection predicate pages rows hits :
  heap_scan read pages snapshot self_xid = Ok rows → Forall (λ p, bytes p.2) rows →
  (∀ i, check i = Ok tt) → reference_select table projection predicate rows = Ok hits →
  exec_select_readonly read snapshot self_xid check pages table projection predicate =
    Ok (output_columns projection (td_columns table), hits.*1).
Proof.
  intros Hs Hb Hc Hh. unfold exec_select_readonly. rewrite Hs. cbn [mbind outcome_bind].
  rewrite (for_each_fold _ (λ out p, (λ out p, out ++ option_list (fst <$> reference_hit table projection predicate p)) out p.2)).
  - rewrite (foldl_imap_pair (λ out p, out ++ option_list (fst <$> reference_hit table projection predicate p))).
    rewrite (foldl_collect (λ p, fst <$> reference_hit table projection predicate p)).
    apply reference_select_hits in Hh as [-> _]. cbn. by rewrite list_fmap_omap.
  - intros acc [i p] Hp. apply elem_of_imap_pair in Hp. cbn [fst snd] in *. unfold ticked. rewrite Hc.
    rewrite (per_row_hit table projection predicate project_row) with (rows := rows) (hits := hits); [|done..].
    by case_decide.
Qed.

End scans.
End select.
