(* ===== verification/SqlIndexProps.v ===== *)
(** SELECT through a B+tree index: what an index promises the executor, that the B+tree
    of [BTree] keeps the promise, that a lookup returns the rows of the sequential scan
    however it is run, and the cases in which it does not. *)

From stdpp Require Import base numbers list strings.
From Stdlib Require Import Lia.
From S2P Require Import Prelude Format Mvcc Page PageSpec LockMgr Txn WalCodec Wal BufferPool HeapRead BTreeNode BTreeNodeProps.
From S2P Require Import BTree BTreeSpec HeapLog BTreeStore BTreeInsert BTreeDescent BTreeSearch BTreeRead.
From S2P Require Import Text Float Datetime SqlTypes SqlValue SqlValueProps SqlRow SqlRowProps SqlStats SqlExpr SqlExprProps ParallelScan SqlSelect SqlSelectProps.

(** ** The interface *)

(** An index with the entries [es]: a search that succeeds returns those that satisfy
    the comparison; for [<>] the searches differ. *)
Class IndexLaws (ix : IndexReader) (es : list Entry) : Prop := {
  il_search op v r : ix_search ix op v = Ok r →
    r = match op with CNe => None | _ => Some (entry_rid <$> matching (cmp_holds op v) es) end;
  il_keys op v r : ix_search_with_keys ix op v = Ok r →
    r = match op with CNe => [] | _ => (matching (cmp_holds op v) es).*1 end;
  il_partition o v n r : (0 < n)%nat → ix_search_range_partition ix o v n = Ok r →
    concat r = entry_rid <$> matching (cmp_holds (cmp_of o) v) es
}.

(** The B+tree as an index, on the buffer pool [p]. *)
Definition from_pool {A} (m : op BufferPool (option A)) (p : BufferPool) : Result A :=
  match (m p).1 with
  | Ok (Some a) => Ok a
  | Ok None => Panic
  | Err e => Err e
  | Panic => Panic
  end.

Definition btree_reader (pio : PoolCalls) (fuel : nat) (bt : DiskBTree) (p : BufferPool) `{!Crc32} : IndexReader :=
  mkIndexReader (λ op v, from_pool (search pio fuel bt op v) p)
    (λ op v, from_pool (search_with_keys pio fuel bt op v) p)
    (λ op v, from_pool (search_with_keys_and_include pio fuel bt op v) p)
    (λ o v n, from_pool (search_range_partition pio fuel bt o v n) p).

Lemma from_pool_Ok {A} (m : op BufferPool (option A)) p a : from_pool m p = Ok a → ∃ p', m p = (Ok (Some a), p').
Proof. unfold from_pool. destruct (m p) as [[[]| |] p']; naive_solver. Qed.

#[export] Instance btree_index_laws `{!Crc32} pio fuel bt kd p t : readable bt kd fuel p t →
  IndexLaws (btree_reader pio fuel bt p) (entries t).
Proof.
  intros Hr. split.
  - intros op v r (p' & E)%from_pool_Ok. apply (search_exact pio bt kd fuel op v p t) in E as [_ [= ->]]; done.
  - intros op v r (p' & E)%from_pool_Ok. destruct (decide (op = CNe)) as [->|Hne].
    + by injection E as <- _.
    + apply (search_with_keys_exact pio bt kd fuel op v p t) in E as [_ [= ->]]; [by destruct op|done..].
  - intros o v n r Hn (p' & E)%from_pool_Ok.
    apply (search_range_partition_exact pio bt kd fuel o v n p t) in E as (_ & parts & [= <-] & _ & Hc & _); done.
Qed.

(** ** Keys and literals *)

Lemma bytes_cmp_lt a b : bytes_cmp a b = if bytes_lt a b then Lt else if bytes_lt b a then Gt else Eq.
Proof.
  revert b. induction a as [|x a IH]; intros [|y b]; try done. cbn [bytes_cmp bytes_lt]. rewrite IH.
  destruct (Z.compare_spec x y); repeat case_decide; repeat case_bool_decide; try lia; done.
Qed.

Lemma apply_cmp_holds op v k : cmp_holds op v k = apply_cmp op (ov_cmp k v).
Proof. unfold cmp_holds. by destruct op, (ov_cmp k v). Qed.

(** The comparison of a key with a literal of its type, when it has a value. *)
Lemma compare_key op k v b : key_kind k = key_kind v → compare op (into_literal k) (into_literal v) = Ok b →
  b = cmp_holds op v k.
Proof.
  intros Hk Hc. rewrite apply_cmp_holds. destruct k as [x|x|x], v as [y|y|y]; try done; cbn in Hc.
  - injection Hc as <-. unfold ov_cmp. cbn. destruct (Z.compare_spec x y); repeat case_bool_decide; try lia; done.
  - injection Hc as <-. by rewrite bytes_cmp_lt.
  - destruct op, x, y; cbn in Hc; try done; by injection Hc as <-.
Qed.

Lemma ordered_of_literal l v : ordered_of l = Some v → l = into_literal v.
Proof. by destruct l; try done; intros [= <-]. Qed.

(** ** The comparison an index serves *)

Section hit.
Context `{!SerdeJson, !CaseTables}.
Context (table : TableDef).

(** [expr] is an AND of terms one of which is the comparison of [hit]. *)
Fixpoint conjunct (expr : Expr) (hit : Hit) : Prop :=
  match expr with
  | EBinOp op lhs rhs => comparison_hit op lhs rhs = Some hit
  | EAnd l r => conjunct l hit ∨ conjunct r hit
  | _ => False
  end.

Lemma find_indexable_conjunct expr hit : find_indexable_btree_predicate expr table = Some hit → conjunct expr hit.
Proof.
  induction expr; cbn; try done.
  - destruct (comparison_hit op expr1 expr2) as [h|]; [|done]. cbn. destruct (btree_column table h.1.1); congruence.
  - destruct (find_indexable_btree_predicate expr1 table) as [h|]; [|by auto]. intros [= ->]. by auto.
Qed.

Lemma find_best_conjunct expr stats hit : find_best_indexable_btree_predicate expr table stats = Some hit → conjunct expr hit.
Proof.
  induction expr; try apply (find_indexable_conjunct _ hit). cbn.
  destruct (find_best_indexable_btree_predicate expr1 table stats) as [lh|], (find_best_indexable_btree_predicate expr2 table stats) as [rh|];
    try (naive_solver congruence).
  destruct (f64_partial_cmp _ _) as [[]|]; intros [= <-]; naive_solver.
Qed.

(** A row that satisfies the predicate satisfies the comparison. *)
Lemma conjunct_holds expr column op l idx row x :
  conjunct expr (column, op, l) → visible_column (td_columns table) column = Some idx → row !! idx = Some x →
  predicate_matches (Some expr) (td_columns table) row = Ok true → compare op x l = Ok true.
Proof.
  intros Hc Hv Hx. cbn. induction expr; cbn [conjunct] in Hc; try done; cbn [eval_expr].
  - destruct expr1; try done; destruct expr2; try done; cbn in Hc; injection Hc as -> <- ->; cbn [eval_expr];
      rewrite Hv; cbn [ok_or mbind outcome_bind]; rewrite (index_lookup _ _ _ Hx); cbn [mbind outcome_bind]; intros Hm.
    + inv_bind Hm. inv_bind E. injection E as <-. by injection Hm as ->.
    + rewrite compare_flip_eq. inv_bind Hm. inv_bind E. injection E as <-. by injection Hm as ->.
  - intros Hm. inv_bind Hm. inv_bind E. inv_bind E. inv_bind E. inv_bind E. injection E as <-.
    cbn in Hm. injection Hm as Hm. apply andb_true_iff in Hm as [-> ->].
    destruct Hc as [Hc|Hc]; [apply IHexpr1|apply IHexpr2]; try done; cbn; by rewrite ?E0, ?E2.
Qed.

End hit.

Lemma concat_imap_single {A B} (g : nat → A → B) l : concat (imap (λ i x, [g i x]) l) = imap g l.
Proof. revert g. induction l as [|x l IH]; intros g; [done|]. cbn. f_equal. apply (IH (λ i, g (S i))). Qed.

(** ** A lookup returns the rows of the scan *)

Section lookup.
Context `{!SerdeJson, !CaseTables}.
Context (read : PageId → Result SlottedPage) (snapshot : Snapshot) (self_xid : Xid).

(** The entries of an index on [column] reach every visible row once, at the key it has;
    the rows without an entry are those with NULL in the column.  [resolves] is what
    following the version chain of a row id gives. *)
Record covers (table : TableDef) (column : string) (idx : nat) (es : list Entry) (rows : list (RowId * list Z))
    (resolves : RowId → option (list Z)) : Prop := {
  cv_column : visible_column (td_columns table) column = Some idx;
  cv_resolves e : e ∈ es → get_visible read (entry_rid e) snapshot self_xid = Ok (resolves (entry_rid e));
  cv_key e b row : e ∈ es → resolves (entry_rid e) = Some b → decode_row b (td_columns table) = Ok row →
    row !! idx = Some (into_literal (key_of e));
  cv_rows : ∃ unindexed, rows.*2 ≡ₚ omap resolves (entry_rid <$> es) ++ unindexed ∧
    ∀ b row, b ∈ unindexed → decode_row b (td_columns table) = Ok row → row !! idx = Some LNull
}.

Lemma visible_bytes_Ok rid o : get_visible read rid snapshot self_xid = Ok o → visible_bytes read snapshot self_xid rid = Ok o.
Proof. intros Hg. unfold visible_bytes, heap_get. rewrite Hg. by destruct o. Qed.

Section covered.
Context (table : TableDef) (projection : list string) (predicate : Expr) (column : string) (op : CmpOp) (value : OrderedValue).
Context (idx : nat) (es : list Entry) (rows : list (RowId * list Z)) (resolves : RowId → option (list Z)).
Context (hits : list (list Literal * RowId)).
Context (Hcov : covers table column idx es rows resolves) (Hconj : conjunct predicate (column, op, into_literal value)).
Context (Hkind : ∀ e, e ∈ es → key_kind (key_of e) = key_kind value).
Context (Hbytes : Forall (λ p, bytes p.2) rows) (Hproj : NoDup projection).
Context (Hhits : reference_select table projection (Some predicate) rows = Ok hits).

Definition row_of (b : list Z) : option (list Literal) :=
  match reference_row table projection (Some predicate) b with Ok o => o | _ => None end.

Lemma rows_reference b : b ∈ rows.*2 → bytes b ∧ reference_row table projection (Some predicate) b = Ok (row_of b).
Proof using Hbytes Hhits.
  intros (p & -> & Hp)%list_elem_of_fmap. split; [by eapply Forall_forall in Hbytes|].
  apply reference_select_hits in Hhits as [_ Hr]. unfold row_of. by rewrite Hr.
Qed.

Lemma hits_rows : hits.*1 = omap row_of rows.*2.
Proof using Hhits.
  apply reference_select_hits in Hhits as [-> _]. clear. induction rows as [|p l IH]; [done|].
  assert (row_of p.2 = fst <$> reference_hit table projection (Some predicate) p) as Hx.
  { unfold reference_hit, row_of. by destruct (reference_row table projection (Some predicate) p.2) as [[]| |]. }
  cbn. rewrite Hx. destruct (reference_hit table projection (Some predicate) p); cbn; by rewrite IH.
Qed.

(** A kept row satisfies the comparison. *)
Lemma kept_compare b r : row_of b = Some r → ∃ row, decode_row b (td_columns table) = Ok row ∧
  ∀ x, row !! idx = Some x → compare op x (into_literal value) = Ok true.
Proof using Hcov Hconj.
  unfold row_of, reference_row. destruct (decode_row b (td_columns table)) as [row| |] eqn:Ed; [|done..]. cbn [mbind outcome_bind].
  destruct (predicate_matches (Some predicate) (td_columns table) row) as [[]| |] eqn:Em; [|done..]. intros _.
  exists row. split; [done|]. intros x Hx. eapply conjunct_holds; [done|by apply Hcov|done..].
Qed.

Lemma unindexed_dropped l : (∀ b row, b ∈ l → decode_row b (td_columns table) = Ok row → row !! idx = Some LNull) →
  omap row_of l = [].
Proof using Hcov Hconj.
  induction l as [|b l IH]; intros Hn; [done|]. cbn. rewrite IH by (intros; eapply Hn; [by right|done]).
  destruct (row_of b) eqn:E; [|done]. apply kept_compare in E as (row & Hd & Hc).
  specialize (Hc LNull (Hn b row ltac:(by left) Hd)). done.
Qed.

(** Entries outside the range contribute nothing. *)
Lemma matching_rows l : (∀ e, e ∈ l → e ∈ es) →
  omap (λ rid, resolves rid ≫= row_of) (entry_rid <$> matching (cmp_holds op value) l) =
  omap row_of (omap resolves (entry_rid <$> l)).
Proof using Hcov Hconj Hkind.
  induction l as [|e l IH]; intros Hl; [done|]. unfold matching. rewrite filter_cons. fold (matching (cmp_holds op value) l).
  specialize (IH (λ e' He', Hl e' (proj2 (elem_of_cons l e' e) (or_intror He')))). pose proof (Hl e ltac:(by left)) as He.
  case_decide as Hm; cbn [fmap list_fmap omap list_omap] in *; destruct (resolves (entry_rid e)) as [b|] eqn:Er;
    cbn [mbind option_bind omap list_omap]; rewrite ?IH; try done.
  destruct (row_of b) eqn:Eb; [|done]. apply kept_compare in Eb as (row & Hd & Hc).
  pose proof (Hc _ (cv_key _ _ _ _ _ _ Hcov e b row He Er Hd)) as Hk.
  apply compare_key in Hk; [|by apply Hkind]. congruence.
Qed.

Lemma lookup_rows : omap (λ rid, resolves rid ≫= row_of) (entry_rid <$> matching (cmp_holds op value) es) ≡ₚ hits.*1.
Proof using Hcov Hconj Hkind Hhits.
  rewrite matching_rows by done. rewrite hits_rows. destruct (cv_rows _ _ _ _ _ _ Hcov) as (un & Hp & Hun).
  rewrite Hp, omap_app, (unindexed_dropped un Hun). by rewrite app_nil_r.
Qed.

(** Resolving a candidate. *)
Lemma candidate_row e b : e ∈ es → resolves (entry_rid e) = Some b →
  per_candidate table projection (Some predicate) project_row_drain b = Ok (row_of b).
Proof using Hcov Hbytes Hproj Hhits.
  intros He Hr. destruct (rows_reference b) as [Hb Href].
  - destruct (cv_rows _ _ _ _ _ _ Hcov) as (un & -> & _). apply elem_of_app. left. apply list_elem_of_omap.
    exists (entry_rid e). split; [|done]. by apply list_elem_of_fmap_2.
  - apply per_candidate_ok; [|done..]. intros row. by apply project_row_drain_exact.
Qed.

Lemma matching_entry P rid : rid ∈ entry_rid <$> matching P es → ∃ e, rid = entry_rid e ∧ e ∈ es.
Proof. intros (e & -> & [_ He]%list_elem_of_filter)%list_elem_of_fmap. by exists e. Qed.

Lemma resolve_item_row rid : (∃ e, rid = entry_rid e ∧ e ∈ es) →
  resolve_item read snapshot self_xid (per_candidate table projection (Some predicate) project_row_drain) rid =
  Ok (option_list (resolves rid ≫= row_of)).
Proof using Hcov Hbytes Hproj Hhits.
  intros (e & -> & He). unfold resolve_item. rewrite (cv_resolves _ _ _ _ _ _ Hcov) by done. cbn [mbind outcome_bind].
  destruct (resolves (entry_rid e)) as [b|] eqn:Er; [|done]. by rewrite (candidate_row e).
Qed.

Lemma resolve_serial_rows cands : (∀ rid, rid ∈ cands → ∃ e, rid = entry_rid e ∧ e ∈ es) →
  resolve_serial read snapshot self_xid (per_candidate table projection (Some predicate) project_row_drain) cands =
  Ok (omap (λ rid, resolves rid ≫= row_of) cands).
Proof using Hcov Hbytes Hproj Hhits.
  intros Hc. unfold resolve_serial. rewrite (for_each_fold _ (λ out rid, out ++ option_list (resolves rid ≫= row_of))).
  - by rewrite foldl_collect.
  - intros out rid Hr. destruct (Hc rid Hr) as (e & -> & He).
    rewrite (visible_bytes_Ok _ _ (cv_resolves _ _ _ _ _ _ Hcov e He)). cbn [mbind outcome_bind].
    destruct (resolves (entry_rid e)) as [b|] eqn:Er; cbn [ok_or mbind outcome_bind option_bind];
      [by rewrite (candidate_row e)|by rewrite app_nil_r].
Qed.

Lemma serial_run_candidates (items : list (Result (list (list Literal)))) cands : (∀ rid, rid ∈ cands → ∃ e, rid = entry_rid e ∧ e ∈ es) →
  Forall2 (λ x rid, x = resolve_item read snapshot self_xid (per_candidate table projection (Some predicate) project_row_drain) rid) items cands →
  serial_run items = Ok (omap (λ rid, resolves rid ≫= row_of) cands).
Proof using Hcov Hbytes Hproj Hhits.
  intros Hc HF. induction HF as [|x rid items cands -> HF IH]; [done|]. cbn [serial_run omap list_omap].
  rewrite resolve_item_row, IH by (intros; apply Hc; by constructor). cbn. by destruct (resolves rid ≫= row_of).
Qed.

Context (deadline : nat → Result unit) (Hdl : ∀ i, deadline i = Ok tt).

Lemma with_deadline_ok {A} k i (r : Result A) : with_deadline deadline k i r = r.
Proof using Hdl. unfold with_deadline. rewrite Hdl. by case_decide. Qed.

Lemma items_of cands :
  Forall2 (λ x rid, x = resolve_item read snapshot self_xid (per_candidate table projection (Some predicate) project_row_drain) rid)
    (imap (λ i rid, with_deadline deadline 64 i
      (resolve_item read snapshot self_xid (per_candidate table projection (Some predicate) project_row_drain) rid)) cands) cands.
Proof using Hdl.
  apply Forall2_same_length_lookup. split; [apply length_imap|]. intros i x rid.
  rewrite list_lookup_imap. intros Hx Hr. rewrite Hr in Hx. injection Hx as <-. apply with_deadline_ok.
Qed.

(** The searches of the index fail with [r]. *)
Definition index_gives (ix : IndexReader) (r : Result unit) : Prop :=
  (∃ op v, (_ ← ix_search ix op v; Ok tt) = r) ∨ (∃ o v n, (_ ← ix_search_range_partition ix o v n; Ok tt) = r).

Definition lookup_post (ix : IndexReader) (r : Result (option (list (list Literal)))) : Prop :=
  match r with
  | Ok (Some out) => out ≡ₚ hits.*1
  | Ok None => True
  | Err e => index_gives ix (Err e)
  | Panic => index_gives ix Panic
  end.

Lemma parallel_candidates cands degree sched r : (0 < degree)%nat →
  cands = entry_rid <$> matching (cmp_holds op value) es →
  parallel_resolve_candidates read snapshot self_xid deadline (per_candidate table projection (Some predicate) project_row_drain)
    cands degree sched = Some r → ∃ out, r = Ok out ∧ out ≡ₚ hits.*1.
Proof using Type*.
  intros Hd -> Hr. eapply parallel_units in Hr as (out & -> & Hp); [|done|].
  - exists out. split; [done|]. etrans; [exact Hp|apply lookup_rows].
  - eapply serial_run_candidates; [apply matching_entry|].
    rewrite concat_imap_single. apply items_of.
Qed.

Lemma parallel_partitions parts degree sched r : (0 < degree)%nat →
  concat parts = entry_rid <$> matching (cmp_holds op value) es →
  parallel_resolve_partitions read snapshot self_xid deadline (per_candidate table projection (Some predicate) project_row_drain)
    parts degree sched = Some r → ∃ out, r = Ok out ∧ out ≡ₚ hits.*1.
Proof using Type*.
  intros Hd Hc Hr. unfold parallel_resolve_partitions in Hr. eapply parallel_units in Hr as (out & -> & Hp); [|done|].
  - exists out. split; [done|]. etrans; [exact Hp|apply lookup_rows].
  - eapply serial_run_candidates; [apply matching_entry|]. rewrite <- Hc. clear -Hdl.
    induction parts as [|part parts IH]; [done|]. cbn. apply Forall2_app; [apply items_of|apply IH].
Qed.

Definition lease_ok (lease : option (nat * list nat)) : Prop :=
  match lease with Some (degree, _) => (0 < degree)%nat | None => True end.

Lemma search_post ix `{!IndexLaws ix es} lease r : lease_ok lease →
  match ix_search ix op value with
  | Ok (Some ids) =>
      match (if decide (PARALLEL_CANDIDATE_MIN ≤ length ids)%nat then lease else None) with
      | Some (degree, sched) =>
          match parallel_resolve_candidates read snapshot self_xid deadline
                  (per_candidate table projection (Some predicate) project_row_drain) ids degree sched with
          | Some r => Some (rows ← r; Ok (Some rows))
          | None => None
          end
      | None => Some (rows ← resolve_serial read snapshot self_xid
                        (per_candidate table projection (Some predicate) project_row_drain) ids; Ok (Some rows))
      end
  | Ok None => Some (Ok None)
  | Err e => Some (Err e)
  | Panic => Some Panic
  end = Some r → lookup_post ix r.
Proof using Type*.
  intros Hl. destruct (ix_search ix op value) as [[cands|]|e|] eqn:Es;
    [|by intros [= <-]|intros [= <-]; left; do 2 eexists; by rewrite Es..].
  assert (cands = entry_rid <$> matching (cmp_holds op value) es) as Hc.
  { apply il_search in Es. destruct op; congruence. }
  destruct (if decide _ then lease else None) as [[degree sched]|] eqn:El.
  - assert (0 < degree)%nat as Hd by (case_decide; [subst lease; exact Hl|done]).
    destruct (parallel_resolve_candidates _ _ _ _ _ _ _ _) as [r'|] eqn:E; [|done]. intros [= <-].
    by apply parallel_candidates in E as (out & -> & Hp).
  - intros [= <-]. rewrite Hc, resolve_serial_rows by apply matching_entry. apply lookup_rows.
Qed.

Lemma lookup_exact ix `{!IndexLaws ix es} range_lease lease r : lease_ok range_lease → lease_ok lease →
  try_exec_select_btree read snapshot self_xid deadline range_lease lease ix table projection (Some predicate)
    (column, op, into_literal value) false = Some r →
  lookup_post ix r.
Proof using Type*.
  intros Hrl Hl. unfold try_exec_select_btree. assert (ordered_of (into_literal value) = Some value) as -> by (by destruct value).
  destruct (list_find _ _) as [[_ c]|]; [|by intros [= <-]]. destruct (col_index_root c); [|by intros [= <-]].
  destruct (range_of op) as [rop|] eqn:Er; [|by apply search_post].
  destruct range_lease as [[degree sched]|]; [|by apply search_post].
  destruct (ix_search_range_partition ix rop value degree) as [parts|e|] eqn:Ep;
    [|intros [= <-]; right; do 3 eexists; by rewrite Ep..].
  apply il_partition in Ep; [|done]. assert (cmp_of rop = op) as Eo by (destruct op; by inversion Er). rewrite Eo in Ep.
  case_decide.
  - destruct (parallel_resolve_partitions _ _ _ _ _ _ _ _) as [r'|] eqn:E; [|done]. intros [= <-].
    by apply parallel_partitions in E as (out & -> & Hp).
  - intros [= <-]. rewrite Ep, resolve_serial_rows by apply matching_entry. apply lookup_rows.
Qed.

End covered.

(** *** Index-only scans *)

(** A visible row under a matching key gives the key, when the comparison is the whole
    predicate and its column the whole projection. *)
Lemma key_row table column idx op value es rows resolves hits e b :
  covers table column idx es rows resolves → (∀ e, e ∈ es → key_kind (key_of e) = key_kind value) →
  Forall (λ p, bytes p.2) rows →
  reference_select table [column] (Some (EBinOp op (EColumn column) (ELiteral (into_literal value)))) rows = Ok hits →
  e ∈ es → resolves (entry_rid e) = Some b → cmp_holds op value (key_of e) = true →
  row_of table [column] (EBinOp op (EColumn column) (ELiteral (into_literal value))) b = Some [into_literal (key_of e)].
Proof.
  intros Hcov Hkind Hb Hh He Hr Hm. pose proof Hcov as [Hv _ Hkey (un & Hp & _)].
  destruct (rows_reference table [column] _ rows hits Hb Hh b) as [_ Href].
  { rewrite Hp. apply elem_of_app. left. apply list_elem_of_omap. exists (entry_rid e). split; [|done]. by apply list_elem_of_fmap_2. }
  unfold row_of in *. unfold reference_row in *. destruct (decode_row b (td_columns table)) as [row| |] eqn:Ed; [|done..].
  pose proof (Hkey e b row He Hr Ed) as Hx. cbn [mbind outcome_bind predicate_matches eval_expr] in *. rewrite Hv in *. cbn [ok_or mbind outcome_bind] in *.
  rewrite (index_lookup _ _ _ Hx) in *. cbn [mbind outcome_bind] in *.
  destruct (compare op (into_literal (key_of e)) (into_literal value)) as [m| |] eqn:Ec; [|done..].
  apply compare_key in Ec as ->; [|by apply Hkind]. rewrite Hm in *. cbn [mbind outcome_bind as_bool] in *.
  cbn [project_row project_names] in *. rewrite Hv. cbn [ok_or mbind outcome_bind]. by rewrite (index_lookup _ _ _ Hx).
Qed.

(** C27: An index-only scan returns the rows of the sequential scan, in some order, when both
    succeed, the comparison it serves is the whole predicate and is not [<>], the projection
    is the indexed column alone, the index has no INCLUDE columns, it covers the visible
    rows, and its keys are of the kind of the literal compared with. *)
Theorem index_only_exact ix es `{!IndexLaws ix es} table column idx op value rows resolves hits out :
  covers table column idx es rows resolves → (∀ e, e ∈ es → key_kind (key_of e) = key_kind value) →
  Forall (λ p, bytes p.2) rows → op ≠ CNe → is_covering table column = false →
  reference_select table [column] (Some (EBinOp op (EColumn column) (ELiteral (into_literal value)))) rows = Ok hits →
  index_only_rows read snapshot self_xid ix table [column] column op value = Ok out →
  out ≡ₚ hits.*1.
Proof.
  intros Hcov Hkind Hb Hne Hc Hh. unfold index_only_rows. rewrite Hc. intros Ho. inv_bind Ho. apply il_keys in E.
  assert (a = (matching (cmp_holds op value) es).*1) as -> by (destruct op; done). clear E.
  rewrite <- (lookup_rows table [column] (EBinOp op (EColumn column) (ELiteral (into_literal value))) column op value idx es rows resolves hits); [|done..].
  assert (∀ l acc, (∀ e, e ∈ l → e ∈ es ∧ cmp_holds op value (key_of e) = true) →
    for_each (λ out c, b ← visible_bytes read snapshot self_xid c.2; Ok match b with Some _ => out ++ [[into_literal c.1]] | None => out end) acc l.*1 =
    Ok (acc ++ omap (λ rid, resolves rid ≫= row_of table [column] (EBinOp op (EColumn column) (ELiteral (into_literal value)))) (entry_rid <$> l))) as Hx.
  { clear Ho. induction l as [|e l IH]; intros acc Hl; [cbn; by rewrite app_nil_r|]. destruct (Hl e) as [He Hm]; [by left|].
    cbn [fmap list_fmap for_each omap list_omap]. change e.1.2 with (entry_rid e).
    rewrite (visible_bytes_Ok _ _ (cv_resolves _ _ _ _ _ _ Hcov e He)). cbn [mbind outcome_bind option_bind].
    destruct (resolves (entry_rid e)) as [b|] eqn:Er; cbn [ok_or mbind outcome_bind option_bind].
    - rewrite (key_row table column idx op value es rows resolves hits e b) by done.
      rewrite IH by (intros; apply Hl; by right). by rewrite <- app_assoc.
    - apply IH. intros; apply Hl; by right. }
  rewrite Hx in Ho; [by injection Ho as <-|]. intros e [Hm He]%list_elem_of_filter. done.
Qed.

(** C2: However a SELECT on one table is run (serially or in parallel on any schedule,
    through the index the statistics choose or by a scan), it returns the rows that
    decoding every visible row in full, evaluating the predicate and projecting gives, in
    some order; an error can only be one of the index searches.  The heap scan and that
    reference evaluation succeed; the stored rows are byte strings; no column is projected
    twice; the predicate has no NEAR and no MATCH at top level or under AND; no cancellation
    or deadline check fires; every lease has a worker, and the schedule is one on which the
    workers finish.  An index that is chosen covers the visible rows, has keys of the kind
    of the literal compared with, and is not read index-only. *)
Theorem select_exact near_search match_search check deadline range_lease lease scan_lease ix_of stats pages table projection predicate rows hits r :
  predicate ≫= find_near = None → predicate ≫= find_match = None →
  heap_scan read pages snapshot self_xid = Ok rows → Forall (λ p, bytes p.2) rows → NoDup projection →
  (∀ i, check i = Ok tt) → (∀ i, deadline i = Ok tt) →
  lease_ok range_lease → lease_ok lease → lease_ok scan_lease →
  reference_select table projection predicate rows = Ok hits →
  (∀ e column op l, predicate = Some e → find_best_indexable_btree_predicate e table stats = Some (column, op, l) →
     index_only_scan table projection column = false ∧
     ∀ value, ordered_of l = Some value → ∃ idx es resolves, IndexLaws (ix_of column) es ∧
       covers table column idx es rows resolves ∧ ∀ e, e ∈ es → key_kind (key_of e) = key_kind value) →
  exec_select read snapshot self_xid near_search match_search check deadline range_lease lease scan_lease ix_of stats pages table projection predicate = Some r →
  match r with
  | Ok (columns, out, _) => columns = output_columns projection (td_columns table) ∧ out ≡ₚ hits.*1
  | Err e => ∃ column, index_gives (ix_of column) (Err e)
  | Panic => ∃ column, index_gives (ix_of column) Panic
  end.
Proof.
  intros Hnear Hmatch Hs Hb Hnd Hc Hdl Hrl Hl Hlease Hh Hix. unfold exec_select. rewrite Hnear, Hmatch. clear Hnear Hmatch.
  destruct (select_scan_exact read snapshot self_xid check deadline table projection predicate pages rows hits)
    as [Hserial Hpar]; [done..|].
  assert (∀ r, match exec_select_scan read snapshot self_xid check deadline scan_lease pages table projection predicate with
    | Some r => Some ('(rows, read_ids) ← r; Ok (output_columns projection (td_columns table), rows, read_ids)) | None => None end = Some r →
    match r with
    | Ok (columns, out, _) => columns = output_columns projection (td_columns table) ∧ out ≡ₚ hits.*1
    | Err e => ∃ column, index_gives (ix_of column) (Err e)
    | Panic => ∃ column, index_gives (ix_of column) Panic
    end) as Hscan.
  { clear r. intros r. destruct scan_lease as [[degree sched]|]; [|rewrite Hserial; by intros [= <-]].
    destruct (Hpar degree) as [Hp _]; [done|]. clear Hserial.
    destruct (exec_select_scan _ _ _ _ _ (Some (degree, sched)) _ _ _ _) as [r'|] eqn:E; [|done].
    destruct (Hp _ _ E) as (hits' & Hperm & ->). intros [= <-]. split; [done|]. by rewrite Hperm. }
  destruct predicate as [e|]; [|apply Hscan]. cbn [mbind option_bind].
  destruct (find_best_indexable_btree_predicate e table stats) as [[[column op] l]|] eqn:Ef; [|apply Hscan].
  destruct (index_lookup_is_selective stats (column, op, l) true); [|apply Hscan].
  destruct (Hix e column op l eq_refl Ef) as [Hio Hv]. cbn [fst snd]. rewrite Hio.
  destruct (ordered_of l) as [value|] eqn:Eo; [|unfold try_exec_select_btree at 1; rewrite Eo; apply Hscan].
  destruct (Hv value eq_refl) as (idx & es & resolves & Hlaws & Hcov & Hkind). apply ordered_of_literal in Eo as ->.
  destruct (try_exec_select_btree _ _ _ _ _ _ _ _ _ _ _ _) as [r'|] eqn:Et; [|done].
  eapply lookup_exact in Et; [|first [done|by eapply find_best_conjunct]..].
  destruct r' as [[out|]|e'|]; cbn in Et; [intros [= <-]; done|apply Hscan|intros [= <-]; by exists column..].
Qed.

End lookup.
