(* ===== verification/SqlSelectCases.v ===== *)
(** SELECT on a concrete table: the index path at work, and the queries on which the paths
    of the executor disagree. *)

From stdpp Require Import base numbers list gmap strings.
From Stdlib Require Import Lia.
From S2P Require Import Prelude Format Mvcc Page PageSpec PageProps Txn HeapRead BTreeNode BTree BTreeSpec BTreeSearch BTreeRead.
From S2P Require Import Text Float Datetime SqlTypes SqlValue SqlRow SqlStats SqlExpr ParallelScan SqlSelect SqlSelectProps SqlIndexProps.

(** An index that is a list of entries. *)
Definition list_index (es : list Entry) : IndexReader :=
  mkIndexReader
    (λ op v, Ok match op with CNe => None | _ => Some (entry_rid <$> matching (cmp_holds op v) es) end)
    (λ op v, Ok match op with CNe => [] | _ => (matching (cmp_holds op v) es).*1 end)
    (λ op v, Ok match op with CNe => [] | _ => entry_out <$> matching (cmp_holds op v) es end)
    (λ o v n, Ok [entry_rid <$> matching (cmp_holds (cmp_of o) v) es]).

#[export] Instance list_index_laws es : IndexLaws (list_index es) es.
Proof.
  split; cbn; [by intros op v r [= <-]..|]. intros o v n r Hn [= <-]. cbn. by rewrite app_nil_r.
Qed.

Definition s_table : TableDef :=
  plain_table "t" [mkColumn "a" TInt64 (Some IBTree) (Some 3) None no_constraints false [] None; plain_column "b" TInt64].

Definition s_page : SlottedPage := Eval vm_compute in
  match @new sum_crc 7 1 400 with
  | Ok p => match @run_ops sum_crc p [OInsert (encode_row [LInt 1; LInt 5]) 5 0 None; OInsert (encode_row [LInt 2; LInt 6]) 5 0 None;
                                      OInsert (encode_row [LInt 2; LInt 7]) 6 0 None] with
            | Ok (p, _) => p
            | _ => p
            end
  | _ => mkPage []
  end.

Definition s_read (pid : PageId) : Result SlottedPage := if decide (pid = 7) then Ok s_page else Err (PageNotFound pid).
Definition s_snap : Snapshot := mkSnapshot 9 9 [].

Definition s_entries : list Entry :=
  [(KInt 1, mkRowId 7 0, []); (KInt 2, mkRowId 7 1, []); (KInt 2, mkRowId 7 2, [])].

Definition s_stats : option TableStats :=
  match compute [[LInt 1; LInt 5]; [LInt 2; LInt 6]; [LInt 2; LInt 7]] (td_columns s_table) with
  | Ok s => Some (mkTableStats (ts_row_count s) 10 (ts_columns s))
  | _ => None
  end.

Section run.
Context `{!SerdeJson, !CaseTables}.

Definition s_select (projection : list string) (predicate : option Expr) :=
  exec_select s_read s_snap 20 (λ _ _ _, None) (λ _ _, None) (λ _, Ok tt) (λ _, Ok tt) None None None (λ _, list_index s_entries) s_stats [7] s_table projection predicate.
Definition s_scan (projection : list string) (predicate : option Expr) :=
  exec_select_readonly s_read s_snap 20 (λ _, Ok tt) [7] s_table projection predicate.

Definition s_cmp (column : string) (op : CmpOp) (l : Literal) : Expr := EBinOp op (EColumn column) (ELiteral l).

(** Where the paths of a SELECT differ on a table with rows (1,5), (2,6), (2,7) and an
    index on the first column: an index-only scan ignores the rest of the WHERE clause;
    it returns nothing for [<>]; a text literal finds nothing through an index on an
    integer column; a column projected twice is NULL the second time; and the rows read
    through an index are not noted for serializable transactions. *)
Theorem select_path_defects :
  let both := EAnd (s_cmp "a" CEq (LInt 2)) (s_cmp "b" CEq (LInt 7)) in
  s_select ["a"%string] (Some both) = Some (Ok (["a"%string], [[LInt 2]; [LInt 2]], [])) ∧
  s_scan ["a"%string] (Some both) = Ok (["a"%string], [[LInt 2]]) ∧
  s_select ["a"%string] (Some (s_cmp "a" CNe (LInt 1))) = Some (Ok (["a"%string], [], [])) ∧
  s_scan ["a"%string] (Some (s_cmp "a" CNe (LInt 1))) = Ok (["a"%string], [[LInt 2]; [LInt 2]]) ∧
  s_select ["b"%string] (Some (s_cmp "a" CEq (LText (lit "2")))) = Some (Ok (["b"%string], [], [])) ∧
  s_scan ["b"%string] (Some (s_cmp "a" CEq (LText (lit "2")))) = Ok (["b"%string], [[LInt 6]; [LInt 7]]) ∧
  s_select ["b"%string; "b"%string] (Some (s_cmp "b" CEq (LInt 7))) =
    Some (Ok (["b"%string; "b"%string], [[LInt 7; LNull]], [mkRowId 7 2])) ∧
  s_select ["b"%string] (Some (s_cmp "a" CEq (LInt 1))) = Some (Ok (["b"%string], [[LInt 5]], [])).
Proof. vm_compute. done. Qed.

End run.

(** ** Witnesses *)

#[local] Existing Instances no_json ascii_tables.

Definition s_rows : list (RowId * list Z) := Eval vm_compute in
  [(mkRowId 7 0, encode_row [LInt 1; LInt 5]); (mkRowId 7 1, encode_row [LInt 2; LInt 6]);
   (mkRowId 7 2, encode_row [LInt 2; LInt 7])].

Definition s_resolves (rid : RowId) : option (list Z) := snd <$> (list_find (λ p, p.1 = rid) s_rows ≫= λ x, Some x.2).

Lemma s_covers : covers s_read s_snap 20 s_table "a" 0 s_entries s_rows s_resolves.
Proof.
  split.
  - vm_compute. done.
  - intros e He. repeat (apply elem_of_cons in He as [->|He]; [vm_compute; done|]). by apply elem_of_nil in He.
  - intros e b row He Hr Hd. repeat (apply elem_of_cons in He as [->|He]; [vm_compute in Hr; injection Hr as <-; vm_compute in Hd; injection Hd as <-; vm_compute; done|]).
    by apply elem_of_nil in He.
  - exists []. split; [vm_compute; done|]. by intros b row ?%elem_of_nil.
Qed.

Lemma s_scan_rows : heap_scan s_read [7] s_snap 20 = Ok s_rows.
Proof. vm_compute. done. Qed.

Lemma s_bytes : Forall (λ p, bytes p.2) s_rows.
Proof. unfold s_rows. repeat first [apply Forall_nil_2 | apply Forall_cons_2]; cbn; concrete_bytes. Qed.

Lemma s_kinds n e : e ∈ s_entries → key_kind (key_of e) = key_kind (KInt n).
Proof. intros He. repeat (apply elem_of_cons in He as [->|He]; [done|]). by apply elem_of_nil in He. Qed.

Definition s_both : Expr := EAnd (s_cmp "a" CEq (LInt 2)) (s_cmp "b" CEq (LInt 7)).

Lemma select_exact_witness : ∃ out, s_select ["b"%string] (Some s_both) = Some (Ok (["b"%string], out, [])) ∧ out ≡ₚ [[LInt 7]].
Proof.
  exists [[LInt 7]]. split; [vm_compute; done|].
  refine (proj2 (select_exact s_read s_snap 20 (λ _ _ _, None) (λ _ _, None) (λ _, Ok tt) (λ _, Ok tt) None None None (λ _, list_index s_entries) s_stats [7] s_table
    ["b"%string] (Some s_both) s_rows [([LInt 7], mkRowId 7 2)] (Ok (["b"%string], [[LInt 7]], []))
    eq_refl eq_refl s_scan_rows s_bytes _ _ _ I I I _ _ _)).
  - apply NoDup_singleton.
  - done.
  - done.
  - vm_compute. done.
  - intros e column op l [= <-] Hf. vm_compute in Hf. injection Hf as <- <- <-. split; [vm_compute; done|].
    intros value [= <-]. exists 0%nat, s_entries, s_resolves. split; [apply _|]. split; [apply s_covers|apply s_kinds].
  - vm_compute. done.
Defined.

Lemma index_only_exact_witness : ∃ out,
  index_only_rows s_read s_snap 20 (list_index s_entries) s_table ["a"%string] "a" CGe (KInt 2) = Ok out ∧ out ≡ₚ [[LInt 2]; [LInt 2]].
Proof.
  exists [[LInt 2]; [LInt 2]]. split; [vm_compute; done|].
  refine (index_only_exact s_read s_snap 20 (list_index s_entries) s_entries s_table "a" 0 CGe (KInt 2) s_rows s_resolves
    [([LInt 2], mkRowId 7 1); ([LInt 2], mkRowId 7 2)] _ s_covers (s_kinds 2) s_bytes _ _ _ _).
  - done.
  - vm_compute. done.
  - vm_compute. done.
  - vm_compute. done.
Defined.
