(* ===== verification/SqlQuery.v ===== *)
(** Queries over several relations: expressions and query trees ([src/sql/query.rs]), column
    resolution and evaluation ([src/sql/plan.rs]), and the tokens of MATCH
    ([src/fulltext.rs]). *)

From stdpp Require Import base numbers list strings.
From Stdlib Require Import Lia.
From Stdlib Require Import Floats.SpecFloat.
From S2P Require Import Prelude Format BTreeNode BTree Text Float Datetime SqlTypes SqlValue SqlRow SqlExpr.

(** ** Data *)

Inductive AggFunc := AggCount | AggSum | AggAvg | AggMin | AggMax.
Inductive JoinType := JInner | JLeft | JRight | JCross | JFullOuter.
Inductive CastTarget := CastText | CastInt | CastFloat | CastBool.

Record TableRef := mkTableRef { tr_table : string; tr_alias : option string }.
Definition qualifier (t : TableRef) : string := default (tr_table t) (tr_alias t).

Inductive QExpr : Type :=
| QColumn (qualifier : option string) (name : string)
| QLiteral (l : Literal)
| QCompare (op : CmpOp) (lhs rhs : QExpr)
| QAnd (lhs rhs : QExpr)
| QOr (lhs rhs : QExpr)
| QNot (e : QExpr)
| QIsNull (e : QExpr) (negated : bool)
| QAggregate (func : AggFunc) (arg : option QExpr) (distinct : bool)
| QExists (subquery : QuerySpec) (negated : bool)
| QInSubquery (e : QExpr) (subquery : QuerySpec) (negated : bool)
| QInList (e : QExpr) (l : list QExpr) (negated : bool)
| QScalarSubquery (subquery : QuerySpec)
| QLike (e pattern : QExpr) (negated case_insensitive : bool)
| QMatch (column query : QExpr)
| QArith (op : ArithOp) (lhs rhs : QExpr)
| QCase (operand : option QExpr) (conditions : list (QExpr * QExpr)) (else_result : option QExpr)
| QCoalesce (args : list QExpr)
| QNullif (lhs rhs : QExpr)
| QCast (e : QExpr) (to_type : CastTarget)
| QWindow (func : WindowFunc) (over : WindowSpec)
with WindowFunc : Type :=
| WRowNumber | WRank | WDenseRank
| WLag (e : QExpr) (n : Z)
| WLead (e : QExpr) (n : Z)
| WSum (e : QExpr)
| WAvg (e : QExpr)
| WCount
| WMin (e : QExpr)
| WMax (e : QExpr)
with WindowSpec : Type := mkWindowSpec (partition_by : list QExpr) (order_by : list (QExpr * bool))
with Projection : Type :=
| PWildcard
| PQualifiedWildcard (q : string)
| PExpr (e : QExpr) (alias : option string)
with FromNode : Type :=
| FTable (t : TableRef)
| FJoin (left right : FromNode) (join_type : JoinType) (on : option QExpr) (using_columns : list string) (natural : bool)
| FDual
| FDerived (subquery : QuerySpec) (alias : string)
with QuerySpec : Type := mkQuerySpec (ctes : list (string * QuerySpec)) (from : FromNode) (selection : option QExpr)
    (projection : list Projection) (group_by : list QExpr) (having : option QExpr) (distinct : bool)
    (order_by : list (QExpr * bool)) (limit : option nat) (offset : nat).

Record ColumnRef := mkColumnRef { cr_qualifier : string; cr_name : string; cr_ty : ColumnType }.

Record Batch := mkBatch { b_schema : list ColumnRef; b_rows : list (list Literal) }.

(** ** Columns *)

(** [str::eq_ignore_ascii_case] *)
Definition eq_ignore_case (a b : string) : bool := bool_decide (ascii_lower <$> lit a = ascii_lower <$> lit b).

Definition column_matches (qualifier : option string) (name : string) (c : ColumnRef) : bool :=
  bool_decide (cr_name c = name) && match qualifier with Some q => eq_ignore_case q (cr_qualifier c) | None => true end.

Fixpoint resolve_from (schema : list ColumnRef) (qualifier : option string) (name : string) (i : nat) (found : option nat)
    : Result nat :=
  match schema with
  | [] => ok_or found (ColumnNotFound (default "" qualifier) name)
  | c :: schema =>
      if column_matches qualifier name c then
        match found with
        | Some _ => Err (SqlPlan "column reference is ambiguous")
        | None => resolve_from schema qualifier name (S i) (Some i)
        end
      else resolve_from schema qualifier name (S i) found
  end.

Definition resolve_column (schema : list ColumnRef) (qualifier : option string) (name : string) : Result nat :=
  resolve_from schema qualifier name 0 None.

(** ** Tokens *)

(** Tables of the Unicode standard, and [str::to_lowercase]. *)
Class UnicodeText := {
  char_is_alphanumeric : Z → bool;
  str_to_lowercase : list Z → list Z
}.

Definition char_is_whitespace (c : Z) : bool :=
  bool_decide (9 ≤ c ≤ 13) || bool_decide (c = 32) || bool_decide (c = 0x85) || bool_decide (c = 0xA0)
  || bool_decide (c = 0x1680) || bool_decide (0x2000 ≤ c ≤ 0x200A) || bool_decide (c = 0x2028) || bool_decide (c = 0x2029)
  || bool_decide (c = 0x202F) || bool_decide (c = 0x205F) || bool_decide (c = 0x3000).

(** [split_whitespace] over code points; [word] is the word being read, reversed. *)
Fixpoint split_words (word s : list Z) : list (list Z) :=
  let emit := match word with [] => [] | _ => [rev word] end in
  match s with
  | [] => emit
  | c :: s => if char_is_whitespace c then emit ++ split_words [] s else split_words (c :: word) s
  end.

Fixpoint drop_while (p : Z → bool) (s : list Z) : list Z :=
  match s with c :: r => if p c then drop_while p r else s | [] => [] end.

(** [trim_matches] *)
Definition trim_chars (p : Z → bool) (s : list Z) : list Z := rev (drop_while p (rev (drop_while p s))).

Section tokens.
Context `{!UnicodeText}.

(** A token is its code points; the set is a list without duplicates. *)
Definition tokenize (text : list Z) : list (list Z) :=
  remove_dups (filter (λ w, w ≠ [])
    ((λ w, str_to_lowercase (trim_chars (λ c, negb (char_is_alphanumeric c)) w)) <$> split_words [] (chars text))).

End tokens.

(** ** Casts *)

(** [f as i64]: truncation towards zero, saturating; NaN is 0. *)
Definition f64_to_i64 (f : f64) : Z :=
  match sf_of f with
  | S754_zero _ | S754_nan => 0
  | S754_infinity s => if s then - 2 ^ 63 else 2 ^ 63 - 1
  | S754_finite s m e =>
      let v := (if s then -1 else 1) * (if decide (0 ≤ e) then Zpos m * 2 ^ e else Zpos m `quot` 2 ^ (- e)) in
      Z.max (- 2 ^ 63) (Z.min (2 ^ 63 - 1) v)
  end.

(** [Display] of a float and the derived [Debug] of a literal. *)
Class FormatText := {
  show_f64 : f64 → list Z;
  debug_literal : Literal → list Z
}.

(** [10_i128.pow(s)], wrapping. *)
Definition wrapping_pow10 (s : Z) : Z := wrap_i128 (10 ^ s).

(** [m / divisor] and [m % divisor] on [i128]. *)
Definition i128_div (a b : Z) : Result Z :=
  if decide (b = 0 ∨ (a = - 2 ^ 127 ∧ b = -1)) then Panic else Ok (a `quot` b).
Definition i128_rem (a b : Z) : Result Z :=
  if decide (b = 0 ∨ (a = - 2 ^ 127 ∧ b = -1)) then Panic else Ok (a `rem` b).

Section cast.
Context `{!FormatText, !UnicodeText}.

Definition literal_to_text (val : Literal) : Result (list Z) :=
  match val with
  | LText s => Ok s
  | LInt n => Ok (show_int n)
  | LFloat f => Ok (show_f64 f)
  | LBool b => Ok (lit (if b then "true" else "false"))
  | LDecimal m s =>
      if decide (s = 0) then Ok (show_int m)
      else
        int_part ← i128_div m (wrapping_pow10 s);
        frac_part ← i128_rem m (wrapping_pow10 s);
        Ok (show_int int_part ++ lit "." ++ pad_left (Z.to_nat s) 48 (show_int (wrap_i128 (Z.abs frac_part))))
  | LNull => Ok []
  | other => Ok (debug_literal other)
  end.

Definition cast_error : DbError := SqlPlan "CAST: cannot convert".

Definition cast_int (val : Literal) : Result Literal :=
  match val with
  | LInt n => Ok (LInt n)
  | LFloat f => Ok (LInt (f64_to_i64 f))
  | LDecimal m s => q ← i128_div m (wrapping_pow10 s); Ok (LInt (wrap_i64 q))
  | LBool b => Ok (LInt (if b then 1 else 0))
  | LText s => n ← ok_or (parse_i64 (trim s)) cast_error; Ok (LInt n)
  | _ => Err cast_error
  end.

Definition cast_float (val : Literal) : Result Literal :=
  match val with
  | LFloat f => Ok (LFloat f)
  | LInt n => Ok (LFloat (f64_of_int n))
  | LDecimal m s => Ok (LFloat (f64_div (f64_of_int m) (f64_powi f64_ten s)))
  | LBool b => Ok (LFloat (f64_of_int (if b then 1 else 0)))
  | LText s => f ← ok_or (parse_f64 (trim s)) cast_error; Ok (LFloat f)
  | _ => Err cast_error
  end.

Definition cast_bool (val : Literal) : Result Literal :=
  match val with
  | LBool b => Ok (LBool b)
  | LInt n => Ok (LBool (negb (bool_decide (n = 0))))
  | LFloat f => Ok (LBool (negb (f64_eqb f (f64_of_int 0))))
  | LDecimal m _ => Ok (LBool (negb (bool_decide (m = 0))))
  | LText s =>
      let w := str_to_lowercase (chars (trim s)) in
      if existsb (λ t, bool_decide (w = lit t)) ["true"; "t"; "yes"; "y"; "on"; "1"]%string then Ok (LBool true)
      else if existsb (λ t, bool_decide (w = lit t)) ["false"; "f"; "no"; "n"; "off"; "0"]%string then Ok (LBool false)
      else Err cast_error
  | _ => Err cast_error
  end.

Definition eval_cast (val : Literal) (to_type : CastTarget) : Result Literal :=
  if is_null val then Ok LNull
  else match to_type with
  | CastText => t ← literal_to_text val; Ok (LText t)
  | CastInt => cast_int val
  | CastFloat => cast_float val
  | CastBool => cast_bool val
  end.

End cast.

(** ** Evaluation *)

Definition eval_match (col_val query_val : Literal) `{!UnicodeText} : Result Literal :=
  match col_val, query_val with
  | LNull, _ => Ok LNull
  | LText text, LText query =>
      match tokenize query with
      | [] => Ok (LBool false)
      | query_tokens => Ok (LBool (forallb (λ t, bool_decide (t ∈ tokenize text)) query_tokens))
      end
  | LText _, LNull => Ok LNull
  | _, _ => Ok (LBool false)
  end.

Section eval.
Context `{!SerdeJson, !CaseTables, !UnicodeText, !FormatText}.

Definition internal (what : string) : DbError := SqlPlan (String.append "internal: " what).

Fixpoint eval_qexpr (expr : QExpr) (schema : list ColumnRef) (row : list Literal) : Result Literal :=
  match expr with
  | QColumn qualifier name =>
      idx ← resolve_column schema qualifier name;
      index row (Z.of_nat idx)
  | QLiteral l => Ok l
  | QCompare op lhs rhs =>
      l ← eval_qexpr lhs schema row; r ← eval_qexpr rhs schema row;
      b ← compare op l r; Ok (LBool b)
  | QAnd lhs rhs =>
      l ← eval_qexpr lhs schema row; l ← as_bool l;
      if (l : bool) then r ← eval_qexpr rhs schema row; r ← as_bool r; Ok (LBool r) else Ok (LBool false)
  | QOr lhs rhs =>
      l ← eval_qexpr lhs schema row; l ← as_bool l;
      if (l : bool) then Ok (LBool true) else r ← eval_qexpr rhs schema row; r ← as_bool r; Ok (LBool r)
  | QNot e => v ← eval_qexpr e schema row; b ← as_bool v; Ok (LBool (negb b))
  | QIsNull e negated => v ← eval_qexpr e schema row; Ok (LBool (negb (eqb (is_null v) negated)))
  | QAggregate _ _ _ => Err (internal "aggregate reached row-level evaluation")
  | QInList e l negated =>
      needle ← eval_qexpr e schema row;
      if is_null needle then Ok LNull
      else
        any ← (fix any_of (l : list QExpr) : Result bool :=
          match l with
          | [] => Ok false
          | item :: l =>
              v ← eval_qexpr item schema row;
              b ← compare CEq needle v;
              if (b : bool) then Ok true else any_of l
          end) l;
        Ok (LBool (negb (eqb any negated)))
  | QExists _ _ | QInSubquery _ _ _ | QScalarSubquery _ => Err (internal "subquery reached the pure evaluator")
  | QLike e pattern negated ci =>
      val ← eval_qexpr e schema row; pat ← eval_qexpr pattern schema row; eval_like val pat negated ci
  | QMatch column query =>
      c ← eval_qexpr column schema row; q ← eval_qexpr query schema row; eval_match c q
  | QArith op lhs rhs =>
      l ← eval_qexpr lhs schema row; r ← eval_qexpr rhs schema row; eval_arith op l r
  | QCase operand conditions else_result =>
      op_val ← match operand with
               | Some o => v ← eval_qexpr o schema row; Ok (Some v)
               | None => Ok None
               end;
      (fix branches (l : list (QExpr * QExpr)) : Result Literal :=
        match l with
        | [] => match else_result with Some e => eval_qexpr e schema row | None => Ok LNull end
        | (cond, branch) :: l =>
            c ← eval_qexpr cond schema row;
            matched ← match op_val with Some v => compare CEq v c | None => as_bool c end;
            if (matched : bool) then eval_qexpr branch schema row else branches l
        end) conditions
  | QCoalesce args =>
      (fix first_of (l : list QExpr) : Result Literal :=
        match l with
        | [] => Ok LNull
        | a :: l => v ← eval_qexpr a schema row; if is_null v then first_of l else Ok v
        end) args
  | QNullif lhs rhs =>
      a ← eval_qexpr lhs schema row; b ← eval_qexpr rhs schema row;
      e ← compare CEq a b; Ok (if (e : bool) then LNull else a)
  | QCast e to_type => v ← eval_qexpr e schema row; eval_cast v to_type
  | QWindow _ _ => Err (internal "window function reached row-level evaluation")
  end.

Definition eval_predicate (expr : QExpr) (schema : list ColumnRef) (row : list Literal) : Result bool :=
  v ← eval_qexpr expr schema row; as_bool v.

End eval.

(** ** Join keys *)

Definition join_key_bytes (key : list Literal) : option (list Z) :=
  if existsb is_null key then None else Some (encode_row key).

Fixpoint key_ord (a b : list Literal) : option comparison :=
  match a, b with
  | x :: a, y :: b =>
      match literal_ord x y with
      | None => None
      | Some Eq => key_ord a b
      | Some c => Some c
      end
  | _, _ => Some Eq
  end.

(** ** Conditions *)

Fixpoint conjuncts (e : QExpr) : list QExpr :=
  match e with QAnd l r => conjuncts l ++ conjuncts r | _ => [e] end.

Definition as_equi (e : QExpr) : option (QExpr * QExpr) :=
  match e with QCompare CEq ((QColumn _ _) as l) ((QColumn _ _) as r) => Some (l, r) | _ => None end.

(** ** Instances for examples *)

Definition ascii_text : UnicodeText := {| char_is_alphanumeric c := is_ascii_digit c; str_to_lowercase s := ascii_lower <$> s |}.
Definition bits_text : FormatText := {| show_f64 f := show_int f; debug_literal _ := [] |}.
