(* ===== verification/SqlSort.v ===== *)
(** ORDER BY ([src/sql/sort.rs]): comparing rows by their keys, sorting in memory, and the
    external merge sort that spills sorted runs to files; the per-query limits that set
    its row budget ([src/query_limits.rs]); the resolution of the keys ([src/sql/plan.rs]). *)

From stdpp Require Import base numbers sets list strings sorting.
From Stdlib Require Import Lia.
From S2P Require Import Prelude SortBy Format BTreeNode BTree Text Float Datetime SqlTypes SqlValue SqlValueProps SqlRow SqlExpr SqlQuery.

(** ** Limits of a query *)

(** Times are milliseconds of the monotonic clock. A cancellation token is shared: its
    identity, with the flags in a store. *)
Record QueryLimits := mkQueryLimits {
  ql_deadline : option Z;
  ql_cancel : option nat;
  ql_work_mem_rows : option nat;
  ql_timeout : option Z
}.

Definition with_timeout (now timeout : Z) : QueryLimits := mkQueryLimits (Some (now + timeout)) None None (Some timeout).

(** The thread-local [CURRENT]; the guard is the value that is put back. *)
Definition install (limits : QueryLimits) (current : option QueryLimits) : option QueryLimits * option QueryLimits :=
  (Some limits, current).
Definition drop_guard (guard current : option QueryLimits) : option QueryLimits := guard.

Definition cancelled (flags : nat → bool) (token : option nat) : bool :=
  match token with Some t => flags t | None => false end.

(** [check] on the query's thread, at time [now]. *)
Definition check_limits (current : option QueryLimits) (flags : nat → bool) (now : Z) : Result unit :=
  match current with
  | None => Ok ()
  | Some limits =>
      if cancelled flags (ql_cancel limits) then Err QueryCancelled
      else match ql_deadline limits with
      | Some deadline => if decide (deadline ≤ now) then Err (QueryTimeout (default 0 (ql_timeout limits))) else Ok ()
      | None => Ok ()
      end
  end.

(** What a worker thread is given to check with. *)
Record DeadlineSnapshot := mkDeadline { ds_deadline : option Z; ds_cancel : option nat; ds_limit_ms : Z }.

Definition snapshot_deadline (current : option QueryLimits) : DeadlineSnapshot :=
  match current with
  | Some l => mkDeadline (ql_deadline l) (ql_cancel l) (default 0 (ql_timeout l))
  | None => mkDeadline None None 0
  end.

Definition check_deadline (d : DeadlineSnapshot) (flags : nat → bool) (now : Z) : Result unit :=
  if cancelled flags (ds_cancel d) then Err QueryCancelled
  else match ds_deadline d with
  | Some deadline => if decide (deadline ≤ now) then Err (QueryTimeout (ds_limit_ms d)) else Ok ()
  | None => Ok ()
  end.

Definition work_mem_rows (current : option QueryLimits) (dflt : nat) : nat :=
  default dflt (current ≫= ql_work_mem_rows).

(** [env] is the parsed [UNIDB_SORT_MEM_ROWS]. *)
Definition sort_mem_rows (env : option nat) (current : option QueryLimits) : nat :=
  work_mem_rows current
    (match env with Some n => if decide (0 < n)%nat then n else Z.to_nat 1000000 | None => Z.to_nat 1000000 end).

(** ** Keys *)

Record SortKey := mkSortKey { sk_column : nat; sk_asc : bool }.

Fixpoint position {A} (p : A → bool) (l : list A) : option nat :=
  match l with
  | [] => None
  | x :: l => if p x then Some 0%nat else S <$> position p l
  end.

(** [(n as usize).checked_sub(1)], within the output. *)
Definition order_position (n : Z) (width : nat) : Result nat :=
  let u := n mod 2 ^ 64 in
  if decide (u = 0 ∨ Z.of_nat width ≤ u - 1) then Err (SqlPlan "ORDER BY position is out of range")
  else Ok (Z.to_nat (u - 1)).

Definition order_column (e : QExpr) (output : list ColumnRef) : Result nat :=
  match e with
  | QLiteral (LInt n) => order_position n (length output)
  | QColumn _ name =>
      ok_or (position (λ c, eq_ignore_case (cr_name c) name) output)
        (SqlPlan "ORDER BY must be an output column name or position in v1")
  | _ => Err (SqlUnsupported "ORDER BY supports an output column name or 1-based position in v1")
  end.

Definition resolve_order_by (order_by : list (QExpr * bool)) (output : list ColumnRef) : Result (list SortKey) :=
  mapM (λ k, column ← order_column k.1 output; Ok (mkSortKey column k.2)) order_by.

Definition order_key_needs_pre_proj_sort (e : QExpr) (proj_output pre_proj_schema : list ColumnRef) : bool :=
  match e with
  | QColumn _ name =>
      if existsb (λ c, eq_ignore_case (cr_name c) name) proj_output then false
      else existsb (λ c, eq_ignore_case (cr_name c) name) pre_proj_schema
  | _ => false
  end.

Definition order_column_pre_proj (e : QExpr) (pre_proj_schema proj_output : list ColumnRef) : Result nat :=
  match e with
  | QLiteral (LInt n) =>
      proj_idx ← order_position n (length proj_output);
      c ← index proj_output (Z.of_nat proj_idx);
      Ok (default proj_idx (position (λ d, eq_ignore_case (cr_name d) (cr_name c)) pre_proj_schema))
  | QColumn qualifier name =>
      ok_or (position (λ c, eq_ignore_case (cr_name c) name
                            && match qualifier with Some q => eq_ignore_case (cr_qualifier c) q | None => true end)
               pre_proj_schema)
        (SqlPlan "ORDER BY is not a column in the FROM clause")
  | _ => Err (SqlUnsupported "ORDER BY supports a column name or 1-based position in v1")
  end.

Definition resolve_order_by_pre_proj (order_by : list (QExpr * bool)) (pre_proj_schema proj_output : list ColumnRef)
    : Result (list SortKey) :=
  mapM (λ k, column ← order_column_pre_proj k.1 pre_proj_schema proj_output; Ok (mkSortKey column k.2)) order_by.

(** ** Comparing rows *)

Definition null_first_cmp (av bv : Literal) : comparison :=
  match is_null av, is_null bv with
  | true, true => Eq
  | true, false => Lt
  | false, true => Gt
  | false, false => default Eq (literal_ord av bv)
  end.

Fixpoint cmp_rows (a b : list Literal) (keys : list SortKey) : Result comparison :=
  match keys with
  | [] => Ok Eq
  | k :: keys =>
      av ← index a (Z.of_nat (sk_column k));
      bv ← index b (Z.of_nat (sk_column k));
      let base := null_first_cmp av bv in
      match (if sk_asc k then base else CompOpp base) with
      | Eq => cmp_rows a b keys
      | ord => Ok ord
      end
  end.

(** The order of rows that have every key's column. *)
Definition row_order (keys : list SortKey) (a b : list Literal) : comparison :=
  match cmp_rows a b keys with Ok c => c | _ => Eq end.

Definition has_keys (keys : list SortKey) (row : list Literal) : bool :=
  forallb (λ k, bool_decide (sk_column k < length row)%nat) keys.

(** [rows.sort_by(cmp_rows)]. Keys are positions in the rows' schema; a row without a key's
    column makes the comparison index out of range. *)
Definition sort_in_memory (keys : list SortKey) (rows : list (list Literal)) : Result (list (list Literal)) :=
  if decide (2 ≤ length rows)%nat then
    if forallb (has_keys keys) rows then Ok (sort_by (row_order keys) rows) else Panic
  else Ok rows.

(** ** The merge heap *)

Record HeapItem := mkItem { hi_row : list Literal; hi_run : nat }.

(** [Ord] for items, before the reversal that turns the max-heap into a min-heap. *)
Definition item_cmp (keys : list SortKey) (x y : HeapItem) : comparison :=
  then_cmp (row_order keys (hi_row x) (hi_row y)) (hi_run x ?= hi_run y)%nat.

(** [BinaryHeap::pop]: the heap as a bag of items, at most one per run, so the smallest is unique. *)
Fixpoint pop_min (keys : list SortKey) (heap : list HeapItem) : option (HeapItem * list HeapItem) :=
  match heap with
  | [] => None
  | x :: heap' =>
      match pop_min keys heap' with
      | None => Some (x, [])
      | Some (y, rest) => match item_cmp keys x y with Gt => Some (y, x :: rest) | _ => Some (x, heap') end
      end
  end.

(** ** Spilling *)

(** [serde_json::to_string] and [from_str] on a row. *)
Class SpillCodec := {
  row_to_line : list Literal → option (list Z);
  row_of_line : list Z → option (list Literal)
}.

(** The file-system calls that can fail. *)
Inductive SpillCall := CreateDir | CreateRun (run : nat) | OpenRun (run : nat).

Definition spill_io (io : SpillCall → option DbError) (c : SpillCall) : Result unit :=
  match io c with Some e => Err e | None => Ok () end.

(** [BufRead::read_line]: up to and including a newline. *)
Fixpoint read_line (r : list Z) : list Z * list Z :=
  match r with
  | [] => ([], [])
  | c :: r => if decide (c = 10) then ([c], r) else let '(l, rest) := read_line r in (c :: l, rest)
  end.

Definition chunks {A} (n : nat) (l : list A) : Result (list (list A)) :=
  let fix go (fuel : nat) (l : list A) : list (list A) :=
    match fuel, l with
    | S fuel, _ :: _ => take n l :: go fuel (drop n l)
    | _, _ => []
    end in
  if decide (n = 0)%nat then Panic else Ok (go (length l) l).

Section spill.
Context `{!SpillCodec} (io : SpillCall → option DbError).

Definition write_row (row : list Literal) : Result (list Z) :=
  line ← ok_or (row_to_line row) (SqlPlan "sort spill encode"); Ok (line ++ [10]).

Definition read_row (reader : list Z) : Result (option (list Literal) * list Z) :=
  let '(line, rest) := read_line reader in
  match line with
  | [] => Ok (None, rest)
  | _ =>
      match trim_end line with
      | [] => Ok (None, rest)
      | trimmed => row ← ok_or (row_of_line trimmed) (SqlPlan "sort spill decode"); Ok (Some row, rest)
      end
  end.

(** Phase 1: a sorted run in its file. *)
Definition write_run (keys : list SortKey) (run_idx : nat) (chunk : list (list Literal)) : Result (list Z) :=
  run ← sort_in_memory keys chunk;
  _ ← spill_io io (CreateRun run_idx);
  lines ← mapM write_row run;
  Ok (concat lines).

Definition push_row (row : option (list Literal)) (run : nat) (heap : list HeapItem) : list HeapItem :=
  match row with Some row => heap ++ [mkItem row run] | None => heap end.

(** The first row of every run. *)
Fixpoint fill_heap (i : nat) (readers : list (list Z)) : Result (list HeapItem * list (list Z)) :=
  match readers with
  | [] => Ok ([], [])
  | reader :: readers =>
      r ← read_row reader; h ← fill_heap (S i) readers;
      Ok (push_row r.1 i [] ++ h.1, r.2 :: h.2)
  end.

(** Phase 2. Every step reads on in one file; running out of [fuel] is a panic that
    does not happen (see [external_sort_ok]). *)
Fixpoint merge_runs (fuel : nat) (keys : list SortKey) (heap : list HeapItem) (readers : list (list Z))
    : Result (list (list Literal)) :=
  match fuel with
  | O => Panic
  | S fuel =>
      match pop_min keys heap with
      | None => Ok []
      | Some (item, heap) =>
          reader ← index readers (Z.of_nat (hi_run item));
          r ← read_row reader;
          out ← merge_runs fuel keys (push_row r.1 (hi_run item) heap) (<[hi_run item := r.2]> readers);
          Ok (hi_row item :: out)
      end
  end.

Definition external_sort (rows : list (list Literal)) (keys : list SortKey) (mem_rows : nat) : Result (list (list Literal)) :=
  _ ← spill_io io CreateDir;
  cs ← chunks mem_rows rows;
  files ← mapM (λ p, write_run keys p.1 p.2) (imap pair cs);
  _ ← mapM (λ i, spill_io io (OpenRun i)) (seq 0 (length files));
  h ← fill_heap 0 files;
  merge_runs (S (length (concat files))) keys h.1 h.2.

Definition sort_rows (rows : list (list Literal)) (keys : list SortKey) (mem_rows : nat) : Result (list (list Literal)) :=
  if decide (length rows ≤ mem_rows)%nat then sort_in_memory keys rows else external_sort rows keys mem_rows.

End spill.

(** A worker that checks its snapshot stops exactly when the query's thread would. *)
Lemma snapshot_same_verdict current flags now :
  check_deadline (snapshot_deadline current) flags now = check_limits current flags now.
Proof. by destruct current. Qed.

(** ** The order of rows *)

Lemma bytes_cmp_le_trans a b c : bytes_cmp a b ≠ Gt → bytes_cmp b c ≠ Gt → bytes_cmp a c ≠ Gt.
Proof.
  revert b c. induction a as [|x a IH]; intros [|y b] [|z c]; try done. cbn [bytes_cmp]. specialize (IH b c).
  destruct (Z.compare_spec x y), (Z.compare_spec y z), (Z.compare_spec x z); try done; try lia.
Qed.

Lemma bytes_cmp_ord l : ord_on bytes_cmp l.
Proof. split; [intros; apply bytes_cmp_opp|intros; by eapply bytes_cmp_le_trans]. Qed.

(** Values that order among themselves: the kind, and the content that is compared. *)
Definition plain (l : Literal) : option (nat * list Z) :=
  match l with
  | LInt n => Some (0%nat, [n])
  | LText s => Some (1%nat, s)
  | LTimestamp n => Some (2%nat, [n])
  | LUuid b => Some (3%nat, b)
  | LBytea b => Some (4%nat, b)
  | LDate n => Some (5%nat, [n])
  | LTime n => Some (6%nat, [n])
  | _ => None
  end.

Lemma literal_ord_plain l r k a b : plain l = Some (k, a) → plain r = Some (k, b) → literal_ord l r = Some (bytes_cmp a b).
Proof.
  intros Hl Hr. destruct l; try done; destruct r; try done; simplify_eq/=; unfold literal_ord; cbn.
  all: match goal with |- context [?c] => match type of c with comparison => destruct c end end; done.
Qed.

(** A column whose values are NULL or of one kind. *)
Definition one_kind (k : nat) (l : Literal) : Prop := is_null l = true ∨ ∃ a, plain l = Some (k, a).

Lemma null_first_ord k l : (∀ v, v ∈ l → one_kind k v) → ord_on null_first_cmp l.
Proof.
  intros Hk. set (rank := λ v, match plain v with Some (_, a) => 1 :: a | None => [] end).
  apply (ord_on_ext (λ a b, bytes_cmp (rank a) (rank b))); [|apply ord_on_map, bytes_cmp_ord].
  intros a b [Ha|[ca Ha]]%Hk [Hb|[cb Hb]]%Hk; unfold null_first_cmp, rank; rewrite ?Ha, ?Hb.
  - destruct a, b; done.
  - destruct a; try done. by destruct b.
  - destruct b; try done. by destruct a.
  - rewrite (literal_ord_plain a b k ca cb) by done. destruct a; try done; by destruct b.
Qed.

Definition key_value (k : SortKey) (row : list Literal) : Literal := default LNull (row !! sk_column k).

Lemma has_keys_cons k keys row : has_keys (k :: keys) row = true ↔
  is_Some (row !! sk_column k) ∧ has_keys keys row = true.
Proof. cbn. rewrite andb_true_iff, bool_decide_eq_true. by rewrite lookup_lt_is_Some. Qed.

Lemma row_order_cons k keys a b : is_Some (a !! sk_column k) → is_Some (b !! sk_column k) →
  row_order (k :: keys) a b =
    then_cmp ((if sk_asc k then id else CompOpp) (null_first_cmp (key_value k a) (key_value k b))) (row_order keys a b).
Proof.
  unfold row_order, key_value. intros [x Ha] [y Hb]. cbn [cmp_rows].
  rewrite (index_lookup _ _ _ Ha), (index_lookup _ _ _ Hb), Ha, Hb. cbn.
  destruct (sk_asc k), (null_first_cmp x y); done.
Qed.

(** Rows with every key's column, each of these columns of one kind. *)
Definition sortable (keys : list SortKey) (rows : list (list Literal)) : Prop :=
  forallb (has_keys keys) rows = true ∧
  ∀ k, k ∈ keys → ∃ kind, ∀ row, row ∈ rows → one_kind kind (key_value k row).

Lemma sortable_ord keys rows : sortable keys rows → ord_on (row_order keys) rows.
Proof.
  intros [Hh Hk]. rewrite forallb_forall in Hh. setoid_rewrite <- list_elem_of_In in Hh.
  induction keys as [|k keys IH]; [apply ord_on_trivial|].
  assert (∀ row, row ∈ rows → is_Some (row !! sk_column k) ∧ has_keys keys row = true) as Hh'
    by (intros row Hr; by apply has_keys_cons, Hh).
  eapply ord_on_ext; [intros a b Ha Hb; symmetry; apply row_order_cons; by apply Hh'|].
  apply ord_on_then; [|apply IH; [intros row Hr; by apply Hh'|intros k' Hk'; apply Hk; by right]].
  assert (ord_on (λ a b, null_first_cmp (key_value k a) (key_value k b)) rows) as Ho.
  { apply ord_on_map. destruct (Hk k) as [kind Hkind]; [by left|]. apply (null_first_ord kind).
    intros v (row & -> & Hr)%list_elem_of_fmap. by apply Hkind. }
  destruct (sk_asc k); [done|by apply ord_on_opp].
Qed.

Lemma sort_in_memory_ok keys rows : forallb (has_keys keys) rows = true →
  sort_in_memory keys rows = Ok (sort_by (row_order keys) rows).
Proof.
  intros Hh. unfold sort_in_memory. rewrite Hh. case_decide as Hl; [done|]. by destruct rows as [|x [|]]; [..|cbn in Hl; lia].
Qed.

(** ** Popping *)

Section pop.
Context (keys : list SortKey).

Lemma item_cmp_ord heap : ord_on (row_order keys) (hi_row <$> heap) → ord_on (item_cmp keys) heap.
Proof.
  intros Ho. apply ord_on_then; [by apply (ord_on_map hi_row)|]. split.
  - intros a b _ _. apply Nat.compare_antisym.
  - intros a b c _ _ _. rewrite !Nat.compare_ngt_iff. lia.
Qed.

Lemma pop_min_None heap : pop_min keys heap = None → heap = [].
Proof. destruct heap as [|x heap]; [done|]. cbn. destruct (pop_min keys heap) as [[y rest]|]; [|done]. by destruct (item_cmp keys x y). Qed.

Lemma pop_min_spec heap x rest : ord_on (item_cmp keys) heap → pop_min keys heap = Some (x, rest) →
  heap ≡ₚ x :: rest ∧ ∀ y, y ∈ rest → item_cmp keys x y ≠ Gt.
Proof.
  revert x rest. induction heap as [|z heap IH]; intros x rest Ho; [done|]. cbn.
  destruct (pop_min keys heap) as [[y rest']|] eqn:E.
  - destruct (IH y rest') as [Hp Hmin]; [eapply ord_on_subset, Ho; set_solver|done|].
    assert (∀ w, w ∈ z :: y :: rest' → w ∈ z :: heap) as Hin by (intros w; by rewrite Hp).
    assert (item_cmp keys z y ≠ Gt → ∀ w, w ∈ heap → item_cmp keys z w ≠ Gt) as Hz.
    { intros Hzy w Hw. rewrite Hp in Hw. apply elem_of_cons in Hw as [->|Hw]; [done|].
      eapply (proj2 Ho z y w); [apply Hin; set_solver..|done|by apply Hmin]. }
    assert (item_cmp keys z y = CompOpp (item_cmp keys y z)) as Ha by (apply (proj1 Ho); apply Hin; set_solver).
    destruct (item_cmp keys z y) eqn:Ezy; intros [= <- <-]; [split; [done|by apply Hz]..|].
    split; [rewrite Hp; apply Permutation_swap|]. intros w [->|Hw]%elem_of_cons; [|by apply Hmin].
    by destruct (item_cmp keys y z).
  - intros [= <- <-]. apply pop_min_None in E as ->. split; [done|]. intros y Hy. by apply elem_of_nil in Hy.
Qed.

End pop.

(** ** Files *)

Section files.
Context `{!SpillCodec}.

(** A row that its line gives back. JSON text has no line break and no space at its end. *)
Definition spill_exact (row : list Literal) : Prop :=
  ∃ line, row_to_line row = Some line ∧ line ≠ [] ∧ 10 ∉ line ∧ 13 ∉ line ∧ trim_end (line ++ [10]) = line ∧ row_of_line line = Some row.

Definition spill_line (row : list Literal) : list Z := default [] (row_to_line row) ++ [10].
Definition spill_file (run : list (list Literal)) : list Z := concat (spill_line <$> run).

Lemma read_line_app line rest : 10 ∉ line → read_line (line ++ 10 :: rest) = (line ++ [10], rest).
Proof.
  induction line as [|c line IH]; intros Hn; [done|]. cbn. rewrite decide_False by set_solver.
  rewrite IH by set_solver. done.
Qed.

Lemma write_row_ok row : spill_exact row → write_row row = Ok (spill_line row).
Proof. intros (line & Hl & _). unfold write_row, spill_line. by rewrite Hl. Qed.

Lemma read_row_trimmed reader line rest trimmed row : read_line reader = (line, rest) → line ≠ [] → trim_end line = trimmed →
  trimmed ≠ [] → row_of_line trimmed = Some row → read_row reader = Ok (Some row, rest).
Proof.
  intros Hl Hn Ht Htn Hr. unfold read_row. rewrite Hl. destruct line as [|c line]; [done|]. rewrite Ht.
  destruct trimmed as [|d trimmed]; [done|]. by rewrite Hr.
Qed.

Lemma read_row_line row rest : spill_exact row → read_row (spill_line row ++ rest) = Ok (Some row, rest).
Proof.
  intros (line & Hl & Hne & Hn & _ & Ht & Hr). unfold spill_line. rewrite Hl. cbn [default]. rewrite <- app_assoc. cbn [app].
  eapply read_row_trimmed; [by apply read_line_app| |done..]. by destruct line.
Qed.

Lemma read_row_file run : Forall spill_exact run → read_row (spill_file run) = Ok (head run, spill_file (tail run)).
Proof. intros [|row run' Hr _]; [done|]. unfold spill_file. cbn [fmap list_fmap concat]. by apply read_row_line. Qed.

Lemma spill_file_length run : (length run ≤ length (spill_file run))%nat.
Proof.
  induction run as [|row run IH]; [done|]. unfold spill_file in *. rewrite fmap_cons. cbn [concat length].
  unfold spill_line at 1. rewrite !length_app. cbn [length]. lia.
Qed.

(** ** Merging *)

Fixpoint heads (i : nat) (runs : list (list (list Literal))) : list HeapItem :=
  match runs with [] => [] | run :: runs => push_row (head run) i [] ++ heads (S i) runs end.

Lemma fill_heap_ok i runs : Forall (Forall spill_exact) runs →
  fill_heap i (spill_file <$> runs) = Ok (heads i runs, (λ run, spill_file (tail run)) <$> runs).
Proof.
  intros Hall. revert i. induction Hall as [|run runs Hr _ IH]; intros i; [done|]. cbn. rewrite read_row_file by done.
  cbn. by rewrite IH.
Qed.

Lemma elem_of_heads i runs x : x ∈ heads i runs ↔
  ∃ j l, hi_run x = (i + j)%nat ∧ runs !! j = Some (hi_row x :: l).
Proof.
  revert i. induction runs as [|run runs IH]; intros i; cbn [heads]; [split; [by intros ?%elem_of_nil|by intros (?&?&_&?)]|].
  rewrite elem_of_app, IH. split.
  - intros [Hx|(j & l & Hj & Hl)]; [|exists (S j), l; split; [lia|done]].
    destruct run as [|row run]; cbn in Hx; [by apply elem_of_nil in Hx|]. apply list_elem_of_singleton in Hx as ->.
    exists 0%nat, run. split; [cbn; lia|done].
  - intros ([|j] & l & Hj & Hl); [|right; exists j, l; split; [lia|done]]. left. injection Hl as ->. cbn.
    apply list_elem_of_singleton. destruct x as [row r]. cbn in Hj |- *. f_equal. lia.
Qed.

Lemma heads_insert i j runs row l : runs !! j = Some (row :: l) →
  ∃ rest, heads i runs ≡ₚ mkItem row (i + j) :: rest ∧ heads i (<[j := l]> runs) ≡ₚ push_row (head l) (i + j) rest.
Proof.
  revert i j. induction runs as [|run runs IH]; intros i [|j]; try done; cbn [lookup list_lookup heads].
  - intros [= ->]. exists (heads (S i) runs). rewrite Nat.add_0_r. split; [done|]. cbn.
    destruct l; cbn; [done|]. by rewrite Permutation_cons_append.
  - intros Hj. destruct (IH (S i) j Hj) as (rest & H1 & H2). exists (push_row (head run) i [] ++ rest).
    rewrite <- Nat.add_succ_comm. split; [rewrite H1; by rewrite Permutation_middle|].
    cbn [insert list_insert heads]. rewrite H2. destruct l; cbn; [done|]. by rewrite app_assoc.
Qed.

Lemma head_in_runs {A} (runs : list (list A)) j y k : runs !! j = Some (y :: k) → y ∈ concat runs.
Proof. intros Hj. apply elem_of_concat. exists (y :: k). split; [by eapply list_elem_of_lookup_2|by left]. Qed.

Lemma heads_rows i runs x : x ∈ heads i runs → hi_row x ∈ concat runs.
Proof.
  intros (j & l & _ & Hl)%elem_of_heads. by eapply head_in_runs.
Qed.

(** The popped item is the first row of its run, and no other run has a smaller one. *)
Lemma pop_heads keys heap runs x rest : ord_on (row_order keys) (concat runs) → heap ≡ₚ heads 0 runs →
  pop_min keys heap = Some (x, rest) →
  ∃ l, runs !! hi_run x = Some (hi_row x :: l) ∧
    push_row (head l) (hi_run x) rest ≡ₚ heads 0 (<[hi_run x := l]> runs) ∧
    merge_all (row_order keys) runs = hi_row x :: merge_all (row_order keys) (<[hi_run x := l]> runs).
Proof.
  intros Ho Hh Hp. assert (ord_on (row_order keys) (hi_row <$> heap)) as Hoh.
  { eapply ord_on_subset, Ho. intros r (y & -> & Hy)%list_elem_of_fmap. rewrite Hh in Hy. by eapply heads_rows. }
  destruct (pop_min_spec keys heap x rest) as [Hx Hmin]; [by apply item_cmp_ord|done|].
  assert (∀ y, y ∈ x :: rest ↔ y ∈ heads 0 runs) as Hin by (intros y; by rewrite <- Hx, Hh).
  destruct (proj1 (elem_of_heads 0 runs x)) as (j & l & Hj & Hl); [apply Hin; by left|]. cbn in Hj. subst j.
  exists l. split; [done|].
  destruct (heads_insert 0 (hi_run x) runs _ _ Hl) as (rest' & H1 & H2). cbn in H1, H2.
  rewrite <- Hh, Hx in H1. assert (mkItem (hi_row x) (hi_run x) = x) as Ex by (by destruct x). rewrite Ex in H1.
  apply Permutation_cons_inv in H1. split; [rewrite H2; destruct l; cbn; by rewrite H1|].
  assert (∀ j y k, runs !! j = Some (y :: k) → j ≠ hi_run x → item_cmp keys x (mkItem y j) ≠ Gt) as Hcmp.
  { intros j y k Hjy Hne. apply Hmin. assert (mkItem y j ∈ x :: rest) as Hy by (apply Hin, elem_of_heads; eauto).
    apply elem_of_cons in Hy as [<-|Hy]; [done|done]. }
  apply merge_all_pop; [done|..]; intros j y k Hjy Hlt; specialize (Hcmp j y k Hjy ltac:(lia)).
  - rewrite (proj1 Ho) by (by eapply head_in_runs).
    unfold item_cmp in Hcmp. cbn in Hcmp. destruct (row_order keys (hi_row x) y); [|done..].
    cbn in Hcmp. apply Nat.compare_ngt_iff in Hcmp. lia.
  - intros Hgt. unfold item_cmp in Hcmp. cbn in Hcmp. by rewrite Hgt in Hcmp.
Qed.

Lemma concat_insert_perm {A} (runs : list (list A)) i x l : runs !! i = Some (x :: l) →
  concat runs ≡ₚ x :: concat (<[i := l]> runs).
Proof.
  revert i. induction runs as [|run runs IH]; intros [|i]; try done; cbn; [by intros [= ->]|].
  intros Hi. rewrite (IH i Hi). by rewrite Permutation_middle.
Qed.

Lemma Forall_concat_lookup {A} (P : A → Prop) runs i run : Forall P (concat runs) → runs !! i = Some run → Forall P run.
Proof.
  intros HP Hi. rewrite Forall_forall in HP |- *. intros x Hx. apply HP, elem_of_concat. exists run.
  split; [by eapply list_elem_of_lookup_2|done].
Qed.

Lemma merge_runs_ok keys fuel : ∀ heap runs,
  Forall spill_exact (concat runs) → ord_on (row_order keys) (concat runs) → heap ≡ₚ heads 0 runs →
  (length (concat runs) < fuel)%nat →
  merge_runs fuel keys heap ((λ run, spill_file (tail run)) <$> runs) = Ok (merge_all (row_order keys) runs).
Proof.
  induction fuel as [|fuel IH]; intros heap runs He Ho Hh Hf; [lia|]. cbn [merge_runs].
  destruct (pop_min keys heap) as [[x rest]|] eqn:Ep.
  - destruct (pop_heads keys heap runs x rest Ho Hh Ep) as (l & Hl & Hrest & ->).
    pose proof (concat_insert_perm _ _ _ _ Hl) as Hp.
    rewrite (index_lookup _ _ (spill_file l)) by (by rewrite list_lookup_fmap, Hl). cbn [mbind outcome_bind].
    rewrite read_row_file by (by eapply Forall_cons_1, Forall_concat_lookup). cbn [mbind outcome_bind fst snd].
    rewrite <- (list_fmap_insert (λ run, spill_file (tail run))). rewrite IH; [done|..|done|].
    + rewrite Hp in He. by apply Forall_cons in He as [_ He].
    + eapply ord_on_subset, Ho. intros r. rewrite Hp. by right.
    + apply Permutation_length in Hp. cbn in Hp. lia.
  - apply pop_min_None in Ep as ->. rewrite merge_all_nil; [done|]. apply Forall_forall. intros run [j Hj]%list_elem_of_lookup.
    destruct run as [|row l]; [done|]. exfalso. assert (mkItem row j ∈ heads 0 runs) as Hx by (apply elem_of_heads; eauto).
    rewrite <- Hh in Hx. by apply elem_of_nil in Hx.
Qed.

Lemma chunks_ok {A} n (l : list A) : (0 < n)%nat → ∃ cs, chunks n l = Ok cs ∧ concat cs = l.
Proof.
  intros Hn. unfold chunks. rewrite decide_False by lia. eexists. split; [done|].
  assert (∀ fuel (l : list A), (length l ≤ fuel)%nat → concat ((fix go (fuel : nat) (l : list A) : list (list A) :=
    match fuel, l with S fuel, _ :: _ => take n l :: go fuel (drop n l) | _, _ => [] end) fuel l) = l) as Hc; [|by apply Hc].
  induction fuel as [|fuel IH]; intros [|x k] Hl; try done; [cbn in Hl; lia|]. cbn [concat].
  rewrite IH; [apply take_drop|]. rewrite length_drop. cbn in *. lia.
Qed.

Context (io : SpillCall → option DbError) (Hio : ∀ c, io c = None).

Lemma spill_io_ok c : spill_io io c = Ok ().
Proof using Hio. unfold spill_io. by rewrite Hio. Qed.

Lemma write_run_ok keys i chunk : forallb (has_keys keys) chunk = true → Forall spill_exact chunk →
  write_run io keys i chunk = Ok (spill_file (sort_by (row_order keys) chunk)).
Proof using Hio.
  intros Hh He. unfold write_run. rewrite sort_in_memory_ok by done. cbn. rewrite spill_io_ok. cbn.
  rewrite (mapM_Ok _ spill_line); [done|]. intros row Hr. apply write_row_ok. rewrite sort_by_perm in Hr.
  rewrite Forall_forall in He. by apply He.
Qed.

Lemma external_sort_ok rows keys mem_rows : (0 < mem_rows)%nat → forallb (has_keys keys) rows = true →
  ord_on (row_order keys) rows → Forall spill_exact rows →
  external_sort io rows keys mem_rows = Ok (sort_by (row_order keys) rows).
Proof using Hio.
  intros Hm Hh Ho He. destruct (chunks_ok mem_rows rows Hm) as (cs & Hcs & <-). unfold external_sort.
  rewrite spill_io_ok, Hcs. cbn [mbind outcome_bind]. rewrite forallb_forall in Hh. setoid_rewrite <- list_elem_of_In in Hh.
  rewrite (mapM_Ok _ (λ p, spill_file (sort_by (row_order keys) p.2))).
  2: { intros p Hp%elem_of_imap_pair. apply write_run_ok.
       - apply forallb_forall. intros row Hr%list_elem_of_In. apply Hh, elem_of_concat. eauto.
       - apply list_elem_of_lookup in Hp as [j Hj]. by eapply Forall_concat_lookup. }
  cbn [mbind outcome_bind]. rewrite (mapM_Ok _ (λ _, ())) by (intros; apply spill_io_ok). cbn [mbind outcome_bind].
  assert ((λ p : nat * _, spill_file (sort_by (row_order keys) p.2)) <$> imap pair cs = spill_file <$> (sort_by (row_order keys) <$> cs)) as ->.
  { rewrite <- list_fmap_compose. etrans; [apply fmap_imap|exact (imap_const (λ c, spill_file (sort_by (row_order keys) c)) cs)]. }
  set (runs := sort_by (row_order keys) <$> cs).
  assert (concat runs ≡ₚ concat cs) as Hp.
  { subst runs. clear. induction cs as [|c cs IH]; [done|]. rewrite fmap_cons. cbn [concat]. by rewrite IH, sort_by_perm. }
  assert (Forall spill_exact (concat runs)) as He' by (by rewrite Hp).
  rewrite fill_heap_ok.
  2: { apply Forall_forall. intros run [j Hj]%list_elem_of_lookup. by eapply Forall_concat_lookup. }
  cbn [mbind outcome_bind fst snd]. rewrite merge_runs_ok; [by rewrite sort_by_concat|done| |done|].
  - eapply ord_on_subset, Ho. intros r. by rewrite Hp.
  - clear. induction runs as [|run runs IH]; [cbn; lia|]. rewrite fmap_cons. cbn [concat]. rewrite !length_app.
    pose proof (spill_file_length run). cbn in IH |- *. lia.
Qed.

End files.

(** ** ORDER BY *)

(** C39: Sorting for ORDER BY gives the rows in the order of the keys, NULLs first when a
    key ascends and last when it descends, and rows equal in every key in the order they
    came, whatever the row budget: the external merge sort through files, with runs of any
    positive size, returns the same list as the sort in memory. The columns of the keys
    hold values of one ordered type each, and a spilled row is read back from its line. *)
Theorem sort_rows_exact `{!SpillCodec} (io : SpillCall → option DbError) (rows : list (list Literal)) (keys : list SortKey) (mem_rows : nat) :
  (∀ c, io c = None) → (0 < mem_rows)%nat → sortable keys rows → Forall spill_exact rows →
  ∃ out, sort_rows io rows keys mem_rows = Ok out ∧
    (∀ budget, (0 < budget)%nat → sort_rows io rows keys budget = Ok out) ∧
    out ≡ₚ rows ∧ StronglySorted (λ a b, row_order keys a b ≠ Gt) out ∧
    ∀ row, row ∈ rows → filter (λ r, row_order keys r row = Eq) out = filter (λ r, row_order keys r row = Eq) rows.
Proof.
  intros Hio Hm Hs He. pose proof (sortable_ord keys rows Hs) as Ho. destruct Hs as [Hh _].
  assert (∀ budget, (0 < budget)%nat → sort_rows io rows keys budget = Ok (sort_by (row_order keys) rows)) as Hany.
  { intros budget Hb. unfold sort_rows. case_decide; [by apply sort_in_memory_ok|by apply external_sort_ok]. }
  exists (sort_by (row_order keys) rows). split; [by apply Hany|]. split; [done|].
  split; [apply sort_by_perm|]. split; [by apply sort_by_sorted|]. intros row Hrow. apply sort_by_stable; [done|].
  intros x y Hx Hy Ex Ey. destruct Ho as [Ha Ht].
  pose proof (Ht x row y Hx Hrow Hy) as Hxy. rewrite Ex, (Ha row y), Ey in Hxy by done.
  pose proof (Ht y row x Hy Hrow Hx) as Hyx. rewrite Ey, (Ha row x), Ex, (Ha y x) in Hyx by done.
  destruct (row_order keys x y); [done|by destruct Hyx|by destruct Hxy].
Qed.

(** A codec for rows of integers and NULLs, for the examples. *)
Definition int_codec : SpillCodec := {|
  row_to_line row := Some (91 :: flat_map (λ v, match v with LInt n => show_int n | _ => [110] end ++ [44]) row);
  row_of_line line :=
    match split 44 (tail line) with
    | [] => None
    | parts => Some ((λ p, match parse_i64 p with Some n => LInt n | None => LNull end) <$> take (pred (length parts)) parts)
    end
|}.

Definition demo_rows : list (list Literal) :=
  [[LInt 3; LInt 1]; [LNull; LInt 2]; [LInt 1; LInt 3]; [LInt 3; LInt 4]; [LInt 2; LNull]].
Definition demo_keys : list SortKey := [mkSortKey 0 false].

Lemma sort_rows_exact_witness :
  (@sort_rows int_codec (λ _, None) demo_rows demo_keys 2 =
     Ok [[LInt 3; LInt 1]; [LInt 3; LInt 4]; [LInt 2; LNull]; [LInt 1; LInt 3]; [LNull; LInt 2]]) ∧
  ∃ out, @sort_rows int_codec (λ _, None) demo_rows demo_keys 2 = Ok out ∧
    (∀ budget, (0 < budget)%nat → @sort_rows int_codec (λ _, None) demo_rows demo_keys budget = Ok out) ∧
    out ≡ₚ demo_rows ∧ StronglySorted (λ a b, row_order demo_keys a b ≠ Gt) out ∧
    ∀ row, row ∈ demo_rows → filter (λ r, row_order demo_keys r row = Eq) out = filter (λ r, row_order demo_keys r row = Eq) demo_rows.
Proof.
  split; [vm_compute; reflexivity|].
  apply (@sort_rows_exact int_codec (λ _, None) demo_rows demo_keys 2); [done|lia|..].
  - split; [done|]. intros k ->%list_elem_of_singleton. exists 0%nat. intros row Hr.
    unfold demo_rows in Hr. repeat (apply elem_of_cons in Hr as [->|Hr]; [first [by left|right; by eexists]|]). by apply elem_of_nil in Hr.
  - unfold demo_rows. repeat apply Forall_cons_2; [..|apply Forall_nil_2]; eexists;
      (split; [reflexivity|]; split; [done|]; do 2 (split; [apply (bool_decide_unpack _); vm_compute; exact I|]); by split; vm_compute).
Defined.

(** C@: Where ORDER BY does not do what it says: boolean values are not ordered at all; a
    row budget of zero panics as soon as there is a row; and the qualifier of a key is
    ignored, so that ordering by [b.id] orders by the first output column named [id]. *)
Theorem order_by_defects `{!SpillCodec} io :
  (∀ rows, (∀ row, row ∈ rows → ∃ b, row = [LBool b]) → (length rows ≤ 1000000)%nat →
     sort_rows io rows [mkSortKey 0 true] 1000000 = Ok rows) ∧
  (∀ rows keys, io CreateDir = None → rows ≠ [] → sort_rows io rows keys (work_mem_rows (Some (mkQueryLimits None None (Some 0%nat) None)) 1000) = Panic) ∧
  resolve_order_by [(QColumn (Some "b") "id", true)] [mkColumnRef "a" "id" TInt64; mkColumnRef "b" "id" TInt64] =
    Ok [mkSortKey 0 true].
Proof.
  split_and!.
  - intros rows Hb Hl. unfold sort_rows. rewrite decide_True by done. rewrite sort_in_memory_ok.
    + f_equal. clear Hl. induction rows as [|row rows IH]; [done|]. cbn [sort_by foldr]. fold (sort_by (row_order [mkSortKey 0 true]) rows).
      rewrite IH by (intros r Hr; apply Hb; by right). destruct rows as [|row' rows]; [done|]. cbn.
      destruct (Hb row) as [b ->]; [by left|]. destruct (Hb row') as [b' ->]; [right; by left|]. by destruct b, b'.
    + apply forallb_forall. intros row Hr%list_elem_of_In. by destruct (Hb row Hr) as [b ->].
  - intros rows keys Hio Hne. unfold sort_rows, external_sort, spill_io. cbn [work_mem_rows default option_bind mbind ql_work_mem_rows].
    rewrite decide_False by (destruct rows; [done|cbn; lia]). by rewrite Hio.
  - done.
Qed.
