(* ===== verification/SqlAgg.v ===== *)
(** Hash aggregation ([src/sql/aggregate.rs]): grouping by the encoded key, one accumulator
    per group and aggregate, against a reference that reads each group as a list. *)

From stdpp Require Import base numbers sets list gmap strings sorting.
From Stdlib Require Import Lia.
From S2P Require Import Prelude SortBy Format BTreeNode BTree Text Float Datetime SqlTypes SqlValue SqlValueProps SqlRow SqlStats SqlExpr SqlQuery SqlSort.

Record AggCall := mkAggCall { ac_func : AggFunc; ac_arg : option QExpr; ac_distinct : bool }.

Record Acc := mkAcc {
  a_func : AggFunc;
  a_distinct : bool;
  a_seen : gset (list Z);
  a_count : Z;
  a_sum_i : Z;
  a_sum_f : f64;
  a_saw_float : bool;
  a_saw_any : bool;
  a_extreme : option Literal
}.

Definition acc_new (call : AggCall) : Acc := mkAcc (ac_func call) (ac_distinct call) ∅ 0 0 f64_zero false false None.

Definition num_as_f64 (l : Literal) : f64 :=
  match l with
  | LInt n => f64_of_int n
  | LFloat f => f
  | LDecimal v s => f64_div (f64_of_int v) (f64_powi f64_ten s)
  | _ => f64_zero
  end.

Definition update_star (acc : Acc) : Acc :=
  mkAcc (a_func acc) (a_distinct acc) (a_seen acc) (wrap_i64 (a_count acc + 1)) (a_sum_i acc) (a_sum_f acc)
    (a_saw_float acc) (a_saw_any acc) (a_extreme acc).

(** Whether the value becomes the extreme. *)
Definition replaces (func : AggFunc) (extreme : option Literal) (v : Literal) : bool :=
  match extreme with
  | None => true
  | Some cur =>
      match literal_ord v cur, func with
      | Some Lt, AggMin | Some Gt, AggMax => true
      | _, _ => false
      end
  end.

(** The effect of a value that counts. *)
Definition accumulate (acc : Acc) (seen : gset (list Z)) (v : Literal) : Acc :=
  let count := wrap_i64 (a_count acc + 1) in
  match a_func acc with
  | AggCount => mkAcc (a_func acc) (a_distinct acc) seen count (a_sum_i acc) (a_sum_f acc) (a_saw_float acc) (a_saw_any acc) (a_extreme acc)
  | AggSum =>
      match v with
      | LInt n =>
          mkAcc (a_func acc) (a_distinct acc) seen count (wrap_i128 (a_sum_i acc + n)) (f64_add (a_sum_f acc) (f64_of_int n))
            (a_saw_float acc) true (a_extreme acc)
      | other =>
          mkAcc (a_func acc) (a_distinct acc) seen count (a_sum_i acc) (f64_add (a_sum_f acc) (num_as_f64 other)) true true (a_extreme acc)
      end
  | AggAvg =>
      mkAcc (a_func acc) (a_distinct acc) seen count (a_sum_i acc) (f64_add (a_sum_f acc) (num_as_f64 v)) (a_saw_float acc) true (a_extreme acc)
  | AggMin | AggMax =>
      mkAcc (a_func acc) (a_distinct acc) seen count (a_sum_i acc) (a_sum_f acc) (a_saw_float acc) (a_saw_any acc)
        (if replaces (a_func acc) (a_extreme acc) v then Some v else a_extreme acc)
  end.

Definition update (acc : Acc) (v : Literal) : Acc :=
  if is_null v then acc
  else if a_distinct acc then
    if decide (encode_row [v] ∈ a_seen acc) then acc else accumulate acc ({[encode_row [v]]} ∪ a_seen acc) v
  else accumulate acc (a_seen acc) v.

Definition finalize (acc : Acc) : Literal :=
  match a_func acc with
  | AggCount => LInt (a_count acc)
  | AggSum =>
      if negb (a_saw_any acc) then LNull
      else if a_saw_float acc then LFloat (a_sum_f acc)
      else LInt (wrap_i64 (a_sum_i acc))
  | AggAvg => if decide (a_count acc = 0) then LNull else LFloat (f64_div (a_sum_f acc) (f64_of_int (a_count acc)))
  | AggMin | AggMax => default LNull (a_extreme acc)
  end.

Section aggregate.
Context `{!SerdeJson, !CaseTables, !UnicodeText, !FormatText}.

(** The groups in the order first seen, and the state of each. *)
Record Groups := mkGroups { g_order : list (list Z); g_groups : gmap (list Z) (list Literal * list Acc) }.

Definition update_call (schema : list ColumnRef) (row : list Literal) (p : Acc * AggCall) : Result Acc :=
  match ac_arg p.2 with
  | None => Ok (update_star p.1)
  | Some arg => v ← eval_qexpr arg schema row; Ok (update p.1 v)
  end.

Definition aggregate_row (schema : list ColumnRef) (group_exprs : list QExpr) (aggs : list AggCall) (g : Groups) (row : list Literal)
    : Result Groups :=
  key ← mapM (λ e, eval_qexpr e schema row) group_exprs;
  let key_bytes := encode_row key in
  let '(order, entry) :=
    match g_groups g !! key_bytes with
    | Some entry => (g_order g, entry)
    | None => (g_order g ++ [key_bytes], (key, acc_new <$> aggs))
    end in
  accs ← mapM (update_call schema row) (zip entry.2 aggs);
  Ok (mkGroups order (<[key_bytes := (entry.1, accs)]> (g_groups g))).

Definition group_rows (g : Groups) : Result (list (list Literal)) :=
  mapM (λ key_bytes, match g_groups g !! key_bytes with
                     | Some (key, accs) => Ok (key ++ (finalize <$> accs))
                     | None => Panic
                     end) (g_order g).

Definition aggregate (input : Batch) (group_exprs : list QExpr) (aggs : list AggCall) (output : list ColumnRef) : Result Batch :=
  g ← for_each (aggregate_row (b_schema input) group_exprs aggs) (mkGroups [] ∅) (b_rows input);
  rows ← match g_order g, group_exprs with
         | [], [] => Ok [finalize <$> (acc_new <$> aggs)]
         | _, _ => group_rows g
         end;
  Ok (mkBatch output rows).

End aggregate.

(** ** Reference *)

(** The elements whose key no earlier element has. *)
Fixpoint first_by {A K} `{!EqDecision K} (f : A → K) (l : list A) : list A :=
  match l with
  | [] => []
  | x :: l => x :: filter (λ y, f y ≠ f x) (first_by f l)
  end.

(** The values an aggregate takes into account. *)
Definition counted (distinct : bool) (vals : list Literal) : list Literal :=
  let vs := filter (λ v, is_null v = false) vals in
  if distinct then first_by (λ v, encode_row [v]) vs else vs.

Definition int_value (v : Literal) : Z := match v with LInt n => n | _ => 0 end.
Definition is_int (v : Literal) : bool := match v with LInt _ => true | _ => false end.
Definition int_sum (vs : list Literal) : Z := foldr (λ v s, int_value v + s) 0 vs.
Definition float_sum (vs : list Literal) : f64 := foldl (λ s v, f64_add s (num_as_f64 v)) f64_zero vs.

(** What an aggregate of these values is. *)
Definition agg_value (func : AggFunc) (vs : list Literal) (r : Literal) : Prop :=
  match func with
  | AggCount => r = LInt (zlen vs)
  | AggSum => r = (if bool_decide (vs = []) then LNull else if forallb is_int vs then LInt (wrap_i64 (int_sum vs)) else LFloat (float_sum vs))
  | AggAvg => r = (if bool_decide (vs = []) then LNull else LFloat (f64_div (float_sum vs) (f64_of_int (zlen vs))))
  | AggMin => if bool_decide (vs = []) then r = LNull else r ∈ vs ∧ ∀ v, v ∈ vs → literal_cmp r v ≠ Gt
  | AggMax => if bool_decide (vs = []) then r = LNull else r ∈ vs ∧ ∀ v, v ∈ vs → literal_cmp r v ≠ Lt
  end.

(** ** One accumulator *)

Definition count_value (acc : Acc) (v : Literal) : Acc :=
  accumulate acc (if a_distinct acc then {[encode_row [v]]} ∪ a_seen acc else a_seen acc) v.

Lemma accumulate_fields acc seen v : a_func (accumulate acc seen v) = a_func acc ∧
  a_distinct (accumulate acc seen v) = a_distinct acc ∧ a_seen (accumulate acc seen v) = seen.
Proof. unfold accumulate. destruct (a_func acc) eqn:E; cbn; [done| |done..]. destruct v; done. Qed.

(** Skipping NULLs and values seen before amounts to folding over what counts. *)
Lemma fold_distinct vals : ∀ acc, a_distinct acc = true →
  foldl update acc vals = foldl count_value acc
    (filter (λ v, encode_row [v] ∉ a_seen acc) (first_by (λ v, encode_row [v]) (filter (λ v, is_null v = false) vals))).
Proof.
  induction vals as [|v vals IH]; intros acc Hd; [done|]. cbn [foldl]. unfold update at 2.
  destruct (is_null v) eqn:Ev; [rewrite filter_cons_False by congruence; by apply IH|].
  rewrite (filter_cons_True (λ v, is_null v = false)) by done. rewrite Hd. cbn [first_by].
  rewrite filter_cons, list_filter_filter. case_decide as Hs.
  - rewrite decide_False by (by intros []). rewrite IH by done. f_equal. apply list_filter_iff. intros w. split; [|by intros []].
    intros Hw. split; [done|]. intros Heq. by rewrite Heq in Hw.
  - rewrite decide_True by done. cbn [foldl]. unfold count_value at 2. rewrite Hd.
    destruct (accumulate_fields acc ({[encode_row [v]]} ∪ a_seen acc) v) as (_ & Hd' & Hs').
    rewrite IH by congruence. f_equal. apply list_filter_iff. intros w. rewrite Hs'. set_solver.
Qed.

Lemma fold_all vals : ∀ acc, a_distinct acc = false →
  foldl update acc vals = foldl count_value acc (filter (λ v, is_null v = false) vals).
Proof.
  induction vals as [|v vals IH]; intros acc Hd; [done|]. cbn [foldl]. unfold update at 2.
  destruct (is_null v) eqn:Ev; [rewrite filter_cons_False by congruence; by apply IH|]. rewrite filter_cons_True, Hd by done. cbn [foldl].
  unfold count_value at 2. rewrite Hd. apply IH. by rewrite (proj1 (proj2 (accumulate_fields _ _ _))).
Qed.

Lemma fold_counted call vals : foldl update (acc_new call) vals = foldl count_value (acc_new call) (counted (ac_distinct call) vals).
Proof.
  unfold counted. destruct (ac_distinct call) eqn:Hd; [|by apply fold_all].
  rewrite fold_distinct by done. f_equal. apply filter_all. intros; cbn. set_solver.
Qed.

Lemma wrap_i64_add a b : wrap_i64 (wrap_i64 a + b) = wrap_i64 (a + b).
Proof. unfold wrap_i64. Z.to_euclidean_division_equations; lia. Qed.

Lemma wrap_i128_add a b : wrap_i128 (wrap_i128 a + b) = wrap_i128 (a + b).
Proof. unfold wrap_i128. Z.to_euclidean_division_equations; lia. Qed.

Lemma wrap_i64_i128 a : wrap_i64 (wrap_i128 a) = wrap_i64 a.
Proof. unfold wrap_i64, wrap_i128. Z.to_euclidean_division_equations; lia. Qed.

Lemma int_sum_app a b : int_sum (a ++ b) = int_sum a + int_sum b.
Proof. unfold int_sum. induction a as [|v a IH]; [done|]. cbn. rewrite IH. lia. Qed.

(** The kept extreme is the least in the order of MIN, or in the reverse order for MAX. *)
Lemma replaces_min e v : (if replaces AggMin e v then Some v else e) = keep_least literal_cmp e v.
Proof. destruct e as [m|]; [|done]. unfold literal_cmp. cbn. by destruct (literal_ord v m) as [[]|]. Qed.

Lemma replaces_max e v : (if replaces AggMax e v then Some v else e) = keep_least (λ a b, CompOpp (literal_cmp a b)) e v.
Proof. destruct e as [m|]; [|done]. unfold literal_cmp. cbn. by destruct (literal_ord v m) as [[]|]. Qed.

(** What the fields hold after the values [vs]. *)
Lemma acc_fields call vs : let acc := foldl count_value (acc_new call) vs in
  a_func acc = ac_func call ∧ a_count acc = wrap_i64 (zlen vs) ∧
  match ac_func call with
  | AggCount => True
  | AggSum => a_sum_i acc = wrap_i128 (int_sum vs) ∧ a_sum_f acc = float_sum vs ∧ a_saw_float acc = negb (forallb is_int vs) ∧
      a_saw_any acc = negb (bool_decide (vs = []))
  | AggAvg => a_sum_f acc = float_sum vs
  | AggMin => a_extreme acc = foldl (keep_least literal_cmp) None vs
  | AggMax => a_extreme acc = foldl (keep_least (λ a b, CompOpp (literal_cmp a b))) None vs
  end.
Proof.
  induction vs as [|v vs IH] using rev_ind; [by destruct call as [[] ? ?]|]. cbv zeta in *. rewrite foldl_snoc.
  set (acc := foldl count_value (acc_new call) vs) in *. destruct IH as (Hf & Hc & IH).
  unfold count_value. set (seen := if a_distinct acc then _ else _). clearbody seen.
  split; [by rewrite (proj1 (accumulate_fields _ _ _))|].
  assert (zlen (vs ++ [v]) = zlen vs + 1) as Hl by (unfold zlen; rewrite length_app; cbn; lia). rewrite Hl.
  assert (vs ++ [v] ≠ []) as Hne by (by destruct vs). unfold float_sum. rewrite !foldl_snoc. fold (float_sum vs).
  rewrite int_sum_app, forallb_app, bool_decide_false by done.
  unfold accumulate. rewrite Hf, <- (wrap_i64_add (zlen vs)), <- Hc. destruct (ac_func call) eqn:Ef.
  - done.
  - destruct IH as (Hi & Hfs & Hsf & Hsa). destruct v; cbn; rewrite ?Z.add_0_r, ?Hi, ?Hfs, ?Hsf, ?wrap_i128_add, ?andb_true_r, ?andb_false_r; done.
  - cbn. by rewrite IH.
  - cbn. rewrite IH. by rewrite replaces_min.
  - cbn. rewrite IH. by rewrite replaces_max.
Qed.

Lemma finalize_value call vs : zlen vs < 2 ^ 63 →
  (ac_func call = AggMin ∨ ac_func call = AggMax → ord_on literal_cmp vs) →
  agg_value (ac_func call) vs (finalize (foldl count_value (acc_new call) vs)).
Proof.
  intros Hl Ho. destruct (acc_fields call vs) as (Hf & Hc & Hrest). unfold finalize. rewrite Hf.
  rewrite wrap_i64_id in Hc by (pose proof (zlen_nonneg vs); unfold in_i64; lia).
  unfold agg_value. destruct (ac_func call) eqn:Ef.
  - by rewrite Hc.
  - destruct Hrest as (-> & -> & -> & ->). rewrite negb_involutive, wrap_i64_i128. case_bool_decide; [done|]. by destruct (forallb is_int vs).
  - rewrite Hc, Hrest. destruct vs as [|v vs]; [done|]. rewrite bool_decide_false by done. rewrite decide_False; [done|].
    rewrite zlen_cons. pose proof (zlen_nonneg vs). lia.
  - rewrite Hrest. case_bool_decide as Hne; [by rewrite Hne|]. destruct (keep_least_spec literal_cmp vs) as (m & Hm & ? & ?); [by apply Ho; left|done|].
    by rewrite Hm.
  - rewrite Hrest. case_bool_decide as Hne; [by rewrite Hne|].
    destruct (keep_least_spec (λ a b, CompOpp (literal_cmp a b)) vs) as (m & Hm & ? & Hb); [apply ord_on_opp; by apply Ho; right|done|].
    rewrite Hm. split; [done|]. intros v Hv E. cbn in E. apply (Hb v Hv). by rewrite E.
Qed.

(** ** Groups *)

Lemma first_by_snoc {A K} `{!EqDecision K} (f : A → K) l x :
  first_by f (l ++ [x]) = first_by f l ++ (if decide (f x ∈ f <$> l) then [] else [x]).
Proof.
  induction l as [|y l IH]; [done|]. cbn [app first_by]. rewrite IH, filter_app, fmap_cons. cbn [app]. f_equal. f_equal.
  case_decide as H1; [rewrite decide_True by (by right); done|]. rewrite filter_cons, filter_nil.
  case_decide as H2; [rewrite decide_False; [done|]|rewrite decide_True; [done|]]; rewrite elem_of_cons; naive_solver.
Qed.

Lemma elem_of_first_by {A K} `{!EqDecision K} (f : A → K) l x : x ∈ f <$> first_by f l ↔ x ∈ f <$> l.
Proof.
  induction l as [|y l IH] using rev_ind; [done|]. rewrite first_by_snoc, !fmap_app, !elem_of_app, IH. cbn.
  case_decide as H; cbn; rewrite ?list_elem_of_singleton, ?elem_of_nil; naive_solver.
Qed.

Section groups.
Context `{!SerdeJson, !CaseTables, !UnicodeText, !FormatText} (schema : list ColumnRef) (group_exprs : list QExpr) (aggs : list AggCall).

(** The value of every expression on the rows at hand. *)
Context (value : QExpr → list Literal → Literal).

Definition evaluates (row : list Literal) : Prop :=
  (∀ e, e ∈ group_exprs → eval_qexpr e schema row = Ok (value e row)) ∧
  (∀ call arg, call ∈ aggs → ac_arg call = Some arg → eval_qexpr arg schema row = Ok (value arg row)).

Definition group_key (row : list Literal) : list Literal := (λ e, value e row) <$> group_exprs.
Definition group_bytes (row : list Literal) : list Z := encode_row (group_key row).

(** The rows of the group of a key. *)
Definition members (rows : list (list Literal)) (kb : list Z) : list (list Literal) := filter (λ r, group_bytes r = kb) rows.

Definition call_step (row : list Literal) (call : AggCall) (acc : Acc) : Acc :=
  match ac_arg call with None => update_star acc | Some arg => update acc (value arg row) end.

Definition call_acc (rows : list (list Literal)) (call : AggCall) : Acc :=
  foldl (λ acc row, call_step row call acc) (acc_new call) rows.

Definition group_state (rows : list (list Literal)) : list Literal * list Acc :=
  (default [] (group_key <$> head rows), call_acc rows <$> aggs).

(** The state after the rows read so far. *)
Definition groups_ok (rows : list (list Literal)) (g : Groups) : Prop :=
  g_order g = group_bytes <$> first_by group_bytes rows ∧
  ∀ kb, g_groups g !! kb = (if decide (kb ∈ group_bytes <$> rows) then Some (group_state (members rows kb)) else None).

Lemma update_calls_ok row accs calls : evaluates row → calls ⊆ aggs →
  mapM (update_call schema row) (zip (accs <$> calls) calls) = Ok ((λ call, call_step row call (accs call)) <$> calls).
Proof.
  intros [_ He] Hs. induction calls as [|call calls IH]; [done|]. cbn [fmap list_fmap zip zip_with mapM].
  assert (update_call schema row (accs call, call) = Ok (call_step row call (accs call))) as ->.
  { unfold update_call, call_step. cbn. destruct (ac_arg call) as [arg|] eqn:Ea; [|done]. by rewrite (He call arg (Hs call ltac:(by left)) Ea). }
  cbn. rewrite IH; [done|set_solver].
Qed.

Lemma members_snoc rows row kb : members (rows ++ [row]) kb = members rows kb ++ (if decide (group_bytes row = kb) then [row] else []).
Proof. unfold members. rewrite filter_app, filter_cons, filter_nil. done. Qed.

Lemma members_nil rows kb : kb ∉ group_bytes <$> rows → members rows kb = [].
Proof.
  intros Hn. apply list_nil_subseteq. intros r [<- Hr]%list_elem_of_filter. destruct Hn. by apply list_elem_of_fmap_2.
Qed.

Lemma members_head rows kb : kb ∈ group_bytes <$> rows → ∃ r l, members rows kb = r :: l.
Proof.
  intros (r & -> & Hr)%list_elem_of_fmap. assert (r ∈ members rows (group_bytes r)) as Hm by (by apply list_elem_of_filter).
  destruct (members rows (group_bytes r)) as [|r' l]; [by apply elem_of_nil in Hm|eauto].
Qed.

(** The entry the row is added to. *)
Lemma group_entry rows g row : groups_ok rows g →
  match g_groups g !! group_bytes row with
  | Some entry => (g_order g, entry)
  | None => (g_order g ++ [group_bytes row], (group_key row, acc_new <$> aggs))
  end = (group_bytes <$> first_by group_bytes (rows ++ [row]),
         (default [] (group_key <$> head (members rows (group_bytes row) ++ [row])), call_acc (members rows (group_bytes row)) <$> aggs)).
Proof.
  intros [Ho Hg]. rewrite Hg, first_by_snoc, fmap_app, Ho. case_decide as Hin.
  - destruct (members_head _ _ Hin) as (r & l & Hm). unfold group_state. rewrite Hm. by rewrite app_nil_r.
  - by rewrite (members_nil _ _ Hin).
Qed.

Lemma aggregate_row_ok rows g row : groups_ok rows g → evaluates row →
  ∃ g', aggregate_row schema group_exprs aggs g row = Ok g' ∧ groups_ok (rows ++ [row]) g'.
Proof.
  intros Hok He. unfold aggregate_row. rewrite (mapM_Ok _ (λ e, value e row)) by (intros; by apply He). cbn [mbind outcome_bind].
  fold (group_key row) (group_bytes row). rewrite (group_entry rows g row Hok). cbn [fst snd].
  rewrite (update_calls_ok row (call_acc (members rows (group_bytes row))) aggs He) by done. cbn [mbind outcome_bind].
  eexists. split; [done|]. split; [done|]. destruct Hok as [_ Hg]. intros kb. cbn [g_groups].
  rewrite fmap_app, members_snoc. destruct (decide (group_bytes row = kb)) as [<-|Hne].
  - rewrite lookup_insert_eq, decide_True by set_solver. unfold group_state. f_equal. f_equal. apply list_fmap_ext.
    intros i call _. unfold call_acc. by rewrite foldl_snoc.
  - rewrite lookup_insert_ne, Hg, app_nil_r by done. apply decide_ext. set_solver.
Qed.

Lemma aggregate_rows_ok rows : Forall evaluates rows →
  ∃ g, for_each (aggregate_row schema group_exprs aggs) (mkGroups [] ∅) rows = Ok g ∧ groups_ok rows g.
Proof.
  induction rows as [|row rows IH] using rev_ind; intros He.
  - eexists. split; [done|]. split; [done|]. intros kb. cbn [g_groups]. rewrite lookup_empty. by rewrite decide_False by (by intros ?%elem_of_nil).
  - apply Forall_app in He as [He [Hr _]%Forall_cons]. destruct (IH He) as (g & Hg & Hok). rewrite for_each_app, Hg.
    destruct (aggregate_row_ok rows g row Hok Hr) as (g' & Hg' & Hok'). exists g'. split; [|done]. cbn. by rewrite Hg'.
Qed.

Lemma group_rows_ok rows g : groups_ok rows g →
  group_rows g = Ok ((λ kb, default [] (group_key <$> head (members rows kb)) ++ ((λ call, finalize (call_acc (members rows kb) call)) <$> aggs))
                     <$> (group_bytes <$> first_by group_bytes rows)).
Proof.
  intros [Ho Hg]. unfold group_rows. rewrite Ho. apply mapM_Ok. intros kb Hkb. rewrite Hg, decide_True by (by apply elem_of_first_by).
  unfold group_state. by rewrite <- list_fmap_compose.
Qed.

(** The value of a call on the rows of a group. *)
Definition call_value (rows : list (list Literal)) (call : AggCall) (r : Literal) : Prop :=
  match ac_arg call with
  | None => ac_func call = AggCount → r = LInt (zlen rows)
  | Some arg => agg_value (ac_func call) (counted (ac_distinct call) (value arg <$> rows)) r
  end.

(** Where MIN or MAX is asked for, the values that are not NULL are consistently ordered. *)
Definition ordered_args (rows : list (list Literal)) : Prop :=
  ∀ call arg, call ∈ aggs → ac_arg call = Some arg → ac_func call = AggMin ∨ ac_func call = AggMax →
  ord_on literal_cmp (filter (λ v, is_null v = false) (value arg <$> rows)).

Lemma counted_subset distinct vals : counted distinct vals ⊆ filter (λ v, is_null v = false) vals ∧ (length (counted distinct vals) ≤ length vals)%nat.
Proof.
  assert (∀ l : list Literal, first_by (λ v, encode_row [v]) l ⊆ l ∧ (length (first_by (λ v, encode_row [v]) l) ≤ length l)%nat) as Hf.
  { induction l as [|v l [IH1 IH2]]; [done|]. cbn [first_by length]. split.
    - intros w [->|[_ Hw]%list_elem_of_filter]%elem_of_cons; [by left|right; by apply IH1].
    - pose proof (length_filter (λ y, encode_row [y] ≠ encode_row [v]) (first_by (λ v, encode_row [v]) l)). lia. }
  pose proof (length_filter (λ v, is_null v = false) vals).
  unfold counted. destruct distinct; [|done]. destruct (Hf (filter (λ v, is_null v = false) vals)) as [Hf1 Hf2].
  split; [done|lia].
Qed.

Lemma fold_star call (rows : list (list Literal)) : let acc := foldl (λ acc _, update_star acc) (acc_new call) rows in
  a_func acc = ac_func call ∧ a_count acc = wrap_i64 (zlen rows).
Proof.
  induction rows as [|row rows [IH1 IH2]] using rev_ind; [done|]. cbv zeta in *. rewrite foldl_snoc. cbn.
  split; [done|]. rewrite IH2, wrap_i64_add. f_equal. unfold zlen. rewrite length_app. cbn. lia.
Qed.

Lemma call_value_ok rows call : call ∈ aggs → zlen rows < 2 ^ 63 → ordered_args rows →
  call_value rows call (finalize (call_acc rows call)).
Proof.
  intros Hc Hl Ho. unfold call_value, call_acc, call_step. destruct (ac_arg call) as [arg|] eqn:Ea.
  - assert (foldl (λ acc row, update acc (value arg row)) (acc_new call) rows = foldl update (acc_new call) (value arg <$> rows)) as ->.
    { generalize (acc_new call). induction rows as [|r rows IH]; intros acc; [done|]. cbn. apply IH; [|].
      - rewrite zlen_cons in Hl. lia.
      - intros c a Hca Haa Hfa. eapply ord_on_subset, (Ho c a Hca Haa Hfa).
        intros v [Hv Hin]%list_elem_of_filter. apply list_elem_of_filter. split; [done|by right]. }
    rewrite fold_counted. destruct (counted_subset (ac_distinct call) (value arg <$> rows)) as [Hs Hlen].
    apply finalize_value; [unfold zlen in *; rewrite length_fmap in Hlen; lia|].
    intros Hm. eapply ord_on_subset, (Ho call arg); done.
  - intros Hf. destruct (fold_star call rows) as [Hs1 Hs2]. unfold finalize. rewrite Hs1, Hf, Hs2, wrap_i64_id; [done|].
    pose proof (zlen_nonneg rows). unfold in_i64. lia.
Qed.

End groups.

(** The groups of the rows, each as the rows in it; without GROUP BY there is always one. *)
Definition reference_groups (group_exprs : list QExpr) (value : QExpr → list Literal → Literal) (rows : list (list Literal))
    : list (list (list Literal)) :=
  match group_exprs, rows with
  | [], [] => [[]]
  | _, _ => members group_exprs value rows <$> (group_bytes group_exprs value <$> first_by (group_bytes group_exprs value) rows)
  end.

(** C@: Aggregation returns one row per group, the groups in the order of their first rows:
    the group's key followed by the value of each aggregate over the rows of the group.
    COUNT-star counts the rows and COUNT the values that are not NULL; SUM of integers is
    their sum in 64 bits, SUM and AVG otherwise floating-point sums in row order; MIN and
    MAX are extreme values of the group; DISTINCT takes equal values once. Without GROUP
    BY an empty input gives the single row of the empty group. *)
Theorem aggregate_exact `{!SerdeJson, !CaseTables, !UnicodeText, !FormatText} (input : Batch) (group_exprs : list QExpr)
    (aggs : list AggCall) (output : list ColumnRef) (value : QExpr → list Literal → Literal) :
  Forall (evaluates (b_schema input) group_exprs aggs value) (b_rows input) → zlen (b_rows input) < 2 ^ 63 →
  ordered_args aggs value (b_rows input) →
  ∃ rows, aggregate input group_exprs aggs output = Ok (mkBatch output rows) ∧
    Forall2 (λ group row, ∃ results, row = default [] (group_key group_exprs value <$> head group) ++ results ∧
               Forall2 (call_value value group) aggs results)
      (reference_groups group_exprs value (b_rows input)) rows.
Proof.
  intros He Hl Ho. destruct (aggregate_rows_ok (b_schema input) group_exprs aggs value (b_rows input) He) as (g & Hg & Hok).
  assert (∀ kb, Forall2 (call_value value (members group_exprs value (b_rows input) kb)) aggs
    ((λ call, finalize (call_acc value (members group_exprs value (b_rows input) kb) call)) <$> aggs)) as Hcalls.
  { intros kb. apply Forall2_fmap_r, Forall_Forall2_diag, Forall_forall. intros call Hc. apply (call_value_ok aggs); [done|..].
    - unfold members, zlen in *. pose proof (length_filter (λ r, group_bytes group_exprs value r = kb) (b_rows input)). lia.
    - intros c a Hca Haa Hfa. eapply ord_on_subset, (Ho c a Hca Haa Hfa). intros v [Hv (r & -> & [_ Hr]%list_elem_of_filter)%list_elem_of_fmap]%list_elem_of_filter.
      apply list_elem_of_filter. split; [done|by apply list_elem_of_fmap_2]. }
  unfold aggregate. rewrite Hg. cbn [mbind outcome_bind]. pose proof (group_rows_ok _ _ _ _ _ Hok) as Hrows. destruct Hok as [Hord _].
  rewrite Hord. destruct (b_rows input) as [|row rows] eqn:Er, group_exprs as [|e es] eqn:Eg.
  1: { exists [finalize <$> (acc_new <$> aggs)]. split; [done|]. apply Forall2_cons. split; [|done].
       exists (finalize <$> (acc_new <$> aggs)). split; [done|]. rewrite <- list_fmap_compose. exact (Hcalls []). }
  all: cbn [first_by fmap list_fmap]; rewrite Hrows; cbn [mbind outcome_bind]; (eexists; split; [done|]).
  all: unfold reference_groups; rewrite Forall2_fmap; apply Forall_Forall2_diag, Forall_forall; intros kb _; eexists; (split; [done|]); apply Hcalls.
Qed.

(** ** Example *)

#[local] Existing Instances no_json ascii_tables ascii_text bits_text.

Definition sales : Batch := mkBatch [mkColumnRef "s" "region" TInt64; mkColumnRef "s" "amount" TInt64]
  [[LInt 2; LInt 5]; [LInt 1; LInt 7]; [LInt 2; LNull]; [LInt 2; LInt 5]; [LInt 1; LInt (-7)]].
Definition amount : QExpr := QColumn (Some "s") "amount".
Definition sales_aggs : list AggCall :=
  [mkAggCall AggCount None false; mkAggCall AggCount (Some amount) true; mkAggCall AggSum (Some amount) false;
   mkAggCall AggMin (Some amount) false; mkAggCall AggMax (Some amount) false].
Definition sales_value (e : QExpr) (row : list Literal) : Literal :=
  match e with QColumn _ "region" => nth 0 row LNull | _ => nth 1 row LNull end.

Lemma int_null_ord l : (∀ v, v ∈ l → one_kind 0 v) → ord_on literal_cmp (filter (λ v, is_null v = false) l).
Proof.
  intros Hk. eapply (ord_on_ext null_first_cmp).
  - intros a b [Ha _]%list_elem_of_filter [Hb _]%list_elem_of_filter. unfold null_first_cmp, literal_cmp. by rewrite Ha, Hb.
  - eapply ord_on_subset, (null_first_ord 0 l Hk). by intros v [_ Hv]%list_elem_of_filter.
Qed.

Lemma aggregate_exact_witness :
  aggregate sales [QColumn None "region"] sales_aggs [] =
    Ok (mkBatch [] [[LInt 2; LInt 3; LInt 1; LInt 10; LInt 5; LInt 5]; [LInt 1; LInt 2; LInt 2; LInt 0; LInt (-7); LInt 7]]) ∧
  ∃ rows, aggregate sales [QColumn None "region"] sales_aggs [] = Ok (mkBatch [] rows) ∧
    Forall2 (λ group row, ∃ results, row = default [] (group_key [QColumn None "region"] sales_value <$> head group) ++ results ∧
               Forall2 (call_value sales_value group) sales_aggs results)
      (reference_groups [QColumn None "region"] sales_value (b_rows sales)) rows.
Proof.
  split; [vm_compute; reflexivity|]. apply (aggregate_exact sales [QColumn None "region"] sales_aggs [] sales_value); [|done|].
  - apply Forall_forall. intros row Hr. unfold sales, b_rows in Hr.
    repeat (apply elem_of_cons in Hr as [->|Hr]); [..|by apply elem_of_nil in Hr].
    all: split; [by intros e ->%list_elem_of_singleton|]; intros call arg Hc; unfold sales_aggs in Hc;
      repeat (apply elem_of_cons in Hc as [->|Hc]); [..|by apply elem_of_nil in Hc]; by intros [= <-].
  - intros call arg Hc. assert (ac_arg call = Some arg → arg = amount) as Ha.
    { unfold sales_aggs in Hc. repeat (apply elem_of_cons in Hc as [->|Hc]); [..|by apply elem_of_nil in Hc]; by intros [= <-]. }
    intros ->%Ha _. apply int_null_ord. intros v Hv. cbn in Hv.
    repeat (apply elem_of_cons in Hv as [->|Hv]); [..|by apply elem_of_nil in Hv]; first [by left|right; by eexists].
Defined.
