(* ===== verification/SqlJoin.v ===== *)
(** Join algorithms ([src/sql/join.rs]): hash join in memory, with its fast path on integer
    keys, and with Grace partitioning through files; sort-merge join; nested loops. *)

From stdpp Require Import base numbers sets list gmap strings sorting.
From Stdlib Require Import Lia.
From S2P Require Import Prelude SortBy Format BTreeNode BTree Text Float Datetime SqlTypes SqlValue SqlValueProps SqlRow SqlRowProps SqlExpr SqlQuery SqlSort.

Notation row := (list Literal).

Definition combined_schema (left right : list ColumnRef) : list ColumnRef := left ++ right.
Definition nulls (n : nat) : row := replicate n LNull.

(** [UNIDB_HASH_JOIN_MEM_ROWS] or a million, unless the query has its own budget. *)
Definition hash_join_mem_rows (env : option nat) (current : option QueryLimits) : nat :=
  work_mem_rows current
    (match env with Some n => if decide (0 < n)%nat then n else Z.to_nat 1000000 | None => Z.to_nat 1000000 end).

(** FNV-1a *)
Definition hash_bytes (b : list Z) : Z :=
  foldl (λ h byte, (Z.lxor h byte * 0x100000001b3) mod 2 ^ 64) 0xcbf29ce484222325 b.

Section joins.
Context `{!SerdeJson, !CaseTables, !UnicodeText, !FormatText}.

Definition key_of (keys : list QExpr) (schema : list ColumnRef) (r : row) : Result (list Literal) :=
  mapM (λ k, eval_qexpr k schema r) keys.

Definition residual_ok (residual : option QExpr) (out_schema : list ColumnRef) (combined : row) : Result bool :=
  match residual with None => Ok true | Some e => eval_predicate e out_schema combined end.

(** ** Hash join *)

(** What [emit] captures. *)
Record HashCtx := mkHashCtx {
  hc_build_is_right : bool;
  hc_left_len : nat;
  hc_right_len : nat;
  hc_residual : option QExpr;
  hc_schema : list ColumnRef
}.

Definition combine (c : HashCtx) (probe_row : row) (build_row : option row) : row :=
  if hc_build_is_right c then probe_row ++ default (nulls (hc_right_len c)) build_row
  else default (nulls (hc_left_len c)) build_row ++ probe_row.

(** [emit]: the rows pushed, none or one. *)
Definition emit (c : HashCtx) (probe_row : row) (build_row : option row) : Result (list row) :=
  let combined := combine c probe_row build_row in
  match build_row with
  | Some _ => ok ← residual_ok (hc_residual c) (hc_schema c) combined; Ok (if (ok : bool) then [combined] else [])
  | None => Ok [combined]
  end.

Definition emit_all (c : HashCtx) (probe_row : row) (bucket : list row) : Result (list row) :=
  out ← mapM (λ b, emit c probe_row (Some b)) bucket; Ok (concat out).

Notation table := (gmap (list Z) (list row)).

Definition build_table (keys : list QExpr) (schema : list ColumnRef) (rows : list row) : Result table :=
  for_each (λ (t : table) r,
    key ← key_of keys schema r;
    match join_key_bytes key with
    | Some bytes => Ok (<[bytes := default [] (t !! bytes) ++ [r]]> t)
    | None => Ok t
    end) ∅ rows.

Definition probe_table (c : HashCtx) (t : table) (outer : bool) (keys : list QExpr) (schema : list ColumnRef) (prow : row)
    : Result (list row) :=
  key ← key_of keys schema prow;
  matches ← match join_key_bytes key with
            | Some bytes => match t !! bytes with Some bucket => emit_all c prow bucket | None => Ok [] end
            | None => Ok []
            end;
  if bool_decide (matches = []) && outer then emit c prow None else Ok matches.

(** The table of row indices by integer key. *)
Definition build_i64 (key : QExpr) (schema : list ColumnRef) (rows : list row) : Result (gmap Z (list nat)) :=
  for_each (λ (t : gmap Z (list nat)) p,
    v ← eval_qexpr key schema p.2;
    match v with
    | LInt k => Ok (<[k := default [] (t !! k) ++ [p.1]]> t)
    | _ => Ok t
    end) ∅ (imap pair rows).

Definition probe_i64 (c : HashCtx) (t : gmap Z (list nat)) (build_rows : list row) (key : QExpr) (schema : list ColumnRef) (prow : row)
    : Result (list row) :=
  v ← eval_qexpr key schema prow;
  match v with
  | LInt k =>
      match t !! k with
      | Some indices => out ← mapM (λ idx, b ← index build_rows (Z.of_nat idx); emit c prow (Some b)) indices; Ok (concat out)
      | None => Ok []
      end
  | _ => Ok []
  end.

(** Whether the fast path applies, from the key of the first build row. *)
Definition use_i64_fast (outer : bool) (build : Batch) (build_keys probe_keys : list QExpr) : Result bool :=
  match negb outer, build_keys, probe_keys, b_rows build with
  | true, [k], [_], r :: _ => v ← eval_qexpr k (b_schema build) r; Ok (match v with LInt _ => true | _ => false end)
  | _, _, _, _ => Ok false
  end.

(** *** Grace partitioning *)

Context `{!SpillCodec} (io : SpillCall → option DbError).

Definition join_write_row (r : row) : Result (list Z) :=
  line ← ok_or (row_to_line r) (SqlPlan "join spill encode"); Ok (line ++ [10]).

(** [BufRead::lines] *)
Definition strip_cr (line : list Z) : list Z := match rev line with 13 :: r => rev r | _ => line end.
Definition lines (file : list Z) : list (list Z) :=
  match rev (split 10 file) with
  | [] => []
  | l :: r => (strip_cr <$> rev r) ++ (if bool_decide (l = []) then [] else [l])
  end.

Definition read_rows (file : list Z) : Result (list row) :=
  mapM (λ line, ok_or (row_of_line line) (SqlPlan "join spill decode")) (filter (λ l, l ≠ []) (lines file)).

Definition partition_count (build_len mem_rows : nat) : nat :=
  let d := Nat.max mem_rows 1 in
  Nat.min 256 (Nat.max 4 ((build_len + d - 1) / d * 2)).

Definition partition_of (bytes : list Z) (partitions : nat) : nat := Z.to_nat (hash_bytes bytes mod Z.of_nat partitions).

(** A row appended to the file of its partition. *)
Definition spill_row (files : list (list Z)) (bytes : list Z) (r : row) : Result (list (list Z)) :=
  let p := partition_of bytes (length files) in
  line ← join_write_row r;
  file ← index files (Z.of_nat p);
  Ok (<[p := file ++ line]> files).

Definition create_files (side partitions : nat) : Result (list (list Z)) :=
  mapM (λ p, _ ← spill_io io (CreateRun (side * partitions + p)); Ok []) (seq 0 partitions).

Definition spill_build (keys : list QExpr) (schema : list ColumnRef) (files : list (list Z)) (r : row) : Result (list (list Z)) :=
  key ← key_of keys schema r;
  match join_key_bytes key with
  | Some bytes => spill_row files bytes r
  | None => Ok files
  end.

(** A probe row without a key is emitted at once in an outer join. *)
Definition spill_probe (c : HashCtx) (outer : bool) (keys : list QExpr) (schema : list ColumnRef)
    (s : list (list Z) * list row) (r : row) : Result (list (list Z) * list row) :=
  key ← key_of keys schema r;
  match join_key_bytes key with
  | Some bytes => files ← spill_row s.1 bytes r; Ok (files, s.2)
  | None => if outer then out ← emit c r None; Ok (s.1, s.2 ++ out) else Ok s
  end.

Definition join_partition (c : HashCtx) (outer : bool) (build probe : Batch) (build_keys probe_keys : list QExpr) (files : list Z * list Z)
    : Result (list row) :=
  build_rows ← read_rows files.1;
  t ← build_table build_keys (b_schema build) build_rows;
  probe_rows ← read_rows files.2;
  out ← mapM (probe_table c t outer probe_keys (b_schema probe)) probe_rows;
  Ok (concat out).

Definition grace_hash_join (c : HashCtx) (build : Batch) (build_keys : list QExpr) (probe : Batch) (probe_keys : list QExpr)
    (outer : bool) (mem_rows : nat) : Result (list row) :=
  let partitions := partition_count (length (b_rows build)) mem_rows in
  _ ← spill_io io CreateDir;
  build_w ← create_files 0 partitions;
  build_w ← for_each (spill_build build_keys (b_schema build)) build_w (b_rows build);
  probe_w ← create_files 1 partitions;
  s ← for_each (spill_probe c outer probe_keys (b_schema probe)) (probe_w, []) (b_rows probe);
  out ← mapM (join_partition c outer build probe build_keys probe_keys) (zip build_w s.1);
  Ok (s.2 ++ concat out).

Definition hash_join (left right : Batch) (join_type : JoinType) (left_keys right_keys : list QExpr) (residual : option QExpr)
    (mem_rows : nat) : Result Batch :=
  let out_schema := combined_schema (b_schema left) (b_schema right) in
  let build_is_right := match join_type with JRight => false | _ => true end in
  let outer := match join_type with JLeft | JRight => true | _ => false end in
  let '(build, build_keys, probe, probe_keys) :=
    if build_is_right then (right, right_keys, left, left_keys) else (left, left_keys, right, right_keys) in
  let c := mkHashCtx build_is_right (length (b_schema left)) (length (b_schema right)) residual out_schema in
  rows ←
    (if decide (length (b_rows build) ≤ mem_rows)%nat then
       fast ← use_i64_fast outer build build_keys probe_keys;
       match (fast : bool), build_keys, probe_keys with
       | true, bk :: _, pk :: _ =>
           t ← build_i64 bk (b_schema build) (b_rows build);
           out ← mapM (probe_i64 c t (b_rows build) pk (b_schema probe)) (b_rows probe);
           Ok (concat out)
       | _, _, _ =>
           t ← build_table build_keys (b_schema build) (b_rows build);
           out ← mapM (probe_table c t outer probe_keys (b_schema probe)) (b_rows probe);
           Ok (concat out)
       end
     else grace_hash_join c build build_keys probe probe_keys outer mem_rows);
  Ok (mkBatch out_schema rows).

(** ** Sort-merge join *)

Definition keyed (batch : Batch) (keys : list QExpr) : Result (list (list Literal * row)) :=
  out ← mapM (λ r, k ← key_of keys (b_schema batch) r; Ok (if existsb is_null k then [] else [(k, r)])) (b_rows batch);
  Ok (concat out).

Definition keyed_cmp (a b : list Literal * row) : comparison := default Eq (key_ord a.1 b.1).

(** The run of entries with the key of the first, and what follows. *)
Fixpoint take_run (k : list Literal) (v : list (list Literal * row)) : list (list Literal * row) * list (list Literal * row) :=
  match v with
  | x :: v' => if bool_decide (key_ord k x.1 = Some Eq) then let '(a, b) := take_run k v' in (x :: a, b) else ([], v)
  | [] => ([], [])
  end.

Section merge.
Context (emit_left emit_right : bool) (left_len right_len : nat) (residual : option QExpr) (out_schema : list ColumnRef).

Definition unmatched_left (v : list (list Literal * row)) : list row :=
  if emit_left then (λ x, x.2 ++ nulls right_len) <$> v else [].
Definition unmatched_right (v : list (list Literal * row)) : list row :=
  if emit_right then (λ x, nulls left_len ++ x.2) <$> v else [].

(** The rows of one left row of a run. *)
Definition merge_left_row (r_run : list (list Literal * row)) (l : list Literal * row) : Result (list row) :=
  out ← mapM (λ r : list Literal * row, let combined := l.2 ++ r.2 in
          ok ← residual_ok residual out_schema combined; Ok (if (ok : bool) then [combined] else [])) r_run;
  Ok (if bool_decide (concat out = []) then unmatched_left [l] else concat out).

Definition run_unmatched_right (l_run : list (list Literal * row)) (r : list Literal * row) : bool :=
  negb (match residual with None => true | _ => false end
        || existsb (λ l, match residual_ok residual out_schema (l.2 ++ r.2) with Ok b => b | _ => false end) l_run).

Definition merge_run (l_run r_run : list (list Literal * row)) : Result (list row) :=
  out ← mapM (merge_left_row r_run) l_run;
  Ok (concat out ++ unmatched_right (filter (λ r, run_unmatched_right l_run r = true) r_run)).

(** [fuel] bounds the entries left on both sides. *)
Fixpoint merge_loop (fuel : nat) (lk rk : list (list Literal * row)) : Result (list row) :=
  match fuel with
  | O => Panic
  | S fuel =>
      match lk, rk with
      | l :: lk', r :: rk' =>
          match key_ord l.1 r.1 with
          | Some Lt => out ← merge_loop fuel lk' rk; Ok (unmatched_left [l] ++ out)
          | Some Gt => out ← merge_loop fuel lk rk'; Ok (unmatched_right [r] ++ out)
          | Some Eq =>
              let '(l_run, lk') := take_run l.1 lk' in
              let '(r_run, rk') := take_run r.1 rk' in
              here ← merge_run (l :: l_run) (r :: r_run);
              out ← merge_loop fuel lk' rk'; Ok (here ++ out)
          | None => merge_loop fuel lk' rk'
          end
      | _, _ => Ok (unmatched_left lk ++ unmatched_right rk)
      end
  end.

End merge.

Definition merge_join (left right : Batch) (join_type : JoinType) (left_keys right_keys : list QExpr) (residual : option QExpr)
    : Result Batch :=
  let out_schema := combined_schema (b_schema left) (b_schema right) in
  lk ← keyed left left_keys;
  rk ← keyed right right_keys;
  rows ← merge_loop (match join_type with JLeft | JFullOuter => true | _ => false end)
           (match join_type with JRight | JFullOuter => true | _ => false end)
           (length (b_schema left)) (length (b_schema right)) residual out_schema
           (S (length lk + length rk)) (sort_by keyed_cmp lk) (sort_by keyed_cmp rk);
  Ok (mkBatch out_schema rows).

(** ** Nested loops *)

Definition on_ok (on : option QExpr) (out_schema : list ColumnRef) (combined : row) : Result bool :=
  match on with None => Ok true | Some cond => eval_predicate cond out_schema combined end.

(** One left row: what it adds to the output, and which right rows it matched. *)
Definition nested_left_row (on : option QExpr) (out_schema : list ColumnRef) (emit_left : bool) (right_len : nat) (right_rows : list row)
    (s : list row * list bool) (lrow : row) : Result (list row * list bool) :=
  hits ← mapM (λ rrow, on_ok on out_schema (lrow ++ rrow)) right_rows;
  let out := (λ p, lrow ++ p.1) <$> filter (λ p, p.2 = true) (zip right_rows hits) in
  let matched := zip_with orb s.2 hits in
  Ok (s.1 ++ (if bool_decide (out = []) && emit_left then [lrow ++ nulls right_len] else out), matched).

Definition nested_loop_join (left right : Batch) (join_type : JoinType) (on : option QExpr) : Result Batch :=
  let out_schema := combined_schema (b_schema left) (b_schema right) in
  s ← for_each (nested_left_row on out_schema (match join_type with JLeft | JFullOuter => true | _ => false end)
                  (length (b_schema right)) (b_rows right))
        ([], replicate (length (b_rows right)) false) (b_rows left);
  let tail_rows :=
    match join_type with
    | JRight | JFullOuter => (λ p, nulls (length (b_schema left)) ++ p.1) <$> filter (λ p, p.2 = false) (zip (b_rows right) s.2)
    | _ => []
    end in
  Ok (mkBatch out_schema (s.1 ++ tail_rows)).

End joins.
