(* ===== verification/SqlJoinProps.v ===== *)
(** The join algorithms against one reference: every pair of rows that satisfies the
    condition, and the unmatched rows of an outer join extended with NULLs. *)

From stdpp Require Import base numbers sets list gmap strings sorting.
From Stdlib Require Import Lia.
From S2P Require Import Prelude SortBy Format BTreeNode BTree Text Float Datetime SqlTypes SqlValue SqlValueProps SqlRow SqlRowProps SqlExpr SqlQuery SqlSort SqlJoin.

(** ** Reference *)

Definition outer_left (jt : JoinType) : bool := match jt with JLeft | JFullOuter => true | _ => false end.
Definition outer_right (jt : JoinType) : bool := match jt with JRight | JFullOuter => true | _ => false end.

(** [ms], or the row [u] alone when there is no match and the side is outer. *)
Definition or_unmatched {A} (outer : bool) (u : A) (ms : list A) : list A :=
  if bool_decide (ms = []) && outer then [u] else ms.

Definition reference_join (jt : JoinType) (on : row → row → bool) (left_len right_len : nat) (L R : list row) : list row :=
  flat_map (λ l, or_unmatched (outer_left jt) (l ++ nulls right_len) (app l <$> filter (λ r, on l r = true) R)) L
  ++ (if outer_right jt then app (nulls left_len) <$> filter (λ r, existsb (λ l, on l r) L = false) R else []).

(** ** Lists *)

Lemma flat_map_nil {A B} (f : A → list B) l : (∀ x, x ∈ l → f x = []) → flat_map f l = [].
Proof. induction l as [|x l IH]; intros Hf; [done|]. cbn. rewrite Hf by (by left). apply IH. intros y Hy. apply Hf. by right. Qed.

Lemma flat_map_ext_elem {A B} (f g : A → list B) l : (∀ x, x ∈ l → f x = g x) → flat_map f l = flat_map g l.
Proof.
  induction l as [|x l IH]; intros Hf; [done|]. cbn. rewrite Hf by (by left). f_equal. apply IH. intros y Hy. apply Hf. by right.
Qed.

Lemma flat_map_concat_fmap {A B} (f : A → list B) l : concat (f <$> l) = flat_map f l.
Proof. symmetry. apply flat_map_concat_map. Qed.

Lemma flat_map_perm_fun {A B} (f g : A → list B) l : (∀ x, x ∈ l → f x ≡ₚ g x) → flat_map f l ≡ₚ flat_map g l.
Proof.
  induction l as [|x l IH]; intros Hf; [done|]. cbn. rewrite Hf by (by left). rewrite IH; [done|]. intros y Hy. apply Hf. by right.
Qed.

#[global] Instance flat_map_Permutation {A B} (f : A → list B) : Proper ((≡ₚ) ==> (≡ₚ)) (flat_map f).
Proof. intros l k Hp. by apply Permutation_flat_map. Qed.

Lemma flat_map_app_fun {A B} (f g : A → list B) l : flat_map (λ x, f x ++ g x) l ≡ₚ flat_map f l ++ flat_map g l.
Proof.
  induction l as [|x l IH]; [done|]. cbn. rewrite IH, <- !app_assoc. f_equiv. rewrite !app_assoc. f_equiv. apply Permutation_app_comm.
Qed.

Lemma flat_map_swap {A B C} (f : A → B → list C) l k :
  flat_map (λ x, flat_map (f x) k) l ≡ₚ flat_map (λ y, flat_map (λ x, f x y) l) k.
Proof.
  induction l as [|x l IH]; cbn; [by rewrite flat_map_nil by done|]. rewrite IH. symmetry. apply flat_map_app_fun.
Qed.

Lemma fmap_filter_flat_map {A B} (f : A → B) (P : A → bool) l :
  f <$> filter (λ x, P x = true) l = flat_map (λ x, if P x then [f x] else []) l.
Proof. induction l as [|x l IH]; [done|]. rewrite filter_cons. cbn. destruct (P x); cbn; by rewrite <- IH. Qed.

Lemma flat_map_fmap {A B C} (f : B → list C) (g : A → B) l : flat_map f (g <$> l) = flat_map (λ x, f (g x)) l.
Proof. induction l as [|x l IH]; [done|]. cbn. by rewrite <- IH. Qed.

Lemma mapM_fmap_Ok {E A B C} (f : B → outcome E C) (h : A → B) (g : A → C) l :
  (∀ x, x ∈ l → f (h x) = Ok (g x)) → mapM f (h <$> l) = Ok (g <$> l).
Proof.
  induction l as [|x l IH]; intros Hf; [done|]. cbn. rewrite Hf by (by left). cbn. change (list_fmap A B h l) with (h <$> l). rewrite IH; [done|].
  intros y Hy. apply Hf. by right.
Qed.

(** Rows by the part they fall into. *)
Lemma parts_perm {A} (part : A → nat) n l : (∀ x, x ∈ l → (part x < n)%nat) →
  flat_map (λ p, filter (λ x, part x = p) l) (seq 0 n) ≡ₚ l.
Proof.
  induction l as [|x l IH]; intros Hp; [by rewrite flat_map_nil|].
  rewrite (flat_map_ext_elem _ (λ p, (if decide (part x = p) then [x] else []) ++ filter (λ x, part x = p) l)).
  - rewrite flat_map_app_fun, IH by (intros y Hy; apply Hp; by right). change (x :: l) with ([x] ++ l). f_equiv.
    specialize (Hp x ltac:(by left)). assert (seq 0 n = seq 0 (part x) ++ part x :: seq (S (part x)) (n - S (part x))) as ->.
    { rewrite <- (seq_app (part x) (S (n - S (part x)))). f_equal. lia. }
    rewrite flat_map_app. cbn. rewrite decide_True by done. rewrite !flat_map_nil; [done|..]; intros p Hs%elem_of_seq; by rewrite decide_False by lia.
  - intros p _. rewrite filter_cons. by case_decide.
Qed.

Lemma or_unmatched_perm {A B} (u : B → A) (ms : B → list A) l :
  flat_map (λ x, or_unmatched true (u x) (ms x)) l ≡ₚ flat_map ms l ++ (u <$> filter (λ x, ms x = []) l).
Proof.
  induction l as [|x l IH]; [done|]. cbn [flat_map]. rewrite IH, filter_cons. unfold or_unmatched at 1.
  case_bool_decide as Hx; cbn [andb].
  - rewrite decide_True by done. rewrite Hx. cbn [app]. by rewrite fmap_cons, Permutation_middle.
  - rewrite decide_False by done. by rewrite app_assoc.
Qed.

Lemma zip_fmap_filter {A B} (f : A → B) (g : A → bool) (b : bool) l :
  (λ p, f p.1) <$> filter (λ p, p.2 = b) (zip l (g <$> l)) = f <$> filter (λ x, g x = b) l.
Proof.
  induction l as [|x l IH]; [done|]. cbn [fmap list_fmap zip zip_with]. rewrite !filter_cons. cbn [snd].
  case_decide; [|done]. rewrite !fmap_cons. cbn. by f_equal.
Qed.

Lemma replicate_fmap {A B} (x : B) (l : list A) : replicate (length l) x = (λ _, x) <$> l.
Proof. induction l as [|y l IH]; [done|]. cbn. by f_equal. Qed.

Lemma zip_with_fmap_same {A B C D} (f : B → C → D) (g : A → B) (h : A → C) l :
  zip_with f (g <$> l) (h <$> l) = (λ x, f (g x) (h x)) <$> l.
Proof. induction l as [|x l IH]; [done|]. cbn. by f_equal. Qed.

(** ** Keys *)

(** The SQL equality of two keys. *)
Definition keys_equal (a b : list Literal) : bool :=
  forallb (λ p, match compare CEq p.1 p.2 with Ok true => true | _ => false end) (zip a b).

(** Types whose equality is that of the stored value. *)
Definition joinable (ty : ColumnType) : Prop := match ty with TFloat | TJson | TVector _ => False | _ => True end.

Lemma compare_eq_Z a b : apply_cmp CEq (a ?= b)%Z = bool_decide (a = b).
Proof. destruct (Z.compare_spec a b); symmetry; [by apply bool_decide_true|apply bool_decide_false; lia..]. Qed.

Lemma compare_eq_bytes a b : apply_cmp CEq (bytes_cmp a b) = bool_decide (a = b).
Proof. pose proof (bytes_cmp_eq a b). destruct (bytes_cmp a b); case_bool_decide; naive_solver. Qed.

Lemma compare_eq_typed ty a b : joinable ty → has_type ty a → has_type ty b →
  compare CEq a b = Ok (negb (is_null a) && bool_decide (a = b)).
Proof.
  intros Hj [_ Ha] [_ Hb].
  destruct ty; try done; destruct a; try done; destruct b; try done; cbn [compare is_null negb andb].
  all: try (by rewrite bool_decide_false).
  all: rewrite ?compare_eq_Z, ?compare_eq_bytes; try (f_equal; apply bool_decide_ext; naive_solver).
  - cbn. f_equal. destruct b0, b; done.
  - destruct Ha as [-> _], Hb as [-> _]. unfold decimal_cmp. rewrite decide_True by done. cbn [mbind outcome_bind].
    rewrite compare_eq_Z. f_equal. apply bool_decide_ext. naive_solver.
Qed.

Lemma keys_equal_typed columns a b : Forall (λ c, joinable (col_ty c)) columns → row_typed columns a → row_typed columns b →
  keys_equal a b = negb (existsb is_null a) && bool_decide (a = b).
Proof.
  intros Hj Ha. revert b. induction Ha as [|c x columns a Hx Ha IH]; intros b Hb; [by apply Forall2_nil_inv_l in Hb as ->|].
  apply Forall2_cons_inv_l in Hb as (y & b' & Hy & Hb & ->). apply Forall_cons in Hj as [Hc Hj]. unfold keys_equal in *. cbn [zip zip_with forallb].
  rewrite (IH Hj b' Hb). cbn [fst snd]. rewrite (compare_eq_typed _ _ _ Hc Hx Hy). cbn [existsb].
  destruct (is_null x); [done|]. cbn [negb andb orb].
  destruct (decide (x = y)) as [->|Hne].
  - rewrite bool_decide_true by done. destruct (existsb is_null a); [done|]. cbn. apply bool_decide_ext. naive_solver.
  - rewrite (bool_decide_false (x = y)), (bool_decide_false (x :: a = y :: b')) by naive_solver. by destruct (existsb is_null a).
Qed.

Lemma join_key_bytes_typed `{!SerdeJson} columns a b : row_typed columns a → row_typed columns b →
  (∃ k, join_key_bytes a = Some k ∧ join_key_bytes b = Some k) ↔ existsb is_null a = false ∧ a = b.
Proof.
  intros Ha Hb. unfold join_key_bytes. split.
  - intros (k & Hka & Hkb). destruct (existsb is_null a) eqn:Ea; [done|]. destruct (existsb is_null b); [done|]. split; [done|].
    injection Hka as <-. injection Hkb as Hk. pose proof (decode_encode_row columns [] a Ha) as Hda.
    pose proof (decode_encode_row columns [] b Hb) as Hdb. rewrite Hk in Hdb. rewrite Hda in Hdb. injection Hdb as Hdb.
    by apply app_inv_tail in Hdb.
  - intros [Ea <-]. rewrite Ea. eauto.
Qed.

(** ** Nested loops *)

Section joins.
Context {SJ : SerdeJson} `{!CaseTables, !UnicodeText, !FormatText} (left right : Batch).

Notation L := (b_rows left).
Notation R := (b_rows right).
Notation out_schema := (combined_schema (b_schema left) (b_schema right)).
Notation left_len := (length (b_schema left)).
Notation right_len := (length (b_schema right)).

Lemma nested_rows_ok cond on emit_left rows : (∀ l r, l ∈ rows → r ∈ R → on_ok cond out_schema (l ++ r) = Ok (on l r)) →
  for_each (nested_left_row cond out_schema emit_left right_len R) ([], replicate (length R) false) rows =
  Ok (flat_map (λ l, or_unmatched emit_left (l ++ nulls right_len) (app l <$> filter (λ r, on l r = true) R)) rows,
      (λ r, existsb (λ l, on l r) rows) <$> R).
Proof.
  induction rows as [|l rows IH] using rev_ind; intros Hon.
  { cbn [for_each flat_map]. by rewrite replicate_fmap. }
  rewrite for_each_app, IH by (intros; apply Hon; [by apply elem_of_app; left|done]). cbn [mbind outcome_bind for_each].
  unfold nested_left_row. rewrite (mapM_Ok _ (on l)) by (intros; apply Hon; [set_solver|done]). cbn [mbind outcome_bind fst snd].
  rewrite zip_fmap_filter, zip_with_fmap_same. f_equal. f_equal.
  - rewrite flat_map_app. cbn. by rewrite app_nil_r.
  - apply list_fmap_ext. intros i r _. rewrite existsb_app. cbn. by rewrite orb_false_r.
Qed.

(** Nested loops return the reference, in its order. *)
Lemma nested_loop_exact jt cond on : (∀ l r, l ∈ L → r ∈ R → on_ok cond out_schema (l ++ r) = Ok (on l r)) →
  nested_loop_join left right jt cond = Ok (mkBatch out_schema (reference_join jt on left_len right_len L R)).
Proof.
  intros Hon. unfold nested_loop_join. rewrite (nested_rows_ok cond on) by done. cbn [mbind outcome_bind fst snd].
  unfold reference_join. f_equal. f_equal. f_equal. destruct jt; try done; cbn [outer_right]; apply zip_fmap_filter.
Qed.

(** ** Hash join *)

Section hash.
Context (build probe : Batch) (build_keys probe_keys : list QExpr) (c : HashCtx).
Context (bkey pkey : row → list Literal) (res : row → bool) (outer : bool).

Notation B := (b_rows build).
Notation P := (b_rows probe).

Context (Hbkey : ∀ b, b ∈ B → key_of build_keys (b_schema build) b = Ok (bkey b)).
Context (Hpkey : ∀ p, p ∈ P → key_of probe_keys (b_schema probe) p = Ok (pkey p)).
Context (Hres : ∀ p b, p ∈ P → b ∈ B → residual_ok (hc_residual c) (hc_schema c) (combine c p (Some b)) = Ok (res (combine c p (Some b)))).

(** Rows with a key, and the same one. *)
Definition same_key (p b : row) : bool :=
  match join_key_bytes (pkey p), join_key_bytes (bkey b) with Some x, Some y => bool_decide (x = y) | _, _ => false end.

Definition pair_ok (p b : row) : bool := same_key p b && res (combine c p (Some b)).

(** What a probe row contributes. *)
Definition probe_result (p : row) (rows : list row) : list row :=
  or_unmatched outer (combine c p None) ((λ b, combine c p (Some b)) <$> filter (λ b, pair_ok p b = true) rows).

Lemma emit_all_ok p bucket : p ∈ P → bucket ⊆ B →
  emit_all c p bucket = Ok ((λ b, combine c p (Some b)) <$> filter (λ b, res (combine c p (Some b)) = true) bucket).
Proof using Type*.
  intros Hp Hs. unfold emit_all. rewrite (mapM_Ok _ (λ b, if res (combine c p (Some b)) then [combine c p (Some b)] else [])).
  - cbn [mbind outcome_bind]. by rewrite flat_map_concat_fmap, fmap_filter_flat_map.
  - intros b Hb. unfold emit. rewrite Hres by auto. cbn. by destruct (res _).
Qed.

Definition bucket_of (rows : list row) (k : list Z) : list row := filter (λ b, join_key_bytes (bkey b) = Some k) rows.

Lemma build_table_ok rows : rows ⊆ B → ∃ t, build_table build_keys (b_schema build) rows = Ok t ∧ ∀ k, default [] (t !! k) = bucket_of rows k.
Proof using Type*.
  unfold build_table. induction rows as [|b rows IH] using rev_ind; intros Hs; [by exists ∅|].
  destruct IH as (t & Ht & Hk); [set_solver|]. rewrite for_each_app, Ht. cbn [mbind outcome_bind for_each].
  rewrite Hbkey by (apply Hs; set_solver). cbn [mbind outcome_bind]. unfold bucket_of in *.
  destruct (join_key_bytes (bkey b)) as [x|] eqn:E; (eexists; split; [done|]; intros k; rewrite filter_app, filter_cons, filter_nil, E).
  - destruct (decide (x = k)) as [->|Hne].
    + rewrite lookup_insert_eq, decide_True by done. cbn [default]. by rewrite Hk.
    + rewrite lookup_insert_ne, decide_False by congruence. by rewrite app_nil_r.
  - rewrite decide_False by done. by rewrite app_nil_r.
Qed.

Lemma bucket_same p rows k : join_key_bytes (pkey p) = Some k →
  (λ b, combine c p (Some b)) <$> filter (λ b, res (combine c p (Some b)) = true) (bucket_of rows k) =
  (λ b, combine c p (Some b)) <$> filter (λ b, pair_ok p b = true) rows.
Proof.
  intros Hk. unfold bucket_of. rewrite list_filter_filter. f_equal. apply list_filter_iff. intros b. unfold pair_ok, same_key. rewrite Hk.
  destruct (join_key_bytes (bkey b)) as [x|]; [|split; [by intros []|done]].
  rewrite andb_true_iff, bool_decide_eq_true. naive_solver.
Qed.

Lemma probe_table_ok p t rows : p ∈ P → rows ⊆ B → (∀ k, default [] (t !! k) = bucket_of rows k) →
  probe_table c t outer probe_keys (b_schema probe) p = Ok (probe_result p rows).
Proof using Type*.
  intros Hp Hs Ht. unfold probe_table. rewrite Hpkey by done. cbn [mbind outcome_bind]. unfold probe_result, or_unmatched.
  assert (match join_key_bytes (pkey p) with
          | Some k => match t !! k with Some bucket => emit_all c p bucket | None => Ok [] end
          | None => Ok []
          end = Ok ((λ b, combine c p (Some b)) <$> filter (λ b, pair_ok p b = true) rows)) as ->.
  { destruct (join_key_bytes (pkey p)) as [k|] eqn:Hk.
    - rewrite <- (bucket_same p rows k Hk), <- Ht. destruct (t !! k) as [bucket|] eqn:Eb; [|done]. cbn [default].
      apply emit_all_ok; [done|]. specialize (Ht k). rewrite Eb in Ht. cbn in Ht. subst bucket.
      intros b [_ Hb]%list_elem_of_filter. by apply Hs.
    - rewrite filter_none; [done|]. intros b _. unfold pair_ok, same_key. by rewrite Hk. }
  cbn [mbind outcome_bind]. by destruct (bool_decide _ && outer).
Qed.

(** The whole probe side, against the build rows. *)
Definition probe_all : list row := flat_map (λ p, probe_result p B) P.

Lemma general_path : ∃ t, build_table build_keys (b_schema build) B = Ok t ∧
  ∃ out, mapM (probe_table c t outer probe_keys (b_schema probe)) P = Ok out ∧ concat out = probe_all.
Proof using Type*.
  destruct (build_table_ok B) as (t & Ht & Hk); [done|]. exists t. split; [done|].
  exists ((λ p, probe_result p B) <$> P). split; [|apply flat_map_concat_fmap].
  apply mapM_Ok. intros p Hp. by apply probe_table_ok.
Qed.

(** *** Integer keys *)

Definition int_or_null (v : Literal) : Prop := v = LNull ∨ ∃ n, v = LInt n ∧ in_i64 n.
Definition int_key (key : list Literal) : Prop := ∃ v, key = [v] ∧ int_or_null v.

Lemma int_key_typed key : int_key key → row_typed [plain_column "k" TInt64] key.
Proof. intros (v & -> & [->|(n & -> & Hn)]); (apply Forall2_cons; split; [|by apply Forall2_nil]); done. Qed.

Lemma int_same_key p b n : pkey p = [LInt n] → in_i64 n → int_key (bkey b) → same_key p b = bool_decide (bkey b = [LInt n]).
Proof using SJ.
  intros Hp Hn Hb. pose proof (join_key_bytes_typed [plain_column "k" TInt64] (pkey p) (bkey b)) as Hj.
  rewrite Hp in Hj. specialize (Hj ltac:(apply int_key_typed; eexists; split; [done|right; eauto]) (int_key_typed _ Hb)).
  unfold same_key. rewrite Hp. destruct (join_key_bytes [LInt n]) as [x|] eqn:Ex; [|done].
  destruct (join_key_bytes (bkey b)) as [y|] eqn:Ey.
  - apply bool_decide_ext. split; [intros ->; by destruct (proj1 Hj ltac:(eauto))|intros Hb'; rewrite Hb' in Ey; congruence].
  - symmetry. apply bool_decide_false. intros Hb'. rewrite Hb', Ex in Ey. done.
Qed.

Section ints.
Context (bk pk : QExpr) (Ebk : build_keys = [bk]) (Epk : probe_keys = [pk]) (Houter : outer = false).
Context (Hbint : ∀ b, b ∈ B → int_key (bkey b)) (Hpint : ∀ p, p ∈ P → int_key (pkey p)).

Lemma key_of_single k schema r v : key_of [k] schema r = Ok [v] → eval_qexpr k schema r = Ok v.
Proof. unfold key_of. cbn. destruct (eval_qexpr k schema r); cbn; [by intros [= ->]|done..]. Qed.

(** The rows with their positions that have an integer key. *)
Definition int_entries (rows : list row) (k : Z) : list (nat * row) := filter (λ p, bkey p.2 = [LInt k]) (imap pair rows).

Lemma build_i64_ok rows : rows ⊆ B → ∃ t, build_i64 bk (b_schema build) rows = Ok t ∧ ∀ k, default [] (t !! k) = (int_entries rows k).*1.
Proof using Type*.
  unfold build_i64. induction rows as [|b rows IH] using rev_ind; intros Hs; [by exists ∅|].
  destruct IH as (t & Ht & Hk); [set_solver|]. unfold int_entries in *. rewrite imap_app. cbn [imap]. rewrite for_each_app, Ht.
  cbn [mbind outcome_bind for_each]. assert (b ∈ B) as Hb by (apply Hs; set_solver).
  destruct (Hbint b Hb) as (v & Hv & Hiv). pose proof (Hbkey b Hb) as Hkey. rewrite Ebk, Hv in Hkey. cbn [snd fst compose].
  rewrite (key_of_single _ _ _ _ Hkey). cbn [mbind outcome_bind].
  destruct Hiv as [->|(n & -> & Hn)]; (eexists; split; [done|]; intros k; rewrite filter_app, fmap_app, filter_cons, filter_nil); cbn [snd]; rewrite Hv.
  - rewrite decide_False by done. by rewrite app_nil_r.
  - destruct (decide (n = k)) as [->|Hne].
    + rewrite lookup_insert_eq, decide_True by done. cbn [default]. by rewrite Hk.
    + rewrite lookup_insert_ne, decide_False by congruence. by rewrite app_nil_r.
Qed.

Lemma int_entries_lookup rows k e : e ∈ int_entries rows k → rows !! e.1 = Some e.2.
Proof.
  intros [_ He]%list_elem_of_filter. apply elem_of_lookup_imap in He as (i & x & -> & Hx). done.
Qed.

Lemma int_entries_rows rows k : (int_entries rows k).*2 = filter (λ b, bkey b = [LInt k]) rows.
Proof.
  unfold int_entries. induction rows as [|b rows IH] using rev_ind; [done|].
  rewrite imap_app, !filter_app, fmap_app, IH. cbn [imap]. rewrite !filter_cons, !filter_nil. cbn [snd]. by case_decide.
Qed.

Lemma probe_i64_ok p t : p ∈ P → (∀ k, default [] (t !! k) = (int_entries B k).*1) →
  probe_i64 c t B pk (b_schema probe) p = Ok (probe_result p B).
Proof using Type* SJ.
  intros Hp Ht. unfold probe_i64. destruct (Hpint p Hp) as (v & Hv & Hiv). pose proof (Hpkey p Hp) as Hkey. rewrite Epk, Hv in Hkey.
  rewrite (key_of_single _ _ _ _ Hkey). cbn [mbind outcome_bind]. unfold probe_result, or_unmatched. rewrite Houter, andb_false_r.
  destruct Hiv as [->|(n & -> & Hn)].
  { rewrite filter_none; [done|]. intros b _. unfold pair_ok, same_key. by rewrite Hv. }
  rewrite (filter_ext_elem _ (λ b, res (combine c p (Some b)) = true ∧ bkey b = [LInt n])).
  2: { intros b Hb. unfold pair_ok. rewrite (int_same_key p b n Hv Hn (Hbint b Hb)), andb_true_iff, bool_decide_eq_true. naive_solver. }
  rewrite <- (list_filter_filter (λ b, res (combine c p (Some b)) = true)), <- int_entries_rows.
  rewrite fmap_filter_flat_map, flat_map_fmap. specialize (Ht n). destruct (t !! n) as [indices|] eqn:Et.
  - change (indices = (int_entries B n).*1) in Ht. subst indices. rewrite (mapM_Ok _ (λ i, match B !! i with Some b => if res (combine c p (Some b)) then [combine c p (Some b)] else [] | None => [] end)).
    + cbn [mbind outcome_bind]. rewrite flat_map_concat_fmap, flat_map_fmap. f_equal. apply flat_map_ext_elem.
      intros e He. by rewrite (int_entries_lookup B n e He).
    + intros i (e & -> & He)%list_elem_of_fmap. pose proof (int_entries_lookup B n e He) as Hl. rewrite (index_lookup _ _ _ Hl), Hl.
      cbn [mbind outcome_bind]. unfold emit. rewrite Hres by (done || by eapply list_elem_of_lookup_2). cbn. by destruct (res _).
  - apply (f_equal length) in Ht. rewrite length_fmap in Ht. symmetry in Ht. by apply nil_length_inv in Ht as ->.
Qed.

Lemma i64_path : ∃ t, build_i64 bk (b_schema build) B = Ok t ∧
  ∃ out, mapM (probe_i64 c t B pk (b_schema probe)) P = Ok out ∧ concat out = probe_all.
Proof using Type* SJ.
  destruct (build_i64_ok B) as (t & Ht & Hk); [done|]. exists t. split; [done|].
  exists ((λ p, probe_result p B) <$> P). split; [|apply flat_map_concat_fmap].
  apply mapM_Ok. intros p Hp. by apply probe_i64_ok.
Qed.

End ints.
(** *** Grace partitioning *)

Section grace.
Context {SC : SpillCodec} (io : SpillCall → option DbError) (Hio : ∀ call, io call = None).
Context (Hbexact : Forall spill_exact B) (Hpexact : Forall spill_exact P) (n : nat) (Hn : (0 < n)%nat).

Lemma insert_fmap_seq {A} (F : nat → A) p x : <[p := x]> (F <$> seq 0 n) = (λ q, if decide (q = p) then x else F q) <$> seq 0 n.
Proof using Hn.
  apply list_eq. intros i. rewrite list_lookup_fmap. destruct (decide (i < n)%nat) as [Hi|Hi].
  - rewrite lookup_seq_lt by done. cbn. case_decide as E.
    + subst. rewrite list_lookup_insert_eq; [done|]. by rewrite length_fmap, length_seq.
    + rewrite list_lookup_insert_ne by done. by rewrite list_lookup_fmap, lookup_seq_lt.
  - rewrite lookup_seq_ge by lia. apply lookup_ge_None. rewrite length_insert, length_fmap, length_seq. lia.
Qed.

Lemma partition_of_lt k : (partition_of k n < n)%nat.
Proof using Hn. unfold partition_of. pose proof (Z.mod_pos_bound (hash_bytes k) (Z.of_nat n)). lia. Qed.

(** The file of a partition after these rows, by their keys. *)
Definition part (key : row → list Literal) (r : row) : option nat := (λ k, partition_of k n) <$> join_key_bytes (key r).
Definition part_rows (key : row → list Literal) (rows : list row) (p : nat) : list row := filter (λ r, part key r = Some p) rows.
Definition part_files (key : row → list Literal) (rows : list row) : list (list Z) := (λ p, spill_file (part_rows key rows p)) <$> seq 0 n.

Lemma part_files_snoc_none key rows r : join_key_bytes (key r) = None → part_files key (rows ++ [r]) = part_files key rows.
Proof.
  intros Hk. unfold part_files. apply list_fmap_ext. intros i p _. unfold part_rows. rewrite filter_app, filter_cons, filter_nil.
  rewrite decide_False by (unfold part; by rewrite Hk). by rewrite app_nil_r.
Qed.

Lemma spill_row_ok key rows r k : spill_exact r → join_key_bytes (key r) = Some k →
  spill_row (part_files key rows) k r = Ok (part_files key (rows ++ [r])).
Proof using Hn.
  intros (line & Hl & _) Hk. unfold spill_row, join_write_row. rewrite Hl. cbn [ok_or mbind outcome_bind].
  unfold part_files. rewrite length_fmap, length_seq. set (p := partition_of k n).
  assert ((p < n)%nat) as Hp by apply partition_of_lt.
  rewrite (index_lookup _ _ (spill_file (part_rows key rows p))) by (by rewrite list_lookup_fmap, lookup_seq_lt).
  cbn [mbind outcome_bind]. f_equal. rewrite insert_fmap_seq. apply list_fmap_ext. intros i q _. unfold part_rows.
  assert (part key r = Some p) as Hpart by (unfold part; by rewrite Hk).
  rewrite filter_app, filter_cons, filter_nil. unfold spill_file. rewrite fmap_app, concat_app. destruct (decide (q = p)) as [->|Hne].
  - rewrite (decide_True (P := part key r = Some p)) by done. cbn. unfold spill_line. rewrite Hl. cbn. by rewrite app_nil_r.
  - rewrite (decide_False (P := part key r = Some q)) by congruence. cbn. by rewrite app_nil_r.
Qed.

Lemma create_files_ok side : create_files io side n = Ok (part_files bkey []).
Proof using Hio.
  unfold create_files. rewrite (mapM_Ok _ (λ _, [])); [done|]. intros p _. by rewrite spill_io_ok.
Qed.

Lemma spill_build_ok rows : rows ⊆ B →
  for_each (spill_build build_keys (b_schema build)) (part_files bkey []) rows = Ok (part_files bkey rows).
Proof using Type*.
  induction rows as [|b rows IH] using rev_ind; intros Hs; [done|].
  assert (b ∈ B) as Hb by (apply Hs, elem_of_app; right; by left).
  rewrite for_each_app, IH by (intros x Hx; apply Hs, elem_of_app; by left). cbn [mbind outcome_bind for_each].
  unfold spill_build. rewrite Hbkey by done. cbn [mbind outcome_bind].
  destruct (join_key_bytes (bkey b)) as [k|] eqn:Ek; [|by rewrite part_files_snoc_none].
  rewrite spill_row_ok; [done| |done]. rewrite Forall_forall in Hbexact. by apply Hbexact.
Qed.

(** The rows without a key, emitted while partitioning. *)
Definition keyless (rows : list row) : list row := filter (λ p, join_key_bytes (pkey p) = None) rows.

Lemma spill_probe_ok rows : rows ⊆ P →
  for_each (spill_probe c outer probe_keys (b_schema probe)) (part_files pkey [], []) rows =
  Ok (part_files pkey rows, flat_map (λ p, probe_result p B) (keyless rows)).
Proof using Type*.
  induction rows as [|p rows IH] using rev_ind; intros Hs; [done|].
  assert (p ∈ P) as Hp by (apply Hs, elem_of_app; right; by left).
  rewrite for_each_app, IH by (intros x Hx; apply Hs, elem_of_app; by left). cbn [mbind outcome_bind for_each].
  unfold spill_probe. rewrite Hpkey by done. cbn [mbind outcome_bind fst snd]. unfold keyless. rewrite filter_app, filter_cons, filter_nil, flat_map_app.
  destruct (join_key_bytes (pkey p)) as [k|] eqn:Ek.
  - rewrite spill_row_ok; [cbn [mbind outcome_bind]; by rewrite app_nil_r| |done]. rewrite Forall_forall in Hpexact. by apply Hpexact.
  - rewrite part_files_snoc_none by done. cbn [flat_map decide decide_rel]. rewrite decide_True by done. cbn [flat_map]. rewrite app_nil_r.
    unfold probe_result. rewrite (filter_none (λ b, pair_ok p b = true)) by (intros b _; unfold pair_ok, same_key; by rewrite Ek).
    unfold or_unmatched. cbn. destruct outer; cbn; by rewrite ?app_nil_r.
Qed.

Lemma strip_cr_id line : 13 ∉ line → strip_cr line = line.
Proof.
  intros Hn'. unfold strip_cr. destruct (rev line) as [|x r] eqn:E; [done|].
  assert (x ∈ line) as Hx by (apply list_elem_of_In, in_rev; rewrite E; by left).
  destruct (decide (x = 13)) as [->|Hx']; [done|]. destruct x as [|q|q]; try done. do 4 (destruct q as [q|q|]; try done).
Qed.

Lemma lines_file rows : Forall spill_exact rows → lines (spill_file rows) = (λ r, default [] (row_to_line r)) <$> rows.
Proof.
  intros He. unfold lines. assert (split 10 (spill_file rows) = ((λ r, default [] (row_to_line r)) <$> rows) ++ [[]]) as ->.
  { induction He as [|r rows (line & Hl & _ & H10 & _) _ IH]; [done|]. unfold spill_file in *. rewrite fmap_cons. cbn [concat].
    unfold spill_line at 1. rewrite Hl. cbn [default from_option]. rewrite <- app_assoc. cbn [app]. rewrite split_sep, IH; [cbn; by rewrite Hl|].
    apply Forall_forall. intros x Hx ->. done. }
  rewrite rev_app_distr. cbn [rev app]. rewrite bool_decide_true by done. rewrite app_nil_r, rev_involutive, <- list_fmap_compose.
  apply list_fmap_ext. intros i r Hr. cbn. apply list_elem_of_lookup_2 in Hr. rewrite Forall_forall in He.
  destruct (He r Hr) as (line & Hl & _ & _ & H13 & _). rewrite Hl. by apply strip_cr_id.
Qed.

Lemma read_rows_file rows : Forall spill_exact rows → read_rows (spill_file rows) = Ok rows.
Proof.
  intros He. unfold read_rows. rewrite lines_file by done. assert (filter (λ l, l ≠ []) ((λ r, default [] (row_to_line r)) <$> rows) =
    (λ r, default [] (row_to_line r)) <$> rows) as ->.
  { induction He as [|r rows (line & Hl & Hne & _) _ IH]; [done|]. rewrite fmap_cons, filter_cons_True, IH; [done|]. by rewrite Hl. }
  induction He as [|r rows (line & Hl & _ & _ & _ & _ & Hr) _ IH]; [done|]. cbn. rewrite Hl. cbn. rewrite Hr. cbn. by rewrite IH.
Qed.

Lemma part_pair p b i : part pkey p = Some i → pair_ok p b = true → part bkey b = Some i.
Proof.
  unfold part, pair_ok, same_key. destruct (join_key_bytes (pkey p)) as [k|]; [|done]. intros [= <-].
  destruct (join_key_bytes (bkey b)) as [k'|]; [|done]. intros [->%bool_decide_eq_true _]%andb_true_iff. done.
Qed.

Lemma join_partition_ok i : join_partition c outer build probe build_keys probe_keys (spill_file (part_rows bkey B i), spill_file (part_rows pkey P i)) =
  Ok (flat_map (λ p, probe_result p B) (part_rows pkey P i)).
Proof using Type*.
  assert (part_rows bkey B i ⊆ B) as HBs by (by intros b [_ Hb]%list_elem_of_filter).
  assert (part_rows pkey P i ⊆ P) as HPs by (by intros b [_ Hb]%list_elem_of_filter).
  unfold join_partition. cbn [fst snd]. rewrite !read_rows_file by (by eapply Forall_subseteq). cbn [mbind outcome_bind].
  destruct (build_table_ok (part_rows bkey B i) HBs) as (t & -> & Ht). cbn [mbind outcome_bind].
  rewrite (mapM_Ok _ (λ p, probe_result p B)); [cbn; by rewrite flat_map_concat_fmap|].
  intros p Hp. rewrite (probe_table_ok p t (part_rows bkey B i)); [|by apply HPs|done|done]. f_equal. unfold probe_result. f_equal. f_equal.
  unfold part_rows at 1. apply list_elem_of_filter in Hp as [Hpart _]. apply list_filter_filter_l. intros b. by apply part_pair.
Qed.

Lemma keyed_perm : P ≡ₚ keyless P ++ flat_map (part_rows pkey P) (seq 0 n).
Proof using Hn.
  assert (P ≡ₚ keyless P ++ filter (λ p, join_key_bytes (pkey p) ≠ None) P) as HP by (symmetry; apply filter_app_complement).
  rewrite HP at 1. f_equiv. rewrite <- (parts_perm (λ p, default 0%nat (part pkey p)) n (filter (λ p, join_key_bytes (pkey p) ≠ None) P)).
  - apply flat_map_perm_fun. intros i _. rewrite list_filter_filter. unfold part_rows. rewrite (filter_ext_elem _ (λ r, part pkey r = Some i)); [done|].
    intros p _. unfold part. destruct (join_key_bytes (pkey p)) as [k|]; cbn; naive_solver.
  - intros p [Hp _]%list_elem_of_filter. unfold part. destruct (join_key_bytes (pkey p)) as [k|]; [apply partition_of_lt|done].
Qed.

End grace.

Lemma grace_path {SC : SpillCodec} (io : SpillCall → option DbError) mem_rows :
  (∀ call, io call = None) → Forall spill_exact B → Forall spill_exact P →
  ∃ out, grace_hash_join io c build build_keys probe probe_keys outer mem_rows = Ok out ∧ out ≡ₚ probe_all.
Proof using Type*.
  intros Hio HB HP. unfold grace_hash_join. set (n := partition_count (length B) mem_rows).
  assert ((0 < n)%nat) as Hn by (unfold n, partition_count; lia).
  rewrite spill_io_ok by done. cbn [mbind outcome_bind]. rewrite !(create_files_ok io Hio n). cbn [mbind outcome_bind].
  rewrite spill_build_ok by done. cbn [mbind outcome_bind]. change (part_files n bkey []) with (part_files n pkey []).
  rewrite spill_probe_ok by done. cbn [mbind outcome_bind fst snd]. unfold part_files. rewrite zip_with_fmap_same.
  rewrite (mapM_fmap_Ok _ _ (λ i, flat_map (λ p, probe_result p B) (part_rows n pkey P i))) by (intros i _; by apply join_partition_ok).
  cbn [mbind outcome_bind]. eexists. split; [done|]. rewrite flat_map_concat_fmap. unfold probe_all.
  rewrite (keyed_perm n Hn) at 2. rewrite flat_map_app. f_equiv.
  induction (seq 0 n) as [|i parts IH]; [done|]. cbn [flat_map]. by rewrite flat_map_app, IH.
Qed.

(** Keys typed by the same columns on both sides. *)
Context (columns : list ColumnDef) (Hbtyped : ∀ b, b ∈ B → row_typed columns (bkey b)) (Hptyped : ∀ p, p ∈ P → row_typed columns (pkey p)).

Lemma use_i64_fast_ok : ∃ fast, use_i64_fast outer build build_keys probe_keys = Ok fast ∧
  (fast = true → ∃ bk pk, build_keys = [bk] ∧ probe_keys = [pk] ∧ outer = false ∧
     (∀ b, b ∈ B → int_key (bkey b)) ∧ (∀ p, p ∈ P → int_key (pkey p))).
Proof using Type*.
  unfold use_i64_fast. destruct outer eqn:Eo; [by eexists|]. cbn [negb].
  destruct build_keys as [|bk [|]] eqn:Ebk; [by eexists| |by eexists]. destruct probe_keys as [|pk [|]] eqn:Epk; [by eexists| |by eexists].
  destruct B as [|b rows] eqn:EB; [by eexists|]. pose proof (Hbkey b ltac:(by left)) as Hk.
  pose proof Hk as Hk'. unfold key_of in Hk'. cbn in Hk'. destruct (eval_qexpr bk (b_schema build) b) as [v| |]; [|done..]. injection Hk' as Hk'.
  cbn [mbind outcome_bind]. eexists. split; [done|]. intros Hint. exists bk, pk. do 3 (split; [done|]).
  assert (∃ col, columns = [col] ∧ col_ty col = TInt64) as (col & -> & Hty).
  { pose proof (Hbtyped b ltac:(by left)) as Ht. rewrite <- Hk' in Ht. destruct v; try done.
    apply Forall2_cons_inv_r in Ht as (col & cs & [_ Hty] & Hnil & ->). apply Forall2_nil_inv_r in Hnil as ->. exists col. split; [done|]. by destruct (col_ty col). }
  assert (∀ key, row_typed [col] key → int_key key) as Hall.
  { intros key Ht. apply Forall2_cons_inv_l in Ht as (w & ws & [Hok Hw] & Hnil & ->). apply Forall2_nil_inv_l in Hnil as ->.
    exists w. split; [done|]. rewrite Hty in Hw. destruct w; try done; [right; eauto|by left]. }
  split; intros; apply Hall; auto.
Qed.
Lemma hash_rows_ok {SC : SpillCodec} (io : SpillCall → option DbError) mem_rows :
  (∀ call, io call = None) → Forall spill_exact B → Forall spill_exact P →
  ∃ out, (if decide (length B ≤ mem_rows)%nat then
       fast ← use_i64_fast outer build build_keys probe_keys;
       match (fast : bool), build_keys, probe_keys with
       | true, bk :: _, pk :: _ =>
           t ← build_i64 bk (b_schema build) B;
           out ← mapM (probe_i64 c t B pk (b_schema probe)) P;
           Ok (concat out)
       | _, _, _ =>
           t ← build_table build_keys (b_schema build) B;
           out ← mapM (probe_table c t outer probe_keys (b_schema probe)) P;
           Ok (concat out)
       end
     else grace_hash_join io c build build_keys probe probe_keys outer mem_rows) = Ok out ∧ out ≡ₚ probe_all.
Proof using Type* SJ.
  intros Hio HB HP. case_decide; [|by apply grace_path]. exists probe_all. split; [|done].
  destruct general_path as (t & Ht & out & Hout & Hc). destruct use_i64_fast_ok as (fast & -> & Hfast). cbn [mbind outcome_bind]. destruct fast.
  - destruct Hfast as (bk & pk & Ebk & Epk & Eo & Hbi & Hpi); [done|].
    destruct (i64_path bk pk Ebk Epk Eo Hbi Hpi) as (ti & Hti & outi & Houti & Hci). rewrite Ebk, Epk, Hti. cbn [mbind outcome_bind]. rewrite Houti. cbn. by rewrite Hci.
  - rewrite Ht. cbn [mbind outcome_bind]. rewrite Hout. cbn. by rewrite Hc.
Qed.

Lemma same_key_typed p b : p ∈ P → b ∈ B → Forall (λ col, joinable (col_ty col)) columns →
  same_key p b = keys_equal (pkey p) (bkey b) ∧ same_key p b = keys_equal (bkey b) (pkey p).
Proof using Hbtyped Hptyped SJ.
  intros Hp Hb Hj. rewrite !(keys_equal_typed columns) by auto.
  assert (same_key p b = true ↔ existsb is_null (pkey p) = false ∧ pkey p = bkey b) as Hs.
  { rewrite <- (join_key_bytes_typed columns) by auto. unfold same_key.
    destruct (join_key_bytes (pkey p)) as [x|], (join_key_bytes (bkey b)) as [y|]; rewrite ?bool_decide_eq_true; naive_solver. }
  destruct (same_key p b) eqn:E.
  - destruct (proj1 Hs eq_refl) as [Hn <-]. by rewrite Hn, bool_decide_true.
  - destruct (decide (pkey p = bkey b)) as [Heq|Hne]; [|by rewrite !bool_decide_false, !andb_false_r by congruence].
    rewrite <- Heq, bool_decide_true by done. destruct (existsb is_null (pkey p)) eqn:En; [done|].
    by discriminate (proj2 Hs (conj eq_refl Heq)).
Qed.

End hash.

(** An equi-join whose keys and residual condition evaluate, with keys of the same types
    on both sides. *)
Record equi_join (left_keys right_keys : list QExpr) (residual : option QExpr) (lkey rkey : row → list Literal) (res : row → bool)
    (columns : list ColumnDef) : Prop := {
  ej_left : ∀ l, l ∈ L → key_of left_keys (b_schema left) l = Ok (lkey l);
  ej_right : ∀ r, r ∈ R → key_of right_keys (b_schema right) r = Ok (rkey r);
  ej_res : ∀ l r, l ∈ L → r ∈ R → residual_ok residual out_schema (l ++ r) = Ok (res (l ++ r));
  ej_ltyped : ∀ l, l ∈ L → row_typed columns (lkey l);
  ej_rtyped : ∀ r, r ∈ R → row_typed columns (rkey r);
  ej_types : Forall (λ col, joinable (col_ty col)) columns
}.

(** The condition of the join, by SQL equality. *)
Definition equi_on (lkey rkey : row → list Literal) (res : row → bool) (l r : row) : bool := keys_equal (lkey l) (rkey r) && res (l ++ r).

Section equi.
Context (left_keys right_keys : list QExpr) (residual : option QExpr) (lkey rkey : row → list Literal) (res : row → bool) (columns : list ColumnDef).
Context (Hej : equi_join left_keys right_keys residual lkey rkey res columns).

Notation on := (equi_on lkey rkey res).

Lemma probe_left_reference jt : outer_right jt = false →
  probe_all right left (mkHashCtx true left_len right_len residual out_schema) rkey lkey res (outer_left jt) =
  reference_join jt on left_len right_len L R.
Proof using Hej SJ.
  intros Ho. unfold reference_join, probe_all. rewrite Ho, app_nil_r. apply flat_map_ext_elem. intros l Hl. unfold probe_result.
  f_equal. change (λ b, combine _ l (Some b)) with (app l). f_equal. apply filter_ext_elem. intros r Hr. unfold pair_ok, equi_on.
  by rewrite (proj1 (same_key_typed right left _ _ columns (ej_rtyped _ _ _ _ _ _ _ Hej) (ej_ltyped _ _ _ _ _ _ _ Hej) l r Hl Hr (ej_types _ _ _ _ _ _ _ Hej))).
Qed.

Lemma probe_right_reference :
  probe_all left right (mkHashCtx false left_len right_len residual out_schema) lkey rkey res true ≡ₚ reference_join JRight on left_len right_len L R.
Proof using Hej SJ.
  set (c := mkHashCtx _ _ _ _ _). unfold probe_all, probe_result. rewrite or_unmatched_perm. unfold reference_join. cbn [outer_left outer_right].
  assert (∀ r l, r ∈ R → l ∈ L → pair_ok c lkey rkey res r l = on l r) as Hpair.
  { intros r l Hr Hl. unfold pair_ok, equi_on.
    by rewrite (proj2 (same_key_typed left right _ _ columns (ej_ltyped _ _ _ _ _ _ _ Hej) (ej_rtyped _ _ _ _ _ _ _ Hej) r l Hr Hl (ej_types _ _ _ _ _ _ _ Hej))). }
  f_equiv.
  - rewrite (flat_map_ext_elem _ (λ r, flat_map (λ l, if on l r then [l ++ r] else []) L)).
    + rewrite flat_map_swap. apply flat_map_perm_fun. intros l _. unfold or_unmatched. rewrite andb_false_r. by rewrite fmap_filter_flat_map.
    + intros r Hr. rewrite fmap_filter_flat_map. apply flat_map_ext_elem. intros l Hl. by rewrite Hpair.
  - change (λ x, combine c x None) with (app (nulls left_len)). f_equiv. apply Permutation_refl'. apply filter_ext_elem. intros r Hr. split.
    + intros Hnil. apply not_true_is_false. intros (l & Hl & Hon)%existsb_exists. apply list_elem_of_In in Hl.
      apply fmap_nil_inv in Hnil. by apply (filter_nil_not_elem_of _ _ l Hnil); [rewrite Hpair|].
    + intros Hex. rewrite filter_none; [done|]. intros l Hl. rewrite Hpair by done. intros Hon.
      assert (existsb (λ l, on l r) L = true); [|congruence]. apply existsb_exists. exists l. split; [by apply list_elem_of_In|done].
Qed.

Lemma hash_join_ok {SC : SpillCodec} (io : SpillCall → option DbError) jt mem_rows :
  (∀ call, io call = None) → Forall spill_exact L → Forall spill_exact R → jt ≠ JFullOuter →
  ∃ rows, hash_join io left right jt left_keys right_keys residual mem_rows = Ok (mkBatch out_schema rows) ∧
    rows ≡ₚ reference_join jt on left_len right_len L R.
Proof using Hej SJ.
  intros Hio HL HR Hjt. destruct Hej as [Hl Hr Hres Hlt Hrt Hty]. unfold hash_join. assert (jt = JRight ∨ outer_right jt = false) as [->|Hne] by (destruct jt; auto; done).
  - destruct (hash_rows_ok left right left_keys right_keys (mkHashCtx false left_len right_len residual out_schema) lkey rkey res true
      Hl Hr ltac:(intros; by apply Hres) columns Hlt Hrt io mem_rows Hio HL HR) as (out & Hout & Hp).
    exists out. split; [cbn zeta; cbv beta iota; rewrite Hout; done|]. rewrite Hp. apply probe_right_reference.
  - destruct (hash_rows_ok right left right_keys left_keys (mkHashCtx true left_len right_len residual out_schema) rkey lkey res (outer_left jt)
      Hr Hl ltac:(intros; by apply Hres) columns Hrt Hlt io mem_rows Hio HR HL) as (out & Hout & Hp).
    exists out. split; [|by rewrite Hp, probe_left_reference]. destruct jt; try done; cbn [outer_left] in Hout; cbn zeta; cbv beta iota; by rewrite Hout.
Qed.

End equi.
End joins.
