(* ===== verification/SqlMergeProps.v ===== *)
(** The sort-merge join against the reference of the joins, and the rows it loses. *)

From stdpp Require Import base numbers sets list gmap strings sorting.
From Stdlib Require Import Lia.
From S2P Require Import Prelude SortBy Format BTreeNode BTree Text Float Datetime SqlTypes SqlValue SqlValueProps SqlRow SqlRowProps SqlExpr SqlQuery SqlSort SqlJoin SqlJoinProps.

Notation entry := (list Literal * row)%type.

(** ** Matching of lists of entries *)

Section matching.
Context (outer_l outer_r : bool) (on : entry → entry → bool) (both : entry → entry → row) (alone_l alone_r : entry → row).

Definition matching (lk rk : list entry) : list row :=
  flat_map (λ l, or_unmatched outer_l (alone_l l) (both l <$> filter (λ r, on l r = true) rk)) lk
  ++ (if outer_r then alone_r <$> filter (λ r, existsb (λ l, on l r) lk = false) rk else []).

(** Parts that do not match each other. *)
Lemma matching_split l1 l2 r1 r2 : (∀ l r, l ∈ l1 → r ∈ r2 → on l r = false) → (∀ l r, l ∈ l2 → r ∈ r1 → on l r = false) →
  matching (l1 ++ l2) (r1 ++ r2) ≡ₚ matching l1 r1 ++ matching l2 r2.
Proof.
  intros H1 H2. unfold matching. rewrite flat_map_app, filter_app.
  assert (flat_map (λ l, or_unmatched outer_l (alone_l l) (both l <$> filter (λ r, on l r = true) (r1 ++ r2))) l1 =
          flat_map (λ l, or_unmatched outer_l (alone_l l) (both l <$> filter (λ r, on l r = true) r1)) l1) as ->.
  { apply flat_map_ext_elem. intros l Hl. rewrite filter_app, (filter_none _ r2), app_nil_r; [done|]. intros r Hr. by rewrite H1. }
  assert (flat_map (λ l, or_unmatched outer_l (alone_l l) (both l <$> filter (λ r, on l r = true) (r1 ++ r2))) l2 =
          flat_map (λ l, or_unmatched outer_l (alone_l l) (both l <$> filter (λ r, on l r = true) r2)) l2) as ->.
  { apply flat_map_ext_elem. intros l Hl. rewrite filter_app, (filter_none _ r1); [done|]. intros r Hr. by rewrite H2. }
  assert (∀ r, r ∈ r1 → existsb (λ l, on l r) (l1 ++ l2) = existsb (λ l, on l r) l1) as E1.
  { intros r Hr. rewrite existsb_app. replace (existsb (λ l, on l r) l2) with false; [apply orb_false_r|]. symmetry.
    apply not_true_is_false. intros (l & Hl%list_elem_of_In & Hon)%existsb_exists. by rewrite H2 in Hon. }
  assert (∀ r, r ∈ r2 → existsb (λ l, on l r) (l1 ++ l2) = existsb (λ l, on l r) l2) as E2.
  { intros r Hr. rewrite existsb_app. replace (existsb (λ l, on l r) l1) with false; [done|]. symmetry.
    apply not_true_is_false. intros (l & Hl%list_elem_of_In & Hon)%existsb_exists. by rewrite H1 in Hon. }
  rewrite (filter_ext_elem _ (λ r, existsb (λ l, on l r) l1 = false) r1) by (intros r Hr; by rewrite E1).
  rewrite (filter_ext_elem _ (λ r, existsb (λ l, on l r) l2 = false) r2) by (intros r Hr; by rewrite E2).
  destruct outer_r; [rewrite fmap_app|]; rewrite ?app_nil_r; [|done]. rewrite <- !app_assoc. f_equiv.
  rewrite !app_assoc. f_equiv. apply Permutation_app_comm.
Qed.

Lemma or_unmatched_proper (u : row) ms ms' : ms ≡ₚ ms' → or_unmatched outer_l u ms ≡ₚ or_unmatched outer_l u ms'.
Proof.
  intros Hp. unfold or_unmatched. rewrite (bool_decide_ext (ms = []) (ms' = [])).
  - by destruct (_ && _).
  - split; intros ->; [by apply Permutation_nil_l in Hp|by apply Permutation_nil_r in Hp].
Qed.

Lemma matching_perm lk lk' rk rk' : lk ≡ₚ lk' → rk ≡ₚ rk' → matching lk rk ≡ₚ matching lk' rk'.
Proof.
  intros Hl Hr. unfold matching. f_equiv.
  - rewrite Hl. apply flat_map_perm_fun. intros l _. apply or_unmatched_proper. by rewrite Hr.
  - destruct outer_r; [|done]. rewrite Hr. f_equiv. apply Permutation_refl'. apply filter_ext_elem. intros r _.
    assert (existsb (λ l, on l r) lk = existsb (λ l, on l r) lk') as ->; [|done]. apply eq_true_iff_eq. rewrite !existsb_exists.
    setoid_rewrite <- list_elem_of_In. by setoid_rewrite Hl.
Qed.

End matching.

(** ** Ordered keys *)

(** Types with a total order. *)
Definition kind_of (ty : ColumnType) : option nat :=
  match ty with
  | TInt64 => Some 0%nat | TText => Some 1%nat | TTimestamp => Some 2%nat | TUuid => Some 3%nat
  | TBytea => Some 4%nat | TDate => Some 5%nat | TTime => Some 6%nat
  | _ => None
  end.

Definition content (l : Literal) : list Z := match plain l with Some (_, a) => a | None => [] end.

Lemma typed_plain ty k l : kind_of ty = Some k → has_type ty l → is_null l = false → plain l = Some (k, content l).
Proof. intros Hk [_ Ht] Hn. destruct ty; try done; injection Hk as <-; destruct l; done. Qed.

Lemma plain_inj ty a b : is_Some (kind_of ty) → has_type ty a → has_type ty b → is_null a = false → is_null b = false →
  content a = content b → a = b.
Proof. intros [k Hk] [_ Ha] [_ Hb] Hna Hnb Hc. destruct ty; try done; destruct a, b; try done; cbn in Hc; congruence. Qed.

(** Keys of ordered columns without NULL. *)
Definition ordered_key (columns : list ColumnDef) (k : list Literal) : Prop := row_typed columns k ∧ existsb is_null k = false.

Lemma ordered_key_cons c columns k : ordered_key (c :: columns) k → ∃ x k', k = x :: k' ∧ has_type (col_ty c) x ∧ is_null x = false ∧ ordered_key columns k'.
Proof.
  intros [Ht Hn]. apply Forall2_cons_inv_l in Ht as (x & k' & Hx & Ht & ->). cbn in Hn. apply orb_false_iff in Hn as [Hnx Hn].
  exists x, k'. done.
Qed.

Definition key_cmp (a b : list Literal) : comparison := default Eq (key_ord a b).

Lemma key_ord_cons c columns x a y b : is_Some (kind_of (col_ty c)) → ordered_key (c :: columns) (x :: a) → ordered_key (c :: columns) (y :: b) →
  key_ord (x :: a) (y :: b) = match bytes_cmp (content x) (content y) with Eq => key_ord a b | o => Some o end.
Proof.
  intros [k Hk] Ha Hb. destruct (ordered_key_cons _ _ _ Ha) as (x' & a' & [= <- <-] & Hx & Hnx & _).
  destruct (ordered_key_cons _ _ _ Hb) as (y' & b' & [= <- <-] & Hy & Hny & _). cbn [key_ord].
  rewrite (literal_ord_plain x y k (content x) (content y)) by (by eapply typed_plain). by destruct (bytes_cmp _ _).
Qed.

Lemma key_ord_total columns a b : Forall (λ c, is_Some (kind_of (col_ty c))) columns → ordered_key columns a → ordered_key columns b →
  key_ord a b = Some (key_cmp a b) ∧ (key_cmp a b = Eq ↔ a = b).
Proof.
  intros Hc. revert a b. induction Hc as [|c columns Hk Hc IH]; intros a b Ha Hb.
  - destruct Ha as [Ha _], Hb as [Hb _]. apply Forall2_nil_inv_l in Ha as ->. by apply Forall2_nil_inv_l in Hb as ->.
  - destruct (ordered_key_cons _ _ _ Ha) as (x & a' & -> & Hx & Hnx & Ha'). destruct (ordered_key_cons _ _ _ Hb) as (y & b' & -> & Hy & Hny & Hb').
    unfold key_cmp. rewrite (key_ord_cons c columns) by done. destruct (IH a' b' Ha' Hb') as [H1 H2]. rewrite H1.
    pose proof (bytes_cmp_eq (content x) (content y)) as He.
    destruct (bytes_cmp (content x) (content y)).
    + split; [done|]. cbn. rewrite H2. assert (x = y) as -> by (by eapply plain_inj; [..|apply He]). naive_solver.
    + split; [done|]. split; [done|]. intros [= -> ->]. by destruct (proj2 He eq_refl).
    + split; [done|]. split; [done|]. intros [= -> ->]. by destruct (proj2 He eq_refl).
Qed.

Lemma key_cmp_ord columns ks : Forall (λ c, is_Some (kind_of (col_ty c))) columns → (∀ k, k ∈ ks → ordered_key columns k) → ord_on key_cmp ks.
Proof.
  intros Hc. revert ks. induction Hc as [|c columns Hk Hc IH]; intros ks Hks.
  - eapply ord_on_ext; [|apply (ord_on_trivial ks)]. intros a b [Ha _]%Hks [Hb _]%Hks. by apply Forall2_nil_inv_l in Ha as ->.
  - apply (ord_on_ext (λ a b, then_cmp (bytes_cmp (content (hd LNull a)) (content (hd LNull b))) (key_cmp (tail a) (tail b)))).
    + intros a b Ha%Hks Hb%Hks. destruct (ordered_key_cons _ _ _ Ha) as (x & a' & -> & _). destruct (ordered_key_cons _ _ _ Hb) as (y & b' & -> & _).
      unfold key_cmp. rewrite (key_ord_cons c columns) by done. cbn. by destruct (bytes_cmp _ _).
    + apply ord_on_then; [apply (ord_on_map (λ a, content (hd LNull a))), bytes_cmp_ord|]. apply (ord_on_map tail), IH.
      intros k (k' & -> & Hk')%list_elem_of_fmap. by destruct (ordered_key_cons _ _ _ (Hks k' Hk')) as (x & a & -> & _ & _ & Ha).
Qed.

Lemma ord_on_lt_le {A} (cmp : A → A → comparison) l a b c : ord_on cmp l → a ∈ l → b ∈ l → c ∈ l →
  cmp a b = Lt → cmp b c ≠ Gt → cmp a c = Lt.
Proof.
  intros [Ha Ht] Hal Hbl Hcl Hab Hbc. pose proof (Ht a b c Hal Hbl Hcl ltac:(by rewrite Hab) Hbc) as Hac.
  destruct (cmp a c) eqn:E; [|done..]. exfalso. apply (Ht b c a Hbl Hcl Hal Hbc); [by rewrite Ha, E|]. by rewrite Ha, Hab.
Qed.

(** ** The merge *)

Section merge.
Context `{!SerdeJson, !CaseTables, !UnicodeText, !FormatText} (outer_l outer_r : bool) (left_len right_len : nat) (residual : option QExpr)
  (out_schema : list ColumnRef) (columns : list ColumnDef) (res : row → bool) (lall rall : list entry).

Context (Hcols : Forall (λ c, is_Some (kind_of (col_ty c))) columns).
Context (Hkeys : ∀ e, e ∈ lall ++ rall → ordered_key columns e.1).
Context (Hres : ∀ l r, l ∈ lall → r ∈ rall → residual_ok residual out_schema (l.2 ++ r.2) = Ok (res (l.2 ++ r.2))).

Notation keys := ((lall ++ rall).*1).
Notation sorted := (StronglySorted (λ a b : entry, keyed_cmp a b ≠ Gt)).

Definition entry_on (l r : entry) : bool := bool_decide (l.1 = r.1) && res (l.2 ++ r.2).
Definition merged (lk rk : list entry) : list row :=
  matching outer_l outer_r entry_on (λ l r, l.2 ++ r.2) (λ l, l.2 ++ nulls right_len) (λ r, nulls left_len ++ r.2) lk rk.

Lemma keys_ord : ord_on key_cmp keys.
Proof using Hcols Hkeys. apply (key_cmp_ord columns); [done|]. intros k (e & -> & He)%list_elem_of_fmap. by apply Hkeys. Qed.

Lemma key_total a b : a ∈ lall ++ rall → b ∈ lall ++ rall → key_ord a.1 b.1 = Some (key_cmp a.1 b.1) ∧ (key_cmp a.1 b.1 = Eq ↔ a.1 = b.1).
Proof using Hcols Hkeys. intros. by apply (key_ord_total columns); [|apply Hkeys..]. Qed.

(** Everything after a larger entry is larger. *)
Lemma key_lt_all a b v : a ∈ lall ++ rall → b :: v ⊆ lall ++ rall → key_cmp a.1 b.1 = Lt → sorted (b :: v) →
  ∀ x, x ∈ b :: v → key_cmp a.1 x.1 = Lt.
Proof using Hcols Hkeys.
  intros Ha Hs Hlt Hsort x [->|Hx]%elem_of_cons; [done|]. apply StronglySorted_inv in Hsort as [_ Hall]. rewrite Forall_forall in Hall.
  eapply (ord_on_lt_le key_cmp keys a.1 b.1 x.1); [apply keys_ord|apply list_elem_of_fmap_2..|done|by apply Hall]; [done|apply Hs; by left|apply Hs; by right].
Qed.

Lemma take_run_spec k v : ∀ a b, k ∈ lall ++ rall → v ⊆ lall ++ rall → sorted v → (∀ x, x ∈ v → key_cmp k.1 x.1 ≠ Gt) →
  take_run k.1 v = (a, b) → v = a ++ b ∧ (∀ x, x ∈ a → x.1 = k.1) ∧ (∀ x, x ∈ b → key_cmp k.1 x.1 = Lt).
Proof using Hcols Hkeys.
  induction v as [|x v IH]; intros a b Hk Hs Hsort Hge; cbn [take_run]; [intros [= <- <-]; by split_and!; [|intros ? ?%elem_of_nil..]|].
  destruct (key_total k x Hk ltac:(apply Hs; by left)) as [Ho He]. rewrite Ho.
  pose proof Hsort as [Hsort' _]%StronglySorted_inv. case_bool_decide as Hx.
  - injection Hx as Hx. destruct (take_run k.1 v) as [a' b'] eqn:Et. intros [= <- <-].
    destruct (IH a' b') as (-> & Ha & Hb); [done|by intros y Hy; apply Hs; right|done|intros y Hy; apply Hge; by right|done|].
    split; [done|]. split; [|done]. intros y [->|Hy]%elem_of_cons; [by symmetry; apply He|by apply Ha].
  - intros [= <- <-]. split; [done|]. split; [by intros ? ?%elem_of_nil|]. apply key_lt_all; [done..| |done].
    specialize (Hge x ltac:(by left)). destruct (key_cmp k.1 x.1); [by destruct Hx|done|done].
Qed.

Lemma merge_left_row_ok r_run l : l ∈ lall → r_run ⊆ rall → (∀ r, r ∈ r_run → r.1 = l.1) →
  merge_left_row outer_l right_len residual out_schema r_run l =
  Ok (or_unmatched outer_l (l.2 ++ nulls right_len) ((λ r, l.2 ++ r.2) <$> filter (λ r, entry_on l r = true) r_run)).
Proof using Hres.
  intros Hl Hs Hk. unfold merge_left_row. rewrite (mapM_Ok _ (λ r, if res (l.2 ++ r.2) then [l.2 ++ r.2] else [])).
  2: { intros r Hr. rewrite Hres by auto. cbn. by destruct (res _). }
  cbn [mbind outcome_bind]. rewrite flat_map_concat_fmap.
  rewrite (filter_ext_elem (λ r, entry_on l r = true) (λ r, res (l.2 ++ r.2) = true)).
  2: { intros r Hr. unfold entry_on. rewrite bool_decide_true by (symmetry; by apply Hk). done. }
  rewrite fmap_filter_flat_map. unfold or_unmatched, unmatched_left. case_bool_decide as Hnil; [|done]. rewrite Hnil. by destruct outer_l.
Qed.

Lemma merge_run_ok k l_run r_run : l_run ⊆ lall → r_run ⊆ rall → l_run ≠ [] → (∀ x, x ∈ l_run → x.1 = k) → (∀ x, x ∈ r_run → x.1 = k) →
  merge_run outer_l outer_r left_len right_len residual out_schema l_run r_run = Ok (merged l_run r_run).
Proof using Hres.
  intros Hl Hr Hne Hlk Hrk. unfold merge_run. rewrite (mapM_Ok _ (λ l, or_unmatched outer_l (l.2 ++ nulls right_len) ((λ r, l.2 ++ r.2) <$> filter (λ r, entry_on l r = true) r_run))).
  2: { intros l Hin. apply merge_left_row_ok; [by apply Hl|done|]. intros r Hrin. rewrite (Hrk r Hrin). symmetry. by apply Hlk. }
  cbn [mbind outcome_bind]. rewrite flat_map_concat_fmap. unfold merged, matching. f_equal. f_equal. unfold unmatched_right.
  destruct outer_r; [|done]. f_equal. apply filter_ext_elem. intros r Hrin. unfold run_unmatched_right.
  assert (∀ l, l ∈ l_run → match residual_ok residual out_schema (l.2 ++ r.2) with Ok b => b | _ => false end = entry_on l r) as Hon.
  { intros l Hlin. rewrite Hres by auto. unfold entry_on. by rewrite bool_decide_true by (by rewrite Hlk, Hrk). }
  assert (existsb (λ l, match residual_ok residual out_schema (l.2 ++ r.2) with Ok b => b | _ => false end) l_run = existsb (λ l, entry_on l r) l_run) as ->.
  { clear -Hon. induction l_run as [|l l_run IH]; [done|]. cbn. rewrite Hon by (by left). f_equal. apply IH. intros x Hx. apply Hon. by right. }
  destruct residual as [e|] eqn:Ee; [cbn; by rewrite negb_true_iff|]. cbn. split; [done|]. intros Hfalse. exfalso.
  destruct l_run as [|l l_run]; [done|]. cbn in Hfalse. apply orb_false_iff in Hfalse as [Hf _]. rewrite <- Hon in Hf by (by left). done.
Qed.
Lemma flat_map_singleton {A B} (f : A → B) l : flat_map (λ x, [f x]) l = f <$> l.
Proof. induction l as [|x l IH]; [done|]. cbn. by rewrite IH. Qed.

Lemma merged_nil_l rk : merged [] rk = unmatched_right outer_r left_len rk.
Proof. unfold merged, matching, unmatched_right. cbn. destruct outer_r; [|done]. by rewrite filter_all. Qed.

Lemma merged_nil_r lk : merged lk [] = unmatched_left outer_l right_len lk.
Proof.
  unfold merged, matching, unmatched_left. rewrite filter_nil. assert ((if outer_r then (λ r : entry, nulls left_len ++ r.2) <$> [] else []) = []) as -> by (by destruct outer_r).
  rewrite app_nil_r. destruct outer_l; [|by apply flat_map_nil]. exact (flat_map_singleton (λ l : entry, l.2 ++ nulls right_len) lk).
Qed.

(** Keys below all keys of the other side match nothing. *)
Lemma on_lt l r : l ∈ lall ++ rall → r ∈ lall ++ rall → key_cmp l.1 r.1 = Lt → entry_on l r = false ∧ entry_on r l = false.
Proof using Hcols Hkeys.
  intros Hl Hr Hlt. destruct (key_total l r Hl Hr) as [_ He]. unfold entry_on.
  assert (l.1 ≠ r.1) as Hne by (intros Heq; by rewrite (proj2 He Heq) in Hlt). by rewrite !bool_decide_false by congruence.
Qed.

(** Runs of one key on both sides, followed by larger keys. *)
Lemma runs_split k l_run r_run lk rk : l_run ++ lk ⊆ lall → r_run ++ rk ⊆ rall → k ∈ lall ++ rall →
  (∀ x, x ∈ l_run → x.1 = k.1) → (∀ x, x ∈ r_run → x.1 = k.1) →
  (∀ x, x ∈ lk → key_cmp k.1 x.1 = Lt) → (∀ x, x ∈ rk → key_cmp k.1 x.1 = Lt) →
  merged (l_run ++ lk) (r_run ++ rk) ≡ₚ merged l_run r_run ++ merged lk rk.
Proof using Type*.
  intros Hl Hr Hk Hlr Hrr Hlk Hrk. apply matching_split; intros x y Hx Hy.
  - apply (on_lt x y); [apply elem_of_app; left; apply Hl; set_solver|apply elem_of_app; right; apply Hr; set_solver|]. rewrite Hlr by done. by apply Hrk.
  - apply (on_lt y x); [apply elem_of_app; right; apply Hr; set_solver|apply elem_of_app; left; apply Hl; set_solver|]. rewrite Hrr by done. by apply Hlk.
Qed.

Lemma sorted_suffix a b : sorted (a ++ b) → sorted b.
Proof. induction a as [|x a IH]; [done|]. cbn. intros [Hs _]%StronglySorted_inv. by apply IH. Qed.

Lemma merge_loop_ok fuel : ∀ lk rk, lk ⊆ lall → rk ⊆ rall → sorted lk → sorted rk → (length lk + length rk < fuel)%nat →
  ∃ out, merge_loop outer_l outer_r left_len right_len residual out_schema fuel lk rk = Ok out ∧ out ≡ₚ merged lk rk.
Proof using Type*.
  induction fuel as [|fuel IH]; intros lk rk Hl Hr Hsl Hsr Hf; [lia|]. cbn [merge_loop].
  destruct lk as [|l lk]; [eexists; split; [done|]; rewrite merged_nil_l; unfold unmatched_left; by destruct outer_l|].
  destruct rk as [|r rk]; [eexists; split; [done|]; rewrite merged_nil_r; unfold unmatched_right; destruct outer_r; by rewrite app_nil_r|].
  assert (l :: lk ⊆ lall ++ rall) as Hl' by (intros x Hx; apply elem_of_app; left; by apply Hl).
  assert (r :: rk ⊆ lall ++ rall) as Hr' by (intros x Hx; apply elem_of_app; right; by apply Hr).
  assert (l ∈ lall ++ rall) as Hli by (apply Hl'; by left). assert (r ∈ lall ++ rall) as Hri by (apply Hr'; by left).
  pose proof Hsl as [Hsl' _]%StronglySorted_inv. pose proof Hsr as [Hsr' _]%StronglySorted_inv.
  assert (lk ⊆ lall) as Hlt by (intros x Hx; apply Hl; by right). assert (rk ⊆ rall) as Hrt by (intros x Hx; apply Hr; by right).
  destruct (key_total l r Hli Hri) as [Ho He]. rewrite Ho. pose proof (proj1 keys_ord l.1 r.1 ltac:(by apply list_elem_of_fmap_2) ltac:(by apply list_elem_of_fmap_2)) as Hanti.
  destruct (key_cmp l.1 r.1) eqn:Ecmp.
  - pose proof (proj1 He eq_refl) as Heq. destruct (take_run l.1 lk) as [l_run lk'] eqn:El. destruct (take_run r.1 rk) as [r_run rk'] eqn:Er.
    destruct (take_run_spec l lk l_run lk') as (-> & Hlr & Hlk); [done|intros x Hx; apply Hl'; by right|done| |done|].
    { intros x Hx. apply StronglySorted_inv in Hsl as [_ Hall]. rewrite Forall_forall in Hall. by apply Hall. }
    destruct (take_run_spec r rk r_run rk') as (-> & Hrr & Hrk); [done|intros x Hx; apply Hr'; by right|done| |done|].
    { intros x Hx. apply StronglySorted_inv in Hsr as [_ Hall]. rewrite Forall_forall in Hall. by apply Hall. }
    assert (∀ x, x ∈ l :: l_run → x.1 = l.1) as Hlr' by (intros x [->|Hx]%elem_of_cons; auto).
    assert (∀ x, x ∈ r :: r_run → x.1 = l.1) as Hrr' by (intros x [->|Hx]%elem_of_cons; rewrite Heq; auto).
    rewrite (merge_run_ok l.1) by (done || (intros x Hx; (apply Hl || apply Hr); set_solver)). cbn [mbind outcome_bind].
    destruct (IH lk' rk') as (out & -> & Hp); [intros x Hx; apply Hlt; set_solver|intros x Hx; apply Hrt; set_solver|by eapply sorted_suffix..| |].
    { cbn in Hf. rewrite !length_app in Hf. lia. }
    eexists. split; [done|]. rewrite Hp. symmetry. apply (runs_split l (l :: l_run) (r :: r_run)); try done. rewrite Heq. done.
  - destruct (IH lk (r :: rk)) as (out & -> & Hp); [done..|cbn in *; lia|]. eexists. split; [done|]. rewrite Hp, <- merged_nil_r.
    symmetry. apply (matching_split _ _ _ _ _ _ [l] lk [] (r :: rk)); [|by intros ? ? _ ?%elem_of_nil].
    intros x y ->%list_elem_of_singleton Hy. apply (on_lt l y); [done|by apply Hr'|]. by eapply (key_lt_all l r rk).
  - destruct (IH (l :: lk) rk) as (out & -> & Hp); [done..|cbn in *; lia|]. eexists. split; [done|]. rewrite Hp, <- merged_nil_l.
    symmetry. apply (matching_split _ _ _ _ _ _ [] (l :: lk) [r] rk); [by intros ? ? ?%elem_of_nil|].
    intros x y Hx ->%list_elem_of_singleton. apply (on_lt r x); [done|by apply Hl'|]. eapply (key_lt_all r l lk); try done. by destruct (key_cmp r.1 l.1).
Qed.

End merge.

(** ** Sort-merge join *)

Definition entries (key : row → list Literal) (rows : list row) : list entry :=
  flat_map (λ r, if existsb is_null (key r) then [] else [(key r, r)]) rows.

Lemma flat_map_entries {B} (F : entry → list B) key rows :
  flat_map F (entries key rows) = flat_map (λ r, if existsb is_null (key r) then [] else F (key r, r)) rows.
Proof.
  unfold entries. induction rows as [|r rows IH]; [done|]. cbn. rewrite flat_map_app, IH. destruct (existsb is_null (key r)); [done|]. cbn. by rewrite app_nil_r.
Qed.

Lemma elem_of_entries key rows e : e ∈ entries key rows ↔ ∃ r, e = (key r, r) ∧ r ∈ rows ∧ existsb is_null (key r) = false.
Proof.
  unfold entries. rewrite list_elem_of_In, in_flat_map. setoid_rewrite <- list_elem_of_In. split.
  - intros (r & Hr & He). destruct (existsb is_null (key r)) eqn:E; [by apply elem_of_nil in He|]. apply list_elem_of_singleton in He as ->. eauto.
  - intros (r & -> & Hr & Hn). exists r. split; [done|]. rewrite Hn. by apply list_elem_of_singleton.
Qed.

Section join.
Context {SJ : SerdeJson} `{!CaseTables, !UnicodeText, !FormatText} (left right : Batch).
Context (left_keys right_keys : list QExpr) (residual : option QExpr) (lkey rkey : row → list Literal) (res : row → bool) (columns : list ColumnDef).
Context (Hej : equi_join left right left_keys right_keys residual lkey rkey res columns).

Notation L := (b_rows left).
Notation R := (b_rows right).
Notation out_schema := (combined_schema (b_schema left) (b_schema right)).
Notation left_len := (length (b_schema left)).
Notation right_len := (length (b_schema right)).

Lemma keyed_ok batch keys key : (∀ r, r ∈ b_rows batch → key_of keys (b_schema batch) r = Ok (key r)) → keyed batch keys = Ok (entries key (b_rows batch)).
Proof.
  intros Hk. unfold keyed. rewrite (mapM_Ok _ (λ r, if existsb is_null (key r) then [] else [(key r, r)])).
  - cbn. by rewrite flat_map_concat_fmap.
  - intros r Hr. by rewrite Hk.
Qed.

Lemma on_entry l r : l ∈ L → r ∈ R → existsb is_null (lkey l) = false →
  entry_on res (lkey l, l) (rkey r, r) = equi_on lkey rkey res l r.
Proof using Hej.
  intros Hl Hr Hn. unfold entry_on, equi_on. cbn [fst snd].
  destruct Hej as [_ _ _ Hlt Hrt Hty]. rewrite (keys_equal_typed columns) by auto. by rewrite Hn.
Qed.

Lemma on_null l r : l ∈ L → r ∈ R → existsb is_null (lkey l) = true ∨ existsb is_null (rkey r) = true → equi_on lkey rkey res l r = false.
Proof using Hej.
  intros Hl Hr Hn. unfold equi_on. destruct Hej as [_ _ _ Hlt Hrt Hty]. rewrite (keys_equal_typed columns) by auto.
  destruct (decide (lkey l = rkey r)) as [He|He]; [|by rewrite (bool_decide_false _ He), andb_false_r].
  rewrite <- He in Hn. by destruct Hn as [->| ->].
Qed.

Lemma matches_entries l : l ∈ L → existsb is_null (lkey l) = false →
  (λ e : entry, l ++ e.2) <$> filter (λ e, entry_on res (lkey l, l) e = true) (entries rkey R) = app l <$> filter (λ r, equi_on lkey rkey res l r = true) R.
Proof using Hej.
  intros Hl Hn. rewrite !fmap_filter_flat_map, flat_map_entries. apply flat_map_ext_elem. intros r Hr.
  destruct (existsb is_null (rkey r)) eqn:Er; [by rewrite on_null by auto|]. by rewrite on_entry.
Qed.

Lemma matched_entries r : r ∈ R → existsb (λ l, entry_on res l (rkey r, r)) (entries lkey L) = existsb (λ l, equi_on lkey rkey res l r) L.
Proof using Hej.
  intros Hr. apply eq_true_iff_eq. rewrite !existsb_exists. setoid_rewrite <- list_elem_of_In. split.
  - intros (e & (l & -> & Hl & Hn)%elem_of_entries & Hon). exists l. rewrite on_entry in Hon by done. done.
  - intros (l & Hl & Hon). exists (lkey l, l). destruct (existsb is_null (lkey l)) eqn:En; [by rewrite on_null in Hon by auto|].
    split; [apply elem_of_entries; eauto|]. by rewrite on_entry.
Qed.

Lemma merged_reference jt :
  (outer_left jt = true → ∀ l, l ∈ L → existsb is_null (lkey l) = false) →
  (outer_right jt = true → ∀ r, r ∈ R → existsb is_null (rkey r) = false) →
  merged (outer_left jt) (outer_right jt) left_len right_len res (entries lkey L) (entries rkey R) =
  reference_join jt (equi_on lkey rkey res) left_len right_len L R.
Proof using Hej.
  intros HL HR. unfold merged, matching, reference_join. f_equal.
  - rewrite flat_map_entries. apply flat_map_ext_elem. intros l Hl. cbn [fst snd]. destruct (existsb is_null (lkey l)) eqn:En.
    + rewrite filter_none by (intros r Hr; by rewrite on_null by auto). unfold or_unmatched.
      destruct (outer_left jt); [|by rewrite andb_false_r]. by rewrite HL in En.
    + by rewrite matches_entries.
  - destruct (outer_right jt) eqn:Eo; [|done].
    assert (entries rkey R = (λ r, (rkey r, r)) <$> R) as HE.
    { unfold entries. rewrite <- flat_map_singleton. apply flat_map_ext_elem. intros r Hr. by rewrite HR. }
    rewrite HE. assert (∀ rows, rows ⊆ R → (λ e : entry, nulls left_len ++ e.2) <$> filter (λ e, existsb (λ l, entry_on res l e) (entries lkey L) = false) ((λ r, (rkey r, r)) <$> rows) =
      app (nulls left_len) <$> filter (λ r, existsb (λ l, equi_on lkey rkey res l r) L = false) rows) as Hgo; [|by apply Hgo].
    induction rows as [|r rows IH]; intros Hs; [done|]. rewrite fmap_cons, !filter_cons, matched_entries by (apply Hs; by left).
    destruct (decide (existsb (λ l, equi_on lkey rkey res l r) L = false)); rewrite ?fmap_cons, IH by (intros x Hx; apply Hs; by right); done.
Qed.

Lemma merge_join_ok jt : Forall (λ c, is_Some (kind_of (col_ty c))) columns →
  (outer_left jt = true → ∀ l, l ∈ L → existsb is_null (lkey l) = false) →
  (outer_right jt = true → ∀ r, r ∈ R → existsb is_null (rkey r) = false) →
  ∃ rows, merge_join left right jt left_keys right_keys residual = Ok (mkBatch out_schema rows) ∧
    rows ≡ₚ reference_join jt (equi_on lkey rkey res) left_len right_len L R.
Proof using Hej.
  intros Hc HL HR. unfold merge_join. rewrite (keyed_ok left left_keys lkey) by apply Hej. cbn [mbind outcome_bind].
  rewrite (keyed_ok right right_keys rkey) by apply Hej. cbn [mbind outcome_bind].
  set (lk := entries lkey L). set (rk := entries rkey R).
  assert (∀ e, e ∈ lk ++ rk → ordered_key columns e.1) as Hkeys.
  { intros e [(l & -> & Hl & Hn)%elem_of_entries|(r & -> & Hr & Hn)%elem_of_entries]%elem_of_app; (split; [by apply Hej|done]). }
  assert (ord_on keyed_cmp (lk ++ rk)) as Ho.
  { apply (ord_on_map fst key_cmp), (key_cmp_ord columns); [done|]. intros k (e & -> & He)%list_elem_of_fmap. by apply Hkeys. }
  destruct (merge_loop_ok (outer_left jt) (outer_right jt) left_len right_len residual out_schema columns res lk rk Hc Hkeys) with
    (fuel := S (length lk + length rk)) (lk := sort_by keyed_cmp lk) (rk := sort_by keyed_cmp rk) as (out & Hout & Hp).
  - intros l r (l' & -> & Hl & _)%elem_of_entries (r' & -> & Hr & _)%elem_of_entries. by apply Hej.
  - intros e. by rewrite sort_by_perm.
  - intros e. by rewrite sort_by_perm.
  - apply sort_by_sorted. eapply ord_on_subset, Ho. set_solver.
  - apply sort_by_sorted. eapply ord_on_subset, Ho. set_solver.
  - rewrite !(Permutation_length (sort_by_perm _ _)). lia.
  - exists out. split; [unfold outer_left, outer_right in Hout; by rewrite Hout|]. rewrite Hp. rewrite <- (merged_reference jt HL HR).
    apply matching_perm; apply sort_by_perm.
Qed.

End join.

(** C36: Whichever algorithm the planner takes, an equi-join is the same relation: every pair
    of rows whose keys are equal and whose residual condition holds, and for LEFT and RIGHT
    the rows without a partner extended with NULLs. Nested loops return exactly this list;
    the hash join, in memory, on the integer fast path or partitioned through files, and
    the sort-merge join return it up to the order of rows. The sort-merge join needs keys
    of an ordered type and, on a side that is outer, keys that are not NULL. *)
Theorem join_algorithms_exact `{!SerdeJson, !CaseTables, !UnicodeText, !FormatText, !SpillCodec} (io : SpillCall → option DbError)
    (left right : Batch) (jt : JoinType) (left_keys right_keys : list QExpr) (residual : option QExpr)
    (lkey rkey : row → list Literal) (res : row → bool) (columns : list ColumnDef) (mem_rows : nat) :
  equi_join left right left_keys right_keys residual lkey rkey res columns →
  (∀ call, io call = None) → Forall spill_exact (b_rows left) → Forall spill_exact (b_rows right) → jt ≠ JFullOuter →
  let out_schema := combined_schema (b_schema left) (b_schema right) in
  let reference := reference_join jt (equi_on lkey rkey res) (length (b_schema left)) (length (b_schema right)) (b_rows left) (b_rows right) in
  (∃ rows, hash_join io left right jt left_keys right_keys residual mem_rows = Ok (mkBatch out_schema rows) ∧ rows ≡ₚ reference) ∧
  (Forall (λ c, is_Some (kind_of (col_ty c))) columns →
   (outer_left jt = true → ∀ l, l ∈ b_rows left → existsb is_null (lkey l) = false) →
   (outer_right jt = true → ∀ r, r ∈ b_rows right → existsb is_null (rkey r) = false) →
   ∃ rows, merge_join left right jt left_keys right_keys residual = Ok (mkBatch out_schema rows) ∧ rows ≡ₚ reference) ∧
  (∀ cond, (∀ l r, l ∈ b_rows left → r ∈ b_rows right → on_ok cond out_schema (l ++ r) = Ok (equi_on lkey rkey res l r)) →
   nested_loop_join left right jt cond = Ok (mkBatch out_schema reference)).
Proof.
  intros Hej Hio HL HR Hjt. split_and!.
  - by eapply hash_join_ok.
  - intros. by eapply merge_join_ok.
  - intros cond Hcond. by apply nested_loop_exact.
Qed.

(** C@: A FULL OUTER join, which the planner always runs as a sort-merge join, loses the rows
    whose key is NULL, although they are unmatched rows of an outer side: with no right
    row at all, left rows with NULL keys all disappear, where nested loops return each of
    them extended with NULLs. *)
Theorem full_outer_loses_rows `{!SerdeJson, !CaseTables, !UnicodeText, !FormatText} (left right : Batch) (left_keys right_keys : list QExpr)
    (residual : option QExpr) (lkey : row → list Literal) :
  (∀ l, l ∈ b_rows left → key_of left_keys (b_schema left) l = Ok (lkey l) ∧ existsb is_null (lkey l) = true) → b_rows right = [] →
  let out_schema := combined_schema (b_schema left) (b_schema right) in
  merge_join left right JFullOuter left_keys right_keys residual = Ok (mkBatch out_schema []) ∧
  nested_loop_join left right JFullOuter residual =
    Ok (mkBatch out_schema ((λ l, l ++ nulls (length (b_schema right))) <$> b_rows left)).
Proof.
  intros Hl Hr out_schema. split.
  - unfold merge_join. rewrite (keyed_ok left left_keys lkey) by (intros; by apply Hl). cbn [mbind outcome_bind].
    assert (entries lkey (b_rows left) = []) as -> by (apply flat_map_nil; intros l Hin; by rewrite (proj2 (Hl l Hin))).
    unfold keyed. by rewrite Hr.
  - rewrite (nested_loop_exact left right JFullOuter residual (λ _ _, false)) by (rewrite Hr; by intros ? ? _ ?%elem_of_nil).
    unfold reference_join. rewrite Hr. cbn [outer_left outer_right filter fmap list_fmap]. rewrite app_nil_r.
    rewrite <- flat_map_singleton. done.
Qed.

(** ** Example *)

#[local] Existing Instances no_json ascii_tables ascii_text bits_text int_codec.

Definition orders : Batch := mkBatch [mkColumnRef "o" "customer" TInt64; mkColumnRef "o" "total" TInt64]
  [[LInt 1; LInt 10]; [LInt 2; LInt 20]; [LNull; LInt 30]; [LInt 1; LInt 40]].
Definition customers : Batch := mkBatch [mkColumnRef "c" "id" TInt64] [[LInt 3]; [LInt 1]].
Definition order_key : QExpr := QColumn (Some "o") "customer".
Definition customer_key : QExpr := QColumn (Some "c") "id".
Definition first_column (r : row) : list Literal := [nth 0 r LNull].

Ltac each_row Hr := repeat (apply elem_of_cons in Hr as [->|Hr]); [..|by apply elem_of_nil in Hr].

Lemma demo_equi_join : equi_join orders customers [order_key] [customer_key] None first_column first_column (λ _, true) [plain_column "k" TInt64].
Proof.
  split.
  - intros l Hl. cbn in Hl. each_row Hl; done.
  - intros l Hl. cbn in Hl. each_row Hl; done.
  - done.
  - intros l Hl. cbn in Hl. each_row Hl; (apply Forall2_cons; split; [by split|by apply Forall2_nil]).
  - intros l Hl. cbn in Hl. each_row Hl; (apply Forall2_cons; split; [by split|by apply Forall2_nil]).
  - by apply Forall_singleton.
Qed.

Lemma demo_spill : Forall spill_exact (b_rows orders) ∧ Forall spill_exact (b_rows customers).
Proof.
  split; apply Forall_forall; intros r Hr; cbn in Hr; each_row Hr; eexists;
    (split; [reflexivity|]; split; [done|]; do 2 (split; [apply (bool_decide_unpack _); vm_compute; exact I|]); by split; vm_compute).
Qed.

Lemma join_algorithms_exact_witness :
  hash_join (λ _, None) orders customers JLeft [order_key] [customer_key] None 1 =
    Ok (mkBatch (combined_schema (b_schema orders) (b_schema customers))
          [[LNull; LInt 30; LNull]; [LInt 1; LInt 10; LInt 1]; [LInt 1; LInt 40; LInt 1]; [LInt 2; LInt 20; LNull]]) ∧
  ∃ rows, hash_join (λ _, None) orders customers JLeft [order_key] [customer_key] None 1 =
      Ok (mkBatch (combined_schema (b_schema orders) (b_schema customers)) rows) ∧
    rows ≡ₚ reference_join JLeft (equi_on first_column first_column (λ _, true)) 2 1 (b_rows orders) (b_rows customers).
Proof.
  split; [vm_compute; reflexivity|].
  exact (proj1 (join_algorithms_exact (λ _, None) orders customers JLeft [order_key] [customer_key] None first_column first_column (λ _, true)
    [plain_column "k" TInt64] 1 demo_equi_join (λ _, eq_refl) (proj1 demo_spill) (proj2 demo_spill) ltac:(done))).
Defined.

Lemma full_outer_loses_rows_witness :
  let left := mkBatch (b_schema orders) [[LNull; LInt 30]] in let right := mkBatch (b_schema customers) [] in
  merge_join left right JFullOuter [order_key] [customer_key] None = Ok (mkBatch (combined_schema (b_schema left) (b_schema right)) []) ∧
  nested_loop_join left right JFullOuter None = Ok (mkBatch (combined_schema (b_schema left) (b_schema right)) [[LNull; LInt 30; LNull]]).
Proof.
  cbv zeta. apply (full_outer_loses_rows (mkBatch (b_schema orders) [[LNull; LInt 30]]) (mkBatch (b_schema customers) []) [order_key] [customer_key] None first_column).
  - by intros l ->%list_elem_of_singleton.
  - done.
Defined.
