(* ===== verification/SqlWindow.v ===== *)
(** Window functions ([src/sql/query_exec.rs]): partitions, the order inside a partition,
    ranking, offsets and whole-partition aggregates; ranks against their definition by
    counting. *)

From stdpp Require Import base numbers sets list gmap strings sorting.
From Stdlib Require Import Lia.
From S2P Require Import Prelude SortBy Format BTreeNode BTree Text Float Datetime SqlTypes SqlValue SqlValueProps SqlRow SqlExpr SqlQuery SqlSort SqlJoin.

Record ProjItem := mkProjItem { pi_expr : QExpr; pi_name : string }.

Definition is_window (e : QExpr) : bool := match e with QWindow _ _ => true | _ => false end.

(** ** Arithmetic *)

(** NULL is the identity. The sums wrap at the width of their type. *)
Definition window_add (acc val : Literal) : Result Literal :=
  match acc, val with
  | LNull, _ => Ok val
  | _, LNull => Ok acc
  | LInt a, LInt b => Ok (LInt (wrap_i64 (a + b)))
  | LFloat a, LFloat b => Ok (LFloat (f64_add a b))
  | LInt a, LFloat b => Ok (LFloat (f64_add (f64_of_int a) b))
  | LFloat a, LInt b => Ok (LFloat (f64_add a (f64_of_int b)))
  | LDecimal am sa, LDecimal bm sb =>
      if decide (sa = sb) then Ok (LDecimal (wrap_i128 (am + bm)) sa)
      else Ok (LFloat (f64_add (f64_div (f64_of_int am) (f64_powi f64_ten sa)) (f64_div (f64_of_int bm) (f64_powi f64_ten sb))))
  | _, _ => Err (SqlUnsupported "SUM/AVG window function requires numeric values")
  end.

Definition window_div (sum : Literal) (count : Z) : Result Literal :=
  if decide (count = 0) then Ok LNull
  else match sum with
  | LInt n => Ok (LFloat (f64_div (f64_of_int n) (f64_of_int count)))
  | LFloat f => Ok (LFloat (f64_div f (f64_of_int count)))
  | LDecimal m s => Ok (LFloat (f64_div (f64_div (f64_of_int m) (f64_powi f64_ten s)) (f64_of_int count)))
  | LNull => Ok LNull
  | _ => Err (SqlUnsupported "AVG window function requires numeric values")
  end.

(** ** Order inside a partition *)

(** The comparison of the sort: NULL is neither below nor above anything. *)
Fixpoint window_cmp (ka kb : list Literal) (ascs : list bool) : Result comparison :=
  match ascs, ka, kb with
  | asc :: ascs, la :: ka, lb :: kb =>
      is_lt ← compare CLt la lb;
      if (is_lt : bool) then Ok (if (asc : bool) then Lt else Gt)
      else
        is_gt ← compare CGt la lb;
        if (is_gt : bool) then Ok (if (asc : bool) then Gt else Lt) else window_cmp ka kb ascs
  | _, _, _ => Ok Eq
  end.

Definition cmp_or_eq (c : Result comparison) : comparison := match c with Ok o => o | _ => Eq end.

(** The first error among the comparisons, if any. *)
Fixpoint first_error {A} (l : list (Result A)) : option DbError :=
  match l with [] => None | Err e :: _ => Some e | _ :: l => first_error l end.

Section windows.
Context `{!SerdeJson, !CaseTables, !UnicodeText, !FormatText}.

(** Row indices by equal PARTITION BY key, the groups in the order first seen. *)
Definition partition_step (schema : list ColumnRef) (partition_by : list QExpr) (s : list (list Z) * gmap (list Z) (list nat)) (p : nat * row)
    : Result (list (list Z) * gmap (list Z) (list nat)) :=
  key_vals ← mapM (λ e, eval_qexpr e schema p.2) partition_by;
  let key_bytes := encode_row key_vals in
  match s.2 !! key_bytes with
  | Some group => Ok (s.1, <[key_bytes := group ++ [p.1]]> s.2)
  | None => Ok (s.1 ++ [key_bytes], <[key_bytes := [p.1]]> s.2)
  end.

Definition partition_rows (rows : list row) (schema : list ColumnRef) (partition_by : list QExpr) : Result (list (list nat)) :=
  match partition_by with
  | [] => Ok [seq 0 (length rows)]
  | _ =>
      s ← for_each (partition_step schema partition_by) ([], ∅) (imap pair rows);
      mapM (λ k, match s.2 !! k with Some group => Ok group | None => Panic end) s.1
  end.

Definition order_keys (schema : list ColumnRef) (order_by : list (QExpr * bool)) (r : row) : Result (list Literal) :=
  mapM (λ k, eval_qexpr k.1 schema r) order_by.

(** The indices with their keys, sorted. A comparison of two rows that fails fails the
    sort; which pairs the sort of the standard library compares is not specified, all are
    taken to be. *)
Definition sort_partition_indices (group : list nat) (rows : list row) (schema : list ColumnRef) (order_by : list (QExpr * bool))
    : Result (list nat) :=
  match order_by with
  | [] => Ok group
  | _ =>
      keyed ← mapM (λ i, r ← index rows (Z.of_nat i); k ← order_keys schema order_by r; Ok (i, k)) group;
      match first_error (flat_map (λ a, (λ b, window_cmp a.2 b.2 order_by.*2) <$> filter (λ b, b.1 ≠ a.1) keyed) keyed) with
      | Some e => Err e
      | None => Ok (sort_by (λ a b, cmp_or_eq (window_cmp a.2 b.2 order_by.*2)) keyed).*1
      end
  end.

Fixpoint order_keys_equal (row_a row_b : row) (schema : list ColumnRef) (order_by : list (QExpr * bool)) : Result bool :=
  match order_by with
  | [] => Ok true
  | (e, _) :: order_by =>
      va ← eval_qexpr e schema row_a;
      vb ← eval_qexpr e schema row_b;
      eq ← compare CEq va vb;
      if (eq : bool) then order_keys_equal row_a row_b schema order_by else Ok false
  end.

(** ** Values *)

Section partition.
Context (input : Batch) (over_order : list (QExpr * bool)) (sorted : list nat).

Definition row_at (pos : nat) : Result row := i ← index sorted (Z.of_nat pos); index (b_rows input) (Z.of_nat i).

(** RANK: back to the first row with the key of the current one. *)
Fixpoint rank_walk (pos : nat) (cur : row) : Result nat :=
  match pos with
  | O => Ok O
  | S before =>
      prev ← row_at before;
      same ← order_keys_equal prev cur (b_schema input) over_order;
      if (same : bool) then rank_walk before cur else Ok pos
  end.

(** DENSE_RANK: the changes of the key up to the position. *)
Fixpoint dense_walk (pos : nat) : Result Z :=
  match pos with
  | O => Ok 1
  | S before =>
      d ← dense_walk before;
      prev ← row_at before;
      cur ← row_at pos;
      same ← order_keys_equal prev cur (b_schema input) over_order;
      Ok (if (same : bool) then d else d + 1)
  end.

(** A loop over the values of an argument. *)
Definition fold_arg {S} (e : QExpr) (f : S → Literal → Result S) (s : S) : Result S :=
  for_each (λ s i, r ← index (b_rows input) (Z.of_nat i); v ← eval_qexpr e (b_schema input) r; f s v) s sorted.

(** MIN and MAX: [op] is the comparison that replaces. *)
Definition extreme_step (op : CmpOp) (acc : option Literal) (v : Literal) : Result (option Literal) :=
  if is_null v then Ok acc
  else match acc with
  | None => Ok (Some v)
  | Some cur => better ← compare op v cur; Ok (Some (if (better : bool) then v else cur))
  end.

Definition avg_step (s : Literal * Z) (v : Literal) : Result (Literal * Z) :=
  if is_null v then Ok s else sum ← window_add s.1 v; Ok (sum, s.2 + 1).

(** The aggregate of the whole partition, for the functions that broadcast one. *)
Definition partition_agg (func : WindowFunc) : Result (option Literal) :=
  match func with
  | WSum e => s ← fold_arg e window_add LNull; Ok (Some s)
  | WAvg e => s ← fold_arg e avg_step (LNull, 0); if decide (s.2 = 0) then Ok (Some LNull) else v ← window_div s.1 s.2; Ok (Some v)
  | WCount => Ok (Some (LInt (zlen sorted)))
  | WMin e => acc ← fold_arg e (extreme_step CLt) None; Ok (Some (default LNull acc))
  | WMax e => acc ← fold_arg e (extreme_step CGt) None; Ok (Some (default LNull acc))
  | _ => Ok None
  end.

(** [offset as usize], and the sum of two [usize]. *)
Definition as_usize (n : Z) : Z := n mod 2 ^ 64.

Definition window_value (func : WindowFunc) (agg : option Literal) (pos : nat) (cur : row) : Result Literal :=
  match func with
  | WSum _ | WAvg _ | WCount | WMin _ | WMax _ => Ok (default LNull agg)
  | WRowNumber => Ok (LInt (Z.of_nat pos + 1))
  | WRank => first ← rank_walk pos cur; Ok (LInt (Z.of_nat first + 1))
  | WDenseRank => d ← dense_walk pos; Ok (LInt d)
  | WLag e offset =>
      if decide (Z.of_nat pos < as_usize offset) then Ok LNull
      else r ← row_at (pos - Z.to_nat (as_usize offset)); eval_qexpr e (b_schema input) r
  | WLead e offset =>
      let target := as_usize (Z.of_nat pos + as_usize offset) in
      if decide (zlen sorted ≤ target) then Ok LNull
      else r ← row_at (Z.to_nat target); eval_qexpr e (b_schema input) r
  end.

(** The value of every row of the partition, by row index. *)
Definition partition_values (func : WindowFunc) : Result (list (nat * Literal)) :=
  agg ← partition_agg func;
  mapM (λ p : nat * nat, cur ← index (b_rows input) (Z.of_nat p.2); v ← window_value func agg p.1 cur; Ok (p.2, v)) (imap pair sorted).

End partition.

(** The synthetic column of one window function. *)
Definition window_column (input : Batch) (func : WindowFunc) (partition_by : list QExpr) (order_by : list (QExpr * bool))
    : Result (gmap nat Literal) :=
  groups ← partition_rows (b_rows input) (b_schema input) partition_by;
  vals ← mapM (λ group,
    sorted ← sort_partition_indices group (b_rows input) (b_schema input) order_by;
    partition_values input order_by sorted func) groups;
  Ok (list_to_map (concat vals)).

(** Window items read their column, the others are evaluated on the input row by [eval]. *)
Definition exec_window_projection (eval : QExpr → list ColumnRef → row → Result Literal) (input : Batch) (items : list ProjItem) (output : list ColumnRef)
    : Result Batch :=
  columns ← mapM (λ it, match pi_expr it with
                        | QWindow func (mkWindowSpec partition_by order_by) => c ← window_column input func partition_by order_by; Ok (Some c)
                        | _ => Ok None
                        end) items;
  rows ← mapM (λ p : nat * row,
    mapM (λ ic : ProjItem * option (gmap nat Literal),
      match ic.2 with
      | Some c => Ok (default LNull (c !! p.1))
      | None => eval (pi_expr ic.1) (b_schema input) p.2
      end) (zip items columns)) (imap pair (b_rows input));
  Ok (mkBatch output rows).

End windows.
