(* ===== verification/SqlWindowProps.v ===== *)
(** Ranking functions by counting: ROW_NUMBER, RANK and DENSE_RANK of a row are determined
    by the rows of its partition that come before it. *)

From stdpp Require Import base numbers sets list gmap strings sorting.
From Stdlib Require Import Lia.
From S2P Require Import Prelude SortBy Format BTreeNode BTree Text Float Datetime SqlTypes SqlValue SqlValueProps SqlRow SqlRowProps SqlExpr SqlQuery SqlSort SqlJoin SqlJoinProps SqlMergeProps SqlWindow.

(** ** Sorting mapped lists *)

Lemma insert_by_fmap {A B} (cmp : B → B → comparison) (f : A → B) x l :
  insert_by cmp (f x) (f <$> l) = f <$> insert_by (λ a b, cmp (f a) (f b)) x l.
Proof. induction l as [|y l IH]; [done|]. cbn. destruct (cmp (f y) (f x)); cbn; try done; f_equal; exact IH. Qed.

Lemma sort_by_fmap {A B} (cmp : B → B → comparison) (f : A → B) l : sort_by cmp (f <$> l) = f <$> sort_by (λ a b, cmp (f a) (f b)) l.
Proof.
  induction l as [|x l IH]; [done|]. change (f <$> x :: l) with (f x :: (f <$> l)).
  change (insert_by cmp (f x) (sort_by cmp (f <$> l)) = f <$> insert_by (λ a b, cmp (f a) (f b)) x (sort_by (λ a b, cmp (f a) (f b)) l)).
  rewrite IH. apply insert_by_fmap.
Qed.

(** ** Directed keys *)

Fixpoint dir_cmp (ascs : list bool) (ka kb : list Literal) : comparison :=
  match ascs, ka, kb with
  | asc :: ascs, x :: a, y :: b => then_cmp ((if (asc : bool) then id else CompOpp) (bytes_cmp (content x) (content y))) (dir_cmp ascs a b)
  | _, _, _ => Eq
  end.

Lemma compare_plain op l r k a b : plain l = Some (k, a) → plain r = Some (k, b) → compare op l r = Ok (apply_cmp op (bytes_cmp a b)).
Proof. intros Hl Hr. destruct l; try done; destruct r; try done; simplify_eq/=; f_equal; f_equal; match goal with |- ?c = _ => destruct c end; done. Qed.

Section keys.
Context (columns : list ColumnDef) (Hcols : Forall (λ c, is_Some (kind_of (col_ty c))) columns).

Lemma window_cmp_ok ascs a b : ordered_key columns a → ordered_key columns b → window_cmp a b ascs = Ok (dir_cmp ascs a b).
Proof using Hcols.
  revert ascs a b. induction Hcols as [|c cs [k Hk] Hc IH]; intros ascs a b Ha Hb.
  - destruct Ha as [Ha _]. apply Forall2_nil_inv_l in Ha as ->. by destruct ascs.
  - destruct (ordered_key_cons _ _ _ Ha) as (x & a' & -> & Hx & Hnx & Ha'). destruct (ordered_key_cons _ _ _ Hb) as (y & b' & -> & Hy & Hny & Hb').
    destruct ascs as [|asc ascs]; [done|]. cbn [window_cmp dir_cmp].
    rewrite !(compare_plain _ x y k (content x) (content y)) by (by eapply typed_plain). cbn [mbind outcome_bind].
    destruct (bytes_cmp (content x) (content y)), asc; cbn; try done; by apply IH.
Qed.

Lemma dir_cmp_eq ascs a b : length ascs = length columns → ordered_key columns a → ordered_key columns b → dir_cmp ascs a b = Eq ↔ a = b.
Proof using Hcols.
  revert ascs a b. induction Hcols as [|c cs Hk Hc IH]; intros ascs a b Hl Ha Hb.
  - destruct Ha as [Ha _], Hb as [Hb _]. apply Forall2_nil_inv_l in Ha as ->. apply Forall2_nil_inv_l in Hb as ->. by destruct ascs.
  - destruct (ordered_key_cons _ _ _ Ha) as (x & a' & -> & Hx & Hnx & Ha'). destruct (ordered_key_cons _ _ _ Hb) as (y & b' & -> & Hy & Hny & Hb').
    destruct ascs as [|asc ascs]; [done|]. injection Hl as Hl. cbn [dir_cmp]. specialize (IH Hc ascs a' b' Hl Ha' Hb').
    pose proof (bytes_cmp_eq (content x) (content y)) as He. split.
    + intros Heq. assert (bytes_cmp (content x) (content y) = Eq) as Hxy by (by destruct asc, (bytes_cmp (content x) (content y))).
      rewrite Hxy in Heq. assert (x = y) as -> by (by eapply plain_inj; [..|apply He]). f_equal. apply IH. by destruct asc.
    + intros [= -> ->]. rewrite (proj2 He eq_refl). destruct asc; by apply IH.
Qed.

Lemma dir_cmp_ord ascs ks : length ascs = length columns → (∀ k, k ∈ ks → ordered_key columns k) → ord_on (dir_cmp ascs) ks.
Proof using Hcols.
  revert ascs ks. induction Hcols as [|c cs Hk Hc IH]; intros ascs ks Hl Hks.
  - eapply ord_on_ext; [|apply (ord_on_trivial ks)]. intros a b _ _. by destruct ascs.
  - destruct ascs as [|asc ascs]; [done|]. injection Hl as Hl.
    apply (ord_on_ext (λ a b, then_cmp ((if asc then id else CompOpp) (bytes_cmp (content (hd LNull a)) (content (hd LNull b)))) (dir_cmp ascs (tail a) (tail b)))).
    + intros a b Ha%Hks Hb%Hks. destruct (ordered_key_cons _ _ _ Ha) as (x & a' & -> & _). by destruct (ordered_key_cons _ _ _ Hb) as (y & b' & -> & _).
    + apply ord_on_then.
      * assert (ord_on (λ a b, bytes_cmp (content (hd LNull a)) (content (hd LNull b))) ks) as Ho by (apply (ord_on_map (λ a, content (hd LNull a))), bytes_cmp_ord).
        destruct asc; [done|by apply ord_on_opp].
      * apply (ord_on_map tail), IH; [done|done|]. intros k (k' & -> & Hk')%list_elem_of_fmap.
        by destruct (ordered_key_cons _ _ _ (Hks k' Hk')) as (x & a & -> & _ & _ & Ha).
Qed.

End keys.

(** ** Distinct elements *)

Lemma distinct_length {A} `{EqDecision A} (l m : list A) : NoDup m → (∀ x, x ∈ m ↔ x ∈ l) → length (remove_dups l) = length m.
Proof.
  intros Hm Hl. apply Permutation_length, NoDup_Permutation; [apply NoDup_remove_dups|done|]. intros x. by rewrite elem_of_remove_dups, Hl.
Qed.

Lemma remove_dups_snoc_length {A} `{EqDecision A} (l : list A) x :
  length (remove_dups (l ++ [x])) = (length (remove_dups l) + if decide (x ∈ l) then 0 else 1)%nat.
Proof.
  case_decide as Hx.
  - rewrite Nat.add_0_r. apply distinct_length; [apply NoDup_remove_dups|]. intros y. rewrite elem_of_remove_dups. set_solver.
  - rewrite (distinct_length _ (x :: remove_dups l)); [cbn; lia| |].
    + constructor; [by rewrite elem_of_remove_dups|apply NoDup_remove_dups].
    + intros y. rewrite elem_of_cons, elem_of_remove_dups. set_solver.
Qed.

Lemma filter_length_split {A} (P : A → Prop) `{!∀ x, Decision (P x)} (l : list A) :
  (length (filter P l) + length (filter (λ x, ¬ P x) l))%nat = length l.
Proof.
  induction l as [|x l IH]; [done|]. destruct (decide (P x)).
  - rewrite filter_cons_True, (filter_cons_False (λ x, ¬ P x)) by (done || tauto). cbn. lia.
  - rewrite filter_cons_False, (filter_cons_True (λ x, ¬ P x)) by (done || tauto). cbn. lia.
Qed.

Lemma StronglySorted_filter {A} (R : A → A → Prop) (P : A → Prop) `{!∀ x, Decision (P x)} (l : list A) :
  StronglySorted R l → StronglySorted R (filter P l).
Proof.
  induction 1 as [|x l Hs IH Hx]; [constructor|]. destruct (decide (P x)).
  - rewrite filter_cons_True by done. constructor; [done|]. rewrite Forall_forall in *. intros y [_ Hy]%list_elem_of_filter. by apply Hx.
  - by rewrite filter_cons_False by done.
Qed.

(** ** Positions of a sorted partition *)

Section positions.
Context {A} `{EqDecision A} (K : nat → A) (cmp : A → A → comparison) (group : list nat).
Notation C i j := (cmp (K i) (K j)).
Context (Hord : ord_on (λ i j, C i j) group).
Context (Hinj : ∀ i j, i ∈ group → j ∈ group → C i j = Eq ↔ K i = K j).

Definition sorted_group : list nat := sort_by (λ i j, C i j) group.

Lemma sorted_group_elem i : i ∈ sorted_group ↔ i ∈ group.
Proof. unfold sorted_group. by rewrite sort_by_perm. Qed.

Lemma sorted_group_le p q i j : (p < q)%nat → sorted_group !! p = Some i → sorted_group !! q = Some j → C i j ≠ Gt.
Proof using Hord.
  intros Hpq Hi Hj. pose proof (sort_by_sorted _ _ Hord) as Hs. fold sorted_group in Hs.
  rewrite <- (take_drop_middle _ _ _ Hi) in Hs, Hj. apply StronglySorted_app in Hs as (_ & _ & Hs).
  inversion Hs as [|? ? _ Hall]; subst. rewrite lookup_app_r in Hj; rewrite length_take_le in *; try (apply lookup_lt_Some in Hi; lia).
  rewrite Forall_forall in Hall. apply Hall. destruct (q - p)%nat as [|n] eqn:E; [lia|]. cbn in Hj. by eapply list_elem_of_lookup_2.
Qed.

Lemma sorted_group_opp i j : i ∈ group → j ∈ group → C i j = CompOpp (C j i).
Proof using Hord. intros. by apply (proj1 Hord). Qed.

Lemma take_elem p j : j ∈ take p sorted_group → ∃ q, (q < p)%nat ∧ sorted_group !! q = Some j.
Proof. intros (q & Hq)%list_elem_of_lookup_1. apply lookup_take_Some in Hq as [Hq ?]. by exists q. Qed.

(** The rows strictly before a row precede it. *)
Lemma before_prefix p i : sorted_group !! p = Some i →
  length (filter (λ j, C j i = Lt) group) = length (filter (λ j, C j i = Lt) (take p sorted_group)).
Proof using Hord.
  intros Hi. rewrite <- (sort_by_perm (λ i j, C i j) group) at 1. fold sorted_group.
  rewrite <- (take_drop p sorted_group) at 1. rewrite filter_app, (filter_none _ (drop p sorted_group)), app_nil_r; [done|].
  intros j (q & Hq)%list_elem_of_lookup_1 Hlt. rewrite lookup_drop in Hq.
  assert (i ∈ group ∧ j ∈ group) as [Hig Hjg] by (split; apply sorted_group_elem; by eapply list_elem_of_lookup_2).
  destruct q as [|q]; [rewrite Nat.add_0_r, Hi in Hq; injection Hq as ->|].
  - pose proof (sorted_group_opp j j Hjg Hjg) as Ho. by rewrite Hlt in Ho.
  - apply (sorted_group_le p (p + S q) i j); [lia|done|done|]. rewrite (sorted_group_opp i j) by done. by rewrite Hlt.
Qed.

(** Among rows with the same key, the sort keeps the order of the rows. *)
Lemma ties_prefix p i : StronglySorted lt group → sorted_group !! p = Some i →
  length (filter (λ j, K j = K i ∧ (j < i)%nat) group) = length (filter (λ j, K j = K i) (take p sorted_group)).
Proof using Hord Hinj.
  intros Hg Hi. assert (i ∈ group) as Hig by (apply sorted_group_elem; by eapply list_elem_of_lookup_2).
  assert (filter (λ j, K j = K i ∧ (j < i)%nat) group = filter (λ j, (j < i)%nat) (filter (λ j, K j = K i) group)) as ->.
  { rewrite list_filter_filter. apply filter_ext_elem. intros j _. tauto. }
  assert (filter (λ j, K j = K i) group = filter (λ j, K j = K i) sorted_group) as Hst.
  { symmetry. apply (sort_by_stable _ (λ j, K j = K i)); [done|]. intros x y Hx Hy Hkx Hky. apply Hinj; congruence. }
  assert (StronglySorted lt (filter (λ j, K j = K i) group)) as Hs by (by apply StronglySorted_filter).
  rewrite Hst in Hs |- *. revert Hs. rewrite <- (take_drop_middle _ _ _ Hi) at 1 2. rewrite filter_app, filter_cons_True by done.
  intros (Hlt & _ & Hs)%StronglySorted_app. inversion Hs as [|? ? _ Hgt]; subst.
  rewrite filter_app, filter_cons_False by lia. rewrite (filter_none _ (filter _ (drop _ _))), app_nil_r.
  - f_equal. rewrite <- (filter_all (λ _, True) (filter (λ j, K j = K i) (take p sorted_group))) at 2 by done.
    apply filter_ext_elem. intros j Hj. split; [done|]. intros _. apply Hlt; [done|]. by apply elem_of_cons; left.
  - intros j Hj Hji. rewrite Forall_forall in Hgt. specialize (Hgt j Hj). lia.
Qed.

(** The position of a row: the rows before it and its earlier peers. *)
Lemma position_count p i : StronglySorted lt group → sorted_group !! p = Some i →
  (length (filter (λ j, C j i = Lt) group) + length (filter (λ j, K j = K i ∧ (j < i)%nat) group))%nat = p.
Proof using Hord Hinj.
  intros Hg Hi. rewrite (before_prefix p i Hi), (ties_prefix p i Hg Hi).
  assert (i ∈ group) as Hig by (apply sorted_group_elem; by eapply list_elem_of_lookup_2).
  rewrite (filter_ext_elem (λ j, K j = K i) (λ j, ¬ C j i = Lt)).
  - rewrite filter_length_split, length_take_le; [done|]. apply lookup_lt_Some in Hi. lia.
  - intros j (q & Hq & Hj)%take_elem. assert (j ∈ group) as Hjg by (apply sorted_group_elem; by eapply list_elem_of_lookup_2).
    rewrite <- Hinj by done. pose proof (sorted_group_le q p j i Hq Hj Hi). by destruct (C j i).
Qed.

(** The distinct keys up to a row. *)
Definition keys_upto (p : nat) : nat := length (remove_dups (K <$> take (S p) sorted_group)).

Lemma keys_upto_S p prev cur : sorted_group !! p = Some prev → sorted_group !! S p = Some cur →
  keys_upto (S p) = (keys_upto p + if decide (K prev = K cur) then 0 else 1)%nat.
Proof using Hord Hinj.
  intros Hp Hc. unfold keys_upto at 1. rewrite (take_S_r _ _ cur) by done. rewrite fmap_app. cbn [fmap list_fmap].
  rewrite remove_dups_snoc_length. unfold keys_upto. f_equal.
  assert (∀ q i, sorted_group !! q = Some i → i ∈ group) as Hg by (intros; apply sorted_group_elem; by eapply list_elem_of_lookup_2).
  apply decide_ext. rewrite list_elem_of_fmap. split.
  - intros (j & Hk & (q & Hq & Hj)%take_elem). destruct (decide (q = p)) as [->|Hne]; [rewrite Hp in Hj; by injection Hj as ->|].
    assert (C j prev ≠ Gt) by (apply (sorted_group_le q p); [lia|done..]). assert (C prev cur ≠ Gt) by (apply (sorted_group_le p (S p)); [lia|done..]).
    apply Hinj; [by eapply Hg..|]. destruct (C prev cur) eqn:E; [done| |done]. exfalso.
    rewrite (sorted_group_opp prev cur) in E by (by eapply Hg). rewrite <- Hk in *. by destruct (C cur prev).
  - intros Heq. exists prev. split; [done|]. apply (list_elem_of_lookup_2 _ p). apply lookup_take_Some; split; [done|lia].
Qed.

Lemma keys_upto_count p i : sorted_group !! p = Some i →
  keys_upto p = length (remove_dups (K <$> filter (λ j, C j i ≠ Gt) group)).
Proof using Hord Hinj.
  intros Hi. symmetry. apply distinct_length; [apply NoDup_remove_dups|]. intros k. rewrite elem_of_remove_dups, !list_elem_of_fmap.
  assert (∀ q i, sorted_group !! q = Some i → i ∈ group) as Hg by (intros; apply sorted_group_elem; by eapply list_elem_of_lookup_2).
  split.
  - intros (j & -> & (q & Hq & Hj)%take_elem). exists j. split; [done|]. apply list_elem_of_filter. split; [|by eapply Hg].
    destruct (decide (q = p)) as [->|]; [|apply (sorted_group_le q p); [lia|done..]].
    rewrite Hi in Hj. injection Hj as ->. rewrite (proj2 (Hinj j j ltac:(by eapply Hg) ltac:(by eapply Hg))); done.
  - intros (j & -> & [Hle Hj]%list_elem_of_filter). apply sorted_group_elem, list_elem_of_lookup_1 in Hj as [q Hq].
    destruct (decide (q ≤ p)%nat).
    + exists j. split; [done|]. apply (list_elem_of_lookup_2 _ q). apply lookup_take_Some; split; [done|lia].
    + exists i. split; [|apply (list_elem_of_lookup_2 _ p); apply lookup_take_Some; split; [done|lia]].
      apply Hinj; [by eapply Hg..|]. assert (C i j ≠ Gt) as Hij by (apply (sorted_group_le p q); [lia|done..]).
      rewrite (sorted_group_opp i j) in Hij by (by eapply Hg). by destruct (C j i).
Qed.
End positions.

Lemma insert_by_ext {A} (f g : A → A → comparison) x l : (∀ y, y ∈ l → f y x = g y x) → insert_by f x l = insert_by g x l.
Proof.
  induction l as [|y l IH]; intros H; [done|]. cbn. rewrite (H y) by (by left). destruct (g y x); [done| |done].
  f_equal. apply IH. intros z Hz. apply H. by right.
Qed.

Lemma sort_by_ext {A} (f g : A → A → comparison) l : (∀ a b, a ∈ l → b ∈ l → f a b = g a b) → sort_by f l = sort_by g l.
Proof.
  induction l as [|x l IH]; intros H; [done|]. change (insert_by f x (sort_by f l) = insert_by g x (sort_by g l)).
  rewrite IH by (intros; apply H; by right). apply insert_by_ext. intros y Hy. rewrite sort_by_perm in Hy. apply H; [by right|by left].
Qed.

Lemma ord_on_le_lt {A} (cmp : A → A → comparison) l a b c : ord_on cmp l → a ∈ l → b ∈ l → c ∈ l →
  cmp a b ≠ Gt → cmp b c = Lt → cmp a c = Lt.
Proof.
  intros [Ha Ht] Hal Hbl Hcl Hab Hbc. pose proof (Ht a b c Hal Hbl Hcl Hab ltac:(by rewrite Hbc)) as Hac.
  destruct (cmp a c) eqn:E; [|done..]. exfalso. apply (Ht c a b Hcl Hal Hbl); [by rewrite Ha, E|done|]. by rewrite Ha, Hbc.
Qed.

Lemma sort_by_trivial {A} (l : list A) : sort_by (λ _ _, Eq) l = l.
Proof.
  induction l as [|x l IH]; [done|]. change (insert_by (λ _ _, Eq) x (sort_by (λ _ _, Eq) l) = x :: l). rewrite IH. by destruct l.
Qed.

Lemma first_error_Ok {A} (l : list (Result A)) : Forall (λ r, ∃ v, r = Ok v) l → first_error l = None.
Proof. by induction 1 as [|? ? [v ->]]. Qed.

(** ** The walks of a partition *)

Section windows.
Context `{!SerdeJson, !CaseTables, !UnicodeText, !FormatText} (input : Batch) (partition_by : list QExpr) (order_by : list (QExpr * bool))
  (columns : list ColumnDef) (pv kv : row → list Literal).

(** The input of a ranking function: [pv] and [kv] are the values of the PARTITION BY and
    the ORDER BY expressions, the latter of ordered types and without NULL. *)
Record ranked_input : Prop := mkRankedInput {
  ri_cols : Forall (λ c, is_Some (kind_of (col_ty c))) columns;
  ri_len : length order_by = length columns;
  ri_part : ∀ r, r ∈ b_rows input → mapM (λ e, eval_qexpr e (b_schema input) r) partition_by = Ok (pv r);
  ri_keys : ∀ r, r ∈ b_rows input → order_keys (b_schema input) order_by r = Ok (kv r) ∧ ordered_key columns (kv r) }.

Context (Hri : ranked_input).

Definition row_of (i : nat) : row := default [] (b_rows input !! i).
Definition key_of_row (i : nat) : list Literal := kv (row_of i).
Definition part_of_row (i : nat) : list Z := encode_row (pv (row_of i)).
Definition row_before (i j : nat) : comparison := dir_cmp order_by.*2 (key_of_row i) (key_of_row j).

Definition indices : list nat := seq 0 (length (b_rows input)).

Lemma row_of_elem i : i ∈ indices → b_rows input !! i = Some (row_of i) ∧ row_of i ∈ b_rows input.
Proof.
  intros Hi. apply elem_of_seq in Hi. destruct (lookup_lt_is_Some_2 (b_rows input) i) as [r Hr]; [lia|].
  unfold row_of. rewrite Hr. split; [done|]. by eapply list_elem_of_lookup_2.
Qed.

Lemma row_of_key i : i ∈ indices → ordered_key columns (key_of_row i).
Proof using Hri. intros [_ Hi]%row_of_elem. by apply (ri_keys Hri). Qed.

Lemma index_row i : i ∈ indices → index (b_rows input) (Z.of_nat i) = (Ok (row_of i) : Result row).
Proof. intros [Hi _]%row_of_elem. by apply index_lookup. Qed.

Lemma rows_ord group : group ⊆ indices → ord_on row_before group.
Proof using Hri.
  intros Hg. apply (ord_on_map key_of_row), (dir_cmp_ord columns (ri_cols Hri)).
  - rewrite length_fmap. apply (ri_len Hri).
  - intros k (i & -> & Hi)%list_elem_of_fmap. by apply row_of_key, Hg.
Qed.

Lemma rows_inj i j : i ∈ indices → j ∈ indices → row_before i j = Eq ↔ key_of_row i = key_of_row j.
Proof using Hri.
  intros Hi Hj. apply (dir_cmp_eq columns (ri_cols Hri)); [rewrite length_fmap; apply (ri_len Hri)|by apply row_of_key..].
Qed.

Notation sorted_rows := (sorted_group key_of_row (dir_cmp order_by.*2)).

Lemma sort_partition_ok group : group ⊆ indices →
  sort_partition_indices group (b_rows input) (b_schema input) order_by = Ok (sorted_rows group).
Proof using Hri.
  intros Hg. unfold sort_partition_indices, sorted_group. destruct order_by as [|o os] eqn:Eo.
  - f_equal. symmetry. apply sort_by_trivial.
  - rewrite <- Eo in *. rewrite (mapM_Ok _ (λ i, (i, key_of_row i))).
    2:{ intros i Hi%Hg. rewrite index_row by done. cbn [mbind outcome_bind]. apply row_of_elem in Hi as [_ Hi].
        by rewrite (proj1 (ri_keys Hri _ Hi)). }
    cbn [mbind outcome_bind].
    assert (∀ a b, a ∈ (λ i, (i, key_of_row i)) <$> group → b ∈ (λ i, (i, key_of_row i)) <$> group →
      window_cmp a.2 b.2 order_by.*2 = Ok (dir_cmp order_by.*2 a.2 b.2)) as Hc.
    { intros a b (i & -> & Hi)%list_elem_of_fmap (j & -> & Hj)%list_elem_of_fmap. apply (window_cmp_ok columns (ri_cols Hri)); by apply row_of_key, Hg. }
    rewrite first_error_Ok.
    + f_equal. rewrite (sort_by_ext _ (λ a b, dir_cmp order_by.*2 a.2 b.2)) by (intros a b Ha Hb; by rewrite Hc).
      rewrite sort_by_fmap, <- list_fmap_compose. cbn. by rewrite list_fmap_id.
    + apply Forall_forall. intros r (a & Ha%list_elem_of_In & Hr%list_elem_of_In)%list_elem_of_In%in_flat_map.
      apply list_elem_of_fmap in Hr as (b & -> & [_ Hb]%list_elem_of_filter). rewrite Hc by done. eauto.
Qed.

Lemma order_keys_cons schema e d ob r k : order_keys schema ((e, d) :: ob) r = Ok k →
  ∃ x k', k = x :: k' ∧ eval_qexpr e schema r = Ok x ∧ order_keys schema ob r = Ok k'.
Proof.
  unfold order_keys. change (mapM ?f ((e, d) :: ob)) with (x ← f (e, d); k ← mapM f ob; mret (x :: k)). intros Hm. cbn [fst] in Hm.
  destruct (eval_qexpr e schema r) as [x| |]; [|done..]. cbn [mbind outcome_bind] in Hm. destruct (mapM _ ob) as [k'| |]; [|done..].
  injection Hm as <-. eauto.
Qed.

Lemma order_keys_equal_ok r s : r ∈ b_rows input → s ∈ b_rows input →
  order_keys_equal r s (b_schema input) order_by = Ok (bool_decide (kv r = kv s)).
Proof using Hri.
  intros Hr%(ri_keys Hri) Hs%(ri_keys Hri). destruct Hr as [Er Hr], Hs as [Es Hs]. revert Er Es Hr Hs.
  generalize (kv r), (kv s). pose proof (ri_cols Hri) as Hc. clear Hri. revert order_by. induction Hc as [|c cs Hk Hc IH]; intros ob a b Er Es Ha Hb.
  - destruct Ha as [Ha _], Hb as [Hb _]. apply Forall2_nil_inv_l in Ha as ->. apply Forall2_nil_inv_l in Hb as ->.
    destruct ob as [|[e d] ob]; [done|]. by apply order_keys_cons in Er as (x & k' & ? & _).
  - destruct (ordered_key_cons _ _ _ Ha) as (x & a' & -> & Hx & Hnx & Ha'). destruct (ordered_key_cons _ _ _ Hb) as (y & b' & -> & Hy & Hny & Hb').
    destruct ob as [|[e d] ob]; [done|]. apply order_keys_cons in Er as (? & ? & [= <- <-] & Ex & Er). apply order_keys_cons in Es as (? & ? & [= <- <-] & Ey & Es).
    cbn [order_keys_equal]. rewrite Ex, Ey. cbn [mbind outcome_bind].
    rewrite (compare_eq_typed (col_ty c)); [|by destruct Hk, (col_ty c)|done..]. rewrite Hnx. cbn [negb andb mbind outcome_bind].
    case_bool_decide as Hxy; [|by rewrite bool_decide_false by congruence]. rewrite (IH ob a' b') by done.
    f_equal. apply bool_decide_ext. subst. naive_solver.
Qed.

(** The number of a row of a partition: the rows before it and its earlier peers, the rows
    before it, or the distinct keys up to its own. *)
Definition rank_number (func : WindowFunc) (group : list nat) (i : nat) : option nat :=
  let before := length (filter (λ j, row_before j i = Lt) group) in
  match func with
  | WRowNumber => Some (before + length (filter (λ j, key_of_row j = key_of_row i ∧ (j < i)%nat) group) + 1)%nat
  | WRank => Some (before + 1)%nat
  | WDenseRank => Some (length (remove_dups (key_of_row <$> filter (λ j, row_before j i ≠ Gt) group)))
  | _ => None
  end.

Section group.
Context (group : list nat) (Hg : group ⊆ indices).

Notation sorted := (sorted_rows group).

Lemma sorted_elem p i : sorted !! p = Some i → i ∈ group ∧ i ∈ indices.
Proof using Hg. intros Hi. assert (i ∈ group) by (eapply sorted_group_elem; by eapply list_elem_of_lookup_2). auto. Qed.

Lemma row_at_ok p i : sorted !! p = Some i → row_at input sorted p = Ok (row_of i).
Proof using Hg.
  intros Hi. unfold row_at. rewrite (index_lookup _ _ i) by done. cbn [mbind outcome_bind]. apply index_row. by apply (sorted_elem p).
Qed.

Lemma keys_equal_ok p q i j : sorted !! p = Some i → sorted !! q = Some j →
  order_keys_equal (row_of i) (row_of j) (b_schema input) order_by = Ok (bool_decide (key_of_row i = key_of_row j)).
Proof using Hri Hg. intros [_ Hi]%sorted_elem [_ Hj]%sorted_elem. by apply order_keys_equal_ok; apply row_of_elem. Qed.

Lemma group_ord : ord_on row_before group.
Proof using Hri Hg. by apply rows_ord. Qed.

Lemma group_inj i j : i ∈ group → j ∈ group → row_before i j = Eq ↔ key_of_row i = key_of_row j.
Proof using Hri Hg. intros. apply rows_inj; auto. Qed.

Lemma rank_walk_ok p i q : sorted !! p = Some i → (q ≤ p)%nat →
  rank_walk input order_by sorted q (row_of i) = Ok (length (filter (λ j, row_before j i = Lt) (take q sorted))).
Proof using Hri Hg.
  intros Hi. induction q as [|q IH]; intros Hq; [done|]. destruct (lookup_lt_is_Some_2 sorted q) as [j Hj]; [apply lookup_lt_Some in Hi; lia|].
  cbn [rank_walk]. rewrite (row_at_ok q j) by done. cbn [mbind outcome_bind]. rewrite (keys_equal_ok q p) by done. cbn [mbind outcome_bind].
  rewrite (take_S_r _ _ j), filter_app by done. destruct (sorted_elem _ _ Hi) as [Hig _], (sorted_elem _ _ Hj) as [Hjg _].
  assert (row_before j i ≠ Gt) as Hle by (apply (sorted_group_le _ _ _ group_ord q p); [lia|done..]).
  case_bool_decide as Hk.
  - rewrite IH by lia. rewrite filter_cons_False by (by rewrite (proj2 (group_inj j i Hjg Hig) Hk)). by rewrite filter_nil, app_nil_r.
  - assert (row_before j i = Lt) as Hlt by (rewrite <- (group_inj j i Hjg Hig) in Hk; by destruct (row_before j i)).
    rewrite filter_cons_True, filter_nil, length_app by done. f_equal. cbn [length].
    assert (filter (λ j, row_before j i = Lt) (take q sorted) = take q sorted) as ->; [|rewrite length_take_le; [lia|apply lookup_lt_Some in Hj; lia]].
    rewrite <- (filter_all (λ _, True) (take q sorted)) at 2 by done. apply filter_ext_elem. intros m (r & Hr & Hm)%take_elem. split; [done|].
    intros _. destruct (sorted_elem _ _ Hm) as [Hmg _]. apply (ord_on_le_lt row_before group _ j); [apply group_ord|done..| |done].
    by apply (sorted_group_le _ _ _ group_ord r q).
Qed.

Lemma dense_walk_ok p i : sorted !! p = Some i →
  dense_walk input order_by sorted p = Ok (Z.of_nat (keys_upto key_of_row (dir_cmp order_by.*2) group p)).
Proof using Hri Hg.
  revert i. induction p as [|p IH]; intros i Hi.
  - unfold keys_upto. rewrite (take_S_r _ _ i) by done. done.
  - destruct (lookup_lt_is_Some_2 sorted p) as [j Hj]; [apply lookup_lt_Some in Hi; lia|].
    cbn [dense_walk]. rewrite (IH j Hj). cbn [mbind outcome_bind]. rewrite (row_at_ok p j), (row_at_ok (S p) i) by done. cbn [mbind outcome_bind].
    rewrite (keys_equal_ok p (S p)) by done. cbn [mbind outcome_bind]. f_equal.
    rewrite (keys_upto_S _ _ _ group_ord group_inj p j i Hj Hi). case_bool_decide; case_decide; try done; lia.
Qed.

Lemma partition_values_ok func num : StronglySorted lt group → (∀ i, rank_number func group i = Some (num i)) →
  partition_values input order_by sorted func = Ok ((λ i, (i, LInt (Z.of_nat (num i)))) <$> sorted).
Proof using Hri Hg.
  intros Hs Hnum. unfold partition_values.
  assert (partition_agg input sorted func = Ok None) as -> by (specialize (Hnum O); by destruct func). cbn [mbind outcome_bind].
  rewrite (mapM_Ok _ (λ p, (p.2, LInt (Z.of_nat (num p.2))))).
  - f_equal. rewrite fmap_imap. apply list_eq. intros p. rewrite list_lookup_imap, list_lookup_fmap. done.
  - intros [p i] Hp. apply elem_of_lookup_imap in Hp as (p' & i' & [= <- <-] & Hi). cbn [fst snd].
    rewrite index_row by (by apply (sorted_elem p)). cbn [mbind outcome_bind]. specialize (Hnum i).
    assert (window_value input order_by sorted func None p (row_of i) = Ok (LInt (Z.of_nat (num i)))) as ->; [|done].
    destruct func; try discriminate Hnum; injection Hnum as <-; cbn [window_value].
    + rewrite (position_count _ _ _ group_ord group_inj p i Hs Hi). f_equal. f_equal. lia.
    + rewrite (rank_walk_ok p i p Hi) by lia. cbn [mbind outcome_bind]. rewrite Nat2Z.inj_add. do 4 f_equal. symmetry. exact (before_prefix _ _ _ group_ord p i Hi).
    + rewrite (dense_walk_ok p i Hi). cbn [mbind outcome_bind]. do 3 f_equal. exact (keys_upto_count _ _ _ group_ord group_inj p i Hi).
Qed.
End group.

(** ** The partitions *)

Definition part_members (l : list nat) (kb : list Z) : list nat := filter (λ i, part_of_row i = kb) l.

Lemma part_members_sorted l kb : StronglySorted lt l → StronglySorted lt (part_members l kb).
Proof. apply StronglySorted_filter. Qed.

Lemma part_members_snoc l i kb : part_members (l ++ [i]) kb = part_members l kb ++ (if decide (part_of_row i = kb) then [i] else []).
Proof. unfold part_members. by rewrite filter_app, filter_cons, filter_nil. Qed.

Lemma enumerated_rows : imap pair (b_rows input) = (λ i, (i, row_of i)) <$> indices.
Proof.
  apply list_eq. intros i. rewrite list_lookup_imap, list_lookup_fmap. unfold indices.
  destruct (b_rows input !! i) as [r|] eqn:E.
  - rewrite lookup_seq_lt by (by apply lookup_lt_Some in E). cbn. unfold row_of. by rewrite E.
  - rewrite lookup_seq_ge by (by apply lookup_ge_None in E). done.
Qed.

Definition parts_ok (l : list nat) (s : list (list Z) * gmap (list Z) (list nat)) : Prop :=
  NoDup s.1 ∧ (∀ i, i ∈ l → part_of_row i ∈ s.1) ∧
  ∀ kb, s.2 !! kb = if decide (kb ∈ s.1) then Some (part_members l kb) else None.

Lemma partition_step_ok l s i : i ∈ indices → parts_ok l s →
  ∃ s', partition_step (b_schema input) partition_by s (i, row_of i) = Ok s' ∧ parts_ok (l ++ [i]) s'.
Proof using Hri.
  intros Hi (Hnd & Hin & Hm). unfold partition_step. cbn [snd fst]. rewrite (ri_part Hri) by (by apply row_of_elem). cbn [mbind outcome_bind].
  fold (part_of_row i). pose proof (Hm (part_of_row i)) as Hmi. unfold parts_ok.
  case_decide as Hki; rewrite Hmi; eexists; (split; [done|]); cbn [fst snd].
  - split; [done|]. split; [intros j [Hj| ->%list_elem_of_singleton]%elem_of_app; auto|]. intros kb. destruct (decide (part_of_row i = kb)) as [<-|Hne].
    + by rewrite lookup_insert_eq, decide_True, part_members_snoc, decide_True by done.
    + rewrite lookup_insert_ne, Hm, part_members_snoc, (decide_False (P := _ = kb)), app_nil_r by done. done.
  - split; [apply NoDup_app; repeat split; [done| |apply NoDup_singleton]; intros x Hx ->%list_elem_of_singleton; done|].
    split; [intros j [Hj| ->%list_elem_of_singleton]%elem_of_app; apply elem_of_app; [left; auto|right; by apply list_elem_of_singleton]|].
    intros kb. destruct (decide (part_of_row i = kb)) as [<-|Hne].
    + rewrite lookup_insert_eq, decide_True, part_members_snoc, decide_True by (done || (apply elem_of_app; right; by apply list_elem_of_singleton)).
      unfold part_members. rewrite (filter_none _ l); [done|]. intros j Hj Hp. apply Hki. rewrite <- Hp. auto.
    + rewrite lookup_insert_ne, Hm, part_members_snoc, (decide_False (P := _ = kb)), app_nil_r by done.
      apply decide_ext. rewrite elem_of_app, list_elem_of_singleton. naive_solver.
Qed.

Lemma partition_loop_ok l : l ⊆ indices →
  ∃ s, for_each (partition_step (b_schema input) partition_by) ([], ∅) ((λ i, (i, row_of i)) <$> l) = Ok s ∧ parts_ok l s.
Proof using Hri.
  induction l as [|i l IH] using rev_ind; intros Hl.
  - exists ([], ∅). split; [done|]. split; [apply NoDup_nil_2|]. split; [by intros i ?%elem_of_nil|]. intros kb. apply lookup_empty.
  - destruct IH as (s & Es & Hs); [set_solver|]. rewrite fmap_app, for_each_app, Es. cbn [mbind outcome_bind fmap list_fmap for_each].
    destruct (partition_step_ok l s i) as (s' & -> & Hs'); [set_solver|done|]. by exists s'.
Qed.

Lemma partition_rows_ok : ∃ kbs, NoDup kbs ∧ (∀ i, i ∈ indices → part_of_row i ∈ kbs) ∧
  partition_rows (b_rows input) (b_schema input) partition_by = Ok (part_members indices <$> kbs).
Proof using Hri.
  unfold partition_rows. destruct partition_by as [|e es] eqn:E.
  - exists [encode_row []]. assert (∀ i, i ∈ indices → part_of_row i = encode_row []) as Hp.
    { intros i [_ Hi]%row_of_elem. apply (ri_part Hri) in Hi. rewrite E in Hi. injection Hi as Hi. unfold part_of_row. by rewrite <- Hi. }
    split; [apply NoDup_singleton|]. split; [intros i Hi; rewrite Hp by done; by apply list_elem_of_singleton|].
    cbn [fmap list_fmap]. do 2 f_equal. fold indices. unfold part_members. rewrite <- (filter_all (λ _, True) indices) at 1 by done.
    apply filter_ext_elem. intros i Hi. rewrite Hp by done. done.
  - rewrite <- E, enumerated_rows. destruct (partition_loop_ok indices) as (s & -> & Hnd & Hin & Hm); [done|]. cbn [mbind outcome_bind].
    exists s.1. split; [done|]. split; [done|]. apply mapM_Ok. intros kb Hkb. by rewrite Hm, decide_True.
Qed.

Lemma parts_NoDup kbs : NoDup kbs → NoDup (flat_map (part_members indices) kbs).
Proof.
  induction 1 as [|kb kbs Hkb Hnd IH]; [apply NoDup_nil_2|]. cbn [flat_map]. apply NoDup_app. split; [apply NoDup_filter, NoDup_seq|].
  split; [|done]. intros i [<- _]%list_elem_of_filter (kb' & Hk%list_elem_of_In & Hi%list_elem_of_In)%list_elem_of_In%in_flat_map.
  apply list_elem_of_filter in Hi as [<- _]. done.
Qed.

Lemma indices_sorted : StronglySorted lt indices.
Proof.
  unfold indices. generalize O. induction (length (b_rows input)) as [|n IH]; intros k; cbn; [constructor|]. constructor; [apply IH|].
  apply Forall_forall. intros j Hj%elem_of_seq. lia.
Qed.

Lemma window_column_ok func num : (∀ group i, rank_number func group i = Some (num group i)) →
  ∃ c, window_column input func partition_by order_by = Ok c ∧
       ∀ i, i ∈ indices → c !! i = Some (LInt (Z.of_nat (num (part_members indices (part_of_row i)) i))).
Proof using Hri.
  intros Hnum. unfold window_column. destruct partition_rows_ok as (kbs & Hnd & Hin & ->). cbn [mbind outcome_bind].
  set (val kb := (λ i, (i, LInt (Z.of_nat (num (part_members indices kb) i)))) <$> sorted_rows (part_members indices kb)).
  assert (mapM (λ group, sorted ← sort_partition_indices group (b_rows input) (b_schema input) order_by; partition_values input order_by sorted func)
            (part_members indices <$> kbs) = Ok (val <$> kbs)) as ->.
  { rewrite (mapM_Ok _ (λ group, (λ i, (i, LInt (Z.of_nat (num group i)))) <$> sorted_rows group)); [by rewrite <- list_fmap_compose|].
    intros group (kb & -> & Hkb)%list_elem_of_fmap. assert (part_members indices kb ⊆ indices) as Hsub by (intros i [_ Hi]%list_elem_of_filter; done).
    rewrite sort_partition_ok by done. cbn [mbind outcome_bind]. apply partition_values_ok; [done| |done]. apply part_members_sorted, indices_sorted. }
  cbn [mbind outcome_bind]. eexists. split; [done|]. intros i Hi. apply elem_of_list_to_map_1.
  - rewrite flat_map_concat_fmap, flat_map_concat_map. change (map ?f ?l) with (f <$> l).
    assert ((concat (val <$> kbs)).*1 ≡ₚ flat_map (part_members indices) kbs) as ->; [|by apply parts_NoDup].
    clear Hnd Hin. induction kbs as [|kb kbs IH]; [done|]. cbn. rewrite fmap_app. f_equiv; [|exact IH].
    unfold val. rewrite <- list_fmap_compose. cbn. rewrite list_fmap_id. apply sort_by_perm.
  - apply list_elem_of_In, in_concat. exists (val (part_of_row i)). split; apply list_elem_of_In.
    + apply list_elem_of_fmap. eauto.
    + apply list_elem_of_fmap. exists i. split; [done|]. apply sorted_group_elem. by apply list_elem_of_filter.
Qed.
End windows.

(** C@: on an input whose ORDER BY values are of totally ordered types and not NULL, the
    three ranking functions succeed, and the number a row gets is determined by counting in
    its partition (the rows with the same PARTITION BY key): ROW_NUMBER is one more than the
    rows before it plus the earlier rows with its key, RANK one more than the rows before
    it, DENSE_RANK the number of distinct keys up to its own. *)
Theorem ranking_exact `{!SerdeJson, !CaseTables, !UnicodeText, !FormatText} (input : Batch) (partition_by : list QExpr) (order_by : list (QExpr * bool))
    (columns : list ColumnDef) (pv kv : row → list Literal) (func : WindowFunc) :
  ranked_input input partition_by order_by columns pv kv →
  func = WRowNumber ∨ func = WRank ∨ func = WDenseRank →
  ∃ c, window_column input func partition_by order_by = Ok c ∧
       ∀ i, (i < length (b_rows input))%nat →
       ∃ n, rank_number input order_by kv func (part_members input pv (indices input) (part_of_row input pv i)) i = Some n ∧
            c !! i = Some (LInt (Z.of_nat n)).
Proof.
  intros Hri Hf. set (num group i := default O (rank_number input order_by kv func group i)).
  assert (∀ group i, rank_number input order_by kv func group i = Some (num group i)) as Hnum by (intros; by destruct Hf as [-> |[-> | ->]]).
  destruct (window_column_ok input partition_by order_by columns pv kv Hri func num Hnum) as (c & Hc & Hv).
  exists c. split; [done|]. intros i Hi. eexists. split; [apply Hnum|]. apply Hv. apply elem_of_seq. lia.
Qed.

(** ** A table of pay by department *)

#[local] Existing Instances no_json ascii_tables ascii_text bits_text.

Definition pay : Batch :=
  mkBatch [mkColumnRef "e" "dept" TInt64; mkColumnRef "e" "pay" TInt64]
    [[LInt 1; LInt 50]; [LInt 2; LInt 70]; [LInt 1; LInt 90]; [LInt 1; LInt 50]; [LInt 1; LInt 20]].
Definition by_dept : list QExpr := [QColumn None "dept"].
Definition by_pay : list (QExpr * bool) := [(QColumn None "pay", false)].

Lemma pay_ranked : ranked_input pay by_dept by_pay [plain_column "pay" TInt64] (λ r, [nth 0 r LNull]) (λ r, [nth 1 r LNull]).
Proof.
  split.
  - by apply Forall_singleton.
  - done.
  - intros r Hr. cbn in Hr. each_row Hr; done.
  - intros r Hr. cbn in Hr. each_row Hr; (split; [done|]; split; [apply Forall2_cons; split; [by split|by apply Forall2_nil]|done]).
Qed.

Lemma ranking_exact_witness :
  (∃ c, window_column pay WDenseRank by_dept by_pay = Ok c ∧ (λ i, c !! i) <$> seq 0 5 = [Some (LInt 2); Some (LInt 1); Some (LInt 1); Some (LInt 2); Some (LInt 3)]) ∧
  ∃ c, window_column pay WRank by_dept by_pay = Ok c ∧ c !! 4%nat = Some (LInt 4).
Proof.
  split; [eexists; split; vm_compute; reflexivity|].
  destruct (ranking_exact pay by_dept by_pay _ _ _ WRank pay_ranked ltac:(by right; left)) as (c & Hc & Hn).
  exists c. split; [done|]. destruct (Hn 4%nat ltac:(vm_compute; lia)) as (n & Hr & ->). vm_compute in Hr. by injection Hr as <-.
Defined.
